(* ===== verification/_CoqProject ===== *)
-Q . S2P
Prelude.v
GoStr.v
Json.v
Contract.v
Descriptor.v
Layout.v
Spec.v
Provision.v
Broker.v
Requests.v
Observation.v
Cursor.v
Queue.v
Markers.v
SessionState.v
Session.v
SessionProps.v
SessionGate.v
SessionRuns.v
Lifecycle.v
Bytes.v
Streams.v
Follower.v
FollowerProps.v
Control.v
JsonInj.v
Containment.v
HarnessName.v
Launch.v
LaunchProps.v
Flags.v
FlagsProps.v
Classifier.v
ClassifierProps.v
Supervisor.v
SupervisorProps.v
ContainState.v
ContainStateProps.v
Landlock.v
Contain.v
Applied.v
ContainProps.v
Verdict.v
VerdictProps.v
ChatTurn.v
ChatTurnProps.v
ChatInterrupt.v
Drive.v
Terminal.v
Submit.v
SubmitProps.v
PermMode.v
PermModeProps.v
Prompt.v
PromptProps.v
Proc.v
Codex.v
CodexTurn.v
CodexHandlers.v
CodexWorld.v
CodexInv.v
CodexSteps.v
CodexMoves.v
CodexReads.v
CodexProps.v
Claude.v
ClaudeTurn.v
ClaudeReports.v
ClaudeAsks.v
ClaudeGrants.v
ClaudeSubmits.v
ClaudeProps.v
Registry.v
Headers.v
ChatStream.v
ChatStreamTurns.v
ChatStreamOps.v
ChatStreamProps.v
