(* ===== verification/Prelude.v ===== *)
(** * A verification of harness-wrapper

    harness-wrapper drives coding-agent harnesses. Its Harness Adapter Interface
    ([pkg/contract]) is implemented once for every harness ([pkg/adapter]) over
    a Profile each harness has: a Supervisor calls Describe and Provision before
    any agent process exists; a Host opens Sessions, sends inputs, interrupts
    turns, answers prompts, and reads observations in batches it acknowledges.
    Beneath it, the wrapper core ([internal/wrapcore]) launches one harness with
    the permission mode, model and containment asked for, watches what it
    writes, classifies it, and ends the run with a Result; [cmd/harness-wrapper]
    is its command line. [internal/chatcore] lets several callers take turns in
    one conversation, and [pkg/transcript] follows the transcript file a harness
    writes.

    ** The files, and what each models

    Shared:
    - Prelude: Go's [(T, error)] as [result], early returns as [when … refuse],
      [range] loops over an error, 64-bit wrap-around, the tactics and the hint
      database [hw], and the lemmas the components share.
    - GoStr, Bytes: what the sources use of strings, bytes, unicode/utf8, strconv
      and path — byte strings, UTF-8 decoding, Split, Cut, Atoi, Itoa, Clean,
      Join, TrimSpace, lines and suffixes.
    - Json, JsonInj: time.Time, RFC 3339, and encoding/json's encoding of the
      values the sources marshal, its length, and that it loses nothing.

    The Harness Adapter Interface:
    - Contract, Descriptor, Layout, Spec, Provision, Broker, Requests,
      Observation: [pkg/contract], by subject — errors.go, contract.go and
      bounds.go; descriptor.go; the layout, paths and relocation of
      provision.go; its agent spec; its result, with the adapter's Provision;
      broker.go and keeper.go, with the adapter's Placeholder, Keep and drawn
      tokens (pkg/adapter/broker.go); session.go's requests, with the adapter's
      NewSession; observation.go.
    - Registry: registry.go of pkg/contract and of internal/chatcore; Headers:
      pkg/adapter/headers.go.
    - Cursor: pkg/adapter/cursor.go, the queue of observations a Session or a
      record delivers in acknowledged batches.
    - Queue: internal/delivery/queue.go.
    - Markers: pkg/adapter/markers.go, the Recover of record.go, and
      sessionlock.go.
    - SessionState, Session: pkg/adapter/session.go, its state and one
      definition per critical section. Turns and interrupt operations, which the
      code shares by pointer, live in heaps of the state; timers are armed,
      expired or gone.
    - SessionProps, SessionGate, SessionRuns: the Session as a transition system
      whose steps are those sections in any order, its invariants, and an
      executable scheduler that runs it on concrete inputs.
    - Lifecycle: the parts of Open and Close between their critical sections,
      checkWorkDir, and the Session beside its cursor.

    The codex transport (pkg/adapter/codex):
    - Codex: classify.go, native.go and the small readings of transport.go.
    - CodexTurn: transport.go's turns as a transition system, [step]: Submit,
      the reader of codex's lines, the timers that send an input again,
      interruptions and wait, a critical section or a write each.
    - CodexHandlers: what a transport may report, as a machine that accepts
      reports ([accept]); the shape of the state and that each handler keeps it.
    - CodexWorld, CodexInv, CodexSteps, CodexMoves, CodexReads: a codex that
      keeps its protocol ([honest]), the transports that can be ([reachable]),
      their invariant ([inv]), and that each move keeps it.
    - CodexProps: the theorems, and an executable scheduler.

    claude's stream-json transport (pkg/adapter/claudecode):
    - Claude: classify.go, permission.go, the background tasks of shared.go.
    - ClaudeTurn: transport.go and asks.go as a transition system, [step]: the
      reader, which does a frame's critical sections, reports and writes one
      after the other, Submit, Answer, control requests, Stop's closing of stdin
      and wait.
    - ClaudeReports: what may be reported of turns, as a machine ([lane]), the
      transports that can be, and their invariant; ClaudeAsks: the same of
      prompts ([show]); ClaudeGrants: what each response stands on;
      ClaudeSubmits: what each Submit's answer stands on.
    - ClaudeProps: the theorems, and an executable scheduler.

    Streams and transcripts:
    - Streams: pkg/screen/csifilter.go (Csi), internal/wrapcore/linetap.go
      (LineTap) and recent_output.go (Recent), and the tail buffer of
      internal/chatcore/stream.go (Tail), each over every cutting of its stream
      into writes.
    - Proc: pkg/adapter/internal/proc/proc.go and readBoundedLine of stream.go,
      lines of bounded length and how an exit is classified.
    - Follower, FollowerProps: pkg/transcript/follower.go, a file that grows, is
      truncated or replaced, read in batches the caller commits.

    The wrapper:
    - HarnessName: pkg/harnessname.
    - Launch, LaunchProps: the arguments, validation and defaults of
      internal/wrapcore/wrapper.go.
    - Containment: the requests of pkg/containment.
    - Flags, FlagsProps: cmd/harness-wrapper's flags.go, contain_flags.go,
      sandbox_defaults.go and the argv of tmux.go.
    - Classifier, ClassifierProps: the escape stripper of pty.go, errorclass.go,
      detector.go, harness_adapter.go and classifier.go.
    - Supervisor, SupervisorProps: internal/wrapcore/session.go as a transition
      system: the output reader, the classifier goroutine and the supervisor.
    - Control: internal/chatcore/control.go, as a transition system of its
      critical sections and wake-ups.

    Conversations:
    - Verdict, VerdictProps: how internal/chatcore decides a turn's outcome —
      apierror.go, relabel.go, swallowed.go, the texts of interrupt.go,
      history.go, the endings of conversation.go, and internal/resettime.
    - ChatTurn, ChatTurnProps, ChatInterrupt: the life of a turn in
      internal/chatcore — send.go, events.go, the event loop and the idle watcher
      of conversation.go, and interrupt.go — as a transition system: each Send,
      the loop, the watcher and each Interrupt has a program counter, and a step
      is one critical section or one wake-up.
    - ChatStream: a conversation on claude's stream-json transport —
      internal/chatcore/stream.go, with beginTurn, failSubmit and exitWith — as a
      transition system: Send, the reader of claude's frames, streamWait, the
      Interrupts and the Answers are threads, and what the reader has still to do
      of a frame is a list. ChatStreamTurns: the invariant of the turns.
      ChatStreamOps: that of the interrupts. ChatStreamProps: the theorems.
    - Drive: the drivers that type into a harness read what they see one read at
      a time, write keystrokes and poll. A driver is a computation over a tape of
      observations, one for each read; a theorem over every tape is a theorem
      over every behaviour of the harness, the clock, the caller's context and
      the other threads.
    - Terminal: what such a driver reads and types — the dialogs and postures of
      pkg/turns/turns.go, an adapter's optional readers, the errors, the keys of
      ready.go and submit.go.
    - Submit, SubmitProps: ready.go, submit.go, and clearComposer of
      interrupt.go. PermMode, PermModeProps: permmode.go. Prompt, PromptProps:
      input.go and answer_plan.go.

    Containment:
    - Landlock: internal/landlock's rights and rulesets.
    - Contain: internal/contain's checks before a launch — pinned paths,
      profiles, grants, targets, socket roots — and the child's environment.
    - Applied: pkg/containment's applied policy, targets and fingerprint.
    - ContainState, ContainStateProps: the state directory's lock, launch
      record, cgroup, recovery and removal (state_linux.go, launch_linux.go,
      cgroup_linux.go), as steps of its owners and of the kernel.
    - ContainProps: what the grants, the environment and the targets guarantee.

    ** What the theorems show

    - Session (SessionProps, SessionGate): over every interleaving of events,
      timers and callers, a turn is reported once and in order, an interrupt's
      answer is its turn's outcome, State is coherent, the exit is final and
      reported once, live keys are distinct, and a harness that starts no turns
      itself is on one input's turn at a time.
    - Send (SessionRuns): exactly which inputs are admitted, and that every error
      says truly whether the input can have reached the harness.
    - Open and Close (Lifecycle): a failed Open leaves no lock and no process;
      Close answers in time, and drained means everything was acknowledged.
    - Cursor: nothing is lost, repeated or reordered; a checkpoint never runs
      ahead of what was acknowledged; batches keep the caller's bound.
    - Queue: it refines a first-in first-out queue, keeps its bounds, loses no
      wake-up, drains once closed, and accounts for every value.
    - Markers: an input id is claimed once whatever fails and whoever else
      writes, Recover never wrongly says not found, and the index misses nothing.
    - Contract: each check accepts exactly what its specification says — specs,
      results, requests, hosts, versions — and what it accepts stays beneath its
      roots and keeps credentials from the harness.
    - Streams: where output is cut into writes does not change what the filter
      passes, which lines the tap delivers, or what the windows hold.
    - Follower: what the caller stored is one pass over the file, whatever was
      appended, lost or restarted in between; polling drains the file; a reset
      is reported exactly when the file no longer extends the checkpoint.
    - Launch and Flags: a permission mode that validation accepts is neither
      dropped nor raised by what is injected, the rung reads back from argv, and
      the tmux child runs what was asked for.
    - Classifier: the stripper keeps exactly the text; every verdict is coherent.
    - Supervisor: one final event, last, that agrees with the Result; the Result
      says how the run ended; keep-alive is never overruled; passes are bounded
      by the output; the status tracks the evidence.
    - Control: one owner at a time, first come first served, no waiter forgotten.
    - Verdict: a turn's outcome rests only on what was recorded after its prompt;
      a code stands only beside its wall's reason on an errored turn without
      text; a held turn is complete only on a recorded reply, and so is a prompt
      the screen shows was never taken; the last word outranks the screen.
    - ChatTurn: over every interleaving each turn is announced once and ended
      once, EventExited is last, and an Interrupt's answer says what became of
      its turn.
    - ChatStream: the same of a streamed conversation, whose exit, besides, is
      always reported once its process ends: nothing it waits for is out of its
      own threads' reach.
    - Submit, PermMode, Prompt: the submit key follows the text only on evidence
      or after the wait; a message waits for an idle composer; a mode switch
      types only while no dialog is pending, says truly where it left the
      session, and returns; an answer's confirm key follows the sight of the
      highlight on its target; a plan's step follows the evidence of the one
      before; several choices are typed at once or not at all; an answer
      returns. That something returns is proved for a clock that goes on, with
      fuel bounded by the budget and the clock's grain.
    - Codex: every report a reachable transport makes is one the abstract machine
      accepts; an input is sent twice only after codex dropped it; an input
      whose Submit failed is never heard of; an interrupt of the input's turn is
      begun. What codex is trusted with is [honest]: one turn at a time, no
      echo of what it was not sent, no answer to what it was not asked, nothing
      begun of what it refuses. Lines of bounded length are read whole or
      dropped whole.
    - Claude: every report of turns and of prompts a reachable transport makes is
      one its machine accepts, whatever claude says; a tool is permitted only by
      the Host's yes to the prompt of what was asked, rules are kept for the
      session alone, and no request is answered twice; Submit succeeds only on
      claude's receipt, and says not submitted only of what was never written.
    - Registry, Headers: a registered harness is found, for good; the callers of
      adapterNamed share one adapter until the name is registered again; what is
      quoted is one word to a shell, read back as it was.
    - Containment: Normalize is idempotent, and Equal means the same policy; no
      grant reaches another session's state or writes what was asked for
      read-only; the environment has each name once, from the source that has
      precedence; a resume is accepted exactly when its paths still lead where
      they led; equal policies have equal fingerprints.
    - ContainState: unless a launch is refused by the lock or by recovery, a
      state directory never holds processes of two launches, is removed only
      when empty, and a crashed launch is recovered.

    Some theorems show runs in which the code does not do what its comments say:
    [bound_off_by_one] (Cursor), [gate_timer_ignores_own_turn],
    [stale_timer_opens_auth_gate], [second_input_admitted_while_one_runs]
    (SessionRuns), [drained_before_exit_pushed] (Lifecycle),
    [InterruptValidate_negative_deadline] (Requests),
    [long_sequence_depends_on_writes] (Streams), [Equal_confuses_raw_paths]
    (Containment), [model_suppresses_mode] (LaunchProps),
    [session_named_separator] (FlagsProps), [clear_lost_in_race]
    (SupervisorProps), [refused_lock_forges_cleanup],
    [refused_recovery_admits_next], [removal_races_launch],
    [unconfined_start_leaves_children] (ContainStateProps),
    [fingerprint_confuses_grants] (ContainProps), [rescue_ignores_last_word]
    (VerdictProps), [begun_turn_clears_held], [refused_turn_dropped]
    (ChatTurnProps), [nested_marker_ends_paste], [dwell_outlives_ready_composer]
    (SubmitProps), [unreadable_start_restored] (PermModeProps),
    [label_confirms_another_row] (PromptProps), [interrupt_lost_before_answer]
    and [cancelled_then_runs] (CodexProps), [errored_not_submitted]
    (ClaudeProps), [replaced_factory_shared] (Registry),
    [stale_result_ends_next_turn], [dropped_interrupt_waits] and
    [late_interrupt_panics] (ChatStreamProps).

    ** Choices

    An [int] is a [Z]; where it can wrap the wrap is written out ([wrap64]) or a
    bound is a hypothesis. A string is Go's, bytes. A map is a [gmap]; where its
    iteration order shows, the order is an argument or the theorem holds for
    every order. A mutex makes its critical section one step; a closed channel
    is a flag. A loop is structural over its input where it can be; the two that
    are not (the CSI filter's and the follower's reads) take as fuel the length
    of what is left, which their lemmas show is enough, and a loop that waits
    takes the list of what each wake-up finds. An error is its code, reason,
    certainty, field and required size; message texts are not modelled. SHA-256,
    the random ids, [strings.EqualFold], the Profile, its Transport and its
    Reader, each harness's transcript decoder and output matchers are
    parameters.

    ** Not modelled

    The harnesses' own profiles and records, the transports of claude's terminal
    and of pi, how codex's and claude's processes are started, decoded and ended,
    RewriteFirstLine, the JSON decoding of Models, the chat daemon, the
    opening of a conversation, the system calls of containment
    and the text of its AppArmor profile, the screen readers, starting processes
    and terminals, tests, probes and documents: they read or write formats of
    programs that are not here, or only call the system. *)
From Stdlib Require Import ZArith Ascii String Lia.
From stdpp Require Import base tactics list gmap strings option.

#[global] Open Scope Z_scope.

(** ** Results: Go's [(T, error)] *)

Declare Scope go_scope.
Delimit Scope go_scope with go.
#[global] Open Scope go_scope.

Inductive result (E A : Type) : Type :=
| Ok (a : A)
| Err (e : E).
Arguments Ok {E A} a.
Arguments Err {E A} e.

(** An early return: [if b { return err }]. *)
Notation "'when' b 'refuse' e ;; k" := (if b then Err e else k)
  (at level 100, b at level 99, e at level 99, k at level 200, right associativity,
   format "'[v' 'when'  b  'refuse'  e  ;; '/' k ']'") : go_scope.

#[export] Instance result_bind E : MBind (result E) := fun A B f m =>
  match m with Ok a => f a | Err e => Err e end.
#[export] Instance result_ret E : MRet (result E) := fun A a => Ok a.

Definition is_ok {E A} (r : result E A) : bool :=
  match r with Ok _ => true | Err _ => false end.

Definition to_option {E A} (r : result E A) : option A :=
  match r with Ok a => Some a | Err _ => None end.

Definition of_option {E A} (e : E) (o : option A) : result E A :=
  match o with Some a => Ok a | None => Err e end.

(** [map_err f r]: Go's [if err != nil { return wrap(err) }]. *)
Definition map_err {E E' A} (f : E -> E') (r : result E A) : result E' A :=
  match r with Ok a => Ok a | Err e => Err (f e) end.

Lemma bind_Ok {E A B} (m : result E A) (f : A -> result E B) b :
  (m ≫= f) = Ok b <-> exists a, m = Ok a /\ f a = Ok b.
Proof. destruct m; cbn; naive_solver. Qed.

Lemma bind_Err {E A B} (m : result E A) (f : A -> result E B) e :
  (m ≫= f) = Err e <-> m = Err e \/ exists a, m = Ok a /\ f a = Err e.
Proof. destruct m; cbn; naive_solver. Qed.

Lemma when_Ok {E A} (b : bool) (e : E) (k : result E A) a :
  (when b refuse e ;; k) = Ok a <-> b = false /\ k = Ok a.
Proof. destruct b; naive_solver. Qed.

(** A check sequenced before the rest: [if err := check(); err != nil]. *)
Lemma bind_unit {E B} (m : result E unit) (k : result E B) b :
  (m ≫= fun _ => k) = Ok b <-> m = Ok tt /\ k = Ok b.
Proof. rewrite bind_Ok. split; [intros ([] & ? & ?)|intros [? ?]]; eauto. Qed.

(** A guard [if b && !ok { refuse }]: what passes it. *)
Lemma guard_implies (b ok : bool) : b && negb ok = false <-> (b = true -> ok = true).
Proof. destruct b, ok; naive_solver. Qed.

Lemma is_ok_true {E A} (r : result E A) : is_ok r = true <-> exists a, r = Ok a.
Proof. destruct r; cbn; naive_solver. Qed.

(** ** Tactics *)

(** Case analysis on every [match] and [if] of the goal. *)
Ltac split_match :=
  repeat match goal with
  | |- context [match ?x with _ => _ end] => destruct x eqn:?; simplify_eq/=; try done
  end.

Ltac split_match_in H :=
  repeat match type of H with
  | context [match ?x with _ => _ end] => destruct x eqn:?; simplify_eq/=; try done
  end.

(** Boolean connectives and comparisons to propositions, everywhere. *)
Ltac bprop :=
  repeat match goal with
  | H : (_ && _)%bool = true |- _ => apply andb_true_iff in H as [? ?]
  | H : (_ || _)%bool = false |- _ => apply orb_false_iff in H as [? ?]
  | H : (_ && _)%bool = false |- _ => apply andb_false_iff in H
  | H : (_ || _)%bool = true |- _ => apply orb_true_iff in H
  | H : negb _ = true |- _ => apply negb_true_iff in H
  | H : negb _ = false |- _ => apply negb_false_iff in H
  | H : (_ <=? _)%Z = true |- _ => apply Z.leb_le in H
  | H : (_ <=? _)%Z = false |- _ => apply Z.leb_gt in H
  | H : (_ <? _)%Z = true |- _ => apply Z.ltb_lt in H
  | H : (_ <? _)%Z = false |- _ => apply Z.ltb_ge in H
  | H : (_ =? _)%Z = true |- _ => apply Z.eqb_eq in H
  | H : (_ =? _)%Z = false |- _ => apply Z.eqb_neq in H
  | H : String.eqb _ _ = true |- _ => apply String.eqb_eq in H
  | H : String.eqb _ _ = false |- _ => apply String.eqb_neq in H
  | H : bool_decide _ = true |- _ => apply bool_decide_eq_true in H
  | H : bool_decide _ = false |- _ => apply bool_decide_eq_false in H
  end.

Create HintDb hw.

(** [len(xs) == 0], and [p == nil]. *)
Definition is_nil {A} (l : list A) : bool := match l with [] => true | _ => false end.
Definition is_none {A} (o : option A) : bool := match o with None => true | Some _ => false end.

(** ** Lists *)

(** Go's [for _, x := range xs { found = found || f(x) }] and early-return
    loops that look for an element. *)
Definition any {A} (f : A -> bool) (l : list A) : bool := existsb f l.

Lemma any_true {A} (f : A -> bool) l : any f l = true <-> exists x, x ∈ l /\ f x = true.
Proof.
  unfold any. rewrite existsb_exists. setoid_rewrite list_elem_of_In. done.
Qed.

Lemma any_false {A} (f : A -> bool) l : any f l = false <-> forall x, x ∈ l -> f x = false.
Proof.
  rewrite <- not_true_iff_false, any_true. split.
  - intros H x Hx. destruct (f x) eqn:E; [|done]. exfalso. eauto.
  - intros H (x & Hx & E). by rewrite H in E.
Qed.

Lemma forallb_elem {A} (f : A -> bool) (l : list A) :
  forallb f l = true <-> forall x, x ∈ l -> f x = true.
Proof. rewrite forallb_forall. setoid_rewrite list_elem_of_In. done. Qed.

(** A loop over a slice with its index, [for i, x := range xs], that stops at
    the first error. *)
Fixpoint range_from {E A S} (i : Z) (body : Z -> A -> S -> result E S) (l : list A) (s : S)
  : result E S :=
  match l with
  | [] => Ok s
  | x :: l => s' ← body i x s; range_from (i + 1) body l s'
  end.

Definition range {E A S} (body : Z -> A -> S -> result E S) (l : list A) (s : S) : result E S :=
  range_from 0 body l s.

(** The invariant of a range loop: [P] of the elements consumed so far. *)
Lemma range_from_inv {E A S} (body : Z -> A -> S -> result E S) (P : list A -> S -> Prop) l :
  forall i done s s',
  P done s ->
  (forall j x d t t', x ∈ l -> P d t -> body j x t = Ok t' -> P (d ++ [x]) t') ->
  range_from i body l s = Ok s' -> P (done ++ l) s'.
Proof.
  induction l as [|x l IH]; intros i done s s' HP Hstep Hrun; cbn in Hrun.
  - simplify_eq. by rewrite app_nil_r.
  - apply bind_Ok in Hrun as (t & Hb & Hrun).
    replace (done ++ x :: l) with ((done ++ [x]) ++ l) by (by rewrite <- app_assoc).
    eapply IH; [ | | exact Hrun].
    + eapply Hstep; [|done|done]. apply list_elem_of_here.
    + intros j y d t0 t1 Hy. apply Hstep. by apply list_elem_of_further.
Qed.

Lemma range_inv {E A S} (body : Z -> A -> S -> result E S) (P : list A -> S -> Prop) l s s' :
  P [] s ->
  (forall j x d t t', x ∈ l -> P d t -> body j x t = Ok t' -> P (d ++ [x]) t') ->
  range body l s = Ok s' -> P l s'.
Proof. intros H0 Hs Hr. apply (range_from_inv body P l 0 [] s s' H0 Hs Hr). Qed.

(** Every error of a range loop is an error of its body. *)
Lemma range_from_Err {E A S} (body : Z -> A -> S -> result E S) (P : E -> Prop) l :
  (forall j x t e, body j x t = Err e -> P e) ->
  forall i s e, range_from i body l s = Err e -> P e.
Proof.
  intros Hb. induction l as [|x l IH]; intros i s e; cbn; [done|].
  rewrite bind_Err. intros [H|(t & _ & H)]; eauto.
Qed.

Lemma range_Err {E A S} (body : Z -> A -> S -> result E S) (P : E -> Prop) l s e :
  (forall j x t e, body j x t = Err e -> P e) -> range body l s = Err e -> P e.
Proof. intros Hb. apply (range_from_Err body P l Hb). Qed.

(** Case analysis on a computation that failed: one goal per refusal. *)
Ltac err_cases H :=
  repeat match type of H with
  | (if ?b then _ else _) = Err _ => destruct b eqn:?; [try (injection H as H; subst)|]
  | (_ ≫= _) = Err _ => let a := fresh "a" in apply bind_Err in H as [H|(a & _ & H)]
  | Err _ = Err _ => injection H as H; subst
  | Ok _ = Err _ => discriminate H
  | match ?o with _ => _ end = Err _ => destruct o eqn:?
  end.

(** A range loop whose every body succeeds from every state reached succeeds. *)
Lemma range_from_total {E A S} (body : Z -> A -> S -> result E S) (P : list A -> S -> Prop) l :
  forall i done s,
  P done s ->
  (forall j x d t, x ∈ l -> P d t -> (exists l', d ++ x :: l' = done ++ l) ->
     exists t', body j x t = Ok t' /\ P (d ++ [x]) t') ->
  exists s', range_from i body l s = Ok s' /\ P (done ++ l) s'.
Proof.
  induction l as [|x l IH]; intros i done s HP Hstep; cbn.
  - exists s. by rewrite app_nil_r.
  - destruct (Hstep i x done s) as (t & Hb & Ht); [apply list_elem_of_here|done|by exists l|].
    rewrite Hb. cbn.
    destruct (IH (i + 1) (done ++ [x]) t Ht) as (s' & Hr & Hs').
    + intros j y d t0 Hy Hd [l' Hl']. apply Hstep; [by apply list_elem_of_further|done|].
      exists l'. by rewrite Hl', <- app_assoc.
    + exists s'. split; [done|]. by rewrite <- app_assoc in Hs'.
Qed.

Lemma range_total {E A S} (body : Z -> A -> S -> result E S) (P : list A -> S -> Prop) l s :
  P [] s ->
  (forall j x d t, x ∈ l -> P d t -> (exists l', d ++ x :: l' = l) ->
     exists t', body j x t = Ok t' /\ P (d ++ [x]) t') ->
  exists s', range body l s = Ok s' /\ P l s'.
Proof. intros H0 Hs. apply (range_from_total body P l 0 [] s H0 Hs). Qed.

(** What a range loop of guards establishes: it ends without an error exactly
    when [Q] holds of every element and those before it. [R] relates the loop's
    state to the elements it consumed. *)
Section RangeGuards.
Context {E A S : Type} (body : Z -> A -> S -> result E S).
Variables (R : list A -> S -> Prop) (Q : list A -> A -> Prop).
Hypothesis body_ok : forall j d x t t', R d t -> body j x t = Ok t' -> Q d x /\ R (d ++ [x]) t'.
Hypothesis body_total : forall j d x t, R d t -> Q d x -> exists t', body j x t = Ok t'.

Lemma range_from_iff l : forall i d s, R d s ->
  (exists s', range_from i body l s = Ok s') <->
  (forall d' x l', l = d' ++ x :: l' -> Q (d ++ d') x).
Proof.
  induction l as [|y l IH]; intros i d s HR.
  - cbn. split; [|eauto]. intros _ d' x l' H. by destruct d'.
  - split.
    + intros (s' & Hs). cbn in Hs. apply bind_Ok in Hs as (t & Hb & Hs).
      apply (body_ok _ d) in Hb as [HQ HR']; [|done].
      intros d' x l' Hl. destruct d' as [|z d']; cbn in Hl; simplify_eq; [by rewrite app_nil_r|].
      assert (Hex : exists s', range_from (i + 1) body (d' ++ x :: l') t = Ok s') by eauto.
      apply (IH _ (d ++ [z])) with (d' := d') (x := x) (l' := l') in Hex; [|done|done].
      by rewrite <- app_assoc in Hex.
    + intros HQ. destruct (body_total i d y s HR) as (t & Hb).
      { specialize (HQ [] y l eq_refl). by rewrite app_nil_r in HQ. }
      cbn. rewrite Hb. cbn. apply (body_ok _ d) in Hb as [_ HR']; [|done].
      apply (IH _ (d ++ [y]) t HR'). intros d' x l' ->. rewrite <- app_assoc. by apply (HQ (y :: d') x l').
Qed.

Lemma range_iff l s : R [] s ->
  (exists s', range body l s = Ok s') <-> (forall d x l', l = d ++ x :: l' -> Q d x).
Proof. intros HR. apply (range_from_iff l 0 [] s HR). Qed.
End RangeGuards.

(** Splitting a list at each of its elements. *)
Lemma prefixes_Forall {A} (P : A -> Prop) l :
  (forall d x l', l = d ++ x :: l' -> P x) <-> Forall P l.
Proof.
  rewrite Forall_forall. split.
  - intros H x Hx. apply list_elem_of_In, list_elem_of_split in Hx as (d & l' & ->). eauto.
  - intros H d x l' ->. apply H, list_elem_of_In. rewrite elem_of_app, elem_of_cons. auto.
Qed.

Lemma prefixes_NoDup {A B} (f : A -> B) l :
  (forall d x l', l = d ++ x :: l' -> f x ∉ map f d) <-> NoDup (map f l).
Proof.
  induction l as [|y l IH] using rev_ind.
  - split; [constructor|]. intros _ d x l' H. by destruct d.
  - rewrite map_app, list.NoDup_app. cbn. split.
    + intros H. split; [apply IH; intros d x l' ->; apply (H d x (l' ++ [y])); by rewrite <- app_assoc|].
      split; [|apply NoDup_singleton].
      intros b Hb ->%list_elem_of_singleton. by apply (H l y []) in Hb.
    + intros (Hl & Hd & _) d x l' Heq. destruct l' as [|z l' _] using rev_ind.
      * apply app_inj_tail in Heq as [-> ->]. intros Hin. apply (Hd _ Hin). by apply list_elem_of_singleton.
      * rewrite app_comm_cons, app_assoc in Heq. apply app_inj_tail in Heq as [-> _].
        by apply (proj2 IH Hl d x l').
Qed.

Lemma prefixes_pairs {A} (R : A -> A -> Prop) l :
  (forall d x l', l = d ++ x :: l' -> Forall (fun o => R o x) d) <-> ForallOrdPairs R l.
Proof.
  induction l as [|y l IH].
  - split; [constructor|]. intros _ d x l' H. by destruct d.
  - split.
    + intros H. constructor.
      * apply prefixes_Forall. intros d x l' ->. specialize (H (y :: d) x l' eq_refl).
        by apply Forall_cons_iff in H as [? _].
      * apply IH. intros d x l' ->. specialize (H (y :: d) x l' eq_refl).
        by apply Forall_cons_iff in H as [_ ?].
    + inversion_clear 1 as [|? ? Hy Hl]. intros d x l' Heq.
      destruct d as [|z d]; [constructor|]. cbn in Heq. simplify_eq. constructor.
      * by apply prefixes_Forall with (d := d) (x := x) (l' := l') in Hy.
      * eapply (proj2 IH Hl); done.
Qed.

(** A loop of guards with no state of its own. *)
Lemma range_guards {E A} (body : Z -> A -> unit -> result E unit) (Q : A -> Prop) l :
  (forall j x, body j x tt = Ok tt <-> Q x) ->
  (exists s, range body l tt = Ok s) <-> Forall Q l.
Proof.
  intros HQ. rewrite (range_iff body (fun _ _ => True) (fun _ x => Q x)); [apply prefixes_Forall|..]; [|..|done].
  - intros j d x [] [] _ H. split; [|done]. by apply (HQ j).
  - intros j d x [] _ H. exists tt. by apply HQ.
Qed.

(** The loop that refuses a key given twice: [if seen[key] { return err };
    seen[key] = true], beside a guard [Q] of each element, started with the
    keys [s0] already seen. *)
Section RangeDistinct.
Context {E A K : Type} `{Countable K}.
Variables (body : Z -> A -> gset K -> result E (gset K)) (key : A -> K) (Q : A -> Prop).
Hypothesis body_ok : forall j x seen seen', body j x seen = Ok seen' ->
  Q x /\ key x ∉ seen /\ seen' = {[key x]} ∪ seen.
Hypothesis body_total : forall j x seen, Q x -> key x ∉ seen -> exists seen', body j x seen = Ok seen'.

Let seen_of (s0 : gset K) (d : list A) : gset K := list_to_set (map key d) ∪ s0.

Lemma seen_of_snoc s0 d x : seen_of s0 (d ++ [x]) = {[key x]} ∪ seen_of s0 d.
Proof. clear body_ok body_total. unfold seen_of. rewrite map_app, list_to_set_app_L. cbn. set_solver. Qed.

Lemma range_distinct_seen l s0 s' :
  range body l s0 = Ok s' -> s' = list_to_set (map key l) ∪ s0.
Proof.
  clear body_total. intros Hr. apply (range_inv body (fun d t => t = seen_of s0 d) l s0 s'); [|..|done].
  - unfold seen_of. cbn. set_solver.
  - intros j x d t t' _ -> Hb. apply body_ok in Hb as (_ & _ & ->). by rewrite seen_of_snoc.
Qed.

Lemma range_distinct l s0 :
  (exists s', range body l s0 = Ok s') <->
  Forall Q l /\ NoDup (map key l) /\ (forall x, x ∈ l -> key x ∉ s0).
Proof.
  rewrite (range_iff body (fun d t => t = seen_of s0 d)
             (fun d x => Q x /\ key x ∉ map key d /\ key x ∉ s0)).
  - rewrite <- prefixes_Forall, <- prefixes_NoDup.
    assert (Hs0 : (forall x, x ∈ l -> key x ∉ s0) <-> (forall d x l', l = d ++ x :: l' -> key x ∉ s0)).
    { rewrite prefixes_Forall, list.Forall_forall. done. }
    rewrite Hs0. naive_solver.
  - intros j d x t t' -> Hb. apply body_ok in Hb as (HQ & Hn & ->). rewrite seen_of_snoc.
    split; [|done]. split; [done|]. unfold seen_of in Hn.
    rewrite not_elem_of_union, elem_of_list_to_set in Hn. done.
  - intros j d x t -> (HQ & Hd & H0). apply body_total; [done|]. unfold seen_of.
    rewrite not_elem_of_union, elem_of_list_to_set. done.
  - unfold seen_of. cbn. set_solver.
Qed.
End RangeDistinct.

(** Two's-complement wrap-around of a 64-bit [int]. *)
Definition wrap64 (z : Z) : Z := (z + 2 ^ 63) mod 2 ^ 64 - 2 ^ 63.

Lemma wrap64_id z : - 2 ^ 63 <= z < 2 ^ 63 -> wrap64 z = z.
Proof. intros H. unfold wrap64. rewrite Z.mod_small; lia. Qed.

(** Go's [len] of a slice. *)
Abbreviation llen l := (Z.of_nat (length l)).
