(* ===== verification/GoStr.v ===== *)
(** The part of Go's language and standard library the contract and the
    adapter use on strings: byte length, [range] over runes (UTF-8), package
    [strings], [strconv], [path] and [io/fs] names. A Go string is a sequence
    of bytes, so it is a [string] of 8-bit [ascii] codes. *)
From Stdlib Require Import ZArith Ascii String Lia DecimalString DecimalZ Decimal.
From stdpp Require Import base tactics list gmap strings option.
From S2P Require Import Prelude.

#[local] Open Scope string_scope.
#[local] Open Scope Z_scope.

(** ** Bytes and runes *)

(** [int(c)] of a byte. *)
Definition code (c : ascii) : Z := Z.of_N (N_of_ascii c).

(** [len(s)]. *)
Definition slen (s : string) : Z := Z.of_nat (String.length s).

Definition bytes (s : string) : list Z := map code (list_ascii_of_string s).

Definition RuneError : Z := 65533.

Definition in_range (lo hi b : Z) : bool := (lo <=? b) && (b <=? hi).

(** The bytes that may follow first byte [b0] of a three- and of a four-byte
    sequence (unicode/utf8's accept ranges). *)
Definition second3 (b0 b1 : Z) : bool :=
  if b0 =? 224 then in_range 160 191 b1
  else if b0 =? 237 then in_range 128 159 b1
  else in_range 225 239 b0 && in_range 128 191 b1.

Definition second4 (b0 b1 : Z) : bool :=
  if b0 =? 240 then in_range 144 191 b1
  else if b0 =? 244 then in_range 128 143 b1
  else in_range 241 243 b0 && in_range 128 191 b1.

(** The runes of a byte sequence, [None] for a byte that starts no valid
    sequence. *)
Fixpoint decode_runes (bs : list Z) : list (option Z) :=
  match bs with
  | [] => []
  | b0 :: t0 =>
    if b0 <? 128 then Some b0 :: decode_runes t0
    else match t0 with
      | [] => [None]
      | b1 :: t1 =>
        if in_range 194 223 b0 && in_range 128 191 b1
        then Some ((b0 - 192) * 64 + (b1 - 128)) :: decode_runes t1
        else match t1 with
          | [] => None :: decode_runes t0
          | b2 :: t2 =>
            if second3 b0 b1 && in_range 128 191 b2
            then Some ((b0 - 224) * 4096 + (b1 - 128) * 64 + (b2 - 128)) :: decode_runes t2
            else match t2 with
              | [] => None :: decode_runes t0
              | b3 :: t3 =>
                if second4 b0 b1 && in_range 128 191 b2 && in_range 128 191 b3
                then Some ((b0 - 240) * 262144 + (b1 - 128) * 4096 + (b2 - 128) * 64 + (b3 - 128))
                       :: decode_runes t3
                else None :: decode_runes t0
              end
          end
      end
  end.

(** [for _, r := range s]. *)
Definition runes (s : string) : list Z :=
  map (fun o => match o with Some r => r | None => RuneError end) (decode_runes (bytes s)).

(** [utf8.ValidString]. *)
Definition ValidString (s : string) : bool :=
  forallb (fun o => match o with Some _ => true | None => false end) (decode_runes (bytes s)).

(** [utf8.RuneStart]: not a continuation byte. *)
Definition RuneStart (b : Z) : bool := negb (in_range 128 191 b).

(** ** Package strings *)

Notation "a =s? b" := (String.eqb a b) (at level 70) : go_scope.

Definition HasPrefix (s p : string) : bool := String.prefix p s.

(** [strings.CutPrefix], with [None] for not found. *)
Fixpoint CutPrefix (s p : string) : option string :=
  match p, s with
  | "", _ => Some s
  | String a p', String b s' => if Ascii.eqb a b then CutPrefix s' p' else None
  | _, _ => None
  end.

(** [strings.TrimPrefix]. *)
Definition TrimPrefix (s p : string) : string := default s (CutPrefix s p).

(** [strings.Cut] at a one-byte separator. *)
Fixpoint Cut (s : string) (c : ascii) : option (string * string) :=
  match s with
  | "" => None
  | String a s' =>
    if Ascii.eqb a c then Some ("", s')
    else match Cut s' c with
         | Some (h, t) => Some (String a h, t)
         | None => None
         end
  end.

(** [strings.Split] at a one-byte separator, and [strings.Join]. *)
Fixpoint Split (c : ascii) (s : string) : list string :=
  match s with
  | "" => [""]
  | String a s' =>
    if Ascii.eqb a c then "" :: Split c s'
    else match Split c s' with
         | h :: t => String a h :: t
         | [] => [String a ""]
         end
  end.

Fixpoint Join (c : ascii) (l : list string) : string :=
  match l with
  | [] => ""
  | [x] => x
  | x :: l => x ++ String c (Join c l)
  end.

(** [strings.Contains] and [bytes.Contains]. *)
Fixpoint Contains (s sub : string) : bool :=
  String.prefix sub s || match s with "" => false | String _ s' => Contains s' sub end.

(** [strings.IndexByte(s, c) >= 0]. *)
Definition ContainsByte (s : string) (c : ascii) : bool :=
  any (Ascii.eqb c) (list_ascii_of_string s).

(** [strings.ToLower] on ASCII bytes. *)
Definition lower_byte (c : ascii) : ascii :=
  if in_range 65 90 (code c) then ascii_of_N (Z.to_N (code c + 32)) else c.

Fixpoint ToLower (s : string) : string :=
  match s with "" => "" | String c s' => String (lower_byte c) (ToLower s') end.

(** [s[:n]]. *)
Definition Take (n : Z) (s : string) : string := String.substring 0 (Z.to_nat n) s.

(** ** Package strconv *)

Definition Itoa (n : Z) : string := NilZero.string_of_int (Z.to_int n).

Definition digit (c : ascii) : option Z :=
  if in_range 48 57 (code c) then Some (code c - 48) else None.

Fixpoint digits (base acc : Z) (s : string) : option Z :=
  match s with
  | "" => Some acc
  | String c s' =>
    match digit c with
    | Some d => if d <? base then digits base (acc * base + d) s' else None
    | None => None
    end
  end.

Definition MaxInt : Z := 2 ^ 63 - 1.

(** [strconv.Atoi] on a 64-bit platform: an optional sign and at least one
    digit, within [int]. *)
Definition Atoi (s : string) : option Z :=
  let '(neg, ds) := match s with
    | String c s' => if Ascii.eqb c "-" then (true, s')
                     else if Ascii.eqb c "+" then (false, s') else (false, s)
    | "" => (false, s)
    end in
  match ds with
  | "" => None
  | _ =>
    match digits 10 0 ds with
    | Some n =>
      let v := if (neg : bool) then - n else n in
      if (- 2 ^ 63 <=? v) && (v <=? MaxInt) then Some v else None
    | None => None
    end
  end.

(** [strconv.ParseUint(s, 8, 32)]. *)
Definition ParseUint8_32 (s : string) : option Z :=
  match s with
  | "" => None
  | _ => match digits 8 0 s with
         | Some n => if n <? 2 ^ 32 then Some n else None
         | None => None
         end
  end.

(** ** Packages path and path/filepath (Unix), and io/fs *)

Definition slash : ascii := "/"%char.

Definition IsAbs (p : string) : bool := HasPrefix p "/".

(** One component of [path.Clean]'s scan; the components kept so far are in
    reverse. *)
Definition clean_step (rooted : bool) (acc : list string) (c : string) : list string :=
  if (c =s? "") || (c =s? ".") then acc
  else if c =s? ".." then
    match acc with
    | h :: t => if h =s? ".." then c :: acc else t
    | [] => if rooted then [] else [c]
    end
  else c :: acc.

Definition Clean (p : string) : string :=
  if p =s? "" then "."
  else
    let rooted := IsAbs p in
    let body := Join slash (rev (foldl (clean_step rooted) [] (Split slash p))) in
    if rooted then "/" ++ body else if body =s? "" then "." else body.

(** [filepath.Join] of two elements. *)
Definition PathJoin (a b : string) : string :=
  if a =s? "" then (if b =s? "" then "" else Clean b)
  else if b =s? "" then Clean a
  else Clean (a ++ "/" ++ b).

(** [fs.ValidPath]. *)
Definition ValidPath (name : string) : bool :=
  ValidString name &&
  ((name =s? ".") ||
   forallb (fun e => negb ((e =s? "") || (e =s? ".") || (e =s? ".."))) (Split slash name)).

(** ** Lemmas: bytes and runes *)

Lemma code_range c : 0 <= code c < 256.
Proof. unfold code. pose proof (N_ascii_bounded c). lia. Qed.

Lemma bytes_range s b : b ∈ bytes s -> 0 <= b < 256.
Proof.
  unfold bytes. intros Hb. apply list_elem_of_In, in_map_iff in Hb as (c & <- & _).
  apply code_range.
Qed.

Lemma length_list_ascii s : length (list_ascii_of_string s) = String.length s.
Proof. induction s; cbn; auto. Qed.

Lemma append_nil_l s : "" ++ s = s.
Proof. done. Qed.

Lemma append_cons a s t : String a s ++ t = String a (s ++ t).
Proof. done. Qed.

Lemma append_nil_r s : s ++ "" = s.
Proof. induction s as [|a s IH]; [done|]. by rewrite append_cons, IH. Qed.

Lemma append_assoc s t u : (s ++ t) ++ u = s ++ t ++ u.
Proof. induction s as [|a s IH]; [done|]. by rewrite !append_cons, IH. Qed.

#[export] Hint Rewrite append_nil_l append_nil_r append_cons append_assoc : gostr.

Lemma code_inj a b : code a = code b -> a = b.
Proof.
  unfold code. intros H. apply (f_equal Z.to_N) in H. rewrite !N2Z.id in H.
  rewrite <- (ascii_N_embedding a), <- (ascii_N_embedding b). by rewrite H.
Qed.

Lemma bytes_inj s t : bytes s = bytes t -> s = t.
Proof.
  revert t. induction s as [|a s IH]; intros [|b t] H; try done. cbn in H. injection H as H1 H2.
  apply code_inj in H1 as ->. f_equal. by apply IH.
Qed.

Lemma bytes_app s t : bytes (s ++ t) = (bytes s ++ bytes t)%list.
Proof. unfold bytes. induction s as [|a s IH]; [done|]. rewrite append_cons. cbn. by rewrite IH. Qed.

Lemma slen_app s t : slen (s ++ t) = slen s + slen t.
Proof.
  unfold slen. induction s as [|a s IH]; [done|].
  rewrite append_cons. cbn [String.length]. lia.
Qed.

Lemma slen_nonneg s : 0 <= slen s.
Proof. unfold slen. lia. Qed.

Lemma slen_bytes s : slen s = llen (bytes s).
Proof. unfold slen, bytes. by rewrite length_map, length_list_ascii. Qed.

(** A character class of ASCII bytes holds of every rune exactly when it holds
    of every byte: a multi-byte sequence, valid or not, has no rune in it. *)
Section AsciiClass.
Variable p : Z -> bool.
Hypothesis ascii_only : forall r, 128 <= r -> p r = false.

Let rune_val (o : option Z) : Z := match o with Some r => r | None => RuneError end.

Lemma forallb_decode_runes n : forall bs, (length bs <= n)%nat ->
  forallb p (map rune_val (decode_runes bs)) = forallb p bs.
Proof.
  assert (HE : p RuneError = false) by (by apply ascii_only).
  induction n as [|n IH]; intros bs Hn; [by destruct bs; cbn in Hn; [|lia]|].
  destruct bs as [|b0 t0]; [done|]. cbn in Hn.
  cbn [decode_runes].
  destruct (b0 <? 128) eqn:E0; [cbn; by rewrite IH by lia|].
  apply Z.ltb_ge in E0. cbn [forallb]. rewrite (ascii_only b0) by done. cbn [andb].
  destruct t0 as [|b1 t1]; [cbn; by rewrite HE|].
  destruct (in_range 194 223 b0 && in_range 128 191 b1) eqn:E1.
  { unfold in_range in E1. bprop. cbn. rewrite ascii_only by lia. done. }
  destruct t1 as [|b2 t2]; [cbn; by rewrite HE|].
  destruct (second3 b0 b1 && in_range 128 191 b2) eqn:E2.
  { unfold second3, in_range in E2. bprop. cbn.
    rewrite ascii_only; [done|]. split_match_in H; bprop; lia. }
  destruct t2 as [|b3 t3]; [cbn; by rewrite HE|].
  destruct (second4 b0 b1 && in_range 128 191 b2 && in_range 128 191 b3) eqn:E3.
  { unfold second4, in_range in E3. bprop. cbn.
    rewrite ascii_only; [done|]. split_match_in H; bprop; lia. }
  cbn. by rewrite HE.
Qed.

Lemma forallb_runes s : forallb p (runes s) = forallb p (bytes s).
Proof. apply (forallb_decode_runes (length (bytes s))). done. Qed.
End AsciiClass.

Lemma forallb_decode_valid bs :
  forallb (fun b => b <? 128) bs = true ->
  forallb (fun o : option Z => match o with Some _ => true | None => false end) (decode_runes bs) = true.
Proof.
  induction bs as [|b bs IH]; [done|]. cbn [forallb]. intros H. bprop.
  cbn. destruct (Z.ltb_spec b 128); [|lia]. cbn. auto.
Qed.

Lemma ValidString_ascii s : forallb (fun b => b <? 128) (bytes s) = true -> ValidString s = true.
Proof. apply forallb_decode_valid. Qed.

(** ** Lemmas: package strings *)

Lemma append_inj_l s t u : s ++ t = s ++ u -> t = u.
Proof. induction s as [|a s IH]; [done|]. rewrite !append_cons. intros H. injection H. auto. Qed.

Lemma CutPrefix_Some p : forall s r, CutPrefix s p = Some r <-> s = p ++ r.
Proof.
  induction p as [|a p IH]; intros s r.
  - rewrite append_nil_l. destruct s; cbn; naive_solver.
  - rewrite append_cons. destruct s as [|b s]; cbn; [done|].
    destruct (Ascii.eqb_spec a b) as [->|Hne]; [rewrite IH|]; naive_solver.
Qed.

Lemma TrimPrefix_app p r : TrimPrefix (p ++ r) p = r.
Proof. unfold TrimPrefix. by rewrite (proj2 (CutPrefix_Some p (p ++ r) r)). Qed.

Lemma HasPrefix_spec p : forall s, HasPrefix s p = true <-> exists r, s = p ++ r.
Proof.
  unfold HasPrefix. induction p as [|a p IH]; intros s.
  - destruct s; cbn; split; eauto.
  - destruct s as [|b s]; cbn.
    + split; [done|]. intros [r H]. done.
    + destruct (ascii_dec a b) as [->|Hne].
      * rewrite IH. split; intros [r Hr]; exists r; [by rewrite append_cons, Hr|].
        rewrite append_cons in Hr. by injection Hr.
      * split; [done|]. intros [r Hr]. rewrite append_cons in Hr. by injection Hr as ->.
Qed.

(** [c] does not occur in [s]. *)
Definition no_byte (c : ascii) (s : string) : Prop := c ∉ list_ascii_of_string s.

Lemma no_byte_cons c a s : no_byte c (String a s) <-> a <> c /\ no_byte c s.
Proof. unfold no_byte. cbn. rewrite not_elem_of_cons. naive_solver. Qed.

Lemma no_byte_nil c : no_byte c "".
Proof. apply not_elem_of_nil. Qed.

Lemma no_byte_app c s t : no_byte c (s ++ t) <-> no_byte c s /\ no_byte c t.
Proof.
  induction s as [|a s IH].
  - rewrite append_nil_l. pose proof (no_byte_nil c). tauto.
  - rewrite append_cons, !no_byte_cons, IH. tauto.
Qed.

Lemma Cut_app c h t : no_byte c h -> Cut (h ++ String c t) c = Some (h, t).
Proof.
  induction h as [|b h IH]; intros Hno.
  - rewrite append_nil_l. cbn. by rewrite Ascii.eqb_refl.
  - apply no_byte_cons in Hno as [Hne Hno]. rewrite append_cons. cbn.
    destruct (Ascii.eqb_spec b c); [done|]. by rewrite IH.
Qed.

Lemma Cut_Some c s h t : Cut s c = Some (h, t) <-> s = h ++ String c t /\ no_byte c h.
Proof.
  split; [|intros [-> Hno]; by apply Cut_app].
  revert h. induction s as [|a s IH]; intros h; cbn; [done|].
  destruct (Ascii.eqb_spec a c) as [->|Hne].
  - intros [= <- <-]. split; [done|apply no_byte_nil].
  - destruct (Cut s c) as [[h' t']|]; [|done]. intros [= <- ->].
    destruct (IH h' eq_refl) as [-> Hno]. by rewrite no_byte_cons, append_cons.
Qed.

Lemma Split_nonnil c s : Split c s <> [].
Proof. destruct s as [|a s]; cbn; [done|]. by destruct (Ascii.eqb a c), (Split c s). Qed.

Lemma Join_Split c s : Join c (Split c s) = s.
Proof.
  induction s as [|a s IH]; [done|]. cbn. pose proof (Split_nonnil c s).
  destruct (Ascii.eqb_spec a c) as [->|Hne]; destruct (Split c s) as [|h t]; try done.
  - change (Join c ("" :: h :: t)) with ("" ++ String c (Join c (h :: t))). by rewrite IH.
  - destruct t as [|h' t]; cbn in IH |- *; [by rewrite IH|]. by rewrite append_cons, IH.
Qed.

Lemma Split_no_byte c s e : e ∈ Split c s -> no_byte c e.
Proof.
  revert e. induction s as [|a s IH]; intros e; cbn.
  - intros ->%list_elem_of_singleton. apply no_byte_nil.
  - destruct (Ascii.eqb_spec a c) as [->|Hne].
    + intros [->|He]%elem_of_cons; [apply no_byte_nil|auto].
    + destruct (Split c s) as [|h t].
      * intros ->%list_elem_of_singleton. apply no_byte_cons. split; [done|apply no_byte_nil].
      * intros [->|He]%elem_of_cons; [apply no_byte_cons; split; [done|]|];
          apply IH; [apply list_elem_of_here|by apply list_elem_of_further].
Qed.

Lemma Split_single c s : no_byte c s -> Split c s = [s].
Proof.
  induction s as [|a s IH]; [done|]. rewrite no_byte_cons. intros [Hne Hs]. cbn.
  destruct (Ascii.eqb_spec a c); [done|]. by rewrite IH.
Qed.

Lemma Split_app_sep c h t : no_byte c h -> Split c (h ++ String c t) = h :: Split c t.
Proof.
  induction h as [|a h IH]; intros Hno.
  - rewrite append_nil_l. cbn. by rewrite Ascii.eqb_refl.
  - apply no_byte_cons in Hno as [Hne Hno]. rewrite append_cons. cbn.
    destruct (Ascii.eqb_spec a c); [done|]. by rewrite IH.
Qed.

Lemma Split_Join c l : l <> [] -> Forall (no_byte c) l -> Split c (Join c l) = l.
Proof.
  induction l as [|x l IH]; [done|]. intros _ [Hx Hl]%Forall_cons_iff.
  destruct l as [|y l]; [by apply Split_single|].
  change (Join c (x :: y :: l)) with (x ++ String c (Join c (y :: l))).
  rewrite Split_app_sep by done. by rewrite IH.
Qed.

Lemma Split_app_string c s t : Split c (s ++ String c t) = (Split c s ++ Split c t)%list.
Proof.
  induction s as [|a s IH].
  - rewrite append_nil_l. cbn. by rewrite Ascii.eqb_refl.
  - rewrite append_cons. cbn. rewrite IH. pose proof (Split_nonnil c s).
    destruct (Ascii.eqb a c); [done|]. by destruct (Split c s).
Qed.

Lemma Join_cons c x l : l <> [] -> Join c (x :: l) = x ++ String c (Join c l).
Proof. by destruct l. Qed.

Lemma Join_app c l1 l2 : l1 <> [] -> l2 <> [] ->
  Join c (l1 ++ l2)%list = Join c l1 ++ String c (Join c l2).
Proof.
  intros H1 H2. induction l1 as [|x l1 IH]; [done|].
  destruct l1 as [|y l1]; [by apply Join_cons|].
  cbn [app]. rewrite (Join_cons c x (y :: l1)) by done.
  rewrite Join_cons by done. rewrite append_assoc, append_cons. f_equal. f_equal. by apply IH.
Qed.

Lemma Join_inj c l1 l2 : l1 <> [] -> l2 <> [] ->
  Forall (no_byte c) l1 -> Forall (no_byte c) l2 -> Join c l1 = Join c l2 -> l1 = l2.
Proof. intros ? ? ? ? H. rewrite <- (Split_Join c l1), <- (Split_Join c l2) by done. by rewrite H. Qed.

(** ** Lemmas: package strconv *)

Fixpoint uint_value (acc : Z) (d : Decimal.uint) : Z :=
  match d with
  | Nil => acc
  | D0 d => uint_value (acc * 10 + 0) d
  | D1 d => uint_value (acc * 10 + 1) d
  | D2 d => uint_value (acc * 10 + 2) d
  | D3 d => uint_value (acc * 10 + 3) d
  | D4 d => uint_value (acc * 10 + 4) d
  | D5 d => uint_value (acc * 10 + 5) d
  | D6 d => uint_value (acc * 10 + 6) d
  | D7 d => uint_value (acc * 10 + 7) d
  | D8 d => uint_value (acc * 10 + 8) d
  | D9 d => uint_value (acc * 10 + 9) d
  end.

Lemma digits_uint d : forall acc,
  digits 10 acc (NilEmpty.string_of_uint d) = Some (uint_value acc d).
Proof. induction d as [|d IH|d IH|d IH|d IH|d IH|d IH|d IH|d IH|d IH|d IH]; intros acc; [done|exact (IH _)..]. Qed.

Lemma uint_value_acc d : forall acc,
  uint_value (Z.pos acc) d = Z.pos (Pos.of_uint_acc d acc).
Proof.
  induction d as [|d IH|d IH|d IH|d IH|d IH|d IH|d IH|d IH|d IH|d IH]; intros acc;
    cbn [uint_value Pos.of_uint_acc]; [done|rewrite <- IH; f_equal; lia..].
Qed.

Lemma uint_value_of_uint d : uint_value 0 d = Z.of_uint d.
Proof.
  induction d as [|d IH|d IH|d IH|d IH|d IH|d IH|d IH|d IH|d IH|d IH]; [done|exact IH|..];
    (cbn [uint_value]; unfold Z.of_uint; cbn [Pos.of_uint Z.of_N];
     match goal with |- uint_value ?x d = _ => let y := eval cbn in x in change x with y end;
     apply uint_value_acc).
Qed.

Lemma Itoa_int i :
  NilZero.string_of_int i =
  match i with
  | Decimal.Pos d => NilZero.string_of_uint d
  | Decimal.Neg d => String "-" (NilZero.string_of_uint d)
  end.
Proof. by destruct i. Qed.

Lemma digits_NilZero d : digits 10 0 (NilZero.string_of_uint d) = Some (Z.of_uint d).
Proof. rewrite <- uint_value_of_uint. destruct d; cbn; try done; apply digits_uint. Qed.

(** A decimal's text starts with a digit, never with a sign. *)
Lemma NilZero_head d : exists c s, NilZero.string_of_uint d = String c s /\
  Ascii.eqb c "-" = false /\ Ascii.eqb c "+" = false.
Proof. destruct d; eexists _, _; (split; [reflexivity|]); split; reflexivity. Qed.

Lemma Atoi_Itoa n : - 2 ^ 63 <= n <= MaxInt -> Atoi (Itoa n) = Some n.
Proof.
  intros Hn. unfold Itoa. rewrite Itoa_int. pose proof (DecimalZ.of_to n) as Hof.
  unfold Atoi. destruct (Z.to_int n) as [d|d]; destruct (NilZero_head d) as (c & s & Hs & Hm & Hp).
  - rewrite Hs, Hm, Hp. rewrite <- Hs, digits_NilZero. cbn in Hof. rewrite Hof.
    destruct (Z.leb_spec (- 2 ^ 63) n), (Z.leb_spec n MaxInt); try lia. done.
  - cbn [Ascii.eqb Bool.eqb]. rewrite Hs. cbn -[digits Z.leb MaxInt Z.pow]. rewrite <- Hs, digits_NilZero.
    cbn in Hof. replace (- Z.of_uint d) with n by lia.
    destruct (Z.leb_spec (- 2 ^ 63) n), (Z.leb_spec n MaxInt); try lia. done.
Qed.

Lemma no_byte_uint c d : digit c = None -> no_byte c (NilZero.string_of_uint d).
Proof.
  intros Hc. assert (H : no_byte c (NilEmpty.string_of_uint d)).
  { induction d; cbn; rewrite ?no_byte_cons; [apply no_byte_nil|..]; (split; [|done]);
      intros <-; done. }
  destruct d; try exact H. cbn. rewrite no_byte_cons. split; [intros <-; done|apply no_byte_nil].
Qed.

Lemma no_byte_Itoa c n : digit c = None -> c <> "-"%char -> no_byte c (Itoa n).
Proof.
  intros Hc Hm. unfold Itoa. rewrite Itoa_int. destruct (Z.to_int n); [by apply no_byte_uint|].
  rewrite no_byte_cons. split; [done|by apply no_byte_uint].
Qed.

(** A number below 10^k prints in at most k digits. *)
Lemma uint_value_ge d : forall acc, 0 <= acc ->
  acc * 10 ^ slen (NilEmpty.string_of_uint d) <= uint_value acc d.
Proof.
  induction d as [|d IH|d IH|d IH|d IH|d IH|d IH|d IH|d IH|d IH|d IH]; intros acc Hacc; cbn [uint_value];
    [change (10 ^ _) with 1; lia|..];
    (etrans; [|apply IH; lia]); unfold slen; cbn [NilEmpty.string_of_uint String.length];
    rewrite Nat2Z.inj_succ, Z.pow_succ_r by lia; nia.
Qed.

Lemma Itoa_len n k : 0 <= n < 10 ^ k -> 1 <= k -> slen (Itoa n) <= k.
Proof.
  intros Hn Hk. unfold Itoa. rewrite Itoa_int.
  pose proof (DecimalZ.of_to n) as Hof. pose proof (DecimalZ.to_of (Z.to_int n)) as Hto. rewrite Hof in Hto.
  destruct (Z.to_int n) as [d|d] eqn:E; [|destruct n; [discriminate E|discriminate E|lia]].
  cbn [Decimal.norm] in Hto. injection Hto as Hto. cbn in Hof. rewrite <- uint_value_of_uint in Hof.
  assert (Hhead : forall x d', d = x d' -> slen (NilZero.string_of_uint d) = 1 + slen (NilEmpty.string_of_uint d') ->
            (exists v, 1 <= v /\ uint_value 0 d = uint_value v d') -> slen (NilZero.string_of_uint d) <= k).
  { intros x d' _ Hl (v & Hv & Hval). rewrite Hl. pose proof (uint_value_ge d' v ltac:(lia)) as Hge.
    rewrite <- Hval, Hof in Hge. destruct (Z.le_gt_cases (1 + slen (NilEmpty.string_of_uint d')) k); [done|].
    assert (10 ^ k <= 10 ^ slen (NilEmpty.string_of_uint d')) by (apply Z.pow_le_mono_r; lia).
    pose proof (Z.pow_nonneg 10 (slen (NilEmpty.string_of_uint d')) ltac:(lia)). nia. }
  assert (Hc : forall (s : string) a, slen (String a s) = 1 + slen s) by (intros; unfold slen; cbn [String.length]; lia).
  assert (Hz : forall d', d = D0 d' -> d' = Nil).
  { intros d' ->. unfold Decimal.unorm in Hto. cbn [Decimal.nzhead] in Hto.
    destruct (Decimal.nzhead d') eqn:En; try discriminate Hto; [by injection Hto|].
    exfalso. by apply (DecimalFacts.nzhead_nonzero d' u). }
  destruct d as [|d'|d'|d'|d'|d'|d'|d'|d'|d'|d']; [exact Hk|rewrite (Hz d' eq_refl); exact Hk|..];
    (eapply (Hhead _ d'); [reflexivity|apply Hc|eexists; split; [|reflexivity]; cbn; lia]).
Qed.

Lemma Itoa_inj n m : - 2 ^ 63 <= n <= MaxInt -> - 2 ^ 63 <= m <= MaxInt -> Itoa n = Itoa m -> n = m.
Proof. intros Hn Hm H. pose proof (Atoi_Itoa n Hn). pose proof (Atoi_Itoa m Hm). congruence. Qed.

Lemma Atoi_range s n : Atoi s = Some n -> - 2 ^ 63 <= n <= MaxInt.
Proof.
  unfold Atoi. intros H. repeat case_match; simplify_eq; bprop; lia.
Qed.

(** ** Lemmas: paths *)

(** A path component that names an entry: not empty, not "." and not "..",
    and with no slash in it. *)
Definition good_comp (e : string) : Prop :=
  e <> "" /\ e <> "." /\ e <> ".." /\ no_byte slash e.

Lemma clean_step_good r acc e : good_comp e -> clean_step r acc e = e :: acc.
Proof.
  intros (H1 & H2 & H3 & _). unfold clean_step.
  apply String.eqb_neq in H1, H2, H3. by rewrite H1, H2, H3.
Qed.

Lemma foldl_clean_good r l : forall acc, Forall good_comp l ->
  foldl (clean_step r) acc l = (rev l ++ acc)%list.
Proof.
  induction l as [|e l IH]; intros acc Hl; [done|]. apply Forall_cons_iff in Hl as [He Hl].
  cbn [foldl rev]. rewrite clean_step_good, IH by done. by rewrite <- app_assoc.
Qed.

Lemma good_no_byte l : Forall good_comp l -> Forall (no_byte slash) l.
Proof. apply Forall_impl. by intros e (_ & _ & _ & H). Qed.

Lemma IsAbs_Join l : l <> [] -> Forall good_comp l -> IsAbs (Join slash l) = false.
Proof.
  destruct l as [|e l]; [done|]. intros _ Hl. apply Forall_cons_iff in Hl as [(Hne & _ & _ & Hno) _].
  destruct e as [|a e]; [done|]. apply no_byte_cons in Hno as [Ha _].
  assert (exists s, Join slash (String a e :: l) = String a s) as [s ->].
  { destruct l; [by exists e|]. rewrite Join_cons by done. rewrite append_cons. eauto. }
  unfold IsAbs. apply not_true_iff_false. rewrite HasPrefix_spec. intros [r Hr].
  change ("/" ++ r) with (String slash r) in Hr. by injection Hr.
Qed.

Lemma Join_nonempty l : l <> [] -> Forall good_comp l -> Join slash l <> "".
Proof.
  destruct l as [|e l]; [done|]. intros _ Hl. apply Forall_cons_iff in Hl as [(Hne & _) _].
  destruct l; [done|]. rewrite Join_cons by done. destruct e; [done|]. by rewrite append_cons.
Qed.

Lemma Clean_rel l : l <> [] -> Forall good_comp l -> Clean (Join slash l) = Join slash l.
Proof.
  intros Hl Hg. unfold Clean. pose proof (Join_nonempty l Hl Hg) as Hne.
  apply String.eqb_neq in Hne. rewrite Hne, IsAbs_Join by done.
  rewrite Split_Join by (try apply good_no_byte; done).
  rewrite foldl_clean_good, app_nil_r, rev_involutive by done. by rewrite Hne.
Qed.

(** The absolute path of components [l]. *)
Definition abs_path (l : list string) : string := "/" ++ Join slash l.

Lemma Split_abs l : Forall good_comp l -> l <> [] -> Split slash (abs_path l) = "" :: l.
Proof.
  intros Hg Hl. unfold abs_path. change ("/" ++ Join slash l) with ("" ++ String slash (Join slash l)).
  rewrite Split_app_sep by apply no_byte_nil. by rewrite Split_Join by (try apply good_no_byte; done).
Qed.

Lemma Clean_rooted p : IsAbs p = true ->
  Clean p = abs_path (rev (foldl (clean_step true) [] (Split slash p))).
Proof. intros Ha. unfold Clean. rewrite Ha. by destruct p. Qed.

Lemma IsAbs_slash s : IsAbs ("/" ++ s) = true.
Proof. apply HasPrefix_spec. by exists s. Qed.

Lemma Clean_abs l : Forall good_comp l -> Clean (abs_path l) = abs_path l.
Proof.
  intros Hg. destruct l as [|e l]; [done|].
  rewrite Clean_rooted, Split_abs by (try apply IsAbs_slash; done).
  change (foldl (clean_step true) [] ("" :: e :: l)) with (foldl (clean_step true) [] (e :: l)).
  by rewrite foldl_clean_good, app_nil_r, rev_involutive by done.
Qed.

Lemma clean_rooted_good l : forall acc, Forall good_comp acc -> Forall (no_byte slash) l ->
  Forall good_comp (foldl (clean_step true) acc l).
Proof.
  induction l as [|e l IH]; intros acc Ha Hl; [done|]. apply Forall_cons_iff in Hl as [He Hl].
  cbn [foldl]. apply IH; [|done]. unfold clean_step.
  destruct (String.eqb_spec e ""), (String.eqb_spec e "."); try done. cbn [orb].
  destruct (String.eqb_spec e ".."); [|by constructor].
  destruct acc as [|h t]; [done|]. apply Forall_cons_iff in Ha as [Hh Ht].
  destruct (String.eqb_spec h ".."); [|done]. by destruct Hh as (_ & _ & ? & _).
Qed.

(** A clean absolute path is "/" and named components. *)
Lemma clean_abs_path p : IsAbs p = true -> Clean p = p ->
  exists l, p = abs_path l /\ Forall good_comp l.
Proof.
  intros Ha Hc. rewrite Clean_rooted in Hc by done. eexists. split; [symmetry; exact Hc|].
  apply Forall_rev, clean_rooted_good; [done|].
  apply Forall_forall. intros e He. eapply Split_no_byte, list_elem_of_In, He.
Qed.

Lemma abs_path_app l1 l2 : l1 <> [] -> l2 <> [] ->
  abs_path (l1 ++ l2)%list = abs_path l1 ++ "/" ++ Join slash l2.
Proof.
  intros. unfold abs_path. rewrite Join_app by done. by rewrite !append_assoc.
Qed.

(** Joining a clean relative path to a clean absolute one appends its
    components. *)
Lemma PathJoin_abs l1 l2 : Forall good_comp l1 -> Forall good_comp l2 -> l2 <> [] ->
  PathJoin (abs_path l1) (Join slash l2) = abs_path (l1 ++ l2)%list.
Proof.
  intros H1 H2 Hne. unfold PathJoin.
  assert ((abs_path l1 =s? "") = false) as -> by done.
  pose proof (Join_nonempty l2 Hne H2) as Hj. apply String.eqb_neq in Hj. rewrite Hj.
  destruct l1 as [|e l1].
  - rewrite Clean_rooted by apply IsAbs_slash.
    change (abs_path [] ++ "/" ++ Join slash l2) with ("" ++ String slash ("" ++ String slash (Join slash l2))).
    rewrite !Split_app_sep by apply no_byte_nil.
    rewrite Split_Join by (try apply good_no_byte; done).
    change (foldl (clean_step true) [] ("" :: "" :: l2)) with (foldl (clean_step true) [] l2).
    by rewrite foldl_clean_good, app_nil_r, rev_involutive by done.
  - rewrite <- abs_path_app by done. apply Clean_abs. by apply Forall_app.
Qed.
