(* ===== verification/Json.v ===== *)
(** What the adapter uses of Go's encoding/json, encoding/base64 and time: a
    value as encoding/json sees it, its encoding by [json.Marshal], and the
    lengths of encodings, which the cursor's batch bound counts.

    A struct is the list of the fields it encodes, in order, the omitted
    [omitempty] ones left out. [marshal] is [None] where [json.Marshal] reports
    an error: a raw message that is not JSON, or a time RFC 3339 cannot name. *)
From Stdlib Require Import ZArith Ascii String Lia.
From stdpp Require Import base tactics list strings option.
From S2P Require Import Prelude GoStr.

#[local] Open Scope string_scope.
#[local] Open Scope Z_scope.

(** ** time.Time: nanoseconds since 1970 UTC, and a zone's offset in seconds *)

Record Time := mkTime { t_ns : Z; t_off : Z }.
#[export] Instance Time_eq_dec : EqDecision Time.
Proof. solve_decision. Defined.

Definition UTC (t : Time) : Time := mkTime (t_ns t) 0.

(** [t.After(u)]. *)
Definition After (t u : Time) : bool := t_ns u <? t_ns t.

(** The proleptic Gregorian date of a day counted from 1970-01-01. *)
Definition civil (days : Z) : Z * Z * Z :=
  let z := days + 719468 in
  let era := z / 146097 in
  let doe := z - era * 146097 in
  let yoe := (doe - doe / 1460 + doe / 36524 - doe / 146096) / 365 in
  let doy := doe - (365 * yoe + yoe / 4 - yoe / 100) in
  let mp := (5 * doy + 2) / 153 in
  let d := doy - (153 * mp + 2) / 5 + 1 in
  let m := if mp <? 10 then mp + 3 else mp - 9 in
  (yoe + era * 400 + (if m <=? 2 then 1 else 0), m, d).

(** The [w] low decimal digits of [n], zero-padded. *)
Fixpoint padded (w : nat) (n : Z) : string :=
  match w with
  | O => ""
  | S w => padded w (n / 10) ++ Itoa (n mod 10)
  end.

(** A fraction's digits without its trailing zeros. *)
Fixpoint fraction (w : nat) (n : Z) : string :=
  match w with
  | O => ""
  | S w => if n mod 10 =? 0 then fraction w (n / 10) else padded (S w) n
  end.

Definition zone (off : Z) : string :=
  if off =? 0 then "Z"
  else let m := Z.quot off 60 in
       (if m <? 0 then "-" else "+") ++ padded 2 (Z.abs m / 60) ++ ":" ++ padded 2 (Z.abs m mod 60).

(** [Time.MarshalJSON], unquoted: RFC 3339 with nanoseconds, for a four-digit
    year and an offset below 24 hours. *)
Definition RFC3339Nano (t : Time) : option string :=
  let local := t_ns t + t_off t * 1000000000 in
  let secs := local / 1000000000 in
  let nano := local mod 1000000000 in
  let '(y, m, d) := civil (secs / 86400) in
  let s := secs mod 86400 in
  if (y <? 0) || (9999 <? y) || (24 <=? Z.abs (Z.quot (t_off t) 60) / 60) then None
  else Some (padded 4 y ++ "-" ++ padded 2 m ++ "-" ++ padded 2 d ++ "T" ++
             padded 2 (s / 3600) ++ ":" ++ padded 2 (s / 60 mod 60) ++ ":" ++ padded 2 (s mod 60) ++
             (if nano =? 0 then "" else "." ++ fraction 9 nano) ++ zone (t_off t)).

(** ** Strings and bytes *)

Definition hexdigit (n : Z) : string := String.substring (Z.to_nat n) 1 "0123456789abcdef".

Definition byte_string (b : Z) : string := String (ascii_of_N (Z.to_N b)) "".

(** One byte below 128 of a string, with HTML escaping on. *)
Definition escape_byte (b : Z) : string :=
  if b =? 92 then "\\"
  else if b =? 34 then "\" ++ byte_string 34
  else if b =? 8 then "\b" else if b =? 12 then "\f" else if b =? 10 then "\n"
  else if b =? 13 then "\r" else if b =? 9 then "\t"
  else if (b <? 32) || (b =? 60) || (b =? 62) || (b =? 38)
  then "\u00" ++ hexdigit (b / 16) ++ hexdigit (b mod 16)
  else byte_string b.

(** A string's body: bytes that are not UTF-8 become the replacement
    character, and U+2028 and U+2029 are escaped. *)
Fixpoint escape (bs : list Z) : string :=
  match bs with
  | [] => ""
  | b0 :: t0 =>
    if b0 <? 128 then escape_byte b0 ++ escape t0
    else match t0 with
      | [] => "\ufffd"
      | b1 :: t1 =>
        if in_range 194 223 b0 && in_range 128 191 b1
        then byte_string b0 ++ byte_string b1 ++ escape t1
        else match t1 with
          | [] => "\ufffd" ++ escape t0
          | b2 :: t2 =>
            if second3 b0 b1 && in_range 128 191 b2
            then (if (b0 =? 226) && (b1 =? 128) && in_range 168 169 b2
                  then "\u202" ++ hexdigit (b2 - 160)
                  else byte_string b0 ++ byte_string b1 ++ byte_string b2) ++ escape t2
            else match t2 with
              | [] => "\ufffd" ++ escape t0
              | b3 :: t3 =>
                if second4 b0 b1 && in_range 128 191 b2 && in_range 128 191 b3
                then byte_string b0 ++ byte_string b1 ++ byte_string b2 ++ byte_string b3 ++ escape t3
                else "\ufffd" ++ escape t0
              end
          end
      end
  end.

Definition quote : string := byte_string 34.

Definition quoted (s : string) : string := quote ++ escape (bytes s) ++ quote.

(** base64.StdEncoding. *)
Definition b64 (n : Z) : string :=
  String.substring (Z.to_nat (n mod 64)) 1 "ABCDEFGHIJKLMNOPQRSTUVWXYZabcdefghijklmnopqrstuvwxyz0123456789+/".

Fixpoint base64 (bs : list Z) : string :=
  match bs with
  | [] => ""
  | [a] => b64 (a / 4) ++ b64 (a mod 4 * 16) ++ "=="
  | [a; b] => b64 (a / 4) ++ b64 (a mod 4 * 16 + b / 16) ++ b64 (b mod 16 * 4) ++ "="
  | a :: b :: c :: t =>
    b64 (a / 4) ++ b64 (a mod 4 * 16 + b / 16) ++ b64 (b mod 16 * 4 + c / 64) ++ b64 c ++ base64 t
  end.

(** ** Values *)

(** A [json.RawMessage], by what [json.Marshal] makes of it: its compact form,
    or that it is no JSON. *)
Abbreviation RawMessage := (option string) (only parsing).

Inductive json :=
| JStr (s : string)
| JInt (n : Z)
| JBool (b : bool)
| JBytes (s : string)
| JTime (t : Time)
| JRaw (m : RawMessage)
| JArr (l : list json)
| JObj (l : list (string * json)).

(** [strings.Join(parts, ",")]. *)
Definition commas (l : list string) : string := Join "," l.

Definition member (k v : string) : string := quoted k ++ ":" ++ v.

Fixpoint marshal (j : json) : option string :=
  match j with
  | JStr s => Some (quoted s)
  | JInt n => Some (Itoa n)
  | JBool b => Some (if b then "true" else "false")
  | JBytes s => Some (quote ++ base64 (bytes s) ++ quote)
  | JTime t => (fun s => quote ++ s ++ quote) <$> RFC3339Nano t
  | JRaw m => m
  | JArr l => (fun ss => "[" ++ commas ss ++ "]") <$> mapM marshal l
  | JObj l => (fun ss => "{" ++ commas ss ++ "}") <$> mapM (fun '(k, v) => member k <$> marshal v) l
  end.

(** [len(b)] after [b, _ := json.Marshal(v)]: an error leaves nothing. *)
Definition marshal_len (j : json) : Z := match marshal j with Some s => slen s | None => 0 end.

(** An [omitempty] field. *)
Definition omitempty (b : bool) (k : string) (v : json) : list (string * json) :=
  if b then [] else [(k, v)].
Definition omit_str (k s : string) : list (string * json) := omitempty (s =s? "") k (JStr s).
Definition omit_bool (k : string) (b : bool) : list (string * json) := omitempty (negb b) k (JBool b).
Definition omit_int (k : string) (n : Z) : list (string * json) := omitempty (n =? 0) k (JInt n).
Definition omit_nil {A} (f : A -> json) (k : string) (o : option A) : list (string * json) :=
  match o with None => [] | Some a => [(k, f a)] end.
Definition omit_arr {A} (f : A -> json) (k : string) (l : list A) : list (string * json) :=
  match l with [] => [] | _ => [(k, JArr (map f l))] end.

(** ** Lengths *)

Lemma commas_len l : slen (commas l) = foldr (fun s n => slen s + n) 0 l + Z.max 0 (llen l - 1).
Proof.
  induction l as [|x [|y l] IH]; [done| |].
  - unfold commas. cbn [Join foldr length]. lia.
  - unfold commas in *. rewrite Join_cons by done. rewrite slen_app.
    change (String "," ?s) with ("," ++ s). rewrite slen_app, IH.
    change (slen ",") with 1. cbn [foldr length]. lia.
Qed.

Lemma member_len k v : slen (member k v) = slen (quoted k) + 1 + slen v.
Proof. unfold member. rewrite !slen_app. change (slen ":") with 1. lia. Qed.

(** The fields' bytes of an object that encodes. *)
Definition fields_len (l : list (string * json)) : Z :=
  foldr (fun '(k, v) n => slen (quoted k) + 1 + marshal_len v + n) 0 l.

Lemma fields_len_app l1 l2 : fields_len (l1 ++ l2) = fields_len l1 + fields_len l2.
Proof. induction l1 as [|[k v] l1 IH]; [done|]. cbn. fold (fields_len (l1 ++ l2)) (fields_len l1). lia. Qed.

Lemma mapM_fields l ss :
  mapM (fun '(k, v) => member k <$> marshal v) l = Some ss ->
  foldr (fun s n => slen s + n) 0 ss = fields_len l /\ length ss = length l.
Proof.
  revert ss. induction l as [|[k v] l IH]; intros ss H; [by injection H as <-|].
  cbn in H. assert (Hl : forall w, marshal v = Some w -> marshal_len v = slen w) by (unfold marshal_len; by intros ? ->).
  destruct (marshal v) as [w|]; [|done]. cbn in H. specialize (Hl w eq_refl).
  destruct (mapM _ l) as [ws|] eqn:El; [|done]. injection H as <-. destruct (IH ws eq_refl) as [H1 H2].
  unfold fields_len. cbn [foldr length]. fold (fields_len l). rewrite H1, member_len, H2, Hl. split; lia.
Qed.

Lemma obj_len l s : marshal (JObj l) = Some s ->
  slen s = 2 + fields_len l + Z.max 0 (llen l - 1).
Proof.
  cbn [marshal]. intros H. apply fmap_Some in H as (ss & Hss & ->).
  apply mapM_fields in Hss as [H1 H2]. rewrite !slen_app, commas_len, H1, H2.
  change (slen "{") with 1. change (slen "}") with 1. lia.
Qed.

Lemma mapM_values l ss : mapM marshal l = Some ss ->
  foldr (fun s n => slen s + n) 0 ss = foldr (fun j n => marshal_len j + n) 0 l /\ length ss = length l.
Proof.
  revert ss. induction l as [|v l IH]; intros ss H; [by injection H as <-|].
  cbn in H. destruct (marshal v) as [w|] eqn:Ev; [|done]. cbn in H.
  destruct (mapM marshal l) as [ws|] eqn:El; [|done]. injection H as <-. destruct (IH ws eq_refl) as [H1 H2].
  cbn [foldr length]. unfold marshal_len at 1. rewrite Ev, H1, H2. done.
Qed.

Lemma arr_len l s : marshal (JArr l) = Some s ->
  slen s = 2 + foldr (fun j n => marshal_len j + n) 0 l + Z.max 0 (llen l - 1).
Proof.
  cbn [marshal]. intros H. apply fmap_Some in H as (ss & Hss & ->).
  apply mapM_values in Hss as [H1 H2]. rewrite !slen_app, commas_len, H1, H2.
  change (slen "[") with 1. change (slen "]") with 1. lia.
Qed.

Lemma marshal_len_nonneg j : 0 <= marshal_len j.
Proof. unfold marshal_len. destruct (marshal j); [apply slen_nonneg|done]. Qed.

Lemma fields_len_nonneg l : 0 <= fields_len l.
Proof.
  induction l as [|[k v] l IH]; [done|]. cbn. fold (fields_len l).
  pose proof (slen_nonneg (quoted k)). pose proof (marshal_len_nonneg v). lia.
Qed.

(** Every field of an object that encodes, encodes. *)
Lemma obj_field l s k v : marshal (JObj l) = Some s -> (k, v) ∈ l -> is_Some (marshal v).
Proof.
  cbn [marshal]. intros H Hin. apply fmap_Some in H as (ss & Hss & _).
  apply mapM_Some in Hss. clear s. revert Hss.
  induction 1 as [|[k' v'] w l' ss' Hw Hl IH]; [by apply elem_of_nil in Hin|].
  apply elem_of_cons in Hin as [[= <- <-]|Hin]; [|by apply IH].
  cbn in Hw. by apply fmap_Some in Hw as (? & -> & _).
Qed.

Example RFC3339Nano_example :
  RFC3339Nano (mkTime 1700000000123400000 3600) = Some "2023-11-14T23:13:20.1234+01:00".
Proof. reflexivity. Qed.

Example marshal_example :
  marshal (JObj (("a", JStr "<x>") :: omit_int "n" 0 ++ [("d", JBytes "hello"); ("l", JArr [JInt 1; JInt (-2)])]))
  = Some ("{" ++ quoted "a" ++ ":" ++ quote ++ "\u003cx\u003e" ++ quote ++ "," ++ quoted "d" ++ ":" ++ quote
          ++ "aGVsbG8=" ++ quote ++ "," ++ quoted "l" ++ ":[1,-2]}").
Proof. reflexivity. Qed.
