(* ===== verification/Contract.v ===== *)
(** The contract's closed sets, bounds, errors, versions and ids
    (pkg/contract/contract.go, bounds.go, errors.go; ValidID of session.go).

    An [Error] carries what callers act on: its code, reason, certainty, field
    and required bytes. Its message, text for people that no caller reads, is
    not modelled. *)
From Stdlib Require Import ZArith Ascii String Lia.
From stdpp Require Import base tactics list gmap strings option finite.
From S2P Require Import Prelude GoStr.

#[local] Open Scope string_scope.
#[local] Open Scope Z_scope.

(** ** Closed sets of names *)

(** A Go string enum: its wire names, and the list its [Values] method gives,
    which names exactly the set, each once. *)
Class Enum (A : Type) `{Finite A} := {
  wire : A -> string;
  Values : list string;
  wire_inj : Inj (=) (=) wire;
  Values_wire : Values ≡ₚ wire <$> enum A;
}.
#[export] Existing Instance wire_inj.

Lemma Values_spec `{Enum A} s : s ∈ Values <-> exists a : A, wire a = s.
Proof.
  rewrite Values_wire, list_elem_of_fmap. split; intros (a & Ha); exists a; [naive_solver|].
  split; [done|apply elem_of_enum].
Qed.

Lemma Values_NoDup `{Enum A} : NoDup (Values : list string).
Proof. rewrite Values_wire. apply NoDup_fmap; [apply _|apply NoDup_enum]. Qed.

Ltac solve_finite := first
  [ apply (bool_decide_unpack _); by vm_compute
  | let x := fresh in intros x; destruct x; rewrite !elem_of_cons; tauto ].
Ltac solve_enum := first [ let a := fresh in let b := fresh in intros a b; destruct a, b; cbn; congruence | reflexivity ].

(** ** bounds.go: durations are in nanoseconds *)

Definition Millisecond : Z := 1000000.
Definition Second : Z := 1000 * Millisecond.

Definition MaxInputBytes : Z := Z.shiftl 1 20.
Definition MinObserveBytes : Z := Z.shiftl 64 10.
Definition MaxObserveBytes : Z := Z.shiftl 16 20.
Definition MaxObservationText : Z := Z.shiftl 64 10.
Definition MaxOpenConfigBytes : Z := Z.shiftl 64 10.
Definition MaxCheckpointBytes : Z := Z.shiftl 64 10.
Definition MaxObserveWait : Z := 30 * Second.
Definition CloseSlack : Z := 5 * Second.
Definition DefaultInterruptDeadline : Z := 10 * Second.
Definition MinInterruptDeadline : Z := 100 * Millisecond.
Definition MaxInterruptDeadline : Z := 60 * Second.
Definition MaxDrain : Z := 60 * Second.

(** ** errors.go *)

Inductive Code :=
| CodeProtocol | CodeBatchTooLarge | CodeUnknownField | CodeUnexpected | CodeUnsupported
| CodeInvalidSpec | CodeInvalidInput | CodeBusy | CodePromptPending | CodeBlocked
| CodePromptGone | CodeInvalidChoice | CodeInterruptUnconfirmed | CodeOpenFailed
| CodeExited | CodeClosed | CodeInternal.
#[export] Instance Code_eq_dec : EqDecision Code.
Proof. solve_decision. Defined.

Definition Code_string (c : Code) : string :=
  match c with
  | CodeProtocol => "protocol" | CodeBatchTooLarge => "batch_too_large"
  | CodeUnknownField => "unknown_field" | CodeUnexpected => "unexpected"
  | CodeUnsupported => "unsupported" | CodeInvalidSpec => "invalid_spec"
  | CodeInvalidInput => "invalid_input" | CodeBusy => "busy"
  | CodePromptPending => "prompt_pending" | CodeBlocked => "blocked"
  | CodePromptGone => "prompt_gone" | CodeInvalidChoice => "invalid_choice"
  | CodeInterruptUnconfirmed => "interrupt_unconfirmed" | CodeOpenFailed => "open_failed"
  | CodeExited => "exited" | CodeClosed => "closed" | CodeInternal => "internal"
  end.

Definition Code_Values : list string :=
  ["protocol"; "batch_too_large"; "unknown_field"; "unexpected"; "unsupported"; "invalid_spec";
   "invalid_input"; "busy"; "prompt_pending"; "blocked"; "prompt_gone"; "invalid_choice";
   "interrupt_unconfirmed"; "open_failed"; "exited"; "closed"; "internal"].

#[export, refine] Instance Code_finite : Finite Code := {| enum :=
  [CodeProtocol; CodeBatchTooLarge; CodeUnknownField; CodeUnexpected; CodeUnsupported;
   CodeInvalidSpec; CodeInvalidInput; CodeBusy; CodePromptPending; CodeBlocked; CodePromptGone;
   CodeInvalidChoice; CodeInterruptUnconfirmed; CodeOpenFailed; CodeExited; CodeClosed;
   CodeInternal] |}.
Proof. all: solve_finite. Defined.

#[export, refine] Instance Code_Enum : Enum Code := {| wire := Code_string; Values := Code_Values |}.
Proof. all: solve_enum. Defined.

Inductive Certainty := NotSubmitted | MaybeSubmitted.
#[export] Instance Certainty_eq_dec : EqDecision Certainty.
Proof. solve_decision. Defined.

Inductive OpenFailure :=
| OpenAdapterMissing | OpenBinaryNotFound | OpenVersionUnsupported | OpenCapabilityMissing
| OpenAuthRequired | OpenSessionNotFound | OpenSessionInUse | OpenConfigInvalid
| OpenStateMismatch.
#[export] Instance OpenFailure_eq_dec : EqDecision OpenFailure.
Proof. solve_decision. Defined.

Definition OpenFailure_string (f : OpenFailure) : string :=
  match f with
  | OpenAdapterMissing => "adapter_missing" | OpenBinaryNotFound => "binary_not_found"
  | OpenVersionUnsupported => "version_unsupported" | OpenCapabilityMissing => "capability_missing"
  | OpenAuthRequired => "auth_required" | OpenSessionNotFound => "session_not_found"
  | OpenSessionInUse => "session_in_use" | OpenConfigInvalid => "config_invalid"
  | OpenStateMismatch => "state_mismatch"
  end.

Definition OpenFailure_Values : list string :=
  ["adapter_missing"; "binary_not_found"; "version_unsupported"; "capability_missing";
   "auth_required"; "session_not_found"; "session_in_use"; "config_invalid"; "state_mismatch"].

#[export, refine] Instance OpenFailure_finite : Finite OpenFailure := {| enum :=
  [OpenAdapterMissing; OpenBinaryNotFound; OpenVersionUnsupported; OpenCapabilityMissing;
   OpenAuthRequired; OpenSessionNotFound; OpenSessionInUse; OpenConfigInvalid;
   OpenStateMismatch] |}.
Proof. all: solve_finite. Defined.

#[export, refine] Instance OpenFailure_Enum : Enum OpenFailure :=
  {| wire := OpenFailure_string; Values := OpenFailure_Values |}.
Proof. all: solve_enum. Defined.

(** An empty reason or certainty is [None]. *)
Record Error := mkError {
  e_code : Code;
  e_reason : option OpenFailure;
  e_certainty : option Certainty;
  e_field : string;
  e_required : Z;
}.
#[export] Instance Error_eq_dec : EqDecision Error.
Proof. solve_decision. Defined.

(** [Errorf(code, ...)]. *)
Definition Errorf (c : Code) : Error := mkError c None None "" 0.

(** [&Error{Code: c, Field: f, ...}]. *)
Definition FieldError (c : Code) (f : string) : Error := mkError c None None f 0.

Definition OpenAbandoned : Error := mkError CodeOpenFailed None None "" 0.

Definition OpenError (r : OpenFailure) : Error := mkError CodeOpenFailed (Some r) None "" 0.

(** [(e *Error) Is(target)], for a target that is an [*Error]. *)
Definition Error_Is (e t : Error) : bool :=
  bool_decide (e_code t = e_code e) &&
  match e_reason t with None => true | Some r => bool_decide (Some r = e_reason e) end.

(** A Go [error], by what its callers ask of it: the [*Error] it wraps
    ([errors.As]), and whether it wraps the adapter's [ErrNotSubmitted]
    ([errors.Is]). *)
Record goerr := mkErr { as_error : option Error; is_not_submitted : bool }.

Definition wrap (e : Error) : goerr := mkErr (Some e) false.
Definition plain_err : goerr := mkErr None false.

Definition CodeOf (err : goerr) : Code :=
  match as_error err with Some e => e_code e | None => CodeInternal end.

Definition CertaintyOf (err : goerr) : Certainty :=
  match as_error err with
  | Some e => if bool_decide (e_certainty e = Some NotSubmitted) then NotSubmitted else MaybeSubmitted
  | None => MaybeSubmitted
  end.

(** ** contract.go: versions *)

Definition versionPrefix : string := "harness-adapter/".
Definition Major : Z := 1.
Definition Minor : Z := 9.
Definition Version : string := "harness-adapter/1.9".

(** [ParseVersion]; each of its four failures is [None]. *)
Definition ParseVersion (v : string) : option (Z * Z) :=
  match CutPrefix v versionPrefix with
  | None => None
  | Some rest =>
    match Cut rest "." with
    | None => None
    | Some (ma, mi) =>
      match Atoi ma with
      | None => None
      | Some major =>
        if (major <? 1) || negb (ma =s? Itoa major) then None
        else match Atoi mi with
          | None => None
          | Some minor =>
            if (minor <? 0) || negb (mi =s? Itoa minor) then None else Some (major, minor)
          end
      end
    end
  end.

Definition MinorOf (v : string) : option Z := option_map snd (ParseVersion v).

Definition Compatible (v : string) : bool :=
  match ParseVersion v with Some (major, _) => major =? Major | None => false end.

(** ** session.go: ids *)

Definition id_rune (r : Z) : bool :=
  in_range 97 122 r || in_range 65 90 r || in_range 48 57 r
  || (r =? 46) || (r =? 95) || (r =? 58) || (r =? 45).

Definition ValidID (s : string) : bool :=
  if (s =s? "") || (128 <? slen s) then false else forallb id_rune (runes s).

(** ** Properties *)

(** The version string of a major and a minor. *)
Definition version_string (major minor : Z) : string :=
  versionPrefix ++ Itoa major ++ String "." (Itoa minor).

Lemma ParseVersion_version_string major minor :
  1 <= major <= MaxInt -> 0 <= minor <= MaxInt ->
  ParseVersion (version_string major minor) = Some (major, minor).
Proof.
  intros Hma Hmi. unfold ParseVersion, version_string.
  rewrite (proj2 (CutPrefix_Some _ _ _) eq_refl).
  rewrite Cut_app by (by apply no_byte_Itoa).
  assert (MaxInt = 2 ^ 63 - 1) by done.
  rewrite Atoi_Itoa by lia. rewrite String.eqb_refl. destruct (Z.ltb_spec major 1); [lia|]. cbn [orb negb].
  rewrite Atoi_Itoa by lia. rewrite String.eqb_refl. destruct (Z.ltb_spec minor 0); [lia|]. done.
Qed.

Lemma ParseVersion_inv v major minor :
  ParseVersion v = Some (major, minor) ->
  v = version_string major minor /\ 1 <= major <= MaxInt /\ 0 <= minor <= MaxInt.
Proof.
  unfold ParseVersion. intros H.
  destruct (CutPrefix v versionPrefix) as [rest|] eqn:E1; [|done].
  destruct (Cut rest ".") as [[ma mi]|] eqn:E2; [|done].
  destruct (Atoi ma) as [n|] eqn:E3; [|done].
  destruct ((n <? 1) || negb (ma =s? Itoa n)) eqn:E4; [done|].
  destruct (Atoi mi) as [m|] eqn:E5; [|done].
  destruct ((m <? 0) || negb (mi =s? Itoa m)) eqn:E6; [done|]. simplify_eq.
  apply CutPrefix_Some in E1. apply Cut_Some in E2 as [E2 _].
  apply Atoi_range in E3, E5. bprop. subst. done || (unfold version_string; split; [done|lia]).
Qed.

(** ParseVersion accepts exactly the canonical spellings
    harness-adapter/<major>.<minor> with a major of at least 1 and a minor of
    at least 0 that fit an int, and returns those numbers. *)
Theorem ParseVersion_canonical v major minor :
  ParseVersion v = Some (major, minor) <->
  v = version_string major minor /\ 1 <= major <= MaxInt /\ 0 <= minor <= MaxInt.
Proof.
  split; [apply ParseVersion_inv|]. intros (-> & ? & ?). by apply ParseVersion_version_string.
Qed.

Lemma ValidID_ascii s :
  ValidID s = negb (s =s? "") && (slen s <=? 128) && forallb id_rune (bytes s).
Proof.
  unfold ValidID. rewrite forallb_runes.
  - destruct (s =s? ""); [done|]. cbn [orb negb andb].
    destruct (Z.ltb_spec 128 (slen s)), (Z.leb_spec (slen s) 128); try lia; done.
  - intros r Hr. unfold id_rune, in_range. repeat match goal with
      | |- context [?a <=? ?b] => destruct (Z.leb_spec a b); try lia
      | |- context [?a =? ?b] => destruct (Z.eqb_spec a b); try lia end; done.
Qed.

Lemma ValidID_len s : ValidID s = true -> 1 <= slen s <= 128.
Proof.
  rewrite ValidID_ascii. intros H. bprop. split; [|done].
  destruct s; [done|]. unfold slen. cbn. lia.
Qed.

Lemma ValidID_app s t : 1 <= slen s -> slen s + slen t <= 128 ->
  forallb id_rune (bytes s) = true -> forallb id_rune (bytes t) = true -> ValidID (s ++ t) = true.
Proof.
  intros Hs Hl H1 H2. rewrite ValidID_ascii, bytes_app, forallb_app, slen_app, H1, H2.
  destruct (Z.leb_spec (slen s + slen t) 128); [|lia]. by destruct s.
Qed.
