(* ===== verification/Descriptor.v ===== *)
(** What an adapter offers: pkg/contract/descriptor.go, with the egress and the
    keeper a Descriptor names (the types of broker.go and keeper.go).

    Names a descriptor or a request carries on the wire — capabilities,
    credential kinds, efforts — are strings, as in the code: a value outside
    the closed set is possible, and the code says what it does with it. *)
From Stdlib Require Import ZArith Ascii String Lia.
From stdpp Require Import base tactics list gmap strings option.
From S2P Require Import Prelude GoStr Contract.

#[local] Open Scope string_scope.
#[local] Open Scope Z_scope.

(** ** Capabilities *)

Abbreviation Capability := string (only parsing).

Definition CapResume : Capability := "resume".
Definition CapAssignSessionID : Capability := "assign_session_id".
Definition CapPrompts : Capability := "prompts".
Definition CapStreamingText : Capability := "streaming_text".
Definition CapToolsObserved : Capability := "tools_observed".
Definition CapSubagents : Capability := "subagents".
Definition CapRateLimits : Capability := "rate_limits".
Definition CapRetryVisible : Capability := "retry_visible".
Definition CapSessionLoad : Capability := "session_load".
Definition CapAutonomousTurns : Capability := "autonomous_turns".
Definition CapBackgroundTurns : Capability := "background_turns".
Definition CapBrokeredCredentials : Capability := "brokered_credentials".
Definition CapLoginKeeper : Capability := "login_keeper".
Definition CapConcurrentSessions : Capability := "concurrent_sessions".
Definition CapSessionWorkDir : Capability := "session_workdir".

Definition Capability_Values : list string :=
  ["resume"; "assign_session_id"; "prompts"; "streaming_text"; "tools_observed"; "subagents";
   "rate_limits"; "retry_visible"; "session_load"; "autonomous_turns"; "brokered_credentials";
   "login_keeper"; "background_turns"; "concurrent_sessions"; "session_workdir"].

Definition SessionWorkDirSince : Z := 9.

Definition Since (c : Capability) : Z :=
  if (c =s? CapResume) || (c =s? CapAssignSessionID) || (c =s? CapPrompts)
     || (c =s? CapStreamingText) || (c =s? CapToolsObserved) || (c =s? CapSubagents)
     || (c =s? CapRateLimits) || (c =s? CapRetryVisible) then 0
  else if (c =s? CapSessionLoad) || (c =s? CapAutonomousTurns) then 1
  else if (c =s? CapBrokeredCredentials) || (c =s? CapLoginKeeper) then 2
  else if c =s? CapBackgroundTurns then 3
  else if c =s? CapConcurrentSessions then 6
  else if c =s? CapSessionWorkDir then SessionWorkDirSince
  else -1.

(** ** The Descriptor's parts *)

Record HarnessInfo := mkHarness { h_name : string; h_version : string; h_adapter : string }.

Record Models := mkModels { m_any : bool; m_ids : list string }.

Record SpecSupport := mkSupport {
  ss_models : Models;
  ss_efforts : list string;
  ss_instructions : list string;
  ss_skills : bool;
  ss_memory : bool;
  ss_connectors : list string;
  ss_postures : list string;
  ss_content : list string;
}.

Record Limits := mkLimits { l_max_input : Z; l_max_sessions : Z }.

Record LoadSupport := mkLoad { ls_formats : list Z; ls_sources : list string }.

(** broker.go *)
Record CredentialRoute := mkRoute {
  r_kind : string; r_hosts : list string; r_headers : list string }.

Record Egress := mkEgress { eg_hosts : list string; eg_credentials : list CredentialRoute }.

(** keeper.go *)
Record KeeperSupport := mkKeeper { k_kind : string }.

Record Descriptor := mkDescriptor {
  d_contract : string;
  d_harness : HarnessInfo;
  d_capabilities : list Capability;
  d_checkpoint_format : Z;
  d_credential_kinds : list string;
  d_spec : SpecSupport;
  d_limits : Limits;
  d_load : option LoadSupport;
  d_egress : option Egress;
  d_keeper : option KeeperSupport;
}.

(** ** Its methods *)

Definition Has (d : Descriptor) (c : Capability) : bool := any (String.eqb c) (d_capabilities d).

Definition supports (values : list string) (v : string) : bool := any (fun have => have =s? v) values.

Definition Loads (d : Descriptor) (format : Z) (harnessVersion : string) : bool :=
  match d_load d with
  | None => false
  | Some l =>
    if negb (Has d CapSessionLoad) then false
    else any (fun f => f =? format) (ls_formats l) && supports (ls_sources l) harnessVersion
  end.

Definition CheckCapabilities (d : Descriptor) : result Error unit :=
  match MinorOf (d_contract d) with
  | None => Err (FieldError CodeProtocol "contract")
  | Some minor =>
    if any (fun c => minor <? Since c) (d_capabilities d)
    then Err (FieldError CodeProtocol "capabilities") else Ok tt
  end.

Definition Allows (m : Models) (model : string) : bool :=
  if (model =s? "") || m_any m then true else any (fun id => id =s? model) (m_ids m).

Definition Sessions (d : Descriptor) : Z :=
  if Has d CapConcurrentSessions && (1 <? l_max_sessions (d_limits d))
  then l_max_sessions (d_limits d) else 1.

Definition CheckSessions (d : Descriptor) : result Error unit :=
  let n := l_max_sessions (d_limits d) in
  when Has d CapConcurrentSessions && (n <? 2) refuse FieldError CodeProtocol "limits.max_sessions" ;;
  when negb (Has d CapConcurrentSessions) && negb (n =? 0)
    refuse FieldError CodeProtocol "limits.max_sessions" ;;
  Ok tt.

(** [(e *Egress) Route(kind)]. *)
Definition Route (e : option Egress) (kind : string) : option CredentialRoute :=
  match e with
  | None => None
  | Some e => List.find (fun r => r_kind r =s? kind) (eg_credentials e)
  end.

(** ** Lemmas *)

Lemma supports_spec values v : supports values v = true <-> v ∈ values.
Proof.
  unfold supports. rewrite any_true. split.
  - intros (x & Hx & E). bprop. by subst.
  - intros H. exists v. by rewrite String.eqb_refl.
Qed.

Lemma Has_spec d c : Has d c = true <-> c ∈ d_capabilities d.
Proof.
  unfold Has. rewrite any_true. split.
  - intros (x & Hx & E). bprop. by subst.
  - intros H. exists c. by rewrite String.eqb_refl.
Qed.

Lemma Route_Some e kind r :
  Route e kind = Some r -> exists eg, e = Some eg /\ r ∈ eg_credentials eg /\ r_kind r = kind.
Proof.
  unfold Route. destruct e as [eg|]; [|done]. intros H. apply find_some in H as [Hin Hk]. bprop.
  exists eg. by rewrite list_elem_of_In.
Qed.

(** The capabilities of a minor are those of the closed set added by then. *)
Lemma Since_known c : 0 <= Since c <-> c ∈ Capability_Values.
Proof.
  unfold Since, Capability_Values, SessionWorkDirSince.
  rewrite !elem_of_cons, elem_of_nil.
  repeat match goal with
  | |- context [?a =s? ?b] => destruct (String.eqb_spec a b) as [->|?]; [split; [tauto|done]|]
  end.
  cbn. split; [lia|]. tauto.
Qed.

(** a Descriptor CheckCapabilities accepts declares, at its own minor, only
    capabilities of the closed set added by that minor, or names outside the
    set, which it leaves to the caller; and it refuses every other Descriptor,
    naming the field at fault. *)
Theorem CheckCapabilities_spec d :
  (CheckCapabilities d = Ok tt <->
   exists minor, MinorOf (d_contract d) = Some minor /\
     forall c, Has d c = true -> c ∈ Capability_Values -> Since c <= minor) /\
  (forall e, CheckCapabilities d = Err e ->
     e = FieldError CodeProtocol (match MinorOf (d_contract d) with
                                  | None => "contract" | Some _ => "capabilities" end)).
Proof.
  unfold CheckCapabilities. destruct (MinorOf (d_contract d)) as [minor|] eqn:Em; [|naive_solver].
  assert (Hpos : 0 <= minor).
  { unfold MinorOf in Em. destruct (ParseVersion (d_contract d)) as [[ma mi]|] eqn:E; [|done].
    apply ParseVersion_inv in E. cbn in Em. simplify_eq. lia. }
  destruct (any _ _) eqn:E; (split; [|first [by intros ? [= <-] | done]]).
  - split; [done|]. intros (m & [= <-] & Hall). apply any_true in E as (c & Hc & Hlt). bprop.
    assert (c ∈ Capability_Values) by (apply Since_known; lia).
    assert (Since c <= minor) by (apply Hall; [by apply Has_spec|done]). lia.
  - split; [|done]. intros _. exists minor. split; [done|]. intros c Hc _.
    apply Has_spec in Hc. pose proof (proj1 (any_false _ _) E c Hc) as H. cbn beta in H. bprop. lia.
Qed.

Lemma CheckSessions_Ok d : CheckSessions d = Ok tt <->
  (Has d CapConcurrentSessions = true /\ 2 <= l_max_sessions (d_limits d)) \/
  (Has d CapConcurrentSessions = false /\ l_max_sessions (d_limits d) = 0).
Proof.
  unfold CheckSessions. destruct (Has d CapConcurrentSessions); cbn [andb negb].
  - destruct (Z.ltb_spec (l_max_sessions (d_limits d)) 2); split; naive_solver lia.
  - destruct (Z.eqb_spec (l_max_sessions (d_limits d)) 0); split; naive_solver lia.
Qed.

(** for a Descriptor CheckSessions accepts, the number of Sessions a
    runtime may hold open is the declared limit, at least 2, with
    concurrent_sessions, and 1 without. *)
Theorem Sessions_checked d (H : CheckSessions d = Ok tt) :
  if Has d CapConcurrentSessions
  then Sessions d = l_max_sessions (d_limits d) /\ 2 <= Sessions d
  else Sessions d = 1.
Proof.
  apply CheckSessions_Ok in H. unfold Sessions.
  destruct (Has d CapConcurrentSessions); [|done]. cbn [andb].
  destruct (Z.ltb_spec 1 (l_max_sessions (d_limits d))); naive_solver lia.
Qed.
