(* ===== verification/Layout.v ===== *)
(** An agent's roots and the paths beneath them: Layout, Root, RootPath,
    CheckRelPath, Relocate and Archived of pkg/contract/provision.go, and
    CheckWorkDir and WorkDirPath of session.go. *)
From Stdlib Require Import ZArith Ascii String Lia.
From stdpp Require Import base tactics list gmap strings option.
From S2P Require Import Prelude GoStr Contract.

#[local] Open Scope string_scope.
#[local] Open Scope Z_scope.

(** ** Roots *)

Abbreviation Root := string (only parsing).
Definition RootHome : Root := "home".
Definition RootConfig : Root := "config".
Definition RootWorkspace : Root := "workspace".
Definition RootSecrets : Root := "secrets".
Definition RootScratch : Root := "scratch".

Record Layout := mkLayout {
  l_home : string; l_config : string; l_workspace : string;
  l_secrets : string; l_scratch : string }.

(** [(l Layout) Path(root)]. *)
Definition LayoutPath (l : Layout) (r : Root) : string :=
  if r =s? RootHome then l_home l
  else if r =s? RootConfig then l_config l
  else if r =s? RootWorkspace then l_workspace l
  else if r =s? RootSecrets then l_secrets l
  else if r =s? RootScratch then l_scratch l
  else "".

Definition all_roots : list Root := [RootHome; RootConfig; RootWorkspace; RootSecrets; RootScratch].

(** The check every absolute root passes: [p == "" || !filepath.IsAbs(p) ||
    filepath.Clean(p) != p] refuses it. *)
Definition clean_abs (p : string) : bool := negb (p =s? "") && IsAbs p && (Clean p =s? p).

(** [(l Layout) Validate()]: the loop's state is its [seen] map. *)
Definition LayoutValidate (l : Layout) : result Error unit :=
  _ ← range (fun (_ : Z) (r : Root) (seen : gmap string Root) =>
        let p := LayoutPath l r in
        when negb (clean_abs p) refuse FieldError CodeInvalidSpec ("layout." ++ r) ;;
        match seen !! p with
        | Some _ => Err (FieldError CodeInvalidSpec ("layout." ++ r))
        | None => Ok (<[p := r]> seen)
        end) all_roots ∅;
  Ok tt.

(** ** Relative paths *)

(** [CheckRelPath(p)]: [true] when it returns nil. *)
Definition CheckRelPath (p : string) : bool :=
  if (p =s? "") || (1024 <? slen p) then false
  else if HasPrefix p "/" || ContainsByte p "\" || negb (ValidPath p) || negb (Clean p =s? p) then false
  else forallb (fun c => negb ((c =s? ".") || (c =s? "..") || (c =s? ""))) (Split slash p).

Definition CheckWorkDir (p : string) : result Error unit :=
  if p =s? "" then Ok tt
  else if CheckRelPath p then Ok tt else Err (FieldError CodeProtocol "work_dir").

Definition WorkDirPath (l : Layout) (dir : string) : string :=
  if dir =s? "" then l_workspace l else PathJoin (l_workspace l) dir.

(** ** Paths beneath a root *)

Record RootPath := mkRootPath { rp_root : Root; rp_path : string }.
#[export] Instance RootPath_eq_dec : EqDecision RootPath.
Proof. solve_decision. Defined.

Definition Within (p q : RootPath) : bool :=
  (rp_root p =s? rp_root q) &&
  ((rp_path p =s? rp_path q) || HasPrefix (rp_path p) (rp_path q ++ "/")).

Record Relocation := mkRelocation { rl_from : RootPath; rl_to : RootPath }.

Fixpoint Relocate (rules : list Relocation) (p : RootPath) : RootPath :=
  match rules with
  | [] => p
  | r :: rules =>
    if Within p (rl_from r)
    then mkRootPath (rp_root (rl_to r)) (rp_path (rl_to r) ++ TrimPrefix (rp_path p) (rp_path (rl_from r)))
    else Relocate rules p
  end.

(** [(r ProvisionResult) Archived(p)], of its history roots and secret paths. *)
Definition Archived (history secrets : list RootPath) (p : RootPath) : bool :=
  if any (Within p) secrets then false else any (Within p) history.

(** ** Layouts *)

Lemma clean_abs_spec p : clean_abs p = true <-> IsAbs p = true /\ Clean p = p.
Proof.
  unfold clean_abs. rewrite !andb_true_iff, negb_true_iff, String.eqb_neq, String.eqb_eq.
  split; [naive_solver|]. intros [H ?]. split; [|done]. split; [|done]. by intros ->.
Qed.

(** a Layout is accepted exactly when each of its five roots is a clean
    absolute path and no two are the same directory. *)
Theorem LayoutValidate_spec l :
  LayoutValidate l = Ok tt <->
  Forall (fun r => IsAbs (LayoutPath l r) = true /\ Clean (LayoutPath l r) = LayoutPath l r) all_roots /\
  NoDup (map (LayoutPath l) all_roots).
Proof.
  rewrite <- prefixes_Forall, <- prefixes_NoDup.
  unfold LayoutValidate. set (body := fun _ _ _ => _).
  assert (Hrun : (range body all_roots ∅ ≫= (fun _ => Ok tt)) = Ok tt <-> exists s, range body all_roots ∅ = Ok s).
  { rewrite bind_Ok. naive_solver. }
  rewrite Hrun.
  rewrite (range_iff body (fun d (t : gmap string Root) => forall p, is_Some (t !! p) <-> p ∈ map (LayoutPath l) d)
    (fun d r => clean_abs (LayoutPath l r) = true /\ LayoutPath l r ∉ map (LayoutPath l) d)).
  - setoid_rewrite clean_abs_spec. naive_solver.
  - intros j d r t t' HR. unfold body. destruct (clean_abs _); [|done]. cbn [negb].
    destruct (t !! LayoutPath l r) eqn:E; [done|]. intros [= <-]. split.
    + split; [done|]. rewrite <- HR, E. by intros [? ?].
    + intros p. rewrite map_app, elem_of_app, <- HR. cbn [map]. rewrite list_elem_of_singleton.
      destruct (decide (p = LayoutPath l r)) as [->|].
      * rewrite lookup_insert_eq. naive_solver.
      * rewrite lookup_insert_ne by done. naive_solver.
  - intros j d r t HR [Hc Hd]. unfold body. rewrite Hc. cbn [negb].
    destruct (t !! LayoutPath l r) eqn:E; [|eauto]. exfalso. apply Hd, HR. by rewrite E.
  - intros p. rewrite lookup_empty. split; [by intros [? ?]|]. by intros ?%not_elem_of_nil.
Qed.

(** ** Relative paths *)

(** The components of a slash path. *)
Definition comps (p : string) : list string := Split slash p.

Lemma comps_nonnil p : comps p <> [].
Proof. apply Split_nonnil. Qed.

Lemma comps_inj p q : comps p = comps q -> p = q.
Proof. unfold comps. intros H. rewrite <- (Join_Split slash p), <- (Join_Split slash q). by rewrite H. Qed.

Lemma ContainsByte_no_byte s c : ContainsByte s c = false <-> no_byte c s.
Proof.
  unfold ContainsByte, no_byte. rewrite any_false. split.
  - intros H Hin. apply H in Hin. by rewrite Ascii.eqb_refl in Hin.
  - intros H x Hx. destruct (Ascii.eqb_spec c x); [by subst|done].
Qed.

Lemma comps_good p : Forall good_comp (comps p) <->
  forallb (fun c => negb ((c =s? ".") || (c =s? "..") || (c =s? ""))) (comps p) = true.
Proof.
  rewrite forallb_elem, list.Forall_forall. split; intros H x Hx.
  - apply H in Hx as (? & ? & ? & _). apply negb_true_iff.
    by repeat match goal with |- context [?a =s? ?b] => destruct (String.eqb_spec a b) end.
  - pose proof (H x Hx) as Hx'. cbn beta in Hx'. bprop. repeat split; try done.
    by apply (Split_no_byte slash p).
Qed.

Lemma comps_good_ValidPath p :
  Forall good_comp (comps p) -> ValidPath p = ValidString p.
Proof.
  intros Hg. unfold ValidPath. destruct (ValidString p); [|done]. cbn [andb].
  apply orb_true_iff. right. apply comps_good in Hg. rewrite forallb_elem in Hg |- *.
  intros x Hx. apply Hg in Hx. bprop. rewrite negb_true_iff, !orb_false_iff, !String.eqb_neq. tauto.
Qed.

Lemma comps_good_clean p : Forall good_comp (comps p) ->
  p <> "" /\ IsAbs p = false /\ Clean p = p.
Proof.
  intros Hg. pose proof (comps_nonnil p) as Hn. rewrite <- (Join_Split slash p).
  split; [by apply Join_nonempty|]. split; [by apply IsAbs_Join|by apply Clean_rel].
Qed.

(** CheckRelPath accepts exactly the valid UTF-8 paths of 1 to 1024 bytes
    with no backslash whose every slash-separated component is a name: not
    empty, not "." and not "..". Its checks of a leading slash, of fs.ValidPath
    and of path.Clean follow from that. *)
Lemma CheckRelPath_iff p :
  CheckRelPath p = true <->
  slen p <= 1024 /\ no_byte "\" p /\ ValidString p = true /\ Forall good_comp (comps p).
Proof.
  unfold CheckRelPath. fold (comps p). split.
  - intros H. destruct ((p =s? "") || (1024 <? slen p)) eqn:E1; [done|].
    destruct (_ || _ || _ || _) eqn:E2; [done|]. apply comps_good in H. bprop.
    rewrite comps_good_ValidPath in * by done.
    split; [done|]. split; [by apply ContainsByte_no_byte|done].
  - intros (Hl & Hb & Hv & Hg). destruct (comps_good_clean p Hg) as (Hne & Ha & Hc).
    apply String.eqb_neq in Hne. rewrite Hne. destruct (Z.ltb_spec 1024 (slen p)); [lia|].
    unfold IsAbs in Ha. rewrite Ha, (proj2 (ContainsByte_no_byte p "\") Hb).
    rewrite comps_good_ValidPath, Hv, Hc, String.eqb_refl by done. cbn [orb negb].
    by apply comps_good.
Qed.

(** The components of a workspace and of a working directory that pass their
    checks are names. *)
Lemma workdir_parts l dir : LayoutValidate l = Ok tt -> CheckWorkDir dir = Ok tt -> dir <> "" ->
  exists ws, l_workspace l = abs_path ws /\ Forall good_comp ws /\ Forall good_comp (comps dir).
Proof.
  intros Hl Hd Hne. apply LayoutValidate_spec in Hl as [Hl _]. apply String.eqb_neq in Hne.
  unfold CheckWorkDir in Hd. rewrite Hne in Hd. destruct (CheckRelPath dir) eqn:Hc; [|done].
  apply CheckRelPath_iff in Hc as (_ & _ & _ & Hg). rewrite list.Forall_forall in Hl.
  destruct (Hl RootWorkspace) as [Ha Hcl]; [unfold all_roots; rewrite !elem_of_cons; tauto|].
  destruct (clean_abs_path _ Ha Hcl) as (ws & Hws & Hwg). by exists ws.
Qed.

(** a Session's working directory stays beneath the workspace: for a
    layout LayoutValidate accepts and a nonempty directory CheckWorkDir
    accepts, WorkDirPath is the workspace's path followed by the directory's
    own components, and is clean. *)
Theorem WorkDirPath_beneath l dir
  (Hl : LayoutValidate l = Ok tt) (Hd : CheckWorkDir dir = Ok tt) (Hne : dir <> "") :
  exists ws, l_workspace l = abs_path ws /\
    WorkDirPath l dir = abs_path (ws ++ comps dir)%list /\
    Forall good_comp (ws ++ comps dir)%list /\
    Clean (WorkDirPath l dir) = WorkDirPath l dir.
Proof.
  destruct (workdir_parts l dir Hl Hd Hne) as (ws & Hws & Hwg & Hg). apply String.eqb_neq in Hne.
  exists ws. split; [exact Hws|]. unfold WorkDirPath. rewrite Hne, Hws.
  assert (PathJoin (abs_path ws) dir = abs_path (ws ++ comps dir)%list) as ->.
  { rewrite <- (Join_Split slash dir) at 1. apply PathJoin_abs; [done|done|apply comps_nonnil]. }
  assert (Forall good_comp (ws ++ comps dir)%list) by (by apply Forall_app).
  split; [done|]. split; [done|]. by apply Clean_abs.
Qed.

(** ** Paths beneath a root *)

(** [Within] is the tree order on components. *)
Lemma Within_spec p q :
  Within p q = true <-> rp_root p = rp_root q /\ comps (rp_path q) `prefix_of` comps (rp_path p).
Proof.
  unfold Within. rewrite andb_true_iff, orb_true_iff, !String.eqb_eq, HasPrefix_spec.
  assert (Hiff : (rp_path p = rp_path q \/ (exists r, rp_path p = (rp_path q ++ "/") ++ r)) <->
     comps (rp_path q) `prefix_of` comps (rp_path p)); [|naive_solver].
  destruct p as [rp p], q as [rq q]; cbn [rp_path]. split.
  - intros [-> | [r ->]]; [done|]. rewrite append_assoc. change ("/" ++ r) with (String slash r).
    unfold comps. rewrite Split_app_string. by eexists.
  - intros [k Hk]. destruct k as [|x k].
    + left. apply comps_inj. by rewrite app_nil_r in Hk.
    + right. exists (Join slash (x :: k)). rewrite append_assoc.
      change ("/" ++ Join slash (x :: k)) with (String slash (Join slash (x :: k))).
      rewrite <- (Join_Split slash p). fold (comps p). rewrite Hk.
      rewrite Join_app by (try apply comps_nonnil; done). unfold comps. by rewrite Join_Split.
Qed.

Lemma Within_refl p : Within p p = true.
Proof. by apply Within_spec. Qed.

Lemma Within_trans p q r : Within p q = true -> Within q r = true -> Within p r = true.
Proof. rewrite !Within_spec. intros [? ?] [? ?]. split; [congruence|]. by etrans. Qed.

(** Two places a path lies beneath are one beneath the other. *)
Lemma Within_linear p q r : Within p q = true -> Within p r = true ->
  Within q r = true \/ Within r q = true.
Proof.
  rewrite !Within_spec. intros [H1 Hq] [H2 Hr].
  destruct (prefix_weak_total _ _ _ Hq Hr); [right|left]; split; congruence || done.
Qed.

(** A rule moves a path to its destination, keeping the components beneath. *)
Lemma Relocate_rule r p :
  Within p (rl_from r) = true ->
  exists rest, comps (rp_path p) = (comps (rp_path (rl_from r)) ++ rest)%list /\
    comps (rp_path (rl_to r) ++ TrimPrefix (rp_path p) (rp_path (rl_from r)))
    = (comps (rp_path (rl_to r)) ++ rest)%list.
Proof.
  rewrite Within_spec. intros [_ [rest Hrest]]. exists rest. split; [done|].
  destruct rest as [|x k].
  - rewrite app_nil_r in Hrest |- *. apply comps_inj in Hrest. rewrite Hrest.
    rewrite <- (append_nil_r (rp_path (rl_from r))) at 1. by rewrite TrimPrefix_app, append_nil_r.
  - assert (Hp : rp_path p = rp_path (rl_from r) ++ String slash (Join slash (x :: k))).
    { rewrite <- (Join_Split slash (rp_path p)). fold (comps (rp_path p)). rewrite Hrest.
      rewrite Join_app by (try apply comps_nonnil; done). unfold comps. by rewrite Join_Split. }
    rewrite Hp, TrimPrefix_app. unfold comps at 1. rewrite Split_app_string. f_equal.
    rewrite Split_Join; [done|done|].
    assert (Forall (no_byte slash) (comps (rp_path p))) as Hall.
    { apply list.Forall_forall. intros e He. by apply Split_no_byte in He. }
    rewrite Hrest in Hall. by apply Forall_app in Hall as [_ ?].
Qed.

(** Neither path is the other nor beneath it. *)
Definition disjoint_paths (p q : RootPath) : Prop := Within p q = false /\ Within q p = false.

(** No two rules' sources, and no two destinations, are one another or nested. *)
Definition disjoint_rules (r r' : Relocation) : Prop :=
  disjoint_paths (rl_from r) (rl_from r') /\ disjoint_paths (rl_to r) (rl_to r').
Definition rules_ok (rules : list Relocation) : Prop := ForallOrdPairs disjoint_rules rules.

#[export] Instance disjoint_rules_sym : Symmetric disjoint_rules.
Proof. intros r r' [[? ?] [? ?]]. done. Qed.

Lemma rules_ok_perm rules rules' : rules ≡ₚ rules' -> rules_ok rules -> rules_ok rules'.
Proof.
  unfold rules_ok. induction 1 as [| x l l' Hp IH | x y l | l l' l'' _ IH1 _ IH2]; [done|..|auto].
  - inversion_clear 1 as [|? ? Hx Hl]. constructor; [by rewrite <- Hp|auto].
  - inversion_clear 1 as [|? ? Hy Hl]. inversion_clear Hl as [|? ? Hx Hl'].
    apply Forall_cons_iff in Hy as [Hyx Hy].
    constructor; [apply Forall_cons_iff; split; [by symmetry|done]|by constructor].
Qed.

Definition move (r : Relocation) (p : RootPath) : RootPath :=
  mkRootPath (rp_root (rl_to r)) (rp_path (rl_to r) ++ TrimPrefix (rp_path p) (rp_path (rl_from r))).

Lemma Relocate_move rules r p : rules_ok rules -> r ∈ rules -> Within p (rl_from r) = true ->
  Relocate rules p = move r p.
Proof.
  induction rules as [|r0 rules IH]; [by intros _ ?%not_elem_of_nil|].
  intros Hok Hin Hw. inversion_clear Hok as [|? ? Hr0 Hok']. cbn [Relocate].
  destruct (Within p (rl_from r0)) eqn:Hw0.
  - apply elem_of_cons in Hin as [->|Hin]; [done|].
    rewrite list.Forall_forall in Hr0. destruct (Hr0 r Hin) as [[H1 H2] _].
    destruct (Within_linear p _ _ Hw0 Hw); congruence.
  - apply elem_of_cons in Hin as [->|Hin]; [congruence|auto].
Qed.

Lemma Relocate_unmoved rules p : (forall r, r ∈ rules -> Within p (rl_from r) = false) ->
  Relocate rules p = p.
Proof.
  induction rules as [|r rules IH]; intros H; [done|]. cbn [Relocate].
  rewrite (H r) by apply list_elem_of_here. apply IH. intros r' ?. apply H. by apply list_elem_of_further.
Qed.

Lemma move_Within r p : Within p (rl_from r) = true -> Within (move r p) (rl_to r) = true.
Proof.
  intros Hw. destruct (Relocate_rule r p Hw) as (rest & _ & Hm).
  apply Within_spec. split; [done|]. cbn [move rp_path]. rewrite Hm. by eexists.
Qed.

(** Two paths that disjoint rules move to one place are the same path. *)
Lemma Relocate_inj rules (Hok : rules_ok rules) p q r s
  (Hr : r ∈ rules) (Hp : Within p (rl_from r) = true)
  (Hs : s ∈ rules) (Hq : Within q (rl_from s) = true)
  (Heq : Relocate rules p = Relocate rules q) : p = q.
Proof.
  rewrite (Relocate_move rules r p), (Relocate_move rules s q) in Heq by done.
  destruct (ForallOrdPairs_In Hok r s) as [->|Hd]; [by apply list_elem_of_In..| |].
  - destruct (Relocate_rule s p Hp) as (k & Hk & Hk'), (Relocate_rule s q Hq) as (k' & Hq1 & Hq').
    injection Heq as Heq. rewrite Heq, Hq' in Hk'. apply (inj (app _)) in Hk' as <-.
    rewrite <- Hk in Hq1. apply comps_inj in Hq1.
    apply Within_spec in Hp as [Hp _]. apply Within_spec in Hq as [Hq _].
    destruct p, q. cbn in *. congruence.
  - apply move_Within in Hp, Hq. rewrite Heq in Hp.
    assert (disjoint_rules r s) as [_ [H1 H2]] by (destruct Hd; [done|by symmetry]).
    destruct (Within_linear _ _ _ Hp Hq); congruence.
Qed.

(** The answer does not depend on the order of disjoint rules. *)
Lemma Relocate_perm rules rules' (Hok : rules_ok rules) (Hperm : rules ≡ₚ rules') p :
  Relocate rules p = Relocate rules' p.
Proof.
  pose proof (rules_ok_perm _ _ Hperm Hok) as Hok'.
  destruct (any (fun r => Within p (rl_from r)) rules) eqn:E.
  - apply any_true in E as (r & Hr & Hw). rewrite (Relocate_move rules r p), (Relocate_move rules' r p); try done.
    by rewrite <- Hperm.
  - pose proof (proj1 (any_false _ _) E) as Hn.
    rewrite !Relocate_unmoved; [done| |done]. intros r Hr. apply Hn. by rewrite Hperm.
Qed.

Lemma Archived_spec history secrets p : Archived history secrets p = true <->
  (exists h, h ∈ history /\ Within p h = true) /\ (forall s, s ∈ secrets -> Within p s = false).
Proof.
  unfold Archived. rewrite <- any_true, <- any_false.
  destruct (any (Within p) secrets), (any (Within p) history); naive_solver.
Qed.

Definition demo_layout : Layout := mkLayout "/h" "/c" "/w" "/s" "/x".

Lemma WorkDirPath_beneath_witness :
  WorkDirPath demo_layout "a/b" = "/w/a/b" /\
  exists ws, l_workspace demo_layout = abs_path ws /\ WorkDirPath demo_layout "a/b" = abs_path (ws ++ comps "a/b")%list /\
    Forall good_comp (ws ++ comps "a/b")%list /\ Clean (WorkDirPath demo_layout "a/b") = WorkDirPath demo_layout "a/b".
Proof.
  split; [vm_compute; reflexivity|].
  refine (WorkDirPath_beneath demo_layout "a/b" _ _ _); [vm_compute; reflexivity|vm_compute; reflexivity|discriminate].
Defined.
