(* ===== verification/Spec.v ===== *)
(** The harness-neutral Agent Spec and its checks: AgentSpec, CheckSpec,
    validHeaders, VersionPolicy, ProvisionRequest, CheckMinor and CheckLoad of
    pkg/contract/provision.go, and CheckHarnessVersion of pkg/adapter. *)
From Stdlib Require Import ZArith Ascii String Lia.
From stdpp Require Import base tactics list gmap strings option sorting.
From S2P Require Import Prelude GoStr Contract Descriptor Layout.

#[local] Open Scope string_scope.
#[local] Open Scope Z_scope.

(** ** The Agent Spec *)

Record SpecFile := mkFile { f_path : string; f_content : string }.

Record Skill := mkSkill { sk_name : string; sk_files : list SpecFile }.

Record StdioConnector := mkStdio {
  st_command : string; st_args : list string; st_env : gmap string string }.

Record HTTPConnector := mkHTTP {
  ht_url : string;
  ht_headers : gmap string string;
  ht_headers_file : gmap string string;
  ht_headers_env : gmap string string;
}.

Record Connector := mkConnector {
  c_name : string; c_stdio : option StdioConnector; c_http : option HTTPConnector }.

Abbreviation VersionPolicy := string (only parsing).
Definition VersionStrict : VersionPolicy := "strict".
Definition VersionFlexible : VersionPolicy := "flexible".
Definition VersionPolicySince : Z := 7.

Definition PostureBypass : string := "bypass".
Definition PostureGated : string := "gated".
Definition ConnectorStdio : string := "stdio".
Definition ConnectorHTTP : string := "http".
Definition InstructionPersona : string := "persona".
Definition InstructionWorkspace : string := "workspace".

(** [as_persona] and [as_workspace] are Instructions' fields; [as_memory] is
    Memory's files, and [as_credential] the CredentialRef's kind. *)
Record AgentSpec := mkSpec {
  as_model : string;
  as_effort : string;
  as_persona : string;
  as_workspace : string;
  as_skills : list Skill;
  as_connectors : list Connector;
  as_memory : option (list SpecFile);
  as_posture : string;
  as_credential : option string;
  as_version_policy : VersionPolicy;
}.

(** ** Version policies *)

Definition PolicyValid (p : VersionPolicy) : bool :=
  (p =s? "") || (p =s? VersionStrict) || (p =s? VersionFlexible).

Definition Admits (p : VersionPolicy) (pinned running : string) : bool :=
  negb (p =s? VersionStrict) || (negb (running =s? "") && (running =s? pinned)).

(** pkg/adapter's CheckHarnessVersion. *)
Definition CheckHarnessVersion (p : VersionPolicy) (pinned running : string) : result Error unit :=
  if Admits p pinned running then Ok tt else Err (OpenError OpenVersionUnsupported).

(** ** Names and headers *)

Definition name_rune (r : Z) : bool :=
  in_range 97 122 r || in_range 65 90 r || in_range 48 57 r || (r =? 46) || (r =? 95) || (r =? 45).

Definition validName (s : string) : bool :=
  if (s =s? "") || (64 <? slen s) then false else forallb name_rune (runes s).

(** The delimiters an HTTP token excludes: double quote, parentheses, comma, slash, colon,
    semicolon, less, equals, greater, question mark, at, brackets, backslash
    and braces. *)
Definition token_delims : list Z := [34; 40; 41; 44; 47; 58; 59; 60; 61; 62; 63; 64; 91; 92; 93; 123; 125].

Definition token_rune (r : Z) : bool :=
  negb ((126 <? r) || (r <=? 32) || any (Z.eqb r) token_delims).

Definition validToken (s : string) : bool :=
  if s =s? "" then false else forallb token_rune (runes s).

(** [sort.Strings] of a map's keys. *)
Definition sorted_keys (m : gmap string string) : list string :=
  merge_sort String.le (map fst (map_to_list m)).

(** One part of validHeaders' loop: the headers of [m], in sorted order. *)
Definition validHeadersPart (field name : string) (m : gmap string string) (seen : gset string)
  : result Error (gset string) :=
  range (fun (_ : Z) (n : string) (seen : gset string) =>
    when negb (validToken n) refuse FieldError CodeInvalidSpec (field ++ "." ++ name) ;;
    when bool_decide (ToLower n ∈ seen) refuse FieldError CodeInvalidSpec (field ++ "." ++ name) ;;
    let p := default "" (m !! n) in
    when (name =s? "headers_file") && (negb (IsAbs p) || negb (Clean p =s? p))
      refuse FieldError CodeInvalidSpec (field ++ ".headers_file") ;;
    Ok ({[ToLower n]} ∪ seen)) (sorted_keys m) seen.

Definition validHeaders (field : string) (h : HTTPConnector) : result Error unit :=
  seen ← validHeadersPart field "headers" (ht_headers h) ∅;
  seen ← validHeadersPart field "headers_env" (ht_headers_env h) seen;
  seen ← validHeadersPart field "headers_file" (ht_headers_file h) seen;
  Ok tt.

(** ** CheckSpec *)

Definition unsupported (field : string) : Error := FieldError CodeUnsupported field.
Definition invalid_spec (field : string) : Error := FieldError CodeInvalidSpec field.

(** The loop over connectors; its state is the names given so far. *)
Definition checkConnector (d : Descriptor) (i : Z) (c : Connector) (names : gset string)
  : result Error (gset string) :=
  let field := "connectors[" ++ Itoa i ++ "]" in
  let takes := supports (ss_connectors (d_spec d)) in
  when negb (validName (c_name c)) refuse invalid_spec (field ++ ".name") ;;
  when bool_decide (c_name c ∈ names) refuse invalid_spec (field ++ ".name") ;;
  let names := {[c_name c]} ∪ names in
  match c_stdio c, c_http c with
  | None, None => Err (invalid_spec field)
  | Some _, Some _ => Err (invalid_spec field)
  | Some st, None =>
    when negb (takes ConnectorStdio) refuse unsupported (field ++ ".stdio") ;;
    when st_command st =s? "" refuse invalid_spec (field ++ ".stdio.command") ;;
    Ok names
  | None, Some h =>
    when negb (takes ConnectorHTTP) refuse unsupported (field ++ ".http") ;;
    when ht_url h =s? "" refuse invalid_spec (field ++ ".http.url") ;;
    _ ← validHeaders (field ++ ".http") h;
    Ok names
  end.

(** The loop over a skill's or the memory's files; its state is the paths
    given so far. *)
Definition checkFile (field : string) (j : Z) (f : SpecFile) (paths : gset string)
  : result Error (gset string) :=
  when negb (CheckRelPath (f_path f)) refuse invalid_spec (field ++ "files[" ++ Itoa j ++ "].path") ;;
  when bool_decide (f_path f ∈ paths) refuse invalid_spec (field ++ "files[" ++ Itoa j ++ "].path") ;;
  Ok ({[f_path f]} ∪ paths).

Definition checkSkill (i : Z) (sk : Skill) (skills : gset string) : result Error (gset string) :=
  let field := "skills[" ++ Itoa i ++ "]" in
  when negb (validName (sk_name sk)) || (sk_name sk =s? ".") || (sk_name sk =s? "..")
    refuse invalid_spec (field ++ ".name") ;;
  when bool_decide (sk_name sk ∈ skills) refuse invalid_spec (field ++ ".name") ;;
  _ ← range (checkFile (field ++ ".")) (sk_files sk) ∅;
  when negb (any (fun f => f_path f =s? "SKILL.md") (sk_files sk)) refuse invalid_spec field ;;
  Ok ({[sk_name sk]} ∪ skills).

Definition checkPosture (d : Descriptor) (posture : string) : result Error unit :=
  if posture =s? "" then Ok tt
  else if (posture =s? PostureBypass) || (posture =s? PostureGated) then
    when negb (supports (ss_postures (d_spec d)) posture) refuse unsupported "permission_posture" ;; Ok tt
  else Err (invalid_spec "permission_posture").

Definition CheckSpec (d : Descriptor) (s : AgentSpec) : result Error unit :=
  let sp := d_spec d in
  when negb (Allows (ss_models sp) (as_model s)) refuse unsupported "model" ;;
  when negb (as_effort s =s? "") && negb (supports (ss_efforts sp) (as_effort s))
    refuse unsupported "effort" ;;
  when negb (as_persona s =s? "") && negb (supports (ss_instructions sp) InstructionPersona)
    refuse unsupported "instructions.persona" ;;
  when negb (as_workspace s =s? "") && negb (supports (ss_instructions sp) InstructionWorkspace)
    refuse unsupported "instructions.workspace" ;;
  when (0 <? llen (as_skills s)) && negb (ss_skills sp) refuse unsupported "skills" ;;
  when bool_decide (is_Some (as_memory s)) && negb (ss_memory sp) refuse unsupported "memory" ;;
  _ ← range (checkConnector d) (as_connectors s) ∅;
  _ ← checkPosture d (as_posture s);
  when match as_credential s with
       | Some k => negb (supports (d_credential_kinds d) k) | None => false end
    refuse unsupported "credential.kind" ;;
  when negb (PolicyValid (as_version_policy s)) refuse invalid_spec "version_policy" ;;
  when negb (as_version_policy s =s? "") &&
       match MinorOf (d_contract d) with None => true | Some minor => minor <? VersionPolicySince end
    refuse unsupported "version_policy" ;;
  _ ← range checkSkill (as_skills s) ∅;
  match as_memory s with
  | None => Ok tt
  | Some files => _ ← range (checkFile "memory.") files ∅; Ok tt
  end.

(** ** Provision's request *)

Record LoadSource := mkLoadSource {
  lo_format : Z;
  lo_harness : HarnessInfo;
  lo_layout : Layout;
  lo_workspace : string;
  lo_workdirs : list string;
}.

Definition MaxLoadWorkDirs : Z := 1024.

Record ProvisionRequest := mkProvision {
  pr_contract : string;
  pr_harness_root : string;
  pr_layout : Layout;
  pr_spec : AgentSpec;
  pr_load : option LoadSource;
}.

Definition CheckMinor (req : ProvisionRequest) : result Error unit :=
  match MinorOf (pr_contract req) with
  | None => Err (FieldError CodeProtocol "contract")
  | Some minor =>
    when negb (as_version_policy (pr_spec req) =s? "") && (minor <? VersionPolicySince)
      refuse FieldError CodeProtocol "spec.version_policy" ;;
    when match pr_load req with
         | Some l => (0 <? llen (lo_workdirs l)) && (minor <? SessionWorkDirSince) | None => false end
      refuse FieldError CodeProtocol "load.work_dirs" ;;
    Ok tt
  end.

Definition CheckLoad (d : Descriptor) (l : LoadSource) : result Error unit :=
  match d_load d with
  | None => Err (unsupported "load")
  | Some ld =>
    when negb (Has d CapSessionLoad) refuse unsupported "load" ;;
    when negb (h_name (lo_harness l) =s? h_name (d_harness d)) refuse unsupported "load.harness.name" ;;
    when negb (any (fun f => f =? lo_format l) (ls_formats ld)) refuse unsupported "load.format" ;;
    when negb (supports (ls_sources ld) (h_version (lo_harness l))) refuse unsupported "load.harness.version" ;;
    _ ← map_err (fun e => FieldError CodeInvalidSpec ("load." ++ e_field e)) (LayoutValidate (lo_layout l));
    when negb (IsAbs (lo_workspace l)) || negb (Clean (lo_workspace l) =s? lo_workspace l)
      refuse invalid_spec "load.workspace" ;;
    if llen (lo_workdirs l) =? 0 then Ok tt
    else
      when negb (Has d CapSessionWorkDir) refuse unsupported "load.work_dirs" ;;
      when MaxLoadWorkDirs <? llen (lo_workdirs l) refuse invalid_spec "load.work_dirs" ;;
      _ ← range (fun i w (seen : gset string) =>
            when negb (CheckRelPath w) refuse invalid_spec ("load.work_dirs[" ++ Itoa i ++ "]") ;;
            when bool_decide (w ∈ seen) refuse invalid_spec ("load.work_dirs[" ++ Itoa i ++ "]") ;;
            Ok ({[w]} ∪ seen)) (lo_workdirs l) ∅;
      Ok tt
  end.

(** ** What the checks accept *)

(** A loop that returns nil: the whole loop ran. *)
Lemma bind_tt {E S} (m : result E S) : (_ ← m; Ok tt) = Ok tt <-> exists s, m = Ok s.
Proof. rewrite bind_Ok. naive_solver. Qed.

Lemma sorted_keys_elem m n : n ∈ sorted_keys m <-> is_Some (m !! n).
Proof.
  unfold sorted_keys. rewrite merge_sort_Permutation. split.
  - intros H. apply list_elem_of_In, in_map_iff in H as ([k v] & <- & Hkv).
    apply list_elem_of_In, elem_of_map_to_list in Hkv. cbn. eauto.
  - intros [v Hv]. apply list_elem_of_In, in_map_iff. exists (n, v). split; [done|].
    apply list_elem_of_In. by apply elem_of_map_to_list.
Qed.

Lemma sorted_keys_NoDup m : NoDup (sorted_keys m).
Proof. unfold sorted_keys. rewrite merge_sort_Permutation. apply NoDup_fst_map_to_list. Qed.

(** The guard of one header: a token, and for headers_file a clean absolute
    path. *)
Definition header_ok (name : string) (m : gmap string string) (n : string) : Prop :=
  validToken n = true /\
  (name = "headers_file" -> IsAbs (default "" (m !! n)) = true /\
     Clean (default "" (m !! n)) = default "" (m !! n)).

Lemma validHeadersPart_ok field name m seen :
  (exists s, validHeadersPart field name m seen = Ok s) <->
  Forall (header_ok name m) (sorted_keys m) /\ NoDup (map ToLower (sorted_keys m)) /\
  (forall n, n ∈ sorted_keys m -> ToLower n ∉ seen).
Proof.
  unfold validHeadersPart. apply range_distinct.
  - intros j n s s'. rewrite !when_Ok. intros (Ht & Hs & Hf & [= <-]). bprop.
    split; [|done]. split; [done|]. intros ->. destruct Hf as [Hf|Hf]; [done|]. by bprop.
  - intros j n s [Ht Hf] Hn. rewrite Ht, bool_decide_false by done. cbn [negb].
    destruct (String.eqb_spec name "headers_file") as [->|]; [|eauto].
    destruct (Hf eq_refl) as [-> ->]. rewrite String.eqb_refl. cbn. eauto.
Qed.

Lemma validHeadersPart_seen field name m seen s :
  validHeadersPart field name m seen = Ok s -> s = list_to_set (map ToLower (sorted_keys m)) ∪ seen.
Proof.
  intros H. eapply (range_distinct_seen _ ToLower (fun _ => True)); [|exact H].
  intros j n s0 s'. rewrite !when_Ok. intros (Ht & Hs & Hf & [= <-]). bprop. done.
Qed.

(** Every header name of a connector, of its three maps in turn. *)
Definition header_names (h : HTTPConnector) : list string :=
  sorted_keys (ht_headers h) ++ sorted_keys (ht_headers_env h) ++ sorted_keys (ht_headers_file h).

Definition headers_ok (h : HTTPConnector) : Prop :=
  Forall (header_ok "headers" (ht_headers h)) (sorted_keys (ht_headers h)) /\
  Forall (header_ok "headers_env" (ht_headers_env h)) (sorted_keys (ht_headers_env h)) /\
  Forall (header_ok "headers_file" (ht_headers_file h)) (sorted_keys (ht_headers_file h)) /\
  NoDup (map ToLower (header_names h)).

(** validHeaders accepts exactly the connectors whose every header name is a
    token, named once across headers, headers_env and headers_file in any
    letter case, and whose every header file is a clean absolute path. *)
Theorem validHeaders_spec field h : validHeaders field h = Ok tt <-> headers_ok h.
Proof.
  unfold validHeaders, headers_ok, header_names. rewrite !map_app.
  rewrite !list.NoDup_app. setoid_rewrite elem_of_app.
  assert (Hkey : forall m (X : gset string), (forall n, n ∈ sorted_keys m -> ToLower n ∉ X) <->
            (forall k, k ∈ map ToLower (sorted_keys m) -> k ∉ X)).
  { intros m X. split; [|intros H n Hn; apply H, list_elem_of_fmap; eauto].
    intros H k (n & -> & Hn)%list_elem_of_fmap. auto. }
  rewrite bind_Ok. split.
  - intros (s1 & H1 & H). rewrite bind_Ok in H. destruct H as (s2 & H2 & H). apply bind_tt in H as [s3 H3].
    pose proof (validHeadersPart_seen _ _ _ _ _ H1) as ->.
    pose proof (validHeadersPart_seen _ _ _ _ _ H2) as ->.
    apply (ex_intro (fun s => _ = Ok s)) in H1, H2, H3.
    apply validHeadersPart_ok in H1 as (? & ? & _), H2 as (? & ? & Hd2), H3 as (? & ? & Hd3).
    rewrite Hkey in Hd2, Hd3. set_solver.
  - intros (F1 & F2 & F3 & N1 & D1 & N2 & D2 & N3).
    destruct (proj2 (validHeadersPart_ok field "headers" (ht_headers h) ∅)) as [s1 H1];
      [split; [done|]; split; [done|]; set_solver|].
    exists s1. split; [done|]. apply validHeadersPart_seen in H1 as ->.
    destruct (proj2 (validHeadersPart_ok field "headers_env" (ht_headers_env h) (list_to_set (map ToLower (sorted_keys (ht_headers h))) ∪ ∅))) as [s2 H2].
    { split; [done|]. split; [done|]. rewrite Hkey. set_solver. }
    rewrite bind_Ok. exists s2. split; [done|]. apply validHeadersPart_seen in H2 as ->. apply bind_tt.
    apply validHeadersPart_ok. split; [done|]. split; [done|]. rewrite Hkey. set_solver.
Qed.

Definition files_ok (files : list SpecFile) : Prop :=
  Forall (fun f => CheckRelPath (f_path f) = true) files /\ NoDup (map f_path files).

Lemma checkFiles_ok field files : (exists s, range (checkFile field) files ∅ = Ok s) <-> files_ok files.
Proof.
  unfold files_ok. rewrite (range_distinct _ f_path (fun f => CheckRelPath (f_path f) = true)).
  - set_solver.
  - intros j f s s'. unfold checkFile. rewrite !when_Ok. intros (? & ? & [= <-]). bprop. done.
  - intros j f s Hf Hn. unfold checkFile. rewrite Hf, bool_decide_false by done. cbn. eauto.
Qed.

Definition skill_ok (sk : Skill) : Prop :=
  validName (sk_name sk) = true /\ sk_name sk <> "." /\ sk_name sk <> ".." /\
  files_ok (sk_files sk) /\ "SKILL.md" ∈ map f_path (sk_files sk).

Lemma top_file files : any (fun f => f_path f =s? "SKILL.md") files = true <-> "SKILL.md" ∈ map f_path files.
Proof.
  rewrite any_true. setoid_rewrite String.eqb_eq.
  split; [intros (f & Hf & <-)|intros (f & -> & Hf)%list_elem_of_fmap; eauto].
  apply list_elem_of_fmap. eauto.
Qed.

Lemma checkSkills_ok skills : (exists s, range checkSkill skills ∅ = Ok s) <->
  Forall skill_ok skills /\ NoDup (map sk_name skills).
Proof.
  rewrite (range_distinct _ sk_name skill_ok).
  - set_solver.
  - intros j sk s s'. unfold checkSkill. rewrite !when_Ok, bind_Ok.
    intros (Hn & Hd & fs & Hfs & H). rewrite when_Ok in H. destruct H as (Ht & [= <-]). bprop.
    split; [|done]. repeat split; try done; [..|by apply top_file];
      apply (ex_intro (fun s => _ = Ok s)), checkFiles_ok in Hfs; apply Hfs.
  - intros j sk s (Hn & Hd1 & Hd2 & Hf & Ht) Hs. unfold checkSkill.
    apply (checkFiles_ok ("skills[" ++ Itoa j ++ "]" ++ ".")) in Hf as [fs Hfs]. apply top_file in Ht.
    apply String.eqb_neq in Hd1, Hd2. rewrite Hn, Hd1, Hd2, bool_decide_false by done. cbn [negb orb].
    rewrite !append_assoc, Hfs. cbn [mbind result_bind]. rewrite Ht. cbn. eauto.
Qed.

(** A connector has exactly one transport, one the harness takes. *)
Definition connector_ok (d : Descriptor) (c : Connector) : Prop :=
  validName (c_name c) = true /\
  match c_stdio c, c_http c with
  | Some st, None => ConnectorStdio ∈ ss_connectors (d_spec d) /\ st_command st <> ""
  | None, Some h => ConnectorHTTP ∈ ss_connectors (d_spec d) /\ ht_url h <> "" /\ headers_ok h
  | _, _ => False
  end.

Lemma checkConnectors_ok d cs : (exists s, range (checkConnector d) cs ∅ = Ok s) <->
  Forall (connector_ok d) cs /\ NoDup (map c_name cs).
Proof.
  rewrite (range_distinct _ c_name (connector_ok d)).
  - set_solver.
  - intros j c s s'. unfold checkConnector, connector_ok. rewrite !when_Ok. intros (Hn & Hd & H). bprop.
    destruct (c_stdio c) as [st|], (c_http c) as [h|]; try done; rewrite !when_Ok in H.
    + destruct H as (Hs & Hc & [= <-]). bprop. by apply supports_spec in Hs.
    + rewrite bind_Ok in H. destruct H as (Hs & Hc & [] & Hh & [= <-]). bprop.
      apply supports_spec in Hs. by apply validHeaders_spec in Hh.
  - intros j c s [Hn H] Hs. unfold checkConnector. rewrite Hn, bool_decide_false by done. cbn [negb].
    destruct (c_stdio c) as [st|], (c_http c) as [h|]; try done.
    + destruct H as (Hs' & Hc). apply supports_spec in Hs'. apply String.eqb_neq in Hc.
      rewrite Hs', Hc. cbn. eauto.
    + destruct H as (Hs' & Hc & Hh). apply supports_spec in Hs'. apply String.eqb_neq in Hc.
      rewrite Hs', Hc. cbn [negb]. rewrite (proj2 (validHeaders_spec _ h) Hh). cbn. eauto.
Qed.

(** The specs a Descriptor supports: what CheckSpec's documentation says of
    each field. *)
Record spec_ok (d : Descriptor) (s : AgentSpec) : Prop := {
  ok_model : Allows (ss_models (d_spec d)) (as_model s) = true;
  ok_effort : as_effort s <> "" -> as_effort s ∈ ss_efforts (d_spec d);
  ok_persona : as_persona s <> "" -> InstructionPersona ∈ ss_instructions (d_spec d);
  ok_workspace : as_workspace s <> "" -> InstructionWorkspace ∈ ss_instructions (d_spec d);
  ok_skills_taken : as_skills s <> [] -> ss_skills (d_spec d) = true;
  ok_memory_kept : as_memory s <> None -> ss_memory (d_spec d) = true;
  ok_connectors : Forall (connector_ok d) (as_connectors s) /\ NoDup (map c_name (as_connectors s));
  ok_posture : as_posture s <> "" ->
    as_posture s ∈ [PostureBypass; PostureGated] /\ as_posture s ∈ ss_postures (d_spec d);
  ok_credential : forall k, as_credential s = Some k -> k ∈ d_credential_kinds d;
  ok_policy : as_version_policy s <> "" ->
    as_version_policy s ∈ [VersionStrict; VersionFlexible] /\
    exists minor, MinorOf (d_contract d) = Some minor /\ VersionPolicySince <= minor;
  ok_skills : Forall skill_ok (as_skills s) /\ NoDup (map sk_name (as_skills s));
  ok_memory : forall fs, as_memory s = Some fs -> files_ok fs;
}.

(** A guard on an optional string: [s != "" && !supports(...)] refuses. *)
Lemma guard_optional (x : string) (b : bool) (P : Prop) : (b = true <-> P) ->
  negb (x =s? "") && negb b = false <-> (x <> "" -> P).
Proof. intros Hb. destruct (String.eqb_spec x ""), b; naive_solver. Qed.

Lemma checkPosture_ok d p : checkPosture d p = Ok tt <->
  (p <> "" -> p ∈ [PostureBypass; PostureGated] /\ p ∈ ss_postures (d_spec d)).
Proof.
  unfold checkPosture. rewrite !elem_of_cons, elem_of_nil. destruct (String.eqb_spec p ""); [naive_solver|].
  destruct (String.eqb_spec p PostureBypass), (String.eqb_spec p PostureGated); cbn [orb];
    try rewrite when_Ok, negb_false_iff, supports_spec; naive_solver.
Qed.

Lemma policy_guard (d : Descriptor) (p : string) :
  PolicyValid p = true /\
  negb (p =s? "") && match MinorOf (d_contract d) with None => true | Some m => m <? VersionPolicySince end = false
  <-> (p <> "" -> p ∈ [VersionStrict; VersionFlexible] /\
        exists minor, MinorOf (d_contract d) = Some minor /\ VersionPolicySince <= minor).
Proof.
  unfold PolicyValid. rewrite !elem_of_cons, elem_of_nil, !orb_true_iff, !String.eqb_eq.
  destruct (String.eqb_spec p ""); [naive_solver|]. cbn [negb andb].
  destruct (MinorOf (d_contract d)) as [m|]; [destruct (Z.ltb_spec m VersionPolicySince)|]; naive_solver lia.
Qed.

Lemma CheckSpec_iff d s : CheckSpec d s = Ok tt <-> spec_ok d s.
Proof.
  unfold CheckSpec. rewrite !when_Ok, bind_Ok.
  rewrite (guard_optional _ _ _ (supports_spec _ _)), !(guard_optional _ _ _ (supports_spec _ _)).
  split.
  - intros (Hm & He & Hp & Hw & Hsk & Hmem & cs & Hcs & H).
    apply bind_Ok in H as ([] & Hpo & H). rewrite !when_Ok in H. destruct H as (Hcr & Hpv & Hpm & H).
    apply bind_Ok in H as (ss & Hss & H). apply negb_false_iff in Hm, Hpv.
    split; try done.
    + destruct (as_skills s); [done|]. cbn in Hsk. by apply negb_false_iff in Hsk.
    + destruct (as_memory s); [|done]. rewrite bool_decide_true in Hmem by done. by apply negb_false_iff in Hmem.
    + apply checkConnectors_ok. eauto.
    + by apply checkPosture_ok.
    + intros k Hk. rewrite Hk in Hcr. apply negb_false_iff in Hcr. by apply supports_spec.
    + by apply policy_guard.
    + apply checkSkills_ok. eauto.
    + intros fs Hfs. rewrite Hfs in H. by apply bind_tt, checkFiles_ok in H.
  - intros [Hm He Hp Hw Hsk Hmem [cs Hcs]%checkConnectors_ok Hpo%checkPosture_ok Hcr
            [Hpv Hpm]%policy_guard [ss Hss]%checkSkills_ok Hfs].
    rewrite Hm, Hcs. split; [done|]. do 3 (split; [done|]).
    split; [destruct (as_skills s); [done|]; by rewrite Hsk by done|].
    split; [destruct (as_memory s); [by rewrite Hmem, andb_false_r by done|by rewrite bool_decide_false]|].
    exists cs. split; [done|]. rewrite Hpo. cbn [mbind result_bind]. rewrite !when_Ok, Hpv.
    split; [destruct (as_credential s); [by rewrite (proj2 (supports_spec _ _) (Hcr _ eq_refl))|done]|].
    split; [done|]. split; [done|]. rewrite Hss. cbn [mbind result_bind].
    destruct (as_memory s) as [fs|]; [|done]. by apply bind_tt, checkFiles_ok, Hfs.
Qed.

(** CheckSpec accepts exactly the specs the Descriptor supports: every
    field and value it names is one the harness takes, connector and skill
    names are distinct and safe, every connector has one transport, every
    skill a top-level SKILL.md, and every file path stays beneath its root. *)
Theorem CheckSpec_spec d s : CheckSpec d s = Ok tt <-> spec_ok d s.
Proof. apply CheckSpec_iff. Qed.

(** A refusal of a spec: unsupported or invalid_spec, naming a field. *)
Definition spec_refusal (e : Error) : Prop :=
  (exists f, f <> "" /\ (e = unsupported f \/ e = invalid_spec f)).

Lemma refusal_unsupported f : f <> "" -> spec_refusal (unsupported f).
Proof. unfold spec_refusal. eauto. Qed.
Lemma refusal_invalid f : f <> "" -> spec_refusal (invalid_spec f).
Proof. unfold spec_refusal. eauto. Qed.
#[local] Hint Extern 1 (spec_refusal _) => (apply refusal_unsupported; discriminate) : hw.
#[local] Hint Extern 1 (spec_refusal _) => (apply refusal_invalid; discriminate) : hw.

Lemma validHeaders_refusal field h e : field <> "" -> validHeaders field h = Err e -> spec_refusal e.
Proof.
  intros Hf H. assert (Hp : forall name m seen e, validHeadersPart field name m seen = Err e -> spec_refusal e).
  { intros name m seen e'. apply range_Err. intros j x t e'' H'.
    destruct field as [|c field]; [done|]. cbn beta zeta in H'. err_cases H'; auto with hw. }
  unfold validHeaders in H. err_cases H; eauto.
Qed.

Lemma checkConnector_refusal d j c t e : checkConnector d j c t = Err e -> spec_refusal e.
Proof.
  intros H. unfold checkConnector in H. err_cases H; auto with hw.
  eapply validHeaders_refusal; [|exact H]. discriminate.
Qed.

Lemma checkFiles_refusal field files s e : field <> "" -> range (checkFile field) files s = Err e -> spec_refusal e.
Proof.
  intros Hf. apply range_Err. intros j x t e' H. unfold checkFile in H.
  destruct field as [|c field]; [done|]. err_cases H; auto with hw.
Qed.

Lemma checkSkill_refusal j sk t e : checkSkill j sk t = Err e -> spec_refusal e.
Proof.
  intros H. unfold checkSkill in H. err_cases H; auto with hw.
  eapply checkFiles_refusal; [|exact H]. discriminate.
Qed.

(** every refusal of CheckSpec is unsupported or invalid_spec and names the
    field at fault, whichever spec it is given. *)
Theorem CheckSpec_errors d s :
  match CheckSpec d s with Ok _ => True | Err e => spec_refusal e end.
Proof.
  destruct (CheckSpec d s) as [|e] eqn:H; [done|]. unfold CheckSpec, checkPosture in H.
  err_cases H; auto with hw.
  - eapply range_Err, H. intros. by eapply checkConnector_refusal.
  - eapply range_Err, H. intros. by eapply checkSkill_refusal.
  - eapply checkFiles_refusal; [|exact H]. discriminate.
Qed.
