(* ===== verification/Provision.v ===== *)
(** What Provision renders and the Supervisor's rules for it: ProvisionResult,
    File, Relocation and Rewrite rules, and ProvisionResult.Validate of
    pkg/contract/provision.go; and the adapter's Provision, which checks the
    request, has the profile render it and checks the result
    (pkg/adapter/adapter.go). *)
From Stdlib Require Import ZArith Ascii String Lia.
From stdpp Require Import base tactics list gmap strings option.
From S2P Require Import Prelude GoStr Contract Descriptor Layout Spec.

#[local] Open Scope string_scope.
#[local] Open Scope Z_scope.

(** ** The result *)

(** [f_text] and [f_bytes] are nil as [None]. *)
Record File := mkRFile {
  f_root : Root; f_rel : string; f_mode : string;
  f_text : option string; f_bytes : option string }.

Record Rewrite := mkRewrite { w_path : RootPath; w_field : string; w_from : string; w_to : string }.

Record ProvisionResult := mkResult {
  res_files : list File;
  res_open_config : string;
  res_history_roots : list RootPath;
  res_secret_paths : list RootPath;
  res_relocations : list Relocation;
  res_rewrites : list Rewrite;
}.

(** [(f File) Content()]. *)
Definition Content (f : File) : string :=
  match f_text f with Some t => t | None => default "" (f_bytes f) end.

(** [(f File) FileMode()]. *)
Definition FileMode (f : File) : option Z :=
  match ParseUint8_32 (f_mode f) with
  | Some m => if slen (f_mode f) <? 3 then None else Some m
  | None => None
  end.

Definition ResultArchived (r : ProvisionResult) : RootPath -> bool :=
  Archived (res_history_roots r) (res_secret_paths r).

(** ** ProvisionResult.Validate *)

Definition invalid (field : string) : Error := FieldError CodeProtocol field.

Definition file_key (f : File) : Root * string := (f_root f, f_rel f).

Definition checkResultFile (i : Z) (f : File) (seen : gset (Root * string))
  : result Error (gset (Root * string)) :=
  let field := "files[" ++ Itoa i ++ "]" in
  when negb ((f_root f =s? RootConfig) || (f_root f =s? RootWorkspace) || (f_root f =s? RootHome))
    refuse invalid (field ++ ".root") ;;
  when negb (CheckRelPath (f_rel f)) refuse invalid (field ++ ".path") ;;
  when bool_decide (file_key f ∈ seen) refuse invalid (field ++ ".path") ;;
  when bool_decide (f_text f = None <-> f_bytes f = None) refuse invalid field ;;
  match FileMode f with
  | None => Err (invalid (field ++ ".mode"))
  | Some mode =>
    when negb (Z.ldiff mode 420 =? 0) refuse invalid (field ++ ".mode") ;;
    Ok ({[file_key f]} ∪ seen)
  end.

Definition checkPath (field : string) (p : RootPath) : result Error unit :=
  when negb ((rp_root p =s? RootHome) || (rp_root p =s? RootConfig)
             || (rp_root p =s? RootWorkspace) || (rp_root p =s? RootScratch))
    refuse invalid (field ++ ".root") ;;
  when negb (CheckRelPath (rp_path p)) refuse invalid (field ++ ".path") ;;
  Ok tt.

(** The loops over relocations and rewrites compare a rule with those before
    it, [others]. *)
Definition checkRelocation (r : ProvisionResult) (i : Z) (m : Relocation) (others : list Relocation)
  : result Error (list Relocation) :=
  let field := "history_relocations[" ++ Itoa i ++ "]" in
  _ ← checkPath (field ++ ".from") (rl_from m);
  _ ← checkPath (field ++ ".to") (rl_to m);
  when negb (ResultArchived r (rl_from m)) || negb (ResultArchived r (rl_to m)) refuse invalid field ;;
  _ ← range (fun _ other (_ : unit) =>
        when Within (rl_from m) (rl_from other) || Within (rl_from other) (rl_from m)
          refuse invalid (field ++ ".from") ;;
        when Within (rl_to m) (rl_to other) || Within (rl_to other) (rl_to m)
          refuse invalid (field ++ ".to") ;;
        Ok tt) others tt;
  Ok (others ++ [m])%list.

Definition checkRewrite (r : ProvisionResult) (i : Z) (w : Rewrite) (others : list Rewrite)
  : result Error (list Rewrite) :=
  let field := "history_rewrites[" ++ Itoa i ++ "]" in
  _ ← checkPath (field ++ ".path") (w_path w);
  when negb (ResultArchived r (w_path w)) refuse invalid (field ++ ".path") ;;
  when (w_field w =s? "") || (w_from w =s? "") || (w_from w =s? w_to w) refuse invalid field ;;
  _ ← range (fun _ other (_ : unit) =>
        when (Within (w_path w) (w_path other) || Within (w_path other) (w_path w))
             && (negb (w_field w =s? w_field other) || (w_from w =s? w_from other))
          refuse invalid (field ++ ".path") ;;
        Ok tt) others tt;
  Ok (others ++ [w])%list.

Definition ResultValidate (r : ProvisionResult) : result Error unit :=
  _ ← range checkResultFile (res_files r) ∅;
  when MaxOpenConfigBytes <? slen (res_open_config r) refuse invalid "open_config" ;;
  _ ← range (fun i p (_ : unit) => checkPath ("paths[" ++ Itoa i ++ "]") p)
        (res_history_roots r ++ res_secret_paths r)%list tt;
  _ ← range (checkRelocation r) (res_relocations r) [];
  _ ← range (checkRewrite r) (res_rewrites r) [];
  Ok tt.

(** ** The adapter's Provision *)

(** checkVersion of pkg/adapter/adapter.go. *)
Definition checkVersion (v : string) : result Error unit :=
  match ParseVersion v with
  | None => Err (FieldError CodeProtocol "contract")
  | Some (major, minor) =>
    when negb (major =? Major) || (Minor <? minor) refuse FieldError CodeProtocol "contract" ;; Ok tt
  end.

(** The profile's own rendering is the harness's, outside the shared adapter:
    a parameter. *)
Definition AdapterProvision (desc : Descriptor) (render : ProvisionRequest -> result Error ProvisionResult)
    (req : ProvisionRequest) : result Error ProvisionResult :=
  _ ← checkVersion (pr_contract req);
  _ ← CheckMinor req;
  _ ← LayoutValidate (pr_layout req);
  when negb (clean_abs (pr_harness_root req)) refuse FieldError CodeInvalidSpec "harness_root" ;;
  _ ← CheckSpec desc (pr_spec req);
  _ ← match pr_load req with Some l => CheckLoad desc l | None => Ok tt end;
  res ← render req;
  _ ← map_err (fun _ => Errorf CodeInternal) (ResultValidate res);
  when bool_decide (pr_load req = None) &&
       ((0 <? llen (res_relocations res)) || (0 <? llen (res_rewrites res)))
    refuse Errorf CodeInternal ;;
  Ok res.

(** ** What Validate accepts *)

Definition file_ok (f : File) : Prop :=
  f_root f ∈ [RootConfig; RootWorkspace; RootHome] /\
  CheckRelPath (f_rel f) = true /\
  ~ (f_text f = None <-> f_bytes f = None) /\
  exists mode, FileMode f = Some mode /\ Z.ldiff mode 420 = 0.

Definition path_ok (p : RootPath) : Prop :=
  rp_root p ∈ [RootHome; RootConfig; RootWorkspace; RootScratch] /\ CheckRelPath (rp_path p) = true.

Definition relocation_ok (r : ProvisionResult) (m : Relocation) : Prop :=
  path_ok (rl_from m) /\ path_ok (rl_to m) /\
  ResultArchived r (rl_from m) = true /\ ResultArchived r (rl_to m) = true.

Definition rewrite_ok (r : ProvisionResult) (w : Rewrite) : Prop :=
  path_ok (w_path w) /\ ResultArchived r (w_path w) = true /\
  w_field w <> "" /\ w_from w <> "" /\ w_from w <> w_to w.

(** Rewrites over one place rewrite one field, from values of their own. *)
Definition rewrites_apart (w w' : Rewrite) : Prop :=
  disjoint_paths (w_path w') (w_path w) \/ (w_field w' = w_field w /\ w_from w' <> w_from w).

Record result_ok (r : ProvisionResult) : Prop := {
  ok_files : Forall file_ok (res_files r) /\ NoDup (map file_key (res_files r));
  ok_open_config : slen (res_open_config r) <= MaxOpenConfigBytes;
  ok_paths : Forall path_ok (res_history_roots r ++ res_secret_paths r)%list;
  ok_relocations : Forall (relocation_ok r) (res_relocations r);
  ok_relocations_apart : rules_ok (res_relocations r);
  ok_rewrites : Forall (rewrite_ok r) (res_rewrites r);
  ok_rewrites_apart : ForallOrdPairs rewrites_apart (res_rewrites r);
}.

Lemma checkResultFiles_ok fs : (exists s, range checkResultFile fs ∅ = Ok s) <->
  Forall file_ok fs /\ NoDup (map file_key fs).
Proof.
  rewrite (range_distinct _ file_key file_ok).
  - set_solver.
  - intros j f s s'. unfold checkResultFile. rewrite !when_Ok. intros (Hr & Hp & Hs & Ht & H).
    rewrite negb_false_iff, !orb_true_iff, !String.eqb_eq in Hr. bprop.
    destruct (FileMode f) as [mode|] eqn:Hm; [|done]. rewrite when_Ok in H. destruct H as [Hm' [= <-]]. bprop.
    split; [|done]. split; [rewrite !elem_of_cons, elem_of_nil; tauto|]. eauto.
  - intros j f s (Hr & Hp & Ht & mode & Hm & Hm') Hs. unfold checkResultFile.
    rewrite Hp, (bool_decide_false (_ ∈ _)), (bool_decide_false (_ <-> _)), Hm, Hm' by done.
    assert ((f_root f =s? RootConfig) || (f_root f =s? RootWorkspace) || (f_root f =s? RootHome) = true) as ->.
    { rewrite !orb_true_iff, !String.eqb_eq. set_solver. }
    cbn. eauto.
Qed.

Lemma checkPath_ok field p : checkPath field p = Ok tt <-> path_ok p.
Proof.
  unfold checkPath, path_ok. rewrite !when_Ok, !negb_false_iff, !orb_true_iff, !String.eqb_eq.
  rewrite !elem_of_cons, elem_of_nil. naive_solver.
Qed.

Lemma checkRelocations_ok r ms : (exists s, range (checkRelocation r) ms [] = Ok s) <->
  Forall (relocation_ok r) ms /\ rules_ok ms.
Proof.
  assert (Hothers : forall m others field,
    (exists s, range (fun _ other (_ : unit) =>
        when Within (rl_from m) (rl_from other) || Within (rl_from other) (rl_from m)
          refuse invalid (field ++ ".from") ;;
        when Within (rl_to m) (rl_to other) || Within (rl_to other) (rl_to m)
          refuse invalid (field ++ ".to") ;;
        Ok tt) others tt = Ok s) <-> Forall (fun o => disjoint_rules o m) others).
  { intros m others field. apply range_guards. intros j o.
    rewrite !when_Ok, !orb_false_iff. unfold disjoint_rules, disjoint_paths. naive_solver. }
  rewrite (range_iff (checkRelocation r) (fun d t => t = d)
    (fun d m => relocation_ok r m /\ Forall (fun o => disjoint_rules o m) d)).
  - rewrite <- prefixes_Forall. unfold rules_ok. rewrite <- prefixes_pairs. naive_solver.
  - intros j d m t t' -> H. unfold checkRelocation in H.
    apply bind_Ok in H as ([] & H1 & H). apply bind_Ok in H as ([] & H2 & H).
    rewrite when_Ok in H. destruct H as [Ha H]. apply bind_Ok in H as ([] & Ho & [= <-]).
    apply checkPath_ok in H1, H2. bprop. split; [|done]. split; [done|]. eapply Hothers. eauto.
  - intros j d m t -> [(H1 & H2 & Ha & Hb) Ho]. unfold checkRelocation.
    apply (checkPath_ok ("history_relocations[" ++ Itoa j ++ "]" ++ ".from")) in H1.
    apply (checkPath_ok ("history_relocations[" ++ Itoa j ++ "]" ++ ".to")) in H2.
    apply (Hothers m d ("history_relocations[" ++ Itoa j ++ "]")) in Ho as [[] Ho].
    cbv zeta. autorewrite with gostr in *. rewrite H1. cbn [mbind result_bind]. rewrite H2. cbn [mbind result_bind].
    rewrite Ha, Hb. cbn [negb orb]. setoid_rewrite Ho. cbn. eauto.
  - done.
Qed.

Lemma checkRewrites_ok r ws : (exists s, range (checkRewrite r) ws [] = Ok s) <->
  Forall (rewrite_ok r) ws /\ ForallOrdPairs rewrites_apart ws.
Proof.
  assert (Hothers : forall w others field,
    (exists s, range (fun _ other (_ : unit) =>
        when (Within (w_path w) (w_path other) || Within (w_path other) (w_path w))
             && (negb (w_field w =s? w_field other) || (w_from w =s? w_from other))
          refuse invalid (field ++ ".path") ;;
        Ok tt) others tt = Ok s) <-> Forall (fun o => rewrites_apart o w) others).
  { intros w others field. apply range_guards. intros j o.
    rewrite when_Ok, andb_false_iff, !orb_false_iff, negb_false_iff, String.eqb_eq, String.eqb_neq.
    unfold rewrites_apart, disjoint_paths. naive_solver. }
  rewrite (range_iff (checkRewrite r) (fun d t => t = d)
    (fun d w => rewrite_ok r w /\ Forall (fun o => rewrites_apart o w) d)).
  - rewrite <- prefixes_Forall, <- prefixes_pairs. naive_solver.
  - intros j d w t t' -> H. unfold checkRewrite in H.
    apply bind_Ok in H as ([] & H1 & H). rewrite !when_Ok in H. destruct H as (Ha & Hf & H).
    apply bind_Ok in H as ([] & Ho & [= <-]).
    apply checkPath_ok in H1. bprop. split; [|done]. split; [done|]. eapply Hothers. eauto.
  - intros j d w t -> [(H1 & Ha & Hf & Hfr & Hto) Ho]. unfold checkRewrite.
    apply (checkPath_ok ("history_rewrites[" ++ Itoa j ++ "]" ++ ".path")) in H1.
    apply (Hothers w d ("history_rewrites[" ++ Itoa j ++ "]")) in Ho as [[] Ho].
    apply String.eqb_neq in Hf, Hfr, Hto.
    rewrite !append_assoc, H1. cbn [mbind result_bind]. rewrite Ha, Hf, Hfr, Hto. cbn [negb orb].
    rewrite !append_assoc in Ho. rewrite Ho. cbn. eauto.
  - done.
Qed.

(** ProvisionResult.Validate accepts exactly the results that keep the
    Supervisor's rules: distinct safe file paths beneath config, workspace or
    home with one content and a mode within 0644; a bounded open_config; and
    relocations and rewrites of history alone that never overlap. *)
Theorem ResultValidate_spec r : ResultValidate r = Ok tt <-> result_ok r.
Proof.
  unfold ResultValidate.
  assert (Hpaths : forall l, (exists s, range (fun i p (_ : unit) => checkPath ("paths[" ++ Itoa i ++ "]") p) l tt = Ok s)
            <-> Forall path_ok l).
  { intros l. apply range_guards. intros j p. apply checkPath_ok. }
  rewrite bind_Ok. split.
  - intros (fs & Hf & H). rewrite when_Ok in H. destruct H as [Hc H]. bprop.
    apply bind_Ok in H as ([] & Hp & H). apply bind_Ok in H as (ms & Hm & H). apply bind_tt in H as [ws Hw].
    apply (ex_intro (fun s => _ = Ok s)) in Hf, Hp, Hm, Hw.
    apply checkResultFiles_ok in Hf. apply Hpaths in Hp.
    apply checkRelocations_ok in Hm as [? ?]. apply checkRewrites_ok in Hw as [? ?]. by split.
  - intros [[fs Hf]%checkResultFiles_ok Hc [[] Hp]%Hpaths Hm Hma Hw Hwa].
    destruct (proj2 (checkRelocations_ok r _) (conj Hm Hma)) as [ms Hms].
    destruct (proj2 (checkRewrites_ok r _) (conj Hw Hwa)) as [ws Hws].
    exists fs. split; [done|]. apply Z.ltb_ge in Hc. rewrite Hc, Hp. cbn [mbind result_bind].
    rewrite Hms. cbn [mbind result_bind]. by rewrite Hws.
Qed.

(** under a validated result's rules relocation never merges two files: two
    saved paths that rules move to one place are the same path, and the place
    lies beneath the destination of the rule that moved it, in the history. *)
Theorem Relocate_injective r (Hv : ResultValidate r = Ok tt) p q m m'
  (Hm : m ∈ res_relocations r) (Hp : Within p (rl_from m) = true)
  (Hm' : m' ∈ res_relocations r) (Hq : Within q (rl_from m') = true) :
  (Relocate (res_relocations r) p = Relocate (res_relocations r) q -> p = q) /\
  Within (Relocate (res_relocations r) p) (rl_to m) = true /\
  any (Within (Relocate (res_relocations r) p)) (res_history_roots r) = true.
Proof.
  apply ResultValidate_spec in Hv as [_ _ _ Hr Hok _ _].
  split; [intros Heq; by apply (Relocate_inj _ Hok p q m m')|].
  rewrite (Relocate_move _ m p) by done. pose proof (move_Within m p Hp) as Hw. split; [done|].
  rewrite list.Forall_forall in Hr. apply Hr in Hm as (_ & _ & _ & Ha).
  apply Archived_spec in Ha as [(h & Hh & Hwh) _]. apply any_true. exists h.
  split; [done|]. by eapply Within_trans.
Qed.

(** a validated result's relocations give the same answer in any order. *)
Theorem Relocate_order r (Hv : ResultValidate r = Ok tt) rules'
  (Hperm : res_relocations r ≡ₚ rules') p :
  Relocate (res_relocations r) p = Relocate rules' p.
Proof. apply ResultValidate_spec in Hv as [_ _ _ _ Hok _ _]. by apply Relocate_perm. Qed.

(** ** CheckLoad and the adapter's Provision *)

Record load_ok (d : Descriptor) (l : LoadSource) : Prop := {
  lok_support : Loads d (lo_format l) (h_version (lo_harness l)) = true;
  lok_name : h_name (lo_harness l) = h_name (d_harness d);
  lok_layout : LayoutValidate (lo_layout l) = Ok tt;
  lok_workspace : IsAbs (lo_workspace l) = true /\ Clean (lo_workspace l) = lo_workspace l;
  lok_workdirs : lo_workdirs l <> [] ->
    Has d CapSessionWorkDir = true /\ llen (lo_workdirs l) <= MaxLoadWorkDirs /\
    Forall (fun w => CheckRelPath w = true) (lo_workdirs l) /\ NoDup (lo_workdirs l);
}.

Lemma map_err_Ok {E E' A} (f : E -> E') (m : result E A) a : map_err f m = Ok a <-> m = Ok a.
Proof. destruct m; naive_solver. Qed.

Lemma load_workdirs_ok ws :
  (exists s, range (fun i w (seen : gset string) =>
            when negb (CheckRelPath w) refuse invalid_spec ("load.work_dirs[" ++ Itoa i ++ "]") ;;
            when bool_decide (w ∈ seen) refuse invalid_spec ("load.work_dirs[" ++ Itoa i ++ "]") ;;
            Ok ({[w]} ∪ seen)) ws ∅ = Ok s) <->
  Forall (fun w => CheckRelPath w = true) ws /\ NoDup ws.
Proof.
  rewrite (range_distinct _ id (fun w => CheckRelPath w = true)).
  - rewrite map_id. set_solver.
  - intros j w s s'. rewrite !when_Ok. intros (? & ? & [= <-]). bprop. done.
  - intros j w s Hw Hn. rewrite Hw, bool_decide_false by done. cbn. eauto.
Qed.

Lemma CheckLoad_ok d l : CheckLoad d l = Ok tt <-> load_ok d l.
Proof.
  unfold CheckLoad. split.
  - intros H. destruct (d_load d) as [ld|] eqn:Hld; [|done].
    rewrite !when_Ok in H. destruct H as (Hc & Hn & Hf & Hs & H).
    apply bind_Ok in H as ([] & Hlay & H). rewrite when_Ok in H. destruct H as [Hws H].
    apply map_err_Ok in Hlay. bprop. split; try done.
    + unfold Loads. by rewrite Hld, Hc, Hf, Hs.
    + intros Hne. destruct (Z.eqb_spec (llen (lo_workdirs l)) 0) as [E|E].
      { exfalso. apply Hne. by destruct (lo_workdirs l). }
      rewrite !when_Ok in H. destruct H as (Hw & Hmax & H). bprop. apply bind_tt, load_workdirs_ok in H. done.
  - intros [Hsup Hname Hlay [Ha Hc] Hw]. unfold Loads in Hsup. destruct (d_load d) as [ld|]; [|done].
    destruct (Has d CapSessionLoad); [|done]. cbn [negb] in Hsup. bprop.
    rewrite Hname, String.eqb_refl, H, H0, Hlay, Ha, Hc, String.eqb_refl. cbn [negb map_err mbind result_bind orb].
    destruct (Z.eqb_spec (llen (lo_workdirs l)) 0) as [E|E]; [done|].
    destruct Hw as (-> & Hmax & Hws); [by destruct (lo_workdirs l)|]. cbn [negb].
    apply Z.ltb_ge in Hmax. rewrite Hmax. by apply bind_tt, load_workdirs_ok.
Qed.

Lemma checkVersion_ok v : checkVersion v = Ok tt <->
  exists minor, ParseVersion v = Some (Major, minor) /\ minor <= Minor.
Proof.
  unfold checkVersion. destruct (ParseVersion v) as [[ma mi]|]; [|naive_solver].
  rewrite when_Ok, orb_false_iff, negb_false_iff, Z.eqb_eq, Z.ltb_ge. naive_solver.
Qed.

(** the adapter's Provision answers a result exactly when the request is
    of this major and no newer minor and uses nothing newer than it says, its
    layout and harness root are clean, its spec and load are ones the
    Descriptor supports, and the profile's rendering keeps the Supervisor's
    rules and touches no history without a load. The result is then the
    profile's own. *)
Theorem AdapterProvision_spec desc render req res :
  AdapterProvision desc render req = Ok res <->
  (exists minor, ParseVersion (pr_contract req) = Some (Major, minor) /\ minor <= Minor) /\
  CheckMinor req = Ok tt /\ LayoutValidate (pr_layout req) = Ok tt /\
  IsAbs (pr_harness_root req) = true /\ Clean (pr_harness_root req) = pr_harness_root req /\
  spec_ok desc (pr_spec req) /\
  (forall l, pr_load req = Some l -> load_ok desc l) /\
  render req = Ok res /\ result_ok res /\
  (pr_load req = None -> res_relocations res = [] /\ res_rewrites res = []).
Proof.
  unfold AdapterProvision.
  assert (Hload : match pr_load req with Some l => CheckLoad desc l | None => Ok tt end = Ok tt <->
            (forall l, pr_load req = Some l -> load_ok desc l)).
  { destruct (pr_load req) as [l|]; [rewrite CheckLoad_ok|]; naive_solver. }
  assert (Hhist : bool_decide (pr_load req = None) &&
       ((0 <? llen (res_relocations res)) || (0 <? llen (res_rewrites res))) = false <->
       (pr_load req = None -> res_relocations res = [] /\ res_rewrites res = [])).
  { destruct (pr_load req), (res_relocations res), (res_rewrites res); cbn; naive_solver. }
  split.
  - intros H. apply bind_Ok in H as ([] & Hv & H). apply bind_Ok in H as ([] & Hm & H).
    apply bind_Ok in H as ([] & Hl & H). rewrite when_Ok in H. destruct H as [Hr H].
    apply bind_Ok in H as ([] & Hs & H). apply bind_Ok in H as ([] & Hld & H).
    apply bind_Ok in H as (res' & Hren & H). apply bind_Ok in H as ([] & Hval & H).
    rewrite when_Ok in H. destruct H as [Hh [= ->]].
    apply checkVersion_ok in Hv. apply negb_false_iff, clean_abs_spec in Hr as [? ?].
    apply CheckSpec_iff in Hs. apply map_err_Ok, ResultValidate_spec in Hval.
    pose proof (proj1 Hload Hld). pose proof (proj1 Hhist Hh). done.
  - intros (Hv & Hm & Hl & Ha & Hc & Hs & Hld & Hren & Hval & Hh).
    apply checkVersion_ok in Hv. apply CheckSpec_iff in Hs. apply ResultValidate_spec in Hval.
    apply (proj2 Hload) in Hld. apply (proj2 Hhist) in Hh.
    rewrite Hv. cbn [mbind result_bind]. rewrite Hm. cbn [mbind result_bind]. rewrite Hl. cbn [mbind result_bind].
    rewrite (proj2 (clean_abs_spec _) (conj Ha Hc)). cbn [negb]. rewrite Hs. cbn [mbind result_bind].
    rewrite Hld. cbn [mbind result_bind]. rewrite Hren. cbn [mbind result_bind]. rewrite Hval.
    cbn [map_err mbind result_bind]. by rewrite Hh.
Qed.

Definition demo_result : ProvisionResult :=
  mkResult [] "" [mkRootPath RootConfig "old"; mkRootPath RootConfig "new"] []
    [mkRelocation (mkRootPath RootConfig "old") (mkRootPath RootConfig "new")] [].

Lemma Relocate_injective_witness :
  Within (Relocate (res_relocations demo_result) (mkRootPath RootConfig "old/a")) (mkRootPath RootConfig "new") = true.
Proof.
  refine (proj1 (proj2 (Relocate_injective demo_result _ (mkRootPath RootConfig "old/a") (mkRootPath RootConfig "old/b")
    (mkRelocation (mkRootPath RootConfig "old") (mkRootPath RootConfig "new"))
    (mkRelocation (mkRootPath RootConfig "old") (mkRootPath RootConfig "new")) _ _ _ _)));
    first [apply list_elem_of_here|vm_compute; reflexivity].
Defined.
