(* ===== verification/Broker.v ===== *)
(** Credentials kept behind an egress broker, and a login the runtime keeps:
    the checks of pkg/contract/broker.go and keeper.go, and the adapter's
    Placeholder, placeholder tokens and Keep of pkg/adapter/broker.go. *)
From Stdlib Require Import ZArith Ascii String Lia.
From stdpp Require Import base tactics list gmap strings option.
From S2P Require Import Prelude GoStr Contract Descriptor Layout Spec Provision.

#[local] Open Scope string_scope.
#[local] Open Scope Z_scope.

(** ** Placeholders *)

Definition MinNonceBytes : Z := 16.
Definition MaxSwapBytes : Z := Z.shiftl 16 10.

Record Swap := mkSwap {
  sw_placeholder : string; sw_secret : string; sw_hosts : list string; sw_headers : list string }.

Record PlaceholderResult := mkPlaceholder { ph_file : string; ph_swaps : list Swap }.

Record PlaceholderRequest := mkPlaceholderRequest {
  pq_contract : string; pq_kind : string; pq_model : string;
  pq_credential : string; pq_nonce : string }.

(** [headerValue(v)]: [true] when it returns nil. *)
Definition headerValue (v : string) : bool :=
  if (v =s? "") || (MaxSwapBytes <? slen v) then false
  else forallb (fun b => negb ((b <? 33) || (126 <? b))) (bytes v).

Definition subset (part whole : list string) : bool := forallb (supports whole) part.

(** [strings.EqualFold] compares by Unicode's simple case folding, whose tables
    are a parameter. *)
Section WithFold.
Variable EqualFold : string -> string -> bool.

Definition subsetFold (part whole : list string) : bool :=
  forallb (fun p => any (EqualFold p) whole) part.

Definition checkSwap (route : CredentialRoute) (i : Z) (s : Swap) (seen : gset string)
  : result Error (gset string) :=
  let field := "swaps[" ++ Itoa i ++ "]" in
  when negb (headerValue (sw_placeholder s)) || (slen (sw_placeholder s) <? 16)
    refuse invalid (field ++ ".placeholder") ;;
  when negb (headerValue (sw_secret s)) refuse invalid (field ++ ".secret") ;;
  when bool_decide (sw_placeholder s ∈ seen) refuse invalid (field ++ ".placeholder") ;;
  when (llen (sw_hosts s) =? 0) || negb (subset (sw_hosts s) (r_hosts route))
    refuse invalid (field ++ ".hosts") ;;
  when (llen (sw_headers s) =? 0) || negb (subsetFold (sw_headers s) (r_headers route))
    refuse invalid (field ++ ".headers") ;;
  Ok ({[sw_placeholder s]} ∪ seen).

Definition checkSecret (r : PlaceholderResult) (i : Z) (s : Swap) (_ : unit) : result Error unit :=
  let field := "swaps[" ++ Itoa i ++ "]" in
  when Contains (ph_file r) (sw_secret s) refuse invalid (field ++ ".secret") ;;
  when any (fun o => Contains (sw_placeholder o) (sw_secret s) || Contains (sw_secret s) (sw_placeholder o))
         (ph_swaps r)
    refuse invalid (field ++ ".secret") ;;
  Ok tt.

(** [(r PlaceholderResult) Validate(route)]. *)
Definition PlaceholderValidate (route : CredentialRoute) (r : PlaceholderResult) : result Error unit :=
  when slen (ph_file r) =? 0 refuse invalid "file" ;;
  when llen (ph_swaps r) =? 0 refuse invalid "swaps" ;;
  _ ← range (checkSwap route) (ph_swaps r) ∅;
  _ ← range (checkSecret r) (ph_swaps r) tt;
  Ok tt.

(** ** Hosts and headers *)

Definition host_byte (c : Z) : bool := in_range 97 122 c || in_range 48 57 c || (c =? 45).

Definition last_byte (s : string) : option ascii := list.last (list_ascii_of_string s).

Definition valid_label (l : string) : bool :=
  negb ((l =s? "") || (63 <? slen l) || HasPrefix l "-" || bool_decide (last_byte l = Some "-"%char))
  && forallb host_byte (bytes l).

Definition ValidHost (h : string) : bool :=
  if 253 <? slen h then false
  else
    let labels := Split "." h in
    if llen labels <? 2 then false
    else if negb (forallb valid_label labels) then false
    (* strings.Trim(last, "0123456789") != "" : a byte that is no digit *)
    else any (fun c => negb (in_range 48 57 c)) (bytes (List.last labels "")).

Definition field_punct : list Z := [33; 35; 36; 37; 38; 39; 42; 43; 45; 46; 94; 95; 96; 124; 126].

Definition field_byte (c : Z) : bool :=
  in_range 97 122 c || in_range 65 90 c || in_range 48 57 c || any (Z.eqb c) field_punct.

Definition validFieldName (s : string) : bool :=
  if (s =s? "") || (128 <? slen s) then false else forallb field_byte (bytes s).

(** The first index whose element fails [ok]. *)
Fixpoint first_bad {A} (ok : A -> bool) (i : Z) (l : list A) : option Z :=
  match l with
  | [] => None
  | x :: l => if ok x then first_bad ok (i + 1) l else Some i
  end.

Definition checkRoute (d : Descriptor) (i : Z) (r : CredentialRoute) (kinds : gset string)
  : result Error (gset string) :=
  let field := "egress.credentials[" ++ Itoa i ++ "]" in
  when negb (supports (d_credential_kinds d) (r_kind r)) refuse invalid (field ++ ".kind") ;;
  when bool_decide (r_kind r ∈ kinds) refuse invalid (field ++ ".kind") ;;
  when (llen (r_hosts r) =? 0) || (llen (r_headers r) =? 0) refuse invalid field ;;
  match first_bad ValidHost 0 (r_hosts r) with
  | Some j => Err (invalid (field ++ ".hosts[" ++ Itoa j ++ "]"))
  | None =>
    match first_bad validFieldName 0 (r_headers r) with
    | Some j => Err (invalid (field ++ ".headers[" ++ Itoa j ++ "]"))
    | None => Ok ({[r_kind r]} ∪ kinds)
    end
  end.

Definition CheckEgress (d : Descriptor) : result Error unit :=
  match d_egress d with
  | None => if Has d CapBrokeredCredentials then Err (invalid "egress") else Ok tt
  | Some e =>
    when negb (Has d CapBrokeredCredentials) refuse invalid "egress" ;;
    match first_bad ValidHost 0 (eg_hosts e) with
    | Some i => Err (invalid ("egress.hosts[" ++ Itoa i ++ "]"))
    | None => _ ← range (checkRoute d) (eg_credentials e) ∅; Ok tt
    end
  end.

(** keeper.go *)
Definition CheckKeeper (d : Descriptor) : result Error unit :=
  match d_keeper d with
  | None => if Has d CapLoginKeeper then Err (invalid "keeper") else Ok tt
  | Some k =>
    when negb (Has d CapLoginKeeper) refuse invalid "keeper" ;;
    when negb (supports (d_credential_kinds d) (k_kind k)) refuse invalid "keeper" ;;
    when negb (bool_decide (is_Some (Route (d_egress d) (k_kind k)))) || negb (Has d CapBrokeredCredentials)
      refuse invalid "keeper" ;;
    Ok tt
  end.

(** ** The adapter's Placeholder *)

(** Which rendering a profile has: with the model (ModelPlaceholderer), without
    (Placeholderer), or none. *)
Inductive Placeholderer :=
| ModelPlaceholder (f : string -> string -> string -> string -> result Error PlaceholderResult)
| PlainPlaceholder (f : string -> string -> string -> result Error PlaceholderResult)
| NoPlaceholder.

(** The type switch over the profile. *)
Definition render_placeholder (p : Placeholderer) (req : PlaceholderRequest) : result Error PlaceholderResult :=
  match p with
  | ModelPlaceholder f => f (pq_kind req) (pq_model req) (pq_credential req) (pq_nonce req)
  | PlainPlaceholder f => f (pq_kind req) (pq_credential req) (pq_nonce req)
  | NoPlaceholder => Err (Errorf CodeInternal)
  end.

Definition AdapterPlaceholder (desc : Descriptor) (p : Placeholderer) (req : PlaceholderRequest)
  : result Error PlaceholderResult :=
  _ ← checkVersion (pq_contract req);
  when negb (Has desc CapBrokeredCredentials) refuse Errorf CodeUnsupported ;;
  match Route (d_egress desc) (pq_kind req) with
  | None => Err (FieldError CodeUnsupported "kind")
  | Some route =>
    when slen (pq_nonce req) <? MinNonceBytes refuse FieldError CodeProtocol "nonce" ;;
    when slen (pq_credential req) =? 0 refuse FieldError CodeInvalidSpec "credential" ;;
    res ← render_placeholder p req;
    _ ← map_err (fun _ => Errorf CodeInternal) (PlaceholderValidate route res);
    Ok res
  end.

(** ** What is accepted *)

Definition swap_ok (route : CredentialRoute) (s : Swap) : Prop :=
  headerValue (sw_placeholder s) = true /\ 16 <= slen (sw_placeholder s) /\
  headerValue (sw_secret s) = true /\
  sw_hosts s <> [] /\ sw_hosts s ⊆ r_hosts route /\
  sw_headers s <> [] /\ subsetFold (sw_headers s) (r_headers route) = true.

Record placeholder_ok (route : CredentialRoute) (r : PlaceholderResult) : Prop := {
  pok_file : ph_file r <> "";
  pok_swaps : ph_swaps r <> [];
  pok_each : Forall (swap_ok route) (ph_swaps r);
  pok_distinct : NoDup (map sw_placeholder (ph_swaps r));
  pok_file_clean : forall s, s ∈ ph_swaps r -> Contains (ph_file r) (sw_secret s) = false;
  pok_apart : forall s o, s ∈ ph_swaps r -> o ∈ ph_swaps r ->
    Contains (sw_placeholder o) (sw_secret s) = false /\ Contains (sw_secret s) (sw_placeholder o) = false;
}.

Lemma subset_spec part whole : subset part whole = true <-> part ⊆ whole.
Proof.
  unfold subset. rewrite forallb_elem. setoid_rewrite supports_spec. done.
Qed.

Lemma len_eq_0 {A} (l : list A) : (llen l =? 0) = false <-> l <> [].
Proof. destruct l; naive_solver. Qed.

Lemma checkSwaps_ok route l : (exists s, range (checkSwap route) l ∅ = Ok s) <->
  Forall (swap_ok route) l /\ NoDup (map sw_placeholder l).
Proof.
  rewrite (range_distinct _ sw_placeholder (swap_ok route)).
  - set_solver.
  - intros j s t t'. unfold checkSwap. rewrite !when_Ok. intros (Hp & Hs & Hd & Hh & Hr & [= <-]). bprop.
    split; [|done].
    repeat match goal with
    | H : subset _ _ = true |- _ => apply subset_spec in H
    | H : (_ =? 0) = false |- _ => apply len_eq_0 in H
    | H : llen _ <> 0 |- _ => apply Z.eqb_neq, len_eq_0 in H
    end. done.
  - intros j s t (Hp & Hl & Hs & Hh & Hhr & Hr & Hrr) Hn. unfold checkSwap.
    apply Z.ltb_ge in Hl. apply subset_spec in Hhr. apply len_eq_0 in Hh, Hr.
    rewrite Hp, Hl, Hs, Hh, Hhr, Hr, Hrr, bool_decide_false by done. cbn. eauto.
Qed.

Lemma checkSecrets_ok r l : (exists s, range (checkSecret r) l tt = Ok s) <->
  Forall (fun s => Contains (ph_file r) (sw_secret s) = false /\
    forall o, o ∈ ph_swaps r ->
      Contains (sw_placeholder o) (sw_secret s) = false /\ Contains (sw_secret s) (sw_placeholder o) = false) l.
Proof.
  apply range_guards. intros j s. unfold checkSecret. rewrite !when_Ok, any_false.
  setoid_rewrite orb_false_iff. naive_solver.
Qed.

Lemma slen_0 s : (slen s =? 0) = false <-> s <> "".
Proof. destruct s; [naive_solver|]. unfold slen. cbn. naive_solver. Qed.

(** a placeholder result is accepted exactly when no secret can reach the
    harness through it: the staged file and the placeholders hold none of the
    secrets, no secret holds a placeholder, and each swap is a distinct
    header-safe placeholder used on hosts and headers of the route alone. *)
Theorem PlaceholderValidate_spec route r :
  PlaceholderValidate route r = Ok tt <-> placeholder_ok route r.
Proof.
  unfold PlaceholderValidate. rewrite !when_Ok, slen_0, len_eq_0, bind_Ok. split.
  - intros (Hf & Hs & t & H1 & H2). apply bind_tt in H2. apply (ex_intro (fun s => _ = Ok s)) in H1.
    apply checkSwaps_ok in H1 as [He Hd]. apply checkSecrets_ok in H2. rewrite list.Forall_forall in H2.
    split; try done; [intros s Hin|intros s o Hin Hino]; destruct (H2 s Hin); auto.
  - intros [Hf Hs He Hd Hc Ha]. destruct (proj2 (checkSwaps_ok route _) (conj He Hd)) as [t Ht].
    split; [done|]. split; [done|]. exists t. split; [done|]. apply bind_tt, checkSecrets_ok.
    apply list.Forall_forall. auto.
Qed.

(** the adapter hands out a placeholder only for a kind its Descriptor
    routes, with the nonce's randomness present, and only one that keeps the
    secrets from the harness, whatever the profile rendered: an invalid
    rendering is an internal error. *)
Theorem AdapterPlaceholder_safe desc p req :
  match AdapterPlaceholder desc p req with
  | Ok res => exists route, Route (d_egress desc) (pq_kind req) = Some route /\
      placeholder_ok route res /\ Has desc CapBrokeredCredentials = true /\
      MinNonceBytes <= slen (pq_nonce req) /\ pq_credential req <> ""
  | Err e => render_placeholder p req = Err e \/
      e ∈ [FieldError CodeProtocol "contract"; Errorf CodeUnsupported; FieldError CodeUnsupported "kind";
           FieldError CodeProtocol "nonce"; FieldError CodeInvalidSpec "credential"; Errorf CodeInternal]
  end.
Proof.
  destruct (AdapterPlaceholder desc p req) as [res|e] eqn:H; unfold AdapterPlaceholder in H.
  - apply bind_Ok in H as ([] & _ & H). rewrite when_Ok in H. destruct H as [Hb H]. bprop.
    destruct (Route _ _) as [route|] eqn:Hr; [|done]. rewrite !when_Ok in H. destruct H as (Hn & Hc & H).
    apply bind_Ok in H as (res' & _ & H). apply bind_Ok in H as ([] & Hv & [= ->]).
    apply map_err_Ok, PlaceholderValidate_spec in Hv. apply slen_0 in Hc. bprop. eauto 10.
  - rewrite !elem_of_cons. unfold checkVersion in H. err_cases H; try tauto.
    unfold map_err in H. split_match_in H. simplify_eq. tauto.
Qed.
End WithFold.

(** ** Hosts and routes *)

Lemma first_bad_None {A} (ok : A -> bool) l : forall i, first_bad ok i l = None <-> Forall (fun x => ok x = true) l.
Proof.
  induction l as [|x l IH]; intros i; cbn; [split; [constructor|done]|].
  rewrite Forall_cons_iff, <- (IH (i + 1)). destruct (ok x); naive_solver.
Qed.

Definition host_char (c : Z) : bool := host_byte c || (c =? 46).

Lemma forallb_bytes_Join (p : Z -> bool) c l :
  p (code c) = true -> Forall (fun s => forallb p (bytes s) = true) l -> forallb p (bytes (Join c l)) = true.
Proof.
  intros Hc. induction l as [|x l IH]; [done|]. intros [Hx Hl]%Forall_cons_iff.
  destruct l as [|y l]; [done|]. rewrite Join_cons by done.
  rewrite bytes_app, forallb_app, Hx. cbn [andb bytes]. unfold bytes. cbn [list_ascii_of_string map forallb].
  rewrite Hc. apply IH, Hl.
Qed.

(** an accepted host is an exact host name and nothing more: 253 bytes at
    most of lower-case letters, digits, hyphens and dots — so no wildcard, port,
    path, userinfo or upper case — in at least two labels, each of 1 to 63
    bytes that neither starts nor ends with a hyphen, the last not all digits
    (so no IPv4 address). *)
Theorem ValidHost_spec h :
  ValidHost h = true <->
  slen h <= 253 /\ forallb host_char (bytes h) = true /\
  (2 <= length (Split "." h))%nat /\
  Forall (fun l => 1 <= slen l <= 63 /\ HasPrefix l "-" = false /\ last_byte l <> Some "-"%char) (Split "." h) /\
  ~ Forall (fun c => in_range 48 57 c = true) (bytes (List.last (Split "." h) "")).
Proof.
  assert (Hdig : forall l, any (fun c => negb (in_range 48 57 c)) l = true <-> ~ Forall (fun c => in_range 48 57 c = true) l).
  { intros l. rewrite <- not_false_iff_true, any_false, list.Forall_forall. setoid_rewrite negb_false_iff. done. }
  assert (Hne : forall l, negb (l =s? "") = true <-> 1 <= slen l).
  { intros l. rewrite negb_true_iff, String.eqb_neq. destruct l; unfold slen; cbn; split; try done; lia. }
  unfold ValidHost. split.
  - intros H. destruct (Z.ltb_spec 253 (slen h)); [done|].
    destruct (Z.ltb_spec (llen (Split "." h)) 2); [done|].
    destruct (forallb valid_label (Split "." h)) eqn:El; [|done]. cbn [negb] in H.
    rewrite forallb_elem in El. apply Hdig in H.
    split; [lia|]. split.
    + rewrite <- (Join_Split "." h). apply forallb_bytes_Join; [done|].
      apply list.Forall_forall. intros l Hl. apply El in Hl. unfold valid_label in Hl. bprop.
      rewrite forallb_elem in *. intros x Hx. unfold host_char. by rewrite (H3 x Hx).
    + split; [lia|]. split; [|done]. apply list.Forall_forall. intros l Hl. apply El in Hl.
      unfold valid_label in Hl. bprop. split; [|done]. split; [|done]. apply Hne. by apply negb_true_iff, String.eqb_neq.
  - intros (Hlen & Hb & Hn & Hl & Hd). destruct (Z.ltb_spec 253 (slen h)); [lia|].
    destruct (Z.ltb_spec (llen (Split "." h)) 2); [lia|].
    assert (forallb valid_label (Split "." h) = true) as ->; [|by apply Hdig].
    apply forallb_elem. intros l Hin. rewrite list.Forall_forall in Hl.
    destruct (Hl l Hin) as ([Hl1 Hl2] & Hp & Hlast). apply Hne in Hl1. unfold valid_label.
    rewrite negb_true_iff in Hl1. rewrite Hl1, Hp, bool_decide_false by done.
    destruct (Z.ltb_spec 63 (slen l)); [lia|]. cbn [orb negb andb].
    apply forallb_elem. intros c Hc. pose proof (Split_no_byte "." h l Hin) as Hdot.
    assert (Hch : host_char c = true).
    { rewrite forallb_elem in Hb. apply Hb. rewrite <- (Join_Split "." h).
      clear -Hin Hc. induction (Split "." h) as [|x ls IH]; [by apply not_elem_of_nil in Hin|].
      apply elem_of_cons in Hin as [->|Hin].
      - destruct ls; [done|]. rewrite Join_cons, bytes_app, elem_of_app by done. auto.
      - destruct ls as [|y ls]; [by apply not_elem_of_nil in Hin|].
        rewrite Join_cons, bytes_app, elem_of_app by done. right.
        unfold bytes. cbn [list_ascii_of_string map]. apply list_elem_of_further. by apply IH. }
    unfold host_char in Hch. apply orb_true_iff in Hch as [?|Hdot']; [done|]. exfalso.
    apply Z.eqb_eq in Hdot'. subst c. apply Hdot.
    unfold bytes in Hc. apply list_elem_of_fmap in Hc as (a & Ha & Hin').
    assert (a = "."%char) as <-; [|done].
    rewrite <- (ascii_N_embedding a). unfold code in Ha. replace (N_of_ascii a) with 46%N by lia. done.
Qed.

Definition route_ok (d : Descriptor) (r : CredentialRoute) : Prop :=
  r_kind r ∈ d_credential_kinds d /\ r_hosts r <> [] /\ r_headers r <> [] /\
  Forall (fun h => ValidHost h = true) (r_hosts r) /\
  Forall (fun h => validFieldName h = true) (r_headers r).

Definition egress_ok (d : Descriptor) : Prop :=
  match d_egress d with
  | None => Has d CapBrokeredCredentials = false
  | Some e => Has d CapBrokeredCredentials = true /\
      Forall (fun h => ValidHost h = true) (eg_hosts e) /\
      Forall (route_ok d) (eg_credentials e) /\ NoDup (map r_kind (eg_credentials e))
  end.

Lemma CheckEgress_ok d : CheckEgress d = Ok tt <-> egress_ok d.
Proof.
  unfold CheckEgress, egress_ok. destruct (d_egress d) as [e|]; [|destruct (Has d _); naive_solver].
  rewrite when_Ok, negb_false_iff.
  assert (Hr : (exists s, range (checkRoute d) (eg_credentials e) ∅ = Ok s) <->
    Forall (route_ok d) (eg_credentials e) /\ NoDup (map r_kind (eg_credentials e))).
  { rewrite (range_distinct _ r_kind (route_ok d)); [set_solver|..].
    - intros j r t t'. unfold checkRoute. rewrite !when_Ok. intros (Hk & Hd & Hn & H). bprop.
      destruct (first_bad ValidHost _ _) eqn:E1; [done|]. destruct (first_bad validFieldName _ _) eqn:E2; [done|].
      apply first_bad_None in E1, E2. simplify_eq. apply supports_spec in Hk.
      split; [|done]. repeat split; try done; apply len_eq_0; by apply Z.eqb_neq.
    - intros j r t (Hk & Hh & Hr & H1 & H2) Hn. unfold checkRoute.
      apply supports_spec in Hk. apply len_eq_0 in Hh, Hr. apply (first_bad_None _ _ 0) in H1, H2.
      rewrite Hk, Hh, Hr, H1, H2, bool_decide_false by done. cbn. eauto. }
  destruct (first_bad ValidHost 0 (eg_hosts e)) eqn:E.
  - assert (~ Forall (fun h => ValidHost h = true) (eg_hosts e)).
    { rewrite <- (first_bad_None _ _ 0). congruence. } naive_solver.
  - apply first_bad_None in E. rewrite bind_tt. naive_solver.
Qed.

(** in a Descriptor whose egress and keeper pass their checks, a kept
    login can be lent: its kind is one the harness takes and has exactly one
    route, of exact hosts and header names, so the adapter's Placeholder never
    refuses that kind. *)
Theorem keeper_routed EqualFold d p k req
  (He : CheckEgress d = Ok tt) (Hk : CheckKeeper d = Ok tt) (Hd : d_keeper d = Some k) :
  (exists route, Route (d_egress d) (k_kind k) = Some route /\ route_ok d route /\
     forall e r, d_egress d = Some e -> r ∈ eg_credentials e -> r_kind r = k_kind k -> r = route) /\
  (pq_kind req = k_kind k ->
   AdapterPlaceholder EqualFold d p req <> Err (FieldError CodeUnsupported "kind") \/
   render_placeholder p req = Err (FieldError CodeUnsupported "kind")).
Proof.
  unfold CheckKeeper in Hk. rewrite Hd, !when_Ok in Hk. destruct Hk as (_ & Hs & Hr & _). bprop.
  destruct H as [route Hroute]. destruct (Route_Some _ _ _ Hroute) as (e & Hegr & Hin & Hkind).
  apply CheckEgress_ok in He. unfold egress_ok in He. rewrite Hegr in He. destruct He as (Hb & _ & Hrs & Hnd).
  split.
  - exists route. split; [done|]. split; [rewrite list.Forall_forall in Hrs; auto|].
    intros e' r [= <-]%(eq_trans (eq_sym Hegr)) Hr' Hk'.
    clear -Hnd Hin Hr' Hk' Hkind. apply list_elem_of_lookup in Hin as [i Hi], Hr' as [j Hj].
    assert (i = j) as <-; [|congruence].
    eapply (NoDup_lookup (map r_kind (eg_credentials e)) i j (k_kind k)); [done|..];
      rewrite list_lookup_fmap; [rewrite Hi, <- Hkind|rewrite Hj, <- Hk']; done.
  - intros Hkq. destruct (render_placeholder p req) as [res|e'] eqn:Hren; [left|].
    + unfold AdapterPlaceholder. rewrite Hkq, Hroute, Hren. intros H. unfold checkVersion, map_err in H. err_cases H; done.
    + destruct (decide (e' = FieldError CodeUnsupported "kind")) as [->|Hne]; [by right|left].
      unfold AdapterPlaceholder. rewrite Hkq, Hroute, Hren. intros H. unfold checkVersion, map_err in H. err_cases H; done.
Qed.

(** ** Placeholder tokens *)

Definition prefix_byte (c : Z) : bool := in_range 97 122 c || in_range 48 57 c || (c =? 45).

(** The leading run of prefix bytes, [k] at most. *)
Fixpoint token_run (k : nat) (s : string) : string :=
  match k, s with
  | S k, String c s' => if prefix_byte (code c) then String c (token_run k s') else ""
  | _, _ => ""
  end.

(** [strings.LastIndexByte]. *)
Fixpoint LastIndexByte (s : string) (c : ascii) : option Z :=
  match s with
  | "" => None
  | String a s' =>
    match LastIndexByte s' c with
    | Some i => Some (i + 1)
    | None => if Ascii.eqb a c then Some 0 else None
    end
  end.

Definition tokenPrefix (token : string) : string :=
  match LastIndexByte (token_run 16 token) "-" with
  | Some i => if 0 <? i then Take (i + 1) token else ""
  | None => ""
  end.

Definition alphabet : string := "ABCDEFGHIJKLMNOPQRSTUVWXYZabcdefghijklmnopqrstuvwxyz0123456789".

(** [binary.BigEndian.PutUint64]. *)
Definition be64 (i : Z) : string :=
  string_of_list_ascii (map (fun k => ascii_of_N (Z.to_N (Z.land (Z.shiftr i (8 * k)) 255)))
    [7; 6; 5; 4; 3; 2; 1; 0]).

Definition zero_byte : string := String "000" "".

Definition letter (x : Z) : ascii := default "A"%char (String.get (Z.to_nat (x mod 62)) alphabet).

(** One block's bytes, in order: those below 248 = 4*62 draw a character. *)
Definition draw (n : Z) (acc : string) (x : Z) : string :=
  if (x <? 248) && (slen acc <? n) then acc ++ String (letter x) "" else acc.

(** crypto/hmac over SHA-256, a parameter: [hmac key message] is its sum. The
    loop draws blocks until the text is long enough; [fuel] bounds the blocks. *)
Section WithHMAC.
Variable hmac : string -> string -> list Z.

Definition block (nonce use : string) (i : Z) : list Z :=
  hmac nonce ("harness-wrapper placeholder" ++ zero_byte ++ use ++ zero_byte ++ be64 i).

Fixpoint drawn_loop (fuel : nat) (nonce use : string) (n i : Z) (acc : string) : option string :=
  if slen acc <? n then
    match fuel with
    | O => None
    | S fuel => drawn_loop fuel nonce use n (i + 1) (foldl (draw n) acc (block nonce use i))
    end
  else Some acc.

Definition Drawn (fuel : nat) (nonce use : string) (n : Z) : option string :=
  drawn_loop fuel nonce use n 0 "".

Definition TokenPlaceholder (fuel : nat) (token nonce : string) : option string :=
  let prefix := tokenPrefix token in
  let n := Z.max (slen token - slen prefix) 32 in
  option_map (append prefix) (Drawn fuel nonce "token" n).

Definition alnum (c : Z) : bool := in_range 97 122 c || in_range 65 90 c || in_range 48 57 c.

Lemma letter_alnum x : alnum (code (letter x)) = true.
Proof.
  unfold letter. assert (H : 0 <= x mod 62 < 62) by (by apply Z.mod_pos_bound).
  remember (Z.to_nat (x mod 62)) as k eqn:Hk. assert (Hlt : (k < 62)%nat) by lia. clear H Hk.
  do 62 (destruct k as [|k]; [by vm_compute|]). lia.
Qed.

Lemma draw_spec n acc x : 0 <= n -> slen acc <= n -> forallb alnum (bytes acc) = true ->
  slen acc <= slen (draw n acc x) <= n /\ forallb alnum (bytes (draw n acc x)) = true /\
  (x < 248 -> slen acc < n -> slen acc < slen (draw n acc x)).
Proof.
  intros Hn Hl Ha. unfold draw. destruct (Z.ltb_spec x 248), (Z.ltb_spec (slen acc) n); cbn [andb]; try (split_and!; [lia..|done|lia]).
  rewrite slen_app, bytes_app, forallb_app, Ha. change (slen (String (letter x) "")) with 1.
  split_and!; [lia..| |lia]. unfold bytes. cbn [list_ascii_of_string map forallb andb]. by rewrite letter_alnum.
Qed.

Lemma draws_spec n l : forall acc, 0 <= n -> slen acc <= n -> forallb alnum (bytes acc) = true ->
  slen acc <= slen (foldl (draw n) acc l) <= n /\ forallb alnum (bytes (foldl (draw n) acc l)) = true /\
  (Exists (fun x => x < 248) l -> slen acc < n -> slen acc < slen (foldl (draw n) acc l)).
Proof.
  induction l as [|x l IH]; intros acc Hn Hl Ha; cbn [foldl].
  { split_and!; [lia..|done|]. intros H. inversion H. }
  destruct (draw_spec n acc x Hn Hl Ha) as ([H1 H2] & H3 & H4).
  destruct (IH (draw n acc x) Hn H2 H3) as ([H5 H6] & H7 & H8).
  split_and!; [lia|lia|done|]. intros He Hlt. apply Exists_cons in He as [Hx|He]; [specialize (H4 Hx Hlt); lia|].
  destruct (decide (slen (draw n acc x) < n)) as [Hd|Hd]; [specialize (H8 He Hd); lia|lia].
Qed.

Lemma drawn_loop_spec fuel : forall nonce use n i acc r,
  0 <= n -> slen acc <= n -> forallb alnum (bytes acc) = true ->
  drawn_loop fuel nonce use n i acc = Some r -> slen r = n /\ forallb alnum (bytes r) = true.
Proof.
  induction fuel as [|fuel IH]; intros nonce use n i acc r Hn Hl Ha; cbn [drawn_loop];
    (destruct (Z.ltb_spec (slen acc) n); [|intros [= <-]; split; [lia|done]]); [done|].
  destruct (draws_spec n (block nonce use i) acc Hn Hl Ha) as ([_ H2] & H3 & _). apply IH; [done|exact H2|exact H3].
Qed.

Lemma drawn_loop_total fuel : (forall k m, Exists (fun x => x < 248) (hmac k m)) ->
  forall nonce use n i acc, 0 <= n -> slen acc <= n -> forallb alnum (bytes acc) = true ->
  n - slen acc <= Z.of_nat fuel -> is_Some (drawn_loop fuel nonce use n i acc).
Proof.
  intros Hp. induction fuel as [|fuel IH]; intros nonce use n i acc Hn Hl Ha Hf; cbn [drawn_loop];
    (destruct (Z.ltb_spec (slen acc) n); [|done]); [lia|].
  destruct (draws_spec n (block nonce use i) acc Hn Hl Ha) as ([_ H2] & H3 & H4).
  specialize (H4 (Hp _ _) H). apply IH; [done|exact H2|exact H3|]. lia.
Qed.

Lemma token_run_prefix k : forall s, exists r, s = token_run k s ++ r.
Proof.
  induction k as [|k IH]; intros s; [by exists s|]. destruct s as [|c s]; [by exists ""|]. cbn.
  destruct (prefix_byte (code c)); [|by exists (String c s)].
  destruct (IH s) as [r Hr]. exists r. rewrite append_cons. by f_equal.
Qed.

Lemma token_run_len k : forall s, slen (token_run k s) <= Z.of_nat k.
Proof.
  induction k as [|k IH]; intros s; cbn [token_run]; [unfold slen; cbn; lia|].
  destruct s as [|c s]; [unfold slen; cbn; lia|].
  destruct (prefix_byte (code c)); [|unfold slen; cbn; lia]. specialize (IH s). unfold slen in *. cbn [String.length]. lia.
Qed.

Lemma LastIndexByte_spec s c i : LastIndexByte s c = Some i ->
  exists h t, s = h ++ String c t /\ slen h = i.
Proof.
  revert i. induction s as [|a s IH]; intros i; cbn; [done|].
  destruct (LastIndexByte s c) as [j|].
  - intros [= <-]. destruct (IH j eq_refl) as (h & t & -> & <-). exists (String a h), t.
    split; [by rewrite append_cons|]. unfold slen. cbn [String.length]. lia.
  - destruct (Ascii.eqb_spec a c) as [->|]; [|done]. intros [= <-]. by exists "", s.
Qed.

Lemma Take_app h t : Take (slen h) (h ++ t) = h.
Proof.
  unfold Take, slen. rewrite Nat2Z.id. induction h as [|a h IH]; [by destruct t|].
  rewrite append_cons. cbn [String.length String.substring]. by rewrite IH.
Qed.

(** tokenPrefix is empty, or ends in a hyphen within the token's first 16 bytes. *)
Lemma tokenPrefix_spec token : tokenPrefix token = "" \/
  exists h r, token = (h ++ "-") ++ r /\ tokenPrefix token = h ++ "-" /\ h <> "" /\ slen (h ++ "-") <= 16.
Proof.
  unfold tokenPrefix. destruct (LastIndexByte (token_run 16 token) "-") as [i|] eqn:E; [|by left].
  destruct (Z.ltb_spec 0 i); [|by left]. right.
  destruct (LastIndexByte_spec _ _ _ E) as (h & t & Hr & Hi).
  destruct (token_run_prefix 16 token) as [r Htok]. pose proof (token_run_len 16 token) as Hlen.
  rewrite Hr in Htok, Hlen. exists h, (t ++ r).
  assert (Hshape : token = (h ++ "-") ++ (t ++ r)).
  { rewrite Htok at 1. autorewrite with gostr. done. }
  split; [done|]. rewrite slen_app in Hlen |- *. change (slen "-") with 1.
  assert (slen (String "-" t) = 1 + slen t) by (unfold slen; cbn [String.length]; lia).
  pose proof (slen_nonneg t).
  split; [|split; [intros ->; change (slen "") with 0 in Hi; lia|lia]].
  rewrite Hshape. replace (i + 1) with (slen (h ++ "-")); [apply Take_app|].
  rewrite slen_app. change (slen "-") with 1. lia.
Qed.

(** a placeholder token keeps the token's own prefix, is at least as long
    as the token and has at least 32 drawn bytes, all of them letters and
    digits; and it is always produced, as long as each block of the keyed hash
    has a byte the draw accepts, within one block per drawn byte. *)
Theorem TokenPlaceholder_shape fuel token nonce
  (Hp : forall k m, Exists (fun x => x < 248) (hmac k m))
  (Hf : Z.max (slen token) 32 <= Z.of_nat fuel) :
  exists rest d, token = tokenPrefix token ++ rest /\
    TokenPlaceholder fuel token nonce = Some (tokenPrefix token ++ d) /\
    slen d = Z.max (slen rest) 32 /\ forallb alnum (bytes d) = true /\
    slen (tokenPrefix token) <= 16.
Proof.
  assert (Hpre : (exists rest, token = tokenPrefix token ++ rest) /\ slen (tokenPrefix token) <= 16).
  { destruct (tokenPrefix_spec token) as [->|(h & r & H1 & H2 & _ & H4)]; [split; [by exists token|done]|].
    split; [exists r; by rewrite H2|by rewrite H2]. }
  destruct Hpre as [[rest Hrest] Hlen]. exists rest.
  unfold TokenPlaceholder. set (pre := tokenPrefix token) in *.
  assert (Hn : slen token - slen pre = slen rest) by (rewrite Hrest at 1; rewrite slen_app; lia).
  pose proof (slen_nonneg rest). pose proof (slen_nonneg pre).
  destruct (drawn_loop_total fuel Hp nonce "token" (Z.max (slen token - slen pre) 32) 0 "") as [d Hd];
    [lia|change (slen "") with 0; lia|done|change (slen "") with 0; lia|].
  exists d. unfold Drawn. rewrite Hd. split; [done|]. split; [done|].
  apply drawn_loop_spec in Hd as [Hd1 Hd2]; [|lia|change (slen "") with 0; lia|done].
  split; [lia|]. done.
Qed.
End WithHMAC.

(** ** The adapter's Keep *)

Record KeeperRequest := mkKeeperRequest { kq_contract : string; kq_harness_root : string; kq_home : string }.

(** [Keep]'s checks, and the profile's keeper when it has one. The code ranges
    over a two-entry Go map, in either order: [home_first] is the order. *)
Definition AdapterKeep {K : Type} (desc : Descriptor) (profile : option (KeeperRequest -> result Error K))
    (home_first : bool) (req : KeeperRequest) : result Error K :=
  _ ← checkVersion (kq_contract req);
  when negb (Has desc CapLoginKeeper) refuse Errorf CodeUnsupported ;;
  let home := ("home", kq_home req) in
  let root := ("harness_root", kq_harness_root req) in
  _ ← range (fun _ '(field, p) (_ : unit) =>
        when negb (clean_abs p) refuse FieldError CodeProtocol field ;; Ok tt)
        (if home_first then [home; root] else [root; home]) tt;
  match profile with
  | None => Err (Errorf CodeInternal)
  | Some keep => keep req
  end.

Lemma AdapterKeep_order {K} desc (profile : option (KeeperRequest -> result Error K)) req k :
  AdapterKeep desc profile true req = Ok k <-> AdapterKeep desc profile false req = Ok k.
Proof.
  unfold AdapterKeep. destruct (checkVersion (kq_contract req)) as [[]|]; [|done]. cbn [mbind result_bind].
  destruct (Has desc CapLoginKeeper); [|done]. unfold range. cbn.
  destruct (clean_abs (kq_home req)), (clean_abs (kq_harness_root req)); cbn; naive_solver.
Qed.

Definition demo_kept : Descriptor :=
  mkDescriptor "harness-adapter/1.4" (mkHarness "demo" "" "demo") [CapBrokeredCredentials; CapLoginKeeper] 1 ["oauth"]
    (mkSupport (mkModels true []) [] [] false false [] [] []) (mkLimits 0 1) None
    (Some (mkEgress [] [mkRoute "oauth" ["api.example.com"] ["Authorization"]])) (Some (mkKeeper "oauth")).

Lemma keeper_routed_witness : exists route, Route (d_egress demo_kept) "oauth" = Some route /\ route_ok demo_kept route.
Proof.
  destruct (keeper_routed String.eqb demo_kept NoPlaceholder (mkKeeper "oauth") (mkPlaceholderRequest "" "" "" "" ""))
    as [(route & Hr & Hok & _) _]; [vm_compute; reflexivity|vm_compute; reflexivity|reflexivity|].
  exists route. exact (conj Hr Hok).
Defined.
