(* ===== verification/Requests.v ===== *)
(** The requests a Host makes of a Session and a record, and their checks:
    pkg/contract/session.go; the checks of the adapter's NewSession and
    OpenRecord (pkg/adapter/adapter.go); and the turn ids and text bound of
    pkg/adapter/session.go. *)
From Stdlib Require Import ZArith Ascii String Lia.
From stdpp Require Import base tactics list gmap strings option.
From S2P Require Import Prelude GoStr Contract Descriptor Layout Provision.

#[local] Open Scope string_scope.
#[local] Open Scope Z_scope.

(** ** Opening a Session *)

Abbreviation OpenMode := string (only parsing).
Definition OpenFresh : OpenMode := "fresh".
Definition OpenReopen : OpenMode := "reopen".

(** observation.go: [Checkpoint] and its [validate]. *)
Record Checkpoint := mkCheckpoint { cp_format : Z; cp_data : string }.
#[export] Instance Checkpoint_eq_dec : EqDecision Checkpoint.
Proof. solve_decision. Defined.

Definition CheckpointValidate (c : option Checkpoint) : result Error unit :=
  match c with
  | None => Ok tt
  | Some c =>
    when cp_format c <? 1 refuse FieldError CodeProtocol "checkpoint.format" ;;
    when MaxCheckpointBytes <? slen (cp_data c) refuse FieldError CodeProtocol "checkpoint.data" ;;
    Ok tt
  end.

Record CredentialFile := mkCredentialFile { cf_kind : string; cf_file : string }.

Record OpenRequest := mkOpen {
  op_mode : OpenMode;
  op_session : string;
  op_config : string;
  op_layout : Layout;
  op_credential : option CredentialFile;
  op_checkpoint : option Checkpoint;
  op_loaded : bool;
  op_workdir : string;
}.

Definition OpenValidate (r : OpenRequest) : result Error unit :=
  _ ← (if op_mode r =s? OpenFresh then
         (when bool_decide (is_Some (op_checkpoint r)) refuse FieldError CodeProtocol "checkpoint" ;; Ok tt)
       else if op_mode r =s? OpenReopen then
         (when op_session r =s? "" refuse FieldError CodeProtocol "session_id" ;; Ok tt)
       else Err (FieldError CodeProtocol "mode"));
  when op_loaded r && negb (op_mode r =s? OpenReopen) refuse FieldError CodeProtocol "loaded" ;;
  when negb (op_session r =s? "") && negb (ValidID (op_session r)) refuse FieldError CodeProtocol "session_id" ;;
  when MaxOpenConfigBytes <? slen (op_config r) refuse FieldError CodeProtocol "open_config" ;;
  _ ← CheckWorkDir (op_workdir r);
  CheckpointValidate (op_checkpoint r).

(** The adapter's NewSession: [Ok] stands for the handle it returns, in phase
    unopened. *)
Definition NewSession (desc : Descriptor) (req : OpenRequest) : result Error unit :=
  _ ← OpenValidate req;
  _ ← map_err (fun _ => FieldError CodeProtocol "layout") (LayoutValidate (op_layout req));
  when (op_mode req =s? OpenReopen) && negb (Has desc CapResume) refuse Errorf CodeUnsupported ;;
  when (op_mode req =s? OpenFresh) && negb (op_session req =s? "") && negb (Has desc CapAssignSessionID)
    refuse Errorf CodeUnsupported ;;
  when op_loaded req && negb (Has desc CapSessionLoad) refuse Errorf CodeUnsupported ;;
  when negb (op_workdir req =s? "") && negb (Has desc CapSessionWorkDir)
    refuse FieldError CodeUnsupported "work_dir" ;;
  Ok tt.

Record RecordRequest := mkRecordRequest {
  rr_session : string;
  rr_config : string;
  rr_layout : Layout;
  rr_checkpoint : option Checkpoint;
  rr_workdir : string;
}.

(** The checks of the adapter's OpenRecord, before it opens the marker store
    and the profile's record. *)
Definition OpenRecordCheck (desc : Descriptor) (req : RecordRequest) : result Error unit :=
  when negb (ValidID (rr_session req)) refuse FieldError CodeProtocol "session_id" ;;
  _ ← map_err (fun _ => FieldError CodeProtocol "layout") (LayoutValidate (rr_layout req));
  when MaxOpenConfigBytes <? slen (rr_config req) refuse FieldError CodeProtocol "open_config" ;;
  when match rr_checkpoint req with Some c => MaxCheckpointBytes <? slen (cp_data c) | None => false end
    refuse FieldError CodeProtocol "checkpoint.data" ;;
  _ ← CheckWorkDir (rr_workdir req);
  when negb (rr_workdir req =s? "") && negb (Has desc CapSessionWorkDir)
    refuse FieldError CodeUnsupported "work_dir" ;;
  Ok tt.

(** workDirOf of pkg/adapter/adapter.go. *)
Definition workDirOf (l : Layout) (dir : string) : string :=
  if dir =s? "" then "" else WorkDirPath l dir.

(** ** Inputs *)

Record ContentPart := mkPart { part_type : string; part_text : string }.
Record Input := mkInput { in_id : string; in_content : list ContentPart }.

Definition ContentText : string := "text".

(** [Text(inputID, text)]. *)
Definition TextInput (inputID text : string) : Input := mkInput inputID [mkPart ContentText text].

Definition not_submitted (e : Error) : Error :=
  mkError (e_code e) (e_reason e) (Some NotSubmitted) (e_field e) (e_required e).

(** The loop over the parts; its state is their size and whether any has text. *)
Definition check_part (_ : Z) (p : ContentPart) (st : Z * bool) : result Error (Z * bool) :=
  let '(size, text) := st in
  when negb (part_type p =s? ContentText) refuse not_submitted (Errorf CodeInvalidInput) ;;
  Ok (size + slen (part_text p), text || negb (part_text p =s? "")).

Definition InputValidate (in_ : Input) (maxBytes : Z) : result Error unit :=
  when negb (ValidID (in_id in_)) refuse not_submitted (FieldError CodeProtocol "input_id") ;;
  when llen (in_content in_) =? 0 refuse not_submitted (Errorf CodeInvalidInput) ;;
  st ← range check_part (in_content in_) (0, false);
  let '(size, text) := st in
  when negb text refuse not_submitted (Errorf CodeInvalidInput) ;;
  when (0 <? maxBytes) && (maxBytes <? size) refuse not_submitted (Errorf CodeInvalidInput) ;;
  Ok tt.

Definition newline : ascii := "010"%char.

(** [(in Input) JoinText()]. *)
Definition JoinText (in_ : Input) : string :=
  snd (foldl (fun '(i, s) p =>
         (i + 1, (if 0 <? i then s ++ String newline "" else s) ++ part_text p))
       (0, "") (in_content in_)).

(** ** Interrupts and answers *)

Record InterruptRequest := mkInterrupt { iq_input : string; iq_turn : string; iq_deadline_ms : Z }.

(** [time.Duration(r.DeadlineMS) * time.Millisecond] wraps at 64 bits. *)
Definition Deadline (r : InterruptRequest) : Z :=
  if iq_deadline_ms r <=? 0 then DefaultInterruptDeadline else wrap64 (iq_deadline_ms r * Millisecond).

Definition InterruptValidate (r : InterruptRequest) : result Error unit :=
  when negb (iq_input r =s? "") && negb (iq_turn r =s? "") refuse FieldError CodeProtocol "turn_id" ;;
  when negb (iq_turn r =s? "") && negb (ValidID (iq_turn r)) refuse FieldError CodeProtocol "turn_id" ;;
  when (iq_turn r =s? "") && negb (ValidID (iq_input r)) refuse FieldError CodeProtocol "input_id" ;;
  when negb (iq_deadline_ms r =? 0) &&
       ((Deadline r <? MinInterruptDeadline) || (MaxInterruptDeadline <? Deadline r))
    refuse FieldError CodeProtocol "deadline_ms" ;;
  Ok tt.

Record Choice := mkChoice { ch_option : string; ch_options : list string; ch_text : string }.
#[export] Instance Choice_eq_dec : EqDecision Choice.
Proof. solve_decision. Defined.

Definition ChoiceValidate (c : Choice) : result Error unit :=
  let n := (if ch_option c =s? "" then 0 else 1) + (if 0 <? llen (ch_options c) then 1 else 0)
           + (if ch_text c =s? "" then 0 else 1) in
  when negb (n =? 1) refuse Errorf CodeInvalidChoice ;; Ok tt.

(** ** Turn ids and the text bound *)

(** [hex.EncodeToString(sum[:16])] of a SHA-256 sum, a parameter. *)
Section WithDigest.
Variable digest16 : string -> string.

Definition TurnID (inputID : string) : string :=
  if slen inputID <=? 126 then "t_" ++ inputID else "t_" ++ digest16 inputID.

Definition AutoTurnID (native : string) : string :=
  if (slen native <=? 126) && ValidID native then "a_" ++ native else "a_" ++ digest16 native.

(** A digest is 32 lower-case hexadecimal digits. *)
Definition hex32 (s : string) : Prop :=
  slen s = 32 /\ forallb (fun c => in_range 48 57 c || in_range 97 102 c) (bytes s) = true.

Lemma hex_id s : forallb (fun c => in_range 48 57 c || in_range 97 102 c) (bytes s) = true ->
  forallb id_rune (bytes s) = true.
Proof.
  rewrite !forallb_elem. intros H x Hx. apply H in Hx. unfold id_rune, in_range in *.
  apply orb_true_iff in Hx as [Hx|Hx]; bprop;
  repeat match goal with |- context [?a <=? ?b] => destruct (Z.leb_spec a b); try lia end; done.
Qed.

Lemma ValidID_runes s : ValidID s = true -> forallb id_rune (bytes s) = true.
Proof. rewrite ValidID_ascii. intros H. by bprop. Qed.

(** the turn id of a valid input id and of any native id is itself a valid
    id, and no input's turn id is ever a turn id of a turn the harness started
    itself; input ids of at most 126 bytes have turn ids of their own. *)
Theorem TurnID_valid (Hd : forall s, hex32 (digest16 s)) i j native (Hi : ValidID i = true) :
  ValidID (TurnID i) = true /\ ValidID (AutoTurnID native) = true /\
  TurnID j <> AutoTurnID native /\
  (slen i <= 126 -> slen j <= 126 -> TurnID i = TurnID j -> i = j).
Proof.
  assert (Hdig : forall p s, p = "t_" \/ p = "a_" -> ValidID (p ++ digest16 s) = true).
  { intros p s Hp. destruct (Hd s) as [Hl Hh]. apply hex_id in Hh.
    destruct Hp as [-> | ->]; apply ValidID_app; try done; rewrite Hl; by vm_compute. }
  assert (Hshort : forall p s, p = "t_" \/ p = "a_" -> slen s <= 126 -> ValidID s = true -> ValidID (p ++ s) = true).
  { intros p s Hp Hl Hs. apply ValidID_runes in Hs.
    destruct Hp as [-> | ->]; apply ValidID_app; try done; unfold slen at 1; cbn [String.length]; lia. }
  unfold TurnID, AutoTurnID. split_and!.
  - destruct (Z.leb_spec (slen i) 126); auto.
  - destruct (Z.leb_spec (slen native) 126); cbn [andb]; [|auto]. destruct (ValidID native) eqn:E; auto.
  - destruct (slen j <=? 126), ((slen native <=? 126) && ValidID native); discriminate.
  - intros Hi' Hj'. apply Z.leb_le in Hi', Hj'. rewrite Hi', Hj'. apply append_inj_l.
Qed.
End WithDigest.

(** The loop of Truncate: back from [cut] to a rune's start. *)
Fixpoint rune_boundary (bs : list Z) (cut : nat) : nat :=
  match cut with
  | O => O
  | S cut' => if RuneStart (nth cut bs 0) then cut else rune_boundary bs cut'
  end.

Definition truncate_at (max : Z) (s : string) : string * bool :=
  if slen s <=? max then (s, false)
  else (String.substring 0 (rune_boundary (bytes s) (Z.to_nat max)) s, true).

Definition Truncate (s : string) : string * bool := truncate_at MaxObservationText s.

(** ** What the requests' checks accept *)

(** NewSession accepts exactly the requests that are consistent — a mode
    of the set, a checkpoint only on a reopen, a session id on every reopen,
    loaded only on a reopen, ids, config, checkpoint and working directory
    within their bounds, a valid layout — and that need no capability the
    Descriptor lacks. *)
Theorem NewSession_spec desc req :
  NewSession desc req = Ok tt <->
  ((op_mode req = OpenFresh /\ op_checkpoint req = None /\ op_loaded req = false /\
    (op_session req <> "" -> Has desc CapAssignSessionID = true)) \/
   (op_mode req = OpenReopen /\ op_session req <> "" /\ Has desc CapResume = true /\
    (op_loaded req = true -> Has desc CapSessionLoad = true))) /\
  (op_session req <> "" -> ValidID (op_session req) = true) /\
  slen (op_config req) <= MaxOpenConfigBytes /\
  CheckWorkDir (op_workdir req) = Ok tt /\
  (op_workdir req <> "" -> Has desc CapSessionWorkDir = true) /\
  CheckpointValidate (op_checkpoint req) = Ok tt /\
  LayoutValidate (op_layout req) = Ok tt.
Proof.
  unfold NewSession, OpenValidate.
  assert (Hmode : (if op_mode req =s? OpenFresh then
         (when bool_decide (is_Some (op_checkpoint req)) refuse FieldError CodeProtocol "checkpoint" ;; Ok tt)
       else if op_mode req =s? OpenReopen then
         (when op_session req =s? "" refuse FieldError CodeProtocol "session_id" ;; Ok tt)
       else Err (FieldError CodeProtocol "mode")) = Ok tt <->
    (op_mode req = OpenFresh /\ op_checkpoint req = None) \/ (op_mode req = OpenReopen /\ op_session req <> "")).
  { destruct (String.eqb_spec (op_mode req) OpenFresh) as [->|?]; [|destruct (String.eqb_spec (op_mode req) OpenReopen) as [->|?]; [|naive_solver]];
      rewrite when_Ok, ?bool_decide_eq_false, ?String.eqb_neq, <- ?eq_None_not_Some; naive_solver. }
  rewrite !bind_unit, Hmode. repeat first [rewrite when_Ok | rewrite bind_unit].
  rewrite map_err_Ok, !guard_implies, Z.ltb_ge.
  rewrite andb_true_iff, !negb_true_iff, !String.eqb_eq, !String.eqb_neq.
  rewrite <- (not_true_iff_false (op_loaded req)).
  assert (~ (op_mode req = OpenFresh /\ op_mode req = OpenReopen)) by (intros [-> ?]; done). tauto.
Qed.

Definition input_size (in_ : Input) : Z := foldr (fun p n => slen (part_text p) + n) 0 (in_content in_).

Lemma input_loop_from l : forall i size text st,
  range_from i check_part l (size, text) = Ok st <->
  Forall (fun p => part_type p = ContentText) l /\
  st = (size + foldr (fun p n => slen (part_text p) + n) 0 l, text || any (fun p => negb (part_text p =s? "")) l).
Proof.
  induction l as [|p l IH]; intros i size text st; cbn [range_from foldr any existsb].
  - rewrite Z.add_0_r, orb_false_r. naive_solver.
  - rewrite Forall_cons_iff. cbn [check_part].
    destruct (String.eqb_spec (part_type p) ContentText); cbn [negb mbind result_bind]; [|naive_solver].
    rewrite IH. unfold any. rewrite Z.add_assoc, orb_assoc. naive_solver.
Qed.

Lemma input_loop_ok l st :
  range check_part l (0, false) = Ok st <->
  Forall (fun p => part_type p = ContentText) l /\
  st = (foldr (fun p n => slen (part_text p) + n) 0 l, any (fun p => negb (part_text p =s? "")) l).
Proof. apply input_loop_from. Qed.

Lemma InputValidate_refusal in_ maxBytes e : InputValidate in_ maxBytes = Err e ->
  CertaintyOf (wrap e) = NotSubmitted /\ e_code e ∈ [CodeProtocol; CodeInvalidInput].
Proof.
  unfold InputValidate. intros H. err_cases H; cbn; rewrite ?elem_of_cons; try by auto.
  apply (range_Err _ (fun e => CertaintyOf (wrap e) = NotSubmitted /\ e_code e ∈ [CodeProtocol; CodeInvalidInput])) in H.
  - cbn in H. by rewrite !elem_of_cons in H.
  - intros j x [? ?] e' H'. unfold check_part in H'. err_cases H'. cbn. rewrite !elem_of_cons. by auto.
Qed.

(** Input.Validate accepts exactly an id with text parts of which one is
    not empty, within the limit when there is one, and every refusal says the
    input was not submitted. *)
Theorem InputValidate_spec in_ maxBytes :
  (InputValidate in_ maxBytes = Ok tt <->
   ValidID (in_id in_) = true /\ Forall (fun p => part_type p = ContentText) (in_content in_) /\
   Exists (fun p => part_text p <> "") (in_content in_) /\
   (0 < maxBytes -> input_size in_ <= maxBytes)) /\
  (forall e, InputValidate in_ maxBytes = Err e -> CertaintyOf (wrap e) = NotSubmitted /\
     e_code e ∈ [CodeProtocol; CodeInvalidInput]).
Proof.
  assert (Hany : any (fun p => negb (part_text p =s? "")) (in_content in_) = true <->
            Exists (fun p => part_text p <> "") (in_content in_)).
  { rewrite any_true, list.Exists_exists. setoid_rewrite negb_true_iff. by setoid_rewrite String.eqb_neq. }
  split.
  - unfold InputValidate. rewrite !when_Ok, negb_false_iff, bind_Ok. split.
    + intros (Hid & Hn & [size text] & Hloop & H). apply input_loop_ok in Hloop as [Ht [= -> ->]].
      rewrite !when_Ok, negb_false_iff, Hany in H. destruct H as (Htext & Hmax & _).
      split; [done|]. split; [done|]. split; [done|]. intros Hpos. bprop. destruct Hmax as [H|H]; bprop; [lia|done].
    + intros (Hid & Ht & Htext & Hmax). split; [done|].
      split; [by destruct (in_content in_); [inversion Htext|]|].
      eexists. split; [apply input_loop_ok; split; [done|reflexivity]|]. cbn beta iota.
      rewrite (proj2 Hany Htext). cbn [negb]. unfold input_size in Hmax.
      destruct (Z.ltb_spec 0 maxBytes); [|done]. cbn [andb].
      destruct (Z.ltb_spec maxBytes (foldr (fun p n => slen (part_text p) + n) 0 (in_content in_))); [lia|done].
  - apply InputValidate_refusal.
Qed.

(** an interrupt that passes its check names exactly one turn, by a valid
    id, and waits no less and no more than the contract's bounds, whatever
    deadline_ms it carries. *)
Theorem InterruptValidate_spec r (H : InterruptValidate r = Ok tt) :
  ((iq_turn r = "" /\ ValidID (iq_input r) = true) \/
   (iq_input r = "" /\ ValidID (iq_turn r) = true)) /\
  MinInterruptDeadline <= Deadline r <= MaxInterruptDeadline.
Proof.
  unfold InterruptValidate in H. rewrite !when_Ok in H. destruct H as (H1 & H2 & H3 & H4 & _).
  rewrite !guard_implies in H2, H3. split.
  - destruct (String.eqb_spec (iq_turn r) ""), (String.eqb_spec (iq_input r) ""); try done; auto.
  - apply andb_false_iff in H4 as [H4|H4]; bprop; [|done].
    unfold Deadline. rewrite H4. by vm_compute.
Qed.

(** the contract says deadline_ms is 100 to 60000; the check lets every
    negative deadline_ms through, and such an interrupt waits the default. *)
Theorem InterruptValidate_negative_deadline input ms
  (Hi : ValidID input = true) (Hms : ms < 0) :
  InterruptValidate (mkInterrupt input "" ms) = Ok tt /\
  Deadline (mkInterrupt input "" ms) = DefaultInterruptDeadline.
Proof.
  assert (Hd : Deadline (mkInterrupt input "" ms) = DefaultInterruptDeadline).
  { unfold Deadline. cbn. destruct (Z.leb_spec ms 0); [done|lia]. }
  split; [|done]. unfold InterruptValidate. rewrite Hd. cbn [iq_turn iq_input iq_deadline_ms].
  rewrite Hi, andb_false_r. cbn [andb negb String.eqb]. destruct (Z.eqb_spec ms 0); [lia|done].
Qed.

Lemma ChoiceValidate_ok c : ChoiceValidate c = Ok tt <->
  (ch_option c <> "" /\ ch_options c = [] /\ ch_text c = "") \/
  (ch_option c = "" /\ ch_options c <> [] /\ ch_text c = "") \/
  (ch_option c = "" /\ ch_options c = [] /\ ch_text c <> "").
Proof.
  unfold ChoiceValidate. rewrite when_Ok, negb_false_iff.
  destruct (String.eqb_spec (ch_option c) ""), (String.eqb_spec (ch_text c) ""), (ch_options c); cbn; naive_solver.
Qed.

(** ** Truncate *)

Abbreviation valid_bytes bs :=
  (forallb (fun o : option Z => match o with Some _ => true | None => false end) (decode_runes bs)).

(** A valid byte sequence is empty or a rune of 1 to 4 bytes, of which only the
    first starts a rune, before a valid one; and only the rest of the sequence
    bears on the rest of its decoding. *)
Lemma valid_bytes_cons bs : valid_bytes bs = true -> bs <> [] ->
  exists b c rest, bs = b :: c ++ rest /\ (length c <= 3)%nat /\
    RuneStart b = true /\ Forall (fun x => RuneStart x = false) c /\
    valid_bytes rest = true /\ (forall t, valid_bytes (b :: c ++ t)%list = valid_bytes t).
Proof.
  destruct bs as [|b0 t0]; [done|]. intros Hv _. cbn [decode_runes] in Hv.
  destruct (Z.ltb_spec b0 128) as [H0|H0].
  { exists b0, [], t0. cbn. apply Z.ltb_lt in H0. rewrite H0. split_and!; try done; try lia; try constructor.
    unfold RuneStart, in_range. bprop. destruct (Z.leb_spec 128 b0); [lia|done]. }
  assert (Hcont : forall x, in_range 128 191 x = true -> RuneStart x = false) by (unfold RuneStart; by intros x ->).
  assert (Hlead : forall x, 192 <= x -> RuneStart x = true).
  { intros x Hx. unfold RuneStart, in_range. destruct (Z.leb_spec x 191); [lia|]. by rewrite andb_false_r. }
  destruct t0 as [|b1 t1]; [done|].
  destruct (in_range 194 223 b0 && in_range 128 191 b1) eqn:E1.
  { assert (192 <= b0 /\ in_range 128 191 b1 = true) as [Hb1 Hb2].
    { clear -E1. unfold in_range in *. bprop. rewrite ?andb_true_iff, ?Z.leb_le. lia. }
    exists b0, [b1], t1. split_and!; try done; try (cbn; lia).
    - apply Hlead. lia.
    - repeat constructor. by apply Hcont.
    - intros t. cbn [decode_runes app]. destruct (Z.ltb_spec b0 128); [lia|]. by rewrite E1. }
  destruct t1 as [|b2 t2]; [done|].
  destruct (second3 b0 b1 && in_range 128 191 b2) eqn:E2.
  { exists b0, [b1; b2], t2. pose proof E2 as E2'. apply andb_true_iff in E2' as [E2a E2b].
    assert (224 <= b0 /\ in_range 128 191 b1 = true) as [Hb1 Hb2].
    { clear -E2a. unfold second3, in_range in *. split_match_in E2a; bprop; rewrite ?andb_true_iff, ?Z.leb_le; lia. }
    split_and!; try done; try (cbn; lia).
    - apply Hlead. lia.
    - repeat constructor; by apply Hcont.
    - intros t. cbn [decode_runes app]. destruct (Z.ltb_spec b0 128); [lia|]. by rewrite E1, E2. }
  destruct t2 as [|b3 t3]; [done|].
  destruct (second4 b0 b1 && in_range 128 191 b2 && in_range 128 191 b3) eqn:E3; [|done].
  exists b0, [b1; b2; b3], t3. pose proof E3 as E3'. apply andb_true_iff in E3' as [E3a E3c].
  apply andb_true_iff in E3a as [E3a E3b].
  assert (240 <= b0 /\ in_range 128 191 b1 = true) as [Hb1 Hb2].
  { clear -E3a. unfold second4, in_range in *. split_match_in E3a; bprop; rewrite ?andb_true_iff, ?Z.leb_le; lia. }
  split_and!; try done; try (cbn; lia).
  - apply Hlead. lia.
  - repeat constructor; by apply Hcont.
  - intros t. cbn [decode_runes app]. destruct (Z.ltb_spec b0 128); [lia|]. by rewrite E1, E2, E3.
Qed.

Lemma rune_boundary_le bs k : (rune_boundary bs k <= k)%nat.
Proof. induction k as [|k IH]; cbn [rune_boundary]; [lia|]. destruct (RuneStart _); lia. Qed.

Lemma rune_boundary_start bs k : rune_boundary bs k = O \/ RuneStart (nth (rune_boundary bs k) bs 0) = true.
Proof. induction k as [|k IH]; cbn [rune_boundary]; [by left|]. destruct (RuneStart (nth (S k) bs 0)) eqn:E; auto. Qed.

Lemma rune_boundary_ge bs k k' : (k' <= k)%nat -> RuneStart (nth k' bs 0) = true -> (k' <= rune_boundary bs k)%nat.
Proof.
  intros Hle Hs. induction k as [|k IH]; cbn [rune_boundary]; [lia|].
  destruct (RuneStart (nth (S k) bs 0)) eqn:E; [lia|].
  apply IH. destruct (decide (k' = S k)) as [->|]; [congruence|lia].
Qed.

Lemma nth_cont (c rest : list Z) b k : Forall (fun x => RuneStart x = false) c ->
  (1 <= k <= length c)%nat -> RuneStart (nth k (b :: c ++ rest) 0) = false.
Proof.
  intros Hc Hk. destruct k as [|k]; [lia|]. cbn [nth]. rewrite app_nth1 by lia.
  rewrite List.Forall_forall in Hc. apply Hc, nth_In. lia.
Qed.

Lemma nth_skip (c rest : list Z) b k : nth (S (length c) + k) (b :: c ++ rest) 0 = nth k rest 0.
Proof. cbn [nth Nat.add]. rewrite app_nth2 by lia. f_equal. lia. Qed.

Lemma valid_take n : forall bs k, (length bs <= n)%nat -> valid_bytes bs = true ->
  (k = O \/ RuneStart (nth k bs 0) = true) -> (k < length bs)%nat -> valid_bytes (take k bs) = true.
Proof.
  induction n as [|n IH]; intros bs k Hn Hv Hk Hlt; [lia|].
  destruct (valid_bytes_cons bs Hv) as (b & c & rest & -> & Hc3 & _ & Hc & Hr & Ht); [by destruct bs; cbn in Hlt; [lia|]|].
  destruct k as [|k]; [done|]. destruct Hk as [|Hk]; [done|].
  destruct (decide (S k <= length c)%nat) as [Hin|Hout]; [by rewrite nth_cont in Hk by (done || lia)|].
  replace (S k) with (S (length c) + (k - length c))%nat in * by lia.
  rewrite nth_skip in Hk. cbn [length] in Hn, Hlt. rewrite length_app in Hn, Hlt.
  replace (take (S (length c) + (k - length c)) (b :: c ++ rest)) with (b :: c ++ take (k - length c) rest)%list.
  - rewrite Ht. apply IH; [lia|done|by right|lia].
  - cbn [Nat.add firstn]. f_equal. rewrite take_app_ge by lia. do 2 f_equal. lia.
Qed.

Lemma valid_near n : forall bs k, (length bs <= n)%nat -> valid_bytes bs = true -> (k < length bs)%nat ->
  exists k', (k' <= k <= k' + 3)%nat /\ RuneStart (nth k' bs 0) = true.
Proof.
  induction n as [|n IH]; intros bs k Hn Hv Hlt; [lia|].
  destruct (valid_bytes_cons bs Hv) as (b & c & rest & -> & Hc3 & Hb & Hc & Hr & _); [by destruct bs; cbn in Hlt; [lia|]|].
  destruct (decide (k <= length c)%nat) as [Hin|Hout]; [by exists O; split; [lia|]|].
  cbn [length] in Hn, Hlt. rewrite length_app in Hn, Hlt.
  destruct (IH rest (k - S (length c))%nat) as (k' & Hk' & Hs); [lia|done|lia|].
  exists (S (length c) + k')%nat. rewrite nth_skip. split; [lia|done].
Qed.

Lemma bytes_substring k s : bytes (String.substring 0 k s) = take k (bytes s).
Proof.
  revert k. induction s as [|a s IH]; intros k; destruct k as [|k]; try done.
  unfold bytes in *. cbn [String.substring list_ascii_of_string map firstn]. by rewrite IH.
Qed.

Lemma substring_prefix k s : exists r, s = String.substring 0 k s ++ r.
Proof.
  revert k. induction s as [|a s IH]; intros k; destruct k as [|k]; try (by eexists).
  destruct (IH k) as [r Hr]. exists r. cbn [String.substring]. rewrite append_cons. by f_equal.
Qed.

(** Truncate keeps a text within the bound as it is; a longer one it cuts
    to a prefix within the bound and says so; and text that is valid UTF-8
    stays valid, losing at most the three bytes of a rune the bound splits. *)
Theorem Truncate_spec s :
  let '(t, cut) := Truncate s in
  slen t <= MaxObservationText /\ (exists r, s = t ++ r) /\
  (cut = false <-> slen s <= MaxObservationText) /\ (cut = false -> t = s) /\
  (ValidString s = true -> ValidString t = true /\ (cut = true -> MaxObservationText - 3 <= slen t)).
Proof.
  unfold Truncate, truncate_at. assert (HM : 0 <= MaxObservationText) by done.
  revert HM. generalize MaxObservationText as max. intros max HM.
  destruct (Z.leb_spec (slen s) max) as [Hle|Hgt].
  { split; [done|]. split; [exists ""; by rewrite append_nil_r|]. done. }
  set (k := rune_boundary (bytes s) (Z.to_nat max)).
  pose proof (rune_boundary_le (bytes s) (Z.to_nat max)) as Hk. fold k in Hk.
  assert (Hs : slen s = llen (bytes s)) by apply slen_bytes.
  assert (Ht : slen (String.substring 0 k s) = Z.of_nat k).
  { rewrite slen_bytes, bytes_substring, length_take. lia. }
  split; [lia|]. split; [apply substring_prefix|]. split; [split; [done|lia]|]. split; [done|].
  intros Hv. unfold ValidString. rewrite bytes_substring. split.
  - apply (valid_take (length (bytes s))); [done|done|apply rune_boundary_start|lia].
  - intros _. rewrite Ht. destruct (valid_near (length (bytes s)) (bytes s) (Z.to_nat max)) as (k' & Hk' & Hs'); [done|done|lia|].
    pose proof (rune_boundary_ge (bytes s) (Z.to_nat max) k' ltac:(lia) Hs') as Hge. fold k in Hge. lia.
Qed.

Lemma InterruptValidate_spec_witness :
  MinInterruptDeadline <= Deadline (mkInterrupt "in1" "" 250) <= MaxInterruptDeadline.
Proof. refine (proj2 (InterruptValidate_spec (mkInterrupt "in1" "" 250) _)). vm_compute. reflexivity. Defined.
