(* ===== verification/Observation.v ===== *)
(** The facts an adapter reports and a Session's snapshot:
    pkg/contract/observation.go, and the outcomes, phases and State of
    pkg/contract/session.go. Each closed set of names is an inductive type with
    its [Enum] instance; each payload has its JSON form. *)
From Stdlib Require Import ZArith Ascii String Lia.
From stdpp Require Import base tactics list gmap strings option finite.
From S2P Require Import Prelude GoStr Json Contract Descriptor Requests.

#[local] Open Scope string_scope.
#[local] Open Scope Z_scope.

(** ** Closed sets *)

Inductive Origin := OriginRecord | OriginLive.
#[export] Instance Origin_eq_dec : EqDecision Origin.
Proof. solve_decision. Defined.
#[export, refine] Instance Origin_finite : Finite Origin := {| enum := [OriginRecord; OriginLive] |}.
Proof. all: solve_finite. Defined.
Definition Origin_string (o : Origin) : string :=
  match o with OriginRecord => "record" | OriginLive => "live" end.
#[export, refine] Instance Origin_Enum : Enum Origin :=
  {| wire := Origin_string; Values := ["record"; "live"] |}.
Proof. all: solve_enum. Defined.

Inductive Kind :=
| KindTurnStarted | KindTurnEnded | KindUserInput | KindAssistantText | KindToolUse
| KindToolResult | KindAPIError | KindTextDelta | KindToolStarted | KindToolFinished
| KindSubagentStarted | KindSubagentStopped | KindPromptRaised | KindPromptResolved
| KindRateLimit | KindRetrying | KindBlocked | KindUnblocked | KindSessionExited
| KindBackgroundTasks.
#[export] Instance Kind_eq_dec : EqDecision Kind.
Proof. solve_decision. Defined.

Definition Kind_string (k : Kind) : string :=
  match k with
  | KindTurnStarted => "turn_started" | KindTurnEnded => "turn_ended"
  | KindUserInput => "user_input" | KindAssistantText => "assistant_text"
  | KindToolUse => "tool_use" | KindToolResult => "tool_result" | KindAPIError => "api_error"
  | KindTextDelta => "text_delta" | KindToolStarted => "tool_started"
  | KindToolFinished => "tool_finished" | KindSubagentStarted => "subagent_started"
  | KindSubagentStopped => "subagent_stopped" | KindPromptRaised => "prompt_raised"
  | KindPromptResolved => "prompt_resolved" | KindRateLimit => "rate_limit"
  | KindRetrying => "retrying" | KindBlocked => "blocked" | KindUnblocked => "unblocked"
  | KindSessionExited => "session_exited" | KindBackgroundTasks => "background_tasks"
  end.

Definition Kind_Values : list string :=
  ["turn_started"; "turn_ended"; "user_input"; "assistant_text"; "tool_use"; "tool_result";
   "api_error"; "text_delta"; "tool_started"; "tool_finished"; "subagent_started";
   "subagent_stopped"; "prompt_raised"; "prompt_resolved"; "rate_limit"; "retrying";
   "blocked"; "unblocked"; "session_exited"; "background_tasks"].

#[export, refine] Instance Kind_finite : Finite Kind := {| enum :=
  [KindTurnStarted; KindTurnEnded; KindUserInput; KindAssistantText; KindToolUse;
   KindToolResult; KindAPIError; KindTextDelta; KindToolStarted; KindToolFinished;
   KindSubagentStarted; KindSubagentStopped; KindPromptRaised; KindPromptResolved;
   KindRateLimit; KindRetrying; KindBlocked; KindUnblocked; KindSessionExited;
   KindBackgroundTasks] |}.
Proof. all: solve_finite. Defined.
#[export, refine] Instance Kind_Enum : Enum Kind := {| wire := Kind_string; Values := Kind_Values |}.
Proof. all: solve_enum. Defined.

(** [Kind.Capability]; "" for none. *)
Definition KindCapability (k : Kind) : Capability :=
  match k with
  | KindTextDelta => CapStreamingText
  | KindToolStarted | KindToolFinished => CapToolsObserved
  | KindSubagentStarted | KindSubagentStopped => CapSubagents
  | KindPromptRaised | KindPromptResolved => CapPrompts
  | KindRateLimit => CapRateLimits
  | KindRetrying => CapRetryVisible
  | KindBackgroundTasks => CapBackgroundTurns
  | _ => ""
  end.

Inductive TurnOutcome := TurnCompleted | TurnErrored | TurnInterrupted | TurnCancelled | TurnRefused.
#[export] Instance TurnOutcome_eq_dec : EqDecision TurnOutcome.
Proof. solve_decision. Defined.
#[export, refine] Instance TurnOutcome_finite : Finite TurnOutcome :=
  {| enum := [TurnCompleted; TurnErrored; TurnInterrupted; TurnCancelled; TurnRefused] |}.
Proof. all: solve_finite. Defined.
Definition TurnOutcome_string (o : TurnOutcome) : string :=
  match o with
  | TurnCompleted => "completed" | TurnErrored => "errored" | TurnInterrupted => "interrupted"
  | TurnCancelled => "cancelled" | TurnRefused => "refused"
  end.
#[export, refine] Instance TurnOutcome_Enum : Enum TurnOutcome :=
  {| wire := TurnOutcome_string;
     Values := ["completed"; "errored"; "interrupted"; "cancelled"; "refused"] |}.
Proof. all: solve_enum. Defined.

Inductive ErrorClass :=
| ErrorAPI | ErrorOverloaded | ErrorUsageLimit | ErrorAuth | ErrorBilling | ErrorMaxOutput
| ErrorInternal.
#[export] Instance ErrorClass_eq_dec : EqDecision ErrorClass.
Proof. solve_decision. Defined.
#[export, refine] Instance ErrorClass_finite : Finite ErrorClass := {| enum :=
  [ErrorAPI; ErrorOverloaded; ErrorUsageLimit; ErrorAuth; ErrorBilling; ErrorMaxOutput;
   ErrorInternal] |}.
Proof. all: solve_finite. Defined.
Definition ErrorClass_string (c : ErrorClass) : string :=
  match c with
  | ErrorAPI => "api" | ErrorOverloaded => "overloaded" | ErrorUsageLimit => "usage_limit"
  | ErrorAuth => "auth" | ErrorBilling => "billing" | ErrorMaxOutput => "max_output"
  | ErrorInternal => "internal"
  end.
#[export, refine] Instance ErrorClass_Enum : Enum ErrorClass :=
  {| wire := ErrorClass_string;
     Values := ["api"; "overloaded"; "usage_limit"; "auth"; "billing"; "max_output"; "internal"] |}.
Proof. all: solve_enum. Defined.

Inductive BackgroundKind := BackgroundCommand | BackgroundSubagent | BackgroundOther.
#[export] Instance BackgroundKind_eq_dec : EqDecision BackgroundKind.
Proof. solve_decision. Defined.
#[export, refine] Instance BackgroundKind_finite : Finite BackgroundKind :=
  {| enum := [BackgroundCommand; BackgroundSubagent; BackgroundOther] |}.
Proof. all: solve_finite. Defined.
Definition BackgroundKind_string (k : BackgroundKind) : string :=
  match k with
  | BackgroundCommand => "command" | BackgroundSubagent => "subagent" | BackgroundOther => "other"
  end.
#[export, refine] Instance BackgroundKind_Enum : Enum BackgroundKind :=
  {| wire := BackgroundKind_string; Values := ["command"; "subagent"; "other"] |}.
Proof. all: solve_enum. Defined.

Inductive ExitClass := ExitClean | ExitCrashed | ExitKilled | ExitBinaryMissing | ExitAuth.
#[export] Instance ExitClass_eq_dec : EqDecision ExitClass.
Proof. solve_decision. Defined.
#[export, refine] Instance ExitClass_finite : Finite ExitClass :=
  {| enum := [ExitClean; ExitCrashed; ExitKilled; ExitBinaryMissing; ExitAuth] |}.
Proof. all: solve_finite. Defined.
Definition ExitClass_string (c : ExitClass) : string :=
  match c with
  | ExitClean => "clean" | ExitCrashed => "crashed" | ExitKilled => "killed"
  | ExitBinaryMissing => "binary_missing" | ExitAuth => "auth"
  end.
#[export, refine] Instance ExitClass_Enum : Enum ExitClass :=
  {| wire := ExitClass_string; Values := ["clean"; "crashed"; "killed"; "binary_missing"; "auth"] |}.
Proof. all: solve_enum. Defined.

(** session.go *)

Inductive InterruptOutcome :=
| InterruptStopped | InterruptCancelled | InterruptNoTurn | InterruptTooLate.
#[export] Instance InterruptOutcome_eq_dec : EqDecision InterruptOutcome.
Proof. solve_decision. Defined.
#[export, refine] Instance InterruptOutcome_finite : Finite InterruptOutcome :=
  {| enum := [InterruptStopped; InterruptCancelled; InterruptNoTurn; InterruptTooLate] |}.
Proof. all: solve_finite. Defined.
Definition InterruptOutcome_string (o : InterruptOutcome) : string :=
  match o with
  | InterruptStopped => "stopped" | InterruptCancelled => "cancelled"
  | InterruptNoTurn => "no_turn" | InterruptTooLate => "too_late"
  end.
#[export, refine] Instance InterruptOutcome_Enum : Enum InterruptOutcome :=
  {| wire := InterruptOutcome_string; Values := ["stopped"; "cancelled"; "no_turn"; "too_late"] |}.
Proof. all: solve_enum. Defined.

Inductive Phase :=
| PhaseUnopened | PhaseStarting | PhaseIdle | PhaseBusy | PhaseAwaitingAnswer | PhaseBlocked
| PhaseExited.
#[export] Instance Phase_eq_dec : EqDecision Phase.
Proof. solve_decision. Defined.
#[export, refine] Instance Phase_finite : Finite Phase := {| enum :=
  [PhaseUnopened; PhaseStarting; PhaseIdle; PhaseBusy; PhaseAwaitingAnswer; PhaseBlocked;
   PhaseExited] |}.
Proof. all: solve_finite. Defined.
Definition Phase_string (p : Phase) : string :=
  match p with
  | PhaseUnopened => "unopened" | PhaseStarting => "starting" | PhaseIdle => "idle"
  | PhaseBusy => "busy" | PhaseAwaitingAnswer => "awaiting_answer" | PhaseBlocked => "blocked"
  | PhaseExited => "exited"
  end.
#[export, refine] Instance Phase_Enum : Enum Phase :=
  {| wire := Phase_string;
     Values := ["unopened"; "starting"; "idle"; "busy"; "awaiting_answer"; "blocked"; "exited"] |}.
Proof. all: solve_enum. Defined.

Inductive BlockReason :=
| BlockUsageLimited | BlockAuthRequired | BlockBilling | BlockUnrecognizedDialog.
#[export] Instance BlockReason_eq_dec : EqDecision BlockReason.
Proof. solve_decision. Defined.
#[export, refine] Instance BlockReason_finite : Finite BlockReason :=
  {| enum := [BlockUsageLimited; BlockAuthRequired; BlockBilling; BlockUnrecognizedDialog] |}.
Proof. all: solve_finite. Defined.
Definition BlockReason_string (r : BlockReason) : string :=
  match r with
  | BlockUsageLimited => "usage_limited" | BlockAuthRequired => "auth_required"
  | BlockBilling => "billing" | BlockUnrecognizedDialog => "unrecognized_dialog"
  end.
#[export, refine] Instance BlockReason_Enum : Enum BlockReason :=
  {| wire := BlockReason_string;
     Values := ["usage_limited"; "auth_required"; "billing"; "unrecognized_dialog"] |}.
Proof. all: solve_enum. Defined.

Inductive RecoveredOutcome :=
| RecoveredCompleted | RecoveredErrored | RecoveredInterrupted | RecoveredCancelled
| RecoveredRefused | RecoveredNotFound | RecoveredUnknown.
#[export] Instance RecoveredOutcome_eq_dec : EqDecision RecoveredOutcome.
Proof. solve_decision. Defined.
#[export, refine] Instance RecoveredOutcome_finite : Finite RecoveredOutcome := {| enum :=
  [RecoveredCompleted; RecoveredErrored; RecoveredInterrupted; RecoveredCancelled;
   RecoveredRefused; RecoveredNotFound; RecoveredUnknown] |}.
Proof. all: solve_finite. Defined.
Definition RecoveredOutcome_string (o : RecoveredOutcome) : string :=
  match o with
  | RecoveredCompleted => "completed" | RecoveredErrored => "errored"
  | RecoveredInterrupted => "interrupted" | RecoveredCancelled => "cancelled"
  | RecoveredRefused => "refused" | RecoveredNotFound => "not_found" | RecoveredUnknown => "unknown"
  end.
#[export, refine] Instance RecoveredOutcome_Enum : Enum RecoveredOutcome :=
  {| wire := RecoveredOutcome_string;
     Values := ["completed"; "errored"; "interrupted"; "cancelled"; "refused"; "not_found"; "unknown"] |}.
Proof. all: solve_enum. Defined.

Record Recovered := mkRecovered { rc_outcome : RecoveredOutcome; rc_turn : string }.

(** ** Payloads *)

Record TurnError := mkTurnError {
  te_class : ErrorClass; te_status : Z; te_retry_after : Z; te_resume : option Time }.

Definition TurnError_json (e : TurnError) : json :=
  JObj ([("class", JStr (wire (te_class e)))] ++ omit_int "http_status" (te_status e)
        ++ omit_int "retry_after_s" (te_retry_after e) ++ omit_nil JTime "resume_at" (te_resume e)).

Record TurnEndedData := mkTurnEnded { td_outcome : TurnOutcome; td_text : string; td_error : option TurnError }.

Definition TurnEndedData_json (d : TurnEndedData) : json :=
  JObj ([("outcome", JStr (wire (td_outcome d)))] ++ omit_str "text" (td_text d)
        ++ omit_nil TurnError_json "error" (td_error d)).

Record PromptResolvedData := mkPromptResolved { pr_id : string; pr_by : string }.

Definition PromptResolvedData_json (d : PromptResolvedData) : json :=
  JObj [("prompt_id", JStr (pr_id d)); ("by", JStr (pr_by d))].

Record BackgroundTask := mkTask { bt_id : string; bt_kind : BackgroundKind; bt_description : string }.

Definition BackgroundTask_json (t : BackgroundTask) : json :=
  JObj ([("id", JStr (bt_id t)); ("kind", JStr (wire (bt_kind t)))]
        ++ omit_str "description" (bt_description t)).

Definition BackgroundTasksData_json (tasks : list BackgroundTask) : json :=
  JObj [("tasks", JArr (map BackgroundTask_json tasks))].

Record RetryingData := mkRetrying { rt_attempt : Z; rt_max : Z; rt_delay : Z; rt_status : Z }.

Definition RetryingData_json (d : RetryingData) : json :=
  JObj ([("attempt", JInt (rt_attempt d)); ("max", JInt (rt_max d))]
        ++ omit_int "delay_ms" (rt_delay d) ++ omit_int "http_status" (rt_status d)).

Record SessionExitedData := mkExited {
  se_class : ExitClass; se_code : option Z; se_signal : string; se_detail : string }.

Definition SessionExitedData_json (d : SessionExitedData) : json :=
  JObj ([("class", JStr (wire (se_class d)))] ++ omit_nil JInt "exit_code" (se_code d)
        ++ omit_str "signal" (se_signal d) ++ omit_str "detail" (se_detail d)).

Record Block := mkBlock { bk_reason : BlockReason; bk_resume : option Time }.

Definition Block_json (b : Block) : json :=
  JObj ([("reason", JStr (wire (bk_reason b)))] ++ omit_nil JTime "resume_at" (bk_resume b)).

Record PromptOption := mkOption { po_id : string; po_label : string }.

Record PromptInfo := mkPrompt {
  pi_id : string; pi_kind : string; pi_prompt : string; pi_options : list PromptOption; pi_multi : bool }.

Definition PromptOption_json (o : PromptOption) : json :=
  JObj [("option_id", JStr (po_id o)); ("label", JStr (po_label o))].

Definition PromptInfo_json (p : PromptInfo) : json :=
  JObj ([("prompt_id", JStr (pi_id p)); ("kind", JStr (pi_kind p)); ("prompt", JStr (pi_prompt p))]
        ++ omit_arr PromptOption_json "options" (pi_options p) ++ omit_bool "multi_select" (pi_multi p)).

Record RetryInfo := mkRetry { ri_attempt : Z; ri_max : Z }.

Record State := mkState {
  st_phase : Phase;
  st_turn : string;
  st_input : string;
  st_prompt : option PromptInfo;
  st_block : option Block;
  st_retry : option RetryInfo;
  st_background : list BackgroundTask;
}.

(** ** Observations *)

Record Observation := mkObservation {
  o_id : string;
  o_kind : Kind;
  o_origin : Origin;
  o_time : Time;
  o_turn : string;
  o_input : string;
  o_entry : string;
  o_data : RawMessage;
  o_truncated : bool;
}.
#[export] Instance Observation_eq_dec : EqDecision Observation.
Proof. solve_decision. Defined.

Definition Observation_json (o : Observation) : json :=
  JObj ([("id", JStr (o_id o)); ("kind", JStr (wire (o_kind o))); ("origin", JStr (wire (o_origin o)));
         ("time", JTime (o_time o))]
        ++ omit_str "turn_id" (o_turn o) ++ omit_str "input_id" (o_input o) ++ omit_str "entry" (o_entry o)
        ++ [("data", JRaw (o_data o))] ++ omit_bool "truncated" (o_truncated o)).

Definition ObservationID (kind : Kind) (key : string) : string := wire kind ++ ":" ++ key.

(** [NewObservation]: it panics on data that does not encode, which is [None]. *)
Definition NewObservation (kind : Kind) (key : string) (origin : Origin) (at_ : Time) (data : json)
  : option Observation :=
  match marshal data with
  | Some raw => Some (mkObservation (ObservationID kind key) kind origin (UTC at_) "" "" "" (Some raw) false)
  | None => None
  end.

(** [Observation.Key]. *)
Definition Key (o : Observation) : string := TrimPrefix (o_id o) (wire (o_kind o) ++ ":").

(** ** Batches *)

Record Reset := mkReset { rs_reason : string; rs_previous : option Checkpoint }.
Record Fault := mkFault { f_kind : string; f_detail : string }.
#[export] Instance Reset_eq_dec : EqDecision Reset.
Proof. solve_decision. Defined.
#[export] Instance Fault_eq_dec : EqDecision Fault.
Proof. solve_decision. Defined.

(** A [Rescan] is its reason. *)
Abbreviation Rescan := string (only parsing).

Record Batch := mkBatch {
  b_id : string;
  b_items : list Observation;
  b_checkpoint : option Checkpoint;
  b_reset : option Reset;
  b_rescan : option Rescan;
  b_faults : list Fault;
  b_end : bool;
}.
#[export] Instance Batch_eq_dec : EqDecision Batch.
Proof. solve_decision. Defined.

Definition NeedsAck (b : Batch) : bool := negb (b_id b =s? "").

Definition Checkpoint_json (c : Checkpoint) : json :=
  JObj [("format", JInt (cp_format c)); ("data", JBytes (cp_data c))].

Definition Reset_json (r : Reset) : json :=
  JObj ([("reason", JStr (rs_reason r))] ++ omit_nil Checkpoint_json "previous" (rs_previous r)).

Definition Rescan_json (r : Rescan) : json := JObj [("reason", JStr r)].

Definition Fault_json (f : Fault) : json :=
  JObj ([("kind", JStr (f_kind f))] ++ omit_str "detail" (f_detail f)).

Definition meta_fields (reset : option Reset) (rescan : option Rescan) (faults : list Fault)
  : list (string * json) :=
  omit_nil Reset_json "reset" reset ++ omit_nil Rescan_json "rescan" rescan
  ++ omit_arr Fault_json "faults" faults.

Definition Batch_json (b : Batch) : json :=
  JObj (omit_str "batch_id" (b_id b) ++ [("items", JArr (map Observation_json (b_items b)))]
        ++ omit_nil Checkpoint_json "checkpoint" (b_checkpoint b)
        ++ meta_fields (b_reset b) (b_rescan b) (b_faults b)
        ++ omit_bool "end_of_record" (b_end b)).

(** ** Properties *)

Lemma no_colon_kind k : no_byte ":" (wire (k : Kind)).
Proof. destruct k; unfold no_byte; cbn; rewrite !not_elem_of_cons; repeat split; try done; apply not_elem_of_nil. Qed.

Lemma Key_ObservationID kind key o :
  o_id o = ObservationID kind key -> o_kind o = kind -> Key o = key.
Proof. intros Hid Hk. unfold Key. rewrite Hid, Hk. unfold ObservationID. rewrite <- append_assoc. apply TrimPrefix_app. Qed.

(** an observation's id names its kind and key and no other: two ids are
    equal only when both are, and Key reads the key back, whatever colons it
    holds. *)
Theorem ObservationID_identity k1 key1 k2 key2 :
  (ObservationID k1 key1 = ObservationID k2 key2 <-> k1 = k2 /\ key1 = key2) /\
  (forall o at_ origin data, NewObservation k1 key1 origin at_ data = Some o -> Key o = key1).
Proof.
  split.
  - split; [|by intros [-> ->]]. unfold ObservationID. intros H.
    pose proof (Cut_app ":" (wire k1) key1 (no_colon_kind k1)) as H1.
    pose proof (Cut_app ":" (wire k2) key2 (no_colon_kind k2)) as H2.
    change (String ":" ?s) with (":" ++ s) in H1, H2. rewrite H, H2 in H1.
    injection H1 as Hw ->. split; [|done]. symmetry. apply (inj (wire : Kind -> string)). exact Hw.
  - intros o at_ origin data. unfold NewObservation. destruct (marshal data); [|done]. intros [= <-].
    by apply (Key_ObservationID k1).
Qed.

(** The kinds a Descriptor must declare a capability for name one the contract
    lists. *)
Lemma KindCapability_listed k : KindCapability k = "" \/ KindCapability k ∈ Capability_Values.
Proof. destruct k; (by left) || (right; apply (bool_decide_unpack _); by vm_compute). Qed.

(** ** What a log of observations promises a Session *)

(** A log takes the observations a Session pushes, and whatever else it learns,
    and hands them to a Host that acknowledges them; a run of it is a list of
    labels. [log_kept] is what the log makes of an observation before it keeps
    it. *)
Class ObservationLog (C L : Type) := {
  log_new : C;
  log_step : C -> L -> C -> Prop;
  log_push : list Observation -> C -> C;
  log_pushed : list Observation -> L;
  log_kept : Observation -> Observation;
  log_learned : L -> list Observation;
  log_acked : L -> list Observation;
  log_settled : C -> Prop;
}.

Inductive log_run `{ObservationLog C L} : list L -> C -> Prop :=
| log_run_nil : log_run [] log_new
| log_run_snoc tr c l c' : log_run tr c -> log_step c l c' -> log_run (tr ++ [l])%list c'.

(** The promise: a push is a step that learns what was pushed, and a settled log
    has had everything it learned acknowledged, in order. *)
Class ObservationLogLaws (C L : Type) `{ObservationLog C L} : Prop := {
  log_push_step obs c : log_step c (log_pushed obs) (log_push obs c);
  log_push_learned obs : log_learned (log_pushed obs) = map log_kept obs;
  log_settled_acked tr c : log_run tr c -> log_settled c ->
    concat (map log_learned tr) = concat (map log_acked tr);
}.
