(* ===== verification/Cursor.v ===== *)
(** The delivery cursor of pkg/adapter/cursor.go: live observations and the
    record's chunks become batches, each acknowledged before the next.

    [cursor] is the struct's state. Its mutex makes every critical section one
    step: [push], the two sections of [read] ([read_pending] before the reader
    is asked, [store] after), the section of [observe] that builds a batch,
    and [ack]. The Reader is the profile's: what it answers is an argument. A
    notify channel that is closed and replaced is a generation number. *)
From Stdlib Require Import ZArith Ascii String Lia.
From stdpp Require Import base tactics list gmap strings option.
From S2P Require Import Prelude GoStr Json Contract Requests Observation.

#[local] Open Scope string_scope.
#[local] Open Scope Z_scope.

(** ** Chunks and sizes *)

(** adapter.go: [Chunk]. Its token is the reader's own handle. *)
Record Chunk := mkChunk {
  ch_items : list Observation;
  ch_checkpoint : option Checkpoint;
  ch_reset : option Reset;
  ch_rescan : option Rescan;
  ch_faults : list Fault;
  ch_token : Z;
}.
#[export] Instance Chunk_eq_dec : EqDecision Chunk.
Proof. solve_decision. Defined.

Definition empty_chunk (c : Chunk) : bool :=
  is_nil (ch_items c) && is_none (ch_checkpoint c) && is_none (ch_reset c)
  && is_none (ch_rescan c) && is_nil (ch_faults c).

Definition batchOverhead : Z := 256.

Definition encodedSize (o : Observation) : Z := marshal_len (Observation_json o).

Definition metaSize (ch : Chunk) : Z :=
  marshal_len (JObj (meta_fields (ch_reset ch) (ch_rescan ch) (ch_faults ch))).

Definition checkpointSize (cp : Checkpoint) : Z := marshal_len (Checkpoint_json cp).

Definition bound (o : Observation) : Observation :=
  if encodedSize o + batchOverhead <=? MaxObserveBytes then o
  else mkObservation (o_id o) (o_kind o) (o_origin o) (o_time o) (o_turn o) (o_input o) (o_entry o)
         (Some "{}") true.

(** ** The cursor *)

Record entry := mkEntry {
  e_obs : option Observation;
  e_size : Z;
  e_meta : option Chunk;
  e_last : bool;
}.

Record cursor := mkCursor {
  c_queue : list entry;
  c_chunk : option Chunk;
  c_out : option Batch;
  c_outN : nat;
  c_outCommit : bool;
  c_lastAcked : string;
  c_seq : Z;
  c_observing : bool;
  c_notify : nat;
  c_endOfRec : bool;
}.

Definition newCursor (endOfRecord : bool) : cursor :=
  mkCursor [] None None 0 false "" 0 false 0 endOfRecord.

(** [c.queue = append(c.queue, es...)], and [c.chunk]. *)
Definition enqueue (es : list entry) (chunk : option Chunk) (c : cursor) : cursor :=
  mkCursor (c_queue c ++ es) chunk (c_out c) (c_outN c) (c_outCommit c) (c_lastAcked c) (c_seq c)
    (c_observing c) (c_notify c) (c_endOfRec c).

Definition wakeLocked (c : cursor) : cursor :=
  mkCursor (c_queue c) (c_chunk c) (c_out c) (c_outN c) (c_outCommit c) (c_lastAcked c) (c_seq c)
    (c_observing c) (S (c_notify c)) (c_endOfRec c).

Definition set_observing (b : bool) (c : cursor) : cursor :=
  mkCursor (c_queue c) (c_chunk c) (c_out c) (c_outN c) (c_outCommit c) (c_lastAcked c) (c_seq c)
    b (c_notify c) (c_endOfRec c).

Definition live_entry (o : Observation) : entry :=
  let o := bound o in mkEntry (Some o) (encodedSize o) None false.

Definition push (obs : list Observation) (c : cursor) : cursor :=
  wakeLocked (enqueue (map live_entry obs) (c_chunk c) c).

(** The entries a chunk is queued as: one per item, or one for a chunk with no
    items. *)
Definition chunk_entry (ch : Chunk) (n : nat) (i : nat) (item : Observation) : entry :=
  let o := bound item in
  let first := bool_decide (i = 0%nat) in
  mkEntry (Some o) (if first then encodedSize o + metaSize ch else encodedSize o)
    (if first then Some ch else None) (bool_decide (S i = n)).

Definition chunk_entries (ch : Chunk) : list entry :=
  match ch_items ch with
  | [] => [mkEntry None (metaSize ch) (Some ch) true]
  | items => imap (chunk_entry ch (length items)) items
  end.

(** [read], before it asks the reader: is a chunk pending? *)
Definition read_pending (c : cursor) : bool := negb (is_none (c_chunk c)).

(** [read], once the reader answered with [ch]; the flag is its first result. *)
Definition store (ch : Chunk) (c : cursor) : cursor * bool :=
  if empty_chunk ch then (c, false)
  else match c_chunk c with
    | Some _ => (c, false)
    | None => (wakeLocked (enqueue (chunk_entries ch) (Some ch) c), true)
    end.

(** [read] run with no other step between its sections. [reader] is [None]
    for a cursor that has no reader, else what its Read answers. *)
Definition read (reader : option (result goerr Chunk)) (c : cursor) : cursor * result goerr bool :=
  if read_pending c then (c, Ok false)
  else match reader with
    | None => (c, Ok false)
    | Some (Err e) => (c, Err e)
    | Some (Ok ch) => let '(c, more) := store ch c in (c, Ok more)
    end.

(** [buildLocked]'s loop state. *)
Record building := mkBuilding {
  bl_items : list Observation;
  bl_checkpoint : option Checkpoint;
  bl_reset : option Reset;
  bl_rescan : option Rescan;
  bl_faults : list Fault;
  bl_size : Z;
  bl_n : nat;
  bl_commit : bool;
}.

Definition build_start : building := mkBuilding [] None None None [] batchOverhead 0 false.

Definition entry_add (chunk : option Chunk) (e : entry) : Z :=
  e_size e + 1 +
  match (if e_last e then chunk ≫= ch_checkpoint else None) with
  | Some cp => checkpointSize cp
  | None => 0
  end.

(** One entry taken into the batch. *)
Definition take_entry (chunk : option Chunk) (e : entry) (b : building) : building :=
  mkBuilding
    (match e_obs e with Some o => bl_items b ++ [o] | None => bl_items b end)
    (if e_last e then match chunk with Some ch => ch_checkpoint ch | None => bl_checkpoint b end
     else bl_checkpoint b)
    (match e_meta e with Some m => ch_reset m | None => bl_reset b end)
    (match e_meta e with Some m => ch_rescan m | None => bl_rescan b end)
    (match e_meta e with Some m => bl_faults b ++ ch_faults m | None => bl_faults b end)
    (bl_size b + entry_add chunk e)
    (S (bl_n b))
    (if e_last e then true else bl_commit b).

Definition batchTooLarge (required : Z) : Error := mkError CodeBatchTooLarge None None "" required.

Fixpoint build_loop (maxBytes : Z) (chunk : option Chunk) (q : list entry) (b : building)
  : result Error building :=
  match q with
  | [] => Ok b
  | e :: q =>
    if maxBytes <? bl_size b + entry_add chunk e
    then if bool_decide (bl_n b = 0%nat) then Err (batchTooLarge (bl_size b + entry_add chunk e)) else Ok b
    else build_loop maxBytes chunk q (take_entry chunk e b)
  end.

Definition batch_id (seq : Z) : string := "b" ++ Itoa seq.

Definition batch_of (b : building) (seq : Z) : Batch :=
  mkBatch (batch_id seq) (bl_items b) (bl_checkpoint b) (bl_reset b) (bl_rescan b) (bl_faults b) false.

Definition buildLocked (maxBytes : Z) (c : cursor) : cursor * result Error Batch :=
  match c_out c with
  | Some b => (c, Ok b)
  | None =>
    match build_loop maxBytes (c_chunk c) (c_queue c) build_start with
    | Err e => (c, Err e)
    | Ok bl =>
      let seq := c_seq c + 1 in
      let b := batch_of bl seq in
      (mkCursor (c_queue c) (c_chunk c) (Some b) (bl_n bl) (bl_commit bl) (c_lastAcked c) seq
         (c_observing c) (c_notify c) (c_endOfRec c), Ok b)
    end
  end.

(** [ack]; beside the error, the chunk the reader is told to move past. *)
Definition ack (batchID : string) (c : cursor) : cursor * result Error (option Chunk) :=
  if match c_out c with Some b => b_id b =s? batchID | None => false end then
    (wakeLocked (mkCursor (drop (c_outN c) (c_queue c)) (if c_outCommit c then None else c_chunk c)
       None 0 false batchID (c_seq c) (c_observing c) (c_notify c) (c_endOfRec c)),
     Ok (if c_outCommit c then c_chunk c else None))
  else if negb (batchID =s? "") && (batchID =s? c_lastAcked c) then (c, Ok None)
  else (c, Err (Errorf CodeUnexpected)).

Definition settled_now (c : cursor) : bool :=
  is_none (c_out c) && is_nil (c_queue c) && is_none (c_chunk c).

Definition settled (reader : option (result goerr Chunk)) (c : cursor) : cursor * bool :=
  if negb (settled_now c) then (c, false)
  else let '(c, r) := read reader c in
       (c, match r with Ok more => negb more | Err _ => false end).

Definition empty_batch (endOfRecord : bool) : Batch := mkBatch "" [] None None None [] endOfRecord.

(** [observe]'s checks and its entry. *)
Definition observe_begin (wait maxBytes : Z) (c : cursor) : result Error cursor :=
  when (wait <? 0) || (MaxObserveWait <? wait) refuse FieldError CodeProtocol "wait_ms" ;;
  when (maxBytes <? MinObserveBytes) || (MaxObserveBytes <? maxBytes)
    refuse FieldError CodeProtocol "max_bytes" ;;
  when c_observing c refuse Errorf CodeUnexpected ;;
  Ok (set_observing true c).

(** What the world gives one turn of [observe]'s loop: the reader's answer, the
    time left, whether the caller gave up while it waited, and what was pushed
    meanwhile. *)
Record poll := mkPoll {
  p_reader : option (result goerr Chunk);
  p_left : Z;
  p_gone : bool;
  p_pushed : list Observation;
}.

(** One turn of the loop: [Some] is what observe returns. *)
Definition observe_turn (maxBytes : Z) (p : poll) (c : cursor) : cursor * option (result Error Batch) :=
  let '(c, r) := read (p_reader p) c in
  match r with
  | Err _ => (c, Some (Err (Errorf CodeInternal)))
  | Ok _ =>
    if negb (is_none (c_out c)) || negb (is_nil (c_queue c)) then
      let '(c, r) := buildLocked maxBytes c in (c, Some r)
    else if c_endOfRec c && is_none (c_chunk c) then (c, Some (Ok (empty_batch true)))
    else if p_left p <=? 0 then (c, Some (Ok (empty_batch false)))
    else if p_gone p then (c, Some (Ok (empty_batch false)))
    else (if is_nil (p_pushed p) then c else push (p_pushed p) c, None)
  end.

(** The loop over the polls the world gives; [None] when they run out first. *)
Fixpoint observe_loop (maxBytes : Z) (ps : list poll) (c : cursor) : cursor * option (result Error Batch) :=
  match ps with
  | [] => (c, None)
  | p :: ps =>
    match observe_turn maxBytes p c with
    | (c, Some r) => (set_observing false c, Some r)
    | (c, None) => observe_loop maxBytes ps c
    end
  end.

Definition observe (wait maxBytes : Z) (ps : list poll) (c : cursor)
  : cursor * option (result Error Batch) :=
  match observe_begin wait maxBytes c with
  | Err e => (c, Some (Err e))
  | Ok c => observe_loop maxBytes ps c
  end.

(** ** The cursor as a transition system *)

Inductive label :=
| LPush (obs : list Observation)
| LRead (ch : Chunk)
| LBuild (r : result Error Batch)
| LAcked (b : Batch) (commit : option Chunk)
| LOther.

(** Each step is one critical section, so every interleaving of Observe, Ack,
    Close's drain and the harness's events is a sequence of them. *)
Inductive step : cursor -> label -> cursor -> Prop :=
| step_push obs c : step c (LPush obs) (push obs c)
| step_read ch c c' : store ch c = (c', true) -> step c (LRead ch) c'
| step_build maxBytes c c' r :
    buildLocked maxBytes c = (c', r) -> MinObserveBytes <= maxBytes <= MaxObserveBytes ->
    negb (is_none (c_out c)) || negb (is_nil (c_queue c)) = true ->
    step c (LBuild r) c'
| step_ack b c c' commit :
    c_out c = Some b -> ack (b_id b) c = (c', Ok commit) -> step c (LAcked b commit) c'
| step_observing b c : step c LOther (set_observing b c).

Inductive steps : cursor -> list label -> cursor -> Prop :=
| steps_nil c : steps c [] c
| steps_snoc c0 tr c l c' : steps c0 tr c -> step c l c' -> steps c0 (tr ++ [l]) c'.

(** The observations a trace learned, in order, and those it had acknowledged. *)
Definition learned_of (l : label) : list Observation :=
  match l with
  | LPush obs => map bound obs
  | LRead ch => map bound (ch_items ch)
  | _ => []
  end.
Definition learned (tr : list label) : list Observation := concat (map learned_of tr).

Definition acked_of (l : label) : list Observation :=
  match l with LAcked b _ => b_items b | _ => [] end.
Definition acked (tr : list label) : list Observation := concat (map acked_of tr).

Definition obs_of (q : list entry) : list Observation := omap e_obs q.

#[local] Open Scope list_scope.

(** ** A batch is the queue's head *)

Definition take_entries (chunk : option Chunk) (es : list entry) (b : building) : building :=
  foldl (fun b e => take_entry chunk e b) b es.

Definition add_all (chunk : option Chunk) (es : list entry) : Z :=
  foldr (fun e n => entry_add chunk e + n) 0 es.

Definition any_last (es : list entry) : bool := any e_last es.

Lemma take_entries_fields chunk es : forall b,
  bl_items (take_entries chunk es b) = bl_items b ++ obs_of es /\
  bl_size (take_entries chunk es b) = bl_size b + add_all chunk es /\
  bl_n (take_entries chunk es b) = (bl_n b + length es)%nat /\
  bl_commit (take_entries chunk es b) = bl_commit b || any_last es.
Proof.
  induction es as [|e es IH]; intros b.
  - cbn. rewrite app_nil_r, Z.add_0_r, Nat.add_0_r, orb_false_r. done.
  - change (take_entries chunk (e :: es) b) with (take_entries chunk es (take_entry chunk e b)). destruct (IH (take_entry chunk e b)) as (-> & -> & -> & ->). cbn. split_and!.
    + by destruct (e_obs e); [rewrite <- app_assoc|].
    + fold (add_all chunk es). lia.
    + lia.
    + destruct (e_last e), (bl_commit b); done.
Qed.

Lemma build_loop_Ok maxBytes chunk q : forall b bl,
  build_loop maxBytes chunk q b = Ok bl ->
  exists n, (n <= length q)%nat /\ bl = take_entries chunk (take n q) b /\
    (bl_size b <= maxBytes -> bl_size bl <= maxBytes) /\
    (bl_n b = 0%nat -> q <> [] -> (1 <= n)%nat).
Proof.
  induction q as [|e q IH]; intros b bl H; cbn [build_loop] in H.
  - simplify_eq. by exists O.
  - destruct (Z.ltb_spec maxBytes (bl_size b + entry_add chunk e)) as [Hlt|Hge].
    + case_bool_decide; [done|]. simplify_eq. exists O. cbn. split_and!; auto with lia.
    + apply IH in H as (n & Hn & -> & Hs & _). exists (S n). cbn [length take firstn]. split_and!; try done; try lia.
      intros _. by apply Hs.
Qed.

Lemma build_loop_Err maxBytes chunk q b e :
  build_loop maxBytes chunk q b = Err e ->
  exists x q', q = x :: q' /\ bl_n b = 0%nat /\ maxBytes < bl_size b + entry_add chunk x /\
    e = batchTooLarge (bl_size b + entry_add chunk x).
Proof.
  destruct q as [|x q]; cbn [build_loop]; [done|].
  destruct (Z.ltb_spec maxBytes (bl_size b + entry_add chunk x)) as [Hlt|Hge].
  - case_bool_decide; [|done]. intros [= <-]. eauto 10.
  - intros H. exfalso. revert H. generalize (take_entry chunk x b) (eq_refl : bl_n (take_entry chunk x b) = S (bl_n b)).
    generalize (bl_n b) as n. clear Hge. induction q as [|y q IH]; intros n b' Hb'; cbn [build_loop]; [done|].
    destruct (maxBytes <? bl_size b' + entry_add chunk y); [case_bool_decide; [lia|done]|].
    apply (IH (S n)). cbn. lia.
Qed.

(** ** Entries *)

Definition live (e : entry) : Prop := e_meta e = None /\ e_last e = false /\ is_Some (e_obs e).

Definition sized (e : entry) : Prop :=
  e_size e = default 0 (encodedSize <$> e_obs e) + default 0 (metaSize <$> e_meta e).

Lemma live_entries obs : Forall live (map live_entry obs) /\ Forall sized (map live_entry obs).
Proof.
  induction obs as [|o obs [IH1 IH2]]; cbn; [done|].
  split; constructor; try done; unfold live, sized, live_entry; cbn; lia.
Qed.

Lemma obs_of_live obs : obs_of (map live_entry obs) = map bound obs.
Proof. induction obs as [|o obs IH]; cbn; [done|]. by f_equal. Qed.

Lemma obs_of_app q1 q2 : obs_of (q1 ++ q2) = obs_of q1 ++ obs_of q2.
Proof. apply omap_app. Qed.

Lemma imap_chunk_obs ch n : forall l i, obs_of (imap (fun j => chunk_entry ch n (i + j)) l) = map bound l.
Proof.
  induction l as [|o l IH]; intros i; cbn; [done|]. f_equal. rewrite <- (IH (S i)). f_equal.
  apply imap_ext. intros j x _. cbn. by rewrite Nat.add_succ_r.
Qed.

Lemma chunk_entries_obs ch : obs_of (chunk_entries ch) = map bound (ch_items ch).
Proof.
  unfold chunk_entries. destruct (ch_items ch) as [|o l]; [done|]. apply (imap_chunk_obs ch _ (o :: l) 0).
Qed.

Lemma chunk_entries_nonnil ch : chunk_entries ch <> [].
Proof. unfold chunk_entries. by destruct (ch_items ch). Qed.

Lemma chunk_entry_sized ch n i o : sized (chunk_entry ch n i o).
Proof. unfold sized, chunk_entry. cbn. case_bool_decide; cbn; lia. Qed.

Lemma chunk_entries_lookup ch i e : chunk_entries ch !! i = Some e ->
  (e_meta e = if bool_decide (i = 0%nat) then Some ch else None) /\
  e_last e = bool_decide (S i = length (chunk_entries ch)) /\ sized e.
Proof.
  unfold chunk_entries. destruct (ch_items ch) as [|o l] eqn:E.
  - intros H. apply list_lookup_singleton_Some in H as [-> <-]. cbn. unfold sized. cbn. split_and!; try done.
  - rewrite length_imap. rewrite list_lookup_imap_Some. intros (x & _ & ->).
    split_and!; try done. apply chunk_entry_sized.
Qed.

Lemma chunk_entries_sized ch : Forall sized (chunk_entries ch).
Proof. apply Forall_lookup_2. intros i e H. by apply chunk_entries_lookup in H as (_ & _ & ?). Qed.

(** What is left of a chunk in the queue: a suffix of its entries. Only its
    last entry is marked last, and it is in the suffix. *)
Lemma suffix_last ch pre part : chunk_entries ch = pre ++ part -> part <> [] ->
  exists part' e, part = part' ++ [e] /\ e_last e = true /\ any_last part' = false.
Proof.
  intros H Hn. destruct part as [|e part' _] using rev_ind; [done|]. exists part', e.
  assert (Hlen : length (chunk_entries ch) = S (length pre + length part')) by (rewrite H, !length_app; cbn; lia).
  split_and!; [done| |].
  - assert (He : chunk_entries ch !! (length pre + length part')%nat = Some e).
    { rewrite H, app_assoc. replace (length pre + length part')%nat with (length (pre ++ part')) by (by rewrite length_app).
      by apply list_lookup_middle. }
    apply chunk_entries_lookup in He as (_ & -> & _). apply bool_decide_eq_true. lia.
  - apply any_false. intros x Hx. apply list_elem_of_lookup in Hx as [i Hi].
    pose proof (lookup_lt_Some _ _ _ Hi).
    assert (Hx : chunk_entries ch !! (length pre + i)%nat = Some x).
    { rewrite H, lookup_app_r by lia. rewrite lookup_app_l by lia. rewrite <- Hi. f_equal. lia. }
    apply chunk_entries_lookup in Hx as (_ & -> & _). apply bool_decide_eq_false. lia.
Qed.

Lemma live_not_last l : Forall live l -> any_last l = false.
Proof. intros H. apply any_false. intros x Hx. rewrite list.Forall_forall in H. by apply H in Hx as (_ & ? & _). Qed.

Lemma any_last_app l1 l2 : any_last (l1 ++ l2) = any_last l1 || any_last l2.
Proof. apply existsb_app. Qed.

Lemma take_entry_live ck ck' e b : live e -> take_entry ck e b = take_entry ck' e b.
Proof. intros (H1 & H2 & _). unfold take_entry, entry_add. by rewrite H1, H2. Qed.

Lemma take_entries_live ck ck' es : Forall live es -> forall b, take_entries ck es b = take_entries ck' es b.
Proof.
  induction 1 as [|e es He Hes IH]; intros b; [done|]. unfold take_entries in *. cbn [foldl].
  by rewrite (take_entry_live ck ck' e b He), IH.
Qed.

(** ** The invariant *)

(** The outstanding batch is the queue's first [outN] entries, under the last
    sequence number, within a bound Observe takes. *)
Definition out_ok (c : cursor) : Prop :=
  match c_out c with
  | None => c_outN c = 0%nat /\ c_outCommit c = false
  | Some b =>
    (1 <= c_outN c <= length (c_queue c))%nat /\
    b = batch_of (take_entries (c_chunk c) (take (c_outN c) (c_queue c)) build_start) (c_seq c) /\
    c_outCommit c = any_last (take (c_outN c) (c_queue c)) /\
    batchOverhead + add_all (c_chunk c) (take (c_outN c) (c_queue c)) <= MaxObserveBytes
  end.

(** The queue is live observations, what is left of the pending chunk, and
    live observations learned after it. The trace learned exactly what it had
    acknowledged and what is queued, and up to the chunk's read, what it had
    acknowledged and what is queued up to the chunk's last entry. *)
Definition queue_ok (tr : list label) (c : cursor) : Prop :=
  exists l1 part l2,
    c_queue c = l1 ++ part ++ l2 /\ Forall live l1 /\ Forall live l2 /\ Forall sized (c_queue c) /\
    learned tr = acked tr ++ obs_of (c_queue c) /\
    match c_chunk c with
    | None => part = []
    | Some ch => exists pre tr1 tr2, chunk_entries ch = pre ++ part /\ part <> [] /\
        tr = tr1 ++ LRead ch :: tr2 /\
        learned (tr1 ++ [LRead ch]) = acked tr ++ obs_of (l1 ++ part)
    end.

Definition inv (tr : list label) (c : cursor) : Prop := queue_ok tr c /\ out_ok c.

Lemma learned_snoc tr l : learned (tr ++ [l]) = learned tr ++ learned_of l.
Proof. unfold learned. rewrite map_app, concat_app. cbn. by rewrite app_nil_r. Qed.
Lemma acked_snoc tr l : acked (tr ++ [l]) = acked tr ++ acked_of l.
Proof. unfold acked. rewrite map_app, concat_app. cbn. by rewrite app_nil_r. Qed.

(** A step that queues [es] behind the pending chunk and acknowledges nothing
    keeps the outstanding batch as it was. *)
Lemma out_ok_enqueue es c chunk :
  out_ok c -> (chunk = c_chunk c \/ (c_chunk c = None /\ any_last (c_queue c) = false /\ Forall live (c_queue c))) ->
  out_ok (wakeLocked (enqueue es chunk c)).
Proof.
  unfold out_ok. cbn [wakeLocked enqueue c_out c_outN c_outCommit c_queue c_chunk c_seq].
  destruct (c_out c) as [b|]; [|done].
  intros (Hn & Hb & Hc & Hs) Hck. rewrite take_app_le by lia. rewrite length_app.
  assert (Ht : forall b0, take_entries chunk (take (c_outN c) (c_queue c)) b0
               = take_entries (c_chunk c) (take (c_outN c) (c_queue c)) b0).
  { destruct Hck as [->|(_ & _ & Hl)]; [done|]. apply take_entries_live. by apply Forall_take. }
  rewrite Ht. split_and!; try done; try lia.
  destruct (take_entries_fields chunk (take (c_outN c) (c_queue c)) build_start) as (_ & H1 & _).
  destruct (take_entries_fields (c_chunk c) (take (c_outN c) (c_queue c)) build_start) as (_ & H2 & _).
  rewrite Ht, H2 in H1. lia.
Qed.

Lemma inv_push tr c obs : inv tr c -> inv (tr ++ [LPush obs]) (push obs c).
Proof.
  intros [(l1 & part & l2 & Hq & H1 & H2 & Hs & Hl & Hc) Hout]. destruct (live_entries obs) as [Hlive Hsized].
  split; [|by apply out_ok_enqueue; [|left]].
  exists l1, part, (l2 ++ map live_entry obs). cbn [push wakeLocked enqueue c_queue c_chunk].
  rewrite learned_snoc, acked_snoc, Hl. cbn [learned_of acked_of]. split_and!.
  - rewrite Hq. by rewrite <- !app_assoc.
  - done.
  - by apply Forall_app.
  - by apply Forall_app.
  - by rewrite obs_of_app, obs_of_live, app_nil_r, app_assoc.
  - destruct (c_chunk c) as [ch|]; [|done]. destruct Hc as (pre & tr1 & tr2 & He & Hn & -> & Hr).
    exists pre, tr1, (tr2 ++ [LPush obs]). split_and!; try done.
    + by rewrite <- app_assoc.
    + by rewrite app_nil_r.
Qed.

Lemma inv_read tr c ch c' : inv tr c -> store ch c = (c', true) -> inv (tr ++ [LRead ch]) c'.
Proof.
  intros [(l1 & part & l2 & Hq & H1 & H2 & Hs & Hl & Hc) Hout] Hst. unfold store in Hst.
  destruct (empty_chunk ch); [done|]. destruct (c_chunk c) eqn:Ech; [done|]. injection Hst as <-. subst part.
  assert (Hlive : Forall live (c_queue c)) by (rewrite Hq; cbn; by apply Forall_app).
  split.
  - exists (c_queue c), (chunk_entries ch), []. cbn [wakeLocked enqueue c_queue c_chunk].
    rewrite learned_snoc, acked_snoc, Hl, app_nil_r. cbn [learned_of acked_of]. rewrite app_nil_r. split_and!.
    + done.
    + done.
    + done.
    + apply Forall_app. split; [done|apply chunk_entries_sized].
    + by rewrite obs_of_app, chunk_entries_obs, app_assoc.
    + exists [], tr, []. split_and!; [done|apply chunk_entries_nonnil|done|].
      rewrite learned_snoc, Hl. cbn [learned_of]. by rewrite obs_of_app, chunk_entries_obs, app_assoc.
  - apply out_ok_enqueue; [done|]. right. split_and!; [done|by apply live_not_last|done].
Qed.

Lemma queue_ok_label tr c c' l : queue_ok tr c -> c_queue c' = c_queue c -> c_chunk c' = c_chunk c ->
  learned_of l = [] -> acked_of l = [] -> queue_ok (tr ++ [l]) c'.
Proof.
  intros (l1 & part & l2 & Hq & H1 & H2 & Hs & Hl & Hc) Eq Ec El Ea. exists l1, part, l2.
  rewrite Eq, Ec, learned_snoc, acked_snoc, El, Ea, !app_nil_r. split_and!; try done.
  destruct (c_chunk c) as [ch|]; [|done]. destruct Hc as (pre & tr1 & tr2 & He & Hn & -> & Hr).
  exists pre, tr1, (tr2 ++ [l]). split_and!; try done. by rewrite <- app_assoc.
Qed.

Lemma inv_build tr c maxBytes c' r : inv tr c -> buildLocked maxBytes c = (c', r) ->
  maxBytes <= MaxObserveBytes -> batchOverhead <= maxBytes ->
  negb (is_none (c_out c)) || negb (is_nil (c_queue c)) = true -> inv (tr ++ [LBuild r]) c'.
Proof.
  intros [Hqk Hout] Hb Hmax Hmin Hne. unfold buildLocked in Hb.
  destruct (c_out c) as [b|] eqn:Eout.
  { injection Hb as <- <-. split; [by eapply queue_ok_label|]. exact Hout. }
  destruct (build_loop maxBytes (c_chunk c) (c_queue c) build_start) as [bl|e] eqn:El; injection Hb as <- <-.
  - split; [by eapply queue_ok_label|].
    apply build_loop_Ok in El as (n & Hn & Hbl & Hsz & Hpos).
    destruct (take_entries_fields (c_chunk c) (take n (c_queue c)) build_start) as (F1 & F2 & F3 & F4).
    rewrite <- Hbl in F1, F2, F3, F4. cbn in F3. rewrite length_take, Nat.min_l in F3 by done.
    assert (1 <= n)%nat by (apply Hpos; [done|]; by destruct (c_queue c)).
    unfold out_ok. cbn [c_out c_outN c_outCommit c_queue c_chunk c_seq]. rewrite F3, <- Hbl, F4. split_and!; try done; try lia.
    cbn in F2. specialize (Hsz Hmin). unfold add_all in *. lia.
  - split; [by eapply queue_ok_label|]. done.
Qed.

(** Acknowledging the first [n] entries of a queue: the pending chunk's last
    entry is among them exactly when none of the chunk is left. *)
Lemma drop_parts n l1 part l2 ch pre :
  Forall live l1 -> Forall live l2 -> chunk_entries ch = pre ++ part -> part <> [] ->
  if any_last (take n (l1 ++ part ++ l2))
  then exists l2' d, drop n (l1 ++ part ++ l2) = l2' /\ Forall live l2' /\
         take n (l1 ++ part ++ l2) = l1 ++ part ++ d /\ l2 = d ++ l2'
  else exists l1' pre' part' d, drop n (l1 ++ part ++ l2) = l1' ++ part' ++ l2 /\ Forall live l1' /\
         chunk_entries ch = pre' ++ part' /\ part' <> [] /\ take n (l1 ++ part ++ l2) = d /\
         l1 ++ part = d ++ l1' ++ part'.
Proof.
  intros H1 H2 He Hn. destruct (decide (length (l1 ++ part) <= n)%nat) as [Hle|Hgt].
  - rewrite app_assoc, take_app_ge, drop_app_ge, any_last_app, any_last_app by done.
    destruct (suffix_last ch pre part He Hn) as (p' & e & -> & Hlast & _).
    rewrite any_last_app. cbn. rewrite Hlast, !orb_true_r. cbn.
    exists (drop (n - length (l1 ++ p' ++ [e])) l2), (take (n - length (l1 ++ p' ++ [e])) l2). split_and!.
    + done.
    + by apply Forall_drop.
    + by rewrite <- app_assoc.
    + by rewrite take_drop.
  - assert (Hlt : (n < length (l1 ++ part))%nat) by lia. rewrite app_assoc.
    rewrite take_app_le, drop_app_le by lia.
    assert (Hno : any_last (take n (l1 ++ part)) = false).
    { destruct (suffix_last ch pre part He Hn) as (p' & e & -> & _ & Hp'). rewrite app_assoc in *.
      rewrite length_app in Hlt. cbn in Hlt. rewrite take_app_le by lia. apply any_false. intros x Hx.
      assert (Hx' : x ∈ l1 ++ p') by (rewrite <- (take_drop n (l1 ++ p')); apply elem_of_app; by left).
      assert (Hall : any_last (l1 ++ p') = false) by (rewrite any_last_app, (live_not_last l1 H1); done).
      by apply (proj1 (any_false _ _) Hall). }
    rewrite Hno. destruct (decide (n <= length l1)%nat) as [Hl1|Hl1].
    + exists (drop n l1), pre, part, (take n (l1 ++ part)). rewrite drop_app_le, take_app_le by lia. split_and!; try done.
      * by rewrite <- app_assoc.
      * by apply Forall_drop.
      * by rewrite app_assoc, take_drop.
    + exists [], (pre ++ take (n - length l1) part), (drop (n - length l1) part), (take n (l1 ++ part)).
      rewrite drop_app_ge, take_app_ge by lia. cbn. split_and!; try done.
      * by rewrite <- app_assoc, take_drop.
      * intros Hd. apply (f_equal length) in Hd. rewrite length_drop in Hd. rewrite length_app in Hlt. cbn in Hd. lia.
      * by rewrite <- app_assoc, take_drop.
Qed.

Lemma inv_ack tr c b c' commit : inv tr c -> c_out c = Some b -> ack (b_id b) c = (c', Ok commit) ->
  inv (tr ++ [LAcked b commit]) c'.
Proof.
  intros [(l1 & part & l2 & Hq & H1 & H2 & Hs & Hl & Hc) Hout] Ho Ha. unfold ack in Ha.
  unfold out_ok in Hout. rewrite Ho in Hout, Ha. rewrite String.eqb_refl in Ha. injection Ha as <- _.
  destruct Hout as (Hn & Hb & Hcm & _). split; [|done].
  assert (Hitems : b_items b = obs_of (take (c_outN c) (c_queue c))).
  { rewrite Hb. destruct (take_entries_fields (c_chunk c) (take (c_outN c) (c_queue c)) build_start) as (F & _). exact F. }
  assert (Hsplit : obs_of (c_queue c) = b_items b ++ obs_of (drop (c_outN c) (c_queue c))).
  { by rewrite Hitems, <- obs_of_app, take_drop. }
  assert (Hsz : Forall sized (drop (c_outN c) (c_queue c))) by (by apply Forall_drop).
  unfold queue_ok. cbn [wakeLocked c_queue c_chunk].
  rewrite learned_snoc, acked_snoc. cbn [learned_of acked_of]. rewrite app_nil_r.
  destruct (c_chunk c) as [ch|] eqn:Ech.
  - destruct Hc as (pre & tr1 & tr2 & He & Hne & -> & Hr).
    pose proof (drop_parts (c_outN c) l1 part l2 ch pre H1 H2 He Hne) as Hd. rewrite <- Hq, <- Hcm in Hd.
    destruct (c_outCommit c).
    + destruct Hd as (l2' & d & Hdrop & Hl2' & _ & _). exists [], [], l2'. cbn [app].
      rewrite Hdrop in *. split_and!; try done. by rewrite Hl, Hsplit, app_assoc.
    + destruct Hd as (l1' & pre' & part' & d & Hdrop & Hl1' & He' & Hne' & Htake & Hd).
      exists l1', part', l2. rewrite Hdrop in *. split_and!; try done; [by rewrite Hl, Hsplit, app_assoc|].
      exists pre', tr1, (tr2 ++ [LAcked b commit]). split_and!; try done; [by rewrite <- app_assoc|].
      rewrite Hr, Hd, obs_of_app, Hitems, Htake. by rewrite app_assoc.
  - subst part. exists [], [], (drop (c_outN c) (c_queue c)). cbn [app]. destruct (c_outCommit c); (split_and!; try done;
      [rewrite Hq; apply Forall_drop; by apply Forall_app | by rewrite Hl, Hsplit, app_assoc]).
Qed.

Lemma inv_step tr c l c' : inv tr c -> step c l c' -> inv (tr ++ [l]) c'.
Proof.
  intros Hi. inversion 1; subst.
  - by apply inv_push.
  - by eapply inv_read.
  - eapply inv_build; [done|done|lia| |done]. change batchOverhead with 256. change MinObserveBytes with 65536 in *. lia.
  - by eapply inv_ack.
  - destruct Hi as [Hq Ho]. split; [by eapply queue_ok_label|done].
Qed.

Lemma inv_init e : inv [] (newCursor e).
Proof. split; [|done]. by exists [], [], []. Qed.

Lemma inv_reachable e tr c : steps (newCursor e) tr c -> inv tr c.
Proof.
  intros H. remember (newCursor e) as c0. induction H as [|? tr c l c' _ IH Hstep]; subst; [apply inv_init|].
  eapply inv_step; [by apply IH|done].
Qed.

(** ** Order and completeness *)

(** C8: over every run of the cursor — pushes, reads, Observes and
    acknowledgements in any interleaving — what was acknowledged followed by
    what is queued is what was learned: each observation is delivered once, in
    the order it was learned, and none is lost. *)
Theorem delivered_in_order e tr c (H : steps (newCursor e) tr c) :
  learned tr = acked tr ++ obs_of (c_queue c).
Proof. by destruct (inv_reachable e tr c H) as [(? & ? & ? & _ & _ & _ & _ & ? & _) _]. Qed.

Lemma take_entries_checkpoint chunk es : forall b,
  bl_checkpoint (take_entries chunk es b) =
  if any_last es then match chunk with Some ch => ch_checkpoint ch | None => bl_checkpoint b end
  else bl_checkpoint b.
Proof.
  induction es as [|e es IH]; intros b; [done|].
  change (take_entries chunk (e :: es) b) with (take_entries chunk es (take_entry chunk e b)).
  rewrite IH. unfold any_last, any. cbn [existsb take_entry bl_checkpoint].
  destruct (e_last e), (existsb e_last es), chunk; done.
Qed.

(** What acknowledging the outstanding batch of a reachable cursor commits: the
    pending chunk, once all it and what came before it held is acknowledged. *)
Lemma ack_commits tr c b c' commit ch :
  inv tr c -> c_out c = Some b -> ack (b_id b) c = (c', Ok commit) ->
  commit = Some ch \/ (b_checkpoint b <> None /\ c_chunk c = Some ch) ->
  commit = Some ch /\ b_checkpoint b = ch_checkpoint ch /\
  exists tr1 tr2, tr = tr1 ++ LRead ch :: tr2 /\
    learned (tr1 ++ [LRead ch]) `prefix_of` acked tr ++ b_items b.
Proof.
  intros [(l1 & part & l2 & Hq & H1 & H2 & Hs & Hl & Hc) Hout] Ho Ha Hcase. unfold ack in Ha.
  unfold out_ok in Hout. rewrite Ho in Hout, Ha. rewrite String.eqb_refl in Ha. injection Ha as _ <-.
  destruct Hout as (Hn & Hb & Hcm & _).
  assert (Hcp : b_checkpoint b = if c_outCommit c then match c_chunk c with Some ch => ch_checkpoint ch | None => None end else None).
  { rewrite Hb, Hcm. cbn [batch_of b_checkpoint]. apply take_entries_checkpoint. }
  assert (Hit : b_items b = obs_of (take (c_outN c) (c_queue c))).
  { rewrite Hb. destruct (take_entries_fields (c_chunk c) (take (c_outN c) (c_queue c)) build_start) as (F & _). exact F. }
  rewrite Hcp in Hcase. destruct (c_outCommit c); [|destruct Hcase as [?|[? ?]]; congruence].
  assert (Hch : c_chunk c = Some ch) by (destruct Hcase as [?|[? ?]]; done). rewrite Hch in *. split_and!; [done|done|].
  destruct Hc as (pre & tr1 & tr2 & He & Hne & -> & Hr). exists tr1, tr2. split; [done|].
  pose proof (drop_parts (c_outN c) l1 part l2 ch pre H1 H2 He Hne) as Hd. rewrite <- Hq, <- Hcm in Hd.
  destruct Hd as (l2' & d & _ & _ & Htake & _). rewrite Hr, Hit, Htake. exists (obs_of d).
  by rewrite !obs_of_app, <- !app_assoc.
Qed.

Lemma steps_snoc_inv c0 tr l c' : steps c0 (tr ++ [l]) c' -> exists c, steps c0 tr c /\ step c l c'.
Proof.
  intros H. remember (tr ++ [l]) as tr' eqn:E. destruct H as [|? tr0 c l0 c' H Hs]; [by destruct tr|].
  apply app_inj_tail in E as [-> ->]. eauto.
Qed.

Lemma step_acked_inv c b commit c' : step c (LAcked b commit) c' ->
  c_out c = Some b /\ ack (b_id b) c = (c', Ok commit).
Proof. by inversion 1. Qed.

(** C9: a batch that carries a checkpoint is acknowledged only with, or after,
    every observation learned up to the last item of the chunk it is of: the
    checkpoint never covers an item the Supervisor has not committed. That
    chunk, and no other, is what the reader is then told to move past. *)
Theorem checkpoint_covers_acked e tr b commit c
  (H : steps (newCursor e) (tr ++ [LAcked b commit]) c) (Hcp : b_checkpoint b <> None \/ commit <> None) :
  exists ch tr1 tr2, tr = tr1 ++ LRead ch :: tr2 /\ commit = Some ch /\
    b_checkpoint b = ch_checkpoint ch /\
    learned (tr1 ++ [LRead ch]) `prefix_of` acked (tr ++ [LAcked b commit]).
Proof.
  apply steps_snoc_inv in H as (c1 & H0 & (Ho & Ha)%step_acked_inv). pose proof (inv_reachable _ _ _ H0) as Hi.
  assert (Hch : exists ch, commit = Some ch \/ (b_checkpoint b <> None /\ c_chunk c1 = Some ch)).
  { destruct Hcp as [Hcp|Hcp]; [|by destruct commit as [ch|]; [exists ch; left|]].
    destruct (c_chunk c1) as [ch|] eqn:E; [by exists ch; right|]. exfalso. apply Hcp.
    destruct Hi as [_ Hout]. unfold out_ok in Hout. rewrite Ho in Hout. destruct Hout as (_ & -> & _).
    cbn [batch_of b_checkpoint]. rewrite take_entries_checkpoint, E. by destruct (any_last _). }
  destruct Hch as [ch Hch].
  destruct (ack_commits tr c1 b c commit ch Hi Ho Ha Hch) as (Hc & Hcpe & tr1 & tr2 & Htr & Hp).
  exists ch, tr1, tr2. rewrite acked_snoc. done.
Qed.

(** ** The byte bound *)

Definition sum_of {A} (f : A -> Z) (l : list A) : Z := foldr (fun x n => f x + n) 0 l.

Definition cp_add (chunk : option Chunk) (es : list entry) : Z :=
  sum_of (fun e => default 0 (checkpointSize <$> (if e_last e then chunk ≫= ch_checkpoint else None))) es.

Lemma entry_add_eq chunk e : entry_add chunk e =
  e_size e + 1 + default 0 (checkpointSize <$> (if e_last e then chunk ≫= ch_checkpoint else None)).
Proof. unfold entry_add. by destruct (if e_last e then _ else _). Qed.

Lemma add_all_split chunk es : Forall sized es ->
  add_all chunk es = sum_of encodedSize (obs_of es) + sum_of metaSize (omap e_meta es) + llen es + cp_add chunk es.
Proof.
  induction 1 as [|e es He Hes IH]; [done|]. unfold add_all, cp_add, sum_of in *. cbn [foldr].
  rewrite IH, entry_add_eq, He. unfold obs_of. cbn [omap list_omap length].
  destruct (e_obs e), (e_meta e); cbn; lia.
Qed.

Lemma checkpointSize_nonneg cp : 0 <= checkpointSize cp.
Proof. apply marshal_len_nonneg. Qed.

Lemma cp_add_ge chunk es : 0 <= cp_add chunk es /\
  (any_last es = true -> forall cp, chunk ≫= ch_checkpoint = Some cp -> checkpointSize cp <= cp_add chunk es).
Proof.
  induction es as [|e es [IH1 IH2]]; [done|].
  change (cp_add chunk (e :: es)) with
    (default 0 (checkpointSize <$> (if e_last e then chunk ≫= ch_checkpoint else None)) + cp_add chunk es).
  unfold any_last, any in *. cbn [existsb].
  assert (Hnn : forall o : option Checkpoint, 0 <= default 0 (checkpointSize <$> o)).
  { intros [cp|]; [apply checkpointSize_nonneg|done]. }
  split.
  - match goal with |- context [checkpointSize <$> ?o] => specialize (Hnn o) end. lia.
  - intros H cp Hcp. rewrite Hcp. destruct (e_last e); cbn [orb] in H.
    + change (default 0 (checkpointSize <$> Some cp)) with (checkpointSize cp). lia.
    + specialize (IH2 H cp Hcp). specialize (Hnn None). lia.
Qed.

(** At most one chunk's reset, rescan and faults are queued. *)
Lemma omap_live l : Forall live l -> omap e_meta l = [].
Proof. induction 1 as [|e l (He & _) _ IH]; [done|]. cbn. by rewrite He. Qed.

Lemma chunk_entries_meta ch : omap e_meta (chunk_entries ch) = [ch].
Proof.
  unfold chunk_entries. destruct (ch_items ch) as [|o l]; [done|].
  cbn [imap omap list_omap chunk_entry e_meta]. rewrite bool_decide_true by done. f_equal.
  apply elem_of_nil_inv. intros x. rewrite list_elem_of_omap. intros (e & He & Hm).
  apply list_elem_of_lookup in He as [i Hi]. apply list_lookup_imap_Some in Hi as (y & _ & ->). done.
Qed.

Lemma queue_meta tr c : queue_ok tr c -> (length (omap e_meta (c_queue c)) <= 1)%nat.
Proof.
  intros (l1 & part & l2 & -> & H1 & H2 & _ & _ & Hc).
  rewrite !omap_app, (omap_live l1), (omap_live l2), app_nil_r by done. cbn [app].
  destruct (c_chunk c) as [ch|]; [|subst; cbn; lia]. destruct Hc as (pre & _ & _ & He & _).
  pose proof (chunk_entries_meta ch) as Hm. rewrite He, omap_app in Hm. apply (f_equal length) in Hm.
  rewrite length_app in Hm. cbn in Hm. lia.
Qed.

Lemma take_entries_meta chunk es : forall b,
  match omap e_meta es with
  | [] => bl_reset (take_entries chunk es b) = bl_reset b /\ bl_rescan (take_entries chunk es b) = bl_rescan b /\
          bl_faults (take_entries chunk es b) = bl_faults b
  | [m] => bl_reset (take_entries chunk es b) = ch_reset m /\ bl_rescan (take_entries chunk es b) = ch_rescan m /\
           bl_faults (take_entries chunk es b) = bl_faults b ++ ch_faults m
  | _ => True
  end.
Proof.
  induction es as [|e es IH]; intros b; [done|].
  change (take_entries chunk (e :: es) b) with (take_entries chunk es (take_entry chunk e b)).
  specialize (IH (take_entry chunk e b)). cbn [omap list_omap take_entry bl_reset bl_rescan bl_faults] in *.
  destruct (e_meta e); [|done]. destruct (omap e_meta es); [done|]. done.
Qed.

Lemma obj_len_le l s : marshal (JObj l) = Some s -> slen s <= 2 + fields_len l + llen l.
Proof. intros H. apply obj_len in H. lia. Qed.

Lemma meta_fields_le ch : fields_len (meta_fields (ch_reset ch) (ch_rescan ch) (ch_faults ch)) <= metaSize ch \/
  marshal (JObj (meta_fields (ch_reset ch) (ch_rescan ch) (ch_faults ch))) = None.
Proof.
  unfold metaSize, marshal_len.
  destruct (marshal (JObj (meta_fields _ _ _))) as [s|] eqn:E; [left|by right]. apply obj_len in E. lia.
Qed.

Lemma escape_len bs : slen (escape bs) <= 6 * llen bs.
Proof.
  assert (Hh : forall n, slen (hexdigit n) <= 1).
  { intros n. unfold hexdigit. generalize (Z.to_nat n) as k. intros k.
    do 17 (destruct k as [|k]; [by vm_compute|]). by destruct k. }
  assert (Hb : forall b, slen (escape_byte b) <= 6).
  { intros b. unfold escape_byte. repeat match goal with |- context [if ?x then _ else _] => destruct x end;
      try (by vm_compute). rewrite !slen_app. pose proof (Hh (b / 16)). pose proof (Hh (b mod 16)).
    change (slen "\u00") with 4. lia. }
  assert (Hs : forall b, slen (byte_string b) = 1) by done.
  assert (H : forall n bs, (length bs <= n)%nat -> slen (escape bs) <= 6 * llen bs).
  { clear bs. induction n as [|n IH]; intros bs Hn; [by destruct bs; [|cbn in Hn; lia]|].
    destruct bs as [|b0 t0]; [done|]. cbn [escape length] in *. pose proof (IH t0 ltac:(lia)) as H0.
    destruct (b0 <? 128); [rewrite slen_app; specialize (Hb b0); lia|].
    destruct t0 as [|b1 t1]; [done|]. cbn [length] in *. change (slen "\ufffd") with 6 in *.
    destruct (_ && _); [rewrite !slen_app, !Hs; pose proof (IH t1 ltac:(lia)); lia|].
    destruct t1 as [|b2 t2]; [rewrite slen_app; change (slen "\ufffd") with 6; lia|]. cbn [length] in *.
    destruct (_ && _).
    { rewrite slen_app. pose proof (IH t2 ltac:(lia)). destruct (_ && _ && _); rewrite !slen_app, ?Hs; [|lia].
      specialize (Hh (b2 - 160)). change (slen "\u202") with 5. lia. }
    destruct t2 as [|b3 t3]; [rewrite slen_app; change (slen "\ufffd") with 6; cbn [length] in *; lia|]. cbn [length] in *.
    destruct (_ && _ && _); [rewrite !slen_app, !Hs; pose proof (IH t3 ltac:(lia)); lia|].
    rewrite slen_app. change (slen "\ufffd") with 6. lia. }
  by apply (H (length bs)).
Qed.

Lemma quoted_len s : slen (quoted s) <= 2 + 6 * slen s.
Proof.
  unfold quoted. rewrite !slen_app. pose proof (escape_len (bytes s)) as H. rewrite <- slen_bytes in H.
  change (slen quote) with 1. lia.
Qed.

Lemma obj_sub l l' s : marshal (JObj l) = Some s -> (forall x, x ∈ l' -> x ∈ l) -> is_Some (marshal (JObj l')).
Proof.
  intros H Hsub. cbn [marshal]. apply fmap_is_Some, mapM_is_Some, list.Forall_forall. intros [k v] Hx.
  apply fmap_is_Some. eapply obj_field; [exact H|]. by apply Hsub.
Qed.

Lemma sum_of_map {A B} (f : B -> Z) (g : A -> B) l : foldr (fun x n => f x + n) 0 (map g l) = sum_of (fun x => f (g x)) l.
Proof. induction l as [|x l IH]; cbn; [done|]. by rewrite IH. Qed.

(** A batch built from entries [es]: its encoding is within what the loop
    counted. *)
Lemma batch_len chunk es seq s :
  Forall sized es -> (length (omap e_meta es) <= 1)%nat -> 0 <= seq < 2 ^ 63 ->
  marshal (Batch_json (batch_of (take_entries chunk es build_start) seq)) = Some s ->
  slen s <= batchOverhead + add_all chunk es.
Proof.
  intros Hsz Hone Hseq Hm. set (b := batch_of _ seq) in *. rewrite (add_all_split chunk es Hsz).
  pose proof (cp_add_ge chunk es) as [Hcp0 Hcp].
  assert (Hcpl : forall cp, b_checkpoint b = Some cp -> checkpointSize cp <= cp_add chunk es).
  { intros cp. unfold b. cbn [batch_of b_checkpoint]. rewrite take_entries_checkpoint.
    destruct (any_last es) eqn:El; [|done]. destruct chunk as [ch|]; [|done]. intros E. by apply Hcp. }
  assert (Hitems : b_items b = obs_of es) by (by destruct (take_entries_fields chunk es build_start) as (F & _)).
  assert (Hlen : llen (obs_of es) <= llen es).
  { clear. induction es as [|e es IH]; [done|]. unfold obs_of in *. cbn [omap list_omap]. destruct (e_obs e); cbn [length]; lia. }
  assert (Hmeta : fields_len (meta_fields (b_reset b) (b_rescan b) (b_faults b)) <= sum_of metaSize (omap e_meta es)).
  { pose proof (take_entries_meta chunk es build_start) as Ht. unfold b. cbn [batch_of b_reset b_rescan b_faults].
    destruct (omap e_meta es) as [|m [|]]; [by destruct Ht as (-> & -> & ->)| |cbn in Hone; lia].
    destruct Ht as (Hr & Hrs & Hf). rewrite Hr, Hrs, Hf. cbn [build_start bl_faults app sum_of foldr].
    destruct (meta_fields_le m) as [?|Hnone]; [lia|]. exfalso.
    eapply (obj_sub _ (meta_fields (ch_reset m) (ch_rescan m) (ch_faults m))) in Hm as [? ?]; [congruence|].
    intros x Hx. unfold b. cbn [batch_of b_reset b_rescan b_faults]. rewrite Hr, Hrs, Hf.
    rewrite !elem_of_app. auto. }
  assert (Harr : forall a, marshal (JArr (map Observation_json (b_items b))) = Some a ->
            slen a <= 2 + sum_of encodedSize (obs_of es) + llen es).
  { intros a Ha. apply arr_len in Ha. rewrite Hitems, sum_of_map, length_map in Ha. unfold encodedSize. lia. }
  assert (Hid : slen (quoted (batch_id seq)) <= 128).
  { etrans; [apply quoted_len|]. unfold batch_id. rewrite slen_app.
    assert (slen (Itoa seq) <= 20) by (apply Itoa_len; lia). change (slen "b") with 1. lia. }
  destruct (obj_field _ _ "items" (JArr (map Observation_json (b_items b))) Hm) as [a Ha].
  { rewrite !elem_of_app, elem_of_cons. auto. }
  specialize (Harr a Ha). apply obj_len_le in Hm.
  rewrite !fields_len_app, !length_app in Hm. unfold omit_str, omit_bool, omitempty in Hm.
  change (b_id b =s? "") with false in Hm. change (negb (b_end b)) with true in Hm. cbn [length] in Hm.
  assert (Hml : (length (meta_fields (b_reset b) (b_rescan b) (b_faults b)) <= 3)%nat).
  { unfold meta_fields, omit_nil, omit_arr. destruct (b_reset b), (b_rescan b), (b_faults b); cbn; lia. }
  assert (Hcpf : fields_len (omit_nil Checkpoint_json "checkpoint" (b_checkpoint b)) <= 16 + cp_add chunk es /\
                 (length (omit_nil Checkpoint_json "checkpoint" (b_checkpoint b)) <= 1)%nat).
  { destruct (b_checkpoint b) as [cp|]; [|cbn; lia]. specialize (Hcpl cp eq_refl).
    unfold omit_nil, fields_len. cbn [foldr length]. fold (checkpointSize cp).
    change (slen (quoted "checkpoint")) with 12. lia. }
  assert (Hbid : fields_len [("batch_id"%string, JStr (b_id b))] <= 144).
  { cbn -[quoted]. change (marshal_len (JStr (b_id b))) with (slen (quoted (batch_id seq))).
    change (slen (quoted "batch_id")) with 10. lia. }
  assert (Hif : fields_len [("items"%string, JArr (map Observation_json (b_items b)))] = 8 + slen a).
  { unfold fields_len. cbn [foldr]. unfold marshal_len. rewrite Ha. change (slen (quoted "items")) with 7. lia. }
  change (fields_len []) with 0 in Hm. unfold batchOverhead. lia.
Qed.


(** ** Acknowledgement and replay *)

Lemma read_out reader c c' r : read reader c = (c', r) ->
  c_out c' = c_out c /\ c_lastAcked c' = c_lastAcked c /\ c_endOfRec c' = c_endOfRec c.
Proof.
  unfold read, store. destruct (read_pending c); [by intros [= <- <-]|].
  destruct reader as [[ch|e]|]; [|by intros [= <- <-]..].
  destruct (empty_chunk ch); [by intros [= <- <-]|]. destruct (c_chunk c); by intros [= <- <-].
Qed.

Definition reader_fails (p : poll) : bool :=
  match p_reader p with Some (Err _) => true | _ => false end.

Lemma read_fails p c : reader_fails p = false -> exists c' more, read (p_reader p) c = (c', Ok more).
Proof.
  unfold reader_fails, read. destruct (p_reader p) as [[ch|e]|]; [intros _|done|intros _];
    destruct (read_pending c); eauto. destruct (store ch c); eauto.
Qed.

(** until its batch is acknowledged, Observe returns it again, unchanged
    and whatever bound it is given. Acknowledging it is accepted and ends it;
    acknowledging it again is accepted and changes nothing; any other id is
    refused as unexpected and changes nothing. *)
Theorem outstanding_batch_replayed_until_acked c b wait maxBytes p ps
  (Hout : c_out c = Some b) (Hobs : c_observing c = false) (Hid : b_id b <> ""%string)
  (Hwait : 0 <= wait <= MaxObserveWait) (Hmax : MinObserveBytes <= maxBytes <= MaxObserveBytes)
  (Hread : reader_fails p = false) :
  (exists c', observe wait maxBytes (p :: ps) c = (c', Some (Ok b)) /\ c_out c' = Some b) /\
  (exists c1 commit, ack (b_id b) c = (c1, Ok commit) /\ c_out c1 = None /\ ack (b_id b) c1 = (c1, Ok None)) /\
  (forall id, id <> b_id b -> id = ""%string \/ id <> c_lastAcked c -> ack id c = (c, Err (Errorf CodeUnexpected))).
Proof.
  split_and!.
  - unfold observe, observe_begin. rewrite Hobs.
    destruct (Z.ltb_spec wait 0), (Z.ltb_spec MaxObserveWait wait), (Z.ltb_spec maxBytes MinObserveBytes),
      (Z.ltb_spec MaxObserveBytes maxBytes); try lia. cbn [orb observe_loop]. unfold observe_turn.
    destruct (read_fails p (set_observing true c) Hread) as (c' & more & Hr). rewrite Hr.
    apply read_out in Hr as (Ho & _ & _). cbn in Ho. rewrite Ho, Hout. cbn [is_none negb orb].
    unfold buildLocked. rewrite Ho, Hout. eexists. split; [done|]. cbn. by rewrite Ho.
  - unfold ack at 1. rewrite Hout, String.eqb_refl. eexists _, _. split_and!; [done|done|].
    unfold ack. cbn [wakeLocked c_out c_lastAcked]. rewrite String.eqb_refl.
    apply String.eqb_neq in Hid. by rewrite Hid.
  - intros id Hne Hor. unfold ack. rewrite Hout.
    rewrite (proj2 (String.eqb_neq (b_id b) id)) by congruence.
    destruct Hor as [->|Hl]; [done|]. rewrite (proj2 (String.eqb_neq id _) Hl). by rewrite andb_false_r.
Qed.

(** a refusal to build names the bytes it needs: it leaves the cursor as
    it was, and a bound of that many bytes or more yields a batch. *)
Theorem batch_too_large_required c maxBytes c' e (H : buildLocked maxBytes c = (c', Err e)) :
  c' = c /\ e_code e = CodeBatchTooLarge /\ maxBytes < e_required e /\
  forall maxBytes', e_required e <= maxBytes' ->
    exists c'' b, buildLocked maxBytes' c = (c'', Ok b) /\ (1 <= c_outN c'')%nat.
Proof.
  unfold buildLocked in *. destruct (c_out c); [done|].
  destruct (build_loop maxBytes (c_chunk c) (c_queue c) build_start) as [|e'] eqn:El; [done|].
  injection H as <- <-. apply build_loop_Err in El as (x & q & Hq & _ & Hlt & ->). split_and!; try done.
  intros maxBytes' Hge. cbn [batchTooLarge e_required] in Hge.
  destruct (build_loop maxBytes' (c_chunk c) (c_queue c) build_start) as [bl|e'] eqn:El'.
  - eexists _, _. split; [done|]. cbn. apply build_loop_Ok in El' as (n & Hn & -> & _ & Hpos).
    destruct (take_entries_fields (c_chunk c) (take n (c_queue c)) build_start) as (_ & _ & -> & _).
    rewrite length_take. cbn [bl_n build_start]. specialize (Hpos eq_refl). rewrite Hq in *. cbn [length] in *.
    specialize (Hpos ltac:(done)). lia.
  - apply build_loop_Err in El' as (x' & q' & Hq' & _ & Hlt' & _). rewrite Hq in Hq'. injection Hq' as <- <-. lia.
Qed.

(** the net under the batch bound has a hole of one byte. An observation
    of MaxObserveBytes - batchOverhead encoded bytes passes bound unchanged, but
    buildLocked counts one more byte for it: pushed, it blocks the queue for
    good, since Observe refuses the bound it asks for as out of range. *)
Theorem bound_off_by_one o maxBytes
  (Ho : encodedSize o = MaxObserveBytes - batchOverhead) (Hmax : maxBytes <= MaxObserveBytes) :
  bound o = o /\
  snd (buildLocked maxBytes (push [o] (newCursor false))) = Err (batchTooLarge (MaxObserveBytes + 1)).
Proof.
  assert (Hb : bound o = o).
  { unfold bound. rewrite Ho. destruct (Z.leb_spec (MaxObserveBytes - batchOverhead + batchOverhead) MaxObserveBytes); [done|lia]. }
  split; [done|]. unfold buildLocked, push, newCursor, live_entry.
  cbn [map wakeLocked enqueue c_out c_chunk c_queue app build_loop]. rewrite Hb, Ho.
  unfold entry_add. cbn [e_size e_last build_start bl_size bl_n].
  replace (batchOverhead + (MaxObserveBytes - batchOverhead + 1 + 0)) with (MaxObserveBytes + 1) by lia.
  destruct (Z.ltb_spec maxBytes (MaxObserveBytes + 1)); [done|lia].
Qed.

(** when settled says so, everything the cursor learned was acknowledged,
    and its reader, asked then, had nothing more. *)
Lemma settled_acked e tr c reader c' :
  steps (newCursor e) tr c -> settled reader c = (c', true) ->
  learned tr = acked tr /\ c_out c = None /\ c_chunk c = None /\ c' = c /\
  (reader = None \/ exists ch, reader = Some (Ok ch) /\ empty_chunk ch = true).
Proof.
  intros H Hs.
  destruct (inv_reachable e tr c H) as [(? & ? & ? & _ & _ & _ & _ & Hl & _) _].
  unfold settled, settled_now in Hs.
  destruct (c_out c) eqn:E1; [done|]. destruct (c_queue c) eqn:E2; [|done]. destruct (c_chunk c) eqn:E3; [done|].
  cbn in Hs. unfold read, read_pending in Hs. rewrite E3 in Hs. cbn in Hs. rewrite Hl. cbn. rewrite app_nil_r.
  destruct reader as [[ch|err]|]; [|done|injection Hs as <-; split_and!; auto].
  unfold store in Hs. destruct (empty_chunk ch) eqn:Ee; [|by rewrite E3 in Hs].
  injection Hs as <-. split_and!; try done. eauto.
Qed.

(** The cursor is such a log: settled when its reader, asked then, has nothing
    more. *)
#[export] Instance cursor_log : ObservationLog cursor label := {|
  log_new := newCursor false;
  log_step := step;
  log_push := push;
  log_pushed := LPush;
  log_kept := bound;
  log_learned := learned_of;
  log_acked := acked_of;
  log_settled c := exists reader c', settled reader c = (c', true);
|}.

Lemma cursor_log_run tr c : log_run tr c -> steps (newCursor false) tr c.
Proof. induction 1; [apply steps_nil|by eapply steps_snoc]. Qed.

#[export] Instance cursor_log_laws : ObservationLogLaws cursor label.
Proof.
  constructor.
  - intros obs c. apply step_push.
  - done.
  - intros tr c H (reader & c' & Hs). apply cursor_log_run in H. by destruct (settled_acked _ _ _ _ _ H Hs) as [? _].
Qed.

(** ** A run: a live observation, a chunk of two items with its checkpoint,
    one batch, its acknowledgement *)

Definition demo_obs (key : string) (origin : Origin) : Observation :=
  mkObservation (ObservationID KindUserInput key) KindUserInput origin (mkTime 1700000000000000000 0)
    "t_i1" "i1" "" (Some "{}"%string) false.

Definition demo_chunk : Chunk :=
  mkChunk [demo_obs "e1" OriginRecord; demo_obs "e2" OriginRecord] (Some (mkCheckpoint 1 "pos")) None None
    [mkFault "cut" "a line"] 7.

Definition demo_c2 : cursor := fst (store demo_chunk (push [demo_obs "live" OriginLive] (newCursor false))).
Definition demo_c3 : cursor := fst (buildLocked 65536 demo_c2).
Definition demo_batch : Batch := default (empty_batch false) (c_out demo_c3).
Definition demo_c4 : cursor := fst (ack (b_id demo_batch) demo_c3).
Definition demo_trace : list label :=
  [LPush [demo_obs "live" OriginLive]; LRead demo_chunk; LBuild (Ok demo_batch)].

Lemma demo_run2 : steps (newCursor false) (take 2 demo_trace) demo_c2.
Proof.
  apply (steps_snoc _ [LPush [demo_obs "live" OriginLive]] (push [demo_obs "live" OriginLive] (newCursor false))).
  - apply (steps_snoc _ [] (newCursor false)); constructor.
  - constructor. by vm_compute.
Qed.

Lemma demo_run4 : steps (newCursor false) (demo_trace ++ [LAcked demo_batch (Some demo_chunk)]) demo_c4.
Proof.
  apply (steps_snoc _ demo_trace demo_c3).
  - apply (steps_snoc _ (take 2 demo_trace) demo_c2); [apply demo_run2|].
    apply (step_build 65536); [by vm_compute|by vm_compute|by vm_compute].
  - constructor; by vm_compute.
Qed.

Lemma delivered_in_order_witness :
  learned (take 2 demo_trace) = acked (take 2 demo_trace) ++ obs_of (c_queue demo_c2) /\
  length (learned (take 2 demo_trace)) = 3%nat.
Proof. split; [apply (delivered_in_order false); apply demo_run2|by vm_compute]. Defined.

Lemma checkpoint_covers_acked_witness :
  exists ch tr1 tr2, demo_trace = tr1 ++ LRead ch :: tr2 /\ Some demo_chunk = Some ch /\
    b_checkpoint demo_batch = ch_checkpoint ch /\
    learned (tr1 ++ [LRead ch]) `prefix_of` acked (demo_trace ++ [LAcked demo_batch (Some demo_chunk)]).
Proof.
  refine (checkpoint_covers_acked false demo_trace demo_batch (Some demo_chunk) demo_c4 demo_run4 _).
  by right.
Defined.


Lemma outstanding_batch_replayed_until_acked_witness :
  exists c', observe 0 65536 [mkPoll None 0 false []] demo_c3 = (c', Some (Ok demo_batch)) /\
    c_out c' = Some demo_batch.
Proof.
  refine (proj1 (outstanding_batch_replayed_until_acked demo_c3 demo_batch 0 65536 (mkPoll None 0 false []) []
            _ _ _ _ _ _)); by vm_compute.
Defined.

(** An observation of [n] bytes of data encodes to a size linear in [n]. *)
Definition sized_obs (n : nat) : Observation :=
  mkObservation "x" KindUserInput OriginLive (mkTime 0 0) "" "" "" (Some (string_of_list_ascii (repeat "0"%char n))) false.

Lemma sized_obs_len n : encodedSize (sized_obs n) = 84 + Z.of_nat n.
Proof.
  unfold encodedSize, marshal_len.
  assert (Hn : slen (string_of_list_ascii (repeat "0"%char n)) = Z.of_nat n).
  { unfold slen. f_equal. induction n as [|n IH]; [done|]. cbn. by f_equal. }
  destruct (marshal (Observation_json (sized_obs n))) as [s|] eqn:E.
  - apply obj_len in E. rewrite E. unfold Observation_json, sized_obs, omit_str, omit_bool, omitempty.
    cbn [o_id o_kind o_origin o_time o_turn o_input o_entry o_data o_truncated String.eqb negb app fields_len foldr length].
    change (marshal_len (JRaw (Some ?r))) with (slen r). rewrite Hn.
    repeat match goal with |- context [slen (quoted ?k)] => let v := eval vm_compute in (slen (quoted k)) in change (slen (quoted k)) with v
      | |- context [marshal_len ?k] => let v := eval vm_compute in (marshal_len k) in change (marshal_len k) with v end. lia.
  - exfalso. unfold Observation_json, sized_obs in E. cbn [marshal] in E. apply fmap_None in E.
    assert (Hall : forall l, Forall (fun '(k, v) => is_Some (marshal v)) l ->
       mapM (fun '(k, v) => member k <$> marshal v) l <> None).
    { intros l Hl. apply not_eq_None_Some, mapM_is_Some. apply (list.Forall_impl _ _ _ Hl).
      intros [k v]. apply fmap_is_Some. }
    eapply Hall; [|exact E]. cbn -[marshal]. repeat constructor; by eexists.
Qed.

Lemma bound_off_by_one_witness :
  bound (sized_obs (Z.to_nat 16776876)) = sized_obs (Z.to_nat 16776876).
Proof.
  refine (proj1 (bound_off_by_one (sized_obs (Z.to_nat 16776876)) MaxObserveBytes _ _)).
  - rewrite sized_obs_len, Z2Nat.id by done. reflexivity.
  - reflexivity.
Defined.

Lemma batch_too_large_required_witness :
  exists c'' b, buildLocked 513 (push [demo_obs "live" OriginLive] (newCursor false)) = (c'', Ok b) /\ (1 <= c_outN c'')%nat.
Proof.
  refine (proj2 (proj2 (proj2 (batch_too_large_required
    (push [demo_obs "live" OriginLive] (newCursor false)) 300
    (push [demo_obs "live" OriginLive] (newCursor false)) (batchTooLarge 390) _))) 513 _); by vm_compute.
Defined.
