(* ===== verification/Queue.v ===== *)
(** The bounded, ordered event queue of internal/delivery/queue.go.

    A queue's mutex makes each of its critical sections one step; between them
    a producer waits for room, the worker waits to be woken or runs the
    callback. [world] is the queue with the control state of its worker
    goroutine and of the Push calls in progress, and [step] interleaves them
    freely. A channel that is closed and replaced ([room]) is a generation
    number: waiting on a generation ends once the current one differs. The
    one-slot channel [ready] is a flag. Counters and byte sums are unbounded. *)
From Stdlib Require Import ZArith Lia.
From stdpp Require Import base tactics list gmap option.
From S2P Require Import Prelude.

#[local] Open Scope Z_scope.

Definition DefaultEvents : Z := 1024.
Definition DefaultBytes : Z := Z.shiftl 16 20.

Record Limits := mkLimits { l_events : Z; l_bytes : Z }.

Definition Resolved (l : Limits) : Limits :=
  mkLimits (if l_events l <=? 0 then DefaultEvents else l_events l)
           (if l_bytes l <=? 0 then DefaultBytes else l_bytes l).

Section Queue.
Context {T : Type}.

(** The caller's payload measure. *)
Context (size : T -> Z).

Record entry := mkEntry { e_v : T; e_size : Z }.

(** [waiters] maps a waiting Push to when it began waiting. *)
Record queue := mkQueue {
  q_limits : Limits;
  q_items : list entry;
  q_bytes : Z;
  q_room : nat;
  q_ready : bool;
  q_closed : bool;
  q_abandoned : bool;
  q_waiters : gmap nat Z;
  q_delivering : option Z;
  q_delivered : Z;
  q_lost : Z;
  q_drained : bool;
}.

Definition New (limits : Limits) : queue :=
  mkQueue (Resolved limits) [] 0 0 false false false ∅ None 0 0 false.

Definition set_items (items : list entry) (bytes : Z) (q : queue) : queue :=
  mkQueue (q_limits q) items bytes (q_room q) (q_ready q) (q_closed q) (q_abandoned q) (q_waiters q)
    (q_delivering q) (q_delivered q) (q_lost q) (q_drained q).
Definition set_waiters (ws : gmap nat Z) (q : queue) : queue :=
  mkQueue (q_limits q) (q_items q) (q_bytes q) (q_room q) (q_ready q) (q_closed q) (q_abandoned q) ws
    (q_delivering q) (q_delivered q) (q_lost q) (q_drained q).
Definition set_ready (b : bool) (q : queue) : queue :=
  mkQueue (q_limits q) (q_items q) (q_bytes q) (q_room q) b (q_closed q) (q_abandoned q) (q_waiters q)
    (q_delivering q) (q_delivered q) (q_lost q) (q_drained q).
Definition set_lost (n : Z) (q : queue) : queue :=
  mkQueue (q_limits q) (q_items q) (q_bytes q) (q_room q) (q_ready q) (q_closed q) (q_abandoned q) (q_waiters q)
    (q_delivering q) (q_delivered q) n (q_drained q).

(** [close(q.room); q.room = make(chan struct{})]. *)
Definition free_room (q : queue) : queue :=
  mkQueue (q_limits q) (q_items q) (q_bytes q) (S (q_room q)) (q_ready q) (q_closed q) (q_abandoned q)
    (q_waiters q) (q_delivering q) (q_delivered q) (q_lost q) (q_drained q).

Definition signal (q : queue) : queue := set_ready true q.

Definition enqueue (v : T) (n : Z) (q : queue) : queue :=
  signal (set_items (q_items q ++ [mkEntry v n]) (q_bytes q + n) q).

Definition closeLocked (q : queue) : queue :=
  if q_closed q then q
  else signal (free_room
    (mkQueue (q_limits q) (q_items q) (q_bytes q) (q_room q) (q_ready q) true (q_abandoned q) (q_waiters q)
       (q_delivering q) (q_delivered q) (q_lost q) (q_drained q))).

(** ** Push *)

Inductive push_error := ErrTooLarge | ErrAbandoned.

Definition too_large (v : T) (q : queue) : bool := l_bytes (q_limits q) <? size v.

Definition fits (n : Z) (q : queue) : bool :=
  match q_items q with
  | [] => true
  | items => (llen items <? l_events (q_limits q)) && (q_bytes q + n <=? l_bytes (q_limits q))
  end.

(** One turn of Push's loop, for the call [id]: [Some] ends the call, its
    waiter then deleted; [None] leaves it waiting on the room it saw. *)
Definition push_turn (id : nat) (now : Z) (v : T) (n : Z) (q : queue)
  : queue * option (result push_error unit) :=
  if q_closed q || q_abandoned q then
    (set_waiters (delete id (q_waiters q)) (set_lost (q_lost q + 1) q), Some (Err ErrAbandoned))
  else if fits n q then
    (let q := enqueue v n q in set_waiters (delete id (q_waiters q)) q, Some (Ok tt))
  else match q_waiters q !! id with
    | Some _ => (q, None)
    | None => (set_waiters (<[id := now]> (q_waiters q)) q, None)
    end.

(** Push gave up: its abort channel closed. *)
Definition push_abort (id : nat) (q : queue) : queue :=
  set_waiters (delete id (q_waiters q)) (set_lost (q_lost q + 1) q).

(** ** PushLast, Close, Abandon, Stats *)

Definition PushLast (v : T) (q : queue) : queue :=
  if q_closed q || q_abandoned q then set_lost (q_lost q + 1) q
  else closeLocked (enqueue v (size v) q).

Definition Close (q : queue) : queue := closeLocked q.

Definition Abandon (q : queue) : queue :=
  closeLocked
    (mkQueue (q_limits q) [] 0 (q_room q) (q_ready q) (q_closed q) true (q_waiters q) (q_delivering q)
       (q_delivered q) (q_lost q + llen (q_items q)) (q_drained q)).

Record Stats := mkStats {
  s_limits : Limits; s_queued : Z; s_queued_bytes : Z; s_waiting_since : option Z;
  s_delivering_since : option Z; s_delivered : Z; s_undelivered : Z }.

Definition earlier (w : Z) (since : option Z) : option Z :=
  match since with None => Some w | Some t => if w <? t then Some w else Some t end.

Definition Stats_of (q : queue) : Stats :=
  mkStats (q_limits q) (llen (q_items q)) (q_bytes q)
    (foldr earlier None (snd <$> map_to_list (q_waiters q)))
    (q_delivering q) (q_delivered q) (q_lost q).

(** ** The worker *)

(** Where [run] is: at its loop's head, waiting on [ready], in the callback
    with a value, or returned. *)
Inductive worker := WTop | WReady | WDeliver (v : T) | WDone.

(** From the loop's head, under the lock. *)
Definition worker_turn (now : Z) (q : queue) : queue * worker :=
  match q_items q with
  | [] =>
    if q_closed q
    then (mkQueue (q_limits q) (q_items q) (q_bytes q) (q_room q) (q_ready q) (q_closed q) (q_abandoned q)
            (q_waiters q) (q_delivering q) (q_delivered q) (q_lost q) true, WDone)
    else (q, WReady)
  | e :: items =>
    let q := free_room (set_items items (q_bytes q - e_size e) q) in
    (mkQueue (q_limits q) (q_items q) (q_bytes q) (q_room q) (q_ready q) (q_closed q) (q_abandoned q)
       (q_waiters q) (Some now) (q_delivered q) (q_lost q) (q_drained q), WDeliver (e_v e))
  end.

(** After the callback: [ok] unless it panicked. *)
Definition worker_done (ok : bool) (q : queue) : queue :=
  mkQueue (q_limits q) (q_items q) (q_bytes q) (q_room q) (q_ready q) (q_closed q) (q_abandoned q)
    (q_waiters q) None (if ok then q_delivered q + 1 else q_delivered q)
    (if ok then q_lost q else q_lost q + 1) (q_drained q).

(** ** Interleavings *)

(** A Push call waiting for room: its value, its size, and the room it saw. *)
Record producer := mkProducer { p_v : T; p_size : Z; p_room : nat }.

Record world := mkWorld { w_q : queue; w_worker : worker; w_producers : gmap nat producer }.

Definition start (limits : Limits) : world := mkWorld (New limits) WTop ∅.

Inductive label :=
| LTooLarge (v : T)           (** Push returned ErrTooLarge *)
| LRefused (v : T)            (** a value counted lost: Push returned ErrAbandoned, or PushLast came late *)
| LAccepted (v : T)           (** Push queued the value *)
| LAcceptedLast (v : T)       (** PushLast queued the value *)
| LHanded (v : T)             (** the worker took the value for the callback *)
| LReturned (v : T) (ok : bool)
| LAbandoned (dropped : list T)
| LTau.

(** What a Push's turn leaves of the call. *)
Definition after_push (id : nat) (v : T) (n : Z) (q : queue) (r : option (result push_error unit))
  (ps : gmap nat producer) : gmap nat producer :=
  match r with
  | Some _ => delete id ps
  | None => <[id := mkProducer v n (q_room q)]> ps
  end.

Definition push_label (v : T) (r : option (result push_error unit)) : label :=
  match r with
  | Some (Ok _) => LAccepted v
  | Some (Err _) => LRefused v
  | None => LTau
  end.

Inductive step : world -> label -> world -> Prop :=
| step_push_large v w : too_large v (w_q w) = true -> step w (LTooLarge v) w
| step_push id now v w q' r :
    too_large v (w_q w) = false -> w_producers w !! id = None -> q_waiters (w_q w) !! id = None ->
    push_turn id now v (size v) (w_q w) = (q', r) ->
    step w (push_label v r) (mkWorld q' (w_worker w) (after_push id v (size v) q' r (w_producers w)))
| step_push_room id now p w q' r :
    w_producers w !! id = Some p -> p_room p <> q_room (w_q w) ->
    push_turn id now (p_v p) (p_size p) (w_q w) = (q', r) ->
    step w (push_label (p_v p) r)
      (mkWorld q' (w_worker w) (after_push id (p_v p) (p_size p) q' r (w_producers w)))
| step_push_abort id p w :
    w_producers w !! id = Some p ->
    step w (LRefused (p_v p)) (mkWorld (push_abort id (w_q w)) (w_worker w) (delete id (w_producers w)))
| step_push_last v w :
    step w (if q_closed (w_q w) || q_abandoned (w_q w) then LRefused v else LAcceptedLast v)
      (mkWorld (PushLast v (w_q w)) (w_worker w) (w_producers w))
| step_close w : step w LTau (mkWorld (Close (w_q w)) (w_worker w) (w_producers w))
| step_abandon w :
    step w (LAbandoned (map e_v (q_items (w_q w)))) (mkWorld (Abandon (w_q w)) (w_worker w) (w_producers w))
| step_worker now w q' k :
    w_worker w = WTop -> worker_turn now (w_q w) = (q', k) ->
    step w (match k with WDeliver v => LHanded v | _ => LTau end) (mkWorld q' k (w_producers w))
| step_ready w :
    w_worker w = WReady -> q_ready (w_q w) = true ->
    step w LTau (mkWorld (set_ready false (w_q w)) WTop (w_producers w))
| step_returned v ok w :
    w_worker w = WDeliver v ->
    step w (LReturned v ok) (mkWorld (worker_done ok (w_q w)) WTop (w_producers w)).

Inductive steps : world -> list label -> world -> Prop :=
| steps_nil w : steps w [] w
| steps_snoc w0 tr w l w' : steps w0 tr w -> step w l w' -> steps w0 (tr ++ [l]) w'.

(** What a trace accepted, handed to the callback and dropped, in order, and how
    many values it counted lost without queueing them. *)
Definition accepted_of (l : label) : list T :=
  match l with LAccepted v | LAcceptedLast v => [v] | _ => [] end.
Definition handed_of (l : label) : list T := match l with LHanded v => [v] | _ => [] end.
Definition dropped_of (l : label) : list T := match l with LAbandoned d => d | _ => [] end.
Definition refused_of (l : label) : list T := match l with LRefused v => [v] | _ => [] end.
Definition gather (f : label -> list T) (tr : list label) : list T := concat (map f tr).

(** ** The abstract queue *)

(** What the package promises: values leave in the order they were accepted;
    none is accepted once it is closed; abandoning drops what is left. *)
Record spec := mkSpec { a_pending : list T; a_closed : bool }.

Inductive spec_step : spec -> label -> spec -> Prop :=
| spec_accept v s : a_closed s = false -> spec_step s (LAccepted v) (mkSpec (a_pending s ++ [v]) false)
| spec_accept_last v s : a_closed s = false -> spec_step s (LAcceptedLast v) (mkSpec (a_pending s ++ [v]) true)
| spec_hand v p c : spec_step (mkSpec (v :: p) c) (LHanded v) (mkSpec p c)
| spec_abandon s : spec_step s (LAbandoned (a_pending s)) (mkSpec [] true)
| spec_close s : spec_step s LTau (mkSpec (a_pending s) true)
| spec_refuse v s : spec_step s (LRefused v) s
| spec_large v s : spec_step s (LTooLarge v) s
| spec_return v ok s : spec_step s (LReturned v ok) s
| spec_tau s : spec_step s LTau s.

Definition abs (w : world) : spec := mkSpec (map e_v (q_items (w_q w))) (q_closed (w_q w)).

(** ** The invariant *)

Definition sum_sizes (l : list entry) : Z := foldr (fun e n => e_size e + n) 0 l.

Definition in_flight (k : worker) : Z := match k with WDeliver _ => 1 | _ => 0 end.

Record wf (w : world) : Prop := {
  wf_limits : 1 <= l_events (q_limits (w_q w)) /\ 1 <= l_bytes (q_limits (w_q w));
  wf_bytes : q_bytes (w_q w) = sum_sizes (q_items (w_q w));
  wf_sizes : Forall (fun e => e_size e = size (e_v e)) (q_items (w_q w));
  wf_bound : q_closed (w_q w) = false ->
    llen (q_items (w_q w)) <= l_events (q_limits (w_q w)) /\ q_bytes (w_q w) <= l_bytes (q_limits (w_q w));
  wf_abandoned : q_abandoned (w_q w) = true -> q_closed (w_q w) = true /\ q_items (w_q w) = [];
  wf_wake : w_worker w = WReady -> q_items (w_q w) <> [] \/ q_closed (w_q w) = true -> q_ready (w_q w) = true;
  wf_producers : forall id p, w_producers w !! id = Some p ->
    p_size p = size (p_v p) /\ p_size p <= l_bytes (q_limits (w_q w)) /\ (p_room p <= q_room (w_q w))%nat /\
    (p_room p = q_room (w_q w) -> q_closed (w_q w) = false /\ fits (p_size p) (w_q w) = false);
  wf_waiters : forall id, is_Some (w_producers w !! id) <-> is_Some (q_waiters (w_q w) !! id);
  wf_done : q_drained (w_q w) = true <-> w_worker w = WDone;
  wf_drained : w_worker w = WDone -> q_closed (w_q w) = true /\ q_items (w_q w) = [];
  wf_delivering : is_Some (q_delivering (w_q w)) <-> exists v, w_worker w = WDeliver v;
}.

(** ** Preservation *)

Context (size_nonneg : forall v, 0 <= size v).
Implicit Types (w : world) (q : queue) (v : T).

Lemma fits_false n q : fits n q = false ->
  q_items q <> [] /\ (l_events (q_limits q) <= llen (q_items q) \/ l_bytes (q_limits q) < q_bytes q + n).
Proof.
  unfold fits. destruct (q_items q) as [|e l]; [done|]. intros H. split; [done|].
  apply andb_false_iff in H as [H|H]; bprop; auto.
Qed.

Lemma fits_false_intro n q : q_items q <> [] ->
  l_events (q_limits q) <= llen (q_items q) \/ l_bytes (q_limits q) < q_bytes q + n -> fits n q = false.
Proof.
  unfold fits. destruct (q_items q) as [|e l]; [done|]. intros _ [H|H]; apply andb_false_iff; [left|right].
  - by apply Z.ltb_ge.
  - by apply Z.leb_gt.
Qed.

Lemma fits_true n q : fits n q = true -> 1 <= l_events (q_limits q) -> n <= l_bytes (q_limits q) ->
  q_bytes q = sum_sizes (q_items q) ->
  llen (q_items q) + 1 <= l_events (q_limits q) /\ q_bytes q + n <= l_bytes (q_limits q).
Proof.
  unfold fits. destruct (q_items q) as [|e l] eqn:E; intros H He Hn Hb; cbn in Hb; [cbn; lia|].
  bprop. lia.
Qed.

Lemma sum_sizes_snoc l e : sum_sizes (l ++ [e]) = sum_sizes l + e_size e.
Proof. induction l as [|x l IH]; cbn; [lia|]. fold (sum_sizes (l ++ [e])) (sum_sizes l). lia. Qed.

(** What a waiting producer knows survives a value queued behind the others. *)
Lemma fits_enqueue n v q : fits n q = false -> fits n (enqueue v (size v) q) = false.
Proof.
  intros H. apply fits_false in H as [Hne H]. pose proof (size_nonneg v). apply fits_false_intro; cbn.
  - by destruct (q_items q).
  - rewrite length_app. cbn. destruct H; [left|right]; lia.
Qed.

Lemma wf_push w id now v q' r :
  wf w -> (w_producers w !! id = None \/ exists p, w_producers w !! id = Some p /\ p_v p = v) ->
  too_large v (w_q w) = false ->
  push_turn id now v (size v) (w_q w) = (q', r) ->
  wf (mkWorld q' (w_worker w) (after_push id v (size v) q' r (w_producers w))).
Proof.
  intros W Hid Hl Ht. destruct W. unfold too_large in Hl. bprop. unfold push_turn in Ht.
  assert (Hdel : forall id' p, delete id (w_producers w) !! id' = Some p -> w_producers w !! id' = Some p).
  { intros id' p H. apply lookup_delete_Some in H as [_ H]. done. }
  assert (Hw' : forall id', is_Some (delete id (w_producers w) !! id') <-> is_Some (delete id (q_waiters (w_q w)) !! id')).
  { intros id'. destruct (decide (id = id')) as [->|?]; [by rewrite !lookup_delete_eq|].
    rewrite !lookup_delete_ne by done. apply wf_waiters0. }
  destruct (q_closed (w_q w) || q_abandoned (w_q w)) eqn:Ec; [|destruct (fits (size v) (w_q w)) eqn:Ef].
  - injection Ht as <- <-. constructor; cbn; eauto.
  - injection Ht as <- <-. apply orb_false_iff in Ec as [Ec Ea].
    destruct (fits_true _ _ Ef) as [F1 F2]; [lia|lia|done|].
    constructor; cbn; eauto.
    + rewrite sum_sizes_snoc. cbn. lia.
    + apply Forall_app. split; [done|]. by constructor.
    + rewrite length_app. cbn. lia.
    + by rewrite Ea.
    + intros id' p H. apply Hdel in H. apply wf_producers0 in H as (? & ? & ? & H). split_and!; try done.
      intros Hr. specialize (H Hr) as [? H]. split; [done|]. by apply (fits_enqueue _ v) in H.
    + rewrite Ec. intros H. by apply wf_drained0 in H as [? _]; congruence.
  - apply orb_false_iff in Ec as [Ec Ea].
    assert (Hq : q_items q' = q_items (w_q w) /\ q_bytes q' = q_bytes (w_q w) /\ q_room q' = q_room (w_q w) /\
      q_limits q' = q_limits (w_q w) /\ q_closed q' = q_closed (w_q w) /\ q_abandoned q' = q_abandoned (w_q w) /\
      q_ready q' = q_ready (w_q w) /\ q_drained q' = q_drained (w_q w) /\ q_delivering q' = q_delivering (w_q w) /\ r = None /\
      is_Some (q_waiters q' !! id) /\ forall id', id' <> id -> q_waiters q' !! id' = q_waiters (w_q w) !! id').
    { destruct (q_waiters (w_q w) !! id) as [t|] eqn:Ew; injection Ht as <- <-; cbn; split_and!; try done.
      - rewrite lookup_insert_eq. by eexists.
      - intros id' H. by rewrite lookup_insert_ne. }
    destruct Hq as (E1 & E2 & E3 & E4 & E5 & E6 & E7 & E8 & E9 & -> & Ew1 & Ew2).
    assert (Hfits : forall n, fits n q' = fits n (w_q w)) by (intros n; unfold fits; by rewrite E1, E2, E4).
    constructor; cbn; rewrite ?E1, ?E2, ?E3, ?E4, ?E5, ?E6, ?E7, ?E8, ?E9; eauto.
    + intros id' p H. apply lookup_insert_Some in H as [[<- <-]|[_ H]]; cbn.
      * rewrite Hfits. split_and!; try done; lia.
      * rewrite Hfits. by apply wf_producers0 in H.
    + intros id'. destruct (decide (id' = id)) as [->|?]; [by rewrite lookup_insert_eq|].
      rewrite lookup_insert_ne, Ew2 by done. apply wf_waiters0.
Qed.

(** Closing a queue whose items were replaced, as PushLast, Close and Abandon
    do: every waiting producer's room is closed. *)
Lemma wf_close_with w items abandoned lost :
  wf w -> q_closed (w_q w) = false -> Forall (fun e => e_size e = size (e_v e)) items ->
  (abandoned = true -> items = []) ->
  wf (mkWorld (mkQueue (q_limits (w_q w)) items (sum_sizes items) (S (q_room (w_q w))) true true abandoned
        (q_waiters (w_q w)) (q_delivering (w_q w)) (q_delivered (w_q w)) lost (q_drained (w_q w)))
        (w_worker w) (w_producers w)).
Proof.
  intros [] Hc Hs Ha. constructor; cbn; eauto; try done.
  - intros id p H. apply wf_producers0 in H as (? & ? & ? & _). split_and!; try done; lia.
  - intros H. by apply wf_drained0 in H as [? _]; congruence.
Qed.

Lemma wf_push_last w v : wf w -> wf (mkWorld (PushLast v (w_q w)) (w_worker w) (w_producers w)).
Proof.
  intros W. unfold PushLast. destruct (q_closed (w_q w) || q_abandoned (w_q w)) eqn:E.
  - destruct W. by constructor.
  - apply orb_false_iff in E as [Ec Ea]. unfold closeLocked. cbn. rewrite Ec. unfold signal, set_ready, free_room. cbn.
    replace (q_bytes (w_q w) + size v) with (sum_sizes (q_items (w_q w) ++ [mkEntry v (size v)]))
      by (rewrite sum_sizes_snoc, (wf_bytes w W); done).
    apply wf_close_with; [done|done| |by rewrite Ea].
    apply Forall_app. split; [by apply wf_sizes|]. by constructor.
Qed.

Lemma wf_close w : wf w -> wf (mkWorld (Close (w_q w)) (w_worker w) (w_producers w)).
Proof.
  intros W. unfold Close, closeLocked. destruct (q_closed (w_q w)) eqn:Ec; [by destruct w|].
  unfold signal, set_ready, free_room. cbn. rewrite (wf_bytes w W).
  apply wf_close_with; [done|done|by apply wf_sizes|]. intros Ha. by apply (wf_abandoned w W).
Qed.

Lemma wf_abandon w : wf w -> wf (mkWorld (Abandon (w_q w)) (w_worker w) (w_producers w)).
Proof.
  intros W. unfold Abandon, closeLocked. cbn. destruct (q_closed (w_q w)) eqn:Ec.
  - destruct W. constructor; cbn; eauto; try done.
    + intros id p H. apply wf_producers0 in H as (? & ? & ? & H). split_and!; try done.
      intros Hr. by destruct (H Hr); congruence.
  - unfold signal, set_ready, free_room. cbn.
    apply (wf_close_with w [] true); [done|done|constructor|done].
Qed.

Lemma wf_worker_turn w now q' k : wf w -> w_worker w = WTop -> worker_turn now (w_q w) = (q', k) ->
  wf (mkWorld q' k (w_producers w)).
Proof.
  intros [] Hk Ht. unfold worker_turn in Ht.
  assert (Hnd : q_drained (w_q w) = false) by (destruct (q_drained (w_q w)); [naive_solver congruence|done]).
  assert (Hnv : q_delivering (w_q w) = None).
  { destruct (q_delivering (w_q w)); [|done]. exfalso. destruct (proj1 wf_delivering0) as [v Hv]; [by eexists|congruence]. }
  destruct (q_items (w_q w)) as [|e items] eqn:Ei; [destruct (q_closed (w_q w)) eqn:Ec|]; injection Ht as <- <-.
  - constructor; cbn -[fits]; rewrite ?Ei, ?Ec, ?Hnv; eauto; try done; [|by split; intros []].
    intros id p H. apply wf_producers0 in H as (? & ? & ? & H). split_and!; try done.
    intros Hr. by destruct (H Hr); congruence.
  - constructor; cbn -[fits]; rewrite ?Ei, ?Ec, ?Hnv, ?Hnd; eauto; try done; try (by split; intros []).
    by intros _ [?|?].
  - assert (Ha : q_abandoned (w_q w) = false).
    { destruct (q_abandoned (w_q w)); [|done]. by destruct (wf_abandoned0 eq_refl). }
    apply Forall_cons_iff in wf_sizes0 as [He Hs]. pose proof (size_nonneg (e_v e)).
    cbn in wf_bytes0. fold (sum_sizes items) in wf_bytes0. cbn [length] in wf_bound0.
    constructor; cbn -[sum_sizes]; rewrite ?Hnd, ?Ha; eauto; try done; try lia.
    + intros Hc. specialize (wf_bound0 Hc). lia.
    + intros id p H'. apply wf_producers0 in H' as (? & ? & ? & _). split_and!; try done; lia.
    + split; intros _; eauto.
Qed.

Lemma wf_step w l w' : wf w -> step w l w' -> wf w'.
Proof.
  intros W. inversion 1 as [v w0 Hl|id now v w0 q' r Hl Hp Hw Ht|id now p w0 q' r Hp Hr Ht|id p w0 Hp|v w0|w0|w0
    |now w0 q' k Hk Ht|w0 Hk Hr|v ok w0 Hk]; subst.
  - done.
  - eapply wf_push; eauto.
  - destruct (wf_producers w W id p Hp) as (Hs & Hb & _). rewrite Hs in Ht |- *.
    eapply wf_push; eauto. unfold too_large. apply Z.ltb_ge. lia.
  - destruct W. constructor; cbn; eauto.
    + intros id' p' H'. apply lookup_delete_Some in H' as [_ H']. by apply wf_producers0 in H'.
    + intros id'. destruct (decide (id = id')) as [->|?]; [by rewrite !lookup_delete_eq|].
      rewrite !lookup_delete_ne by done. apply wf_waiters0.
  - by apply wf_push_last.
  - by apply wf_close.
  - by apply wf_abandon.
  - by eapply wf_worker_turn.
  - destruct W. constructor; cbn; eauto; try done.
    + rewrite wf_done0, Hk. by split.
    + rewrite wf_delivering0, Hk. by split; intros [].
  - destruct W. constructor; cbn; eauto; try done.
    + rewrite wf_done0, Hk. by split.
    + by split; intros [].
Qed.

Lemma wf_start limits : wf (start limits).
Proof.
  assert (HR : 1 <= l_events (Resolved limits) /\ 1 <= l_bytes (Resolved limits)).
  { unfold Resolved, DefaultEvents, DefaultBytes. change (Z.shiftl 16 20) with 16777216. cbn.
    destruct (Z.leb_spec (l_events limits) 0), (Z.leb_spec (l_bytes limits) 0); lia. }
  constructor; cbn -[Resolved]; try done.
  - lia.
  - intros id. rewrite !lookup_empty. split; by intros [].
  - by split; intros [].
Qed.

Lemma wf_reachable limits tr w : steps (start limits) tr w -> wf w.
Proof.
  intros H. remember (start limits) as w0. induction H as [|? tr w l w' _ IH Hs]; subst; [apply wf_start|].
  by eapply wf_step; [apply IH|].
Qed.

(** ** Refinement of the abstract queue *)

Lemma close_fields q : q_items (closeLocked q) = q_items q /\ q_closed (closeLocked q) = true /\
  q_delivered (closeLocked q) = q_delivered q /\ q_lost (closeLocked q) = q_lost q.
Proof. unfold closeLocked. destruct (q_closed q) eqn:E; done. Qed.

Lemma push_turn_refines id now v n q q' r : push_turn id now v n q = (q', r) ->
  (r = Some (Err ErrAbandoned) /\ q_items q' = q_items q /\ q_closed q' = q_closed q /\
     q_delivered q' = q_delivered q /\ q_lost q' = q_lost q + 1) \/
  (r = Some (Ok tt) /\ q_closed q = false /\ q_items q' = q_items q ++ [mkEntry v n] /\ q_closed q' = q_closed q /\
     q_delivered q' = q_delivered q /\ q_lost q' = q_lost q) \/
  (r = None /\ q_items q' = q_items q /\ q_closed q' = q_closed q /\
     q_delivered q' = q_delivered q /\ q_lost q' = q_lost q).
Proof.
  unfold push_turn. destruct (q_closed q || q_abandoned q) eqn:E.
  { intros [= <- <-]. left. done. }
  apply orb_false_iff in E as [E _]. destruct (fits n q).
  { intros [= <- <-]. right; left. done. }
  destruct (q_waiters q !! id); intros [= <- <-]; right; right; done.
Qed.

Lemma push_spec id now v n q q' r k ps :
  push_turn id now v n q = (q', r) ->
  spec_step (mkSpec (map e_v (q_items q)) (q_closed q)) (push_label v r) (abs (mkWorld q' k ps)).
Proof.
  intros H. apply push_turn_refines in H as [(-> & E1 & E2 & _)|[(-> & E0 & E1 & E2 & _)|(-> & E1 & E2 & _)]];
    unfold abs; cbn; rewrite E1, E2; [constructor| |constructor].
  rewrite E0, map_app. by apply (spec_accept v (mkSpec _ false)).
Qed.

Lemma step_refines w l w' : wf w -> step w l w' -> spec_step (abs w) l (abs w').
Proof.
  intros W. inversion 1 as [v w0 Hl|id now v w0 q' r Hl Hp Hw Ht|id now p w0 q' r Hp Hr Ht|id p w0 Hp|v w0|w0|w0
    |now w0 q' k Hk Ht|w0 Hk Hr|v ok w0 Hk]; subst.
  - constructor.
  - by eapply push_spec.
  - by eapply push_spec.
  - apply spec_refuse.
  - unfold PushLast. destruct (q_closed (w_q w) || q_abandoned (w_q w)) eqn:E; [apply spec_refuse|].
    apply orb_false_iff in E as [E _]. unfold abs. cbn [w_q].
    destruct (close_fields (enqueue v (size v) (w_q w))) as (-> & -> & _). cbn. rewrite map_app.
    by apply (spec_accept_last v (mkSpec (map e_v (q_items (w_q w))) (q_closed (w_q w)))).
  - unfold abs. cbn [w_q]. unfold Close. destruct (close_fields (w_q w)) as (-> & -> & _).
    apply (spec_close (abs w)).
  - unfold abs at 2. cbn [w_q]. unfold Abandon.
    match goal with |- context [closeLocked ?q] => destruct (close_fields q) as (-> & -> & _) end.
    apply (spec_abandon (abs w)).
  - unfold worker_turn in Ht. unfold abs. cbn [w_q].
    destruct (q_items (w_q w)) as [|e items] eqn:Ei; [destruct (q_closed (w_q w)) eqn:Ec|]; injection Ht as <- <-;
      cbn; rewrite ?Ei, ?Ec; constructor.
  - apply (spec_tau (abs w)).
  - apply (spec_return v ok (abs w)).
Qed.

Lemma queue_step_refines limits tr w l w' : steps (start limits) tr w -> step w l w' -> spec_step (abs w) l (abs w').
Proof. intros H. apply step_refines. by eapply wf_reachable. Qed.

Lemma steps_inv w0 tr l w' : steps w0 (tr ++ [l]) w' -> exists w, steps w0 tr w /\ step w l w'.
Proof.
  intros H. remember (tr ++ [l]) as tr' eqn:E. destruct H as [|? tr0 w l0 w' H Hs]; [by destruct tr|].
  apply app_inj_tail in E as [-> ->]. eauto.
Qed.

(** C27: the queue implements the abstract one: every step of every
    interleaving of producers, worker, Close and Abandon accepts, hands over,
    drops or refuses exactly as the first-in first-out queue that stops
    accepting when it closes. *)
Theorem queue_refines_fifo limits tr w l w' (H : steps (start limits) tr w) (Hs : step w l w') :
  spec_step (abs w) l (abs w').
Proof. by eapply queue_step_refines. Qed.

Lemma gather_snoc f tr l : gather f (tr ++ [l]) = gather f tr ++ f l.
Proof. unfold gather. rewrite map_app, concat_app. cbn. by rewrite app_nil_r. Qed.

(** The abstract queue's order. *)
Definition ordered (tr : list label) (s : spec) : Prop :=
  gather accepted_of tr = gather handed_of tr ++ gather dropped_of tr ++ a_pending s /\
  (gather dropped_of tr <> [] -> a_closed s = true /\ a_pending s = []).

Lemma ordered_step tr s l s' : ordered tr s -> spec_step s l s' -> ordered (tr ++ [l]) s'.
Proof.
  unfold ordered. rewrite !gather_snoc. intros [H Hd].
  assert (Hn : a_closed s = false \/ a_pending s <> [] -> gather dropped_of tr = []).
  { intros Hor. destruct (gather dropped_of tr); [done|]. destruct (Hd ltac:(done)). destruct Hor; congruence. }
  inversion 1; subst; cbn [accepted_of handed_of dropped_of app a_pending a_closed] in *;
    rewrite ?app_nil_r; try done.
  - rewrite H, Hn by auto. cbn. by rewrite app_assoc.
  - rewrite H, Hn by auto. cbn. by rewrite app_assoc.
  - rewrite H, Hn by auto. cbn. by rewrite <- app_assoc.
  - split; [|by split; [done|apply Hd]]. done.
Qed.

Lemma ordered_reachable limits tr w : steps (start limits) tr w -> ordered tr (abs w).
Proof.
  intros H. remember (start limits) as w0. induction H as [|w0 tr w l w' Hr IH Hs]; subst; [done|].
  specialize (IH eq_refl). eapply ordered_step; [exact IH|]. apply step_refines; [|done]. by eapply wf_reachable.
Qed.

Lemma abandoned_step w l w' : step w l w' -> q_abandoned (w_q w') = false ->
  q_abandoned (w_q w) = false /\ dropped_of l = [].
Proof.
  assert (Hc : forall q, q_abandoned (closeLocked q) = q_abandoned q).
  { intros q. unfold closeLocked. by destruct (q_closed q). }
  assert (Ht : forall id now v n q q' r, push_turn id now v n q = (q', r) ->
            q_abandoned q' = q_abandoned q /\ dropped_of (push_label v r) = []).
  { intros id now v n q q' r. unfold push_turn. destruct (_ || _); [by intros [= <- <-]|].
    destruct (fits n q); [by intros [= <- <-]|]. destruct (q_waiters q !! id); by intros [= <- <-]. }
  inversion 1 as [v w0 Hl|id now v w0 q' r Hl Hp Hw Hp'|id now p w0 q' r Hp Hr Hp'|id p w0 Hp|v w0|w0|w0
    |now w0 q' k Hk Hw|w0 Hk Hr|v ok w0 Hk]; subst; cbn [w_q]; intros Ha; try done.
  - apply Ht in Hp' as [<- ->]. done.
  - apply Ht in Hp' as [<- ->]. done.
  - unfold PushLast in Ha. destruct (_ || _); [done|]. rewrite Hc in Ha. done.
  - unfold Close in Ha. rewrite Hc in Ha. done.
  - unfold Abandon in Ha. rewrite Hc in Ha. done.
  - unfold worker_turn in Hw. destruct (q_items (w_q w)); [destruct (q_closed (w_q w))|]; injection Hw as <- <-; done.
Qed.

Lemma dropped_reachable limits tr w : steps (start limits) tr w ->
  q_abandoned (w_q w) = false -> gather dropped_of tr = [].
Proof.
  intros H. induction H as [|? tr w l w' Hr IH Hs]; subst; [done|]. intros Ha.
  apply (abandoned_step _ _ _ Hs) in Ha as [Ha Hd]. rewrite gather_snoc, IH, Hd; done.
Qed.

(** the values handed to the callback, those Abandon dropped and those
    still queued are, in this order, the values accepted: delivery is in push
    order, without loss or repetition, and only Abandon drops. *)
Theorem delivery_in_push_order limits tr w (H : steps (start limits) tr w) :
  gather accepted_of tr = gather handed_of tr ++ gather dropped_of tr ++ map e_v (q_items (w_q w)) /\
  (q_abandoned (w_q w) = false -> gather dropped_of tr = []).
Proof.
  split; [by apply (ordered_reachable limits)|by apply (dropped_reachable limits)].
Qed.

Lemma accounting_step w l w' : wf w -> step w l w' ->
  q_delivered (w_q w') + q_lost (w_q w') + llen (q_items (w_q w')) + in_flight (w_worker w') =
  q_delivered (w_q w) + q_lost (w_q w) + llen (q_items (w_q w)) + in_flight (w_worker w)
  + llen (accepted_of l) + llen (refused_of l).
Proof.
  intros W.
  assert (Ht : forall id now v n q q' r, push_turn id now v n q = (q', r) ->
    q_delivered q' + q_lost q' + llen (q_items q') = q_delivered q + q_lost q + llen (q_items q)
      + llen (accepted_of (push_label v r)) + llen (refused_of (push_label v r))).
  { intros id now v n q q' r H. apply push_turn_refines in H
      as [(-> & -> & _ & -> & ->)|[(-> & _ & -> & _ & -> & ->)|(-> & -> & _ & -> & ->)]]; cbn [push_label accepted_of refused_of];
      rewrite ?length_app; cbn; lia. }
  inversion 1 as [v w0 Hl|id now v w0 q' r Hl Hp Hw Hp'|id now p w0 q' r Hp Hr Hp'|id p w0 Hp|v w0|w0|w0
    |now w0 q' k Hk Hw|w0 Hk Hr|v ok w0 Hk]; subst; cbn [w_q w_worker].
  - cbn. lia.
  - apply Ht in Hp'. lia.
  - apply Ht in Hp'. lia.
  - cbn. lia.
  - unfold PushLast. destruct (_ || _); [cbn; lia|].
    destruct (close_fields (enqueue v (size v) (w_q w))) as (-> & _ & -> & ->). cbn. rewrite length_app. cbn. lia.
  - unfold Close. destruct (close_fields (w_q w)) as (-> & _ & -> & ->). cbn. lia.
  - unfold Abandon. match goal with |- context [closeLocked ?q] => destruct (close_fields q) as (-> & _ & -> & ->) end.
    cbn. lia.
  - unfold worker_turn in Hw. rewrite Hk. destruct (q_items (w_q w)) as [|e items] eqn:E; [destruct (q_closed (w_q w))|];
      injection Hw as <- <-; cbn; rewrite ?E; cbn; lia.
  - rewrite Hk. cbn. lia.
  - rewrite Hk. cbn. destruct ok; lia.
Qed.

(** every value pushed is accounted for: those delivered, those counted
    undelivered, those queued and the one in the callback add up to those
    accepted and those refused. *)
Theorem every_value_accounted limits tr w (H : steps (start limits) tr w) :
  q_delivered (w_q w) + q_lost (w_q w) + llen (q_items (w_q w)) + in_flight (w_worker w) =
  llen (gather accepted_of tr) + llen (gather refused_of tr).
Proof.
  remember (start limits) as w0. induction H as [|? tr w l w' Hr IH Hs]; subst; [done|]. specialize (IH eq_refl).
  rewrite (accounting_step _ _ _ (wf_reachable _ _ _ Hr) Hs), IH, !gather_snoc, !length_app. lia.
Qed.

Lemma limits_step w l w' : step w l w' -> q_limits (w_q w') = q_limits (w_q w).
Proof.
  assert (Hc : forall q, q_limits (closeLocked q) = q_limits q) by (intros q; unfold closeLocked; by destruct (q_closed q)).
  assert (Ht : forall id now v n q q' r, push_turn id now v n q = (q', r) -> q_limits q' = q_limits q).
  { intros id now v n q q' r. unfold push_turn. destruct (_ || _); [by intros [= <- <-]|].
    destruct (fits n q); [by intros [= <- <-]|]. destruct (q_waiters q !! id); by intros [= <- <-]. }
  inversion 1 as [v w0 Hl|id now v w0 q' r Hl Hp Hw Hp'|id now p w0 q' r Hp Hr Hp'|id p w0 Hp|v w0|w0|w0
    |now w0 q' k Hk Hw|w0 Hk Hr|v ok w0 Hk]; subst; cbn [w_q]; eauto.
  - unfold PushLast. destruct (_ || _); [done|]. by rewrite Hc.
  - by unfold Abandon; rewrite Hc.
  - unfold worker_turn in Hw. destruct (q_items (w_q w)); [destruct (q_closed (w_q w))|]; by injection Hw as <- <-.
Qed.

Lemma limits_reachable limits tr w : steps (start limits) tr w -> q_limits (w_q w) = Resolved limits.
Proof.
  intros H. remember (start limits) as w0. induction H as [|? tr w l w' _ IH Hs]; subst; [done|].
  rewrite (limits_step _ _ _ Hs). by apply IH.
Qed.

(** an open queue never holds more events or bytes than its limits, a
    worker waiting to be woken while there is work has its wake-up pending, and
    a producer waiting on the current room could not push now: no wake-up is
    lost, and none waits for an empty queue. *)
Theorem bounded_and_no_lost_wakeup limits tr w (H : steps (start limits) tr w) :
  (q_closed (w_q w) = false ->
     llen (q_items (w_q w)) <= l_events (Resolved limits) /\ q_bytes (w_q w) <= l_bytes (Resolved limits)) /\
  q_bytes (w_q w) = sum_sizes (q_items (w_q w)) /\
  (w_worker w = WReady -> q_items (w_q w) <> [] \/ q_closed (w_q w) = true -> q_ready (w_q w) = true) /\
  (forall id p, w_producers w !! id = Some p -> p_room p = q_room (w_q w) ->
     q_closed (w_q w) = false /\ q_items (w_q w) <> [] /\
     (l_events (Resolved limits) <= llen (q_items (w_q w)) \/
      l_bytes (Resolved limits) < q_bytes (w_q w) + size (p_v p))).
Proof.
  pose proof (wf_reachable limits tr w H) as W.
  assert (Hl : q_limits (w_q w) = Resolved limits) by (by eapply limits_reachable). destruct W. rewrite Hl in *.
  split_and!; try done. intros id p Hp Hroom. destruct (wf_producers0 id p Hp) as (Hs & _ & _ & Hf).
  destruct (Hf Hroom) as [Hc Hfit]. apply fits_false in Hfit as [Hne Hfull]. rewrite Hl, Hs in Hfull. done.
Qed.

(** ** Draining *)

(** The worker's own steps. *)
Inductive worker_step : world -> label -> world -> Prop :=
| ws_turn now w q' k : w_worker w = WTop -> worker_turn now (w_q w) = (q', k) ->
    worker_step w (match k with WDeliver v => LHanded v | _ => LTau end) (mkWorld q' k (w_producers w))
| ws_ready w : w_worker w = WReady -> q_ready (w_q w) = true ->
    worker_step w LTau (mkWorld (set_ready false (w_q w)) WTop (w_producers w))
| ws_returned v ok w : w_worker w = WDeliver v ->
    worker_step w (LReturned v ok) (mkWorld (worker_done ok (w_q w)) WTop (w_producers w)).

Lemma worker_step_step w l w' : worker_step w l w' -> step w l w'.
Proof. inversion 1; subst; econstructor; eauto. Qed.

Inductive worker_run : world -> list label -> world -> Prop :=
| wr_nil w : worker_run w [] w
| wr_cons w l w' tr w'' : worker_step w l w' -> worker_run w' tr w'' -> worker_run w (l :: tr) w''.

Definition left_to_do (w : world) : nat :=
  3 * length (q_items (w_q w)) +
  match w_worker w with WTop => 1 | WReady | WDeliver _ => 2 | WDone => 0 end.

Lemma worker_step_left w l w' : q_closed (w_q w) = true -> worker_step w l w' ->
  q_closed (w_q w') = true /\ (left_to_do w' < left_to_do w)%nat /\
  map e_v (q_items (w_q w)) = handed_of l ++ map e_v (q_items (w_q w')).
Proof.
  intros Hc. unfold left_to_do. inversion 1 as [now w0 q' k Hk Ht|w0 Hk Hr|v ok w0 Hk]; subst; rewrite Hk; cbn [w_q w_worker].
  - unfold worker_turn in Ht. rewrite Hc in Ht.
    destruct (q_items (w_q w)) as [|e items] eqn:E; injection Ht as <- <-; cbn; rewrite ?E; cbn; split_and!; try done; lia.
  - cbn. split_and!; try done; lia.
  - cbn. split_and!; try done; lia.
Qed.

Lemma worker_can_step w : wf w -> q_closed (w_q w) = true -> w_worker w = WDone \/ exists l w', worker_step w l w'.
Proof.
  intros W Hc. destruct (w_worker w) as [| |v|] eqn:Hk; [right|right|right|by left].
  - destruct (worker_turn 0 (w_q w)) as [q' k] eqn:Ht. eexists _, _. by eapply (ws_turn 0).
  - eexists _, _. apply ws_ready; [done|]. apply (wf_wake w W); auto.
  - eexists _, _. by apply (ws_returned v true).
Qed.

Lemma worker_drains n : forall w, (left_to_do w <= n)%nat -> wf w -> q_closed (w_q w) = true ->
  exists tr w', worker_run w tr w' /\ q_drained (w_q w') = true /\ (length tr <= n)%nat /\
    gather handed_of tr = map e_v (q_items (w_q w)).
Proof.
  induction n as [|n IH]; intros w Hn W Hc;
    destruct (worker_can_step w W Hc) as [Hd|(l & w' & Hs)].
  1, 3: exists [], w; split_and!; [constructor|by apply (wf_done w W)|cbn; lia|];
    by destruct (wf_drained w W Hd) as [_ ->].
  - destruct (worker_step_left w l w' Hc Hs) as (_ & Hlt & _). lia.
  - destruct (worker_step_left w l w' Hc Hs) as (Hc' & Hlt & Hh).
    destruct (IH w') as (tr & w'' & Hrun & Hd & Hlen & Hg); [lia| |done|].
    { eapply wf_step; [done|]. by apply worker_step_step. }
    exists (l :: tr), w''. split_and!; [by econstructor|done|cbn; lia|].
    unfold gather in *. cbn. by rewrite Hg.
Qed.

(** a closed queue drains. From any state it can be closed in, the worker
    — whatever its callback does with each value, panic included — needs at
    most [left_to_do] steps of its own, is never stuck before, and hands over
    exactly the values queued, in order; Drained is then closed. *)
Theorem closed_queue_drains limits tr w (H : steps (start limits) tr w) (Hc : q_closed (w_q w) = true) :
  (q_drained (w_q w) = true \/ exists l w', worker_step w l w') /\
  (forall l w', worker_step w l w' -> q_closed (w_q w') = true /\ (left_to_do w' < left_to_do w)%nat) /\
  (exists tr' w', worker_run w tr' w' /\ q_drained (w_q w') = true /\ (length tr' <= left_to_do w)%nat /\
     gather handed_of tr' = map e_v (q_items (w_q w))).
Proof.
  pose proof (wf_reachable limits tr w H) as W. split_and!.
  - rewrite (wf_done w W). by apply worker_can_step.
  - intros l w' Hs. by destruct (worker_step_left w l w' Hc Hs) as (? & ? & _).
  - by apply worker_drains.
Qed.

Lemma spec_closed_step s l s' : spec_step s l s' -> a_closed s = true -> a_closed s' = true /\ accepted_of l = [].
Proof. inversion 1; subst; cbn in *; try done; congruence. Qed.

(** PushLast's value is the last. Nothing is accepted after it, and a queue
    drained without being abandoned handed it over last. *)
Theorem push_last_is_last limits tr1 v tr2 w
  (H : steps (start limits) (tr1 ++ LAcceptedLast v :: tr2) w) :
  gather accepted_of tr2 = [] /\
  (q_drained (w_q w) = true -> q_abandoned (w_q w) = false ->
   gather handed_of (tr1 ++ LAcceptedLast v :: tr2) = gather accepted_of tr1 ++ [v]).
Proof.
  assert (Hacc : gather accepted_of tr2 = []).
  { cut (gather accepted_of tr2 = [] /\ a_closed (abs w) = true); [by intros [? _]|].
    revert w H. induction tr2 as [|l tr2 IH] using rev_ind; intros w H.
    - apply steps_inv in H as (w0 & H0 & Hs). apply (queue_step_refines limits tr1) in Hs; [|done]. by inversion Hs.
    - rewrite app_comm_cons, app_assoc in H. apply steps_inv in H as (w0 & H0 & Hs).
      destruct (IH w0 H0) as [Hg Hcl]. apply (queue_step_refines limits _ _ _ _ H0) in Hs.
      destruct (spec_closed_step _ _ _ Hs Hcl) as [? Hl]. rewrite gather_snoc, Hg, Hl. done. }
  split; [done|]. intros Hd Ha. pose proof (wf_reachable _ _ _ H) as W.
  destruct (ordered_reachable _ _ _ H) as [Ho Hdr].
  assert (Hdrop : gather dropped_of (tr1 ++ LAcceptedLast v :: tr2) = []) by (by eapply dropped_reachable).
  apply (wf_done w W) in Hd. destruct (wf_drained w W Hd) as [_ Hit].
  rewrite Hdrop in Ho. unfold abs in Ho. cbn [a_pending] in Ho. rewrite Hit in Ho. cbn in Ho. rewrite app_nil_r in Ho.
  rewrite <- Ho. unfold gather in *. rewrite map_app, concat_app. cbn. by rewrite Hacc.
Qed.
End Queue.
Arguments world : clear implicits.
Arguments label : clear implicits.
Arguments queue : clear implicits.
Arguments e_v {T} _.

(** ** A run: a value pushed, the worker takes it, the last value is pushed *)

Definition demo_size (v : nat) : Z := Z.of_nat v.
Definition demo_limits : Limits := mkLimits 2 10.
Definition demo_w1 : world nat :=
  let '(q, r) := push_turn 0 5 3%nat (demo_size 3) (New demo_limits) in
  mkWorld q WTop (after_push 0 3%nat (demo_size 3) q r ∅).
Definition demo_w2 : world nat := let '(q, k) := worker_turn 6 (w_q demo_w1) in mkWorld q k ∅.
Definition demo_w3 : world nat := mkWorld (PushLast demo_size 4%nat (w_q demo_w2)) (w_worker demo_w2) ∅.
Definition demo_w4 : world nat := mkWorld (worker_done true (w_q demo_w3)) WTop ∅.

Lemma demo_size_nonneg v : 0 <= demo_size v.
Proof. unfold demo_size. lia. Qed.

Lemma demo_queue1 : steps demo_size (start demo_limits) [LAccepted 3%nat] demo_w1.
Proof.
  apply (steps_snoc demo_size _ [] (start demo_limits)); [constructor|].
  apply (step_push demo_size 0 5 3%nat (start demo_limits) (w_q demo_w1) (Some (Ok tt))); by vm_compute.
Qed.

Lemma demo_take : step demo_size demo_w1 (LHanded 3%nat) demo_w2.
Proof. apply (step_worker demo_size 6 demo_w1 (w_q demo_w2) (WDeliver 3%nat)); by vm_compute. Qed.

Lemma demo_queue4 : steps demo_size (start demo_limits)
  [LAccepted 3%nat; LHanded 3%nat; LAcceptedLast 4%nat; LReturned 3%nat true] demo_w4.
Proof.
  apply (steps_snoc demo_size _ [LAccepted 3%nat; LHanded 3%nat; LAcceptedLast 4%nat] demo_w3).
  - apply (steps_snoc demo_size _ [LAccepted 3%nat; LHanded 3%nat] demo_w2).
    + apply (steps_snoc demo_size _ [LAccepted 3%nat] demo_w1); [apply demo_queue1|apply demo_take].
    + exact (step_push_last demo_size 4%nat demo_w2).
  - apply (step_returned demo_size 3%nat true demo_w3). by vm_compute.
Qed.

Lemma queue_refines_fifo_witness : spec_step (abs demo_w1) (LHanded 3%nat) (abs demo_w2).
Proof.
  refine (queue_refines_fifo demo_size _ demo_limits [LAccepted 3%nat] demo_w1 _ demo_w2 demo_queue1 demo_take).
  intros v. unfold demo_size. lia.
Defined.

Lemma delivery_in_push_order_witness :
  gather accepted_of [LAccepted 3%nat; LHanded 3%nat; LAcceptedLast 4%nat; LReturned 3%nat true] =
  gather handed_of [LAccepted 3%nat; LHanded 3%nat; LAcceptedLast 4%nat; LReturned 3%nat true] ++
  gather dropped_of [LAccepted 3%nat; LHanded 3%nat; LAcceptedLast 4%nat; LReturned 3%nat true] ++
  map e_v (q_items (w_q demo_w4)).
Proof.
  refine (proj1 (delivery_in_push_order demo_size _ demo_limits _ demo_w4 demo_queue4)).
  intros v. unfold demo_size. lia.
Defined.

Lemma every_value_accounted_witness :
  q_delivered (w_q demo_w4) + q_lost (w_q demo_w4) + llen (q_items (w_q demo_w4)) + in_flight (w_worker demo_w4) = 2.
Proof.
  refine (every_value_accounted demo_size _ demo_limits _ demo_w4 demo_queue4).
  intros v. unfold demo_size. lia.
Defined.

Lemma bounded_and_no_lost_wakeup_witness :
  llen (q_items (w_q demo_w1)) <= 2 /\ q_bytes (w_q demo_w1) <= 10.
Proof.
  refine (proj1 (bounded_and_no_lost_wakeup demo_size _ demo_limits [LAccepted 3%nat] demo_w1 demo_queue1) _).
  - intros v. unfold demo_size. lia.
  - vm_compute. reflexivity.
Defined.

Lemma closed_queue_drains_witness :
  exists tr' w', worker_run demo_w4 tr' w' /\ q_drained (w_q w') = true /\ (length tr' <= 4)%nat /\
    gather handed_of tr' = [4%nat].
Proof.
  refine (proj2 (proj2 (closed_queue_drains demo_size _ demo_limits _ demo_w4 demo_queue4 _))).
  - intros v. unfold demo_size. lia.
  - by vm_compute.
Defined.

Lemma push_last_is_last_witness : gather accepted_of [LReturned 3%nat true] = [].
Proof.
  refine (proj1 (push_last_is_last demo_size _ demo_limits [LAccepted 3%nat; LHanded 3%nat] 4%nat
    [LReturned 3%nat true] demo_w4 demo_queue4)).
  intros v. unfold demo_size. lia.
Defined.
