(* ===== verification/Markers.v ===== *)
(** Submission markers (pkg/adapter/markers.go), Recover built on them
    (pkg/adapter/record.go), and the Session lock (pkg/adapter/sessionlock.go).

    A store is its directory: whether its sentinel is there, its files by name
    and its modification time. A file is what [json.Unmarshal] reads from it: a
    marker, or nothing readable. What the file system may do to each call is an
    argument ([faults]): every operation is checked with every call failing or
    succeeding. What another process does between two calls of one operation is
    an argument too: the store each call finds. *)
From Stdlib Require Import ZArith Ascii String Lia.
From stdpp Require Import base tactics list gmap strings option fin_maps.
From S2P Require Import Prelude GoStr Json Contract Requests Observation.

#[local] Open Scope string_scope.
#[local] Open Scope Z_scope.

Record Marker := mkMarker { mk_input : string; mk_native : string; mk_session : string; mk_at : Time }.
#[export] Instance Marker_eq_dec : EqDecision Marker.
Proof. solve_decision. Defined.

(** ** What a marker file holds *)

Definition replacement : string := byte_string 239 ++ byte_string 191 ++ byte_string 189.

(** A string after a round trip through JSON: bytes that are not UTF-8 become
    the replacement character. *)
Fixpoint json_bytes (bs : list Z) : string :=
  match bs with
  | [] => ""
  | b0 :: t0 =>
    if b0 <? 128 then byte_string b0 ++ json_bytes t0
    else match t0 with
      | [] => replacement
      | b1 :: t1 =>
        if in_range 194 223 b0 && in_range 128 191 b1
        then byte_string b0 ++ byte_string b1 ++ json_bytes t1
        else match t1 with
          | [] => replacement ++ json_bytes t0
          | b2 :: t2 =>
            if second3 b0 b1 && in_range 128 191 b2
            then byte_string b0 ++ byte_string b1 ++ byte_string b2 ++ json_bytes t2
            else match t2 with
              | [] => replacement ++ json_bytes t0
              | b3 :: t3 =>
                if second4 b0 b1 && in_range 128 191 b2 && in_range 128 191 b3
                then byte_string b0 ++ byte_string b1 ++ byte_string b2 ++ byte_string b3 ++ json_bytes t3
                else replacement ++ json_bytes t0
              end
          end
      end
  end.
Definition json_string (s : string) : string := json_bytes (bytes s).

(** A file's content, as [json.Unmarshal] reads it into a Marker. *)
Inductive content := CMarker (mk : Marker) | CCorrupt.
#[export] Instance content_eq_dec : EqDecision content.
Proof. solve_decision. Defined.

(** [json.Marshal(mk)]: an error for a time JSON cannot name. *)
Definition encode_marker (mk : Marker) : option content :=
  match RFC3339Nano (mk_at mk) with
  | Some _ => Some (CMarker (mkMarker (json_string (mk_input mk)) (json_string (mk_native mk))
                               (json_string (mk_session mk)) (mk_at mk)))
  | None => None
  end.

(** ** The store *)

Record dirent := mkDirent { de_regular : bool; de_content : content }.
#[export] Instance dirent_eq_dec : EqDecision dirent.
Proof. solve_decision. Defined.

Record store := mkStore { s_sentinel : bool; s_files : gmap string dirent; s_mtime : Z }.

(** What one operation's system calls do, beyond what the store says. A failed
    [f_stat] on the sentinel or a file is any error but ErrNotExist. *)
Inductive link_outcome := Linked | LinkFails | LinkUnsupported.
Inductive fallback := FWritten | FRemoved | FLeft.
Record faults := mkFaults {
  f_intact : bool;    (** the Lstat of the sentinel fails *)
  f_lstat : bool;     (** the Lstat of the marker fails *)
  f_temp : bool;      (** writing and syncing the temp file fails *)
  f_link : link_outcome;
  f_fallback : fallback;  (** without hard links: final itself, written, or not and removed, or left partial *)
  f_sync : bool;      (** syncing the directory fails *)
  f_read : bool;      (** reading the marker fails *)
  f_remove : bool;    (** removing it fails *)
  f_stat : bool;      (** the Stat of the directory fails *)
  f_readdir : bool;   (** listing it fails *)
}.
Definition no_faults : faults := mkFaults false false false Linked FWritten false false false false false.

(** An instance's index of the store. *)
Record Markers := mkMarkers {
  m_loaded : bool;
  m_byNative : gmap string Marker;
  m_scannedMod : option Z;   (** [None]: the zero time *)
  m_scannedAt : Z;
}.
Definition newMarkers : Markers := mkMarkers false ∅ None 0.

Inductive write_error := ErrMarked | ErrMalformed | ErrNotIntact | ErrIO.

Section Store.
(** hex(sha256(id)): the code's [fileName] before its suffix. *)
Context (digest : string -> string).

Definition fileName (inputID : string) : string := digest inputID ++ ".json".

Definition intact (f : faults) (s : store) : bool := negb (f_intact f) && s_sentinel s.

(** The store [createStore] makes, and what [OpenMarkers] finds: [None] is no
    store, [at_rename] what is at its name when the new one is renamed there: a
    directory with entries stays, an empty one is replaced.
    [f_temp] fails the making, [f_sync] the last sync. *)
Definition createStore (f : faults) (now : Z) (at_rename : option store) : option store * result write_error unit :=
  if f_temp f then (at_rename, Err ErrIO)
  else match at_rename with
    | Some s =>
      if s_sentinel s || negb (bool_decide (s_files s = ∅)) then (Some s, Ok tt)
      else (Some (mkStore true ∅ now), if f_sync f then Err ErrIO else Ok tt)
    | None => (Some (mkStore true ∅ now), if f_sync f then Err ErrIO else Ok tt)
    end.

Definition OpenMarkers (f : faults) (now : Z) (found at_rename : option store)
  : option store * result write_error Markers :=
  if f_lstat f then (found, Err ErrIO)
  else match found with
    | Some s => (Some s, Ok newMarkers)
    | None =>
      let '(s, r) := createStore f now at_rename in
      (s, r ≫= fun _ => Ok newMarkers)
    end.

Definition put (now : Z) (name : string) (c : content) (s : store) : store :=
  mkStore (s_sentinel s) (<[name := mkDirent true c]> (s_files s)) now.

Definition has_file (name : string) (s : store) : bool := bool_decide (is_Some (s_files s !! name)).

(** The temp file beside it, made and removed, moves the directory's time. *)
Definition touch (now : Z) (s : store) : store := mkStore (s_sentinel s) (s_files s) now.

(** [publishExclusive]; [ErrMarked] stands for an error wrapping fs.ErrExist. *)
Definition publishExclusive (f : faults) (now : Z) (final : string) (data : content) (s : store)
  : store * result write_error unit :=
  if f_temp f then (s, Err ErrIO)
  else match f_link f with
    | Linked => if has_file final s then (touch now s, Err ErrMarked) else (put now final data s, Ok tt)
    | LinkFails => (touch now s, Err ErrIO)
    | LinkUnsupported =>
      if has_file final s then (touch now s, Err ErrMarked)
      else match f_fallback f with
        | FWritten => (put now final data s, Ok tt)
        | FRemoved => (touch now s, Err ErrIO)
        | FLeft => (put now final CCorrupt s, Err ErrIO)
        end
    end.

(** [Write]: [s1] is the store as its checks find it, [s2] as the publishing
    finds it. *)
Definition Write (f : faults) (now : Z) (mk : Marker) (m : Markers) (s1 s2 : store)
  : Markers * store * result write_error unit :=
  if negb (ValidID (mk_input mk)) || (mk_native mk =s? "") then (m, s2, Err ErrMalformed)
  else match encode_marker mk with
    | None => (m, s2, Err ErrIO)
    | Some data =>
      if negb (intact f s1) then (m, s2, Err ErrNotIntact)
      else if f_lstat f then (m, s2, Err ErrIO)
      else if has_file (fileName (mk_input mk)) s1 then (m, s2, Err ErrMarked)
      else match publishExclusive f now (fileName (mk_input mk)) data s2 with
        | (s, Err e) => (m, s, Err e)
        | (s, Ok _) =>
          if f_sync f then (m, s, Err ErrIO)
          else (if m_loaded m
                then mkMarkers true (<[mk_native mk := mk]> (m_byNative m)) (m_scannedMod m) (m_scannedAt m)
                else m, s, Ok tt)
        end
    end.

(** [Withdraw]; [s1] as it is read, [s2] as it is removed. *)
Definition Withdraw (f : faults) (now : Z) (inputID : string) (m : Markers) (s1 s2 : store)
  : Markers * store * result write_error unit :=
  if negb (intact f s1) then (m, s2, Err ErrNotIntact)
  else match s_files s1 !! fileName inputID with
    | None => (m, s2, Ok tt)
    | Some d =>
      if f_read f then (m, s2, Err ErrIO)
      else if f_remove f then (m, s2, Err ErrIO)
      else
        let s := if has_file (fileName inputID) s2
                 then mkStore (s_sentinel s2) (delete (fileName inputID) (s_files s2)) now else s2 in
        if f_sync f then (m, s, Err ErrIO)
        else (match de_content d with
              | CMarker mk =>
                if m_loaded m && negb (mk_native mk =s? "")
                then mkMarkers true (delete (mk_native mk) (m_byNative m)) (m_scannedMod m) (m_scannedAt m)
                else m
              | CCorrupt => m
              end, s, Ok tt)
    end.

(** [Lookup]: [Ok None] is "found is false". *)
Definition Lookup (f : faults) (inputID : string) (s : store) : result write_error (option Marker) :=
  if negb (intact f s) then Err ErrNotIntact
  else match s_files s !! fileName inputID with
    | None => Ok None
    | Some d =>
      if f_read f then Err ErrIO
      else match de_content d with
        | CMarker mk =>
          if negb (mk_input mk =s? inputID) || (mk_native mk =s? "") then Err ErrIO else Ok (Some mk)
        | CCorrupt => Err ErrIO
        end
    end.

(** ** The native index *)

Definition markerScanSlack : Z := 2 * Second.

Definition staleLocked (f : faults) (m : Markers) (s : store) : bool :=
  if negb (m_loaded m) then true
  else if f_stat f then true
  else match m_scannedMod m with
    | Some mod_ => negb (s_mtime s =? mod_) || (m_scannedAt m - mod_ <? markerScanSlack)
    | None => true
    end.

Definition HasSuffix (s suf : string) : bool :=
  (slen suf <=? slen s) && (String.substring (String.length s - String.length suf) (String.length suf) s =s? suf).

(** The marker a directory entry indexes, if any; [readable] is whether reading
    it succeeds. *)
Definition indexed (readable : string -> bool) (name : string) (d : dirent) : option Marker :=
  if negb (de_regular d) || negb (HasSuffix name ".json") || negb (readable name) then None
  else match de_content d with
    | CMarker mk =>
      if (mk_native mk =s? "") || negb (fileName (mk_input mk) =s? name) then None else Some mk
    | CCorrupt => None
    end.

Definition index_entry (readable : string -> bool) (ix : gmap string Marker) (e : string * dirent) : gmap string Marker :=
  match indexed readable e.1 e.2 with Some mk => <[mk_native mk := mk]> ix | None => ix end.

(** [loadLocked] at [now]; [entries] is the listing, in the order ReadDir gives
    it. *)
Definition loadLocked (f : faults) (now : Z) (readable : string -> bool) (entries : list (string * dirent))
  (m : Markers) (s : store) : Markers :=
  mkMarkers true
    (if f_readdir f then m_byNative m else foldl (index_entry readable) (m_byNative m) entries)
    (if f_stat f then None else Some (s_mtime s)) now.

Definition ByNative (f : faults) (now : Z) (readable : string -> bool) (entries : list (string * dirent))
  (native : string) (m : Markers) (s : store) : Markers * option Marker :=
  match m_byNative m !! native with
  | Some mk => (m, Some mk)
  | None =>
    if negb (staleLocked f m s) then (m, None)
    else let m := loadLocked f now readable entries m s in (m, m_byNative m !! native)
  end.

(** ** record.go: Recover *)

Context (digest16 : string -> string).

(** [reader] is what the profile's Reader.Recover answers for the marker. *)
Definition Recover (f : faults) (session inputID : string) (reader : Marker -> result goerr Recovered) (s : store)
  : result Error Recovered :=
  if negb (ValidID inputID) then Err (FieldError CodeProtocol "input_id")
  else match Lookup f inputID s with
    | Err _ => Ok (mkRecovered RecoveredUnknown "")
    | Ok None => Ok (mkRecovered RecoveredNotFound "")
    | Ok (Some mk) =>
      if negb (mk_session mk =s? session) then Ok (mkRecovered RecoveredUnknown "")
      else match reader mk with
        | Err _ => Err (Errorf CodeInternal)
        | Ok got =>
          Ok (if negb (bool_decide (rc_outcome got = RecoveredUnknown)) && (rc_turn got =s? "")
              then mkRecovered (rc_outcome got) (TurnID digest16 inputID) else got)
        end
    end.

(** ** sessionlock.go *)

(** The locks of a scratch root held now, by file name. [f_temp] fails making the
    directory, opening the file, or the flock itself otherwise than by another
    Host's hold. *)
Definition lockName (id : string) : string := digest id ++ ".lock".

Definition lockSession (f : faults) (id : string) (held : gset string) : result goerr (gset string) :=
  if f_temp f then Err plain_err
  else if bool_decide (lockName id ∈ held) then Err (wrap (OpenError OpenSessionInUse))
  else Ok ({[lockName id]} ∪ held).

Definition lock_release (id : string) (held : gset string) : gset string := held ∖ {[lockName id]}.

(** ** Every process's operations on one store *)

Inductive store_label := LWrite (mk : Marker) (r : result write_error unit) | LWithdraw (id : string).

(** Each step is the one call of an operation that changes the store; the
    checks before it saw an earlier store. *)
Inductive store_step : store -> store_label -> store -> Prop :=
| ss_write f now mk m s1 m' s s' r :
    Write f now mk m s1 s = (m', s', r) -> store_step s (LWrite mk r) s'
| ss_withdraw f now id m s1 m' s s' r :
    Withdraw f now id m s1 s = (m', s', r) -> store_step s (LWithdraw id) s'.

Inductive store_steps : store -> list store_label -> store -> Prop :=
| store_nil s : store_steps s [] s
| store_cons s l s' tr s'' : store_step s l s' -> store_steps s' tr s'' -> store_steps s (l :: tr) s''.

(** ** Properties *)

(** No Write touches a file already there. *)
Lemma publish_files f now final data s s' r : publishExclusive f now final data s = (s', r) ->
  s_sentinel s' = s_sentinel s /\
  match r with
  | Ok _ => s_files s !! final = None /\ s_files s' = <[final := mkDirent true data]> (s_files s)
  | Err _ => s_files s' = s_files s \/
             (s_files s !! final = None /\ s_files s' = <[final := mkDirent true CCorrupt]> (s_files s))
  end.
Proof.
  unfold publishExclusive, has_file. destruct (f_temp f); [intros [= <- <-]; auto|].
  destruct (f_link f); [|intros [= <- <-]; auto|];
    (case_bool_decide as Hs; [intros [= <- <-]; auto|]); apply eq_None_not_Some in Hs;
    [intros [= <- <-]; auto|]. destruct (f_fallback f); intros [= <- <-]; cbn; auto.
Qed.

Lemma Write_files f now mk m s1 m' s s' r : Write f now mk m s1 s = (m', s', r) ->
  s_sentinel s' = s_sentinel s /\
  (s_files s' = s_files s \/
   (s_files s !! fileName (mk_input mk) = None /\
    exists c, s_files s' = <[fileName (mk_input mk) := mkDirent true c]> (s_files s))) /\
  (r = Ok tt -> s_files s !! fileName (mk_input mk) = None /\ exists data,
     encode_marker mk = Some data /\ s_files s' = <[fileName (mk_input mk) := mkDirent true data]> (s_files s)) /\
  (r = Err ErrMarked -> s_files s' = s_files s) /\
  (r = Ok tt -> ValidID (mk_input mk) = true /\ mk_native mk <> "").
Proof.
  unfold Write. destruct (negb (ValidID (mk_input mk)) || (mk_native mk =s? "")) eqn:Ev; [intros [= <- <- <-]; by split_and!; auto|].
  apply orb_false_iff in Ev as [Ev En]. apply negb_false_iff in Ev. apply String.eqb_neq in En.
  destruct (encode_marker mk) as [data|]; [|intros [= <- <- <-]; by split_and!; auto].
  destruct (negb (intact f s1)); [intros [= <- <- <-]; by split_and!; auto|].
  destruct (f_lstat f); [intros [= <- <- <-]; by split_and!; auto|].
  destruct (has_file _ s1); [intros [= <- <- <-]; by split_and!; auto|].
  destruct (publishExclusive f now (fileName (mk_input mk)) data s) as [s0 [[]|e]] eqn:Ep; pose proof (publish_files _ _ _ _ _ _ _ Ep) as [Hs Hp].
  - destruct Hp as [Hn Hf]. destruct (f_sync f); intros [= <- <- <-]; split_and!; try done; eauto.
  - intros [= <- <- <-]. split_and!; try done.
    + destruct Hp as [?|[? ?]]; eauto.
    + intros [= ->]. destruct Hp as [?|[Hn Hp]]; [done|]. exfalso. unfold publishExclusive in Ep.
      assert (Hh : has_file (fileName (mk_input mk)) s = false) by (unfold has_file; rewrite Hn; by apply bool_decide_eq_false; intros []).
      rewrite Hh in Ep. destruct (f_temp f); [done|]. destruct (f_link f); try done. by destruct (f_fallback f).
Qed.

Lemma Withdraw_files f now id m s1 m' s s' r : Withdraw f now id m s1 s = (m', s', r) ->
  s_sentinel s' = s_sentinel s /\
  (s_files s' = s_files s \/ s_files s' = delete (fileName id) (s_files s)).
Proof.
  unfold Withdraw. destruct (negb (intact f s1)); [intros [= <- <- <-]; by split_and!; auto|].
  destruct (s_files s1 !! fileName id) as [d|]; [|intros [= <- <- <-]; by split_and!; auto].
  destruct (f_read f); [intros [= <- <- <-]; by split_and!; auto|]. destruct (f_remove f); [intros [= <- <- <-]; by split_and!; auto|].
  destruct (f_sync f); intros [= <- <- <-]; destruct (has_file (fileName id) s); cbn; auto.
Qed.

(** While no Withdraw names it, a marker file stays as it is. *)
Definition names (id : string) (l : store_label) : Prop :=
  match l with LWithdraw id' => fileName id' = fileName id | _ => False end.

Lemma marker_stays s tr s' id d : store_steps s tr s' -> Forall (fun l => ~ names id l) tr ->
  s_files s !! fileName id = Some d -> s_files s' !! fileName id = Some d.
Proof.
  induction 1 as [|s l s1 tr s2 Hs _ IH]; intros Hn Hd; [done|].
  apply Forall_cons_iff in Hn as [Hl Hn]. apply IH; [done|]. clear IH Hn.
  inversion Hs as [f now mk m sa m' s0 s0' r Hw|f now id' m sa m' s0 s0' r Hw]; subst.
  - apply Write_files in Hw as (_ & [->|(Hnone & c & ->)] & _); [done|].
    rewrite lookup_insert_ne; [done|]. intros E. rewrite E in Hnone. congruence.
  - apply Withdraw_files in Hw as (_ & [->| ->]); [done|]. cbn in Hl. by rewrite lookup_delete_ne.
Qed.

Lemma Lookup_found f id s d : s_files s !! fileName id = Some d -> Lookup f id s <> Ok None.
Proof.
  intros Hd. unfold Lookup. destruct (negb (intact f s)); [done|]. rewrite Hd.
  destruct (f_read f); [done|]. destruct (de_content d); [|done]. by destruct (_ || _).
Qed.


(** Recover says not_found of an id only when its own store is intact and
    has no file for it, provided the record's reader does not say so itself:
    never on an unreadable store or marker, and never when the marker names
    another Session, which is unknown. *)
Theorem Recover_not_found f session id reader s got
  (Hreader : forall mk got, reader mk = Ok got -> rc_outcome got <> RecoveredNotFound)
  (Hid : ValidID id = true) (H : Recover f session id reader s = Ok got) :
  (rc_outcome got = RecoveredNotFound <-> intact f s = true /\ s_files s !! fileName id = None) /\
  (rc_outcome got <> RecoveredNotFound -> rc_outcome got <> RecoveredUnknown ->
     exists mk g, Lookup f id s = Ok (Some mk) /\ mk_session mk = session /\ reader mk = Ok g /\
       rc_outcome got = rc_outcome g).
Proof.
  unfold Recover in H. rewrite Hid in H. cbn [negb] in H. unfold Lookup in *.
  destruct (intact f s) eqn:Ei; cbn [negb] in *; [|injection H as <-; cbn; naive_solver].
  destruct (s_files s !! fileName id) as [d|] eqn:Ef; [|injection H as <-; cbn; naive_solver].
  destruct (f_read f); [injection H as <-; cbn; naive_solver|].
  destruct (de_content d) as [mk|]; [|injection H as <-; cbn; naive_solver].
  destruct (negb (mk_input mk =s? id) || (mk_native mk =s? "")); [injection H as <-; cbn; naive_solver|].
  destruct (String.eqb_spec (mk_session mk) session) as [Hs|Hs]; cbn [negb] in H; [|injection H as <-; cbn; naive_solver].
  destruct (reader mk) as [g|e] eqn:Er; [|done]. injection H as H. pose proof (Hreader mk g Er) as Hg.
  assert (Ho : rc_outcome got = rc_outcome g) by (rewrite <- H; by destruct (_ && _)).
  rewrite Ho. split; [naive_solver|]. intros _ _. exists mk, g. done.
Qed.

(** ** Round trips *)

Lemma json_bytes_valid n : forall bs, (length bs <= n)%nat -> Forall (fun b => 0 <= b < 256) bs ->
  valid_bytes bs = true -> bytes (json_bytes bs) = bs.
Proof.
  assert (Hb : forall b, 0 <= b < 256 -> bytes (byte_string b) = [b]).
  { intros b H. unfold bytes, byte_string. cbn. unfold code. rewrite N_ascii_embedding; [|lia]. f_equal. lia. }
  induction n as [|n IH]; intros bs Hn Hr Hv; [by destruct bs; [|cbn in Hn; lia]|].
  destruct bs as [|b0 t0]; [done|]. cbn [json_bytes decode_runes length] in *.
  apply Forall_cons_iff in Hr as [Hr0 Hr].
  destruct (b0 <? 128).
  { rewrite bytes_app, Hb by done. cbn in Hv |- *. f_equal. apply IH; [lia|done|done]. }
  destruct t0 as [|b1 t1]; [done|]. apply Forall_cons_iff in Hr as [Hr1 Hr]. cbn [length] in *.
  destruct (_ && _).
  { rewrite !bytes_app, !Hb by done. cbn in Hv |- *. do 2 f_equal. apply IH; [lia|done|done]. }
  destruct t1 as [|b2 t2]; [done|]. apply Forall_cons_iff in Hr as [Hr2 Hr]. cbn [length] in *.
  destruct (_ && _).
  { rewrite !bytes_app, !Hb by done. cbn in Hv |- *. do 3 f_equal. apply IH; [lia|done|done]. }
  destruct t2 as [|b3 t3]; [done|]. apply Forall_cons_iff in Hr as [Hr3 Hr]. cbn [length] in *.
  destruct (_ && _ && _); [|done].
  rewrite !bytes_app, !Hb by done. cbn in Hv |- *. do 4 f_equal. apply IH; [lia|done|done].
Qed.

Lemma append_inj_r s t u : s ++ t = u ++ t -> s = u.
Proof.
  intros H. apply (f_equal bytes) in H. rewrite !bytes_app in H. by apply app_inv_tail, bytes_inj in H.
Qed.

Lemma json_string_valid s : ValidString s = true -> json_string s = s.
Proof.
  intros H. apply bytes_inj, (json_bytes_valid (length (bytes s))); [done| |done].
  apply list.Forall_forall. intros b Hb. by apply bytes_range in Hb.
Qed.

Lemma ValidID_ValidString s : ValidID s = true -> ValidString s = true.
Proof.
  rewrite ValidID_ascii. intros H. apply andb_true_iff in H as [_ H]. apply ValidString_ascii.
  rewrite forallb_forall in H |- *. intros b Hb. specialize (H b Hb). unfold id_rune, in_range in H.
  apply Z.ltb_lt. destruct (Z.lt_ge_cases b 128); [done|].
  repeat match type of H with context [?a <=? ?b] => destruct (Z.leb_spec a b); try lia
    | context [?a =? ?b] => destruct (Z.eqb_spec a b); try lia end; done.
Qed.

(** a marker written is a marker found: after Write returned nil, Lookup on
    the intact store gives it back, and after Withdraw returned nil, Lookup
    finds none while the marker of every id with another digest is as it was. *)
Theorem marker_round_trip f now mk m s1 m' s s'
  (Hnat : ValidString (mk_native mk) = true) (Hses : ValidString (mk_session mk) = true)
  (Hw : Write f now mk m s1 s = (m', s', Ok tt)) (Hi : s_sentinel s = true) :
  Lookup no_faults (mk_input mk) s' = Ok (Some mk) /\
  forall now2 m2 m3 s3, Withdraw no_faults now2 (mk_input mk) m2 s' s' = (m3, s3, Ok tt) ->
    Lookup no_faults (mk_input mk) s3 = Ok None /\
    (forall id g, digest id <> digest (mk_input mk) -> Lookup g id s3 = Lookup g id s).
Proof.
  pose proof (Write_files _ _ _ _ _ _ _ _ _ Hw) as (Hsent & _ & Hok & _ & Hid).
  destruct (Hok eq_refl) as (Hnone & data & Hdata & Hf). destruct (Hid eq_refl) as [Hv Hn].
  assert (Hd : data = CMarker mk).
  { unfold encode_marker in Hdata. destruct (RFC3339Nano (mk_at mk)); [|done]. injection Hdata as <-.
    rewrite !json_string_valid; [by destruct mk|done|done|by apply ValidID_ValidString]. }
  split.
  - unfold Lookup, intact. rewrite Hsent, Hi, Hf, lookup_insert_eq. cbn. rewrite Hd, String.eqb_refl.
    by rewrite (proj2 (String.eqb_neq _ _) Hn).
  - intros now2 m2 m3 s3 Hwd. unfold Withdraw, intact in Hwd. rewrite Hsent, Hi, Hf, lookup_insert_eq in Hwd. cbn in Hwd.
    unfold has_file in Hwd. rewrite Hf, lookup_insert_eq in Hwd. rewrite bool_decide_true in Hwd by (by eexists).
    injection Hwd as _ <-. split.
    + unfold Lookup, intact. cbn [s_sentinel s_files]. rewrite ?Hsent, ?Hi. cbn. by rewrite lookup_delete_eq.
    + intros id g Hne. unfold Lookup, intact. cbn [s_sentinel s_files]. rewrite ?Hsent, ?Hi.
      assert (Hnm : fileName (mk_input mk) <> fileName id).
      { unfold fileName. intros E. apply Hne. symmetry. by apply append_inj_r in E. }
      rewrite lookup_delete_ne, lookup_insert_ne by done. done.
Qed.

(** ** The index misses nothing *)

(** The store's changes after a scan at [t0]: a change at [t] leaves the
    directory's time at [tick t], a file system's clock no further than the
    slack behind. *)
Inductive changes (tick : Z -> Z) (t0 : Z) (s0 : store) : Z -> store -> Prop :=
| ch_none : changes tick t0 s0 t0 s0
| ch_change t s t' files sentinel :
    changes tick t0 s0 t s -> t <= t' -> changes tick t0 s0 t' (mkStore sentinel files (tick t')).

Lemma changes_time tick t0 s0 t s : changes tick t0 s0 t s -> t0 <= t.
Proof. induction 1; lia. Qed.

Lemma changes_mtime tick t0 s0 t s : (forall t, t - markerScanSlack < tick t) -> changes tick t0 s0 t s ->
  s_mtime s = s_mtime s0 -> markerScanSlack <= t0 - s_mtime s0 -> s = s0.
Proof.
  intros Htick H. destruct H as [|t1 s1 t' files sent Hc Hle]; [done|]. cbn. intros Hm Hs.
  apply changes_time in Hc. specialize (Htick t'). lia.
Qed.

Lemma index_keeps readable entries : forall ix native, is_Some (ix !! native) ->
  is_Some (foldl (index_entry readable) ix entries !! native).
Proof.
  induction entries as [|[name d] entries IH]; intros ix native H; [done|]. cbn. apply IH. unfold index_entry.
  cbn [fst snd]. destruct (indexed readable name d) as [mk|]; [|done].
  destruct (decide (mk_native mk = native)) as [->|?]; [rewrite lookup_insert_eq; by eexists|by rewrite lookup_insert_ne].
Qed.

Lemma index_finds readable entries ix name d mk : (name, d) ∈ entries -> indexed readable name d = Some mk ->
  is_Some (foldl (index_entry readable) ix entries !! mk_native mk).
Proof.
  intros Hin Hix. revert ix. induction entries as [|[name' d'] entries IH]; intros ix; [by apply elem_of_nil in Hin|].
  apply elem_of_cons in Hin as [[= <- <-]|Hin]; cbn; [|by apply IH].
  apply index_keeps. unfold index_entry. cbn. rewrite Hix, lookup_insert_eq. by eexists.
Qed.

(** ByNative misses no marker. When the file system's time is never more
    than markerScanSlack behind, a miss on a store that changed in any way
    since the index read it — or did not, which costs one stat — means no
    readable marker of the store has that native id. *)
Theorem ByNative_complete tick t0 s0 entries0 m0 t s entries native m' readable
  (Htick : forall t, t - markerScanSlack < tick t)
  (H0 : forall name d, s_files s0 !! name = Some d -> (name, d) ∈ entries0)
  (Hch : changes tick t0 s0 t s)
  (H1 : forall name d, s_files s !! name = Some d -> (name, d) ∈ entries)
  (Hmiss : ByNative no_faults t readable entries native
             (loadLocked no_faults t0 readable entries0 m0 s0) s = (m', None)) :
  forall name d mk, s_files s !! name = Some d -> indexed readable name d = Some mk -> mk_native mk <> native.
Proof.
  intros name d mk Hd Hix <-. unfold ByNative in Hmiss.
  destruct (m_byNative (loadLocked no_faults t0 readable entries0 m0 s0) !! mk_native mk) as [x|] eqn:E; [done|].
  destruct (staleLocked no_faults (loadLocked no_faults t0 readable entries0 m0 s0) s) eqn:Es; cbn [negb] in Hmiss.
  - injection Hmiss as _ Hmiss. cbn in Hmiss.
    destruct (index_finds readable entries (foldl (index_entry readable) (m_byNative m0) entries0) name d mk) as [y Hy];
      [by apply H1|done|congruence].
  - cbn in Es. apply orb_false_iff in Es as [Es1 Es2]. apply negb_false_iff, Z.eqb_eq in Es1. apply Z.ltb_ge in Es2.
    pose proof (changes_mtime tick t0 s0 t s Htick Hch Es1 Es2) as ->.
    cbn in E. destruct (index_finds readable entries0 (m_byNative m0) name d mk) as [y Hy]; [by apply H0|done|congruence].
Qed.

(** while one Host holds a Session's lock, every other is refused as
    session_in_use and changes nothing; released, it can be taken again. *)
Theorem session_lock_exclusive f g id held held' (H : lockSession f id held = Ok held') (Hg : f_temp g = false) :
  lockSession g id held' = Err (wrap (OpenError OpenSessionInUse)) /\
  lockSession g id (lock_release id held') = Ok held'.
Proof.
  unfold lockSession, lock_release in *. rewrite Hg. destruct (f_temp f); [done|].
  case_bool_decide as Hin; [done|]. injection H as <-. split.
  - rewrite bool_decide_true by (by apply elem_of_union_l, elem_of_singleton). done.
  - rewrite bool_decide_false by (rewrite elem_of_difference, elem_of_singleton; intros [_ Hx]; by apply Hx). f_equal. apply set_eq. intros x. rewrite !elem_of_union, elem_of_difference, elem_of_union, elem_of_singleton.
    destruct (decide (x = lockName id)) as [->|Hx]; [by split; auto|]. split; [intros [?|[[?|?] ?]]|intros [?|?]]; auto.
Qed.
End Store.

(** ** The theorems at a concrete store *)

Section Demo.
Definition demo_name (s : string) : string := s.
Definition demo_marker : Marker := mkMarker "in1" "n1" "session" (mkTime 0 0).
Definition demo_store : store := mkStore true ∅ 0.
Definition demo_written : store := put 1 "in1.json" (CMarker demo_marker) demo_store.

Lemma demo_write m : m_loaded m = false -> Write demo_name no_faults 1 demo_marker m demo_store demo_store = (m, demo_written, Ok tt).
Proof. intros H. unfold Write. cbn. by rewrite H. Qed.


Definition demo_reader (mk : Marker) : result goerr Recovered := Ok (mkRecovered RecoveredCompleted "").
Definition demo_got : Recovered := mkRecovered RecoveredCompleted "t_in1".

Lemma Recover_not_found_witness :
  Recover demo_name demo_name no_faults "session" "in1" demo_reader demo_written = Ok demo_got /\
  (rc_outcome demo_got = RecoveredNotFound <->
   intact no_faults demo_written = true /\ s_files demo_written !! fileName demo_name "in1" = None).
Proof.
  assert (H : Recover demo_name demo_name no_faults "session" "in1" demo_reader demo_written = Ok demo_got)
    by (vm_compute; reflexivity).
  split; [exact H|].
  refine (proj1 (Recover_not_found demo_name demo_name no_faults "session" "in1" demo_reader demo_written demo_got _ _ H)).
  - intros mk g E. injection E as <-. discriminate.
  - vm_compute. reflexivity.
Defined.

Lemma marker_round_trip_witness : Lookup demo_name no_faults "in1" demo_written = Ok (Some demo_marker).
Proof.
  refine (proj1 (marker_round_trip demo_name no_faults 1 demo_marker newMarkers demo_store newMarkers demo_store demo_written
    _ _ (demo_write newMarkers eq_refl) _)); vm_compute; reflexivity.
Defined.

Lemma ByNative_complete_witness :
  s_files demo_written !! "in1.json" = Some (mkDirent true (CMarker demo_marker)) /\
  (forall name d mk, s_files demo_written !! name = Some d ->
     indexed demo_name (fun _ => true) name d = Some mk -> mk_native mk <> "n2").
Proof.
  split; [vm_compute; reflexivity|].
  refine (ByNative_complete demo_name (fun t => t) 1 demo_written [("in1.json", mkDirent true (CMarker demo_marker))] newMarkers 1
    demo_written [("in1.json", mkDirent true (CMarker demo_marker))] "n2" _ (fun _ => true) _ _ _ _ _).
  - intros t. assert (0 < markerScanSlack) by (vm_compute; reflexivity). lia.
  - intros name d H. cbn in H. apply lookup_insert_Some in H as [[<- <-]|[_ H]]; [apply list_elem_of_here|discriminate H].
  - apply ch_none.
  - intros name d H. cbn in H. apply lookup_insert_Some in H as [[<- <-]|[_ H]]; [apply list_elem_of_here|discriminate H].
  - vm_compute. reflexivity.
Defined.

Lemma session_lock_exclusive_witness :
  lockSession demo_name no_faults "session" {["session.lock"]} = Err (wrap (OpenError OpenSessionInUse)).
Proof.
  refine (proj1 (session_lock_exclusive demo_name no_faults no_faults "session" ∅ {["session.lock"]} _ eq_refl)).
  vm_compute. reflexivity.
Defined.
End Demo.
