(* ===== verification/SessionState.v ===== *)
(** The state of a Session of pkg/adapter/session.go, and the events a
    transport reports to it (pkg/adapter/adapter.go).

    The turns, the harness's own turns and the interrupt operations are shared
    by pointer — a turn is reached by input id, by native id, as the current
    one and from the Send that made it — so each lives in a heap of the session
    ([s_T], [s_A], [s_O]) and the maps hold references. A closed channel is a
    flag: a turn's [endCh] is closed when it ended, an operation's [done] when
    it has its outcome. [s_timers] holds the gate timers that are armed, and
    [s_fired] those that expired and whose callback has not run yet. *)
From Stdlib Require Import ZArith Ascii String Lia.
From stdpp Require Import base tactics list gmap strings option.
From S2P Require Import Prelude GoStr Json Contract Requests Observation.

#[local] Open Scope Z_scope.

(** An interrupt's operation; its [done] is closed once it has an outcome. *)
Record interruptOp := mkOp { op_outcome : option InterruptOutcome }.

Record turn := mkTurn {
  tn_input : string;
  tn_native : string;
  tn_turnID : string;
  tn_started : bool;
  tn_ended : bool;
  tn_outcome : option TurnOutcome;
  tn_interrupt : option nat;
  tn_retries : Z;
}.

Record autoTurn := mkAuto {
  au_native : string;
  au_turnID : string;
  au_started : bool;
  au_ended : bool;
  au_interrupt : option nat;
}.

Record CloseResult := mkClose { cl_stopped : bool; cl_drained : bool }.

Inductive EventKind :=
| Started | Ended | Retrying | RateLimited | PromptRaised | PromptResolved | Exited | Background.
#[export] Instance EventKind_eq_dec : EqDecision EventKind.
Proof. solve_decision. Defined.

(** [ev_time] is [None] for the zero time; [ev_rate] is the usage report in its
    JSON form. *)
Record Event := mkEvent {
  ev_kind : EventKind;
  ev_native : string;
  ev_auto : string;
  ev_time : option Time;
  ev_outcome : TurnOutcome;
  ev_text : string;
  ev_error : option TurnError;
  ev_retry : RetryingData;
  ev_rate : RawMessage;
  ev_resume : option Time;
  ev_prompt : option PromptInfo;
  ev_prompt_id : string;
  ev_by : string;
  ev_exit : SessionExitedData;
  ev_tasks : list BackgroundTask;
}.

(** What the session hands to [NewObservation] for a live observation, and the
    ids and mark it puts on it; [NewObservation] panics on data that does not
    encode. *)
Record emission := mkEmission {
  em_kind : Kind;
  em_key : string;
  em_turn : string;
  em_input : string;
  em_time : Time;
  em_data : json;
  em_truncated : bool;
}.

Definition observation_of (e : emission) : option Observation :=
  match NewObservation (em_kind e) (em_key e) OriginLive (em_time e) (em_data e) with
  | Some o => Some (mkObservation (o_id o) (o_kind o) (o_origin o) (o_time o) (em_turn e) (em_input e) (o_entry o)
                      (o_data o) (em_truncated e))
  | None => None
  end.

Record session := mkSession {
  s_phase : Phase;
  s_transport : bool;
  s_sessionID : string;
  s_locked : bool;
  s_counter : Z;
  s_turns : gmap string nat;
  s_byNative : gmap string nat;
  s_current : option nat;
  s_auto : option nat;
  s_autos : gmap string nat;
  s_sending : bool;
  s_gate : option Block;
  s_gateTimer : option nat;
  s_resumeHint : option Time;
  s_prompt : option PromptInfo;
  s_answered : gmap string Choice;
  s_retry : option RetryInfo;
  s_background : list BackgroundTask;
  s_exited : bool;
  s_closing : bool;
  s_closeDone : bool;
  s_closeRes : option CloseResult;
  s_opened : bool;
  s_T : gmap nat turn;
  s_A : gmap nat autoTurn;
  s_O : gmap nat interruptOp;
  s_timers : gmap nat Time;
  s_fired : gset nat;
  s_next : nat;
}.

Definition set_phase (x : Phase) (s : session) : session :=
  mkSession x (s_transport s) (s_sessionID s) (s_locked s) (s_counter s) (s_turns s) (s_byNative s)
    (s_current s) (s_auto s) (s_autos s) (s_sending s) (s_gate s) (s_gateTimer s) (s_resumeHint s)
    (s_prompt s) (s_answered s) (s_retry s) (s_background s) (s_exited s) (s_closing s) (s_closeDone s)
    (s_closeRes s) (s_opened s) (s_T s) (s_A s) (s_O s) (s_timers s) (s_fired s) (s_next s).
Definition set_transport (x : bool) (s : session) : session :=
  mkSession (s_phase s) x (s_sessionID s) (s_locked s) (s_counter s) (s_turns s) (s_byNative s)
    (s_current s) (s_auto s) (s_autos s) (s_sending s) (s_gate s) (s_gateTimer s) (s_resumeHint s)
    (s_prompt s) (s_answered s) (s_retry s) (s_background s) (s_exited s) (s_closing s) (s_closeDone s)
    (s_closeRes s) (s_opened s) (s_T s) (s_A s) (s_O s) (s_timers s) (s_fired s) (s_next s).
Definition set_sessionID (x : string) (s : session) : session :=
  mkSession (s_phase s) (s_transport s) x (s_locked s) (s_counter s) (s_turns s) (s_byNative s)
    (s_current s) (s_auto s) (s_autos s) (s_sending s) (s_gate s) (s_gateTimer s) (s_resumeHint s)
    (s_prompt s) (s_answered s) (s_retry s) (s_background s) (s_exited s) (s_closing s) (s_closeDone s)
    (s_closeRes s) (s_opened s) (s_T s) (s_A s) (s_O s) (s_timers s) (s_fired s) (s_next s).
Definition set_locked (x : bool) (s : session) : session :=
  mkSession (s_phase s) (s_transport s) (s_sessionID s) x (s_counter s) (s_turns s) (s_byNative s)
    (s_current s) (s_auto s) (s_autos s) (s_sending s) (s_gate s) (s_gateTimer s) (s_resumeHint s)
    (s_prompt s) (s_answered s) (s_retry s) (s_background s) (s_exited s) (s_closing s) (s_closeDone s)
    (s_closeRes s) (s_opened s) (s_T s) (s_A s) (s_O s) (s_timers s) (s_fired s) (s_next s).
Definition set_counter (x : Z) (s : session) : session :=
  mkSession (s_phase s) (s_transport s) (s_sessionID s) (s_locked s) x (s_turns s) (s_byNative s)
    (s_current s) (s_auto s) (s_autos s) (s_sending s) (s_gate s) (s_gateTimer s) (s_resumeHint s)
    (s_prompt s) (s_answered s) (s_retry s) (s_background s) (s_exited s) (s_closing s) (s_closeDone s)
    (s_closeRes s) (s_opened s) (s_T s) (s_A s) (s_O s) (s_timers s) (s_fired s) (s_next s).
Definition set_turns (x : gmap string nat) (s : session) : session :=
  mkSession (s_phase s) (s_transport s) (s_sessionID s) (s_locked s) (s_counter s) x (s_byNative s)
    (s_current s) (s_auto s) (s_autos s) (s_sending s) (s_gate s) (s_gateTimer s) (s_resumeHint s)
    (s_prompt s) (s_answered s) (s_retry s) (s_background s) (s_exited s) (s_closing s) (s_closeDone s)
    (s_closeRes s) (s_opened s) (s_T s) (s_A s) (s_O s) (s_timers s) (s_fired s) (s_next s).
Definition set_byNative (x : gmap string nat) (s : session) : session :=
  mkSession (s_phase s) (s_transport s) (s_sessionID s) (s_locked s) (s_counter s) (s_turns s) x
    (s_current s) (s_auto s) (s_autos s) (s_sending s) (s_gate s) (s_gateTimer s) (s_resumeHint s)
    (s_prompt s) (s_answered s) (s_retry s) (s_background s) (s_exited s) (s_closing s) (s_closeDone s)
    (s_closeRes s) (s_opened s) (s_T s) (s_A s) (s_O s) (s_timers s) (s_fired s) (s_next s).
Definition set_current (x : option nat) (s : session) : session :=
  mkSession (s_phase s) (s_transport s) (s_sessionID s) (s_locked s) (s_counter s) (s_turns s)
    (s_byNative s) x (s_auto s) (s_autos s) (s_sending s) (s_gate s) (s_gateTimer s) (s_resumeHint s)
    (s_prompt s) (s_answered s) (s_retry s) (s_background s) (s_exited s) (s_closing s) (s_closeDone s)
    (s_closeRes s) (s_opened s) (s_T s) (s_A s) (s_O s) (s_timers s) (s_fired s) (s_next s).
Definition set_auto (x : option nat) (s : session) : session :=
  mkSession (s_phase s) (s_transport s) (s_sessionID s) (s_locked s) (s_counter s) (s_turns s)
    (s_byNative s) (s_current s) x (s_autos s) (s_sending s) (s_gate s) (s_gateTimer s) (s_resumeHint s)
    (s_prompt s) (s_answered s) (s_retry s) (s_background s) (s_exited s) (s_closing s) (s_closeDone s)
    (s_closeRes s) (s_opened s) (s_T s) (s_A s) (s_O s) (s_timers s) (s_fired s) (s_next s).
Definition set_autos (x : gmap string nat) (s : session) : session :=
  mkSession (s_phase s) (s_transport s) (s_sessionID s) (s_locked s) (s_counter s) (s_turns s)
    (s_byNative s) (s_current s) (s_auto s) x (s_sending s) (s_gate s) (s_gateTimer s) (s_resumeHint s)
    (s_prompt s) (s_answered s) (s_retry s) (s_background s) (s_exited s) (s_closing s) (s_closeDone s)
    (s_closeRes s) (s_opened s) (s_T s) (s_A s) (s_O s) (s_timers s) (s_fired s) (s_next s).
Definition set_sending (x : bool) (s : session) : session :=
  mkSession (s_phase s) (s_transport s) (s_sessionID s) (s_locked s) (s_counter s) (s_turns s)
    (s_byNative s) (s_current s) (s_auto s) (s_autos s) x (s_gate s) (s_gateTimer s) (s_resumeHint s)
    (s_prompt s) (s_answered s) (s_retry s) (s_background s) (s_exited s) (s_closing s) (s_closeDone s)
    (s_closeRes s) (s_opened s) (s_T s) (s_A s) (s_O s) (s_timers s) (s_fired s) (s_next s).
Definition set_gate (x : option Block) (s : session) : session :=
  mkSession (s_phase s) (s_transport s) (s_sessionID s) (s_locked s) (s_counter s) (s_turns s)
    (s_byNative s) (s_current s) (s_auto s) (s_autos s) (s_sending s) x (s_gateTimer s) (s_resumeHint s)
    (s_prompt s) (s_answered s) (s_retry s) (s_background s) (s_exited s) (s_closing s) (s_closeDone s)
    (s_closeRes s) (s_opened s) (s_T s) (s_A s) (s_O s) (s_timers s) (s_fired s) (s_next s).
Definition set_gateTimer (x : option nat) (s : session) : session :=
  mkSession (s_phase s) (s_transport s) (s_sessionID s) (s_locked s) (s_counter s) (s_turns s)
    (s_byNative s) (s_current s) (s_auto s) (s_autos s) (s_sending s) (s_gate s) x (s_resumeHint s)
    (s_prompt s) (s_answered s) (s_retry s) (s_background s) (s_exited s) (s_closing s) (s_closeDone s)
    (s_closeRes s) (s_opened s) (s_T s) (s_A s) (s_O s) (s_timers s) (s_fired s) (s_next s).
Definition set_resumeHint (x : option Time) (s : session) : session :=
  mkSession (s_phase s) (s_transport s) (s_sessionID s) (s_locked s) (s_counter s) (s_turns s)
    (s_byNative s) (s_current s) (s_auto s) (s_autos s) (s_sending s) (s_gate s) (s_gateTimer s) x
    (s_prompt s) (s_answered s) (s_retry s) (s_background s) (s_exited s) (s_closing s) (s_closeDone s)
    (s_closeRes s) (s_opened s) (s_T s) (s_A s) (s_O s) (s_timers s) (s_fired s) (s_next s).
Definition set_prompt (x : option PromptInfo) (s : session) : session :=
  mkSession (s_phase s) (s_transport s) (s_sessionID s) (s_locked s) (s_counter s) (s_turns s)
    (s_byNative s) (s_current s) (s_auto s) (s_autos s) (s_sending s) (s_gate s) (s_gateTimer s)
    (s_resumeHint s) x (s_answered s) (s_retry s) (s_background s) (s_exited s) (s_closing s)
    (s_closeDone s) (s_closeRes s) (s_opened s) (s_T s) (s_A s) (s_O s) (s_timers s) (s_fired s) (s_next
    s).
Definition set_answered (x : gmap string Choice) (s : session) : session :=
  mkSession (s_phase s) (s_transport s) (s_sessionID s) (s_locked s) (s_counter s) (s_turns s)
    (s_byNative s) (s_current s) (s_auto s) (s_autos s) (s_sending s) (s_gate s) (s_gateTimer s)
    (s_resumeHint s) (s_prompt s) x (s_retry s) (s_background s) (s_exited s) (s_closing s) (s_closeDone
    s) (s_closeRes s) (s_opened s) (s_T s) (s_A s) (s_O s) (s_timers s) (s_fired s) (s_next s).
Definition set_retry (x : option RetryInfo) (s : session) : session :=
  mkSession (s_phase s) (s_transport s) (s_sessionID s) (s_locked s) (s_counter s) (s_turns s)
    (s_byNative s) (s_current s) (s_auto s) (s_autos s) (s_sending s) (s_gate s) (s_gateTimer s)
    (s_resumeHint s) (s_prompt s) (s_answered s) x (s_background s) (s_exited s) (s_closing s)
    (s_closeDone s) (s_closeRes s) (s_opened s) (s_T s) (s_A s) (s_O s) (s_timers s) (s_fired s) (s_next
    s).
Definition set_background (x : list BackgroundTask) (s : session) : session :=
  mkSession (s_phase s) (s_transport s) (s_sessionID s) (s_locked s) (s_counter s) (s_turns s)
    (s_byNative s) (s_current s) (s_auto s) (s_autos s) (s_sending s) (s_gate s) (s_gateTimer s)
    (s_resumeHint s) (s_prompt s) (s_answered s) (s_retry s) x (s_exited s) (s_closing s) (s_closeDone
    s) (s_closeRes s) (s_opened s) (s_T s) (s_A s) (s_O s) (s_timers s) (s_fired s) (s_next s).
Definition set_exited (x : bool) (s : session) : session :=
  mkSession (s_phase s) (s_transport s) (s_sessionID s) (s_locked s) (s_counter s) (s_turns s)
    (s_byNative s) (s_current s) (s_auto s) (s_autos s) (s_sending s) (s_gate s) (s_gateTimer s)
    (s_resumeHint s) (s_prompt s) (s_answered s) (s_retry s) (s_background s) x (s_closing s)
    (s_closeDone s) (s_closeRes s) (s_opened s) (s_T s) (s_A s) (s_O s) (s_timers s) (s_fired s) (s_next
    s).
Definition set_closing (x : bool) (s : session) : session :=
  mkSession (s_phase s) (s_transport s) (s_sessionID s) (s_locked s) (s_counter s) (s_turns s)
    (s_byNative s) (s_current s) (s_auto s) (s_autos s) (s_sending s) (s_gate s) (s_gateTimer s)
    (s_resumeHint s) (s_prompt s) (s_answered s) (s_retry s) (s_background s) (s_exited s) x
    (s_closeDone s) (s_closeRes s) (s_opened s) (s_T s) (s_A s) (s_O s) (s_timers s) (s_fired s) (s_next
    s).
Definition set_closeDone (x : bool) (s : session) : session :=
  mkSession (s_phase s) (s_transport s) (s_sessionID s) (s_locked s) (s_counter s) (s_turns s)
    (s_byNative s) (s_current s) (s_auto s) (s_autos s) (s_sending s) (s_gate s) (s_gateTimer s)
    (s_resumeHint s) (s_prompt s) (s_answered s) (s_retry s) (s_background s) (s_exited s) (s_closing s)
    x (s_closeRes s) (s_opened s) (s_T s) (s_A s) (s_O s) (s_timers s) (s_fired s) (s_next s).
Definition set_closeRes (x : option CloseResult) (s : session) : session :=
  mkSession (s_phase s) (s_transport s) (s_sessionID s) (s_locked s) (s_counter s) (s_turns s)
    (s_byNative s) (s_current s) (s_auto s) (s_autos s) (s_sending s) (s_gate s) (s_gateTimer s)
    (s_resumeHint s) (s_prompt s) (s_answered s) (s_retry s) (s_background s) (s_exited s) (s_closing s)
    (s_closeDone s) x (s_opened s) (s_T s) (s_A s) (s_O s) (s_timers s) (s_fired s) (s_next s).
Definition set_opened (x : bool) (s : session) : session :=
  mkSession (s_phase s) (s_transport s) (s_sessionID s) (s_locked s) (s_counter s) (s_turns s)
    (s_byNative s) (s_current s) (s_auto s) (s_autos s) (s_sending s) (s_gate s) (s_gateTimer s)
    (s_resumeHint s) (s_prompt s) (s_answered s) (s_retry s) (s_background s) (s_exited s) (s_closing s)
    (s_closeDone s) (s_closeRes s) x (s_T s) (s_A s) (s_O s) (s_timers s) (s_fired s) (s_next s).
Definition set_T (x : gmap nat turn) (s : session) : session :=
  mkSession (s_phase s) (s_transport s) (s_sessionID s) (s_locked s) (s_counter s) (s_turns s)
    (s_byNative s) (s_current s) (s_auto s) (s_autos s) (s_sending s) (s_gate s) (s_gateTimer s)
    (s_resumeHint s) (s_prompt s) (s_answered s) (s_retry s) (s_background s) (s_exited s) (s_closing s)
    (s_closeDone s) (s_closeRes s) (s_opened s) x (s_A s) (s_O s) (s_timers s) (s_fired s) (s_next s).
Definition set_A (x : gmap nat autoTurn) (s : session) : session :=
  mkSession (s_phase s) (s_transport s) (s_sessionID s) (s_locked s) (s_counter s) (s_turns s)
    (s_byNative s) (s_current s) (s_auto s) (s_autos s) (s_sending s) (s_gate s) (s_gateTimer s)
    (s_resumeHint s) (s_prompt s) (s_answered s) (s_retry s) (s_background s) (s_exited s) (s_closing s)
    (s_closeDone s) (s_closeRes s) (s_opened s) (s_T s) x (s_O s) (s_timers s) (s_fired s) (s_next s).
Definition set_O (x : gmap nat interruptOp) (s : session) : session :=
  mkSession (s_phase s) (s_transport s) (s_sessionID s) (s_locked s) (s_counter s) (s_turns s)
    (s_byNative s) (s_current s) (s_auto s) (s_autos s) (s_sending s) (s_gate s) (s_gateTimer s)
    (s_resumeHint s) (s_prompt s) (s_answered s) (s_retry s) (s_background s) (s_exited s) (s_closing s)
    (s_closeDone s) (s_closeRes s) (s_opened s) (s_T s) (s_A s) x (s_timers s) (s_fired s) (s_next s).
Definition set_timers (x : gmap nat Time) (s : session) : session :=
  mkSession (s_phase s) (s_transport s) (s_sessionID s) (s_locked s) (s_counter s) (s_turns s)
    (s_byNative s) (s_current s) (s_auto s) (s_autos s) (s_sending s) (s_gate s) (s_gateTimer s)
    (s_resumeHint s) (s_prompt s) (s_answered s) (s_retry s) (s_background s) (s_exited s) (s_closing s)
    (s_closeDone s) (s_closeRes s) (s_opened s) (s_T s) (s_A s) (s_O s) x (s_fired s) (s_next s).
Definition set_fired (x : gset nat) (s : session) : session :=
  mkSession (s_phase s) (s_transport s) (s_sessionID s) (s_locked s) (s_counter s) (s_turns s)
    (s_byNative s) (s_current s) (s_auto s) (s_autos s) (s_sending s) (s_gate s) (s_gateTimer s)
    (s_resumeHint s) (s_prompt s) (s_answered s) (s_retry s) (s_background s) (s_exited s) (s_closing s)
    (s_closeDone s) (s_closeRes s) (s_opened s) (s_T s) (s_A s) (s_O s) (s_timers s) x (s_next s).
Definition set_next (x : nat) (s : session) : session :=
  mkSession (s_phase s) (s_transport s) (s_sessionID s) (s_locked s) (s_counter s) (s_turns s)
    (s_byNative s) (s_current s) (s_auto s) (s_autos s) (s_sending s) (s_gate s) (s_gateTimer s)
    (s_resumeHint s) (s_prompt s) (s_answered s) (s_retry s) (s_background s) (s_exited s) (s_closing s)
    (s_closeDone s) (s_closeRes s) (s_opened s) (s_T s) (s_A s) (s_O s) (s_timers s) (s_fired s) x.

(** [newSession]. *)
Definition newSession : session :=
  mkSession PhaseUnopened false ""%string false 0 ∅ ∅ None None ∅ false None None None None ∅ None [] false false
    false None false ∅ ∅ ∅ ∅ ∅ 0.

(** Allocation and updates in the heaps. *)
Definition upd_turn (id : nat) (t : turn) (s : session) : session := set_T (<[id := t]> (s_T s)) s.
Definition upd_auto (id : nat) (a : autoTurn) (s : session) : session := set_A (<[id := a]> (s_A s)) s.
Definition upd_op (id : nat) (o : interruptOp) (s : session) : session := set_O (<[id := o]> (s_O s)) s.

Definition tn_start (t : turn) : turn :=
  mkTurn (tn_input t) (tn_native t) (tn_turnID t) true (tn_ended t) (tn_outcome t) (tn_interrupt t) (tn_retries t).
Definition tn_end (o : TurnOutcome) (t : turn) : turn :=
  mkTurn (tn_input t) (tn_native t) (tn_turnID t) (tn_started t) true (Some o) (tn_interrupt t) (tn_retries t).
Definition tn_set_interrupt (i : option nat) (t : turn) : turn :=
  mkTurn (tn_input t) (tn_native t) (tn_turnID t) (tn_started t) (tn_ended t) (tn_outcome t) i (tn_retries t).
Definition tn_retry (t : turn) : turn :=
  mkTurn (tn_input t) (tn_native t) (tn_turnID t) (tn_started t) (tn_ended t) (tn_outcome t) (tn_interrupt t)
    (tn_retries t + 1).
Definition au_start (a : autoTurn) : autoTurn :=
  mkAuto (au_native a) (au_turnID a) true (au_ended a) (au_interrupt a).
Definition au_end (a : autoTurn) : autoTurn :=
  mkAuto (au_native a) (au_turnID a) (au_started a) true (au_interrupt a).
Definition au_set_interrupt (i : option nat) (a : autoTurn) : autoTurn :=
  mkAuto (au_native a) (au_turnID a) (au_started a) (au_ended a) i.
