(* ===== verification/Session.v ===== *)
(** The operations of a Session: pkg/adapter/session.go. Each definition is one
    critical section of the code, under [s.mu]; what the transport, the marker
    store and the clock answer between them are arguments. A section returns
    the new state and the observations it pushes to the cursor. *)
From Stdlib Require Import ZArith Ascii String Lia.
From stdpp Require Import base tactics list gmap strings option.
From S2P Require Import Prelude GoStr Json Contract Descriptor Requests Observation SessionState.

#[local] Open Scope string_scope.
#[local] Open Scope Z_scope.

(** [interruptOutcome]. *)
Definition interruptOutcome (o : TurnOutcome) : InterruptOutcome :=
  match o with
  | TurnInterrupted => InterruptStopped
  | TurnCancelled => InterruptCancelled
  | _ => InterruptTooLate
  end.

(** [blockFor], with the session's resume hint. *)
Definition blockFor (now : Time) (hint : option Time) (e : option TurnError) : option Block :=
  match e with
  | None => None
  | Some e =>
    match te_class e with
    | ErrorUsageLimit =>
      Some (mkBlock BlockUsageLimited
        (match te_resume e with
         | Some at_ => Some at_
         | None => match hint with Some h => if After h now then Some h else None | None => None end
         end))
    | ErrorAuth => Some (mkBlock BlockAuthRequired None)
    | ErrorBilling => Some (mkBlock BlockBilling None)
    | _ => None
    end
  end.

Definition restLocked (s : session) : session :=
  if bool_decide (s_phase s = PhaseBusy) && bool_decide (s_current s = None) && bool_decide (s_auto s = None)
  then set_phase PhaseIdle s else s.

(** [if s.gateTimer != nil { s.gateTimer.Stop() }]: an armed timer is disarmed;
    one that expired already runs its callback all the same. *)
Definition stop_timer (s : session) : session :=
  match s_gateTimer s with Some id => set_timers (delete id (s_timers s)) s | None => s end.

Definition armGateLocked (resume : Time) (s : session) : session :=
  let s := stop_timer s in
  let id := s_next s in
  set_next (S id) (set_gateTimer (Some id) (set_timers (<[id := resume]> (s_timers s)) s)).

(** [if op := t.interrupt; op != nil && op.outcome == "" {...}]. *)
Definition settle_op (op : option nat) (o : TurnOutcome) (s : session) : session :=
  match op with
  | Some id =>
    match s_O s !! id with
    | Some (mkOp None) => upd_op id (mkOp (Some (interruptOutcome o))) s
    | _ => s
    end
  | None => s
  end.

Section Operations.
Variables (desc : Descriptor) (instance : string) (digest16 : string -> string).

Definition has (c : Capability) : bool := Has desc c.

Definition liveKeyLocked (s : session) : session * string :=
  let n := s_counter s + 1 in (set_counter n s, instance ++ "." ++ Itoa n).

(** [liveObs], for the turn [t]. *)
Definition liveObs (kind : Kind) (key : string) (t : option turn) (at_ : Time) (data : json) : emission :=
  match t with
  | Some t => mkEmission kind key (tn_turnID t) (tn_input t) at_ data false
  | None => mkEmission kind key "" "" at_ data false
  end.

(** The end of endLocked and of autoLocked when the turn's error closes the
    gate. *)
Definition gate_closes (b : Block) (at_ : Time) (s : session) : session * list emission :=
  let s := set_phase PhaseBlocked (set_gate (Some b) s) in
  let '(s, key) := liveKeyLocked s in
  let s := match bk_reason b, bk_resume b with
           | BlockUsageLimited, Some resume => armGateLocked resume s
           | _, _ => s
           end in
  (s, [liveObs KindBlocked key None at_ (Block_json b)]).

(** A turn_ended's data, and whether its text was cut. *)
Definition ended_data (ev : Event) : json * bool :=
  let '(text, cut) := Truncate (ev_text ev) in
  (TurnEndedData_json (mkTurnEnded (ev_outcome ev) text (ev_error ev)), cut).

(** [endLocked(t, ev)], for the turn [t] at [id]. *)
Definition endLocked (now at_ : Time) (id : nat) (t : turn) (ev : Event) (s : session) : session * list emission :=
  let started := if tn_started t then [] else [liveObs KindTurnStarted (tn_input t) (Some t) at_ (JObj [])] in
  let s := upd_turn id (tn_end (ev_outcome ev) (tn_start t)) s in
  let '(data, cut) := ended_data ev in
  let ended := mkEmission KindTurnEnded (tn_input t) (tn_turnID t) (tn_input t) at_ data cut in
  let s := settle_op (tn_interrupt t) (ev_outcome ev) s in
  let s := if bool_decide (s_current s = Some id) then set_current None s else s in
  let resolved := match s_prompt s with
                  | Some p => [liveObs KindPromptResolved (pi_id p) (Some t) at_
                                 (PromptResolvedData_json (mkPromptResolved (pi_id p) "harness"))]
                  | None => []
                  end in
  let s := set_retry None (set_prompt None s) in
  let obs := (started ++ [ended] ++ resolved)%list in
  if bool_decide (s_phase s = PhaseExited) then (s, obs)
  else match blockFor now (s_resumeHint s) (ev_error ev) with
    | Some b => let '(s, blocked) := gate_closes b at_ s in (s, (obs ++ blocked)%list)
    | None =>
      let s := if bool_decide (s_phase s = PhaseAwaitingAnswer) then set_phase PhaseBusy s else s in
      (restLocked s, obs)
    end.

(** The live observation of one of the harness's own turns. *)
Definition autoObs (kind : Kind) (a : autoTurn) (at_ : Time) (data : json) (cut : bool) : emission :=
  mkEmission kind (au_turnID a) (au_turnID a) "" at_ data cut.

Definition auto_ended (s : session) (id : nat) : bool :=
  match s_A s !! id with Some a => au_ended a | None => false end.

(** [len(s.autos) >= 64]: the ended ones leave the map. *)
Definition prune_autos (s : session) : session :=
  if 64 <=? Z.of_nat (size (s_autos s)) then
    set_autos (filter (fun e => auto_ended s e.2 = false) (s_autos s)) s
  else s.

(** The harness's turn [ev] names, made when it is new. *)
Definition auto_of (native : string) (s : session) : session * nat * autoTurn :=
  match s_autos s !! native ≫= fun id => (fun a => (id, a)) <$> s_A s !! id with
  | Some (id, a) => (s, id, a)
  | None =>
    let s := prune_autos s in
    let id := s_next s in
    let a := mkAuto native (AutoTurnID digest16 native) false false None in
    (set_next (S id) (set_autos (<[native := id]> (s_autos s)) (upd_auto id a s)), id, a)
  end.

(** [autoLocked(ev)]. *)
Definition autoLocked (now at_ : Time) (ev : Event) (s : session) : session * list emission :=
  if negb (has CapAutonomousTurns) && negb (has CapBackgroundTurns)
     || negb (bool_decide (ev_kind ev = Started)) && negb (bool_decide (ev_kind ev = Ended))
  then (s, [])
  else
    let '(s, id, a) := auto_of (ev_auto ev) s in
    if au_ended a || bool_decide (ev_kind ev = Started) && au_started a then (s, [])
    else
      let started := if au_started a then [] else [autoObs KindTurnStarted a at_ (JObj []) false] in
      let a := au_start a in
      if bool_decide (ev_kind ev = Started) then
        let s := set_auto (Some id) (upd_auto id a s) in
        (if bool_decide (s_phase s = PhaseIdle) then set_phase PhaseBusy s else s, started)
      else
        let s := upd_auto id (au_end a) s in
        let '(data, cut) := ended_data ev in
        let obs := (started ++ [autoObs KindTurnEnded a at_ data cut])%list in
        let s := settle_op (au_interrupt a) (ev_outcome ev) s in
        let s := if bool_decide (s_auto s = Some id) then set_auto None s else s in
        let s := set_retry None s in
        if bool_decide (s_phase s = PhaseExited) || negb (bool_decide (s_current s = None)) then (s, obs)
        else match blockFor now (s_resumeHint s) (ev_error ev) with
          | Some b => let '(s, blocked) := gate_closes b at_ s in (s, (obs ++ blocked)%list)
          | None => (restLocked s, obs)
          end.

(** The turn an event concerns. *)
Definition event_turn (ev : Event) (s : session) : option (nat * turn) :=
  let id := match s_byNative s !! ev_native ev with
            | Some id => Some id
            | None => if ev_native ev =s? "" then s_current s else None
            end in
  id ≫= fun id => (fun t => (id, t)) <$> s_T s !! id.

(** [report(ev)], its section under the lock. *)
Definition report (now : Time) (ev : Event) (s : session) : session * list emission :=
  let at_ := default now (ev_time ev) in
  if negb (ev_auto ev =s? "") then autoLocked now at_ ev s
  else
    let t := event_turn ev s in
    match ev_kind ev with
    | Started =>
      match t with
      | Some (id, t) =>
        if tn_started t then (s, [])
        else
          let s := upd_turn id (tn_start t) s in
          (if bool_decide (s_current s = Some id) && negb (tn_ended t) && bool_decide (s_phase s = PhaseIdle)
           then set_phase PhaseBusy s else s,
           [liveObs KindTurnStarted (tn_input t) (Some t) at_ (JObj [])])
      | None => (s, [])
      end
    | Ended =>
      match t with
      | Some (id, t) => if tn_ended t then (s, []) else endLocked now at_ id t ev s
      | None => (s, [])
      end
    | Retrying =>
      match t with
      | Some (id, t) =>
        let s := set_retry (Some (mkRetry (rt_attempt (ev_retry ev)) (rt_max (ev_retry ev)))) s in
        if has CapRetryVisible then
          let t' := tn_retry t in
          (upd_turn id t' s,
           [liveObs KindRetrying (tn_input t ++ ":" ++ Itoa (tn_retries t')) (Some t) at_ (RetryingData_json (ev_retry ev))])
        else (s, [])
      | None => (s, [])
      end
    | Background =>
      if negb (has CapBackgroundTurns) || bool_decide (s_phase s = PhaseExited) then (s, [])
      else
        let s := set_background (ev_tasks ev) s in
        let '(s, key) := liveKeyLocked s in
        (s, [liveObs KindBackgroundTasks key None at_ (BackgroundTasksData_json (ev_tasks ev))])
    | RateLimited =>
      let s := match ev_resume ev with Some at_ => set_resumeHint (Some at_) s | None => s end in
      if has CapRateLimits then
        let '(s, key) := liveKeyLocked s in
        (s, [liveObs KindRateLimit key (snd <$> t) at_ (JRaw (ev_rate ev))])
      else (s, [])
    | PromptRaised =>
      match ev_prompt ev, t with
      | Some p, Some (id, t) =>
        if tn_ended t then (s, [])
        else
          let s := set_prompt (Some p) s in
          (if bool_decide (s_phase s = PhaseBusy) || bool_decide (s_phase s = PhaseIdle)
           then set_phase PhaseAwaitingAnswer s else s,
           [liveObs KindPromptRaised (pi_id p) (Some t) at_ (PromptInfo_json p)])
      | _, _ => (s, [])
      end
    | PromptResolved =>
      match s_prompt s with
      | Some p =>
        if negb (pi_id p =s? ev_prompt_id ev) then (s, [])
        else
          let s := set_prompt None s in
          (if bool_decide (s_phase s = PhaseAwaitingAnswer) then set_phase PhaseBusy s else s,
           [liveObs KindPromptResolved (ev_prompt_id ev) (snd <$> t) at_
              (PromptResolvedData_json (mkPromptResolved (ev_prompt_id ev) (ev_by ev)))])
      | None => (s, [])
      end
    | Exited =>
      if s_exited s then (s, [])
      else
        let exit := ev_exit ev in
        let exit := mkExited (se_class exit) (se_code exit) (se_signal exit) (fst (Truncate (se_detail exit))) in
        let '(s, key) := liveKeyLocked s in
        let s := set_background [] (set_retry None (set_prompt None (set_phase PhaseExited s))) in
        (set_exited true (set_locked false (stop_timer s)),
         [liveObs KindSessionExited key None at_ (SessionExitedData_json exit)])
    end.

(** A gate timer's callback. *)
Definition gate_opens (now : Time) (s : session) : session * list emission :=
  if negb (bool_decide (s_phase s = PhaseBlocked)) || is_none (s_gate s) then (s, [])
  else
    let s := set_phase PhaseIdle (set_gate None s) in
    let '(s, key) := liveKeyLocked s in
    (s, [liveObs KindUnblocked key None now (JObj [])]).

(** ** Send *)

Definition refusal (c : Code) : Error := mkError c None (Some NotSubmitted) "" 0.

Definition admitLocked (s : session) : result Error unit :=
  when s_closing s refuse refusal CodeClosed ;;
  when s_sending s refuse refusal CodeBusy ;;
  match s_phase s with
  | PhaseIdle => Ok tt
  | PhaseBusy =>
    if is_none (s_current s) && negb (is_none (s_auto s)) && has CapAutonomousTurns then Ok tt
    else Err (refusal CodeBusy)
  | PhaseAwaitingAnswer => Err (refusal CodePromptPending)
  | PhaseBlocked => Err (refusal CodeBlocked)
  | PhaseExited => Err (refusal CodeExited)
  | PhaseUnopened | PhaseStarting => Err (refusal CodeUnexpected)
  end.

Definition idTaken : Error := mkError CodeProtocol None (Some NotSubmitted) "input_id" 0.

(** Send up to its first unlock. *)
Definition send_begin (in_ : Input) (s : session) : result Error session :=
  _ ← InputValidate in_ (l_max_input (d_limits desc));
  _ ← admitLocked s;
  when negb (is_none (s_turns s !! in_id in_)) refuse idTaken ;;
  Ok (set_sending true s).

(** The marker could not be written: [marked] when the store says the id has
    one, and nothing was written. *)
Definition send_unmarked (marked : bool) : Error :=
  if marked then idTaken else mkError CodeInternal None (Some MaybeSubmitted) "" 0.

(** The marker is written: the turn is registered as the current one. *)
Definition send_register (inputID native : string) (s : session) : session * nat :=
  let id := s_next s in
  let t := mkTurn inputID native (TurnID digest16 inputID) false false None None 0 in
  (set_current (Some id)
     (set_byNative (<[native := id]> (s_byNative s))
        (set_turns (<[inputID := id]> (s_turns s)) (set_next (S id) (upd_turn id t s)))), id).

Definition mark_busy (id : nat) (s : session) : session :=
  match s_T s !! id with
  | Some t => if negb (tn_ended t) && bool_decide (s_phase s = PhaseIdle) then set_phase PhaseBusy s else s
  | None => s
  end.

(** Does Submit's error say nothing reached the harness? *)
Definition not_reached (err : goerr) : bool :=
  is_not_submitted err ||
  match as_error err with Some e => bool_decide (e_certainty e = Some NotSubmitted) | None => false end.

(** The turn of an input that never reached the harness is taken back; [freed]
    is whether its marker was withdrawn. *)
Definition send_back (id : nat) (t : turn) (freed : bool) (s : session) : session :=
  let s := if bool_decide (s_current s = Some id) then set_current None s else s in
  let s := set_byNative (delete (tn_native t) (s_byNative s)) s in
  let s := if freed then set_turns (delete (tn_input t) (s_turns s)) s else s in
  restLocked s.

(** Submit returned [err], [None] for success: the last section of Send but its
    deferred one, and Send's result; [exited] is whether the harness has exited
    when Send looks, after the section. *)
Definition send_settle (id : nat) (t : turn) (err : option goerr) (freed exited : bool) (s : session)
  : session * result Error string :=
  match err with
  | None => (mark_busy id s, Ok (tn_turnID t))
  | Some err =>
    if not_reached err then
      (send_back id t freed s,
       Err (mkError (if is_not_submitted err then CodeInternal else CodeOf err) None (Some NotSubmitted) "" 0))
    else
      (mark_busy id s,
       Err (mkError (if exited then CodeExited else CodeInternal) None (Some MaybeSubmitted) "" 0))
  end.

(** The deferred section. *)
Definition send_end (s : session) : session := set_sending false s.

(** ** Interrupt *)

(** What Interrupt does once no send is outstanding: answer, join the turn's
    interrupt operation, or start one and ask the transport. *)
Inductive interrupt_step :=
| IReturn (r : result Error InterruptOutcome)
| IJoin (op : nat)
| IAsk (op : nat).

Definition unconfirmed : result Error InterruptOutcome := Err (Errorf CodeInterruptUnconfirmed).

(** The checks before Interrupt waits for an outstanding send. *)
Definition interrupt_check (req : InterruptRequest) : result Error unit :=
  _ ← InterruptValidate req;
  when negb (iq_turn req =s? "") && negb (has CapAutonomousTurns) && negb (has CapBackgroundTurns)
    refuse Errorf CodeUnsupported ;;
  Ok tt.

Definition new_op (s : session) : session * nat :=
  let id := s_next s in (set_next (S id) (upd_op id (mkOp None) s), id).

(** Interrupt by input id, with [s.mu] held and no send outstanding. *)
Definition interrupt_input (input : string) (s : session) : session * interrupt_step :=
  match s_turns s !! input ≫= fun id => (fun t => (id, t)) <$> s_T s !! id with
  | None =>
    (s, IReturn (Ok (if is_none (s_current s) && is_none (s_auto s) then InterruptNoTurn else InterruptTooLate)))
  | Some (id, t) =>
    match tn_interrupt t with
    | Some op => (s, IJoin op)
    | None =>
      if tn_ended t || negb (bool_decide (s_current s = Some id)) then (s, IReturn (Ok InterruptTooLate))
      else if bool_decide (s_phase s = PhaseExited) then (s, IReturn unconfirmed)
      else let '(s, op) := new_op s in (upd_turn id (tn_set_interrupt (Some op) t) s, IAsk op)
    end
  end.

(** [interruptAuto]: by the turn id of a turn the harness started itself.
    [selfStarter] is whether the transport is a SelfStarter. Of several turns
    with the turn id the code takes whichever its map gives last; [find] picks
    one. *)
Definition interruptAuto (find : list (string * nat) -> option nat) (selfStarter : bool) (s : session)
  : session * interrupt_step :=
  match find (map_to_list (s_autos s)) ≫= fun id => (fun a => (id, a)) <$> s_A s !! id with
  | None =>
    (s, IReturn (Ok (if is_none (s_current s) && is_none (s_auto s) then InterruptNoTurn else InterruptTooLate)))
  | Some (id, a) =>
    match au_interrupt a with
    | Some op => (s, IJoin op)
    | None =>
      if au_ended a || negb (bool_decide (s_auto s = Some id)) then (s, IReturn (Ok InterruptTooLate))
      else if bool_decide (s_phase s = PhaseExited) then (s, IReturn unconfirmed)
      else if negb selfStarter then (s, IReturn (Err (Errorf CodeUnsupported)))
      else let '(s, op) := new_op s in (upd_auto id (au_set_interrupt (Some op) a) s, IAsk op)
    end
  end.

(** The search of interruptAuto, in the order [l] gives. *)
Definition find_auto (turnID : string) (s : session) (l : list (string * nat)) : option nat :=
  foldl (fun found e =>
    match s_A s !! e.2 with Some a => if au_turnID a =s? turnID then Some e.2 else found | None => found end) None l.

Definition Interrupt (req : InterruptRequest) (selfStarter : bool) (s : session) : session * interrupt_step :=
  match s_phase s with
  | PhaseUnopened | PhaseStarting => (s, IReturn (Err (Errorf CodeUnexpected)))
  | _ =>
    if negb (iq_turn req =s? "") then interruptAuto (find_auto (iq_turn req) s) selfStarter s
    else interrupt_input (iq_input req) s
  end.

(** The transport refused the interrupt: the operation is dropped unless the
    turn's end settled it; [true] when it did, and Interrupt then awaits it. *)
Definition drop_op (cur : option nat) (op : nat) (s : session) : bool :=
  bool_decide (cur = Some op) && match s_O s !! op with Some (mkOp None) => true | _ => false end.

Definition settled_op (op : nat) (s : session) : bool :=
  match s_O s !! op with Some (mkOp (Some _)) => true | _ => false end.

Definition interrupt_failed (id op : nat) (s : session) : session * bool :=
  (match s_T s !! id with
   | Some t => if drop_op (tn_interrupt t) op s then upd_turn id (tn_set_interrupt None t) s else s
   | None => s
   end, settled_op op s).

Definition interruptAuto_failed (id op : nat) (s : session) : session * bool :=
  (match s_A s !! id with
   | Some a => if drop_op (au_interrupt a) op s then upd_auto id (au_set_interrupt None a) s else s
   | None => s
   end, settled_op op s).

(** [awaitInterrupt]: which of its channels it woke on. *)
Inductive wake := WakeDone | WakeExited | WakeDeadline | WakeCtx.

Definition awaitInterrupt (op : nat) (w : wake) (s : session) : result Error InterruptOutcome :=
  let done_ := match s_O s !! op ≫= op_outcome with Some o => Ok o | None => unconfirmed end in
  match w with
  | WakeDone | WakeExited => done_
  | WakeDeadline | WakeCtx => unconfirmed
  end.

(** ** Answer *)

Definition sameChoice (a b : Choice) : bool :=
  (ch_option a =s? ch_option b) && (ch_text a =s? ch_text b)
  && (llen (ch_options a) =? llen (ch_options b))
  && forallb (fun p => p.1 =s? p.2) (zip (ch_options a) (ch_options b)).

Definition choiceFits (p : PromptInfo) (c : Choice) : bool :=
  let offers id := any (fun o => po_id o =s? id) (pi_options p) in
  if negb (ch_option c =s? "") then offers (ch_option c)
  else if negb (is_nil (ch_options c)) then pi_multi p && forallb offers (ch_options c)
  else is_nil (pi_options p).

(** Answer up to its unlock: [Ok true] is answered already, the same way;
    [Ok false] goes on to the transport. *)
Definition answer_begin (promptID : string) (c : Choice) (s : session) : result Error bool :=
  when negb (has CapPrompts) refuse Errorf CodeUnsupported ;;
  _ ← ChoiceValidate c;
  match s_answered s !! promptID with
  | Some prev => if sameChoice prev c then Ok true else Err (Errorf CodePromptGone)
  | None =>
    match s_prompt s with
    | Some p =>
      when negb (pi_id p =s? promptID) refuse Errorf CodePromptGone ;;
      when negb (choiceFits p c) refuse Errorf CodeInvalidChoice ;;
      Ok false
    | None => Err (Errorf CodePromptGone)
    end
  end.

(** The transport answered [err]. *)
Definition answer_end (promptID : string) (c : Choice) (err : option goerr) (s : session)
  : session * result Error unit :=
  match err with
  | Some err => (s, Err (match as_error err with Some e => e | None => Errorf CodeInternal end))
  | None => (set_answered (<[promptID := c]> (s_answered s)) s, Ok tt)
  end.

(** ** State *)

Definition stateLocked (s : session) : State :=
  let busy := bool_decide (s_phase s = PhaseBusy) in
  let input :=
    match s_current s ≫= fun id => s_T s !! id with
    | Some t => if negb (tn_ended t) && (busy || bool_decide (s_phase s = PhaseAwaitingAnswer))
                then Some t else None
    | None => None
    end in
  let turnID := match input with Some t => tn_turnID t | None => "" end in
  let own :=
    match s_auto s ≫= fun id => s_A s !! id with
    | Some a => if negb (au_ended a) && (turnID =s? "") && busy then Some (au_turnID a) else None
    | None => None
    end in
  mkState (s_phase s) (default turnID own) (match input with Some t => tn_input t | None => "" end)
    (s_prompt s) (s_gate s) (if has CapRetryVisible then s_retry s else None) (s_background s).

(** ** Open *)

Definition open_begin (s : session) : result Error session :=
  when s_closing s refuse Errorf CodeClosed ;;
  when negb (bool_decide (s_phase s = PhaseUnopened)) refuse Errorf CodeUnexpected ;;
  Ok (set_phase PhaseStarting s).

(** Open's [fail(err)], and its return; [gone] is whether its ctx ended. *)
Definition open_fail (err : goerr) (gone : bool) (s : session) : session * Error :=
  (set_opened true (set_phase PhaseExited s),
   if s_closing s then Errorf CodeClosed
   else match as_error err with
     | Some e => e
     | None => if gone then OpenAbandoned else OpenError OpenConfigInvalid
     end).

(** The transport started: Open keeps it and the Session's lock, which it lets
    go if the harness exited meanwhile. *)
Definition open_attach (sessionID : string) (s : session) : session :=
  set_locked (negb (s_exited s)) (set_sessionID sessionID (set_transport true s)).

(** Open's last section. *)
Definition open_end (s : session) : session * result Error (string * State) :=
  let s := set_opened true s in
  if s_closing s then (s, Err (Errorf CodeClosed))
  else
    let s := if bool_decide (s_phase s = PhaseStarting)
             then set_phase (if is_none (s_auto s) then PhaseIdle else PhaseBusy) s else s in
    (s, Ok (s_sessionID s, stateLocked s)).

(** ** Close *)

Definition CloseReasons : list string := ["park"; "delete"; "upgrade"; "reset"].

Definition close_check (reason : string) (drain : Z) : result Error unit :=
  when negb (supports CloseReasons reason) refuse FieldError CodeProtocol "reason" ;;
  when (drain <? 0) || (MaxDrain <? drain) refuse FieldError CodeProtocol "drain_ms" ;;
  Ok tt.

(** Close's first section: [None] joins the Close in progress, else the phase
    the Session is closed in. *)
Definition close_begin (s : session) : session * option Phase :=
  if s_closing s then (s, None)
  else (set_closeDone false (set_closing true s), Some (s_phase s)).

(** [finish]; a Session closed unopened also has its [opened] closed. *)
Definition close_finish (unopened : bool) (res : CloseResult) (s : session) : session :=
  let s := if unopened then set_opened true s else s in
  set_closeDone true (set_closeRes (Some res) (stop_timer (set_phase PhaseExited s))).

End Operations.
