(* ===== verification/SessionProps.v ===== *)
(** A Session's behaviour over every interleaving of its harness's events, its
    timers and its callers: the Session as a transition system whose steps are
    the critical sections of Session.v, and what holds of every state it
    reaches. *)
From Stdlib Require Import ZArith Ascii String Lia.
From stdpp Require Import base tactics list gmap strings option.
From S2P Require Import Prelude GoStr Json Contract Descriptor Requests Observation SessionState Session.

#[local] Open Scope string_scope.
#[local] Open Scope Z_scope.
#[local] Open Scope list_scope.

(** Where the outstanding Send is; [sending] lets one at a time past its
    admission. *)
Inductive sendpc :=
| SNone
| SAdmitted (in_ : Input)
| SSubmitting (id : nat)
| SReturning.

Record world := mkWorld { w_s : session; w_send : sendpc }.

Definition init : world := mkWorld newSession SNone.

Section System.
Variables (desc : Descriptor) (instance : string) (digest16 : string -> string).

(** One critical section of one operation. What a Transport promises is in two
    premises: a native id it names is fresh, and after an error that says
    nothing reached the harness it has reported nothing of the input's turn. *)
Inductive step : world -> list emission -> world -> Prop :=
| st_report now ev s pc s' obs :
    report desc instance digest16 now ev s = (s', obs) -> step (mkWorld s pc) obs (mkWorld s' pc)
| st_expire id s pc :
    is_Some (s_timers s !! id) ->
    step (mkWorld s pc) [] (mkWorld (set_fired ({[id]} ∪ s_fired s) (set_timers (delete id (s_timers s)) s)) pc)
| st_gate id now s pc s' obs :
    id ∈ s_fired s -> gate_opens instance now (set_fired (s_fired s ∖ {[id]}) s) = (s', obs) ->
    step (mkWorld s pc) obs (mkWorld s' pc)
| st_send_begin in_ s s' pc :
    send_begin desc in_ s = Ok s' -> step (mkWorld s pc) [] (mkWorld s' (SAdmitted in_))
| st_send_unmarked in_ s : step (mkWorld s (SAdmitted in_)) [] (mkWorld s SReturning)
| st_send_register in_ native s s' id :
    native <> "" -> s_byNative s !! native = None -> send_register digest16 (in_id in_) native s = (s', id) ->
    step (mkWorld s (SAdmitted in_)) [] (mkWorld s' (SSubmitting id))
| st_send_settle id t err freed ex s s' r :
    s_T s !! id = Some t -> send_settle id t err freed ex s = (s', r) ->
    (forall e, err = Some e -> not_reached e = true -> tn_started t = false /\ s_phase s <> PhaseAwaitingAnswer) ->
    step (mkWorld s (SSubmitting id)) [] (mkWorld s' SReturning)
| st_send_end s : step (mkWorld s SReturning) [] (mkWorld (send_end s) SNone)
| st_interrupt req selfStarter s pc s' r :
    s_sending s = false -> Interrupt req selfStarter s = (s', r) -> step (mkWorld s pc) [] (mkWorld s' pc)
| st_interrupt_failed id op s pc : step (mkWorld s pc) [] (mkWorld (interrupt_failed id op s).1 pc)
| st_interruptAuto_failed id op s pc : step (mkWorld s pc) [] (mkWorld (interruptAuto_failed id op s).1 pc)
| st_answer id c err s pc : step (mkWorld s pc) [] (mkWorld (answer_end id c err s).1 pc)
| st_open_begin s s' pc : open_begin s = Ok s' -> step (mkWorld s pc) [] (mkWorld s' pc)
| st_open_fail err gone s pc :
    s_opened s = false -> step (mkWorld s pc) [] (mkWorld (open_fail err gone s).1 pc)
| st_open_attach sessionID s pc :
    s_opened s = false -> step (mkWorld s pc) [] (mkWorld (open_attach sessionID s) pc)
| st_open_end s pc :
    s_opened s = false -> step (mkWorld s pc) [] (mkWorld (open_end desc s).1 pc)
| st_close_begin s pc : step (mkWorld s pc) [] (mkWorld (close_begin s).1 pc)
| st_close_finish unopened res s pc :
    s_closing s = true -> step (mkWorld s pc) [] (mkWorld (close_finish unopened res s) pc).

Inductive steps : world -> list emission -> world -> Prop :=
| steps_nil w : steps w [] w
| steps_snoc w0 tr w obs w' : steps w0 tr w -> step w obs w' -> steps w0 (tr ++ obs) w'.

(** ** What an event changes *)

(** An observation that starts or ends an input's turn. *)
Definition turn_obs (e : emission) : bool :=
  negb (em_input e =s? "") &&
  (bool_decide (em_kind e = KindTurnStarted) || bool_decide (em_kind e = KindTurnEnded)).
Definition quiet (obs : list emission) : Prop := Forall (fun e => turn_obs e = false) obs.

Definition started_obs (t : turn) (at_ : Time) : emission :=
  liveObs KindTurnStarted (tn_input t) (Some t) at_ (JObj []).
Definition ended_obs (t : turn) (at_ : Time) (ev : Event) : emission :=
  mkEmission KindTurnEnded (tn_input t) (tn_turnID t) (tn_input t) at_ (fst (ended_data ev)) (snd (ended_data ev)).

(** A turn an event can name, and the interrupt operations the harness's own
    turns hold. What a step does to the turns of inputs: nothing, starts one, ends one
    (starting it first when it had not started), or counts a retry; and what
    it reports of them. *)
Definition known (s : session) (id : nat) : Prop :=
  (exists n, s_byNative s !! n = Some id) \/ s_current s = Some id.

Definition auto_ops (s : session) (op : nat) : Prop :=
  exists id a, s_A s !! id = Some a /\ au_interrupt a = Some op.

Definition ops_kept (s s' : session) : Prop :=
  s_O s' = s_O s \/ exists op x, auto_ops s op /\ s_O s !! op = Some (mkOp None) /\ s_O s' = <[op := x]> (s_O s).

Inductive turn_delta (s s' : session) (obs : list emission) : Prop :=
| td_none : s_T s' = s_T s -> s_current s' = s_current s -> quiet obs -> ops_kept s s' -> turn_delta s s' obs
| td_start id t at_ :
    s_T s !! id = Some t -> known s id -> tn_started t = false -> s_T s' = <[id := tn_start t]> (s_T s) ->
    s_current s' = s_current s -> obs = [started_obs t at_] -> s_O s' = s_O s -> turn_delta s s' obs
| td_end id t at_ ev rest :
    s_T s !! id = Some t -> known s id -> tn_ended t = false ->
    s_T s' = <[id := tn_end (ev_outcome ev) (tn_start t)]> (s_T s) ->
    s_current s' = (if bool_decide (s_current s = Some id) then None else s_current s) ->
    obs = (if tn_started t then [] else [started_obs t at_]) ++ [ended_obs t at_ ev] ++ rest -> quiet rest ->
    s_O s' = s_O (settle_op (tn_interrupt t) (ev_outcome ev) s) -> turn_delta s s' obs
| td_retry id t :
    s_T s !! id = Some t -> known s id -> s_T s' = <[id := tn_retry t]> (s_T s) -> s_current s' = s_current s ->
    quiet obs -> s_O s' = s_O s -> turn_delta s s' obs.

(** What the events leave alone. *)
Definition framed (s s' : session) : Prop :=
  s_turns s' = s_turns s /\ s_byNative s' = s_byNative s /\ s_sending s' = s_sending s /\
  s_closing s' = s_closing s /\ s_opened s' = s_opened s.

Lemma settle_op_frame op o s :
  let s' := settle_op op o s in
  framed s s' /\ s_T s' = s_T s /\ s_current s' = s_current s /\ s_phase s' = s_phase s /\ s_auto s' = s_auto s /\
  s_prompt s' = s_prompt s /\ s_A s' = s_A s /\ s_next s' = s_next s /\ s_exited s' = s_exited s /\
  s_autos s' = s_autos s.
Proof.
  unfold settle_op, framed. destruct op as [id|]; [|done]. destruct (s_O s !! id) as [[[|]]|]; done.
Qed.

Lemma restLocked_frame s :
  let s' := restLocked s in framed s s' /\ s_T s' = s_T s /\ s_current s' = s_current s /\ s_auto s' = s_auto s /\
  s_A s' = s_A s /\ s_O s' = s_O s /\ s_next s' = s_next s /\ s_exited s' = s_exited s /\ s_autos s' = s_autos s.
Proof. unfold restLocked, framed. by destruct (_ && _ && _). Qed.

Lemma stop_timer_frame s :
  let s' := stop_timer s in framed s s' /\ s_T s' = s_T s /\ s_current s' = s_current s /\ s_phase s' = s_phase s /\
  s_auto s' = s_auto s /\ s_A s' = s_A s /\ s_O s' = s_O s /\ s_next s' = s_next s /\ s_exited s' = s_exited s /\
  s_autos s' = s_autos s.
Proof. unfold stop_timer, framed. by destruct (s_gateTimer s). Qed.

Lemma gate_closes_frame b at_ s s' obs : gate_closes instance b at_ s = (s', obs) ->
  framed s s' /\ s_T s' = s_T s /\ s_current s' = s_current s /\ s_phase s' = PhaseBlocked /\ s_auto s' = s_auto s /\
  s_A s' = s_A s /\ s_O s' = s_O s /\ (s_next s <= s_next s')%nat /\ s_exited s' = s_exited s /\
  s_autos s' = s_autos s /\ quiet obs.
Proof.
  unfold gate_closes, liveKeyLocked, framed. intros H.
  destruct (bk_reason b), (bk_resume b); injection H as <- <-; cbn;
    try (split_and!; try done; try lia; by repeat constructor).
  unfold armGateLocked, stop_timer. cbn. destruct (s_gateTimer s); cbn; split_and!; try done; try lia; by repeat constructor.
Qed.

Lemma event_turn_Some ev s id t : event_turn ev s = Some (id, t) ->
  s_T s !! id = Some t /\ (s_byNative s !! ev_native ev = Some id \/ s_current s = Some id).
Proof.
  unfold event_turn. intros H. apply bind_Some in H as (id' & Hid & H). apply fmap_Some in H as (t' & Ht & [= -> ->]).
  split; [done|]. destruct (s_byNative s !! ev_native ev) as [x|]; [left; congruence|].
  destruct (ev_native ev =s? ""); [by right|done].
Qed.

Lemma quiet_app l1 l2 : quiet l1 -> quiet l2 -> quiet (l1 ++ l2).
Proof. intros H1 H2. by apply Forall_app. Qed.

Lemma quiet_nil : quiet [].
Proof. constructor. Qed.

Lemma quiet_one e : em_input e = "" \/ (em_kind e <> KindTurnStarted /\ em_kind e <> KindTurnEnded) -> quiet [e].
Proof.
  intros H. constructor; [|constructor]. unfold turn_obs. destruct H as [->|[H1 H2]]; [done|].
  rewrite !bool_decide_false by done. apply andb_false_r.
Qed.

(** endLocked's state before the gate is considered. *)
Lemma endLocked_spec now at_ id t ev s s' obs :
  endLocked instance now at_ id t ev s = (s', obs) ->
  framed s s' /\ s_T s' = <[id := tn_end (ev_outcome ev) (tn_start t)]> (s_T s) /\
  s_current s' = (if bool_decide (s_current s = Some id) then None else s_current s) /\
  s_auto s' = s_auto s /\ s_A s' = s_A s /\ s_autos s' = s_autos s /\
  s_O s' = s_O (settle_op (tn_interrupt t) (ev_outcome ev) s) /\
  (s_next s <= s_next s')%nat /\ s_exited s' = s_exited s /\
  (exists rest, obs = (if tn_started t then [] else [started_obs t at_]) ++ [ended_obs t at_ ev] ++ rest /\ quiet rest) /\
  (s_phase s' = s_phase s \/ s_phase s' = PhaseBlocked \/
   ((s_phase s = PhaseBusy \/ s_phase s = PhaseAwaitingAnswer) /\ s_phase s' = PhaseIdle) \/
   (s_phase s = PhaseAwaitingAnswer /\ s_phase s' = PhaseBusy)) /\
  (s_phase s = PhaseExited -> s_phase s' = PhaseExited) /\
  (s_phase s' = PhaseBusy \/ s_phase s' = PhaseAwaitingAnswer -> s_current s' = None -> s_auto s' <> None) /\
  (s_phase s' = PhaseAwaitingAnswer -> s_phase s = PhaseAwaitingAnswer -> False).
Proof.
  unfold endLocked. set (s1 := upd_turn id _ s).
  destruct (ended_data ev) as [data cut] eqn:Ed.
  pose proof (settle_op_frame (tn_interrupt t) (ev_outcome ev) s1) as Hf. cbv zeta in Hf.
  assert (HO : s_O (settle_op (tn_interrupt t) (ev_outcome ev) s1) = s_O (settle_op (tn_interrupt t) (ev_outcome ev) s)).
  { unfold settle_op. destruct (tn_interrupt t) as [i|]; [|done]. cbn. by destruct (s_O s !! i) as [[[|]]|]. }
  set (s2 := settle_op _ _ s1) in *.
  destruct Hf as ((F1 & F2 & F3 & F4 & F5) & F6 & F7 & F8 & F9 & F10 & F11 & F12 & F13 & F14).
  set (s3 := if bool_decide (s_current s2 = Some id) then set_current None s2 else s2).
  assert (H3 : framed s s3 /\ s_T s3 = s_T s1 /\ s_current s3 = (if bool_decide (s_current s = Some id) then None else s_current s) /\
     s_phase s3 = s_phase s /\ s_auto s3 = s_auto s /\ s_A s3 = s_A s /\ s_O s3 = s_O s2 /\ s_next s3 = s_next s /\
     s_exited s3 = s_exited s /\ s_autos s3 = s_autos s).
  { unfold s3, framed. rewrite F7. change (s_current s1) with (s_current s).
    destruct (bool_decide (s_current s = Some id)); cbn; split_and!; try done. }
  set (resolved := match s_prompt s3 with Some p => _ | None => [] end).
  assert (Hq : quiet resolved).
  { unfold resolved. destruct (s_prompt s3); [|apply quiet_nil]. apply quiet_one. right. by split. }
  clearbody s3 resolved s2. clear F1 F2 F3 F4 F5 F6 F7 F8 F9 F10 F11 F12 F13 F14.
  set (s4 := set_retry None (set_prompt None s3)).
  destruct H3 as (G1 & G2 & G3 & G4 & G5 & G6 & G7 & G8 & G9 & G10).
  assert (Hobs : ((if tn_started t then [] else [liveObs KindTurnStarted (tn_input t) (Some t) at_ (JObj [])]) ++
     [mkEmission KindTurnEnded (tn_input t) (tn_turnID t) (tn_input t) at_ data cut] ++ resolved) =
     (if tn_started t then [] else [started_obs t at_]) ++ [ended_obs t at_ ev] ++ resolved).
  { unfold ended_obs. by rewrite Ed. }
  cbv zeta. rewrite Hobs. clear Hobs.
  destruct (bool_decide_reflect (s_phase s4 = PhaseExited)) as [He|He].
  { intros [= <- <-]. cbn in He |- *. rewrite G2, G3, G4, G5, G6, G7, G8, G9, G10. rewrite G4 in He.
    split_and!; try done; try lia; eauto; try (intros [?|?]; congruence). congruence. }
  destruct (blockFor now (s_resumeHint s4) (ev_error ev)) as [b|].
  - destruct (gate_closes instance b at_ s4) as [s5 blocked] eqn:Eg.
    apply gate_closes_frame in Eg as ((K1 & K2 & K3 & K4 & K5) & K6 & K7 & K8 & K9 & K10 & K11 & K12 & K13 & K14 & K15).
    intros [= <- <-]. cbn in *. destruct G1 as (? & ? & ? & ? & ?).
    split_and!; try congruence; try lia; auto.
    + unfold framed. split_and!; congruence.
    + exists (resolved ++ blocked). rewrite <- !app_assoc. split; [done|]. by apply quiet_app.
    + intros [?|?]; congruence.
  - set (s5 := if bool_decide (s_phase s4 = PhaseAwaitingAnswer) then set_phase PhaseBusy s4 else s4).
    assert (H5 : framed s s5 /\ s_T s5 = s_T s1 /\ s_current s5 = s_current s3 /\ s_auto s5 = s_auto s /\ s_A s5 = s_A s /\
       s_O s5 = s_O s3 /\ s_next s5 = s_next s /\ s_exited s5 = s_exited s /\ s_autos s5 = s_autos s /\
       s_phase s5 = (if bool_decide (s_phase s = PhaseAwaitingAnswer) then PhaseBusy else s_phase s)).
    { unfold s5, framed. cbn. rewrite G4. destruct G1 as (? & ? & ? & ? & ?).
      destruct (bool_decide (s_phase s = PhaseAwaitingAnswer)); cbn; split_and!; try congruence; exact G2. }
    clearbody s5. destruct H5 as (L1 & L2 & L3 & L4 & L5 & L6 & L7 & L8 & L9 & L10). intros [= <- <-].
    pose proof (restLocked_frame s5) as R. cbv zeta in R.
    destruct R as ((R1 & R2 & R3 & R4 & R5) & R6 & R7 & R8 & R9 & R10 & R11 & R12 & R13). destruct L1 as (? & ? & ? & ? & ?).
    assert (Hrest : s_phase (restLocked s5) = (if bool_decide (s_phase s5 = PhaseBusy) && bool_decide (s_current s5 = None) && bool_decide (s_auto s5 = None) then PhaseIdle else s_phase s5)).
    { unfold restLocked. by destruct (_ && _ && _). }
    split_and!; try congruence; try lia; eauto.
    + unfold framed. split_and!; congruence.
    + rewrite R6. exact L2.
    + rewrite Hrest, L10. repeat case_bool_decide; cbn; auto 10.
    + intros Hx. cbn in He. congruence.
    + rewrite Hrest, R7, R8. intros Hb Hc Ha. rewrite (bool_decide_true (s_current s5 = None)), (bool_decide_true (s_auto s5 = None)) in Hb by done.
      rewrite !andb_true_r in Hb. case_bool_decide as Hbb; [by destruct Hb|]. rewrite L10 in Hbb, Hb.
      destruct (decide (s_phase s = PhaseAwaitingAnswer)) as [Haw|Haw];
        [by rewrite bool_decide_true in Hbb by done|rewrite bool_decide_false in Hbb, Hb by done; destruct Hb; congruence].
    + rewrite Hrest, L10. intros Hx Hy. rewrite (bool_decide_true (s_phase s = PhaseAwaitingAnswer)) in Hx by done.
      revert Hx. clear. repeat case_bool_decide; cbn; congruence.
Qed.

Lemma settle_op_O op o s : s_O (settle_op op o s) = s_O s \/
  exists i, op = Some i /\ s_O s !! i = Some (mkOp None) /\ s_O (settle_op op o s) = <[i := mkOp (Some (interruptOutcome o))]> (s_O s).
Proof.
  unfold settle_op. destruct op as [i|]; [|by left]. destruct (s_O s !! i) as [[[|]]|] eqn:E; [by left| |by left].
  right. by exists i.
Qed.

Lemma auto_of_spec native s s' id a : auto_of digest16 native s = (s', id, a) ->
  framed s s' /\ s_T s' = s_T s /\ s_current s' = s_current s /\ s_phase s' = s_phase s /\ s_auto s' = s_auto s /\
  s_O s' = s_O s /\ s_exited s' = s_exited s /\ (s_next s <= s_next s')%nat /\ s_A s' !! id = Some a /\
  (forall op, auto_ops s' op -> auto_ops s op).
Proof.
  unfold auto_of. destruct (s_autos s !! native ≫= _) as [[id0 a0]|] eqn:E.
  - intros [= <- <- <-]. apply bind_Some in E as (x & _ & Hx). apply fmap_Some in Hx as (y & Hy & [= -> ->]).
    unfold framed. split_and!; done.
  - unfold framed. assert (Hp : prune_autos s = s \/ exists m, prune_autos s = set_autos m s).
    { unfold prune_autos. destruct (_ <=? _); eauto. }
    intros [= <- <- <-]. cbn.
    assert (Hf : framed s (prune_autos s) /\ s_T (prune_autos s) = s_T s /\ s_current (prune_autos s) = s_current s /\
      s_phase (prune_autos s) = s_phase s /\ s_auto (prune_autos s) = s_auto s /\ s_O (prune_autos s) = s_O s /\
      s_exited (prune_autos s) = s_exited s /\ s_next (prune_autos s) = s_next s /\ s_A (prune_autos s) = s_A s).
    { unfold framed. by destruct Hp as [->|[m ->]]. }
    destruct Hf as ((? & ? & ? & ? & ?) & ? & ? & ? & ? & ? & ? & Hn & HA).
    split_and!; try done; [lia|by rewrite lookup_insert_eq|].
    intros op (i & x & Hx & Ho). cbn in Hx. apply lookup_insert_Some in Hx as [[_ <-]|[_ Hx]]; [done|].
    rewrite HA in Hx. by exists i, x.
Qed.

Lemma autoObs_quiet kind a at_ data cut : quiet [autoObs kind a at_ data cut].
Proof. apply quiet_one. by left. Qed.

Lemma autoLocked_spec now at_ ev s s' obs : autoLocked desc instance digest16 now at_ ev s = (s', obs) ->
  framed s s' /\ s_T s' = s_T s /\ s_current s' = s_current s /\ s_exited s' = s_exited s /\
  (s_next s <= s_next s')%nat /\ quiet obs /\ (s_phase s = PhaseExited -> s_phase s' = PhaseExited) /\
  (forall op, auto_ops s' op -> auto_ops s op) /\
  (s_O s' = s_O s \/ exists op x, auto_ops s op /\ s_O s !! op = Some (mkOp None) /\ s_O s' = <[op := x]> (s_O s)) /\
  (has desc CapAutonomousTurns = false -> has desc CapBackgroundTurns = false -> s' = s).
Proof.
  unfold autoLocked. destruct (_ && _ || _) eqn:Ecap.
  { intros [= <- <-]. unfold framed. split_and!; try done; [apply quiet_nil|by left]. }
  assert (Hcap : has desc CapAutonomousTurns = false -> has desc CapBackgroundTurns = false -> False).
  { intros H1 H2. rewrite H1, H2 in Ecap. done. }
  clear Ecap. destruct (auto_of digest16 (ev_auto ev) s) as [[s1 id] a] eqn:Ea.
  apply auto_of_spec in Ea as ((A1 & A2 & A3 & A4 & A5) & A6 & A7 & A8 & A9 & A10 & A11 & A12 & A13 & A14).
  destruct (au_ended a || _).
  { intros [= <- <-]. unfold framed. split_and!; try done; try congruence; [apply quiet_nil|by left|naive_solver]. }
  set (started := if au_started a then [] else _).
  assert (Hst : quiet started) by (unfold started; destruct (au_started a); [apply quiet_nil|apply autoObs_quiet]).
  assert (Hops : forall s2 x, s_A s2 = <[id := x]> (s_A s1) -> au_interrupt x = au_interrupt a ->
            forall op, auto_ops s2 op -> auto_ops s op).
  { intros s2 x Hs2 Hx op (i & y & Hy & Ho). apply A14. rewrite Hs2 in Hy.
    apply lookup_insert_Some in Hy as [[<- <-]|[_ Hy]]; [|by exists i, y]. exists id, a. by rewrite <- Hx. }
  clearbody started. cbv zeta. destruct (bool_decide (ev_kind ev = Started)).
  { intros [= <- <-]. unfold framed. cbn. case_bool_decide; cbn; (split_and!; try done; try congruence;
      try (by left); [|naive_solver]); by eapply (Hops _ (au_start a)). }
  destruct (ended_data ev) as [data cut].
  set (s2 := upd_auto id (au_end (au_start a)) s1).
  pose proof (settle_op_frame (au_interrupt a) (ev_outcome ev) s2) as Hf. cbv zeta in Hf.
  pose proof (settle_op_O (au_interrupt a) (ev_outcome ev) s2) as HO.
  change (au_interrupt (au_start a)) with (au_interrupt a).
  set (s3 := settle_op _ _ s2) in *.
  destruct Hf as ((F1 & F2 & F3 & F4 & F5) & F6 & F7 & F8 & F9 & F10 & F11 & F12 & F13 & F14).
  assert (E2 : framed s1 s2 /\ s_T s2 = s_T s1 /\ s_current s2 = s_current s1 /\ s_phase s2 = s_phase s1 /\
    s_exited s2 = s_exited s1 /\ s_next s2 = s_next s1 /\ s_O s2 = s_O s1 /\ s_A s2 = <[id := au_end (au_start a)]> (s_A s1)) by done.
  destruct E2 as ((? & ? & ? & ? & ?) & ? & ? & ? & ? & ? & EO & EA). rewrite EO in HO. clearbody s2.
  set (s4 := set_retry None (if bool_decide (s_auto s3 = Some id) then set_auto None s3 else s3)).
  assert (HH4 : framed s s4 /\ s_T s4 = s_T s /\ s_current s4 = s_current s /\ s_phase s4 = s_phase s /\ s_exited s4 = s_exited s /\
    s_next s4 = s_next s1 /\ s_O s4 = s_O s3 /\ s_A s4 = s_A s3).
  { unfold s4, framed. destruct (bool_decide (s_auto s3 = Some id)); cbn; split_and!; congruence. }
  clearbody s4. destruct HH4 as ((B1 & B2 & B3 & B4 & B5) & B6 & B7 & B8 & B9 & B10 & B11 & B12).
  assert (Hops4 : forall op, auto_ops s4 op -> auto_ops s op).
  { intros op (i & y & Hy & Ho). rewrite B12, F11 in Hy. apply (Hops s2 (au_end (au_start a)) EA eq_refl op). by exists i, y. }
  assert (HO4 : s_O s4 = s_O s \/ exists op x, auto_ops s op /\ s_O s !! op = Some (mkOp None) /\ s_O s4 = <[op := x]> (s_O s)).
  { rewrite B11, <- A10. destruct HO as [->|(i & Hi & Hx & ->)]; [by left|]. right.
    exists i, (mkOp (Some (interruptOutcome (ev_outcome ev)))). split_and!; try done. apply A14. by exists id, a. }
  assert (Hobs : quiet (started ++ [autoObs KindTurnEnded (au_start a) at_ data cut])) by (apply quiet_app; [done|apply autoObs_quiet]).
  destruct (_ || negb _) eqn:Eout.
  { intros [= <- <-]. unfold framed. split_and!; try done; try congruence; try lia. naive_solver. }
  apply orb_false_iff in Eout as [Ex _]. apply bool_decide_eq_false in Ex.
  destruct (blockFor now (s_resumeHint s4) (ev_error ev)) as [b|].
  - destruct (gate_closes instance b at_ s4) as [s5 blocked] eqn:Eg.
    apply gate_closes_frame in Eg as ((K1 & K2 & K3 & K4 & K5) & K6 & K7 & K8 & K9 & K10 & K11 & K12 & K13 & K14 & K15).
    intros Heq. injection Heq as <- Hobs'. rewrite <- Hobs'. unfold framed. split_and!; try congruence; try lia; try by apply quiet_app.
    + intros op (i & y & Hy & Ho). apply Hops4. rewrite K10 in Hy. by exists i, y.
    + by rewrite K11.
    + naive_solver.
  - intros [= <- <-]. pose proof (restLocked_frame s4) as R. cbv zeta in R.
    destruct R as ((R1 & R2 & R3 & R4 & R5) & R6 & R7 & R8 & R9 & R10 & R11 & R12 & R13).
    unfold framed. split_and!; try congruence; try lia; try done.
    + intros op (i & y & Hy & Ho). apply Hops4. rewrite R9 in Hy. by exists i, y.
    + by rewrite R10.
    + naive_solver.
Qed.

#[local] Arguments liveObs : simpl never.

Lemma event_turn_known ev s id t : event_turn ev s = Some (id, t) -> s_T s !! id = Some t /\ known s id.
Proof. intros H. apply event_turn_Some in H as [H1 [H2|H2]]; unfold known; eauto. Qed.

Lemma report_spec now ev s s' obs : report desc instance digest16 now ev s = (s', obs) ->
  framed s s' /\ turn_delta s s' obs /\ (forall op, auto_ops s' op -> auto_ops s op) /\ (s_next s <= s_next s')%nat.
Proof.
  intros H. unfold report in H. destruct (negb (ev_auto ev =s? "")).
  { apply autoLocked_spec in H as (F1 & F2 & F3 & F4 & F5 & F6 & F7 & F8 & F9 & F10). split_and!; try done. by apply td_none. }
  assert (Hsame : forall s' obs, framed s s' -> s_T s' = s_T s -> s_current s' = s_current s -> s_O s' = s_O s ->
            s_A s' = s_A s -> s_next s' = s_next s -> quiet obs ->
            framed s s' /\ turn_delta s s' obs /\ (forall op, auto_ops s' op -> auto_ops s op) /\ (s_next s <= s_next s')%nat).
  { intros s0 obs0 Hf HT Hc HO HA Hn Hq. split_and!; [done|by apply td_none; [| | |left]| |lia].
    intros op (i & a & Ha & Ho). rewrite HA in Ha. by exists i, a. }
  assert (Hq1 : forall k key t at_ d, k <> KindTurnStarted -> k <> KindTurnEnded -> quiet [liveObs k key t at_ d]).
  { intros k key t at_ d H1 H2. apply quiet_one. right. by destruct t. }
  cbv zeta in H. destruct (ev_kind ev).
  - destruct (event_turn ev s) as [[id t]|] eqn:Et; [|injection H as <- <-; by apply Hsame; try apply quiet_nil].
    apply event_turn_known in Et as [Ht Hk].
    destruct (tn_started t) eqn:Es; [injection H as <- <-; by apply Hsame; try apply quiet_nil|].
    injection H as <- <-. unfold framed. cbn. destruct (_ && _ && _); cbn; (split_and!; try done; by eapply td_start).
  - destruct (event_turn ev s) as [[id t]|] eqn:Et; [|injection H as <- <-; by apply Hsame; try apply quiet_nil].
    apply event_turn_known in Et as [Ht Hk].
    destruct (tn_ended t) eqn:Es; [injection H as <- <-; by apply Hsame; try apply quiet_nil|].
    apply endLocked_spec in H as (F1 & F2 & F3 & F4 & F5 & F6 & F7 & F8 & F9 & (rest & Hobs & Hq) & _). split_and!; try done.
    + by eapply td_end.
    + intros op (i & a & Ha & Ho). rewrite F5 in Ha. by exists i, a.
  - destruct (event_turn ev s) as [[id t]|] eqn:Et; [|injection H as <- <-; by apply Hsame; try apply quiet_nil].
    apply event_turn_known in Et as [Ht Hk]. destruct (has desc CapRetryVisible); injection H as <- <-.
    + unfold framed. cbn. split_and!; try done. eapply td_retry; try done. by apply Hq1.
    + by apply Hsame; try apply quiet_nil.
  - unfold liveKeyLocked in H. destruct (ev_resume ev); destruct (has desc CapRateLimits); injection H as <- <-;
      apply Hsame; try done; try apply quiet_nil; by apply Hq1.
  - destruct (ev_prompt ev) as [p|]; [|injection H as <- <-; by apply Hsame; try apply quiet_nil].
    destruct (event_turn ev s) as [[id t]|] eqn:Et; [|injection H as <- <-; by apply Hsame; try apply quiet_nil].
    destruct (tn_ended t); [injection H as <- <-; by apply Hsame; try apply quiet_nil|].
    injection H as <- <-. cbn. destruct (_ || _); by apply Hsame; try by apply Hq1.
  - destruct (s_prompt s) as [p|]; [|injection H as <- <-; by apply Hsame; try apply quiet_nil].
    destruct (negb (pi_id p =s? ev_prompt_id ev)); [injection H as <- <-; by apply Hsame; try apply quiet_nil|].
    injection H as <- <-. cbn. case_bool_decide; by apply Hsame; try by apply Hq1.
  - destruct (s_exited s); [injection H as <- <-; by apply Hsame; try apply quiet_nil|].
    unfold liveKeyLocked in H. injection H as <- <-.
    apply Hsame; [..|by apply Hq1]; unfold framed, stop_timer; cbn; by destruct (s_gateTimer s).
  - destruct (_ || _); [injection H as <- <-; by apply Hsame; try apply quiet_nil|].
    unfold liveKeyLocked in H. injection H as <- <-. by apply Hsame; try by apply Hq1.
Qed.

(** ** The invariant *)

Definition is_obs (k : Kind) (i : string) (e : emission) : bool :=
  bool_decide (em_kind e = k) && (em_input e =s? i).
Definition count (k : Kind) (i : string) (out : list emission) : nat := length (List.filter (is_obs k i) out).

(** What the turn of input [i] says, [false] when there is none. *)
Definition flag (s : session) (i : string) (f : turn -> bool) : bool :=
  match s_turns s !! i ≫= fun id => s_T s !! id with Some t => f t | None => false end.

(** A turn's interrupt has its outcome exactly when the turn ended, and the one
    its outcome gives. *)
Definition op_agrees (t : turn) (o : option InterruptOutcome) : Prop :=
  o = if tn_ended t then interruptOutcome <$> tn_outcome t else None.

Definition ended_after_started (out : list emission) : Prop :=
  forall pre e post i, out = pre ++ e :: post -> i <> "" -> is_obs KindTurnEnded i e = true ->
    count KindTurnStarted i pre = 1%nat.

(** Each interrupt operation is one turn's, and agrees with it. *)
Definition ops_ok (s : session) : Prop :=
  forall id t op, s_T s !! id = Some t -> tn_interrupt t = Some op ->
    (op < s_next s)%nat /\ ~ auto_ops s op /\
    (forall id' t', s_T s !! id' = Some t' -> tn_interrupt t' = Some op -> id' = id) /\
    exists o, s_O s !! op = Some (mkOp o) /\ op_agrees t o.

Record inv (out : list emission) (w : world) : Prop := {
  i_sending : s_sending (w_s w) = true <-> w_send w <> SNone;
  i_current : forall id, s_current (w_s w) = Some id -> exists t, s_T (w_s w) !! id = Some t /\
    tn_ended t = false /\ s_turns (w_s w) !! tn_input t = Some id;
  i_native : forall n id, s_byNative (w_s w) !! n = Some id -> exists t, s_T (w_s w) !! id = Some t /\
    tn_native t = n /\ s_turns (w_s w) !! tn_input t = Some id;
  i_turns : forall i id, s_turns (w_s w) !! i = Some id -> i <> "" /\ exists t, s_T (w_s w) !! id = Some t /\ tn_input t = i;
  i_admitted : forall in_, w_send w = SAdmitted in_ -> in_id in_ <> "" /\ s_turns (w_s w) !! in_id in_ = None;
  i_submitting : forall id, w_send w = SSubmitting id -> exists t, s_T (w_s w) !! id = Some t /\
    s_turns (w_s w) !! tn_input t = Some id /\ s_byNative (w_s w) !! tn_native t = Some id;
  i_fresh : forall id t, s_T (w_s w) !! id = Some t -> (id < s_next (w_s w))%nat;
  i_flags : forall id t, s_T (w_s w) !! id = Some t ->
    tn_ended t = true -> tn_started t = true /\ is_Some (tn_outcome t);
  i_ops : ops_ok (w_s w);
  i_auto_ops : forall op, auto_ops (w_s w) op -> (op < s_next (w_s w))%nat;
  i_starts : forall i, i <> "" -> count KindTurnStarted i out = if flag (w_s w) i tn_started then 1%nat else 0%nat;
  i_ends : forall i, i <> "" -> count KindTurnEnded i out = if flag (w_s w) i tn_ended then 1%nat else 0%nat;
  i_order : ended_after_started out;
}.

Lemma count_app k i l1 l2 : count k i (l1 ++ l2) = (count k i l1 + count k i l2)%nat.
Proof. unfold count. by rewrite List.filter_app, length_app. Qed.

Lemma count_quiet k i obs : i <> "" -> k = KindTurnStarted \/ k = KindTurnEnded -> quiet obs -> count k i obs = 0%nat.
Proof.
  intros Hi Hk. induction 1 as [|e obs He _ IH]; [done|]. unfold count in *. cbn.
  destruct (is_obs k i e) eqn:E; [|done]. exfalso. unfold is_obs in E. apply andb_true_iff in E as [E1 E2].
  apply bool_decide_eq_true in E1. apply String.eqb_eq in E2. unfold turn_obs in He. rewrite E1, E2 in He.
  rewrite (proj2 (String.eqb_neq i "") Hi) in He. cbn in He. destruct Hk as [-> | ->]; done.
Qed.

Lemma count_started k i t at_ : count k i [started_obs t at_] =
  if bool_decide (k = KindTurnStarted) && (tn_input t =s? i) then 1%nat else 0%nat.
Proof.
  unfold count, is_obs, started_obs, ended_obs, liveObs. cbn.
  repeat case_bool_decide; try congruence; by destruct (tn_input t =s? i).
Qed.

Lemma count_ended k i t at_ ev : count k i [ended_obs t at_ ev] =
  if bool_decide (k = KindTurnEnded) && (tn_input t =s? i) then 1%nat else 0%nat.
Proof.
  unfold count, is_obs, started_obs, ended_obs, liveObs. cbn.
  repeat case_bool_decide; try congruence; by destruct (tn_input t =s? i).
Qed.

Lemma order_quiet out obs : ended_after_started out -> quiet obs -> ended_after_started (out ++ obs).
Proof.
  intros Ho Hq. revert out Ho. induction Hq as [|e obs He _ IH]; intros out Ho; [by rewrite app_nil_r|].
  replace (out ++ e :: obs) with ((out ++ [e]) ++ obs) by (by rewrite <- app_assoc). apply IH.
  intros pre x post i Heq Hi Hx. destruct post as [|y post _] using rev_ind.
  - apply app_inj_tail in Heq as [-> ->]. unfold is_obs in Hx. apply andb_true_iff in Hx as [H1 H2].
    apply bool_decide_eq_true in H1. apply String.eqb_eq in H2. unfold turn_obs in He. rewrite H1, H2 in He.
    rewrite (proj2 (String.eqb_neq i "") Hi) in He. done.
  - rewrite app_comm_cons, app_assoc in Heq. apply app_inj_tail in Heq as [-> _]. by eapply Ho.
Qed.

Lemma order_snoc out e : ended_after_started out ->
  (forall i, i <> "" -> is_obs KindTurnEnded i e = true -> count KindTurnStarted i out = 1%nat) ->
  ended_after_started (out ++ [e]).
Proof.
  intros Ho He pre x post i Heq Hi Hx. destruct post as [|y post _] using rev_ind.
  - apply app_inj_tail in Heq as [-> ->]. by apply He.
  - rewrite app_comm_cons, app_assoc in Heq. apply app_inj_tail in Heq as [-> _]. by eapply Ho.
Qed.

(** A turn an event names is registered under its input. *)
Lemma known_registered out w id t : inv out w -> known (w_s w) id -> s_T (w_s w) !! id = Some t ->
  s_turns (w_s w) !! tn_input t = Some id /\ tn_input t <> "".
Proof.
  intros I [[n Hn]|Hc] Ht.
  - destruct (i_native _ _ I n id Hn) as (t' & Ht' & _ & Hr). simplify_eq. split; [done|]. by apply (i_turns _ _ I _ _ Hr).
  - destruct (i_current _ _ I id Hc) as (t' & Ht' & _ & Hr). simplify_eq. split; [done|]. by apply (i_turns _ _ I _ _ Hr).
Qed.

(** Rewriting the turn [t] at [id] changes what its input's turn says, and no
    other's. *)
Lemma flag_update s s' id t t' i f :
  s_turns s' = s_turns s -> s_T s' = <[id := t']> (s_T s) -> s_T s !! id = Some t -> tn_input t' = tn_input t ->
  s_turns s !! tn_input t = Some id ->
  (forall j k, s_turns s !! j = Some k -> exists x, s_T s !! k = Some x /\ tn_input x = j) ->
  flag s' i f = if tn_input t =s? i then f t' else flag s i f.
Proof.
  intros Hu HT Ht Hin Hreg Hall. unfold flag. rewrite Hu, HT.
  destruct (String.eqb_spec (tn_input t) i) as [<-|Hne].
  - rewrite Hreg. cbn. by rewrite lookup_insert_eq.
  - destruct (s_turns s !! i) as [k|] eqn:Ek; [|done]. cbn.
    rewrite lookup_insert_ne; [done|]. intros <-. destruct (Hall _ _ Ek) as (x & Hx & Hxi). congruence.
Qed.

(** The parts of the invariant about the reported observations. *)
Definition reported (out : list emission) (s : session) : Prop :=
  (forall i, i <> "" -> count KindTurnStarted i out = if flag s i tn_started then 1%nat else 0%nat) /\
  (forall i, i <> "" -> count KindTurnEnded i out = if flag s i tn_ended then 1%nat else 0%nat) /\
  ended_after_started out.

(** A step that rewrites one turn keeps the invariant, given the operations'
    and the reports' parts of it. *)
Lemma inv_rewrite out out' s s' pc id t t' :
  inv out (mkWorld s pc) -> framed s s' -> s_T s' = <[id := t']> (s_T s) -> s_T s !! id = Some t ->
  tn_input t' = tn_input t -> tn_native t' = tn_native t ->
  (s_current s' = s_current s /\ tn_ended t' = tn_ended t \/
   s_current s' = (if bool_decide (s_current s = Some id) then None else s_current s)) ->
  (tn_ended t' = true -> tn_started t' = true /\ is_Some (tn_outcome t')) ->
  (s_next s <= s_next s')%nat -> ops_ok s' -> (forall op, auto_ops s' op -> (op < s_next s')%nat) ->
  reported out' s' -> inv out' (mkWorld s' pc).
Proof.
  intros [] (E1 & E2 & E3 & E4 & E5) HT Ht Hin Hna Hcur Hend Hnx Hops Hau (R1 & R2 & R3).
  assert (Hl : forall k x, s_T s !! k = Some x -> exists x', s_T s' !! k = Some x' /\ tn_input x' = tn_input x /\ tn_native x' = tn_native x).
  { intros k x Hx. rewrite HT. destruct (decide (id = k)) as [<-|?].
    - rewrite lookup_insert_eq. exists t'. simplify_eq. done.
    - rewrite lookup_insert_ne by done. by exists x. }
  cbn in *. constructor; cbn; try done; rewrite ?E1, ?E2, ?E3; try done.
  - intros k Hk. destruct Hcur as [[Hc He]|Hc]; rewrite Hc in Hk.
    + destruct (i_current0 k Hk) as (x & Hx & Hxe & Hr). rewrite HT. destruct (decide (id = k)) as [<-|?].
      * rewrite lookup_insert_eq. exists t'. simplify_eq. rewrite He, Hin. done.
      * rewrite lookup_insert_ne by done. by exists x.
    + case_bool_decide as Hid; [done|]. destruct (i_current0 k Hk) as (x & Hx & Hxe & Hr). exists x.
      rewrite HT, lookup_insert_ne; [done|]. congruence.
  - intros n k Hk. destruct (i_native0 n k Hk) as (x & Hx & Hn & Hr). destruct (Hl k x Hx) as (x' & ? & Hi' & Hn'). exists x'. rewrite Hn', Hi'. done.
  - intros i k Hk. destruct (i_turns0 i k Hk) as (Hi & x & Hx & Hxi). split; [done|]. destruct (Hl k x Hx) as (x' & ? & Hi' & _). exists x'. by rewrite Hi'.
  - intros k Hk. destruct (i_submitting0 k Hk) as (x & Hx & Hr & Hn). destruct (Hl k x Hx) as (x' & ? & Hi' & Hn'). exists x'. by rewrite Hi', Hn'.
  - intros k x Hx. rewrite HT in Hx. apply lookup_insert_Some in Hx as [[<- _]|[_ Hx]]; [apply i_fresh0 in Ht; lia|apply i_fresh0 in Hx; lia].
  - intros k x Hx. rewrite HT in Hx. apply lookup_insert_Some in Hx as [[_ <-]|[_ Hx]]; [done|by eapply i_flags0].
Qed.

(** ... when no turn's interrupt is replaced. *)
Lemma inv_update out out' s s' pc id t t' :
  inv out (mkWorld s pc) -> framed s s' -> s_T s' = <[id := t']> (s_T s) -> s_T s !! id = Some t ->
  tn_input t' = tn_input t -> tn_native t' = tn_native t -> tn_interrupt t' = tn_interrupt t ->
  (s_current s' = s_current s /\ tn_ended t' = tn_ended t \/
   s_current s' = (if bool_decide (s_current s = Some id) then None else s_current s)) ->
  (tn_ended t' = true -> tn_started t' = true /\ is_Some (tn_outcome t')) ->
  (forall op, auto_ops s' op -> auto_ops s op) -> (s_next s <= s_next s')%nat ->
  (forall id0 t0 op o, s_T s !! id0 = Some t0 -> tn_interrupt t0 = Some op -> s_O s !! op = Some (mkOp o) ->
     op_agrees t0 o -> exists o', s_O s' !! op = Some (mkOp o') /\
       op_agrees (if bool_decide (id0 = id) then t' else t0) o') ->
  reported out' s' -> inv out' (mkWorld s' pc).
Proof.
  intros I Hf HT Ht Hin Hna Hint Hcur Hend Hau Hnx Hop Hr. pose proof (i_ops _ _ I) as Hops. cbn in Hops.
  apply (inv_rewrite out out' s s' pc id t t'); try done.
  - assert (Hback : forall k x op, s_T s' !! k = Some x -> tn_interrupt x = Some op ->
              exists y, s_T s !! k = Some y /\ tn_interrupt y = Some op /\ x = if bool_decide (k = id) then t' else y).
    { intros k x op Hx Ho. rewrite HT in Hx. apply lookup_insert_Some in Hx as [[<- <-]|[Hne Hx]].
      - exists t. rewrite bool_decide_true by done. by rewrite <- Hint.
      - exists x. rewrite bool_decide_false by done. done. }
    intros k x op Hx Ho. destruct (Hback k x op Hx Ho) as (y & Hy & Hyo & ->).
    destruct (Hops k y op Hy Hyo) as (Hlt & Hna' & Huniq & o & HoO & Hag). split_and!; [lia|by auto| |].
    + intros k' x' Hx' Ho'. destruct (Hback k' x' op Hx' Ho') as (y' & Hy' & Hyo' & _). by eapply Huniq.
    + by eapply Hop.
  - intros op Hop'. apply Hau, (i_auto_ops _ _ I) in Hop'. cbn in Hop'. lia.
Qed.

(** Setting a turn's interrupt changes nothing its input's turn reports. *)
Lemma reported_interrupt out s s' id t op : reported out s -> s_turns s' = s_turns s ->
  s_T s' = <[id := tn_set_interrupt op t]> (s_T s) -> s_T s !! id = Some t -> reported out s'.
Proof.
  intros (K1 & K2 & K3) Ht HT Hid.
  assert (Hflag : forall i f, f (tn_set_interrupt op t) = f t -> flag s' i f = flag s i f).
  { intros i f Hf. unfold flag. rewrite Ht, HT. destruct (s_turns s !! i) as [k|]; [|done]. cbn.
    destruct (decide (id = k)) as [<-|?]; [by rewrite lookup_insert_eq, Hid|by rewrite lookup_insert_ne]. }
  split_and!; [| |done]; intros i Hi; [rewrite K1 by done|rewrite K2 by done]; by rewrite Hflag.
Qed.

Lemma reported_quiet out obs s s' : reported out s -> quiet obs ->
  (forall i f, flag s' i f = flag s i f) -> reported (out ++ obs) s'.
Proof.
  intros (R1 & R2 & R3) Hq Hf. split_and!.
  - intros i Hi. rewrite count_app, (count_quiet _ _ obs), Hf, R1; auto with lia.
  - intros i Hi. rewrite count_app, (count_quiet _ _ obs), Hf, R2; auto with lia.
  - by apply order_quiet.
Qed.

Lemma inv_reported out w : inv out w -> reported out (w_s w).
Proof. intros []. done. Qed.

(** A step that changes no turn, current turn, map or Send. *)
Lemma inv_same out obs s s' pc :
  inv out (mkWorld s pc) -> framed s s' -> s_T s' = s_T s -> s_current s' = s_current s -> quiet obs ->
  (forall op, auto_ops s' op -> auto_ops s op \/ (s_next s <= op < s_next s')%nat) -> (s_next s <= s_next s')%nat ->
  ops_kept s s' \/ (exists x, s_O s' = <[s_next s := x]> (s_O s)) -> inv (out ++ obs) (mkWorld s' pc).
Proof.
  intros I (E1 & E2 & E3 & E4 & E5) HT Hc Hq Hau Hnx HO.
  destruct (reported_quiet out obs s s') as (R1 & R2 & R3); [by apply (inv_reported _ _ I)|done|by intros; unfold flag; rewrite E1, HT|].
  destruct I. cbn in *. constructor; cbn; rewrite ?E1, ?E2, ?E3, ?HT, ?Hc; try done.
  - intros id t Ht. apply i_fresh0 in Ht. lia.
  - intros id t op Ht Hi. rewrite HT in Ht. destruct (i_ops0 id t op Ht Hi) as (Hlt & Hna & Hu & o & Ho & Hag).
    split_and!; [lia| |by rewrite HT|].
    + intros Ha. apply Hau in Ha as [Ha|Ha]; [done|lia].
    + destruct HO as [[->|(op' & x & Hop' & _ & ->)]|(x & ->)]; [by exists o|..];
        exists o; (split; [|done]); rewrite lookup_insert_ne; [done| |done|]; [congruence|lia].
  - intros op Ha. apply Hau in Ha as [Ha|Ha]; [apply i_auto_ops0 in Ha; lia|lia].
Qed.

(** What an interrupt established still agrees with a turn whose end is the same. *)
Lemma ops_unchanged s id t t' : tn_ended t' = tn_ended t -> tn_outcome t' = tn_outcome t -> s_T s !! id = Some t ->
  forall id0 t0 op o, s_T s !! id0 = Some t0 -> tn_interrupt t0 = Some op -> s_O s !! op = Some (mkOp o) ->
  op_agrees t0 o -> exists o', s_O s !! op = Some (mkOp o') /\ op_agrees (if bool_decide (id0 = id) then t' else t0) o'.
Proof.
  intros He Ho Ht id0 t0 op o Ht0 _ HO Hag. exists o. split; [done|].
  case_bool_decide as Hid; [|done]. simplify_eq. unfold op_agrees in *. by rewrite He, Ho.
Qed.

(** ... and its end settles the turn's own. *)
Lemma ops_settled out s pc id t oc : inv out (mkWorld s pc) -> s_T s !! id = Some t -> tn_ended t = false ->
  forall id0 t0 op o, s_T s !! id0 = Some t0 -> tn_interrupt t0 = Some op -> s_O s !! op = Some (mkOp o) ->
  op_agrees t0 o -> exists o', s_O (settle_op (tn_interrupt t) oc s) !! op = Some (mkOp o') /\
    op_agrees (if bool_decide (id0 = id) then tn_end oc (tn_start t) else t0) o'.
Proof.
  intros I Ht He id0 t0 op o Ht0 Hop HoO Hag. destruct (i_ops _ _ I id0 t0 op Ht0 Hop) as (_ & _ & Huniq & _). cbn in Huniq.
  unfold settle_op. destruct (bool_decide_reflect (id0 = id)) as [->|Hid].
  - simplify_eq. rewrite Hop, HoO. unfold op_agrees in Hag. rewrite He in Hag. subst o. cbn.
    exists (Some (interruptOutcome oc)). by rewrite lookup_insert_eq.
  - exists o. split; [|done]. destruct (tn_interrupt t) as [op'|] eqn:Eop; [|done].
    destruct (s_O s !! op') as [[[|]]|]; try done. cbn. rewrite lookup_insert_ne; [done|].
    intros Heq. apply Hid. symmetry. apply (Huniq id t); congruence.
Qed.

Lemma inv_start_turn out s s' pc id t at_ :
  inv out (mkWorld s pc) -> framed s s' -> (forall op, auto_ops s' op -> auto_ops s op) -> (s_next s <= s_next s')%nat ->
  s_T s !! id = Some t -> known s id -> tn_started t = false -> s_T s' = <[id := tn_start t]> (s_T s) ->
  s_current s' = s_current s -> s_O s' = s_O s -> inv (out ++ [started_obs t at_]) (mkWorld s' pc).
Proof.
  intros I Hfr Hau Hnx Ht Hk Hs HT Hc HO. pose proof (inv_reported _ _ I) as (R1 & R2 & R3). cbn in R1, R2.
  pose proof Hfr as (E1 & _). destruct (known_registered _ _ _ _ I Hk Ht) as [Hreg Hne]. cbn in Hreg.
  assert (Hall : forall j k, s_turns s !! j = Some k -> exists x, s_T s !! k = Some x /\ tn_input x = j).
  { intros j k Hj. by destruct (i_turns _ _ I j k Hj) as [_ ?]. }
  assert (Hfl : forall i f, flag s' i f = if tn_input t =s? i then f (tn_start t) else flag s i f) by (intros; by eapply flag_update).
  assert (Hme : flag s (tn_input t) tn_started = false) by (unfold flag; rewrite Hreg; cbn; by rewrite Ht).
  eapply (inv_update out _ s s' pc id t (tn_start t)); try done; auto.
  - cbn. intros He. split; [done|]. by apply (i_flags _ _ I id t Ht).
  - rewrite HO. by apply (ops_unchanged s id t).
  - split_and!.
    + intros i Hi. rewrite count_app, count_started, R1, Hfl by done. rewrite bool_decide_true by done. cbn [andb].
      destruct (String.eqb_spec (tn_input t) i) as [<-|?]; [by rewrite Hme|]. lia.
    + intros i Hi. rewrite count_app, count_started, R2, Hfl by done. rewrite bool_decide_false by done. cbn [andb tn_start tn_ended].
      destruct (String.eqb_spec (tn_input t) i) as [<-|?]; [|lia]. unfold flag. rewrite Hreg. cbn. rewrite Ht. lia.
    + apply order_snoc; [done|]. intros i _ H. unfold is_obs in H. by rewrite bool_decide_false in H.
Qed.

(** The observations of a turn's end are counted. *)
Lemma reported_end out s s' t t' at_ ev rest : reported out s -> tn_input t <> "" -> quiet rest -> tn_ended t = false ->
  tn_started t' = true -> tn_ended t' = true ->
  (forall f, flag s (tn_input t) f = f t) -> (forall i f, flag s' i f = if tn_input t =s? i then f t' else flag s i f) ->
  reported (out ++ (if tn_started t then [] else [started_obs t at_]) ++ [ended_obs t at_ ev] ++ rest) s'.
Proof.
  intros (R1 & R2 & R3) Hne Hq He Hs' He' Hme Hfl.
  assert (Hst : forall i, count KindTurnStarted i (if tn_started t then [] else [started_obs t at_]) =
            if tn_started t then 0%nat else if tn_input t =s? i then 1%nat else 0%nat).
  { intros i. destruct (tn_started t); [done|]. rewrite count_started, bool_decide_true; done. }
  assert (Hst' : forall i, count KindTurnEnded i (if tn_started t then [] else [started_obs t at_]) = 0%nat).
  { intros i. destruct (tn_started t); [done|]. rewrite count_started, bool_decide_false; done. }
  split_and!.
  - intros i Hi. rewrite !count_app, count_ended, R1, Hst, Hfl, (count_quiet _ _ rest) by auto.
    rewrite bool_decide_false, Hs' by done. cbn [andb].
    destruct (String.eqb_spec (tn_input t) i) as [<-|?]; [rewrite Hme; destruct (tn_started t); lia|].
    destruct (tn_started t), (flag s i tn_started); lia.
  - intros i Hi. rewrite !count_app, count_ended, R2, Hst', Hfl, (count_quiet _ _ rest) by auto.
    rewrite bool_decide_true, He' by done. cbn [andb].
    destruct (String.eqb_spec (tn_input t) i) as [<-|?]; [rewrite Hme, He; lia|]. destruct (flag s i tn_ended); lia.
  - rewrite !app_assoc. apply order_quiet; [|done]. apply order_snoc.
    + destruct (tn_started t); [by rewrite app_nil_r|]. apply order_snoc; [done|].
      intros i _ H. unfold is_obs in H. by rewrite bool_decide_false in H.
    + intros i Hi H. unfold is_obs in H. apply andb_true_iff in H as [_ H]. apply String.eqb_eq in H. cbn in H. subst i.
      rewrite count_app, R1, Hme, Hst by done. rewrite String.eqb_refl. by destruct (tn_started t).
Qed.

Lemma inv_end_turn out s s' pc id t at_ ev rest :
  inv out (mkWorld s pc) -> framed s s' -> (forall op, auto_ops s' op -> auto_ops s op) -> (s_next s <= s_next s')%nat ->
  s_T s !! id = Some t -> known s id -> tn_ended t = false ->
  s_T s' = <[id := tn_end (ev_outcome ev) (tn_start t)]> (s_T s) ->
  s_current s' = (if bool_decide (s_current s = Some id) then None else s_current s) -> quiet rest ->
  s_O s' = s_O (settle_op (tn_interrupt t) (ev_outcome ev) s) ->
  inv (out ++ (if tn_started t then [] else [started_obs t at_]) ++ [ended_obs t at_ ev] ++ rest) (mkWorld s' pc).
Proof.
  intros I Hfr Hau Hnx Ht Hk He HT Hc Hq HO. pose proof Hfr as (E1 & _).
  destruct (known_registered _ _ _ _ I Hk Ht) as [Hreg Hne]. cbn in Hreg.
  assert (Hall : forall j k, s_turns s !! j = Some k -> exists x, s_T s !! k = Some x /\ tn_input x = j).
  { intros j k Hj. by destruct (i_turns _ _ I j k Hj) as [_ ?]. }
  eapply (inv_update out _ s s' pc id t (tn_end (ev_outcome ev) (tn_start t))); try done; auto.
  - rewrite HO. by apply (ops_settled out s pc).
  - apply (reported_end out s s' t (tn_end (ev_outcome ev) (tn_start t))); try done; [by apply (inv_reported _ _ I)|..].
    + intros f. unfold flag. rewrite Hreg. cbn. by rewrite Ht.
    + intros i f. by eapply flag_update.
Qed.

Lemma inv_retry_turn out obs s s' pc id t :
  inv out (mkWorld s pc) -> framed s s' -> (forall op, auto_ops s' op -> auto_ops s op) -> (s_next s <= s_next s')%nat ->
  s_T s !! id = Some t -> known s id -> s_T s' = <[id := tn_retry t]> (s_T s) -> s_current s' = s_current s ->
  quiet obs -> s_O s' = s_O s -> inv (out ++ obs) (mkWorld s' pc).
Proof.
  intros I Hfr Hau Hnx Ht Hk HT Hc Hq HO. pose proof Hfr as (E1 & _).
  destruct (known_registered _ _ _ _ I Hk Ht) as [Hreg Hne]. cbn in Hreg.
  assert (Hall : forall j k, s_turns s !! j = Some k -> exists x, s_T s !! k = Some x /\ tn_input x = j).
  { intros j k Hj. by destruct (i_turns _ _ I j k Hj) as [_ ?]. }
  assert (Hfl : forall i f, f (tn_retry t) = f t -> flag s' i f = flag s i f).
  { intros i f Hf. rewrite (flag_update s s' id t (tn_retry t) i f) by done.
    destruct (String.eqb_spec (tn_input t) i) as [<-|?]; [|done]. unfold flag. rewrite Hreg. cbn. by rewrite Ht. }
  eapply (inv_update out _ s s' pc id t (tn_retry t)); try done; auto.
  - cbn. by apply (i_flags _ _ I id t Ht).
  - rewrite HO. by apply (ops_unchanged s id t).
  - pose proof (inv_reported _ _ I) as (R1 & R2 & R3). cbn in R1, R2. split_and!.
    + intros i Hi. rewrite count_app, (count_quiet _ _ obs), R1, Hfl by auto. lia.
    + intros i Hi. rewrite count_app, (count_quiet _ _ obs), R2, Hfl by auto. lia.
    + by apply order_quiet.
Qed.

Lemma inv_delta out obs s s' pc :
  inv out (mkWorld s pc) -> framed s s' -> turn_delta s s' obs -> (forall op, auto_ops s' op -> auto_ops s op) ->
  (s_next s <= s_next s')%nat -> inv (out ++ obs) (mkWorld s' pc).
Proof.
  intros I Hfr [HT Hc Hq HO|id t at_ Ht Hk Hs HT Hc -> HO|id t at_ ev rest Ht Hk He HT Hc -> Hq HO|id t Ht Hk HT Hc Hq HO] Hau Hnx.
  - apply (inv_same out obs s s'); auto.
  - by apply (inv_start_turn out s s' pc id).
  - by apply (inv_end_turn out s s' pc id).
  - by apply (inv_retry_turn out obs s s' pc id t).
Qed.

Lemma inv_pc out s pc pc' : inv out (mkWorld s pc) -> pc <> SNone -> pc' = SReturning -> inv out (mkWorld s pc').
Proof.
  intros [] Hp ->. cbn in *. constructor; cbn; try done. rewrite i_sending0. done.
Qed.

(** A step that touches only fields the invariant says nothing of. *)
Lemma inv_quiet out s s' pc : inv out (mkWorld s pc) -> framed s s' -> s_T s' = s_T s -> s_current s' = s_current s ->
  s_O s' = s_O s -> s_A s' = s_A s -> s_next s' = s_next s -> inv out (mkWorld s' pc).
Proof.
  intros I Hf HT Hc HO HA Hn. rewrite <- (app_nil_r out). eapply (inv_same out [] s s'); try done; [apply quiet_nil| |lia|left; by left].
  intros op (i & a & Ha & Ho). rewrite HA in Ha. left. by exists i, a.
Qed.

Lemma send_begin_inv out s in_ s' pc : inv out (mkWorld s pc) -> send_begin desc in_ s = Ok s' ->
  inv out (mkWorld s' (SAdmitted in_)).
Proof.
  intros I H. unfold send_begin in H. apply bind_Ok in H as ([] & Hv & H). apply bind_Ok in H as ([] & Ha & H).
  destruct (s_turns s !! in_id in_) eqn:Et; [done|]. cbn in H. injection H as <-.
  assert (Hid : in_id in_ <> "").
  { unfold InputValidate in Hv. rewrite when_Ok in Hv. destruct Hv as [Hv _]. apply negb_false_iff in Hv. intros E. by rewrite E in Hv. }
  destruct I. cbn in *. constructor; cbn; try done. intros x [= <-]. done.
Qed.

Lemma send_register_inv out s in_ native s' id :
  inv out (mkWorld s (SAdmitted in_)) -> s_byNative s !! native = None ->
  send_register digest16 (in_id in_) native s = (s', id) -> inv out (mkWorld s' (SSubmitting id)).
Proof.
  intros I Hn H. unfold send_register in H. injection H as <- <-.
  destruct (i_admitted _ _ I in_ eq_refl) as [Hi Hfree]. cbn in Hfree.
  assert (Hfr : s_T s !! s_next s = None).
  { destruct (s_T s !! s_next s) as [t|] eqn:E; [|done]. apply (i_fresh _ _ I) in E. cbn in E. lia. }
  set (t := mkTurn (in_id in_) native (TurnID digest16 (in_id in_)) false false None None 0).
  assert (Hother : forall k x, s_T s !! k = Some x -> <[s_next s := t]> (s_T s) !! k = Some x).
  { intros k x Hx. rewrite lookup_insert_ne; [done|]. congruence. }
  assert (Hreg : forall i k, s_turns s !! i = Some k -> <[in_id in_ := s_next s]> (s_turns s) !! i = Some k).
  { intros i k Hk. rewrite lookup_insert_ne; [done|]. congruence. }
  assert (Hflag : forall i f, f t = false -> flag (set_current (Some (s_next s)) (set_byNative (<[native := s_next s]> (s_byNative s))
       (set_turns (<[in_id in_ := s_next s]> (s_turns s)) (set_next (S (s_next s)) (upd_turn (s_next s) t s))))) i f = flag s i f).
  { intros i f Hf. unfold flag. cbn. destruct (decide (in_id in_ = i)) as [<-|?].
    - rewrite lookup_insert_eq, Hfree. cbn. by rewrite lookup_insert_eq.
    - rewrite lookup_insert_ne by done. destruct (s_turns s !! i) as [k|] eqn:Ek; [|done]. cbn.
      destruct (i_turns _ _ I i k Ek) as (_ & x & Hx & _). cbn in Hx. by rewrite (Hother k x Hx), Hx. }
  destruct (inv_reported _ _ I) as (R1 & R2 & R3). cbn in R1, R2.
  destruct I. cbn in *. constructor; cbn; try done.
  - rewrite i_sending0. done.
  - intros k [= <-]. exists t. by rewrite !lookup_insert_eq.
  - intros n k Hk. apply lookup_insert_Some in Hk as [[<- <-]|[_ Hk]].
    + exists t. by rewrite !lookup_insert_eq.
    + destruct (i_native0 n k Hk) as (x & Hx & Hxn & Hr). exists x. auto.
  - intros i k Hk. apply lookup_insert_Some in Hk as [[<- <-]|[_ Hk]].
    + split; [done|]. exists t. by rewrite lookup_insert_eq.
    + destruct (i_turns0 i k Hk) as (? & x & Hx & Hxi). split; [done|]. exists x. auto.
  - intros k [= <-]. exists t. by rewrite !lookup_insert_eq.
  - intros k x Hx. apply lookup_insert_Some in Hx as [[<- _]|[_ Hx]]; [lia|]. apply i_fresh0 in Hx. lia.
  - intros k x Hx. apply lookup_insert_Some in Hx as [[_ <-]|[_ Hx]]; [done|]. by eapply i_flags0.
  - intros k x op Hx Ho. cbn in *. apply lookup_insert_Some in Hx as [[_ <-]|[_ Hx]]; [done|].
    destruct (i_ops0 k x op Hx Ho) as (? & ? & Hu & Hex). split_and!; [lia|done| |done].
    intros k' x' Hx' Ho'. apply lookup_insert_Some in Hx' as [[_ <-]|[_ Hx']]; [done|]. by eapply Hu.
  - intros op Ha. apply i_auto_ops0 in Ha. lia.
  - intros i Hne. rewrite R1 by done. by rewrite Hflag.
  - intros i Hne. rewrite R2 by done. by rewrite Hflag.
Qed.

Lemma send_back_inv out s id t freed :
  inv out (mkWorld s (SSubmitting id)) -> s_T s !! id = Some t -> tn_started t = false ->
  inv out (mkWorld (send_back id t freed s) SReturning).
Proof.
  intros I Ht Hs. destruct (i_submitting _ _ I id eq_refl) as (t0 & Ht0 & Hreg & Hnat). cbn in *. simplify_eq.
  assert (He : tn_ended t = false).
  { destruct (tn_ended t) eqn:E; [|done]. destruct (i_flags _ _ I id t Ht E). congruence. }
  unfold send_back. set (s1 := set_byNative _ _).
  assert (H1 : s_current s1 = (if bool_decide (s_current s = Some id) then None else s_current s) /\ s_turns s1 = s_turns s /\
    s_byNative s1 = delete (tn_native t) (s_byNative s) /\ s_T s1 = s_T s /\ s_A s1 = s_A s /\ s_O s1 = s_O s /\ s_next s1 = s_next s /\ s_sending s1 = s_sending s).
  { unfold s1. case_bool_decide; done. }
  clearbody s1. set (s2 := if freed then _ else _).
  assert (H2 : s_current s2 = s_current s1 /\ s_turns s2 = (if freed then delete (tn_input t) (s_turns s) else s_turns s) /\
    s_byNative s2 = s_byNative s1 /\ s_T s2 = s_T s /\ s_A s2 = s_A s /\ s_O s2 = s_O s /\ s_next s2 = s_next s /\ s_sending s2 = s_sending s).
  { destruct H1 as (? & ? & ? & ? & ? & ? & ? & ?). unfold s2. destruct freed; cbn; split_and!; congruence. }
  clearbody s2. destruct (restLocked_frame s2) as ((R1 & R2 & R3 & _ & _) & R4 & R5 & _ & R6 & R7 & R8 & _).
  destruct H1 as (C1 & C2 & C3 & C4 & C5 & C6 & C7 & C8). destruct H2 as (D1 & D2 & D3 & D4 & D5 & D6 & D7 & D8).
  set (s3 := restLocked s2) in *. clearbody s3.
  assert (Hturns : forall i k, s_turns s !! i = Some k -> k <> id -> s_turns s3 !! i = Some k).
  { intros i k Hk Hne. rewrite R1, D2. destruct freed; [|done]. rewrite lookup_delete_ne; [done|]. congruence. }
  assert (Hturns' : forall i k, s_turns s3 !! i = Some k -> s_turns s !! i = Some k).
  { intros i k. rewrite R1, D2. destruct freed; [|done]. rewrite lookup_delete_Some. by intros [_ ?]. }
  assert (HT : s_T s3 = s_T s) by congruence. assert (HA : s_A s3 = s_A s) by congruence.
  assert (HO : s_O s3 = s_O s) by congruence. assert (Hn : s_next s3 = s_next s) by congruence.
  assert (Hflag : forall i f, f t = false -> flag s3 i f = flag s i f).
  { intros i f Hf. unfold flag. rewrite R1, D2, HT. destruct freed; [|done].
    destruct (decide (tn_input t = i)) as [<-|?]; [|by rewrite lookup_delete_ne].
    rewrite lookup_delete_eq, Hreg. cbn. by rewrite Ht. }
  assert (Hauto : forall op, auto_ops s3 op <-> auto_ops s op) by (intros; unfold auto_ops; by rewrite HA).
  destruct (inv_reported _ _ I) as (K1 & K2 & K3). cbn in K1, K2.
  destruct I. cbn in *. constructor; cbn; try done; rewrite ?HT, ?HO, ?Hn; try done.
  - rewrite R3, D8, i_sending0. done.
  - intros k Hk. rewrite R5, D1, C1 in Hk. case_bool_decide as Hc; [done|].
    destruct (i_current0 k Hk) as (x & Hx & Hxe & Hr). exists x. split_and!; try done. apply Hturns; [done|congruence].
  - intros n k Hk. rewrite R2, D3, C3 in Hk. apply lookup_delete_Some in Hk as [Hne Hk].
    destruct (i_native0 n k Hk) as (x & Hx & Hxn & Hr). exists x. split_and!; try done. apply Hturns; [done|]. intros ->. congruence.
  - intros i k Hk. by apply i_turns0, Hturns'.
  - intros k x op Hx Hop. rewrite Hauto, HT, HO, Hn in *. by apply i_ops0.
  - intros op Ha. by apply i_auto_ops0, Hauto.
  - intros i Hi. rewrite K1 by done. by rewrite Hflag.
  - intros i Hi. rewrite K2 by done. by rewrite Hflag.
Qed.

(** A new interrupt operation on a turn that has not ended. *)
Lemma interrupt_input_inv out s pc input s' r :
  inv out (mkWorld s pc) -> interrupt_input input s = (s', r) -> inv out (mkWorld s' pc).
Proof.
  intros I H. unfold interrupt_input in H.
  destruct (s_turns s !! input ≫= _) as [[id t]|] eqn:E; [|by injection H as <- _].
  apply bind_Some in E as (x & Hreg & Hx). apply fmap_Some in Hx as (y & Ht & [= -> ->]).
  destruct (tn_interrupt y) eqn:Ei; [by injection H as <- _|].
  destruct (tn_ended y || _) eqn:Ee; [by injection H as <- _|]. apply orb_false_iff in Ee as [Ee _].
  destruct (bool_decide (s_phase s = PhaseExited)); [by injection H as <- _|].
  cbn in H. injection H as <- _. pose proof (i_ops _ _ I) as Hops. pose proof (i_auto_ops _ _ I) as Hau. cbn in Hops, Hau.
  apply (inv_rewrite out out s _ pc x y (tn_set_interrupt (Some (s_next s)) y)); try done; auto; cbn; try lia.
  - congruence.
  - intros k z op Hz Ho. cbn in *. apply lookup_insert_Some in Hz as [[<- <-]|[Hne Hz]].
    + cbn in Ho. injection Ho as <-. split_and!; [lia|intros Ha; apply Hau in Ha; lia| |].
      * intros k' z' Hz' Ho'. apply lookup_insert_Some in Hz' as [[<- _]|[_ Hz']]; [done|].
        destruct (Hops k' z' _ Hz' Ho') as (Hlt & _). lia.
      * exists None. rewrite lookup_insert_eq. split; [done|]. unfold op_agrees. cbn. by rewrite Ee.
    + destruct (Hops k z op Hz Ho) as (Hlt & Hna & Hu & o & HoO & Hag). split_and!; [lia|done| |].
      * intros k' z' Hz' Ho'. apply lookup_insert_Some in Hz' as [[<- <-]|[_ Hz']]; [cbn in Ho'; injection Ho' as <-; lia|by eapply Hu].
      * exists o. rewrite lookup_insert_ne; [done|]. lia.
  - intros op Ha. apply Hau in Ha. lia.
  - by eapply (reported_interrupt out s); [apply (inv_reported _ _ I)|..].
Qed.

Lemma interruptAuto_inv out s pc find ss s' r :
  inv out (mkWorld s pc) -> interruptAuto find ss s = (s', r) -> inv out (mkWorld s' pc).
Proof.
  intros I H. unfold interruptAuto in H.
  destruct (find _ ≫= _) as [[id a]|] eqn:E; [|by injection H as <- _].
  apply bind_Some in E as (x & _ & Hx). apply fmap_Some in Hx as (y & Hy & [= -> ->]).
  destruct (au_interrupt y) eqn:Ei; [by injection H as <- _|].
  destruct (au_ended y || _); [by injection H as <- _|].
  destruct (bool_decide (s_phase s = PhaseExited)); [by injection H as <- _|].
  destruct (negb ss); [by injection H as <- _|]. cbn in H. injection H as <- _.
  rewrite <- (app_nil_r out). eapply (inv_same out [] s); try done; [apply quiet_nil| |cbn; lia|right; by eexists].
  intros op (i & b & Hb & Ho). cbn in Hb |- *. apply lookup_insert_Some in Hb as [[_ <-]|[_ Hb]].
  - cbn in Ho. injection Ho as <-. right. lia.
  - left. by exists i, b.
Qed.

Lemma interrupt_failed_inv out s pc id op : inv out (mkWorld s pc) -> inv out (mkWorld (interrupt_failed id op s).1 pc).
Proof.
  intros I. unfold interrupt_failed. cbn [fst]. destruct (s_T s !! id) as [t|] eqn:Ht; [|done].
  destruct (drop_op (tn_interrupt t) op s); [|done]. pose proof (i_ops _ _ I) as Hops. cbn in Hops.
  apply (inv_rewrite out out s _ pc id t (tn_set_interrupt None t)); try done; auto.
  - by apply (i_flags _ _ I id t).
  - intros k z o Hz Ho. cbn in *. apply lookup_insert_Some in Hz as [[<- <-]|[Hne Hz]]; [done|].
    destruct (Hops k z o Hz Ho) as (Hlt & Hna & Hu & Hex). split_and!; [lia|done| |done].
    intros k' z' Hz' Ho'. apply lookup_insert_Some in Hz' as [[<- <-]|[_ Hz']]; [done|by eapply Hu].
  - intros o Ha. by apply (i_auto_ops _ _ I) in Ha.
  - by eapply (reported_interrupt out s); [apply (inv_reported _ _ I)|..].
Qed.

Lemma mark_busy_frame id s : let s' := mark_busy id s in
  framed s s' /\ s_T s' = s_T s /\ s_current s' = s_current s /\ s_O s' = s_O s /\ s_A s' = s_A s /\ s_next s' = s_next s.
Proof. unfold mark_busy, framed. destruct (s_T s !! id) as [t|]; [|done]. by destruct (_ && _). Qed.

Lemma gate_opens_frame now s s' obs : gate_opens instance now s = (s', obs) ->
  framed s s' /\ s_T s' = s_T s /\ s_current s' = s_current s /\ s_O s' = s_O s /\ s_A s' = s_A s /\ s_next s' = s_next s /\
  quiet obs.
Proof.
  unfold gate_opens, framed. destruct (_ || _); intros [= <- <-]; cbn; split_and!; try done; [apply quiet_nil|].
  apply quiet_one. by left.
Qed.

Lemma inv_opened out s pc b : inv out (mkWorld s pc) -> inv out (mkWorld (set_opened b s) pc).
Proof. intros []. by constructor. Qed.

Lemma inv_closing out s pc b : inv out (mkWorld s pc) -> inv out (mkWorld (set_closing b s) pc).
Proof. intros []. by constructor. Qed.

Lemma session_inv_step out w obs w' : inv out w -> step w obs w' -> inv (out ++ obs) w'.
Proof.
  intros I Hs. destruct Hs as [now ev s pc s' obs H|id s pc Hid|id now s pc s' obs Hid H|in_ s s' pc H|in_ s
    |in_ native s s' id Hne Hn H|id t err freed ex s s' r Ht H Hp|s|req ss s pc s' r Hsend H|id op s pc|id op s pc|id c err s pc
    |s s' pc H|err gone s pc Ho|sid s pc Ho|s pc Ho|s pc|un res s pc Hc].
  - apply report_spec in H as (Hf & Hd & Ha & Hn). by eapply inv_delta.
  - rewrite app_nil_r. by apply (inv_quiet out s).
  - apply gate_opens_frame in H as (Hf & HT & Hc & HO & HA & Hn & Hq).
    apply (inv_same out obs s s'); try done; [|rewrite Hn; done|left; by left].
    intros op (i & a & Hx & Hy). rewrite HA in Hx. left. by exists i, a.
  - rewrite app_nil_r. by eapply send_begin_inv.
  - rewrite app_nil_r. by eapply inv_pc.
  - rewrite app_nil_r. by eapply send_register_inv.
  - rewrite app_nil_r. unfold send_settle in H.
    assert (Hbusy : inv out (mkWorld (mark_busy id s) SReturning)).
    { destruct (mark_busy_frame id s) as (Hf & HT & Hc & HO & HA & Hn). apply (inv_pc out _ (SSubmitting id)); [|done|done].
      by apply (inv_quiet out s). }
    destruct err as [err|]; [|by injection H as <- _]. destruct (not_reached err) eqn:Er; [|by injection H as <- _].
    injection H as <- _. destruct (Hp err eq_refl Er) as [Hst _]. by eapply send_back_inv.
  - rewrite app_nil_r. destruct I. cbn in *. constructor; cbn; try done.
  - rewrite app_nil_r. unfold Interrupt in H. destruct (s_phase s); try (by injection H as <- _);
      (destruct (negb (iq_turn req =s? "")); [by eapply interruptAuto_inv|by eapply interrupt_input_inv]).
  - rewrite app_nil_r. by apply interrupt_failed_inv.
  - rewrite app_nil_r. unfold interruptAuto_failed. cbn [fst]. destruct (s_A s !! id) as [a|] eqn:Ea; [|done].
    destruct (drop_op _ _ _); [|done]. rewrite <- (app_nil_r out). eapply (inv_same out [] s); try done; [apply quiet_nil|..].
    + intros o (i & b & Hb & Ho'). cbn in Hb. left. apply lookup_insert_Some in Hb as [[_ <-]|[_ Hb]]; [done|by exists i, b].
    + left. by left.
  - rewrite app_nil_r. unfold answer_end. destruct err; [done|]. by apply (inv_quiet out s).
  - rewrite app_nil_r. unfold open_begin in H. rewrite !when_Ok in H. destruct H as (_ & _ & [= <-]). by apply (inv_quiet out s).
  - rewrite app_nil_r. cbn [fst open_fail]. apply inv_opened. by apply (inv_quiet out s).
  - rewrite app_nil_r. by apply (inv_quiet out s).
  - rewrite app_nil_r. unfold open_end. apply inv_opened with (b := true) in I.
    destruct (s_closing (set_opened true s)); [done|]. cbn [fst].
    case_bool_decide; [|done]. by apply (inv_quiet out (set_opened true s)).
  - rewrite app_nil_r. unfold close_begin. destruct (s_closing s); [done|]. cbn [fst].
    apply (inv_quiet out (set_closing true s)); try done. by apply inv_closing.
  - rewrite app_nil_r. unfold close_finish.
    destruct (stop_timer_frame (set_phase PhaseExited (if un then set_opened true s else s))) as (Hf & HT & Hcu & _ & _ & HA & HO & Hn & _).
    apply (inv_quiet out (if un then set_opened true s else s)); try done. destruct un; [by apply inv_opened|done].
Qed.

Lemma session_inv_start : inv [] init.
Proof.
  constructor; cbn; try done.
  - intros op (i & a & Ha & _). done.
  - intros pre e post i H. by destruct pre.
Qed.

Lemma session_inv_reachable tr w : steps init tr w -> inv tr w.
Proof.
  intros H. remember init as w0. induction H as [|? tr w obs w' _ IH Hs]; subst; [apply session_inv_start|].
  eapply session_inv_step; [by apply IH|done].
Qed.

(** ** Turns and interrupts *)

(** C1: over every run of a Session, an input's turn is reported started at
    most once, ended at most once, and ended only after started. *)
Theorem turn_reported_once tr w i (H : steps init tr w) (Hi : i <> "") :
  (count KindTurnStarted i tr <= 1)%nat /\ (count KindTurnEnded i tr <= 1)%nat /\
  (count KindTurnEnded i tr <= count KindTurnStarted i tr)%nat /\ ended_after_started tr.
Proof.
  apply session_inv_reachable in H as I. destruct (inv_reported _ _ I) as (R1 & R2 & R3).
  rewrite R1, R2 by done. split_and!; [by destruct (flag _ i tn_started); lia|by destruct (flag _ i tn_ended); lia| |done].
  unfold flag. destruct (s_turns (w_s w) !! i) as [id|]; [|done]. cbn. destruct (s_T (w_s w) !! id) as [t|] eqn:Ht; [|done].
  destruct (tn_ended t) eqn:He; [|lia]. destruct (i_flags _ _ I id t Ht He) as [-> _]. lia.
Qed.


Lemma restLocked_exited s : s_phase s = PhaseExited -> s_phase (restLocked s) = PhaseExited.
Proof. intros H. unfold restLocked. rewrite H. done. Qed.

Lemma report_exited now ev s s' obs : report desc instance digest16 now ev s = (s', obs) ->
  s_phase s = PhaseExited -> s_phase s' = PhaseExited.
Proof.
  intros H Hp. unfold report in H. destruct (negb (ev_auto ev =s? "")).
  { apply autoLocked_spec in H as (_ & _ & _ & _ & _ & _ & Hx & _). by apply Hx. }
  cbv zeta in H. destruct (ev_kind ev).
  - destruct (event_turn ev s) as [[id t]|]; [|by injection H as <- _]. destruct (tn_started t); injection H as <- _; [done|].
    cbn. rewrite Hp, (bool_decide_false (PhaseExited = PhaseIdle)) by done. by rewrite andb_false_r.
  - destruct (event_turn ev s) as [[id t]|]; [|by injection H as <- _]. destruct (tn_ended t); [by injection H as <- _|].
    apply endLocked_spec in H as (_ & _ & _ & _ & _ & _ & _ & _ & _ & _ & _ & Hx & _). by apply Hx.
  - destruct (event_turn ev s) as [[id t]|]; [|by injection H as <- _]. by destruct (has desc CapRetryVisible); injection H as <- _.
  - unfold liveKeyLocked in H. destruct (ev_resume ev), (has desc CapRateLimits); by injection H as <- _.
  - destruct (ev_prompt ev); [|by injection H as <- _]. destruct (event_turn ev s) as [[id t]|]; [|by injection H as <- _].
    destruct (tn_ended t); injection H as <- _; [done|]. cbn. by rewrite Hp.
  - destruct (s_prompt s); [|by injection H as <- _]. destruct (negb _); injection H as <- _; [done|]. cbn. by rewrite Hp.
  - destruct (s_exited s); [by injection H as <- _|]. unfold liveKeyLocked in H. injection H as <- _.
    unfold stop_timer. cbn. by destruct (s_gateTimer s).
  - unfold liveKeyLocked in H. destruct (negb (has desc CapBackgroundTurns) || _); injection H as <- _; done.
Qed.

(** exited is terminal: once the harness exited or the Session is closed,
    no event, timer or call changes the phase again. *)
Theorem exited_is_terminal w obs w' (H : step w obs w') (Hp : s_phase (w_s w) = PhaseExited) :
  s_phase (w_s w') = PhaseExited.
Proof.
  destruct H as [now ev s pc s' obs H|id s pc Hid|id now s pc s' obs Hid H|in_ s s' pc H|in_ s
    |in_ native s s' id Hne Hn H|id t err freed ex s s' r Ht H Hpr|s|req ss s pc s' r Hsend H|id op s pc|id op s pc|id c err s pc
    |s s' pc H|err gone s pc Ho|sid s pc Ho|s pc Ho|s pc|un res s pc Hc]; cbn in *; try done.
  - by eapply report_exited.
  - unfold gate_opens in H. cbn in H. rewrite Hp in H. by injection H as <- _.
  - unfold send_begin in H. apply bind_Ok in H as ([] & _ & H). apply bind_Ok in H as ([] & _ & H).
    destruct (is_none _); [|done]. by injection H as <-.
  - unfold send_register in H. by injection H as <- _.
  - assert (Hb : s_phase (mark_busy id s) = PhaseExited).
    { unfold mark_busy. rewrite Ht, Hp. rewrite bool_decide_false by done. by rewrite andb_false_r. }
    unfold send_settle in H. destruct err as [err|]; [|by injection H as <- _]. destruct (not_reached err); injection H as <- _; [|done].
    unfold send_back. apply restLocked_exited. destruct freed, (bool_decide (s_current s = Some id)); done.
  - unfold Interrupt, interruptAuto, interrupt_input in H. rewrite Hp in H.
    rewrite (bool_decide_true (PhaseExited = PhaseExited)) in H by done. repeat case_match; simplify_eq; done.
  - destruct (s_T s !! id) as [t|]; [|done]. by destruct (drop_op _ _ _).
  - destruct (s_A s !! id) as [t|]; [|done]. by destruct (drop_op _ _ _).
  - unfold answer_end. by destruct err.
  - unfold open_begin in H. rewrite !when_Ok, Hp in H. by destruct H as (_ & ? & _).
  - unfold open_end. destruct (s_closing (set_opened true s)); [done|]. cbn. rewrite Hp. by rewrite bool_decide_false.
  - unfold close_begin. by destruct (s_closing s).
  - unfold close_finish. cbn. match goal with |- context [stop_timer ?x] => destruct (stop_timer_frame x) as (_ & _ & _ & Hx & _) end. by rewrite Hx.
Qed.

(** ** One turn at a time, for a harness that starts none itself *)

Hypothesis no_autonomous : has desc CapAutonomousTurns = false.
Hypothesis no_background : has desc CapBackgroundTurns = false.

Record solo (w : world) : Prop := {
  j_auto : s_auto (w_s w) = None;
  j_native : forall n id t, s_byNative (w_s w) !! n = Some id -> s_T (w_s w) !! id = Some t ->
    tn_ended t = false -> s_current (w_s w) = Some id;
  j_pre : s_phase (w_s w) = PhaseUnopened \/ s_phase (w_s w) = PhaseStarting ->
    s_current (w_s w) = None /\ w_send w = SNone;
  j_admitted : forall in_, w_send w = SAdmitted in_ ->
    s_current (w_s w) = None /\ (s_phase (w_s w) = PhaseIdle \/ s_phase (w_s w) = PhaseExited);
  j_idle : forall id, s_phase (w_s w) = PhaseIdle -> s_current (w_s w) = Some id -> w_send w = SSubmitting id;
  j_blocked : s_phase (w_s w) = PhaseBlocked -> s_current (w_s w) = None;
  j_busy : s_phase (w_s w) = PhaseBusy \/ s_phase (w_s w) = PhaseAwaitingAnswer -> s_current (w_s w) <> None;
}.

(** A turn an event can still end is the current one. *)
Lemma known_current out s pc id t : inv out (mkWorld s pc) -> solo (mkWorld s pc) -> known s id ->
  s_T s !! id = Some t -> tn_ended t = false -> s_current s = Some id.
Proof. intros I J [[n Hn]|Hc] Ht He; [by eapply (j_native _ J)|done]. Qed.

(** Steps that keep the maps and the current turn, and end none. *)
Lemma solo_same s s' pc :
  solo (mkWorld s pc) -> s_auto s' = s_auto s -> s_byNative s' = s_byNative s -> s_current s' = s_current s ->
  (forall id t', s_T s' !! id = Some t' -> tn_ended t' = false -> exists t, s_T s !! id = Some t /\ tn_ended t = false) ->
  (s_phase s' = s_phase s \/ s_phase s' = PhaseExited \/
   (s_phase s <> PhaseUnopened /\ s_phase s <> PhaseStarting /\ (forall x, pc <> SAdmitted x) /\ s_current s <> None /\
    (s_phase s' = PhaseBusy \/ s_phase s' = PhaseAwaitingAnswer)) \/
   (s_current s = None /\ pc = SNone /\ (s_phase s' = PhaseIdle \/ s_phase s' = PhaseStarting)) \/
   (s_current s = None /\ s_phase s = PhaseBlocked /\ s_phase s' = PhaseIdle)) ->
  solo (mkWorld s' pc).
Proof.
  intros [] Ha Hn Hc HT Hp. cbn in *. constructor; cbn; rewrite ?Ha, ?Hn, ?Hc; try done.
  - intros n id t' Hid Ht He. destruct (HT id t' Ht He) as (t & Ht0 & He0). by eapply j_native0.
  - intros Hs. destruct Hp as [Hp|[Hp|[(? & ? & ? & ? & [Hp|Hp])|[(? & ? & [Hp|Hp])|(? & ? & Hp)]]]]; rewrite Hp in Hs;
      try (by destruct Hs); auto.
  - intros in_ Hin. destruct (j_admitted0 in_ Hin) as [? Hph]. split; [done|].
    destruct Hp as [Hp|[Hp|[(? & ? & Hx & _)|[(? & Hx & _)|(? & Hx & Hp)]]]]; rewrite ?Hp; auto; [by apply Hx in Hin|congruence].
  - intros id Hi Hcur. destruct Hp as [Hp|[Hp|[(? & ? & ? & ? & [Hp|Hp])|[(? & ? & _)|(? & ? & Hp)]]]]; try congruence.
    apply j_idle0; congruence.
  - intros Hb. destruct Hp as [Hp|[Hp|[(? & ? & ? & ? & [Hp|Hp])|[(? & ? & _)|(? & ? & Hp)]]]]; try congruence.
    apply j_blocked0. congruence.
  - intros Hb. destruct Hp as [Hp|[Hp|[(? & ? & ? & ? & _)|[(? & ? & [Hp|Hp])|(? & ? & Hp)]]]]; try done; rewrite Hp in Hb;
      try (by destruct Hb). by apply j_busy0.
Qed.

(** The state an Ended leaves. *)
Lemma solo_ended out s pc now at_ id t ev s' obs :
  inv out (mkWorld s pc) -> solo (mkWorld s pc) -> s_T s !! id = Some t -> s_current s = Some id ->
  endLocked instance now at_ id t ev s = (s', obs) -> solo (mkWorld s' pc).
Proof.
  intros I J Ht Hc H. destruct J. cbn in *.
  apply endLocked_spec in H as ((E1 & E2 & E3 & _) & HT & Hcur & Hau & _ & _ & _ & _ & _ & _ & Hph & Hex & Hbz & _).
  rewrite bool_decide_true in Hcur by done.
  assert (Hnb : s_phase s' <> PhaseBusy /\ s_phase s' <> PhaseAwaitingAnswer).
  { rewrite Hau, Hcur in Hbz. split; intros Hx; (destruct Hbz; [by auto|done|done]). }
  assert (Hpre : s_phase s <> PhaseUnopened /\ s_phase s <> PhaseStarting).
  { split; intros Hx; (destruct j_pre0 as [? _]; [by auto|congruence]). }
  assert (Hna : forall x, pc <> SAdmitted x) by (intros x Hx; apply j_admitted0 in Hx as [? _]; congruence).
  constructor; cbn; rewrite ?Hau, ?E2, ?Hcur; try done.
  - intros n id' t' Hid' Ht' He'. exfalso. rewrite HT in Ht'. apply lookup_insert_Some in Ht' as [[_ <-]|[Hne Ht']]; [done|].
    specialize (j_native0 n id' t' Hid' Ht' He'). congruence.
  - intros Hx. destruct Hph as [Hp|[Hp|[[_ Hp]|[_ Hp]]]]; rewrite Hp in Hx; destruct Hx as [Hx|Hx], Hpre; try done; congruence.
  - intros x Hx. by apply Hna in Hx.
  - destruct Hnb. intros [Hx|Hx]; congruence.
Qed.

Lemma report_solo out now ev s pc s' obs :
  inv out (mkWorld s pc) -> solo (mkWorld s pc) -> report desc instance digest16 now ev s = (s', obs) ->
  solo (mkWorld s' pc).
Proof.
  intros I J H. unfold report in H. destruct (negb (ev_auto ev =s? "")).
  { apply autoLocked_spec in H as (_ & _ & _ & _ & _ & _ & _ & _ & _ & Hs). by rewrite Hs. }
  assert (Hsame : forall id t', s_T s !! id = Some t' -> tn_ended t' = false -> exists t, s_T s !! id = Some t /\ tn_ended t = false) by eauto.
  assert (Hcur : forall id t, event_turn ev s = Some (id, t) -> tn_ended t = false -> s_current s = Some id /\
            s_phase s <> PhaseUnopened /\ s_phase s <> PhaseStarting /\ (forall x, pc <> SAdmitted x)).
  { intros id t Et He. apply event_turn_known in Et as [Ht Hk]. pose proof (known_current _ _ _ _ _ I J Hk Ht He) as Hc. destruct J. cbn in *.
    split_and!; [done| | |]; [intros Hx; destruct j_pre0; auto; congruence..|].
    intros x Hx. apply j_admitted0 in Hx as [? _]. congruence. }
  cbv zeta in H. destruct (ev_kind ev).
  - destruct (event_turn ev s) as [[id t]|] eqn:Et; [|by injection H as <- _].
    destruct (tn_started t); [by injection H as <- _|]. injection H as <- _.
    assert (HT : forall k t', s_T (upd_turn id (tn_start t) s) !! k = Some t' -> tn_ended t' = false -> exists t, s_T s !! k = Some t /\ tn_ended t = false).
    { intros k t' Hk He. cbn in Hk. apply lookup_insert_Some in Hk as [[<- <-]|[_ Hk]]; [|by exists t'].
      exists t. by apply event_turn_known in Et as [? _]. }
    destruct (_ && _ && _) eqn:Eb; [|by apply (solo_same s); auto].
    apply andb_true_iff in Eb as [Eb Eb3]. apply andb_true_iff in Eb as [Eb1 Eb2].
    apply bool_decide_eq_true in Eb1, Eb3. apply negb_true_iff in Eb2. cbn in Eb1, Eb3.
    destruct (Hcur id t eq_refl Eb2) as (Hc & H1 & H2 & H3).
    apply (solo_same s); auto. cbn. right. right. left. split_and!; try done; [congruence|by left].
  - destruct (event_turn ev s) as [[id t]|] eqn:Et; [|by injection H as <- _].
    destruct (tn_ended t) eqn:He; [by injection H as <- _|]. destruct (Hcur id t eq_refl He) as (Hc & _).
    apply event_turn_known in Et as [Ht _]. by eapply solo_ended.
  - destruct (event_turn ev s) as [[id t]|] eqn:Et; [|by injection H as <- _].
    apply event_turn_known in Et as [Ht _]. destruct (has desc CapRetryVisible); injection H as <- _; apply (solo_same s); auto.
    intros k t' Hk He. cbn in Hk. apply lookup_insert_Some in Hk as [[<- <-]|[_ Hk]]; [by exists t|by exists t'].
  - unfold liveKeyLocked in H. destruct (ev_resume ev), (has desc CapRateLimits); injection H as <- _; by apply (solo_same s); auto.
  - destruct (ev_prompt ev); [|by injection H as <- _]. destruct (event_turn ev s) as [[id t]|] eqn:Et; [|by injection H as <- _].
    destruct (tn_ended t) eqn:He; injection H as <- _; [done|]. destruct (Hcur id t eq_refl He) as (Hc & H1 & H2 & H3).
    apply (solo_same s); auto; cbn; (destruct (_ || _); cbn; [|by auto]); try done.
    right. right. left. split_and!; try done; [congruence|by right].
  - destruct (s_prompt s); [|by injection H as <- _]. destruct (negb _); injection H as <- _; [done|].
    apply (solo_same s); auto; cbn; (case_bool_decide as Hp; cbn; [|by auto]); try done.
    right. right. left. destruct J. cbn in *. rewrite Hp. split_and!; try done; [|by auto|by left].
    intros x Hx. apply j_admitted0 in Hx as [_ [?|?]]; congruence.
  - destruct (s_exited s); [by injection H as <- _|]. unfold liveKeyLocked in H. injection H as <- _.
    apply (solo_same s); unfold stop_timer; cbn; destruct (s_gateTimer s); auto.
  - unfold liveKeyLocked in H. destruct (negb (has desc CapBackgroundTurns) || _); injection H as <- _; [done|]. by apply (solo_same s); auto.
Qed.

Lemma solo_register out s in_ native s' id :
  inv out (mkWorld s (SAdmitted in_)) -> solo (mkWorld s (SAdmitted in_)) ->
  send_register digest16 (in_id in_) native s = (s', id) -> solo (mkWorld s' (SSubmitting id)).
Proof.
  intros I J H. unfold send_register in H. injection H as <- <-.
  assert (Hfr : forall t, s_T s !! s_next s <> Some t).
  { intros t Ht. apply (i_fresh _ _ I) in Ht. cbn in Ht. lia. }
  destruct J. cbn in *. destruct (j_admitted0 in_ eq_refl) as [Hc Hp].
  constructor; cbn; try done.
  - intros n k t Hk Ht He. apply lookup_insert_Some in Hk as [[_ <-]|[_ Hk]]; [done|].
    apply lookup_insert_Some in Ht as [[-> _]|[_ Ht]]; [done|]. specialize (j_native0 n k t Hk Ht He). congruence.
  - intros Hx. destruct Hp as [Hp|Hp], Hx; congruence.
  - intros k _ [= <-]. done.
  - intros Hx. destruct Hp; congruence.
Qed.

Lemma solo_settle out s id t err freed ex s' r :
  inv out (mkWorld s (SSubmitting id)) -> solo (mkWorld s (SSubmitting id)) -> s_T s !! id = Some t ->
  send_settle id t err freed ex s = (s', r) ->
  (forall e, err = Some e -> not_reached e = true -> tn_started t = false /\ s_phase s <> PhaseAwaitingAnswer) ->
  solo (mkWorld s' SReturning).
Proof.
  intros I J Ht H Hpr. destruct (i_submitting _ _ I id eq_refl) as (t0 & Ht0 & Hreg & Hnat). cbn in Ht0, Hnat, Hreg. simplify_eq.
  assert (Hcur : tn_ended t = false -> s_current s = Some id) by (by apply (j_native _ J (tn_native t))).
  assert (Hbusy : solo (mkWorld (mark_busy id s) SReturning)).
  { unfold mark_busy. rewrite Ht. pose proof (i_current _ _ I) as Hic. destruct J. cbn in *.
    destruct (negb (tn_ended t) && bool_decide (s_phase s = PhaseIdle)) eqn:E.
    - apply andb_true_iff in E as [E1 E2]. apply negb_true_iff in E1. apply bool_decide_eq_true in E2.
      specialize (Hcur E1). constructor; cbn; try done; [by intros [?|?]|congruence].
    - constructor; cbn; try done.
      + intros Hx. destruct (j_pre0 Hx). done.
      + intros k Hk Hc. exfalso. specialize (j_idle0 k Hk Hc). injection j_idle0 as <-.
        destruct (Hic id Hc) as (x & Hx & Hxe & _). simplify_eq.
        rewrite Hxe, bool_decide_true in E; done. }
  unfold send_settle in H. destruct err as [err|]; [|by injection H as <- _].
  destruct (not_reached err) eqn:Er; injection H as <- _; [|done]. destruct (Hpr err eq_refl Er) as [Hs Hnaw].
  assert (He : tn_ended t = false).
  { destruct (tn_ended t) eqn:E; [|done]. destruct (i_flags _ _ I id t Ht E). congruence. }
  specialize (Hcur He). unfold send_back. rewrite (bool_decide_true (s_current s = Some id)) by done.
  set (s2 := if freed then _ else _).
  assert (H2 : s_current s2 = None /\ s_byNative s2 = delete (tn_native t) (s_byNative s) /\ s_T s2 = s_T s /\ s_auto s2 = s_auto s /\ s_phase s2 = s_phase s).
  { unfold s2. by destruct freed. }
  clearbody s2. destruct H2 as (C1 & C2 & C3 & C4 & C5). destruct (restLocked_frame s2) as ((R1 & R2 & _) & R3 & R4 & R5 & _).
  pose proof (i_native _ _ I) as Hin. destruct J. cbn in *.
  assert (Hph : s_phase (restLocked s2) = if bool_decide (s_phase s = PhaseBusy) then PhaseIdle else s_phase s).
  { unfold restLocked. rewrite C1, C4, C5, j_auto0. rewrite !(bool_decide_true (None = None)), !andb_true_r by done.
    case_bool_decide; [done|]. by rewrite C5. }
  constructor; cbn; rewrite ?R5, ?C4, ?R2, ?C2, ?R3, ?C3, ?R4, ?C1, ?Hph; try done.
  - intros n k x Hk Hx Hxe. exfalso. apply lookup_delete_Some in Hk as [Hne Hk].
    pose proof (j_native0 n k x Hk Hx Hxe) as Hc. destruct (Hin n k Hk) as (y & Hy & Hyn & _). congruence.
  - case_bool_decide; [by intros [?|?]|]. intros Hx. by destruct (j_pre0 Hx).
  - case_bool_decide; [by intros [?|?]|]. intros [?|?]; congruence.
Qed.

Lemma same_turns s : forall id t', s_T s !! id = Some t' -> tn_ended t' = false -> exists t, s_T s !! id = Some t /\ tn_ended t = false.
Proof. eauto. Qed.

Lemma interrupt_solo s pc req ss s' r : solo (mkWorld s pc) -> Interrupt req ss s = (s', r) -> solo (mkWorld s' pc).
Proof.
  intros J H.
  assert (Hi : forall input s' r, interrupt_input input s = (s', r) -> solo (mkWorld s' pc)).
  { intros input s0 r0 H0. unfold interrupt_input in H0.
    destruct (s_turns s !! input ≫= _) as [[id t]|] eqn:E; [|by injection H0 as <- _].
    apply bind_Some in E as (x & _ & Hx). apply fmap_Some in Hx as (y & Ht & [= -> ->]).
    destruct (tn_interrupt y); [by injection H0 as <- _|]. destruct (tn_ended y || _); [by injection H0 as <- _|].
    destruct (bool_decide (s_phase s = PhaseExited)); [by injection H0 as <- _|]. cbn in H0. injection H0 as <- _.
    apply (solo_same s); auto. intros k t' Hk He. cbn in Hk.
    apply lookup_insert_Some in Hk as [[<- <-]|[_ Hk]]; [by exists y|by exists t']. }
  assert (Ha : forall find s' r, interruptAuto find ss s = (s', r) -> solo (mkWorld s' pc)).
  { intros find s0 r0 H0. unfold interruptAuto in H0. destruct (find _ ≫= _) as [[id a]|]; [|by injection H0 as <- _].
    destruct (au_interrupt a); [by injection H0 as <- _|]. destruct (au_ended a || _); [by injection H0 as <- _|].
    destruct (bool_decide (s_phase s = PhaseExited)); [by injection H0 as <- _|]. destruct (negb ss); [by injection H0 as <- _|].
    cbn in H0. injection H0 as <- _. apply (solo_same s); eauto using same_turns. }
  unfold Interrupt in H. destruct (s_phase s); try (by injection H as <- _); destruct (negb (iq_turn req =s? "")); eauto.
Qed.

Lemma solo_step out w obs w' : inv out w -> solo w -> step w obs w' -> solo w'.
Proof.
  intros I J Hs. pose proof same_turns as Hsame. destruct Hs as [now ev s pc s' obs H|id s pc Hid|id now s pc s' obs Hid H|in_ s s' pc H|in_ s
    |in_ native s s' id Hne Hn H|id t err freed ex s s' r Ht H Hp|s|req ss s pc s' r Hsend H|id op s pc|id op s pc|id c err s pc
    |s s' pc H|err gone s pc Ho|sid s pc Ho|s pc Ho|s pc|un res s pc Hc].
  - by eapply report_solo.
  - by apply (solo_same s); eauto.
  - unfold gate_opens in H. destruct (_ || _) eqn:E; injection H as <- _; [by apply (solo_same s); eauto|].
    apply orb_false_iff in E as [E _]. apply negb_false_iff, bool_decide_eq_true in E. cbn in E.
    apply (solo_same s); eauto. do 4 right. pose proof (j_blocked _ J E). done.
  - unfold send_begin in H. apply bind_Ok in H as ([] & _ & H). apply bind_Ok in H as ([] & Ha & H).
    destruct (is_none _); [|done]. injection H as <-. unfold admitLocked in Ha. rewrite !when_Ok in Ha. destruct Ha as (_ & Hsd & Ha).
    assert (Hpc : pc = SNone).
    { destruct (decide (s_sending s = true)) as [E|E]; [congruence|]. destruct pc; try done; destruct E; by apply (i_sending _ _ I). }
    subst pc. destruct J. cbn in *.
    assert (Hph : s_phase s = PhaseIdle).
    { destruct (s_phase s); try done. by rewrite j_auto0 in Ha; destruct (s_current s); cbn in Ha. }
    assert (Hc : s_current s = None).
    { destruct (s_current s) as [id|]; [|done]. by specialize (j_idle0 id Hph eq_refl). }
    constructor; cbn; rewrite ?Hph, ?Hc; try done; [by rewrite Hc in j_native0|by intros [?|?]|by auto|by intros [?|?]].
  - destruct J. cbn in *. destruct (j_admitted0 in_ eq_refl) as [Hc Hp].
    constructor; cbn; try done; [|congruence]. intros Hx. destruct Hp, Hx; congruence.
  - by eapply solo_register.
  - by eapply solo_settle.
  - destruct J. cbn in *. constructor; cbn; try done.
    + intros Hx. by destruct (j_pre0 Hx).
    + intros id Hi Hc. by specialize (j_idle0 id Hi Hc).
  - by eapply interrupt_solo.
  - unfold interrupt_failed. cbn [fst]. destruct (s_T s !! id) as [t|] eqn:Ht; [|done]. destruct (drop_op _ _ _); [|done].
    apply (solo_same s); eauto. intros k t' Hk He. cbn in Hk.
    apply lookup_insert_Some in Hk as [[<- <-]|[_ Hk]]; [by exists t|by exists t'].
  - unfold interruptAuto_failed. cbn [fst]. destruct (s_A s !! id); [|done]. destruct (drop_op _ _ _); [|done]. apply (solo_same s); eauto.
  - unfold answer_end. destruct err; [done|]. apply (solo_same s); eauto.
  - unfold open_begin in H. rewrite !when_Ok in H. destruct H as (_ & Hu & [= <-]). apply negb_false_iff, bool_decide_eq_true in Hu.
    destruct (j_pre _ J) as [Hc Hpc]; [by left|]. cbn in Hc, Hpc. subst pc. apply (solo_same s); eauto. cbn. right. right. right. left. auto.
  - apply (solo_same s); eauto.
  - apply (solo_same s); eauto.
  - unfold open_end. destruct (s_closing (set_opened true s)); [by apply (solo_same s); eauto|]. cbn [fst].
    case_bool_decide as Hst; [|by apply (solo_same s); eauto]. destruct (j_pre _ J) as [Hc Hpc]; [by right|]. cbn in Hc, Hpc.
    pose proof (j_auto _ J) as Ha. cbn in Ha. apply (solo_same s); eauto. cbn. rewrite Ha. cbn. right. right. right. left. auto.
  - unfold close_begin. destruct (s_closing s); [done|]. apply (solo_same s); eauto.
  - unfold close_finish. apply (solo_same s); unfold stop_timer; destruct un; cbn; destruct (s_gateTimer s); eauto.
Qed.

Lemma solo_reachable tr w : steps init tr w -> solo w.
Proof.
  intros H. remember init as w0. induction H as [|? tr w obs w' Hr IH Hs]; subst.
  - constructor; cbn; try done. by intros [?|?].
  - eapply solo_step; [by eapply session_inv_reachable|by apply IH|done].
Qed.

(** C2: a harness that starts no turns itself is on one input's turn at a time.
    Whenever the Session admits an input, no turn is current and every input it
    still maps a native id for has had its turn ended; and a busy or waiting
    Session has a current turn that has not ended. *)
Theorem one_turn_at_a_time tr w (H : steps init tr w) :
  (admitLocked desc (w_s w) = Ok tt ->
     s_current (w_s w) = None /\ s_phase (w_s w) = PhaseIdle /\
     forall n id t, s_byNative (w_s w) !! n = Some id -> s_T (w_s w) !! id = Some t -> tn_ended t = true) /\
  (s_phase (w_s w) = PhaseBusy \/ s_phase (w_s w) = PhaseAwaitingAnswer ->
     exists id t, s_current (w_s w) = Some id /\ s_T (w_s w) !! id = Some t /\ tn_ended t = false).
Proof.
  pose proof (session_inv_reachable tr w H) as I. pose proof (solo_reachable tr w H) as J. split.
  - intros Ha. unfold admitLocked in Ha. rewrite !when_Ok in Ha. destruct Ha as (_ & Hsd & Ha).
    assert (Hph : s_phase (w_s w) = PhaseIdle).
    { destruct (s_phase (w_s w)); try done. rewrite (j_auto _ J) in Ha. by destruct (s_current (w_s w)); cbn in Ha. }
    assert (Hc : s_current (w_s w) = None).
    { destruct (s_current (w_s w)) as [id|] eqn:E; [|done]. pose proof (j_idle _ J id Hph E) as Hs.
      assert (s_sending (w_s w) = true) by (apply (i_sending _ _ I); rewrite Hs; done). congruence. }
    split_and!; try done. intros n id t Hn Ht. destruct (tn_ended t) eqn:He; [done|]. by rewrite (j_native _ J n id t Hn Ht He) in Hc.
  - intros Hb. destruct (s_current (w_s w)) as [id|] eqn:E; [|by apply (j_busy _ J) in Hb].
    destruct (i_current _ _ I id E) as (t & Ht & He & _). by exists id, t.
Qed.
End System.
