(* ===== verification/SessionGate.v ===== *)
(** What a Session's State can say, and how often its exit is reported: two
    invariants of the transition system of SessionProps.v. *)
From Stdlib Require Import ZArith Ascii String Lia.
From stdpp Require Import base tactics list gmap strings option.
From S2P Require Import Prelude GoStr Json Contract Descriptor Requests Observation SessionState Session SessionProps.

#[local] Open Scope string_scope.
#[local] Open Scope Z_scope.
#[local] Open Scope list_scope.

(** ** Phase, gate and prompt *)

(** The phase, the gate, the prompt and the exit agree. *)
Record coherent (s : session) : Prop := {
  g_blocked : s_phase s = PhaseBlocked -> s_gate s <> None;
  g_gate : s_gate s <> None -> s_phase s = PhaseBlocked \/ s_phase s = PhaseExited;
  g_prompt : s_phase s = PhaseAwaitingAnswer -> s_prompt s <> None;
  g_exited : s_exited s = true -> s_phase s = PhaseExited;
}.

(** The part of the state [coherent] is about. *)
Definition view (s : session) : Phase * option Block * option PromptInfo * bool :=
  (s_phase s, s_gate s, s_prompt s, s_exited s).

Lemma coherent_view s s' : view s' = view s -> coherent s -> coherent s'.
Proof. unfold view. intros [= E1 E2 E3 E4] []. by constructor; rewrite ?E1, ?E2, ?E3, ?E4. Qed.

(** The phase moves among the ones a Session takes inputs or waits in. *)
Lemma coherent_phase p s s' : coherent s -> view s' = (p, s_gate s, s_prompt s, s_exited s) ->
  s_phase s <> PhaseBlocked -> s_phase s <> PhaseExited -> p <> PhaseBlocked ->
  (p = PhaseAwaitingAnswer -> s_prompt s <> None) -> coherent s'.
Proof.
  intros [] [= E1 E2 E3 E4] H1 H2 H3 H4. constructor; rewrite ?E1, ?E2, ?E3, ?E4; try done; tauto.
Qed.

(** The prompt goes, and the Session no longer waits for its answer. *)
Lemma coherent_unprompted s s' : coherent s -> s_phase s <> PhaseAwaitingAnswer ->
  view s' = (s_phase s, s_gate s, None, s_exited s) -> coherent s'.
Proof. intros [] H [= E1 E2 E3 E4]. by constructor; rewrite ?E1, ?E2, ?E3, ?E4. Qed.

Lemma coherent_exited s s' g x : view s' = (PhaseExited, g, x, true) \/ view s' = (PhaseExited, g, x, s_exited s) -> coherent s'.
Proof. intros [[= E1 E2 E3 E4]|[= E1 E2 E3 E4]]; constructor; rewrite ?E1, ?E2, ?E3, ?E4; auto; done. Qed.

Lemma settle_op_view op o s : view (settle_op op o s) = view s.
Proof. unfold settle_op. destruct op as [id|]; [|done]. by destruct (s_O s !! id) as [[[|]]|]. Qed.

Lemma stop_timer_view s : view (stop_timer s) = view s.
Proof. unfold stop_timer. by destruct (s_gateTimer s). Qed.

Lemma coherent_rest s : coherent s -> coherent (restLocked s).
Proof.
  intros C. unfold restLocked. case_bool_decide as Hp; [|done]. cbn. destruct (_ && _); [|done].
  by apply (coherent_phase PhaseIdle s); try done; rewrite Hp.
Qed.

Section Gate.
Variables (desc : Descriptor) (instance : string) (digest16 : string -> string).
Abbreviation step := (SessionProps.step desc instance digest16).
Abbreviation steps := (SessionProps.steps desc instance digest16).

Lemma gate_closes_view b at_ s : s_exited s = false -> coherent (gate_closes instance b at_ s).1.
Proof.
  intros He. unfold gate_closes, liveKeyLocked. set (s1 := set_counter _ _).
  assert (H : view (match bk_reason b, bk_resume b with BlockUsageLimited, Some r => armGateLocked r s1 | _, _ => s1 end) =
    (PhaseBlocked, Some b, s_prompt s, s_exited s)).
  { destruct (bk_reason b), (bk_resume b); try done. unfold armGateLocked.
    pose proof (stop_timer_view s1) as V. unfold view in *. cbn in *. congruence. }
  cbn [fst]. injection H as E1 E2 E3 E4. constructor; rewrite ?E1, ?E2, ?E3, ?E4; auto; try done. congruence.
Qed.

Lemma not_exited s : coherent s -> s_phase s <> PhaseExited -> s_exited s = false.
Proof. intros [] H. destruct (s_exited s); [|done]. by specialize (g_exited0 eq_refl). Qed.

Lemma endLocked_coherent now at_ id t ev s : coherent s -> coherent (endLocked instance now at_ id t ev s).1.
Proof.
  intros C. unfold endLocked. destruct (ended_data ev) as [data cut]. set (s1 := settle_op _ _ _).
  assert (V1 : view s1 = view s) by (unfold s1; rewrite settle_op_view; done). clearbody s1.
  set (s2 := if bool_decide (s_current s1 = Some id) then set_current None s1 else s1).
  assert (V2 : view s2 = view s) by (unfold s2; rewrite <- V1; by case_bool_decide). clearbody s2. clear V1.
  apply (coherent_view s s2 V2) in C. clear V2 s1 s. cbv zeta. set (s3 := set_retry None (set_prompt None s2)).
  assert (V3 : view s3 = (s_phase s2, s_gate s2, None, s_exited s2)) by done.
  destruct (bool_decide_reflect (s_phase s3 = PhaseExited)) as [He|He].
  { apply (coherent_unprompted s2); [done| |done]. intros E. change (s_phase s2 = PhaseExited) in He. congruence. }
  assert (Hx : s_exited s3 = false) by exact (not_exited s2 C He).
  destruct (blockFor now (s_resumeHint s3) (ev_error ev)) as [b|].
  - pose proof (gate_closes_view b at_ s3 Hx). by destruct (gate_closes instance b at_ s3).
  - cbn [fst]. apply coherent_rest. case_bool_decide as Ha.
    + change (s_phase s2 = PhaseAwaitingAnswer) in Ha. destruct C. constructor; cbn; try done.
      * intros Hg. destruct (g_gate0 Hg); congruence.
      * intros E. change (s_exited s2 = false) in Hx. congruence.
    + by apply (coherent_unprompted s2).
Qed.

Lemma auto_of_view native s : view (auto_of digest16 native s).1.1 = view s.
Proof.
  unfold auto_of. destruct (s_autos s !! native ≫= _) as [[id a]|]; [done|]. unfold prune_autos. by case_match.
Qed.

Lemma autoLocked_coherent now at_ ev s : coherent s -> coherent (autoLocked desc instance digest16 now at_ ev s).1.
Proof.
  intros C. unfold autoLocked. destruct (_ || _); [done|]. pose proof (auto_of_view (ev_auto ev) s) as V.
  destruct (auto_of digest16 (ev_auto ev) s) as [[s1 id] a]. cbn in V. apply (coherent_view s s1 V) in C. clear V s.
  destruct (_ || _); [done|]. destruct (bool_decide (ev_kind ev = Started)); cbn [fst].
  - case_bool_decide as Hp; [|by apply (coherent_view s1)]. cbn in Hp. by apply (coherent_phase PhaseBusy s1); try done; rewrite Hp.
  - destruct (ended_data ev) as [data cut]. set (s2 := settle_op _ _ _).
    assert (V2 : view s2 = view s1) by (unfold s2; rewrite settle_op_view; done). clearbody s2.
    set (s3 := if bool_decide (s_auto s2 = Some id) then set_auto None s2 else s2).
    assert (V3 : view (set_retry None s3) = view s1) by (unfold s3; rewrite <- V2; by case_bool_decide).
    set (s4 := set_retry None s3) in *. clearbody s4. apply (coherent_view s1 s4 V3) in C.
    destruct (bool_decide_reflect (s_phase s4 = PhaseExited)) as [He|He]; [done|]. cbn [orb].
    destruct (negb _); [done|]. destruct (blockFor now (s_resumeHint s4) (ev_error ev)) as [b|].
    + pose proof (gate_closes_view b at_ s4 (not_exited s4 C He)). by destruct (gate_closes instance b at_ s4).
    + by apply coherent_rest.
Qed.

Lemma report_coherent now ev s : coherent s -> coherent (report desc instance digest16 now ev s).1.
Proof.
  intros C. unfold report. destruct (negb (ev_auto ev =s? "")); [by apply autoLocked_coherent|].
  destruct (ev_kind ev).
  - destruct (event_turn ev s) as [[id t]|]; [|done]. destruct (tn_started t); [done|]. cbn [fst].
    destruct (bool_decide_reflect (s_phase (upd_turn id (tn_start t) s) = PhaseIdle)) as [Hp|Hp];
      [|rewrite andb_false_r; by apply (coherent_view s)].
    destruct (_ && _); [|by apply (coherent_view s)]. cbn in Hp. by apply (coherent_phase PhaseBusy s); try done; rewrite Hp.
  - destruct (event_turn ev s) as [[id t]|]; [|done]. destruct (tn_ended t); [done|]. by apply endLocked_coherent.
  - destruct (event_turn ev s) as [[id t]|]; [|done]. destruct (has _ _); by apply (coherent_view s).
  - cbn [fst]. set (s1 := match ev_resume ev with Some a => _ | None => s end).
    assert (V : view s1 = view s) by (unfold s1; by destruct (ev_resume ev)). destruct (has _ _); by apply (coherent_view s).
  - destruct (ev_prompt ev) as [p|]; [|done]. destruct (event_turn ev s) as [[id t]|]; [|done]. destruct (tn_ended t); [done|]. cbn [fst].
    assert (C' : coherent (set_prompt (Some p) s)) by (destruct C; by constructor).
    destruct (_ || _) eqn:E; [|done]. apply orb_true_iff in E. rewrite !bool_decide_eq_true in E. cbn in E.
    apply (coherent_phase PhaseAwaitingAnswer (set_prompt (Some p) s)); try done; cbn; destruct E; congruence.
  - destruct (s_prompt s) as [p|] eqn:Ep; [|done]. destruct (negb _); [done|]. cbn [fst]. case_bool_decide as Hp.
    + cbn in Hp. destruct C. constructor; cbn; try done.
      * intros Hg. destruct (g_gate0 Hg); congruence.
      * intros Hx. apply g_exited0 in Hx. congruence.
    + by apply (coherent_unprompted s).
  - destruct (s_exited s); [done|]. unfold liveKeyLocked. cbn [fst]. set (s1 := set_background _ _).
    pose proof (stop_timer_view s1) as V. apply (coherent_exited s _ (s_gate s) None). left.
    unfold view in *. cbn in *. congruence.
  - destruct (_ || _); [done|]. cbn [fst]. by apply (coherent_view s).
Qed.

Lemma gate_opens_coherent now s : coherent s -> coherent (gate_opens instance now s).1.
Proof.
  intros C. unfold gate_opens. case_bool_decide as Hp; [|done]. cbn. destruct (is_none _); [done|]. cbn [fst].
  pose proof (not_exited s C) as Hx. constructor; cbn; try done. intros Hx'. rewrite Hx in Hx'; [done|]. congruence.
Qed.

Lemma Interrupt_view req ss s : view (Interrupt req ss s).1 = view s.
Proof.
  unfold Interrupt. assert (Ha : view (interruptAuto (find_auto (iq_turn req) s) ss s).1 = view s).
  { unfold interruptAuto. destruct (find_auto _ s _ ≫= _) as [[id a]|]; [|done]. destruct (au_interrupt a); [done|].
    destruct (_ || _); [done|]. case_bool_decide; [done|]. by destruct (negb ss). }
  assert (Hi : view (interrupt_input (iq_input req) s).1 = view s).
  { unfold interrupt_input. destruct (s_turns s !! _ ≫= _) as [[id t]|]; [|done]. destruct (tn_interrupt t); [done|].
    destruct (_ || _); [done|]. by case_bool_decide. }
  destruct (s_phase s); try done; by destruct (negb _).
Qed.

Lemma send_coherent id t err freed ex s : coherent s -> coherent (send_settle id t err freed ex s).1.
Proof.
  intros C. assert (Hb : coherent (mark_busy id s)).
  { unfold mark_busy. destruct (s_T s !! id) as [x|]; [|done]. case_bool_decide as Hp; [|by rewrite andb_false_r].
    destruct (negb _ && _); [|done]. by apply (coherent_phase PhaseBusy s); try done; rewrite Hp. }
  unfold send_settle. destruct err as [err|]; [|done]. destruct (not_reached err); [|done]. cbn [fst].
  unfold send_back. apply coherent_rest. apply (coherent_view s); [|done]. destruct freed; cbn; by case_bool_decide.
Qed.

Lemma coherent_step w obs w' : step w obs w' -> coherent (w_s w) -> coherent (w_s w').
Proof.
  intros Hs C. destruct Hs as [now ev s pc s' obs H|id s pc Hid|id now s pc s' obs Hid H|in_ s s' pc H|in_ s
    |in_ native s s' id Hne Hn H|id t err freed ex s s' r Ht H Hp|s|req ss s pc s' r Hsend H|id op s pc|id op s pc|id c err s pc
    |s s' pc H|err gone s pc Ho|sid s pc Ho|s pc Ho|s pc|un res s pc Hc]; cbn [w_s] in *; try (by apply (coherent_view s)).
  - pose proof (report_coherent now ev s C) as K. by rewrite H in K.
  - apply (coherent_view s (set_fired (s_fired s ∖ {[id]}) s)) in C; [|done].
    pose proof (gate_opens_coherent now _ C) as K. by rewrite H in K.
  - unfold send_begin in H. apply bind_Ok in H as ([] & _ & H). apply bind_Ok in H as ([] & _ & H).
    destruct (is_none _); [|done]. injection H as <-. by apply (coherent_view s).
  - unfold send_register in H. injection H as <- _. by apply (coherent_view s).
  - pose proof (send_coherent id t err freed ex s C) as K. by rewrite H in K.
  - apply (coherent_view s); [|done]. pose proof (Interrupt_view req ss s) as V. by rewrite H in V.
  - apply (coherent_view s); [|done]. unfold interrupt_failed. cbn. repeat case_match; done.
  - apply (coherent_view s); [|done]. unfold interruptAuto_failed. cbn. repeat case_match; done.
  - apply (coherent_view s); [|done]. unfold answer_end. by destruct err.
  - unfold open_begin in H. rewrite !when_Ok in H. destruct H as (_ & Hu & [= <-]). apply negb_false_iff, bool_decide_eq_true in Hu.
    by apply (coherent_phase PhaseStarting s); try done; rewrite Hu.
  - cbn. by apply (coherent_exited s _ (s_gate s) (s_prompt s)); right.
  - unfold open_end. destruct (s_closing _); cbn [fst]; [by apply (coherent_view s)|].
    case_bool_decide as Hp; [|by apply (coherent_view s)]. cbn in Hp.
    destruct (is_none _); eapply (coherent_phase _ s); try done; by rewrite Hp.
  - apply (coherent_view s); [|done]. unfold close_begin. by destruct (s_closing s).
  - apply (coherent_exited s _ (s_gate s) (s_prompt s)). right. unfold close_finish. set (s1 := set_phase PhaseExited _).
    pose proof (stop_timer_view s1) as V. unfold view in *. cbn in *. rewrite V. by destruct un.
Qed.

Lemma coherent_reachable tr w : steps init tr w -> coherent (w_s w).
Proof.
  intros H. remember init as w0. induction H as [|? tr w obs w' Hr IH Hs]; subst; [by constructor|].
  eapply coherent_step; [done|by apply IH].
Qed.

(** C4: what State reports is coherent in every state a Session reaches: a
    blocked Session says what blocks it and only a blocked or an exited one
    does, one that awaits an answer shows the prompt, a turn is named only while
    the Session is busy or awaits an answer, and after the harness's exit the
    Session is exited. *)
Theorem state_coherent tr w (H : steps init tr w) :
  let st := stateLocked desc (w_s w) in
  (st_phase st = PhaseBlocked -> st_block st <> None) /\
  (st_block st <> None -> st_phase st = PhaseBlocked \/ st_phase st = PhaseExited) /\
  (st_phase st = PhaseAwaitingAnswer -> st_prompt st <> None) /\
  (st_turn st <> "" -> st_phase st = PhaseBusy \/ st_phase st = PhaseAwaitingAnswer) /\
  (s_exited (w_s w) = true -> st_phase st = PhaseExited).
Proof.
  destruct (coherent_reachable tr w H). cbv zeta. split_and!; try done. cbn.
  destruct (s_current (w_s w) ≫= _) as [t|]; cbn.
  - destruct (s_phase (w_s w)); auto; rewrite !bool_decide_false by done; rewrite ?andb_false_r; cbn;
      destruct (s_auto (w_s w) ≫= _) as [a|]; cbn; by rewrite ?andb_false_r.
  - destruct (s_auto (w_s w) ≫= _) as [a|]; cbn; [|done]. rewrite andb_true_r. case_bool_decide; [auto|]. by rewrite andb_false_r.
Qed.

(** ** Live keys and the exit *)

(** The observations whose key is the harness process instance and a counter. *)
Definition counted (e : emission) : bool :=
  match em_kind e with
  | KindBlocked | KindUnblocked | KindBackgroundTasks | KindRateLimit | KindSessionExited => true
  | _ => false
  end.
Definition exits (obs : list emission) : list emission :=
  List.filter (fun e => bool_decide (em_kind e = KindSessionExited)) obs.

(** A step makes at most one such observation, takes the next number for it,
    and reports the exit when it records it. *)
Definition live_delta (s s' : session) (obs : list emission) : Prop :=
  (List.filter counted obs = [] /\ s_counter s' = s_counter s /\ s_exited s' = s_exited s) \/
  exists e, List.filter counted obs = [e] /\ em_key e = (instance ++ "." ++ Itoa (s_counter s + 1))%string /\
    s_counter s' = s_counter s + 1 /\
    (if bool_decide (em_kind e = KindSessionExited) then s_exited s = false /\ s_exited s' = true
     else s_exited s' = s_exited s).

Lemma live_none s s' obs : List.filter counted obs = [] -> s_counter s' = s_counter s -> s_exited s' = s_exited s ->
  live_delta s s' obs.
Proof. by left. Qed.

Lemma live_one s s' pre e : List.filter counted pre = [] -> counted e = true -> em_kind e <> KindSessionExited ->
  em_key e = (instance ++ "." ++ Itoa (s_counter s + 1))%string -> s_counter s' = s_counter s + 1 ->
  s_exited s' = s_exited s -> live_delta s s' (pre ++ [e]).
Proof.
  intros Hp He Hk Hkey Hc Hx. right. exists e. rewrite List.filter_app, Hp. cbn. rewrite He. split_and!; try done.
  by rewrite bool_decide_false.
Qed.

Lemma gate_closes_live s0 pre b at_ s s' obs : gate_closes instance b at_ s = (s', obs) -> List.filter counted pre = [] ->
  s_counter s = s_counter s0 -> s_exited s = s_exited s0 -> live_delta s0 s' (pre ++ obs).
Proof.
  intros H Hp Hc Hx. unfold gate_closes, liveKeyLocked in H. set (s1 := set_counter _ _) in H.
  assert (V : forall r, s_counter (armGateLocked r s1) = s_counter s1 /\ s_exited (armGateLocked r s1) = s_exited s1).
  { intros r. unfold armGateLocked, stop_timer. by destruct (s_gateTimer s1). }
  injection H as <- <-. apply live_one; try done; cbn [em_key liveObs].
  - by rewrite <- Hc.
  - rewrite <- Hc. destruct (bk_reason b), (bk_resume b) as [r|]; try done. by destruct (V r) as [-> _].
  - rewrite <- Hx. destruct (bk_reason b), (bk_resume b) as [r|]; try done. by destruct (V r) as [_ ->].
Qed.

Lemma settle_op_live op o s : s_counter (settle_op op o s) = s_counter s /\ s_exited (settle_op op o s) = s_exited s.
Proof. unfold settle_op. destruct op as [id|]; [|done]. by destruct (s_O s !! id) as [[[|]]|]. Qed.

Lemma restLocked_live s : s_counter (restLocked s) = s_counter s /\ s_exited (restLocked s) = s_exited s.
Proof. unfold restLocked. by destruct (_ && _). Qed.

Lemma endLocked_live now at_ id t ev s s' obs : endLocked instance now at_ id t ev s = (s', obs) -> live_delta s s' obs.
Proof.
  unfold endLocked. destruct (ended_data ev) as [data cut]. set (s1 := settle_op _ _ _).
  assert (H1 : s_counter s1 = s_counter s /\ s_exited s1 = s_exited s).
  { exact (settle_op_live (tn_interrupt t) (ev_outcome ev) (upd_turn id (tn_end (ev_outcome ev) (tn_start t)) s)). }
  clearbody s1.
  set (s2 := if bool_decide (s_current s1 = Some id) then set_current None s1 else s1).
  assert (H2 : s_counter s2 = s_counter s /\ s_exited s2 = s_exited s) by (unfold s2; by case_bool_decide). clearbody s2. clear H1.
  cbv zeta. set (s3 := set_retry None (set_prompt None s2)).
  assert (H3 : s_counter s3 = s_counter s /\ s_exited s3 = s_exited s) by done. destruct H3 as [Hc Hx]. clearbody s3. clear H2.
  set (pre := (if tn_started t then [] else _) ++ _ ++ _).
  assert (Hp : List.filter counted pre = []) by (unfold pre; by destruct (tn_started t), (s_prompt s2)). clearbody pre.
  destruct (bool_decide (s_phase s3 = PhaseExited)); [intros [= <- <-]; by apply live_none|].
  destruct (blockFor now (s_resumeHint s3) (ev_error ev)) as [b|].
  - destruct (gate_closes instance b at_ s3) as [s4 blocked] eqn:Eg. intros [= <- <-]. by eapply gate_closes_live.
  - set (s4 := if bool_decide _ then _ else s3). assert (H4 : s_counter s4 = s_counter s /\ s_exited s4 = s_exited s).
    { unfold s4. by case_bool_decide. } clearbody s4. intros [= <- <-]. destruct (restLocked_live s4), H4. apply live_none; congruence.
Qed.

Lemma autoLocked_live now at_ ev s s' obs : autoLocked desc instance digest16 now at_ ev s = (s', obs) -> live_delta s s' obs.
Proof.
  unfold autoLocked. destruct (_ || _); [intros [= <- <-]; by apply live_none|].
  assert (V : s_counter (auto_of digest16 (ev_auto ev) s).1.1 = s_counter s /\ s_exited (auto_of digest16 (ev_auto ev) s).1.1 = s_exited s).
  { unfold auto_of. destruct (s_autos s !! _ ≫= _) as [[id a]|]; [done|]. unfold prune_autos. by case_match. }
  destruct (auto_of digest16 (ev_auto ev) s) as [[s1 id] a]. cbn [fst] in V. destruct V as [Hc Hx].
  destruct (_ || _); [intros [= <- <-]; by apply live_none|].
  destruct (bool_decide (ev_kind ev = Started)).
  - case_bool_decide; intros [= <- <-]; apply live_none; try done; by destruct (au_started a).
  - destruct (ended_data ev) as [data cut]. set (s2 := settle_op _ _ _).
    assert (H2 : s_counter s2 = s_counter s /\ s_exited s2 = s_exited s).
    { rewrite <- Hc, <- Hx. exact (settle_op_live (au_interrupt a) (ev_outcome ev) (upd_auto id (au_end (au_start a)) s1)). }
    clearbody s2.
    set (s3 := if bool_decide (s_auto s2 = Some id) then set_auto None s2 else s2).
    assert (H3 : s_counter (set_retry None s3) = s_counter s /\ s_exited (set_retry None s3) = s_exited s).
    { unfold s3. by case_bool_decide. } set (s4 := set_retry None s3) in *. clearbody s4. destruct H3 as [Hc4 Hx4].
    cbv zeta. set (pre := (if au_started a then [] else _) ++ _).
    assert (Hp : List.filter counted pre = []) by (unfold pre; by destruct (au_started a)). clearbody pre.
    destruct (_ || _); [intros [= <- <-]; by apply live_none|].
    destruct (blockFor now (s_resumeHint s4) (ev_error ev)) as [b|].
    + destruct (gate_closes instance b at_ s4) as [s5 blocked] eqn:Eg. intros [= <- <-]. by eapply gate_closes_live.
    + intros [= <- <-]. destruct (restLocked_live s4). apply live_none; congruence.
Qed.

Lemma report_live now ev s s' obs : report desc instance digest16 now ev s = (s', obs) -> live_delta s s' obs.
Proof.
  unfold report. destruct (negb (ev_auto ev =s? "")); [by apply autoLocked_live|]. destruct (ev_kind ev).
  - destruct (event_turn ev s) as [[id t]|]; [|intros [= <- <-]; by apply live_none].
    destruct (tn_started t); [intros [= <- <-]; by apply live_none|].
    intros [= <- <-]. destruct (_ && _); by apply live_none.
  - destruct (event_turn ev s) as [[id t]|]; [|intros [= <- <-]; by apply live_none].
    destruct (tn_ended t); [intros [= <- <-]; by apply live_none|]. apply endLocked_live.
  - destruct (event_turn ev s) as [[id t]|]; [|intros [= <- <-]; by apply live_none].
    destruct (has _ _); intros [= <- <-]; by apply live_none.
  - set (s1 := match ev_resume ev with Some a => _ | None => s end).
    assert (V : s_counter s1 = s_counter s /\ s_exited s1 = s_exited s) by (unfold s1; by destruct (ev_resume ev)).
    destruct V as [Hc Hx]. clearbody s1. destruct (has _ _); [|intros [= <- <-]; by apply live_none].
    unfold liveKeyLocked. intros [= <- <-].
    apply (live_one s _ []); cbn; rewrite ?Hc; try done; by destruct (event_turn ev s) as [[]|].
  - destruct (ev_prompt ev) as [p|]; [|intros [= <- <-]; by apply live_none].
    destruct (event_turn ev s) as [[id t]|]; [|intros [= <- <-]; by apply live_none].
    destruct (tn_ended t); [intros [= <- <-]; by apply live_none|]. intros [= <- <-]. destruct (_ || _); by apply live_none.
  - destruct (s_prompt s) as [p|] eqn:Ep; [|intros [= <- <-]; by apply live_none].
    destruct (negb _); [intros [= <- <-]; by apply live_none|]. intros [= <- <-].
    case_bool_decide; apply live_none; try done; by destruct (event_turn ev s) as [[]|].
  - destruct (s_exited s) eqn:Ex; [intros [= <- <-]; by apply live_none|]. unfold liveKeyLocked, stop_timer. cbn.
    intros [= <- <-]. right. eexists. cbn. split_and!; try done. by destruct (s_gateTimer s).
  - destruct (_ || _); [intros [= <- <-]; by apply live_none|]. unfold liveKeyLocked. intros [= <- <-]. by apply (live_one s _ []).
Qed.

Lemma live_step w obs w' : step w obs w' -> live_delta (w_s w) (w_s w') obs.
Proof.
  intros Hs. destruct Hs as [now ev s pc s' obs H|id s pc Hid|id now s pc s' obs Hid H|in_ s s' pc H|in_ s
    |in_ native s s' id Hne Hn H|id t err freed ex s s' r Ht H Hp|s|req ss s pc s' r Hsend H|id op s pc|id op s pc|id c err s pc
    |s s' pc H|err gone s pc Ho|sid s pc Ho|s pc Ho|s pc|un res s pc Hc]; cbn [w_s] in *; try (by apply live_none).
  - by eapply report_live.
  - unfold gate_opens in H. destruct (_ || _); [injection H as <- <-; by apply live_none|].
    unfold liveKeyLocked in H. injection H as <- <-. by apply (live_one s _ []).
  - unfold send_begin in H. apply bind_Ok in H as ([] & _ & H). apply bind_Ok in H as ([] & _ & H).
    destruct (is_none _); [|done]. injection H as <-. by apply live_none.
  - unfold send_register in H. injection H as <- _. by apply live_none.
  - assert (Hb : s_counter (mark_busy id s) = s_counter s /\ s_exited (mark_busy id s) = s_exited s).
    { unfold mark_busy. destruct (s_T s !! id); [|done]. by destruct (_ && _). }
    unfold send_settle in H. destruct err as [err|]; [|injection H as <- _; by apply live_none; destruct Hb].
    destruct (not_reached err); injection H as <- _; [|by apply live_none; destruct Hb].
    unfold send_back. set (s1 := if freed then _ else _). destruct (restLocked_live s1) as [E1 E2].
    apply live_none; [done|rewrite E1|rewrite E2]; unfold s1; destruct freed; cbn; by case_bool_decide.
  - pose proof (Interrupt_view req ss s) as V. rewrite H in V. injection V as _ _ _ V. apply live_none; try done.
    unfold Interrupt in H. assert (s_counter (interrupt_input (iq_input req) s).1 = s_counter s).
    { unfold interrupt_input. destruct (s_turns s !! _ ≫= _) as [[id t]|]; [|done]. destruct (tn_interrupt t); [done|].
      destruct (_ || _); [done|]. by case_bool_decide. }
    assert (s_counter (interruptAuto (find_auto (iq_turn req) s) ss s).1 = s_counter s).
    { unfold interruptAuto. destruct (find_auto _ s _ ≫= _) as [[id a]|]; [|done]. destruct (au_interrupt a); [done|].
      destruct (_ || _); [done|]. case_bool_decide; [done|]. by destruct (negb ss). }
    destruct (s_phase s); try (by injection H as <- _); destruct (negb _); by rewrite H in *.
  - unfold interrupt_failed. cbn. repeat case_match; by apply live_none.
  - unfold interruptAuto_failed. cbn. repeat case_match; by apply live_none.
  - unfold answer_end. destruct err; by apply live_none.
  - unfold open_begin in H. rewrite !when_Ok in H. destruct H as (_ & _ & [= <-]). by apply live_none.
  - unfold open_end. destruct (s_closing _); cbn [fst]; [by apply live_none|]. case_bool_decide; by apply live_none.
  - unfold close_begin. destruct (s_closing s); by apply live_none.
  - unfold close_finish, stop_timer. destruct un; cbn; destruct (s_gateTimer s); by apply live_none.
Qed.

(** The counted observations of a run have the numbers 1 to [s_counter], and
    the exit is among them once it happened. *)
Definition numbered (tr : list emission) (s : session) : Prop :=
  0 <= s_counter s /\
  em_key <$> List.filter counted tr = (fun k => instance ++ "." ++ Itoa (Z.of_nat k))%string <$> seq 1 (Z.to_nat (s_counter s)) /\
  length (exits tr) = (if s_exited s then 1 else 0)%nat.

Lemma exits_counted l : exits l = exits (List.filter counted l).
Proof.
  unfold exits. induction l as [|e l IH]; [done|]. cbn. unfold counted at 1. destruct (em_kind e) eqn:E; cbn; rewrite ?E; cbn;
    by rewrite IH.
Qed.

Lemma numbered_reachable tr w : steps init tr w -> numbered tr (w_s w).
Proof.
  intros H. remember init as w0. induction H as [|? tr w obs w' Hr IH Hs]; subst; [done|].
  destruct (IH eq_refl) as (H0 & Hk & Hx). clear IH. assert (Hxs : length (exits (tr ++ obs)) = (length (exits tr) + length (exits obs))%nat).
  { unfold exits. by rewrite List.filter_app, length_app. }
  unfold numbered. rewrite Hxs, List.filter_app, fmap_app. clear Hxs. destruct (live_step _ _ _ Hs) as [(F & Hc & He)|(e & F & Hkey & Hc & He)].
  - rewrite F, Hc, He, app_nil_r, (exits_counted obs), F. cbn. by rewrite Nat.add_0_r.
  - rewrite F, Hc, (exits_counted obs), F. split; [lia|]. split.
    + rewrite Z2Nat.inj_add, seq_app, fmap_app, Hk by lia. f_equal. change (Z.to_nat 1) with 1%nat. cbn [seq].
      rewrite list_fmap_singleton. cbn. rewrite Hkey. replace (s_counter (w_s w) + 1) with (Z.of_nat (1 + Z.to_nat (s_counter (w_s w)))) by lia. done.
    + unfold exits at 2. cbn. rewrite Hx. case_bool_decide; [destruct He as [-> ->]|rewrite He]; cbn; lia.
Qed.

(** no two of the observations a Session numbers share a key, as long as
    it made fewer than 2^63 of them: a Host that drops observations whose id it
    has seen drops none of these. *)
Theorem live_keys_distinct tr w (H : steps init tr w) (Hb : s_counter (w_s w) <= MaxInt) :
  NoDup (em_key <$> List.filter counted tr).
Proof.
  destruct (numbered_reachable tr w H) as (H0 & Hk & _). rewrite Hk. apply NoDup_fmap_2_strong; [|apply NoDup_seq].
  intros x y Hx Hy E. apply elem_of_seq in Hx, Hy.
  apply (inj (String.append instance)) in E. injection E as E. apply Itoa_inj in E; lia.
Qed.

(** over every run the exit is reported at most once, and it is reported
    exactly when the Session has recorded it: the Session's lock is let go, and
    Interrupt and Close are told, by the same step. *)
Theorem exit_reported_once tr w (H : steps init tr w) :
  length (exits tr) = (if s_exited (w_s w) then 1 else 0)%nat.
Proof. by destruct (numbered_reachable tr w H) as (_ & _ & Hx). Qed.
End Gate.
