(* ===== verification/SessionRuns.v ===== *)
(** Concrete runs of a Session: an executable scheduler for the transition
    system of SessionProps.v, what Send's errors tell the caller, and the runs
    that show the invariants' hypotheses can hold and where the gate's timer
    does what its comments do not say. *)
From Stdlib Require Import ZArith Ascii String Lia.
From stdpp Require Import base tactics list gmap strings option.
From S2P Require Import Prelude GoStr Json Contract Descriptor Requests Observation SessionState Session SessionProps SessionGate.

#[local] Open Scope string_scope.
#[local] Open Scope Z_scope.
#[local] Open Scope list_scope.

(** ** A scheduler *)

(** Which critical section runs next. *)
Inductive action :=
| AReport (now : Time) (ev : Event)
| AExpire (id : nat)
| AGate (id : nat) (now : Time)
| ASend (in_ : Input)
| ARegister (native : string)
| ASettle (err : option goerr) (freed ex : bool)
| ASendEnd
| AInterrupt (req : InterruptRequest) (selfStarter : bool)
| AOpen
| AAttach (sessionID : string)
| AOpenEnd
| AClose
| ACloseFinish (unopened : bool) (res : CloseResult).

Section Runs.
Variables (desc : Descriptor) (instance : string) (digest16 : string -> string).
Abbreviation step := (SessionProps.step desc instance digest16).
Abbreviation steps := (SessionProps.steps desc instance digest16).

Definition settle_allowed (t : turn) (err : option goerr) (s : session) : bool :=
  match err with
  | Some e => negb (not_reached e) || negb (tn_started t) && negb (bool_decide (s_phase s = PhaseAwaitingAnswer))
  | None => true
  end.

Definition exec1 (a : action) (w : world) : option (list emission * world) :=
  let '(mkWorld s pc) := w in
  let keep (r : session * list emission) := Some (snd r, mkWorld (fst r) pc) in
  match a, pc with
  | AReport now ev, _ => keep (report desc instance digest16 now ev s)
  | AExpire id, _ =>
    if is_none (s_timers s !! id) then None
    else Some ([], mkWorld (set_fired ({[id]} ∪ s_fired s) (set_timers (delete id (s_timers s)) s)) pc)
  | AGate id now, _ =>
    if bool_decide (id ∈ s_fired s) then keep (gate_opens instance now (set_fired (s_fired s ∖ {[id]}) s)) else None
  | ASend in_, _ => match send_begin desc in_ s with Ok s' => Some ([], mkWorld s' (SAdmitted in_)) | Err _ => None end
  | ARegister native, SAdmitted in_ =>
    if negb (native =s? "") && is_none (s_byNative s !! native) then
      let '(s', id) := send_register digest16 (in_id in_) native s in Some ([], mkWorld s' (SSubmitting id))
    else None
  | ASettle err freed ex, SSubmitting id =>
    match s_T s !! id with
    | Some t => if settle_allowed t err s then Some ([], mkWorld (send_settle id t err freed ex s).1 SReturning) else None
    | None => None
    end
  | ASendEnd, SReturning => Some ([], mkWorld (send_end s) SNone)
  | AInterrupt req ss, _ => if s_sending s then None else Some ([], mkWorld (Interrupt req ss s).1 pc)
  | AOpen, _ => match open_begin s with Ok s' => Some ([], mkWorld s' pc) | Err _ => None end
  | AAttach sid, _ => if s_opened s then None else Some ([], mkWorld (open_attach sid s) pc)
  | AOpenEnd, _ => if s_opened s then None else Some ([], mkWorld (open_end desc s).1 pc)
  | AClose, _ => Some ([], mkWorld (close_begin s).1 pc)
  | ACloseFinish un res, _ => if s_closing s then Some ([], mkWorld (close_finish un res s) pc) else None
  | _, _ => None
  end.

Fixpoint exec (l : list action) (tr : list emission) (w : world) : option (list emission * world) :=
  match l with
  | [] => Some (tr, w)
  | a :: l => match exec1 a w with Some (obs, w') => exec l (tr ++ obs) w' | None => None end
  end.

Lemma is_none_false {A} (o : option A) : is_none o = false -> is_Some o.
Proof. destruct o; [by eexists|done]. Qed.

Lemma exec1_sound a w obs w' : exec1 a w = Some (obs, w') -> step w obs w'.
Proof.
  destruct w as [s pc]. unfold exec1. destruct a; try (destruct pc; try done; []).
  - intros [= <- <-]. eapply st_report. apply surjective_pairing.
  - destruct (is_none _) eqn:E; [done|]. intros [= <- <-]. apply st_expire. by apply is_none_false.
  - case_bool_decide; [|done]. intros [= <- <-]. eapply st_gate; [done|apply surjective_pairing].
  - destruct (send_begin desc in_ s) eqn:E; [|done]. intros [= <- <-]. by apply st_send_begin.
  - destruct (negb _) eqn:E1; [|done]. destruct (s_byNative s !! native) eqn:E2; [done|]. cbn. intros [= <- <-].
    eapply st_send_register; [|done|done]. intros ->. done.
  - destruct (s_T s !! id) as [t|] eqn:Et; [|done]. destruct (settle_allowed t err s) eqn:E; [|done]. intros [= <- <-].
    eapply st_send_settle; [done|apply surjective_pairing|]. intros e -> Hn. cbn in E. rewrite Hn in E. cbn in E.
    apply andb_true_iff in E as [E1 E2]. apply negb_true_iff in E1, E2. by apply bool_decide_eq_false in E2.
  - intros [= <- <-]. apply st_send_end.
  - destruct (s_sending s) eqn:E; [done|]. intros [= <- <-]. eapply st_interrupt; [done|apply surjective_pairing].
  - destruct (open_begin s) eqn:E; [|done]. intros [= <- <-]. by apply st_open_begin.
  - destruct (s_opened s) eqn:E; [done|]. intros [= <- <-]. by apply st_open_attach.
  - destruct (s_opened s) eqn:E; [done|]. intros [= <- <-]. by apply st_open_end.
  - intros [= <- <-]. apply st_close_begin.
  - destruct (s_closing s) eqn:E; [|done]. intros [= <- <-]. by apply st_close_finish.
Qed.

Lemma exec_sound l tr w tr' w' w0 : steps w0 tr w -> exec l tr w = Some (tr', w') -> steps w0 tr' w'.
Proof.
  revert tr w. induction l as [|a l IH]; intros tr w Hr; cbn; [by intros [= <- <-]|].
  destruct (exec1 a w) as [[obs w1]|] eqn:E; [|done]. apply IH. by eapply steps_snoc; [|eapply exec1_sound].
Qed.

(** A run that the scheduler completes in a state that passes [P]. *)
Lemma exec_reaches (P : list emission -> world -> bool) l :
  match exec l [] init with Some (tr, w) => P tr w | None => false end = true ->
  exists tr w, steps init tr w /\ P tr w = true.
Proof.
  destruct (exec l [] init) as [[tr w]|] eqn:E; [|done]. intros HP. exists tr, w. split; [|done].
  eapply exec_sound; [apply steps_nil|done].
Qed.

(** ** What Send tells its caller *)

(** Send admits an input exactly when it is valid, the Session is neither
    closing nor already sending, it is idle or on a turn of the harness's own
    that an input may cut short, and its id was not sent; every refusal says
    nothing was submitted. *)
Theorem send_admission in_ s :
  (forall s', send_begin desc in_ s = Ok s' <->
    s' = set_sending true s /\ InputValidate in_ (l_max_input (d_limits desc)) = Ok tt /\
    s_closing s = false /\ s_sending s = false /\ s_turns s !! in_id in_ = None /\
    (s_phase s = PhaseIdle \/
     s_phase s = PhaseBusy /\ s_current s = None /\ s_auto s <> None /\ has desc CapAutonomousTurns = true)) /\
  (forall e, send_begin desc in_ s = Err e -> CertaintyOf (wrap e) = NotSubmitted).
Proof.
  unfold send_begin. split.
  - intros s'. rewrite bind_unit, bind_unit, when_Ok. unfold admitLocked. rewrite !when_Ok.
    assert (Ha : (match s_phase s with
      | PhaseIdle => Ok tt
      | PhaseBusy => if is_none (s_current s) && negb (is_none (s_auto s)) && has desc CapAutonomousTurns then Ok tt else Err (refusal CodeBusy)
      | PhaseAwaitingAnswer => Err (refusal CodePromptPending)
      | PhaseBlocked => Err (refusal CodeBlocked)
      | PhaseExited => Err (refusal CodeExited)
      | _ => Err (refusal CodeUnexpected) end = Ok tt) <->
      (s_phase s = PhaseIdle \/ s_phase s = PhaseBusy /\ s_current s = None /\ s_auto s <> None /\ has desc CapAutonomousTurns = true)).
    { destruct (s_phase s); try (split; [done|intros [?|[? _]]; done]); [split; auto|].
      destruct (s_current s), (s_auto s), (has desc CapAutonomousTurns); cbn; naive_solver. }
    rewrite Ha. destruct (s_turns s !! in_id in_); cbn; split; intros H; decompose [and] H; try discriminate; split_and!; congruence.
  - intros e H. apply bind_Err in H as [H|(a & _ & H)]; [exact (proj1 (InputValidate_refusal _ _ _ H))|].
    unfold admitLocked in H. err_cases H; done.
Qed.

(** what Send returns once Submit did. Its error says nothing was
    submitted exactly when Submit's did, and then the turn is nobody's current
    turn or native id, and its input id is free again when the marker was
    withdrawn; any other error says it may have been, and the turn stays. *)
Theorem send_result id t err freed ex s :
  let '(s', r) := send_settle id t err freed ex s in
  match r with
  | Ok turnID => err = None /\ turnID = tn_turnID t /\ s_current s' = s_current s /\ s_turns s' = s_turns s
  | Err e =>
    exists x, err = Some x /\
    if not_reached x then
      CertaintyOf (wrap e) = NotSubmitted /\ s_current s' <> Some id /\ s_byNative s' !! tn_native t = None /\
      s_turns s' = (if freed then delete (tn_input t) (s_turns s) else s_turns s) /\ s_T s' = s_T s
    else
      CertaintyOf (wrap e) = MaybeSubmitted /\ s_current s' = s_current s /\ s_byNative s' = s_byNative s /\
      s_turns s' = s_turns s /\ e_code e = (if ex then CodeExited else CodeInternal)
  end.
Proof.
  destruct (mark_busy_frame id s) as ((F1 & F2 & _) & _ & F3 & _). unfold send_settle.
  destruct err as [x|]; [|done]. destruct (not_reached x) eqn:E; exists x; rewrite E; [|split_and!; done].
  split; [done|]. unfold send_back. set (s1 := set_byNative _ _). set (s2 := if freed then _ else s1).
  destruct (restLocked_frame s2) as ((R1 & R2 & _) & R3 & R4 & _). rewrite R1, R2, R3, R4.
  assert (Hc : s_current s2 <> Some id) by (unfold s2, s1; destruct freed; cbn; by case_bool_decide).
  split_and!; [done|done|..]; unfold s2, s1; destruct freed; cbn; try (rewrite lookup_delete_eq; done); case_bool_decide; done.
Qed.
End Runs.

(** ** Concrete runs *)

Definition demo_desc (caps : list Capability) : Descriptor :=
  mkDescriptor "1.3" (mkHarness "demo" "" "demo") caps 1 []
    (mkSupport (mkModels true []) [] [] false false [] [] []) (mkLimits 0 1) None None None.
Definition demo_digest (s : string) : string := "0123456789abcdef".
Definition at_ (n : Z) : Time := mkTime n 0.

Definition demo_event (k : EventKind) (native auto : string) (o : TurnOutcome) (e : option TurnError) : Event :=
  mkEvent k native auto None o "" e (mkRetrying 0 0 0 0) None None None "" "" (mkExited ExitClean None "" "") [].
Definition started (native : string) : action := AReport (at_ 0) (demo_event Started native "" TurnCompleted None).
Definition ended (native : string) (o : TurnOutcome) (e : option TurnError) : action :=
  AReport (at_ 0) (demo_event Ended native "" o e).
Definition own_started (auto : string) : action := AReport (at_ 0) (demo_event Started "" auto TurnCompleted None).
Definition own_ended (auto : string) (o : TurnOutcome) (e : option TurnError) : action :=
  AReport (at_ 0) (demo_event Ended "" auto o e).
Definition exited : action := AReport (at_ 0) (demo_event Exited "" "" TurnCompleted None).

Definition opened : list action := [AOpen; AAttach "session"; AOpenEnd].
Definition sent (input native : string) : list action :=
  [ASend (TextInput input "hello"); ARegister native; ASettle None false false; ASendEnd].
Definition limited : option TurnError := Some (mkTurnError ErrorUsageLimit 0 0 (Some (at_ 100))).

Abbreviation demo_steps caps := (SessionProps.steps (demo_desc caps) "i" demo_digest).

Lemma turn_reported_once_witness :
  exists tr w, demo_steps [] init tr w /\ count KindTurnEnded "in1" tr = 1%nat /\ ended_after_started tr.
Proof.
  destruct (exec_reaches (demo_desc []) "i" demo_digest (fun tr _ => bool_decide (count KindTurnEnded "in1" tr = 1%nat))
    (opened ++ sent "in1" "n1" ++ [started "n1"; ended "n1" TurnCompleted None])) as (tr & w & H & HP); [vm_compute; reflexivity|].
  exists tr, w. split; [exact H|]. split; [exact (proj1 (bool_decide_eq_true _) HP)|].
  refine (proj2 (proj2 (proj2 (turn_reported_once (demo_desc []) "i" demo_digest tr w "in1" H _)))). discriminate.
Defined.


Lemma exited_is_terminal_witness :
  exists w obs w', SessionProps.step (demo_desc []) "i" demo_digest w obs w' /\ s_phase (w_s w') = PhaseExited.
Proof.
  set (w := mkWorld (set_phase PhaseExited newSession) SNone).
  exists w, [], (mkWorld (close_begin (w_s w)).1 SNone).
  assert (Hs : SessionProps.step (demo_desc []) "i" demo_digest w [] (mkWorld (close_begin (w_s w)).1 SNone)) by apply st_close_begin.
  split; [exact Hs|]. exact (exited_is_terminal (demo_desc []) "i" demo_digest w [] _ Hs eq_refl).
Defined.

Lemma one_turn_at_a_time_witness :
  exists tr w, demo_steps [] init tr w /\ s_phase (w_s w) = PhaseBusy /\
    exists id t, s_current (w_s w) = Some id /\ s_T (w_s w) !! id = Some t /\ tn_ended t = false.
Proof.
  destruct (exec_reaches (demo_desc []) "i" demo_digest (fun _ w => bool_decide (s_phase (w_s w) = PhaseBusy))
    (opened ++ sent "in1" "n1")) as (tr & w & H & HP); [vm_compute; reflexivity|].
  apply bool_decide_eq_true in HP. exists tr, w. split; [exact H|]. split; [exact HP|].
  exact (proj2 (one_turn_at_a_time (demo_desc []) "i" demo_digest eq_refl eq_refl tr w H) (or_introl HP)).
Defined.

Lemma state_coherent_witness :
  exists tr w, demo_steps [] init tr w /\ s_phase (w_s w) = PhaseBlocked /\ st_block (stateLocked (demo_desc []) (w_s w)) <> None.
Proof.
  destruct (exec_reaches (demo_desc []) "i" demo_digest (fun _ w => bool_decide (s_phase (w_s w) = PhaseBlocked))
    (opened ++ sent "in1" "n1" ++ [ended "n1" TurnErrored limited])) as (tr & w & H & HP); [vm_compute; reflexivity|].
  apply bool_decide_eq_true in HP. exists tr, w. split; [exact H|]. split; [exact HP|].
  exact (proj1 (state_coherent (demo_desc []) "i" demo_digest tr w H) HP).
Defined.

Lemma live_keys_distinct_witness :
  exists tr w, demo_steps [] init tr w /\ s_counter (w_s w) = 2 /\ NoDup (em_key <$> List.filter counted tr).
Proof.
  destruct (exec_reaches (demo_desc []) "i" demo_digest (fun _ w => s_counter (w_s w) =? 2)
    (opened ++ sent "in1" "n1" ++ [ended "n1" TurnErrored limited; exited])) as (tr & w & H & HP); [vm_compute; reflexivity|].
  apply Z.eqb_eq in HP. exists tr, w. split; [exact H|]. split; [exact HP|].
  refine (live_keys_distinct (demo_desc []) "i" demo_digest tr w H _). rewrite HP. discriminate.
Defined.

Lemma exit_reported_once_witness :
  exists tr w, demo_steps [] init tr w /\ s_exited (w_s w) = true /\ length (exits tr) = 1%nat.
Proof.
  destruct (exec_reaches (demo_desc []) "i" demo_digest (fun _ w => s_exited (w_s w)) (opened ++ [exited; exited]))
    as (tr & w & H & HP); [vm_compute; reflexivity|].
  exists tr, w. split; [exact H|]. split; [exact HP|].
  rewrite (exit_reported_once (demo_desc []) "i" demo_digest tr w H), HP. reflexivity.
Defined.

(** ** The gate's timer and the harness's own turns *)

Definition own_turn_runs (s : session) : bool :=
  match s_auto s ≫= fun id => s_A s !! id with Some a => au_started a && negb (au_ended a) | None => false end.
Definition input_turn_runs (s : session) : bool :=
  match s_current s ≫= fun id => s_T s !! id with Some t => tn_started t && negb (tn_ended t) | None => false end.
Definition admits (caps : list Capability) (s : session) : bool :=
  match admitLocked (demo_desc caps) s with Ok _ => true | Err _ => false end.

(** the gate's timer makes a blocked Session idle whatever runs: a
    harness with background_turns alone that took its own work up while the gate
    was closed is on a turn that is not cut short, and the Session is idle and
    admits an input all the same. *)
Theorem gate_timer_ignores_own_turn :
  exists tr w, demo_steps [CapBackgroundTurns] init tr w /\ own_turn_runs (w_s w) = true /\
    s_phase (w_s w) = PhaseIdle /\ admits [CapBackgroundTurns] (w_s w) = true.
Proof.
  destruct (exec_reaches (demo_desc [CapBackgroundTurns]) "i" demo_digest
    (fun _ w => own_turn_runs (w_s w) && (bool_decide (s_phase (w_s w) = PhaseIdle) && admits [CapBackgroundTurns] (w_s w)))
    (opened ++ sent "in1" "n1" ++ [ended "n1" TurnErrored limited; own_started "b1"; AExpire 1; AGate 1 (at_ 100)]))
    as (tr & w & H & HP); [vm_compute; reflexivity|].
  rewrite !andb_true_iff, bool_decide_eq_true in HP. by exists tr, w.
Qed.

(** a gate that no time opens does not stop the timer of the gate before
    it: an account that needs signing in after its usage limit is reported
    unblocked, and its Session admits an input, when the usage limit ends. *)
Theorem stale_timer_opens_auth_gate :
  exists tr w tr' w', demo_steps [CapBackgroundTurns] init tr w /\
    s_gate (w_s w) = Some (mkBlock BlockAuthRequired None) /\ s_timers (w_s w) !! 1%nat = Some (at_ 100) /\
    demo_steps [CapBackgroundTurns] w tr' w' /\ em_kind <$> tr' = [KindUnblocked] /\ s_gate (w_s w') = None /\
    admits [CapBackgroundTurns] (w_s w') = true.
Proof.
  set (l := opened ++ sent "in1" "n1" ++
    [ended "n1" TurnErrored limited; own_started "b1"; own_ended "b1" TurnErrored (Some (mkTurnError ErrorAuth 0 0 None))]).
  destruct (exec (demo_desc [CapBackgroundTurns]) "i" demo_digest l [] init) as [[tr w]|] eqn:E; [|vm_compute in E; discriminate].
  destruct (exec (demo_desc [CapBackgroundTurns]) "i" demo_digest [AExpire 1; AGate 1 (at_ 100)] [] w) as [[tr' w']|] eqn:E'.
  - exists tr, w, tr', w'. split; [by eapply exec_sound; [apply steps_nil|]|]. vm_compute in E. injection E as <- <-.
    split_and!; [done|done|by eapply exec_sound; [apply steps_nil|]|..]; vm_compute in E'; injection E' as <- <-; done.
  - vm_compute in E. injection E as <- <-. vm_compute in E'. discriminate.
Qed.

(** an input admitted while the harness's own turn ends in an error that
    closes the gate runs in a blocked Session; when the gate opens the Session
    is idle and admits a second input while the first one's turn runs. *)
Theorem second_input_admitted_while_one_runs :
  exists tr w, demo_steps [CapAutonomousTurns] init tr w /\ input_turn_runs (w_s w) = true /\
    s_phase (w_s w) = PhaseIdle /\ admits [CapAutonomousTurns] (w_s w) = true.
Proof.
  destruct (exec_reaches (demo_desc [CapAutonomousTurns]) "i" demo_digest
    (fun _ w => input_turn_runs (w_s w) && (bool_decide (s_phase (w_s w) = PhaseIdle) && admits [CapAutonomousTurns] (w_s w)))
    (opened ++ [ASend (TextInput "in1" "hello"); own_started "a1"; own_ended "a1" TurnErrored limited; ARegister "n1";
      started "n1"; ASettle None false false; ASendEnd; AExpire 1; AGate 1 (at_ 100)]))
    as (tr & w & H & HP); [vm_compute; reflexivity|].
  rewrite !andb_true_iff, bool_decide_eq_true in HP. by exists tr, w.
Qed.
