(* ===== verification/Lifecycle.v ===== *)
(** What Open and Close of pkg/adapter/session.go do around their critical
    sections: the locks and processes Open takes and gives back on every path,
    the working directory it checks (checkWorkDir of pkg/adapter/adapter.go),
    and the loop in which Close waits for the Host to acknowledge everything. *)
From Stdlib Require Import ZArith Ascii String Lia.
From stdpp Require Import base tactics list gmap strings option.
From S2P Require Import Prelude GoStr Json Contract Descriptor Layout Requests Observation Cursor Markers SessionState Session SessionRuns.

#[local] Open Scope string_scope.
#[local] Open Scope Z_scope.

(** ** The working directory *)

(** What [os.Lstat] says of a path; [None] is an error. *)
Inductive node := NDir | NSymlink | NOther.

Fixpoint walk_dir (lstat : string -> option node) (p : string) (parts : list string) : bool :=
  match parts with
  | [] => true
  | part :: parts =>
    let p := PathJoin p part in
    match lstat p with
    | Some NDir => walk_dir lstat p parts
    | _ => false
    end
  end.

(** [checkWorkDir(l, dir)]: [true] when it returns nil. *)
Definition checkWorkDir (lstat : string -> option node) (l : Layout) (dir : string) : bool :=
  walk_dir lstat (l_workspace l) (Split slash dir).

Lemma walk_dir_spec lstat ws parts : Forall good_comp ws -> Forall good_comp parts ->
  walk_dir lstat (abs_path ws) parts = true <->
  forall k, (1 <= k <= length parts)%nat -> lstat (abs_path (ws ++ take k parts)%list) = Some NDir.
Proof.
  revert ws. induction parts as [|c parts IH]; intros ws Hw Hp; cbn [walk_dir length].
  - split; [intros _ k Hk; lia|done].
  - apply Forall_cons_iff in Hp as [Hc Hp].
    assert (PathJoin (abs_path ws) c = abs_path (ws ++ [c])%list) as ->.
    { apply (PathJoin_abs ws [c]); [done|by constructor|done]. }
    assert (Hwc : Forall good_comp (ws ++ [c])%list) by (apply Forall_app; split; [done|by apply List.Forall_cons]).
    specialize (IH (ws ++ [c])%list Hwc Hp). split.
    + destruct (lstat (abs_path (ws ++ [c])%list)) as [[| |]|] eqn:E; try done. intros H [|k] Hk; [lia|]. cbn [take].
      destruct k as [|k]; [by rewrite take_0|].
      rewrite (cons_middle c ws), app_assoc. apply IH; [done|lia].
    + intros H. pose proof (H 1%nat ltac:(lia)) as H1. cbn [take] in H1. rewrite take_0 in H1. rewrite H1.
      apply IH. intros k Hk. rewrite <- app_assoc. by apply (H (S k)); lia.
Qed.

(** a working directory Open accepts is reached through directories only:
    for a validated layout and directory, checkWorkDir returns nil exactly when
    every path from the workspace down to the directory is a directory and no
    symbolic link, so the harness runs in the directory the Session names. *)
Theorem checkWorkDir_real lstat l dir
  (Hl : LayoutValidate l = Ok tt) (Hd : CheckWorkDir dir = Ok tt) (Hne : dir <> "") :
  exists ws, l_workspace l = abs_path ws /\
  (checkWorkDir lstat l dir = true <->
   forall k, (1 <= k <= length (comps dir))%nat -> lstat (abs_path (ws ++ take k (comps dir))%list) = Some NDir).
Proof.
  destruct (workdir_parts l dir Hl Hd Hne) as (ws & Hws & Hwg & Hg). exists ws. split; [done|].
  unfold checkWorkDir. rewrite Hws. by apply walk_dir_spec.
Qed.

Definition demo_lstat (p : string) : option node := if p =s? "/w/a" then Some NDir else None.

Lemma checkWorkDir_real_witness :
  exists ws, l_workspace demo_layout = abs_path ws /\
  (checkWorkDir demo_lstat demo_layout "a" = true <->
   forall k, (1 <= k <= length (comps "a"))%nat -> demo_lstat (abs_path (ws ++ take k (comps "a"))%list) = Some NDir).
Proof.
  refine (checkWorkDir_real demo_lstat demo_layout "a" _ _ _); [vm_compute; reflexivity|vm_compute; reflexivity|discriminate].
Defined.

(** ** Open's resources *)

(** What the code Open calls answers: the marker store, the working directory's
    check, the two places it may take the lock, the profile's Start (the
    session id of its transport), whether the harness exited before Open kept
    its lock, and the profile's Record. *)
Record open_env := mkEnv {
  oe_markers : option goerr;
  oe_lstat : string -> option node;
  oe_lock : faults;
  oe_start : result goerr string;
  oe_exited : bool;
  oe_record : option goerr;
}.

(** What Open holds: the locks of the scratch root, whether it asked the profile
    to start the harness, and whether the harness it started is running. *)
Record open_state := mkOpenState { os_held : gset string; os_asked : bool; os_running : bool }.

Inductive open_outcome := OpenFails (err : goerr) | OpenGoesOn (sessionID : string).

Section Open.
Context (digest : string -> string).

Definition config_invalid : goerr := wrap (OpenError OpenConfigInvalid).
Definition not_loaded : goerr := wrap (OpenError OpenSessionNotFound).

(** Open between its first section and its last, by its own steps. [release]
    lets go of a lock Open holds; a nil one it leaves. *)
Definition open_body (e : open_env) (req : OpenRequest) (held : gset string) : open_state * open_outcome :=
  match oe_markers e with
  | Some err => (mkOpenState held false false, OpenFails err)
  | None =>
    if negb (op_workdir req =s? "") && negb (checkWorkDir (oe_lstat e) (op_layout req) (op_workdir req))
    then (mkOpenState held false false, OpenFails config_invalid)
    else
      let given := negb (op_session req =s? "") in
      match (if given then lockSession digest (oe_lock e) (op_session req) held else Ok held) with
      | Err err => (mkOpenState held false false, OpenFails err)
      | Ok held1 =>
        match oe_start e with
        | Err err =>
          (mkOpenState (if given then lock_release digest (op_session req) held1 else held1) true false, OpenFails err)
        | Ok id =>
          let locked := if given then op_session req else id in
          match (if given then Ok held1 else lockSession digest (oe_lock e) id held1) with
          | Err err => (mkOpenState held1 true false, OpenFails err)
          | Ok held2 =>
            if op_loaded req && negb (id =s? op_session req)
            then (mkOpenState (lock_release digest locked held2) true false, OpenFails not_loaded)
            else
              let held3 := if oe_exited e then lock_release digest locked held2 else held2 in
              match oe_record e with
              | Some err => (mkOpenState (lock_release digest locked held3) true false, OpenFails err)
              | None => (mkOpenState held3 true (negb (oe_exited e)), OpenGoesOn id)
              end
          end
        end
      end
  end.

Lemma lock_undo f id held held' : lockSession digest f id held = Ok held' -> lock_release digest id held' = held /\ lockName digest id ∈ held'.
Proof.
  unfold lockSession, lock_release. destruct (f_temp f); [done|]. case_bool_decide as Hin; [done|]. intros [= <-]. split.
  - apply set_eq. intros x. rewrite elem_of_difference, elem_of_union, elem_of_singleton.
    destruct (decide (x = lockName digest id)) as [->|Hx]; split; intros H; try done; [by destruct H|by destruct H as [[?|?] _]|by auto].
  - by apply elem_of_union_l, elem_of_singleton.
Qed.

Lemma lock_release_none id held : lockName digest id ∉ held -> lock_release digest id held = held.
Proof.
  intros H. apply set_eq. intros x. unfold lock_release. rewrite elem_of_difference, elem_of_singleton.
  split; [by intros [? _]|]. intros Hx. split; [done|]. intros ->. done.
Qed.

Lemma lock_release_twice id held : lock_release digest id (lock_release digest id held) = lock_release digest id held.
Proof. apply lock_release_none. unfold lock_release. rewrite elem_of_difference, elem_of_singleton. by intros [_ Hx]. Qed.

End Open.

(** ** Close *)

(** One pass of Close's loop: whether the harness's exit is known, whether
    [settled] says everything was acknowledged, and whether the drain has run
    out. *)
Record poll := mkClosePoll { cp_exited : bool; cp_settled : bool; cp_late : bool }.

(** The loop, and Close's result: [None] while it waits. A Session whose Open
    failed has no transport, and nothing to stop. *)
Fixpoint close_drain (transport : bool) (polls : list poll) : option bool :=
  match polls with
  | [] => None
  | p :: polls =>
    if (negb transport || cp_exited p) && cp_settled p then Some true
    else if cp_late p then Some false
    else close_drain transport polls
  end.

(** [stopped] is what the transport's Stop answered, [None] without one. *)
Definition close_result (stopped : option bool) (polls : list poll) : option CloseResult :=
  (fun drained => mkClose (default true stopped) drained) <$> close_drain (negb (is_none stopped)) polls.

(** Close answers by the time its drain runs out, says drained exactly when
    a pass found the harness exited and everything acknowledged before that,
    and says stopped unless the transport's Stop said otherwise. *)
Theorem close_bounded stopped polls :
  (close_result stopped polls <> None <->
   Exists (fun p => cp_late p = true \/ (is_none stopped || cp_exited p) && cp_settled p = true) polls) /\
  (forall res, close_result stopped polls = Some res ->
     cl_stopped res = default true stopped /\
     (cl_drained res = true <-> exists pre p post, polls = (pre ++ p :: post)%list /\
        Forall (fun q => cp_late q = false) pre /\ (is_none stopped || cp_exited p) && cp_settled p = true)).
Proof.
  unfold close_result. assert (Hn : negb (negb (is_none stopped)) = is_none stopped) by apply negb_involutive.
  set (tr := negb (is_none stopped)) in *. clearbody tr. split.
  - induction polls as [|p polls IH]; cbn [close_drain]; rewrite ?Hn; [split; [done|by intros ?%List.Exists_nil]|].
    rewrite Exists_cons. destruct ((is_none stopped || cp_exited p) && cp_settled p) eqn:E; [cbn; split; [by auto|done]|].
    destruct (cp_late p); [cbn; split; [by auto|done]|]. rewrite IH. split; [by auto|intros [[?|?]|?]; done].
  - intros res H. apply fmap_Some in H as (d & Hd & ->). split; [done|]. cbn [cl_drained]. revert Hd.
    induction polls as [|p polls IH]; cbn [close_drain]; [done|]. rewrite Hn.
    destruct ((is_none stopped || cp_exited p) && cp_settled p) eqn:E.
    + intros [= <-]. split; [|done]. intros _. exists [], p, polls. split_and!; [done|constructor|done].
    + destruct (cp_late p) eqn:El.
      * intros [= <-]. split; [done|]. intros ([|q pre] & p' & post & [= -> ->] & Hf & Hx); [congruence|].
        apply Forall_cons_iff in Hf as [Hq _]. congruence.
      * intros Hd. rewrite (IH Hd). split.
        -- intros (pre & p' & post & -> & Hf & Hx). exists (p :: pre), p', post. split_and!; [done|by constructor|done].
        -- intros ([|q pre] & p' & post & [= -> ->] & Hf & Hx); [congruence|]. apply Forall_cons_iff in Hf as [_ Hf].
           by exists pre, p', post.
Qed.

(** ** What Close's drained says of the observations reported *)

(** The Session beside its log: report takes an event under the Session's
    lock, and pushes what it observed to the log after it let the lock go. *)
Record delivery (C : Type) := mkDelivery { dv_s : session; dv_log : C; dv_unpushed : list (list Observation) }.
Arguments mkDelivery {C} _ _ _.
Arguments dv_s {C} _.
Arguments dv_log {C} _.
Arguments dv_unpushed {C} _.

Section Delivery.
Variables (desc : Descriptor) (instance : string) (digest16 : string -> string).
Context {C L : Type} `{ObservationLogLaws C L}.

Inductive dstep : delivery C -> list Observation -> list L -> delivery C -> Prop :=
| d_report now ev s s' obs os c un :
    report desc instance digest16 now ev s = (s', obs) -> mapM observation_of obs = Some os ->
    dstep (mkDelivery s c un) os [] (mkDelivery s' c (un ++ [os])%list)
| d_push s c os un :
    dstep (mkDelivery s c (os :: un)) [] [log_pushed os] (mkDelivery s (log_push os c) un)
| d_log s c l c' un :
    log_step c l c' -> dstep (mkDelivery s c un) [] [l] (mkDelivery s c' un).

Inductive dsteps : list Observation -> list L -> delivery C -> Prop :=
| dsteps_nil : dsteps [] [] (mkDelivery newSession log_new [])
| dsteps_snoc os tr d os1 l d' :
    dsteps os tr d -> dstep d os1 l d' -> dsteps (os ++ os1)%list (tr ++ l)%list d'.

(** What was reported is in the log, or waits to be pushed. *)
Lemma delivery_inv os tr d : dsteps os tr d ->
  log_run tr (dv_log d) /\
  forall o, o ∈ os -> log_kept o ∈ concat (map log_learned tr) \/ o ∈ concat (dv_unpushed d).
Proof.
  induction 1 as [|os tr d os1 l d' _ [Hc Hos] Hs].
  - split; [apply log_run_nil|]. by intros o ?%elem_of_nil.
  - setoid_rewrite elem_of_app. setoid_rewrite map_app. setoid_rewrite concat_app. setoid_rewrite elem_of_app.
    destruct Hs as [now ev s s' obs os1 c un _ _|s c os1 un|s c l c' un Hl]; cbn in Hc, Hos |- *.
    + rewrite app_nil_r. split; [done|]. rewrite concat_app. cbn. rewrite app_nil_r. setoid_rewrite elem_of_app.
      intros o [Ho|Ho]; [destruct (Hos o Ho)|]; auto.
    + split; [eapply log_run_snoc; [done|apply log_push_step]|]. intros o [Ho|Ho]; [|by apply elem_of_nil in Ho].
      destruct (Hos o Ho) as [?|Hu]; [by auto|]. apply elem_of_app in Hu as [Hu|?]; [|by auto].
      left. right. rewrite app_nil_r, log_push_learned. by apply list_elem_of_In, in_map, list_elem_of_In.
    + split; [by eapply log_run_snoc|]. intros o [Ho|Ho]; [destruct (Hos o Ho); auto|by apply elem_of_nil in Ho].
Qed.

(** Against the log's promise alone: a settled log, with nothing left to push,
    has had everything reported acknowledged. *)
Lemma reported_acknowledged os tr d : dsteps os tr d -> concat (dv_unpushed d) = [] -> log_settled (dv_log d) ->
  forall o, o ∈ os -> log_kept o ∈ concat (map log_acked tr).
Proof.
  intros Hd Hu Hs o Ho. destruct (delivery_inv os tr d Hd) as [Hc Hos].
  rewrite <- (log_settled_acked tr _ Hc Hs). destruct (Hos o Ho) as [?|Hx]; [done|]. rewrite Hu in Hx. by apply elem_of_nil in Hx.
Qed.
End Delivery.


(** ** Concrete runs *)

Definition demo_exit : Event := demo_event Exited "" "" TurnCompleted None.
Definition demo_reported : session * list emission := report (demo_desc []) "i" demo_digest (at_ 0) demo_exit newSession.
Definition demo_exit_obs : list Observation := default [] (mapM observation_of demo_reported.2).
Definition demo_pushed : cursor := push demo_exit_obs (newCursor false).
Definition demo_built : cursor * result Error Batch := buildLocked MaxObserveBytes demo_pushed.
Definition demo_exit_batch : Batch := match demo_built.2 with Ok b => b | Err _ => empty_batch false end.
Definition demo_acked := ack (b_id demo_exit_batch) demo_built.1.
Definition demo_commit := match demo_acked.2 with Ok c => c | Err _ => None end.
Abbreviation demo_dsteps := (dsteps (C := cursor) (L := Cursor.label) (demo_desc []) "i" demo_digest).

Lemma demo_exit_reported : demo_dsteps demo_exit_obs [] (mkDelivery demo_reported.1 (newCursor false) [demo_exit_obs]).
Proof.
  apply (dsteps_snoc _ _ _ [] [] (mkDelivery newSession (newCursor false) [])); [apply dsteps_nil|].
  apply (d_report (C := cursor) (L := Cursor.label) _ _ _ (at_ 0) demo_exit newSession demo_reported.1 demo_reported.2 demo_exit_obs (newCursor false) []);
    vm_compute; reflexivity.
Qed.

Lemma demo_exit_pushed : demo_dsteps demo_exit_obs [LPush demo_exit_obs] (mkDelivery demo_reported.1 demo_pushed []).
Proof.
  rewrite <- (app_nil_r demo_exit_obs) at 1.
  eapply (dsteps_snoc _ _ _ demo_exit_obs [] _ [] [LPush demo_exit_obs]); [apply demo_exit_reported|apply d_push].
Qed.

Lemma demo_exit_built : demo_dsteps demo_exit_obs [LPush demo_exit_obs; LBuild demo_built.2]
  (mkDelivery demo_reported.1 demo_built.1 []).
Proof.
  rewrite <- (app_nil_r demo_exit_obs) at 1.
  eapply (dsteps_snoc _ _ _ demo_exit_obs [LPush demo_exit_obs] _ [] [LBuild demo_built.2]); [apply demo_exit_pushed|].
  apply d_log, (step_build MaxObserveBytes); [apply surjective_pairing|split; vm_compute; discriminate|vm_compute; reflexivity].
Qed.

Lemma demo_exit_acked : demo_dsteps demo_exit_obs
  [LPush demo_exit_obs; LBuild demo_built.2; LAcked demo_exit_batch demo_commit] (mkDelivery demo_reported.1 demo_acked.1 []).
Proof.
  rewrite <- (app_nil_r demo_exit_obs) at 1.
  eapply (dsteps_snoc _ _ _ demo_exit_obs [LPush demo_exit_obs; LBuild demo_built.2] _ [] [LAcked demo_exit_batch demo_commit]);
    [apply demo_exit_built|].
  apply d_log, step_ack; vm_compute; reflexivity.
Qed.


(** Close can say drained before the exit is delivered: report closes [exited]
    under the Session's lock and pushes session_exited after it let the lock go,
    so a pass of Close's loop in between finds the harness exited and the cursor
    settled, and answers drained while the exit is still to be pushed. *)
Theorem drained_before_exit_pushed :
  exists d, demo_dsteps demo_exit_obs [] d /\ s_exited (dv_s d) = true /\
    settled None (dv_log d) = (dv_log d, true) /\ dv_unpushed d = [demo_exit_obs] /\
    o_kind <$> demo_exit_obs = [KindSessionExited] /\
    close_result (Some true) [mkClosePoll (s_exited (dv_s d)) (settled None (dv_log d)).2 false] = Some (mkClose true true).
Proof.
  exists (mkDelivery demo_reported.1 (newCursor false) [demo_exit_obs]). split; [apply demo_exit_reported|].
  split_and!; vm_compute; reflexivity.
Qed.
