(* ===== verification/Bytes.v ===== *)
(** Byte slices: the part of package [bytes] the stream code uses, and the
    lines of a byte stream. A Go [[]byte] is a [list ascii]; indexing functions
    return [None] where Go's return -1. *)
From Stdlib Require Import ZArith Ascii String Lia.
From stdpp Require Import base tactics list strings option.
From S2P Require Import Prelude GoStr.

#[local] Open Scope Z_scope.

Definition nl : ascii := "010"%char.
Definition cr : ascii := "013"%char.

(** [string(b)]. *)
Definition str (b : list ascii) : string := string_of_list_ascii b.

(** [bytes.IndexByte]. *)
Fixpoint IndexByte (b : list ascii) (c : ascii) : option nat :=
  match b with
  | [] => None
  | a :: b' => if Ascii.eqb a c then Some 0%nat else S <$> IndexByte b' c
  end.

(** [bytes.LastIndexByte]. *)
Fixpoint LastIndexByte (b : list ascii) (c : ascii) : option nat :=
  match b with
  | [] => None
  | a :: b' =>
    match LastIndexByte b' c with
    | Some i => Some (S i)
    | None => if Ascii.eqb a c then Some 0%nat else None
    end
  end.

(** [bytes.TrimSuffix] of a one-byte suffix. *)
Definition TrimSuffix (b : list ascii) (c : ascii) : list ascii :=
  match list.last b with
  | Some a => if Ascii.eqb a c then take (length b - 1) b else b
  | None => b
  end.

(** [unicode.IsSpace]. *)
Definition IsSpace (r : Z) : bool :=
  in_range 9 13 r || (r =? 32) || (r =? 133) || (r =? 160) || (r =? 5760)
  || in_range 8192 8202 r || (r =? 8232) || (r =? 8233) || (r =? 8239) || (r =? 8287) || (r =? 12288).

(** [len(bytes.TrimSpace(b)) == 0]: every rune is white space. *)
Definition blank (b : list ascii) : bool := forallb IsSpace (runes (str b)).

(** The UTF-8 encodings of the white space runes. *)
Definition space_encodings : list (list Z) :=
  [[9]; [10]; [11]; [12]; [13]; [32]; [194; 133]; [194; 160]; [225; 154; 128];
   [226; 128; 128]; [226; 128; 129]; [226; 128; 130]; [226; 128; 131]; [226; 128; 132]; [226; 128; 133];
   [226; 128; 134]; [226; 128; 135]; [226; 128; 136]; [226; 128; 137]; [226; 128; 138];
   [226; 128; 168]; [226; 128; 169]; [226; 128; 175]; [226; 129; 159]; [227; 128; 128]].

(** Drop one of [seps] from the front of [bs], as often as there is one. *)
Fixpoint strip (fuel : nat) (seps : list (list Z)) (bs : list Z) : list Z :=
  match fuel with
  | O => bs
  | S fuel =>
    match List.find (fun sp => bool_decide (take (length sp) bs = sp)) seps with
    | Some sp => strip fuel seps (drop (length sp) bs)
    | None => bs
    end
  end.

Definition string_of_bytes (bs : list Z) : string :=
  string_of_list_ascii (map (fun b => ascii_of_N (Z.to_N b)) bs).

(** [strings.TrimSpace]: the white space runes at either end. *)
Definition TrimSpace (s : string) : string :=
  let bs := bytes s in
  let l := strip (length bs) space_encodings bs in
  string_of_bytes (rev (strip (length l) (map (@rev Z) space_encodings) (rev l))).

(** ** Index lemmas *)

Lemma IndexByte_Some b c i :
  IndexByte b c = Some i -> b = take i b ++ c :: drop (S i) b /\ c ∉ take i b.
Proof.
  revert i. induction b as [|a b IH]; intros i; cbn; [done|].
  destruct (Ascii.eqb_spec a c) as [->|Hne].
  - intros [= <-]. split; [done|]. apply not_elem_of_nil.
  - destruct (IndexByte b c) as [j|] eqn:E; [|done]. intros [= <-].
    destruct (IH j eq_refl) as [Hb Hn]. cbn. split; [by f_equal|].
    rewrite elem_of_cons. intros [->|?]; done.
Qed.

Lemma IndexByte_None b c : IndexByte b c = None <-> c ∉ b.
Proof.
  induction b as [|a b IH]; cbn; [split; [intros _; apply not_elem_of_nil|done]|].
  rewrite elem_of_cons. destruct (Ascii.eqb_spec a c) as [->|Hne]; [naive_solver|].
  destruct (IndexByte b c); cbn; [|naive_solver]. split; [done|]. intros Hn.
  destruct IH as [_ IH]. discriminate IH. naive_solver.
Qed.

Lemma IndexByte_lt b c i : IndexByte b c = Some i -> (i < length b)%nat.
Proof.
  intros H. apply IndexByte_Some in H as [Hb _]. apply (f_equal length) in Hb.
  rewrite length_app, length_take in Hb. cbn in Hb. lia.
Qed.

Lemma IndexByte_app b c t : c ∉ b -> IndexByte (b ++ c :: t) c = Some (length b).
Proof.
  induction b as [|a b IH]; cbn; [by rewrite Ascii.eqb_refl|].
  rewrite not_elem_of_cons. intros [Hne Hn]. destruct (Ascii.eqb_spec a c); [congruence|].
  by rewrite IH.
Qed.

Lemma LastIndexByte_None b c : LastIndexByte b c = None <-> c ∉ b.
Proof.
  induction b as [|a b IH]; cbn; [split; [intros _; apply not_elem_of_nil|done]|].
  rewrite elem_of_cons. destruct (LastIndexByte b c) as [i|].
  - split; [done|]. intros Hn. destruct IH as [_ IH]. discriminate IH. naive_solver.
  - destruct (Ascii.eqb_spec a c); naive_solver.
Qed.

Lemma LastIndexByte_Some b c i :
  LastIndexByte b c = Some i -> b = take i b ++ c :: drop (S i) b /\ c ∉ drop (S i) b.
Proof.
  revert i. induction b as [|a b IH]; intros i; cbn; [done|].
  destruct (LastIndexByte b c) as [j|] eqn:E.
  - intros [= <-]. destruct (IH j eq_refl) as [Hb Hn]. cbn. split; [by f_equal|done].
  - destruct (Ascii.eqb_spec a c) as [->|]; [|done]. intros [= <-]. cbn.
    rewrite drop_0. split; [done|]. by apply LastIndexByte_None.
Qed.

Lemma LastIndexByte_lt b c i : LastIndexByte b c = Some i -> (i < length b)%nat.
Proof.
  intros H. apply LastIndexByte_Some in H as [Hb _]. apply (f_equal length) in Hb.
  rewrite length_app, length_take in Hb. cbn in Hb. lia.
Qed.

Lemma LastIndexByte_app b c t : c ∉ t -> LastIndexByte (b ++ c :: t) c = Some (length b).
Proof.
  intros Ht. induction b as [|a b IH]; cbn.
  - apply LastIndexByte_None in Ht. by rewrite Ht, Ascii.eqb_refl.
  - by rewrite IH.
Qed.

(** ** Lines *)

(** The complete lines of a stream, without their newlines, and what follows
    the last newline. *)
Fixpoint split_lines (b : list ascii) : list (list ascii) * list ascii :=
  match b with
  | [] => ([], [])
  | c :: b' =>
    let '(ls, r) := split_lines b' in
    if Ascii.eqb c nl then ([] :: ls, r)
    else match ls with
         | [] => ([], c :: r)
         | h :: t => ((c :: h) :: t, r)
         end
  end.

Definition lines (b : list ascii) : list (list ascii) := (split_lines b).1.
Definition partial (b : list ascii) : list ascii := (split_lines b).2.

(** The bytes of complete lines. *)
Definition unlines (ls : list (list ascii)) : list ascii := flat_map (fun l => l ++ [nl]) ls.

Lemma split_lines_none b : nl ∉ b -> split_lines b = ([], b).
Proof.
  induction b as [|c b IH]; cbn; [done|]. rewrite not_elem_of_cons. intros [Hne Hn].
  rewrite IH by done. destruct (Ascii.eqb_spec c nl); [congruence|done].
Qed.

Lemma split_lines_cons h t : nl ∉ h ->
  split_lines (h ++ nl :: t) = (h :: lines t, partial t).
Proof.
  unfold lines, partial. induction h as [|c h IH]; cbn.
  - destruct (split_lines t); done.
  - rewrite not_elem_of_cons. intros [Hne Hn]. rewrite IH by done.
    destruct (Ascii.eqb_spec c nl); [congruence|done].
Qed.

Lemma split_lines_join b : b = unlines (lines b) ++ partial b.
Proof.
  unfold lines, partial. induction b as [|c b IH]; [done|]. cbn.
  destruct (split_lines b) as [ls r]. cbn in IH.
  destruct (Ascii.eqb_spec c nl) as [->|]; cbn; [by f_equal|].
  destruct ls as [|h t]; cbn in *; by f_equal.
Qed.

Lemma lines_no_nl b : Forall (fun l => nl ∉ l) (lines b).
Proof.
  unfold lines. induction b as [|c b IH]; cbn; [constructor|].
  destruct (split_lines b) as [ls r]. cbn in IH.
  destruct (Ascii.eqb_spec c nl) as [->|]; cbn; [constructor; [apply not_elem_of_nil|done]|].
  destruct ls as [|h t]; cbn; [constructor|]. apply Forall_cons_iff in IH as [Hh Ht].
  constructor; [|done]. rewrite not_elem_of_cons. split; [congruence|done].
Qed.

Lemma partial_no_nl b : nl ∉ partial b.
Proof.
  unfold partial. induction b as [|c b IH]; cbn; [apply not_elem_of_nil|].
  destruct (split_lines b) as [ls r]. cbn in IH.
  destruct (Ascii.eqb_spec c nl) as [->|]; cbn; [done|].
  destruct ls as [|h t]; cbn; [|done]. rewrite not_elem_of_cons. split; [congruence|done].
Qed.

Lemma unlines_cons h ls : unlines (h :: ls) = h ++ nl :: unlines ls.
Proof. unfold unlines. cbn [flat_map]. by rewrite <- app_assoc. Qed.

(** Splitting is incremental: the partial line is all a reader keeps. *)
Lemma split_lines_unlines ls t : Forall (fun l => nl ∉ l) ls ->
  split_lines (unlines ls ++ t) = (ls ++ lines t, partial t).
Proof.
  induction ls as [|h ls IH]; [intros _; cbn; unfold lines, partial; by destruct (split_lines t)|].
  intros [Hh Hl]%Forall_cons_iff. rewrite unlines_cons, <- app_assoc. cbn [app].
  rewrite split_lines_cons by done. unfold lines at 1, partial at 1. by rewrite IH.
Qed.

Lemma lines_app a b : lines (a ++ b) = lines a ++ lines (partial a ++ b).
Proof.
  rewrite (split_lines_join a) at 1. rewrite <- app_assoc. unfold lines at 1.
  rewrite split_lines_unlines; [done|apply lines_no_nl].
Qed.

Lemma partial_app a b : partial (a ++ b) = partial (partial a ++ b).
Proof.
  rewrite (split_lines_join a) at 1. rewrite <- app_assoc. unfold partial at 1.
  rewrite split_lines_unlines; [done|apply lines_no_nl].
Qed.

Lemma lines_unlines ls : Forall (fun l => nl ∉ l) ls -> lines (unlines ls) = ls.
Proof.
  intros H. unfold lines. rewrite <- (app_nil_r (unlines ls)), split_lines_unlines by done.
  apply app_nil_r.
Qed.

Lemma unlines_app l1 l2 : unlines (l1 ++ l2) = unlines l1 ++ unlines l2.
Proof. apply flat_map_app. Qed.

(** ** The end of a list *)

(** The last [n] elements. *)
Definition lastn {A} (n : nat) (l : list A) : list A := drop (length l - n) l.

Lemma length_lastn {A} n (l : list A) : length (lastn n l) = Nat.min n (length l).
Proof. unfold lastn. rewrite length_drop. lia. Qed.

Lemma lastn_all {A} n (l : list A) : (length l <= n)%nat -> lastn n l = l.
Proof. intros H. unfold lastn. replace (length l - n)%nat with 0%nat by lia. apply drop_0. Qed.

Lemma lastn_app_short {A} n (a b : list A) : (n <= length b)%nat -> lastn n (a ++ b) = lastn n b.
Proof.
  intros H. unfold lastn. rewrite length_app, drop_app_ge by lia. f_equal. lia.
Qed.

(** Keeping the last [n] as a stream grows loses nothing the end needs. *)
Lemma lastn_lastn_app {A} n (a b : list A) : lastn n (lastn n a ++ b) = lastn n (a ++ b).
Proof.
  unfold lastn. rewrite !length_app, length_drop.
  destruct (decide (length b <= n)%nat).
  - rewrite !drop_app, drop_drop, length_drop. f_equal; f_equal; lia.
  - rewrite !drop_app_ge by (rewrite ?length_drop; lia). rewrite length_drop. f_equal. lia.
Qed.
