(* ===== verification/Streams.v ===== *)
(** The byte streams between a harness and the wrapper: the CSI filter in
    front of the terminal emulator (src/pkg/screen/csifilter.go), the durable
    line tap (src/internal/wrapcore/linetap.go), the window of recent output
    (src/internal/wrapcore/recent_output.go) and a stream child's stderr tail
    (src/internal/chatcore/stream.go).

    Each keeps a bounded carry between writes. The theorems compare what the
    carrying code does, write by write, with a reference on the whole stream:
    a byte-at-a-time automaton for the filter, [Bytes.split_lines] for the tap,
    the last bytes of everything written for the windows. *)
From Stdlib Require Import ZArith Ascii String Lia.
From stdpp Require Import base tactics list strings option.
From S2P Require Import Prelude GoStr Bytes.

#[local] Open Scope Z_scope.
#[local] Open Scope list_scope.

(** ** The CSI filter *)

Module Csi.

Definition ESC : ascii := "027"%char.

Record csiFilter := { pending : list ascii }.

Definition csiMax : Z := 64.

Definition dropCSI (params : list ascii) (final : ascii) : bool :=
  match params with
  | [] => false
  | p :: _ =>
    if Ascii.eqb p "<" || Ascii.eqb p "=" || Ascii.eqb p ">" then true
    else if Ascii.eqb p "?" then Ascii.eqb final "u"
    else false
  end.

Definition csi_param (c : ascii) : bool := in_range 32 63 (code c).
Definition csi_final (c : ascii) : bool := in_range 64 126 (code c).

(** [for j < len(in) && in[j] >= 0x20 && in[j] <= 0x3F]: the bytes the loop
    passes and the rest. *)
Fixpoint span (f : ascii -> bool) (l : list ascii) : list ascii * list ascii :=
  match l with
  | [] => ([], [])
  | c :: l' => if f c then let '(a, b) := span f l' in (c :: a, b) else ([], l)
  end.

(** The loop of [filter] from index i, on [in[i:]]: what it appends to [out],
    and what it leaves pending. *)
Fixpoint filter_loop (fuel : nat) (inp : list ascii) : list ascii * list ascii :=
  match fuel with
  | O => ([], [])
  | S fuel =>
    match inp with
    | [] => ([], [])
    | c :: t =>
      if negb (Ascii.eqb c ESC) then
        let '(out, p) := filter_loop fuel t in (c :: out, p)
      else
        match t with
        | [] => ([], inp)
        | d :: t2 =>
          if negb (Ascii.eqb d "[") then
            let '(out, p) := filter_loop fuel t in (c :: out, p)
          else
            let '(params, r) := span csi_param t2 in
            match r with
            | [] => if llen inp <=? csiMax then ([], inp) else (inp, [])
            | final :: r' =>
              if negb (csi_final final) then
                let '(out, p) := filter_loop fuel t in (c :: out, p)
              else if dropCSI params final then filter_loop fuel r'
              else
                let '(out, p) := filter_loop fuel r' in
                (c :: d :: params ++ final :: out, p)
            end
        end
    end
  end.

Definition filter (f : csiFilter) (p : list ascii) : list ascii * csiFilter :=
  let inp := f.(pending) ++ p in
  let '(out, held) := filter_loop (S (length inp)) inp in
  (out, {| pending := held |}).

(** A stream's writes, in order. *)
Fixpoint writes (f : csiFilter) (ps : list (list ascii)) : list ascii * csiFilter :=
  match ps with
  | [] => ([], f)
  | p :: ps =>
    let '(o1, f1) := filter f p in
    let '(o2, f2) := writes f1 ps in
    (o1 ++ o2, f2)
  end.

Definition newFilter : csiFilter := {| pending := [] |}.

(** *** Reference: a byte-at-a-time automaton *)

Inductive state := Ground | Esc | Csi (params : list ascii).

(** The bytes an automaton has read and not yet passed or dropped. *)
Definition held (s : state) : list ascii :=
  match s with
  | Ground => []
  | Esc => [ESC]
  | Csi ps => ESC :: "["%char :: ps
  end.

Definition ground (c : ascii) : list ascii * state :=
  if Ascii.eqb c ESC then ([], Esc) else ([c], Ground).

Definition next (s : state) (c : ascii) : list ascii * state :=
  match s with
  | Ground => ground c
  | Esc =>
    if Ascii.eqb c "[" then ([], Csi [])
    else let '(o, s') := ground c in (ESC :: o, s')
  | Csi ps =>
    if csi_param c then ([], Csi (ps ++ [c]))
    else if csi_final c then
      (if dropCSI ps c then [] else held s ++ [c], Ground)
    else let '(o, s') := ground c in (held s ++ o, s')
  end.

Fixpoint run (s : state) (l : list ascii) : list ascii * state :=
  match l with
  | [] => ([], s)
  | c :: l =>
    let '(o1, s1) := next s c in
    let '(o2, s2) := run s1 l in
    (o1 ++ o2, s2)
  end.

(** What the automaton has passed and where it stands after a stream. *)
Definition passed (l : list ascii) : list ascii := (run Ground l).1.
Definition reached (l : list ascii) : state := (run Ground l).2.

(** *** The two agree on one write *)

Lemma run_app s a b :
  run s (a ++ b) = let '(o1, s1) := run s a in let '(o2, s2) := run s1 b in (o1 ++ o2, s2).
Proof.
  revert s. induction a as [|c a IH]; intros s; cbn; [by destruct (run s b)|].
  destruct (next s c) as [o1 s1]. rewrite IH. destruct (run s1 a) as [o2 s2].
  destruct (run s2 b) as [o3 s3]. by rewrite app_assoc.
Qed.

Lemma run_params ps qs :
  Forall (fun c => csi_param c = true) qs -> run (Csi ps) qs = ([], Csi (ps ++ qs)).
Proof.
  revert ps. induction qs as [|c qs IH]; intros ps; cbn; [by rewrite app_nil_r|].
  intros [Hc Hq]%Forall_cons_iff. rewrite Hc. rewrite IH by done. by rewrite <- app_assoc.
Qed.

Definition wf (s : state) : Prop :=
  match s with Csi ps => Forall (fun c => csi_param c = true) ps | _ => True end.

(** The bytes held bring the automaton back to where it stands. *)
Lemma run_held s : wf s -> run Ground (held s) = ([], s).
Proof. destruct s as [| |ps]; intros H; [done..|]. cbn. by rewrite (run_params [] ps). Qed.

Lemma run_resume s l : wf s -> run Ground (held s ++ l) = run s l.
Proof. intros H. rewrite run_app, run_held by done. by destruct (run s l). Qed.

Lemma next_wf s c : wf s -> wf (next s c).2.
Proof.
  unfold next, ground. intros H. destruct s as [| |ps]; repeat case_match; cbn in *; simplify_eq; try done.
  apply Forall_app. auto.
Qed.

Lemma run_wf s l : wf s -> wf (run s l).2.
Proof.
  revert s. induction l as [|c l IH]; intros s H; cbn; [done|].
  apply (next_wf _ c) in H. destruct (next s c) as [o1 s1]. cbn in H.
  apply IH in H. by destruct (run s1 l).
Qed.

Lemma span_spec f l a b : span f l = (a, b) ->
  l = a ++ b /\ Forall (fun c => f c = true) a /\
  match b with [] => True | c :: _ => f c = false end.
Proof.
  revert a b. induction l as [|c l IH]; intros a b; cbn; [intros [= <- <-]; by repeat constructor|].
  destruct (f c) eqn:Hc; [|intros [= <- <-]; by repeat constructor].
  destruct (span f l) as [a' b'] eqn:Hs. intros [= <- <-].
  destruct (IH a' b' eq_refl) as (-> & Ha & Hb). by repeat constructor.
Qed.

Lemma param_not_esc c : csi_param c = true -> Ascii.eqb c ESC = false.
Proof.
  intros H. apply Ascii.eqb_neq. intros ->. discriminate H.
Qed.

(** Bytes other than ESC pass from the ground state as they are. *)
Lemma run_plain l t : Forall (fun c => Ascii.eqb c ESC = false) l ->
  run Ground (l ++ t) = let '(o, s) := run Ground t in (l ++ o, s).
Proof.
  induction l as [|c l IH]; cbn; [intros _; by destruct (run Ground t)|].
  intros [Hc Hl]%Forall_cons_iff. unfold ground. rewrite Hc, IH by done.
  by destruct (run Ground t).
Qed.

(** How one write ends: what is held is kept, or passed on when it is longer
    than [csiMax]. *)
Definition end_of_write (o : list ascii) (s : state) : list ascii * list ascii :=
  if llen (held s) <=? csiMax then (o, held s) else (o ++ held s, []).

Lemma end_of_write_cons a o s :
  end_of_write (a ++ o) s = let '(x, p) := end_of_write o s in (a ++ x, p).
Proof. unfold end_of_write. case_match; [done|]. by rewrite <- app_assoc. Qed.

(** A sequence whose last byte is no final byte is passed from its ESC on. *)
Lemma run_malformed ps final r :
  Forall (fun c => csi_param c = true) ps -> csi_param final = false -> csi_final final = false ->
  run Ground (ESC :: "["%char :: ps ++ final :: r) =
    let '(o, s) := run Ground ("["%char :: ps ++ final :: r) in (ESC :: o, s).
Proof.
  intros Hp Hn Hf.
  change (ESC :: "["%char :: ps ++ final :: r) with (held (Csi ps) ++ final :: r).
  change ("["%char :: ps ++ final :: r) with (("["%char :: ps) ++ final :: r).
  rewrite run_resume by done. rewrite run_plain.
  - cbn. rewrite Hn, Hf. destruct (ground final) as [o1 s1]. destruct (run s1 r) as [o2 s2]. cbn. by rewrite <- app_assoc.
  - constructor; [done|]. eapply Forall_impl; [apply param_not_esc|exact Hp].
Qed.

Lemma run_wellformed ps final r :
  Forall (fun c => csi_param c = true) ps -> csi_param final = false -> csi_final final = true ->
  run Ground (ESC :: "["%char :: ps ++ final :: r) =
    let '(o, s) := run Ground r in
    ((if dropCSI ps final then [] else held (Csi ps) ++ [final]) ++ o, s).
Proof.
  intros Hp Hn Hf.
  change (ESC :: "["%char :: ps ++ final :: r) with (held (Csi ps) ++ final :: r).
  rewrite run_resume by done. cbn [run next]. rewrite Hn, Hf. by destruct (run Ground r).
Qed.

Lemma run_esc_other d t : Ascii.eqb d "[" = false ->
  run Ground (ESC :: d :: t) = let '(o, s) := run Ground (d :: t) in (ESC :: o, s).
Proof.
  intros Hd. cbn. rewrite Hd. destruct (ground d) as [o1 s1]. by destruct (run s1 t).
Qed.

Lemma final_not_param c : csi_final c = true -> csi_param c = false.
Proof.
  unfold csi_final, csi_param, in_range. intros H. bprop.
  apply andb_false_iff. right. apply Z.leb_gt. lia.
Qed.

Lemma filter_loop_run fuel : forall inp, (length inp < fuel)%nat ->
  filter_loop fuel inp = end_of_write (passed inp) (reached inp).
Proof.
  unfold passed, reached.
  induction fuel as [|fuel IH]; intros inp Hf; [lia|].
  destruct inp as [|c t]; [done|]. cbn [length] in Hf. cbn [filter_loop].
  destruct (Ascii.eqb_spec c ESC) as [->|Hc]; cbn [negb].
  2: { apply Ascii.eqb_neq in Hc. rewrite (IH t) by lia. cbn. unfold ground. rewrite Hc.
       destruct (run Ground t) as [o s]. cbn. by rewrite <- (end_of_write_cons [c]). }
  destruct t as [|d t2]; [done|]. cbn [length] in Hf.
  destruct (Ascii.eqb_spec d "[") as [->|Hd]; cbn [negb].
  2: { apply Ascii.eqb_neq in Hd. rewrite run_esc_other by done. rewrite (IH (d :: t2)) by (cbn; lia).
       destruct (run Ground (d :: t2)) as [o s]. cbn. by rewrite <- (end_of_write_cons [ESC]). }
  destruct (span csi_param t2) as [ps r] eqn:Hs.
  destruct (span_spec _ _ _ _ Hs) as (-> & Hp & Hr).
  destruct r as [|final r'].
  { rewrite app_nil_r. pose proof (run_held (Csi ps) Hp) as Hh. cbn [held] in Hh. rewrite Hh. done. }
  rewrite length_app in Hf. cbn [length] in Hf.
  destruct (csi_final final) eqn:Hfin; cbn [negb].
  - rewrite run_wellformed by done. rewrite (IH r') by lia.
    destruct (run Ground r') as [o s]. cbn. destruct (dropCSI ps final); [done|].
    rewrite end_of_write_cons. cbn. destruct (end_of_write o s). by rewrite <- app_assoc.
  - rewrite run_malformed by done. rewrite (IH ("["%char :: ps ++ final :: r')) by (cbn; rewrite length_app; cbn; lia).
    destruct (run Ground ("["%char :: ps ++ final :: r')) as [o s]. cbn. by rewrite <- (end_of_write_cons [ESC]).
Qed.

Lemma filter_held f s p : wf s -> f.(pending) = held s ->
  filter f p =
    let '(o, s') := run s p in
    let '(out, h) := end_of_write o s' in (out, {| pending := h |}).
Proof.
  intros Hw Hp. unfold filter. rewrite filter_loop_run by lia. unfold passed, reached. rewrite Hp.
  rewrite run_resume by done. by destruct (run s p).
Qed.

(** *** Any number of writes *)

Lemma writes_run ps : forall f s, wf s -> f.(pending) = held s ->
  (forall qs rs, ps = qs ++ rs -> llen (held (run s (concat qs)).2) <= csiMax) ->
  writes f ps = ((run s (concat ps)).1, {| pending := held (run s (concat ps)).2 |}).
Proof.
  induction ps as [|p ps IH]; intros f s Hw Hp Hb; cbn [writes concat].
  - cbn. destruct f. cbn in Hp. by rewrite Hp.
  - rewrite (filter_held f s p Hw Hp). rewrite run_app.
    pose proof (run_wf s p Hw) as Hw'. pose proof (Hb [p] ps eq_refl) as Hbp.
    cbn [concat] in Hbp. rewrite app_nil_r in Hbp.
    destruct (run s p) as [o s'] eqn:Er. cbn [snd] in Hw', Hbp.
    unfold end_of_write. apply Z.leb_le in Hbp. rewrite Hbp.
    rewrite (IH {| pending := held s' |} s' Hw' eq_refl); [by destruct (run s' (concat ps))|].
    intros qs rs ->. specialize (Hb (p :: qs) rs eq_refl). cbn [concat] in Hb.
    rewrite run_app, Er in Hb. by destruct (run s' (concat qs)).
Qed.

(** Where a terminal stream is cut into writes does not matter: the filter
    passes what the reference automaton passes of the whole stream, and holds
    back what the automaton has not decided, provided no write ends inside a
    sequence already longer than [csiMax]. *)
Theorem filter_writes_equiv ps :
  (forall qs rs, ps = qs ++ rs -> llen (held (reached (concat qs))) <= csiMax) ->
  writes newFilter ps = (passed (concat ps), {| pending := held (reached (concat ps)) |}).
Proof. intros H. by apply writes_run. Qed.

(** [cleaned inp out]: [out] is [inp] less some complete CSI sequences that
    [dropCSI] names, every other byte in place. *)
Inductive cleaned : list ascii -> list ascii -> Prop :=
| cleaned_nil : cleaned [] []
| cleaned_keep c i o : cleaned i o -> cleaned (c :: i) (c :: o)
| cleaned_drop ps final i o :
    Forall (fun c => csi_param c = true) ps -> csi_final final = true ->
    dropCSI ps final = true -> cleaned i o ->
    cleaned ((ESC :: "["%char :: ps ++ [final]) ++ i) o.

Lemma cleaned_refl l : cleaned l l.
Proof. induction l; by constructor. Qed.

Lemma cleaned_app i1 o1 i2 o2 : cleaned i1 o1 -> cleaned i2 o2 -> cleaned (i1 ++ i2) (o1 ++ o2).
Proof.
  intros H1 H2. induction H1 as [|c i o _ IH|ps final i o Hp Hf Hd _ IH]; [done|by constructor|].
  rewrite <- app_assoc. by constructor.
Qed.

Lemma ground_cleaned c : exists i, [c] = i ++ held (ground c).2 /\ cleaned i (ground c).1.
Proof.
  unfold ground. destruct (Ascii.eqb_spec c ESC) as [->|]; [exists []|exists [c]]; by repeat constructor.
Qed.

Lemma next_cleaned s c : wf s ->
  exists i, held s ++ [c] = i ++ held (next s c).2 /\ cleaned i (next s c).1.
Proof.
  intros Hw. destruct (ground_cleaned c) as (i & Hi & Hc).
  assert (Hg : exists i', held s ++ [c] = i' ++ held (ground c).2 /\ cleaned i' (held s ++ (ground c).1)).
  { exists (held s ++ i). rewrite Hi, app_assoc. split; [done|]. apply cleaned_app; [apply cleaned_refl|done]. }
  destruct s as [| |ps]; cbn [next].
  - eauto.
  - destruct (Ascii.eqb_spec c "[") as [->|]; [exists []; by repeat constructor|].
    by destruct (ground c) as [o s'].
  - destruct (csi_param c) eqn:Hpar; [exists []; by repeat constructor|].
    destruct (csi_final c) eqn:Hfin; [|by destruct (ground c) as [o s']].
    exists (held (Csi ps) ++ [c]). cbn [snd fst]. split; [by rewrite app_nil_r|].
    destruct (dropCSI ps c) eqn:Hd; [|apply cleaned_refl].
    rewrite <- (app_nil_r (held (Csi ps) ++ [c])). by apply cleaned_drop; [..|constructor].
Qed.

Lemma run_cleaned l : forall s, wf s ->
  exists i, held s ++ l = i ++ held (run s l).2 /\ cleaned i (run s l).1.
Proof.
  induction l as [|c l IH]; intros s Hw.
  - exists []. rewrite app_nil_r. by repeat constructor.
  - destruct (next_cleaned s c Hw) as (i1 & Hi1 & Hc1). pose proof (next_wf s c Hw) as Hw1.
    cbn [run]. destruct (next s c) as [o1 s1]. cbn [fst snd] in *.
    destruct (IH s1 Hw1) as (i2 & Hi2 & Hc2). destruct (run s1 l) as [o2 s2]. cbn [fst snd] in *.
    exists (i1 ++ i2). split; [|by apply cleaned_app].
    rewrite <- app_assoc, <- Hi2, app_assoc, <- Hi1, <- app_assoc. done.
Qed.

Lemma filter_cleaned f s p : wf s -> f.(pending) = held s ->
  exists i s', f.(pending) ++ p = i ++ (filter f p).2.(pending) /\ cleaned i (filter f p).1
    /\ wf s' /\ (filter f p).2.(pending) = held s'.
Proof.
  intros Hw Hp. rewrite (filter_held f s p Hw Hp), Hp.
  destruct (run_cleaned p s Hw) as (i & Hi & Hc). pose proof (run_wf s p Hw) as Hw'.
  destruct (run s p) as [o s']. cbn [fst snd] in *. unfold end_of_write. destruct (llen (held s') <=? csiMax); cbn.
  - exists i, s'. by split_and!.
  - exists (i ++ held s'), Ground. rewrite app_nil_r.
    split_and!; [done|apply cleaned_app; [done|apply cleaned_refl]|done..].
Qed.

Lemma writes_cleaned ps : forall f s, wf s -> f.(pending) = held s ->
  exists i, f.(pending) ++ concat ps = i ++ (writes f ps).2.(pending) /\ cleaned i (writes f ps).1.
Proof.
  induction ps as [|p ps IH]; intros f s Hw Hp.
  - exists []. rewrite app_nil_r. by repeat constructor.
  - destruct (filter_cleaned f s p Hw Hp) as (i1 & s1 & Hi1 & Hc1 & Hw1 & Hp1).
    cbn [writes concat]. destruct (filter f p) as [o1 f1]. cbn [fst snd] in *.
    destruct (IH f1 s1 Hw1 Hp1) as (i2 & Hi2 & Hc2). destruct (writes f1 ps) as [o2 f2]. cbn [fst snd] in *.
    exists (i1 ++ i2). split; [|by apply cleaned_app].
    rewrite <- app_assoc, <- Hi2, !app_assoc. f_equal. done.
Qed.

(** Whatever the writes, the filter only ever deletes complete sequences that
    [dropCSI] names: every other byte it was given has been passed, in order,
    or is still held back. *)
Theorem filter_deletes_only ps :
  let '(out, f) := writes newFilter ps in
  exists consumed, concat ps = consumed ++ f.(pending) /\ cleaned consumed out.
Proof.
  destruct (writes_cleaned ps newFilter Ground I eq_refl) as (i & Hi & Hc).
  destruct (writes newFilter ps) as [out f]. by exists i.
Qed.

(** The filter holds back at most [csiMax] bytes between writes. *)
Theorem filter_pending_bounded f p : llen (filter f p).2.(pending) <= csiMax.
Proof.
  unfold filter. rewrite filter_loop_run by lia. unfold end_of_write.
  destruct (Z.leb_spec (llen (held (reached (pending f ++ p)))) csiMax); cbn; [done|]. unfold csiMax. lia.
Qed.

(** A sequence of more than [csiMax] bytes is dropped when one write brings it
    whole and passed when two do. *)
Definition long_csi : list ascii := ESC :: "["%char :: ">"%char :: replicate 70 "1"%char ++ ["m"%char].

Theorem long_sequence_depends_on_writes :
  (writes newFilter [long_csi]).1 = [] /\
  (writes newFilter [take 70 long_csi; drop 70 long_csi]).1 = long_csi.
Proof. split; vm_compute; reflexivity. Qed.

Lemma filter_writes_equiv_witness :
  writes newFilter [[ESC]; ["["%char; ">"%char; "4"%char]; ["m"%char; "x"%char; ESC]]
  = (["x"%char], {| pending := [ESC] |}).
Proof.
  refine (filter_writes_equiv [[ESC]; ["["%char; ">"%char; "4"%char]; ["m"%char; "x"%char; ESC]] _).
  intros qs rs H.
  destruct qs as [|q1 [|q2 [|q3 [|q4 qs]]]]; cbn in H; simplify_eq; vm_compute; discriminate.
Defined.

End Csi.

(** ** The line tap *)

Module LineTap.

(** [nil] (no OnLine configured) is [None]; what [onLine] is called with is the
    list each operation returns. *)
Record lineSplitter := { buf : list ascii }.

Definition newLineSplitter (onLine : bool) : option lineSplitter :=
  if onLine then Some {| buf := [] |} else None.

(** The loop of [write]: a line per newline of the buffer. *)
Fixpoint emit (fuel : nat) (b : list ascii) : list string * list ascii :=
  match fuel with
  | O => ([], b)
  | S fuel =>
    match IndexByte b nl with
    | None => ([], b)
    | Some i =>
      let '(ls, r) := emit fuel (drop (S i) b) in
      (str (TrimSuffix (take i b) cr) :: ls, r)
    end
  end.

Definition write (ls : option lineSplitter) (p : list ascii) : list string * option lineSplitter :=
  match ls with
  | None => ([], None)
  | Some s =>
    let b := s.(buf) ++ p in
    let '(out, r) := emit (S (length b)) b in
    (out, Some {| buf := r |})
  end.

Definition flush (ls : option lineSplitter) : list string * option lineSplitter :=
  match ls with
  | None => ([], None)
  | Some s =>
    if is_nil s.(buf) then ([], ls)
    else ([str (TrimSuffix s.(buf) cr)], Some {| buf := [] |})
  end.

Fixpoint writes (ls : option lineSplitter) (ps : list (list ascii)) : list string * option lineSplitter :=
  match ps with
  | [] => ([], ls)
  | p :: ps =>
    let '(o1, s1) := write ls p in
    let '(o2, s2) := writes s1 ps in
    (o1 ++ o2, s2)
  end.

(** The line [onLine] is given for the bytes between two newlines. *)
Definition delivered (l : list ascii) : string := str (TrimSuffix l cr).

Lemma emit_spec fuel : forall b, (length b < fuel)%nat ->
  emit fuel b = (map delivered (lines b), partial b).
Proof.
  induction fuel as [|fuel IH]; intros b Hf; [lia|]. cbn [emit].
  destruct (IndexByte b nl) as [i|] eqn:Hi.
  - pose proof (IndexByte_lt _ _ _ Hi). apply IndexByte_Some in Hi as [Hb Hn].
    rewrite IH by (rewrite length_drop; lia).
    assert (Hs : split_lines b = (take i b :: lines (drop (S i) b), partial (drop (S i) b)))
      by (rewrite Hb at 1; by apply split_lines_cons).
    unfold lines at 2, partial at 2. by rewrite Hs.
  - apply IndexByte_None in Hi. unfold lines, partial. by rewrite split_lines_none.
Qed.

Lemma write_spec s p :
  write (Some s) p = (map delivered (lines (s.(buf) ++ p)), Some {| buf := partial (s.(buf) ++ p) |}).
Proof. unfold write. by rewrite emit_spec by lia. Qed.

Lemma writes_spec ps : forall s, partial s.(buf) = s.(buf) -> lines s.(buf) = [] ->
  writes (Some s) ps
  = (map delivered (lines (s.(buf) ++ concat ps)), Some {| buf := partial (s.(buf) ++ concat ps) |}).
Proof.
  induction ps as [|p ps IH]; intros s Hp Hl; cbn [writes concat].
  - rewrite app_nil_r, Hl, Hp. by destruct s.
  - rewrite write_spec. rewrite IH; cbn [buf].
    + rewrite (app_assoc (buf s) p), (lines_app (buf s ++ p)), map_app, (partial_app (buf s ++ p)). done.
    + unfold partial at 1. by rewrite split_lines_none by apply partial_no_nl.
    + unfold lines. by rewrite split_lines_none by apply partial_no_nl.
Qed.

(** However the harness's output is cut into reads, the tap delivers exactly
    the lines of the whole output, in order, and at the end its unterminated
    remainder: no line is lost, split, joined or invented. *)
Theorem tap_delivers_lines ps :
  let '(out, s) := writes (newLineSplitter true) ps in
  let '(out', _) := flush s in
  out ++ out' = map delivered (lines (concat ps) ++
                               if is_nil (partial (concat ps)) then [] else [partial (concat ps)]).
Proof.
  cbn [newLineSplitter]. rewrite writes_spec by done. cbn [buf app flush].
  destruct (is_nil (partial (concat ps))); by rewrite map_app.
Qed.

(** No tap, no calls. *)
Theorem no_tap ps : writes (newLineSplitter false) ps = ([], None) /\ flush None = ([], None).
Proof. split; [|done]. induction ps as [|p ps IH]; [done|]. cbn in *. by rewrite IH. Qed.

End LineTap.

(** ** The window of recent output *)

Module Recent.

(** [limit] is what newRecentOutput was given; a nil buffer is [None]. *)
Record recentOutputBuffer := { limit : Z; buf : list ascii; total : Z }.

Definition newRecentOutput (limit : Z) : option recentOutputBuffer :=
  Some {| limit := limit; buf := []; total := 0 |}.

Definition Write (b : option recentOutputBuffer) (p : list ascii) : option recentOutputBuffer :=
  match b with
  | None => None
  | Some r =>
    if (r.(limit) <=? 0) || is_nil p then b
    else
      let total' := wrap64 (r.(total) + llen p) in
      if r.(limit) <=? llen p then
        Some {| limit := r.(limit); buf := drop (Z.to_nat (llen p - r.(limit))) p; total := total' |}
      else
        let all := r.(buf) ++ p in
        let over := llen all - r.(limit) in
        Some {| limit := r.(limit);
                buf := if 0 <? over then drop (Z.to_nat over) all else all;
                total := total' |}
  end.

Definition String_ (b : option recentOutputBuffer) : string :=
  match b with None => ""%string | Some r => str r.(buf) end.

Definition Total (b : option recentOutputBuffer) : Z :=
  match b with None => 0 | Some r => r.(total) end.

Definition TextFrom (b : option recentOutputBuffer) (mark : Z) : string * Z :=
  match b with
  | None => (""%string, 0)
  | Some r =>
    let start := wrap64 (r.(total) - llen r.(buf)) in
    let i := if start <? mark then Z.min (mark - start) (llen r.(buf)) else 0 in
    let i := match LastIndexByte (take (Z.to_nat i) r.(buf)) nl with Some j => S j | None => 0%nat end in
    (str (drop i r.(buf)), r.(total))
  end.

Definition writes (b : option recentOutputBuffer) (ps : list (list ascii)) : option recentOutputBuffer :=
  fold_left Write ps b.

(** [holds lim all b]: the buffer after [all] was written. *)
Definition holds (lim : Z) (all : list ascii) (b : option recentOutputBuffer) : Prop :=
  b = Some {| limit := lim; buf := lastn (Z.to_nat lim) all; total := llen all |}.

Lemma Write_holds lim all b p : 0 < lim -> llen (all ++ p) < 2 ^ 63 ->
  holds lim all b -> holds lim (all ++ p) (Write b p).
Proof.
  unfold holds. intros Hlim Hlen ->. rewrite length_app in Hlen. unfold Write. cbn [limit buf total].
  destruct (Z.leb_spec lim 0); [lia|]. destruct p as [|c p]; [cbn; by rewrite app_nil_r|].
  cbn [is_nil orb]. set (q := c :: p) in *.
  rewrite wrap64_id by lia. rewrite (length_app all q).
  destruct (Z.leb_spec lim (llen q)) as [Hle|Hgt].
  - rewrite lastn_app_short by lia. unfold lastn. repeat f_equal; lia.
  - rewrite <- lastn_lastn_app. set (w := lastn (Z.to_nat lim) all ++ q).
    repeat f_equal; [|lia]. unfold lastn. destruct (Z.ltb_spec 0 (llen w - lim)).
    + f_equal. lia.
    + replace (length w - Z.to_nat lim)%nat with 0%nat by lia. by rewrite drop_0.
Qed.

Lemma writes_holds lim ps : 0 < lim -> forall all b, llen (all ++ concat ps) < 2 ^ 63 ->
  holds lim all b -> holds lim (all ++ concat ps) (writes b ps).
Proof.
  intros Hlim. induction ps as [|p ps IH]; intros all b Hlen Hb; cbn in *; [by rewrite app_nil_r|].
  rewrite app_assoc in Hlen |- *. apply IH; [done|]. apply Write_holds; [done| |done].
  rewrite length_app in Hlen. lia.
Qed.

(** The window is exactly the last [limit] bytes of everything written, and
    Total counts every byte, however the output was cut into writes. *)
Theorem recent_is_suffix lim ps : 0 < lim -> llen (concat ps) < 2 ^ 63 ->
  let b := writes (newRecentOutput lim) ps in
  String_ b = str (lastn (Z.to_nat lim) (concat ps)) /\ Total b = llen (concat ps).
Proof.
  intros Hlim Hlen. assert (H : holds lim (concat ps) (writes (newRecentOutput lim) ps)).
  { apply (writes_holds lim ps Hlim [] _ Hlen). done. }
  cbn zeta. unfold holds in H. by rewrite H.
Qed.

(** The byte just before a line's start is a newline. *)
Lemma LastIndexByte_line w i :
  let k := match LastIndexByte (take i w) nl with Some j => S j | None => 0%nat end in
  (k <= i)%nat /\ (k <= length w)%nat /\ (k = 0%nat \/ exists j, k = S j /\ w !! j = Some nl) /\ nl ∉ drop k (take i w).
Proof.
  cbn zeta. destruct (LastIndexByte (take i w) nl) as [j|] eqn:E.
  - pose proof (LastIndexByte_lt _ _ _ E) as Hj. apply LastIndexByte_Some in E as [Hw Hn].
    rewrite length_take in Hj. split; [lia|]. split; [lia|]. split; [|done]. right. exists j. split; [done|].
    rewrite <- (lookup_take_lt w i) by lia. rewrite Hw.
    rewrite lookup_app_r by (rewrite length_take; lia). rewrite length_take, length_take.
    replace (j - _)%nat with 0%nat by lia. done.
  - apply LastIndexByte_None in E. split_and!; [lia|lia|by left|by rewrite drop_0].
Qed.

(** TextFrom returns a suffix of everything written that begins at the start
    of the line [mark] falls in, or at the window's start, and reads every
    retained byte from [mark] on; [through] is how much was written. *)
Theorem TextFrom_spec lim ps mark : 0 < lim -> llen (concat ps) < 2 ^ 63 ->
  0 <= mark <= llen (concat ps) ->
  let all := concat ps in
  let start := (length all - Z.to_nat lim)%nat in
  exists k, TextFrom (writes (newRecentOutput lim) ps) mark = (str (drop k all), llen all) /\
    (start <= k <= Nat.max start (Z.to_nat mark))%nat /\
    (k = start \/ exists j, k = S j /\ all !! j = Some nl) /\
    nl ∉ drop k (take (Z.to_nat mark) all).
Proof.
  intros Hlim Hlen Hmark. cbn zeta. set (all := concat ps) in *.
  assert (H : holds lim all (writes (newRecentOutput lim) ps)).
  { apply (writes_holds lim ps Hlim [] _ Hlen). done. }
  unfold holds in H. rewrite H. unfold TextFrom. cbn [limit buf total].
  pose proof (length_lastn (Z.to_nat lim) all) as Hll.
  rewrite wrap64_id by lia. unfold lastn in *. set (st := (length all - Z.to_nat lim)%nat) in *.
  set (w := drop st all) in *.
  set (i := if _ <? mark then _ else 0). 
  assert (Hi : Z.to_nat i = (Z.to_nat mark - st)%nat).
  { unfold i. destruct (Z.ltb_spec (llen all - llen w) mark); lia. }
  rewrite Hi. pose proof (LastIndexByte_line w (Z.to_nat mark - st)) as (Hk1 & Hk2 & Hk3 & Hk4). cbn zeta in *.
  set (k := match _ with Some j => S j | None => 0%nat end) in *.
  exists (st + k)%nat. split; [by rewrite <- drop_drop|]. split; [lia|]. split.
  - destruct Hk3 as [Hk3|(j & Hk3 & Hj)]; [left; lia|right]. exists (st + j)%nat. split; [lia|].
    by rewrite <- lookup_drop.
  - rewrite skipn_firstn_comm. rewrite <- drop_drop. fold w.
    replace (Z.to_nat mark - (st + k))%nat with (Z.to_nat mark - st - k)%nat by lia.
    by rewrite skipn_firstn_comm in Hk4.
Qed.

Lemma recent_is_suffix_witness :
  let b := writes (newRecentOutput 3) [["a"%char; "b"%char]; ["c"%char; "d"%char]] in
  String_ b = "bcd"%string /\ Total b = 4.
Proof. refine (recent_is_suffix 3 [["a"%char; "b"%char]; ["c"%char; "d"%char]] _ _); [done|vm_compute; done]. Defined.

End Recent.

(** ** A stream child's stderr tail *)

Module Tail.

Record tailBuffer := { n : Z; buf : list ascii }.

Definition newTailBuffer (n : Z) : tailBuffer := {| n := n; buf := [] |}.

Definition Tail_Write (t : tailBuffer) (p : list ascii) : Z * tailBuffer :=
  let b := t.(buf) ++ p in
  let over := llen b - t.(n) in
  (llen p, {| n := t.(n); buf := if 0 <? over then drop (Z.to_nat over) b else b |}).

Definition Tail_String (t : tailBuffer) : string := str t.(buf).

(** The tail is the last [n] bytes written. *)
Theorem tail_is_suffix k ps : 0 <= k ->
  fold_left (fun t p => (Tail_Write t p).2) ps (newTailBuffer k)
  = {| n := k; buf := lastn (Z.to_nat k) (concat ps) |}.
Proof.
  intros Hk.
  assert (H : forall ps all, fold_left (fun t p => (Tail_Write t p).2) ps {| n := k; buf := lastn (Z.to_nat k) all |}
              = {| n := k; buf := lastn (Z.to_nat k) (all ++ concat ps) |}).
  { clear ps. induction ps as [|p ps IH]; intros all; cbn [fold_left concat]; [by rewrite app_nil_r|].
    rewrite app_assoc, <- IH. f_equal. unfold Tail_Write. cbn [n buf snd]. f_equal.
    rewrite <- lastn_lastn_app. set (w := lastn (Z.to_nat k) all ++ p). unfold lastn.
    destruct (Z.ltb_spec 0 (llen w - k)); [f_equal; lia|].
    replace (length w - Z.to_nat k)%nat with 0%nat by lia. by rewrite drop_0. }
  apply (H ps []).
Qed.

End Tail.
