(* ===== verification/Follower.v ===== *)
(** The transcript follower (src/pkg/transcript/follower.go): a reader of a
    file another process appends to, in acknowledged batches of whole records,
    with the events and identities of src/pkg/transcript/event.go.

    A Poll's file system is an argument: whether the open and the stat succeed,
    and for each read that Poll makes what the file held at that moment or the
    error. [crypto/sha256], hex-encoded, is the parameter [sha256Hex]; a UUID a
    Poll would mint is an argument of it. Offsets and counts are unbounded
    integers: a file is shorter than 2^63 bytes. *)
From Stdlib Require Import ZArith Ascii String Lia.
From stdpp Require Import base tactics list strings option decidable.
From S2P Require Import Prelude GoStr Bytes.

#[local] Open Scope Z_scope.
#[local] Open Scope list_scope.

(** ** Events *)

Record Event := mkEvent {
  Seq : Z; Timestamp : Z; Role : string; Type_ : string; Text : string;
  ToolName : string; ToolUseID : string; ToolInput : string; Output : string; UUID : string;
  APIError : string; AgentType : string; SchemaVersion : Z; Source : string; NativeID : string }.

Definition RoleSystem : string := "system".
Definition EventToolUse : string := "tool_use".
Definition EventToolResult : string := "tool_result".

(** [e.Seq = n] and [e.NativeID = id]. *)
Definition set_identity (e : Event) (n : Z) (id : string) : Event :=
  mkEvent n e.(Timestamp) e.(Role) e.(Type_) e.(Text) e.(ToolName) e.(ToolUseID) e.(ToolInput)
    e.(Output) e.(UUID) e.(APIError) e.(AgentType) e.(SchemaVersion) e.(Source) id.

Record Turn := { TurnRole : string; TurnText : string; TurnTimestamp : Z; TurnAPIError : string }.

Fixpoint TurnsFromEvents (events : list Event) : list Turn :=
  match events with
  | [] => []
  | e :: es =>
    if e.(Text) =s? "" then TurnsFromEvents es
    else {| TurnRole := if e.(Role) =s? "" then RoleSystem else e.(Role);
            TurnText := e.(Text); TurnTimestamp := e.(Timestamp); TurnAPIError := e.(APIError) |}
         :: TurnsFromEvents es
  end.

(** ** Checkpoints, batches and faults *)

Definition FollowerVersion : Z := 1.

Inductive ResetReason := ResetReplaced | ResetShrunk | ResetPrefixChanged | ResetBoundaryChanged.

Record Checkpoint := mkCheckpoint {
  Version : Z; SessionID : string; Generation : string; Inode : Z; Offset : Z; NextSeq : Z;
  PrefixLen : Z; PrefixSHA256 : string; BoundaryLen : Z; BoundarySHA256 : string }.

#[export] Instance Checkpoint_eq_dec : EqDecision Checkpoint.
Proof. solve_decision. Defined.

Record ResetError := {
  Reason : ResetReason; Previous : Checkpoint; Size : Z; ResetInode : Z }.

Record SourceError := { ErrOffset : Z; Length : Z; SHA256 : string; Err_ : string }.

Definition checkpointWindow : Z := 4096.
Definition defaultMaxBatchBytes : Z := 4 * 2 ^ 20.

Section Follower.
Context {Meta : Type} (sha256Hex : list ascii -> string).

Record BlockEvent := { Block : Z; BlockEvent_Event : Event; BlockMeta : Meta }.

Definition Decoder := list ascii -> result string (list BlockEvent).

Record FollowedEvent := {
  FollowedEvent_Event : Event; FollowedOffset : Z; FollowedBlock : Z; FollowedMeta : Meta }.

Record Batch := mkBatch {
  From : Checkpoint; Events : list FollowedEvent; Errors : list SourceError;
  BatchCheckpoint : Checkpoint }.

Record Follower := mkFollower {
  MaxBatchBytes : Z; path : string; decode : Decoder; cp : Checkpoint }.

(** A checkpoint that says nothing but its session and version. *)
Definition zero_position (session : string) (version : Z) : Checkpoint :=
  mkCheckpoint version session "" 0 0 0 0 "" 0 "".

Definition NewFollower (path sessionID : string) (from : Checkpoint) (decode : option Decoder)
    (uuid : string) : result string Follower :=
  when path =s? "" refuse "empty path" ;;
  when sessionID =s? "" refuse "empty session id" ;;
  match decode with
  | None => Err "nil decoder"%string
  | Some decode =>
    when FollowerVersion <? from.(Version) refuse "checkpoint version is newer" ;;
    when negb (from.(SessionID) =s? "") && negb (from.(SessionID) =s? sessionID)
      refuse "checkpoint is for another session" ;;
    when (from.(Generation) =s? "")
         && negb (bool_decide (from = zero_position from.(SessionID) from.(Version)))
      refuse "checkpoint has a position but no generation" ;;
    when (from.(Offset) <? 0) || (from.(NextSeq) <? 0) || (from.(PrefixLen) <? 0)
         || (from.(BoundaryLen) <? 0) || (from.(Offset) <? from.(PrefixLen))
         || (from.(Offset) <? from.(BoundaryLen))
      refuse "checkpoint window does not fit offset" ;;
    let from := if from.(Generation) =s? ""
                then mkCheckpoint 0 sessionID uuid 0 0 0 0 "" 0 "" else from in
    Ok (mkFollower 0 path decode
         (mkCheckpoint FollowerVersion from.(SessionID) from.(Generation) from.(Inode)
            from.(Offset) from.(NextSeq) from.(PrefixLen) from.(PrefixSHA256)
            from.(BoundaryLen) from.(BoundarySHA256)))
  end.

Definition set_cp (f : Follower) (c : Checkpoint) : Follower :=
  mkFollower f.(MaxBatchBytes) f.(path) f.(decode) c.

Definition Ack (f : Follower) (b : Batch) : result string Follower :=
  when negb (bool_decide (b.(From) = f.(cp))) refuse "batch does not start where the follower is" ;;
  Ok (set_cp f b.(BatchCheckpoint)).

(** ** Reading *)

(** What a Poll meets: the k-th read of it finds the file holding [bytes_at k],
    or fails with [read_err k]. *)
Record File := {
  open_err : option string; stat : result string (Z * Z);
  bytes_at : nat -> list ascii; read_err : nat -> option string }.

(** [readAt]: the bytes, and whether there were fewer than asked for. *)
Definition readAt (file : File) (k : nat) (off n : Z) : result string (list ascii * bool) :=
  match file.(read_err) k with
  | Some e => Err e
  | None =>
    let got := take (Z.to_nat n) (drop (Z.to_nat off) (file.(bytes_at) k)) in
    Ok (got, llen got <? n)
  end.

Definition verify (f : Follower) (file : File) (size inode : Z)
    : result string (list ascii * list ascii * option ResetReason) :=
  let cp := f.(cp) in
  if cp.(Offset) =? 0 then Ok ([], [], None)
  else if negb (cp.(Inode) =? 0) && negb (inode =? 0) && negb (inode =? cp.(Inode))
  then Ok ([], [], Some ResetReplaced)
  else if size <? cp.(Offset) then Ok ([], [], Some ResetShrunk)
  else
    '(head, short) ← readAt file 0 0 cp.(PrefixLen);
    if (short : bool) then Ok ([], [], Some ResetShrunk)
    else if negb (sha256Hex head =s? cp.(PrefixSHA256)) then Ok ([], [], Some ResetPrefixChanged)
    else
      '(tail, short) ← readAt file 1 (cp.(Offset) - cp.(BoundaryLen)) cp.(BoundaryLen);
      if (short : bool) then Ok ([], [], Some ResetShrunk)
      else if negb (sha256Hex tail =s? cp.(BoundarySHA256)) then Ok ([], [], Some ResetBoundaryChanged)
      else Ok (head, tail, None).

(** The loop of readRecords at [pos], [data] being nil before the first chunk. *)
Fixpoint read_loop (fuel k : nat) (file : File) (limit size pos : Z) (data : option (list ascii))
    : result string (list ascii) :=
  match fuel with
  | O => Ok []
  | S fuel =>
    if pos <? size then
      '(chunk, _) ← readAt file k pos (Z.min limit (size - pos));
      match chunk with
      | [] => Ok []
      | _ =>
        let pos := pos + llen chunk in
        match data with
        | None =>
          match LastIndexByte chunk nl with
          | Some e => Ok (take (S e) chunk)
          | None => read_loop fuel (S k) file limit size pos (Some chunk)
          end
        | Some data =>
          match IndexByte chunk nl with
          | Some e => Ok (data ++ take (S e) chunk)
          | None => read_loop fuel (S k) file limit size pos (Some (data ++ chunk))
          end
        end
      end
    else Ok []
  end.

Definition readRecords (f : Follower) (file : File) (offset size : Z) : result string (list ascii) :=
  let limit := f.(MaxBatchBytes) in
  let limit := if limit <=? 0 then defaultMaxBatchBytes else limit in
  read_loop (S (Z.to_nat (size - offset))) 2 file limit size offset None.

(** [prev[len(prev)-(n-fromData):]] and the like, as the hash is fed. *)
Definition window (prev data : list ascii) (first : bool) : Z * string :=
  let n := Z.min (llen prev + llen data) checkpointWindow in
  if first then
    (n, sha256Hex (take (Z.to_nat (Z.min (llen prev) n)) prev
                   ++ take (Z.to_nat (n - Z.min (llen prev) n)) data))
  else
    let fromData := Z.min (llen data) n in
    (n, sha256Hex (drop (Z.to_nat (llen prev - (n - fromData))) prev
                   ++ drop (Z.to_nat (llen data - fromData)) data)).

Definition followerID (e : Event) (block : Z) (generation : string) (offset : Z) : string :=
  let v := ("v" ++ Itoa FollowerVersion ++ ":" ++ e.(Type_))%string in
  if ((e.(Type_) =s? EventToolUse) || (e.(Type_) =s? EventToolResult)) && negb (e.(ToolUseID) =s? "")
  then (v ++ ":tool:" ++ e.(ToolUseID))%string
  else if negb (e.(UUID) =s? "")
  then (v ++ ":line:" ++ e.(UUID) ++ ":" ++ Itoa block)%string
  else (v ++ ":gen:" ++ generation ++ ":" ++ Itoa offset ++ ":" ++ Itoa block)%string.

(** The events of one record's blocks, numbered from [seq]. *)
Fixpoint number (gen : string) (at_ seq : Z) (blocks : list BlockEvent) : list FollowedEvent :=
  match blocks with
  | [] => []
  | be :: bs =>
    let e := be.(BlockEvent_Event) in
    {| FollowedEvent_Event := set_identity e seq (followerID e be.(Block) gen at_);
       FollowedOffset := at_; FollowedBlock := be.(Block); FollowedMeta := be.(BlockMeta) |}
    :: number gen at_ (seq + 1) bs
  end.

(** What the loop of Poll accumulates. *)
Record scan := { sc_events : list FollowedEvent; sc_errors : list SourceError; sc_seq : Z; sc_offset : Z }.

(** The loop of Poll over [rest], a sequence of records each with its newline. *)
Fixpoint poll_loop (fuel : nat) (dec : Decoder) (gen : string) (rest : list ascii) (s : scan) : scan :=
  match fuel with
  | O => s
  | S fuel =>
    match IndexByte rest nl with
    | None => s
    | Some i =>
      let n := S i in
      let record := take n rest in
      let rest := drop n rest in
      let at_ := s.(sc_offset) in
      let offset := at_ + Z.of_nat n in
      let body := take (n - 1) record in
      if blank body then
        poll_loop fuel dec gen rest
          {| sc_events := s.(sc_events); sc_errors := s.(sc_errors); sc_seq := s.(sc_seq); sc_offset := offset |}
      else
        match dec body with
        | Err e =>
          poll_loop fuel dec gen rest
            {| sc_events := s.(sc_events);
               sc_errors := s.(sc_errors) ++
                 [{| ErrOffset := at_; Length := Z.of_nat n; SHA256 := sha256Hex record; Err_ := e |}];
               sc_seq := s.(sc_seq); sc_offset := offset |}
        | Ok blocks =>
          poll_loop fuel dec gen rest
            {| sc_events := s.(sc_events) ++ number gen at_ s.(sc_seq) blocks;
               sc_errors := s.(sc_errors);
               sc_seq := s.(sc_seq) + llen blocks; sc_offset := offset |}
        end
    end
  end.

Inductive PollError := PollFault (e : string) | PollReset (e : ResetError).

Definition Poll (f : Follower) (file : File) (uuid : string)
    : Follower * (Batch * option PollError) :=
  let from := f.(cp) in
  let empty := mkBatch from [] [] from in
  match file.(open_err) with
  | Some e => (f, (empty, Some (PollFault e)))
  | None =>
    match file.(stat) with
    | Err e => (f, (empty, Some (PollFault e)))
    | Ok (size, inode) =>
      match verify f file size inode with
      | Err e => (f, (empty, Some (PollFault e)))
      | Ok (_, _, Some reason) =>
        (set_cp f (mkCheckpoint FollowerVersion from.(SessionID) uuid 0 0 0 0 "" 0 ""),
         (empty, Some (PollReset {| Reason := reason; Previous := from; Size := size; ResetInode := inode |})))
      | Ok (head, tail, None) =>
        match readRecords f file from.(Offset) size with
        | Err e => (f, (empty, Some (PollFault e)))
        | Ok [] => (f, (empty, None))
        | Ok data =>
          let s := poll_loop (length data) f.(decode) from.(Generation) data
                     {| sc_events := []; sc_errors := []; sc_seq := from.(NextSeq); sc_offset := from.(Offset) |} in
          let '(plen, psha) := if from.(PrefixLen) =? from.(Offset) then window head data true
                               else (from.(PrefixLen), from.(PrefixSHA256)) in
          let '(blen, bsha) := window tail data false in
          let next := mkCheckpoint from.(Version) from.(SessionID) from.(Generation)
                        (if negb (inode =? 0) then inode else from.(Inode))
                        s.(sc_offset) s.(sc_seq) plen psha blen bsha in
          (f, (mkBatch from s.(sc_events) s.(sc_errors) next, None))
        end
      end
    end
  end.

End Follower.
