(* ===== verification/FollowerProps.v ===== *)
(** What a follower delivers. The reference is one pass over the complete
    lines of a file ([transcript]); the theorems say that however the file
    grows, however small the batches, and whatever crashes come between a
    commit and its acknowledgement, the events stored are the reference's, each
    once and numbered in order, and that polling makes progress. *)
From Stdlib Require Import ZArith Ascii String Lia.
From stdpp Require Import base tactics list strings option decidable.
From S2P Require Import Prelude GoStr Bytes Follower.

#[local] Open Scope Z_scope.
#[local] Open Scope list_scope.

(** ** Positions at line boundaries *)

(** The first [j] lines of [c] with their newlines, and where they end. *)
Definition first_lines (c : list ascii) (j : nat) : list ascii := unlines (take j (lines c)).

Lemma split_at_line c j : c = first_lines c j ++ (unlines (drop j (lines c)) ++ partial c).
Proof.
  unfold first_lines. rewrite app_assoc, <- unlines_app, take_drop. apply split_lines_join.
Qed.

Lemma take_first_lines c j : take (length (first_lines c j)) c = first_lines c j.
Proof. rewrite (split_at_line c j) at 2. by rewrite take_app_length. Qed.

Lemma drop_first_lines c j :
  drop (length (first_lines c j)) c = unlines (drop j (lines c)) ++ partial c.
Proof. rewrite (split_at_line c j) at 2. by rewrite drop_app_length. Qed.

Lemma first_lines_add c j k : (j + k <= length (lines c))%nat ->
  first_lines c (j + k) = first_lines c j ++ unlines (take k (drop j (lines c))).
Proof.
  intros H. unfold first_lines. rewrite <- unlines_app. f_equal.
  by rewrite <- (take_take_drop (lines c) j k).
Qed.

Lemma first_lines_grow c x j : (j <= length (lines c))%nat -> first_lines (c ++ x) j = first_lines c j.
Proof. intros H. unfold first_lines. by rewrite lines_app, take_app_le. Qed.

Lemma lines_drop_first c j : lines (drop (length (first_lines c j)) c) = drop j (lines c).
Proof.
  rewrite drop_first_lines. unfold lines at 1. rewrite split_lines_unlines.
  - cbn. assert (Hn : lines (partial c) = []) by (unfold lines; by rewrite split_lines_none by apply partial_no_nl).
    by rewrite Hn, app_nil_r.
  - apply Forall_drop, lines_no_nl.
Qed.

(** ** What readRecords reads *)

(** The records of one batch, of those that remain: as many as the cap holds
    whole, and at least one. *)
Definition batch_lines (limit : nat) (rest : list ascii) : nat :=
  Nat.max 1 (length (lines (take limit rest))).

Lemma lines_take_prefix n b : lines (take n b) = take (length (lines (take n b))) (lines b).
Proof.
  rewrite <- (take_drop n b) at 3. rewrite lines_app, take_app_length. done.
Qed.

Lemma take_LastIndexByte b e : LastIndexByte b nl = Some e -> take (S e) b = unlines (lines b).
Proof.
  intros H. pose proof (LastIndexByte_lt _ _ _ H) as Hlt. apply LastIndexByte_Some in H as [Hb Hn].
  assert (Hs : b = take (S e) b ++ drop (S e) b) by (by rewrite take_drop).
  assert (Hp : partial (take (S e) b) = []).
  { replace (take (S e) b) with (take e b ++ [nl]).
    - rewrite partial_app. unfold partial at 1.
      rewrite (split_lines_cons (partial (take e b)) []) by apply partial_no_nl. done.
    - rewrite Hb at 2. rewrite take_app, take_take, length_take.
      replace (S e `min` e)%nat with e by lia. f_equal. replace (S e - e `min` length b)%nat with 1%nat by lia.
      done. }
  rewrite (split_lines_join (take (S e) b)), Hp, app_nil_r. f_equal.
  rewrite Hs at 2. rewrite lines_app, Hp. cbn [app].
  unfold lines at 3. rewrite split_lines_none by done. cbn. by rewrite app_nil_r.
Qed.

Lemma lines_nil b : nl ∉ b -> lines b = [].
Proof. intros H. unfold lines. by rewrite split_lines_none. Qed.

Lemma lines_nil_inv b : lines b = [] -> nl ∉ b.
Proof.
  intros H. rewrite (split_lines_join b), H. cbn. apply partial_no_nl.
Qed.

(** The file as a Poll finds it when nobody writes meanwhile. *)
Definition still (c : list ascii) (ino : Z) : File :=
  {| open_err := None; stat := Ok (llen c, ino); bytes_at := fun _ => c; read_err := fun _ => None |}.

Lemma readAt_still c ino k off n : 0 <= off -> 0 <= n ->
  readAt (still c ino) k off n
  = Ok (take (Z.to_nat n) (drop (Z.to_nat off) c), llen c - Z.min off (llen c) <? n).
Proof.
  intros Ho Hn. unfold readAt. cbn. f_equal. f_equal. rewrite length_take, length_drop.
  destruct (Z.ltb_spec (llen c - Z.min off (llen c)) n); [apply Z.ltb_lt|apply Z.ltb_ge]; lia.
Qed.

Lemma take_IndexByte b e : IndexByte b nl = Some e -> take (S e) b = unlines (take 1 (lines b)).
Proof.
  intros H. pose proof (IndexByte_lt _ _ _ H). apply IndexByte_Some in H as [Hb Hn].
  assert (Hl : lines b = take e b :: lines (drop (S e) b)).
  { rewrite Hb at 1. unfold lines at 1. by rewrite split_lines_cons. }
  rewrite Hl. cbn [take]. rewrite unlines_cons. cbn. rewrite Hb at 1.
  rewrite take_app, take_take, length_take. replace (S e `min` e)%nat with e by lia.
  f_equal. replace (S e - e `min` length b)%nat with 1%nat by lia. by rewrite firstn_O.
Qed.

Section Reads.
Variables (c : list ascii) (ino limit : Z).
Hypothesis limit_pos : 0 < limit.

(** Past the first chunk the loop reads on to the first newline. *)
Lemma read_loop_on fuel : forall k pos data, 0 <= pos <= llen c -> nl ∉ data ->
  (Z.to_nat (llen c - pos) < fuel)%nat ->
  read_loop fuel k (still c ino) limit (llen c) pos (Some data)
  = Ok (unlines (take 1 (lines (data ++ drop (Z.to_nat pos) c)))).
Proof.
  induction fuel as [|fuel IH]; intros k pos data Hpos Hd Hf; [lia|]. cbn [read_loop].
  destruct (Z.ltb_spec pos (llen c)) as [Hlt|Hge].
  2: { rewrite drop_ge, app_nil_r by lia. by rewrite lines_nil. }
  rewrite readAt_still by lia. cbn [mbind result_bind].
  set (r := drop (Z.to_nat pos) c). set (m := Z.to_nat (Z.min limit (llen c - pos))).
  assert (Hr : length r = Z.to_nat (llen c - pos)) by (unfold r; rewrite length_drop; lia).
  assert (Hc : length (take m r) = m) by (rewrite length_take; lia).
  destruct (take m r) as [|a t] eqn:Ht; [cbn in Hc; lia|]. rewrite <- Ht in *. clear a t Ht.
  destruct (IndexByte (take m r) nl) as [e|] eqn:He.
  - apply take_IndexByte in He as He'. f_equal. rewrite He'.
    apply IndexByte_Some in He as [Hb Hn].
    rewrite <- (take_drop m r) at 2. rewrite Hb at 2.
    rewrite Hb at 1. unfold lines. rewrite <- app_assoc. cbn [app]. rewrite app_assoc.
    rewrite !split_lines_cons by (rewrite ?not_elem_of_app; done).
    cbn [fst take]. by rewrite !unlines_cons, app_assoc.
  - apply IndexByte_None in He. rewrite IH by (try apply not_elem_of_app; lia || done).
    rewrite <- app_assoc. do 4 f_equal.
    replace (Z.to_nat (pos + llen (take m r))) with (Z.to_nat pos + m)%nat by lia.
    rewrite <- drop_drop. fold r. by rewrite take_drop.
Qed.

Lemma read_loop_first k pos : 0 <= pos <= llen c ->
  let rest := drop (Z.to_nat pos) c in
  read_loop (S (Z.to_nat (llen c - pos))) k (still c ino) limit (llen c) pos None
  = Ok (unlines (take (batch_lines (Z.to_nat limit) rest) (lines rest))).
Proof.
  intros Hpos. cbn zeta. cbn [read_loop]. unfold batch_lines.
  destruct (Z.ltb_spec pos (llen c)) as [Hlt|Hge].
  2: { rewrite drop_ge by lia. by rewrite take_nil. }
  rewrite readAt_still by lia. cbn [mbind result_bind].
  set (r := drop (Z.to_nat pos) c).
  assert (Hr : length r = Z.to_nat (llen c - pos)) by (unfold r; rewrite length_drop; lia).
  assert (Hm : take (Z.to_nat (Z.min limit (llen c - pos))) r = take (Z.to_nat limit) r).
  { destruct (Z.le_ge_cases limit (llen c - pos)); [f_equal; lia|]. rewrite !take_ge by lia. done. }
  rewrite Hm. set (ch := take (Z.to_nat limit) r).
  assert (Hc : (0 < length ch)%nat) by (unfold ch; rewrite length_take; lia).
  destruct ch as [|a t] eqn:Ht; [cbn in Hc; lia|]. rewrite <- Ht in *. clear a t Ht.
  destruct (LastIndexByte ch nl) as [e|] eqn:He.
  - rewrite (take_LastIndexByte _ _ He). f_equal. f_equal.
    assert (Hne : lines ch <> []).
    { intros Hnil%lines_nil_inv. apply LastIndexByte_None in Hnil. congruence. }
    replace (1 `max` length (lines ch))%nat with (length (lines ch)); [apply lines_take_prefix|].
    destruct (lines ch); [done|cbn; lia].
  - apply LastIndexByte_None in He. rewrite (lines_nil ch He). cbn [length Nat.max].
    rewrite read_loop_on; [|unfold ch in *; rewrite length_take; lia|done|lia].
    do 3 f_equal. replace (Z.to_nat (pos + llen ch)) with (Z.to_nat pos + length ch)%nat by lia.
    rewrite <- drop_drop. fold r. unfold ch. rewrite length_take.
    destruct (Nat.le_ge_cases (Z.to_nat limit) (length r)).
    + rewrite Nat.min_l by lia. by rewrite take_drop.
    + rewrite Nat.min_r by lia. rewrite drop_all, app_nil_r. by rewrite take_ge by lia.
Qed.

End Reads.

(** ** The reference reading *)

Section Deliver.
Context {Meta : Type} (sha256Hex : list ascii -> string).
Variables (dec : Decoder (Meta := Meta)).

(** What one line adds to what was read before it. *)
Definition read_line (gen : string) (s : scan (Meta := Meta)) (l : list ascii) : scan :=
  let at_ := s.(sc_offset) in
  let offset := at_ + llen l + 1 in
  if blank l then
    {| sc_events := s.(sc_events); sc_errors := s.(sc_errors); sc_seq := s.(sc_seq); sc_offset := offset |}
  else match dec l with
  | Err e =>
    {| sc_events := s.(sc_events);
       sc_errors := s.(sc_errors) ++
         [{| ErrOffset := at_; Length := llen l + 1; SHA256 := sha256Hex (l ++ [nl]); Err_ := e |}];
       sc_seq := s.(sc_seq); sc_offset := offset |}
  | Ok blocks =>
    {| sc_events := s.(sc_events) ++ number gen at_ s.(sc_seq) blocks;
       sc_errors := s.(sc_errors); sc_seq := s.(sc_seq) + llen blocks; sc_offset := offset |}
  end.

Definition scan_at (seq off : Z) : scan (Meta := Meta) :=
  {| sc_events := []; sc_errors := []; sc_seq := seq; sc_offset := off |}.

Definition read_lines (gen : string) (s : scan) (ls : list (list ascii)) : scan :=
  fold_left (read_line gen) ls s.

(** Reading a file's lines from its start in one pass. *)
Definition transcript (gen : string) (ls : list (list ascii)) : scan := read_lines gen (scan_at 0 0) ls.

(** [s] and then what [t] read after it. *)
Definition then_ (s t : scan (Meta := Meta)) : scan :=
  {| sc_events := s.(sc_events) ++ t.(sc_events); sc_errors := s.(sc_errors) ++ t.(sc_errors);
     sc_seq := t.(sc_seq); sc_offset := t.(sc_offset) |}.

Lemma read_line_then gen s t l : read_line gen (then_ s t) l = then_ s (read_line gen t l).
Proof.
  unfold read_line, then_. cbn. destruct (blank l); [done|]. destruct (dec l); cbn; by rewrite app_assoc.
Qed.

Lemma read_lines_then gen ls : forall s t, read_lines gen (then_ s t) ls = then_ s (read_lines gen t ls).
Proof.
  unfold read_lines. induction ls as [|l ls IH]; intros s t; cbn [fold_left]; [done|].
  by rewrite read_line_then, IH.
Qed.

Lemma read_lines_from gen s ls :
  read_lines gen s ls = then_ s (read_lines gen (scan_at s.(sc_seq) s.(sc_offset)) ls).
Proof.
  rewrite <- read_lines_then. f_equal. unfold then_, scan_at. cbn. rewrite !app_nil_r. by destruct s.
Qed.

Lemma read_lines_app gen s l1 l2 : read_lines gen s (l1 ++ l2) = read_lines gen (read_lines gen s l1) l2.
Proof. apply fold_left_app. Qed.

Lemma read_lines_offset gen ls : forall s,
  (read_lines gen s ls).(sc_offset) = s.(sc_offset) + llen (unlines ls).
Proof.
  unfold read_lines. induction ls as [|l ls IH]; intros s; cbn [fold_left]; [cbn; lia|].
  rewrite IH, unlines_cons, length_app. cbn [length].
  assert (Hl : (read_line gen s l).(sc_offset) = s.(sc_offset) + llen l + 1).
  { unfold read_line. destruct (blank l); [done|]. by destruct (dec l). }
  rewrite Hl. lia.
Qed.

Definition seqs (es : list (FollowedEvent (Meta := Meta))) : list Z :=
  map (fun e => (FollowedEvent_Event e).(Seq)) es.

Lemma seqs_app a b : seqs (a ++ b) = seqs a ++ seqs b.
Proof. apply map_app. Qed.

(** Events are numbered without a gap: the next one's number is their count. *)
Lemma number_seq gen at_ bs : forall seq,
  seqs (number gen at_ seq bs) = seqZ seq (llen bs).
Proof.
  induction bs as [|b bs IH]; intros seq; [done|]. unfold seqs in *. cbn [number map].
  rewrite seqZ_cons by (cbn; lia). rewrite IH. cbn. do 2 f_equal; lia.
Qed.

Lemma read_line_seq gen s l :
  seqs s.(sc_events) = seqZ 0 s.(sc_seq) -> 0 <= s.(sc_seq) ->
  seqs (read_line gen s l).(sc_events) = seqZ 0 (read_line gen s l).(sc_seq)
  /\ 0 <= (read_line gen s l).(sc_seq).
Proof.
  intros Hs H0. unfold read_line. destruct (blank l); [done|]. destruct (dec l) as [bs|e]; cbn; [|done].
  split; [|lia]. rewrite seqs_app, Hs, number_seq. rewrite seqZ_app by lia. by rewrite Z.add_0_l.
Qed.

Lemma transcript_seq gen ls :
  seqs (transcript gen ls).(sc_events)
  = seqZ 0 (transcript gen ls).(sc_seq).
Proof.
  unfold transcript, read_lines.
  enough (H : forall s, seqs s.(sc_events) = seqZ 0 s.(sc_seq) /\ 0 <= s.(sc_seq) ->
     seqs (fold_left (read_line gen) ls s).(sc_events)
     = seqZ 0 (fold_left (read_line gen) ls s).(sc_seq)) by (by apply H).
  induction ls as [|l ls IH]; intros s [Hs H0]; cbn [fold_left]; [done|]. apply IH. by apply read_line_seq.
Qed.

Lemma poll_loop_lines gen ls : forall fuel s, Forall (fun l => nl ∉ l) ls -> (length (unlines ls) <= fuel)%nat ->
  poll_loop sha256Hex fuel dec gen (unlines ls) s = read_lines gen s ls.
Proof.
  induction ls as [|l ls IH]; intros fuel s Hn Hf; [by destruct fuel|].
  apply Forall_cons_iff in Hn as [Hl Hn]. rewrite unlines_cons in Hf |- *.
  rewrite length_app in Hf. cbn [length] in Hf. destruct fuel as [|fuel]; [lia|].
  unfold read_lines. cbn [poll_loop fold_left]. rewrite IndexByte_app by done.
  rewrite (cons_middle nl l), app_assoc.
  assert (Hlen : S (length l) = length (l ++ [nl])) by (rewrite length_app; cbn; lia).
  rewrite Hlen, take_app_length, drop_app_length, <- Hlen.
  replace (S (length l) - 1)%nat with (length l) by lia. rewrite take_app_length.
  replace (Z.of_nat (S (length l))) with (llen l + 1) by lia.
  unfold read_line at 2. rewrite <- Z.add_assoc.
  destruct (blank l); [apply IH; [done|lia]|].
  destruct (dec l); (apply IH; [done|lia]).
Qed.

(** ** Checkpoints that describe the file *)

(** [covers ino c p j]: checkpoint [p] stands after the first [j] lines of
    [c], and its windows are [c]'s. *)
Definition covers (ino : Z) (c : list ascii) (p : Checkpoint) (j : nat) : Prop :=
  (j <= length (lines c))%nat /\
  p.(Offset) = llen (first_lines c j) /\
  (p.(Inode) = 0 \/ p.(Inode) = ino) /\
  p.(PrefixLen) = Z.min p.(Offset) checkpointWindow /\
  p.(BoundaryLen) = Z.min p.(Offset) checkpointWindow /\
  (p.(Offset) <> 0 ->
     p.(PrefixSHA256) = sha256Hex (take (Z.to_nat p.(PrefixLen)) (first_lines c j)) /\
     p.(BoundarySHA256) = sha256Hex (lastn (Z.to_nat p.(BoundaryLen)) (first_lines c j))).

Lemma covers_grow ino c x p j : covers ino c p j -> covers ino (c ++ x) p j.
Proof.
  unfold covers. intros (Hj & H). rewrite first_lines_grow by done. split; [|done].
  rewrite lines_app, length_app. lia.
Qed.

Lemma take_min_prefix (c : list ascii) j n : (n <= length (first_lines c j))%nat ->
  take n c = take n (first_lines c j).
Proof. intros H. rewrite (split_at_line c j) at 1. by rewrite take_app_le. Qed.

Lemma boundary_window (c : list ascii) j n : (n <= length (first_lines c j))%nat ->
  take n (drop (length (first_lines c j) - n) c) = lastn n (first_lines c j).
Proof.
  intros H. rewrite (split_at_line c j) at 2. rewrite drop_app_le by lia.
  unfold lastn. rewrite take_app_le by (rewrite length_drop; lia).
  apply take_ge. rewrite length_drop. lia.
Qed.

(** A file that still extends the checkpoint verifies, and verify hands back
    the windows. *)
Lemma verify_covers (f : Follower (Meta := Meta)) c ino j :
  covers ino c f.(cp) j ->
  verify sha256Hex f (still c ino) (llen c) ino
  = Ok (take (Z.to_nat f.(cp).(PrefixLen)) (first_lines c j),
        lastn (Z.to_nat f.(cp).(BoundaryLen)) (first_lines c j), None).
Proof.
  intros (Hj & Hoff & Hino & Hpl & Hbl & Hsha). unfold verify.
  assert (Hle : (length (first_lines c j) <= length c)%nat).
  { rewrite <- (take_first_lines c j) at 1. rewrite length_take. lia. }
  assert (Hw : 0 < checkpointWindow) by done.
  destruct (Z.eqb_spec f.(cp).(Offset) 0) as [H0|H0].
  { rewrite Hpl, Hbl, H0. unfold lastn. rewrite drop_ge by (cbn; lia). done. }
  destruct (Hsha H0) as [Hp Hb].
  assert (Hi : negb (f.(cp).(Inode) =? 0) && negb (ino =? 0) && negb (ino =? f.(cp).(Inode)) = false).
  { destruct Hino as [->| ->]; [done|]. rewrite Z.eqb_refl, andb_false_r. done. }
  rewrite Hi. destruct (Z.ltb_spec (llen c) f.(cp).(Offset)); [lia|].
  rewrite (readAt_still c ino 0) by lia. cbn [mbind result_bind]. change (Z.to_nat 0) with 0%nat. rewrite drop_0.
  destruct (Z.ltb_spec (llen c - Z.min 0 (llen c)) f.(cp).(PrefixLen)); [lia|].
  rewrite (take_min_prefix c j) by lia. rewrite <- Hp, String.eqb_refl. cbn [negb].
  rewrite (readAt_still c ino 1) by lia. cbn [mbind result_bind].
  destruct (Z.ltb_spec (llen c - Z.min (f.(cp).(Offset) - f.(cp).(BoundaryLen)) (llen c)) f.(cp).(BoundaryLen)); [lia|].
  replace (Z.to_nat (f.(cp).(Offset) - f.(cp).(BoundaryLen)))
    with (length (first_lines c j) - Z.to_nat f.(cp).(BoundaryLen))%nat by lia.
  rewrite boundary_window by lia. by rewrite <- Hb, String.eqb_refl.
Qed.

Lemma window_first prev data :
  window sha256Hex prev data true
  = (Z.min (llen (prev ++ data)) checkpointWindow,
     sha256Hex (take (Z.to_nat (Z.min (llen (prev ++ data)) checkpointWindow)) (prev ++ data))).
Proof.
  unfold window. rewrite length_app, Nat2Z.inj_add. f_equal. f_equal. rewrite take_app.
  set (n := Z.min _ checkpointWindow).
  assert (Hn : 0 <= n <= llen prev + llen data) by (unfold n, checkpointWindow; lia).
  f_equal; [|f_equal; lia].
  destruct (Z.le_ge_cases (llen prev) n); [|f_equal; lia]. rewrite !take_ge by lia. done.
Qed.

Lemma window_last prev data :
  window sha256Hex prev data false
  = (Z.min (llen (prev ++ data)) checkpointWindow,
     sha256Hex (lastn (Z.to_nat (Z.min (llen (prev ++ data)) checkpointWindow)) (prev ++ data))).
Proof.
  unfold window. rewrite length_app, Nat2Z.inj_add. f_equal. f_equal. unfold lastn.
  rewrite drop_app, length_app. set (n := Z.min _ checkpointWindow).
  assert (Hn : 0 <= n <= llen prev + llen data) by (unfold n, checkpointWindow; lia).
  f_equal; [|f_equal; lia].
  destruct (Z.le_ge_cases (llen data) n); [f_equal; lia|]. rewrite !drop_ge by lia. done.
Qed.

(** ** One Poll *)

(** [reads ino c p j k b]: from checkpoint [p], after the first [j] lines of
    [c], batch [b] holds what the next [k] lines add. *)
Definition reads (ino : Z) (c : list ascii) (p : Checkpoint) (j k : nat) (b : Batch (Meta := Meta)) : Prop :=
  let s := read_lines p.(Generation) (scan_at p.(NextSeq) p.(Offset)) (take k (drop j (lines c))) in
  b.(From) = p /\ b.(Events) = s.(sc_events) /\ b.(Errors) = s.(sc_errors) /\
  b.(BatchCheckpoint).(NextSeq) = s.(sc_seq) /\
  b.(BatchCheckpoint).(Generation) = p.(Generation) /\
  b.(BatchCheckpoint).(SessionID) = p.(SessionID) /\
  b.(BatchCheckpoint).(Version) = p.(Version) /\
  covers ino c b.(BatchCheckpoint) (j + k).

(** The cap a follower works under. *)
Definition cap (f : Follower (Meta := Meta)) : nat :=
  Z.to_nat (if f.(MaxBatchBytes) <=? 0 then defaultMaxBatchBytes else f.(MaxBatchBytes)).

(** How many of the remaining lines a Poll returns. *)
Definition polled_lines (f : Follower (Meta := Meta)) (c : list ascii) (j : nat) : nat :=
  Nat.min (batch_lines (cap f) (drop (length (first_lines c j)) c)) (length (lines c) - j).

Lemma readRecords_still f c ino j : (j <= length (lines c))%nat ->
  readRecords f (still c ino) (llen (first_lines c j)) (llen c)
  = Ok (unlines (take (polled_lines f c j) (drop j (lines c)))).
Proof.
  intros Hj. unfold readRecords, polled_lines, cap.
  assert (Hle : (length (first_lines c j) <= length c)%nat).
  { rewrite <- (take_first_lines c j) at 1. rewrite length_take. lia. }
  set (limit := if _ <=? 0 then _ else _).
  assert (Hlim : 0 < limit) by (unfold limit; destruct (Z.leb_spec f.(MaxBatchBytes) 0); [done|lia]).
  rewrite (read_loop_first c ino limit Hlim) by lia. rewrite Nat2Z.id, lines_drop_first.
  f_equal. f_equal. rewrite <- take_take. f_equal. rewrite take_ge; [done|]. rewrite length_drop. lia.
Qed.

Lemma covers_next ino c p q j k :
  covers ino c p j -> (j + k <= length (lines c))%nat -> (0 < k)%nat ->
  let data := unlines (take k (drop j (lines c))) in
  let head := take (Z.to_nat p.(PrefixLen)) (first_lines c j) in
  let tail := lastn (Z.to_nat p.(BoundaryLen)) (first_lines c j) in
  q.(Offset) = p.(Offset) + llen data ->
  (q.(Inode) = 0 \/ q.(Inode) = ino) ->
  (q.(PrefixLen), q.(PrefixSHA256)) =
    (if p.(PrefixLen) =? p.(Offset) then window sha256Hex head data true else (p.(PrefixLen), p.(PrefixSHA256))) ->
  (q.(BoundaryLen), q.(BoundarySHA256)) = window sha256Hex tail data false ->
  covers ino c q (j + k).
Proof.
  intros (Hj & Hoff & _ & Hpl & Hbl & Hsha) Hk Hk0 data head tail Hqo Hqi Hqp Hqb.
  assert (Hw : 0 < checkpointWindow) by done.
  assert (Hfl : first_lines c (j + k) = first_lines c j ++ data) by (by apply first_lines_add).
  unfold covers. rewrite Hfl, length_app.
  rewrite window_last in Hqb. rewrite window_first in Hqp.
  assert (Ht : tail ++ data = lastn (length tail + length data) (first_lines c j ++ data)).
  { unfold tail, lastn. rewrite length_drop, length_app, drop_app_le by lia. f_equal. f_equal. lia. }
  assert (Hlt : length tail = Z.to_nat p.(BoundaryLen)) by (unfold tail; rewrite length_lastn; lia).
  split; [lia|]. split; [lia|]. split; [done|].
  assert (HB : q.(BoundaryLen) = Z.min q.(Offset) checkpointWindow).
  { injection Hqb as -> _. rewrite length_app. lia. }
  assert (HP : q.(PrefixLen) = Z.min q.(Offset) checkpointWindow).
  { destruct (Z.eqb_spec p.(PrefixLen) p.(Offset)); injection Hqp as -> _; [|lia].
    rewrite length_app. unfold head. rewrite length_take. lia. }
  split; [done|]. split; [done|]. intros _. split.
  - destruct (Z.eqb_spec p.(PrefixLen) p.(Offset)) as [He|He]; injection Hqp as HqP ->.
    + f_equal. assert (Hh : head = first_lines c j) by (unfold head; rewrite take_ge by lia; done).
      rewrite Hh in *. f_equal. lia.
    + destruct Hsha as [-> _]; [lia|]. f_equal. rewrite HqP. by rewrite take_app_le by lia.
  - injection Hqb as HqB ->. rewrite <- HqB. f_equal. rewrite Ht. unfold lastn.
    rewrite drop_drop, !length_app, length_drop, length_app.
    f_equal. rewrite length_app in HqB. lia.
Qed.

(** Polling a file that extends the checkpoint returns the next lines, at
    least one when one is complete, and never resets. *)
Lemma Poll_still f c ino uuid j :
  covers ino c f.(cp) j -> f.(decode) = dec ->
  exists b, Poll sha256Hex f (still c ino) uuid = (f, (b, None)) /\
            reads ino c f.(cp) j (polled_lines f c j) b.
Proof.
  intros Hcov Hdec. pose proof Hcov as (Hj & Hoff & _). unfold Poll. cbn [open_err stat still].
  rewrite (verify_covers f c ino j Hcov). rewrite Hoff, readRecords_still by done.
  set (k := polled_lines f c j).
  assert (Hk : (j + k <= length (lines c))%nat) by (unfold k, polled_lines; lia).
  destruct (unlines (take k (drop j (lines c)))) as [|a t] eqn:Hd.
  - assert (Hnil : take k (drop j (lines c)) = []).
    { destruct (take k (drop j (lines c))); [done|]. rewrite unlines_cons in Hd. by destruct l. }
    eexists. split; [done|]. unfold reads. rewrite Hnil. cbn. split_and!; try done.
    apply (f_equal length) in Hnil. rewrite length_take, length_drop in Hnil. cbn in Hnil.
    replace (j + k)%nat with j by lia. done.
  - rewrite <- Hd. rewrite Hdec, poll_loop_lines by (try apply Forall_take, Forall_drop, lines_no_nl; lia).
    fold (scan_at f.(cp).(NextSeq) (llen (first_lines c j))). rewrite <- Hoff.
    set (s := read_lines _ _ _).
    set (w1 := if _ =? _ then _ else _). destruct w1 as [pl ps] eqn:H1.
    set (w2 := window _ _ _ false). destruct w2 as [bl bs] eqn:H2.
    eexists. split; [reflexivity|]. unfold reads. fold s. cbn. split_and!; try done.
    eapply covers_next; [exact Hcov|done| |..]; cbn.
    + destruct k; [by rewrite take_0 in Hd|lia].
    + unfold s. by rewrite read_lines_offset.
    + destruct Hcov as (_ & _ & Hi & _). destruct (Z.eqb_spec ino 0); cbn; [done|by right].
    + by rewrite <- H1.
    + by rewrite <- H2.
Qed.

(** The same file with a writer appending to it while Poll reads: the k-th
    read finds [xs k] beyond what Stat saw. *)
Definition growing (c : list ascii) (ino : Z) (xs : nat -> list ascii) : File :=
  {| open_err := None; stat := Ok (llen c, ino); bytes_at := fun k => c ++ xs k; read_err := fun _ => None |}.

Lemma readAt_growing c ino xs k off n : 0 <= off -> 0 <= n -> off + n <= llen c ->
  readAt (growing c ino xs) k off n = readAt (still c ino) k off n.
Proof.
  intros Ho Hn Hle. unfold readAt. cbn. rewrite drop_app_le, take_app_le by (rewrite ?length_drop; lia). done.
Qed.

Lemma read_loop_growing c ino xs limit : 0 < limit -> forall fuel k pos data, 0 <= pos ->
  read_loop fuel k (growing c ino xs) limit (llen c) pos data
  = read_loop fuel k (still c ino) limit (llen c) pos data.
Proof.
  intros Hl. induction fuel as [|fuel IH]; intros k pos data Hp; [done|]. cbn [read_loop].
  destruct (Z.ltb_spec pos (llen c)); [|done]. rewrite readAt_growing by lia.
  destruct (readAt (still c ino) k pos _) as [[chunk sh]|]; [|done]. cbn.
  destruct chunk; [done|]. destruct data; rewrite !IH by lia; done.
Qed.

(** A checkpoint whose windows fit its offset. *)
Definition fits (p : Checkpoint) : Prop :=
  0 <= p.(PrefixLen) <= p.(Offset) /\ 0 <= p.(BoundaryLen) <= p.(Offset).

Lemma covers_fits ino c p j : covers ino c p j -> fits p.
Proof.
  intros (_ & Ho & _ & Hp & Hb & _). assert (0 < checkpointWindow) by done. unfold fits. lia.
Qed.

Lemma Poll_growing (f : Follower (Meta := Meta)) c ino xs uuid : fits f.(cp) ->
  Poll sha256Hex f (growing c ino xs) uuid = Poll sha256Hex f (still c ino) uuid.
Proof.
  intros [Hp Hb]. unfold Poll. cbn [open_err stat growing still].
  assert (Hv : verify sha256Hex f (growing c ino xs) (llen c) ino = verify sha256Hex f (still c ino) (llen c) ino).
  { unfold verify. destruct (f.(cp).(Offset) =? 0); [done|]. case_match; [done|].
    destruct (Z.ltb_spec (llen c) f.(cp).(Offset)); [done|]. rewrite !readAt_growing by lia. done. }
  rewrite Hv. assert (Hr : readRecords f (growing c ino xs) f.(cp).(Offset) (llen c)
                         = readRecords f (still c ino) f.(cp).(Offset) (llen c)).
  { unfold readRecords. apply read_loop_growing; [|lia]. destruct (Z.leb_spec f.(MaxBatchBytes) 0); [done|lia]. }
  by rewrite Hr.
Qed.

Lemma reads_grow ino c x p j k b : (j + k <= length (lines c))%nat ->
  reads ino c p j k b -> reads ino (c ++ x) p j k b.
Proof.
  intros Hk. unfold reads. rewrite lines_app, drop_app_le, take_app_le by (rewrite ?length_drop; lia).
  intros (? & ? & ? & ? & ? & ? & ? & Hc). split_and!; try done. by apply covers_grow.
Qed.

(** ** Exactly once: a caller that commits, crashes and restarts *)

Variables (thePath sid : string) (ino : Z).

(** The file, the follower, what the caller stored (its events, its source
    errors and the checkpoint, in one transaction) and the batch it holds. *)
Record world := mkWorld {
  w_file : list ascii; w_fol : Follower (Meta := Meta);
  w_events : list (FollowedEvent (Meta := Meta)); w_errors : list SourceError; w_cp : Checkpoint;
  w_polled : option (Batch (Meta := Meta)) }.

Definition with_cap (f : Follower (Meta := Meta)) (n : Z) : Follower :=
  mkFollower n f.(path) f.(decode) f.(cp).

Inductive wstep : world -> world -> Prop :=
| w_append w x :
    wstep w (mkWorld (w.(w_file) ++ x) w.(w_fol) w.(w_events) w.(w_errors) w.(w_cp) w.(w_polled))
| w_poll w n uuid xs f' b err :
    Poll sha256Hex (with_cap w.(w_fol) n) (growing w.(w_file) ino xs) uuid = (f', (b, err)) ->
    wstep w (mkWorld w.(w_file) f' w.(w_events) w.(w_errors) w.(w_cp)
               (match err with None => Some b | Some _ => None end))
| w_commit_ack w b f' :
    w.(w_polled) = Some b -> Ack w.(w_fol) b = Ok f' ->
    wstep w (mkWorld w.(w_file) f' (w.(w_events) ++ b.(Events)) (w.(w_errors) ++ b.(Errors))
               b.(BatchCheckpoint) None)
| w_commit_crash w b uuid f' :
    w.(w_polled) = Some b -> uuid <> ""%string ->
    NewFollower thePath sid b.(BatchCheckpoint) (Some dec) uuid = Ok f' ->
    wstep w (mkWorld w.(w_file) f' (w.(w_events) ++ b.(Events)) (w.(w_errors) ++ b.(Errors))
               b.(BatchCheckpoint) None)
| w_crash w uuid f' :
    uuid <> ""%string -> NewFollower thePath sid w.(w_cp) (Some dec) uuid = Ok f' ->
    wstep w (mkWorld w.(w_file) f' w.(w_events) w.(w_errors) w.(w_cp) None).

Definition noCheckpoint : Checkpoint := zero_position "" 0.

(** A first follower on a file that may hold anything already. *)
Definition initial (c : list ascii) (w : world) : Prop :=
  exists uuid f, uuid <> ""%string /\ NewFollower thePath sid noCheckpoint (Some dec) uuid = Ok f /\
    w = mkWorld c f [] [] noCheckpoint None.

Inductive reachable : world -> Prop :=
| reach_init c w : initial c w -> reachable w
| reach_step w w' : reachable w -> wstep w w' -> reachable w'.

(** The stored events are those of one pass over the first [j] lines. *)
Definition stored (w : world) (j : nat) : Prop :=
  let s := transcript w.(w_fol).(cp).(Generation) (take j (lines w.(w_file))) in
  w.(w_events) = s.(sc_events) /\ w.(w_errors) = s.(sc_errors) /\ w.(w_fol).(cp).(NextSeq) = s.(sc_seq).

Definition named (p : Checkpoint) : Prop :=
  p.(Version) = FollowerVersion /\ p.(SessionID) = sid /\ p.(Generation) <> ""%string.

Definition winv (w : world) : Prop :=
  exists j, covers ino w.(w_file) w.(w_fol).(cp) j /\ stored w j /\
    w.(w_fol).(decode) = dec /\ named w.(w_fol).(cp) /\
    (w.(w_cp) = w.(w_fol).(cp) \/ w.(w_cp) = noCheckpoint /\ j = 0%nat) /\
    (forall b, w.(w_polled) = Some b -> exists k, reads ino w.(w_file) w.(w_fol).(cp) j k b).

Lemma NewFollower_named p uuid f :
  named p -> NewFollower thePath sid p (Some dec) uuid = Ok f -> f.(cp) = p /\ f.(decode) = dec.
Proof.
  intros (Hv & Hs & Hg) H. unfold NewFollower in H.
  apply String.eqb_neq in Hg. rewrite Hg in H. cbn [andb] in H.
  repeat (apply when_Ok in H as [_ H]). injection H as <-. destruct p. cbn in *. by subst.
Qed.

Lemma NewFollower_first uuid f : uuid <> ""%string ->
  NewFollower thePath sid noCheckpoint (Some dec) uuid = Ok f ->
  f.(cp) = mkCheckpoint FollowerVersion sid uuid 0 0 0 0 "" 0 "" /\ f.(decode) = dec.
Proof.
  intros Hu H. unfold NewFollower in H. repeat (apply when_Ok in H as [_ H]). by injection H as <-.
Qed.

Lemma covers_start c uuid : covers ino c (mkCheckpoint FollowerVersion sid uuid 0 0 0 0 "" 0 "") 0.
Proof. unfold covers, first_lines. cbn. split_and!; try done; [lia|by left]. Qed.

Lemma winv_restart c uuid f evs errs : uuid <> ""%string ->
  NewFollower thePath sid noCheckpoint (Some dec) uuid = Ok f -> evs = [] -> errs = [] ->
  winv (mkWorld c f evs errs noCheckpoint None).
Proof.
  intros Hu Hf -> ->. apply NewFollower_first in Hf as [Hcp Hd]; [|done].
  exists 0%nat. unfold stored. cbn [w_fol w_file w_events w_errors w_cp w_polled]. rewrite Hcp.
  split; [apply covers_start|]. split; [done|]. split; [done|]. split; [done|]. split; [by right|done].
Qed.

(** Storing a batch the follower is at moves the stored events by its lines. *)
Lemma stored_commit w b j k f' :
  stored w j -> covers ino w.(w_file) w.(w_fol).(cp) j -> reads ino w.(w_file) w.(w_fol).(cp) j k b ->
  f'.(cp) = b.(BatchCheckpoint) ->
  stored (mkWorld w.(w_file) f' (w.(w_events) ++ b.(Events)) (w.(w_errors) ++ b.(Errors)) b.(BatchCheckpoint) None) (j + k).
Proof.
  intros (He & Hr & Hn) (Hj & Ho & _) (_ & Hbe & Hbr & Hbn & Hbg & _ & _ & Hbj & _) Hcp.
  unfold stored. cbn [w_fol w_file w_events w_errors]. rewrite Hcp, Hbg, <- take_take_drop.
  unfold transcript in *. rewrite read_lines_app, read_lines_from.
  rewrite <- Hn, read_lines_offset.
  replace (sc_offset (scan_at 0 0) + llen (unlines (take j (lines w.(w_file)))))
    with w.(w_fol).(cp).(Offset) by (rewrite Ho; cbn; done).
  unfold then_. cbn. rewrite He, Hr, Hbe, Hbr, Hbn. done.
Qed.

Lemma reads_named w b j k :
  named w.(w_fol).(cp) -> reads ino w.(w_file) w.(w_fol).(cp) j k b -> named b.(BatchCheckpoint).
Proof. intros (? & ? & ?) (_ & _ & _ & _ & Hg & Hs & Hv & _). unfold named. by rewrite Hg, Hs, Hv. Qed.

Lemma winv_commit w b j k f' :
  stored w j -> covers ino w.(w_file) w.(w_fol).(cp) j -> named w.(w_fol).(cp) ->
  reads ino w.(w_file) w.(w_fol).(cp) j k b -> f'.(cp) = b.(BatchCheckpoint) -> f'.(decode) = dec ->
  winv (mkWorld w.(w_file) f' (w.(w_events) ++ b.(Events)) (w.(w_errors) ++ b.(Errors)) b.(BatchCheckpoint) None).
Proof.
  intros Hs Hc Hn Hr Hcp Hd. exists (j + k)%nat. cbn [w_fol w_file w_cp w_polled].
  pose proof (reads_named w b j k Hn Hr) as Hn'. rewrite Hcp.
  split_and!; try done; [|by eapply stored_commit|by left].
  by destruct Hr as (_ & _ & _ & _ & _ & _ & _ & ?).
Qed.

Lemma winv_step w w' : winv w -> wstep w w' -> winv w'.
Proof.
  intros (j & Hc & Hs & Hd & Hn & Hp & Hb) Hstep. pose proof Hc as (Hj & _).
  destruct Hstep as [w x|w n uuid xs f' b err Hpoll|w b f' Hpb Hack|w b uuid f' Hpb Hu Hnew|w uuid f' Hu Hnew].
  - exists j. cbn [w_fol w_file w_cp w_polled]. split_and!; try done; [by apply covers_grow| |].
    + unfold stored in *. cbn. rewrite lines_app, take_app_le by done. done.
    + intros b Hpb. destruct (Hb b Hpb) as [k Hk]. exists k. apply reads_grow; [|done].
      by destruct Hk as (_ & _ & _ & _ & _ & _ & _ & ? & _).
  - rewrite Poll_growing in Hpoll by (eapply covers_fits, Hc).
    destruct (Poll_still (with_cap w.(w_fol) n) w.(w_file) ino uuid j Hc Hd) as (b' & Hb' & Hr).
    rewrite Hb' in Hpoll. injection Hpoll as <- <- <-. exists j. split_and!; try done.
    intros ? [= <-]. eauto.
  - destruct (Hb b Hpb) as [k Hk]. unfold Ack in Hack. apply when_Ok in Hack as [_ [= <-]].
    by eapply winv_commit.
  - destruct (Hb b Hpb) as [k Hk].
    apply NewFollower_named in Hnew as [Hcp Hdec]; [|by eapply reads_named]. by eapply winv_commit.
  - destruct Hp as [Hp|[Hp ->]].
    + rewrite Hp in Hnew |- *. apply NewFollower_named in Hnew as [Hcp Hdec]; [|done].
      exists j. unfold stored in *. cbn [w_fol w_file w_cp w_polled w_events w_errors]. rewrite Hcp.
      split; [done|]. split; [done|]. split; [done|]. split; [done|]. split; [by left|done].
    + rewrite Hp in *. destruct Hs as (He & Hr & _). by eapply winv_restart.
Qed.

Lemma reachable_winv w : reachable w -> winv w.
Proof.
  induction 1 as [c w (uuid & f & Hu & Hf & ->)|w w' _ IH Hstep]; [by eapply winv_restart|].
  by eapply winv_step.
Qed.

(** C7: In every reachable state, whatever was appended, polled, committed, lost or
    restarted, the caller's store holds exactly what one pass over the first
    [j] complete lines of the file reads: each record's events once, in order,
    numbered 0, 1, 2, ..., each unreadable record reported once; and the
    follower stands just past those lines. *)
Theorem stored_exactly_once w : reachable w ->
  exists j, let s := transcript w.(w_fol).(cp).(Generation) (take j (lines w.(w_file))) in
    (j <= length (lines w.(w_file)))%nat /\
    w.(w_events) = s.(sc_events) /\ w.(w_errors) = s.(sc_errors) /\
    seqs w.(w_events) = seqZ 0 s.(sc_seq) /\
    w.(w_fol).(cp).(Offset) = llen (unlines (take j (lines w.(w_file)))).
Proof.
  intros (j & (Hj & Ho & _) & (He & Hr & _) & _)%reachable_winv. exists j. cbn zeta.
  split_and!; try done. rewrite He. apply transcript_seq.
Qed.

(** A file that only grows is never taken for a reset, and no Poll of it
    fails. *)
Theorem growing_never_resets w n xs uuid : reachable w ->
  exists b, Poll sha256Hex (with_cap w.(w_fol) n) (growing w.(w_file) ino xs) uuid
            = (with_cap w.(w_fol) n, (b, None)).
Proof.
  intros (j & Hc & _ & Hd & _)%reachable_winv.
  rewrite Poll_growing by (eapply covers_fits, Hc).
  destruct (Poll_still (with_cap w.(w_fol) n) w.(w_file) ino uuid j Hc Hd) as (b & Hb & _). eauto.
Qed.

(** ** Progress *)

(** Poll, then Ack what it returned. *)
Definition round (c : list ascii) (f : Follower (Meta := Meta)) : Follower * scan :=
  match Poll sha256Hex f (still c ino) "" with
  | (f', (b, None)) =>
    match Ack f' b with
    | Ok f'' => (f'', {| sc_events := b.(Events); sc_errors := b.(Errors);
                         sc_seq := f''.(cp).(NextSeq); sc_offset := f''.(cp).(Offset) |})
    | Err _ => (f', scan_at f'.(cp).(NextSeq) f'.(cp).(Offset))
    end
  | (f', _) => (f', scan_at f'.(cp).(NextSeq) f'.(cp).(Offset))
  end.

Fixpoint rounds (n : nat) (c : list ascii) (f : Follower (Meta := Meta)) : Follower * scan :=
  match n with
  | O => (f, scan_at f.(cp).(NextSeq) f.(cp).(Offset))
  | S n =>
    let '(f1, s1) := round c f in
    let '(f2, s2) := rounds n c f1 in
    (f2, then_ s1 s2)
  end.

Lemma round_spec c f j : covers ino c f.(cp) j -> f.(decode) = dec ->
  let k := polled_lines f c j in
  let '(f', s) := round c f in
  covers ino c f'.(cp) (j + k) /\ f'.(decode) = dec /\ f'.(MaxBatchBytes) = f.(MaxBatchBytes) /\
  f'.(cp).(Generation) = f.(cp).(Generation) /\
  f'.(cp).(NextSeq) = s.(sc_seq) /\ f'.(cp).(Offset) = s.(sc_offset) /\
  s = read_lines f.(cp).(Generation) (scan_at f.(cp).(NextSeq) f.(cp).(Offset)) (take k (drop j (lines c))).
Proof.
  intros Hc Hd. cbn zeta. unfold round.
  destruct (Poll_still f c ino "" j Hc Hd) as (b & -> & Hr).
  destruct Hr as (Hf & He & Hrr & Hs & Hg & _ & _ & Hc'). unfold Ack.
  rewrite Hf, bool_decide_eq_true_2 by done. cbn.
  split_and!; try done. rewrite He, Hrr, Hs. destruct Hc as (Hj & Ho & _). destruct Hc' as (Hj' & Ho' & _).
  assert (Hoff : b.(BatchCheckpoint).(Offset) = sc_offset (read_lines (Generation (cp f))
      (scan_at (NextSeq (cp f)) (Offset (cp f))) (take (polled_lines f c j) (drop j (lines c))))).
  { rewrite read_lines_offset, Ho', first_lines_add by done. cbn [sc_offset scan_at].
    rewrite length_app. lia. }
  rewrite Hoff. by destruct (read_lines _ _ _).
Qed.

(** Each round reads at least one line. *)
Lemma rounds_all n : forall c f j,
  covers ino c f.(cp) j -> f.(decode) = dec -> (length (lines c) <= j + n)%nat ->
  let '(f', s) := rounds n c f in
  f'.(cp).(Offset) = llen (unlines (lines c)) /\
  s = read_lines f.(cp).(Generation) (scan_at f.(cp).(NextSeq) f.(cp).(Offset)) (drop j (lines c)).
Proof.
  induction n as [|n IH]; intros c f j Hc Hd Hn; cbn [rounds].
  - destruct Hc as (Hj & Ho & _). assert (j = length (lines c)) as -> by lia.
    rewrite drop_all. split; [|done]. rewrite Ho. unfold first_lines. by rewrite take_ge by lia.
  - pose proof (round_spec c f j Hc Hd) as Hr. cbn zeta in Hr. destruct (round c f) as [f1 s1].
    destruct Hr as (Hc1 & Hd1 & _ & Hg1 & Hs1 & Ho1 & Hs).
    set (k := polled_lines f c j) in *.
    assert (Hk : (length (lines c) <= (j + k) + n)%nat).
    { unfold k, polled_lines, batch_lines. lia. }
    specialize (IH c f1 (j + k)%nat Hc1 Hd1 Hk). destruct (rounds n c f1) as [f2 s2].
    destruct IH as [IHo IHs]. split; [done|]. rewrite IHs, Hg1, Hs1, Ho1.
    rewrite <- (take_drop k (drop j (lines c))), read_lines_app, <- Hs, drop_drop.
    symmetry. apply read_lines_from.
Qed.

(** A Poll that finds a complete record returns at least one, whatever the
    batch cap: as many rounds of Poll and Ack as the file has unread lines
    read them all. *)
Theorem rounds_drain n c f j :
  covers ino c f.(cp) j -> f.(decode) = dec -> (length (lines c) <= j + n)%nat ->
  let '(f', s) := rounds n c f in
  f'.(cp).(Offset) = llen (unlines (lines c)) /\
  s = read_lines f.(cp).(Generation) (scan_at f.(cp).(NextSeq) f.(cp).(Offset)) (drop j (lines c)).
Proof. apply rounds_all. Qed.

(** ** Resets *)

(** What a checkpoint past the start asks of a file. *)
Definition extends (p : Checkpoint) (c : list ascii) : Prop :=
  (p.(Inode) = 0 \/ ino = 0 \/ ino = p.(Inode)) /\ p.(Offset) <= llen c /\
  sha256Hex (take (Z.to_nat p.(PrefixLen)) c) = p.(PrefixSHA256) /\
  sha256Hex (take (Z.to_nat p.(BoundaryLen)) (drop (Z.to_nat (p.(Offset) - p.(BoundaryLen))) c))
    = p.(BoundarySHA256).

Lemma verify_still_exact (f : Follower (Meta := Meta)) c : fits f.(cp) -> f.(cp).(Offset) <> 0 ->
  exists h t r, verify sha256Hex f (still c ino) (llen c) ino = Ok (h, t, r) /\
    (r = None <-> extends f.(cp) c).
Proof.
  intros [Hp Hb] H0. unfold verify, extends.
  destruct (Z.eqb_spec f.(cp).(Offset) 0) as [|_]; [done|].
  destruct (negb (f.(cp).(Inode) =? 0) && negb (ino =? 0) && negb (ino =? f.(cp).(Inode))) eqn:Hi.
  { bprop. eexists _, _, _. split; [done|]. split; [done|]. intros [Hx _]. lia. }
  assert (Hin : f.(cp).(Inode) = 0 \/ ino = 0 \/ ino = f.(cp).(Inode)).
  { destruct (Z.eqb_spec f.(cp).(Inode) 0); [by left|]. destruct (Z.eqb_spec ino 0); [by right; left|].
    destruct (Z.eqb_spec ino f.(cp).(Inode)); [by right; right|done]. }
  destruct (Z.ltb_spec (llen c) f.(cp).(Offset)).
  { eexists _, _, _. split; [done|]. split; [done|]. intros (_ & Hx & _). lia. }
  rewrite (readAt_still c ino 0), (readAt_still c ino 1) by lia.
  cbn [mbind result_bind]. change (Z.to_nat 0) with 0%nat. rewrite drop_0.
  destruct (Z.ltb_spec (llen c - Z.min 0 (llen c)) f.(cp).(PrefixLen)); [lia|].
  destruct (String.eqb_spec (sha256Hex (take (Z.to_nat f.(cp).(PrefixLen)) c)) f.(cp).(PrefixSHA256)) as [Hps|Hps]; cbn [negb].
  2: { eexists _, _, _. split; [done|]. split; [done|]. intros (_ & _ & Hx & _). done. }
  destruct (Z.ltb_spec (llen c - Z.min (f.(cp).(Offset) - f.(cp).(BoundaryLen)) (llen c)) f.(cp).(BoundaryLen)); [lia|].
  match goal with |- context [String.eqb ?a ?b] => destruct (String.eqb_spec a b) as [Hbs|Hbs] end; cbn [negb].
  - eexists _, _, _. split; [done|]. by split.
  - eexists _, _, _. split; [done|]. split; [done|]. by intros (_ & _ & _ & Hx).
Qed.

(** C39: A Poll past the start resets exactly when the file no longer extends the
    checkpoint. The batch is then empty, the error carries the checkpoint that
    no longer holds, and the follower has moved to a new generation from which
    the whole file is read again. *)
Theorem Poll_reset_exact f c uuid n :
  fits f.(cp) -> f.(cp).(Offset) <> 0 -> f.(decode) = dec -> (length (lines c) <= n)%nat ->
  let '(f', (b, err)) := Poll sha256Hex f (still c ino) uuid in
  ((exists r, err = Some (PollReset r)) <-> ~ extends f.(cp) c) /\
  (forall r, err = Some (PollReset r) ->
     b = mkBatch f.(cp) [] [] f.(cp) /\ r.(Previous) = f.(cp) /\
     (rounds n c f').2 = transcript uuid (lines c)).
Proof.
  intros Hf H0 Hd Hn. unfold Poll. cbn [open_err stat still].
  destruct (verify_still_exact f c Hf H0) as (h & t & r & -> & Hr).
  destruct r as [r|].
  - split.
    + split; [|eauto]. intros _ Hx. by apply Hr in Hx.
    + intros ? [= <-]. split; [done|]. split; [done|].
      pose proof (rounds_all n c (set_cp f (mkCheckpoint FollowerVersion (SessionID (cp f)) uuid 0 0 0 0 "" 0 "")) 0) as Hdr.
      destruct (rounds n c _) as [f2 s2]. destruct Hdr as [_ ->]; [|done|lia|done].
      unfold covers, first_lines. cbn. split_and!; try done; [lia|by left].
  - destruct (readRecords f _ _ _) as [[|a data]|e].
    + split; [|done]. split; [by intros [? ?]|]. intros Hx. by destruct Hx; apply Hr.
    + repeat case_match; simplify_eq; (split; [|done]); (split; [by intros [? ?]|]); intros Hx; destruct Hx; by apply Hr.
    + split; [|done]. split; [by intros [? ?]|]. intros Hx. by destruct Hx; apply Hr.
Qed.

End Deliver.

(** ** Identities *)

(** Which of the three forms an event's identity takes. *)
Inductive id_kind := IdTool | IdLine | IdGen.

Definition id_kind_of (e : Event) : id_kind :=
  if ((e.(Type_) =s? EventToolUse) || (e.(Type_) =s? EventToolResult)) && negb (e.(ToolUseID) =s? "")
  then IdTool else if negb (e.(UUID) =s? "") then IdLine else IdGen.

Definition colon : ascii := ":"%char.

Definition id_tail (e : Event) (block : Z) (gen : string) (off : Z) : string :=
  match id_kind_of e with
  | IdTool => "tool:" ++ e.(ToolUseID)
  | IdLine => "line:" ++ e.(UUID) ++ String colon (Itoa block)
  | IdGen => "gen:" ++ gen ++ String colon (Itoa off ++ String colon (Itoa block))
  end.

Lemma followerID_eq e block gen off :
  followerID e block gen off = ("v1:" ++ e.(Type_) ++ String colon (id_tail e block gen off))%string.
Proof.
  unfold followerID, id_tail, id_kind_of. change (Itoa FollowerVersion) with "1"%string.
  destruct (_ && _); [by rewrite !append_assoc|]. destruct (negb _); by rewrite !append_assoc.
Qed.

Lemma cut_colon_inj a b s t : no_byte colon a -> no_byte colon b ->
  (a ++ String colon s)%string = (b ++ String colon t)%string -> a = b /\ s = t.
Proof.
  intros Ha Hb H. apply (f_equal (fun x => Cut x colon)) in H. rewrite !Cut_app in H by done. by simplify_eq.
Qed.

(** What the harness and the follower put into identities: kinds, record uuids
    and generations without a colon, machine integers. *)
Definition id_fields (e : Event) (block : Z) (gen : string) (off : Z) : Prop :=
  no_byte colon e.(Type_) /\ no_byte colon e.(UUID) /\ no_byte colon gen /\
  - 2 ^ 63 <= block <= MaxInt /\ - 2 ^ 63 <= off <= MaxInt.

(** Two events with one identity are of one kind, and are the same tool call,
    the same block of the same record by the harness's uuid, or the same block
    of the record at the same offset of the same generation. *)
Theorem followerID_determines e1 b1 g1 o1 e2 b2 g2 o2 :
  id_fields e1 b1 g1 o1 -> id_fields e2 b2 g2 o2 ->
  followerID e1 b1 g1 o1 = followerID e2 b2 g2 o2 ->
  e1.(Type_) = e2.(Type_) /\ id_kind_of e1 = id_kind_of e2 /\
  match id_kind_of e1 with
  | IdTool => e1.(ToolUseID) = e2.(ToolUseID)
  | IdLine => e1.(UUID) = e2.(UUID) /\ b1 = b2
  | IdGen => g1 = g2 /\ o1 = o2 /\ b1 = b2
  end.
Proof.
  intros (Ht1 & Hu1 & Hg1 & Hb1 & Ho1) (Ht2 & Hu2 & Hg2 & Hb2 & Ho2). rewrite !followerID_eq.
  intros H%append_inj_l. apply cut_colon_inj in H as [HT H]; [|done..]. split; [done|].
  unfold id_tail in H. destruct (id_kind_of e1) eqn:K1, (id_kind_of e2) eqn:K2; try discriminate H; (split; [done|]).
  - by apply append_inj_l in H.
  - apply append_inj_l, cut_colon_inj in H as [HU H]; [|done..]. split; [done|]. by apply Itoa_inj.
  - apply append_inj_l, cut_colon_inj in H as [HG H]; [|done..].
    apply cut_colon_inj in H as [HO H]; [|by apply no_byte_Itoa..].
    split; [done|]. split; by apply Itoa_inj.
Qed.

(** ** Witnesses *)

Definition demo_event (text : string) : Event :=
  mkEvent 0 0 "user" "text" text "" "" "" "" "" "" "" 0 "" "".

(** A decoder of one text event per line. *)
Definition demo_dec : Decoder (Meta := unit) := fun l =>
  if str l =s? "bad" then Err "unreadable"%string
  else Ok [{| Block := 0; BlockEvent_Event := demo_event (str l); BlockMeta := tt |}].

Definition demo_file : list ascii :=
  list_ascii_of_string "one" ++ [nl] ++ list_ascii_of_string "bad" ++ [nl] ++ list_ascii_of_string "tw".

Definition demo_fol : Follower (Meta := unit) :=
  mkFollower 0 "p" demo_dec (mkCheckpoint 1 "s" "u" 0 0 0 0 "" 0 "").

Definition demo_xs (k : nat) : list ascii := ["x"%char].

(** A batch of at most one byte's worth of records: the first record. *)
Definition demo_poll := Poll str (with_cap demo_fol 1) (growing demo_file 7 demo_xs) "v".

Definition demo_world : world (Meta := unit) :=
  mkWorld demo_file (set_cp (with_cap demo_fol 1) demo_poll.2.1.(BatchCheckpoint))
    demo_poll.2.1.(Events) demo_poll.2.1.(Errors) demo_poll.2.1.(BatchCheckpoint) None.

Lemma demo_reachable : reachable str demo_dec "p" "s" 7 demo_world.
Proof.
  assert (H0 : reachable str demo_dec "p" "s" 7 (mkWorld demo_file demo_fol [] [] noCheckpoint None)).
  { apply (reach_init _ _ _ _ _ demo_file). exists "u"%string, demo_fol. split_and!; done. }
  assert (H1 : reachable str demo_dec "p" "s" 7
                 (mkWorld demo_file demo_poll.1 [] [] noCheckpoint (Some demo_poll.2.1))).
  { eapply reach_step; [exact H0|].
    refine (w_poll str demo_dec "p" "s" 7 (mkWorld demo_file demo_fol [] [] noCheckpoint None)
              1 "v" demo_xs demo_poll.1 demo_poll.2.1 None _). vm_compute. reflexivity. }
  eapply reach_step; [exact H1|].
  refine (w_commit_ack str demo_dec "p" "s" 7 (mkWorld demo_file demo_poll.1 [] [] noCheckpoint (Some demo_poll.2.1))
            demo_poll.2.1 _ eq_refl _). vm_compute. reflexivity.
Qed.

Lemma stored_exactly_once_witness :
  length demo_world.(w_events) = 1%nat /\ demo_world.(w_fol).(cp).(Offset) = 4 /\
  exists j, let s := transcript str demo_dec demo_world.(w_fol).(cp).(Generation)
                       (take j (lines demo_world.(w_file))) in
    (j <= length (lines demo_world.(w_file)))%nat /\
    demo_world.(w_events) = s.(sc_events) /\ demo_world.(w_errors) = s.(sc_errors) /\
    seqs demo_world.(w_events) = seqZ 0 s.(sc_seq) /\
    demo_world.(w_fol).(cp).(Offset) = llen (unlines (take j (lines demo_world.(w_file)))).
Proof.
  split; [vm_compute; reflexivity|]. split; [vm_compute; reflexivity|].
  refine (stored_exactly_once str demo_dec "p" "s" 7 demo_world demo_reachable).
Defined.

Lemma growing_never_resets_witness :
  exists b, Poll str (with_cap demo_world.(w_fol) 9) (growing demo_world.(w_file) 7 demo_xs) "v"
            = (with_cap demo_world.(w_fol) 9, (b, None)).
Proof. refine (growing_never_resets str demo_dec "p" "s" 7 demo_world 9 demo_xs "v" demo_reachable). Defined.

Lemma rounds_drain_witness :
  (rounds str 7 2 demo_file (with_cap demo_fol 1)).1.(cp).(Offset) = 8 /\
  let '(f', s) := rounds str 7 2 demo_file (with_cap demo_fol 1) in
  f'.(cp).(Offset) = llen (unlines (lines demo_file)) /\
  s = read_lines str demo_dec "u" (scan_at 0 0) (drop 0 (lines demo_file)).
Proof.
  split; [vm_compute; reflexivity|].
  refine (rounds_drain str demo_dec 7 2 demo_file (with_cap demo_fol 1) 0 _ _ _).
  - apply covers_start.
  - reflexivity.
  - vm_compute. lia.
Defined.

(** The file was rewritten from its first byte on. *)
Definition demo_rewritten : list ascii := list_ascii_of_string "two" ++ [nl] ++ list_ascii_of_string "x" ++ [nl].

Lemma Poll_reset_exact_witness :
  (exists r, (Poll str demo_world.(w_fol) (still demo_rewritten 7) "v").2.2 = Some (PollReset r)) /\
  let '(f', (b, err)) := Poll str demo_world.(w_fol) (still demo_rewritten 7) "v" in
  ((exists r, err = Some (PollReset r)) <-> ~ extends str 7 demo_world.(w_fol).(cp) demo_rewritten) /\
  (forall r, err = Some (PollReset r) ->
     b = mkBatch demo_world.(w_fol).(cp) [] [] demo_world.(w_fol).(cp) /\
     r.(Previous) = demo_world.(w_fol).(cp) /\
     (rounds str 7 2 demo_rewritten f').2 = transcript str demo_dec "v" (lines demo_rewritten)).
Proof.
  split; [eexists; vm_compute; reflexivity|].
  refine (Poll_reset_exact str demo_dec 7 demo_world.(w_fol) demo_rewritten "v" 2 _ _ _ _).
  - split; split; vm_compute; discriminate.
  - vm_compute. discriminate.
  - reflexivity.
  - vm_compute. lia.
Defined.

Lemma followerID_determines_witness :
  (demo_event "a").(Type_) = (demo_event "b").(Type_) /\ id_kind_of (demo_event "a") = id_kind_of (demo_event "b") /\
  match id_kind_of (demo_event "a") with
  | IdTool => (demo_event "a").(ToolUseID) = (demo_event "b").(ToolUseID)
  | IdLine => (demo_event "a").(UUID) = (demo_event "b").(UUID) /\ 0 = 0
  | IdGen => "g"%string = "g"%string /\ 4 = 4 /\ 0 = 0
  end.
Proof.
  refine (followerID_determines (demo_event "a") 0 "g" 4 (demo_event "b") 0 "g" 4 _ _ _).
  - unfold id_fields. cbn. split_and!; try (rewrite ?no_byte_cons; split_and!; try done; apply no_byte_nil); unfold MaxInt; try lia; apply no_byte_nil.
  - unfold id_fields. cbn. split_and!; try (rewrite ?no_byte_cons; split_and!; try done; apply no_byte_nil); unfold MaxInt; try lia; apply no_byte_nil.
  - vm_compute. reflexivity.
Defined.
