(* ===== verification/Control.v ===== *)
(** The chat core's control token (src/internal/chatcore/control.go): a FIFO
    mutex made of channels, with cancellation and Close.

    A call of Acquire is a thread, numbered; each critical section of the
    source is one step, and a thread may be anywhere between two of them. The
    [select] of a waiting Acquire is two steps, either of which may be taken
    when both its channels are ready. A context may end at any time. *)
From Stdlib Require Import ZArith Lia.
From stdpp Require Import base tactics list gmap sets option.
From S2P Require Import Prelude.

#[local] Open Scope nat_scope.

(** ** State *)

(** Where a call of Acquire is. *)
Inductive status :=
| Waiting    (* blocked in select on its waiter channel and its context *)
| Woken      (* received from its waiter; isClosed not yet asked *)
| Owner      (* returned a release function that has not been called *)
| HandOff    (* cancelled after the grant: about to call its release function *)
| Released   (* its release function has run *)
| Cancelled  (* returned ctx.Err() *)
| Refused.   (* returned ErrClosed *)

Record controlQueue := mkQueue {
  held : bool; closed : bool; queue : list nat;
  granted : gset nat;              (* the waiter channels that are closed *)
  calls : gmap nat status }.

Definition newControlQueue : controlQueue := mkQueue false false [] ∅ ∅.

Definition set_call (t : nat) (x : status) (q : controlQueue) : controlQueue :=
  mkQueue q.(held) q.(closed) q.(queue) q.(granted) (<[t := x]> q.(calls)).

(** What a step does to the order of the queue. *)
Inductive event := Queued (t : nat) | Granted (t : nat) | Left_ (t : nat) | Silent.

(** ** Critical sections *)

(** Acquire up to its select. *)
Definition acquire (t : nat) (q : controlQueue) : controlQueue * event :=
  if q.(closed) then (set_call t Refused q, Silent)
  else if negb q.(held) then
    (mkQueue true q.(closed) q.(queue) q.(granted) (<[t := Owner]> q.(calls)), Silent)
  else
    (mkQueue q.(held) q.(closed) (q.(queue) ++ [t]) q.(granted) (<[t := Waiting]> q.(calls)), Queued t).

(** [case <-waiter], enabled when the channel is closed. *)
Definition woken (t : nat) (q : controlQueue) : controlQueue := set_call t Woken q.

(** [if q.isClosed()] after it. *)
Definition isClosed_check (t : nat) (q : controlQueue) : controlQueue :=
  set_call t (if q.(closed) then Refused else Owner) q.

(** [for i, w := range q.queue { if w == waiter { ...; break } }]. *)
Fixpoint remove_waiter (t : nat) (l : list nat) : list nat :=
  match l with
  | [] => []
  | w :: l => if decide (w = t) then l else w :: remove_waiter t l
  end.

(** [case <-ctx.Done()] up to its unlock. *)
Definition cancel (t : nat) (q : controlQueue) : controlQueue * event :=
  if decide (t ∈ q.(granted)) then
    (set_call t (if q.(closed) then Refused else HandOff) q, Silent)
  else
    (mkQueue q.(held) q.(closed) (remove_waiter t q.(queue)) q.(granted) (<[t := Cancelled]> q.(calls)), Left_ t).

(** The body of a release function, run at most once per function. *)
Definition release_body (q : controlQueue) : controlQueue * event :=
  if negb q.(held) then (q, Silent)
  else match q.(queue) with
  | [] => (mkQueue false q.(closed) [] q.(granted) q.(calls), Silent)
  | next :: rest => (mkQueue q.(held) q.(closed) rest ({[next]} ∪ q.(granted)) q.(calls), Granted next)
  end.

(** A release function called, and what becomes of its Acquire. *)
Definition release (t : nat) (after : status) (q : controlQueue) : controlQueue * event :=
  let '(q', e) := release_body q in (set_call t after q', e).

Definition Held (q : controlQueue) : bool := q.(held).

Definition Close (q : controlQueue) : controlQueue :=
  mkQueue q.(held) true [] (list_to_set q.(queue) ∪ q.(granted)) q.(calls).

(** ** Interleavings *)

Inductive step : controlQueue -> event -> controlQueue -> Prop :=
| s_acquire t q : q.(calls) !! t = None -> step q (acquire t q).2 (acquire t q).1
| s_woken t q : q.(calls) !! t = Some Waiting -> t ∈ q.(granted) -> step q Silent (woken t q)
| s_check t q : q.(calls) !! t = Some Woken -> step q Silent (isClosed_check t q)
| s_cancel t q : q.(calls) !! t = Some Waiting -> step q (cancel t q).2 (cancel t q).1
| s_handoff t q : q.(calls) !! t = Some HandOff ->
    step q (release t Cancelled q).2 (release t Cancelled q).1
| s_release t q : q.(calls) !! t = Some Owner ->
    step q (release t Released q).2 (release t Released q).1
| s_release_again t q : q.(calls) !! t = Some Released -> step q Silent q
| s_close q : step q Silent (Close q).

Inductive steps : list event -> controlQueue -> Prop :=
| steps_new : steps [] newControlQueue
| steps_more log e q q' : steps log q -> step q e q' -> steps (log ++ [e]) q'.

(** ** Invariant *)

(** A call that has the token, or has been handed it. *)
Definition holds_token (q : controlQueue) (t : nat) : Prop :=
  match q.(calls) !! t with
  | Some Owner | Some HandOff | Some Woken => True
  | Some Waiting => t ∈ q.(granted)
  | _ => False
  end.

(** A call that has it and may use it, or is about to pass it on. *)
Definition uses_token (q : controlQueue) (t : nat) : Prop :=
  q.(calls) !! t = Some Owner \/ q.(calls) !! t = Some HandOff.

Record inv (q : controlQueue) : Prop := {
  inv_queue_nodup : NoDup q.(queue);
  inv_queued : forall t, t ∈ q.(queue) -> q.(calls) !! t = Some Waiting /\ t ∉ q.(granted);
  inv_waiting : forall t, q.(calls) !! t = Some Waiting -> t ∈ q.(queue) \/ t ∈ q.(granted);
  inv_known : forall t, t ∈ q.(granted) -> q.(calls) !! t <> None;
  inv_closed : q.(closed) = true -> q.(queue) = [] /\
    (forall t u, uses_token q t -> uses_token q u -> t = u);
  inv_free : q.(closed) = false -> q.(held) = false -> q.(queue) = [] /\ (forall t, ~ holds_token q t);
  inv_held : q.(closed) = false -> q.(held) = true -> exists h, forall t, holds_token q t <-> t = h }.

Lemma uses_holds q t : uses_token q t -> holds_token q t.
Proof. unfold uses_token, holds_token. by intros [-> | ->]. Qed.

Lemma one_user q : inv q -> forall t u, uses_token q t -> uses_token q u -> t = u.
Proof.
  intros H t u Ht Hu. destruct (closed q) eqn:Hc; [by apply (proj2 (inv_closed q H Hc))|].
  apply uses_holds in Ht, Hu. destruct (held q) eqn:Hh.
  - destruct (inv_held q H Hc Hh) as [h Hn]. apply Hn in Ht, Hu. congruence.
  - by destruct (proj2 (inv_free q H Hc Hh) t).
Qed.

Lemma remove_waiter_sub t l x : x ∈ remove_waiter t l -> x ∈ l.
Proof.
  induction l as [|w l IH]; cbn; [done|]. case_decide; rewrite !elem_of_cons; naive_solver.
Qed.

Lemma remove_waiter_NoDup t l : NoDup l -> NoDup (remove_waiter t l).
Proof.
  induction 1 as [|w l Hw Hn IH]; cbn; [constructor|]. case_decide; [done|]. constructor; [|done].
  intros Hx. by apply remove_waiter_sub in Hx.
Qed.

Lemma remove_waiter_elem t l x : NoDup l -> x ∈ remove_waiter t l <-> x ∈ l /\ x <> t.
Proof.
  induction 1 as [|w l Hw Hn IH]; cbn; [set_solver|]. case_decide; set_solver.
Qed.

Lemma filter_ne_id t (l : list nat) : t ∉ l -> filter (fun x => x <> t) l = l.
Proof.
  induction l as [|w l IH]; [done|]. rewrite not_elem_of_cons. intros [Hw Hl].
  rewrite filter_cons_True by auto. by rewrite IH.
Qed.

Lemma remove_waiter_filter t l : NoDup l -> remove_waiter t l = filter (fun x => x <> t) l.
Proof.
  induction 1 as [|w l Hw Hn IH]; [done|]. cbn [remove_waiter]. case_decide as Hd.
  - subst. rewrite filter_cons_False by auto. by rewrite filter_ne_id.
  - by rewrite filter_cons_True, IH.
Qed.

(** Looking up the calls after one changed. *)
Ltac calls_case t u :=
  destruct (decide (t = u)) as [->|]; [rewrite lookup_insert_eq in *|rewrite lookup_insert_ne in * by done].

Lemma inv_new : inv newControlQueue.
Proof.
  constructor; cbn.
  - constructor.
  - intros t Ht. by apply not_elem_of_nil in Ht.
  - intros t Ht. by rewrite lookup_empty in Ht.
  - intros t Ht. set_solver.
  - done.
  - intros _ _. split; [done|]. intros t. unfold holds_token. cbn. rewrite lookup_empty. by intros [].
  - done.
Qed.

(** One call changes to a status that neither waits nor joins the queue. *)
Lemma set_call_holds q t x u :
  holds_token (set_call t x q) u <->
  (u = t /\ match x with Owner | HandOff | Woken => True | Waiting => t ∈ q.(granted) | _ => False end)
  \/ (u <> t /\ holds_token q u).
Proof.
  unfold holds_token, set_call. cbn. destruct (decide (u = t)) as [->|Hne].
  - rewrite lookup_insert_eq. tauto.
  - rewrite lookup_insert_ne by done. tauto.
Qed.

Lemma set_call_uses q t x u :
  uses_token (set_call t x q) u <->
  (u = t /\ (x = Owner \/ x = HandOff)) \/ (u <> t /\ uses_token q u).
Proof.
  unfold uses_token, set_call. cbn. destruct (decide (u = t)) as [->|Hne].
  - rewrite lookup_insert_eq. naive_solver.
  - rewrite lookup_insert_ne by done. naive_solver.
Qed.

(** A call that holds the token keeps it through a change that is no use of
    it, and the rest of the invariant does not mention it. *)
Lemma inv_keep_token q t x :
  inv q -> t ∉ q.(queue) -> holds_token q t -> x <> Waiting ->
  (x = Woken \/ q.(closed) = false /\ (x = Owner \/ x = HandOff) \/ q.(closed) = true /\ x = Refused) ->
  inv (set_call t x q).
Proof.
  intros H Hq Ht Hw Hx. constructor; cbn.
  - apply H.
  - intros u Hu. apply (inv_queued q H) in Hu as [? ?]. split; [|done]. rewrite lookup_insert_ne; [done|].
    intros ->. apply (inv_waiting q H) in H0. by destruct H0.
  - intros u Hu. calls_case t u; [by simplify_eq|]. by apply (inv_waiting q H).
  - intros u Hu. calls_case t u; [done|]. by apply (inv_known q H).
  - intros Hc. destruct (inv_closed q H Hc) as [Hnil Hone]. split; [done|].
    intros u v. rewrite !set_call_uses. destruct Hx as [->|[[Hc' _]|[_ ->]]]; [|congruence|];
      intros [[_ []]|[_ Hu]] [[_ []]|[_ Hv]]; try done; by apply Hone.
  - intros Hc Hh. destruct (inv_free q H Hc Hh) as [_ Hn]. by destruct (Hn t).
  - intros Hc Hh. destruct (inv_held q H Hc Hh) as [h Hn]. apply Hn in Ht as ->. exists h.
    intros u. rewrite set_call_holds, Hn.
    destruct Hx as [->|[[_ [-> | ->]]|[Hc' _]]]; [..|congruence]; destruct (decide (u = h)); naive_solver.
Qed.

Lemma inv_woken q t : inv q -> q.(calls) !! t = Some Waiting -> t ∈ q.(granted) -> inv (woken t q).
Proof.
  intros H Ht Hg. apply inv_keep_token; [done| | |done|by left].
  - intros Hq. by apply (inv_queued q H) in Hq as [_ ?].
  - unfold holds_token. by rewrite Ht.
Qed.

Lemma not_queued q t x : inv q -> q.(calls) !! t = Some x -> x <> Waiting -> t ∉ q.(queue).
Proof. intros H Ht Hx Hq. apply (inv_queued q H) in Hq as [? _]. congruence. Qed.

Lemma inv_check q t : inv q -> q.(calls) !! t = Some Woken -> inv (isClosed_check t q).
Proof.
  intros H Ht. unfold isClosed_check.
  apply inv_keep_token; [done|by eapply not_queued| |by destruct (closed q)|].
  - unfold holds_token. by rewrite Ht.
  - destruct (closed q); naive_solver.
Qed.

Lemma fresh_not_queued q t : inv q -> q.(calls) !! t = None -> t ∉ q.(queue) /\ t ∉ q.(granted).
Proof.
  intros H Ht. split; [intros Hq; apply (inv_queued q H) in Hq as [? _]; congruence|].
  intros Hg. by apply (inv_known q H) in Hg.
Qed.

(** A call that held nothing and ends without the token. *)
Lemma inv_no_token q t x : inv q -> t ∉ q.(queue) -> ~ holds_token q t ->
  (x = Refused \/ x = Cancelled \/ x = Released) -> inv (set_call t x q).
Proof.
  intros H Hq Hh Hx. constructor; cbn.
  - apply H.
  - intros u Hu. apply (inv_queued q H) in Hu as [? ?]. split; [|done]. rewrite lookup_insert_ne; [done|].
    intros ->. by apply (inv_waiting q H) in H0 as [].
  - intros u Hu. calls_case t u; [naive_solver|]. by apply (inv_waiting q H).
  - intros u Hu. calls_case t u; [done|]. by apply (inv_known q H).
  - intros Hc. split; [by apply (inv_closed q H)|]. intros u v. rewrite !set_call_uses.
    intros [[_ Hu]|[_ Hu]] [[_ Hv]|[_ Hv]]; [naive_solver..|]. by apply (inv_closed q H).
  - intros Hc Hf. destruct (inv_free q H Hc Hf) as [Hnil Hn]. split; [done|]. intros u.
    rewrite set_call_holds. intros [[_ Hu]|[_ Hu]]; [naive_solver|by apply (Hn u)].
  - intros Hc Hf. destruct (inv_held q H Hc Hf) as [h Hn]. exists h. intros u.
    rewrite set_call_holds, Hn. split.
    + intros [[_ Hu]|[_ Hu]]; [naive_solver|done].
    + intros ->. right. split; [|done]. intros ->. by apply Hh, Hn.
Qed.

Lemma inv_acquire q t : inv q -> q.(calls) !! t = None -> inv (acquire t q).1.
Proof.
  intros H Ht. destruct (fresh_not_queued q t H Ht) as [Hq Hg].
  assert (Hno : ~ holds_token q t) by (unfold holds_token; rewrite Ht; intros []).
  unfold acquire. destruct (closed q) eqn:Hc; [by apply inv_no_token; [..|by left]|].
  destruct (held q) eqn:Hh; cbn [negb fst].
  - constructor; cbn.
    + apply list.NoDup_app. split_and!; [apply H| |apply NoDup_singleton].
      intros x Hx ->%list_elem_of_singleton. done.
    + intros u [Hu| ->%list_elem_of_singleton]%elem_of_app; [|by rewrite lookup_insert_eq].
      rewrite lookup_insert_ne by (intros ->; done). by apply (inv_queued q H).
    + intros u Hu. rewrite elem_of_app. calls_case t u; [left; right; by apply list_elem_of_singleton|].
      apply (inv_waiting q H) in Hu. tauto.
    + intros u Hu. calls_case t u; [done|]. by apply (inv_known q H).
    + congruence.
    + done.
    + intros _ _. destruct (inv_held q H Hc Hh) as [h Hn]. exists h. intros u. rewrite <- Hn.
      unfold holds_token. cbn. calls_case t u; [rewrite Ht|done]. naive_solver.
  - destruct (inv_free q H Hc Hh) as [Hnil Hn]. constructor; cbn; rewrite ?Hnil.
    + constructor.
    + intros u Hu. by apply not_elem_of_nil in Hu.
    + intros u Hu. calls_case t u; [done|]. apply (inv_waiting q H) in Hu. by rewrite Hnil in Hu.
    + intros u Hu. calls_case t u; [done|]. by apply (inv_known q H).
    + congruence.
    + done.
    + intros _ _. exists t. intros u. unfold holds_token. cbn. calls_case t u; [done|].
      split; [|by intros ->]. intros Hu. by destruct (Hn u).
Qed.

Lemma inv_cancel q t : inv q -> q.(calls) !! t = Some Waiting -> inv (cancel t q).1.
Proof.
  intros H Ht. unfold cancel. case_decide as Hg; cbn [fst].
  { assert (Hq : t ∉ q.(queue)) by (intros Hq; by apply (inv_queued q H) in Hq as [_ ?]).
    apply inv_keep_token; [done|done|unfold holds_token; by rewrite Ht|by destruct (closed q)|].
    destruct (closed q); naive_solver. }
  assert (Hno : ~ holds_token q t) by (unfold holds_token; by rewrite Ht).
  pose proof (inv_queue_nodup q H) as Hnd.
  constructor; cbn.
  - by apply remove_waiter_NoDup.
  - intros u [Hu Hne]%remove_waiter_elem; [|done]. rewrite lookup_insert_ne by done. by apply (inv_queued q H).
  - intros u Hu. calls_case t u; [done|]. apply (inv_waiting q H) in Hu as [Hu|Hu]; [left|by right].
    apply remove_waiter_elem; auto.
  - intros u Hu. calls_case t u; [done|]. by apply (inv_known q H).
  - intros Hc. destruct (inv_closed q H Hc) as [Hnil Hone]. split; [by rewrite Hnil|].
    assert (Hu : forall u, <[t:=Cancelled]> q.(calls) !! u = Some Owner \/ <[t:=Cancelled]> q.(calls) !! u = Some HandOff ->
                  uses_token q u) by (intros u Hu; calls_case t u; naive_solver).
    intros u v Hu1 Hu2. apply Hone; by apply Hu.
  - intros Hc Hf. destruct (inv_free q H Hc Hf) as [Hnil Hn]. split; [by rewrite Hnil|]. intros u.
    unfold holds_token. cbn. calls_case t u; [by intros []|]. apply (Hn u).
  - intros Hc Hf. destruct (inv_held q H Hc Hf) as [h Hn]. exists h. intros u. rewrite <- Hn.
    unfold holds_token. cbn. calls_case t u; [rewrite Ht|done]. done.
Qed.

Lemma release_held q t : inv q -> q.(closed) = false -> uses_token q t ->
  q.(held) = true /\ forall u, holds_token q u <-> u = t.
Proof.
  intros H Hc Ht. destruct (held q) eqn:Hh.
  - split; [done|]. destruct (inv_held q H Hc Hh) as [h Hn].
    pose proof (uses_holds q t Ht) as Hth. apply Hn in Hth as ->. done.
  - destruct (inv_free q H Hc Hh) as [_ Hn]. by destruct (Hn t); apply uses_holds.
Qed.

(** The token passed on: to the first waiter, or to nobody. *)
Lemma inv_release q t x : inv q -> uses_token q t -> (x = Cancelled \/ x = Released) ->
  inv (release t x q).1.
Proof.
  intros H Ht Hx. unfold release, release_body.
  assert (Hq : t ∉ q.(queue)) by (intros [? _]%(inv_queued q H); destruct Ht; congruence).
  destruct (closed q) eqn:Hc.
  - destruct (inv_closed q H Hc) as [Hnil Hone].
    assert (Hi : forall b, inv (set_call t x (mkQueue b q.(closed) [] q.(granted) q.(calls)))).
    { intros b. constructor; cbn; [constructor|..].
      - intros u Hu. by apply not_elem_of_nil in Hu.
      - intros u Hu. calls_case t u; [naive_solver|]. apply (inv_waiting q H) in Hu. by rewrite Hnil in Hu.
      - intros u Hu. calls_case t u; [done|]. by apply (inv_known q H).
      - intros _. split; [done|]. intros u v. rewrite !set_call_uses.
        intros [[_ Hu]|[_ Hu]] [[_ Hv]|[_ Hv]]; [naive_solver..|]. by apply Hone.
      - congruence.
      - congruence. }
    destruct (held q) eqn:Hh; cbn [negb]; [rewrite Hnil, <- Hc; apply Hi|].
    specialize (Hi (held q)). destruct q. cbn in *. subst. exact Hi.
  - destruct (release_held q t H Hc Ht) as [Hh Hn]. rewrite Hh. cbn [negb].
    destruct (queue q) as [|next rest] eqn:Hqu; cbn [fst].
    + constructor; cbn; [constructor|..].
      * intros u Hu. by apply not_elem_of_nil in Hu.
      * intros u Hu. calls_case t u; [naive_solver|]. apply (inv_waiting q H) in Hu. by rewrite Hqu in Hu.
      * intros u Hu. calls_case t u; [done|]. by apply (inv_known q H).
      * done.
      * intros _ _. split; [done|]. intros u. rewrite set_call_holds.
        intros [[_ Hu]|[Hne Hu]]; [naive_solver|]. by apply Hn in Hu.
      * done.
    + pose proof (inv_queue_nodup q H) as Hnd. rewrite Hqu in Hnd. apply list.NoDup_cons in Hnd as [Hnx Hnd].
      assert (Hne : next <> t) by (intros ->; apply Hq; apply list_elem_of_here).
      destruct (inv_queued q H next) as [Hnw Hng]; [rewrite Hqu; apply list_elem_of_here|].
      constructor; cbn; [done|..].
      * intros u Hu. assert (Hu' : u ∈ q.(queue)) by (rewrite Hqu; by apply list_elem_of_further).
        destruct (inv_queued q H u Hu') as [? ?]. rewrite lookup_insert_ne by (intros ->; by apply Hq, list_elem_of_further).
        split; [done|]. rewrite not_elem_of_union, not_elem_of_singleton. split; [|done]. by intros ->.
      * intros u Hu. calls_case t u; [naive_solver|]. apply (inv_waiting q H) in Hu. rewrite Hqu in Hu.
        rewrite elem_of_cons in Hu. rewrite elem_of_union, elem_of_singleton. tauto.
      * intros u. rewrite elem_of_union, elem_of_singleton. intros Hu. calls_case t u; [done|].
        destruct Hu as [->|Hu]; [by rewrite Hnw|by apply (inv_known q H)].
      * congruence.
      * congruence.
      * intros _ _. exists next. intros u. unfold holds_token. cbn. calls_case t u.
        { split; [naive_solver|done]. }
        destruct (decide (u = next)) as [->|Hun]; [rewrite Hnw; set_solver|].
        split; [|done]. intros Hu. exfalso. assert (Hh' : holds_token q u).
        { unfold holds_token. destruct (calls q !! u) as [[]|]; set_solver. }
        by apply Hn in Hh'.
Qed.

Lemma inv_Close q : inv q -> inv (Close q).
Proof.
  intros H. constructor; cbn.
  - constructor.
  - intros u Hu. by apply not_elem_of_nil in Hu.
  - intros u Hu. right. rewrite elem_of_union, elem_of_list_to_set. by apply (inv_waiting q H).
  - intros u. rewrite elem_of_union, elem_of_list_to_set. intros [Hu|Hu]; [|by apply (inv_known q H)].
    apply (inv_queued q H) in Hu as [Hu _]. by rewrite Hu.
  - intros _. split; [done|]. exact (one_user q H).
  - done.
  - done.
Qed.

Lemma token_step q e q' : inv q -> step q e q' -> inv q'.
Proof.
  intros H. destruct 1; try done.
  - by apply inv_acquire.
  - by apply inv_woken.
  - by apply inv_check.
  - by apply inv_cancel.
  - apply inv_release; [done|by right|by left].
  - apply inv_release; [done|by left|by right].
  - by apply inv_Close.
Qed.

Lemma steps_token log q : steps log q -> inv q.
Proof. induction 1; [apply inv_new|by eapply token_step]. Qed.

(** ** Mutual exclusion *)

(** C29: Whatever the interleaving of Acquires, cancellations, releases and Close,
    no two callers own the token: at most one Acquire has returned a release
    function that has not been called. *)
Theorem mutual_exclusion log q t u : steps log q ->
  q.(calls) !! t = Some Owner -> q.(calls) !! u = Some Owner -> t = u.
Proof. intros H Ht Hu. apply (one_user q (steps_token log q H)); by left. Qed.

(** ** First come, first served *)

Definition queued_of (e : event) : list nat := match e with Queued t => [t] | _ => [] end.
Definition granted_of (e : event) : list nat := match e with Granted t => [t] | _ => [] end.
Definition left_of (e : event) : list nat := match e with Left_ t => [t] | _ => [] end.

Definition arrivals (log : list event) : list nat := flat_map queued_of log.
Definition grants (log : list event) : list nat := flat_map granted_of log.
Definition leavers (log : list event) : list nat := flat_map left_of log.

Lemma flat_map_snoc {A B} (f : A -> list B) l x : flat_map f (l ++ [x]) = flat_map f l ++ f x.
Proof. rewrite flat_map_app. cbn. by rewrite app_nil_r. Qed.

(** The arrivals that did not leave are those served and those still queued,
    in that order; only calls under way appear. *)
Record fifo (log : list event) (q : controlQueue) : Prop := {
  fifo_order : q.(closed) = false ->
    filter (fun t => t ∉ leavers log) (arrivals log) = grants log ++ q.(queue);
  fifo_granted : forall t, t ∈ grants log -> t ∈ q.(granted);
  fifo_known : forall t, t ∈ arrivals log \/ t ∈ leavers log -> q.(calls) !! t <> None }.

Lemma known_insert q t x u : q.(calls) !! u <> None -> <[t := x]> q.(calls) !! u <> None.
Proof. intros H. destruct (decide (t = u)) as [->|]; [by rewrite lookup_insert_eq|by rewrite lookup_insert_ne]. Qed.

(** A step outside the queue's order. *)
Lemma fifo_silent log q q' :
  fifo log q -> (q'.(closed) = false -> q.(closed) = false /\ q'.(queue) = q.(queue)) ->
  q.(granted) ⊆ q'.(granted) -> (forall u, q.(calls) !! u <> None -> q'.(calls) !! u <> None) ->
  fifo (log ++ [Silent]) q'.
Proof.
  intros [Ho Hg Hk] Hq Hs Hc. unfold arrivals, grants, leavers in *.
  constructor; unfold arrivals, grants, leavers; rewrite !flat_map_snoc; cbn; rewrite !app_nil_r.
  - intros Hc'. destruct (Hq Hc') as [? ->]. auto.
  - intros t Ht. apply Hs. auto.
  - intros t Ht. apply Hc. auto.
Qed.

Lemma filter_ext_in (P Q : nat -> Prop) `{!forall x, Decision (P x), !forall x, Decision (Q x)} (l : list nat) :
  (forall x, x ∈ l -> P x <-> Q x) -> filter P l = filter Q l.
Proof.
  induction l as [|x l IH]; intros Hpq; [done|].
  assert (Hl : forall y, y ∈ l -> P y <-> Q y) by (intros y Hy; apply Hpq; by apply list_elem_of_further).
  assert (Hx : P x <-> Q x) by (apply Hpq; apply list_elem_of_here).
  destruct (decide (P x)) as [Hp|Hp].
  - rewrite !filter_cons_True by tauto. by rewrite IH.
  - rewrite !filter_cons_False by tauto. auto.
Qed.

Lemma fifo_queued log q t :
  fifo log q -> q.(closed) = false -> q.(calls) !! t = None ->
  fifo (log ++ [Queued t]) (mkQueue q.(held) q.(closed) (q.(queue) ++ [t]) q.(granted) (<[t := Waiting]> q.(calls))).
Proof.
  intros [Ho Hg Hk] Hc Ht. unfold arrivals, grants, leavers in *.
  constructor; unfold arrivals, grants, leavers; rewrite !flat_map_snoc; cbn; rewrite ?app_nil_r.
  - intros _. rewrite list.filter_app, Ho by done. rewrite filter_cons_True; [by rewrite app_assoc|].
    intros Hx. by apply (Hk t); [right|].
  - auto.
  - intros u [Hu|Hu]; [apply elem_of_app in Hu as [Hu| ->%list_elem_of_singleton]|].
    + apply known_insert. auto.
    + by rewrite lookup_insert_eq.
    + apply known_insert. auto.
Qed.

Lemma fifo_left log q t :
  fifo log q -> inv q -> q.(calls) !! t = Some Waiting -> t ∉ q.(granted) ->
  fifo (log ++ [Left_ t])
    (mkQueue q.(held) q.(closed) (remove_waiter t q.(queue)) q.(granted) (<[t := Cancelled]> q.(calls))).
Proof.
  intros [Ho Hg Hk] Hi Ht Hng. unfold arrivals, grants, leavers in *.
  constructor; unfold arrivals, grants, leavers; rewrite !flat_map_snoc; cbn; rewrite ?app_nil_r.
  - intros Hc. rewrite remove_waiter_filter by apply Hi.
    rewrite <- (filter_ne_id t (flat_map granted_of log)) by (intros Hx; by apply Hng, Hg).
    rewrite <- list.filter_app, <- Ho by done. rewrite list_filter_filter.
    apply filter_ext_in. intros x _. rewrite not_elem_of_app, list_elem_of_singleton. tauto.
  - auto.
  - intros u Hu. destruct (decide (u = t)) as [->|]; [by rewrite lookup_insert_eq|].
    apply known_insert. destruct Hu as [Hu|Hu]; [auto|].
    apply elem_of_app in Hu as [Hu|Hu]; [auto|]. by apply list_elem_of_singleton in Hu.
Qed.

Lemma fifo_release log q t x : fifo log q ->
  fifo (log ++ [(release t x q).2]) (release t x q).1.
Proof.
  intros H. unfold release, release_body. destruct (held q) eqn:Hh; cbn [negb].
  2: { eapply fifo_silent; [done|done|done|]. intros u Hu. by apply known_insert. }
  destruct (queue q) as [|next rest] eqn:Hq; cbn [fst snd].
  - eapply fifo_silent; [done|cbn; by rewrite Hq|done|]. intros u Hu. by apply known_insert.
  - destruct H as [Ho Hg Hk]. unfold arrivals, grants, leavers in *.
    constructor; unfold arrivals, grants, leavers; rewrite !flat_map_snoc; cbn; rewrite ?app_nil_r.
    + intros Hc. rewrite Ho, Hq by done. by rewrite <- app_assoc.
    + intros u [Hu| ->%list_elem_of_singleton]%elem_of_app; [apply elem_of_union_r; auto|set_solver].
    + intros u Hu. apply known_insert. auto.
Qed.

Lemma fifo_step log q e q' : fifo log q -> inv q -> step q e q' -> fifo (log ++ [e]) q'.
Proof.
  intros H Hi. destruct 1 as [t q Ht|t q Ht Hg|t q Ht|t q Ht|t q Ht|t q Ht|t q Ht|q].
  - unfold acquire. destruct (closed q) eqn:Hc; cbn [fst snd].
    { eapply fifo_silent; [done|done|done|]. intros u Hu. by apply known_insert. }
    destruct (held q) eqn:Hh; cbn [negb fst snd].
    + rewrite <- Hh, <- Hc. by apply fifo_queued.
    + eapply fifo_silent; [done|done|done|]. intros u Hu. by apply known_insert.
  - eapply fifo_silent; [done|done|done|]. intros u Hu. by apply known_insert.
  - eapply fifo_silent; [done|done|done|]. intros u Hu. by apply known_insert.
  - unfold cancel. case_decide as Hg; cbn [fst snd]; [|by apply fifo_left].
    eapply fifo_silent; [done|done|done|]. intros u Hu. by apply known_insert.
  - by apply fifo_release.
  - by apply fifo_release.
  - by eapply fifo_silent.
  - eapply fifo_silent; [done|done|cbn; set_solver|done].
Qed.

Lemma steps_fifo log q : steps log q -> fifo log q.
Proof.
  induction 1 as [|log e q q' Hs IH Hstep].
  - constructor; cbn; [done|intros t Ht; by apply not_elem_of_nil in Ht|].
    intros t [Ht|Ht]; by apply not_elem_of_nil in Ht.
  - eapply fifo_step; [done|by eapply steps_token|done].
Qed.

(** The token is handed out in the order callers queued: those who queued and
    did not leave are exactly those served, followed by those still queued. *)
Theorem control_fifo log q : steps log q -> q.(closed) = false ->
  filter (fun t => t ∉ leavers log) (arrivals log) = grants log ++ q.(queue).
Proof. intros H. apply (fifo_order log q (steps_fifo log q H)). Qed.

(** ** Every waiter is served *)

(** How far a holder is from releasing. *)
Definition stage (x : status) : nat :=
  match x with Waiting => 3 | Woken => 2 | Owner | HandOff => 1 | _ => 0 end.

(** [delay q h w n]: [h] holds the token, [w] is queued, and at most [n] moves
    of holders are left before [w] is handed it. *)
Definition delay (q : controlQueue) (h w n : nat) : Prop :=
  exists i x, q.(queue) !! i = Some w /\ holds_token q h /\ q.(calls) !! h = Some x /\
    n = (4 * i + stage x)%nat.

(** [w] has been handed the token, or gave up waiting for it. *)
Definition served (q : controlQueue) (w : nat) : Prop :=
  w ∈ q.(granted) \/ q.(calls) !! w = Some Cancelled.

(** [w] is served, or no farther than before, and nearer when [h] moved. *)
Definition nearer (q q' : controlQueue) (h w n : nat) : Prop :=
  served q' w \/ exists h' n', delay q' h' w n' /\ n' <= n /\ (q'.(calls) !! h <> q.(calls) !! h -> n' < n).

Lemma holder_unique q h t : inv q -> q.(closed) = false -> holds_token q h -> holds_token q t -> t = h.
Proof.
  intros H Hc Hh Ht. destruct (held q) eqn:E.
  - destruct (inv_held q H Hc E) as [k Hk]. apply Hk in Hh, Ht. congruence.
  - by destruct (proj2 (inv_free q H Hc E) h).
Qed.

(** A step that touches neither the holder nor the order. *)
Lemma nearer_aside q q' h w n i x :
  q.(queue) !! i = Some w -> holds_token q h -> q.(calls) !! h = Some x -> n = (4 * i + stage x)%nat ->
  (exists j, j <= i /\ q'.(queue) !! j = Some w) -> q'.(calls) !! h = q.(calls) !! h ->
  q.(granted) ⊆ q'.(granted) -> nearer q q' h w n.
Proof.
  intros Hi Hh Hx -> (j & Hj & Hjw) Hc Hg. right. exists h, (4 * j + stage x)%nat. split_and!; [|lia|congruence].
  exists j, x. split_and!; [done| |congruence|done].
  unfold holds_token in *. rewrite Hc. destruct (calls q !! h) as [[]|]; auto.
Qed.

(** The holder itself moves on, still holding. *)
Lemma nearer_moved q h w n i x y :
  q.(queue) !! i = Some w -> q.(calls) !! h = Some x -> n = (4 * i + stage x)%nat -> stage y < stage x ->
  (y = Woken \/ y = Owner \/ y = HandOff) -> nearer q (set_call h y q) h w n.
Proof.
  intros Hi Hx -> Hs Hy. right. exists h, (4 * i + stage y)%nat. split_and!; [|lia|lia].
  exists i, y. cbn. rewrite lookup_insert_eq. split_and!; try done.
  rewrite set_call_holds. left. split; [done|]. by destruct Hy as [->|[->| ->]].
Qed.

(** The holder passes the token on. *)
Lemma nearer_released q h w n i x y :
  inv q -> q.(closed) = false -> uses_token q h ->
  q.(queue) !! i = Some w -> q.(calls) !! h = Some x -> n = (4 * i + stage x)%nat ->
  nearer q (release h y q).1 h w n.
Proof.
  intros H Hc Hu Hi Hx ->. destruct (release_held q h H Hc Hu) as [Hh _].
  unfold release, release_body. rewrite Hh. cbn [negb].
  destruct (queue q) as [|next rest] eqn:Hq; [by rewrite lookup_nil in Hi|]. cbn [fst].
  destruct i as [|i].
  - cbn in Hi. injection Hi as ->. left. left. cbn. set_solver.
  - cbn in Hi. right. exists next, (4 * i + 3)%nat. assert (Hs : stage x = 1%nat).
    { destruct Hu as [Hu|Hu]; rewrite Hu in Hx; by simplify_eq. }
    split_and!; [|lia|lia]. destruct (inv_queued q H next) as [Hnw _]; [rewrite Hq; apply list_elem_of_here|].
    assert (Hne : h <> next) by (intros ->; destruct Hu; congruence).
    exists i, Waiting. cbn. unfold holds_token. cbn. rewrite lookup_insert_ne by done.
    rewrite Hnw. split_and!; [done|set_solver|done|done].
Qed.

Lemma remove_waiter_lookup t l : forall i w, l !! i = Some w -> w <> t ->
  exists j, j <= i /\ remove_waiter t l !! j = Some w.
Proof.
  induction l as [|a l IH]; intros i w Hi Hne; [by rewrite lookup_nil in Hi|]. cbn [remove_waiter].
  destruct i as [|i]; cbn in Hi.
  - injection Hi as ->. rewrite decide_False by done. by exists 0.
  - case_decide; [exists i; by split; [lia|]|].
    destruct (IH i w Hi Hne) as (j & Hj & Hw). exists (S j). split; [lia|done].
Qed.

Lemma nearer_step q e q' h w n : inv q -> q.(closed) = false -> q'.(closed) = false ->
  delay q h w n -> step q e q' -> nearer q q' h w n.
Proof.
  intros H Hc Hc' (i & x & Hi & Hh & Hx & ->) Hstep.
  assert (Hin : w ∈ q.(queue)) by (by eapply list_elem_of_lookup_2).
  destruct (inv_queued q H w Hin) as [Hw Hwg].
  assert (Huse : forall t, holds_token q t -> t = h) by (intros t; by apply holder_unique).
  destruct Hstep as [t q Ht|t q Ht Hg|t q Ht|t q Ht|t q Ht|t q Ht|t q Ht|q]; [..|done].
  - assert (Hne : t <> h) by (intros ->; congruence). unfold acquire in *. rewrite Hc in *.
    assert (Hheld : q.(held) = true).
    { destruct (held q) eqn:E; [done|]. destruct (inv_free q H Hc E) as [Hnil _]. by rewrite Hnil in Hi. }
    rewrite Hheld. cbn [negb fst]. eapply nearer_aside; try done; cbn; [|by rewrite lookup_insert_ne].
    exists i. split; [lia|]. apply lookup_app_l_Some. done.
  - assert (t = h) as -> by (apply Huse; unfold holds_token; by rewrite Ht).
    rewrite Ht in Hx. injection Hx as <-. apply (nearer_moved q h w _ i Waiting Woken); [done|done|done|cbn; lia|by left].
  - assert (t = h) as -> by (apply Huse; unfold holds_token; by rewrite Ht).
    rewrite Ht in Hx. injection Hx as <-. unfold isClosed_check. rewrite Hc.
    apply (nearer_moved q h w _ i Woken Owner); [done|done|done|cbn; lia|by right; left].
  - unfold cancel in *. case_decide as Hg; cbn [fst] in *.
    + assert (t = h) as -> by (apply Huse; unfold holds_token; by rewrite Ht).
      rewrite Ht in Hx. injection Hx as <-. rewrite Hc.
      apply (nearer_moved q h w _ i Waiting HandOff); [done|done|done|cbn; lia|by right; right].
    + destruct (decide (t = w)) as [->|Hne]; [left; right; cbn; by rewrite lookup_insert_eq|].
      assert (Hth : t <> h) by (intros ->; unfold holds_token in Hh; by rewrite Ht in Hh).
      eapply nearer_aside; try done; cbn; [|by rewrite lookup_insert_ne].
      by apply remove_waiter_lookup.
  - assert (t = h) as -> by (apply Huse, uses_holds; by right). apply (nearer_released q h w _ i x); [done|done|by right|done|done|done].
  - assert (t = h) as -> by (apply Huse, uses_holds; by left). apply (nearer_released q h w _ i x); [done|done|by left|done|done|done].
  - eapply nearer_aside; try done. by exists i.
Qed.

(** The holder can always move. *)
Lemma holder_enabled q h : inv q -> q.(closed) = false -> holds_token q h ->
  exists e q', step q e q' /\ q'.(calls) !! h <> q.(calls) !! h.
Proof.
  intros H Hc Hh. unfold holds_token in Hh. destruct (calls q !! h) as [[]|] eqn:Ex; try done.
  - eexists _, _. split; [by apply (s_woken h q)|]. cbn. by rewrite lookup_insert_eq.
  - eexists _, _. split; [by apply (s_check h q)|]. cbn. rewrite lookup_insert_eq, Hc. done.
  - eexists _, _. split; [by apply (s_release h q)|].
    unfold release, release_body. repeat case_match; cbn; by rewrite lookup_insert_eq.
  - eexists _, _. split; [by apply (s_handoff h q)|].
    unfold release, release_body. repeat case_match; cbn; by rewrite lookup_insert_eq.
Qed.

(** C30: No waiter is forgotten. While the queue is open, a queued caller [w] is a
    finite number [n] of holders' moves from the token: some call holds it and
    can move; no step whatever moves [w] back, and each move of the holder
    brings it nearer, until it is handed the token or gives up. *)
Theorem waiter_served log q w : steps log q -> q.(closed) = false -> w ∈ q.(queue) ->
  exists h n, delay q h w n /\
    (exists e q', step q e q' /\ q'.(calls) !! h <> q.(calls) !! h) /\
    (forall e q', step q e q' -> q'.(closed) = false -> nearer q q' h w n).
Proof.
  intros Hs Hc Hw. pose proof (steps_token log q Hs) as H.
  destruct (held q) eqn:Hh.
  2: { destruct (inv_free q H Hc Hh) as [Hnil _]. rewrite Hnil in Hw. by apply not_elem_of_nil in Hw. }
  destruct (inv_held q H Hc Hh) as [h Hn]. assert (Hht : holds_token q h) by (by apply Hn).
  apply list_elem_of_lookup_1 in Hw as [i Hi].
  destruct (calls q !! h) as [x|] eqn:Ex; [|by unfold holds_token in Hht; rewrite Ex in Hht].
  assert (Hd : delay q h w (4 * i + stage x)) by (exists i, x; done).
  exists h, (4 * i + stage x)%nat. split; [done|]. split; [by apply holder_enabled|].
  intros e q' Hstep Hc'. by eapply nearer_step.
Qed.

(** Close leaves nobody blocked: every waiting call's channel is closed. *)
Theorem closed_wakes_all log q t : steps log q -> q.(closed) = true ->
  q.(calls) !! t = Some Waiting -> t ∈ q.(granted).
Proof.
  intros Hs Hc Ht. pose proof (steps_token log q Hs) as H.
  destruct (inv_closed q H Hc) as [Hnil _]. apply (inv_waiting q H) in Ht. rewrite Hnil in Ht.
  destruct Ht as [Ht|Ht]; [by apply not_elem_of_nil in Ht|done].
Qed.

(** ** Witnesses *)

(** Caller 1 owns the token, 2 and 3 queue, 2 leaves. *)
Definition demo_q : controlQueue :=
  (cancel 2 (acquire 3 (acquire 2 (acquire 1 newControlQueue).1).1).1).1.

Lemma demo_steps : steps [Silent; Queued 2; Queued 3; Left_ 2] demo_q.
Proof.
  change [Silent; Queued 2; Queued 3; Left_ 2] with (((([] ++ [Silent]) ++ [Queued 2]) ++ [Queued 3]) ++ [Left_ 2]).
  eapply steps_more; [|exact (s_cancel 2 (acquire 3 (acquire 2 (acquire 1 newControlQueue).1).1).1 eq_refl)].
  eapply steps_more; [|exact (s_acquire 3 (acquire 2 (acquire 1 newControlQueue).1).1 eq_refl)].
  eapply steps_more; [|exact (s_acquire 2 (acquire 1 newControlQueue).1 eq_refl)].
  eapply steps_more; [|exact (s_acquire 1 newControlQueue eq_refl)].
  constructor.
Qed.

Lemma control_fifo_witness :
  demo_q.(queue) = [3] /\
  filter (fun t => t ∉ leavers [Silent; Queued 2; Queued 3; Left_ 2]) (arrivals [Silent; Queued 2; Queued 3; Left_ 2])
  = grants [Silent; Queued 2; Queued 3; Left_ 2] ++ demo_q.(queue).
Proof. split; [reflexivity|]. refine (control_fifo _ demo_q demo_steps _). reflexivity. Defined.

Lemma mutual_exclusion_witness : demo_q.(calls) !! 1 = Some Owner /\ 1 = 1.
Proof. split; [reflexivity|]. refine (mutual_exclusion _ demo_q 1 1 demo_steps _ _); reflexivity. Defined.

Lemma waiter_served_witness :
  exists h n, delay demo_q h 3 n /\
    (exists e q', step demo_q e q' /\ q'.(calls) !! h <> demo_q.(calls) !! h) /\
    (forall e q', step demo_q e q' -> q'.(closed) = false -> nearer demo_q q' h 3 n).
Proof.
  refine (waiter_served _ demo_q 3 demo_steps _ _); [reflexivity|]. apply list_elem_of_here.
Defined.
