(* ===== verification/JsonInj.v ===== *)
(** [json.Marshal] is injective on the values the repository compares or hashes
    by their encoding: UTF-8 strings, machine integers, booleans, arrays and
    structs of them. A reader of string bodies inverts [escape]; every other
    encoding is self-delimiting. *)
From Stdlib Require Import ZArith Ascii String Lia.
From stdpp Require Import base tactics list strings option.
From S2P Require Import Prelude GoStr Json.

#[local] Open Scope string_scope.
#[local] Open Scope Z_scope.

(** ** Reading a string body back *)

Definition hexval (c : ascii) : option Z :=
  if in_range 48 57 (code c) then Some (code c - 48)
  else if in_range 97 102 (code c) then Some (code c - 87)
  else None.

Definition short_escape (d : ascii) : option Z :=
  if Ascii.eqb d "\" then Some 92
  else if code d =? 34 then Some 34
  else if Ascii.eqb d "b" then Some 8
  else if Ascii.eqb d "f" then Some 12
  else if Ascii.eqb d "n" then Some 10
  else if Ascii.eqb d "r" then Some 13
  else if Ascii.eqb d "t" then Some 9
  else None.

(** The bytes a rune of an escape stands for, of those [escape] writes. *)
Definition rune_bytes (v : Z) : list Z :=
  if v <? 128 then [v] else [226; 128; v - 8064].

Definition consume (bs : list Z) (o : option (list Z * string)) : option (list Z * string) :=
  match o with Some (l, r) => Some (app bs l, r) | None => None end.

(** The bytes up to the closing quote, and what follows it. *)
Fixpoint unescape (s : string) : option (list Z * string) :=
  match s with
  | "" => None
  | String c s1 =>
    if code c =? 34 then Some ([], s1)
    else if Ascii.eqb c "\" then
      match s1 with
      | "" => None
      | String d s2 =>
        if Ascii.eqb d "u" then
          match s2 with
          | String h1 (String h2 (String h3 (String h4 s3))) =>
            match hexval h1, hexval h2, hexval h3, hexval h4 with
            | Some a, Some b, Some x, Some y => consume (rune_bytes (((a * 16 + b) * 16 + x) * 16 + y)) (unescape s3)
            | _, _, _, _ => None
            end
          | _ => None
          end
        else match short_escape d with
             | Some b => consume [b] (unescape s2)
             | None => None
             end
      end
    else consume [code c] (unescape s1)
  end.

Lemma unescape_ascii b t : 0 <= b < 128 -> unescape (escape_byte b ++ t) = consume [b] (unescape t).
Proof.
  intros Hb. assert (Hall : Forall (fun b => forall t, unescape (escape_byte b ++ t) = consume [b] (unescape t)) (seqZ 0 128)).
  { vm_compute seqZ. repeat (constructor; [intros u; reflexivity|]). constructor. }
  rewrite list.Forall_forall in Hall. apply Hall. apply elem_of_seqZ. lia.
Qed.

Lemma code_byte b : 0 <= b < 256 -> code (ascii_of_N (Z.to_N b)) = b.
Proof. intros Hb. unfold code. rewrite N_ascii_embedding by lia. lia. Qed.

Lemma unescape_raw b t : 128 <= b < 256 -> unescape (byte_string b ++ t) = consume [b] (unescape t).
Proof.
  intros Hb. unfold byte_string. rewrite append_cons, append_nil_l. cbn [unescape].
  rewrite code_byte by lia. destruct (Z.eqb_spec b 34); [lia|].
  destruct (Ascii.eqb_spec (ascii_of_N (Z.to_N b)) "\") as [He|]; [|done].
  apply (f_equal code) in He. rewrite code_byte in He by lia. change (code "\") with 92 in He. lia.
Qed.

Lemma unescape_separator b2 t : in_range 168 169 b2 = true ->
  unescape (("\u202" ++ hexdigit (b2 - 160)) ++ t) = consume [226; 128; b2] (unescape t).
Proof.
  unfold in_range. intros H. bprop. assert (b2 = 168 \/ b2 = 169) as [-> | ->] by lia; reflexivity.
Qed.

Definition is_rune (o : option Z) : bool := match o with Some _ => true | None => false end.

Lemma consume_app a b o : consume a (consume b o) = consume (a ++ b)%list o.
Proof. destruct o as [[l r]|]; [|done]. cbn. by rewrite app_assoc. Qed.

Lemma unescape_escape n : forall bs r, (length bs <= n)%nat ->
  Forall (fun b => 0 <= b < 256) bs -> forallb is_rune (decode_runes bs) = true ->
  unescape (escape bs ++ String (ascii_of_N 34) r) = Some (bs, r).
Proof.
  induction n as [|n IH]; intros bs r Hn Hb Hv; [by destruct bs; [|cbn in Hn; lia]|].
  destruct bs as [|b0 t0]; [done|]. cbn [length] in Hn. apply Forall_cons_iff in Hb as [H0 Hb].
  cbn [escape]. cbn [decode_runes] in Hv.
  destruct (Z.ltb_spec b0 128) as [Hlt|Hge].
  { rewrite append_assoc, unescape_ascii by lia. rewrite IH by (done || lia). done. }
  destruct t0 as [|b1 t1]; [done|]. cbn [length] in Hn. apply Forall_cons_iff in Hb as [H1 Hb].
  destruct (in_range 194 223 b0 && in_range 128 191 b1) eqn:E1.
  { unfold in_range in E1. bprop. cbn in Hv. rewrite !append_assoc, !unescape_raw by lia.
    rewrite IH by (done || lia). done. }
  destruct t1 as [|b2 t2]; [done|]. cbn [length] in Hn. apply Forall_cons_iff in Hb as [H2 Hb].
  destruct (second3 b0 b1 && in_range 128 191 b2) eqn:E2.
  { assert (128 <= b0 /\ 128 <= b1 /\ 128 <= b2) as (Hx0 & Hx1 & Hx2).
    { unfold second3, in_range in E2. bprop. repeat case_match; bprop; lia. }
    cbn in Hv. destruct ((b0 =? 226) && (b1 =? 128) && in_range 168 169 b2) eqn:E3.
    - bprop. subst. rewrite append_assoc, unescape_separator by done. rewrite IH by (done || lia). done.
    - rewrite !append_assoc, !unescape_raw by lia. rewrite IH by (done || lia). done. }
  destruct t2 as [|b3 t3]; [done|]. cbn [length] in Hn. apply Forall_cons_iff in Hb as [H3 Hb].
  destruct (second4 b0 b1 && in_range 128 191 b2 && in_range 128 191 b3) eqn:E3; [|done].
  assert (128 <= b1 /\ 128 <= b2 /\ 128 <= b3) as (Hx1 & Hx2 & Hx3).
  { unfold second4, in_range in E3. bprop. repeat case_match; bprop; lia. }
  cbn in Hv. rewrite !append_assoc, !unescape_raw by lia. rewrite IH by (done || lia). done.
Qed.

(** A quoted string determines its value and what follows it. *)
Lemma quoted_inj s t r1 r2 : ValidString s = true -> ValidString t = true ->
  quoted s ++ r1 = quoted t ++ r2 -> s = t /\ r1 = r2.
Proof.
  intros Hs Ht H. unfold quoted in H. rewrite !append_assoc in H. apply append_inj_l in H.
  assert (Hb : forall u, Forall (fun b => 0 <= b < 256) (bytes u))
    by (intros u; apply list.Forall_forall; intros b; apply bytes_range).
  apply (f_equal unescape) in H.
  change (quote ++ r1) with (String (ascii_of_N 34) r1) in H.
  change (quote ++ r2) with (String (ascii_of_N 34) r2) in H.
  rewrite !(unescape_escape _ _ _ (le_n _)) in H by (apply Hb || done).
  injection H as H ->. by apply bytes_inj in H.
Qed.

(** ** Self-delimiting encodings *)

(** What may follow a value inside an array or a struct, or nothing. *)
Definition ends (r : string) : Prop :=
  match r with "" => True | String c _ => c = ","%char \/ c = "]"%char \/ c = "}"%char end.

(** [delimits enc a]: an encoding of [a] determines [a] and what follows. *)
Definition delimits {A} (enc : A -> option string) (P : A -> Prop) (a : A) : Prop :=
  forall b sa sb r1 r2, P b -> enc a = Some sa -> enc b = Some sb -> ends r1 -> ends r2 ->
    sa ++ r1 = sb ++ r2 -> a = b /\ r1 = r2.

(** No encoding starts with a delimiter. *)
Definition starts {A} (enc : A -> option string) (a : A) : Prop :=
  forall s, enc a = Some s -> exists c s', s = String c s' /\ ~ ends (String c s').

Section Lists.
Context {A : Type} (enc : A -> option string) (P : A -> Prop) (close : ascii).
Hypothesis close_ends : close = "]"%char \/ close = "}"%char.
Hypothesis P_starts : forall a, P a -> starts enc a.

(** The encoding of a list after its first element. *)
Definition list_rest (ss : list string) (r : string) : string :=
  match ss with [] => String close r | _ => String "," (commas ss ++ String close r) end.

Lemma commas_cons s ss r : commas (s :: ss) ++ String close r = s ++ list_rest ss r.
Proof.
  unfold commas. destruct ss as [|s' ss]; [done|]. rewrite Join_cons by done.
  by rewrite append_assoc, append_cons.
Qed.

Lemma list_rest_ends ss r : ends (list_rest ss r).
Proof. destruct ss; cbn; naive_solver. Qed.

Lemma commas_inj l : Forall (delimits enc P) l -> Forall P l -> forall l' ss ss' r r',
  Forall P l' -> mapM enc l = Some ss -> mapM enc l' = Some ss' ->
  commas ss ++ String close r = commas ss' ++ String close r' -> l = l' /\ r = r'.
Proof.
  assert (Hne : forall a l ss r r', P a -> mapM enc (a :: l) = Some ss -> commas ss ++ String close r <> commas [] ++ String close r').
  { intros a l0 ss r r' Ha Hm H. cbn in Hm. apply bind_Some in Hm as (s & Hs & Hm).
    apply bind_Some in Hm as (ss0 & _ & [= <-]). rewrite commas_cons in H.
    destruct (P_starts a Ha s Hs) as (c & s' & -> & Hc). rewrite append_cons in H.
    change (commas [] ++ String close r') with (String close r') in H. injection H as -> _.
    apply Hc. cbn. naive_solver. }
  induction 1 as [|a l Ha Hl IH]; intros HP l' ss ss' r r' HP' Hm Hm' H.
  - injection Hm as <-. destruct l' as [|b l']; [injection Hm' as <-; by injection H as ->|].
    apply Forall_cons_iff in HP' as [Hb _]. symmetry in H. by apply (Hne b l' ss' r' r) in H.
  - apply Forall_cons_iff in HP as [HPa HP]. destruct l' as [|b l'].
    { injection Hm' as <-. by apply (Hne a l ss r r') in H. }
    apply Forall_cons_iff in HP' as [HPb HP'].
    cbn in Hm, Hm'. apply bind_Some in Hm as (s & Hs & Hm). apply bind_Some in Hm as (ss0 & Hss & [= <-]).
    apply bind_Some in Hm' as (s' & Hs' & Hm'). apply bind_Some in Hm' as (ss0' & Hss' & [= <-]).
    rewrite !commas_cons in H. destruct (Ha b s s' _ _ HPb Hs Hs' (list_rest_ends _ _) (list_rest_ends _ _) H) as [-> Hr].
    destruct ss0 as [|x ss0], ss0' as [|y ss0']; cbn [list_rest] in Hr.
    + injection Hr as ->. apply mapM_Some in Hss, Hss'. inversion Hss; inversion Hss'. done.
    + injection Hr as Hx _. destruct close_ends; congruence.
    + injection Hr as Hx _. destruct close_ends; congruence.
    + injection Hr as Hr. destruct (IH HP l' _ _ _ _ HP' Hss Hss' Hr) as [-> ->]. done.
Qed.
End Lists.

(** ** Values *)

Inductive plain : json -> Prop :=
| plain_str s : ValidString s = true -> plain (JStr s)
| plain_int n : - 2 ^ 63 <= n <= MaxInt -> plain (JInt n)
| plain_bool b : plain (JBool b)
| plain_arr l : Forall plain l -> plain (JArr l)
| plain_obj l : Forall (fun kv => ValidString kv.1 = true /\ plain kv.2) l -> plain (JObj l).

Fixpoint jsize (j : json) : nat :=
  match j with
  | JArr l => S (foldr (fun j n => jsize j + n)%nat 0%nat l)
  | JObj l => S (foldr (fun kv n => jsize kv.2 + n)%nat 0%nat l)
  | _ => 1%nat
  end.

(** The characters a number is written with. *)
Definition numeric (c : ascii) : Prop := digit c <> None \/ c = "-"%char.

Definition all_numeric (s : string) : Prop := Forall numeric (list_ascii_of_string s).

Lemma uint_numeric d : all_numeric (DecimalString.NilZero.string_of_uint d).
Proof.
  assert (H : all_numeric (DecimalString.NilEmpty.string_of_uint d)).
  { induction d; cbn; [constructor|..]; (constructor; [by left|done]). }
  destruct d; try exact H. constructor; [by left|constructor].
Qed.

Lemma Itoa_numeric n : all_numeric (Itoa n) /\ Itoa n <> "".
Proof.
  unfold Itoa. rewrite Itoa_int. destruct (Z.to_int n) as [d|d]; (split; [|by destruct d]).
  - apply uint_numeric.
  - constructor; [by right|apply uint_numeric].
Qed.

Lemma ends_not_numeric c s : ends (String c s) -> ~ numeric c.
Proof. cbn. unfold numeric. intros [->|[->| ->]] [H|H]; cbn in H; done. Qed.

Lemma numeric_split a : forall b r1 r2, all_numeric a -> all_numeric b -> ends r1 -> ends r2 ->
  a ++ r1 = b ++ r2 -> a = b /\ r1 = r2.
Proof.
  induction a as [|c a IH]; intros [|d b] r1 r2 Ha Hb H1 H2 H.
  - done.
  - rewrite append_nil_l, append_cons in H. subst r1. inversion Hb; subst. by apply ends_not_numeric in H1.
  - rewrite append_nil_l, append_cons in H. subst r2. inversion Ha; subst. by apply ends_not_numeric in H2.
  - rewrite !append_cons in H. injection H as -> H. inversion Ha; inversion Hb; subst.
    destruct (IH b r1 r2) as [-> ->]; done.
Qed.

(** What a value's first character tells. *)
Definition jclass (j : json) : Z :=
  match j with JStr _ => 0 | JInt _ => 1 | JBool _ => 2 | JArr _ => 3 | JObj _ => 4 | _ => 5 end.

Definition cclass (c : ascii) : Z :=
  if code c =? 34 then 0
  else if Ascii.eqb c "t" || Ascii.eqb c "f" then 2
  else if Ascii.eqb c "[" then 3
  else if Ascii.eqb c "{" then 4
  else if Ascii.eqb c "," || Ascii.eqb c "]" || Ascii.eqb c "}" then 6
  else 1.

Lemma numeric_cclass c : numeric c -> cclass c = 1.
Proof.
  intros [H| ->]; [|done]. unfold digit in H. destruct (in_range 48 57 (code c)) eqn:E; [|done].
  unfold in_range in E. bprop. assert (Hc : c = ascii_of_N (Z.to_N (code c))).
  { unfold code. rewrite N2Z.id. by rewrite ascii_N_embedding. }
  rewrite Hc. assert (Hk : code c = 48 \/ code c = 49 \/ code c = 50 \/ code c = 51 \/ code c = 52 \/ code c = 53
                           \/ code c = 54 \/ code c = 55 \/ code c = 56 \/ code c = 57) by lia.
  destruct Hk as [->|[->|[->|[->|[->|[->|[->|[->|[->| ->]]]]]]]]]; reflexivity.
Qed.

Lemma marshal_class j s : plain j -> marshal j = Some s ->
  exists c s', s = String c s' /\ cclass c = jclass j.
Proof.
  destruct 1 as [t _|n _|b|l _|l _]; cbn [marshal].
  - intros [= <-]. unfold quoted. eexists _, _. split; [reflexivity|reflexivity].
  - intros [= <-]. destruct (Itoa_numeric n) as [Hn Hne]. destruct (Itoa n) as [|c s']; [done|].
    exists c, s'. split; [done|]. apply numeric_cclass. by inversion Hn.
  - intros [= <-]. destruct b; eexists _, _; (split; [reflexivity|reflexivity]).
  - intros H. apply fmap_Some in H as (ss & _ & ->). eexists _, _. split; [reflexivity|reflexivity].
  - intros H. apply fmap_Some in H as (ss & _ & ->). eexists _, _. split; [reflexivity|reflexivity].
Qed.

Lemma plain_starts j : plain j -> starts marshal j.
Proof.
  intros Hj s Hs. destruct (marshal_class j s Hj Hs) as (c & s' & -> & Hc). exists c, s'. split; [done|].
  intros [->|[->| ->]]; cbn in Hc; destruct Hj; done.
Qed.

Definition enc_field (kv : string * json) : option string := member kv.1 <$> marshal kv.2.

Definition plain_field (kv : string * json) : Prop := ValidString kv.1 = true /\ plain kv.2.

Lemma field_starts kv : plain_field kv -> starts enc_field kv.
Proof.
  intros _ s Hs. unfold enc_field in Hs. apply fmap_Some in Hs as (v & _ & ->).
  unfold member, quoted. eexists _, _. split; [reflexivity|]. intros [H|[H|H]]; discriminate H.
Qed.

Lemma field_delimits kv : ValidString kv.1 = true -> delimits marshal plain kv.2 -> delimits enc_field plain_field kv.
Proof.
  intros Hk Hv [k' v'] sa sb r1 r2 [Hk' Hp'] Ha Hb He1 He2 H. destruct kv as [k v]. cbn in *.
  unfold enc_field in Ha, Hb. apply fmap_Some in Ha as (va & Hva & ->). apply fmap_Some in Hb as (vb & Hvb & ->).
  unfold member in H. rewrite !append_assoc in H. apply quoted_inj in H as [-> H]; [|done..].
  apply append_inj_l in H. destruct (Hv v' va vb r1 r2) as [-> ->]; done.
Qed.

Lemma foldr_size {A} (f : A -> nat) l a : a ∈ l -> (f a <= foldr (fun x n => f x + n) 0 l)%nat.
Proof.
  induction l as [|x l IH]; [by intros ?%not_elem_of_nil|]. cbn. intros [->|Ha]%elem_of_cons; [lia|].
  apply IH in Ha. lia.
Qed.

Lemma marshal_delimits n : forall j, (jsize j <= n)%nat -> plain j -> delimits marshal plain j.
Proof.
  induction n as [|n IH]; intros j Hn Hj; [destruct j; cbn in Hn; lia|].
  intros j' sa sb r1 r2 Hj' Ha Hb He1 He2 H.
  destruct (marshal_class j sa Hj Ha) as (ca & ta & Hsa & Hca).
  destruct (marshal_class j' sb Hj' Hb) as (cb & tb & Hsb & Hcb).
  assert (Hclass : jclass j = jclass j').
  { subst sa sb. rewrite !append_cons in H. injection H as -> _. congruence. }
  clear ca ta Hsa Hca cb tb Hsb Hcb.
  destruct Hj as [s Hs|z Hz|b|l Hl|l Hl]; destruct Hj' as [s' Hs'|z' Hz'|b'|l' Hl'|l' Hl'];
    try discriminate Hclass; cbn [marshal] in Ha, Hb.
  - injection Ha as <-. injection Hb as <-. by apply quoted_inj in H as [-> ->].
  - injection Ha as <-. injection Hb as <-.
    apply numeric_split in H as [Hi ->]; [|apply Itoa_numeric|apply Itoa_numeric|done|done].
    by apply Itoa_inj in Hi as ->.
  - injection Ha as <-. injection Hb as <-. destruct b, b'; try discriminate H; apply append_inj_l in H as ->; done.
  - apply fmap_Some in Ha as (ss & Hss & ->). apply fmap_Some in Hb as (ss' & Hss' & ->).
    rewrite !append_assoc in H. apply append_inj_l in H.
    apply (commas_inj marshal plain "]" (or_introl eq_refl) plain_starts l) with (l' := l') (ss := ss) (ss' := ss') in H;
      [destruct H as [-> ->]; done| |done..].
    apply list.Forall_forall. intros x Hx. rewrite list.Forall_forall in Hl. apply IH; [|by apply Hl].
    cbn in Hn. pose proof (foldr_size jsize l x Hx). lia.
  - apply fmap_Some in Ha as (ss & Hss & ->). apply fmap_Some in Hb as (ss' & Hss' & ->).
    rewrite !append_assoc in H. apply append_inj_l in H.
    assert (Henc : forall l0, mapM (fun '(k, v) => member k <$> marshal v) l0 = mapM enc_field l0).
    { intros l0. apply mapM_ext. by intros [k v]. }
    rewrite Henc in Hss, Hss'.
    apply (commas_inj enc_field plain_field "}" (or_intror eq_refl) field_starts l) with (l' := l') (ss := ss) (ss' := ss') in H;
      [destruct H as [-> ->]; done| |done..].
    apply list.Forall_forall. intros x Hx. rewrite list.Forall_forall in Hl. destruct (Hl x Hx) as [Hk Hp].
    apply field_delimits; [done|]. apply IH; [|done].
    cbn in Hn. pose proof (foldr_size (fun kv => jsize kv.2) l x Hx). cbn in *. lia.
Qed.

(** Two values with one encoding are the same value. *)
Lemma marshal_inj j j' s : plain j -> plain j' -> marshal j = Some s -> marshal j' = Some s -> j = j'.
Proof.
  intros Hj Hj' H H'. by destruct (marshal_delimits (jsize j) j (le_n _) Hj j' s s "" "" Hj' H H' I I eq_refl).
Qed.
