(* ===== verification/Containment.v ===== *)
(** Containment requests (src/pkg/containment/containment.go): the request a
    caller makes, its normal form, comparison by encoding, and the flags that
    carry it to another process.

    A nil request is [None], a nil list is []. A port is a [Z] below 2^16. *)
From Stdlib Require Import ZArith Ascii String Lia.
From stdpp Require Import base tactics list strings option sorting.
From S2P Require Import Prelude GoStr Json JsonInj.

#[local] Open Scope string_scope.
#[local] Open Scope Z_scope.

Definition KindLandlock : string := "landlock".
Definition ResolveUnixABI : Z := 9.
Definition LowestABI : Z := 6.
Definition SchemaVersion : Z := 1.

Record Request := mkRequest {
  Kind : string; ReadOnly : list string; ReadWrite : list string; RestrictTCP : bool;
  ConnectTCP : list Z; MinABI : Z; StateDir : string; PassEnv : list string }.

(** ** sortedUnique *)

Section SortedUnique.
Context {A : Type} `{EqDecision A} (R : relation A) `{!RelDecision R}.

(** [slices.Compact]. *)
Fixpoint Compact (l : list A) : list A :=
  match l with
  | x :: (y :: _) as t => if decide (x = y) then Compact t else x :: Compact t
  | _ => l
  end.

Definition sortedUnique (l : list A) : list A := Compact (merge_sort R l).

Context `{!PartialOrder R, !Total R}.

Lemma Compact_elem l x : x ∈ Compact l <-> x ∈ l.
Proof.
  induction l as [|a l IH]; [done|]. destruct l as [|b l]; [done|].
  change (Compact (a :: b :: l)) with (if decide (a = b) then Compact (b :: l) else a :: Compact (b :: l)).
  case_decide; [subst; rewrite IH, !elem_of_cons; tauto|]. by rewrite elem_of_cons, IH, <- elem_of_cons.
Qed.

Lemma Compact_sorted l : StronglySorted R l -> StronglySorted R (Compact l) /\ NoDup (Compact l).
Proof.
  induction 1 as [|a l Hl [IHs IHn] Ha]; [by repeat constructor|].
  destruct l as [|b l]; [split; [by repeat constructor|apply NoDup_singleton]|].
  change (Compact (a :: b :: l)) with (if decide (a = b) then Compact (b :: l) else a :: Compact (b :: l)).
  case_decide as Hab; [done|]. rewrite list.Forall_forall in Ha. split.
  - constructor; [done|]. apply list.Forall_forall. intros x Hx. apply Ha. by apply Compact_elem.
  - apply list.NoDup_cons. split; [|done]. rewrite Compact_elem. intros Hx.
    assert (Hba : R b a).
    { apply elem_of_cons in Hx as [->|Hx]; [done|]. inversion_clear Hl as [|? ? _ Hb].
      rewrite list.Forall_forall in Hb. by apply Hb. }
    apply Hab, (anti_symm R); [|done]. apply Ha, list_elem_of_here.
Qed.

Lemma sortedUnique_elem l x : x ∈ sortedUnique l <-> x ∈ l.
Proof. unfold sortedUnique. rewrite Compact_elem. by rewrite merge_sort_Permutation. Qed.

Lemma sortedUnique_sorted l : StronglySorted R (sortedUnique l) /\ NoDup (sortedUnique l).
Proof. apply Compact_sorted, StronglySorted_merge_sort; apply _. Qed.

(** The result is determined by the set of elements. *)
Lemma sortedUnique_canonical l1 l2 :
  sortedUnique l1 = sortedUnique l2 <-> (forall x, x ∈ l1 <-> x ∈ l2).
Proof.
  split.
  - intros H x. by rewrite <- (sortedUnique_elem l1), <- (sortedUnique_elem l2), H.
  - intros H. destruct (sortedUnique_sorted l1), (sortedUnique_sorted l2).
    apply (StronglySorted_unique R); [done|done|]. apply NoDup_Permutation; [done|done|].
    intros x. by rewrite !sortedUnique_elem.
Qed.

Lemma sortedUnique_idemp l : sortedUnique (sortedUnique l) = sortedUnique l.
Proof. apply sortedUnique_canonical, sortedUnique_elem. Qed.

Lemma sortedUnique_nil l : sortedUnique l = [] <-> l = [].
Proof.
  split; [|by intros ->]. intros H. destruct l as [|x l]; [done|].
  assert (Hx : x ∈ sortedUnique (x :: l)) by (apply sortedUnique_elem, list_elem_of_here).
  rewrite H in Hx. by apply not_elem_of_nil in Hx.
Qed.
End SortedUnique.

Definition sorted_strings : list string -> list string := sortedUnique String.le.
Definition sorted_ports : list Z -> list Z := sortedUnique Z.le.

(** ** Normalize *)

Definition letter (b : Z) : bool := in_range 65 90 b || in_range 97 122 b || (b =? 95).

(** [envNameRE.MatchString]: ^[A-Za-z_][A-Za-z0-9_]*$. *)
Definition envName (s : string) : bool :=
  match bytes s with
  | [] => false
  | b :: bs => letter b && forallb (fun c => letter c || in_range 48 57 c) bs
  end.

Definition ReservedEnv (name : string) : bool :=
  any (String.eqb name)
    ["HOME"; "TMPDIR"; "TMP"; "TEMP"; "PWD"; "CLAUDE_CONFIG_DIR"; "CLAUDE_CODE_TMPDIR"; "CODEX_HOME";
     "XDG_RUNTIME_DIR"; "XDG_CONFIG_HOME"; "XDG_CACHE_HOME"; "XDG_DATA_HOME"; "XDG_STATE_HOME"].

Definition NUL : ascii := ascii_of_N 0.

(** A path the request may name: absolute, with no NUL byte. *)
Definition check_path (p : string) : result string unit :=
  when (p =s? "") || negb (IsAbs p) refuse "path is not an absolute path" ;;
  when ContainsByte p NUL refuse "path contains a NUL byte" ;;
  Ok tt.

Definition normalizePaths (l : list string) : result string (list string) :=
  out ← range (fun _ p out => check_path p ≫= fun _ => Ok (app out [Clean p])) l [];
  Ok (sorted_strings out).

Definition checkPorts (l : list Z) : result string unit :=
  range (fun _ p _ => when p =? 0 refuse "TCP port 0 is not a connect target" ;; Ok tt) l tt.

Definition checkEnv (l : list string) : result string unit :=
  range (fun _ name _ =>
    when negb (envName name) refuse "PassEnv is not a valid environment variable name" ;;
    when ReservedEnv name refuse "PassEnv is wrapper-controlled" ;; Ok tt) l tt.

Definition checkStateDir (d : string) : result string string :=
  if d =s? "" then Ok ""
  else
    when negb (IsAbs d) refuse "StateDir is not an absolute path" ;;
    when ContainsByte d NUL refuse "StateDir contains a NUL byte" ;;
    Ok (Clean d).

Definition Normalize (r : option Request) : result string (option Request) :=
  match r with
  | None => Ok None
  | Some r =>
    when negb (r.(Kind) =s? KindLandlock) refuse "unknown kind" ;;
    ro ← normalizePaths r.(ReadOnly);
    rw ← normalizePaths r.(ReadWrite);
    when negb (is_nil r.(ConnectTCP)) && negb r.(RestrictTCP) refuse "connect ports require RestrictTCP" ;;
    checkPorts r.(ConnectTCP) ≫= fun _ =>
    abi ← (if r.(MinABI) =? 0 then Ok 0
           else when r.(MinABI) <? LowestABI refuse "MinABI is below the supported minimum" ;; Ok r.(MinABI));
    sd ← checkStateDir r.(StateDir);
    checkEnv r.(PassEnv) ≫= fun _ =>
    Ok (Some (mkRequest r.(Kind) ro rw r.(RestrictTCP) (sorted_ports r.(ConnectTCP)) abi sd (sorted_strings r.(PassEnv))))
  end.

Definition RequiredABI (r : Request) (kernelABI : Z) : Z :=
  if negb (r.(MinABI) =? 0) then r.(MinABI)
  else if ResolveUnixABI <=? kernelABI then ResolveUnixABI
  else LowestABI.

(** ** Equal *)

Definition Request_json (r : Request) : json :=
  JObj (("kind", JStr r.(Kind)) ::
        omit_arr JStr "read_only" r.(ReadOnly) ++ omit_arr JStr "read_write" r.(ReadWrite) ++
        omit_bool "restrict_tcp" r.(RestrictTCP) ++ omit_arr JInt "connect_tcp" r.(ConnectTCP) ++
        omit_int "min_abi" r.(MinABI) ++ omit_str "state_dir" r.(StateDir) ++
        omit_arr JStr "pass_env" r.(PassEnv))%list.

(** [ja, _ := json.Marshal(na)]: an error leaves nothing. *)
Definition marshalled (j : json) : string := default "" (marshal j).

Definition Equal (a b : option Request) : bool :=
  match Normalize a, Normalize b with
  | Ok None, Ok None => true
  | Ok (Some na), Ok (Some nb) => marshalled (Request_json na) =s? marshalled (Request_json nb)
  | _, _ => false
  end.

(** ** Flags *)

(** [append(argv, flag, p)] for each element. *)
Definition repeated (flag : string) (l : list string) : list string := flat_map (fun p => [flag; p]) l.

Definition CLIFlags (r : option Request) : list string :=
  match r with
  | None => []
  | Some r =>
    ["--contain"; r.(Kind)]
    ++ repeated "--contain-rw" r.(ReadWrite)
    ++ repeated "--contain-ro" r.(ReadOnly)
    ++ (if r.(RestrictTCP) then ["--contain-restrict-tcp"] else [])
    ++ repeated "--contain-allow-tcp" (map Itoa r.(ConnectTCP))
    ++ (if negb (r.(MinABI) =? 0) then ["--contain-min-abi"; Itoa r.(MinABI)] else [])
    ++ (if negb (r.(StateDir) =s? "") then ["--contain-state-dir"; r.(StateDir)] else [])
    ++ repeated "--contain-pass-env" r.(PassEnv)
  end%list.

(** ** Lemmas: paths *)

Lemma check_path_Ok p : check_path p = Ok tt <-> IsAbs p = true /\ ContainsByte p NUL = false.
Proof.
  unfold check_path. rewrite !when_Ok, orb_false_iff, negb_false_iff. split; [tauto|].
  intros [Ha Hn]. split_and!; try done. by destruct p.
Qed.

Lemma ContainsByte_false s c : ContainsByte s c = false <-> no_byte c s.
Proof.
  unfold ContainsByte, no_byte. rewrite any_false. split.
  - intros H Hin. specialize (H c Hin). by rewrite Ascii.eqb_refl in H.
  - intros H x Hx. apply Ascii.eqb_neq. intros <-. by apply H.
Qed.

Lemma no_byte_Split c s e : no_byte c s -> e ∈ Split slash s -> no_byte c e.
Proof.
  revert e. induction s as [|a s IH]; intros e Hs; cbn; [intros ->%list_elem_of_singleton; apply no_byte_nil|].
  apply no_byte_cons in Hs as [Ha Hs]. pose proof (Split_nonnil slash s) as Hne.
  destruct (Ascii.eqb a slash).
  - intros [->|He]%elem_of_cons; [apply no_byte_nil|by apply IH].
  - destruct (Split slash s) as [|h t]; [done|]. intros [->|He]%elem_of_cons.
    + apply no_byte_cons. split; [done|]. apply IH; [done|apply list_elem_of_here].
    + apply IH; [done|by apply list_elem_of_further].
Qed.

Lemma no_byte_Join c l : c <> slash -> Forall (no_byte c) l -> no_byte c (Join slash l).
Proof.
  intros Hc. induction l as [|x l IH]; intros Hl; [apply no_byte_nil|].
  apply Forall_cons_iff in Hl as [Hx Hl]. destruct l as [|y l]; [done|].
  rewrite Join_cons by done. apply no_byte_app. split; [done|]. apply no_byte_cons. split; [congruence|]. by apply IH.
Qed.

Lemma clean_comps_sub rooted l : forall acc (P : string -> Prop), Forall P acc -> Forall P l ->
  Forall P (foldl (clean_step rooted) acc l).
Proof.
  induction l as [|e l IH]; intros acc P Ha Hl; [done|]. apply Forall_cons_iff in Hl as [He Hl].
  cbn [foldl]. apply IH; [|done]. unfold clean_step.
  destruct ((e =s? "") || (e =s? ".")); [done|]. destruct (e =s? ".."); [|by constructor].
  destruct acc as [|h t]; [by destruct rooted; constructor|]. apply Forall_cons_iff in Ha as [Hh Ht].
  destruct (h =s? ".."); [by repeat constructor|done].
Qed.

(** The cleaned form of a path the request may name, is one too. *)
Lemma Clean_path_ok p : check_path p = Ok tt -> check_path (Clean p) = Ok tt /\ Clean (Clean p) = Clean p.
Proof.
  rewrite !check_path_Ok, !ContainsByte_false. intros [Ha Hn].
  assert (Hg : Forall good_comp (rev (foldl (clean_step true) [] (Split slash p)))).
  { apply Forall_rev, clean_rooted_good; [constructor|]. apply Forall_forall. intros e He.
    by eapply Split_no_byte. }
  assert (Hnb : Forall (no_byte NUL) (rev (foldl (clean_step true) [] (Split slash p)))).
  { apply Forall_rev, clean_comps_sub; [constructor|]. apply Forall_forall. intros e He.
    by eapply no_byte_Split. }
  rewrite Clean_rooted by done. split; [split|by apply Clean_abs].
  - apply IsAbs_slash.
  - unfold abs_path. apply no_byte_app. split; [apply no_byte_cons; split; [done|apply no_byte_nil]|].
    by apply no_byte_Join.
Qed.

(** ** What Normalize accepts, and its result *)

Definition path_ok (p : string) : Prop := check_path p = Ok tt.

Definition env_ok (name : string) : Prop := envName name = true /\ ReservedEnv name = false.

Definition valid (r : Request) : Prop :=
  r.(Kind) = KindLandlock /\ Forall path_ok r.(ReadOnly) /\ Forall path_ok r.(ReadWrite) /\
  (r.(ConnectTCP) <> [] -> r.(RestrictTCP) = true) /\ Forall (fun p => p <> 0) r.(ConnectTCP) /\
  (r.(MinABI) = 0 \/ LowestABI <= r.(MinABI)) /\ (r.(StateDir) = "" \/ path_ok r.(StateDir)) /\
  Forall env_ok r.(PassEnv).

Definition clean_dir (d : string) : string := if d =s? "" then "" else Clean d.

(** The normal form of a valid request. *)
Definition normal (r : Request) : Request :=
  mkRequest r.(Kind) (sorted_strings (map Clean r.(ReadOnly))) (sorted_strings (map Clean r.(ReadWrite)))
    r.(RestrictTCP) (sorted_ports r.(ConnectTCP)) r.(MinABI) (clean_dir r.(StateDir)) (sorted_strings r.(PassEnv)).

Lemma normalizePaths_Ok l out :
  normalizePaths l = Ok out <-> Forall path_ok l /\ out = sorted_strings (map Clean l).
Proof.
  unfold normalizePaths, range.
  assert (H : forall l i acc o, range_from i (fun _ p out => check_path p ≫= fun _ => Ok (app out [Clean p])) l acc = Ok o
              <-> Forall path_ok l /\ o = (acc ++ map Clean l)%list).
  { clear l out. induction l as [|p l IH]; intros i acc o; cbn [range_from map].
    - rewrite app_nil_r. split; [intros [= <-]; by split|]. intros [_ ->]. done.
    - rewrite bind_Ok. setoid_rewrite bind_unit. rewrite Forall_cons_iff. split.
      + intros (a & [Hp [= <-]] & Ho). apply IH in Ho as [Hl ->]. rewrite <- app_assoc. done.
      + intros [[Hp Hl] ->]. exists (acc ++ [Clean p])%list. split; [done|]. apply IH. by rewrite <- app_assoc. }
  rewrite bind_Ok. setoid_rewrite H. cbn [app]. split.
  - intros (o & [Hl ->] & [= <-]). done.
  - intros [Hl ->]. eauto.
Qed.

Lemma range_unit_Ok {A} (body : A -> result string unit) (P : A -> Prop) l :
  (forall x, body x = Ok tt <-> P x) -> range (fun _ x _ => body x) l tt = Ok tt <-> Forall P l.
Proof.
  intros HP. rewrite <- (range_guards (fun _ x _ => body x)); [|intros j x; apply HP].
  split; [eauto|]. by intros [[] ?].
Qed.

Lemma checkPorts_Ok l : checkPorts l = Ok tt <-> Forall (fun p => p <> 0) l.
Proof.
  apply (range_unit_Ok (fun p => when p =? 0 refuse "TCP port 0 is not a connect target" ;; Ok tt)).
  intros p. rewrite when_Ok, Z.eqb_neq. tauto.
Qed.

Lemma checkEnv_Ok l : checkEnv l = Ok tt <-> Forall env_ok l.
Proof.
  apply (range_unit_Ok (fun name => when negb (envName name) refuse "PassEnv is not a valid environment variable name" ;;
    when ReservedEnv name refuse "PassEnv is wrapper-controlled" ;; Ok tt)).
  intros name. rewrite !when_Ok, negb_false_iff. unfold env_ok. tauto.
Qed.

Lemma checkStateDir_Ok d s : checkStateDir d = Ok s <-> (d = "" \/ path_ok d) /\ s = clean_dir d.
Proof.
  unfold checkStateDir, clean_dir, path_ok. rewrite check_path_Ok.
  destruct (String.eqb_spec d "") as [->|Hd]; [naive_solver|].
  rewrite !when_Ok, negb_false_iff. naive_solver.
Qed.

Lemma minABI_Ok z a :
  (if z =? 0 then Ok 0 else when z <? LowestABI refuse "MinABI is below the supported minimum"%string ;; Ok z) = Ok a
  <-> (z = 0 \/ LowestABI <= z) /\ a = z.
Proof.
  destruct (Z.eqb_spec z 0) as [->|Hz]; [naive_solver|]. rewrite when_Ok, Z.ltb_ge. naive_solver.
Qed.

(** Normalize accepts exactly the valid requests and returns their normal
    form. *)
Lemma Normalize_spec r n : Normalize (Some r) = Ok (Some n) <-> valid r /\ n = normal r.
Proof.
  assert (Htcp : negb (is_nil r.(ConnectTCP)) && negb r.(RestrictTCP) = false
                 <-> (r.(ConnectTCP) <> [] -> r.(RestrictTCP) = true)).
  { rewrite guard_implies. destruct (ConnectTCP r); cbn; naive_solver. }
  unfold Normalize, valid, normal. rewrite when_Ok, negb_false_iff, String.eqb_eq. split.
  - intros (Hk & H). apply bind_Ok in H as (ro & [Hro ->]%normalizePaths_Ok & H).
    apply bind_Ok in H as (rw & [Hrw ->]%normalizePaths_Ok & H). apply when_Ok in H as [Ht H].
    apply bind_unit in H as [Hp H]. apply bind_Ok in H as (abi & [Ha ->]%minABI_Ok & H).
    apply bind_Ok in H as (sd & [Hs ->]%checkStateDir_Ok & H). apply bind_unit in H as [He [= <-]].
    split; [|done]. split_and!; try done; [by apply Htcp|by apply checkPorts_Ok|by apply checkEnv_Ok].
  - intros ((Hk & Hro & Hrw & Ht & Hp & Ha & Hs & He) & ->). split; [done|].
    apply bind_Ok. exists (sorted_strings (map Clean r.(ReadOnly))). split; [by apply normalizePaths_Ok|].
    apply bind_Ok. exists (sorted_strings (map Clean r.(ReadWrite))). split; [by apply normalizePaths_Ok|].
    apply when_Ok. split; [by apply Htcp|]. apply bind_unit. split; [by apply checkPorts_Ok|].
    apply bind_Ok. exists r.(MinABI). split; [by apply minABI_Ok|].
    apply bind_Ok. exists (clean_dir r.(StateDir)). split; [by apply checkStateDir_Ok|].
    apply bind_unit. split; [by apply checkEnv_Ok|done].
Qed.

(** A request never normalizes to no containment. *)
Lemma Normalize_not_None r : Normalize (Some r) <> Ok None.
Proof.
  unfold Normalize. rewrite when_Ok. intros [_ H].
  apply bind_Ok in H as (ro & _ & H). apply bind_Ok in H as (rw & _ & H). apply when_Ok in H as [_ H].
  apply bind_unit in H as [_ H]. apply bind_Ok in H as (abi & _ & H). apply bind_Ok in H as (sd & _ & H).
  by apply bind_unit in H as [_ H].
Qed.

(** ** Normal forms *)

Lemma same_set_clean l : (forall p, p ∈ l -> Clean (Clean p) = Clean p) ->
  sorted_strings (map Clean (sorted_strings (map Clean l))) = sorted_strings (map Clean l).
Proof.
  intros Hc. apply sortedUnique_canonical; try apply _. intros x. rewrite !list_elem_of_fmap. split.
  - intros (y & -> & Hy). apply sortedUnique_elem in Hy; try apply _. apply list_elem_of_fmap in Hy as (z & -> & Hz).
    rewrite Hc by done. eauto.
  - intros (y & -> & Hy). exists (Clean y). split; [by rewrite Hc|]. apply sortedUnique_elem; try apply _.
    apply list_elem_of_fmap. eauto.
Qed.

Lemma Forall_sorted (P : string -> Prop) l : Forall P (sorted_strings l) <-> Forall P l.
Proof. rewrite !list.Forall_forall. unfold sorted_strings. by setoid_rewrite sortedUnique_elem. Qed.

Lemma clean_dir_idemp d : d = "" \/ path_ok d -> clean_dir (clean_dir d) = clean_dir d.
Proof.
  intros [->|Hd]; [done|]. unfold clean_dir. destruct (String.eqb_spec d ""); [done|].
  destruct (String.eqb_spec (Clean d) ""); [done|]. apply (Clean_path_ok d Hd).
Qed.

Lemma normal_valid r : valid r -> valid (normal r).
Proof.
  intros (Hk & Hro & Hrw & Ht & Hp & Ha & Hs & He). unfold valid, normal. cbn.
  assert (Hclean : forall l, Forall path_ok l -> Forall path_ok (sorted_strings (map Clean l))).
  { intros l Hl. apply Forall_sorted, Forall_map. eapply Forall_impl; [exact Hl|]. intros p Hpok. apply (Clean_path_ok p Hpok). }
  split_and!; auto.
  - intros Hne. apply Ht. intros Hnil. apply Hne. by rewrite Hnil.
  - apply list.Forall_forall. intros p Hin. apply sortedUnique_elem in Hin; try apply _.
    rewrite list.Forall_forall in Hp. by apply Hp.
  - destruct Hs as [->|Hs]; [by left|]. unfold clean_dir. destruct (String.eqb_spec (StateDir r) ""); [by left|].
    right. apply (Clean_path_ok _ Hs).
  - by apply Forall_sorted.
Qed.

(** Normalizing twice is normalizing once. *)
Theorem Normalize_idempotent r n : Normalize r = Ok n -> Normalize n = Ok n.
Proof.
  destruct r as [r|]; [|by intros [= <-]].
  intros H. destruct n as [n|].
  - apply Normalize_spec in H as [Hv ->]. apply Normalize_spec. split; [by apply normal_valid|].
    destruct Hv as (Hk & Hro & Hrw & Ht & Hp & Ha & Hs & He). unfold normal.
    cbn [Kind ReadOnly ReadWrite RestrictTCP ConnectTCP MinABI StateDir PassEnv].
    assert (Hc : forall l, Forall path_ok l -> forall p, p ∈ l -> Clean (Clean p) = Clean p).
    { intros l Hl p Hin. rewrite list.Forall_forall in Hl. apply (Clean_path_ok p (Hl p Hin)). }
    rewrite !same_set_clean by (by apply Hc). rewrite clean_dir_idemp by done.
    unfold sorted_strings, sorted_ports. by rewrite !sortedUnique_idemp by apply _.
  - by apply Normalize_not_None in H.
Qed.

(** ** Equal *)

(** The same policy: the same kind, switch, floor and state directory, and the
    same sets of paths, ports and names, whatever their order, spelling and
    repetition. *)
Definition same_policy (a b : Request) : Prop :=
  a.(Kind) = b.(Kind) /\
  (forall p, p ∈ map Clean a.(ReadOnly) <-> p ∈ map Clean b.(ReadOnly)) /\
  (forall p, p ∈ map Clean a.(ReadWrite) <-> p ∈ map Clean b.(ReadWrite)) /\
  a.(RestrictTCP) = b.(RestrictTCP) /\
  (forall p, p ∈ a.(ConnectTCP) <-> p ∈ b.(ConnectTCP)) /\
  a.(MinABI) = b.(MinABI) /\ clean_dir a.(StateDir) = clean_dir b.(StateDir) /\
  (forall p, p ∈ a.(PassEnv) <-> p ∈ b.(PassEnv)).

Lemma normal_same_policy a b : normal a = normal b <-> same_policy a b.
Proof.
  unfold normal, same_policy, sorted_strings, sorted_ports.
  rewrite <- !(sortedUnique_canonical String.le), <- (sortedUnique_canonical Z.le). split.
  - intros H. by injection H as -> -> -> -> -> -> -> ->.
  - by intros (-> & -> & -> & -> & -> & -> & -> & ->).
Qed.

(** A struct's field by name. *)
Fixpoint field (k : string) (l : list (string * json)) : option json :=
  match l with
  | [] => None
  | (k', v) :: l => if k =s? k' then Some v else field k l
  end.

Lemma field_app k l1 l2 : field k (l1 ++ l2) = match field k l1 with Some v => Some v | None => field k l2 end.
Proof. induction l1 as [|[k' v] l1 IH]; [done|]. cbn. by destruct (k =s? k'). Qed.

(** The value of an omitted-when-empty field, if it is there. *)
Definition present (b : bool) (v : json) : option json := if b then None else Some v.

Lemma field_omitempty k k' b v :
  field k (omitempty b k' v) = if k =s? k' then present b v else None.
Proof. unfold omitempty, present. destruct b; cbn; by destruct (k =s? k'). Qed.

Lemma field_omit_arr {A} (f : A -> json) k k' l :
  field k (omit_arr f k' l) = if k =s? k' then present (is_nil l) (JArr (map f l)) else None.
Proof. unfold omit_arr, present. destruct l; cbn; by destruct (k =s? k'). Qed.

(** What a request's encoding says of each field. *)
Lemma Request_field r :
  field "kind" (match Request_json r with JObj l => l | _ => [] end) = Some (JStr r.(Kind)) /\
  field "read_only" (match Request_json r with JObj l => l | _ => [] end) = present (is_nil r.(ReadOnly)) (JArr (map JStr r.(ReadOnly))) /\
  field "read_write" (match Request_json r with JObj l => l | _ => [] end) = present (is_nil r.(ReadWrite)) (JArr (map JStr r.(ReadWrite))) /\
  field "restrict_tcp" (match Request_json r with JObj l => l | _ => [] end) = present (negb r.(RestrictTCP)) (JBool r.(RestrictTCP)) /\
  field "connect_tcp" (match Request_json r with JObj l => l | _ => [] end) = present (is_nil r.(ConnectTCP)) (JArr (map JInt r.(ConnectTCP))) /\
  field "min_abi" (match Request_json r with JObj l => l | _ => [] end) = present (r.(MinABI) =? 0) (JInt r.(MinABI)) /\
  field "state_dir" (match Request_json r with JObj l => l | _ => [] end) = present (r.(StateDir) =s? "") (JStr r.(StateDir)) /\
  field "pass_env" (match Request_json r with JObj l => l | _ => [] end) = present (is_nil r.(PassEnv)) (JArr (map JStr r.(PassEnv))).
Proof.
  unfold Request_json, omit_bool, omit_int, omit_str.
  repeat match goal with |- _ /\ _ => split end; cbn [field];
    rewrite ?field_app, ?field_omit_arr, ?field_omitempty; cbn [String.eqb Ascii.eqb Bool.eqb andb];
    try done; unfold present; repeat case_match; done.
Qed.

Lemma present_arr_inj {A} (f : A -> json) (Hf : forall x y, f x = f y -> x = y) l l' :
  present (is_nil l) (JArr (map f l)) = present (is_nil l') (JArr (map f l')) -> l = l'.
Proof.
  assert (Hm : forall l l', map f l = map f l' -> l = l').
  { clear l l'. induction l as [|x l IH]; intros [|y l'] H; try done. cbn in H. injection H as H1 H2.
    f_equal; [by apply Hf|by apply IH]. }
  destruct l, l'; cbn; try done. intros H. injection H as H1 H2. apply Hm. cbn. congruence.
Qed.

Lemma Request_json_inj a b : Request_json a = Request_json b -> a = b.
Proof.
  intros H. destruct (Request_field a) as (K1 & RO1 & RW1 & T1 & C1 & M1 & S1 & E1).
  destruct (Request_field b) as (K2 & RO2 & RW2 & T2 & C2 & M2 & S2 & E2).
  rewrite H in K1, RO1, RW1, T1, C1, M1, S1, E1.
  rewrite K2 in K1. rewrite RO2 in RO1. rewrite RW2 in RW1. rewrite T2 in T1. rewrite C2 in C1.
  rewrite M2 in M1. rewrite S2 in S1. rewrite E2 in E1.
  clear K2 RO2 RW2 T2 C2 M2 S2 E2 H. destruct a as [k ro rw t c m s e], b as [k' ro' rw' t' c' m' s' e']. cbn in *.
  assert (Hstr : forall x y, JStr x = JStr y -> x = y) by (intros x y; congruence).
  assert (Hint : forall x y, JInt x = JInt y -> x = y) by (intros x y; congruence).
  apply (present_arr_inj JStr Hstr) in RO1, RW1, E1. apply (present_arr_inj JInt Hint) in C1.
  injection K1 as K1. subst.
  assert (t = t') as -> by (unfold present in T1; destruct t, t'; done).
  assert (m = m') as ->.
  { unfold present in M1. destruct (Z.eqb_spec m 0), (Z.eqb_spec m' 0); congruence. }
  assert (s = s') as ->.
  { unfold present in S1. destruct (String.eqb_spec s ""), (String.eqb_spec s' ""); congruence. }
  done.
Qed.

(** Requests whose encoding loses nothing: UTF-8 paths, machine integers. *)
Definition encodable (r : Request) : Prop :=
  Forall (fun p => ValidString p = true) (map Clean r.(ReadOnly)) /\
  Forall (fun p => ValidString p = true) (map Clean r.(ReadWrite)) /\
  Forall (fun p => 0 <= p < 2 ^ 16) r.(ConnectTCP) /\
  0 <= r.(MinABI) <= MaxInt /\ ValidString (clean_dir r.(StateDir)) = true.

Lemma envName_ascii s : envName s = true -> ValidString s = true.
Proof.
  unfold envName. intros H. apply ValidString_ascii. destruct (bytes s) as [|b bs]; [done|]. bprop.
  assert (Hl : forall c, letter c = true -> (c <? 128) = true).
  { intros c. unfold letter, in_range. rewrite !orb_true_iff, !andb_true_iff, !Z.leb_le, Z.eqb_eq, Z.ltb_lt. lia. }
  cbn. rewrite Hl by done. cbn. rewrite forallb_forall in *. intros c Hc. specialize (H0 c Hc).
  apply orb_true_iff in H0 as [H0|H0]; [by apply Hl|]. unfold in_range in H0. bprop. apply Z.ltb_lt. lia.
Qed.

Lemma plain_strings l : Forall (fun p => ValidString p = true) l -> plain (JArr (map JStr l)).
Proof. intros H. constructor. apply Forall_map. eapply Forall_impl; [exact H|]. by constructor. Qed.

Lemma plain_fields l : Forall (fun kv => ValidString kv.1 = true /\ plain kv.2) l -> plain (JObj l).
Proof. by constructor. Qed.

Lemma normal_plain r : valid r -> encodable r -> plain (Request_json (normal r)).
Proof.
  intros (Hk & _ & _ & _ & _ & _ & _ & He) (Hro & Hrw & Hc & Hm & Hs).
  assert (Harr : forall k l, ValidString k = true -> Forall (fun p => ValidString p = true) l ->
            Forall (fun kv => ValidString kv.1 = true /\ plain kv.2) (omit_arr JStr k l)).
  { intros k l Hkk Hl. unfold omit_arr. destruct l; [constructor|]. constructor; [|constructor].
    split; [done|]. by apply plain_strings. }
  apply plain_fields. unfold normal.
  cbn [Kind ReadOnly ReadWrite RestrictTCP ConnectTCP MinABI StateDir PassEnv].
  constructor; [split; [done|]; constructor; cbn; by rewrite Hk|].
  repeat (apply Forall_app; split).
  - apply Harr; [done|]. by apply Forall_sorted.
  - apply Harr; [done|]. by apply Forall_sorted.
  - unfold omit_bool, omitempty. destruct (negb _); constructor; [by split; [|constructor]|constructor].
  - unfold omit_arr. destruct (sorted_ports r.(ConnectTCP)) eqn:Ep; [constructor|]. constructor; [|constructor].
    split; [done|]. cbn [snd]. rewrite <- Ep. constructor. apply Forall_map, list.Forall_forall.
    intros p Hp. apply sortedUnique_elem in Hp; try apply _. rewrite list.Forall_forall in Hc. apply Hc in Hp.
    constructor. unfold MaxInt. lia.
  - unfold omit_int, omitempty. destruct (_ =? 0); constructor; [|constructor]. split; [done|]. constructor. lia.
  - unfold omit_str, omitempty. destruct (_ =s? _); constructor; [|constructor]. split; [done|]. by constructor.
  - apply Harr; [done|]. apply Forall_sorted. eapply Forall_impl; [exact He|]. intros x [Hx _]. by apply envName_ascii.
Qed.

Lemma plain_marshals j : plain j -> exists s, marshal j = Some s.
Proof.
  assert (H : forall n j, (jsize j <= n)%nat -> plain j -> exists s, marshal j = Some s).
  { clear j. induction n as [|n IH]; intros j Hn Hj; [destruct j; cbn in Hn; lia|].
    destruct Hj as [s _|z _|b|l Hl|l Hl]; cbn [marshal]; eauto.
    - assert (Hm : is_Some (mapM marshal l)).
      { apply mapM_is_Some, list.Forall_forall. intros x Hx. rewrite list.Forall_forall in Hl. apply IH; [|by apply Hl].
        cbn in Hn. pose proof (foldr_size jsize l x Hx). lia. }
      destruct Hm as [ss ->]. cbn. eauto.
    - assert (Hm : is_Some (mapM (fun '(k, v) => member k <$> marshal v) l)).
      { apply mapM_is_Some, list.Forall_forall. intros [k v] Hx. rewrite list.Forall_forall in Hl.
        destruct (Hl _ Hx) as [_ Hv]. destruct (IH v) as [s Hs]; [|done|cbn; rewrite Hs; by eexists].
        cbn in Hn. pose proof (foldr_size (fun kv => jsize kv.2) l (k, v) Hx). cbn in *. lia. }
      destruct Hm as [ss ->]. cbn. eauto. }
  intros Hj. by apply (H (jsize j)).
Qed.

Lemma Normalize_Some r : (exists n, Normalize (Some r) = Ok n) <-> valid r.
Proof.
  split.
  - intros [[n|] Hn]; [by apply Normalize_spec in Hn as [? _]|].
    by apply Normalize_not_None in Hn.
  - intros Hv. exists (Some (normal r)). by apply Normalize_spec.
Qed.

(** Equal holds of two requests exactly when both are valid and ask for the
    same policy, for requests whose paths are UTF-8. *)
Theorem Equal_spec a b : encodable a -> encodable b ->
  Equal (Some a) (Some b) = true <-> valid a /\ valid b /\ same_policy a b.
Proof.
  intros Ha Hb. unfold Equal. split.
  - destruct (Normalize (Some a)) as [[na|]|] eqn:Ea, (Normalize (Some b)) as [[nb|]|] eqn:Eb; try done.
    + apply Normalize_spec in Ea as [Va ->], Eb as [Vb ->]. intros H%String.eqb_eq. split_and!; try done.
      apply normal_same_policy, Request_json_inj.
      pose proof (normal_plain a Va Ha) as Pa. pose proof (normal_plain b Vb Hb) as Pb.
      destruct (plain_marshals _ Pa) as [sa Hsa], (plain_marshals _ Pb) as [sb Hsb].
      unfold marshalled in H. rewrite Hsa, Hsb in H. cbn in H. subst. by apply (marshal_inj _ _ sb).
    + by apply Normalize_not_None in Ea.
  - intros (Va & Vb & Hs). apply normal_same_policy in Hs.
    assert (Ea : Normalize (Some a) = Ok (Some (normal a))) by (by apply Normalize_spec).
    assert (Eb : Normalize (Some b) = Ok (Some (normal b))) by (by apply Normalize_spec).
    rewrite Ea, Eb, Hs. apply String.eqb_refl.
Qed.

(** Paths that are not UTF-8 encode alike: two requests for different
    directories compare equal. *)
Definition raw_path (b : N) : string := "/" ++ String (ascii_of_N b) "".

Definition raw_request (b : N) : Request := mkRequest KindLandlock [] [raw_path b] false [] 0 "" [].

Theorem Equal_confuses_raw_paths :
  Equal (Some (raw_request 254)) (Some (raw_request 255)) = true /\
  ~ same_policy (raw_request 254) (raw_request 255).
Proof.
  split; [vm_compute; reflexivity|]. intros (_ & _ & H & _).
  assert (Hin : Clean (raw_path 254) ∈ map Clean (raw_request 255).(ReadWrite)) by (apply H, list_elem_of_here).
  apply list_elem_of_singleton in Hin. vm_compute in Hin. discriminate Hin.
Qed.

(** The launch never accepts a kernel below the request's floor, and with no
    floor takes the socket layer only where the kernel needs it. *)
Theorem RequiredABI_spec r n kernel : Normalize (Some r) = Ok (Some n) ->
  LowestABI <= RequiredABI n kernel /\
  (r.(MinABI) <> 0 -> RequiredABI n kernel = r.(MinABI)) /\
  (r.(MinABI) = 0 -> LowestABI <= kernel -> RequiredABI n kernel <= kernel /\
     (RequiredABI n kernel = ResolveUnixABI <-> ResolveUnixABI <= kernel)).
Proof.
  intros [(_ & _ & _ & _ & _ & Hm & _) ->]%Normalize_spec. unfold RequiredABI, normal. cbn [MinABI].
  unfold LowestABI, ResolveUnixABI in *.
  destruct (Z.eqb_spec r.(MinABI) 0); cbn [negb]; [|lia]. destruct (Z.leb_spec 9 kernel); lia.
Qed.

(** ** Witnesses *)

(** The same policy written two ways. *)
Definition sample_request : Request :=
  mkRequest KindLandlock ["/usr//share"; "/opt"; "/opt/."] ["/work"] true [443; 80; 443] 0 "" ["TERM"; "LANG"].
Definition sample_again : Request :=
  mkRequest KindLandlock ["/opt"; "/usr/share"] ["/work/x/.."] true [80; 443] 0 "" ["LANG"; "TERM"].

Lemma Normalize_idempotent_witness : Normalize (Some (normal sample_request)) = Ok (Some (normal sample_request)).
Proof. refine (Normalize_idempotent (Some sample_request) (Some (normal sample_request)) _). vm_compute. reflexivity. Defined.

Lemma Equal_spec_witness : Equal (Some sample_request) (Some sample_again) = true <->
  valid sample_request /\ valid sample_again /\ same_policy sample_request sample_again.
Proof.
  refine (Equal_spec sample_request sample_again _ _);
    (split; [repeat constructor|split; [repeat constructor|split; [repeat constructor; lia|split; [vm_compute; split; discriminate|vm_compute; reflexivity]]]]).
Defined.

Lemma RequiredABI_spec_witness : LowestABI <= RequiredABI (normal sample_request) 7 /\ RequiredABI (normal sample_request) 7 <= 7.
Proof.
  refine ((fun H => conj (proj1 H) (proj1 (proj2 (proj2 H) eq_refl _)))
    (RequiredABI_spec sample_request (normal sample_request) 7 _)); [unfold LowestABI; lia|].
  vm_compute. reflexivity.
Defined.
