(* ===== verification/HarnessName.v ===== *)
(** The harness identifiers and their aliases (src/pkg/harnessname/harnessname.go).

    [strings.ToLower] is GoStr's, which folds ASCII letters only. The only
    runes above ASCII that fold to an ASCII letter fold to k and i, so the
    names of Claude Code and codex have no spelling it would miss. *)
From Stdlib Require Import ZArith Ascii String Lia.
From stdpp Require Import base tactics list strings option gmap sorting.
From S2P Require Import Prelude GoStr Bytes.

#[local] Open Scope string_scope.

Definition ClaudeCode : string := "claude-code".
Definition Codex : string := "codex".
Definition OpenCode : string := "opencode".
Definition Pi : string := "pi".
Definition Cursor : string := "cursor".
Definition Claude : string := "claude".

(** Alias spelling to canonical id, and canonical id to short key. *)
Definition aliases : gmap string string := {[Claude := ClaudeCode]}.
Definition shorts : gmap string string := {[ClaudeCode := Claude]}.

Definition Normalize (name : string) : string := ToLower (TrimSpace name).

Definition Unalias (name : string) : string := default name (aliases !! name).

Definition Canonical (name : string) : string := Unalias (Normalize name).

Definition Short (name : string) : string :=
  let id := Canonical name in default id (shorts !! id).

Definition IsClaude (name : string) : bool := Canonical name =s? ClaudeCode.

Definition Spellings (id : string) : list string :=
  id :: merge_sort String.le (map fst (filter (fun kv => kv.2 = id) (map_to_list aliases))).

(** A canonical id is never an alias, so folding twice folds once. *)
Lemma Unalias_idemp name : Unalias (Unalias name) = Unalias name.
Proof.
  unfold Unalias, aliases. destruct (decide (name = Claude)) as [->|Hn].
  - by rewrite lookup_singleton_eq.
  - rewrite (lookup_singleton_ne Claude name) by done.
    change (default name None) with name. by rewrite lookup_singleton_ne by done.
Qed.

Lemma Unalias_Short id : Unalias (default id (shorts !! id)) = Unalias id.
Proof.
  unfold shorts, Unalias, aliases. destruct (decide (id = ClaudeCode)) as [->|Hn].
  - by rewrite lookup_singleton_eq.
  - by rewrite (lookup_singleton_ne ClaudeCode id) by done.
Qed.
