(* ===== verification/Launch.v ===== *)
(** A harness's launch arguments (src/internal/wrapcore/wrapper.go and the
    request check of containment.go): validation of a [Config], its defaults,
    and the translation of its effort, model and permission mode to argv, with
    the rung an argv launches at.

    A [Config] has the fields these functions read; of an interface field only
    whether it is set. A duration is a [Z] of nanoseconds. *)
From Stdlib Require Import ZArith Ascii String Lia.
From stdpp Require Import base tactics list strings option.
From S2P Require Import Prelude GoStr Bytes Json JsonInj Containment HarnessName.

#[local] Open Scope string_scope.
#[local] Open Scope Z_scope.

Definition Second : Z := 1000000000.
Definition Minute : Z := 60 * Second.

Record Config := mkConfig {
  BinaryPath : string; Args : list string; Stdout : bool;
  IdleQuiet : Z; IdleClassify : Z; StaleThreshold : Z; WaitDelay : Z;
  TraceSet : bool; Harness : string; Effort : string; Model : string; PermissionMode : string;
  EventQueue_Events : Z; EventQueue_Bytes : Z; Containment_ : option Request }.

(** The errors of Start and HarnessArgs before anything starts; each is an
    ErrInvalidConfig. *)
Inductive ConfigError :=
| ErrInvalidConfig (msg : string)
| ErrContainmentUnsupported
| ErrContainmentRefused (cause : string).

(** ** Flags in an argv *)

Definition isShortFlag (flag : string) : bool :=
  match flag with
  | String d (String c "") => Ascii.eqb d "-" && in_range 97 122 (code c)
  | _ => false
  end.

(** One argument carries one flag: the bare token, the attached long form, or
    the attached form of a short flag. *)
Definition carries (flag arg : string) : bool :=
  (arg =s? flag) || HasPrefix arg (flag ++ "=")
  || (isShortFlag flag && (2 <? slen arg) && HasPrefix arg flag).

Definition argsContainAnyFlag (args flags : list string) : bool :=
  any (fun arg => any (fun flag => carries flag arg) flags) args.

(** The switch of flagValue's inner loop: the operand of [flag] in [arg], whose
    successor in argv is the head of [rest]. *)
Definition operand (arg : string) (rest : list string) (flag : string) : option string :=
  if arg =s? flag then Some (default "" (head rest))
  else if HasPrefix arg (flag ++ "=") then Some (TrimPrefix arg (flag ++ "="))
  else if isShortFlag flag && (2 <? slen arg) && HasPrefix arg flag then Some (TrimPrefix arg flag)
  else None.

Fixpoint flagValue_loop (args flags : list string) (found : option string) : option string :=
  match args with
  | [] => found
  | arg :: rest =>
    flagValue_loop rest flags
      (foldl (fun acc flag => match operand arg rest flag with Some v => Some v | None => acc end) found flags)
  end.

(** The operand of the last occurrence of any of [flags]; [None] for not present. *)
Definition flagValue (args flags : list string) : option string := flagValue_loop args flags None.

Definition prependArgs (args pre : list string) : list string := app pre args.

Definition configArgHasKey (arg key : string) : bool :=
  let arg := TrimSpace arg in (arg =s? key) || HasPrefix arg (key ++ "=").

Fixpoint argsContainConfigKey (args : list string) (key : string) : bool :=
  match args with
  | [] => false
  | arg :: rest =>
    if (arg =s? "-c") || (arg =s? "--config") then
      match rest with
      | next :: _ => configArgHasKey next key || argsContainConfigKey rest key
      | [] => argsContainConfigKey rest key
      end
    else if HasPrefix arg "-c" && (2 <? slen arg) && configArgHasKey (TrimPrefix arg "-c") key then true
    else if HasPrefix arg "--config=" && configArgHasKey (TrimPrefix arg "--config=") key then true
    else argsContainConfigKey rest key
  end.

(** ** strconv.Quote *)

Fixpoint hex (w : nat) (n : Z) : string :=
  match w with O => "" | S w => hex w (n / 16) ++ hexdigit (n mod 16) end.

Definition quote_ascii (b : Z) : string :=
  if (b =? 34) || (b =? 92) then "\" ++ byte_string b
  else if in_range 32 126 b then byte_string b
  else if b =? 7 then "\a" else if b =? 8 then "\b" else if b =? 12 then "\f" else if b =? 10 then "\n"
  else if b =? 13 then "\r" else if b =? 9 then "\t" else if b =? 11 then "\v"
  else "\x" ++ hex 2 b.

Section Quote.
(** [strconv.IsPrint] above ASCII: the Unicode tables. *)
Variable IsPrint : Z -> bool.

Definition quote_rune (r : Z) (raw : list Z) : string :=
  if IsPrint r then string_of_bytes raw
  else if r <? 65536 then "\u" ++ hex 4 r else "\U" ++ hex 8 r.

Fixpoint quote_bytes (bs : list Z) : string :=
  match bs with
  | [] => ""
  | b0 :: t0 =>
    if b0 <? 128 then quote_ascii b0 ++ quote_bytes t0
    else match t0 with
      | [] => "\x" ++ hex 2 b0
      | b1 :: t1 =>
        if in_range 194 223 b0 && in_range 128 191 b1
        then quote_rune ((b0 - 192) * 64 + (b1 - 128)) [b0; b1] ++ quote_bytes t1
        else match t1 with
          | [] => "\x" ++ hex 2 b0 ++ quote_bytes t0
          | b2 :: t2 =>
            if second3 b0 b1 && in_range 128 191 b2
            then quote_rune ((b0 - 224) * 4096 + (b1 - 128) * 64 + (b2 - 128)) [b0; b1; b2] ++ quote_bytes t2
            else match t2 with
              | [] => "\x" ++ hex 2 b0 ++ quote_bytes t0
              | b3 :: t3 =>
                if second4 b0 b1 && in_range 128 191 b2 && in_range 128 191 b3
                then quote_rune ((b0 - 240) * 262144 + (b1 - 128) * 4096 + (b2 - 128) * 64 + (b3 - 128))
                       [b0; b1; b2; b3] ++ quote_bytes t3
                else "\x" ++ hex 2 b0 ++ quote_bytes t0
              end
          end
      end
  end.

Definition Quote (s : string) : string := byte_string 34 ++ quote_bytes (bytes s) ++ byte_string 34.
End Quote.

(** ** Effort and model *)

Definition normHarness (h : string) : string := Canonical h.

(** The switch of harnessSupportsEffort, harnessSupportsModel and
    harnessSupportsPermissionMode: Claude Code and codex. *)
Definition harnessSupportsEffort (h : string) : bool :=
  (normHarness h =s? ClaudeCode) || (normHarness h =s? Codex).
Definition harnessSupportsModel (h : string) : bool :=
  (normHarness h =s? ClaudeCode) || (normHarness h =s? Codex).
Definition harnessSupportsPermissionMode (h : string) : bool :=
  (normHarness h =s? ClaudeCode) || (normHarness h =s? Codex).

Definition isSupportedEffort (e : string) : bool :=
  any (String.eqb e) ["low"; "medium"; "high"; "xhigh"; "max"].

Definition codexEffort (e : string) : string := if e =s? "max" then "xhigh" else e.

Section Inject.
Variable IsPrint : Z -> bool.

Definition argsWithHarnessEffort (harness : string) (args : list string) (effort : string) : list string :=
  if effort =s? "" then args
  else if normHarness harness =s? ClaudeCode then
    if argsContainAnyFlag args ["--effort"] then args else prependArgs args ["--effort"; effort]
  else if normHarness harness =s? Codex then
    if argsContainConfigKey args "model_reasoning_effort" then args
    else prependArgs args ["-c"; "model_reasoning_effort=" ++ Quote IsPrint (codexEffort effort)]
  else args.

Definition argsWithHarnessModel (harness : string) (args : list string) (model : string) : list string :=
  if model =s? "" then args
  else if normHarness harness =s? ClaudeCode then
    if argsContainAnyFlag args ["--model"] then args else prependArgs args ["--model"; model]
  else if normHarness harness =s? Codex then
    if argsContainConfigKey args "model" then args
    else prependArgs args ["-c"; "model=" ++ Quote IsPrint model]
  else args.
End Inject.

(** ** Permission modes *)

Definition SkipPermissionsFlag : string := "--dangerously-skip-permissions".
Definition AllowSkipPermissionsFlag : string := "--allow-dangerously-skip-permissions".
Definition codexBypassFlag : string := "--dangerously-bypass-approvals-and-sandbox".

Definition permissionModePlan : string := "plan".
Definition permissionModeManual : string := "manual".
Definition permissionModeAsk : string := "ask".
Definition permissionModeAuto : string := "auto".
Definition permissionModeBypass : string := "bypass".

Definition claudeModeAcceptEdits : string := "acceptEdits".
Definition claudeModeDontAsk : string := "dontAsk".
Definition claudeModeBypassPermissions : string := "bypassPermissions".

Definition codexSandboxReadOnly : string := "read-only".
Definition codexSandboxWorkspaceWrite : string := "workspace-write".
Definition codexSandboxDangerFullAccess : string := "danger-full-access".

Definition codexApprovalUntrusted : string := "untrusted".
Definition codexApprovalOnRequest : string := "on-request".
Definition codexApprovalNever : string := "never".

Definition IsBypassPermissionMode (mode : string) : bool :=
  (mode =s? permissionModeBypass) || (mode =s? claudeModeBypassPermissions).
Definition isCodexBypassMode (mode : string) : bool :=
  (mode =s? permissionModeBypass) || (mode =s? codexSandboxDangerFullAccess).

(** The canonical rungs, least to most permissive. *)
Definition PermissionRungs : list string :=
  [permissionModePlan; permissionModeManual; permissionModeAsk; permissionModeAuto; permissionModeBypass].

Definition isSupportedPermissionMode (harness mode : string) : bool :=
  if any (String.eqb mode) PermissionRungs then true
  else if normHarness harness =s? ClaudeCode then
    any (String.eqb mode) [claudeModeAcceptEdits; claudeModeDontAsk; claudeModeBypassPermissions]
  else if normHarness harness =s? Codex then
    any (String.eqb mode) [codexSandboxReadOnly; codexSandboxWorkspaceWrite; codexSandboxDangerFullAccess]
  else false.

Definition claudePermissionMode (mode : string) : string :=
  if mode =s? permissionModeAsk then claudeModeAcceptEdits
  else if mode =s? permissionModeBypass then claudeModeBypassPermissions
  else mode.

(** The -s sandbox value and the -a approval policy. *)
Definition codexPermissionMode (mode : string) : string * string :=
  if mode =s? permissionModeManual then (codexSandboxReadOnly, codexApprovalUntrusted)
  else if mode =s? permissionModeAsk then (codexSandboxWorkspaceWrite, codexApprovalOnRequest)
  else if mode =s? permissionModeAuto then (codexSandboxWorkspaceWrite, codexApprovalNever)
  else if mode =s? permissionModeBypass then (codexSandboxDangerFullAccess, codexApprovalNever)
  else (mode, "").

(** The flags whose presence suppresses injection. *)
Definition claude_axis : list string := ["--permission-mode"; SkipPermissionsFlag].
Definition codex_axis : list string := ["-s"; "--sandbox"; "-a"; "--ask-for-approval"; codexBypassFlag].

Definition argsWithHarnessPermissionMode (harness : string) (args : list string) (mode : string) : list string :=
  if mode =s? "" then args
  else if normHarness harness =s? ClaudeCode then
    if argsContainAnyFlag args claude_axis then args
    else prependArgs args ["--permission-mode"; claudePermissionMode mode]
  else if normHarness harness =s? Codex then
    if argsContainAnyFlag args codex_axis then args
    else
      let '(sandbox, approval) := codexPermissionMode mode in
      if approval =s? "" then prependArgs args ["-s"; sandbox]
      else prependArgs args ["-s"; sandbox; "-a"; approval]
  else args.

Fixpoint index_of (i : Z) (rung : string) (l : list string) : Z :=
  match l with
  | [] => -1
  | r :: l => if r =s? rung then i else index_of (i + 1) rung l
  end.

(** -1 for a name that is no canonical rung. *)
Definition rungIndex (rung : string) : Z := index_of 0 rung PermissionRungs.

Definition MorePermissive (a b : string) : bool :=
  let ai := rungIndex a in
  let bi := rungIndex b in
  if (ai <? 0) || (bi <? 0) then false else bi <? ai.

Definition BypassEnablingFlags (harness : string) : list string :=
  if normHarness harness =s? ClaudeCode then [SkipPermissionsFlag]
  else if normHarness harness =s? Codex then [codexBypassFlag]
  else [].

Definition BypassReachableFlags (harness : string) : list string :=
  if normHarness harness =s? ClaudeCode then [SkipPermissionsFlag; AllowSkipPermissionsFlag]
  else if normHarness harness =s? Codex then [codexBypassFlag]
  else [].

Definition claudeRung (value : string) : string :=
  if value =s? claudeModeAcceptEdits then permissionModeAsk
  else if value =s? claudeModeBypassPermissions then permissionModeBypass
  else if value =s? claudeModeDontAsk then permissionModeManual
  else if 0 <=? rungIndex value then value
  else "".

Definition codexSandboxRung (value : string) : string :=
  if value =s? codexSandboxReadOnly then permissionModeManual
  else if value =s? codexSandboxWorkspaceWrite then permissionModeAsk
  else if value =s? codexSandboxDangerFullAccess then permissionModeBypass
  else "".

Definition codexRung (value : string) : string :=
  if 0 <=? rungIndex value then value else codexSandboxRung value.

(** The rung a harness launches at; "" for unknown. *)
Definition EffectiveLaunchRung (harness : string) (args : list string) (mode : string) : string :=
  if normHarness harness =s? ClaudeCode then
    if argsContainAnyFlag args [SkipPermissionsFlag] then permissionModeBypass
    else match flagValue args ["--permission-mode"] with
      | Some value => claudeRung value
      | None => claudeRung mode
      end
  else if normHarness harness =s? Codex then
    if argsContainAnyFlag args [codexBypassFlag] then permissionModeBypass
    else match flagValue args ["-s"; "--sandbox"] with
      | Some value => codexSandboxRung value
      | None => if argsContainAnyFlag args ["-a"; "--ask-for-approval"] then "" else codexRung mode
      end
  else "".

(** ** Validation and defaults *)

Definition validatePermissionMode (cfg : Config) : result ConfigError unit :=
  let mode := cfg.(PermissionMode) in
  let h := cfg.(Harness) in
  if mode =s? "" then Ok tt
  else
    when negb (harnessSupportsPermissionMode h) refuse
      ErrInvalidConfig "PermissionMode is only supported for claude and codex harnesses" ;;
    when (normHarness h =s? Codex) && (mode =s? permissionModePlan) refuse
      ErrInvalidConfig "permission mode is not supported by the codex harness" ;;
    when negb (isSupportedPermissionMode h mode) refuse
      ErrInvalidConfig "PermissionMode is not valid for the harness" ;;
    let bypassMode :=
      if normHarness h =s? Codex then isCodexBypassMode mode else IsBypassPermissionMode mode in
    if bypassMode then Ok tt
    else range (fun _ flag _ =>
      when argsContainAnyFlag cfg.(Args) [flag] refuse
        ErrInvalidConfig "PermissionMode contradicts a flag in Args" ;; Ok tt) (BypassEnablingFlags h) tt.

(** [linux] is [runtime.GOOS == "linux"]. *)
Definition validateContainment (linux : bool) (cfg : Config) : result ConfigError unit :=
  match cfg.(Containment_) with
  | None => Ok tt
  | Some _ =>
    when negb linux refuse ErrContainmentUnsupported ;;
    _ ← map_err ErrContainmentRefused (Containment.Normalize cfg.(Containment_));
    Ok tt
  end.

Definition validateConfig (linux : bool) (cfg : Config) : result ConfigError unit :=
  when cfg.(BinaryPath) =s? "" refuse ErrInvalidConfig "BinaryPath is required" ;;
  when negb cfg.(Stdout) refuse ErrInvalidConfig "Stdout is required" ;;
  when (cfg.(IdleQuiet) <? 0) || (cfg.(IdleClassify) <? 0) refuse
    ErrInvalidConfig "IdleQuiet and IdleClassify must not be negative" ;;
  when (cfg.(EventQueue_Events) <? 0) || (cfg.(EventQueue_Bytes) <? 0) refuse
    ErrInvalidConfig "EventQueue bounds must not be negative" ;;
  when (0 <? cfg.(IdleClassify)) && (0 <? cfg.(IdleQuiet)) && (cfg.(IdleClassify) <? cfg.(IdleQuiet)) refuse
    ErrInvalidConfig "IdleClassify must be >= IdleQuiet" ;;
  when (0 <? cfg.(StaleThreshold)) && (0 <? cfg.(IdleClassify)) && (cfg.(StaleThreshold) <? cfg.(IdleClassify)) refuse
    ErrInvalidConfig "StaleThreshold must be >= IdleClassify" ;;
  when negb (cfg.(Effort) =s? "") && negb (isSupportedEffort cfg.(Effort)) refuse
    ErrInvalidConfig "Effort must be one of low, medium, high, xhigh, max" ;;
  when negb (cfg.(Effort) =s? "") && negb (harnessSupportsEffort cfg.(Harness)) refuse
    ErrInvalidConfig "Effort is only supported for claude and codex harnesses" ;;
  when negb (cfg.(Model) =s? "") && negb (harnessSupportsModel cfg.(Harness)) refuse
    ErrInvalidConfig "Model is only supported for claude and codex harnesses" ;;
  validatePermissionMode cfg ≫= fun _ => validateContainment linux cfg.

Definition applyDefaults (cfg : Config) : Config :=
  let quiet := if cfg.(IdleQuiet) =? 0 then 15 * Second else cfg.(IdleQuiet) in
  let classify := if cfg.(IdleClassify) =? 0 then Z.max (60 * Second) quiet else cfg.(IdleClassify) in
  let stale := if cfg.(StaleThreshold) =? 0 then Z.max (5 * Minute) classify else cfg.(StaleThreshold) in
  let delay := if cfg.(WaitDelay) =? 0 then 5 * Second else cfg.(WaitDelay) in
  mkConfig cfg.(BinaryPath) cfg.(Args) cfg.(Stdout) quiet classify stale delay true
    cfg.(Harness) cfg.(Effort) cfg.(Model) cfg.(PermissionMode)
    cfg.(EventQueue_Events) cfg.(EventQueue_Bytes) cfg.(Containment_).

Section Launch.
Variable IsPrint : Z -> bool.

Definition inject (cfg : Config) : list string :=
  let args := argsWithHarnessEffort IsPrint cfg.(Harness) cfg.(Args) cfg.(Effort) in
  let args := argsWithHarnessModel IsPrint cfg.(Harness) args cfg.(Model) in
  argsWithHarnessPermissionMode cfg.(Harness) args cfg.(PermissionMode).

Definition set_args (args : list string) (cfg : Config) : Config :=
  mkConfig cfg.(BinaryPath) args cfg.(Stdout) cfg.(IdleQuiet) cfg.(IdleClassify) cfg.(StaleThreshold)
    cfg.(WaitDelay) cfg.(TraceSet) cfg.(Harness) cfg.(Effort) cfg.(Model) cfg.(PermissionMode)
    cfg.(EventQueue_Events) cfg.(EventQueue_Bytes) cfg.(Containment_).

Definition set_stdout (cfg : Config) : Config :=
  mkConfig cfg.(BinaryPath) cfg.(Args) true cfg.(IdleQuiet) cfg.(IdleClassify) cfg.(StaleThreshold)
    cfg.(WaitDelay) cfg.(TraceSet) cfg.(Harness) cfg.(Effort) cfg.(Model) cfg.(PermissionMode)
    cfg.(EventQueue_Events) cfg.(EventQueue_Bytes) cfg.(Containment_).

(** Start up to startSession: the configuration the session starts with. *)
Definition Start (linux : bool) (cfg : Config) : result ConfigError Config :=
  validateConfig linux cfg ≫= fun _ => let cfg := applyDefaults cfg in Ok (set_args (inject cfg) cfg).

Definition HarnessArgs (linux : bool) (cfg : Config) : result ConfigError (list string) :=
  let cfg := set_stdout cfg in
  validateConfig linux cfg ≫= fun _ => Ok (inject cfg).
End Launch.
