(* ===== verification/LaunchProps.v ===== *)
(** What the launch arguments promise: the rung an argv launches at before and
    after injection, that a requested restriction reaches the harness, and the
    order of the idle thresholds. *)
From Stdlib Require Import ZArith Ascii String Lia.
From stdpp Require Import base tactics list strings option sets.
From S2P Require Import Prelude GoStr Bytes Json JsonInj Containment HarnessName Launch.

#[local] Open Scope string_scope.
#[local] Open Scope Z_scope.

(** ** Flags *)

Lemma contain_cons arg args flags :
  argsContainAnyFlag (arg :: args) flags = any (fun f => carries f arg) flags || argsContainAnyFlag args flags.
Proof. reflexivity. Qed.

Lemma contain_app args args' flags :
  argsContainAnyFlag (app args args') flags = argsContainAnyFlag args flags || argsContainAnyFlag args' flags.
Proof. apply existsb_app. Qed.

(** Fewer flags are looked for, and found less often. *)
Lemma contain_incl args flags flags' :
  (forall f, f ∈ flags' -> f ∈ flags) -> argsContainAnyFlag args flags = false ->
  argsContainAnyFlag args flags' = false.
Proof.
  unfold argsContainAnyFlag. rewrite !any_false. intros Hi H arg Harg. specialize (H arg Harg).
  rewrite any_false in *. eauto.
Qed.

Lemma operand_carries arg rest flag : operand arg rest flag = None <-> carries flag arg = false.
Proof. unfold operand, carries. split_match; naive_solver. Qed.

Lemma operand_Some arg rest flag : carries flag arg = true <-> exists v, operand arg rest flag = Some v.
Proof.
  pose proof (operand_carries arg rest flag) as H.
  destruct (carries flag arg), (operand arg rest flag); naive_solver.
Qed.

Lemma operand_fold arg rest flags : forall acc,
  any (fun f => carries f arg) flags = false ->
  foldl (fun acc f => match operand arg rest f with Some v => Some v | None => acc end) acc flags = acc.
Proof.
  induction flags as [|f flags IH]; intros acc H; [done|]. cbn in *. bprop.
  rewrite (proj2 (operand_carries arg rest f)) by done. by apply IH.
Qed.

Lemma flagValue_absent args flags : forall acc,
  argsContainAnyFlag args flags = false -> flagValue_loop args flags acc = acc.
Proof.
  induction args as [|arg args IH]; intros acc H; [done|]. rewrite contain_cons in H. bprop. cbn.
  rewrite operand_fold by done. by apply IH.
Qed.

Lemma operand_fold_some arg rest flags : forall acc, is_Some acc ->
  is_Some (foldl (fun acc f => match operand arg rest f with Some v => Some v | None => acc end) acc flags).
Proof. induction flags as [|f flags IH]; intros acc H; [done|]. cbn. apply IH. by destruct (operand arg rest f). Qed.

Lemma flagValue_some args flags : forall acc, is_Some acc -> is_Some (flagValue_loop args flags acc).
Proof. induction args as [|arg args IH]; intros acc H; [done|]. cbn. by apply IH, operand_fold_some. Qed.

Lemma operand_fold_present arg rest flags : forall acc,
  any (fun f => carries f arg) flags = true ->
  is_Some (foldl (fun acc f => match operand arg rest f with Some v => Some v | None => acc end) acc flags).
Proof.
  induction flags as [|f flags IH]; intros acc H; [done|]. cbn in *. bprop. destruct H as [H|H].
  - apply (operand_Some arg rest) in H as [v ->]. by apply operand_fold_some.
  - by apply IH.
Qed.

(** [flagValue] finds a value exactly where [argsContainAnyFlag] sees a flag. *)
Lemma flagValue_present args flags :
  is_Some (flagValue args flags) <-> argsContainAnyFlag args flags = true.
Proof.
  split.
  - intros [v Hv]. destruct (argsContainAnyFlag args flags) eqn:E; [done|].
    unfold flagValue in Hv. by rewrite flagValue_absent in Hv.
  - unfold flagValue. generalize (@None string). induction args as [|arg args IH]; intros acc H; [done|].
    rewrite contain_cons in H. bprop. cbn. destruct H as [H|H]; [|by apply IH].
    by apply flagValue_some, operand_fold_present.
Qed.

(** An argument that does not start as a flag does is none. *)
Lemma carries_head f a b s : carries (String a f) (String b s) = true -> a = b.
Proof.
  unfold carries. rewrite !orb_true_iff, !andb_true_iff, !HasPrefix_spec, String.eqb_eq.
  intros [[E|[r E]]|[_ [r E]]]; rewrite ?append_cons in E; congruence.
Qed.

Lemma contain_word s flags c : Forall (fun f => exists f', f = String "-" f') flags ->
  c <> "-"%char -> argsContainAnyFlag [String c s] flags = false.
Proof.
  intros Hf Hc. rewrite contain_cons, orb_false_r. apply any_false. intros f Hin.
  rewrite list.Forall_forall in Hf. destruct (Hf f Hin) as [f' ->].
  destruct (carries _ _) eqn:E; [|done]. by apply carries_head in E.
Qed.

Lemma axis_dash : Forall (fun f => exists f', f = String "-" f') claude_axis /\
                  Forall (fun f => exists f', f = String "-" f') codex_axis.
Proof. split; repeat constructor; by eexists. Qed.

(** ** Modes *)

Lemma any_eqb (s : string) l : any (String.eqb s) l = true <-> s ∈ l.
Proof.
  rewrite any_true. split; [intros (x & Hx & E)|intros Hs; exists s; split; [done|by apply String.eqb_refl]].
  bprop. by subst.
Qed.

(** The native spellings a harness takes for a mode. *)
Definition claude_modes : list string :=
  app PermissionRungs [claudeModeAcceptEdits; claudeModeDontAsk; claudeModeBypassPermissions].
Definition codex_modes : list string :=
  app [permissionModeManual; permissionModeAsk; permissionModeAuto; permissionModeBypass]
      [codexSandboxReadOnly; codexSandboxWorkspaceWrite; codexSandboxDangerFullAccess].

Lemma norm_cases h : harnessSupportsPermissionMode h = true ->
  normHarness h = ClaudeCode \/ normHarness h = Codex.
Proof. unfold harnessSupportsPermissionMode. intros H. bprop. destruct H as [H|H]; bprop; auto. Qed.

Lemma validMode cfg : validatePermissionMode cfg = Ok tt -> cfg.(PermissionMode) <> "" ->
  (normHarness cfg.(Harness) = ClaudeCode /\ cfg.(PermissionMode) ∈ claude_modes) \/
  (normHarness cfg.(Harness) = Codex /\ cfg.(PermissionMode) ∈ codex_modes).
Proof.
  unfold validatePermissionMode, isSupportedPermissionMode. intros H Hm.
  rewrite (proj2 (String.eqb_neq _ _)) in H by done. apply when_Ok in H as [Hs H].
  apply when_Ok in H as [Hp H]. apply when_Ok in H as [Ho _].
  apply negb_false_iff in Hs, Ho. apply norm_cases in Hs as [E|E]; rewrite E in *.
  - left. split; [done|]. unfold claude_modes. rewrite elem_of_app.
    destruct (any (String.eqb (PermissionMode cfg)) PermissionRungs) eqn:Hr; [left; by apply any_eqb|right; by apply any_eqb].
  - right. split; [done|]. unfold codex_modes. rewrite elem_of_app.
    destruct (any (String.eqb (PermissionMode cfg)) PermissionRungs) eqn:Hr; [left|right; by apply any_eqb].
    apply any_eqb in Hr. rewrite String.eqb_refl in Hp. bprop. destruct Hp as [|Hp]; [done|bprop].
    unfold PermissionRungs in Hr. by apply elem_of_cons in Hr as [Hr|Hr].
Qed.

(** Decide a statement about one mode of a list by running it on each. *)
Lemma mode_cases (P : string -> bool) l m : m ∈ l -> forallb P l = true -> P m = true.
Proof. intros Hm H. rewrite forallb_elem in H. by apply H. Qed.

Lemma modes_nonempty m : m ∈ claude_modes \/ m ∈ codex_modes -> (m =s? "") = false.
Proof.
  intros H. apply negb_true_iff.
  destruct H as [H|H]; by apply (mode_cases (fun m => negb (m =s? "")) _ _ H).
Qed.

Lemma claude_mode_facts m : m ∈ claude_modes ->
  argsContainAnyFlag ["--permission-mode"; claudePermissionMode m] [SkipPermissionsFlag] = false /\
  argsContainAnyFlag [claudePermissionMode m] ["--permission-mode"] = false /\
  claudeRung (claudePermissionMode m) = claudeRung m.
Proof.
  intros Hm. apply (mode_cases (fun m =>
    negb (argsContainAnyFlag ["--permission-mode"; claudePermissionMode m] [SkipPermissionsFlag])
    && negb (argsContainAnyFlag [claudePermissionMode m] ["--permission-mode"])
    && (claudeRung (claudePermissionMode m) =s? claudeRung m))) in Hm; [by bprop|done].
Qed.

(** What codex's flags add to an argv. *)
Definition codex_flags (m : string) : list string :=
  let '(sandbox, approval) := codexPermissionMode m in
  if approval =s? "" then ["-s"; sandbox] else ["-s"; sandbox; "-a"; approval].

Definition codex_launched (m : string) : string := codexSandboxRung (codexPermissionMode m).1.

Lemma codex_mode_facts m : m ∈ codex_modes ->
  argsContainAnyFlag (codex_flags m) [codexBypassFlag] = false /\
  flagValue (codex_flags m) ["-s"; "--sandbox"] = Some (codexPermissionMode m).1 /\
  codex_launched m = (if m =s? permissionModeAuto then permissionModeAsk else codexRung m).
Proof.
  intros Hm. apply (mode_cases (fun m =>
    negb (argsContainAnyFlag (codex_flags m) [codexBypassFlag])
    && bool_decide (flagValue (codex_flags m) ["-s"; "--sandbox"] = Some (codexPermissionMode m).1)
    && (codex_launched m =s? (if m =s? permissionModeAuto then permissionModeAsk else codexRung m)))) in Hm;
    [by bprop|done].
Qed.

Lemma flagValue_step arg rest flags acc :
  flagValue_loop (arg :: rest) flags acc = flagValue_loop rest flags
    (foldl (fun acc f => match operand arg rest f with Some v => Some v | None => acc end) acc flags).
Proof. reflexivity. Qed.

(** Arguments without the flags do not change what was read before them. The
    operand of a flag before them is read from what precedes them. *)
Lemma flagValue_loop_app pre args flags : forall acc,
  argsContainAnyFlag args flags = false ->
  match list.last pre with Some l => any (fun f => carries f l) flags = false | None => True end ->
  flagValue_loop (app pre args) flags acc = flagValue_loop pre flags acc.
Proof.
  induction pre as [|x pre IH]; intros acc Ha Hl; [by apply flagValue_absent|].
  destruct pre as [|y pre].
  - cbn in Hl |- *. rewrite !operand_fold by done. by apply flagValue_absent.
  - change (app (x :: y :: pre) args) with (x :: app (y :: pre) args).
    by rewrite !(flagValue_step x), IH.
Qed.

(** ** The rung after injection *)

Section Rung.
Context (h : string) (args : list string) (mode : string).

Lemma claude_injected : normHarness h = ClaudeCode -> mode ∈ claude_modes ->
  argsContainAnyFlag args claude_axis = false ->
  argsWithHarnessPermissionMode h args mode = app ["--permission-mode"; claudePermissionMode mode] args /\
  forall m, EffectiveLaunchRung h (app ["--permission-mode"; claudePermissionMode mode] args) m = claudeRung mode.
Proof.
  intros E Hm Ha. split.
  - unfold argsWithHarnessPermissionMode. rewrite E, Ha, modes_nonempty by auto. done.
  - intros m. unfold EffectiveLaunchRung. rewrite E, contain_app.
    rewrite (contain_incl args claude_axis [SkipPermissionsFlag]) by (try done; set_solver).
    destruct (claude_mode_facts mode Hm) as (Hs & Hv & Hr).
    rewrite Hs. cbn [orb]. unfold flagValue. cbn [app flagValue_loop].
    rewrite contain_cons in Hv. bprop. rewrite (operand_fold (claudePermissionMode mode)) by done.
    rewrite flagValue_absent by (apply (contain_incl args claude_axis); [set_solver|done]). done.
Qed.

Lemma rung_codex args' m : normHarness h = Codex ->
  EffectiveLaunchRung h args' m =
    (if argsContainAnyFlag args' [codexBypassFlag] then permissionModeBypass
     else match flagValue args' ["-s"; "--sandbox"] with
       | Some value => codexSandboxRung value
       | None => if argsContainAnyFlag args' ["-a"; "--ask-for-approval"] then "" else codexRung m
       end).
Proof. unfold EffectiveLaunchRung. by intros ->. Qed.

Lemma codex_injected : normHarness h = Codex -> mode ∈ codex_modes ->
  argsContainAnyFlag args codex_axis = false ->
  argsWithHarnessPermissionMode h args mode = app (codex_flags mode) args /\
  forall m, EffectiveLaunchRung h (app (codex_flags mode) args) m = codex_launched mode.
Proof.
  intros E Hm Ha. split.
  - unfold argsWithHarnessPermissionMode, codex_flags. rewrite E, Ha, modes_nonempty by auto. cbn.
    by destruct (codexPermissionMode mode) as [? a], (a =s? "").
  - intros m. rewrite rung_codex, contain_app by done.
    rewrite (contain_incl args codex_axis [codexBypassFlag]) by (try done; set_solver).
    destruct (codex_mode_facts mode Hm) as (Hs & Hv & _). rewrite Hs. cbn [orb].
    unfold flagValue in *. rewrite flagValue_loop_app, Hv; [done| |].
    + apply (contain_incl args codex_axis); [set_solver|done].
    + apply (mode_cases (fun m => match list.last (codex_flags m) with
        | Some l => negb (any (fun f => carries f l) ["-s"; "--sandbox"]) | None => true end)) in Hm; [|done].
      destruct (list.last (codex_flags mode)); [by bprop|done].
Qed.

(** Injection that is suppressed, or asked for nothing, changes nothing. *)
Lemma suppressed : 
  (normHarness h = ClaudeCode -> argsContainAnyFlag args claude_axis = true) ->
  (normHarness h = Codex -> argsContainAnyFlag args codex_axis = true) ->
  argsWithHarnessPermissionMode h args mode = args.
Proof.
  intros Hc Hx. unfold argsWithHarnessPermissionMode. repeat case_match; bprop; naive_solver.
Qed.
End Rung.

(** Injection of codex's auto mode is not read back as auto. *)
Definition reads_back_lower (h : string) (args : list string) (mode : string) : bool :=
  (normHarness h =s? Codex) && (mode =s? permissionModeAuto) && negb (argsContainAnyFlag args codex_axis).

Lemma rung_unset h args mode :
  (normHarness h = ClaudeCode -> argsContainAnyFlag args claude_axis = false ->
   EffectiveLaunchRung h args mode = claudeRung mode) /\
  (normHarness h = Codex -> argsContainAnyFlag args codex_axis = false ->
   EffectiveLaunchRung h args mode = codexRung mode).
Proof.
  unfold EffectiveLaunchRung, flagValue. split; intros E Ha; rewrite E; cbn -[flagValue_loop].
  - rewrite (contain_incl args claude_axis [SkipPermissionsFlag]) by (try done; set_solver).
    rewrite flagValue_absent by (apply (contain_incl args claude_axis); [set_solver|done]). done.
  - rewrite (contain_incl args codex_axis [codexBypassFlag]) by (try done; set_solver).
    rewrite flagValue_absent by (apply (contain_incl args codex_axis); [set_solver|done]).
    by rewrite (contain_incl args codex_axis ["-a"; "--ask-for-approval"]) by (try done; set_solver).
Qed.

(** Reading the rung of an argv that already carries the injected flags gives
    the rung of the argv without them, for every mode validation lets through
    and every argv, except codex's auto mode, which reads back as ask. *)
Theorem effective_rung_over_injection cfg (Hv : validatePermissionMode cfg = Ok tt) :
  let h := cfg.(Harness) in let args := cfg.(Args) in let mode := cfg.(PermissionMode) in
  EffectiveLaunchRung h (argsWithHarnessPermissionMode h args mode) mode =
    (if reads_back_lower h args mode then permissionModeAsk else EffectiveLaunchRung h args mode).
Proof.
  cbn zeta. unfold reads_back_lower. destruct (decide (cfg.(PermissionMode) = "")) as [->|Hm].
  { rewrite andb_false_r. done. }
  destruct (validMode cfg Hv Hm) as [[E Hc]|[E Hc]]; rewrite E.
  - change (Codex =s? Codex) with true. change (ClaudeCode =s? Codex) with false. cbn [andb].
    destruct (argsContainAnyFlag (Args cfg) claude_axis) eqn:Ha.
    + rewrite suppressed; [done|done|]. intros E'. by rewrite E in E'.
    + destruct (claude_injected _ _ _ E Hc Ha) as [-> ->].
      by rewrite (proj1 (rung_unset (Harness cfg) (Args cfg) (PermissionMode cfg))).
  - change (Codex =s? Codex) with true. cbn [andb].
    destruct (argsContainAnyFlag (Args cfg) codex_axis) eqn:Ha.
    + rewrite andb_false_r, suppressed; [done| |done]. intros E'. by rewrite E in E'.
    + destruct (codex_injected _ _ _ E Hc Ha) as [-> ->]. rewrite andb_true_r.
      rewrite (proj2 (rung_unset (Harness cfg) (Args cfg) (PermissionMode cfg))) by done.
      apply codex_mode_facts, Hc.
Qed.

(** ** Effort and model do not touch the permission axis *)

Lemma config_axis c s args : c <> "-"%char -> argsContainAnyFlag args codex_axis = false ->
  argsContainAnyFlag ("-c" :: String c s :: args) codex_axis = false.
Proof.
  intros Hc Ha. change ("-c" :: String c s :: args) with (app ["-c"] (app [String c s] args)).
  rewrite !contain_app, Ha, (contain_word s codex_axis c); [done|apply axis_dash|done].
Qed.

Section Inject.
Context (IsPrint : Z -> bool) (h : string).

Lemma effort_axis args e : isSupportedEffort e = true \/ e = "" ->
  (normHarness h = ClaudeCode -> argsContainAnyFlag args claude_axis = false ->
   argsContainAnyFlag (argsWithHarnessEffort IsPrint h args e) claude_axis = false) /\
  (normHarness h = Codex -> argsContainAnyFlag args codex_axis = false ->
   argsContainAnyFlag (argsWithHarnessEffort IsPrint h args e) codex_axis = false).
Proof.
  intros He. unfold argsWithHarnessEffort, prependArgs. destruct (e =s? "") eqn:Hn; [done|].
  destruct He as [He| ->]; [|done]. split; intros E Ha; rewrite E; cbn -[argsContainAnyFlag Quote].
  - destruct (argsContainAnyFlag args ["--effort"]); [done|].
    change (argsContainAnyFlag (app ["--effort"; e] args) claude_axis = false). rewrite contain_app, Ha, orb_false_r.
    apply any_eqb in He. apply negb_true_iff.
    by apply (mode_cases (fun e => negb (argsContainAnyFlag ["--effort"; e] claude_axis)) _ _ He).
  - destruct (argsContainConfigKey _ _); [done|]. by apply config_axis.
Qed.

Lemma model_axis args m :
  (normHarness h = ClaudeCode -> argsContainAnyFlag args claude_axis = false ->
   argsContainAnyFlag [m] claude_axis = false ->
   argsContainAnyFlag (argsWithHarnessModel IsPrint h args m) claude_axis = false) /\
  (normHarness h = Codex -> argsContainAnyFlag args codex_axis = false ->
   argsContainAnyFlag (argsWithHarnessModel IsPrint h args m) codex_axis = false).
Proof.
  unfold argsWithHarnessModel, prependArgs. destruct (m =s? "") eqn:Hn; [done|].
  split; intros E Ha; rewrite E; cbn -[argsContainAnyFlag Quote].
  - intros Hm. destruct (argsContainAnyFlag args ["--model"]); [done|].
    change (argsContainAnyFlag (app ["--model"] (app [m] args)) claude_axis = false).
    by rewrite !contain_app, Hm, Ha.
  - destruct (argsContainConfigKey _ _); [done|]. by apply config_axis.
Qed.
End Inject.

Lemma validateConfig_Ok linux cfg : validateConfig linux cfg = Ok tt ->
  (isSupportedEffort cfg.(Effort) = true \/ cfg.(Effort) = "") /\ validatePermissionMode cfg = Ok tt /\
  0 <= cfg.(IdleQuiet) /\ 0 <= cfg.(IdleClassify) /\
  (0 < cfg.(IdleClassify) -> 0 < cfg.(IdleQuiet) -> cfg.(IdleQuiet) <= cfg.(IdleClassify)) /\
  (0 < cfg.(StaleThreshold) -> 0 < cfg.(IdleClassify) -> cfg.(IdleClassify) <= cfg.(StaleThreshold)).
Proof.
  unfold validateConfig. rewrite !when_Ok, !guard_implies. intros (_ & _ & Hneg & _ & Ho1 & Ho2 & He & _ & _ & H).
  apply bind_unit in H as [H _]. bprop. split_and!; try done; try lia.
  - destruct (Effort cfg =s? "") eqn:E; bprop; [by right|left]. by apply He.
Qed.

(** The flags that speak about permissions for a harness. *)
Definition permission_axis (h : string) : list string :=
  if normHarness h =s? ClaudeCode then claude_axis else codex_axis.

Definition asks_bypass (h mode : string) : bool :=
  if normHarness h =s? Codex then isCodexBypassMode mode else IsBypassPermissionMode mode.

Lemma launched_bypass h mode :
  (normHarness h = ClaudeCode -> mode ∈ claude_modes ->
     (claudeRung mode =s? permissionModeBypass) = asks_bypass h mode) /\
  (normHarness h = Codex -> mode ∈ codex_modes ->
     (codex_launched mode =s? permissionModeBypass) = asks_bypass h mode).
Proof.
  unfold asks_bypass. split; intros E Hm; rewrite E; apply eqb_true_iff.
  - by apply (mode_cases (fun m => eqb (claudeRung m =s? permissionModeBypass) (IsBypassPermissionMode m)) _ _ Hm).
  - by apply (mode_cases (fun m => eqb (codex_launched m =s? permissionModeBypass) (isCodexBypassMode m)) _ _ Hm).
Qed.


(** A model spelled as a permission flag suppresses the permission mode: plan is
    asked for, validation accepts it, and argv carries no permission mode. *)
Theorem model_suppresses_mode IsPrint linux :
  HarnessArgs IsPrint linux
    (mkConfig "/bin/claude" ["-p"; "hi"] true 0 0 0 0 false "claude" "" SkipPermissionsFlag "plan" 0 0 None)
  = Ok ["--model"; SkipPermissionsFlag; "-p"; "hi"].
Proof. reflexivity. Qed.

(** ** The idle thresholds *)

(** The thresholds a session starts with are set, keep every value the caller
    set, and a default never lies below the caller's shorter threshold. The
    order quiet, classify, stale is inverted exactly where a caller's longer
    threshold is below the default of the shorter one. *)
Theorem Start_thresholds IsPrint linux cfg cfg' (H : Start IsPrint linux cfg = Ok cfg') :
  0 < cfg'.(IdleQuiet) /\ 0 < cfg'.(IdleClassify) /\ cfg'.(StaleThreshold) <> 0 /\ cfg'.(WaitDelay) <> 0 /\
  (cfg.(IdleQuiet) <> 0 -> cfg'.(IdleQuiet) = cfg.(IdleQuiet)) /\
  (cfg.(IdleClassify) <> 0 -> cfg'.(IdleClassify) = cfg.(IdleClassify)) /\
  (cfg.(StaleThreshold) <> 0 -> cfg'.(StaleThreshold) = cfg.(StaleThreshold)) /\
  (cfg'.(IdleClassify) < cfg'.(IdleQuiet) <->
     cfg.(IdleQuiet) = 0 /\ 0 < cfg.(IdleClassify) < 15 * Second) /\
  (0 < cfg'.(StaleThreshold) < cfg'.(IdleClassify) <->
     cfg.(IdleClassify) = 0 /\ 0 < cfg.(StaleThreshold) < Z.max (60 * Second) cfg'.(IdleQuiet)).
Proof.
  unfold Start in H. apply bind_unit in H as [Hv [= <-]].
  apply validateConfig_Ok in Hv as (_ & _ & H1 & H2 & H3 & H4).
  cbn [set_args applyDefaults IdleQuiet IdleClassify StaleThreshold WaitDelay]. unfold Minute, Second.
  destruct (Z.eqb_spec (IdleQuiet cfg) 0), (Z.eqb_spec (IdleClassify cfg) 0),
    (Z.eqb_spec (StaleThreshold cfg) 0), (Z.eqb_spec (WaitDelay cfg) 0); split_and!; lia.
Qed.

(** ** The order of the rungs *)

Lemma MorePermissive_spec a b : MorePermissive a b = true <->
  a ∈ PermissionRungs /\ b ∈ PermissionRungs /\ rungIndex b < rungIndex a.
Proof.
  assert (Hi : forall l r i, 0 <= i -> (0 <=? index_of i r l) = true <-> r ∈ l).
  { induction l as [|x l IH]; intros r i Hi; cbn; [by split; [|rewrite elem_of_nil]|].
    destruct (x =s? r) eqn:E; bprop.
    - subst. split; [intros; apply list_elem_of_here|]. intros _. by apply Z.leb_le.
    - rewrite IH by lia. rewrite elem_of_cons. naive_solver. }
  unfold MorePermissive. rewrite <- (Hi PermissionRungs a 0), <- (Hi PermissionRungs b 0) by done.
  fold (rungIndex a) (rungIndex b).
  destruct ((rungIndex a <? 0) || (rungIndex b <? 0)) eqn:E; bprop; rewrite ?Z.ltb_lt, !Z.leb_le; [|lia].
  split; [done|]. destruct E; bprop; lia.
Qed.

(** ** Witnesses *)

Definition sample (harness mode : string) (args : list string) : Config :=
  mkConfig "/bin/h" args true 0 0 0 0 false harness "high" "m1" mode 0 0 None.

Lemma effective_rung_over_injection_witness :
  let cfg := sample "Claude " "ask" ["--verbose"] in
  EffectiveLaunchRung cfg.(Harness) (argsWithHarnessPermissionMode cfg.(Harness) cfg.(Args) cfg.(PermissionMode))
    cfg.(PermissionMode) = "ask".
Proof.
  refine (eq_trans (effective_rung_over_injection (sample "Claude " "ask" ["--verbose"]) _) _); by vm_compute.
Defined.


Lemma Start_thresholds_witness :
  exists cfg', Start (fun _ => true) true (sample "claude" "plan" []) = Ok cfg' /\ 0 < cfg'.(IdleQuiet).
Proof.
  eexists. split; [reflexivity|].
  refine (proj1 (Start_thresholds (fun _ => true) true (sample "claude" "plan" []) _ _)). reflexivity.
Defined.
