(* ===== verification/Flags.v ===== *)
(** The harness-wrapper command line: package [flag]'s parser over the
    wrapper's flags (src/cmd/harness-wrapper/flags.go and contain_flags.go),
    the argv of the tmux re-exec (tmux.go) and the sandbox defaults
    (sandbox_defaults.go).

    Of [flag.FlagSet] the model has Parse, over the flags the wrapper
    registers, and of strconv the integer and boolean parsers it calls. *)
From Stdlib Require Import ZArith Ascii String Lia.
From stdpp Require Import base tactics list strings option.
From S2P Require Import Prelude GoStr Bytes Json JsonInj Containment HarnessName Launch.

#[local] Open Scope string_scope.
#[local] Open Scope Z_scope.

(** ** strconv *)

Definition ParseBool (s : string) : option bool :=
  if any (String.eqb s) ["1"; "t"; "T"; "true"; "TRUE"; "True"] then Some true
  else if any (String.eqb s) ["0"; "f"; "F"; "false"; "FALSE"; "False"] then Some false
  else None.

(** A digit in any base up to 36. *)
Definition digit36 (c : ascii) : option Z :=
  let b := code c in
  if in_range 48 57 b then Some (b - 48)
  else let l := code (lower_byte c) in
       if in_range 97 122 l then Some (l - 97 + 10) else None.

(** The value of a digit string; with [base0], underscores between digits. *)
Fixpoint scan_digits (base0 : bool) (base acc : Z) (s : string) : option Z :=
  match s with
  | "" => Some acc
  | String c s =>
    if base0 && Ascii.eqb c "_" then scan_digits base0 base acc s
    else match digit36 c with
      | Some d => if d <? base then scan_digits base0 base (acc * base + d) s else None
      | None => None
      end
  end.

(** underscoreOK's loop: [last] is the class of the character before: '^' the
    start, '0' a digit, '_' an underscore, '!' another. *)
Fixpoint underscore_loop (hex : bool) (last : ascii) (s : string) : bool :=
  match s with
  | "" => negb (Ascii.eqb last "_")
  | String c s =>
    if in_range 48 57 (code c) || (hex && in_range 97 102 (code (lower_byte c))) then underscore_loop hex "0" s
    else if Ascii.eqb c "_" then
      if Ascii.eqb last "0" then underscore_loop hex "_" s else false
    else if Ascii.eqb last "_" then false
    else underscore_loop hex "!" s
  end.

Definition base_prefix (c : ascii) : option Z :=
  let l := lower_byte c in
  if Ascii.eqb l "b" then Some 2 else if Ascii.eqb l "o" then Some 8
  else if Ascii.eqb l "x" then Some 16 else None.

Definition underscoreOK (s : string) : bool :=
  let s := match s with
    | String c s' => if Ascii.eqb c "-" || Ascii.eqb c "+" then s' else s
    | "" => s
    end in
  match s with
  | String "0" (String c s') =>
    match base_prefix c with
    | Some b => underscore_loop (b =? 16) "0" s'
    | None => underscore_loop false "^" s
    end
  | _ => underscore_loop false "^" s
  end.

(** [strconv.ParseUint(s, 0, 64)]. *)
Definition ParseUint0 (s : string) : option Z :=
  let '(base, body) :=
    match s with
    | String "0" (String c ((String _ _) as r)) =>
      match base_prefix c with Some b => (b, r) | None => (8, String c r) end
    | String "0" r => (8, r)
    | _ => (10, s)
    end in
  if s =s? "" then None
  else
    n ← scan_digits true base 0 body;
    if (2 ^ 64 - 1 <? n) || (ContainsByte body "_" && negb (underscoreOK s)) then None else Some n.

(** [strconv.ParseInt(s, 0, 64)]. *)
Definition ParseInt0 (s : string) : option Z :=
  let '(neg, body) :=
    match s with
    | String c r => if Ascii.eqb c "+" then (false, r) else if Ascii.eqb c "-" then (true, r) else (false, s)
    | "" => (false, s)
    end in
  n ← ParseUint0 body;
  if neg then (if 2 ^ 63 <? n then None else Some (- n))
  else (if 2 ^ 63 <=? n then None else Some n).

(** [strconv.ParseUint(s, 10, 16)]. *)
Definition ParseUint16 (s : string) : option Z :=
  if s =s? "" then None
  else n ← scan_digits false 10 0 s; if 65535 <? n then None else Some n.

(** ** The flags *)

Record containFlags := mkContainFlags {
  cf_Kind : string; cf_ReadWrite : list string; cf_ReadOnly : list string; cf_RestrictTCP : bool;
  cf_AllowTCP : list Z; cf_MinABI : Z; cf_StateDir : string; cf_PassEnv : list string }.

Definition contain_any (c : containFlags) : bool :=
  negb (cf_Kind c =s? "") || negb (is_nil (cf_ReadWrite c)) || negb (is_nil (cf_ReadOnly c)) || cf_RestrictTCP c
  || negb (is_nil (cf_AllowTCP c)) || negb (cf_MinABI c =? 0) || negb (cf_StateDir c =s? "")
  || negb (is_nil (cf_PassEnv c)).

Definition contain_validate (c : containFlags) : result string unit :=
  when (cf_Kind c =s? "") && contain_any c refuse "--contain-* flags require --contain landlock" ;; Ok tt.

Definition contain_request (c : containFlags) : option Request :=
  if cf_Kind c =s? "" then None
  else Some (mkRequest (cf_Kind c) (cf_ReadOnly c) (cf_ReadWrite c) (cf_RestrictTCP c) (cf_AllowTCP c)
               (cf_MinABI c) (cf_StateDir c) (cf_PassEnv c)).

Record harnessWrapperArgs := mkArgs {
  TraceFile : string; TraceStderr : bool; Effort : string; Model : string; TmuxSession : string;
  TmuxChild : string; AutoAccept : bool; SandboxDefaults : bool; PermissionMode : string;
  Contain : containFlags; HarnessName : string; HarnessArgs : list string }.

Definition noContain : containFlags := mkContainFlags "" [] [] false [] 0 "" [].
Definition zeroArgs : harnessWrapperArgs := mkArgs "" false "" "" "" "" false false "" noContain "" [].

Definition portList_Set (l : list Z) (v : string) : result string (list Z) :=
  match ParseUint16 (TrimSpace v) with
  | Some n => when n =? 0 refuse "invalid TCP port" ;; Ok (app l [n])
  | None => Err "invalid TCP port"
  end.

(** What a registered flag does with its value. *)
Inductive flagValue_ :=
| StringVar (set : string -> harnessWrapperArgs)
| BoolVar (set : bool -> harnessWrapperArgs)
| IntVar (set : Z -> harnessWrapperArgs)
| Var (set : string -> result string harnessWrapperArgs).

Definition with_contain (a : harnessWrapperArgs) (c : containFlags) : harnessWrapperArgs :=
  mkArgs (TraceFile a) (TraceStderr a) (Effort a) (Model a) (TmuxSession a) (TmuxChild a) (AutoAccept a)
    (SandboxDefaults a) (PermissionMode a) c (HarnessName a) (HarnessArgs a).

Definition harnessWrapperFlagSet (a : harnessWrapperArgs) (name : string) : option flagValue_ :=
  let '(mkArgs tf ts ef mo se ch aa sd pm c hn ha) := a in
  let '(mkContainFlags k rw ro rt at_ ma st pe) := c in
  if name =s? "trace-file" then Some (StringVar (fun v => mkArgs v ts ef mo se ch aa sd pm c hn ha))
  else if name =s? "trace-stderr" then Some (BoolVar (fun v => mkArgs tf v ef mo se ch aa sd pm c hn ha))
  else if name =s? "effort" then Some (StringVar (fun v => mkArgs tf ts v mo se ch aa sd pm c hn ha))
  else if name =s? "model" then Some (StringVar (fun v => mkArgs tf ts ef v se ch aa sd pm c hn ha))
  else if name =s? "tmux-session" then Some (StringVar (fun v => mkArgs tf ts ef mo v ch aa sd pm c hn ha))
  else if name =s? "tmux-child" then Some (StringVar (fun v => mkArgs tf ts ef mo se v aa sd pm c hn ha))
  else if name =s? "auto-accept" then Some (BoolVar (fun v => mkArgs tf ts ef mo se ch v sd pm c hn ha))
  else if name =s? "permission-mode" then Some (StringVar (fun v => mkArgs tf ts ef mo se ch aa sd v c hn ha))
  else if name =s? "sandbox-defaults" then Some (BoolVar (fun v => mkArgs tf ts ef mo se ch aa v pm c hn ha))
  else if name =s? "contain" then
    Some (StringVar (fun v => with_contain a (mkContainFlags v rw ro rt at_ ma st pe)))
  else if name =s? "contain-rw" then
    Some (Var (fun v => Ok (with_contain a (mkContainFlags k (app rw [v]) ro rt at_ ma st pe))))
  else if name =s? "contain-ro" then
    Some (Var (fun v => Ok (with_contain a (mkContainFlags k rw (app ro [v]) rt at_ ma st pe))))
  else if name =s? "contain-restrict-tcp" then
    Some (BoolVar (fun v => with_contain a (mkContainFlags k rw ro v at_ ma st pe)))
  else if name =s? "contain-allow-tcp" then
    Some (Var (fun v => p ← portList_Set at_ v; Ok (with_contain a (mkContainFlags k rw ro rt p ma st pe))))
  else if name =s? "contain-min-abi" then
    Some (IntVar (fun v => with_contain a (mkContainFlags k rw ro rt at_ v st pe)))
  else if name =s? "contain-state-dir" then
    Some (StringVar (fun v => with_contain a (mkContainFlags k rw ro rt at_ ma v pe)))
  else if name =s? "contain-pass-env" then
    Some (Var (fun v => Ok (with_contain a (mkContainFlags k rw ro rt at_ ma st (app pe [v])))))
  else None.

(** ** flag.FlagSet.Parse *)

(** A flag's name and its attached value: the text after the first '=' that is
    not the first character. *)
Definition cut_value (name : string) : string * option string :=
  match name with
  | "" => ("", None)
  | String c rest =>
    match Cut rest "=" with Some (n, v) => (String c n, Some v) | None => (name, None) end
  end.

Inductive parsed :=
| Flag (name : string)        (** a flag, with the dashes cut *)
| NonFlag                     (** the first argument that is no flag *)
| Terminator                  (** "--" *)
| BadSyntax.

Definition starts_with (c : ascii) (s : string) : bool :=
  match s with String d _ => Ascii.eqb c d | "" => false end.

Definition classify (s : string) : parsed :=
  match s with
  | String "-" ((String c r) as name) =>
    let name := if Ascii.eqb c "-" then r else name in
    if Ascii.eqb c "-" && (r =s? "") then Terminator
    else if (name =s? "") || starts_with "-" name || starts_with "=" name then BadSyntax
    else Flag name
  | _ => NonFlag
  end.

(** Give [value] to a flag that takes one. *)
Definition set_value (f : flagValue_) (value : string) : result string harnessWrapperArgs :=
  match f with
  | StringVar set => Ok (set value)
  | BoolVar set => of_option "invalid boolean value" (set <$> ParseBool value)
  | IntVar set => of_option "invalid value" (set <$> ParseInt0 value)
  | Var set => set value
  end.

(** Parse: the arguments after the flags, and the flags' values. *)
Fixpoint Parse (args : list string) (a : harnessWrapperArgs) : result string (list string * harnessWrapperArgs) :=
  match args with
  | [] => Ok ([], a)
  | s :: rest =>
    match classify s with
    | NonFlag => Ok (args, a)
    | Terminator => Ok (rest, a)
    | BadSyntax => Err "bad flag syntax"
    | Flag name =>
      let '(name, value) := cut_value name in
      match harnessWrapperFlagSet a name, value with
      | None, _ => if (name =s? "help") || (name =s? "h") then Err "flag: help requested"
                   else Err "flag provided but not defined"
      | Some f, Some v => a ← set_value f v; Parse rest a
      | Some (BoolVar set), None => Parse rest (set true)
      | Some f, None =>
        match rest with
        | v :: rest => a ← set_value f v; Parse rest a
        | [] => Err "flag needs an argument"
        end
      end
    end
  end.

(** The arguments before the first "--" and those after it. *)
Fixpoint split_sep (l : list string) : option (list string * list string) :=
  match l with
  | [] => None
  | a :: l => if a =s? "--" then Some ([], l)
              else '(pre, post) ← split_sep l; Some (a :: pre, post)
  end.

Definition parseHarnessWrapperArgs (in_ : list string) : result string harnessWrapperArgs :=
  match split_sep in_ with
  | None => Err "missing -- separator before harness args"
  | Some (pre, harnessArgs) =>
    '(rest, args) ← Parse pre zeroArgs;
    when negb (TraceFile args =s? "") && TraceStderr args refuse
      "--trace-file and --trace-stderr are mutually exclusive" ;;
    when negb (TmuxSession args =s? "") && negb (TmuxChild args =s? "") refuse
      "--tmux-session and --tmux-child are mutually exclusive" ;;
    when SandboxDefaults args && negb (PermissionMode args =s? "") && negb (IsBypassPermissionMode (PermissionMode args))
      refuse "--sandbox-defaults is incompatible with --permission-mode" ;;
    contain_validate (Contain args) ≫= fun _ =>
    match rest with
    | [] => Err "missing harness name before --"
    | [name] =>
      Ok (mkArgs (TraceFile args) (TraceStderr args) (Effort args) (Model args) (TmuxSession args) (TmuxChild args)
            (AutoAccept args) (SandboxDefaults args) (PermissionMode args) (Contain args) name harnessArgs)
    | _ => Err "expected exactly one harness name before --"
    end
  end.

(** ** The tmux re-exec *)

Definition tmuxReexecArgv (a : harnessWrapperArgs) (self tracePath : string) : list string :=
  let argv := [self; "--tmux-child"; TmuxSession a; "--trace-file"; tracePath] in
  let argv := if Effort a =s? "" then argv else app argv ["--effort"; Effort a] in
  let argv := if Model a =s? "" then argv else app argv ["--model"; Model a] in
  let argv := if PermissionMode a =s? "" then argv else app argv ["--permission-mode"; PermissionMode a] in
  let argv := app argv (CLIFlags (contain_request (Contain a))) in
  let argv := app argv [HarnessName a; "--"] in
  app argv (HarnessArgs a).

Definition tmuxSpawnArgv (tmuxName : string) (reexec : list string) : list string :=
  app ["new-session"; "-d"; "-s"; tmuxName] reexec.

Definition validSessionName (s : string) : bool :=
  negb (s =s? "") && (slen s <=? 64) &&
  forallb (fun r => in_range 97 122 r || in_range 65 90 r || in_range 48 57 r || (r =? 95) || (r =? 45)) (runes s).

Definition tmuxSocketFromEnv (v : string) : string :=
  let path := match Cut v "," with Some (p, _) => p | None => v end in
  if IsAbs path then path else "".

(** ** --sandbox-defaults *)

Definition sandboxEnvKey : string := "IS_SANDBOX".

Definition hasSkipPermissionsFlag (args : list string) : bool :=
  any (fun a => (a =s? SkipPermissionsFlag) || HasPrefix a (SkipPermissionsFlag ++ "=")) args.

Definition env_key (kv : string) : string := match Cut kv "=" with Some (k, _) => k | None => kv end.

Definition hasEnvKey (env : list string) (key : string) : bool := any (fun kv => env_key kv =s? key) env.

Definition applySandboxDefaults (harnessName permissionMode : string) (args env : list string)
  : list string * list string :=
  if negb (harnessName =s? Claude) then (args, env)
  else
    (if negb (IsBypassPermissionMode permissionMode) && negb (hasSkipPermissionsFlag args)
     then app args [SkipPermissionsFlag] else args,
     if negb (hasEnvKey env sandboxEnvKey) then app env [sandboxEnvKey ++ "=1"] else env).
