(* ===== verification/FlagsProps.v ===== *)
(** What the command line promises: the tmux re-exec parses back to the run
    that was asked for, and the sandbox defaults are added once. *)
From Stdlib Require Import ZArith Ascii String Lia DecimalString DecimalZ DecimalFacts Decimal.
From stdpp Require Import base tactics list strings option sets.
From S2P Require Import Prelude GoStr Bytes Json JsonInj Containment HarnessName Launch LaunchProps Flags.

#[local] Open Scope string_scope.
#[local] Open Scope Z_scope.

(** ** Numbers *)

Lemma nzhead_fix d d' : Decimal.nzhead d = d -> d <> D0 d'.
Proof. intros H ->. cbn in H. by apply (nzhead_nonzero d' d'). Qed.

Lemma unorm_fix d d' : Decimal.unorm d = d -> d = D0 d' -> d' = Nil.
Proof.
  intros H ->. unfold Decimal.unorm in H. cbn [Decimal.nzhead] in H.
  destruct (Decimal.nzhead d') eqn:En; try discriminate H; [by injection H|].
  exfalso. by apply (nzhead_nonzero d' u).
Qed.

(** The digits of a number other than 0 do not start with 0. *)
Lemma to_int_head n : n <> 0 ->
  match Z.to_int n with Decimal.Pos d | Decimal.Neg d => d <> Nil /\ forall d', d <> D0 d' end.
Proof.
  intros Hn. pose proof (DecimalZ.of_to n) as Hof. pose proof (DecimalZ.to_of (Z.to_int n)) as Hto.
  rewrite Hof in Hto. destruct (Z.to_int n) as [d|d]; cbn [Decimal.norm] in Hto.
  - injection Hto as Hto. split; [by intros ->|]. intros d' E.
    rewrite (unorm_fix d d' (eq_sym Hto) E) in E. rewrite E in Hof. cbn in Hof. congruence.
  - destruct (Decimal.nzhead d) eqn:E; try discriminate Hto; injection Hto as ->; (split; [done|]);
      intros d'; by apply nzhead_fix.
Qed.

Lemma scan_uint b d : forall acc,
  scan_digits b 10 acc (NilEmpty.string_of_uint d) = Some (uint_value acc d).
Proof.
  induction d as [|d IH|d IH|d IH|d IH|d IH|d IH|d IH|d IH|d IH|d IH]; intros acc; [done|..];
    (cbn -[Z.mul Z.add]; rewrite ?andb_false_r; exact (IH _)).
Qed.

Lemma scan_NilZero b d : scan_digits b 10 0 (NilZero.string_of_uint d) = Some (Z.of_uint d).
Proof. rewrite <- uint_value_of_uint. destruct d; cbn -[Z.mul Z.add]; rewrite ?andb_false_r; try done; apply scan_uint. Qed.

Lemma ContainsByte_none s c : no_byte c s -> ContainsByte s c = false.
Proof. by rewrite ContainsByte_false. Qed.

Lemma ParseUint0_digits d : d <> Nil -> (forall d', d <> D0 d') -> Z.of_uint d <= 2 ^ 64 - 1 ->
  ParseUint0 (NilZero.string_of_uint d) = Some (Z.of_uint d).
Proof.
  intros Hn Hz Hb. unfold ParseUint0.
  replace (match NilZero.string_of_uint d with
    | String "0" (String c ((String _ _) as r)) =>
      match base_prefix c with Some b => (b, r) | None => (8, String c r) end
    | String "0" r => (8, r)
    | _ => (10, NilZero.string_of_uint d)
    end) with (10, NilZero.string_of_uint d) by (destruct d; [done|by destruct (Hz d)|done..]).
  cbn beta iota zeta. rewrite scan_NilZero. destruct (NilZero_head d) as (c & s & Hs & _ & _).
  rewrite Hs. cbn [String.eqb]. rewrite <- Hs. cbn [mbind option_bind].
  rewrite (ContainsByte_none _ "_") by by apply no_byte_uint.
  by destruct (Z.ltb_spec (2 ^ 64 - 1) (Z.of_uint d)); [lia|].
Qed.

Lemma ParseInt0_Itoa n : n <> 0 -> - 2 ^ 63 <= n <= MaxInt -> ParseInt0 (Itoa n) = Some n.
Proof.
  intros Hz Hn. unfold Itoa. rewrite Itoa_int. pose proof (DecimalZ.of_to n) as Hof.
  pose proof (to_int_head n Hz) as Hd. unfold MaxInt in Hn. unfold ParseInt0.
  destruct (Z.to_int n) as [d|d]; destruct Hd as [Hn1 Hn2]; cbn in Hof.
  - destruct (NilZero_head d) as (c & s & Hs & Hm & Hp). rewrite Hs, Hm, Hp. rewrite <- Hs.
    cbn beta iota. rewrite ParseUint0_digits by (try done; lia). cbn. rewrite Hof.
    by destruct (Z.leb_spec (2 ^ 63) n); [lia|].
  - cbn [Ascii.eqb Bool.eqb]. cbn beta iota. rewrite ParseUint0_digits by (try done; lia). cbn -[Z.pow].
    destruct (Z.ltb_spec (2 ^ 63) (Z.of_uint d)); [lia|]. f_equal. lia.
Qed.

(** ** Trimming *)

Lemma strip_id fuel seps b bs :
  Forall (fun sp => match sp with x :: _ => x <> b | [] => False end) seps -> strip fuel seps (b :: bs) = b :: bs.
Proof.
  intros H. destruct fuel as [|fuel]; [done|]. cbn.
  replace (List.find _ seps) with (@None (list Z)); [done|].
  symmetry. induction H as [|sp seps Hsp _ IH]; [done|]. cbn. destruct sp as [|x sp]; [done|].
  rewrite bool_decide_eq_false_2; [done|]. cbn. congruence.
Qed.

Lemma string_of_bytes_bytes s : string_of_bytes (bytes s) = s.
Proof.
  unfold string_of_bytes, bytes. rewrite map_map.
  rewrite (map_ext _ (fun c => c)), map_id, string_of_list_ascii_of_string; [done|].
  intros c. unfold code. by rewrite N2Z.id, ascii_N_embedding.
Qed.

Definition digits_only (bs : list Z) : Prop := Forall (fun b => 48 <= b <= 57) bs.

Lemma strip_digits fuel seps bs :
  forallb (fun sp => match sp with x :: _ => (x <? 48) || (57 <? x) | [] => false end) seps = true ->
  digits_only bs -> strip fuel seps bs = bs.
Proof.
  intros Hs Hb. destruct bs as [|b bs].
  - destruct fuel as [|fuel]; [done|]. cbn. replace (List.find _ seps) with (@None (list Z)); [done|].
    symmetry. induction seps as [|sp seps IH]; [done|]. cbn in *. bprop. destruct sp as [|x sp]; [done|].
    rewrite bool_decide_eq_false_2 by done. by apply IH.
  - inversion_clear Hb. apply strip_id. rewrite list.Forall_forall. rewrite forallb_elem in Hs. intros sp Hsp.
    specialize (Hs sp Hsp). destruct sp; [done|]. bprop. destruct Hs; bprop; lia.
Qed.

Lemma TrimSpace_digits s : digits_only (bytes s) -> TrimSpace s = s.
Proof.
  intros H. unfold TrimSpace. rewrite (strip_digits _ space_encodings) by done.
  rewrite strip_digits, rev_involutive; [apply string_of_bytes_bytes|done|].
  unfold digits_only in *. rewrite list.Forall_forall in *. intros b Hb. apply H.
  by rewrite list_elem_of_In, <- in_rev, <- list_elem_of_In in Hb.
Qed.

Lemma digits_only_uint d : digits_only (bytes (NilZero.string_of_uint d)).
Proof.
  assert (H : digits_only (bytes (NilEmpty.string_of_uint d))).
  { unfold digits_only. induction d; cbn; constructor; try done; unfold code; cbn; lia. }
  destruct d; try exact H. repeat constructor; unfold code; cbn; lia.
Qed.

Lemma portList_Set_Itoa l p : 1 <= p <= 65535 -> portList_Set l (Itoa p) = Ok (app l [p]).
Proof.
  intros Hp. unfold portList_Set, Itoa. rewrite Itoa_int. pose proof (DecimalZ.of_to p) as Hof.
  destruct (Z.to_int p) as [d|d] eqn:E; [|destruct p; [discriminate E|discriminate E|lia]]. cbn in Hof.
  rewrite TrimSpace_digits by apply digits_only_uint. unfold ParseUint16.
  rewrite scan_NilZero. destruct (NilZero_head d) as (c & s & -> & _ & _). cbn -[Z.ltb Z.eqb]. rewrite Hof.
  destruct (Z.ltb_spec 65535 p); [lia|]. by destruct (Z.eqb_spec p 0); [lia|].
Qed.

(** ** Parsing the forwarded flags *)

Section Steps.
Context (b : harnessWrapperArgs) (rest : list string).

Lemma Parse_opt (x : string) (flag : string) (set : string -> harnessWrapperArgs) :
  (forall v, Parse (flag :: v :: rest) (set "") = Parse rest (set v)) ->
  Parse (app (if x =s? "" then [] else [flag; x]) rest) (set "") = Parse rest (set x).
Proof. intros H. destruct (x =s? "") eqn:E; bprop; [by subst|]. apply H. Qed.

Context (k : string) (rw ro : list string) (rt : bool) (ports : list Z) (ma : Z) (st : string) (pe : list string).

Lemma Parse_rw l : forall rw,
  Parse (app (repeated "--contain-rw" l) rest) (with_contain b (mkContainFlags k rw ro rt ports ma st pe))
  = Parse rest (with_contain b (mkContainFlags k (app rw l) ro rt ports ma st pe)).
Proof.
  destruct b. induction l as [|x l IH]; intros rw'; [by rewrite app_nil_r|].
  change (x :: l) with (app [x] l). rewrite app_assoc, <- IH. reflexivity.
Qed.

Lemma Parse_ro l : forall ro,
  Parse (app (repeated "--contain-ro" l) rest) (with_contain b (mkContainFlags k rw ro rt ports ma st pe))
  = Parse rest (with_contain b (mkContainFlags k rw (app ro l) rt ports ma st pe)).
Proof.
  destruct b. induction l as [|x l IH]; intros ro'; [by rewrite app_nil_r|].
  change (x :: l) with (app [x] l). rewrite app_assoc, <- IH. reflexivity.
Qed.

Lemma Parse_env l : forall pe,
  Parse (app (repeated "--contain-pass-env" l) rest) (with_contain b (mkContainFlags k rw ro rt ports ma st pe))
  = Parse rest (with_contain b (mkContainFlags k rw ro rt ports ma st (app pe l))).
Proof.
  destruct b. induction l as [|x l IH]; intros pe'; [by rewrite app_nil_r|].
  change (x :: l) with (app [x] l). rewrite app_assoc, <- IH. reflexivity.
Qed.

Lemma Parse_port v rest' ps :
  Parse ("--contain-allow-tcp" :: v :: rest') (with_contain b (mkContainFlags k rw ro rt ps ma st pe))
  = (ps ← portList_Set ps v; Parse rest' (with_contain b (mkContainFlags k rw ro rt ps ma st pe))).
Proof. destruct b. cbn -[portList_Set]. by destruct (portList_Set ps v). Qed.

Lemma Parse_ports l : Forall (fun p => 1 <= p <= 65535) l -> forall ports,
  Parse (app (repeated "--contain-allow-tcp" (map Itoa l)) rest) (with_contain b (mkContainFlags k rw ro rt ports ma st pe))
  = Parse rest (with_contain b (mkContainFlags k rw ro rt (app ports l) ma st pe)).
Proof.
  induction 1 as [|x l Hx _ IH]; intros ps; [by rewrite app_nil_r|].
  cbn [map repeated flat_map app]. rewrite Parse_port, portList_Set_Itoa by done.
  change (x :: l) with (app [x] l). rewrite app_assoc, <- IH. reflexivity.
Qed.

Lemma Parse_min_abi n : n <> 0 -> - 2 ^ 63 <= n <= MaxInt ->
  Parse ("--contain-min-abi" :: Itoa n :: rest) (with_contain b (mkContainFlags k rw ro rt ports ma st pe))
  = Parse rest (with_contain b (mkContainFlags k rw ro rt ports n st pe)).
Proof. intros Hn Hr. destruct b. cbn -[ParseInt0 Itoa]. by rewrite ParseInt0_Itoa. Qed.
End Steps.

(** The parsed flags are within their types: ports are uint16 and not 0, the
    ABI is an int. *)
Definition flags_wf (a : harnessWrapperArgs) : Prop :=
  Forall (fun p => 1 <= p <= 65535) (cf_AllowTCP (Contain a)) /\
  - 2 ^ 63 <= cf_MinABI (Contain a) <= MaxInt.

Lemma Parse_contain b c rest : cf_Kind c <> "" -> Forall (fun p => 1 <= p <= 65535) (cf_AllowTCP c) ->
  - 2 ^ 63 <= cf_MinABI c <= MaxInt ->
  Parse (app (CLIFlags (contain_request c)) rest) (with_contain b noContain) = Parse rest (with_contain b c).
Proof.
  destruct c as [k rw ro rt ports ma st pe]. cbn [cf_Kind cf_AllowTCP cf_MinABI]. intros Hk Hp Hm.
  unfold contain_request. cbn [cf_Kind]. rewrite (proj2 (String.eqb_neq _ _)) by done.
  cbn [CLIFlags Kind ReadOnly ReadWrite RestrictTCP ConnectTCP MinABI StateDir PassEnv
       cf_ReadWrite cf_ReadOnly cf_RestrictTCP cf_AllowTCP cf_MinABI cf_StateDir cf_PassEnv cf_Kind].
  rewrite <- !app_assoc.
  transitivity (Parse (app (repeated "--contain-rw" rw) (app (repeated "--contain-ro" ro)
    (app (if rt then ["--contain-restrict-tcp"] else []) (app (repeated "--contain-allow-tcp" (map Itoa ports))
    (app (if negb (ma =? 0) then ["--contain-min-abi"; Itoa ma] else [])
    (app (if negb (st =s? "") then ["--contain-state-dir"; st] else [])
    (app (repeated "--contain-pass-env" pe) rest)))))))
    (with_contain b (mkContainFlags k [] [] false [] 0 "" []))); [by destruct b|].
  rewrite Parse_rw, Parse_ro.
  transitivity (Parse (app (repeated "--contain-allow-tcp" (map Itoa ports))
    (app (if negb (ma =? 0) then ["--contain-min-abi"; Itoa ma] else [])
    (app (if negb (st =s? "") then ["--contain-state-dir"; st] else [])
    (app (repeated "--contain-pass-env" pe) rest))))
    (with_contain b (mkContainFlags k rw ro rt [] 0 "" []))); [by destruct rt; [destruct b|]|].
  rewrite Parse_ports by done.
  transitivity (Parse (app (if negb (st =s? "") then ["--contain-state-dir"; st] else [])
    (app (repeated "--contain-pass-env" pe) rest)) (with_contain b (mkContainFlags k rw ro rt ports ma "" []))).
  { destruct (Z.eqb_spec ma 0) as [->|Hma]; [done|]. by apply Parse_min_abi. }
  transitivity (Parse (app (repeated "--contain-pass-env" pe) rest)
    (with_contain b (mkContainFlags k rw ro rt ports ma st []))); [|apply Parse_env].
  destruct (st =s? "") eqn:E; bprop; [by subst|by destruct b].
Qed.

(** ** What a parse leaves *)

Lemma scan_digits_nonneg b base s : 0 <= base -> forall acc n, 0 <= acc ->
  scan_digits b base acc s = Some n -> 0 <= n.
Proof.
  intros Hb. induction s as [|c s IH]; intros acc n Ha H; cbn in H; [by simplify_eq|].
  destruct (b && Ascii.eqb c "_"); [by eapply IH|]. destruct (digit36 c) as [d|] eqn:Hd; [|done].
  destruct (d <? base); [|done]. eapply IH; [|exact H]. unfold digit36, in_range in Hd.
  repeat case_match; simplify_eq; bprop; nia.
Qed.

Lemma portList_Set_wf l v l' : portList_Set l v = Ok l' ->
  Forall (fun p => 1 <= p <= 65535) l -> Forall (fun p => 1 <= p <= 65535) l'.
Proof.
  unfold portList_Set, ParseUint16. intros H Hl. destruct (TrimSpace v =s? ""); [done|].
  destruct (scan_digits false 10 0 (TrimSpace v)) as [n|] eqn:E; [|done]. cbn -[Z.ltb Z.eqb] in H.
  apply scan_digits_nonneg in E; [|lia..]. destruct (Z.ltb_spec 65535 n); [done|].
  destruct (Z.eqb_spec n 0); [done|]. injection H as <-. apply list.Forall_app. split; [done|].
  repeat constructor; lia.
Qed.

Lemma ParseUint0_range s n : ParseUint0 s = Some n -> 0 <= n.
Proof.
  unfold ParseUint0. intros H.
  destruct (match s with String "0" _ => _ | _ => _ end) as [base body] eqn:E.
  assert (Hb : 0 <= base).
  { revert E. unfold base_prefix. intros E. repeat case_match; simplify_eq; lia. }
  destruct (s =s? ""); [done|]. destruct (scan_digits true base 0 body) as [m|] eqn:Es; [|done].
  apply scan_digits_nonneg in Es; [|lia..]. cbn in H. by case_match; simplify_eq.
Qed.

Lemma ParseInt0_range s n : ParseInt0 s = Some n -> - 2 ^ 63 <= n <= MaxInt.
Proof.
  unfold ParseInt0, MaxInt. intros H.
  destruct (match s with String _ _ => _ | "" => _ end) as [neg body].
  destruct (ParseUint0 body) as [m|] eqn:E; [|done]. apply ParseUint0_range in E. cbn -[Z.pow] in H.
  destruct neg; [destruct (Z.ltb_spec (2 ^ 63) m)|destruct (Z.leb_spec (2 ^ 63) m)]; simplify_eq; lia.
Qed.

Lemma set_value_wf a name f v a' : harnessWrapperFlagSet a name = Some f -> set_value f v = Ok a' ->
  flags_wf a -> flags_wf a'.
Proof.
  unfold flags_wf. destruct a as [tf ts ef mo se ch aa sd pm [k rw ro rt ports ma st pe] hn ha].
  unfold harnessWrapperFlagSet. intros Hf Hs Hw.
  repeat (destruct (_ =s? _) in Hf; [injection Hf as <-; cbn -[ParseInt0 portList_Set ParseBool] in Hs, Hw |- *;
    try (by destruct (ParseBool v); simplify_eq/=); try (by simplify_eq/=)|]); try done.
  - apply bind_Ok in Hs as (ps & Hp & [= <-]). cbn. split; [|apply Hw]. eapply portList_Set_wf; [done|apply Hw].
  - destruct (ParseInt0 v) as [n|] eqn:E; simplify_eq/=. split; [apply Hw|]. by eapply ParseInt0_range.
Qed.

Lemma Parse_inv args : forall a rest a', Parse args a = Ok (rest, a') -> "--" ∉ args -> flags_wf a ->
  flags_wf a' /\ match rest with x :: _ => classify x = NonFlag | [] => True end.
Proof.
  induction args as [args IH] using (induction_ltof1 _ (@length string)). unfold ltof in IH.
  intros a rest a' H Hn Hw. destruct args as [|s args]; cbn -[harnessWrapperFlagSet set_value] in H; [by simplify_eq|].
  assert (Hn' : "--" ∉ args) by (intros ?; by apply Hn, list_elem_of_further).
  destruct (classify s) as [name| | |] eqn:Hc; [| |exfalso|done].
  - destruct (cut_value name) as [nm value]. destruct (harnessWrapperFlagSet a nm) as [f|] eqn:Hf; [|by case_match].
    destruct value as [v|].
    + destruct f; apply bind_Ok in H as (a1 & Hs & H);
        (eapply IH; [| exact H| |]; [cbn; lia|done|by eapply set_value_wf]).
    + destruct f as [set|set|set|set];
        try (destruct args as [|v args]; [done|]; apply bind_Ok in H as (a1 & Hs & H);
             eapply IH; [| exact H| |]; [cbn; lia|by intros ?; apply Hn', list_elem_of_further|by eapply set_value_wf]).
      eapply IH; [|exact H| |]; [cbn; lia|done|]. eapply (set_value_wf _ _ _ "true"); [exact Hf|done|done].
  - by simplify_eq.
  - apply Hn. unfold classify in Hc. repeat case_match; simplify_eq. bprop. subst.
    match goal with E : Ascii.eqb _ _ = true |- _ => apply Ascii.eqb_eq in E as -> end. apply list_elem_of_here.
Qed.

(** ** The separator *)

Lemma split_sep_app pre post : "--" ∉ pre -> split_sep (app pre ("--" :: post)) = Some (pre, post).
Proof.
  induction pre as [|x pre IH]; intros H; [done|]. cbn. destruct (x =s? "--") eqn:E; bprop.
  - subst. exfalso. apply H, list_elem_of_here.
  - rewrite IH; [done|]. intros ?. by apply H, list_elem_of_further.
Qed.

Lemma split_sep_Some l pre post : split_sep l = Some (pre, post) -> "--" ∉ pre.
Proof.
  revert pre. induction l as [|x l IH]; intros pre H; [done|]. cbn in H. destruct (x =s? "--") eqn:E; bprop.
  - simplify_eq. apply not_elem_of_nil.
  - destruct (split_sep l) as [[p q]|]; [|done]. simplify_eq/=. rewrite elem_of_cons.
    intros [Hx|Hp]; [by apply E|]. by apply (IH p).
Qed.

(** Every value the re-exec argv carries before its separator. *)
Definition forwarded (a : harnessWrapperArgs) (tracePath : string) : list string :=
  app [TmuxSession a; tracePath; Effort a; Model a; PermissionMode a; cf_Kind (Contain a); cf_StateDir (Contain a)]
      (app (cf_ReadWrite (Contain a)) (app (cf_ReadOnly (Contain a)) (cf_PassEnv (Contain a)))).

(** The run the child is to parse: the flags of the parent's run, as a child of
    its session, with the resolved trace path. *)
Definition child_args (a : harnessWrapperArgs) (tracePath : string) : harnessWrapperArgs :=
  mkArgs tracePath false (Effort a) (Model a) "" (TmuxSession a) false false (PermissionMode a) (Contain a)
    (HarnessName a) (HarnessArgs a).

(** The argv without its separator and harness arguments. *)
Definition reexec_pre (a : harnessWrapperArgs) (tracePath : string) : list string :=
  app ["--tmux-child"; TmuxSession a; "--trace-file"; tracePath]
    (app (if Effort a =s? "" then [] else ["--effort"; Effort a])
    (app (if Model a =s? "" then [] else ["--model"; Model a])
    (app (if PermissionMode a =s? "" then [] else ["--permission-mode"; PermissionMode a])
    (app (CLIFlags (contain_request (Contain a))) [HarnessName a])))).

Lemma reexec_shape a self tracePath :
  tmuxReexecArgv a self tracePath = self :: app (reexec_pre a tracePath) ("--" :: HarnessArgs a).
Proof.
  unfold tmuxReexecArgv, reexec_pre. rewrite <- !app_assoc.
  by destruct (Effort a =s? ""), (Model a =s? ""), (PermissionMode a =s? ""); cbn; rewrite <- ?app_assoc.
Qed.

Lemma repeated_elem x flag l : x ∈ repeated flag l -> x = flag \/ x ∈ l.
Proof.
  induction l as [|y l IH]; cbn; [by rewrite elem_of_nil|]. rewrite !elem_of_cons.
  intros [->|[->|H]]; auto. destruct (IH H); auto.
Qed.

Lemma CLIFlags_elem x c : x ∈ CLIFlags (contain_request c) -> x = "--" ->
  x = cf_Kind c \/ x = cf_StateDir c \/ x ∈ cf_ReadWrite c \/ x ∈ cf_ReadOnly c \/ x ∈ cf_PassEnv c.
Proof.
  destruct c as [k rw ro rt ports ma st pe]. unfold contain_request. cbn [cf_Kind].
  destruct (k =s? ""); cbn -[repeated Itoa]; [by rewrite elem_of_nil|]. intros Hx ->.
  assert (Hi : forall n, "--" <> Itoa n).
  { intros n E. unfold Itoa in E. rewrite Itoa_int in E. destruct (Z.to_int n) as [d|d];
      destruct (NilZero_head d) as (c & s & Hs & Hm & _); rewrite Hs in E; simplify_eq/=. }
  rewrite !elem_of_cons, !elem_of_app in Hx.
  repeat match goal with H : _ \/ _ |- _ => destruct H as [H|H] | H : _ ∈ repeated _ _ |- _ => apply repeated_elem in H end;
    auto 6; try done.
  - destruct rt; [by apply list_elem_of_singleton in Hx|by apply elem_of_nil in Hx].
  - apply list_elem_of_fmap in Hx as (n & E & _). by apply Hi in E.
  - destruct (negb (ma =? 0)); [|by apply elem_of_nil in Hx].
    rewrite !elem_of_cons, elem_of_nil in Hx. destruct Hx as [E|[E|[]]]; [done|by apply Hi in E].
  - destruct (negb (st =s? "")); [|by apply elem_of_nil in Hx].
    rewrite !elem_of_cons, elem_of_nil in Hx. destruct Hx as [E|[E|[]]]; [done|auto].
Qed.

Lemma parse_Ok in_ a : parseHarnessWrapperArgs in_ = Ok a ->
  flags_wf a /\ classify (HarnessName a) = NonFlag /\ contain_validate (Contain a) = Ok tt.
Proof.
  unfold parseHarnessWrapperArgs. destruct (split_sep in_) as [[pre post]|] eqn:Es; [|done].
  apply split_sep_Some in Es. intros H. apply bind_Ok in H as ([rest b] & Hp & H).
  apply Parse_inv in Hp as [Hw Hh]; [|done|]; [|by unfold flags_wf; cbn; split; [constructor|unfold MaxInt; lia]].
  rewrite !when_Ok in H. destruct H as (_ & _ & _ & H). apply bind_unit in H as [Hv H].
  by destruct rest as [|name [|? ?]]; simplify_eq/=.
Qed.

Lemma contain_validate_none c : contain_validate c = Ok tt -> cf_Kind c = "" -> c = noContain.
Proof.
  unfold contain_validate, contain_any. destruct c as [k rw ro rt ports ma st pe]. cbn. intros H ->.
  apply when_Ok in H as [H _]. cbn in H. bprop.
  destruct rw, ro, rt, ports, pe; try done. by subst.
Qed.

Lemma reexec_pre_sep a tracePath : "--" ∉ forwarded a tracePath -> HarnessName a <> "--" ->
  "--" ∉ reexec_pre a tracePath.
Proof.
  unfold forwarded, reexec_pre. rewrite !elem_of_app, !elem_of_cons, elem_of_nil. intros Hf Hn Hx.
  assert (Ho : forall x f, "--" ∈ (if x =s? "" then [] else [f; x]) -> "--" = f \/ "--" = x).
  { intros x f Hi. destruct (x =s? ""); [by apply elem_of_nil in Hi|].
    rewrite !elem_of_cons, elem_of_nil in Hi. naive_solver. }
  repeat match goal with
  | H : _ \/ _ |- _ => destruct H as [H|H]
  | H : _ ∈ (if _ then _ else _) |- _ => apply Ho in H
  | H : _ ∈ CLIFlags _ |- _ => apply CLIFlags_elem in H; [|done]
  end; try done; try (by apply Hf; auto 12).
Qed.


(** A session named "--" is accepted, and its child's argv does not parse. *)
Theorem session_named_separator self tracePath :
  validSessionName "--" = true /\
  exists a, parseHarnessWrapperArgs ["--tmux-session=--"; "claude"; "--"] = Ok a /\ TmuxSession a = "--" /\
    parseHarnessWrapperArgs (tail (tmuxReexecArgv a self tracePath)) = Err "flag needs an argument".
Proof. split; [reflexivity|]. eexists. split; [reflexivity|]. split; reflexivity. Qed.

(** ** Sandbox defaults *)

(** Applying the defaults twice is applying them once, they touch claude only,
    and for claude the environment then has the sandbox key. *)
Theorem applySandboxDefaults_once h mode args env :
  let '(args1, env1) := applySandboxDefaults h mode args env in
  applySandboxDefaults h mode args1 env1 = (args1, env1) /\
  (h <> Claude -> args1 = args /\ env1 = env) /\
  (h = Claude -> hasEnvKey env1 sandboxEnvKey = true /\
     (IsBypassPermissionMode mode = true \/ hasSkipPermissionsFlag args1 = true)).
Proof.
  assert (Hs : forall l, hasSkipPermissionsFlag (app l [SkipPermissionsFlag]) = true).
  { intros l. unfold hasSkipPermissionsFlag, any. by rewrite existsb_app, orb_true_r. }
  assert (He : forall l, hasEnvKey (app l [sandboxEnvKey ++ "=1"]) sandboxEnvKey = true).
  { intros l. unfold hasEnvKey, any. by rewrite existsb_app, orb_true_r. }
  unfold applySandboxDefaults. destruct (h =s? Claude) eqn:Eh; bprop; cbn [negb].
  2:{ split_and!; naive_solver. }
  destruct (IsBypassPermissionMode mode), (hasSkipPermissionsFlag args) eqn:Ea, (hasEnvKey env sandboxEnvKey) eqn:Ee;
    cbn [negb andb]; rewrite ?Hs, ?He, ?Ea, ?Ee; cbn [negb andb]; split_and!; naive_solver.
Qed.

(** The arguments of an argv that speak about claude's permissions. *)
Definition directives (args : list string) : nat :=
  length (List.filter (fun x => any (fun f => carries f x) claude_axis) args).

Lemma directives_none args : argsContainAnyFlag args claude_axis = false -> directives args = 0%nat.
Proof.
  unfold argsContainAnyFlag, directives. induction args as [|x args IH]; intros H; [done|].
  apply orb_false_iff in H as [Hx H]. cbn [List.filter]. rewrite Hx. by apply IH.
Qed.

Lemma directives_app l1 l2 : directives (app l1 l2) = (directives l1 + directives l2)%nat.
Proof. unfold directives. by rewrite List.filter_app, length_app. Qed.

Lemma norm_claude : normHarness Claude = ClaudeCode.
Proof. by vm_compute. Qed.

Lemma no_skip_flag args : argsContainAnyFlag args claude_axis = false -> hasSkipPermissionsFlag args = false.
Proof.
  intros H. apply (contain_incl _ _ [SkipPermissionsFlag]) in H; [|set_solver].
  unfold argsContainAnyFlag, hasSkipPermissionsFlag in *. rewrite any_false in *. intros x Hx.
  specialize (H x Hx). unfold any in H. cbn [existsb] in H. unfold carries in H.
  rewrite !orb_false_iff in H. apply orb_false_iff. tauto.
Qed.

(** --sandbox-defaults with the default or a bypass permission mode starts
    claude with exactly one permission directive, and at the bypass rung. *)
Theorem sandbox_one_directive in_ a env
  (Hin : parseHarnessWrapperArgs in_ = Ok a) (Hs : SandboxDefaults a = true) (Hh : HarnessName a = Claude)
  (Ha : argsContainAnyFlag (HarnessArgs a) claude_axis = false) :
  let args := (applySandboxDefaults (HarnessName a) (PermissionMode a) (HarnessArgs a) env).1 in
  let argv := argsWithHarnessPermissionMode (HarnessName a) args (PermissionMode a) in
  directives argv = 1%nat /\ EffectiveLaunchRung (HarnessName a) argv (PermissionMode a) = permissionModeBypass.
Proof.
  assert (Hm : PermissionMode a = "" \/ IsBypassPermissionMode (PermissionMode a) = true).
  { unfold parseHarnessWrapperArgs in Hin. destruct (split_sep in_) as [[pre post]|]; [|done].
    apply bind_Ok in Hin as ([rest b] & _ & H). rewrite !when_Ok in H. destruct H as (_ & _ & Hb & H).
    apply bind_unit in H as [_ H]. destruct rest as [|name [|? ?]]; simplify_eq/=. rewrite Hs in Hb.
    destruct (PermissionMode b =s? "") eqn:E; bprop; [by left|right]. destruct Hb as [|Hb]; [done|by bprop]. }
  cbn zeta. rewrite Hh. unfold applySandboxDefaults. cbn [negb String.eqb]. change (Claude =s? Claude) with true.
  cbn [negb fst]. destruct Hm as [Hm|Hm].
  - rewrite Hm. change (IsBypassPermissionMode "") with false. cbn [negb andb].
    rewrite (no_skip_flag _ Ha). cbn [negb]. unfold argsWithHarnessPermissionMode. cbn [String.eqb].
    rewrite directives_app, directives_none by done. split; [done|].
    unfold EffectiveLaunchRung. rewrite norm_claude, contain_app. by rewrite orb_true_r.
  - rewrite Hm. cbn [negb andb]. assert (Hc : PermissionMode a ∈ claude_modes).
    { unfold IsBypassPermissionMode in Hm. bprop. destruct Hm as [Hm|Hm]; bprop; rewrite Hm; set_solver. }
    destruct (claude_injected Claude _ _ norm_claude Hc Ha) as [-> ->]. rewrite directives_app, (directives_none (HarnessArgs a)) by done.
    unfold IsBypassPermissionMode in Hm. bprop. by destruct Hm as [Hm|Hm]; bprop; rewrite Hm.
Qed.

(** ** Witnesses *)

Definition sample_line : list string :=
  ["--tmux-session"; "s1"; "-effort=high"; "--permission-mode"; "plan"; "--contain"; "landlock"; "--contain-rw"; "/w";
   "--contain-restrict-tcp=true"; "--contain-allow-tcp"; " 443 "; "--contain-min-abi=0x9"; "claude"; "--"; "-p"; "--"].


Lemma sandbox_one_directive_witness :
  exists a, parseHarnessWrapperArgs ["--sandbox-defaults"; "claude"; "--"; "-p"] = Ok a /\
    directives (argsWithHarnessPermissionMode (HarnessName a)
      (applySandboxDefaults (HarnessName a) (PermissionMode a) (HarnessArgs a) []).1 (PermissionMode a)) = 1%nat.
Proof.
  eexists. split; [reflexivity|].
  refine (proj1 (sandbox_one_directive ["--sandbox-defaults"; "claude"; "--"; "-p"] _ [] _ _ _ _)); reflexivity.
Defined.
