(* ===== verification/Classifier.v ===== *)
(** Classification of harness output: the escape stripper
    (src/internal/wrapcore/pty.go), the error classes (errorclass.go), the
    pattern primitives (detector/detector.go), and the per-harness and default
    classifiers (harness_adapter.go, classifier.go).

    A harness's APIError and SessionLimit matchers are functions of its pattern
    set, as in the code; the clock a SessionLimit matcher reads is an argument.
    [strings.ToLower] takes the Unicode table above ASCII as [lower_rune]. *)
From Stdlib Require Import ZArith Ascii String Lia.
From stdpp Require Import base tactics list strings option.
From S2P Require Import Prelude GoStr Bytes Json.

#[local] Open Scope string_scope.
#[local] Open Scope Z_scope.

(** ** Statuses and classes *)

Definition StatusIdle : string := "idle".
Definition StatusFailed : string := "failed".
Definition StatusBlockedByCost : string := "blocked_by_cost".
Definition StatusRetryLater : string := "retry_later".
Definition StatusAPIError : string := "api_error".
Definition StatusWaitingForInput : string := "waiting_for_input".
Definition StatusStale : string := "stale".
Definition StatusInterrupted : string := "interrupted".
Definition StatusUnknown : string := "unknown".
Definition StatusBinaryNotFound : string := "binary_not_found".

Inductive ErrorClass :=
| ErrNone | ErrRateLimited | ErrAuth | ErrBilling | ErrModelNotFound | ErrContextOverflow
| ErrTimeout | ErrTransient | ErrUnknown.

#[export] Instance ErrorClass_eq_dec : EqDecision ErrorClass.
Proof. solve_decision. Defined.

Definition ErrorClass_String (c : ErrorClass) : string :=
  match c with
  | ErrNone => "None" | ErrRateLimited => "RateLimited" | ErrAuth => "AuthFailure" | ErrBilling => "BillingError"
  | ErrModelNotFound => "ModelNotFound" | ErrContextOverflow => "ContextOverflow" | ErrTimeout => "Timeout"
  | ErrTransient => "Transient" | ErrUnknown => "Unknown"
  end.

Definition classFromHTTPCode (code : Z) : ErrorClass :=
  if code =? 401 then ErrAuth else if code =? 402 then ErrBilling else if code =? 404 then ErrModelNotFound
  else if code =? 429 then ErrRateLimited
  else if (code =? 408) || ((500 <=? code) && (code <=? 599)) then ErrTransient
  else if code =? 0 then ErrTransient
  else ErrUnknown.

(** [resume_at] is in nanoseconds, 0 for the zero time. *)
Record Classification := mkClassification {
  Status : string; Class_ : ErrorClass; Reason : string; Terminal : bool;
  HTTPCode : Z; RetryAfter : Z; ResumeAt : Z; Rule : string; Match_ : string }.

Definition noClassification : Classification := mkClassification "" ErrNone "" false 0 0 0 "" "".

Record ClassifierInput := mkInput {
  RecentOutput : string; SinceLastOutput : Z; Quiet : bool; Idle : bool }.

(** ** Terminal escapes *)

Definition ctlBEL : Z := 7.
Definition ctlCAN : Z := 24.
Definition ctlESC : Z := 27.
Definition ctlSUB : Z := 26.
Definition ctlDEL : Z := 127.

Inductive escState := escGround | escStart | escInter | escCSI | escString | escStringE.

(** The next state, and whether the byte is text. *)
Definition stepEscape (state : escState) (c : ascii) : escState * bool :=
  let b := code c in
  if b =? ctlESC then (escStart, false)
  else if (b =? ctlCAN) || (b =? ctlSUB) then (escGround, false)
  else if b =? ctlDEL then (state, false)
  else if b <? 32 then (state, true)
  else if 128 <=? b then (escGround, true)
  else match state with
    | escStart =>
      if Ascii.eqb c "[" then (escCSI, false)
      else if Ascii.eqb c "]" || Ascii.eqb c "P" || Ascii.eqb c "X" || Ascii.eqb c "^" || Ascii.eqb c "_"
      then (escString, false)
      else if b <=? 47 then (escInter, false) else (escGround, false)
    | escInter => if b <=? 47 then (escInter, false) else (escGround, false)
    | _ => if b <=? 63 then (escCSI, false) else (escGround, false)
    end.

Definition is_string (st : escState) : bool := match st with escString => true | _ => false end.

(** One byte of the loop; [belEnds] is set for an OSC, which BEL also ends. A
    byte other than a backslash after ESC inside a string is the first byte of
    the sequence that ESC began. *)
Definition strip_step (state : escState) (belEnds : bool) (c : ascii) : escState * bool * bool :=
  let escape st :=
    let '(next, text) := stepEscape st c in
    (next, if is_string next then Ascii.eqb c "]" else belEnds, text) in
  match state with
  | escGround => if code c =? ctlESC then (escStart, belEnds, false) else (escGround, belEnds, true)
  | escString =>
    if code c =? ctlESC then (escStringE, belEnds, false)
    else if (code c =? ctlCAN) || (code c =? ctlSUB) || ((code c =? ctlBEL) && belEnds)
    then (escGround, belEnds, false)
    else (escString, belEnds, false)
  | escStringE => if Ascii.eqb c "\" then (escGround, belEnds, false) else escape escStart
  | _ => escape state
  end.

Fixpoint strip_loop (state : escState) (belEnds : bool) (s : list ascii) : list ascii :=
  match s with
  | [] => []
  | c :: s =>
    let '(next, bel, text) := strip_step state belEnds c in
    if text then c :: strip_loop next bel s else strip_loop next bel s
  end.

Definition stripANSIEscapes (s : string) : string :=
  str (strip_loop escGround false (list_ascii_of_string s)).

(** ** Lower case *)

(** [utf8.EncodeRune]. *)
Definition encode_rune (r : Z) : list Z :=
  if r <? 128 then [r]
  else if r <? 2048 then [192 + r / 64; 128 + r mod 64]
  else if r <? 65536 then [224 + r / 4096; 128 + r / 64 mod 64; 128 + r mod 64]
  else [240 + r / 262144; 128 + r / 4096 mod 64; 128 + r / 64 mod 64; 128 + r mod 64].

Section Classifiers.
(** [unicode.ToLower] above ASCII. *)
Variable lower_rune : Z -> Z.

(** [strings.ToLower]: bytes of an ASCII string; else the runes, a byte that is
    no UTF-8 becoming the replacement character. *)
Definition ToLower_ (s : string) : string :=
  if forallb (fun b => b <? 128) (bytes s) then ToLower s
  else string_of_bytes (flat_map (fun r =>
    encode_rune (if r <? 128 then (if in_range 65 90 r then r + 32 else r) else lower_rune r)) (runes s)).

(** ** Pattern primitives *)

Fixpoint MatchAny (haystack : string) (patterns : list string) : string :=
  match patterns with
  | [] => ""
  | p :: ps => if p =s? "" then MatchAny haystack ps
               else if Contains haystack p then p else MatchAny haystack ps
  end.

Definition is_blank (c : ascii) : bool :=
  Ascii.eqb c nl || Ascii.eqb c cr || Ascii.eqb c " " || Ascii.eqb c "009".

(** Cut from the end of [s], reversed, while [f] holds. *)
Fixpoint drop_while (f : ascii -> bool) (l : list ascii) : list ascii :=
  match l with c :: l' => if f c then drop_while f l' else l | [] => [] end.
Fixpoint take_while (f : ascii -> bool) (l : list ascii) : list ascii :=
  match l with c :: l' => if f c then c :: take_while f l' else [] | [] => [] end.

(** The trailing non-empty line, without the blanks after it. The first round
    of the code's loop decides: once the trailing blanks and newlines are
    cut, what is left is empty or ends in a line that is not. *)
Definition lastNonEmptyLine (s : string) : string :=
  let r := drop_while is_blank (rev (list_ascii_of_string s)) in
  str (rev (take_while (fun c => negb (Ascii.eqb c nl)) r)).

Definition HasSuffix (s suf : string) : bool :=
  let n := (String.length s - String.length suf)%nat in
  (String.length suf <=? String.length s)%nat && (String.substring n (String.length suf) s =s? suf).

(** [strings.TrimRight(s, " \t")]. *)
Definition TrimRightBlank (s : string) : string :=
  str (rev (drop_while (fun c => Ascii.eqb c " " || Ascii.eqb c "009") (rev (list_ascii_of_string s)))).

Fixpoint first_suffix (tail : string) (patterns : list string) : string :=
  match patterns with
  | [] => ""
  | p :: ps => if p =s? "" then first_suffix tail ps
               else if HasSuffix tail (ToLower_ p) then p else first_suffix tail ps
  end.

Definition MatchPromptSuffix (haystack : string) (patterns : list string) : string :=
  let tail := lastNonEmptyLine haystack in
  if tail =s? "" then "" else first_suffix (ToLower_ (TrimRightBlank tail)) patterns.

(** ** Classes of phrases *)

Definition billingHints : list string := ["payment"; "insufficient"; "credit"; "billing"; "quota exceeded"].
Definition costClass (hit : string) : ErrorClass :=
  if any (Contains (ToLower_ hit)) billingHints then ErrBilling else ErrRateLimited.

Definition timeoutHints : list string := ["timeout"; "timed out"; "deadline exceeded"; "etimedout"].
Definition retryClass (hit : string) : ErrorClass :=
  if any (Contains (ToLower_ hit)) timeoutHints then ErrTimeout else ErrTransient.

Definition transportRetryPatterns : list string :=
  ["connection refused"; "econnrefused"; "connection reset"; "econnreset"; "no route to host"; "ehostunreach";
   "network is unreachable"; "fetch failed"; "socket hang up"; "eai_again"].

Definition terminal (status : string) (class : ErrorClass) (hit : string) : Classification :=
  mkClassification status class hit true 0 0 0 "" "".

Definition matchTransportRetry (lower : string) : option Classification :=
  let hit := MatchAny lower transportRetryPatterns in
  if hit =s? "" then None else Some (terminal StatusRetryLater (retryClass hit) hit).

Definition costPatterns : list string :=
  ["blocked by cost"; "cost limit"; "quota exceeded"; "rate limit"; "rate-limit"; "usage limit"; "session limit";
   "you've hit your limit"; "you have hit your limit"; "you've hit your session limit";
   "you have hit your session limit"; "limit resets"; "resets at"; "extra usage"].

Definition isCostOrQuotaLimited (output : string) : option string :=
  let normalized := ToLower_ (stripANSIEscapes output) in
  List.find (Contains normalized) costPatterns.

Definition defaultClassify (input : ClassifierInput) : Classification :=
  if negb (Idle input) then noClassification
  else match isCostOrQuotaLimited (RecentOutput input) with
    | Some phrase => terminal StatusBlockedByCost (costClass phrase) phrase
    | None => default noClassification (matchTransportRetry (ToLower_ (stripANSIEscapes (RecentOutput input))))
    end.

(** ** Per-harness patterns *)

Record APIErrorHit := mkAPIErrorHit { ah_Code : Z; ah_Message : string; ah_RetryAfter : Z }.
Record SessionLimitHit := mkSessionLimitHit { sl_Message : string; sl_ResumeAt : Z }.

(** A nil matcher is [None]. *)
Record Patterns := mkPatterns {
  Cost : list string; Retry : list string; Prompt : list string;
  APIError : option (string -> option APIErrorHit);
  SessionLimit : option (string -> Z -> option SessionLimitHit) }.

(** [RFC3339] prints a time. *)
Variable RFC3339 : Z -> string.

Definition formatAPIErrorReason (hit : APIErrorHit) : string :=
  if ah_Code hit =? 0 then "api error: " ++ ah_Message hit
  else "api error " ++ Itoa (ah_Code hit) ++ ": " ++ ah_Message hit.

Definition formatSessionLimitReason (hit : SessionLimitHit) : string :=
  if sl_ResumeAt hit =? 0 then "session limit reached: " ++ sl_Message hit
  else "session limit reached, resumes at " ++ RFC3339 (sl_ResumeAt hit) ++ ": " ++ sl_Message hit.

(** [s[i:i+n]], and [s[i:]]. *)
Definition slice (s : string) (i n : nat) : string := String.substring i n s.
Definition from (s : string) (i : nat) : string := String.substring i (String.length s - i) s.

(** s and sub have the same length. *)
Fixpoint equalFoldASCII (s sub : string) : bool :=
  match s, sub with
  | String c s, String d sub => Ascii.eqb (lower_byte c) d && equalFoldASCII s sub
  | _, _ => true
  end.

(** The loop of lastIndexFoldASCII from index [i] down. *)
Fixpoint last_fold (s sub : string) (i : nat) : option nat :=
  if equalFoldASCII (slice s i (String.length sub)) sub then Some i
  else match i with O => None | S i => last_fold s sub i end.

Definition lastIndexFoldASCII (s sub : string) : option nat :=
  if (String.length sub <=? String.length s)%nat
  then last_fold s sub (String.length s - String.length sub) else None.

Definition apiErrorAfter (h : Patterns) (stripped costHit : string) : bool :=
  match APIError h with
  | None => false
  | Some m =>
    match lastIndexFoldASCII stripped costHit with
    | None => false
    | Some i => negb (is_none (m (from stripped (i + String.length costHit))))
    end
  end.

Definition classifyRetry (h : Patterns) (lower : string) : option Classification :=
  let hit := MatchAny lower (Retry h) in
  if negb (hit =s? "") then Some (terminal StatusRetryLater (retryClass hit) hit) else matchTransportRetry lower.

Definition classifySessionLimit (h : Patterns) (now : Z) (stripped : string) : option Classification :=
  match SessionLimit h with
  | None => None
  | Some m => hit ← m stripped now;
              Some (mkClassification StatusBlockedByCost ErrRateLimited (formatSessionLimitReason hit) true
                      0 0 (sl_ResumeAt hit) "" "")
  end.

Definition classifyCost (h : Patterns) (stripped lower : string) : option Classification :=
  let hit := MatchAny lower (Cost h) in
  if negb (hit =s? "") && negb (apiErrorAfter h stripped hit)
  then Some (terminal StatusBlockedByCost (costClass hit) hit) else None.

Definition classifyAPIError (h : Patterns) (stripped : string) : option Classification :=
  match APIError h with
  | None => None
  | Some m => hit ← m stripped;
              Some (mkClassification StatusAPIError (classFromHTTPCode (ah_Code hit)) (formatAPIErrorReason hit) false
                      (ah_Code hit) (ah_RetryAfter hit) 0 "" "")
  end.

Definition classifyPrompt (h : Patterns) (stripped : string) : option Classification :=
  let hit := MatchPromptSuffix stripped (Prompt h) in
  if hit =s? "" then None
  else Some (mkClassification StatusWaitingForInput ErrNone ("prompt detected: " ++ hit) false 0 0 0 "" "").

(** [gate b o]: the check [o] runs only when [b]. *)
Definition gate {A} (b : bool) (o : option A) : option A := if b then o else None.
Definition orelse {A} (o o' : option A) : option A := match o with Some _ => o | None => o' end.

Definition harnessClassify (h : Patterns) (now : Z) (input : ClassifierInput) : Classification :=
  let stripped := stripANSIEscapes (RecentOutput input) in
  let lower := ToLower_ stripped in
  default noClassification
    (orelse (classifySessionLimit h now stripped)
    (orelse (gate (Idle input) (classifyCost h stripped lower))
    (orelse (classifyAPIError h stripped)
    (orelse (gate (Idle input) (classifyRetry h lower))
            (gate (Quiet input) (classifyPrompt h stripped)))))).
End Classifiers.
