(* ===== verification/ClassifierProps.v ===== *)
(** What classification promises: the stripper removes exactly the control
    sequences, and a verdict's status, class and terminal flag agree. *)
From Stdlib Require Import ZArith Ascii String Lia.
From stdpp Require Import base tactics list strings option.
From S2P Require Import Prelude GoStr Bytes Json Classifier.

#[local] Open Scope string_scope.
#[local] Open Scope Z_scope.

(** ** The grammar of terminal output *)

Definition ESC : ascii := ascii_of_N 27.
Definition BEL : ascii := ascii_of_N 7.

(** Text, the control sequences xterm parses, and how they end. *)
Inductive token :=
| Text (t : list ascii)
| CSI (params : list ascii) (final : ascii)             (** ESC [ parameters and intermediates, final *)
| OSC (payload : list ascii) (bel : bool)               (** ESC ], ended by BEL or ST *)
| Str (kind : ascii) (payload : list ascii)             (** ESC P, X, ^ or _, ended by ST *)
| Esc2 (inters : list ascii) (final : ascii).           (** ESC intermediates final *)

Definition ST : list ascii := [ESC; "\"%char].

Definition render (t : token) : list ascii :=
  match t with
  | Text t => t
  | CSI ps f => app [ESC; "["%char] (app ps [f])
  | OSC p bel => app [ESC; "]"%char] (app p (if bel then [BEL] else ST))
  | Str k p => app [ESC; k] (app p ST)
  | Esc2 is_ f => ESC :: app is_ [f]
  end.

Definition text_of (t : token) : list ascii := match t with Text t => t | _ => [] end.

(** The payload of a control string: nothing that ends or cancels it. *)
Definition payload_byte (bel : bool) (c : ascii) : bool :=
  negb ((code c =? ctlESC) || (code c =? ctlCAN) || (code c =? ctlSUB) || ((code c =? ctlBEL) && bel)).

Definition string_kind (c : ascii) : bool :=
  Ascii.eqb c "P" || Ascii.eqb c "X" || Ascii.eqb c "^" || Ascii.eqb c "_".

Definition well_formed (t : token) : bool :=
  match t with
  | Text t => forallb (fun c => negb (code c =? ctlESC)) t
  | CSI ps f => forallb (fun c => in_range 32 63 (code c)) ps && in_range 64 126 (code f)
  | OSC p _ => forallb (payload_byte true) p
  | Str k p => string_kind k && forallb (payload_byte false) p
  | Esc2 is_ f => forallb (fun c => in_range 32 47 (code c)) is_ && in_range 48 126 (code f)
      && (negb (is_nil is_) || negb (string_kind f || Ascii.eqb f "[" || Ascii.eqb f "]"))
  end.

(** ** Running the stripper *)

(** The state after reading [s], and the text written meanwhile. *)
Fixpoint strip_run (st : escState) (bel : bool) (s : list ascii) : escState * bool * list ascii :=
  match s with
  | [] => (st, bel, [])
  | c :: s =>
    let '(st1, bel1, text) := strip_step st bel c in
    let '(st2, bel2, out) := strip_run st1 bel1 s in (st2, bel2, if text then c :: out else out)
  end.

Lemma strip_loop_run st bel s : strip_loop st bel s = (strip_run st bel s).2.
Proof.
  revert st bel. induction s as [|c s IH]; intros st bel; [done|]. cbn.
  destruct (strip_step st bel c) as [[st1 bel1] text]. rewrite IH.
  by destruct (strip_run st1 bel1 s) as [[? ?] ?], text.
Qed.

Lemma strip_run_app st bel a b :
  strip_run st bel (app a b) =
    let '(st1, bel1, out1) := strip_run st bel a in
    let '(st2, bel2, out2) := strip_run st1 bel1 b in (st2, bel2, app out1 out2).
Proof.
  revert st bel. induction a as [|c a IH]; intros st bel; cbn; [by destruct (strip_run st bel b) as [[? ?] ?]|].
  destruct (strip_step st bel c) as [[st1 bel1] text]. rewrite IH.
  destruct (strip_run st1 bel1 a) as [[st2 bel2] out]. destruct (strip_run st2 bel2 b) as [[? ?] ?]. by destruct text.
Qed.

Lemma run_skip st bel c s st1 bel1 : strip_step st bel c = (st1, bel1, false) ->
  strip_run st bel (c :: s) = strip_run st1 bel1 s.
Proof. intros H. cbn [strip_run]. rewrite H. by destruct (strip_run st1 bel1 s) as [[? ?] ?]. Qed.

(** A run of bytes that leaves a state where it is and writes nothing. *)
Lemma strip_run_loop (P : ascii -> bool) st bel s :
  (forall c, P c = true -> strip_step st bel c = (st, bel, false)) -> forallb P s = true ->
  strip_run st bel s = (st, bel, []).
Proof.
  intros HP. induction s as [|c s IH]; intros H; [done|]. cbn in *. bprop. rewrite HP by done. by rewrite IH.
Qed.

(** Bytes by their code: decide a fact about every byte of a range by running
    it on all of them. *)
Lemma byte_cases (P : ascii -> bool) (c : ascii) :
  forallb (fun n => P (ascii_of_nat n)) (seq 0 256) = true -> P c = true.
Proof.
  intros H. rewrite forallb_elem in H. rewrite <- (ascii_nat_embedding c). apply H.
  apply elem_of_seq. pose proof (nat_ascii_bounded c). lia.
Qed.

Lemma byte_imp (P Q : ascii -> bool) c :
  forallb (fun n => implb (P (ascii_of_nat n)) (Q (ascii_of_nat n))) (seq 0 256) = true ->
  P c = true -> Q c = true.
Proof. intros H HP. apply (byte_cases (fun c => implb (P c) (Q c)) c) in H. by rewrite HP in H. Qed.

Definition same_step (r : escState * bool * bool) (st : escState) (bel text : bool) : bool :=
  let '(st1, bel1, text1) := r in
  match st1, st with
  | escGround, escGround | escStart, escStart | escInter, escInter | escCSI, escCSI
  | escString, escString | escStringE, escStringE => eqb bel1 bel && eqb text1 text
  | _, _ => false
  end.

Lemma same_step_eq r st bel text : same_step r st bel text = true -> r = (st, bel, text).
Proof.
  destruct r as [[st1 bel1] text1]. unfold same_step.
  destruct st1, st; try done; intros H; bprop; by repeat match goal with H : eqb _ _ = true |- _ => apply eqb_prop in H end; subst.
Qed.

(** [on_bytes P st bel st' text]: every byte of [P] takes [st] to [st']. *)
Ltac on_bytes P c H :=
  apply same_step_eq;
  match goal with |- same_step (strip_step ?st ?b c) ?st' ?b' ?t = true =>
    apply (byte_imp P (fun c => same_step (strip_step st b c) st' b' t) c); [by vm_compute|exact H]
  end.

Lemma step_params bel c : in_range 32 63 (code c) = true -> strip_step escCSI bel c = (escCSI, bel, false).
Proof. intros H. destruct bel; on_bytes (fun c => in_range 32 63 (code c)) c H. Qed.

Lemma step_final bel c : in_range 64 126 (code c) = true -> strip_step escCSI bel c = (escGround, bel, false).
Proof. intros H. destruct bel; on_bytes (fun c => in_range 64 126 (code c)) c H. Qed.

Lemma step_inters bel c : in_range 32 47 (code c) = true -> strip_step escInter bel c = (escInter, bel, false).
Proof. intros H. destruct bel; on_bytes (fun c => in_range 32 47 (code c)) c H. Qed.

Lemma step_inter_first bel c : in_range 32 47 (code c) = true -> strip_step escStart bel c = (escInter, bel, false).
Proof. intros H. destruct bel; on_bytes (fun c => in_range 32 47 (code c)) c H. Qed.

Lemma step_inter_final bel c : in_range 48 126 (code c) = true -> strip_step escInter bel c = (escGround, bel, false).
Proof. intros H. destruct bel; on_bytes (fun c => in_range 48 126 (code c)) c H. Qed.

Definition lone_final (c : ascii) : bool :=
  in_range 48 126 (code c) && negb (string_kind c || Ascii.eqb c "[" || Ascii.eqb c "]").

Lemma step_lone_final bel c : lone_final c = true -> strip_step escStart bel c = (escGround, bel, false).
Proof. intros H. destruct bel; on_bytes lone_final c H. Qed.

Lemma step_payload bel c : payload_byte bel c = true -> strip_step escString bel c = (escString, bel, false).
Proof. intros H. destruct bel; [on_bytes (payload_byte true) c H|on_bytes (payload_byte false) c H]. Qed.

Lemma step_kind bel c : string_kind c = true -> strip_step escStart bel c = (escString, false, false).
Proof. intros H. destruct bel; on_bytes string_kind c H. Qed.

Lemma run_text bel t : forallb (fun c => negb (code c =? ctlESC)) t = true -> strip_run escGround bel t = (escGround, bel, t).
Proof.
  induction t as [|c t IH]; intros H; [done|]. cbn [forallb] in H.
  apply andb_true_iff in H as [Hc H]. apply negb_true_iff in Hc.
  cbn [strip_run strip_step]. rewrite Hc. cbn iota beta. by rewrite IH.
Qed.

(** A whole sequence leaves the stripper where it was and writes its text. *)
Lemma run_token bel t : well_formed t = true ->
  exists bel', strip_run escGround bel (render t) = (escGround, bel', text_of t).
Proof.
  destruct t as [t|ps f|p b|k p|is_ f]; cbn [well_formed render text_of]; intros H.
  - exists bel. by apply run_text.
  - bprop. exists bel. cbn [app]. rewrite (run_skip _ bel _ _ escStart bel), (run_skip _ bel _ _ escCSI bel) by done.
    rewrite strip_run_app, (strip_run_loop (fun c => in_range 32 63 (code c))); [|apply step_params|done].
    cbn [strip_run]. by rewrite step_final.
  - exists true. cbn [app]. rewrite (run_skip _ bel _ _ escStart bel), (run_skip _ bel _ _ escString true) by done.
    rewrite strip_run_app, (strip_run_loop (payload_byte true)); [|apply step_payload|done]. by destruct b.
  - bprop. exists false. cbn [app]. rewrite (run_skip _ bel _ _ escStart bel) by done.
    rewrite (run_skip _ bel _ _ escString false) by by apply step_kind.
    rewrite strip_run_app, (strip_run_loop (payload_byte false)); [done|apply step_payload|done].
  - rewrite !andb_true_iff in H. destruct H as [[Hi Hf] Hk]. exists bel.
    rewrite (run_skip _ bel _ _ escStart bel) by done.
    destruct is_ as [|i is_]; cbn [app is_nil negb orb] in *.
    + rewrite (run_skip _ bel _ _ escGround bel); [done|]. apply step_lone_final. unfold lone_final. by rewrite Hf.
    + cbn [forallb] in Hi. bprop. rewrite (run_skip _ bel _ _ escInter bel) by by apply step_inter_first.
      rewrite strip_run_app, (strip_run_loop (fun c => in_range 32 47 (code c))); [|apply step_inters|done].
      cbn [strip_run]. by rewrite step_inter_final.
Qed.

Lemma run_tokens ts : forall bel, forallb well_formed ts = true ->
  exists bel', strip_run escGround bel (flat_map render ts) = (escGround, bel', flat_map text_of ts).
Proof.
  induction ts as [|t ts IH]; intros bel H; [by exists bel|]. cbn [forallb] in H. bprop. cbn [flat_map].
  destruct (run_token bel t) as [b1 E1]; [done|]. destruct (IH b1) as [b2 E2]; [done|]. exists b2.
  rewrite strip_run_app, E1. by rewrite E2.
Qed.

(** Outside a control string it does not matter how the last one could end. *)
Lemma stepEscape_next st c : st <> escStringE -> (stepEscape st c).1 <> escStringE.
Proof. intros H. unfold stepEscape. destruct st; by repeat case_match. Qed.

Lemma run_bel s : forall st b b', st <> escString -> st <> escStringE ->
  (strip_run st b s).2 = (strip_run st b' s).2.
Proof.
  induction s as [|c s IH]; intros st b b' H1 H2; [done|]. cbn [strip_run].
  assert (Hstep : exists next text b1 b1', strip_step st b c = (next, b1, text) /\
    strip_step st b' c = (next, b1', text) /\ next <> escStringE /\ (next = escString -> b1 = b1')).
  { pose proof (stepEscape_next st c H2) as Hn. unfold strip_step.
    destruct st; try done; [destruct (code c =? ctlESC); by eexists _, _, _, _|..];
      destruct (stepEscape _ c) as [next text]; exists next, text; eexists _, _;
      (split; [done|split; [done|split; [done|by intros ->]]]). }
  destruct Hstep as (next & text & b1 & b1' & -> & -> & Hn & Hb).
  assert (Hs : (strip_run next b1 s).2 = (strip_run next b1' s).2).
  { destruct next; try (by apply IH); by rewrite Hb. }
  destruct (strip_run next b1 s) as [[? ?] ?], (strip_run next b1' s) as [[? ?] ?]. cbn in *. by rewrite Hs.
Qed.

Lemma str_app a b : str (app a b) = (str a ++ str b)%string.
Proof. unfold str. induction a as [|c a IH]; [done|]. cbn. by rewrite IH. Qed.

(** The stripper removes exactly the control sequences: of any output made of
    text and whole sequences it keeps the text, and what is written after such
    an output is stripped as if it stood alone. *)
Theorem strip_keeps_text ts s (Hts : forallb well_formed ts = true) :
  stripANSIEscapes (str (app (flat_map render ts) (list_ascii_of_string s)))
  = (str (flat_map text_of ts) ++ stripANSIEscapes s)%string.
Proof.
  unfold stripANSIEscapes, str. rewrite list_ascii_of_string_of_list_ascii, !strip_loop_run, strip_run_app.
  destruct (run_tokens ts false Hts) as [bel ->].
  rewrite (run_bel _ escGround false bel) by done.
  destruct (strip_run escGround bel (list_ascii_of_string s)) as [[? ?] out]. apply str_app.
Qed.

(** ** Stripped output is text *)

Lemma step_text st bel c : (strip_step st bel c).2 = true -> (code c =? ctlESC) = false.
Proof.
  intros H. apply negb_true_iff. revert H.
  apply (byte_imp (fun c => (strip_step st bel c).2) (fun c => negb (code c =? ctlESC))).
  destruct st, bel; by vm_compute.
Qed.

Lemma run_no_esc s : forall st bel, forallb (fun c => negb (code c =? ctlESC)) (strip_run st bel s).2 = true.
Proof.
  induction s as [|c s IH]; intros st bel; [done|]. cbn [strip_run].
  pose proof (step_text st bel c) as Ht. destruct (strip_step st bel c) as [[st1 bel1] text].
  specialize (IH st1 bel1). destruct (strip_run st1 bel1 s) as [[? ?] out]. cbn in *.
  destruct text; [|done]. cbn. by rewrite Ht.
Qed.

(** Stripping what was stripped changes nothing. *)
Theorem strip_idempotent s : stripANSIEscapes (stripANSIEscapes s) = stripANSIEscapes s.
Proof.
  unfold stripANSIEscapes, str. rewrite list_ascii_of_string_of_list_ascii, !strip_loop_run.
  by rewrite (run_text false _ (run_no_esc _ _ _)).
Qed.

(** ** Verdicts *)

Section Verdicts.
Context (lower_rune : Z -> Z) (RFC3339 : Z -> string).

(** What a verdict says is coherent: it ends the run exactly when its status is
    blocked_by_cost or retry_later; a prompt and no verdict carry no error
    class, and every other verdict carries one; only an API error carries an
    HTTP code. *)
Definition coherent (c : Classification) : Prop :=
  (Terminal c = true <-> Status c = StatusBlockedByCost \/ Status c = StatusRetryLater) /\
  (Class_ c = ErrNone <-> Status c = "" \/ Status c = StatusWaitingForInput) /\
  (HTTPCode c <> 0 -> Status c = StatusAPIError) /\
  Status c ∈ [""; StatusBlockedByCost; StatusRetryLater; StatusAPIError; StatusWaitingForInput].

Lemma classFromHTTPCode_error code : classFromHTTPCode code <> ErrNone.
Proof. unfold classFromHTTPCode. by repeat case_match. Qed.

Lemma costClass_error hit : costClass lower_rune hit <> ErrNone.
Proof. unfold costClass. by case_match. Qed.

Lemma retryClass_error hit : retryClass lower_rune hit <> ErrNone.
Proof. unfold retryClass. by case_match. Qed.

Hint Resolve classFromHTTPCode_error costClass_error retryClass_error : hw.

Ltac solve_coherent :=
  unfold coherent; cbn [Terminal Status Class_ HTTPCode terminal]; split_and!;
  [naive_solver|split; [intros E; exfalso; revert E; first [done|apply classFromHTTPCode_error]|naive_solver]|naive_solver|
   repeat (apply elem_of_cons; first [by left|right])].

Lemma terminal_coherent status class hit :
  status = StatusBlockedByCost \/ status = StatusRetryLater -> class <> ErrNone -> coherent (terminal status class hit).
Proof. intros [-> | ->] Hc; solve_coherent. Qed.

Definition all_coherent (o : option Classification) : Prop := forall c, o = Some c -> coherent c.

Lemma orelse_coherent o o' : all_coherent o -> all_coherent o' -> all_coherent (orelse o o').
Proof. destruct o; [done|]. by intros _ H. Qed.

Lemma gate_coherent b o : all_coherent o -> all_coherent (gate b o).
Proof. by destruct b. Qed.

Lemma matchTransportRetry_coherent lower : all_coherent (matchTransportRetry lower_rune lower).
Proof.
  unfold matchTransportRetry. intros c H. case_match; simplify_eq. apply terminal_coherent; [auto|auto with hw].
Qed.

Lemma none_coherent : coherent noClassification.
Proof. unfold coherent; cbn; split_and!; try naive_solver. by apply elem_of_cons; left. Qed.

Lemma default_coherent o : all_coherent o -> coherent (default noClassification o).
Proof. destruct o; [by intros H; apply H|intros _; apply none_coherent]. Qed.

(** Every verdict of a per-harness pattern set, whatever its patterns and
    matchers, and of the default classifier is coherent. *)
Theorem verdict_coherent h now input :
  coherent (harnessClassify lower_rune RFC3339 h now input) /\ coherent (defaultClassify lower_rune input).
Proof.
  split.
  - unfold harnessClassify. apply default_coherent.
    repeat apply orelse_coherent; try apply gate_coherent; intros c H.
    + unfold classifySessionLimit in H. destruct (SessionLimit h) as [m|]; [|done].
      destruct (m _ now) as [hit|]; simplify_eq/=. solve_coherent.
    + unfold classifyCost in H. case_match; simplify_eq. apply terminal_coherent; [auto|auto with hw].
    + unfold classifyAPIError in H. destruct (APIError h) as [m|]; [|done].
      destruct (m _) as [hit|]; simplify_eq/=. solve_coherent.
    + unfold classifyRetry in H. case_match; simplify_eq; [|by eapply matchTransportRetry_coherent].
      apply terminal_coherent; [auto|auto with hw].
    + unfold classifyPrompt in H. case_match; simplify_eq.
      unfold coherent; cbn; split_and!; try naive_solver. repeat (apply elem_of_cons; first [by left|right]).
  - unfold defaultClassify. destruct (negb (Idle input)); [apply none_coherent|].
    destruct (isCostOrQuotaLimited _ _); [apply terminal_coherent; [auto|auto with hw]|].
    apply default_coherent, matchTransportRetry_coherent.
Qed.
End Verdicts.

(** ** Witness *)

Lemma strip_keeps_text_witness :
  stripANSIEscapes (str (app (flat_map render [CSI ["3"%char; "1"%char] "m"%char; Text ["o"%char; "k"%char]; OSC ["0"%char; ";"%char; "t"%char] true])
    (list_ascii_of_string " done"))) = "ok done"%string.
Proof.
  refine (strip_keeps_text [CSI ["3"%char; "1"%char] "m"%char; Text ["o"%char; "k"%char]; OSC ["0"%char; ";"%char; "t"%char] true] " done" _).
  vm_compute. reflexivity.
Defined.
