(* ===== verification/Supervisor.v ===== *)
(** The supervision of a running harness (src/internal/wrapcore/session.go):
    the polling classifier goroutine, the supervisor goroutine, the output
    reader, and how a run's Result is decided, as a step system over the state
    they share.

    A [world] is the session's shared state with the program point of each
    goroutine; [step a w] is one atomic action of one of them, [None] where
    the action is not enabled. A classifier tick is two actions, since output
    may arrive between its look at the activity counters and its read of the
    output; reading a chunk of output is two actions, its time stamp and its
    write. A status change is one action with the event it emits. Signals to
    the process group, traces and the delivery of events to readers are left
    out: [events] are the events emitted, in order. The Classifier is a
    parameter; it answers [None] where it panics. *)
From Stdlib Require Import ZArith Ascii String Lia.
From stdpp Require Import base tactics list strings option.
From S2P Require Import Prelude GoStr Bytes Json Streams Classifier.

#[local] Open Scope string_scope.
#[local] Open Scope Z_scope.

(** ** Data *)

(** The configuration the supervision reads. *)
Record Config := mkConfig {
  IdleQuiet : Z; IdleClassify : Z; StaleThreshold : Z; KeepAliveOnClassification : bool }.

(** The hand-off between the classifier and the supervisor. *)
Record classification := mkInternal {
  status : string; class : ErrorClass; reason : string; terminal : bool; httpCode : Z; retryAfter : Z;
  resumeAt : Z; mark : Z; clear : bool }.

Definition toInternalClassification (c : Classification) : classification :=
  mkInternal (Status c) (Class_ c) (Reason c) (Terminal c) (HTTPCode c) (RetryAfter c) (ResumeAt c) 0 false.

Definition with_mark (m : Z) (c : classification) : classification :=
  mkInternal (status c) (class c) (reason c) (terminal c) (httpCode c) (retryAfter c) (resumeAt c) m (clear c).

Definition clearing : classification := mkInternal "" ErrNone "" false 0 0 0 0 true.

Record SessionEvent := mkEvent {
  ev_Status : string; ev_Class : ErrorClass; ev_Reason : string; ev_Terminated : bool;
  ev_HTTPCode : Z; ev_RetryAfter : Z; ev_ResumeAt : Z }.

Record classifierState := mkClassifierState {
  lastSeen : Z; staleEmitted : bool; dispatched : bool; st_mark : Z; passedThrough : Z; quietPassed : bool }.

(** Where the classifier goroutine is: between ticks, between the two halves of
    a tick, blocked handing over a result, or returned. *)
Inductive classifierAt :=
| CIdle
| CPass (sinceLast : Z) (quiet idle newOutput : bool)
| CHand (c : classification)
| CDone.

Record superviseOutcome := mkOutcome {
  terminalClassDone : option classification; stopRequested : bool; failed : bool;
  lastErrClass : ErrorClass; lastVerdict : option classification }.

Definition noOutcome : superviseOutcome := mkOutcome None false false ErrNone None.

Record Result := mkResult { res_Status : string; res_Class : ErrorClass; res_Reason : string }.

(** The supervisor: in awaitTermination, past it, or finished with a Result. *)
Inductive supervisorAt :=
| Awaiting (out : superviseOutcome)
| Ended (out : superviseOutcome)
| Finished (out : superviseOutcome) (res : Result).

Record world := mkWorld {
  lastOutput : Z; recent : option Recent.recentOutputBuffer; writing : option (list ascii); outputDone : bool;
  st : classifierState; cat : classifierAt; classifierCh : option classification;
  snap : string * string; events : list SessionEvent; finalErr : option string; cancelled : bool; sup : supervisorAt }.

Definition ErrClassifierPanic : string := "wrapper: classifier panicked".
Definition ErrPTYRead : string := "wrapper: pty read failed".

(** ** Updates *)

Definition set_st (x : classifierState) (w : world) : world :=
  mkWorld (lastOutput w) (recent w) (writing w) (outputDone w) x (cat w) (classifierCh w) (snap w) (events w) (finalErr w) (cancelled w) (sup w).
Definition set_cat (x : classifierAt) (w : world) : world :=
  mkWorld (lastOutput w) (recent w) (writing w) (outputDone w) (st w) x (classifierCh w) (snap w) (events w) (finalErr w) (cancelled w) (sup w).
Definition set_ch (x : option classification) (w : world) : world :=
  mkWorld (lastOutput w) (recent w) (writing w) (outputDone w) (st w) (cat w) x (snap w) (events w) (finalErr w) (cancelled w) (sup w).
Definition set_snap (x : string * string) (w : world) : world :=
  mkWorld (lastOutput w) (recent w) (writing w) (outputDone w) (st w) (cat w) (classifierCh w) x (events w) (finalErr w) (cancelled w) (sup w).
Definition emitEvent (e : SessionEvent) (w : world) : world :=
  mkWorld (lastOutput w) (recent w) (writing w) (outputDone w) (st w) (cat w) (classifierCh w) (snap w) (app (events w) [e]) (finalErr w) (cancelled w) (sup w).
Definition set_sup (x : supervisorAt) (w : world) : world :=
  mkWorld (lastOutput w) (recent w) (writing w) (outputDone w) (st w) (cat w) (classifierCh w) (snap w) (events w) (finalErr w) (cancelled w) x.

Definition finished (w : world) : bool := match sup w with Finished _ _ => true | _ => false end.

(** fail: the first supervision failure is kept, unless the outcome is final. *)
Definition fail (err : string) (w : world) : world :=
  mkWorld (lastOutput w) (recent w) (writing w) (outputDone w) (st w) (cat w) (classifierCh w) (snap w) (events w)
    (match finalErr w with Some e => Some e | None => if finished w then None else Some err end) (cancelled w) (sup w).

Definition event_of (c : classification) (terminated : bool) : SessionEvent :=
  mkEvent (status c) (class c) (reason c) terminated (httpCode c) (retryAfter c) (resumeAt c).

(** recordStatusChange: an identical consecutive classification is dropped. *)
Definition recordStatusChange (c : classification) (terminated : bool) (w : world) : world :=
  if (fst (snap w) =s? status c) && (snd (snap w) =s? reason c) then w
  else emitEvent (event_of c terminated) (set_snap (status c, reason c) w).

Definition clearStatus (w : world) : world := set_snap ("", "") w.

(** The reason of a stale event: [Sprintf("no output for %s", d.Round(second))],
    for the durations' printer. *)
Section Step.
Variable cfg : Config.
Variable Classify : ClassifierInput -> option Classification.
Variable DurationString : Z -> string.

Definition stale_class (sinceLast : Z) : classification :=
  mkInternal StatusStale ErrNone ("no output for " ++ DurationString sinceLast) false 0 0 0 0 false.

(** emitThresholdTraces' status change: once per settle window. *)
Definition emitStale (sinceLast : Z) (stale : bool) (w : world) : world :=
  if stale && negb (staleEmitted (st w)) then
    let w := recordStatusChange (stale_class sinceLast) false w in
    let s := st w in
    set_st (mkClassifierState (lastSeen s) true (dispatched s) (st_mark s) (passedThrough s) (quietPassed s)) w
  else w.

(** The reset on new output both modes start a tick with. *)
Definition see (last : Z) (w : world) : world :=
  let s := st w in
  if negb (last =? lastSeen s)
  then set_st (mkClassifierState last false (dispatched s) (st_mark s) (passedThrough s) false) w
  else w.

(** onTick and onTickKeepAlive up to the classifier pass. *)
Definition tick (now : Z) (w : world) : world :=
  let last := lastOutput w in
  if last =? 0 then w
  else
    let outputChanged := negb (last =? lastSeen (st w)) in
    let w := see last w in
    let sinceLast := now - last in
    let quiet := negb outputChanged && (IdleQuiet cfg <=? sinceLast) in
    let idle := negb outputChanged && (IdleClassify cfg <=? sinceLast) in
    let stale := negb outputChanged && (0 <? StaleThreshold cfg) && (StaleThreshold cfg <=? sinceLast) in
    let w := emitStale sinceLast stale w in
    if KeepAliveOnClassification cfg then
      let newOutput := negb (Recent.Total (recent w) =? passedThrough (st w)) in
      if negb newOutput && (negb quiet || quietPassed (st w)) then w
      else set_cat (CPass sinceLast quiet false newOutput) w
    else if dispatched (st w) then w
    else set_cat (CPass sinceLast quiet idle false) w.

(** A panic ends the polling and the run. *)
Definition panicked (w : world) : world := set_cat CDone (fail ErrClassifierPanic w).

(** The pass of onTickKeepAlive. *)
Definition pass_keep (sinceLast : Z) (quiet newOutput : bool) (w : world) : world :=
  let s := st w in
  let '(text, through) := Recent.TextFrom (recent w) (st_mark s) in
  let s := mkClassifierState (lastSeen s) (staleEmitted s) (dispatched s) (st_mark s) through
             (if quiet then true else quietPassed s) in
  match Classify (mkInput text sinceLast quiet false) with
  | None => panicked (set_st s w)
  | Some c =>
    if Status c =s? "" then
      set_cat (if newOutput then CHand clearing else CIdle) (set_st s w)
    else
      let s := mkClassifierState (lastSeen s) (staleEmitted s) (dispatched s) through (passedThrough s) (quietPassed s) in
      set_cat (CHand (with_mark through (toInternalClassification c))) (set_st s w)
  end.

(** dispatchClassification: the send does not wait. *)
Definition pass_default (sinceLast : Z) (quiet idle : bool) (w : world) : world :=
  match Classify (mkInput (Recent.String_ (recent w)) sinceLast quiet idle) with
  | None => panicked w
  | Some c =>
    let w := set_cat CIdle w in
    if Status c =s? "" then w
    else match classifierCh w with
      | Some _ => w
      | None =>
        let s := st w in
        let s := if Terminal c
                 then mkClassifierState (lastSeen s) (staleEmitted s) true (st_mark s) (passedThrough s) (quietPassed s)
                 else s in
        set_st s (set_ch (Some (toInternalClassification c)) w)
      end
  end.

(** ** The supervisor *)

(** awaitTermination's classification arm. *)
Definition receive (c : classification) (out : superviseOutcome) (w : world) : world :=
  if clear c then clearStatus w
  else
    let out := if decide (class c = ErrNone) then out
               else mkOutcome (terminalClassDone out) (stopRequested out) (failed out) (class c) (lastVerdict out) in
    if KeepAliveOnClassification cfg then
      set_sup (Awaiting (mkOutcome (terminalClassDone out) (stopRequested out) (failed out) (lastErrClass out) (Some c)))
        (recordStatusChange c false w)
    else if negb (terminal c) then set_sup (Awaiting out) (recordStatusChange c false w)
    else set_sup (Ended (mkOutcome (Some c) (stopRequested out) (failed out) (lastErrClass out) (lastVerdict out)))
           (recordStatusChange c false w).

(** What [os.ProcessState] says of an exit. *)
Record ProcessState := mkProcessState { ps_Exited : bool; ps_ExitCode : Z; ps_Signal : string }.

Definition Success (ps : ProcessState) : bool := ps_Exited ps && (ps_ExitCode ps =? 0).

(** Status and reason of an exit. *)
Definition classifyExit (ps : option ProcessState) (ctxErr : bool) : string * string :=
  match ps with
  | None => (StatusUnknown, "process state unavailable")
  | Some ps =>
    if ctxErr then (StatusInterrupted, "context cancelled")
    else if Success ps then (StatusIdle, "")
    else if ps_Exited ps then (StatusFailed, "exit code " ++ Itoa (ps_ExitCode ps))
    else (StatusInterrupted, "terminated by " ++ ps_Signal ps)
  end.

(** classifyOnExit: the actionable verdict of the final pass, and the world it
    leaves; a panic is recorded as the run's failure. *)
Definition classifyOnExit (m : Z) (w : world) : option classification * world :=
  let input :=
    if KeepAliveOnClassification cfg then mkInput (fst (Recent.TextFrom (recent w) m)) 0 false false
    else mkInput (Recent.String_ (recent w)) 0 false true in
  match Classify input with
  | None => (None, fail ErrClassifierPanic w)
  | Some c => if (Status c =s? "") || (Status c =s? StatusWaitingForInput) then (None, w)
              else (Some (toInternalClassification c), w)
  end.

Definition resolveKeepAlive (res : Result) (out : superviseOutcome) (w : world)
  : Result * option classification * world :=
  if stopRequested out then
    (mkResult StatusInterrupted (res_Class res) (if res_Reason res =s? "" then "stop requested" else res_Reason res), None, w)
  else if negb (res_Status res =s? StatusFailed) then (res, None, w)
  else
    let m := match lastVerdict out with Some v => mark v | None => 0 end in
    let '(explained, w) := classifyOnExit m w in
    let explained :=
      match explained, lastVerdict out with
      | None, Some v => if Recent.Total (recent w) =? m then Some v else None
      | e, _ => e
      end in
    (match explained with Some c => mkResult (res_Status res) (class c) (res_Reason res) | None => res end, explained, w).

Definition resolveActionable (res : Result) (out : superviseOutcome) (w : world)
  : Result * option classification * world :=
  if failed out then
    (mkResult StatusUnknown (res_Class res) ("supervision failed: " ++ default "" (finalErr w)), None, w)
  else if KeepAliveOnClassification cfg then resolveKeepAlive res out w
  else
    let '(actionable, w) :=
      match terminalClassDone out with
      | Some c => (Some c, w)
      | None => if negb (stopRequested out) && (res_Status res =s? StatusFailed) then classifyOnExit 0 w else (None, w)
      end in
    let res := match actionable with
      | Some c => mkResult (status c) (res_Class res) (reason c)
      | None => res
      end in
    let res :=
      match actionable with
      | Some c => if decide (class c = ErrNone) then
                    (if res_Status res =s? StatusFailed then mkResult (res_Status res) (lastErrClass out) (res_Reason res) else res)
                  else mkResult (res_Status res) (class c) (res_Reason res)
      | None => if res_Status res =s? StatusFailed then mkResult (res_Status res) (lastErrClass out) (res_Reason res) else res
      end in
    let res :=
      if stopRequested out && is_none (terminalClassDone out)
      then mkResult StatusInterrupted (res_Class res) (if res_Reason res =s? "" then "stop requested" else res_Reason res)
      else res in
    (res, actionable, w).

(** The end of supervise: the Result, the snapshot and the final event. *)
Definition finish (ps : option ProcessState) (ctxErr : bool) (out : superviseOutcome) (w : world) : world :=
  let '(stat, why) := classifyExit ps ctxErr in
  let '(res, actionable, w) := resolveActionable (mkResult stat ErrNone why) out w in
  let w := set_snap (res_Status res, res_Reason res) (set_sup (Finished out res) w) in
  emitEvent
    (match actionable with
     | Some c => mkEvent (res_Status res) (res_Class res) (res_Reason res) true (httpCode c) (retryAfter c) (resumeAt c)
     | None => mkEvent (res_Status res) (res_Class res) (res_Reason res) true 0 0 0
     end) w.

(** ** Steps *)

Inductive action :=
| Stamp (t : Z) (p : list ascii)    (** the reader reads a chunk and stamps it *)
| Store                             (** the reader writes the chunk to the window *)
| ReadEnds (ok : bool)              (** the read ends, or fails *)
| Tick (now : Z)                    (** the ticker fires *)
| Pass                              (** the rest of the tick *)
| Hand                              (** the classifier's send succeeds *)
| ClassifierReturns                 (** the classifier sees that the run ended, or ctx *)
| Receive                           (** the supervisor takes a classification *)
| Exit                              (** the harness exits *)
| StopRequest                       (** a Stop was requested *)
| Failed                            (** supervision failed *)
| Cancel                            (** the context is cancelled *)
| Finish (ps : option ProcessState).

Definition with_output (last : Z) (r : option Recent.recentOutputBuffer) (wr : option (list ascii)) (done : bool) (w : world) : world :=
  mkWorld last r wr done (st w) (cat w) (classifierCh w) (snap w) (events w) (finalErr w) (cancelled w) (sup w).

(** The supervisor stops waiting, with [out] as how the run ended. *)
Definition endWith (f : superviseOutcome -> superviseOutcome) (w : world) : option world :=
  match sup w with Awaiting out => Some (set_sup (Ended (f out)) w) | _ => None end.

Definition over (w : world) : bool := match sup w with Awaiting _ => false | _ => true end.

Definition step (a : action) (w : world) : option world :=
  match a with
  | Stamp t p =>
    if outputDone w || negb (is_none (writing w)) || is_nil p then None
    else Some (with_output t (recent w) (Some p) false w)
  | Store =>
    match writing w with
    | Some p => Some (with_output (lastOutput w) (Recent.Write (recent w) p) None (outputDone w) w)
    | None => None
    end
  | ReadEnds ok =>
    if outputDone w || negb (is_none (writing w)) then None
    else let w := with_output (lastOutput w) (recent w) None true w in Some (if ok then w else fail ErrPTYRead w)
  | Tick now => match cat w with CIdle => Some (tick now w) | _ => None end
  | Pass =>
    match cat w with
    | CPass d q i n => Some (if KeepAliveOnClassification cfg then pass_keep d q n w else pass_default d q i w)
    | _ => None
    end
  | Hand =>
    match cat w, classifierCh w with
    | CHand c, None => Some (set_cat CIdle (set_ch (Some c) w))
    | _, _ => None
    end
  | ClassifierReturns =>
    match cat w with
    | CIdle | CHand _ => if over w || cancelled w then Some (set_cat CDone w) else None
    | _ => None
    end
  | Receive =>
    match sup w, classifierCh w with
    | Awaiting out, Some c => Some (receive c out (set_ch None w))
    | _, _ => None
    end
  | Exit => endWith (fun out => out) w
  | StopRequest =>
    endWith (fun out => mkOutcome (terminalClassDone out) true (failed out) (lastErrClass out) (lastVerdict out)) w
  | Failed =>
    if is_none (finalErr w) then None
    else endWith (fun out => mkOutcome (terminalClassDone out) (stopRequested out) true (lastErrClass out) (lastVerdict out)) w
  | Cancel =>
    Some (mkWorld (lastOutput w) (recent w) (writing w) (outputDone w) (st w) (cat w) (classifierCh w) (snap w)
            (events w) (finalErr w) true (sup w))
  | Finish ps =>
    match sup w, cat w with
    | Ended out, CDone => if outputDone w then Some (finish ps (cancelled w) out w) else None
    | _, _ => None
    end
  end.

Definition newSession : world :=
  mkWorld 0 (Recent.newRecentOutput (64 * 1024)) None false
    (mkClassifierState (-1) false false 0 0 false) CIdle None ("", "") [] None false (Awaiting noOutcome).

(** A run from the start of a session. *)
Inductive run : list action -> world -> Prop :=
| run_nil : run [] newSession
| run_snoc acts w a w' : run acts w -> step a w = Some w' -> run (app acts [a]) w'.

(** The same, computed. *)
Fixpoint exec (acts : list action) (w : world) : option world :=
  match acts with
  | [] => Some w
  | a :: acts => w ← step a w; exec acts w
  end.
End Step.
