(* ===== verification/SupervisorProps.v ===== *)
(** What the supervision of a harness promises: the shape of the event stream,
    the Result on every way a run can end, and how keep-alive classification
    uses the output it reads. *)
From Stdlib Require Import ZArith Ascii String Lia.
From stdpp Require Import base tactics list strings option sets.
From S2P Require Import Prelude GoStr Bytes Json Streams Classifier Supervisor.

#[local] Open Scope string_scope.
#[local] Open Scope Z_scope.

(** Case analysis on the condition an equation's left side tests. *)
Ltac if_in H := match type of H with (if ?b then _ else _) = _ => destruct b eqn:?; [try discriminate H|try discriminate H] end.

Section Props.
Context (cfg : Config) (Classify : ClassifierInput -> option Classification) (Dur : Z -> string).

#[local] Notation step := (step cfg Classify Dur).
#[local] Notation run := (run cfg Classify Dur).

(** An invariant holds at the start and is kept by every step. *)
Lemma run_inv (I : world -> Prop) :
  I newSession -> (forall a w w', I w -> step a w = Some w' -> I w') -> forall acts w, run acts w -> I w.
Proof. intros H0 Hs acts w. induction 1; eauto. Qed.

(** ** Where the parts of the state are changed *)

Lemma record_events c t w :
  recordStatusChange c t w = w \/
  (snap w <> (status c, reason c) /\
   recordStatusChange c t w = emitEvent (event_of c t) (set_snap (status c, reason c) w)).
Proof.
  unfold recordStatusChange. destruct ((_ =s? _) && (_ =s? _)) eqn:E; [by left|right].
  split; [|done]. intros Hs. rewrite Hs in E. cbn in E. by rewrite !String.eqb_refl in E.
Qed.

Lemma record_sup c t w : sup (recordStatusChange c t w) = sup w /\ cat (recordStatusChange c t w) = cat w /\
  st (recordStatusChange c t w) = st w /\ classifierCh (recordStatusChange c t w) = classifierCh w /\
  recent (recordStatusChange c t w) = recent w /\ lastOutput (recordStatusChange c t w) = lastOutput w.
Proof. unfold recordStatusChange. by case_match. Qed.

(** [observed w w1]: what a tick does before it decides on a pass. The settle
    window restarts on new output, and a stale event may be emitted. *)
Definition observed (w w1 : world) : Prop :=
  recent w1 = recent w /\ lastOutput w1 = lastOutput w /\ sup w1 = sup w /\ classifierCh w1 = classifierCh w /\
  finalErr w1 = finalErr w /\ outputDone w1 = outputDone w /\ writing w1 = writing w /\
  st_mark (st w1) = st_mark (st w) /\ passedThrough (st w1) = passedThrough (st w) /\
  dispatched (st w1) = dispatched (st w) /\
  (if lastOutput w =? lastSeen (st w)
   then quietPassed (st w1) = quietPassed (st w) /\ lastSeen (st w1) = lastSeen (st w)
   else quietPassed (st w1) = false /\ lastSeen (st w1) = lastOutput w) /\
  ((snap w1 = snap w /\ events w1 = events w) \/
   exists d, snap w <> (StatusStale, reason (stale_class Dur d)) /\
     snap w1 = (StatusStale, reason (stale_class Dur d)) /\
     events w1 = app (events w) [event_of (stale_class Dur d) false]).

Lemma see_stale_observed d b w : observed w (emitStale Dur d b (see (lastOutput w) w)) /\
  cat (emitStale Dur d b (see (lastOutput w) w)) = cat w.
Proof.
  unfold observed, emitStale, see.
  destruct (lastOutput w =? lastSeen (st w)) eqn:El; cbn [negb];
    (destruct (b && _); [|split; [split_and!; try done; by left|done]]);
    match goal with |- context [recordStatusChange ?c false ?x] =>
      destruct (record_events c false x) as [->|[Hn ->]]; (split; [|done]); split_and!; try done; [by left|right];
      exists d; split; [exact Hn|done]
    end.
Qed.

(** A tick observes, and then a pass follows or not. *)
Lemma tick_cases now w : cat w = CIdle ->
  (tick cfg Dur now w = w /\ lastOutput w = 0) \/
  exists w1, observed w w1 /\ cat w1 = CIdle /\
    (tick cfg Dur now w = w1 \/
     exists d q i n, tick cfg Dur now w = set_cat (CPass d q i n) w1 /\
       if KeepAliveOnClassification cfg then
         i = false /\ n = negb (Recent.Total (recent w1) =? passedThrough (st w1)) /\
         (n = false -> q = true /\ quietPassed (st w1) = false)
       else dispatched (st w1) = false).
Proof.
  intros Hc. unfold tick. destruct (Z.eqb_spec (lastOutput w) 0); [by left|right].
  cbv zeta. match goal with |- context [emitStale Dur ?d ?b ?x] =>
    destruct (see_stale_observed d b w) as [Ho Hcat]; set (w1 := emitStale Dur d b x) in * end.
  exists w1. split; [done|]. rewrite Hcat. split; [done|]. destruct (KeepAliveOnClassification cfg).
  - match goal with |- context [if ?b then w1 else _] => destruct b eqn:E end; [by left|right].
    eexists _, _, _, _. split; [done|]. split_and!; [done|done|]. intros Hn. rewrite Hn in E. cbn [negb andb] in E.
    by apply orb_false_iff in E as [E1%negb_false_iff E2].
  - match goal with |- context [if ?b then w1 else _] => destruct b eqn:E end; [by left|right].
    by eexists _, _, _, _.
Qed.

(** ** The event stream *)

(** Until the run is finished no event is final; then the last one, and only
    that one, is, with the status of the Result, and the classifier has
    returned. *)
Definition stream_inv (w : world) : Prop :=
  match sup w with
  | Finished _ res =>
    cat w = CDone /\ snap w = (res_Status res, res_Reason res) /\
    exists es e, events w = app es [e] /\ Forall (fun e => ev_Terminated e = false) es /\
      ev_Terminated e = true /\ ev_Status e = res_Status res /\ ev_Class e = res_Class res
  | _ => Forall (fun e => ev_Terminated e = false) (events w)
  end.

Lemma live_snoc es e : Forall (fun e => ev_Terminated e = false) es -> ev_Terminated e = false ->
  Forall (fun e => ev_Terminated e = false) (app es [e]).
Proof. intros H He. apply list.Forall_app. by repeat constructor. Qed.

Lemma record_live c w : Forall (fun e => ev_Terminated e = false) (events w) ->
  Forall (fun e => ev_Terminated e = false) (events (recordStatusChange c false w)).
Proof. intros H. destruct (record_events c false w) as [->|[_ ->]]; [done|]. by apply live_snoc. Qed.

Lemma observed_live w w1 : observed w w1 -> Forall (fun e => ev_Terminated e = false) (events w) ->
  Forall (fun e => ev_Terminated e = false) (events w1).
Proof.
  intros (_ & _ & _ & _ & _ & _ & _ & _ & _ & _ & _ & Hs) H. destruct Hs as [[_ ->]|(d & _ & _ & ->)]; [done|].
  by apply live_snoc.
Qed.

(** Resolving a Result emits nothing. *)
Lemma resolve_events res out w res' c w' :
  resolveActionable cfg Classify res out w = (res', c, w') ->
  events w' = events w /\ cat w' = cat w /\ classifierCh w' = classifierCh w /\
  st w' = st w /\ recent w' = recent w /\ lastOutput w' = lastOutput w.
Proof.
  unfold resolveActionable, resolveKeepAlive, classifyOnExit. intros H.
  repeat case_match; simplify_eq/=; done.
Qed.

(** A pass touches neither events, snapshot nor supervisor. *)
Definition frame (w w' : world) : Prop :=
  events w' = events w /\ snap w' = snap w /\ sup w' = sup w /\ recent w' = recent w /\ lastOutput w' = lastOutput w.

Lemma pass_frame d q i n w :
  frame w (if KeepAliveOnClassification cfg then pass_keep Classify d q n w else pass_default Classify d q i w).
Proof.
  unfold frame, pass_keep, pass_default, panicked, fail. destruct (KeepAliveOnClassification cfg).
  - destruct (Recent.TextFrom (recent w) (st_mark (st w))) as [text through].
    destruct (Classify _) as [c|]; [|done]. by destruct (Status c =s? "").
  - destruct (Classify _) as [c|]; [|done]. destruct (Status c =s? ""); [done|]. cbn. by destruct (classifierCh w).
Qed.

(** The supervisor's answer to a classification: an event at most, and it goes
    on waiting or stops. *)
Lemma receive_cases c out w :
  (clear c = true /\ receive cfg c out w = clearStatus w) \/
  (clear c = false /\ exists x, receive cfg c out w = set_sup x (recordStatusChange c false w) /\
     ((exists o, x = Awaiting o) \/ (exists o, x = Ended o))).
Proof.
  unfold receive. destruct (clear c); [by left|right]. split; [done|].
  destruct (decide (class c = ErrNone)), (KeepAliveOnClassification cfg), (terminal c); cbn; eauto 8.
Qed.

Lemma stream_step a w w' : stream_inv w -> step a w = Some w' -> stream_inv w'.
Proof.
  intros HI H. assert (Hlive : finished w = false -> Forall (fun e => ev_Terminated e = false) (events w)).
  { unfold finished. unfold stream_inv in HI. by destruct (sup w). }
  destruct a as [t p| |ok|now| | | | | | | | |ps]; cbn in H.
  - by case_match; simplify_eq.
  - by destruct (writing w); simplify_eq.
  - case_match; simplify_eq. by destruct ok.
  - destruct (cat w) eqn:Hc; simplify_eq.
    destruct (tick_cases now w Hc) as [[-> _]|(w1 & Ho & Hc1 & Ht)]; [done|].
    assert (Hw1 : stream_inv w1).
    { unfold stream_inv in *. pose proof (observed_live w w1 Ho) as Hl. destruct Ho as (_ & _ & -> & _).
      destruct (sup w); [by apply Hl..|]. destruct HI as [E _]. by rewrite E in Hc. }
    destruct Ht as [->|(d & q & i & n & -> & _)]; [done|].
    unfold stream_inv in *. cbn. destruct (sup w1); [done..|]. destruct Hw1 as [E _]. by rewrite E in Hc1.
  - destruct (cat w) as [|d q i n| |] eqn:Hc; simplify_eq.
    destruct (pass_frame d q i n w) as (He & Hs & Hp & _). unfold stream_inv in *. rewrite He, Hs, Hp.
    destruct (sup w); [done..|]. destruct HI as [E _]. by rewrite E in Hc.
  - destruct (cat w) eqn:Hc, (classifierCh w); simplify_eq. unfold stream_inv in *. cbn.
    destruct (sup w); [done..|]. destruct HI as [E _]. by rewrite E in Hc.
  - unfold stream_inv in *. destruct (cat w); simplify_eq; case_match; simplify_eq; cbn;
      (destruct (sup w); [done..|]); destruct HI as [HI _]; done.
  - destruct (sup w) eqn:Hsup, (classifierCh w) as [c|]; simplify_eq.
    assert (Hl : Forall (fun e => ev_Terminated e = false) (events w)) by (apply Hlive; unfold finished; by rewrite Hsup).
    destruct (receive_cases c out (set_ch None w)) as [[_ ->]|(_ & x & -> & Hx)]; unfold stream_inv; cbn.
    + by rewrite Hsup.
    + destruct Hx as [[o ->]|[o ->]]; by apply record_live.
  - unfold endWith in H. destruct (sup w) eqn:Hsup; simplify_eq. apply Hlive. unfold finished. by rewrite Hsup.
  - unfold endWith in H. destruct (sup w) eqn:Hsup; simplify_eq. apply Hlive. unfold finished. by rewrite Hsup.
  - destruct (is_none (finalErr w)); [done|]. unfold endWith in H. destruct (sup w) eqn:Hsup; simplify_eq.
    apply Hlive. unfold finished. by rewrite Hsup.
  - simplify_eq. done.
  - destruct (sup w) as [|out|] eqn:Hsup; simplify_eq. destruct (cat w) eqn:Hc; simplify_eq.
    destruct (outputDone w); simplify_eq. unfold finish. destruct (classifyExit ps (cancelled w)) as [stat why].
    destruct (resolveActionable _ _ _ _ _) as [[res c] w2] eqn:Hr. apply resolve_events in Hr as (He & Hk & _).
    unfold stream_inv. cbn. rewrite He, Hk. split; [done|]. split; [done|]. eexists _, _. split; [done|].
    split; [apply Hlive; unfold finished; by rewrite Hsup|]. by destruct c.
Qed.

(** C33: Whatever the goroutines do in whatever order, the stream of events ends
    with exactly one Terminated event, which carries the Result's status and
    class and leaves the snapshot at the Result; before the run is finished
    there is none, so nothing is sent after the stream is closed. *)
Theorem final_event_last acts w (H : run acts w) : stream_inv w.
Proof. eapply run_inv; [|apply stream_step|exact H]. constructor. Qed.

Definition key (e : SessionEvent) : string * string := (ev_Status e, ev_Reason e).

(** No event repeats the one before it. *)
Definition no_repeat (es : list SessionEvent) : Prop :=
  forall i e1 e2, es !! i = Some e1 -> es !! S i = Some e2 -> ev_Terminated e2 = false -> key e1 <> key e2.

Lemma no_repeat_snoc es e : no_repeat es ->
  (ev_Terminated e = false -> forall e1, list.last es = Some e1 -> key e1 <> key e) -> no_repeat (app es [e]).
Proof.
  intros H He i e1 e2 H1 H2 Ht. destruct (decide (S i < length es)%nat).
  - rewrite lookup_app_l in H1, H2 by lia. eauto.
  - assert (i < length (app es [e]))%nat by (by apply lookup_lt_Some in H1).
    assert (S i < length (app es [e]))%nat by (by apply lookup_lt_Some in H2). rewrite length_app in *. cbn in *.
    assert (Hi : S i = length es) by lia. rewrite lookup_app_l in H1 by lia.
    rewrite lookup_app_r, Hi, Nat.sub_diag in H2 by lia. simplify_eq/=. apply He; [done|].
    rewrite last_lookup, <- Hi. done.
Qed.

(** In the default mode nothing is cleared: the snapshot is the last event. *)
Definition repeat_inv (w : world) : Prop :=
  no_repeat (events w) /\ (forall c, classifierCh w = Some c -> clear c = false) /\ (forall c, cat w <> CHand c) /\
  (finished w = false -> snap w = match list.last (events w) with Some e => key e | None => ("", "") end).

Lemma repeat_emit w e : repeat_inv w -> finished w = false -> ev_Terminated e = false -> snap w <> key e ->
  no_repeat (app (events w) [e]) /\ key e = match list.last (app (events w) [e]) with Some e => key e | None => ("", "") end.
Proof.
  intros (Hn & _ & _ & Hs) Hf Ht Hk. rewrite last_snoc. split; [|done]. apply no_repeat_snoc; [done|].
  intros _ e1 E. specialize (Hs Hf). rewrite E in Hs. congruence.
Qed.

Lemma repeat_step a w w' : KeepAliveOnClassification cfg = false -> stream_inv w ->
  repeat_inv w -> step a w = Some w' -> repeat_inv w'.
Proof.
  intros Hk HS HI H. pose proof HI as (Hn & Hch & Hcat & Hs).
  destruct a as [t p| |ok|now| | | | | | | | |ps]; cbn in H.
  - if_in H. simplify_eq. exact HI.
  - destruct (writing w); simplify_eq. exact HI.
  - if_in H. simplify_eq. destruct ok; exact HI.
  - destruct (cat w) eqn:Hc; simplify_eq.
    assert (Hf : finished w = false).
    { unfold finished. unfold stream_inv in HS. destruct (sup w); [done..|]. destruct HS as [E _]. by rewrite E in Hc. }
    destruct (tick_cases now w Hc) as [[-> _]|(w1 & Ho & Hc1 & Ht)]; [done|].
    assert (Hw1 : repeat_inv w1).
    { destruct Ho as (_ & _ & Hsup & Hch1 & _ & _ & _ & _ & _ & _ & _ & Hev). unfold repeat_inv, finished in *.
      rewrite Hsup, Hch1, Hc1. destruct Hev as [[-> ->]|(d & Hd & -> & ->)]; [done|].
      destruct (repeat_emit w (event_of (stale_class Dur d) false) HI Hf eq_refl Hd). split_and!; try done. }
    destruct Ht as [->|(d & q & i & n & -> & _)]; [done|].
    destruct Hw1 as (? & ? & ? & ?). unfold repeat_inv, finished in *. cbn. by split_and!.
  - destruct (cat w) as [|d q i n| |] eqn:Hc; simplify_eq. rewrite Hk. unfold pass_default, panicked, fail.
    destruct (Classify _) as [c|]; [|by unfold repeat_inv, finished in *; cbn; split_and!].
    destruct (Status c =s? ""); [by unfold repeat_inv, finished in *; cbn; split_and!|]. cbn.
    destruct (classifierCh w) eqn:E; unfold repeat_inv, finished in *; cbn; split_and!; try done.
    + by rewrite E.
    + by intros c' [= <-].
  - destruct (cat w) eqn:Hc, (classifierCh w); simplify_eq. by destruct (Hcat c).
  - destruct (cat w) eqn:Hc; simplify_eq; if_in H; simplify_eq; unfold repeat_inv, finished in *; cbn; by split_and!.
  - destruct (sup w) eqn:Hsup, (classifierCh w) as [c|] eqn:Ech; simplify_eq.
    assert (Hf : finished w = false) by (unfold finished; by rewrite Hsup).
    specialize (Hch c eq_refl). destruct (receive_cases c out (set_ch None w)) as [[Hc _]|(_ & x & -> & Hx)]; [congruence|].
    assert (Hfx : finished (set_sup x (recordStatusChange c false (set_ch None w))) = false).
    { unfold finished. cbn. by destruct Hx as [[o ->]|[o ->]]. }
    unfold repeat_inv. cbn [events snap cat classifierCh set_sup].
    destruct (record_events c false (set_ch None w)) as [E|[Hne E]]; rewrite E; cbn; split_and!; try done.
    + intros _. by apply Hs.
    + by apply (repeat_emit w (event_of c false) HI Hf eq_refl Hne).
    + intros _. by apply (repeat_emit w (event_of c false) HI Hf eq_refl Hne).
  - unfold endWith in H. destruct (sup w) eqn:Hsup; simplify_eq. unfold repeat_inv, finished in *. rewrite Hsup in Hs. by split_and!.
  - unfold endWith in H. destruct (sup w) eqn:Hsup; simplify_eq. unfold repeat_inv, finished in *. rewrite Hsup in Hs. by split_and!.
  - destruct (is_none (finalErr w)); [done|]. unfold endWith in H. destruct (sup w) eqn:Hsup; simplify_eq.
    unfold repeat_inv, finished in *. rewrite Hsup in Hs. by split_and!.
  - simplify_eq. exact HI.
  - destruct (sup w) as [|out|] eqn:Hsup; simplify_eq. destruct (cat w) eqn:Hc; simplify_eq.
    destruct (outputDone w); simplify_eq. unfold finish. destruct (classifyExit ps (cancelled w)) as [stat why].
    destruct (resolveActionable _ _ _ _ _) as [[res c] w2] eqn:Hr. 
    apply resolve_events in Hr as (He & Hk2 & Hc2 & _). unfold repeat_inv, finished. cbn. rewrite He, Hk2, Hc2.
    split_and!; [|done|congruence|done]. apply no_repeat_snoc; [done|]. by destruct c.
Qed.

(** In the default mode no event before the final one repeats the status and
    reason of the event before it, so polling does not flood the readers. *)
Theorem events_do_not_repeat acts w (Hk : KeepAliveOnClassification cfg = false) (H : run acts w) :
  no_repeat (events w).
Proof.
  assert (HI : stream_inv w /\ repeat_inv w).
  { eapply (run_inv (fun w => stream_inv w /\ repeat_inv w)); [| |exact H].
    - split; [constructor|]. by split_and!.
    - intros a w0 w1 [HS HR] Hst. split; [by eapply stream_step|by eapply repeat_step]. }
  apply HI.
Qed.

(** ** How a run ends *)

(** The statuses an exit has by itself. *)
Definition exit_statuses : list string := [StatusIdle; StatusFailed; StatusInterrupted; StatusUnknown].

Lemma classifyExit_status ps c : (classifyExit ps c).1 ∈ exit_statuses.
Proof.
  unfold classifyExit, exit_statuses. destruct ps as [ps|]; [|cbn; set_solver].
  repeat case_match; cbn; set_solver.
Qed.

(** What the supervisor holds: in keep-alive mode no verdict ever ends the run,
    and a failure that ends it is on record. *)
Definition outcome_inv (w : world) : Prop :=
  match sup w with
  | Awaiting out => terminalClassDone out = None /\ stopRequested out = false /\ failed out = false
  | Ended out | Finished out _ =>
    (KeepAliveOnClassification cfg = true -> terminalClassDone out = None) /\
    (failed out = true -> finalErr w <> None /\ terminalClassDone out = None) /\
    (stopRequested out = true -> terminalClassDone out = None) /\
    (forall c, terminalClassDone out = Some c -> terminal c = true)
  end.

Lemma fail_err e w : finalErr w <> None -> finalErr (fail e w) <> None.
Proof. unfold fail. cbn. by destruct (finalErr w). Qed.

Lemma observed_outcome w w1 : observed w w1 -> outcome_inv w -> outcome_inv w1.
Proof. intros (_ & _ & Hs & _ & Hf & _). unfold outcome_inv. by rewrite Hs, Hf. Qed.

(** A step that leaves the supervisor alone and forgets no failure. *)
Lemma outcome_frame w w' : sup w' = sup w -> (finalErr w <> None -> finalErr w' <> None) ->
  outcome_inv w -> outcome_inv w'.
Proof.
  unfold outcome_inv. intros -> Hf H. destruct (sup w); [done|..];
    destruct H as (H1 & H2 & H3 & H4); split_and!; try done; intros E; destruct (H2 E); auto.
Qed.

Lemma outcome_step a w w' : outcome_inv w -> step a w = Some w' -> outcome_inv w'.
Proof.
  intros HI H. destruct a as [t p| |ok|now| | | | | | | | |ps]; cbn in H.
  - if_in H. simplify_eq. by eapply outcome_frame.
  - destruct (writing w); simplify_eq. by eapply outcome_frame.
  - if_in H. simplify_eq. destruct ok; [by eapply outcome_frame|].
    eapply (outcome_frame w); [done| |exact HI].
    intros Hn. by apply fail_err.
  - destruct (cat w) eqn:Hc; simplify_eq.
    destruct (tick_cases now w Hc) as [[-> _]|(w1 & Ho & _ & Ht)]; [done|].
    pose proof (observed_outcome _ _ Ho HI) as H1. by destruct Ht as [->|(d & q & i & n & -> & _)].
  - destruct (cat w) as [|d q i n| |] eqn:Hc; simplify_eq. eapply outcome_frame; [apply pass_frame| |exact HI].
    unfold pass_keep, pass_default, panicked. destruct (KeepAliveOnClassification cfg).
    + destruct (Recent.TextFrom (recent w) (st_mark (st w))). destruct (Classify _); [by case_match|]. intros Hn. by apply fail_err.
    + destruct (Classify _); [|intros Hn; by apply fail_err]. case_match; [done|]. cbn. by destruct (classifierCh w).
  - destruct (cat w) eqn:Hc, (classifierCh w); simplify_eq. by eapply outcome_frame.
  - destruct (cat w) eqn:Hc; simplify_eq; if_in H; simplify_eq; by eapply outcome_frame.
  - destruct (sup w) eqn:Hsup, (classifierCh w) as [c|] eqn:Ech; simplify_eq.
    unfold outcome_inv in HI. rewrite Hsup in HI. destruct HI as (Ht & Hstop & Hfail). unfold receive.
    destruct (clear c); [unfold outcome_inv; cbn; by rewrite Hsup|].
    destruct (decide (class c = ErrNone)), (KeepAliveOnClassification cfg) eqn:Ek, (terminal c) eqn:Et;
      unfold outcome_inv; cbn; split_and!; try done; congruence || naive_solver.
  - unfold endWith in H. destruct (sup w) eqn:Hsup; simplify_eq. unfold outcome_inv in *. rewrite Hsup in HI. cbn.
    destruct HI as (Ht & Hstop & Hfail). split_and!; congruence.
  - unfold endWith in H. destruct (sup w) eqn:Hsup; simplify_eq. unfold outcome_inv in *. rewrite Hsup in HI. cbn.
    destruct HI as (Ht & Hstop & Hfail). split_and!; congruence.
  - destruct (is_none (finalErr w)) eqn:En; [done|]. unfold endWith in H. destruct (sup w) eqn:Hsup; simplify_eq.
    unfold outcome_inv in *. rewrite Hsup in HI. cbn. destruct HI as (Ht & Hstop & Hfail).
    split_and!; try congruence. intros _. split; [|done]. by destruct (finalErr w).
  - simplify_eq. by eapply outcome_frame.
  - destruct (sup w) as [|out|] eqn:Hsup; simplify_eq. destruct (cat w) eqn:Hc; simplify_eq.
    destruct (outputDone w); simplify_eq. unfold finish. destruct (classifyExit ps (cancelled w)) as [stat why].
    destruct (resolveActionable _ _ _ _ _) as [[res c] w2] eqn:Hr.
    assert (Hf : finalErr w <> None -> finalErr w2 <> None).
    { intros Hn. unfold resolveActionable, resolveKeepAlive, classifyOnExit in Hr.
      repeat case_match; simplify_eq/=; try done; by destruct (finalErr w). }
    unfold outcome_inv in *. rewrite Hsup in HI. cbn. destruct HI as (H1 & H2 & H3 & H4).
    split_and!; try done. intros E. destruct (H2 E). auto.
Qed.

(** What a Result says, by how the run ended. *)
Definition explains (out : superviseOutcome) (res : Result) : Prop :=
  (failed out = true -> res_Status res = StatusUnknown /\ res_Class res = ErrNone) /\
  (failed out = false -> stopRequested out = true -> res_Status res = StatusInterrupted) /\
  (failed out = false -> forall c, terminalClassDone out = Some c ->
     res_Status res = status c /\ res_Reason res = reason c /\ (class c <> ErrNone -> res_Class res = class c)) /\
  (KeepAliveOnClassification cfg = true ->
     res_Status res ∈ exit_statuses /\ (res_Class res <> ErrNone -> res_Status res = StatusFailed)).

Lemma resolve_explains stat why out w res c w' :
  stat ∈ exit_statuses -> (KeepAliveOnClassification cfg = true -> terminalClassDone out = None) ->
  (stopRequested out = true -> terminalClassDone out = None) ->
  resolveActionable cfg Classify (mkResult stat ErrNone why) out w = (res, c, w') -> explains out res.
Proof.
  intros Hs Hk Hstop H. unfold resolveActionable in H. unfold explains.
  destruct (failed out); [simplify_eq/=; split_and!; try done; intros _; split; [set_solver|done]|].
  destruct (KeepAliveOnClassification cfg) eqn:Ek.
  - specialize (Hk eq_refl). rewrite Hk in *. unfold resolveKeepAlive in H. cbn [res_Status res_Class res_Reason] in H.
    destruct (stopRequested out); [simplify_eq/=; split_and!; try done; intros _; split; [set_solver|done]|].
    destruct (negb (stat =s? StatusFailed)) eqn:Ef; [simplify_eq/=; split_and!; try done; naive_solver|]. bprop. subst.
    destruct (classifyOnExit _ _ _ w) as [ex w1] eqn:Ex. repeat case_match; simplify_eq/=; split_and!; try done; naive_solver.
  - destruct (terminalClassDone out) as [t|] eqn:Et; cbn [res_Status res_Class res_Reason] in H.
    + destruct (stopRequested out); [naive_solver|]. cbn [andb] in H.
      destruct (decide (class t = ErrNone)); [destruct (status t =s? StatusFailed)|]; simplify_eq/=; split_and!; try done; naive_solver.
    + cbn [is_none] in H. rewrite andb_true_r in H. split_and!; try done. intros _ Hst. rewrite Hst in H. cbn [negb andb] in H.
      repeat case_match; by simplify_eq/=.
Qed.

Definition result_inv (w : world) : Prop :=
  match sup w with Finished out res => explains out res | _ => True end.

Lemma result_step a w w' : outcome_inv w -> result_inv w -> step a w = Some w' -> result_inv w'.
Proof.
  intros HO HI H. assert (Hsame : sup w' = sup w -> result_inv w') by (unfold result_inv; by intros ->).
  destruct a as [t p| |ok|now| | | | | | | | |ps]; cbn in H.
  - if_in H. simplify_eq. by apply Hsame.
  - destruct (writing w); simplify_eq. by apply Hsame.
  - if_in H. simplify_eq. apply Hsame. by destruct ok.
  - destruct (cat w) eqn:Hc; simplify_eq. apply Hsame.
    destruct (tick_cases now w Hc) as [[-> _]|(w1 & Ho & _ & Ht)]; [done|]. destruct Ho as (_ & _ & Hs & _).
    by destruct Ht as [->|(d & q & i & n & -> & _)].
  - destruct (cat w) as [|d q i n| |] eqn:Hc; simplify_eq. apply Hsame, pass_frame.
  - destruct (cat w) eqn:Hc, (classifierCh w); simplify_eq. by apply Hsame.
  - destruct (cat w) eqn:Hc; simplify_eq; if_in H; simplify_eq; by apply Hsame.
  - destruct (sup w) eqn:Hsup, (classifierCh w) as [c|]; simplify_eq.
    destruct (receive_cases c out (set_ch None w)) as [[_ ->]|(_ & x & -> & Hx)]; unfold result_inv; cbn; [by rewrite Hsup|].
    by destruct Hx as [[o ->]|[o ->]].
  - unfold endWith in H. by destruct (sup w); simplify_eq.
  - unfold endWith in H. by destruct (sup w); simplify_eq.
  - destruct (is_none (finalErr w)); [done|]. unfold endWith in H. by destruct (sup w); simplify_eq.
  - simplify_eq. by apply Hsame.
  - destruct (sup w) as [|out|] eqn:Hsup; simplify_eq. destruct (cat w) eqn:Hc; simplify_eq.
    destruct (outputDone w); simplify_eq. unfold finish. pose proof (classifyExit_status ps (cancelled w)) as Hx.
    destruct (classifyExit ps (cancelled w)) as [stat why].
    destruct (resolveActionable _ _ _ _ _) as [[res c] w2] eqn:Hr. unfold outcome_inv in HO. rewrite Hsup in HO.
    destruct HO as (H1 & _ & H3 & _). unfold result_inv. cbn. by eapply resolve_explains.
Qed.

Lemma run_outcome acts w : run acts w -> outcome_inv w /\ result_inv w.
Proof.
  intros H. eapply (run_inv (fun w => outcome_inv w /\ result_inv w)); [by split|..|exact H].
  intros a w0 w1 [HO HR] Hs. split; [by eapply outcome_step|by eapply result_step].
Qed.

(** C34: The Result of every run says how it ended: a supervision failure gives
    unknown and is what Wait returns, a Stop gives interrupted, and a terminal
    verdict that ended the run gives its status, reason and class. *)
Theorem result_says_how acts w out res (H : run acts w) (Hf : sup w = Finished out res) :
  explains out res /\ (failed out = true -> finalErr w <> None) /\
  (forall c, terminalClassDone out = Some c -> terminal c = true /\ failed out = false /\ stopRequested out = false).
Proof.
  pose proof (run_outcome acts w H) as HI.
  unfold outcome_inv, result_inv in HI. rewrite Hf in HI. destruct HI as [(H1 & H2 & H3 & H4) HR].
  split_and!; [done|naive_solver|]. intros c Hc. split_and!; [by apply H4|..].
  - destruct (failed out); [|done]. destruct (H2 eq_refl). congruence.
  - destruct (stopRequested out); [|done]. rewrite H3 in Hc by done. congruence.
Qed.

(** A caller that keeps the harness's lifetime is never overruled: in
    keep-alive mode no verdict ends a run, its Result has the status of the
    process's exit, never of a classification, and an error class only for a
    failed exit. *)
Theorem keep_alive_never_overruled acts w out res
  (Hk : KeepAliveOnClassification cfg = true) (H : run acts w) (Hf : sup w = Finished out res) :
  terminalClassDone out = None /\ res_Status res ∈ exit_statuses /\
  (res_Class res <> ErrNone -> res_Status res = StatusFailed).
Proof.
  pose proof (run_outcome acts w H) as HI.
  unfold outcome_inv, result_inv in HI. rewrite Hf in HI. destruct HI as [(H1 & _) (_ & _ & _ & H4)].
  split; [by apply H1|]. by apply H4.
Qed.

(** ** Keep-alive passes *)

Definition is_pass (a : action) : bool := match a with Pass => true | _ => false end.
Definition is_chunk (a : action) : bool := match a with Stamp _ _ | Store => true | _ => false end.
Definition count (f : action -> bool) (acts : list action) : Z := llen (List.filter f acts).

Lemma count_snoc f acts a : count f (app acts [a]) = count f acts + (if f a then 1 else 0).
Proof. unfold count. rewrite List.filter_app, length_app. cbn. destruct (f a); cbn; lia. Qed.

(** What a further pass can be owed to: output not passed over, a quiet stretch
    without a pass, and a time stamp not seen. *)
Definition owed (w : world) : Z :=
  (match cat w with
   | CPass _ _ _ true => 1
   | _ => if Recent.Total (recent w) =? passedThrough (st w) then 0 else 1
   end) + (if quietPassed (st w) then 0 else 1) + (if lastOutput w =? lastSeen (st w) then 0 else 1).

Lemma owed_range w : 0 <= owed w <= 3.
Proof. unfold owed. repeat case_match; lia. Qed.

Definition pass_inv (w : world) : Prop :=
  forall d q i, cat w = CPass d q i false -> q = true /\ quietPassed (st w) = false.

Lemma TextFrom_total b m : (Recent.TextFrom b m).2 = Recent.Total b.
Proof. by destruct b. Qed.

Lemma owed_step a w w' : KeepAliveOnClassification cfg = true -> pass_inv w -> step a w = Some w' ->
  pass_inv w' /\ owed w' + (if is_pass a then 1 else 0) <= owed w + (if is_chunk a then 1 else 0).
Proof.
  intros Hk HI H. destruct a as [t p| |ok|now| | | | | | | | |ps]; cbn [is_pass is_chunk]; cbn in H.
  - if_in H. simplify_eq. split; [done|]. unfold owed. cbn. repeat case_match; lia.
  - destruct (writing w); simplify_eq. split; [done|]. unfold owed. cbn. repeat case_match; lia.
  - if_in H. simplify_eq. destruct ok; (split; [done|]); unfold owed; cbn; lia.
  - destruct (cat w) eqn:Hc; simplify_eq.
    destruct (tick_cases now w Hc) as [[-> _]|(w1 & Ho & Hc1 & Ht)]; [split; [done|lia]|].
    assert (H1 : owed w1 <= owed w).
    { destruct Ho as (Hr & Hl & _ & _ & _ & _ & _ & _ & Hp & _ & Hq & _). unfold owed.
      rewrite Hc, Hc1, Hr, Hl, Hp. destruct (lastOutput w =? lastSeen (st w)) eqn:E; destruct Hq as [-> ->]; [rewrite E; lia|].
      rewrite Z.eqb_refl. repeat case_match; lia. }
    destruct Ht as [->|(d & q & i & n & -> & Hn)].
    { split; [|lia]. intros d q i E. congruence. }
    rewrite Hk in Hn. destruct Hn as (-> & Hn & Hq). split.
    { intros d' q' i' [= -> -> <- ->]. by apply Hq. }
    unfold owed in H1 |- *. rewrite Hc1 in H1. cbn. rewrite Hn. destruct (Recent.Total (recent w1) =? passedThrough (st w1)); cbn; lia.
  - destruct (cat w) as [|d q i n| |] eqn:Hc; simplify_eq. rewrite Hk. unfold pass_keep.
    destruct (Recent.TextFrom (recent w) (st_mark (st w))) as [text through] eqn:Et.
    assert (Hth : through = Recent.Total (recent w)) by (by rewrite <- (TextFrom_total _ (st_mark (st w))), Et). subst through.
    assert (Ho : 1 + (if lastOutput w =? lastSeen (st w) then 0 else 1) <= owed w - (if q then 0 else if quietPassed (st w) then 0 else 1)).
    { unfold owed. rewrite Hc. destruct n; [repeat case_match; lia|]. destruct (HI _ _ _ Hc) as [-> ->]. repeat case_match; lia. }
    revert Ho. generalize (owed w). intros o Ho.
    destruct (Classify _) as [c|]; [destruct (Status c =s? "") eqn:Es|]; (split; [intros ? ? ? E; cbn in E; by destruct n|]);
      unfold owed; cbn; rewrite Z.eqb_refl; destruct n, q; cbn; lia.
  - destruct (cat w) eqn:Hc, (classifierCh w); simplify_eq. split; [done|]. unfold owed. rewrite Hc. cbn. lia.
  - destruct (cat w) eqn:Hc; simplify_eq; if_in H; simplify_eq; (split; [done|]); unfold owed; rewrite Hc; cbn; lia.
  - destruct (sup w) eqn:Hsup, (classifierCh w) as [c|]; simplify_eq.
    destruct (receive_cases c out (set_ch None w)) as [[_ ->]|(_ & x & -> & _)]; [by split; [|unfold owed; cbn; lia]|].
    destruct (record_sup c false (set_ch None w)) as (_ & H2 & H3 & _ & H5 & H6).
    unfold pass_inv, owed in *. cbn. rewrite H2, H3, H5, H6. cbn. split; [done|lia].
  - unfold endWith in H. destruct (sup w); simplify_eq. by split; [|unfold owed; cbn; lia].
  - unfold endWith in H. destruct (sup w); simplify_eq. by split; [|unfold owed; cbn; lia].
  - destruct (is_none (finalErr w)); [done|]. unfold endWith in H. destruct (sup w); simplify_eq. by split; [|unfold owed; cbn; lia].
  - simplify_eq. by split; [|unfold owed; cbn; lia].
  - destruct (sup w) as [|out|]; simplify_eq. destruct (cat w) eqn:Hc; simplify_eq. destruct (outputDone w); simplify_eq.
    unfold finish. destruct (classifyExit ps (cancelled w)) as [stat why].
    destruct (resolveActionable _ _ _ _ _) as [[res c] w2] eqn:Hr.
    apply resolve_events in Hr as (_ & Hc2 & _ & Hs2 & Hr2 & Hl2). unfold pass_inv, owed in *.
    cbn. rewrite Hc2, Hs2, Hr2, Hl2. split; [done|lia].
Qed.

(** In keep-alive mode a pass needs new evidence: over any run there are at
    most as many classifier passes as time stamps and writes of output, and
    two; a silent harness is not classified again and again. *)
Theorem passes_bounded acts w (Hk : KeepAliveOnClassification cfg = true) (H : run acts w) :
  count is_pass acts <= count is_chunk acts + 2.
Proof.
  assert (HI : pass_inv w /\ count is_pass acts + owed w <= count is_chunk acts + 2).
  { induction H as [|acts w a w' _ [HI IH] Hs]; [by split|].
    destruct (owed_step a w w' Hk HI Hs) as [HI' Hw]. split; [done|]. rewrite !count_snoc. lia. }
  pose proof (owed_range w). lia.
Qed.

(** ** The status tracks the evidence *)

(** No output lands between the two halves of a tick. *)
Definition calm (a : action) (w : world) : bool :=
  match a, cat w with Store, CPass _ _ _ _ => false | _, _ => true end.

Inductive calm_run : list action -> world -> Prop :=
| calm_nil : calm_run [] newSession
| calm_snoc acts w a w' : calm_run acts w -> calm a w = true -> step a w = Some w' -> calm_run (app acts [a]) w'.

(** Once output after the last verdict has been passed over, the newest result
    on its way to the supervisor clears the status, or it is cleared. *)
Definition tracks (w : world) : Prop :=
  (forall d q i n, cat w = CPass d q i n -> n = negb (Recent.Total (recent w) =? passedThrough (st w))) /\
  (st_mark (st w) < passedThrough (st w) ->
   match cat w with
   | CHand c => clear c = true
   | CDone => True
   | _ => match classifierCh w with
          | Some c => clear c = true
          | None => fst (snap w) = "" \/ fst (snap w) = StatusStale
          end
   end).

Lemma tracks_tick now w : KeepAliveOnClassification cfg = true -> cat w = CIdle -> tracks w -> tracks (tick cfg Dur now w).
Proof.
  intros Hk Hc [HI1 HI2]. destruct (tick_cases now w Hc) as [[-> _]|(w1 & Ho & Hc1 & Ht)]; [done|].
  assert (H2 : st_mark (st w1) < passedThrough (st w1) -> match classifierCh w1 with
    | Some c => clear c = true | None => fst (snap w1) = "" \/ fst (snap w1) = StatusStale end).
  { destruct Ho as (_ & _ & _ & Hch & _ & _ & _ & Hm & Hp & _ & _ & Hs). rewrite Hm, Hp, Hch. rewrite Hc in HI2.
    intros Hlt. specialize (HI2 Hlt). destruct (classifierCh w); [done|].
    destruct Hs as [[-> _]|(d & _ & -> & _)]; [done|by right]. }
  destruct Ht as [->|(d & q & i & n & -> & Hn)]; (split; [|cbn; rewrite ?Hc1; exact H2]).
  - intros d q i n E. congruence.
  - rewrite Hk in Hn. destruct Hn as (_ & Hn & _). intros d' q' i' n' [= <- <- <- <-]. exact Hn.
Qed.

Lemma tracks_pass d q i n w : KeepAliveOnClassification cfg = true -> cat w = CPass d q i n -> tracks w ->
  tracks (pass_keep Classify d q n w).
Proof.
  intros Hk Hc [HI1 HI2]. unfold pass_keep.
  destruct (Recent.TextFrom (recent w) (st_mark (st w))) as [text through] eqn:Et.
  assert (Hth : through = Recent.Total (recent w)) by (by rewrite <- (TextFrom_total _ (st_mark (st w))), Et). subst through.
  destruct (Classify _) as [c|]; [|by split].
  destruct (Status c =s? ""); [|split; [done|cbn; lia]]. specialize (HI1 _ _ _ _ Hc).
  destruct n; (split; [done|]); cbn; [done|]. symmetry in HI1. apply negb_false_iff, Z.eqb_eq in HI1. rewrite HI1.
  intros Hlt. specialize (HI2 Hlt). by rewrite Hc in HI2.
Qed.

Lemma tracks_step a w w' : KeepAliveOnClassification cfg = true -> calm a w = true -> tracks w ->
  step a w = Some w' -> tracks w'.
Proof.
  intros Hk Hcalm HI H. destruct a as [t p| |ok|now| | | | | | | | |ps]; cbn in H, Hcalm.
  - if_in H. simplify_eq. exact HI.
  - destruct (writing w); simplify_eq. destruct HI as [HI1 HI2]. split; [|exact HI2]. cbn. by destruct (cat w).
  - if_in H. simplify_eq. destruct ok; exact HI.
  - destruct (cat w) eqn:Hc; simplify_eq. by apply tracks_tick.
  - destruct (cat w) as [|d q i n| |] eqn:Hc; simplify_eq. rewrite Hk. by eapply tracks_pass.
  - destruct (cat w) eqn:Hc, (classifierCh w); simplify_eq. destruct HI as [_ HI2]. rewrite Hc in HI2. by split.
  - destruct (cat w) eqn:Hc; simplify_eq; if_in H; simplify_eq; by split.
  - destruct (sup w) eqn:Hsup, (classifierCh w) as [c|] eqn:Ech; simplify_eq. destruct HI as [HI1 HI2]. rewrite Ech in HI2.
    destruct (receive_cases c out (set_ch None w)) as [[_ ->]|(Hcl & x & -> & _)].
    + split; [exact HI1|]. cbn. intros Hlt. specialize (HI2 Hlt). destruct (cat w); auto.
    + destruct (record_sup c false (set_ch None w)) as (_ & H2 & H3 & H4 & H5 & _). unfold tracks. cbn.
      rewrite H2, H3, H4, H5. cbn. split; [exact HI1|]. intros Hlt. specialize (HI2 Hlt). destruct (cat w); congruence.
  - unfold endWith in H. destruct (sup w); simplify_eq. exact HI.
  - unfold endWith in H. destruct (sup w); simplify_eq. exact HI.
  - destruct (is_none (finalErr w)); [done|]. unfold endWith in H. destruct (sup w); simplify_eq. exact HI.
  - simplify_eq. exact HI.
  - destruct (sup w) as [|out|]; simplify_eq. destruct (cat w) eqn:Hc; simplify_eq. destruct (outputDone w); simplify_eq.
    unfold finish. destruct (classifyExit ps (cancelled w)) as [stat why].
    destruct (resolveActionable _ _ _ _ _) as [[res c] w2] eqn:Hr.
    apply resolve_events in Hr as (_ & Hc2 & _). rewrite Hc in Hc2. unfold tracks. cbn. by rewrite Hc2.
Qed.

Lemma calm_tracks acts w : KeepAliveOnClassification cfg = true -> calm_run acts w -> tracks w.
Proof. intros Hk. induction 1; [by split|by eapply tracks_step]. Qed.

Lemma exec_run acts : forall acts0 w w', run acts0 w -> exec cfg Classify Dur acts w = Some w' -> run (app acts0 acts) w'.
Proof.
  induction acts as [|a acts IH]; intros acts0 w w' Hr H; cbn in H; [simplify_eq; by rewrite app_nil_r|].
  destruct (step a w) as [w1|] eqn:E; [|done]. change (a :: acts) with (app [a] acts). rewrite app_assoc.
  eapply IH; [|exact H]. by econstructor.
Qed.

(** Runs without output inside a tick, computed. *)
Fixpoint calm_exec (acts : list action) (w : world) : option world :=
  match acts with
  | [] => Some w
  | a :: acts => if calm a w then w ← step a w; calm_exec acts w else None
  end.

Lemma calm_exec_run acts : forall acts0 w w', calm_run acts0 w -> calm_exec acts w = Some w' -> calm_run (app acts0 acts) w'.
Proof.
  induction acts as [|a acts IH]; intros acts0 w w' Hr H; cbn in H; [simplify_eq; by rewrite app_nil_r|].
  destruct (calm a w) eqn:Hc; [|done]. destruct (step a w) as [w1|] eqn:E; [|done].
  change (a :: acts) with (app [a] acts). rewrite app_assoc. eapply IH; [|exact H]. by econstructor.
Qed.

(** In keep-alive mode, as long as no output lands between a tick's look at the
    counters and its read of the output, the snapshot tracks the evidence: when
    the harness has written past its last verdict, that output has been passed
    over and nothing is on its way, no verdict is left on the snapshot. *)
Theorem status_tracks_evidence acts w (Hk : KeepAliveOnClassification cfg = true) (H : calm_run acts w)
  (Hc : cat w = CIdle) (Hch : classifierCh w = None) (Hpast : st_mark (st w) < passedThrough (st w)) :
  fst (snap w) = "" \/ fst (snap w) = StatusStale.
Proof.
  destruct (calm_tracks acts w Hk H) as [_ HI]. specialize (HI Hpast). by rewrite Hc, Hch in HI.
Qed.
End Props.

(** ** A run in which the status does not track the evidence *)

Definition sample_cfg (keep : bool) : Config := mkConfig 15 60 300 keep.
Definition lines_of (s : string) : list ascii := app (list_ascii_of_string s) [nl].

(** A classifier that knows one API error. *)
Definition sample_classify (i : ClassifierInput) : option Classification :=
  Some (if Contains (RecentOutput i) "API Error"
        then mkClassification StatusAPIError ErrTransient "api error: 529" false 529 0 0 "" ""
        else noClassification).

(** The error is classified and reported; the output then goes quiet; and
    while the quiet pass runs, between its look at the output total and its
    read of the text, the harness writes on. *)
Definition race : list action :=
  [Stamp 100 (lines_of "API Error: 529"); Store; Tick 101; Pass; Hand; Receive;
   Tick 120; Stamp 121 (lines_of "all is well"); Store; Pass; Tick 122; Tick 150; Pass].

(** The status is lost track of: the harness has written past the error, that
    output was passed over and holds no verdict, nothing is on its way, yet
    the snapshot still says api_error, and no later tick runs a pass. *)
Theorem clear_lost_in_race :
  exists w, run (sample_cfg true) sample_classify Itoa race w /\
    snap w = (StatusAPIError, "api error: 529") /\ cat w = CIdle /\ classifierCh w = None /\
    st_mark (st w) < passedThrough (st w) /\ passedThrough (st w) = Recent.Total (recent w) /\
    (Status <$> sample_classify (mkInput (fst (Recent.TextFrom (recent w) (st_mark (st w)))) 0 false false)) = Some "" /\
    lastSeen (st w) = lastOutput w /\ quietPassed (st w) = true.
Proof.
  destruct (exec (sample_cfg true) sample_classify Itoa race newSession) as [w|] eqn:E; [|by vm_compute in E].
  exists w. split; [by apply (exec_run _ _ _ race []) in E; [|constructor]|].
  vm_compute in E. injection E as <-. vm_compute. repeat split; done.
Qed.

(** ** Witnesses *)

Definition terminal_classify (i : ClassifierInput) : option Classification :=
  Some (if Idle i && Contains (RecentOutput i) "usage limit"
        then mkClassification StatusBlockedByCost ErrRateLimited "usage limit" true 0 0 0 "" "" else noClassification).

(** A run a terminal verdict ends, in the default mode. *)
Definition blocked_run : list action :=
  [Stamp 100 (lines_of "usage limit reached"); Store; Tick 101; Pass; Tick 170; Pass; Receive; ReadEnds true;
   ClassifierReturns; Finish (Some (mkProcessState false 0 "terminated"))].

(** A keep-alive run with a verdict the harness writes past, and a failed exit. *)
Definition kept_run : list action :=
  [Stamp 100 (lines_of "API Error: 529"); Store; Tick 101; Pass; Hand; Receive;
   Stamp 110 (lines_of "all is well"); Store; Tick 111; Pass; Hand; Receive; Tick 112].

Definition world_of (o : option world) : world := default newSession o.

Lemma final_event_last_witness :
  stream_inv (world_of (exec (sample_cfg false) terminal_classify Itoa blocked_run newSession)).
Proof.
  refine (final_event_last (sample_cfg false) terminal_classify Itoa blocked_run _
    (exec_run _ _ _ blocked_run [] newSession _ (run_nil _ _ _) _)). by vm_compute.
Defined.

Lemma events_do_not_repeat_witness :
  no_repeat (events (world_of (exec (sample_cfg false) terminal_classify Itoa blocked_run newSession))).
Proof.
  refine (events_do_not_repeat (sample_cfg false) terminal_classify Itoa blocked_run _ eq_refl
    (exec_run _ _ _ blocked_run [] newSession _ (run_nil _ _ _) _)). by vm_compute.
Defined.

Lemma result_says_how_witness :
  exists out res, sup (world_of (exec (sample_cfg false) terminal_classify Itoa blocked_run newSession)) = Finished out res /\
    explains (sample_cfg false) out res /\ res_Status res = StatusBlockedByCost.
Proof.
  eexists _, _. split; [vm_compute; reflexivity|]. split; [|reflexivity].
  refine (proj1 (result_says_how (sample_cfg false) terminal_classify Itoa blocked_run
    (world_of (exec (sample_cfg false) terminal_classify Itoa blocked_run newSession)) _ _
    (exec_run _ _ _ blocked_run [] newSession _ (run_nil _ _ _) _) _)); by vm_compute.
Defined.

Definition kept_exit : list action :=
  app kept_run [Exit; ReadEnds true; ClassifierReturns; Finish (Some (mkProcessState true 1 ""))].

Lemma keep_alive_never_overruled_witness :
  exists out res, sup (world_of (exec (sample_cfg true) sample_classify Itoa kept_exit newSession)) = Finished out res /\
    terminalClassDone out = None /\ res_Status res ∈ exit_statuses.
Proof.
  eexists _, _. split; [vm_compute; reflexivity|].
  assert (H : forall A B C : Prop, A /\ B /\ C -> A /\ B) by tauto.
  refine (H _ _ _ (keep_alive_never_overruled (sample_cfg true) sample_classify Itoa kept_exit
    (world_of (exec (sample_cfg true) sample_classify Itoa kept_exit newSession)) _ _ eq_refl
    (exec_run _ _ _ kept_exit [] newSession _ (run_nil _ _ _) _) _)); by vm_compute.
Defined.

Lemma passes_bounded_witness : count is_pass kept_exit <= count is_chunk kept_exit + 2.
Proof.
  refine (passes_bounded (sample_cfg true) sample_classify Itoa kept_exit
    (world_of (exec (sample_cfg true) sample_classify Itoa kept_exit newSession)) eq_refl
    (exec_run _ _ _ kept_exit [] newSession _ (run_nil _ _ _) _)). by vm_compute.
Defined.

Lemma status_tracks_evidence_witness :
  let w := world_of (calm_exec (sample_cfg true) sample_classify Itoa kept_run newSession) in
  st_mark (st w) = 15 /\ passedThrough (st w) = 27 /\ (fst (snap w) = "" \/ fst (snap w) = StatusStale).
Proof.
  split; [by vm_compute|]. split; [by vm_compute|].
  refine (status_tracks_evidence (sample_cfg true) sample_classify Itoa kept_run _ eq_refl
    (calm_exec_run _ _ _ kept_run [] newSession _ (calm_nil _ _ _) _) _ _ _); by vm_compute.
Defined.
