(* ===== verification/ContainState.v ===== *)
(** The managed state of contained launches: one session root
    (src/internal/contain/state_linux.go), the launches that use it
    (launch_linux.go) and the session cgroups that tell whether a launch's
    processes are gone (cgroup_linux.go).

    An owner is whatever holds a State handle — a launch, a removal or a sweep
    of stale state — and runs as a program whose steps interleave with the
    other owners' and with the kernel's: processes fork and exit, an owner's
    process may crash, which frees its lock and leaves its harness running.
    System calls fail at any point; a step takes their outcomes as arguments. *)
From Stdlib Require Import ZArith Ascii String Lia.
From stdpp Require Import base tactics list gmap strings option.
From S2P Require Import Prelude GoStr.

#[local] Open Scope string_scope.
#[local] Open Scope Z_scope.

Definition supervisionCgroup : string := "cgroup".
Definition supervisionNone : string := "none".
Definition cleanupComplete : string := "complete".

(** ** Records *)

Record launchRecord := mkLaunchRecord {
  Supervision : string; Cgroup : string; PID : Z; EndedAt : option Z; Cleanup : string }.

(** lifecycle.json; its schema and id never change. *)
Record lifecycleRecord := mkLifecycle { Persistent : bool; LastLaunch : option launchRecord }.

(** ** Names *)

Definition cgroupRoot : string := "/sys/fs/cgroup".
Definition cgroupPrefix : string := "hwc-".

(** [filepath.Base] of a path that is clean and not the root. *)
Definition Base (p : string) : string := default "" (list.last (Split slash p)).

Definition validRecordedCgroup (path : string) : bool :=
  (Clean path =? path)%string && HasPrefix path (cgroupRoot ++ "/") && HasPrefix (Base path) cgroupPrefix.

(** The path newSessionCgroup makes, and the path ownCgroup returns. *)
Definition session_cgroup (own stateID suffix : string) : string :=
  PathJoin own (cgroupPrefix ++ stateID ++ "-" ++ Take 6 suffix).
Definition own_cgroup (rest : string) : string := PathJoin cgroupRoot rest.

Definition idAlphabet : string := "abcdefghijklmnopqrstuvwxyz234567".

(** newID over the bytes [rand.Read] gave. *)
Definition newID (b : list ascii) : string :=
  string_of_list_ascii (map (fun c =>
    default "a"%char (list_ascii_of_string idAlphabet !! Z.to_nat (code c mod slen idAlphabet))) b).

Definition validID (id : string) : bool :=
  (slen id =? 12) && forallb (fun c => ContainsByte idAlphabet c) (list_ascii_of_string id).

(** ** Owners *)

Inductive role := RoleLaunch | RoleRemove | RoleSweep.

(** Where an owner is. [Waiting] holds the record recoverPrevious read. *)
Inductive phase :=
| Locking                                             (* about to lock *)
| Recovering                                          (* locked; recoverPrevious next *)
| Waiting (rec : lifecycleRecord) (l : launchRecord)  (* killed the recorded cgroup *)
| Provisioning                                        (* state, grants, environment *)
| Grouped                                             (* has its cgroup, or none *)
| Ready                                               (* its launch is recorded *)
| Running
| Ending (killed : bool)                              (* Finish wrote cgroup.kill *)
| Removing                                            (* inside os.RemoveAll *)
| Gone.

Record owner := mkOwner {
  o_role : role; persistent : bool; ownsState : bool; RequireSupervision : bool;
  lockFD : option nat;                     (* the lock file it holds *)
  cg : option string; started : bool; pid : Z; o_phase : phase }.

(** A process of a launch: its pid, its owner, its cgroup; [doomed] once
    SIGKILL is on its way. *)
Record process := mkProcess { p_pid : Z; p_owner : nat; p_cgroup : option string; doomed : bool }.

(** [lockfile] is the file named "lock" in the session root, if any; [root]
    says whether the root exists; [record] is lifecycle.json. *)
Record world := mkWorld {
  root : bool; record : option lifecycleRecord; lockfile : option nat; files : nat;
  owners : gmap nat owner; cgroups : gset string; procs : list process; now : Z }.

Definition set_record r w := mkWorld w.(root) r w.(lockfile) w.(files) w.(owners) w.(cgroups) w.(procs) w.(now).
Definition set_owner a o w :=
  mkWorld w.(root) w.(record) w.(lockfile) w.(files) (<[a := o]> w.(owners)) w.(cgroups) w.(procs) w.(now).
Definition set_cgroups c w := mkWorld w.(root) w.(record) w.(lockfile) w.(files) w.(owners) c w.(procs) w.(now).
Definition set_procs ps w := mkWorld w.(root) w.(record) w.(lockfile) w.(files) w.(owners) w.(cgroups) ps w.(now).
Definition set_lockfile l n w := mkWorld w.(root) w.(record) l n w.(owners) w.(cgroups) w.(procs) w.(now).
Definition set_root b w := mkWorld b w.(record) w.(lockfile) w.(files) w.(owners) w.(cgroups) w.(procs) w.(now).

Definition at_phase p o :=
  mkOwner o.(o_role) o.(persistent) o.(ownsState) o.(RequireSupervision) o.(lockFD) o.(cg) o.(started) o.(pid) p.
Definition set_lock l o :=
  mkOwner o.(o_role) o.(persistent) o.(ownsState) o.(RequireSupervision) l o.(cg) o.(started) o.(pid) o.(o_phase).
Definition set_cg c o :=
  mkOwner o.(o_role) o.(persistent) o.(ownsState) o.(RequireSupervision) o.(lockFD) c o.(started) o.(pid) o.(o_phase).
Definition set_started n o :=
  mkOwner o.(o_role) o.(persistent) o.(ownsState) o.(RequireSupervision) o.(lockFD) o.(cg) true n o.(o_phase).

(** Owner [a] goes on to [p]; or lets go of its lock and is done. *)
Definition goto a p o w := set_owner a (at_phase p o) w.
Definition leave a o w := set_owner a (set_lock None (at_phase Gone o)) w.

(** NewState: the root, its record, and its creator, which holds the lock. A
    launch that made the state itself goes straight on; any other creator will
    lock, which does nothing, and recover. *)
Definition NewState (r : role) (isPersistent owns require : bool) : world :=
  mkWorld true (Some (mkLifecycle isPersistent None)) (Some 0%nat) 1
    {[ 0%nat := mkOwner r isPersistent owns require (Some 0%nat) None false 0
                 (if owns then Provisioning else Locking) ]} ∅ [] 0.

(** ** lifecycle.json *)

Definition readLifecycle (fails : bool) (w : world) : option lifecycleRecord :=
  if fails then None else w.(record).

(** The record is replaced by a rename inside the root. *)
Definition writeLifecycle (fails : bool) (rec : lifecycleRecord) (w : world) : option world :=
  if fails || negb w.(root) then None else Some (set_record (Some rec) w).

Definition ended (t : Z) (cleanup : string) (l : launchRecord) : launchRecord :=
  mkLaunchRecord l.(Supervision) l.(Cgroup) l.(PID) (Some t) cleanup.

Definition endLaunch (cleanup : string) (w : world) : world :=
  match w.(record) with
  | Some (mkLifecycle p (Some l)) =>
      default w (writeLifecycle false (mkLifecycle p (Some (ended w.(now) cleanup l))) w)
  | _ => w
  end.

Definition recordLaunch (rd wr : bool) (l : launchRecord) (w : world) : option world :=
  match readLifecycle rd w with
  | Some rec => writeLifecycle wr (mkLifecycle rec.(Persistent) (Some l)) w
  | None => None
  end.

(** ** The lock *)

(** Whether an owner holds lock file [i]. *)
Definition taken (i : nat) (w : world) : bool :=
  existsb (fun o => bool_decide ((o.2).(lockFD) = Some i)) (map_to_list w.(owners)).

(** State.lock: its lock file, opened or created, and an exclusive flock that
    does not wait. *)
Definition lock (fails : bool) (o : owner) (w : world) : option (nat * world) :=
  match o.(lockFD) with
  | Some i => Some (i, w)
  | None =>
    if fails then None
    else match w.(lockfile) with
    | Some i => if taken i w then None else Some (i, w)
    | None => if w.(root) then Some (w.(files), set_lockfile (Some w.(files)) (S w.(files)) w) else None
    end
  end.

(** ** Session cgroups *)

Definition in_cgroup (path : string) (p : process) : bool := bool_decide (p.(p_cgroup) = Some path).

Definition doom (p : process) : process := mkProcess p.(p_pid) p.(p_owner) p.(p_cgroup) true.

(** cgroup.kill: SIGKILL to every member; an absent cgroup is done. *)
Definition killCgroup (fails : bool) (path : string) (w : world) : option world :=
  if decide (path ∈ w.(cgroups)) then
    if fails then None
    else Some (set_procs (map (fun p => if in_cgroup path p then doom p else p) w.(procs)) w)
  else Some w.

Definition populated (path : string) (w : world) : bool := existsb (in_cgroup path) w.(procs).

(** The last look of waitEmpty: [fails] when inotify or the read does. *)
Definition waitEmpty (fails : bool) (path : string) (w : world) : bool :=
  if decide (path ∈ w.(cgroups)) then negb fails && negb (populated path w) else true.

(** rmdir, which the kernel refuses on a populated cgroup. *)
Definition removeCgroup (fails : bool) (path : string) (w : world) : bool * world :=
  if decide (path ∈ w.(cgroups)) then
    if fails || populated path w then (false, w) else (true, set_cgroups (w.(cgroups) ∖ {[path]}) w)
  else (true, w).

(** ** Giving up, recovering, removing *)

(** Release of a launch that did not start. *)
Definition Release (rmdir : bool) (a : nat) (o : owner) (w : world) : world :=
  let w := match o.(cg) with Some path => (removeCgroup rmdir path w).2 | None => w end in
  let w := endLaunch cleanupComplete w in
  if o.(ownsState) then goto a Removing o w else leave a o w.

(** What an owner does once recoverPrevious has answered. *)
Definition recovered (a : nat) (o : owner) (w : world) : world :=
  goto a (match o.(o_role) with RoleLaunch => Provisioning | _ => Removing end) o w.

Definition recover_fails (a : nat) (o : owner) (w : world) : world :=
  match o.(o_role) with RoleLaunch => Release false a o w | _ => leave a o w end.

(** sweepEntry leaves persistent state, and state it cannot read, alone. *)
Definition sweep_skips (o : owner) (w : world) : bool :=
  match o.(o_role) with
  | RoleSweep => match w.(record) with Some rec => rec.(Persistent) | None => true end
  | _ => false
  end.

(** recoverPrevious up to its wait. *)
Definition recoverPrevious (rd kill : bool) (a : nat) (o : owner) (w : world) : world :=
  match readLifecycle rd w with
  | None => recover_fails a o w
  | Some rec =>
    match rec.(LastLaunch) with
    | None => recovered a o w
    | Some l =>
      if negb (bool_decide (l.(EndedAt) = None)) && (l.(Cleanup) =? cleanupComplete)%string then recovered a o w
      else if negb (l.(Supervision) =? supervisionCgroup)%string || (l.(Cgroup) =? "")%string then recover_fails a o w
      else if negb (validRecordedCgroup l.(Cgroup)) then recover_fails a o w
      else match killCgroup kill l.(Cgroup) w with
           | None => recover_fails a o w
           | Some w => goto a (Waiting rec l) o w
           end
    end
  end.

(** Its wait and the rest. *)
Definition recoverCgroup_end (wait rmdir wr : bool) (rec : lifecycleRecord) (l : launchRecord)
    (a : nat) (o : owner) (w : world) : world :=
  if negb (waitEmpty wait l.(Cgroup) w) then recover_fails a o w
  else
    let '(ok, w) := removeCgroup rmdir l.(Cgroup) w in
    if negb ok then recover_fails a o w
    else match writeLifecycle wr (mkLifecycle rec.(Persistent) (Some (ended w.(now) cleanupComplete l))) w with
         | Some w => recovered a o w
         | None => recover_fails a o w
         end.

(** os.RemoveAll done, or failed with what it has removed so far; then the lock
    is let go of. *)
Definition removeTree_end (ok : bool) (a : nat) (o : owner) (w : world) : world :=
  leave a o (if ok then set_root false (set_record None (set_lockfile None w.(files) w)) else w).

(** ** A launch *)

Section Launch.
Context (stateID : string).

(** What newSessionCgroup finds: an error, no delegation, or the wrapper's own
    cgroup with a random suffix. *)
Inductive cgroup_outcome := CgroupError | CgroupNone | CgroupAt (rest suffix : string).

Definition newSessionCgroup (g : cgroup_outcome) (a : nat) (o : owner) (w : world) : world :=
  match g with
  | CgroupError => Release false a o w
  | CgroupNone =>
      if o.(RequireSupervision) || o.(persistent) then Release false a o w else goto a Grouped o w
  | CgroupAt rest suffix =>
      let path := session_cgroup (own_cgroup rest) stateID suffix in
      if decide (path ∈ w.(cgroups)) then Release false a o w
      else goto a Grouped (set_cg (Some path) o) (set_cgroups ({[path]} ∪ w.(cgroups)) w)
  end.

(** The record written before the harness starts. *)
Definition launch_record (o : owner) : launchRecord :=
  match o.(cg) with
  | Some path => mkLaunchRecord supervisionCgroup path 0 None ""
  | None => mkLaunchRecord supervisionNone "" 0 None ""
  end.

Definition prepare_record (rd wr : bool) (a : nat) (o : owner) (w : world) : world :=
  match recordLaunch rd wr (launch_record o) w with
  | Some w => goto a Ready o w
  | None => Release false a o w
  end.

(** The harness is running in its cgroup; its pid is recorded if that works. *)
Definition Start (n : Z) (wr : bool) (a : nat) (o : owner) (w : world) : world :=
  let w := set_procs (w.(procs) ++ [mkProcess n a o.(cg) false]) w in
  let w := match w.(record) with
           | Some (mkLifecycle p (Some l)) =>
               default w (writeLifecycle wr
                 (mkLifecycle p (Some (mkLaunchRecord l.(Supervision) l.(Cgroup) n l.(EndedAt) l.(Cleanup)))) w)
           | _ => w
           end in
  goto a Running (set_started n o) w.

(** The harness started without the socket layer it was asked to run under: it
    is killed and reaped, its cgroup killed; [kids] of its children are left. *)
Definition start_unconfined (kids : list Z) (kill rmdir : bool) (a : nat) (o : owner) (w : world) : world :=
  let w := set_procs (w.(procs) ++ map (fun n => mkProcess n a o.(cg) false) kids)%list w in
  let w := match o.(cg) with Some path => default w (killCgroup kill path w) | None => w end in
  Release rmdir a o w.

(** Finish up to its wait. Without supervision, [swept] is what killSession
    signalled, and the state is kept. *)
Definition Finish (kill : bool) (swept : list Z) (a : nat) (o : owner) (w : world) : world :=
  match o.(cg) with
  | None =>
      let w := set_procs (map (fun p => if decide (p.(p_pid) ∈ swept /\ p.(p_owner) = a) then doom p else p) w.(procs)) w in
      leave a o (endLaunch "incomplete: no cgroup supervision" w)
  | Some path =>
      match killCgroup kill path w with
      | Some w => goto a (Ending true) o w
      | None => goto a (Ending false) o w
      end
  end.

Definition Finish_end (wait rmdir killed : bool) (a : nat) (o : owner) (w : world) : world :=
  let '(cleanup, w) :=
    match o.(cg) with
    | None => (cleanupComplete, w)
    | Some path =>
        if negb (waitEmpty wait path w) then ("incomplete: cgroup still populated", w)
        else let '(ok, w) := removeCgroup rmdir path w in
             (if negb ok then "incomplete: remove cgroup"
              else if killed then cleanupComplete else "incomplete: cgroup.kill", w)
    end in
  let w := endLaunch cleanup w in
  if (cleanup =? cleanupComplete)%string && o.(ownsState) then goto a Removing o w else leave a o w.

(** ** Interleavings *)

(** A step of an owner, with what its system calls answer ([true]: fails), or
    of the kernel. *)
Inductive action :=
| OpenState (a : nat) (r : role) (require : bool)
| Lock (a : nat) (fails : bool)
| Recover (a : nat) (rd kill : bool)
| Recovered (a : nat) (wait rmdir wr : bool)
| Cgrouped (a : nat) (g : cgroup_outcome)
| Recorded (a : nat) (rd wr : bool)
| Refuse (a : nat) (rmdir : bool)
| Started (a : nat) (n : Z) (wr : bool)
| Unconfined (a : nat) (kids : list Z) (kill rmdir : bool)
| Finishing (a : nat) (kill : bool) (swept : list Z)
| Finished (a : nat) (wait rmdir : bool)
| UnlinkLock (a : nat)
| UnlinkRecord (a : nat)
| Removed (a : nat) (ok : bool)
| Crash (a : nat)
| Fork (i : nat) (n : Z)
| Exit (i : nat)
| Clock (t : Z).

Definition lock_fails (a : nat) (o : owner) (w : world) : world := recover_fails a o w.

Definition leader_reaped (a : nat) (o : owner) (w : world) : bool :=
  negb (existsb (fun p => bool_decide (p.(p_pid) = o.(pid) /\ p.(p_owner) = a)) w.(procs)).

Definition owner_step (x : action) (a : nat) (o : owner) (w : world) : option world :=
  match x, o.(o_phase) with
  | Lock _ fails, Locking => Some
      match lock fails o w with
      | Some (i, w) =>
          let o := set_lock (Some i) o in
          if sweep_skips o w then leave a o w else goto a Recovering o w
      | None => lock_fails a o w
      end
  | Recover _ rd kill, Recovering => Some (recoverPrevious rd kill a o w)
  | Recovered _ wait rmdir wr, Waiting rec l => Some (recoverCgroup_end wait rmdir wr rec l a o w)
  | Cgrouped _ g, Provisioning => Some (newSessionCgroup g a o w)
  | Recorded _ rd wr, Grouped => Some (prepare_record rd wr a o w)
  | Refuse _ rmdir, (Provisioning | Ready) => Some (Release rmdir a o w)
  | Started _ n wr, Ready => Some (Start n wr a o w)
  | Unconfined _ kids kill rmdir, Ready => Some (start_unconfined kids kill rmdir a o w)
  | Finishing _ kill swept, Running => if leader_reaped a o w then Some (Finish kill swept a o w) else None
  | Finished _ wait rmdir, Ending killed => Some (Finish_end wait rmdir killed a o w)
  | UnlinkLock _, Removing => Some (set_lockfile None w.(files) w)
  | UnlinkRecord _, Removing => Some (set_record None w)
  | Removed _ ok, Removing => Some (removeTree_end ok a o w)
  | Crash _, _ => Some (leave a o w)
  | _, _ => None
  end.

Definition owner_of (x : action) : option nat :=
  match x with
  | Lock a _ | Recover a _ _ | Recovered a _ _ _ | Cgrouped a _ | Recorded a _ _ | Refuse a _ | Started a _ _
  | Unconfined a _ _ _ | Finishing a _ _ | Finished a _ _ | UnlinkLock a | UnlinkRecord a | Removed a _ | Crash a => Some a
  | _ => None
  end.

Definition step (x : action) (w : world) : option world :=
  match x with
  | OpenState a r require =>
      match w.(owners) !! a, w.(root), w.(record) with
      | None, true, Some rec =>
          Some (set_owner a (mkOwner r rec.(Persistent) false require None None false 0 Locking) w)
      | _, _, _ => None
      end
  | Fork i n =>
      match w.(procs) !! i with
      | Some p => if p.(doomed) then None
                  else Some (set_procs (w.(procs) ++ [mkProcess n p.(p_owner) p.(p_cgroup) false]) w)
      | None => None
      end
  | Exit i => Some (set_procs (delete i w.(procs)) w)
  | Clock t => Some (mkWorld w.(root) w.(record) w.(lockfile) w.(files) w.(owners) w.(cgroups) w.(procs) t)
  | _ =>
      match owner_of x with
      | Some a => match w.(owners) !! a with Some o => owner_step x a o w | None => None end
      | None => None
      end
  end.

Fixpoint run (xs : list action) (w : world) : option world :=
  match xs with
  | [] => Some w
  | x :: xs => match step x w with Some w => run xs w | None => None end
  end.
End Launch.
