(* ===== verification/ContainStateProps.v ===== *)
(** What holds of a session root and its launches over every interleaving of
    their owners, the kernel and system calls that fail: a launch never runs
    beside a process of an earlier one, and state is removed only once no
    process uses it — as long as no launch is refused its lock or its recovery.
    Four runs show what the source does otherwise. *)
From Stdlib Require Import ZArith Ascii String Lia.
From stdpp Require Import base tactics list gmap sets strings option.
From S2P Require Import Prelude GoStr ContainState.

#[local] Open Scope string_scope.
#[local] Open Scope Z_scope.

(** ** Frames *)

Definition complete (l : launchRecord) : bool :=
  negb (bool_decide (l.(EndedAt) = None)) && (l.(Cleanup) =? cleanupComplete)%string.

(** [l] is the record of a launch whose processes are in cgroup [c]. *)
Definition records (l : launchRecord) (c : option string) (w : world) : Prop :=
  match c with
  | Some path => l.(Supervision) = supervisionCgroup /\ l.(Cgroup) = path /\ path ∈ w.(cgroups)
  | None => l.(Supervision) = supervisionNone
  end.

(** The live processes are of one launch, [x], in one cgroup, [c]. *)
Definition one_launch (x : nat) (c : option string) (ps : list process) : Prop :=
  Forall (fun p => p.(p_owner) = x /\ p.(p_cgroup) = c) ps.

(** lifecycle.json says of the live processes where they are, and that they
    may be there. *)
Definition tracked (w : world) : Prop :=
  w.(procs) = [] \/
  exists x c rec l, w.(record) = Some rec /\ rec.(LastLaunch) = Some l /\ complete l = false /\
    records l c w /\ one_launch x c w.(procs).

Definition holds_lock (o : owner) : Prop := is_Some o.(lockFD).

(** The harness runs: its processes and its record. *)
Definition running_ok (a : nat) (o : owner) (w : world) : Prop :=
  holds_lock o /\ one_launch a o.(cg) w.(procs) /\
  exists rec l, w.(record) = Some rec /\ rec.(LastLaunch) = Some l /\ complete l = false /\ records l o.(cg) w.

(** Where an owner's program stands, and what it may rely on there. *)
Definition phase_ok (a : nat) (o : owner) (w : world) : Prop :=
  match o.(o_phase) with
  | Locking => o.(cg) = None
  | Gone => ~ holds_lock o
  | Recovering => holds_lock o /\ o.(cg) = None
  | Waiting rec l => holds_lock o /\ o.(cg) = None /\ w.(record) = Some rec /\ rec.(LastLaunch) = Some l /\
      l.(Supervision) = supervisionCgroup /\ l.(Cgroup) <> ""
  | Provisioning => holds_lock o /\ o.(cg) = None /\ w.(procs) = []
  | Removing => holds_lock o /\ w.(procs) = []
  | Grouped => holds_lock o /\ w.(procs) = [] /\ (forall path, o.(cg) = Some path -> path ∈ w.(cgroups))
  | Ready => holds_lock o /\ w.(procs) = [] /\
      exists rec l, w.(record) = Some rec /\ rec.(LastLaunch) = Some l /\ complete l = false /\ records l o.(cg) w
  | Running => running_ok a o w
  | Ending _ => o.(cg) <> None /\ running_ok a o w
  end.

Record inv (w : world) : Prop := {
  inv_one : forall a b o o', w.(owners) !! a = Some o -> w.(owners) !! b = Some o' ->
    holds_lock o -> holds_lock o' -> a = b;
  inv_file : forall a o, w.(owners) !! a = Some o -> holds_lock o -> o.(o_phase) <> Removing ->
    o.(lockFD) = w.(lockfile);
  inv_phase : forall a o, w.(owners) !! a = Some o -> phase_ok a o w;
  inv_root : w.(root) = false -> w.(procs) = [] /\ w.(lockfile) = None /\ w.(record) = None /\
    forall a o, w.(owners) !! a = Some o -> ~ holds_lock o;
  inv_tracked : tracked w }.

(** ** Careful runs *)

Definition is_removing (o : owner) : bool := match o.(o_phase) with Removing => true | _ => false end.

(** Whether owner [a] went on, rather than give up. *)
Definition goes_on (a : nat) (w : option world) : bool :=
  match (w ≫= fun w => w.(owners) !! a) with
  | Some o => match o.(o_phase), o.(o_role) with
              | (Gone | Removing), RoleLaunch => false
              | _, _ => true
              end
  | None => true
  end.

(** No launch is refused its lock or its recovery; no lock is taken while the
    tree that holds the lock file is being removed; a harness that starts
    without its socket layer leaves no children. *)
Definition careful (stateID : string) (x : action) (w : world) : bool :=
  match x with
  | Lock a _ => forallb (fun o => negb (is_removing o.2)) (map_to_list w.(owners)) && goes_on a (step stateID x w)
  | Recover a _ _ | Recovered a _ _ _ => goes_on a (step stateID x w)
  | Unconfined _ kids _ _ => is_nil kids
  | _ => true
  end.

Inductive reaches (stateID : string) : world -> world -> Prop :=
| reaches_refl w : reaches stateID w w
| reaches_step w0 w1 w2 x : reaches stateID w0 w1 -> careful stateID x w1 = true ->
    step stateID x w1 = Some w2 -> reaches stateID w0 w2.

(** ** What a step by the lock's holder must establish *)

(** Nobody but [a] holds the lock. *)
Definition alone (a : nat) (w : world) : Prop :=
  forall b o, w.(owners) !! b = Some o -> b <> a -> ~ holds_lock o.

Lemma alone_holder w a o : inv w -> w.(owners) !! a = Some o -> holds_lock o -> alone a w.
Proof. intros H Ha Hl b ob Hb Hne Hl'. apply Hne. by eapply (inv_one w H). Qed.

Lemma unlocked_phase w b o w' : inv w -> w.(owners) !! b = Some o -> ~ holds_lock o -> phase_ok b o w'.
Proof.
  intros H Hb Hn. pose proof (inv_phase w H b o Hb) as Hp. unfold phase_ok, running_ok in *. destruct (o_phase o); tauto.
Qed.

Lemma locked_root w a o : inv w -> w.(owners) !! a = Some o -> holds_lock o -> w.(root) = true.
Proof. intros H Ha Hl. destruct (root w) eqn:E; [done|]. exfalso. by apply (inv_root w H E) in Ha. Qed.

Lemma inv_solo a o' w w' : inv w -> alone a w ->
  w'.(owners) = <[a := o']> w.(owners) ->
  (holds_lock o' -> o'.(o_phase) <> Removing -> o'.(lockFD) = w'.(lockfile)) ->
  phase_ok a o' w' -> tracked w' ->
  (w'.(root) = false -> w'.(procs) = [] /\ w'.(lockfile) = None /\ w'.(record) = None /\ ~ holds_lock o') ->
  inv w'.
Proof.
  intros H Ha Ho Hf Hp Ht Hr.
  assert (Hsplit : forall b ob, w'.(owners) !! b = Some ob ->
    (b = a /\ ob = o') \/ (b <> a /\ ~ holds_lock ob /\ forall w'', phase_ok b ob w'')).
  { intros b ob Hb. rewrite Ho in Hb. destruct (decide (b = a)) as [->|Hne].
    - rewrite lookup_insert_eq in Hb. left. by simplify_eq.
    - rewrite lookup_insert_ne in Hb by done. right. assert (Hn : ~ holds_lock ob) by by eapply Ha.
      split_and!; [done|done|]. intros w''. by eapply unlocked_phase. }
  constructor; [..|done].
  - intros b c ob oc [[-> ->]|(? & ? & _)]%Hsplit [[-> ->]|(? & ? & _)]%Hsplit; done.
  - intros b ob [[-> ->]|(? & ? & _)]%Hsplit; done.
  - intros b ob [[-> ->]|(? & _ & ?)]%Hsplit; done.
  - intros E. destruct (Hr E) as (? & ? & ? & ?). split_and!; try done.
    intros b ob [[-> ->]|(? & ? & _)]%Hsplit; done.
Qed.

(** An owner that does not hold the lock, or lets go of it, changes nothing for
    the others. *)
Lemma inv_passive a o' w : inv w -> ~ holds_lock o' -> (forall w', phase_ok a o' w') -> inv (set_owner a o' w).
Proof.
  intros H Hn Hp.
  assert (Hsplit : forall b ob, (set_owner a o' w).(owners) !! b = Some ob ->
    (b = a /\ ob = o') \/ w.(owners) !! b = Some ob).
  { intros b ob Hb. cbn in Hb. apply lookup_insert_Some in Hb as [[<- <-]|[_ Hb]]; auto. }
  constructor; [..|apply (inv_tracked w H)].
  - intros b c ob oc [[-> ->]|Hb]%Hsplit [[-> ->]|Hc]%Hsplit; try done. by eapply (inv_one w H).
  - intros b ob [[-> ->]|Hb]%Hsplit; [done|]. by eapply (inv_file w H).
  - intros b ob [[-> ->]|Hb]%Hsplit; [done|]. by apply (inv_phase w H).
  - intros E. destruct (inv_root w H E) as (? & ? & ? & ?). split_and!; try done.
    intros b ob [[-> ->]|Hb]%Hsplit; eauto.
Qed.

Lemma inv_gone a o w : inv w -> inv (leave a o w).
Proof. intros H. apply inv_passive; [done|by intros [? ?]|by intros ? [? ?]]. Qed.

(** It gives the lock up. *)
Lemma inv_leave a o o1 w w1 : inv w -> w.(owners) !! a = Some o -> holds_lock o ->
  w1.(owners) = w.(owners) -> tracked w1 ->
  (w1.(root) = false -> w1.(procs) = [] /\ w1.(lockfile) = None /\ w1.(record) = None) ->
  inv (leave a o1 w1).
Proof.
  intros H Ha Hl Ho Ht Hr. assert (Hn : ~ holds_lock (set_lock None (at_phase Gone o1))) by (intros [? ?]; done).
  eapply (inv_solo a (set_lock None (at_phase Gone o1)) w); [done|by eapply alone_holder|cbn; by rewrite Ho|done|done|done|].
  intros E. destruct (Hr E) as (? & ? & ?). done.
Qed.

(** It keeps it, in a world with the same root and lock file. *)
Lemma inv_goto a o o1 p w w1 : inv w -> w.(owners) !! a = Some o -> holds_lock o -> o.(o_phase) <> Removing ->
  o1.(lockFD) = o.(lockFD) -> w1.(owners) = w.(owners) -> w1.(root) = w.(root) -> w1.(lockfile) = w.(lockfile) ->
  phase_ok a (at_phase p o1) w1 -> tracked w1 -> inv (goto a p o1 w1).
Proof.
  intros H Ha Hl Hnr Hlk Ho Hr Hf Hp Ht.
  eapply (inv_solo a (at_phase p o1) w); [done|by eapply alone_holder|cbn; by rewrite Ho| |exact Hp|exact Ht|].
  - intros _ _. cbn. rewrite Hlk, Hf. by apply (inv_file w H a o).
  - cbn. rewrite Hr, (locked_root w a o H Ha Hl). done.
Qed.

(** ** Records, cgroups and processes *)

Lemma endLaunch_spec cleanup w : exists r, endLaunch cleanup w = set_record r w /\
  (w.(root) = true -> forall rec l, w.(record) = Some rec -> rec.(LastLaunch) = Some l ->
     r = Some (mkLifecycle rec.(Persistent) (Some (ended w.(now) cleanup l)))).
Proof.
  unfold endLaunch, writeLifecycle. destruct w as [ro [[p [l|]]|] lf fi ow cg_ ps t]; cbn;
    [destruct ro; cbn|..]; (eexists; split; [reflexivity|]); intros ? ? ? ? ?; by simplify_eq/=.
Qed.

Lemma removeCgroup_spec f path w : exists c,
  (removeCgroup f path w).2 = set_cgroups c w /\
  (forall q, q ∈ w.(cgroups) -> q <> path \/ populated path w = true -> q ∈ c).
Proof.
  unfold removeCgroup. destruct (decide (path ∈ cgroups w)); [|exists (cgroups w); by destruct w].
  destruct f; [exists (cgroups w); by destruct w|]. cbn [orb].
  destruct (populated path w); [exists (cgroups w); by destruct w|]. eexists. split; [done|].
  intros q Hq [?|?]; [|done]. set_solver.
Qed.

Lemma one_launch_map x c g ps : (forall p, (g p).(p_owner) = p.(p_owner) /\ (g p).(p_cgroup) = p.(p_cgroup)) ->
  one_launch x c ps -> one_launch x c (map g ps).
Proof.
  intros Hg H. unfold one_launch in *. apply List.Forall_map. eapply list.Forall_impl; [exact H|].
  intros p [<- <-]. apply Hg.
Qed.

Lemma killCgroup_spec f path w w' : killCgroup f path w = Some w' -> exists ps, w' = set_procs ps w /\
  (forall x c, one_launch x c w.(procs) -> one_launch x c ps) /\ (w.(procs) = [] -> ps = []).
Proof.
  unfold killCgroup. intros H. destruct (decide _); [destruct f; [done|]|]; simplify_eq.
  - eexists. split; [done|]. split; [|by intros ->]. intros x c. apply one_launch_map. intros p. by destruct (in_cgroup path p).
  - exists (procs w'). by destruct w'.
Qed.

Lemma populated_launch x path ps : one_launch x (Some path) ps -> ps <> [] -> existsb (in_cgroup path) ps = true.
Proof.
  intros H Hn. destruct ps as [|p ps]; [done|]. inversion_clear H as [|? ? [_ Hc] _]. cbn. unfold in_cgroup at 1.
  by rewrite bool_decide_eq_true_2.
Qed.

Lemma waitEmpty_launch f x path w : waitEmpty f path w = true -> path ∈ w.(cgroups) ->
  one_launch x (Some path) w.(procs) -> w.(procs) = [].
Proof.
  unfold waitEmpty. intros H Hc Hp. rewrite decide_True in H by done. bprop. unfold populated in *.
  destruct (procs w) eqn:E; [done|]. rewrite (populated_launch x) in H0; done.
Qed.

Lemma tracked_nil w : w.(procs) = [] -> tracked w.
Proof. by left. Qed.

(** Only the record's end, and which cgroups exist, may change. *)
Lemma one_launch_nil x c : one_launch x c [].
Proof. constructor. Qed.
#[export] Hint Resolve tracked_nil one_launch_nil : hw.

(** ** Steps that end in giving up *)

Lemma Release_owners f a o w : exists r c, Release f a o w =
  (if o.(ownsState) then goto a Removing o else leave a o) (set_record r (set_cgroups c w)).
Proof.
  unfold Release. destruct (o.(cg)) as [path|].
  - destruct (removeCgroup_spec f path w) as (c & -> & _).
    destruct (endLaunch_spec cleanupComplete (set_cgroups c w)) as (r & -> & _). exists r, c. by destruct (ownsState o).
  - destruct (endLaunch_spec cleanupComplete w) as (r & -> & _). exists r, (cgroups w). by destruct w, (ownsState o).
Qed.

Lemma inv_Release f a o o1 w w1 : inv w -> w.(owners) !! a = Some o -> holds_lock o -> o.(o_phase) <> Removing ->
  o1.(lockFD) = o.(lockFD) -> w1.(owners) = w.(owners) -> w1.(root) = w.(root) -> w1.(lockfile) = w.(lockfile) ->
  w1.(procs) = [] -> inv (Release f a o1 w1).
Proof.
  intros H Ha Hl Hnr Hlk Ho Hr Hf Hp. destruct (Release_owners f a o1 w1) as (r & c & ->).
  destruct (ownsState o1).
  - eapply (inv_goto a o o1 Removing w); [done..| |by left]. split; [|done]. unfold holds_lock. cbn. by rewrite Hlk.
  - eapply (inv_leave a o o1 w); [done..|by left|]. cbn. by rewrite Hr, (locked_root w a o H Ha Hl).
Qed.

(** Giving up leaves the world tracked, but for what Release says. *)
Lemma goes_on_release f a o w : o.(o_role) = RoleLaunch -> goes_on a (Some (Release f a o w)) = false.
Proof.
  intros Hr. destruct (Release_owners f a o w) as (r & c & ->). unfold goes_on, goto, leave.
  destruct (ownsState o); cbn; rewrite lookup_insert_eq; cbn; by rewrite Hr.
Qed.

Lemma inv_recover_fails a o o1 w w1 : inv w -> w.(owners) !! a = Some o -> holds_lock o ->
  w1.(owners) = w.(owners) -> w1.(root) = w.(root) -> tracked w1 ->
  goes_on a (Some (recover_fails a o1 w1)) = true -> inv (recover_fails a o1 w1).
Proof.
  intros H Ha Hl Ho Hr Ht Hg. unfold recover_fails in *.
  destruct (o_role o1) eqn:E; [by rewrite goes_on_release in Hg|..];
    (eapply (inv_leave a o o1 w); [done..|]; by rewrite Hr, (locked_root w a o H Ha Hl)).
Qed.

(** An owner that recovered found no process. *)
Lemma inv_recovered a o w w1 : inv w -> w.(owners) !! a = Some o -> holds_lock o -> o.(o_phase) <> Removing ->
  o.(cg) = None -> w1.(owners) = w.(owners) -> w1.(root) = w.(root) -> w1.(lockfile) = w.(lockfile) ->
  w1.(procs) = [] -> inv (recovered a o w1).
Proof.
  intros H Ha Hl Hnr Hc Ho Hr Hf Hp. eapply (inv_goto a o o _ w); [done..| |by left].
  destruct (o_role o); done.
Qed.

(** ** Processes *)

Lemma inv_procs ps w : inv w -> (forall x c, one_launch x c w.(procs) -> one_launch x c ps) ->
  (w.(procs) = [] -> ps = []) -> inv (set_procs ps w).
Proof.
  intros H Hp Hn. constructor.
  - apply (inv_one w H).
  - apply (inv_file w H).
  - intros a o Ha. pose proof (inv_phase w H a o Ha) as Hok. unfold phase_ok, running_ok in *. cbn.
    destruct (o_phase o); naive_solver.
  - intros E. destruct (inv_root w H E) as (? & ? & ? & ?). split_and!; auto.
  - destruct (inv_tracked w H) as [Hw|(x & c & rec & l & ? & ? & ? & ? & ?)]; [left; auto|].
    right. exists x, c, rec, l. split_and!; auto.
Qed.

Lemma inv_fork i p n w : inv w -> w.(procs) !! i = Some p ->
  inv (set_procs (w.(procs) ++ [mkProcess n p.(p_owner) p.(p_cgroup) false]) w).
Proof.
  intros H Hi. apply inv_procs; [done| |intros E; by rewrite E in Hi].
  intros x c Hf. apply list.Forall_app. split; [done|]. apply list.Forall_singleton. cbn.
  unfold one_launch in Hf. rewrite list.Forall_lookup in Hf. by apply (Hf i).
Qed.

Lemma inv_exit i w : inv w -> inv (set_procs (delete i w.(procs)) w).
Proof. intros H. apply inv_procs; [done| |by intros ->]. intros x c. apply list.Forall_delete. Qed.

(** ** Locking *)

Lemma nobody_removing w : forallb (fun o => negb (is_removing o.2)) (map_to_list w.(owners)) = true ->
  forall b o, w.(owners) !! b = Some o -> o.(o_phase) <> Removing.
Proof.
  intros H b o Hb Hr. rewrite forallb_elem in H. specialize (H (b, o)).
  rewrite elem_of_map_to_list in H. specialize (H Hb). unfold is_removing in H. cbn in H. by rewrite Hr in H.
Qed.

Lemma lock_alone f w w' o i a : inv w -> (forall b o, w.(owners) !! b = Some o -> o.(o_phase) <> Removing) ->
  w.(owners) !! a = Some o -> lock f o w = Some (i, w') ->
  alone a w /\ w.(root) = true /\ exists n, w' = set_lockfile (Some i) n w.
Proof.
  intros H Hr Ha Hlk. unfold lock in Hlk. destruct (lockFD o) as [j|] eqn:Eo.
  { simplify_eq. assert (Hl : holds_lock o) by (unfold holds_lock; by rewrite Eo).
    split_and!; [by eapply alone_holder|by eapply locked_root|]. exists (files w').
    pose proof (inv_file w' H a o Ha Hl (Hr a o Ha)) as Hf. rewrite Eo in Hf. rewrite Hf. by destruct w'. }
  destruct f; [done|].
  assert (Hfile : forall b ob, w.(owners) !! b = Some ob -> holds_lock ob -> ob.(lockFD) = w.(lockfile))
    by (intros b ob Hb Hl; apply (inv_file w H b ob Hb Hl); eauto).
  destruct (lockfile w) as [j|] eqn:Ef.
  - destruct (taken j w) eqn:Et; [done|]. simplify_eq. split_and!; [|..|exists (files w'); destruct w'; cbn in *; by subst].
    + intros b ob Hb _ Hl. unfold taken in Et. rewrite <- not_true_iff_false in Et. apply Et, existsb_exists.
      exists (b, ob). split; [by apply list_elem_of_In, elem_of_map_to_list|]. cbn. apply bool_decide_eq_true_2. eauto.
    + destruct (root w') eqn:Er; [done|]. destruct (inv_root w' H Er) as (_ & Hn & _). congruence.
  - destruct (root w); [|done]. simplify_eq. split_and!; [|done|by eexists].
    intros b ob Hb _ Hl. specialize (Hfile b ob Hb Hl). destruct Hl as [? Hl]. congruence.
Qed.

Section Steps.
Context (w : world) (a : nat) (o : owner).
Hypothesis (H : inv w) (Ha : w.(owners) !! a = Some o).

Lemma step_lock f w' : o.(o_phase) = Locking ->
  (forall b o, w.(owners) !! b = Some o -> o.(o_phase) <> Removing) ->
  w' = match lock f o w with
       | Some (i, w1) => if sweep_skips (set_lock (Some i) o) w1 then leave a (set_lock (Some i) o) w1
                         else goto a Recovering (set_lock (Some i) o) w1
       | None => lock_fails a o w
       end ->
  goes_on a (Some w') = true -> inv w'.
Proof.
  intros Hp Hr -> Hg. pose proof (inv_phase w H a o Ha) as Hok. unfold phase_ok in Hok. rewrite Hp in Hok.
  destruct (lock f o w) as [[i w1]|] eqn:Hlk.
  - destruct (lock_alone _ _ _ _ _ _ H Hr Ha Hlk) as (Hal & Hroot & n & ->).
    destruct (sweep_skips _ _); (eapply (inv_solo a _ w); [done|done|done|..]).
    + by intros [? ?].
    + by intros [? ?].
    + apply (inv_tracked w H).
    + cbn. by rewrite Hroot.
    + done.
    + split; [by eexists|done].
    + apply (inv_tracked w H).
    + cbn. by rewrite Hroot.
  - unfold lock_fails, recover_fails in *. destruct (o_role o) eqn:E; [by rewrite goes_on_release in Hg|by apply inv_gone..].
Qed.

Hypothesis Hl : holds_lock o.

Lemma step_recover rd kill : o.(o_phase) = Recovering ->
  goes_on a (Some (recoverPrevious rd kill a o w)) = true -> inv (recoverPrevious rd kill a o w).
Proof.
  intros Hp Hg. pose proof (inv_phase w H a o Ha) as Hok. unfold phase_ok in Hok. rewrite Hp in Hok. destruct Hok as [_ Hc].
  assert (Hfail : goes_on a (Some (recover_fails a o w)) = true -> inv (recover_fails a o w))
    by (apply (inv_recover_fails a o o w w); try done; apply (inv_tracked w H)).
  assert (Hgone : w.(procs) = [] -> inv (recovered a o w))
    by (intros; apply (inv_recovered a o w w); try done; by rewrite Hp).
  assert (Htr := inv_tracked w H). unfold recoverPrevious in *.
  destruct (readLifecycle rd w) as [rec|] eqn:Er; [|auto].
  assert (Hrec : record w = Some rec) by (unfold readLifecycle in Er; by destruct rd).
  destruct (LastLaunch rec) as [l|] eqn:El.
  2: { apply Hgone. destruct Htr as [?|(? & ? & ? & ? & ? & ? & _)]; congruence. }
  change (negb _ && _) with (complete l) in *. destruct (complete l) eqn:Ec.
  { apply Hgone. destruct Htr as [?|(? & ? & ? & ? & ? & ? & ? & _)]; congruence. }
  destruct (_ || _) eqn:Es; [auto|]. destruct (negb (validRecordedCgroup _)) eqn:Ev; [auto|].
  destruct (killCgroup kill (Cgroup l) w) as [w1|] eqn:Ek; [|auto].
  destruct (killCgroup_spec _ _ _ _ Ek) as (ps & -> & Hps & Hnil). bprop.
  assert (Hnr : o_phase o <> Removing) by (by rewrite Hp).
  eapply (inv_goto a o o _ w); try done. by destruct (inv_procs ps w) as [_ _ _ _ ?].
Qed.

Lemma step_recovered wait rmdir wr rec l : o.(o_phase) = Waiting rec l ->
  goes_on a (Some (recoverCgroup_end wait rmdir wr rec l a o w)) = true ->
  inv (recoverCgroup_end wait rmdir wr rec l a o w).
Proof.
  intros Hp Hg. pose proof (inv_phase w H a o Ha) as Hok. unfold phase_ok in Hok. rewrite Hp in Hok.
  destruct Hok as (_ & Hc & Hrec & Hlast & Hsup & Hne).
  assert (Hfail : forall w1, w1.(owners) = w.(owners) -> w1.(root) = w.(root) -> tracked w1 ->
    goes_on a (Some (recover_fails a o w1)) = true -> inv (recover_fails a o w1))
    by (intros; by apply (inv_recover_fails a o o w)).
  assert (Htr := inv_tracked w H). unfold recoverCgroup_end in *.
  destruct (waitEmpty wait (Cgroup l) w) eqn:Ew; cbn [negb] in *; [|by apply Hfail].
  assert (Hnil : w.(procs) = []).
  { destruct Htr as [?|(x & c & rec' & l' & Hr' & Hl' & _ & Hc' & Hone)]; [done|].
    assert (rec' = rec) as -> by congruence. assert (l' = l) as -> by congruence. unfold records in Hc'.
    destruct c as [path|]; [|rewrite Hsup in Hc'; discriminate Hc']. destruct Hc' as (_ & <- & Hin).
    by eapply waitEmpty_launch. }
  destruct (removeCgroup_spec rmdir (Cgroup l) w) as (c & Hw & _).
  destruct (removeCgroup rmdir (Cgroup l) w) as [ok w1]. cbn in Hw. subst w1.
  destruct ok; cbn [negb] in *; [|apply Hfail; try done; by left].
  destruct (writeLifecycle wr _ _) as [w2|] eqn:Ewr; [|apply Hfail; try done; by left].
  unfold writeLifecycle in Ewr. destruct (wr || _); [done|]. simplify_eq.
  eapply (inv_recovered a o w); try done. by rewrite Hp.
Qed.

(** The record of the launch, and its cgroup. *)
Lemma launch_record_ok w1 : (forall path, o.(cg) = Some path -> path ∈ w1.(cgroups)) ->
  complete (launch_record o) = false /\ records (launch_record o) o.(cg) w1.
Proof. intros Hc. unfold launch_record. destruct (cg o); cbn; auto. Qed.

Lemma step_cgroup stateID g : o.(o_phase) = Provisioning -> inv (newSessionCgroup stateID g a o w).
Proof.
  intros Hp. pose proof (inv_phase w H a o Ha) as Hok. unfold phase_ok in Hok. rewrite Hp in Hok.
  destruct Hok as (_ & Hc & Hnil). assert (Hnr : o_phase o <> Removing) by (by rewrite Hp).
  assert (Hrel : inv (Release false a o w)) by (by apply (inv_Release false a o o w w)).
  unfold newSessionCgroup. destruct g as [| |rest suffix]; [done|..].
  - destruct (_ || _); [done|]. apply (inv_goto a o o Grouped w w); try done; [|by left].
    unfold phase_ok. cbn. rewrite Hc. done.
  - destruct (decide _); [done|]. apply (inv_goto a o _ Grouped w); try done; [|by left].
    unfold phase_ok. cbn. split_and!; [done|done|]. intros path [= <-]. set_solver.
Qed.

Lemma step_record rd wr : o.(o_phase) = Grouped -> inv (prepare_record rd wr a o w).
Proof.
  intros Hp. pose proof (inv_phase w H a o Ha) as Hok. unfold phase_ok in Hok. rewrite Hp in Hok.
  destruct Hok as (_ & Hnil & Hcg). assert (Hnr : o_phase o <> Removing) by (by rewrite Hp).
  assert (Hrel : inv (Release false a o w)) by (by apply (inv_Release false a o o w w)).
  unfold prepare_record, recordLaunch, writeLifecycle. destruct (readLifecycle rd w) as [rec|]; [|done].
  destruct (wr || _); [done|]. apply (inv_goto a o o Ready w); try done; [|by left].
  unfold phase_ok. cbn. split_and!; try done. eexists _, (launch_record o).
  destruct (launch_record_ok w Hcg) as [? ?]. done.
Qed.

Lemma step_refuse rmdir : o.(o_phase) = Provisioning \/ o.(o_phase) = Ready -> inv (Release rmdir a o w).
Proof.
  intros Hp. pose proof (inv_phase w H a o Ha) as Hok. unfold phase_ok in Hok.
  assert (Hnil : procs w = []) by (destruct Hp as [Hp|Hp]; rewrite Hp in Hok; tauto).
  apply (inv_Release rmdir a o o w w); try done. by destruct Hp as [-> | ->].
Qed.

Lemma step_start n wr : o.(o_phase) = Ready -> inv (Start n wr a o w).
Proof.
  intros Hp. pose proof (inv_phase w H a o Ha) as Hok. unfold phase_ok in Hok. rewrite Hp in Hok.
  destruct Hok as (_ & Hnil & rec & l & Hrec & Hlast & Hc & Hr).
  assert (Hnr : o_phase o <> Removing) by (by rewrite Hp). set (ps := [mkProcess n a (cg o) false]).
  assert (Hw : exists rec' l', Start n wr a o w = goto a Running (set_started n o) (set_record (Some rec') (set_procs ps w)) /\
    LastLaunch rec' = Some l' /\ complete l' = false /\ records l' (cg o) w).
  { unfold Start, writeLifecycle. cbn. rewrite Hnil, Hrec. destruct rec as [p [l'|]]; cbn in Hlast; simplify_eq. cbn.
    destruct (wr || _); cbn.
    - exists (mkLifecycle p (Some l)), l. split; [|done]. f_equal. unfold set_record, set_procs. cbn. by rewrite Hrec.
    - eexists _, _. split; [done|]. split; [done|]. split; [done|]. by destruct (cg o). }
  destruct Hw as (rec' & l' & -> & Hlast' & Hc' & Hr').
  assert (Hone : one_launch a (cg o) ps) by (by apply list.Forall_singleton).
  apply (inv_goto a o _ Running w); try done.
  - unfold phase_ok, running_ok. cbn. split_and!; [done|done|]. exists rec', l'. by destruct (cg o).
  - right. exists a, (cg o), rec', l'. by destruct (cg o).
Qed.

Lemma step_unconfined kill rmdir : o.(o_phase) = Ready -> inv (start_unconfined [] kill rmdir a o w).
Proof.
  intros Hp. pose proof (inv_phase w H a o Ha) as Hok. unfold phase_ok in Hok. rewrite Hp in Hok.
  destruct Hok as (_ & Hnil & _). unfold start_unconfined. cbn [map]. rewrite app_nil_r.
  assert (Hnr : o_phase o <> Removing) by (by rewrite Hp).
  destruct (cg o) as [path|] eqn:Ec; [|by apply (inv_Release rmdir a o o w)].
  destruct (killCgroup kill path _) as [w1|] eqn:Ek; [|by apply (inv_Release rmdir a o o w)].
  destruct (killCgroup_spec _ _ _ _ Ek) as (ps & -> & _ & Hps). cbn in Hps. apply (inv_Release rmdir a o o w); try done. auto.
Qed.

(** The running launch's record, wherever its owner ends. *)
Lemma running_record : o.(o_phase) = Running \/ (exists k, o.(o_phase) = Ending k) ->
  one_launch a o.(cg) w.(procs) /\
  exists rec l, w.(record) = Some rec /\ rec.(LastLaunch) = Some l /\ complete l = false /\ records l o.(cg) w.
Proof.
  intros Hp. pose proof (inv_phase w H a o Ha) as Hok. unfold phase_ok in Hok.
  destruct Hp as [Hp|[k Hp]]; rewrite Hp in Hok; [apply Hok|]. destruct Hok as [_ Hok]. apply Hok.
Qed.

(** Ending a launch as incomplete keeps what is left of it on record. *)
Lemma tracked_incomplete cleanup ps : o.(o_phase) = Running \/ (exists k, o.(o_phase) = Ending k) ->
  (cleanup =? cleanupComplete)%string = false -> one_launch a o.(cg) ps ->
  tracked (endLaunch cleanup (set_procs ps w)).
Proof.
  intros Hp Hcl Hps. destruct (running_record Hp) as (_ & rec & l & Hrec & Hlast & _ & Hr).
  destruct (endLaunch_spec cleanup (set_procs ps w)) as (r & -> & Hspec).
  rewrite (Hspec (locked_root w a o H Ha Hl) rec l Hrec Hlast). right. exists a, (cg o).
  eexists _, _. split; [done|]. split; [done|]. split_and!; [|by destruct (cg o)|done].
  unfold complete. cbn. by rewrite Hcl.
Qed.

Lemma endLaunch_frame cleanup w1 : (endLaunch cleanup w1).(owners) = w1.(owners) /\
  (endLaunch cleanup w1).(root) = w1.(root) /\ (endLaunch cleanup w1).(lockfile) = w1.(lockfile) /\
  (endLaunch cleanup w1).(procs) = w1.(procs).
Proof. by destruct (endLaunch_spec cleanup w1) as (r & -> & _). Qed.

Lemma step_finish kill swept : o.(o_phase) = Running -> inv (Finish kill swept a o w).
Proof.
  intros Hp. destruct (running_record (or_introl Hp)) as (Hone & rec & l & Hrec & Hlast & Hc & Hr).
  assert (Hnr : o_phase o <> Removing) by (by rewrite Hp). unfold Finish. destruct (cg o) as [path|] eqn:Ec.
  - assert (Hgo : forall ps k, one_launch a (Some path) ps -> inv (goto a (Ending k) o (set_procs ps w))).
    { intros ps k Hps. apply (inv_goto a o o _ w); try done.
      - unfold phase_ok, running_ok. cbn. rewrite Ec. split_and!; [done|done|done|]. by exists rec, l.
      - right. by exists a, (Some path), rec, l. }
    destruct (killCgroup kill path w) as [w1|] eqn:Ek.
    + destruct (killCgroup_spec _ _ _ _ Ek) as (ps & -> & Hps & _). auto.
    + specialize (Hgo (procs w) false Hone). by destruct w.
  - set (ps := map _ (procs w)).
    assert (Hps : one_launch a (cg o) ps) by (rewrite Ec; apply one_launch_map; [|done]; intros p; by destruct (decide _)).
    destruct (endLaunch_frame "incomplete: no cgroup supervision" (set_procs ps w)) as (Ho & Hr' & _ & _).
    apply (inv_leave a o o w); [done|done|done|by rewrite Ho| |].
    + apply tracked_incomplete; [by left|done|done].
    + rewrite Hr'. cbn. by rewrite (locked_root w a o H Ha Hl).
Qed.

(** Finish's end: nothing is left, or the state stays on record as in use. *)
Lemma step_finished wait rmdir killed : o.(o_phase) = Ending killed -> inv (Finish_end wait rmdir killed a o w).
Proof.
  intros Hp. assert (Hrun : o.(o_phase) = Running \/ (exists k, o.(o_phase) = Ending k)) by eauto.
  destruct (running_record Hrun) as (Hone & rec & l & Hrec & Hlast & Hc & Hr).
  assert (Hnr : o_phase o <> Removing) by (by rewrite Hp).
  assert (Hend : forall cleanup w1, w1.(owners) = w.(owners) -> w1.(root) = w.(root) -> w1.(lockfile) = w.(lockfile) ->
    w1.(procs) = [] -> inv (if (cleanup =? cleanupComplete)%string && ownsState o
                           then goto a Removing o (endLaunch cleanup w1) else leave a o (endLaunch cleanup w1))).
  { intros cleanup w1 Ho Hro Hf Hnil. destruct (endLaunch_frame cleanup w1) as (Ho' & Hro' & Hf' & Hps').
    destruct (_ && _).
    - apply (inv_goto a o o Removing w); try done; try congruence; [|left; congruence]. split; [done|]. cbn. congruence.
    - apply (inv_leave a o o w); try done; try congruence; [left; congruence|].
      rewrite Hro', Hro, (locked_root w a o H Ha Hl). done. }
  unfold Finish_end. destruct (cg o) as [path|] eqn:Ec.
  - destruct (waitEmpty wait path w) eqn:Ew; cbn [negb].
    + assert (Hnil : procs w = []) by (eapply (waitEmpty_launch wait a path); [done|by destruct Hr as (_ & _ & ?)|done]).
      destruct (removeCgroup_spec rmdir path w) as (c & Hw & _).
      destruct (removeCgroup rmdir path w) as [ok w1]. cbn in Hw. subst w1. by apply Hend.
    + cbn [andb String.eqb]. apply (inv_leave a o o w); try done; [by destruct (endLaunch_frame "incomplete: cgroup still populated" w) as (-> & _)| |].
      * pose proof (tracked_incomplete "incomplete: cgroup still populated" (procs w) Hrun eq_refl) as Ht.
        rewrite Ec in Ht. specialize (Ht Hone). by destruct w.
      * destruct (endLaunch_frame "incomplete: cgroup still populated" w) as (_ & -> & _).
        by rewrite (locked_root w a o H Ha Hl).
  - pose proof (inv_phase w H a o Ha) as Hok. unfold phase_ok in Hok. rewrite Hp in Hok. by destruct Hok.
Qed.

Lemma removing_nil : o.(o_phase) = Removing -> procs w = [].
Proof. intros Hp. pose proof (inv_phase w H a o Ha) as Hok. unfold phase_ok in Hok. rewrite Hp in Hok. apply Hok. Qed.

(** Removal, entry by entry. *)
Lemma step_unlink r f : o.(o_phase) = Removing -> inv (set_record r (set_lockfile f w.(files) w)).
Proof.
  intros Hp. pose proof (removing_nil Hp) as Hnil.
  eapply (inv_solo a o w); [done|by eapply alone_holder|cbn; by rewrite insert_id|done| |by left|].
  - unfold phase_ok. by rewrite Hp.
  - cbn. by rewrite (locked_root w a o H Ha Hl).
Qed.

Lemma step_removed ok : o.(o_phase) = Removing -> inv (removeTree_end ok a o w).
Proof.
  intros Hp. pose proof (removing_nil Hp) as Hnil. unfold removeTree_end. destruct ok.
  - apply (inv_leave a o o w); try done. by left.
  - by apply inv_gone.
Qed.
End Steps.

(** ** Every careful step keeps the invariant *)

Lemma phase_locked w a o : inv w -> w.(owners) !! a = Some o ->
  o.(o_phase) <> Locking -> o.(o_phase) <> Gone -> holds_lock o.
Proof.
  intros H Ha H1 H2. pose proof (inv_phase w H a o Ha) as Hok. unfold phase_ok, running_ok in Hok.
  destruct (o_phase o); tauto.
Qed.

Lemma owner_step_inv stateID x a o w w' : inv w -> w.(owners) !! a = Some o ->
  (forall f, x = Lock a f -> (forall b o, w.(owners) !! b = Some o -> o.(o_phase) <> Removing) /\ goes_on a (Some w') = true) ->
  (forall rd kill, x = Recover a rd kill -> goes_on a (Some w') = true) ->
  (forall f1 f2 f3, x = Recovered a f1 f2 f3 -> goes_on a (Some w') = true) ->
  (forall kids k r, x = Unconfined a kids k r -> kids = []) -> owner_of x = Some a ->
  owner_step stateID x a o w = Some w' -> inv w'.
Proof.
  intros H Ha Hlock Hrec Hrec2 Hun Hown Hs.
  assert (Hld := phase_locked w a o H Ha).
  destruct x; cbn in Hown; simplify_eq; cbn in Hs; destruct (o_phase o) eqn:Hp; simplify_eq;
    try (apply (inv_gone a o w H)); (try (assert (Hl : holds_lock o) by (by apply Hld))).
  - destruct (Hlock _ eq_refl). by eapply (step_lock w a o H Ha fails).
  - apply step_recover; eauto.
  - apply step_recovered; eauto.
  - by apply step_cgroup.
  - by apply step_record.
  - apply step_refuse; auto.
  - apply step_refuse; auto.
  - by apply step_start.
  - rewrite (Hun _ _ _ eq_refl). by apply step_unconfined.
  - destruct (leader_reaped a o w); simplify_eq. by apply step_finish.
  - by apply step_finished.
  - pose proof (step_unlink w a o H Ha Hl (record w) None Hp). by destruct w.
  - pose proof (step_unlink w a o H Ha Hl None (lockfile w) Hp). by destruct w.
  - by apply step_removed.
Qed.

Lemma step_inv stateID x w w' : inv w -> careful stateID x w = true -> step stateID x w = Some w' -> inv w'.
Proof.
  intros H Hc Hs. unfold careful in Hc. rewrite Hs in Hc.
  assert (Hown : forall a, owner_of x = Some a -> step stateID x w =
    match w.(owners) !! a with Some o => owner_step stateID x a o w | None => None end)
    by (intros a Hx; destruct x; cbn in Hx; by simplify_eq).
  destruct (owner_of x) as [a|] eqn:Ex.
  - rewrite (Hown a eq_refl) in Hs. destruct (owners w !! a) as [o|] eqn:Ha; [|done].
    eapply (owner_step_inv stateID x a o w); [done|done|..|done|done]; intros; subst x; cbn in Ex; simplify_eq; bprop.
    + split; [by apply nobody_removing|done].
    + done.
    + done.
    + by destruct kids.
  - destruct x; cbn in Ex; simplify_eq; cbn in Hs.
    + destruct (owners w !! a) eqn:Ea; [done|]. destruct (root w); [|done]. destruct (record w); simplify_eq.
      by apply inv_passive; [|by intros [? ?]|].
    + destruct (procs w !! i) as [p|] eqn:Ei; [|done]. destruct (doomed p); simplify_eq. by eapply inv_fork.
    + simplify_eq. by apply inv_exit.
    + simplify_eq. destruct H as [H1 H2 H3 H4 H5]. by constructor.
Qed.

Lemma reach_new r p owns require : inv (NewState r p owns require).
Proof.
  assert (Ho : forall b ob, owners (NewState r p owns require) !! b = Some ob ->
    ob = mkOwner r p owns require (Some 0%nat) None false 0 (if owns then Provisioning else Locking) /\ b = 0%nat).
  { intros b ob Hb. unfold NewState in Hb; cbn [owners] in Hb; apply lookup_singleton_Some in Hb as [<- <-]. done. }
  constructor.
  - intros a b o o' [_ ->]%Ho [_ ->]%Ho. done.
  - by intros a o [-> _]%Ho.
  - intros a o [-> ->]%Ho. by destruct owns; cbn; [split; [by eexists|]|].
  - done.
  - by left.
Qed.

Lemma reaches_inv stateID r p owns require w : reaches stateID (NewState r p owns require) w -> inv w.
Proof.
  intros H. remember (NewState r p owns require) as w0. induction H as [w|w0 w1 w2 x _ IH Hc Hs]; subst.
  - apply reach_new.
  - eapply step_inv; [by apply IH|done|done].
Qed.

(** ** No two launches at once *)


(** Over every careful run, state is removed only when no process uses it:
    nothing lives once removal has begun, nor after it. *)
Theorem state_removed_when_empty stateID r p owns require w :
  reaches stateID (NewState r p owns require) w ->
  w.(root) = false \/ (exists a o, w.(owners) !! a = Some o /\ o.(o_phase) = Removing) -> w.(procs) = [].
Proof.
  intros H%reaches_inv [Hr|(a & o & Ha & Hp)]; [by apply (inv_root w H)|by eapply removing_nil].
Qed.

(** ** Recovery *)

Lemma killed_doomed w w' path : killCgroup false path w = Some w' -> path ∈ w.(cgroups) ->
  Forall (fun p => p.(p_cgroup) = Some path) w.(procs) ->
  w' = set_procs (map doom w.(procs)) w.
Proof.
  unfold killCgroup. intros Hk Hin Hall. rewrite decide_True in Hk by done. simplify_eq. f_equal.
  apply map_ext_in. intros p Hp%list_elem_of_In. rewrite list.Forall_forall in Hall.
  unfold in_cgroup. by rewrite bool_decide_eq_true_2 by auto.
Qed.

Lemma run_exits stateID w : forall ps, w.(procs) = ps ->
  run stateID (replicate (length ps) (Exit 0)) w = Some (set_procs [] w).
Proof.
  intros ps. revert w. induction ps as [|q ps IH]; intros w Hw; cbn [length replicate run].
  - rewrite <- Hw. by destruct w.
  - cbn [step]. rewrite (IH (set_procs (delete 0%nat (procs w)) w)); [by destruct w|]. cbn. by rewrite Hw.
Qed.

Lemma run_then stateID xs ys : forall w, run stateID (xs ++ ys) w = run stateID xs w ≫= run stateID ys.
Proof. induction xs as [|x xs IH]; intros w; [done|]. cbn. destruct (step stateID x w); [apply IH|done]. Qed.

(** A launch that crashed under supervision can always be recovered: once its
    cgroup is killed no process of it can fork, and when those left have
    exited the owner goes on, the cgroup is gone and the launch on record as
    cleanly ended. *)
Theorem recovery_completes stateID w a o rec l :
  w.(owners) !! a = Some o -> o.(o_phase) = Recovering -> w.(root) = true ->
  w.(record) = Some rec -> rec.(LastLaunch) = Some l -> complete l = false ->
  l.(Supervision) = supervisionCgroup -> validRecordedCgroup l.(Cgroup) = true -> l.(Cgroup) ∈ w.(cgroups) ->
  Forall (fun p => p.(p_cgroup) = Some l.(Cgroup)) w.(procs) ->
  exists w1 w2, step stateID (Recover a false false) w = Some w1 /\
    (forall i n, step stateID (Fork i n) w1 = None) /\
    run stateID (replicate (length w1.(procs)) (Exit 0) ++ [Recovered a false false false]) w1 = Some w2 /\
    o_phase <$> w2.(owners) !! a = Some (match o.(o_role) with RoleLaunch => Provisioning | _ => Removing end) /\
    w2.(procs) = [] /\ l.(Cgroup) ∉ w2.(cgroups) /\
    w2.(record) = Some (mkLifecycle rec.(Persistent) (Some (ended w.(now) cleanupComplete l))).
Proof.
  intros Ha Hp Hroot Hrec Hlast Hc Hsup Hval Hin Hall.
  assert (Hk : killCgroup false (Cgroup l) w = Some (set_procs (map doom w.(procs)) w)).
  { destruct (killCgroup false (Cgroup l) w) as [w'|] eqn:E; [|unfold killCgroup in E; by destruct (decide _)].
    f_equal. by apply (killed_doomed _ _ _ E Hin Hall). }
  assert (Hne : (Cgroup l =? "")%string = false).
  { apply String.eqb_neq. intros E. by rewrite E in Hval. }
  set (w1 := goto a (Waiting rec l) o (set_procs (map doom w.(procs)) w)).
  assert (H1 : step stateID (Recover a false false) w = Some w1).
  { cbn. rewrite Ha. unfold owner_step. rewrite Hp. unfold recoverPrevious, readLifecycle. rewrite Hrec, Hlast.
    change (negb _ && _) with (complete l). by rewrite Hc, Hsup, Hne, Hval, Hk. }
  exists w1. eexists. split; [exact H1|]. split.
  { intros i n. cbn. change (List.map doom (procs w)) with (doom <$> procs w). rewrite list_lookup_fmap. by destruct (procs w !! i). }
  split.
  { rewrite run_then, (run_exits stateID w1 (procs w1)) by done. cbn [mbind option_bind run].
    cbn [step owner_of]. unfold w1, goto, set_owner at 1. cbn [owners set_procs]. rewrite lookup_insert_eq.
    unfold owner_step. cbn [o_phase at_phase]. unfold recoverCgroup_end, waitEmpty. cbn [cgroups set_procs set_owner].
    rewrite decide_True by done. cbn. unfold removeCgroup. cbn [cgroups set_procs set_owner].
    rewrite decide_True by done. cbn. unfold writeLifecycle. cbn. rewrite Hroot. cbn. reflexivity. }
  cbn. rewrite lookup_insert_eq. cbn. split_and!; [done|done|set_solver|done].
Qed.

(** ** Names *)

Lemma no_byte_substring c s : forall n, no_byte c s -> no_byte c (String.substring 0 n s).
Proof.
  induction s as [|a s IH]; intros [|n] H; try apply no_byte_nil. apply no_byte_cons in H as [Ha H].
  cbn. apply no_byte_cons. auto.
Qed.

Lemma alphabet_no_byte c s : forallb (fun c => ContainsByte idAlphabet c) (list_ascii_of_string s) = true ->
  ContainsByte idAlphabet c = false -> no_byte c s.
Proof. intros Hs Hc Hin. rewrite forallb_elem in Hs. apply Hs in Hin. congruence. Qed.

Lemma newID_alphabet b : forallb (fun c => ContainsByte idAlphabet c) (list_ascii_of_string (newID b)) = true.
Proof.
  unfold newID. rewrite list_ascii_of_string_of_list_ascii. apply forallb_elem. intros c Hc.
  apply list_elem_of_In, in_map_iff in Hc as (x & <- & _). unfold ContainsByte. apply any_true.
  exists (default "a"%char (list_ascii_of_string idAlphabet !! Z.to_nat (code x mod slen idAlphabet))).
  split; [|apply Ascii.eqb_refl].
  destruct (_ !! _) as [y|] eqn:E; [by eapply list_elem_of_lookup_2|]. apply list_elem_of_here.
Qed.

(** newID draws ids that validID accepts. *)
Lemma newID_valid b : length b = 12%nat -> validID (newID b) = true.
Proof.
  intros Hb. unfold validID. rewrite newID_alphabet, andb_true_r. apply Z.eqb_eq. unfold newID, slen.
  by rewrite <- length_list_ascii, list_ascii_of_string_of_list_ascii, length_map, Hb.
Qed.

Lemma own_cgroup_abs cs : Forall good_comp cs ->
  own_cgroup (abs_path cs) = abs_path (["sys"; "fs"; "cgroup"] ++ cs).
Proof.
  intros Hg. unfold own_cgroup, PathJoin.
  change (cgroupRoot =s? "") with false. change (abs_path cs =s? "") with false. cbn [app].
  change (cgroupRoot ++ "/" ++ abs_path cs) with ("/sys/fs/cgroup/" ++ String slash (Join slash cs)).
  rewrite Clean_rooted by (apply HasPrefix_spec; by eexists).
  rewrite Split_app_string. destruct cs as [|c cs]; [done|].
  rewrite Split_Join by (try apply good_no_byte; done).
  change (Split slash "/sys/fs/cgroup/") with [""; "sys"; "fs"; "cgroup"; ""].
  rewrite foldl_app. change (foldl _ [] _) with ["cgroup"; "fs"; "sys"].
  rewrite foldl_clean_good by done. by rewrite rev_app_distr, rev_involutive.
Qed.

(** What newSessionCgroup makes, recovery accepts: a launch's recorded cgroup
    is always one its state's next owner will kill. *)
Theorem session_cgroup_valid cs stateID b :
  Forall good_comp cs -> validID stateID = true ->
  validRecordedCgroup (session_cgroup (own_cgroup (abs_path cs)) stateID (newID b)) = true.
Proof.
  intros Hg Hid. rewrite own_cgroup_abs by done. set (l := (["sys"; "fs"; "cgroup"] ++ cs)%list).
  assert (Hroot : Forall good_comp ["sys"; "fs"; "cgroup"]).
  { repeat (apply List.Forall_cons; [split_and!; try done; unfold no_byte; vm_compute; set_solver|]). constructor. }
  assert (Hl : Forall good_comp l) by by apply Forall_app.
  set (name := cgroupPrefix ++ stateID ++ "-" ++ Take 6 (newID b)).
  assert (Hn : good_comp name).
  { unfold name, validID in *. bprop. split_and!; try done. rewrite !no_byte_app. split_and!.
    - unfold no_byte. vm_compute. set_solver.
    - by apply alphabet_no_byte.
    - unfold no_byte. vm_compute. set_solver.
    - apply no_byte_substring, alphabet_no_byte; [apply newID_alphabet|done]. }
  assert (Hpath : session_cgroup (abs_path l) stateID (newID b) = abs_path (l ++ [name])).
  { unfold session_cgroup. change (PathJoin (abs_path l) (Join slash [name]) = abs_path (l ++ [name])).
    apply PathJoin_abs; [done|by constructor|done]. }
  rewrite Hpath. unfold validRecordedCgroup.
  assert (Hall : Forall good_comp (l ++ [name])) by (apply Forall_app; split; [done|by constructor]).
  rewrite Clean_abs, String.eqb_refl by done. apply andb_true_iff. split.
  - apply HasPrefix_spec. exists (Join slash (cs ++ [name])). unfold l. rewrite <- app_assoc.
    rewrite (abs_path_app ["sys"; "fs"; "cgroup"] (cs ++ [name])) by (try done; by destruct cs).
    change (abs_path ["sys"; "fs"; "cgroup"]) with cgroupRoot. by rewrite append_assoc.
  - unfold Base. rewrite Split_abs, app_comm_cons, last_snoc by (try done; by destruct l).
    cbn [default]. apply HasPrefix_spec. by eexists.
Qed.

(** ** What the source does otherwise *)

Definition id : string := "abcdefghijkl".
Definition cg1 : cgroup_outcome := CgroupAt "/user.slice" "aaaaaaaaaaaa".
Definition cg2 : cgroup_outcome := CgroupAt "/user.slice" "bbbbbbbbbbbb".

(** A launch into recovered state, up to its harness's start. *)
Definition start_from (a : nat) (g : cgroup_outcome) (n : Z) : list action :=
  [Cgrouped a g; Recorded a false false; Started a n false].

(** Two live processes of two launches share the state. *)
Definition shared (w : world) : Prop :=
  exists q q', q ∈ w.(procs) /\ q' ∈ w.(procs) /\ q.(p_owner) <> q'.(p_owner) /\ q.(doomed) = false.

(** A stored conversation runs; a second launch into its state is refused,
    because the first holds the lock, and its Release marks the first's record
    as cleanly ended. The first's wrapper crashes; the third launch finds a
    complete record, kills nothing, and starts beside the harness still
    running. *)
Definition busy_run : list action :=
  ([Lock 0 false; Recover 0 false false] ++ start_from 0 cg1 100 ++
   [OpenState 1 RoleLaunch true; Lock 1 false; Crash 0;
    OpenState 2 RoleLaunch true; Lock 2 false; Recover 2 false false] ++ start_from 2 cg2 200)%list.

Theorem refused_lock_forges_cleanup :
  exists w, run id busy_run (NewState RoleLaunch true false true) = Some w /\ shared w.
Proof.
  destruct (run id busy_run (NewState RoleLaunch true false true)) as [w|] eqn:E; [|by vm_compute in E].
  exists w. split; [done|]. vm_compute in E. injection E as <-. eexists _, _.
  split; [apply list_elem_of_here|]. split; [apply list_elem_of_further, list_elem_of_here|]. done.
Qed.

(** A launch is refused because what its predecessor left cannot be shown gone
    (here cgroup.kill fails); its Release marks the
    predecessor as cleanly ended, and the next launch is admitted beside it. *)
Definition refused_recovery_run : list action :=
  ([Lock 0 false; Recover 0 false false] ++ start_from 0 cg1 100 ++
   [Crash 0; OpenState 1 RoleLaunch true; Lock 1 false; Recover 1 false true;
    OpenState 2 RoleLaunch true; Lock 2 false; Recover 2 false false] ++ start_from 2 cg2 200)%list.

Theorem refused_recovery_admits_next :
  exists w, run id refused_recovery_run (NewState RoleLaunch true false true) = Some w /\ shared w.
Proof.
  destruct (run id refused_recovery_run (NewState RoleLaunch true false true)) as [w|] eqn:E; [|by vm_compute in E].
  exists w. split; [done|]. vm_compute in E. injection E as <-. eexists _, _.
  split; [apply list_elem_of_here|]. split; [apply list_elem_of_further, list_elem_of_here|]. done.
Qed.

(** Removal unlinks the lock file first: a launch that had opened the state
    makes a new one, locks it, and starts its harness in the tree that is then
    removed. *)
Definition removal_run : list action :=
  ([Lock 0 false; Recover 0 false false] ++ start_from 0 cg1 100 ++
   [Exit 0; Finishing 0 false []; Finished 0 false false;
    OpenState 1 RoleRemove false; OpenState 2 RoleLaunch true; Lock 1 false; Recover 1 false false;
    UnlinkLock 1; Lock 2 false; Recover 2 false false] ++ start_from 2 cg2 200 ++ [Removed 1 true])%list.

Theorem removal_races_launch :
  exists w, run id removal_run (NewState RoleLaunch true false true) = Some w /\ w.(root) = false /\ w.(procs) <> [].
Proof.
  destruct (run id removal_run (NewState RoleLaunch true false true)) as [w|] eqn:E; [|by vm_compute in E].
  exists w. split; [done|]. vm_compute in E. injection E as <-. done.
Qed.

(** Without supervision, a harness found to run without its socket layer is
    killed alone: its children live on, in state that is then removed. *)
Definition unconfined_run : list action :=
  [Cgrouped 0 CgroupNone; Recorded 0 false false; Unconfined 0 [101] false false; Removed 0 true].

Theorem unconfined_start_leaves_children :
  exists w, run id unconfined_run (NewState RoleLaunch false true false) = Some w /\ w.(root) = false /\
    exists q, q ∈ w.(procs) /\ q.(doomed) = false.
Proof.
  destruct (run id unconfined_run (NewState RoleLaunch false true false)) as [w|] eqn:E; [|by vm_compute in E].
  exists w. split; [done|]. vm_compute in E. injection E as <-. split; [done|]. eexists. split; [apply list_elem_of_here|done].
Qed.

(** ** Witnesses *)

Fixpoint careful_run (stateID : string) (xs : list action) (w : world) : option world :=
  match xs with
  | [] => Some w
  | x :: xs => if careful stateID x w then step stateID x w ≫= careful_run stateID xs else None
  end.

Lemma careful_run_reaches stateID xs : forall w0 w w', reaches stateID w0 w -> careful_run stateID xs w = Some w' ->
  reaches stateID w0 w'.
Proof.
  induction xs as [|x xs IH]; intros w0 w w' H Hr; cbn in Hr; [by simplify_eq|].
  destruct (careful stateID x w) eqn:Hc; [|done]. destruct (step stateID x w) as [w1|] eqn:Hs; [|done].
  eapply IH; [|exact Hr]. by eapply reaches_step.
Qed.

(** A conversation whose wrapper crashes with two processes left, recovered
    and reopened. *)
Definition reopen_run : list action :=
  ([Lock 0 false; Recover 0 false false] ++ start_from 0 cg1 100 ++
   [Fork 0 101; Crash 0; OpenState 1 RoleLaunch true; Lock 1 false; Recover 1 false false; Exit 0; Exit 0;
    Recovered 1 false false false] ++ start_from 1 cg2 200)%list.

Definition reopened : world := default (NewState RoleLaunch true false true)
  (careful_run id reopen_run (NewState RoleLaunch true false true)).

Lemma reopened_reaches : reaches id (NewState RoleLaunch true false true) reopened.
Proof.
  apply (careful_run_reaches id reopen_run _ _ _ (reaches_refl _ _)). vm_compute. reflexivity.
Qed.


(** An ephemeral launch, ended and its state removed. *)
Definition ephemeral_run : list action :=
  (start_from 0 cg1 100 ++ [Exit 0; Finishing 0 false []; Finished 0 false false; UnlinkRecord 0; Removed 0 true])%list.

Definition removed : world := default (NewState RoleLaunch false true false)
  (careful_run id ephemeral_run (NewState RoleLaunch false true false)).

Lemma removed_reaches : reaches id (NewState RoleLaunch false true false) removed.
Proof.
  apply (careful_run_reaches id ephemeral_run _ _ _ (reaches_refl _ _)). vm_compute. reflexivity.
Qed.

Lemma state_removed_when_empty_witness : removed.(procs) = [].
Proof.
  refine (state_removed_when_empty id RoleLaunch false true false removed removed_reaches (or_introl _)).
  vm_compute. reflexivity.
Defined.

Definition crashed_record : launchRecord :=
  mkLaunchRecord supervisionCgroup "/sys/fs/cgroup/hwc-abcdefghijkl-aaaaaa" 100 None "".

Definition crashed_owner : owner := mkOwner RoleLaunch true false true (Some 0%nat) None false 0 Recovering.

Definition crashed : world :=
  mkWorld true (Some (mkLifecycle true (Some crashed_record))) (Some 0%nat) 1 {[ 1%nat := crashed_owner ]}
    {[ "/sys/fs/cgroup/hwc-abcdefghijkl-aaaaaa" ]}
    [mkProcess 100 0 (Some "/sys/fs/cgroup/hwc-abcdefghijkl-aaaaaa") false] 5.

Lemma recovery_completes_witness :
  exists w1 w2, step id (Recover 1 false false) crashed = Some w1 /\
    (forall i n, step id (Fork i n) w1 = None) /\
    run id (replicate (length w1.(procs)) (Exit 0) ++ [Recovered 1 false false false]) w1 = Some w2 /\
    o_phase <$> w2.(owners) !! 1%nat = Some Provisioning /\
    w2.(procs) = [] /\ crashed_record.(Cgroup) ∉ w2.(cgroups) /\
    w2.(record) = Some (mkLifecycle true (Some (ended 5 cleanupComplete crashed_record))).
Proof.
  refine (recovery_completes id crashed 1 crashed_owner (mkLifecycle true (Some crashed_record)) crashed_record
    eq_refl eq_refl eq_refl eq_refl eq_refl eq_refl eq_refl _ _ _).
  - vm_compute. reflexivity.
  - unfold crashed. cbn [cgroups]. set_solver.
  - constructor; [reflexivity|constructor].
Defined.

Lemma session_cgroup_valid_witness :
  validRecordedCgroup (session_cgroup (own_cgroup (abs_path ["user.slice"])) id (newID (replicate 12 "z"%char))) = true.
Proof.
  refine (session_cgroup_valid ["user.slice"] id (replicate 12 "z"%char) _ _); [|vm_compute; reflexivity].
  apply List.Forall_cons; [|constructor]. split_and!; try done. unfold no_byte. vm_compute. set_solver.
Defined.
