(* ===== verification/Landlock.v ===== *)
(** Landlock rights and rulesets (src/internal/landlock): the filesystem rights
    as bits, the classes a policy grants, and what a rule installs. *)
From Stdlib Require Import ZArith Ascii String Lia.
From stdpp Require Import base tactics list strings option.
From S2P Require Import Prelude GoStr.

#[local] Open Scope string_scope.
#[local] Open Scope Z_scope.

Module Landlock.

(** An AccessFS is a uint64. *)
Definition AccessFSExecute : Z := Z.shiftl 1 0.
Definition AccessFSWriteFile : Z := Z.shiftl 1 1.
Definition AccessFSReadFile : Z := Z.shiftl 1 2.
Definition AccessFSReadDir : Z := Z.shiftl 1 3.
Definition AccessFSRemoveDir : Z := Z.shiftl 1 4.
Definition AccessFSRemoveFile : Z := Z.shiftl 1 5.
Definition AccessFSMakeChar : Z := Z.shiftl 1 6.
Definition AccessFSMakeDir : Z := Z.shiftl 1 7.
Definition AccessFSMakeReg : Z := Z.shiftl 1 8.
Definition AccessFSMakeSock : Z := Z.shiftl 1 9.
Definition AccessFSMakeFifo : Z := Z.shiftl 1 10.
Definition AccessFSMakeBlock : Z := Z.shiftl 1 11.
Definition AccessFSMakeSym : Z := Z.shiftl 1 12.
Definition AccessFSRefer : Z := Z.shiftl 1 13.
Definition AccessFSTruncate : Z := Z.shiftl 1 14.
Definition AccessFSIoctlDev : Z := Z.shiftl 1 15.
Definition AccessFSResolveUnix : Z := Z.shiftl 1 16.

Definition ResolveUnixABI : Z := 9.
Definition MinimumABI : Z := 6.

(** [a | b | ...]. *)
Definition ors (l : list Z) : Z := fold_left Z.lor l 0.

Definition HandledFS : Z := ors
  [AccessFSExecute; AccessFSWriteFile; AccessFSReadFile; AccessFSReadDir; AccessFSRemoveDir; AccessFSRemoveFile;
   AccessFSMakeChar; AccessFSMakeDir; AccessFSMakeReg; AccessFSMakeSock; AccessFSMakeFifo; AccessFSMakeBlock;
   AccessFSMakeSym; AccessFSRefer; AccessFSTruncate; AccessFSIoctlDev; AccessFSResolveUnix].

Definition HandledFSFor (abi : Z) : Z :=
  if abi <? ResolveUnixABI then Z.ldiff HandledFS AccessFSResolveUnix else HandledFS.

Definition requiredABI (minABI : Z) : Z := if minABI =? 0 then ResolveUnixABI else minABI.

Definition FileRights : Z :=
  ors [AccessFSExecute; AccessFSWriteFile; AccessFSReadFile; AccessFSTruncate; AccessFSIoctlDev].

Definition ReadOnly : Z := Z.lor AccessFSReadFile AccessFSReadDir.
Definition ReadExec : Z := Z.lor ReadOnly AccessFSExecute.
Definition ReadWrite : Z := ors
  [ReadExec; AccessFSWriteFile; AccessFSRemoveDir; AccessFSRemoveFile; AccessFSMakeDir; AccessFSMakeReg;
   AccessFSMakeSock; AccessFSMakeFifo; AccessFSMakeSym; AccessFSTruncate; AccessFSRefer].
Definition Device : Z := ors [AccessFSReadFile; AccessFSWriteFile; AccessFSIoctlDev].

Definition fsRightNames : list (Z * string) :=
  [(AccessFSExecute, "execute"); (AccessFSWriteFile, "write_file"); (AccessFSReadFile, "read_file");
   (AccessFSReadDir, "read_dir"); (AccessFSRemoveDir, "remove_dir"); (AccessFSRemoveFile, "remove_file");
   (AccessFSMakeChar, "make_char"); (AccessFSMakeDir, "make_dir"); (AccessFSMakeReg, "make_reg");
   (AccessFSMakeSock, "make_sock"); (AccessFSMakeFifo, "make_fifo"); (AccessFSMakeBlock, "make_block");
   (AccessFSMakeSym, "make_sym"); (AccessFSRefer, "refer"); (AccessFSTruncate, "truncate");
   (AccessFSIoctlDev, "ioctl_dev"); (AccessFSResolveUnix, "resolve_unix")].

Definition Names (a : Z) : list string :=
  map snd (List.filter (fun r => negb (Z.land a r.1 =? 0)) fsRightNames).

(** A rule, less its descriptor. *)
Record Rule := mkRule { Access : Z; IsDir : bool }.

Definition Effective (r : Rule) : Z :=
  if r.(IsDir) then Z.land r.(Access) HandledFS else Z.land r.(Access) FileRights.

Record Ruleset := mkRuleset { abi : Z; handled : Z; restrictTCP : bool; rules : list (nat * Z); ports : list Z }.

(** New on a kernel of ABI [kernel]; the syscall itself may fail. *)
Definition New (kernel : option Z) (creates : bool) (MinABI : Z) (RestrictTCP : bool) : result string Ruleset :=
  when negb (MinABI =? 0) && (MinABI <? MinimumABI) refuse "ruleset" ;;
  match kernel with
  | None => Err "unavailable"
  | Some abi =>
      when abi <? requiredABI MinABI refuse "unavailable" ;;
      when negb creates refuse "ruleset" ;;
      Ok (mkRuleset abi (HandledFSFor abi) RestrictTCP [] [])
  end.

Definition Probe (kernel : option Z) (minABI : Z) : result string Z :=
  match kernel with
  | None => Err "unavailable"
  | Some abi => when abi <? requiredABI minABI refuse "unavailable" ;; Ok abi
  end.

(** AddPath on descriptor [fd]. *)
Definition AddPath (fd : nat) (adds : bool) (r : Rule) (s : Ruleset) : result string Ruleset :=
  let access := Z.land (Effective r) s.(handled) in
  when access =? 0 refuse "ruleset" ;;
  when negb adds refuse "ruleset" ;;
  Ok (mkRuleset s.(abi) s.(handled) s.(restrictTCP) (app s.(rules) [(fd, access)]) s.(ports)).

Definition AddConnectTCP (port : Z) (adds : bool) (s : Ruleset) : result string Ruleset :=
  when negb s.(restrictTCP) refuse "ruleset" ;;
  when negb adds refuse "ruleset" ;;
  Ok (mkRuleset s.(abi) s.(handled) s.(restrictTCP) s.(rules) (app s.(ports) [port])).

(** ** Lemmas *)

(** [has a r]: [a] carries right [r]. *)
Definition has (a r : Z) : bool := negb (Z.land a r =? 0).

(** The rights that change something. *)
Definition WriteRights : Z := ors
  [AccessFSWriteFile; AccessFSRemoveDir; AccessFSRemoveFile; AccessFSMakeChar; AccessFSMakeDir; AccessFSMakeReg;
   AccessFSMakeSock; AccessFSMakeFifo; AccessFSMakeBlock; AccessFSMakeSym; AccessFSRefer; AccessFSTruncate; AccessFSIoctlDev].

(** Names lists exactly the rights that are set. *)
Lemma Names_elem a n : n ∈ Names a <-> exists r, (r, n) ∈ fsRightNames /\ has a r = true.
Proof.
  unfold Names. rewrite list_elem_of_In, in_map_iff. setoid_rewrite list_elem_of_In. split.
  - intros ([r m] & <- & Hin%filter_In). by exists r.
  - intros (r & Hin & Hh). exists (r, n). split; [done|]. by apply filter_In.
Qed.

(** A rule never installs a right the ruleset does not handle, nor a directory
    right on a file. *)
Lemma Effective_handled r abi k : Z.testbit (Z.land (Effective r) (HandledFSFor abi)) k = true ->
  Z.testbit HandledFS k = true /\ (r.(IsDir) = false -> Z.testbit FileRights k = true).
Proof.
  rewrite Z.land_spec. intros [He Hh]%andb_true_iff. split.
  - unfold HandledFSFor in Hh. destruct (abi <? ResolveUnixABI); [|done].
    rewrite Z.ldiff_spec in Hh. by bprop.
  - intros Hd. unfold Effective in He. rewrite Hd, Z.land_spec in He. by bprop.
Qed.

End Landlock.
