(* ===== verification/Contain.v ===== *)
(** Preparing a contained launch (src/internal/contain/launch_linux.go,
    pin_linux.go, env.go, sockets_linux.go, contain.go, and the profiles of
    profile.go): pinned paths, the checks on them, the grants, the harness's
    environment, and the applied policy's targets and fingerprint
    (src/pkg/containment/containment.go).

    The kernel resolves paths: [pinPath] is a parameter, and so is the ".." of
    an object. A refusal is its stage. *)
From Stdlib Require Import ZArith Ascii String Lia.
From stdpp Require Import base tactics list gmap sets strings option sorting.
From S2P Require Import Prelude GoStr Bytes Json Containment Landlock.

#[local] Open Scope string_scope.
#[local] Open Scope Z_scope.

Definition StageRequest : string := "request".
Definition StageProfile : string := "profile".
Definition StagePaths : string := "paths".
Definition StageState : string := "state".

(** ** Pinned paths *)

Definition objectID : Type := Z * Z.

Record pinned := mkPinned {
  requested : string; canonical : string; id : objectID; isDir : bool; fsType : Z; ancestors : list objectID }.

(** walkAncestors from [cur], the first directory above the object; [up] is the
    kernel's "..". *)
Fixpoint walk (up : objectID -> objectID) (depth : nat) (acc : list objectID) (cur : objectID) : option (list objectID) :=
  match depth with
  | O => None
  | S depth =>
      if bool_decide (list.last acc = Some cur) then Some acc else walk up depth (app acc [cur]) (up cur)
  end.

Definition walkAncestors (up : objectID -> objectID) (start : objectID) : option (list objectID) :=
  walk up (Z.to_nat 4096) [] start.

Definition contains (p other : pinned) : bool :=
  bool_decide (p.(id) = other.(id)) || any (fun a => bool_decide (a = p.(id))) other.(ancestors).

Definition overlaps (p other : pinned) : bool := contains p other || contains other p.

(** ** Profiles *)

Record pathSpec := mkPathSpec {
  Path : string; Access : string; Required : bool; MergedUsr : bool; OneOf : string }.

Record loginSpec := mkLogin { LoginArgs : list string; LoginStatus : list string; TCPBind : string }.

Record stateSpec := mkStateSpec { ConfigEnv : string; ConfigDir : string; ConfigUnderHome : bool }.

Record manifest := mkManifest {
  Name : string; Harnesses : list string; ManifestVersion : Z; HarnessVersion : string; Activated : bool;
  Paths : list pathSpec; StateSpec : stateSpec; Env : gmap string string; AuthEnv : list string;
  ControlEnv : list string; Login : option loginSpec }.

Definition manifest_id (m : manifest) : string := m.(Name) ++ "@" ++ m.(HarnessVersion).

(** profileFor, over the registered test profiles, the built-in ones, and
    whether every profile counts as activated. *)
Definition profileFor (normalize : string -> string) (tests builtins : list manifest) (activateAll : bool)
    (harness : string) (login : bool) : result string manifest :=
  let name := normalize harness in
  let has m := any (String.eqb name) m.(Harnesses) in
  match option_map snd (list_find (fun m => has m = true) (app tests builtins)) with
  | None => Err StageProfile
  | Some m =>
      when login && is_none m.(Login) refuse StageProfile ;;
      when negb login && negb m.(Activated) && negb activateAll refuse StageProfile ;;
      Ok m
  end.

(** ** Modes the profile cannot contain *)

Definition checkHarnessMode (m : manifest) (LaunchRung : string) : result string unit :=
  when (m.(Name) =? "codex")%string && negb (LaunchRung =? "bypass")%string refuse StageProfile ;; Ok tt.

Definition checkLogin (m : manifest) (l : loginSpec) (req : Request) (managedState : bool) (args : list string)
    : result string unit :=
  when (req.(StateDir) =? "")%string refuse StageState ;;
  when managedState refuse StageState ;;
  when negb (bool_decide (args = l.(LoginArgs))) && negb (bool_decide (args = l.(LoginStatus))) refuse StageRequest ;;
  when req.(RestrictTCP) && negb (l.(TCPBind) =? "")%string && bool_decide (args = l.(LoginArgs)) refuse StageProfile ;;
  Ok tt.

(** ** Grants *)

Definition SourceProfile : string := "profile".
Definition SourceWorkingDir : string := "working_dir".
Definition SourceState : string := "state".
Definition SourceCaller : string := "caller".
Definition SourceDevice : string := "device".
Definition SourceTerminal : string := "terminal".

Record grantEntry := mkGrantEntry { g_pin : pinned; g_class : string; g_access : Z; g_source : string }.

Definition classAccess (class : string) : option Z :=
  if (class =? "ro")%string then Some Landlock.ReadOnly
  else if (class =? "rx")%string then Some Landlock.ReadExec
  else if (class =? "rw")%string then Some Landlock.ReadWrite
  else if (class =? "dev")%string then Some Landlock.Device
  else if (class =? "read")%string then Some Landlock.AccessFSReadFile
  else if (class =? "null")%string then
    Some (Landlock.ors [Landlock.AccessFSReadFile; Landlock.AccessFSWriteFile; Landlock.AccessFSTruncate])
  else None.

(** [add]. *)
Definition add (p : pinned) (class source : string) (grants : list grantEntry) : result string (list grantEntry) :=
  match classAccess class with
  | Some access => Ok (app grants [mkGrantEntry p class access source])
  | None => Err StagePaths
  end.

Definition adds (ps : list pinned) (class source : string) (grants : list grantEntry) : result string (list grantEntry) :=
  range (fun _ p grants => add p class source grants) ps grants.

Inductive pin_error := NotFound | PinFails.

Section Prepare.
(** What the kernel makes of a path, and whether it is a symbolic link. *)
Context (pinPath : string -> result pin_error pinned) (is_symlink : string -> bool).

Definition pin (path : string) : result string pinned := map_err (fun _ => StagePaths) (pinPath path).

Definition pins (paths : list string) : result string (list pinned) :=
  range (fun _ path ps => p ← pin path; Ok (app ps [p])) paths [].

(** The profile's paths: the grants, what was left out, and the groups of which
    one path must exist, with whether one did. *)
Definition spec_step (spec : pathSpec) (s : list grantEntry * list string * gmap string bool)
    : result string (list grantEntry * list string * gmap string bool) :=
  let '(grants, omitted, oneOf) := s in
  let oneOf := if negb (spec.(OneOf) =? "")%string && is_none (oneOf !! spec.(OneOf))
               then <[spec.(OneOf) := false]> oneOf else oneOf in
  if spec.(MergedUsr) && is_symlink spec.(Path) then
    Ok (grants, app omitted [spec.(Path) ++ " (merged into /usr)"], oneOf)
  else match pinPath spec.(Path) with
  | Err e =>
      if bool_decide (spec.(Required) = false) && (match e with NotFound => true | PinFails => false end)
      then Ok (grants, app omitted [spec.(Path)], oneOf)
      else Err StagePaths
  | Ok p =>
      let source := if any (String.eqb spec.(Access)) ["dev"; "null"; "read"] then SourceDevice else SourceProfile in
      grants ← add p spec.(Access) source grants;
      Ok (grants, omitted, if negb (spec.(OneOf) =? "")%string then <[spec.(OneOf) := true]> oneOf else oneOf)
  end.

Definition CGROUP2_SUPER_MAGIC : Z := 1667723888.   (* 0x63677270 *)
Definition CGROUP_SUPER_MAGIC : Z := 2613483.       (* 0x27e0eb *)
Definition cgroupRoot : string := "/sys/fs/cgroup".

(** What a launch brings to its grants: the working directory, the pinned
    executable and its trees, the managed-state parent, and the state
    directories. *)
Record launch := mkLaunch {
  wd : pinned; exe : pinned; exe_grants : list pinned; state_parent : pinned; statePins : list pinned;
  stateDir : option pinned }.

Definition exposes_cgroupfs (w : pinned) : bool :=
  (w.(fsType) =? CGROUP2_SUPER_MAGIC) || (w.(fsType) =? CGROUP_SUPER_MAGIC) ||
  match pinPath cgroupRoot with Ok c => contains w c | Err _ => false end.

Definition collectGrants (specs : list pathSpec) (req : Request) (l : launch)
    : result string (list grantEntry * list string) :=
  '(grants, omitted, oneOf) ← range (fun _ => spec_step) specs ([], [], ∅);
  when any (fun kv => negb kv.2) (map_to_list oneOf) refuse StagePaths ;;
  grants ← add l.(exe) "rx" SourceProfile grants;
  grants ← adds l.(exe_grants) "rx" SourceProfile grants;
  grants ← add l.(wd) "rw" SourceWorkingDir grants;
  grants ← adds l.(statePins) "rw" SourceState grants;
  callerRO ← pins req.(ReadOnly);
  callerRW ← pins req.(ReadWrite);
  let exposed := app (l.(wd) :: callerRO) (app callerRW (match l.(stateDir) with Some p => [p] | None => [] end)) in
  when any (fun p => overlaps p l.(state_parent)) exposed refuse StagePaths ;;
  let writable := app (l.(wd) :: l.(statePins)) callerRW in
  when any (fun ro => any (fun w => contains w ro) writable) callerRO refuse StagePaths ;;
  when any exposes_cgroupfs (l.(wd) :: callerRW) refuse StagePaths ;;
  grants ← adds callerRO "ro" SourceCaller grants;
  grants ← adds callerRW "rw" SourceCaller grants;
  Ok (grants, omitted).
End Prepare.

(** ** A resumed conversation's paths *)

(** checkTargets over the pinned paths, absent ones left out. *)
Definition checkTargets (expect : gmap string string) (ps : list pinned) : result string unit :=
  range (fun _ p _ =>
    when match expect !! p.(requested) with
         | Some want => negb (want =? p.(canonical))%string
         | None => false
         end refuse StagePaths ;; Ok tt) ps tt.

(** ** The socket layer's roots (src/internal/apparmor/apparmor.go) *)

Definition Covers (roots : list string) (path : string) : bool :=
  any (fun r => (path =? r)%string || HasPrefix path (r ++ "/")) roots.

Definition checkSocketRoots (roots : list string) (writable : list pinned) : result string unit :=
  range (fun _ w _ => when negb (Covers roots w.(canonical)) refuse StagePaths ;; Ok tt) writable tt.

(** ** The environment *)

Definition runtimeEnv : list string :=
  ["PATH"; "LANG"; "LANGUAGE"; "TERM"; "COLORTERM"; "TZ"; "USER"; "LOGNAME"; "SHELL"; "NO_COLOR"].

Record layout := mkLayout { Home : string; Tmp : string; Config : string }.

(** The last value of [key]. *)
Definition lookupEnv (env : list string) (key : string) : option string :=
  fold_left (fun found kv => match CutPrefix kv (key ++ "=") with Some v => Some v | None => found end) env None.

Definition inherit (caller : list string) (name : string) (vars : gmap string string) : gmap string string :=
  match lookupEnv caller name with Some v => <[name := v]> vars | None => vars end.

(** The LC_ names of the caller's environment. *)
Definition locale_names (caller : list string) : list string :=
  omap (fun kv => match Cut kv "=" with
                  | Some (name, _) => if HasPrefix name "LC_" then Some name else None
                  | None => None
                  end) caller.

Definition inherited_names (m : manifest) (req : Request) (caller : list string) : list string :=
  app runtimeEnv (app (locale_names caller) (app m.(AuthEnv) (app m.(ControlEnv) req.(PassEnv)))).

Definition child_vars (m : manifest) (req : Request) (caller : list string) (l : layout) (wd : string)
    : gmap string string :=
  let vars := fold_left (fun vars name => inherit caller name vars) (inherited_names m req caller) ∅ in
  let vars := filter (fun kv => ReservedEnv kv.1 = false) vars in
  let vars := <["HOME" := l.(Home)]> vars in
  let vars := <["TMPDIR" := l.(Tmp)]> vars in
  let vars := <["TMP" := l.(Tmp)]> vars in
  let vars := <["TEMP" := l.(Tmp)]> vars in
  let vars := <["PWD" := wd]> vars in
  let vars := if negb (m.(StateSpec).(ConfigEnv) =? "")%string && negb (l.(Config) =? "")%string
              then <[m.(StateSpec).(ConfigEnv) := l.(Config)]> vars else vars in
  m.(Env) ∪ vars.

(** The variables in name order, and their names. *)
Definition childEnv (m : manifest) (req : Request) (caller : list string) (l : layout) (wd : string)
    : list string * list string :=
  let vars := child_vars m req caller l wd in
  let names := merge_sort String.le (map fst (map_to_list vars)) in
  (map (fun n => n ++ "=" ++ default "" (vars !! n)) names, names).

(** A login launch is not given the harness's own credentials. *)
Definition login_env (m : manifest) (caller : list string) : list string :=
  List.filter (fun kv => negb (any (String.eqb (match Cut kv "=" with Some (n, _) => n | None => kv end)) m.(AuthEnv))) caller.
