(* ===== verification/Applied.v ===== *)
(** The applied policy of a contained launch (src/pkg/containment/containment.go):
    what Prepare records of its grants, its fingerprint, and the targets a
    stored conversation keeps (src/internal/contain/contain.go). SHA-256 is a
    parameter. *)
From Stdlib Require Import ZArith Ascii String Lia.
From stdpp Require Import base tactics list gmap sets strings option.
From S2P Require Import Prelude GoStr Json JsonInj Containment Landlock Contain.

#[local] Open Scope string_scope.
#[local] Open Scope Z_scope.

(** ** Data *)

Record Grant := mkGrant {
  gr_Path : string; gr_Access : string; gr_Rights : list string; gr_Source : string; gr_Requested : string }.

Record TCP := mkTCP { tcp_Mode : string; tcp_Connect : list Z; tcp_Bind : string }.

Record State := mkState {
  st_Mode : string; st_ID : string; st_Home : string; st_Tmp : string; st_HarnessState : string;
  st_HarnessStateEnv : string; st_StateDir : string; st_StateDirRequested : string }.

Record AppArmorLayer := mkLayer { aa_Profile : string; aa_Roots : list string }.

Record Applied := mkApplied {
  SchemaVersion : Z; Kind : string; ABI : Z; RequiredABI : Z; Profile : string; ProfileVersion : Z;
  HandledFS : list string; Grants : list Grant; Tcp : TCP; PathnameSockets : string;
  AppArmor : option AppArmorLayer; Scopes : list string; StateOf : State; SupervisionMode : string;
  EnvNames : list string; Omitted : list string }.

(** ** What Prepare records *)

Definition applied_grant (handled : Z) (g : grantEntry) : Grant :=
  mkGrant g.(g_pin).(canonical) g.(g_class)
    (Landlock.Names (Z.land (Landlock.Effective (Landlock.mkRule g.(g_access) g.(g_pin).(isDir))) handled)) g.(g_source)
    (if (g.(g_pin).(requested) =? g.(g_pin).(canonical))%string then "" else g.(g_pin).(requested)).

(** AddTerminal's grant. *)
Definition terminal_grant (p : pinned) : Grant :=
  mkGrant p.(canonical) "dev" (Landlock.Names (Landlock.Effective (Landlock.mkRule Landlock.Device false))) SourceTerminal "".

Definition applied_state (req : Request) (id : string) (lay : layout) (env : string) (stateDir : option pinned) : State :=
  mkState (if (req.(StateDir) =? "")%string then "private" else "caller") id lay.(Home) lay.(Tmp) lay.(Config) env
    (match stateDir with Some p => p.(canonical) | None => "" end)
    (match stateDir with
     | Some p => if (p.(requested) =? p.(canonical))%string then "" else p.(requested)
     | None => ""
     end).

(** ** Targets *)

Definition target (requested path : string) (out : gmap string string) : gmap string string :=
  <[(if (requested =? "")%string then path else requested) := path]> out.

Definition Targets (grants : list Grant) (s : State) : gmap string string :=
  let out := fold_left (fun out g =>
    if any (String.eqb g.(gr_Source)) [SourceCaller; SourceWorkingDir] then target g.(gr_Requested) g.(gr_Path) out else out)
    grants ∅ in
  if (s.(st_Mode) =? "caller")%string && negb (s.(st_StateDir) =? "")%string
  then target s.(st_StateDirRequested) s.(st_StateDir) out else out.

(** ** Fingerprint *)

(** [strings.NewReplacer(pairs...).Replace], for patterns that are not empty:
    at each byte the first pattern, in argument order, that matches. *)
Fixpoint match_pairs (pairs : list (string * string)) (s : string) : option (string * string) :=
  match pairs with
  | [] => None
  | (old, new) :: pairs =>
      match CutPrefix s old with Some rest => Some (new, rest) | None => match_pairs pairs s end
  end.

Fixpoint replace (fuel : nat) (pairs : list (string * string)) (s : string) : string :=
  match fuel with
  | O => ""
  | S fuel =>
    match match_pairs pairs s with
    | Some (new, rest) => new ++ replace fuel pairs rest
    | None => match s with "" => "" | String c s => String c (replace fuel pairs s) end
    end
  end.

Definition Replace (pairs : list (string * string)) (s : string) : string :=
  replace (S (String.length s)) pairs s.

Definition stateReplacer (s : State) : list (string * string) :=
  List.filter (fun kv => negb (kv.1 =? "")%string)
    [(s.(st_HarnessState), "$STATE/harness"); (s.(st_Home), "$STATE/home"); (s.(st_Tmp), "$STATE/tmp")].

Record fingerprintView := mkView {
  v_SchemaVersion : Z; v_Kind : string; v_RequiredABI : Z; v_Profile : string; v_ProfileVersion : Z;
  v_HandledFS : list string; v_Grants : list Grant; v_TCP : TCP; v_PathnameSockets : string;
  v_AppArmor : option AppArmorLayer; v_Scopes : list string; v_StateMode : string; v_Env : list string }.

Definition view_grant (s : State) (g : Grant) : Grant :=
  mkGrant (if (g.(gr_Source) =? SourceTerminal)%string then "$TERMINAL" else Replace (stateReplacer s) g.(gr_Path))
    g.(gr_Access) g.(gr_Rights) g.(gr_Source) "".

Definition fingerprint_view (a : Applied) : fingerprintView :=
  mkView a.(SchemaVersion) a.(Kind) a.(RequiredABI) a.(Profile) a.(ProfileVersion) a.(HandledFS)
    (map (view_grant a.(StateOf)) a.(Grants)) a.(Tcp) a.(PathnameSockets) a.(AppArmor) a.(Scopes)
    a.(StateOf).(st_Mode) a.(EnvNames).

(** A slice that is nil when it is empty. *)
Definition arr {A} (f : A -> json) (l : list A) : json := if is_nil l then JRaw (Some "null") else JArr (map f l).

Definition Grant_json (g : Grant) : json :=
  JObj ([("path", JStr g.(gr_Path)); ("access", JStr g.(gr_Access)); ("rights", arr JStr g.(gr_Rights));
         ("source", JStr g.(gr_Source))] ++ omit_str "requested" g.(gr_Requested))%list.

Definition TCP_json (t : TCP) : json :=
  JObj ([("mode", JStr t.(tcp_Mode))] ++ omitempty (is_nil t.(tcp_Connect)) "connect" (JArr (map JInt t.(tcp_Connect))) ++
        [("bind", JStr t.(tcp_Bind))])%list.

Definition view_json (v : fingerprintView) : json :=
  JObj ([("schema_version", JInt v.(v_SchemaVersion)); ("kind", JStr v.(v_Kind)); ("required_abi", JInt v.(v_RequiredABI));
         ("profile", JStr v.(v_Profile)); ("profile_version", JInt v.(v_ProfileVersion));
         ("handled_fs", arr JStr v.(v_HandledFS)); ("grants", arr Grant_json v.(v_Grants)); ("tcp", TCP_json v.(v_TCP));
         ("pathname_unix_sockets", JStr v.(v_PathnameSockets))] ++
        omit_nil (fun l => JObj [("profile", JStr l.(aa_Profile)); ("roots", arr JStr l.(aa_Roots))]) "apparmor" v.(v_AppArmor) ++
        [("scopes", arr JStr v.(v_Scopes)); ("state_mode", JStr v.(v_StateMode)); ("env", arr JStr v.(v_Env))])%list.

Definition Fingerprint (sha256Hex : string -> string) (a : option Applied) : string :=
  match a with
  | None => ""
  | Some a => "sha256:" ++ sha256Hex (marshalled (view_json (fingerprint_view a)))
  end.
