(* ===== verification/ContainProps.v ===== *)
(** What a prepared launch may reach and is given: no right on pathname sockets
    or device creation, no writing through what was asked for read-only, nothing
    of other sessions' state, exactly the allowed environment; and when a
    resumed conversation's paths are accepted. *)
From Stdlib Require Import ZArith Ascii String Lia.
From stdpp Require Import base tactics list gmap sets strings option sorting.
From S2P Require Import Prelude GoStr Json Containment Landlock Contain Applied.

#[local] Open Scope string_scope.
#[local] Open Scope Z_scope.

(** ** The grants of an accepted request *)

Definition entry (class source : string) (p : pinned) : grantEntry :=
  mkGrantEntry p class (default 0 (classAccess class)) source.

Lemma add_Ok p class source gs gs' : add p class source gs = Ok gs' ->
  gs' = app gs [entry class source p] /\ is_Some (classAccess class).
Proof.
  unfold add, entry. destruct (classAccess class); [|done]. by intros [= <-].
Qed.

Lemma adds_Ok ps class source : forall gs gs', adds ps class source gs = Ok gs' ->
  gs' = app gs (map (entry class source) ps).
Proof.
  unfold adds, range. generalize 0. induction ps as [|p ps IH]; intros i gs gs' H; cbn in H.
  - simplify_eq. by rewrite app_nil_r.
  - apply bind_Ok in H as (g1 & [-> _]%add_Ok & H). apply IH in H as ->. by rewrite <- app_assoc.
Qed.

Section Grants.
Context (pinPath : string -> result pin_error pinned) (is_symlink : string -> bool).

Lemma pins_Ok paths : forall ps, pins pinPath paths = Ok ps ->
  Forall2 (fun path p => pinPath path = Ok p) paths ps.
Proof.
  intros ps H. unfold pins in H.
  apply (range_inv _ (fun done ps => Forall2 (fun path p => pinPath path = Ok p) done ps)) in H; [done|constructor|].
  intros j x d t t' _ Hd Hb. apply bind_Ok in Hb as (p & Hp & [= <-]). apply Forall2_app; [done|].
  constructor; [|constructor]. unfold pin, map_err in Hp. destruct (pinPath x); [by simplify_eq|done].
Qed.

(** A grant of the profile's paths has the class its path asks for. *)
Definition of_spec (specs : list pathSpec) (g : grantEntry) : Prop :=
  exists spec, spec ∈ specs /\
    g = entry spec.(Access) (if any (String.eqb spec.(Access)) ["dev"; "null"; "read"] then SourceDevice else SourceProfile) g.(g_pin).

Lemma specs_Ok specs gs om oneOf : range (fun _ => spec_step pinPath is_symlink) specs ([], [], ∅) = Ok (gs, om, oneOf) ->
  Forall (of_spec specs) gs.
Proof.
  intros H. revert H.
  assert (Hg : forall i done s gs om oneOf,
    Forall (of_spec (app done specs)) s.1.1 -> range_from i (fun _ => spec_step pinPath is_symlink) specs s = Ok (gs, om, oneOf) ->
    Forall (of_spec (app done specs)) gs).
  2: { intros H. by apply (Hg 0 [] _ gs om oneOf) in H; [|constructor]. }
  clear. induction specs as [|spec specs IH]; intros i done s gs om oneOf Hs H; cbn in H; [by simplify_eq|].
  apply bind_Ok in H as (s1 & H1 & H). replace (app done (spec :: specs)) with (app (app done [spec]) specs) in *
    by by rewrite <- app_assoc.
  eapply IH; [|exact H]. clear IH H. destruct s as [[gs0 om0] one0]. cbn in Hs. unfold spec_step in H1.
  destruct (MergedUsr spec && _); [by simplify_eq|]. destruct (pinPath _) as [p|e].
  - apply bind_Ok in H1 as (g1 & [-> _]%add_Ok & [= <-]). cbn. apply list.Forall_app. split; [done|].
    apply list.Forall_singleton. exists spec. split; [|done]. rewrite !elem_of_app, list_elem_of_singleton. auto.
  - destruct (_ && _); by simplify_eq.
Qed.

(** What collectGrants returns, and what it checked. *)
Lemma collectGrants_Ok specs req l gs om : collectGrants pinPath is_symlink specs req l = Ok (gs, om) ->
  exists gs0 ro rw, Forall (of_spec specs) gs0 /\
    Forall2 (fun path p => pinPath path = Ok p) req.(ReadOnly) ro /\
    Forall2 (fun path p => pinPath path = Ok p) req.(ReadWrite) rw /\
    gs = (gs0 ++ map (entry "rx" SourceProfile) (l.(exe) :: l.(exe_grants)) ++ [entry "rw" SourceWorkingDir l.(wd)] ++
          map (entry "rw" SourceState) l.(statePins) ++ map (entry "ro" SourceCaller) ro ++ map (entry "rw" SourceCaller) rw)%list /\
    (forall p, p ∈ l.(wd) :: ro ++ rw -> overlaps p l.(state_parent) = false) /\
    (forall p, l.(stateDir) = Some p -> overlaps p l.(state_parent) = false) /\
    (forall r w, r ∈ ro -> w ∈ l.(wd) :: l.(statePins) ++ rw -> contains w r = false) /\
    (forall w, w ∈ l.(wd) :: rw -> exposes_cgroupfs pinPath w = false).
Proof.
  unfold collectGrants. intros H. apply bind_Ok in H as ([[gs0 om0] oneOf] & H0%specs_Ok & H).
  apply when_Ok in H as [_ H]. apply bind_Ok in H as (g1 & [-> _]%add_Ok & H).
  apply bind_Ok in H as (g2 & ->%adds_Ok & H). apply bind_Ok in H as (g3 & [-> _]%add_Ok & H).
  apply bind_Ok in H as (g4 & ->%adds_Ok & H). apply bind_Ok in H as (ro & Hro%pins_Ok & H).
  apply bind_Ok in H as (rw & Hrw%pins_Ok & H). rewrite !when_Ok, !any_false in H.
  destruct H as (Hex & Hw & Hc & H). apply bind_Ok in H as (g5 & ->%adds_Ok & H).
  apply bind_Ok in H as (g6 & ->%adds_Ok & [= <- <-]). exists gs0, ro, rw. split_and!; try done.
  - cbn [map]. rewrite <- !app_assoc. done.
  - intros p Hp. apply Hex. set_solver.
  - intros p Hp. apply Hex. rewrite Hp. set_solver.
  - intros r w Hr Hw'. specialize (Hw r Hr). rewrite any_false in Hw. apply Hw. set_solver.
Qed.

(** ** Rights *)

Definition rights (g : grantEntry) : Z := Landlock.Effective (Landlock.mkRule g.(g_access) g.(g_pin).(isDir)).

(** The rights a class carries, on a directory and on a file. *)
Lemma class_rights class a d : classAccess class = Some a ->
  Landlock.has (Landlock.Effective (Landlock.mkRule a d)) (Landlock.ors [Landlock.AccessFSResolveUnix; Landlock.AccessFSMakeChar; Landlock.AccessFSMakeBlock]) = false /\
  (class <> "dev" -> Landlock.has (Landlock.Effective (Landlock.mkRule a d)) Landlock.AccessFSIoctlDev = false) /\
  (class = "ro" \/ class = "rx" -> Landlock.has (Landlock.Effective (Landlock.mkRule a d)) Landlock.WriteRights = false).
Proof.
  unfold classAccess. intros H.
  repeat match type of H with (if (?c =? ?s)%string then _ else _) = _ => destruct (String.eqb_spec c s); subst end;
    simplify_eq; destruct d; vm_compute; split_and!; try done; naive_solver.
Qed.

Lemma entry_access class source p : is_Some (classAccess class) ->
  classAccess (g_class (entry class source p)) = Some (g_access (entry class source p)).
Proof. intros [a Ha]. cbn. by rewrite Ha. Qed.

Definition manifest_ok (specs : list pathSpec) : Prop :=
  forall spec, spec ∈ specs -> spec.(Access) ∈ ["ro"; "rx"; "dev"; "null"; "read"].

Lemma spec_class specs g : manifest_ok specs -> of_spec specs g ->
  classAccess g.(g_class) = Some g.(g_access) /\ (g.(g_class) = "dev" -> g.(g_source) = SourceDevice) /\
  (g.(g_source) = SourceDevice \/ g.(g_class) = "ro" \/ g.(g_class) = "rx").
Proof.
  intros Hm (spec & Hs & ->). specialize (Hm spec Hs).
  rewrite !elem_of_cons in Hm. destruct Hm as [-> | [-> | [-> | [-> | [-> | []%not_elem_of_nil]]]]]; cbn; split_and!; auto; try done.
Qed.

(** Every grant of an accepted launch has the rights of its class, and only
    device nodes are granted as devices. *)
Lemma grant_cases specs gs0 l ro rw g : manifest_ok specs -> Forall (of_spec specs) gs0 ->
  g ∈ (gs0 ++ map (entry "rx" SourceProfile) (l.(exe) :: l.(exe_grants)) ++ [entry "rw" SourceWorkingDir l.(wd)] ++
       map (entry "rw" SourceState) l.(statePins) ++ map (entry "ro" SourceCaller) ro ++ map (entry "rw" SourceCaller) rw)%list ->
  classAccess g.(g_class) = Some g.(g_access) /\ (g.(g_class) = "dev" -> g.(g_source) = SourceDevice).
Proof.
  intros Hm H0 Hg. rewrite !elem_of_app, !list_elem_of_In, !in_map_iff, <- list_elem_of_In in Hg.
  destruct Hg as [Hg|[(p & <- & _)|[[<-|[]]|[(p & <- & _)|[(p & <- & _)|(p & <- & _)]]]]]; try done.
  rewrite list.Forall_forall in H0. destruct (spec_class specs g Hm (H0 g Hg)) as (? & ? & _). auto.
Qed.

(** Every grant of an accepted launch carries the rights of its class, and
    whatever the kernel, no rule lets the harness connect to a pathname socket
    or make a device, and device control is for devices only. *)
Theorem grants_confine specs req l gs om :
  manifest_ok specs -> collectGrants pinPath is_symlink specs req l = Ok (gs, om) ->
  Forall (fun g => classAccess g.(g_class) = Some g.(g_access) /\
    Landlock.has (rights g) (Landlock.ors [Landlock.AccessFSResolveUnix; Landlock.AccessFSMakeChar; Landlock.AccessFSMakeBlock]) = false /\
    (Landlock.has (rights g) Landlock.AccessFSIoctlDev = true -> g.(g_class) = "dev" /\ g.(g_source) = SourceDevice)) gs.
Proof.
  intros Hm (gs0 & ro & rw & H0 & _ & _ & -> & _)%collectGrants_Ok. apply list.Forall_forall. intros g Hg.
  destruct (grant_cases specs _ _ _ _ g Hm H0 Hg) as [Hc Hd].
  destruct (class_rights _ _ g.(g_pin).(isDir) Hc) as (Hr & Hi & _). split_and!; [done|done|].
  intros Hx. destruct (decide (g_class g = "dev")) as [E|E]; [auto|]. unfold rights in Hx. by rewrite Hi in Hx.
Qed.

(** Nothing is writable through what the caller asked for read-only: of the
    grants that reach a read-only path of the request, only those of device
    nodes carry a right to change anything. *)
Theorem read_only_holds specs req l gs om r g :
  manifest_ok specs -> collectGrants pinPath is_symlink specs req l = Ok (gs, om) ->
  (exists path, path ∈ req.(ReadOnly) /\ pinPath path = Ok r) ->
  g ∈ gs -> contains g.(g_pin) r = true ->
  g.(g_source) = SourceDevice \/ Landlock.has (rights g) Landlock.WriteRights = false.
Proof.
  intros Hm (gs0 & ro & rw & H0 & Hro & _ & -> & _ & _ & Hw & _)%collectGrants_Ok (path & Hp & Hr) Hg Hc.
  assert (Hin : r ∈ ro).
  { apply list_elem_of_lookup in Hp as [i Hi]. destruct (Forall2_lookup_l _ _ _ _ _ Hro Hi) as (r' & Hi' & Hr').
    rewrite Hr in Hr'. simplify_eq. by eapply list_elem_of_lookup_2. }
  specialize (Hw r (g_pin g) Hin). destruct (grant_cases specs _ _ _ _ g Hm H0 Hg) as [Ha _].
  destruct (class_rights _ _ g.(g_pin).(isDir) Ha) as (_ & _ & Hrw).
  rewrite !elem_of_app, !list_elem_of_In, !in_map_iff, <- list_elem_of_In in Hg.
  destruct Hg as [Hg|[(p & <- & _)|[Hg|[(p & <- & Hp')|[(p & <- & _)|(p & <- & Hp')]]]]]; auto.
  - rewrite list.Forall_forall in H0. destruct (spec_class specs g Hm (H0 g Hg)) as (_ & _ & [?|?]); auto.
  - destruct Hg as [<-|[]]. rewrite Hw in Hc; [done|]. cbn. set_solver.
  - rewrite Hw in Hc; [done|]. apply list_elem_of_In in Hp'. cbn. set_solver.
  - rewrite Hw in Hc; [done|]. apply list_elem_of_In in Hp'. cbn. set_solver.
Qed.
End Grants.

(** ** Ancestors *)

Section Tree.
(** The kernel's "..", of directories. *)
Context (up : objectID -> objectID).

(** [d], [up d], [up (up d)], ... *)
Definition above (d x : objectID) : Prop := exists n, Nat.iter n up d = x.

Lemma iter_S n d : Nat.iter (S n) up d = Nat.iter n up (up d).
Proof. induction n as [|n IH]; [done|]. change (up (Nat.iter (S n) up d) = up (Nat.iter n up (up d))). by rewrite IH. Qed.

Lemma above_step d x : above (up d) x -> above d x.
Proof. intros [n <-]. exists (S n). apply iter_S. Qed.

Lemma above_inv d x : above d x -> x = d \/ above (up d) x.
Proof. intros [[|n] <-]; [by left|right]. exists n. by rewrite iter_S. Qed.

(** When the walk stops, at the root, it has met everything above its start. *)
Lemma walk_spec depth : forall acc cur out, walk up depth acc cur = Some out ->
  (forall x, list.last acc = Some x -> up x = cur) ->
  forall x, x ∈ out <-> x ∈ acc \/ above cur x.
Proof.
  induction depth as [|depth IH]; intros acc cur out H Hacc x; cbn in H; [done|].
  case_bool_decide as E.
  - simplify_eq. split; [by left|]. intros [?|[n <-]]; [done|].
    assert (Hfix : up cur = cur) by by apply Hacc.
    assert (Nat.iter n up cur = cur) as -> by (induction n as [|n IHn]; [done|]; change (up (Nat.iter n up cur) = cur); by rewrite IHn).
    by apply list.last_Some_elem_of in E.
  - rewrite (IH _ _ _ H); [|intros y; rewrite last_snoc; by intros [= <-]].
    rewrite elem_of_app, list_elem_of_singleton. split.
    + intros [[? | ->]|?]; [by left|right; by exists 0%nat|right; by apply above_step].
    + intros [?|[->|?]%above_inv]; auto.
Qed.

Lemma walkAncestors_spec start out x : walkAncestors up start = Some out -> x ∈ out <-> above start x.
Proof.
  unfold walkAncestors. generalize (Z.to_nat 4096) as depth. intros depth H.
  rewrite (walk_spec depth [] start out H) by done. rewrite elem_of_nil. tauto.
Qed.

(** A path pinned in this tree: a directory's walk starts at its "..", and
    what is above an object is a directory. *)
Definition well_pinned (dirs : objectID -> bool) (p : pinned) : Prop :=
  p.(isDir) = dirs p.(id) /\
  exists start, walkAncestors up start = Some p.(ancestors) /\ (forall x, above start x -> dirs x = true) /\
    (p.(isDir) = true -> start = up p.(id)).

Lemma contains_spec p q : contains p q = true <-> p.(id) = q.(id) \/ p.(id) ∈ q.(ancestors).
Proof.
  unfold contains. rewrite orb_true_iff, bool_decide_eq_true, any_true. split.
  - intros [?|(x & ? & Hx)]; [by left|]. bprop. subst. by right.
  - intros [?|?]; [by left|]. right. exists (id p). split; [done|]. by apply bool_decide_eq_true_2.
Qed.

(** A directory contains what is beneath it. *)
Lemma dir_contains dirs p q : well_pinned dirs q -> q.(isDir) = true -> above q.(id) p.(id) -> contains p q = true.
Proof.
  intros (_ & start & Hw & _ & Hs) Hd [E|Ha]%above_inv; apply contains_spec; [by left|]. right.
  rewrite (walkAncestors_spec _ _ _ Hw), (Hs Hd). done.
Qed.

(** Two directories that both contain an object are on one path, unless the
    object is a file the first names itself. *)
Lemma contains_linear dirs p q t : well_pinned dirs p -> well_pinned dirs q -> well_pinned dirs t ->
  q.(isDir) = true -> contains p t = true -> contains q t = true ->
  overlaps p q = true \/ (t.(isDir) = false /\ p.(id) = t.(id)).
Proof.
  intros Wp Wq Wt Hqd [Hp|Hp]%contains_spec [Hq|Hq]%contains_spec; unfold overlaps.
  - left. apply orb_true_iff. left. apply contains_spec. left. congruence.
  - destruct (isDir t) eqn:Hd; [left|by right]. apply orb_true_iff. right.
    destruct Wt as (Ht & start & Hw & _ & Hs). rewrite (walkAncestors_spec _ _ _ Hw), (Hs Hd) in Hq.
    apply (dir_contains dirs); [done| |rewrite Hp; by apply above_step].
    destruct Wp as (Hpd & _). by rewrite Hpd, Hp, <- Ht.
  - left. apply orb_true_iff. left. destruct Wt as (Ht & start & Hw & _ & Hs).
    assert (Hd : isDir t = true) by (destruct Wq as (Hqd' & _); by rewrite Ht, <- Hq, <- Hqd').
    rewrite (walkAncestors_spec _ _ _ Hw), (Hs Hd) in Hp. apply (dir_contains dirs); [done|done|].
    rewrite Hq. by apply above_step.
  - left. apply orb_true_iff. destruct Wt as (_ & start & Hw & Hdirs & _).
    rewrite (walkAncestors_spec _ _ _ Hw) in Hp. rewrite (walkAncestors_spec _ _ _ Hw) in Hq.
    assert (Hpd : isDir p = true) by (destruct Wp as (-> & _); auto).
    destruct Hp as [n Hn], Hq as [m Hm]. destruct (decide (n <= m)%nat) as [Hle|Hlt].
    + right. apply (dir_contains dirs); [done|done|]. exists (m - n)%nat. rewrite <- Hn, <- Hm.
      rewrite <- Nat.iter_add. f_equal. lia.
    + left. apply (dir_contains dirs); [done|done|]. exists (n - m)%nat. rewrite <- Hn, <- Hm.
      rewrite <- Nat.iter_add. f_equal. lia.
Qed.

End Tree.

(** ** The environment *)

Lemma inherit_fold caller names : forall vars n,
  fold_left (fun vars name => inherit caller name vars) names vars !! n =
  (if decide (n ∈ names) then match lookupEnv caller n with Some v => Some v | None => vars !! n end else vars !! n).
Proof.
  induction names as [|m names IH]; intros vars n; [by rewrite decide_False by apply not_elem_of_nil|].
  cbn [fold_left]. rewrite IH. assert (Hi : inherit caller m vars !! n =
    if decide (n = m) then match lookupEnv caller n with Some v => Some v | None => vars !! n end else vars !! n).
  { unfold inherit. destruct (decide (n = m)) as [->|Hne].
    - destruct (lookupEnv caller m); [by rewrite lookup_insert_eq|done].
    - destruct (lookupEnv caller m); [by rewrite lookup_insert_ne|done]. }
  rewrite Hi. destruct (decide (n ∈ names)) as [Hin|Hin], (decide (n = m)) as [->|Hne].
  - rewrite decide_True by (by apply list_elem_of_here). by destruct (lookupEnv caller m).
  - by rewrite decide_True by (by apply list_elem_of_further).
  - by rewrite decide_True by (by apply list_elem_of_here).
  - rewrite decide_False; [done|]. rewrite elem_of_cons. tauto.
Qed.

(** What the wrapper itself sets. *)
Definition wrapper_var (m : manifest) (l : layout) (wd : string) (n : string) : option string :=
  if negb (m.(StateSpec).(ConfigEnv) =? "")%string && negb (l.(Config) =? "")%string && (n =? m.(StateSpec).(ConfigEnv))%string
  then Some l.(Config)
  else if (n =? "PWD")%string then Some wd
  else if any (String.eqb n) ["TMPDIR"; "TMP"; "TEMP"] then Some l.(Tmp)
  else if (n =? "HOME")%string then Some l.(Home)
  else None.

(** The value of a variable of the harness's environment. *)
Definition child_var (m : manifest) (req : Request) (caller : list string) (l : layout) (wd : string) (n : string) : option string :=
  match m.(Env) !! n with
  | Some v => Some v
  | None =>
    match wrapper_var m l wd n with
    | Some v => Some v
    | None =>
        if ReservedEnv n then None
        else if decide (n ∈ inherited_names m req caller) then lookupEnv caller n else None
    end
  end.

Lemma insert_var (k v : string) (vars : gmap string string) n :
  <[k := v]> vars !! n = if (n =? k)%string then Some v else vars !! n.
Proof. destruct (String.eqb_spec n k) as [->|Hne]; [by rewrite lookup_insert_eq|by rewrite lookup_insert_ne]. Qed.

Lemma union_lookup {A} (o o' : option A) : o ∪ o' = match o with Some v => Some v | None => o' end.
Proof. by destruct o, o'. Qed.

Lemma child_vars_spec m req caller l wd n : child_vars m req caller l wd !! n = child_var m req caller l wd n.
Proof.
  unfold child_vars, child_var. rewrite lookup_union. set (base := filter _ _).
  assert (Hb : base !! n = if ReservedEnv n then None
    else if decide (n ∈ inherited_names m req caller) then lookupEnv caller n else None).
  { unfold base. rewrite map_lookup_filter, inherit_fold, lookup_empty.
    set (r := ReservedEnv n).
    destruct (decide (n ∈ inherited_names m req caller)); [destruct (lookupEnv caller n) as [v|]|]; cbn [mbind option_bind];
      [|by destruct r..]. case_guard as E; cbn [mbind option_bind]; cbn beta iota in E; change (ReservedEnv (n, v).1) with r in E.
    - change (Some v = if r then None else Some v). clearbody r. by assert (r = false) as -> by exact E.
    - change (None = if r then None else Some v). destruct r eqn:Er; [done|]. by destruct E. }
  rewrite <- Hb. clear Hb. generalize base. clear base. intros base. unfold wrapper_var, any. cbn [existsb].
  destruct (negb (ConfigEnv (StateSpec m) =? "")%string && negb (Config l =? "")%string); cbn [andb];
    rewrite !insert_var, union_lookup; destruct (Env m !! n); try done;
    repeat match goal with |- context [(n =? ?k)%string] => destruct (n =? k)%string; cbn [orb] end; done.
Qed.

Definition eq_sign : ascii := "=".

Lemma lookupEnv_app env kv key : lookupEnv (app env [kv]) key =
  match CutPrefix kv (key ++ "=") with Some v => Some v | None => lookupEnv env key end.
Proof. unfold lookupEnv. by rewrite fold_left_app. Qed.

Lemma CutPrefix_entry k v n : no_byte eq_sign k -> no_byte eq_sign n ->
  CutPrefix (k ++ "=" ++ v) (n ++ "=") = if (n =? k)%string then Some v else None.
Proof.
  intros Hk Hn. destruct (String.eqb_spec n k) as [->|Hne].
  - apply CutPrefix_Some. by rewrite append_assoc.
  - destruct (CutPrefix _ _) as [r|] eqn:E; [|done]. apply CutPrefix_Some in E. rewrite append_assoc in E.
    assert (H1 : Cut (k ++ String eq_sign v) eq_sign = Some (k, v)) by by apply Cut_app.
    assert (H2 : Cut (n ++ String eq_sign r) eq_sign = Some (n, r)) by by apply Cut_app.
    change (String eq_sign v) with ("=" ++ v) in H1. change (String eq_sign r) with ("=" ++ r) in H2.
    rewrite E in H1. rewrite H1 in H2. congruence.
Qed.

(** Looking a variable up in an environment made of distinct names. *)
Lemma lookupEnv_made (f : string -> string) names n : no_byte eq_sign n -> Forall (no_byte eq_sign) names ->
  lookupEnv (map (fun k => k ++ "=" ++ f k) names) n = if decide (n ∈ names) then Some (f n) else None.
Proof.
  intros Hn. induction names as [|k names IH] using rev_ind; intros Hk; [done|].
  apply Forall_app in Hk as [Hk1 Hk2]. apply Forall_inv in Hk2. rewrite map_app. cbn [map].
  rewrite lookupEnv_app, CutPrefix_entry by done. destruct (String.eqb_spec n k) as [->|Hne].
  - by rewrite decide_True by set_solver.
  - rewrite IH by done. destruct (decide (n ∈ names)) as [Hin|Hin]; [by rewrite decide_True by set_solver|].
    rewrite decide_False; [done|]. set_solver.
Qed.

(** The names a profile and a request may bring hold no "=". *)
Definition names_ok (m : manifest) (req : Request) : Prop :=
  Forall (no_byte eq_sign) (m.(StateSpec).(ConfigEnv) :: m.(AuthEnv) ++ m.(ControlEnv) ++ req.(PassEnv)) /\
  forall n v, m.(Env) !! n = Some v -> no_byte eq_sign n.

Lemma no_eq_dec s : forallb (fun c => negb (Ascii.eqb c eq_sign)) (list_ascii_of_string s) = true -> no_byte eq_sign s.
Proof. intros H Hin. rewrite forallb_elem in H. apply H in Hin. by rewrite Ascii.eqb_refl in Hin. Qed.

Lemma child_var_names m req caller l wd n : names_ok m req -> is_Some (child_var m req caller l wd n) -> no_byte eq_sign n.
Proof.
  intros [Hl He] [v Hv]. rewrite list.Forall_forall in Hl. unfold child_var in Hv.
  destruct (Env m !! n) eqn:E; [eauto|]. destruct (wrapper_var m l wd n) eqn:Ew.
  - unfold wrapper_var in Ew. destruct (_ && _ && _) eqn:E1; bprop; [subst; apply Hl; set_solver|].
    destruct (String.eqb_spec n "PWD"); [subst; by apply no_eq_dec|]. destruct (any _ _) eqn:E2.
    + apply any_true in E2 as (x & Hx & Heq). bprop. subst.
      repeat (apply elem_of_cons in Hx as [->|Hx]; [by apply no_eq_dec|]). by apply not_elem_of_nil in Hx.
    + destruct (String.eqb_spec n "HOME"); [subst; by apply no_eq_dec|done].
  - destruct (ReservedEnv n); [done|]. destruct (decide _) as [Hin|]; [|done]. unfold inherited_names in Hin.
    apply elem_of_app in Hin as [Hin|Hin].
    + repeat (apply elem_of_cons in Hin as [->|Hin]; [by apply no_eq_dec|]). by apply not_elem_of_nil in Hin.
    + apply elem_of_app in Hin as [Hin|Hin]; [|apply Hl; set_solver].
      unfold locale_names in Hin. apply list_elem_of_omap in Hin as (kv & _ & Hkv).
      destruct (Cut kv "=") as [[nm t]|] eqn:Ec; [|done]. destruct (HasPrefix nm "LC_"); [|done]. simplify_eq.
      apply Cut_Some in Ec. apply Ec.
Qed.

(** The harness's environment is exactly this: the profile's fixed settings,
    then the private layout, then — reserved names left out — the caller's
    value of a name that is allow-listed, a locale's, the profile's or the
    request's. Each name is there once, in order, and names alone are
    recorded. *)
Theorem childEnv_spec m req caller l wd env names :
  childEnv m req caller l wd = (env, names) -> names_ok m req ->
  StronglySorted String.le names /\ NoDup names /\
  (forall n, no_byte eq_sign n -> lookupEnv env n = child_var m req caller l wd n) /\
  (forall n, n ∈ names <-> is_Some (child_var m req caller l wd n)).
Proof.
  unfold childEnv. intros [= <- <-] Hok. set (vars := child_vars m req caller l wd).
  set (names := merge_sort String.le (map fst (map_to_list vars))).
  assert (Hin : forall n, n ∈ names <-> is_Some (child_var m req caller l wd n)).
  { intros n. unfold names. rewrite merge_sort_Permutation, <- child_vars_spec. fold vars.
    change (map fst (map_to_list vars)) with (map_to_list vars).*1. rewrite list_elem_of_fmap. split.
    - intros ([k v] & -> & Hkv%elem_of_map_to_list). by exists v.
    - intros [v Hv]. exists (n, v). split; [done|]. by apply elem_of_map_to_list. }
  split_and!; [apply StronglySorted_merge_sort; apply _| | |done].
  - unfold names. rewrite merge_sort_Permutation. apply NoDup_fst_map_to_list.
  - intros n Hn. rewrite (lookupEnv_made (fun k => default "" (vars !! k))); [|done|].
    + unfold vars. rewrite child_vars_spec. destruct (decide (n ∈ names)) as [H|H]; rewrite Hin in H.
      * destruct H as [v Hv]. by rewrite Hv.
      * by rewrite <- eq_None_not_Some in H.
    + apply list.Forall_forall. intros k Hk%Hin. by eapply child_var_names.
Qed.

(** ** Resuming *)

(** What a launch records as targets: its working directory, its caller's
    grants and the caller's state directory. *)
Definition recorded (gs : list grantEntry) (stateDir : option pinned) : list pinned :=
  app (map g_pin (List.filter (fun g => any (String.eqb g.(g_source)) [SourceCaller; SourceWorkingDir]) gs))
      (match stateDir with Some p => [p] | None => [] end).

(** A path names one object, in one launch. *)
Definition one_object (ps : list pinned) : Prop :=
  forall p q, p ∈ ps -> q ∈ ps -> p.(requested) = q.(requested) -> p.(canonical) = q.(canonical).

Lemma target_pin p out : p.(requested) <> "" ->
  target (if (p.(requested) =? p.(canonical))%string then "" else p.(requested)) p.(canonical) out
  = <[p.(requested) := p.(canonical)]> out.
Proof.
  intros Hr. unfold target. destruct (String.eqb_spec p.(requested) p.(canonical)) as [E|E]; [by rewrite E|].
  by destruct (String.eqb_spec p.(requested) "").
Qed.

Definition keep_pins (ps : list pinned) : gmap string string :=
  fold_left (fun out p => <[p.(requested) := p.(canonical)]> out) ps ∅.

Lemma keep_pins_spec ps r c : one_object ps ->
  keep_pins ps !! r = Some c <-> exists p, p ∈ ps /\ p.(requested) = r /\ p.(canonical) = c.
Proof.
  unfold keep_pins. induction ps as [|p ps IH] using rev_ind; intros Hone.
  - cbn [fold_left]. rewrite lookup_empty. split; [done|]. by intros (p & []%not_elem_of_nil & _).
  - rewrite fold_left_app. cbn [fold_left]. rewrite insert_var.
    assert (Hone' : one_object ps) by (intros a b Ha Hb; apply Hone; set_solver).
    destruct (String.eqb_spec r p.(requested)) as [->|Hne].
    + split; [intros [= <-]; exists p; set_solver|]. intros (q & Hq & Hr & <-). f_equal.
      apply Hone; [set_solver|done|done].
    + rewrite (IH Hone'). split; intros (q & Hq & Hr & Hc); exists q; [set_solver|].
      split; [|done]. apply elem_of_app in Hq as [?|Hq]; [done|]. apply list_elem_of_singleton in Hq. congruence.
Qed.

Lemma Targets_pins h gs req id lay env sd :
  (forall p, p ∈ recorded gs sd -> p.(requested) <> "" /\ p.(canonical) <> "") ->
  ((req.(StateDir) =? "")%string = is_none sd) ->
  Targets (map (applied_grant h) gs) (applied_state req id lay env sd) = keep_pins (recorded gs sd).
Proof.
  intros Hne Hsd. unfold Targets, recorded, keep_pins. rewrite fold_left_app.
  assert (Hfold : forall out, fold_left (fun out g =>
    if any (String.eqb g.(gr_Source)) [SourceCaller; SourceWorkingDir] then target g.(gr_Requested) g.(gr_Path) out else out)
    (map (applied_grant h) gs) out =
    fold_left (fun out p => <[p.(requested) := p.(canonical)]> out)
      (map g_pin (List.filter (fun g => any (String.eqb g.(g_source)) [SourceCaller; SourceWorkingDir]) gs)) out).
  { assert (Hg : forall p, p ∈ map g_pin (List.filter (fun g => any (String.eqb g.(g_source)) [SourceCaller; SourceWorkingDir]) gs) ->
      p.(requested) <> "") by (intros p Hp; apply Hne; unfold recorded; set_solver). clear Hne.
    induction gs as [|g gs IH]; intros out; [done|]. cbn [map fold_left List.filter] in *. cbn [gr_Source applied_grant] in *.
    destruct (any (String.eqb (g_source g)) _) eqn:Ea; cbn [map fold_left] in *.
    - cbn [gr_Requested gr_Path applied_grant]. rewrite target_pin by (apply Hg; set_solver). apply IH. intros p Hp. apply Hg. set_solver.
    - apply IH. done. }
  rewrite Hfold. unfold applied_state. cbn [st_Mode st_StateDir st_StateDirRequested]. rewrite Hsd.
  destruct sd as [p|]; cbn [is_none fold_left]; [|done].
  destruct (Hne p) as [Hr Hc]; [unfold recorded; set_solver|]. change ("caller" =? "caller")%string with true.
  apply String.eqb_neq in Hc. rewrite Hc. cbn [negb andb]. by apply target_pin.
Qed.

Lemma checkTargets_Ok expect ps : checkTargets expect ps = Ok tt <->
  forall p want, p ∈ ps -> expect !! p.(requested) = Some want -> want = p.(canonical).
Proof.
  unfold checkTargets, range. generalize 0. induction ps as [|p ps IH]; intros i; cbn.
  - split; [|done]. by intros _ p want []%not_elem_of_nil.
  - setoid_rewrite elem_of_cons. destruct (match expect !! requested p with Some want => _ | None => false end) eqn:E; cbn.
    + split; [done|]. intros H. destruct (expect !! requested p) as [want|] eqn:Ew; [|done].
      rewrite (H p want) in E by auto. by rewrite String.eqb_refl in E.
    + rewrite IH. split; [|by eauto]. intros Hps q want [->|Hq] Hw; [|by eapply Hps]. rewrite Hw in E. by bprop.
Qed.

(** A stored conversation is resumed exactly when each path it was created
    with, where it is named again, still is the object it was then: the working
    directory, the caller's grants and its state directory. *)
Theorem resume_accepts_iff h gs req id lay env sd ps :
  (forall p, p ∈ recorded gs sd -> p.(requested) <> "" /\ p.(canonical) <> "") ->
  (req.(StateDir) =? "")%string = is_none sd -> one_object (recorded gs sd) ->
  checkTargets (Targets (map (applied_grant h) gs) (applied_state req id lay env sd)) ps = Ok tt <->
  forall p q, p ∈ recorded gs sd -> q ∈ ps -> p.(requested) = q.(requested) -> p.(canonical) = q.(canonical).
Proof.
  intros Hne Hsd Hone. rewrite checkTargets_Ok, Targets_pins by done. split.
  - intros H p q Hp Hq E. apply (H q); [done|]. apply keep_pins_spec; [done|]. by exists p.
  - intros H q want Hq (p & Hp & Hr & <-)%keep_pins_spec; [|done]. by apply H.
Qed.

(** ** Fingerprints *)

Lemma match_pairs_None pairs s : match_pairs pairs s = None <-> forall old new, (old, new) ∈ pairs -> HasPrefix s old = false.
Proof.
  induction pairs as [|[old new] pairs IH]; cbn.
  - split; [|done]. by intros _ ? ? []%not_elem_of_nil.
  - destruct (CutPrefix s old) as [r|] eqn:E.
    + split; [done|]. intros H. specialize (H old new (list_elem_of_here _ _)). apply CutPrefix_Some in E.
      assert (HasPrefix s old = true) by (apply HasPrefix_spec; eauto). congruence.
    + rewrite IH. setoid_rewrite elem_of_cons. split; [|by eauto]. intros H o n [[= -> ->]|?]; [|by eauto].
      apply not_true_iff_false. intros [r Hr]%HasPrefix_spec. apply CutPrefix_Some in Hr. congruence.
Qed.

(** A path in which no pattern occurs is left as it is. *)
Lemma replace_id pairs s : (forall old new, (old, new) ∈ pairs -> Contains s old = false) ->
  forall fuel, (String.length s < fuel)%nat -> replace fuel pairs s = s.
Proof.
  induction s as [|c s IH]; intros H [|fuel] Hf; try (cbn in Hf; lia); cbn [replace];
    (assert (match_pairs pairs _ = None) as -> by
      (apply match_pairs_None; intros old new Hin; specialize (H old new Hin); cbn in H; by apply orb_false_iff in H as [? _]));
    [done|]. f_equal. apply IH; [|cbn in Hf; lia]. intros old new Hin. specialize (H old new Hin). cbn in H.
  by apply orb_false_iff in H as [_ ?].
Qed.

(** A path that is a pattern, and begins with no earlier one, becomes its
    replacement. *)
Lemma Replace_at pre old new post : (forall o n, (o, n) ∈ pre -> HasPrefix old o = false) ->
  old <> "" -> (forall o n, (o, n) ∈ (pre ++ (old, new) :: post)%list -> o <> "") ->
  Replace (pre ++ (old, new) :: post) old = new.
Proof.
  intros Hpre Hne Hall. unfold Replace. cbn [replace].
  assert (Hm : match_pairs (pre ++ (old, new) :: post) old = Some (new, "")).
  { clear Hall. induction pre as [|[o n] pre IH]; cbn.
    - assert (CutPrefix old old = Some "") as -> by (apply CutPrefix_Some; by rewrite append_nil_r). done.
    - destruct (CutPrefix old o) as [r|] eqn:E.
      + apply CutPrefix_Some in E. assert (HasPrefix old o = true) by (apply HasPrefix_spec; eauto).
        rewrite (Hpre o n) in H by apply list_elem_of_here. done.
      + apply IH. intros o' n' Hin. eapply Hpre, list_elem_of_further, Hin. }
  rewrite Hm. destruct old as [|c s]; [done|]. cbn [String.length replace].
  assert (match_pairs (pre ++ (String c s, new) :: post) "" = None) as ->.
  { apply match_pairs_None. intros o n Hin. specialize (Hall o n Hin). by destruct o. }
  by rewrite append_nil_r.
Qed.

(** A layout whose directories do not begin with one another, but that the
    harness's own may lie in its home. *)
Definition layout_ok (s : State) : Prop :=
  s.(st_Home) <> "" /\ s.(st_Tmp) <> "" /\ HasPrefix s.(st_Tmp) s.(st_Home) = false /\
  (s.(st_HarnessState) <> "" ->
     HasPrefix s.(st_Home) s.(st_HarnessState) = false /\ HasPrefix s.(st_Tmp) s.(st_HarnessState) = false).

Definition untouched (s : State) (p : string) : Prop :=
  forall old new, (old, new) ∈ stateReplacer s -> Contains p old = false.

(** [p] and [p'] are the same place of two layouts, or the same path. *)
Inductive same_place (s s' : State) : string -> string -> Prop :=
| same_harness : s.(st_HarnessState) <> "" -> s'.(st_HarnessState) <> "" ->
    same_place s s' s.(st_HarnessState) s'.(st_HarnessState)
| same_home : same_place s s' s.(st_Home) s'.(st_Home)
| same_tmp : same_place s s' s.(st_Tmp) s'.(st_Tmp)
| same_path p : untouched s p -> untouched s' p -> same_place s s' p p.

Lemma stateReplacer_all s : layout_ok s -> exists pre, stateReplacer s =
    (pre ++ [(s.(st_Home), "$STATE/home"); (s.(st_Tmp), "$STATE/tmp")])%list /\
  pre = (if (s.(st_HarnessState) =? "")%string then [] else [(s.(st_HarnessState), "$STATE/harness")]).
Proof.
  intros (Hh & Ht & _). unfold stateReplacer. cbn. apply String.eqb_neq in Hh, Ht. rewrite Hh, Ht. cbn.
  eexists. split; [|reflexivity]. by destruct (st_HarnessState s =? "")%string.
Qed.

Lemma Replace_layout s : layout_ok s ->
  (s.(st_HarnessState) <> "" -> Replace (stateReplacer s) s.(st_HarnessState) = "$STATE/harness") /\
  Replace (stateReplacer s) s.(st_Home) = "$STATE/home" /\ Replace (stateReplacer s) s.(st_Tmp) = "$STATE/tmp".
Proof.
  intros Hok. destruct (stateReplacer_all s Hok) as (pre & E & Hpre). destruct Hok as (Hh & Ht & Hth & Hst).
  assert (Hne : forall o n, (o, n) ∈ stateReplacer s -> o <> "").
  { intros o n Hin. unfold stateReplacer in Hin. apply list_elem_of_In, filter_In in Hin as [_ Hin]. cbn in Hin. by bprop. }
  destruct (String.eqb_spec s.(st_HarnessState) "") as [E0|E0]; subst pre; rewrite E in *; split_and!; try done.
  - apply (Replace_at [] _ _ [(st_Tmp s, "$STATE/tmp")]); [by intros ? ? []%not_elem_of_nil|done|done].
  - apply (Replace_at [(st_Home s, "$STATE/home")] _ _ []); [|done|done].
    intros o n Ho%list_elem_of_singleton. by simplify_eq.
  - intros _. apply (Replace_at [] _ _ [(st_Home s, "$STATE/home"); (st_Tmp s, "$STATE/tmp")]);
      [by intros ? ? []%not_elem_of_nil|done|done].
  - apply (Replace_at [(st_HarnessState s, "$STATE/harness")] _ _ [(st_Tmp s, "$STATE/tmp")]); [|done|done].
    intros o n Ho%list_elem_of_singleton. simplify_eq. by apply Hst.
  - apply (Replace_at [(st_HarnessState s, "$STATE/harness"); (st_Home s, "$STATE/home")] _ _ []); [|done|done].
    intros o n [Ho|Ho%list_elem_of_singleton]%elem_of_cons; simplify_eq; [by apply Hst|done].
Qed.

Lemma same_place_view s s' p p' : layout_ok s -> layout_ok s' -> same_place s s' p p' ->
  Replace (stateReplacer s) p = Replace (stateReplacer s') p'.
Proof.
  intros H1 H2 Hp. destruct (Replace_layout s H1) as (A1 & A2 & A3), (Replace_layout s' H2) as (B1 & B2 & B3).
  destruct Hp as [Ha Hb| | |p Ha Hb]; [by rewrite A1, B1|congruence|congruence|].
  unfold Replace. rewrite !replace_id by (try lia; done). done.
Qed.

Definition same_grant (s s' : State) (g g' : Grant) : Prop :=
  g.(gr_Access) = g'.(gr_Access) /\ g.(gr_Rights) = g'.(gr_Rights) /\ g.(gr_Source) = g'.(gr_Source) /\
  (g.(gr_Source) = SourceTerminal \/ same_place s s' g.(gr_Path) g'.(gr_Path)).

(** The same policy, for two sessions. *)
Definition same_policy (a b : Applied) : Prop :=
  a.(SchemaVersion) = b.(SchemaVersion) /\ a.(Applied.Kind) = b.(Applied.Kind) /\ a.(Applied.RequiredABI) = b.(Applied.RequiredABI) /\
  a.(Profile) = b.(Profile) /\ a.(ProfileVersion) = b.(ProfileVersion) /\ a.(HandledFS) = b.(HandledFS) /\
  a.(Tcp) = b.(Tcp) /\ a.(PathnameSockets) = b.(PathnameSockets) /\ a.(AppArmor) = b.(AppArmor) /\
  a.(Scopes) = b.(Scopes) /\ a.(EnvNames) = b.(EnvNames) /\ a.(StateOf).(st_Mode) = b.(StateOf).(st_Mode) /\
  Forall2 (same_grant a.(StateOf) b.(StateOf)) a.(Grants) b.(Grants).

(** Two sessions under the same policy have one fingerprint, wherever their
    private state and terminals are and whatever kernel and supervision they
    run under. *)
Theorem same_policy_same_fingerprint sha256Hex a b :
  layout_ok a.(StateOf) -> layout_ok b.(StateOf) -> same_policy a b ->
  Fingerprint sha256Hex (Some a) = Fingerprint sha256Hex (Some b).
Proof.
  intros Ha Hb (H1 & H2 & H3 & H4 & H5 & H6 & H7 & H8 & H9 & H10 & H11 & H12 & Hg). unfold Fingerprint, fingerprint_view.
  assert (Hv : map (view_grant a.(StateOf)) a.(Grants) = map (view_grant b.(StateOf)) b.(Grants)).
  { induction Hg as [|g g' gs gs' (G1 & G2 & G3 & G4) _ IH]; [done|]. cbn [map]. rewrite IH. f_equal.
    unfold view_grant. rewrite G1, G2, <- G3. destruct (String.eqb_spec (gr_Source g) SourceTerminal); [done|].
    destruct G4 as [?|G4]; [done|]. by rewrite (same_place_view _ _ _ _ Ha Hb G4). }
  by rewrite Hv, H1, H2, H3, H4, H5, H6, H7, H8, H9, H10, H11, H12.
Qed.

(** The layout's directories are replaced wherever their text occurs, whole
    components or not: two policies that grant different directories of the
    caller's have one fingerprint. *)
Definition sample_applied (base : string) : Applied :=
  mkApplied 1 "landlock" 9 9 "codex@0.144.5" 1 ["execute"]
    [mkGrant (base ++ "/homework") "rw" ["execute"] SourceCaller ""] (mkTCP "unrestricted" [] "unrestricted") "denied" None
    ["signal"] (mkState "caller" "abcdefghijkl" (base ++ "/home") "/s/tmp" (base ++ "/codex") "CODEX_HOME" base "") "cgroup"
    ["HOME"] [].

Theorem fingerprint_confuses_grants sha256Hex :
  Fingerprint sha256Hex (Some (sample_applied "/alice")) = Fingerprint sha256Hex (Some (sample_applied "/bob")) /\
  map gr_Path (sample_applied "/alice").(Grants) <> map gr_Path (sample_applied "/bob").(Grants).
Proof. split; [|done]. unfold Fingerprint. do 3 f_equal. Qed.

(** ** Witnesses *)

(** A small host: /work, /opt, /usr/bin/claude, and /state with two sessions. *)
Definition obj (n : Z) : objectID := (1, n).
Definition demo_up (x : objectID) : objectID :=
  if bool_decide (x = obj 4) then obj 3 else if bool_decide (x = obj 5) then obj 3 else
  if bool_decide (x = obj 7) then obj 6 else obj 0.
Definition demo_dirs (x : objectID) : bool := negb (bool_decide (x = obj 7)).

Definition demo_pin (path : string) (n : Z) : pinned :=
  mkPinned path path (obj n) (demo_dirs (obj n)) 0
    (if bool_decide (n = 0) then [obj 0] else if bool_decide (n = 4) then [obj 3; obj 0] else
     if bool_decide (n = 5) then [obj 3; obj 0] else if bool_decide (n = 7) then [obj 6; obj 0] else [obj 0]).

Definition demo_path (path : string) : result pin_error pinned :=
  if (path =? "/work")%string then Ok (demo_pin path 1) else if (path =? "/opt")%string then Ok (demo_pin path 2)
  else if (path =? "/usr")%string then Ok (demo_pin path 6) else Err NotFound.

Definition demo_specs : list pathSpec :=
  [mkPathSpec "/usr" "rx" true false ""; mkPathSpec "/bin" "rx" false true ""; mkPathSpec "/etc/ssl" "ro" false false ""].

Definition demo_request : Request := mkRequest KindLandlock ["/opt"] [] false [] 0 "" ["GOPATH"].

Definition demo_launch : launch :=
  mkLaunch (demo_pin "/work" 1) (demo_pin "/usr/bin/claude" 7) [] (demo_pin "/state" 3) [demo_pin "/state/me" 4] None.

Definition demo_grants : list grantEntry * list string :=
  match collectGrants demo_path (String.eqb "/bin") demo_specs demo_request demo_launch with Ok r => r | Err _ => ([], []) end.

Lemma demo_collected : collectGrants demo_path (String.eqb "/bin") demo_specs demo_request demo_launch
  = Ok (demo_grants.1, demo_grants.2).
Proof. vm_compute. reflexivity. Qed.

Lemma demo_manifest : manifest_ok demo_specs.
Proof. intros spec Hs. unfold demo_specs in Hs. set_solver. Qed.

Lemma grants_confine_witness : length demo_grants.1 = 5%nat /\
  Forall (fun g => classAccess g.(g_class) = Some g.(g_access) /\
    Landlock.has (rights g) (Landlock.ors [Landlock.AccessFSResolveUnix; Landlock.AccessFSMakeChar; Landlock.AccessFSMakeBlock]) = false /\
    (Landlock.has (rights g) Landlock.AccessFSIoctlDev = true -> g.(g_class) = "dev" /\ g.(g_source) = SourceDevice)) demo_grants.1.
Proof.
  split; [vm_compute; reflexivity|].
  refine (grants_confine demo_path (String.eqb "/bin") demo_specs demo_request demo_launch _ _ demo_manifest demo_collected).
Defined.

Lemma read_only_holds_witness :
  Landlock.has (rights (entry "ro" SourceCaller (demo_pin "/opt" 2))) Landlock.WriteRights = false.
Proof.
  refine (match read_only_holds demo_path (String.eqb "/bin") demo_specs demo_request demo_launch _ _
    (demo_pin "/opt" 2) (entry "ro" SourceCaller (demo_pin "/opt" 2)) demo_manifest demo_collected _ _ _ with
    | or_introl H => _ | or_intror H => H end).
  - exists "/opt". split; [apply list_elem_of_here|reflexivity].
  - vm_compute. set_solver.
  - reflexivity.
  - discriminate H.
Defined.

Lemma demo_above start x : above demo_up start x -> demo_dirs x = true \/ x = start.
Proof.
  intros [[|n] <-]; [by right|left]. change (demo_dirs (demo_up (Nat.iter n demo_up start)) = true).
  generalize (Nat.iter n demo_up start). intros y. unfold demo_up. by repeat case_bool_decide.
Qed.

Lemma demo_well_pinned path n : n ∈ [1; 3; 4] -> well_pinned demo_up demo_dirs (demo_pin path n).
Proof.
  intros Hn. split; [done|]. exists (demo_up (obj n)). split; [|split; [|done]].
  - repeat (apply elem_of_cons in Hn as [->|Hn]; [vm_compute; reflexivity|]). by apply not_elem_of_nil in Hn.
  - intros x [H| ->]%demo_above; [done|]. unfold demo_up. by repeat case_bool_decide.
Qed.


Definition demo_profile : manifest :=
  mkManifest "codex" ["codex"] 1 "0.144.5" true [] (mkStateSpec "CODEX_HOME" "codex" false) ∅ ["CODEX_API_KEY"] [] None.

Definition demo_layout : layout := mkLayout "/state/me/home" "/state/me/tmp" "/state/me/codex".

Definition demo_env : list string :=
  ["PATH=/bin"; "HOME=/home/u"; "AWS_SECRET=x"; "LC_ALL=C"; "PATH=/usr/bin"; "GOPATH=/go"; "CODEX_API_KEY=k"].

Lemma childEnv_spec_witness :
  lookupEnv (childEnv demo_profile demo_request demo_env demo_layout "/work").1 "AWS_SECRET" = None /\
  lookupEnv (childEnv demo_profile demo_request demo_env demo_layout "/work").1 "PATH" = Some "/usr/bin" /\
  lookupEnv (childEnv demo_profile demo_request demo_env demo_layout "/work").1 "HOME" = Some "/state/me/home".
Proof.
  refine ((fun H => _) (childEnv_spec demo_profile demo_request demo_env demo_layout "/work" _ _ eq_refl _)).
  - destruct H as (_ & _ & H & _). split; [|split].
    + rewrite H by (apply no_eq_dec; reflexivity). vm_compute. reflexivity.
    + rewrite H by (apply no_eq_dec; reflexivity). vm_compute. reflexivity.
    + rewrite H by (apply no_eq_dec; reflexivity). vm_compute. reflexivity.
  - split; [|intros n v Hv; cbn in Hv; by rewrite lookup_empty in Hv].
    repeat constructor; apply no_eq_dec; reflexivity.
Defined.

Lemma resume_accepts_iff_witness :
  checkTargets (Targets (map (applied_grant Landlock.HandledFS) demo_grants.1) (applied_state demo_request "abcdefghijkl" demo_layout "CODEX_HOME" None))
    [demo_pin "/work" 1; demo_pin "/opt" 2] = Ok tt.
Proof.
  refine (proj2 (resume_accepts_iff Landlock.HandledFS demo_grants.1 demo_request "abcdefghijkl" demo_layout "CODEX_HOME" None
    [demo_pin "/work" 1; demo_pin "/opt" 2] _ _ _) _).
  - vm_compute. set_solver.
  - reflexivity.
  - intros p q Hp Hq. vm_compute in Hp, Hq. set_solver.
  - intros p q Hp Hq. vm_compute in Hp. set_solver.
Defined.

Definition demo_session (root : string) : Applied :=
  mkApplied 1 "landlock" 9 9 "codex@0.144.5" 1 ["execute"]
    [mkGrant "/work" "rw" ["execute"] SourceWorkingDir ""; mkGrant (root ++ "/home") "rw" ["execute"] SourceState "";
     mkGrant (root ++ "/pts") "dev" ["execute"] SourceTerminal ""]
    (mkTCP "unrestricted" [] "unrestricted") "denied" None ["signal"]
    (mkState "private" root (root ++ "/home") (root ++ "/tmp") (root ++ "/codex") "CODEX_HOME" "" "") "cgroup" ["HOME"] [].

Lemma same_policy_same_fingerprint_witness :
  Fingerprint (fun s => s) (Some (demo_session "/s/a")) = Fingerprint (fun s => s) (Some (demo_session "/s/b")).
Proof.
  refine (same_policy_same_fingerprint (fun s => s) (demo_session "/s/a") (demo_session "/s/b") _ _ _).
  - repeat split; discriminate.
  - repeat split; discriminate.
  - repeat split. constructor; [|constructor; [|constructor; [|constructor]]]; (split; [reflexivity|split; [reflexivity|split; [reflexivity|]]]).
    + right. apply same_path; intros old new Hin; cbn in Hin; set_solver.
    + right. apply (same_home (demo_session "/s/a").(StateOf) (demo_session "/s/b").(StateOf)).
    + left. reflexivity.
Defined.
