(* ===== verification/Verdict.v ===== *)
(** How a conversation's turn comes to its outcome, given what the harness's
    screen and its own transcript show (src/internal/chatcore/apierror.go,
    relabel.go, swallowed.go, the texts of interrupt.go, history.go, and the
    screen anchors of ready.go).

    What the code reads — the rendered screen, the transcript, the clock — is
    an argument. The regular expressions of the screen anchors and of the usage
    wall, and each adapter's extractor, are parameters; so is the reset time a
    wall names, whose reading is in ResetTime. A read of the transcript that
    fails for a missing file is [NotExist]. *)
From Stdlib Require Import ZArith Ascii String Lia.
From stdpp Require Import base tactics list strings option gmap.
From S2P Require Import Prelude GoStr Bytes HarnessName.

#[local] Open Scope string_scope.
#[local] Open Scope go_scope.
#[local] Open Scope Z_scope.

(** ** Turns (src/internal/chatcore/chat.go, src/pkg/transcript) *)

Definition RoleUser : string := "user".
Definition RoleAssistant : string := "assistant".
Definition RoleSystem : string := "system".

Definition TurnStatePending : string := "pending".
Definition TurnStateStreaming : string := "streaming".
Definition TurnStateComplete : string := "complete".
Definition TurnStateErrored : string := "errored".
Definition TurnStateInterrupted : string := "interrupted".

Definition ReasonAuthRequired : string :=
  "auth_required: harness login expired or re-authentication required — renew the harness login".
Definition ReasonUsageLimited : string :=
  "usage_limit: harness usage or session limit reached — retry after the quota window resets".
Definition ReasonBillingWall : string :=
  "billing_wall: harness billing or credit wall reached — the account cannot run turns until billing is resolved".

Definition CodeAuthRequired : string := "auth_required".
Definition CodeUsageLimited : string := "usage_limited".
Definition CodeBillingWall : string := "billing_wall".

Record Turn := mkTurn {
  ID : string; SessionID : string; Role : string; State : string; Text : string; Reason : string;
  StartedAt : Z; CompletedAt : Z; Code : string; HTTPCode : Z; RetryAfter : Z; ResumeAt : option Z }.

Definition set_State (x : string) (t : Turn) : Turn :=
  mkTurn t.(ID) t.(SessionID) t.(Role) x t.(Text) t.(Reason) t.(StartedAt) t.(CompletedAt) t.(Code) t.(HTTPCode) t.(RetryAfter) t.(ResumeAt).
Definition set_Text (x : string) (t : Turn) : Turn :=
  mkTurn t.(ID) t.(SessionID) t.(Role) t.(State) x t.(Reason) t.(StartedAt) t.(CompletedAt) t.(Code) t.(HTTPCode) t.(RetryAfter) t.(ResumeAt).
Definition set_Reason (x : string) (t : Turn) : Turn :=
  mkTurn t.(ID) t.(SessionID) t.(Role) t.(State) t.(Text) x t.(StartedAt) t.(CompletedAt) t.(Code) t.(HTTPCode) t.(RetryAfter) t.(ResumeAt).
Definition set_CompletedAt (x : Z) (t : Turn) : Turn :=
  mkTurn t.(ID) t.(SessionID) t.(Role) t.(State) t.(Text) t.(Reason) t.(StartedAt) x t.(Code) t.(HTTPCode) t.(RetryAfter) t.(ResumeAt).
Definition set_Code (x : string) (t : Turn) : Turn :=
  mkTurn t.(ID) t.(SessionID) t.(Role) t.(State) t.(Text) t.(Reason) t.(StartedAt) t.(CompletedAt) x t.(HTTPCode) t.(RetryAfter) t.(ResumeAt).
Definition set_retry (http retry : Z) (t : Turn) : Turn :=
  mkTurn t.(ID) t.(SessionID) t.(Role) t.(State) t.(Text) t.(Reason) t.(StartedAt) t.(CompletedAt) t.(Code) http retry t.(ResumeAt).
Definition set_ResumeAt (x : option Z) (t : Turn) : Turn :=
  mkTurn t.(ID) t.(SessionID) t.(Role) t.(State) t.(Text) t.(Reason) t.(StartedAt) t.(CompletedAt) t.(Code) t.(HTTPCode) t.(RetryAfter) x.

(** A turn of the harness's own transcript. *)
Record entry := mkEntry { e_Role : string; e_Text : string; e_Timestamp : Z; APIError : string }.

Inductive readErr := NotExist | ReadFailed (msg : string).
Definition readErr_string (e : readErr) : string :=
  match e with NotExist => "file does not exist" | ReadFailed msg => msg end.
Definition transcript : Type := result readErr (list entry).

(** ** The reset time a wall names (src/internal/resettime) *)

Module ResetTime.
Section ResetTime.
(** The groups of resetTimeRE, the zone database, and the calendar of a
    location: [Date loc t n h m] is h:m of the n-th day after that of [t]. *)
Context {loc : Type} (resetTimeRE : string -> option (string * string * string * string))
  (LoadLocation : string -> option loc) (Date : loc -> Z -> Z -> Z -> Z -> Z).

Definition applyMeridiem (hour : Z) (ampm minuteGroup : string) : option Z :=
  if ampm =s? "am" then
    if (hour <? 1) || (12 <? hour) then None else Some (if hour =? 12 then 0 else hour)
  else if ampm =s? "pm" then
    if (hour <? 1) || (12 <? hour) then None else Some (if hour =? 12 then hour else hour + 12)
  else if minuteGroup =s? "" then None
  else if 23 <? hour then None else Some hour.

Definition parseResetClock (m : string * string * string * string) : option (Z * Z) :=
  let '(m1, m2, m3, _) := m in
  hour ← Atoi m1;
  if (hour <? 0) || (23 <? hour) then None else
  minute ← (if m2 =s? "" then Some 0
            else minute ← Atoi m2; if (minute <? 0) || (59 <? minute) then None else Some minute);
  hour ← applyMeridiem hour (ToLower m3) m2;
  Some (hour, minute).

Definition resetLocation (tzGroup : string) (fallback : loc) : loc :=
  let tz := TrimSpace tzGroup in
  if tz =s? "" then fallback else default fallback (LoadLocation tz).

Definition Parse (text : string) (now : Z) (local : loc) : option Z :=
  m ← resetTimeRE text;
  '(hour, minute) ← parseResetClock m;
  let l := resetLocation m.2 local in
  let resume := Date l now 0 hour minute in
  Some (if now <? resume then resume else Date l now 1 hour minute).
End ResetTime.
End ResetTime.

Section Verdict.
Context (resumeAtFrom : string -> option Z).

(** ** The harness's tags (apierror.go) *)

(** watermarkUnknown is [None]. *)
Definition watermark : Type := option nat.

Record apiErrorVerdict := mkVerdict { v_reason : string; v_code : string; v_tag : string; v_text : string }.

Definition wall (reason code : string) : apiErrorVerdict := mkVerdict reason code "" "".

Definition apiErrorClasses : gmap string apiErrorVerdict := list_to_map [
  ("billing_error", wall ReasonBillingWall CodeBillingWall);
  ("account_on_hold", wall ReasonBillingWall CodeBillingWall);
  ("authentication_failed", wall ReasonAuthRequired CodeAuthRequired);
  ("oauth_org_not_allowed", wall ReasonAuthRequired CodeAuthRequired);
  ("verification_required", wall ReasonAuthRequired CodeAuthRequired);
  ("cloud_credential_error", wall ReasonAuthRequired CodeAuthRequired);
  ("rate_limit", wall ReasonUsageLimited CodeUsageLimited);
  ("server_error", wall "" ""); ("overloaded", wall "" ""); ("model_not_found", wall "" "")].

(** [reader]: whether the adapter reads transcripts. *)
Definition captureTranscriptWatermark (reader : bool) (sessionID : string) (read : transcript) : watermark :=
  if negb reader then None
  else if sessionID =s? "" then Some 0%nat
  else match read with
       | Ok tturns => Some (length tturns)
       | Err NotExist => Some 0%nat
       | Err _ => None
       end.

Record transcriptWord := mkWord { verdict : apiErrorVerdict; tagged : bool; replied : bool }.
Definition no_word : transcriptWord := mkWord (wall "" "") false false.

(** [for i := len(tturns) - 1; i >= watermark; i--], over the entries the loop
    visits, last first. *)
Fixpoint last_word (l : list entry) : transcriptWord :=
  match l with
  | [] => no_word
  | t :: l =>
    if negb (t.(e_Role) =s? RoleAssistant) then last_word l
    else if t.(APIError) =s? "" then mkWord (wall "" "") false true
    else match apiErrorClasses !! t.(APIError) with
         | None => no_word
         | Some v => mkWord (mkVerdict v.(v_reason) v.(v_code) t.(APIError) t.(e_Text)) true false
         end
  end.

Definition since (tturns : list entry) (w : nat) : list entry := rev (drop w tturns).

Definition apiErrorVerdictFrom (tturns : list entry) (w : watermark) : transcriptWord :=
  match w with None => no_word | Some w => last_word (since tturns w) end.

(** strings.NewReplacer of the line breaks and the tab. *)
Definition flat_byte (c : ascii) : ascii :=
  if (code c =? 10) || (code c =? 13) || (code c =? 9) then " "%char else c.
Fixpoint flatten (s : string) : string :=
  match s with EmptyString => EmptyString | String c s => String (flat_byte c) (flatten s) end.

(** [for cut > 0 && !utf8.RuneStart(s[cut]) { cut-- }]. *)
Fixpoint rune_cut (s : string) (cut : nat) : nat :=
  match cut with
  | O => O
  | S n => match String.get cut s with
           | Some c => if RuneStart (code c) then cut else rune_cut s n
           | None => cut
           end
  end.

Definition oneLineCapped (s : string) (max : nat) : string :=
  let s := TrimSpace (flatten s) in
  if (String.length s <=? max)%nat then s
  else (TrimSpace (String.substring 0 (rune_cut s max) s) ++ "…")%string.

Definition apiErrorDetailCap : nat := 240.

Definition turnReason (harness : string) (v : apiErrorVerdict) : string :=
  let head := if v.(v_reason) =s? "" then (harness ++ ": harness API error")%string else v.(v_reason) in
  let detail := ("harness tag: " ++ v.(v_tag))%string in
  let text := oneLineCapped v.(v_text) apiErrorDetailCap in
  let detail := if text =s? "" then detail else (detail ++ "; " ++ text)%string in
  (head ++ " (" ++ detail ++ ")")%string.

(** A relabel answers the turn it made, or [None] when it declines. *)
Definition apply (w : transcriptWord) (harness : string) (turn : Turn) : option Turn :=
  if negb w.(tagged) then None
  else
    let turn := set_Code w.(verdict).(v_code) (set_Reason (turnReason harness w.(verdict)) (set_State TurnStateErrored turn)) in
    let turn := if w.(verdict).(v_code) =s? CodeUsageLimited
                then set_ResumeAt (resumeAtFrom w.(verdict).(v_text)) turn else turn in
    Some (set_Text "" turn).

(** What a reading of the transcript has to go on: the adapter's capability,
    the session id, the watermark, the read, the read after the pause, and
    whether the conversation closed during it. *)
Record evidence := mkEvidence {
  reader : bool; sessionID : string; sent : watermark; read1 : transcript; closing : bool; read2 : transcript }.

Definition lastWordOfCurrentTurn (e : evidence) : transcriptWord :=
  if negb e.(reader) then no_word
  else if (e.(sessionID) =s? "") || is_none e.(sent) then no_word
  else match e.(read1) with
       | Ok tturns => apiErrorVerdictFrom tturns e.(sent)
       | Err _ =>
         if e.(closing) then no_word
         else match e.(read2) with Ok tturns => apiErrorVerdictFrom tturns e.(sent) | Err _ => no_word end
       end.

Definition apiErrorRelabel (harness : string) (e : evidence) (turn : Turn) : option Turn :=
  apply (lastWordOfCurrentTurn e) harness turn.

(** ** The screen's anchors (ready.go) *)

(** An anchor is its id; [anchored] is its regular expression's match. *)
Context (anchored : string -> string -> bool) (claudeUsageLimitRE : string -> option string).

Definition claudeOnboardingAnchors : list string :=
  ["claude.onboarding.theme_picker"; "claude.onboarding.select_login_method";
   "claude.onboarding.oauth_browser_open"; "claude.onboarding.oauth_paste_code"].
Definition codexOnboardingAnchors : list string :=
  ["codex.onboarding.sign_in_with_chatgpt"; "codex.onboarding.browser_signin"].
Definition claudeLoggedOutAnchors : list string :=
  ["claude.loggedout.run_login"; "claude.loggedout.not_logged_in"; "claude.loggedout.invalid_api_key"].
Definition codexLoggedOutAnchors : list string :=
  ["codex.loggedout.401_unauthorized"; "codex.loggedout.missing_bearer"; "codex.loggedout.not_logged_in";
   "codex.loggedout.codex_login"].

Definition AuthAnchors (harness : string) : list string :=
  if harness =s? ClaudeCode then claudeOnboardingAnchors ++ claudeLoggedOutAnchors
  else if harness =s? Codex then codexOnboardingAnchors ++ codexLoggedOutAnchors
  else if harness =s? "" then
    claudeOnboardingAnchors ++ codexOnboardingAnchors ++ claudeLoggedOutAnchors ++ codexLoggedOutAnchors
  else [].

Definition anyAnchor (anchors : list string) (text : string) : bool := any (fun a => anchored a text) anchors.

Definition onboardingWall (harness text : string) : bool :=
  if harness =s? ClaudeCode then anyAnchor claudeOnboardingAnchors text
  else if harness =s? Codex then anyAnchor codexOnboardingAnchors text
  else false.

Definition authRequired (harness text : string) : bool :=
  if harness =s? ClaudeCode then anyAnchor claudeOnboardingAnchors text || anyAnchor claudeLoggedOutAnchors text
  else if harness =s? Codex then anyAnchor codexOnboardingAnchors text || anyAnchor codexLoggedOutAnchors text
  else false.

Definition usageLimitMessage (harness text : string) : option string :=
  if harness =s? ClaudeCode then TrimSpace <$> claudeUsageLimitRE text else None.

(** [ready]: the adapter's ReadyForInput, when it has one. *)
Definition readyOn (ready : option (string -> bool)) (harness text : string) : bool :=
  match ready with
  | None => true
  | Some rd => if onboardingWall harness text then false else rd text
  end.

(** ** Relabels (relabel.go) *)

(** The adapter's message extractor, when it has one, over the screen. *)
Context (extract : option (string -> option string)).

Definition assistantText (snap : string) : string :=
  match extract ≫= fun ex => ex snap with Some msg => msg | None => snap end.

Definition cleanAssistantText (snap : string) : string :=
  match extract ≫= fun ex => ex snap with Some msg => TrimSpace msg | None => "" end.

Definition errored (reason code : string) (turn : Turn) : Turn :=
  set_Text "" (set_Code code (set_Reason reason (set_State TurnStateErrored turn))).

Definition authRelabel (harness snap : string) (turn : Turn) : option Turn :=
  if negb (cleanAssistantText snap =s? "") then None
  else if negb (authRequired harness snap) then None
  else Some (errored ReasonAuthRequired CodeAuthRequired turn).

Definition usageLimitRelabel (harness snap : string) (turn : Turn) : option Turn :=
  let probe := cleanAssistantText snap in
  let probe := if TrimSpace probe =s? "" then snap else probe in
  match usageLimitMessage harness probe with
  | None => None
  | Some msg =>
    Some (set_ResumeAt (resumeAtFrom msg) (errored (ReasonUsageLimited ++ " (" ++ msg ++ ")") CodeUsageLimited turn))
  end.

Definition heldRelabel (heldReason : string) (w : transcriptWord) (turn : Turn) : option Turn :=
  if (heldReason =s? "") || w.(replied) then None
  else Some (set_Text "" (set_Reason heldReason (set_State TurnStateErrored turn))).

Definition or_else (a b : option Turn) : option Turn := match a with Some t => Some t | None => b end.

Definition relabelTerminal (harness snap heldReason : string) (e : evidence) (turn : Turn) : Turn :=
  let w := lastWordOfCurrentTurn e in
  default turn
    (or_else (apply w harness turn)
    (or_else (usageLimitRelabel harness snap turn)
    (or_else (authRelabel harness snap turn) (heldRelabel heldReason w turn)))).

(** ** How each ending event ends a turn (conversation.go, handleTurnsEvent) *)

Record endEvent := mkEnd { At : Z; ev_Reason : string; ev_HTTPCode : Z; ev_RetryAfter : Z; Snap : option string }.

Definition endComplete (harness heldReason : string) (e : evidence) (ev : endEvent) (turn : Turn) : Turn :=
  let turn := set_Reason ev.(ev_Reason) (set_CompletedAt ev.(At) (set_State TurnStateComplete turn)) in
  match ev.(Snap) with
  | Some snap => relabelTerminal harness snap heldReason e (set_Text (assistantText snap) turn)
  | None => turn
  end.

Definition endBlocked (harness : string) (e : evidence) (ev : endEvent) (turn : Turn) : Turn :=
  let turn := set_Reason ev.(ev_Reason) (set_CompletedAt ev.(At)
    (set_State TurnStateErrored (set_retry ev.(ev_HTTPCode) ev.(ev_RetryAfter) turn))) in
  default turn (apiErrorRelabel harness e turn).

(** [screen]: the live screen, for an event that carries none. *)
Definition endErrored (harness screen : string) (e : evidence) (ev : endEvent) (turn : Turn) : Turn :=
  let turn := set_Reason ev.(ev_Reason) (set_CompletedAt ev.(At) (set_State TurnStateErrored turn)) in
  let screenText := default screen ev.(Snap) in
  let turn := match apiErrorRelabel harness e turn with
              | Some turn => turn
              | None => if authRequired harness screenText
                        then set_Code CodeAuthRequired (set_Reason ReasonAuthRequired turn) else turn
              end in
  if negb (ev.(ev_HTTPCode) =? 0) || negb (ev.(ev_RetryAfter) =? 0)
  then set_retry ev.(ev_HTTPCode) ev.(ev_RetryAfter) turn else turn.

(** ** A prompt the harness never took (swallowed.go) *)

Definition transcriptOffMarker : string := "Transcript saving is off".

Definition DiagTranscriptUnavailable : string :=
  "harness session persistence is off (a nested CLAUDE_CODE_CHILD_SESSION marker disables it) — no rollout can exist to overturn the screen verdict; see pkg/harnessenv".

Definition transcriptSavingOff (screenText : string) : bool := Contains screenText transcriptOffMarker.

Record swallowedPromptVerdict := mkSwallowed { proofText : string; diag : string }.

(** The last reply with text, error entries skipped. *)
Fixpoint last_reply (l : list entry) : option string :=
  match l with
  | [] => None
  | t :: l =>
    if negb (t.(e_Role) =s? RoleAssistant) then last_reply l
    else if negb (t.(APIError) =s? "") then last_reply l
    else let text := TrimSpace t.(e_Text) in if text =s? "" then last_reply l else Some text
  end.

(** With whether a second read may help. *)
Definition tryTranscriptProof (w : watermark) (read : transcript) : swallowedPromptVerdict * bool :=
  match w with
  | None => (mkSwallowed "" "transcript extent at send unknown; cannot tell this turn's output from earlier turns'", false)
  | Some w =>
    match read with
    | Err e => (mkSwallowed "" ("transcript check failed: " ++ readErr_string e), true)
    | Ok tturns =>
      let w := Nat.min w (length tturns) in
      match last_reply (since tturns w) with
      | Some text => (mkSwallowed text "", false)
      | None => (mkSwallowed "" ("transcript has no assistant output since the prompt was sent (" ++
                   Itoa (Z.of_nat (length tturns)) ++ " turn(s), " ++ Itoa (Z.of_nat w) ++ " before it)"), false)
      end
    end
  end.

Definition searchTranscriptProof (e : evidence) : swallowedPromptVerdict :=
  if negb e.(reader) then mkSwallowed "" "adapter cannot read the harness transcript"
  else if e.(sessionID) =s? "" then mkSwallowed "" "harness session id not known yet"
  else
    let '(v, retryable) := tryTranscriptProof e.(sent) e.(read1) in
    if negb retryable then v
    else if e.(closing) then mkSwallowed "" "conversation closed before the transcript settled"
    else (tryTranscriptProof e.(sent) e.(read2)).1.

Definition transcriptProofOfCurrentTurn (snap : string) (e : evidence) : swallowedPromptVerdict :=
  let v := searchTranscriptProof e in
  if (v.(proofText) =s? "") && transcriptSavingOff snap then mkSwallowed v.(proofText) DiagTranscriptUnavailable else v.

(** [e] is the evidence the proof is sought in, [e'] what the relabel reads
    after it. *)
Definition applySwallowedPromptVerdict (harness snap : string) (now : Z) (e e' : evidence) (turn : Turn) : Turn :=
  let v := transcriptProofOfCurrentTurn snap e in
  let turn := set_CompletedAt now turn in
  if negb (v.(proofText) =s? "") then
    set_Text v.(proofText) (set_Reason
      (harness ++ ": transcript-confirmed completion (screen looked swallowed; rollout shows assistant output)")
      (set_State TurnStateComplete turn))
  else
    let turn := set_State TurnStateErrored turn in
    match apiErrorRelabel harness e' turn with
    | Some turn => turn
    | None =>
      if authRequired harness snap then set_Code CodeAuthRequired (set_Reason ReasonAuthRequired turn)
      else
        let reason := (harness ++ ": prompt not accepted / no assistant output")%string in
        set_Reason (if v.(diag) =s? "" then reason else reason ++ "; " ++ v.(diag))%string turn
    end.

(** ** The idle fallback (conversation.go, maybeIdleComplete) *)

(** From the claim on: [swallowed] is the adapter's PromptNotAccepted. *)
Definition endIdle (harness snap heldReason : string) (now : Z) (marker swallowed : bool) (e e' : evidence)
    (turn : Turn) : Turn :=
  if negb marker && (heldReason =s? "") && swallowed then applySwallowedPromptVerdict harness snap now e e' turn
  else
    let turn := set_CompletedAt now (set_State TurnStateComplete turn) in
    let turn := set_Reason (if marker then harness ++ ": end-of-turn marker confirmed at a settled prompt"
                            else harness ++ ": idle-completion fallback (end-of-turn marker not observed)")%string turn in
    relabelTerminal harness snap heldReason e (set_Text (assistantText snap) turn).

(** ** An interrupted turn (interrupt.go) *)

Inductive InterruptResult := InterruptStopped | InterruptCancelled | InterruptNoTurn | InterruptTooLate.
#[export] Instance InterruptResult_eq_dec : EqDecision InterruptResult.
Proof. solve_decision. Defined.

Definition interruptReason (harness : string) (result : InterruptResult) (byCall : bool) : string :=
  let reason := if bool_decide (result = InterruptCancelled)
                then (harness ++ ": interrupted: the harness cancelled the turn before it replied")%string
                else (harness ++ ": interrupted: the harness stopped the turn")%string in
  if byCall then reason else (reason ++ " (at the terminal)")%string.

(** [for i := len(tturns) - 2; i > watermark; i--]. *)
Fixpoint last_recorded (l : list entry) : string :=
  match l with
  | [] => ""
  | t :: l => if (t.(e_Role) =s? RoleAssistant) && (t.(APIError) =s? "") then TrimSpace t.(e_Text) else last_recorded l
  end.

Definition interruptedTranscriptText (reader : bool) (sessionID : string) (w : watermark) (read : transcript)
    : option string :=
  if negb reader then None
  else match w, read with
  | Some w, Ok tturns =>
    if (sessionID =s? "") || (length tturns <? w + 2)%nat
       || negb (default "" (e_Role <$> last tturns) =s? RoleUser) then None
    else Some (last_recorded (tail (since tturns (S w))))
  | _, _ => None
  end.

Definition interruptedText (e : evidence) (partial : string) : string :=
  match interruptedTranscriptText e.(reader) e.(sessionID) e.(sent) e.(read1) with
  | Some text => text
  | None =>
    if e.(closing) then partial
    else default partial (interruptedTranscriptText e.(reader) e.(sessionID) e.(sent) e.(read2))
  end.

Definition endInterrupted (harness : string) (now : Z) (result : InterruptResult) (byCall : bool) (partial : string)
    (e : evidence) (turn : Turn) : Turn :=
  let turn := set_Reason (interruptReason harness result byCall) (set_CompletedAt now (set_State TurnStateInterrupted turn)) in
  set_Text (if bool_decide (result = InterruptStopped) then interruptedText e partial else "") turn.

(** ** Every way a claimed turn ends *)

Inductive how :=
| ByComplete (ev : endEvent)
| ByBlocked (ev : endEvent)
| ByErrored (screen : string) (ev : endEvent)
| ByIdle (snap : string) (now : Z) (marker swallowed : bool)
| ByInterrupt (now : Z) (result : InterruptResult) (byCall : bool) (partial : string)
| ByExit (now : Z) (status : string)
| BySubmit (now : Z) (err : string).

(** [e] and [e'] are what the transcript shows at the two places an ending may
    read it; [heldReason] is the conversation's when the ending reads it. *)
Definition end_turn (harness heldReason : string) (k : how) (e e' : evidence) (turn : Turn) : Turn :=
  match k with
  | ByComplete ev => endComplete harness heldReason e ev turn
  | ByBlocked ev => endBlocked harness e ev turn
  | ByErrored screen ev => endErrored harness screen e ev turn
  | ByIdle snap now marker swallowed => endIdle harness snap heldReason now marker swallowed e e' turn
  | ByInterrupt now result byCall partial => endInterrupted harness now result byCall partial e turn
  | ByExit now status =>
    set_Reason (harness ++ ": harness exited (" ++ status ++ ")") (set_CompletedAt now (set_State TurnStateErrored turn))
  | BySubmit now err => set_CompletedAt now (set_Reason ("submit: " ++ err) (set_State TurnStateErrored turn))
  end.
End Verdict.

(** ** History (history.go) *)

Inductive HistorySource := HistorySourceTranscript | HistorySourceStore.

Definition history_turn (chatID : string) (tt : entry) : Turn :=
  mkTurn "" chatID tt.(e_Role) TurnStateComplete tt.(e_Text) "" tt.(e_Timestamp) tt.(e_Timestamp) "" 0 0 None.

(** [stored]: what the Store lists for the session. *)
Definition HistoryWithSource (reader : bool) (chatID harnessID : string) (read : transcript) (stored : result string (list Turn))
    : HistorySource * result string (list Turn) :=
  if negb reader || (harnessID =s? "") then (HistorySourceStore, stored)
  else match read with
       | Err NotExist => (HistorySourceStore, stored)
       | Err (ReadFailed msg) => (HistorySourceTranscript, Err ("chat: read transcript: " ++ msg))
       | Ok tturns => (HistorySourceTranscript, Ok (map (history_turn chatID) tturns))
       end.
