(* ===== verification/VerdictProps.v ===== *)
(** What a turn's outcome may rest on: only what was recorded after its prompt,
    the harness's last word before the screen, and a reply that can be shown. *)
From Stdlib Require Import ZArith Ascii String Lia.
From stdpp Require Import base tactics list strings option gmap.
From S2P Require Import Prelude GoStr Bytes HarnessName Verdict.

#[local] Open Scope string_scope.
#[local] Open Scope go_scope.
#[local] Open Scope Z_scope.

(** ** Entries before the prompt *)

(** Two reads of the transcript that differ only before a watermark. *)
Definition same_since (w : nat) (a b : transcript) : Prop :=
  match a, b with
  | Ok a, Ok b => length a = length b /\ drop w a = drop w b
  | Err a, Err b => a = b
  | _, _ => False
  end.

(** Evidence that differs only in what cannot belong to the turn. *)
Definition alike (e e' : evidence) : Prop :=
  e.(reader) = e'.(reader) /\ e.(sessionID) = e'.(sessionID) /\ e.(sent) = e'.(sent) /\ e.(closing) = e'.(closing) /\
  match e.(sent) with
  | Some w => same_since w e.(read1) e'.(read1) /\ same_since w e.(read2) e'.(read2)
  | None => True
  end.

#[local] Lemma same_since_refl w a : same_since w a a.
Proof. by destruct a. Qed.

#[local] Lemma same_since_sym w a b : same_since w a b -> same_since w b a.
Proof. destruct a, b; cbn; naive_solver. Qed.

#[local] Lemma same_since_trans w a b c : same_since w a b -> same_since w b c -> same_since w a c.
Proof. destruct a, b, c; cbn; intuition congruence. Qed.

#[export] Instance alike_equiv : Equivalence alike.
Proof.
  split.
  - intros e. unfold alike. split_and!; try done. destruct (sent e); auto using same_since_refl.
  - intros e e' (? & ? & E & ? & H). unfold alike. rewrite <- E. split_and!; try done.
    destruct (sent e); [|done]. destruct H. auto using same_since_sym.
  - intros e1 e2 e3 (A1 & B1 & C1 & D1 & T1) (A2 & B2 & C2 & D2 & T2). unfold alike. split_and!; try congruence.
    rewrite <- C1 in T2. destruct (sent e1); [|done]. destruct T1, T2. eauto using same_since_trans.
Qed.

Lemma same_since_later w w' a b : (w <= w')%nat -> same_since w a b -> same_since w' a b.
Proof.
  intros Hw. destruct a as [a|], b as [b|]; cbn; [|done..]. intros [Hl H]. split; [done|].
  replace w' with (w + (w' - w))%nat by lia. by rewrite <- !drop_drop, H.
Qed.

#[export] Instance word_proper : Proper (alike ==> eq) lastWordOfCurrentTurn.
Proof.
  intros e e' (Hr & Hs & Hw & Hc & H). unfold lastWordOfCurrentTurn. rewrite <- Hr, <- Hs, <- Hw, <- Hc.
  destruct (sent e) as [w|]; [|by rewrite orb_true_r]. destruct H as [H1 H2].
  destruct (read1 e), (read1 e'), (read2 e), (read2 e'); cbn in *; try done;
    unfold since; try (by destruct H1 as [_ ->]); try (by destruct H2 as [_ ->]).
Qed.

#[export] Instance proof_proper : Proper (alike ==> eq) searchTranscriptProof.
Proof.
  intros e e' (Hr & Hs & Hw & Hc & H). unfold searchTranscriptProof. rewrite <- Hr, <- Hs, <- Hw, <- Hc.
  destruct (reader e); [|done]. destruct (sessionID e =s? ""); [done|].
  destruct (sent e) as [w|]; [|done]. destruct H as [H1 H2].
  assert (Htry : forall a b, same_since w a b -> tryTranscriptProof (Some w) a = tryTranscriptProof (Some w) b).
  { intros [a|] [b|] Hab; try done; [|by rewrite Hab]. destruct Hab as [Hl Hd]. unfold tryTranscriptProof. rewrite <- Hl.
    assert (E : since a (w `min` length a) = since b (w `min` length a)); [|by rewrite E].
    unfold since. f_equal. destruct (decide (w <= length a)%nat).
    - by rewrite Nat.min_l by done.
    - rewrite Nat.min_r by lia. rewrite drop_all. by rewrite Hl, drop_all. }
  by rewrite (Htry _ _ H1), (Htry _ _ H2).
Qed.

Lemma recorded_proper w a b rd id : same_since w a b ->
  interruptedTranscriptText rd id (Some w) a = interruptedTranscriptText rd id (Some w) b.
Proof.
  destruct a as [a|], b as [b|]; intros Hab; try done. destruct Hab as [Hl Hd].
  unfold interruptedTranscriptText. rewrite <- Hl. destruct (negb rd); [done|].
  destruct (decide (length a < w + 2)%nat) as [Hs|Hs].
  { replace (length a <? w + 2)%nat with true by (symmetry; by apply Nat.ltb_lt). by rewrite orb_true_r. }
  assert (Hlast : forall l : list entry, (w < length l)%nat -> last l = last (drop w l)).
  { intros l Hlt. rewrite <- (take_drop w l) at 1. rewrite last_app.
    destruct (last (drop w l)) eqn:E; [done|]. apply last_None in E.
    apply (f_equal length) in E. rewrite length_drop in E. cbn in E. lia. }
  rewrite (Hlast a), (Hlast b), Hd by lia. unfold since.
  destruct (same_since_later w (S w) (Ok a) (Ok b)) as [_ ->]; [lia|done|done].
Qed.

#[export] Instance text_proper : Proper (alike ==> eq ==> eq) interruptedText.
Proof.
  intros e e' (Hr & Hs & Hw & Hc & H) p ? <-. unfold interruptedText. rewrite <- Hr, <- Hs, <- Hw, <- Hc.
  destruct (sent e) as [w|].
  - destruct H as [H1 H2]. by rewrite (recorded_proper w _ _ _ _ H1), (recorded_proper w _ _ _ _ H2).
  - unfold interruptedTranscriptText. by destruct (reader e), (read1 e), (read1 e'), (read2 e), (read2 e').
Qed.

Section Outcomes.
Context (resumeAtFrom : string -> option Z) (anchored : string -> string -> bool)
  (claudeUsageLimitRE : string -> option string) (extract : option (string -> option string)).

#[local] Notation ends := (end_turn resumeAtFrom anchored claudeUsageLimitRE extract).

(** Only what the transcript recorded after a turn's prompt bears on how the
    turn ends: whatever a resumed session's transcript held before it, every
    ending gives the same outcome. *)
Theorem stale_entries_never_decide harness heldReason k e1 e2 e1' e2' turn :
  alike e1 e2 -> alike e1' e2' ->
  ends harness heldReason k e1 e1' turn = ends harness heldReason k e2 e2' turn.
Proof.
  intros He He'. pose proof (word_proper _ _ He) as Hw. pose proof (word_proper _ _ He') as Hw'.
  pose proof (proof_proper _ _ He) as Hp.
  assert (Ht : forall p, interruptedText e1 p = interruptedText e2 p) by (intros p; by rewrite He).
  destruct k; cbn [end_turn]; try done;
    unfold endComplete, endBlocked, endErrored, endIdle, endInterrupted, relabelTerminal, apiErrorRelabel,
      applySwallowedPromptVerdict, transcriptProofOfCurrentTurn, apiErrorRelabel; by rewrite ?Hw, ?Hw', ?Hp, ?Ht.
Qed.

(** ** Coherent outcomes *)

Definition wall_reason (code : string) : option string :=
  if code =s? CodeAuthRequired then Some ReasonAuthRequired
  else if code =s? CodeUsageLimited then Some ReasonUsageLimited
  else if code =s? CodeBillingWall then Some ReasonBillingWall else None.

(** An outcome: a code only with its wall's reason, on an errored turn, whose
    text is empty; a reset time only with the usage wall. *)
Definition coherent (t : Turn) : Prop :=
  match t.(State) =s? TurnStateErrored with
  | true => t.(Text) = "" /\
    (t.(Code) <> "" -> exists r, wall_reason t.(Code) = Some r /\ HasPrefix t.(Reason) r = true)
  | false => (t.(State) = TurnStateComplete \/ t.(State) = TurnStateInterrupted) /\ t.(Code) = ""
  end /\
  (t.(ResumeAt) <> None -> t.(Code) = CodeUsageLimited).

(** A pending turn, as claimed. *)
Definition unmarked (t : Turn) : Prop := t.(Text) = "" /\ t.(Code) = "" /\ t.(ResumeAt) = None.

Lemma prefix_app s t : HasPrefix (s ++ t)%string s = true.
Proof. apply HasPrefix_spec. by exists t. Qed.

Lemma prefix_refl s : HasPrefix s s = true.
Proof. rewrite <- (append_nil_r s) at 1. apply prefix_app. Qed.

Lemma last_word_class l : tagged (last_word l) = true ->
  exists t v, t ∈ l /\ t.(e_Role) = RoleAssistant /\ apiErrorClasses !! t.(APIError) = Some v /\
    verdict (last_word l) = mkVerdict v.(v_reason) v.(v_code) t.(APIError) t.(e_Text).
Proof.
  induction l as [|t l IH]; [done|]. cbn [last_word].
  destruct (String.eqb_spec (e_Role t) RoleAssistant) as [Hr|Hr]; cbn [negb].
  - destruct (_ =s? ""); [done|]. destruct (apiErrorClasses !! APIError t) as [v|] eqn:E; [|done].
    intros _. exists t, v. split_and!; try done. set_solver.
  - intros (t' & v & Hin & H)%IH. exists t', v. split; [set_solver|done].
Qed.

Lemma classes_coded tag v : apiErrorClasses !! tag = Some v ->
  v.(v_code) <> "" -> wall_reason v.(v_code) = Some v.(v_reason).
Proof.
  intros H. apply elem_of_list_to_map_2 in H. revert H.
  rewrite !elem_of_cons, elem_of_nil. intros H.
  repeat (destruct H as [[= _ ->]|H]; [by cbn|]). done.
Qed.

Lemma word_coded e : tagged (lastWordOfCurrentTurn e) = true ->
  v_code (verdict (lastWordOfCurrentTurn e)) <> "" ->
  exists r, wall_reason (v_code (verdict (lastWordOfCurrentTurn e))) = Some r /\ r <> "" /\
    v_reason (verdict (lastWordOfCurrentTurn e)) = r.
Proof.
  assert (Hl : forall l, tagged (last_word l) = true -> v_code (verdict (last_word l)) <> "" ->
    exists r, wall_reason (v_code (verdict (last_word l))) = Some r /\ r <> "" /\ v_reason (verdict (last_word l)) = r).
  { intros l (t & v & _ & _ & Hv & ->)%last_word_class. cbn. intros Hc. exists (v_reason v).
    pose proof (classes_coded _ _ Hv Hc) as Hw. split_and!; [done| |done]. intros Hr. rewrite Hr in Hw.
    unfold wall_reason in Hw. by repeat (destruct (_ =s? _); [done|]). }
  unfold lastWordOfCurrentTurn, apiErrorVerdictFrom.
  destruct (reader e), (sessionID e =s? ""), (sent e), (read1 e), (closing e), (read2 e); cbn;
    solve [apply Hl | discriminate].
Qed.

Lemma apply_coherent harness w t t' : t.(ResumeAt) = None ->
  (tagged w = true -> v_code (verdict w) <> "" ->
     exists r, wall_reason (v_code (verdict w)) = Some r /\ r <> "" /\ v_reason (verdict w) = r) ->
  apply resumeAtFrom w harness t = Some t' -> coherent t'.
Proof.
  unfold apply. intros Hr Hw. destruct (tagged w); [|done]. intros [= <-]. specialize (Hw eq_refl).
  destruct (String.eqb_spec (v_code (verdict w)) CodeUsageLimited) as [E|E].
  - split; [|done]. cbn. split; [done|]. intros Hc. destruct (Hw Hc) as (r & H1 & H2 & H3). exists r. split; [done|].
    unfold turnReason. rewrite H3, (proj2 (String.eqb_neq r "") H2). apply prefix_app.
  - split; [|cbn; by rewrite Hr]. cbn. split; [done|]. intros Hc. destruct (Hw Hc) as (r & H1 & H2 & H3). exists r.
    split; [done|]. unfold turnReason. rewrite H3, (proj2 (String.eqb_neq r "") H2). apply prefix_app.
Qed.

(** The relabels, of a turn that looks complete. *)
Lemma relabel_coherent harness snap held e t : t.(Code) = "" -> t.(ResumeAt) = None -> t.(State) = TurnStateComplete ->
  coherent (relabelTerminal resumeAtFrom anchored claudeUsageLimitRE extract harness snap held e t).
Proof.
  intros Hc Hr Hs. unfold relabelTerminal.
  destruct (apply _ _ _ _) as [t1|] eqn:E1; cbn [or_else default].
  { eapply apply_coherent; [exact Hr|apply word_coded|exact E1]. }
  destruct (usageLimitRelabel _ _ _ _ _ _) as [t2|] eqn:E2; cbn [or_else default].
  { unfold usageLimitRelabel in E2. destruct (usageLimitMessage _ _ _) as [msg|]; [|done]. injection E2 as <-.
    split; [|done]. cbn. split; [done|]. intros _. exists ReasonUsageLimited. split; [done|]. apply prefix_app. }
  destruct (authRelabel _ _ _ _ _) as [t3|] eqn:E3; cbn [or_else default].
  { unfold authRelabel in E3. destruct (negb _); [done|]. destruct (negb _); [done|]. injection E3 as <-.
    split; [|cbn; by rewrite Hr]. cbn. split; [done|]. intros _. by exists ReasonAuthRequired. }
  destruct (heldRelabel _ _ _) as [t4|] eqn:E4; cbn [default].
  { unfold heldRelabel in E4. destruct (_ || _); [done|]. injection E4 as <-.
    split; cbn; rewrite ?Hr, ?Hc; [|done]. split; [done|]. by intros []. }
  split; rewrite ?Hs, ?Hc, ?Hr; [|done]. cbn. auto.
Qed.

(** A claimed turn, errored with a reason of the moment. *)
Lemma errored_coherent t : t.(State) = TurnStateErrored -> unmarked t -> coherent t.
Proof. intros Hs (Ht & Hc & Hr). unfold coherent. rewrite Hs, Ht, Hc, Hr. by split. Qed.

Lemma auth_coherent (t : Turn) : t.(State) = TurnStateErrored -> t.(Text) = "" -> t.(ResumeAt) = None ->
  coherent (set_Code CodeAuthRequired (set_Reason ReasonAuthRequired t)).
Proof.
  intros Hs Ht Hr. split; cbn; rewrite ?Hr, ?Hs; [|done]. split; [done|]. intros _. by exists ReasonAuthRequired.
Qed.

Lemma api_relabel_coherent harness e t t' : t.(ResumeAt) = None ->
  apiErrorRelabel resumeAtFrom harness e t = Some t' -> coherent t'.
Proof. intros Hr. apply apply_coherent, word_coded. done. Qed.

Lemma ends_coherent harness held k e e' t : unmarked t -> coherent (ends harness held k e e' t).
Proof.
  intros Hu. assert (Hu' := Hu). destruct Hu' as (Ht & Hc & Hr). destruct k; cbn [end_turn].
  - unfold endComplete. destruct (Snap ev); [by apply relabel_coherent|]. split; cbn; rewrite ?Hc, ?Hr; [auto|done].
  - unfold endBlocked. destruct (apiErrorRelabel _ _ _ _) eqn:E; cbn [default].
    + by eapply api_relabel_coherent in E.
    + by apply errored_coherent.
  - unfold endErrored. set (t1 := set_Reason _ _).
    assert (Hco : coherent (match apiErrorRelabel resumeAtFrom harness e t1 with Some t => t | None =>
      if authRequired anchored harness (default screen (Snap ev)) then set_Code CodeAuthRequired (set_Reason ReasonAuthRequired t1) else t1 end)).
    { destruct (apiErrorRelabel _ _ _ _) eqn:E; [by eapply api_relabel_coherent in E|].
      destruct (authRequired _ _ _); [by apply auth_coherent|by apply errored_coherent]. }
    destruct (_ || _); [|exact Hco]. exact Hco.
  - unfold endIdle. destruct (_ && _).
    + unfold applySwallowedPromptVerdict. destruct (negb _).
      * split; cbn; rewrite ?Hc, ?Hr; [auto|done].
      * destruct (apiErrorRelabel _ _ _ _) eqn:E; [by eapply api_relabel_coherent in E|].
        destruct (authRequired _ _ _); [by apply auth_coherent|by apply errored_coherent].
    + by apply relabel_coherent.
  - split; cbn; rewrite ?Hc, ?Hr; [auto|done].
  - by apply errored_coherent.
  - by apply errored_coherent.
Qed.


(** Whether an ending is the harness's interrupt, and which. *)
Definition interrupted_by (k : how) : option InterruptResult :=
  match k with ByInterrupt _ r _ _ => Some r | _ => None end.

Lemma apply_not_interrupted w harness t t' :
  apply resumeAtFrom w harness t = Some t' -> t'.(State) <> TurnStateInterrupted.
Proof. unfold apply. destruct (negb _); [done|]. intros [= <-]. by destruct (_ =s? _). Qed.

Lemma relabel_state harness snap held e t : t.(State) = TurnStateComplete ->
  (relabelTerminal resumeAtFrom anchored claudeUsageLimitRE extract harness snap held e t).(State) <> TurnStateInterrupted.
Proof.
  intros Hs. unfold relabelTerminal.
  destruct (apply _ _ _ _) eqn:E1; cbn [or_else default]; [exact (apply_not_interrupted _ _ _ _ E1)|].
  destruct (usageLimitRelabel _ _ _ _ _ _) eqn:E2; cbn [or_else default].
  { unfold usageLimitRelabel in E2. destruct (usageLimitMessage _ _ _); [|done]. by injection E2 as <-. }
  destruct (authRelabel _ _ _ _ _) eqn:E3; cbn [or_else default].
  { unfold authRelabel in E3. destruct (negb _); [done|]. destruct (negb _); [done|]. by injection E3 as <-. }
  unfold heldRelabel. destruct (_ || _); cbn; by rewrite ?Hs.
Qed.

Lemma ends_state harness held k e e' t :
  (ends harness held k e e' t).(State) = TurnStateInterrupted <-> is_Some (interrupted_by k).
Proof.
  destruct k; cbn [end_turn interrupted_by]; split; try done; try (by intros [? [=]]).
  - unfold endComplete. destruct (Snap ev); [|done]. by intros H%relabel_state.
  - intros H. exfalso. revert H. unfold endBlocked, apiErrorRelabel.
    destruct (apply _ _ _ _) eqn:E; [exact (apply_not_interrupted _ _ _ _ E)|done].
  - intros H. exfalso. revert H. unfold endErrored, apiErrorRelabel.
    destruct (apply _ _ _ _) eqn:E; [apply apply_not_interrupted in E|destruct (authRequired _ _ _)]; by destruct (_ || _).
  - intros H. exfalso. revert H. unfold endIdle. destruct (_ && _); [|by apply relabel_state].
    unfold applySwallowedPromptVerdict, apiErrorRelabel. destruct (negb _); [done|].
    destruct (apply _ _ _ _) eqn:E; [exact (apply_not_interrupted _ _ _ _ E)|by destruct (authRequired _ _ _)].
Qed.

(** ** What the harness recorded *)

(** The last of the assistant's entries after the watermark. *)
Definition last_assistant (tturns : list entry) (w : nat) (t : entry) : Prop :=
  exists pre post, drop w tturns = (pre ++ t :: post)%list /\ t.(e_Role) = RoleAssistant /\
    Forall (fun x => x.(e_Role) <> RoleAssistant) post.

Lemma last_word_None l : last_word l = no_word \/ (exists pre t post, rev l = (pre ++ t :: post)%list /\
  t.(e_Role) = RoleAssistant /\ Forall (fun x => x.(e_Role) <> RoleAssistant) post /\
  (replied (last_word l) = true <-> t.(APIError) = "") /\
  (tagged (last_word l) = true <-> t.(APIError) <> "" /\ is_Some (apiErrorClasses !! t.(APIError)))).
Proof.
  induction l as [|t l IH]; [by left|]. cbn [last_word rev].
  destruct (String.eqb_spec (e_Role t) RoleAssistant) as [Hr|Hr]; cbn [negb].
  - right. exists (rev l), t, []. split_and!; [done|done|constructor| |].
    + destruct (String.eqb_spec (APIError t) ""); [done|]. split; [|done].
      by destruct (apiErrorClasses !! APIError t).
    + destruct (String.eqb_spec (APIError t) ""); cbn [tagged]; [naive_solver|].
      destruct (apiErrorClasses !! APIError t); cbn [tagged no_word]; split; intros H; try done.
      by destruct H as [_ [? [=]]].
  - destruct IH as [IH|(pre & x & post & Hl & IH)]; [by left|right]. exists pre, x, (post ++ [t])%list.
    rewrite Hl, <- app_assoc. split_and!; try done; try by destruct IH as (?&?&?&?). destruct IH as (_ & IH & _).
    apply Forall_app. auto.
Qed.

(** The read a word came from. *)
Definition the_read (e : evidence) : transcript :=
  match e.(read1) with Ok _ => e.(read1) | Err _ => e.(read2) end.

Lemma replied_shown e : replied (lastWordOfCurrentTurn e) = true ->
  exists w tturns t, e.(sent) = Some w /\ the_read e = Ok tturns /\ last_assistant tturns w t /\ t.(APIError) = "".
Proof.
  assert (Hl : forall w tturns, replied (last_word (since tturns w)) = true ->
    exists t, last_assistant tturns w t /\ t.(APIError) = "").
  { intros w tturns H. destruct (last_word_None (since tturns w)) as [E|(pre & t & post & E & Hr & Hp & Hi & _)];
      [by rewrite E in H|]. unfold since in E. rewrite rev_involutive in E.
    exists t. split; [by exists pre, post|by apply Hi]. }
  unfold lastWordOfCurrentTurn, the_read, apiErrorVerdictFrom.
  destruct (reader e), (sessionID e =s? ""), (sent e) as [w|], (read1 e) as [l|], (closing e), (read2 e) as [l'|];
    cbn; try discriminate; intros (t & H1 & H2)%Hl; eexists w, _, t; split_and!; done.
Qed.

(** A turn held on an error the harness may retry past is never reported
    complete on the screen's word: the harness's own transcript, after the
    turn's prompt, must end on a reply. *)
Theorem held_turn_confirmed harness held k e e' t :
  held <> "" -> (exists ev snap, k = ByComplete ev /\ ev.(Snap) = Some snap) \/
                (exists snap now marker swallowed, k = ByIdle snap now marker swallowed) ->
  (ends harness held k e e' t).(State) = TurnStateComplete ->
  exists w tturns r, e.(sent) = Some w /\ the_read e = Ok tturns /\ last_assistant tturns w r /\ r.(APIError) = "".
Proof.
  intros Hh Hk Hs. apply replied_shown.
  assert (Hrel : forall snap t, (relabelTerminal resumeAtFrom anchored claudeUsageLimitRE extract harness snap held e t).(State)
    = TurnStateComplete -> replied (lastWordOfCurrentTurn e) = true).
  { clear - Hh. intros snap t. unfold relabelTerminal, heldRelabel. rewrite (proj2 (String.eqb_neq held "") Hh). cbn [orb].
    destruct (apply _ _ _ _) eqn:E1; cbn [or_else default].
    { unfold apply in E1. destruct (negb _); [done|]. injection E1 as <-. by destruct (_ =s? _). }
    destruct (usageLimitRelabel _ _ _ _ _ _) eqn:E2; cbn [or_else default].
    { unfold usageLimitRelabel in E2. destruct (usageLimitMessage _ _ _); [|done]. by injection E2 as <-. }
    destruct (authRelabel _ _ _ _ _) eqn:E3; cbn [or_else default].
    { unfold authRelabel in E3. destruct (negb _); [done|]. destruct (negb _); [done|]. by injection E3 as <-. }
    by destruct (replied _). }
  destruct Hk as [(ev & snap & -> & Hsnap)|(snap & now & marker & swallowed & ->)]; cbn [end_turn] in Hs.
  - unfold endComplete in Hs. rewrite Hsnap in Hs. by apply Hrel in Hs.
  - unfold endIdle in Hs. rewrite (proj2 (String.eqb_neq held "") Hh), andb_false_r in Hs. cbn in Hs. by apply Hrel in Hs.
Qed.

Lemma last_reply_Some l text : last_reply l = Some text ->
  exists t, t ∈ l /\ t.(e_Role) = RoleAssistant /\ t.(APIError) = "" /\ TrimSpace t.(e_Text) = text /\ text <> "".
Proof.
  induction l as [|t l IH]; [done|]. cbn [last_reply].
  destruct (String.eqb_spec (e_Role t) RoleAssistant) as [Hr|]; cbn [negb];
    [|intros (x & ? & ?)%IH; exists x; set_solver].
  destruct (String.eqb_spec (APIError t) "") as [Ha|]; cbn [negb]; [|intros (x & ? & ?)%IH; exists x; set_solver].
  destruct (String.eqb_spec (TrimSpace (e_Text t)) "") as [Hb|Hb]; [intros (x & ? & ?)%IH; exists x; set_solver|].
  intros [= <-]. exists t. set_solver.
Qed.

(** A reply of the assistant's the harness recorded after the prompt. *)
Definition recorded_reply (e : evidence) (text : string) : Prop :=
  exists w tturns t, e.(sent) = Some w /\ (e.(read1) = Ok tturns \/ e.(read2) = Ok tturns) /\ t ∈ drop w tturns /\
    t.(e_Role) = RoleAssistant /\ t.(APIError) = "" /\ TrimSpace t.(e_Text) = text /\ text <> "".

Lemma proof_recorded e : (searchTranscriptProof e).(proofText) <> "" -> recorded_reply e (searchTranscriptProof e).(proofText).
Proof.
  assert (Hl : forall w read, (tryTranscriptProof w read).1.(proofText) <> "" -> exists w' tturns t, w = Some w' /\ read = Ok tturns /\
    t ∈ drop w' tturns /\ t.(e_Role) = RoleAssistant /\ t.(APIError) = "" /\
    TrimSpace t.(e_Text) = (tryTranscriptProof w read).1.(proofText) /\ (tryTranscriptProof w read).1.(proofText) <> "").
  { intros [w|] [tturns|]; cbn; try done. destruct (last_reply _) as [text|] eqn:E; [|done]. cbn. intros _.
    apply last_reply_Some in E as (t & Ht & Hr & Ha & Hx & Hne). exists w, tturns, t. split_and!; try done.
    unfold since in Ht. rewrite list_elem_of_In, <- in_rev, <- list_elem_of_In in Ht.
    destruct (decide (w <= length tturns)%nat); [by rewrite Nat.min_l in Ht|].
    rewrite Nat.min_r, drop_all in Ht by lia. set_solver. }
  unfold searchTranscriptProof. destruct (reader e); [|done]. destruct (sessionID e =s? ""); [done|]. cbn [negb].
  specialize (Hl (sent e)). pose proof (Hl (read1 e)) as H1. destruct (tryTranscriptProof (sent e) (read1 e)) as [v r].
  destruct r; cbn [negb fst] in *.
  - destruct (closing e); [done|]. intros (w & tturns & t & ? & ? & ?)%Hl. exists w, tturns, t. auto.
  - intros (w & tturns & t & ? & ? & ?)%H1. exists w, tturns, t. auto.
Qed.

(** A prompt the screen shows was never taken ends complete exactly when the
    harness's transcript holds a reply recorded after it, and then with that
    reply as its text; otherwise it ends errored. *)
Theorem swallowed_prompt_needs_proof harness e e' t snap now :
  let r := ends harness "" (ByIdle snap now false true) e e' t in
  (r.(State) = TurnStateComplete /\ recorded_reply e r.(Text)) \/
  (r.(State) = TurnStateErrored /\ (searchTranscriptProof e).(proofText) = "").
Proof.
  cbn [end_turn]. unfold endIdle. cbn [negb andb]. replace ("" =s? "") with true by done. cbv iota.
  unfold applySwallowedPromptVerdict.
  assert (Hp : (transcriptProofOfCurrentTurn snap e).(proofText) = (searchTranscriptProof e).(proofText)).
  { unfold transcriptProofOfCurrentTurn. by destruct (_ && _). }
  rewrite Hp. destruct (String.eqb_spec (proofText (searchTranscriptProof e)) "") as [E|E]; cbn [negb].
  - right. split; [|done]. destruct (apiErrorRelabel _ _ _ _) eqn:Ea; [|by destruct (authRequired _ _ _)].
    unfold apiErrorRelabel, apply in Ea. destruct (negb _); [done|]. injection Ea as <-. by destruct (_ =s? _).
  - left. split; [done|]. by apply proof_recorded.
Qed.

(** What the harness recorded last decides an ending the screen reports,
    whatever the screen says, the prompt not taken apart. *)
Lemma last_word_outranks_screen harness held k e e' t :
  (exists ev snap, k = ByComplete ev /\ ev.(Snap) = Some snap) \/ (exists ev, k = ByBlocked ev) \/
  (exists screen ev, k = ByErrored screen ev) \/ (exists snap now marker, k = ByIdle snap now marker false) ->
  tagged (lastWordOfCurrentTurn e) = true ->
  let r := ends harness held k e e' t in
  r.(State) = TurnStateErrored /\ r.(Code) = v_code (verdict (lastWordOfCurrentTurn e)) /\
  r.(Reason) = turnReason harness (verdict (lastWordOfCurrentTurn e)) /\ r.(Text) = "".
Proof.
  intros Hk Ht.
  assert (Ha : forall t, exists t', apply resumeAtFrom (lastWordOfCurrentTurn e) harness t = Some t' /\
    t'.(State) = TurnStateErrored /\ t'.(Code) = v_code (verdict (lastWordOfCurrentTurn e)) /\
    t'.(Reason) = turnReason harness (verdict (lastWordOfCurrentTurn e)) /\ t'.(Text) = "").
  { intros t0. unfold apply. rewrite Ht. cbn [negb]. eexists. split; [done|]. by destruct (v_code _ =s? _). }
  destruct Hk as [(ev & snap & -> & Es)|[(ev & ->)|[(scr & ev & ->)|(snap & now & mk & ->)]]];
    cbn [end_turn];
    unfold endComplete, endBlocked, endErrored, endIdle, relabelTerminal, apiErrorRelabel; rewrite ?Es, ?andb_false_r;
    match goal with |- context [apply _ _ _ ?x] => destruct (Ha x) as (t' & -> & H) end; cbn [or_else default]; try done.
  destruct (_ || _); exact H.
Qed.
End Outcomes.

(** The rescue of a prompt the screen shows was never taken does not keep to
    the harness's last word: a turn that replied and then failed on a billing
    wall is completed with the reply, where any other ending errors it. *)
Definition failed_after_reply : list entry :=
  [mkEntry RoleUser "do it" 1 ""; mkEntry RoleAssistant "Looking into it." 2 "";
   mkEntry RoleAssistant "Credit balance is too low" 3 "billing_error"].

Definition failed_evidence : evidence :=
  mkEvidence true "s1" (Some 0%nat) (Ok failed_after_reply) false (Ok failed_after_reply).

Definition pending_turn : Turn := mkTurn "t1" "c1" RoleAssistant TurnStatePending "" "" 0 0 "" 0 0 None.

Theorem rescue_ignores_last_word :
  let ending swallowed := end_turn (fun _ => None) (fun _ _ => false) (fun _ => None) None ClaudeCode ""
    (ByIdle "" 9 false swallowed) failed_evidence failed_evidence pending_turn in
  (ending true).(State) = TurnStateComplete /\ (ending true).(Text) = "Looking into it." /\
  (ending false).(State) = TurnStateErrored /\ (ending false).(Code) = CodeBillingWall.
Proof. vm_compute. auto. Qed.

(** ** Reasons stay one line *)

Lemma strip_suffix fuel seps bs : exists n, strip fuel seps bs = drop n bs.
Proof.
  revert bs. induction fuel as [|fuel IH]; intros bs; cbn; [by exists 0%nat|].
  destruct (List.find _ seps) as [sp|]; [|by exists 0%nat].
  destruct (IH (drop (length sp) bs)) as [n ->]. rewrite drop_drop. eauto.
Qed.

Lemma bytes_string_of_bytes bs : Forall (fun b => 0 <= b < 256) bs -> bytes (string_of_bytes bs) = bs.
Proof.
  intros H. unfold bytes, string_of_bytes. rewrite list_ascii_of_string_of_list_ascii, map_map.
  rewrite <- (map_id bs) at 2. apply map_ext_in. intros b Hb%list_elem_of_In.
  rewrite list.Forall_forall in H. specialize (H b Hb). unfold code. rewrite N_ascii_embedding; lia.
Qed.

Lemma TrimSpace_sublist s : sublist (bytes (TrimSpace s)) (bytes s).
Proof.
  unfold TrimSpace. destruct (strip_suffix (length (bytes s)) space_encodings (bytes s)) as [n ->].
  destruct (strip_suffix (length (drop n (bytes s))) (map (@rev Z) space_encodings) (rev (drop n (bytes s)))) as [m ->].
  rewrite skipn_rev, rev_involutive.
  assert (Hsub : sublist (take (length (drop n (bytes s)) - m) (drop n (bytes s))) (bytes s)).
  { etransitivity; [apply sublist_take|apply sublist_drop]. }
  rewrite bytes_string_of_bytes; [done|].
  apply list.Forall_forall. intros b Hb. apply (bytes_range s). by eapply elem_of_sublist.
Qed.

Lemma TrimSpace_len s : (String.length (TrimSpace s) <= String.length s)%nat.
Proof.
  pose proof (sublist_length _ _ (TrimSpace_sublist s)) as H. unfold bytes in H.
  rewrite !length_map, !length_list_ascii in H. exact H.
Qed.

(** A line of text: no line break and no tab. *)
Definition one_line (s : string) : Prop := Forall (fun b => b <> 10 /\ b <> 13 /\ b <> 9) (bytes s).

Lemma flatten_one_line s : one_line (flatten s).
Proof.
  unfold one_line. induction s as [|c s IH]; [constructor|]. cbn. constructor; [|exact IH].
  unfold flat_byte. destruct ((code c =? 10) || (code c =? 13) || (code c =? 9)) eqn:E; [by cbn|].
  apply orb_false_iff in E as [[E1 E2]%orb_false_iff E3]. lia.
Qed.

Lemma sublist_one_line s s' : sublist (bytes s) (bytes s') -> one_line s' -> one_line s.
Proof.
  unfold one_line. rewrite !list.Forall_forall. intros H H' b Hb. apply H'. by eapply elem_of_sublist.
Qed.

Lemma substring_bytes n s : bytes (String.substring 0 n s) = take n (bytes s).
Proof.
  unfold bytes. revert s. induction n as [|n IH]; intros [|c s]; cbn; try done. by rewrite IH.
Qed.

(** A reason's detail stays one short line: oneLineCapped answers a single line
    of at most max bytes and the ellipsis, and text that already is one is kept. *)
Theorem oneLineCapped_bounds s max :
  one_line (oneLineCapped s max) /\ (String.length (oneLineCapped s max) <= max + 3)%nat /\
  ((String.length (TrimSpace (flatten s)) <= max)%nat -> oneLineCapped s max = TrimSpace (flatten s)).
Proof.
  assert (Hone : one_line (TrimSpace (flatten s))) by (eapply sublist_one_line; [apply TrimSpace_sublist|apply flatten_one_line]).
  unfold oneLineCapped. destruct (Nat.leb_spec (String.length (TrimSpace (flatten s))) max) as [H|H].
  { split_and!; [done|lia|done]. }
  set (cut := String.substring 0 (rune_cut (TrimSpace (flatten s)) max) (TrimSpace (flatten s))).
  assert (Hcut : (rune_cut (TrimSpace (flatten s)) max <= max)%nat).
  { clear. induction max as [|m IH]; cbn; [lia|]. destruct (String.get _ _); [|lia]. destruct (RuneStart _); lia. }
  split_and!; [| |lia].
  - unfold one_line. rewrite bytes_app. apply Forall_app. split.
    + eapply (sublist_one_line _ cut); [apply TrimSpace_sublist|]. eapply (sublist_one_line _ (TrimSpace (flatten s))); [|done].
      unfold cut. rewrite substring_bytes. apply sublist_take.
    + vm_compute. repeat constructor; discriminate.
  - pose proof (slen_app (TrimSpace cut) "…") as Ha. unfold slen in Ha.
    pose proof (TrimSpace_len cut) as Hl. unfold cut in Hl at 2.
    pose proof (f_equal length (substring_bytes (rune_cut (TrimSpace (flatten s)) max) (TrimSpace (flatten s)))) as Hs.
    unfold bytes in Hs. rewrite length_take, !length_map, !length_list_ascii in Hs.
    change (String.length "…") with 3%nat in Ha. lia.
Qed.

(** ** Reset times *)

(** A reset time read from a wall is always ahead: the named clock time
    today if it has not come yet, tomorrow's otherwise. *)
Theorem reset_time_ahead {loc : Type} resetTimeRE LoadLocation (Date : loc -> Z -> Z -> Z -> Z -> Z)
  (next_day : forall l t h m, 0 <= h <= 23 -> 0 <= m <= 59 -> t < Date l t 1 h m) text now local at_ :
  ResetTime.Parse resetTimeRE LoadLocation Date text now local = Some at_ -> now < at_.
Proof.
  unfold ResetTime.Parse. intros H. apply bind_Some in H as (m & _ & H). apply bind_Some in H as ([h mi] & Hc & [= <-]).
  destruct (now <? _) eqn:E; [by apply Z.ltb_lt|]. apply next_day.
  - unfold ResetTime.parseResetClock in Hc. destruct m as [[[m1 m2] m3] m4].
    apply bind_Some in Hc as (hour & _ & Hc). destruct (_ || _) eqn:Hh; [done|]. apply orb_false_iff in Hh as [H1 H2].
    apply bind_Some in Hc as (minute & _ & Hc). apply bind_Some in Hc as (hour' & Hm & [= <- <-]).
    unfold ResetTime.applyMeridiem in Hm. repeat (case_match; simplify_eq; try done); lia.
  - unfold ResetTime.parseResetClock in Hc. destruct m as [[[m1 m2] m3] m4].
    apply bind_Some in Hc as (hour & _ & Hc). destruct (_ || _) eqn:Hh; [done|].
    apply bind_Some in Hc as (minute & Hmin & Hc). apply bind_Some in Hc as (hour' & Hm & [= <- <-]).
    destruct (m2 =s? ""); [simplify_eq; lia|]. apply bind_Some in Hmin as (x & _ & Hx).
    destruct ((x <? 0) || (59 <? x)) eqn:Hr; simplify_eq. bprop. lia.
Qed.

(** ** Witnesses *)

(** A resumed session: what its transcript held before the prompt differs. *)
Definition resumed_evidence (old : entry) : evidence :=
  let read := Ok [old; mkEntry RoleUser "hi" 5 ""; mkEntry RoleAssistant "Hello." 6 ""] in
  mkEvidence true "s1" (Some 1%nat) read false read.

Lemma stale_entries_never_decide_witness :
  let ending e := end_turn (fun _ => None) (fun _ _ => false) (fun _ => None) None ClaudeCode ""
    (ByComplete (mkEnd 9 "done" 0 0 (Some "Hello."))) e e pending_turn in
  ending (resumed_evidence (mkEntry RoleAssistant "old" 1 "billing_error")) =
  ending (resumed_evidence (mkEntry RoleAssistant "old" 1 "")).
Proof.
  refine (stale_entries_never_decide (fun _ => None) (fun _ _ => false) (fun _ => None) None ClaudeCode ""
    (ByComplete (mkEnd 9 "done" 0 0 (Some "Hello."))) _ _ _ _ pending_turn _ _); repeat split.
Defined.


Lemma held_turn_confirmed_witness :
  exists w tturns r, (resumed_evidence (mkEntry RoleAssistant "old" 1 "billing_error")).(sent) = Some w /\
    the_read (resumed_evidence (mkEntry RoleAssistant "old" 1 "billing_error")) = Ok tturns /\
    last_assistant tturns w r /\ r.(APIError) = "".
Proof.
  refine (held_turn_confirmed (fun _ => None) (fun _ _ => false) (fun _ => None) None ClaudeCode "API Error: 529"
    (ByIdle "Hello." 9 true false) (resumed_evidence (mkEntry RoleAssistant "old" 1 "billing_error"))
    failed_evidence pending_turn _ _ _).
  - discriminate.
  - right. eexists _, _, _, _. reflexivity.
  - vm_compute. reflexivity.
Defined.

(** UTC, in seconds. *)
Definition utc_date (_ : unit) (t n h m : Z) : Z := (t / 86400 + n) * 86400 + h * 3600 + m * 60.

Lemma reset_time_ahead_witness : 1000 < 64800.
Proof.
  refine (reset_time_ahead (fun _ => Some ("6", "", "pm", "")) (fun _ => None) utc_date _ "resets 6pm" 1000 tt 64800 _).
  - intros l t h m Hh Hm. unfold utc_date. pose proof (Z.mod_pos_bound t 86400 ltac:(lia)).
    pose proof (Z.div_mod t 86400 ltac:(lia)). lia.
  - vm_compute. reflexivity.
Defined.
