(* ===== verification/ChatTurn.v ===== *)
(** A conversation's turns (src/internal/chatcore/send.go, events.go,
    interrupt.go and the turn handling of conversation.go), as a transition
    system: the Sends, the event loop, the idle watcher and the Interrupts of
    one conversation, each a thread whose critical sections are steps, in any
    order.

    A turn is its pointer; the turn records are a heap. What a thread reads
    outside the conversation — the screen, the transcript, the Store's answers,
    the clock — is an argument of its step. The submit lock is its holder. The
    delivery queue is the list of what was queued, until it stops taking
    events; that a producer may wait for room is the scheduler's choice. An
    ending's reads of the conversation's fields, each under the lock, are one
    step. *)
From Stdlib Require Import ZArith Ascii String Lia.
From stdpp Require Import base tactics list strings option gmap.
From S2P Require Import Prelude GoStr HarnessName Verdict.

#[local] Open Scope string_scope.
#[local] Open Scope go_scope.
#[local] Open Scope nat_scope.

(** ** Threads *)

(** Who ends a turn. *)
Inductive who := Loop | Exiting | Watcher | Sender (n : nat).

(** Where a turn is: recorded by beginTurn, in flight, claimed and being ended,
    ended; or the terminal turn of emitAuthRequiredTurn. *)
Inductive tphase :=
| Recorded
| Flight
| Claimed (o : who) (k : how)
| Judged (o : who) (k : how)
| Emitted (o : who) (k : how)
| Ended (k : how)
| Refused.

Record trec := mkTrec { t_turn : Turn; t_phase : tphase }.

(** What Send answers: the turn it began, or an error. *)
Inductive send_result := Sent (tid : nat) | SendFails.

Inductive send_pc :=
| SReserved (text : string)            (* holds the write claim; in waitReadyForSend *)
| SWall (text : string)                (* emitAuthRequiredTurn, before the user's turn *)
| SWallUser (text : string)            (* and before the assistant's *)
| SReady (text : string)
| SComposing (text : string)           (* in clearComposer, holding the submit lock *)
| SComposed (text : string)
| SBegun (text : string)               (* counted in sending *)
| SUser (text : string)                (* the user's turn is announced *)
| SAnnounced (text : string) (tid : nat)
| SCurrent (tid : nat)
| SAccepting (tid : nat)               (* the submit has begun *)
| SLocked (tid : nat)                  (* holds the submit lock *)
| SWriting (tid : nat)                 (* screen and watermark taken *)
| SFailing (tid : nat)
| SEnding (tid : nat)
| SReturning (r : send_result)         (* the deferred release is left *)
| SReturned (r : send_result).

Inductive loop_pc :=
| LIdle
| LEnding (tid : nat)
| LSends                               (* exitWith: waiting for sending *)
| LExiting (tid : nat)
| LEnds                                (* waiting for ending *)
| LDone.

Inductive watch_pc :=
| WIdle
| WSeen (tid : nat) (cancelled : bool) (partial : string)   (* observeInterrupt has read the screen *)
| WLook (tid : nat)                                         (* maybeIdleComplete has read the turn *)
| WMarked (tid : nat) (marker : bool)
| WCommit (tid : nat) (marker : bool) (snap : string)
| WEnding (tid : nat).

(** What Interrupt answers; [IFails] with an error alone. *)
Inductive int_result := IRes (r : InterruptResult) | IComposer | IFails.

Inductive int_pc :=
| ILocking (op : option nat)
| IClaiming                            (* no turn at entry; holds the submit lock *)
| IRunning (op : nat)                  (* holds the submit lock *)
| IFinishing (op : nat) (r : int_result)
| IJoined (op : nat)
| IReturned (op : option nat) (r : int_result).

Record interruptOp := mkOp {
  op_turn : nat; written : bool; outcome : option InterruptResult; op_result : option int_result }.

Inductive holder := HeldBySend (n : nat) | HeldByInterrupt (m : nat).

(** ** Events *)

Inductive event :=
| EvUser (text : string)
| EvPending (tid : nat)
| EvTerminal (tid : nat) (t : Turn)
| EvRefused (tid : nat) (t : Turn)
| EvExited (status : string).

(** The fields a turn is read by, each reset by Send. *)
Record reading := mkReading {
  endMarkerSeen : bool; heldReason : string; sentScreenText : string; sentTranscriptWatermark : watermark;
  currentPrompt : string; acceptAfter : Z; lastBusyAt : Z }.

Definition set_marker b r :=
  mkReading b r.(heldReason) r.(sentScreenText) r.(sentTranscriptWatermark) r.(currentPrompt) r.(acceptAfter) r.(lastBusyAt).
Definition set_held x r :=
  mkReading r.(endMarkerSeen) x r.(sentScreenText) r.(sentTranscriptWatermark) r.(currentPrompt) r.(acceptAfter) r.(lastBusyAt).
Definition set_sent s w r :=
  mkReading r.(endMarkerSeen) r.(heldReason) s w r.(currentPrompt) r.(acceptAfter) r.(lastBusyAt).
Definition set_accept z r :=
  mkReading r.(endMarkerSeen) r.(heldReason) r.(sentScreenText) r.(sentTranscriptWatermark) r.(currentPrompt) z r.(lastBusyAt).
Definition set_busy z r :=
  mkReading r.(endMarkerSeen) r.(heldReason) r.(sentScreenText) r.(sentTranscriptWatermark) r.(currentPrompt) r.(acceptAfter) z.

(** ** The conversation *)

Record conv := mkConv {
  currentTurn : option nat;
  writeReserved : bool;
  exit : option string;
  sending : nat;
  ending : nat;
  turns : gmap nat trec;
  next : nat;
  rd : reading;
  interrupt : option nat;
  interruptedBy : option nat;
  ops : gmap nat interruptOp;
  written_keys : list nat;
  submit : option holder;
  closed : bool;
  log : list event;
  drained : bool;
  sends : gmap nat send_pc;
  ints : gmap nat int_pc;
  loop : loop_pc;
  watch : watch_pc }.

Definition set_currentTurn (x : option nat) (c : conv) : conv :=
  mkConv x c.(writeReserved) c.(exit) c.(sending) c.(ending) c.(turns) c.(next) c.(rd) c.(interrupt)
    c.(interruptedBy) c.(ops) c.(written_keys) c.(submit) c.(closed) c.(log) c.(drained) c.(sends) c.(ints) c.(loop)
    c.(watch).
Definition set_writeReserved (x : bool) (c : conv) : conv :=
  mkConv c.(currentTurn) x c.(exit) c.(sending) c.(ending) c.(turns) c.(next) c.(rd) c.(interrupt)
    c.(interruptedBy) c.(ops) c.(written_keys) c.(submit) c.(closed) c.(log) c.(drained) c.(sends) c.(ints) c.(loop)
    c.(watch).
Definition set_exit (x : option string) (c : conv) : conv :=
  mkConv c.(currentTurn) c.(writeReserved) x c.(sending) c.(ending) c.(turns) c.(next) c.(rd) c.(interrupt)
    c.(interruptedBy) c.(ops) c.(written_keys) c.(submit) c.(closed) c.(log) c.(drained) c.(sends) c.(ints) c.(loop)
    c.(watch).
Definition set_sending (x : nat) (c : conv) : conv :=
  mkConv c.(currentTurn) c.(writeReserved) c.(exit) x c.(ending) c.(turns) c.(next) c.(rd) c.(interrupt)
    c.(interruptedBy) c.(ops) c.(written_keys) c.(submit) c.(closed) c.(log) c.(drained) c.(sends) c.(ints) c.(loop)
    c.(watch).
Definition set_ending (x : nat) (c : conv) : conv :=
  mkConv c.(currentTurn) c.(writeReserved) c.(exit) c.(sending) x c.(turns) c.(next) c.(rd) c.(interrupt)
    c.(interruptedBy) c.(ops) c.(written_keys) c.(submit) c.(closed) c.(log) c.(drained) c.(sends) c.(ints) c.(loop)
    c.(watch).
Definition set_turns (x : gmap nat trec) (c : conv) : conv :=
  mkConv c.(currentTurn) c.(writeReserved) c.(exit) c.(sending) c.(ending) x c.(next) c.(rd) c.(interrupt)
    c.(interruptedBy) c.(ops) c.(written_keys) c.(submit) c.(closed) c.(log) c.(drained) c.(sends) c.(ints) c.(loop)
    c.(watch).
Definition set_next (x : nat) (c : conv) : conv :=
  mkConv c.(currentTurn) c.(writeReserved) c.(exit) c.(sending) c.(ending) c.(turns) x c.(rd) c.(interrupt)
    c.(interruptedBy) c.(ops) c.(written_keys) c.(submit) c.(closed) c.(log) c.(drained) c.(sends) c.(ints) c.(loop)
    c.(watch).
Definition set_rd (x : reading) (c : conv) : conv :=
  mkConv c.(currentTurn) c.(writeReserved) c.(exit) c.(sending) c.(ending) c.(turns) c.(next) x c.(interrupt)
    c.(interruptedBy) c.(ops) c.(written_keys) c.(submit) c.(closed) c.(log) c.(drained) c.(sends) c.(ints) c.(loop)
    c.(watch).
Definition set_interrupt (x : option nat) (c : conv) : conv :=
  mkConv c.(currentTurn) c.(writeReserved) c.(exit) c.(sending) c.(ending) c.(turns) c.(next) c.(rd) x
    c.(interruptedBy) c.(ops) c.(written_keys) c.(submit) c.(closed) c.(log) c.(drained) c.(sends) c.(ints) c.(loop)
    c.(watch).
Definition set_interruptedBy (x : option nat) (c : conv) : conv :=
  mkConv c.(currentTurn) c.(writeReserved) c.(exit) c.(sending) c.(ending) c.(turns) c.(next) c.(rd) c.(interrupt)
    x c.(ops) c.(written_keys) c.(submit) c.(closed) c.(log) c.(drained) c.(sends) c.(ints) c.(loop) c.(watch).
Definition set_ops (x : gmap nat interruptOp) (c : conv) : conv :=
  mkConv c.(currentTurn) c.(writeReserved) c.(exit) c.(sending) c.(ending) c.(turns) c.(next) c.(rd) c.(interrupt)
    c.(interruptedBy) x c.(written_keys) c.(submit) c.(closed) c.(log) c.(drained) c.(sends) c.(ints) c.(loop)
    c.(watch).
Definition set_written_keys (x : list nat) (c : conv) : conv :=
  mkConv c.(currentTurn) c.(writeReserved) c.(exit) c.(sending) c.(ending) c.(turns) c.(next) c.(rd) c.(interrupt)
    c.(interruptedBy) c.(ops) x c.(submit) c.(closed) c.(log) c.(drained) c.(sends) c.(ints) c.(loop) c.(watch).
Definition set_submit (x : option holder) (c : conv) : conv :=
  mkConv c.(currentTurn) c.(writeReserved) c.(exit) c.(sending) c.(ending) c.(turns) c.(next) c.(rd) c.(interrupt)
    c.(interruptedBy) c.(ops) c.(written_keys) x c.(closed) c.(log) c.(drained) c.(sends) c.(ints) c.(loop)
    c.(watch).
Definition set_closed (x : bool) (c : conv) : conv :=
  mkConv c.(currentTurn) c.(writeReserved) c.(exit) c.(sending) c.(ending) c.(turns) c.(next) c.(rd) c.(interrupt)
    c.(interruptedBy) c.(ops) c.(written_keys) c.(submit) x c.(log) c.(drained) c.(sends) c.(ints) c.(loop)
    c.(watch).
Definition set_log (x : list event) (c : conv) : conv :=
  mkConv c.(currentTurn) c.(writeReserved) c.(exit) c.(sending) c.(ending) c.(turns) c.(next) c.(rd) c.(interrupt)
    c.(interruptedBy) c.(ops) c.(written_keys) c.(submit) c.(closed) x c.(drained) c.(sends) c.(ints) c.(loop)
    c.(watch).
Definition set_drained (x : bool) (c : conv) : conv :=
  mkConv c.(currentTurn) c.(writeReserved) c.(exit) c.(sending) c.(ending) c.(turns) c.(next) c.(rd) c.(interrupt)
    c.(interruptedBy) c.(ops) c.(written_keys) c.(submit) c.(closed) c.(log) x c.(sends) c.(ints) c.(loop)
    c.(watch).
Definition set_sends (x : gmap nat send_pc) (c : conv) : conv :=
  mkConv c.(currentTurn) c.(writeReserved) c.(exit) c.(sending) c.(ending) c.(turns) c.(next) c.(rd) c.(interrupt)
    c.(interruptedBy) c.(ops) c.(written_keys) c.(submit) c.(closed) c.(log) c.(drained) x c.(ints) c.(loop)
    c.(watch).
Definition set_ints (x : gmap nat int_pc) (c : conv) : conv :=
  mkConv c.(currentTurn) c.(writeReserved) c.(exit) c.(sending) c.(ending) c.(turns) c.(next) c.(rd) c.(interrupt)
    c.(interruptedBy) c.(ops) c.(written_keys) c.(submit) c.(closed) c.(log) c.(drained) c.(sends) x c.(loop)
    c.(watch).
Definition set_loop (x : loop_pc) (c : conv) : conv :=
  mkConv c.(currentTurn) c.(writeReserved) c.(exit) c.(sending) c.(ending) c.(turns) c.(next) c.(rd) c.(interrupt)
    c.(interruptedBy) c.(ops) c.(written_keys) c.(submit) c.(closed) c.(log) c.(drained) c.(sends) c.(ints) x
    c.(watch).
Definition set_watch (x : watch_pc) (c : conv) : conv :=
  mkConv c.(currentTurn) c.(writeReserved) c.(exit) c.(sending) c.(ending) c.(turns) c.(next) c.(rd) c.(interrupt)
    c.(interruptedBy) c.(ops) c.(written_keys) c.(submit) c.(closed) c.(log) c.(drained) c.(sends) c.(ints) c.(loop)
    x.

(** A conversation Open has just made. *)
Definition opened : conv :=
  mkConv None false None 0 0 ∅ 0 (mkReading false "" "" None "" 0 0) None None ∅ [] None false [] false ∅ ∅ LIdle WIdle.

(** emit: [Push]; once the queue takes no more, the event is dropped. *)
Definition emit (ev : event) (c : conv) : conv :=
  if c.(drained) then c else set_log (c.(log) ++ [ev]) c.

Definition set_send n pc c := set_sends (<[n := pc]> c.(sends)) c.
Definition set_int m pc c := set_ints (<[m := pc]> c.(ints)) c.
Definition set_turn tid t c := set_turns (<[tid := t]> c.(turns)) c.
Definition set_op o x c := set_ops (<[o := x]> c.(ops)) c.

(** The record of a turn moves to phase [p]. *)
Definition at_phase (tid : nat) (p : tphase) (c : conv) : conv :=
  match c.(turns) !! tid with
  | Some t => set_turn tid (mkTrec t.(t_turn) p) c
  | None => c
  end.

(** claimTurnLocked: the turn in flight is [o]'s to end with [k]. *)
Definition claimTurnLocked (o : who) (k : how) (c : conv) : option (nat * conv) :=
  match c.(currentTurn) with
  | None => None
  | Some tid => Some (tid, at_phase tid (Claimed o k) (set_currentTurn None (set_ending (S c.(ending)) c)))
  end.

Section ChatTurn.
Context (resumeAtFrom : string -> option Z) (anchored : string -> string -> bool)
  (claudeUsageLimitRE : string -> option string) (extract : option (string -> option string)).
(** Options.Harness, holdsTurns, and whether the adapter is a turns.Interrupter. *)
Context (harness : string) (holds interrupter : bool).

(** ** Send (send.go) *)

(** reserveHarnessWriteLocked. *)
Definition reserveHarnessWriteLocked (c : conv) : option conv :=
  if negb (is_none c.(currentTurn)) || c.(writeReserved) then None else Some (set_writeReserved true c).

(** Send's entry: [held] is queue.Held(). A new call, so [n] is fresh. *)
Definition Send (n : nat) (text : string) (held : bool) (c : conv) : option conv :=
  if negb (is_none (c.(sends) !! n)) then None
  else if c.(closed) || negb held then Some (set_send n (SReturned SendFails) c)
  else match reserveHarnessWriteLocked c with
       | None => Some (set_send n (SReturned SendFails) c)
       | Some c' => if is_none c.(exit) then Some (set_send n (SReserved text) c')
                    else Some (set_send n (SReturned SendFails) c)
       end.

Inductive readiness := IsReady | AuthWall | NotReady.

Definition waitReadyForSend (n : nat) (text : string) (r : readiness) (c : conv) : conv :=
  set_send n (match r with IsReady => SReady text | AuthWall => SWall text | NotReady => SReturning SendFails end) c.

(** submit.lock, by a Send: [ok] is false when its context or the conversation
    ends first. *)
Definition lock_submit (h : holder) (c : conv) : option conv :=
  if is_none c.(submit) then Some (set_submit (Some h) c) else None.

(** The composer check, for an adapter that interrupts. *)
Definition lock_composer (n : nat) (text : string) (ok : bool) (c : conv) : option conv :=
  if negb interrupter then Some (set_send n (SComposed text) c)
  else if ok then set_send n (SComposing text) <$> lock_submit (HeldBySend n) c
  else Some (set_send n (SReturning SendFails) c).

Definition clear_composer (n : nat) (text : string) (ok : bool) (c : conv) : conv :=
  set_send n (if ok then SComposed text else SReturning SendFails) (set_submit None c).

(** beginTurn, its first section. *)
Definition begin_check (n : nat) (text : string) (c : conv) : conv :=
  if negb (is_none c.(currentTurn)) || negb (is_none c.(exit)) then set_send n (SReturning SendFails) c
  else set_send n (SBegun text) (set_sending (S c.(sending)) c).

Definition sending_done (c : conv) : conv := set_sending (pred c.(sending)) c.

Definition append_user (n : nat) (text : string) (ok : bool) (c : conv) : conv :=
  if ok then set_send n (SUser text) (emit (EvUser text) c)
  else set_send n (SReturning SendFails) (sending_done c).

Definition assistant_turn (state reason code : string) (now done : Z) : Turn :=
  mkTurn "" "" RoleAssistant state "" reason now done code 0 0 None.

Definition append_assistant (n : nat) (text : string) (ok : bool) (now : Z) (c : conv) : conv :=
  if ok then
    let tid := c.(next) in
    let c := set_next (S tid) (set_turn tid (mkTrec (assistant_turn TurnStatePending "" "" now 0) Recorded) c) in
    set_send n (SAnnounced text tid) (emit (EvPending tid) c)
  else set_send n (SReturning SendFails) (sending_done c).

(** beginTurn, its last section, and the deferred sending.Done. *)
Definition make_current (n : nat) (text : string) (tid : nat) (c : conv) : conv :=
  let r := c.(rd) in
  let r := mkReading false "" r.(sentScreenText) r.(sentTranscriptWatermark) text r.(acceptAfter) r.(lastBusyAt) in
  set_send n (SCurrent tid) (sending_done (set_rd r (set_currentTurn (Some tid) (at_phase tid Flight c)))).

Definition begin_submit (n tid : nat) (now : Z) (c : conv) : conv :=
  set_send n (SAccepting tid) (set_rd (set_accept now c.(rd)) c).

Definition lock_prompt (n tid : nat) (ok : bool) (c : conv) : option conv :=
  if ok then set_send n (SLocked tid) <$> lock_submit (HeldBySend n) c
  else Some (set_send n (SFailing tid) c).

(** The screen the prompt is submitted on, and the transcript's extent. *)
Definition capture (n tid : nat) (sentScreen : string) (reader : bool) (sessionID : string) (read : transcript) (c : conv) : conv :=
  set_send n (SWriting tid)
    (set_rd (set_sent sentScreen (captureTranscriptWatermark reader sessionID read) c.(rd)) c).

Definition write_prompt (n tid : nat) (ok : bool) (c : conv) : conv :=
  set_send n (if ok then SReturning (Sent tid) else SFailing tid) (set_submit None c).

(** failSubmit, up to its publication. *)
Definition failSubmit (n tid : nat) (err : string) (now : Z) (c : conv) : conv :=
  match (if bool_decide (c.(currentTurn) = Some tid) then claimTurnLocked (Sender n) (BySubmit now err) c else None) with
  | Some (_, c) => set_send n (SEnding tid) c
  | None => set_send n (SReturning SendFails) c
  end.

(** emitAuthRequiredTurn: the watermark and the user's turn; the assistant's. *)
Definition wall_user (n : nat) (text : string) (ok : bool) (c : conv) : conv :=
  let c := set_rd (set_sent c.(rd).(sentScreenText) None c.(rd)) c in
  if ok then set_send n (SWallUser text) (emit (EvUser text) c) else set_send n (SReturning SendFails) c.

Definition wall_assistant (n : nat) (ok : bool) (now : Z) (c : conv) : conv :=
  if ok then
    let tid := c.(next) in
    let t := assistant_turn TurnStateErrored ReasonAuthRequired CodeAuthRequired now now in
    let c := set_next (S tid) (set_turn tid (mkTrec t Refused) c) in
    set_send n (SReturning (Sent tid)) (emit (EvRefused tid t) c)
  else set_send n (SReturning SendFails) c.

(** The deferred releaseHarnessWrite. *)
Definition releaseHarnessWrite (n : nat) (r : send_result) (c : conv) : conv :=
  set_send n (SReturned r) (set_writeReserved false c).

(** ** Endings (events.go) *)

Definition with_sent (w : watermark) (e : evidence) : evidence :=
  mkEvidence e.(reader) e.(sessionID) w e.(read1) e.(closing) e.(read2).

(** What the claimer makes of the turn. *)
Definition judge (tid : nat) (e e' : evidence) (c : conv) : option conv :=
  match c.(turns) !! tid with
  | Some (mkTrec t (Claimed o k)) =>
    let w := c.(rd).(sentTranscriptWatermark) in
    let t := end_turn resumeAtFrom anchored claudeUsageLimitRE extract harness c.(rd).(heldReason) k
               (with_sent w e) (with_sent w e') t in
    Some (set_turn tid (mkTrec t (Judged o k)) c)
  | _ => None
  end.

(** publishTurn: the Store's answer rides on the event and changes nothing. *)
Definition publishTurn (tid : nat) (c : conv) : option conv :=
  match c.(turns) !! tid with
  | Some (mkTrec t (Judged o k)) => Some (emit (EvTerminal tid t) (set_turn tid (mkTrec t (Emitted o k)) c))
  | _ => None
  end.

(** ending.Done, and the claimer goes on. *)
Definition resume (o : who) (c : conv) : conv :=
  match o with
  | Loop => set_loop LIdle c
  | Exiting => set_loop LEnds c
  | Watcher => set_watch WIdle c
  | Sender n => set_send n (SReturning SendFails) c
  end.

Definition ending_done (tid : nat) (c : conv) : option conv :=
  match c.(turns) !! tid with
  | Some (mkTrec t (Emitted o k)) =>
    Some (resume o (set_turn tid (mkTrec t (Ended k)) (set_ending (pred c.(ending)) c)))
  | _ => None
  end.

(** ** The event loop (conversation.go, events.go) *)

Inductive turnsEvent :=
| TurnComplete (ev : endEvent)
| Blocked (ev : endEvent)
| Errored (ev : endEvent) (screen : string)
| ToolCall.

Definition loop_claim (k : how) (c : conv) : conv :=
  match claimTurnLocked Loop k c with Some (tid, c) => set_loop (LEnding tid) c | None => c end.

Definition handleTurnsEvent (ev : turnsEvent) (c : conv) : conv :=
  match ev with
  | TurnComplete ev =>
    if (harness =s? ClaudeCode) && negb (is_none c.(currentTurn)) then set_rd (set_marker true c.(rd)) c
    else loop_claim (ByComplete ev) c
  | Blocked ev =>
    if holds then
      match c.(currentTurn) with
      | Some tid =>
        match c.(turns) !! tid with
        | Some t => set_rd (set_held ev.(ev_Reason) c.(rd))
                      (set_turn tid (mkTrec (set_retry ev.(ev_HTTPCode) ev.(ev_RetryAfter) t.(t_turn)) t.(t_phase)) c)
        | None => c
        end
      | None => c
      end
    else loop_claim (ByBlocked ev) c
  | Errored ev screen => loop_claim (ByErrored screen ev) c
  | ToolCall => c
  end.

(** exitWith. *)
Definition exit_begin (status : string) (c : conv) : conv := set_loop LSends (set_exit (Some status) c).

Definition exit_claim (status : string) (now : Z) (c : conv) : conv :=
  match claimTurnLocked Exiting (ByExit now status) c with
  | Some (tid, c) => set_loop (LExiting tid) c
  | None => set_loop LEnds c
  end.

Definition exit_last (status : string) (c : conv) : conv :=
  set_loop LDone (set_drained true (emit (EvExited status) c)).

(** ** The idle watcher (conversation.go, interrupt.go) *)

Definition turnAccepted (r : reading) : bool := negb (r.(acceptAfter) =? 0)%Z && (r.(acceptAfter) <=? r.(lastBusyAt))%Z.

(** observeInterrupt, up to its reading of the screen: whether it shows the
    turn cancelled, or stopped, and the partial reply. *)
Definition observeInterrupt (seen : option (bool * string)) (c : conv) : conv :=
  match c.(currentTurn), seen with
  | Some tid, Some (cancelled, partial) => if turnAccepted c.(rd) then set_watch (WSeen tid cancelled partial) c else c
  | _, _ => c
  end.

(** finishInterrupted, up to its publication. *)
Definition finishInterrupted (tid : nat) (cancelled : bool) (partial : string) (now : Z) (c : conv) : conv :=
  let r := if cancelled then InterruptCancelled else InterruptStopped in
  if negb (bool_decide (c.(currentTurn) = Some tid)) then set_watch WIdle c
  else
    let k := ByInterrupt now r (bool_decide (c.(interruptedBy) = Some tid)) partial in
    match claimTurnLocked Watcher k c with
    | None => set_watch WIdle c
    | Some (_, c) =>
      let c := set_rd (set_held "" (set_marker false c.(rd))) c in
      let c := match c.(interrupt) with
               | Some o => match c.(ops) !! o with
                           | Some x => if bool_decide (x.(op_turn) = tid)
                                       then set_op o (mkOp x.(op_turn) x.(written) (Some r) x.(op_result)) c else c
                           | None => c
                           end
               | None => c
               end in
      set_watch (WEnding tid) c
    end.

Definition interruptInFlight (tid : nat) (c : conv) : bool :=
  match c.(interrupt) with
  | Some o => match c.(ops) !! o with
              | Some x => bool_decide (x.(op_turn) = tid) && x.(written)
              | None => false
              end
  | None => false
  end.

(** maybeIdleComplete: the turn; the marker; the screen and the checks on it,
    [ready] the prompt's, [settled] all the others; the claim. *)
Definition idle_look (c : conv) : conv :=
  match c.(currentTurn) with Some tid => set_watch (WLook tid) c | None => c end.

Definition idle_marker (tid : nat) (awaiting : bool) (c : conv) : conv :=
  if awaiting then set_watch WIdle c else set_watch (WMarked tid c.(rd).(endMarkerSeen)) c.

Definition idle_check (tid : nat) (marker ready settled : bool) (snap : string) (c : conv) : conv :=
  if negb marker && negb ready then set_watch WIdle c
  else if negb marker && interruptInFlight tid c then set_watch WIdle c
  else if negb settled then set_watch WIdle c
  else set_watch (WCommit tid marker snap) c.

Definition idle_commit (tid : nat) (marker swallowed : bool) (snap : string) (now : Z) (c : conv) : conv :=
  if negb (bool_decide (c.(currentTurn) = Some tid)) then set_watch WIdle c
  else match claimTurnLocked Watcher (ByIdle snap now marker swallowed) c with
       | Some (_, c) => set_watch (WEnding tid) (set_rd (set_marker false c.(rd)) c)
       | None => set_watch WIdle c
       end.

(** ** Interrupt (interrupt.go) *)

Inductive claimed := Joined (o : nat) | Registered (o : nat) | NoTurn.

Definition claimInterrupt (c : conv) : claimed * conv :=
  match c.(currentTurn) with
  | None => (NoTurn, c)
  | Some tid =>
    let fresh := let o := c.(next) in
                 (Registered o, set_next (S o) (set_interrupt (Some o) (set_op o (mkOp tid false None None) c))) in
    match c.(interrupt) with
    | Some o => match c.(ops) !! o with
                | Some x => if bool_decide (x.(op_turn) = tid) then (Joined o, c) else fresh
                | None => fresh
                end
    | None => fresh
    end
  end.

Definition Interrupt (m : nat) (c : conv) : option conv :=
  if negb (is_none (c.(ints) !! m)) then None
  else if c.(closed) || negb interrupter then Some (set_int m (IReturned None IFails) c)
  else
    let '(x, c) := claimInterrupt c in
    Some (set_int m (match x with Joined o => IJoined o | Registered o => ILocking (Some o) | NoTurn => ILocking None end) c).

Definition int_lock (m : nat) (o : option nat) (ok : bool) (c : conv) : option conv :=
  if ok then set_int m (match o with Some o => IRunning o | None => IClaiming end) <$> lock_submit (HeldByInterrupt m) c
  else Some (set_int m (match o with Some o => IFinishing o IFails | None => IReturned None IFails end) c).

(** Claiming again under the lock. *)
Definition int_reclaim (m : nat) (c : conv) : conv :=
  let '(x, c) := claimInterrupt c in
  match x with
  | Joined o => set_int m (IJoined o) (set_submit None c)
  | NoTurn => set_int m (IReturned None (IRes InterruptNoTurn)) (set_submit None c)
  | Registered o => set_int m (IRunning o) c
  end.

(** interruptEnded. *)
Definition interruptEnded (o : nat) (c : conv) : option InterruptResult :=
  match c.(ops) !! o with
  | Some x => if bool_decide (c.(currentTurn) = Some x.(op_turn)) then None
              else Some (default InterruptTooLate x.(outcome))
  | None => None
  end.

(** runInterrupt, when the turn has ended; [cleared]: the composer was emptied. *)
Definition int_ended (m o : nat) (cleared : bool) (c : conv) : option conv :=
  r ← interruptEnded o c;
  let res := if bool_decide (r = InterruptCancelled) && negb cleared then IComposer else IRes r in
  Some (set_int m (IFinishing o res) (set_submit None c)).

(** and while it runs and the screen shows it: writeInterrupt, [wrote] the
    write's success. *)
Definition int_write (m o : nat) (wrote : bool) (c : conv) : option conv :=
  if negb (turnAccepted c.(rd)) then None
  else match c.(ops) !! o with
       | Some x =>
         if x.(written) then Some c
         else
           let c := set_interruptedBy (Some x.(op_turn)) (set_op o (mkOp x.(op_turn) true x.(outcome) x.(op_result)) c) in
           let c := set_written_keys (c.(written_keys) ++ [o]) c in
           Some (if wrote then c else set_int m (IFinishing o IFails) (set_submit None c))
       | None => None
       end.

(** The context or the conversation ends. *)
Definition int_gives_up (m o : nat) (c : conv) : conv := set_int m (IFinishing o IFails) (set_submit None c).

Definition finishInterruptOp (m o : nat) (r : int_result) (c : conv) : conv :=
  let c := if bool_decide (c.(interrupt) = Some o) then set_interrupt None c else c in
  let c := match c.(ops) !! o with
           | Some x => set_op o (mkOp x.(op_turn) x.(written) x.(outcome) (Some r)) c
           | None => c
           end in
  set_int m (IReturned (Some o) r) c.

(** interruptOp.wait. *)
Definition wait (m o : nat) (c : conv) : option conv :=
  match c.(ops) !! o with
  | Some x => r ← x.(op_result); Some (set_int m (IReturned (Some o) r) c)
  | None => None
  end.

(** ** Steps *)

Inductive action :=
| ASend (n : nat) (text : string) (held : bool)
| AReady (n : nat) (r : readiness)
| ALockComposer (n : nat) (ok : bool)
| AClearComposer (n : nat) (ok : bool)
| ABegin (n : nat)
| AUser (n : nat) (ok : bool)
| AAssistant (n : nat) (ok : bool) (now : Z)
| ACurrent (n : nat)
| ABeginSubmit (n : nat) (now : Z)
| ALockPrompt (n : nat) (ok : bool)
| ACapture (n : nat) (screen : string) (reader : bool) (sessionID : string) (read : transcript)
| AWrite (n : nat) (ok : bool)
| AFail (n : nat) (err : string) (now : Z)
| ARelease (n : nat)
| AJudge (tid : nat) (e e' : evidence)
| APublish (tid : nat)
| ADone (tid : nat)
| ATurnsEvent (ev : turnsEvent)
| AExit (status : string)
| AExitClaim (now : Z)
| AExitLast
| ABusy (now : Z)
| AObserve (seen : option (bool * string))
| AInterrupted (now : Z)
| AIdleLook
| AIdleMarker (awaiting : bool)
| AIdleCheck (ready settled : bool) (snap : string)
| AIdleCommit (swallowed : bool) (now : Z)
| AInterrupt (m : nat)
| AIntLock (m : nat) (ok : bool)
| AIntReclaim (m : nat)
| AIntEnded (m : nat) (cleared : bool)
| AIntWrite (m : nat) (wrote : bool)
| AIntGiveUp (m : nat)
| AIntFinish (m : nat)
| AIntWait (m : nat) (ok : bool)
| AClose
| AAbandon.

Definition send_step (n : nat) (a : action) (c : conv) : option conv :=
  match a, c.(sends) !! n with
  | AReady _ r, Some (SReserved text) => Some (waitReadyForSend n text r c)
  | ALockComposer _ ok, Some (SReady text) => lock_composer n text ok c
  | AClearComposer _ ok, Some (SComposing text) => Some (clear_composer n text ok c)
  | ABegin _, Some (SComposed text) => Some (begin_check n text c)
  | AUser _ ok, Some (SBegun text) => Some (append_user n text ok c)
  | AUser _ ok, Some (SWall text) => Some (wall_user n text ok c)
  | AAssistant _ ok now, Some (SUser text) => Some (append_assistant n text ok now c)
  | AAssistant _ ok now, Some (SWallUser text) => Some (wall_assistant n ok now c)
  | ACurrent _, Some (SAnnounced text tid) => Some (make_current n text tid c)
  | ABeginSubmit _ now, Some (SCurrent tid) => Some (begin_submit n tid now c)
  | ALockPrompt _ ok, Some (SAccepting tid) => lock_prompt n tid ok c
  | ACapture _ screen rd id read, Some (SLocked tid) => Some (capture n tid screen rd id read c)
  | AWrite _ ok, Some (SWriting tid) => Some (write_prompt n tid ok c)
  | AFail _ err now, Some (SFailing tid) => Some (failSubmit n tid err now c)
  | ARelease _, Some (SReturning r) => Some (releaseHarnessWrite n r c)
  | _, _ => None
  end.

Definition loop_step (a : action) (c : conv) : option conv :=
  match a, c.(loop) with
  | ATurnsEvent ev, LIdle => Some (handleTurnsEvent ev c)
  | AExit status, LIdle => Some (exit_begin status c)
  | AExitClaim now, LSends =>
    status ← c.(exit); if bool_decide (c.(sending) = 0) then Some (exit_claim status now c) else None
  | AExitLast, LEnds =>
    status ← c.(exit); if bool_decide (c.(ending) = 0) then Some (exit_last status c) else None
  | _, _ => None
  end.

Definition watch_step (a : action) (c : conv) : option conv :=
  match a, c.(watch) with
  | AObserve seen, WIdle => Some (observeInterrupt seen c)
  | AInterrupted now, WSeen tid cancelled partial => Some (finishInterrupted tid cancelled partial now c)
  | AIdleLook, WIdle => Some (idle_look c)
  | AIdleMarker awaiting, WLook tid => Some (idle_marker tid awaiting c)
  | AIdleCheck ready settled snap, WMarked tid marker => Some (idle_check tid marker ready settled snap c)
  | AIdleCommit swallowed now, WCommit tid marker snap => Some (idle_commit tid marker swallowed snap now c)
  | _, _ => None
  end.

Definition int_step (m : nat) (a : action) (c : conv) : option conv :=
  match a, c.(ints) !! m with
  | AIntLock _ ok, Some (ILocking o) => int_lock m o ok c
  | AIntReclaim _, Some IClaiming => Some (int_reclaim m c)
  | AIntEnded _ cleared, Some (IRunning o) => int_ended m o cleared c
  | AIntWrite _ wrote, Some (IRunning o) => int_write m o wrote c
  | AIntGiveUp _, Some (IRunning o) => Some (int_gives_up m o c)
  | AIntFinish _, Some (IFinishing o r) => Some (finishInterruptOp m o r c)
  | AIntWait _ ok, Some (IJoined o) => if ok then wait m o c else Some (set_int m (IReturned (Some o) IFails) c)
  | _, _ => None
  end.

Definition step (a : action) (c : conv) : option conv :=
  match a with
  | ASend n text held => Send n text held c
  | AReady n _ | ALockComposer n _ | AClearComposer n _ | ABegin n | AUser n _ | AAssistant n _ _ | ACurrent n
  | ABeginSubmit n _ | ALockPrompt n _ | ACapture n _ _ _ _ | AWrite n _ | AFail n _ _ | ARelease n => send_step n a c
  | AJudge tid e e' => judge tid e e' c
  | APublish tid => publishTurn tid c
  | ADone tid => ending_done tid c
  | ATurnsEvent _ | AExit _ | AExitClaim _ | AExitLast => loop_step a c
  | ABusy now => Some (set_rd (set_busy now c.(rd)) c)
  | AObserve _ | AInterrupted _ | AIdleLook | AIdleMarker _ | AIdleCheck _ _ _ | AIdleCommit _ _ => watch_step a c
  | AInterrupt m => Interrupt m c
  | AIntLock m _ | AIntReclaim m | AIntEnded m _ | AIntWrite m _ | AIntGiveUp m | AIntFinish m | AIntWait m _ => int_step m a c
  | AClose => Some (set_closed true c)
  | AAbandon => Some (set_drained true c)
  end.

Fixpoint run (xs : list action) (c : conv) : option conv :=
  match xs with [] => Some c | x :: xs => step x c ≫= run xs end.

Inductive reaches (c0 : conv) : conv -> Prop :=
| reaches_refl : reaches c0 c0
| reaches_step c1 c2 a : reaches c0 c1 -> step a c1 = Some c2 -> reaches c0 c2.
End ChatTurn.
