(* ===== verification/ChatTurnProps.v ===== *)
(** What holds of a conversation's turns over every interleaving of its Sends,
    its event loop, its idle watcher and its Interrupts. *)
From Stdlib Require Import ZArith Ascii String Lia.
From stdpp Require Import base tactics list strings option gmap.
From S2P Require Import Prelude GoStr HarnessName Verdict VerdictProps ChatTurn.

#[local] Open Scope string_scope.
#[local] Open Scope go_scope.
#[local] Open Scope nat_scope.

(** ** What the invariant is made of *)

(** The events about a turn, in the order they were queued. *)
Definition about (tid : nat) (ev : event) : bool :=
  match ev with
  | EvPending i | EvTerminal i _ | EvRefused i _ => bool_decide (i = tid)
  | _ => false
  end.
Definition events_of (tid : nat) (c : conv) : list event := List.filter (about tid) c.(log).

Definition is_exit (ev : event) : bool := match ev with EvExited _ => true | _ => false end.
Definition no_exit (l : list event) : Prop := Forall (fun ev => is_exit ev = false) l.

(** The Send holds the write claim; it is counted in sending. *)
Definition claim (pc : send_pc) : bool := match pc with SReturned _ => false | _ => true end.
Definition window (pc : send_pc) : bool :=
  match pc with SBegun _ | SUser _ | SAnnounced _ _ => true | _ => false end.

Definition announced (c : conv) (tid : nat) : Prop := exists n text, c.(sends) !! n = Some (SAnnounced text tid).

Definition busy (c : conv) (o : who) (tid : nat) : Prop :=
  match o with
  | Loop => c.(loop) = LEnding tid
  | Exiting => c.(loop) = LExiting tid
  | Watcher => c.(watch) = WEnding tid
  | Sender n => c.(sends) !! n = Some (SEnding tid)
  end.

Definition being_ended (t : trec) : bool :=
  match t.(t_phase) with Claimed _ _ | Judged _ _ | Emitted _ _ => true | _ => false end.

Definition phase_ok (c : conv) (tid : nat) (t : trec) : Prop :=
  match t.(t_phase) with
  | Recorded => announced c tid
  | Flight => c.(currentTurn) = Some tid
  | Claimed o _ | Judged o _ | Emitted o _ => busy c o tid
  | Ended _ | Refused => True
  end.

(** How a turn is being ended, or was. *)
Definition fate (t : trec) : option how :=
  match t.(t_phase) with Claimed _ k | Judged _ k | Emitted _ k | Ended k => Some k | _ => None end.

(** An outcome of [k]: coherent, and interrupted exactly when the harness's
    interrupt ended it. *)
Definition outcome_of (k : how) (t : Turn) : Prop :=
  coherent t /\ (t.(State) = TurnStateInterrupted <-> is_Some (interrupted_by k)).

Definition record_ok (t : trec) : Prop :=
  match t.(t_phase) with
  | Recorded | Flight | Claimed _ _ => unmarked t.(t_turn)
  | Judged _ k | Emitted _ k | Ended k => outcome_of k t.(t_turn)
  | Refused => t.(t_turn).(State) = TurnStateErrored /\ t.(t_turn).(Code) = CodeAuthRequired
  end.

(** The events of a turn in its phase; once the queue takes no more, a later
    one may be missing. *)
Definition events_ok (drained : bool) (tid : nat) (t : trec) (l : list event) : Prop :=
  match t.(t_phase) with
  | Refused => l = [EvRefused tid t.(t_turn)] \/ drained = true /\ l = []
  | Emitted _ _ | Ended _ =>
    l = [EvPending tid; EvTerminal tid t.(t_turn)] \/ drained = true /\ (l = [] \/ l = [EvPending tid])
  | _ => l = [EvPending tid] \/ drained = true /\ l = []
  end.

Definition turn_ok (c : conv) (tid : nat) (t : trec) : Prop :=
  tid < c.(next) /\ phase_ok c tid t /\ record_ok t /\ events_ok c.(drained) tid t (events_of tid c).

(** Nothing is left to be queued about the turn. *)
Definition settled (tid : nat) (l : list event) : Prop :=
  l = [] \/ (exists t, l = [EvPending tid; EvTerminal tid t]) \/ (exists t, l = [EvRefused tid t]).

Definition no_window (c : conv) : Prop := forall n pc, c.(sends) !! n = Some pc -> window pc = false.

Definition exit_ok (c : conv) : Prop :=
  match c.(loop) with
  | LIdle | LEnding _ => c.(exit) = None
  | LSends => is_Some c.(exit)
  | LExiting _ | LEnds | LDone => is_Some c.(exit) /\ no_window c /\ c.(currentTurn) = None
  end.

Definition log_ok (c : conv) : Prop :=
  no_exit c.(log) \/
  (c.(loop) = LDone /\ c.(drained) = true /\ (forall tid, settled tid (events_of tid c)) /\
   exists l s, c.(log) = (l ++ [EvExited s])%list /\ no_exit l).

Record inv (c : conv) : Prop := mkInv {
  inv_turns : forall tid t, c.(turns) !! tid = Some t -> turn_ok c tid t;
  inv_fresh : forall tid, c.(turns) !! tid = None -> events_of tid c = [];
  inv_current : forall tid, c.(currentTurn) = Some tid -> exists t, c.(turns) !! tid = Some t /\ t.(t_phase) = Flight;
  inv_announced : forall tid, announced c tid -> exists t, c.(turns) !! tid = Some t /\ t.(t_phase) = Recorded;
  inv_claim : forall n pc, c.(sends) !! n = Some pc -> claim pc = true ->
    c.(writeReserved) = true /\ forall m pc', c.(sends) !! m = Some pc' -> claim pc' = true -> m = n;
  inv_window : (c.(sending) = 0 /\ no_window c) \/
    (c.(sending) = 1 /\ exists n pc, c.(sends) !! n = Some pc /\ window pc = true);
  inv_unwanted : forall n pc, c.(sends) !! n = Some pc -> window pc = true -> c.(currentTurn) = None;
  inv_ending : c.(ending) = size (filter (fun kv => being_ended kv.2 = true) c.(turns));
  inv_exit : exit_ok c;
  inv_log : log_ok c }.

(** ** Frames *)

(** [c'] is [c] for every turn but [x]. *)
Record except (x : option nat) (c c' : conv) : Prop := mkExcept {
  ex_turns : forall tid, x <> Some tid -> c'.(turns) !! tid = c.(turns) !! tid;
  ex_current : forall tid, x <> Some tid -> c.(currentTurn) = Some tid -> c'.(currentTurn) = Some tid;
  ex_next : c.(next) <= c'.(next);
  ex_announced : forall tid, x <> Some tid -> announced c tid -> announced c' tid;
  ex_busy : forall o tid, x <> Some tid -> busy c o tid -> busy c' o tid;
  ex_events : forall tid, x <> Some tid -> events_of tid c' = events_of tid c;
  ex_drained : c.(drained) = true -> c'.(drained) = true }.

Lemma events_ok_drained d d' tid t l : (d = true -> d' = true) -> events_ok d tid t l -> events_ok d' tid t l.
Proof. unfold events_ok. destruct (t_phase t); naive_solver. Qed.

Lemma except_turn x c c' tid t : except x c c' -> x <> Some tid -> turn_ok c tid t -> turn_ok c' tid t.
Proof.
  intros [] Hx (Hn & Hp & Hr & He). split_and!; [lia| |done|].
  - unfold phase_ok in *. destruct (t_phase t); eauto.
  - rewrite ex_events0 by done. by eapply events_ok_drained.
Qed.

(** Steps that change no turn, no Send and no queue. *)
Record core_eq (c c' : conv) : Prop := mkCoreEq {
  ce_current : c'.(currentTurn) = c.(currentTurn); ce_reserved : c'.(writeReserved) = c.(writeReserved);
  ce_exit : c'.(exit) = c.(exit); ce_sending : c'.(sending) = c.(sending); ce_ending : c'.(ending) = c.(ending);
  ce_turns : c'.(turns) = c.(turns); ce_next : c.(next) <= c'.(next); ce_log : c'.(log) = c.(log);
  ce_drained : c'.(drained) = c.(drained); ce_sends : c'.(sends) = c.(sends); ce_loop : c'.(loop) = c.(loop);
  ce_watch : forall tid, c.(watch) = WEnding tid -> c'.(watch) = WEnding tid }.

Lemma core_except c c' : core_eq c c' -> except None c c'.
Proof.
  intros []. constructor; unfold announced, events_of.
  - by rewrite ce_turns0.
  - by rewrite ce_current0.
  - done.
  - by rewrite ce_sends0.
  - intros [] tid _; cbn; rewrite ?ce_loop0, ?ce_sends0; auto.
  - by rewrite ce_log0.
  - by rewrite ce_drained0.
Qed.

Lemma inv_core c c' : inv c -> core_eq c c' -> inv c'.
Proof.
  intros Hi He. pose proof (core_except _ _ He) as Hx. destruct He.
  assert (Hev : forall tid, events_of tid c' = events_of tid c) by (intros tid; unfold events_of; by rewrite ce_log0).
  assert (Han : forall tid, announced c' tid <-> announced c tid) by (intros tid; unfold announced; by rewrite ce_sends0).
  constructor.
  - intros tid t. rewrite ce_turns0. intros Ht. eapply except_turn; [exact Hx|done|]. by apply (inv_turns _ Hi).
  - intros tid. rewrite ce_turns0, Hev. apply (inv_fresh _ Hi).
  - intros tid. rewrite ce_current0, ce_turns0. apply (inv_current _ Hi).
  - intros tid. rewrite Han, ce_turns0. apply (inv_announced _ Hi).
  - rewrite ce_sends0, ce_reserved0. apply (inv_claim _ Hi).
  - unfold no_window. rewrite ce_sends0, ce_sending0. apply (inv_window _ Hi).
  - rewrite ce_sends0, ce_current0. apply (inv_unwanted _ Hi).
  - rewrite ce_ending0, ce_turns0. apply (inv_ending _ Hi).
  - pose proof (inv_exit _ Hi) as H. unfold exit_ok, no_window in *. by rewrite ce_loop0, ce_exit0, ce_current0, ce_sends0.
  - pose proof (inv_log _ Hi) as H. unfold log_ok in *. rewrite ce_loop0, ce_log0, ce_drained0. setoid_rewrite Hev. done.
Qed.

(** An event about no turn. *)
Lemma inv_emit_user text c : inv c -> inv (emit (EvUser text) c).
Proof.
  intros Hi. unfold emit. destruct (drained c) eqn:Hd; [done|].
  assert (Hev : forall tid, events_of tid (set_log (log c ++ [EvUser text]) c) = events_of tid c).
  { intros tid. unfold events_of. cbn. by rewrite List.filter_app, app_nil_r. }
  destruct Hi. constructor; try done.
  - intros tid t Ht. destruct (inv_turns0 tid t Ht) as (H1 & H2 & H3 & H4). split_and!; try done.
    by rewrite Hev.
  - intros tid Ht. rewrite Hev. auto.
  - destruct inv_log0 as [H|(_ & H & _)]; [left|congruence].
    unfold no_exit in *. cbn. apply Forall_app. split; [done|]. by constructor.
Qed.

Lemma sends_emit ev c : (emit ev c).(sends) = c.(sends).
Proof. unfold emit. by destruct (drained c). Qed.

(** ** Moves of a Send *)

Definition plain (pc : send_pc) : bool := match pc with SAnnounced _ _ | SEnding _ => false | _ => true end.

Lemma window_claim pc : window pc = true -> claim pc = true.
Proof. by destruct pc. Qed.

Lemma lookup_send n pc c m pc' : (set_send n pc c).(sends) !! m = Some pc' <-> (m = n /\ pc' = pc) \/ (m <> n /\ c.(sends) !! m = Some pc').
Proof. cbn. rewrite lookup_insert_Some. naive_solver. Qed.

Lemma send_except n pc pc' c : c.(sends) !! n = Some pc -> plain pc = true -> except None c (set_send n pc' c).
Proof.
  intros Hn Hp. constructor; try done.
  - intros tid _ (m & text & Hm). exists m, text. apply lookup_send. right. split; [|done].
    intros ->. rewrite Hn in Hm. by simplify_eq.
  - intros [| | |m] tid _; try done. cbn [busy]. intros Hm. apply lookup_send. right. split; [|done].
    intros ->. rewrite Hn in Hm. by simplify_eq.
Qed.

Lemma announced_move n pc pc' c tid : c.(sends) !! n = Some pc -> plain pc' = true ->
  announced (set_send n pc' c) tid -> announced c tid.
Proof.
  intros Hn Hp (m & text & [[-> Hm]|[_ Hm]]%lookup_send); [by subst|]. by exists m, text.
Qed.

(** Whoever holds the claim is the only one. *)
Lemma sole_claim c n pc m pc' : inv c -> c.(sends) !! n = Some pc -> claim pc = true ->
  c.(sends) !! m = Some pc' -> claim pc' = true -> m = n.
Proof. intros Hi H1 H2 H3 H4. by apply (proj2 (inv_claim c Hi n pc H1 H2) m pc'). Qed.

Lemma claim_move n pc pc' c : inv c -> c.(sends) !! n = Some pc -> claim pc = true ->
  forall m x, (set_send n pc' c).(sends) !! m = Some x -> claim x = true ->
    c.(writeReserved) = true /\ forall k y, (set_send n pc' c).(sends) !! k = Some y -> claim y = true -> k = m.
Proof.
  intros Hi Hn Hc m x Hm Hx. destruct (inv_claim _ Hi n pc Hn Hc) as [Hr Hs]. split; [done|].
  assert (Hall : forall m x, (set_send n pc' c).(sends) !! m = Some x -> claim x = true -> m = n).
  { clear - Hs. intros m x [[-> _]|[_ Hm]]%lookup_send Hc; [done|]. by apply (Hs m x). }
  intros k y Hk Hy. rewrite (Hall k y Hk Hy). symmetry. by apply (Hall m x).
Qed.

Lemma inv_send n pc pc' c : inv c -> c.(sends) !! n = Some pc -> claim pc = true -> plain pc = true -> plain pc' = true ->
  window pc' = window pc -> inv (set_send n pc' c).
Proof.
  intros Hi Hn Hc Hp Hp' Hw. pose proof (send_except n pc pc' c Hn Hp) as Hx.
  constructor; cbn [turns currentTurn writeReserved exit sending ending next log drained loop].
  - intros tid t Ht. eapply except_turn; [exact Hx|done|]. by apply (inv_turns _ Hi).
  - apply (inv_fresh _ Hi).
  - apply (inv_current _ Hi).
  - intros tid Ha. by apply (inv_announced _ Hi), (announced_move n pc pc').
  - exact (claim_move n pc _ c Hi Hn Hc).
  - destruct (inv_window _ Hi) as [[H0 Hno]|[H1 (m & x & Hm & Hwx)]].
    + left. split; [done|]. intros m x [[-> ->]|[_ Hm]]%lookup_send; [by rewrite Hw; apply (Hno n)|by apply (Hno m)].
    + right. split; [done|]. assert (m = n) as -> by (by apply (sole_claim c n pc m x Hi Hn Hc Hm), window_claim).
      exists n, pc'. split; [apply lookup_send; auto|]. rewrite Hw. by simplify_eq.
  - intros m x [[-> ->]|[_ Hm]]%lookup_send Hwx; [rewrite Hw in Hwx; by apply (inv_unwanted _ Hi n pc)|by apply (inv_unwanted _ Hi m x)].
  - apply (inv_ending _ Hi).
  - pose proof (inv_exit _ Hi) as H. unfold exit_ok in *. cbn.
    assert (Hno : no_window c -> no_window (set_send n pc' c)).
    { intros Hno m x [[-> ->]|[_ Hm]]%lookup_send; [rewrite Hw; by apply (Hno n)|by apply (Hno m)]. }
    destruct (loop c); naive_solver.
  - apply (inv_log _ Hi).
Qed.

(** The window opens: beginTurn is counted. *)
Lemma inv_open n pc text c : inv c -> c.(sends) !! n = Some pc -> claim pc = true -> plain pc = true ->
  window pc = false -> c.(currentTurn) = None -> c.(exit) = None ->
  inv (set_send n (SBegun text) (set_sending (S c.(sending)) c)).
Proof.
  intros Hi Hn Hc Hp Hw Hcur Hex.
  pose proof (send_except n pc (SBegun text) c Hn Hp) as Hx.
  assert (Hnone : c.(sending) = 0 /\ no_window c).
  { destruct (inv_window _ Hi) as [H|[_ (m & x & Hm & Hwx)]]; [done|].
    assert (m = n) as -> by (by apply (sole_claim c n pc m x Hi Hn Hc Hm), window_claim). simplify_eq. congruence. }
  destruct Hnone as [H0 Hno].
  constructor; cbn [turns currentTurn writeReserved exit sending ending next log drained loop].
  - intros tid t Ht. apply (inv_turns _ Hi) in Ht. by apply (except_turn None c (set_send n (SBegun text) c) tid t Hx) in Ht.
  - apply (inv_fresh _ Hi).
  - apply (inv_current _ Hi).
  - intros tid Ha. by apply (inv_announced _ Hi), (announced_move n pc (SBegun text)).
  - exact (claim_move n pc _ c Hi Hn Hc).
  - right. rewrite H0. split; [done|]. exists n, (SBegun text). split; [apply lookup_send; auto|done].
  - intros m x [[-> ->]|[_ Hm]]%lookup_send Hwx; [done|]. by apply (inv_unwanted _ Hi m x).
  - apply (inv_ending _ Hi).
  - pose proof (inv_exit _ Hi) as H. unfold exit_ok in *. cbn. rewrite Hex in *.
    destruct (loop c); [done|done|..]; try (by destruct H); try (by destruct H as [[? ?] _]).
  - apply (inv_log _ Hi).
Qed.

(** The window closes without a turn. *)
Lemma inv_close n pc r c : inv c -> c.(sends) !! n = Some pc -> plain pc = true -> window pc = true ->
  inv (set_send n (SReturning r) (sending_done c)).
Proof.
  intros Hi Hn Hp Hw. pose proof (window_claim _ Hw) as Hc.
  pose proof (send_except n pc (SReturning r) c Hn Hp) as Hx.
  assert (Hno : no_window (set_send n (SReturning r) c)).
  { intros m x [[-> ->]|[Hne Hm]]%lookup_send; [done|]. destruct (window x) eqn:E; [|done].
    exfalso. apply Hne. by apply (sole_claim c n pc m x Hi Hn Hc Hm), window_claim. }
  constructor; cbn [turns currentTurn writeReserved exit sending ending next log drained loop sending_done].
  - intros tid t Ht. apply (inv_turns _ Hi) in Ht. by apply (except_turn None c (set_send n (SReturning r) c) tid t Hx) in Ht.
  - apply (inv_fresh _ Hi).
  - apply (inv_current _ Hi).
  - intros tid Ha. by apply (inv_announced _ Hi), (announced_move n pc (SReturning r)).
  - exact (claim_move n pc _ c Hi Hn Hc).
  - left. split; [|done]. change (pred (sending c) = 0).
    destruct (inv_window _ Hi) as [[_ H]|[-> _]]; [|done]. specialize (H n pc Hn). congruence.
  - intros m x Hm Hwx. rewrite (Hno m x Hm) in Hwx. done.
  - apply (inv_ending _ Hi).
  - pose proof (inv_exit _ Hi) as H. unfold exit_ok in *. cbn. destruct (loop c); naive_solver.
  - apply (inv_log _ Hi).
Qed.

(** The deferred release. *)
Lemma released_inv n r c : inv c -> c.(sends) !! n = Some (SReturning r) -> inv (releaseHarnessWrite n r c).
Proof.
  intros Hi Hn. pose proof (send_except n _ (SReturned r) c Hn eq_refl) as Hx.
  assert (Hno : forall m x, (set_send n (SReturned r) c).(sends) !! m = Some x -> claim x = false).
  { intros m x [[-> ->]|[Hne Hm]]%lookup_send; [done|]. destruct (claim x) eqn:E; [|done].
    exfalso. apply Hne. by apply (sole_claim c n _ m x Hi Hn eq_refl Hm). }
  assert (Hw : no_window (set_send n (SReturned r) c)).
  { intros m x Hm. destruct (window x) eqn:E; [|done]. apply window_claim in E. by rewrite (Hno m x Hm) in E. }
  unfold releaseHarnessWrite.
  constructor; cbn [turns currentTurn writeReserved exit sending ending next log drained loop].
  - intros tid t Ht. apply (inv_turns _ Hi) in Ht. by apply (except_turn None c (set_send n (SReturned r) c) tid t Hx) in Ht.
  - apply (inv_fresh _ Hi).
  - apply (inv_current _ Hi).
  - intros tid Ha. by apply (inv_announced _ Hi), (announced_move n _ (SReturned r) c tid Hn).
  - intros m x Hm Hcx. by rewrite (Hno m x Hm) in Hcx.
  - destruct (inv_window _ Hi) as [[H _]|[_ (m & x & Hm & Hwx)]]; [by left|].
    assert (m = n) as -> by (by apply (sole_claim c n _ m x Hi Hn eq_refl Hm), window_claim). by simplify_eq.
  - intros m x Hm Hwx. by rewrite (Hw m x Hm) in Hwx.
  - apply (inv_ending _ Hi).
  - pose proof (inv_exit _ Hi) as H. unfold exit_ok in *. cbn. destruct (loop c); naive_solver.
  - apply (inv_log _ Hi).
Qed.

(** A new call. *)
Lemma new_except n pc c : c.(sends) !! n = None -> except None c (set_send n pc c).
Proof.
  intros Hn. constructor; try done.
  - intros tid _ (m & text & Hm). exists m, text. apply lookup_send. right. split; [|done]. intros ->. congruence.
  - intros [| | |m] tid _; try done. cbn [busy]. intros Hm. apply lookup_send. right. split; [|done]. intros ->. congruence.
Qed.

Lemma inv_call n pc b c : inv c -> c.(sends) !! n = None -> plain pc = true -> window pc = false ->
  (claim pc = false /\ b = c.(writeReserved) \/ c.(writeReserved) = false /\ b = true) ->
  inv (set_send n pc (set_writeReserved b c)).
Proof.
  intros Hi Hn Hp Hw Hb. pose proof (new_except n pc c Hn) as Hx.
  assert (Hno : no_window c -> no_window (set_send n pc c)).
  { intros Hno m x [[-> ->]|[_ Hm]]%lookup_send; [done|by apply (Hno m)]. }
  constructor; cbn [turns currentTurn writeReserved exit sending ending next log drained loop].
  - intros tid t Ht. apply (inv_turns _ Hi) in Ht. by apply (except_turn None c (set_send n pc c) tid t Hx) in Ht.
  - apply (inv_fresh _ Hi).
  - apply (inv_current _ Hi).
  - intros tid (m & text & [[-> <-]|[_ Hm]]%lookup_send); [done|]. apply (inv_announced _ Hi). by exists m, text.
  - intros m x [[-> ->]|[Hm0 Hm]]%lookup_send Hcx.
    + destruct Hb as [[? _]|[Hr ->]]; [congruence|]. split; [done|].
      intros k y [[-> _]|[_ Hk]]%lookup_send Hcy; [done|]. destruct (inv_claim _ Hi k y Hk Hcy) as [? _]. congruence.
    + destruct (inv_claim _ Hi m x Hm Hcx) as [Hr Hs]. destruct Hb as [[Hf ->]|[? _]]; [|congruence].
      split; [done|]. intros k y [[-> ->]|[_ Hk]]%lookup_send Hcy; [congruence|]. by apply (Hs k y).
  - destruct (inv_window _ Hi) as [[H0 H]|[H1 (m & x & Hm & Hwx)]]; [left; auto|right]. split; [done|].
    exists m, x. split; [|done]. apply lookup_send. right. split; [|done]. intros ->. congruence.
  - intros m x [[-> ->]|[_ Hm]]%lookup_send Hwx; [congruence|]. by apply (inv_unwanted _ Hi m x).
  - apply (inv_ending _ Hi).
  - pose proof (inv_exit _ Hi) as H. unfold exit_ok in *. cbn. destruct (loop c); naive_solver.
  - apply (inv_log _ Hi).
Qed.

(** ** Steps of one turn *)

Lemma turns_at c c' tid t' : inv c -> except (Some tid) c c' -> c'.(turns) !! tid = Some t' -> turn_ok c' tid t' ->
  (forall i t, c'.(turns) !! i = Some t -> turn_ok c' i t) /\ (forall i, c'.(turns) !! i = None -> events_of i c' = []).
Proof.
  intros Hi Hx Ht' Hok. split.
  - intros i t Ht. destruct (decide (i = tid)) as [->|Hne]; [by simplify_eq|].
    rewrite (ex_turns _ _ _ Hx) in Ht by congruence. eapply except_turn; [exact Hx|congruence|]. by apply (inv_turns _ Hi).
  - intros i Hn. destruct (decide (i = tid)) as [->|Hne]; [by simplify_eq|].
    rewrite (ex_turns _ _ _ Hx) in Hn by congruence. rewrite (ex_events _ _ _ Hx) by congruence. by apply (inv_fresh _ Hi).
Qed.

Definition ending_size (m : gmap nat trec) : nat := size (filter (fun kv => being_ended kv.2 = true) m).

Lemma ending_size_insert m tid t t' : m !! tid = Some t ->
  ending_size (<[tid := t']> m) + (if being_ended t then 1 else 0) = ending_size m + (if being_ended t' then 1 else 0).
Proof.
  intros Ht. unfold ending_size. rewrite <- (insert_delete_id m tid t Ht) at 2. rewrite <- insert_delete_eq.
  set (d := delete tid m). assert (Hd : d !! tid = None) by apply lookup_delete_eq. clearbody d.
  assert (Hf : filter (fun kv : nat * trec => being_ended kv.2 = true) d !! tid = None).
  { apply map_lookup_filter_None. by left. }
  destruct (being_ended t) eqn:E1, (being_ended t') eqn:E2.
  - rewrite !map_filter_insert_True, !map_size_insert_None by done. lia.
  - rewrite map_filter_insert_False, map_filter_insert_True, map_size_insert_None by (cbn; congruence).
    rewrite delete_id by done. lia.
  - rewrite map_filter_insert_True, map_filter_insert_False, map_size_insert_None by (cbn; congruence).
    rewrite delete_id by done. lia.
  - rewrite !map_filter_insert_False by (cbn; congruence). lia.
Qed.

Lemma ending_size_new m tid t' : m !! tid = None ->
  ending_size (<[tid := t']> m) = ending_size m + (if being_ended t' then 1 else 0).
Proof.
  intros Ht. unfold ending_size. destruct (being_ended t') eqn:E.
  - rewrite map_filter_insert_True, map_size_insert_None by (try done; apply map_lookup_filter_None; by left). lia.
  - rewrite map_filter_insert_False by (cbn; congruence). rewrite delete_id by done. lia.
Qed.

Lemma at_phase_turns tid p c t : c.(turns) !! tid = Some t -> at_phase tid p c = set_turn tid (mkTrec t.(t_turn) p) c.
Proof. unfold at_phase. by intros ->. Qed.

Lemma set_turn_except tid t c : except (Some tid) c (set_turn tid t c).
Proof.
  constructor; try done.
  intros i Hi. cbn. rewrite lookup_insert_ne; congruence.
Qed.

(** A turn whose phase stays of its kind. *)
Lemma inv_set_turn tid t t' c : inv c -> c.(turns) !! tid = Some t -> turn_ok (set_turn tid t' c) tid t' ->
  (t.(t_phase) = Flight <-> t'.(t_phase) = Flight) -> (t.(t_phase) = Recorded <-> t'.(t_phase) = Recorded) ->
  being_ended t' = being_ended t -> inv (set_turn tid t' c).
Proof.
  intros Hi Ht Hok Hf Hr Hb. pose proof (set_turn_except tid t' c) as Hx.
  assert (Ht' : (set_turn tid t' c).(turns) !! tid = Some t') by (cbn; by rewrite lookup_insert_eq).
  destruct (turns_at c _ tid t' Hi Hx Ht' Hok) as [H1 H2].
  constructor; try done.
  - intros i Hcur. destruct (inv_current _ Hi i Hcur) as (x & Hxi & Hp). destruct (decide (i = tid)) as [->|Hne].
    + exists t'. simplify_eq. split; [done|]. by apply Hf.
    + exists x. split; [|done]. cbn. by rewrite lookup_insert_ne.
  - intros i Ha. destruct (inv_announced _ Hi i Ha) as (x & Hxi & Hp). destruct (decide (i = tid)) as [->|Hne].
    + exists t'. simplify_eq. split; [done|]. by apply Hr.
    + exists x. split; [|done]. cbn. by rewrite lookup_insert_ne.
  - apply (inv_claim _ Hi).
  - apply (inv_window _ Hi).
  - apply (inv_unwanted _ Hi).
  - pose proof (ending_size_insert c.(turns) tid t t' Ht) as Hs. rewrite Hb in Hs. change (ending c = ending_size (<[tid := t']> c.(turns))).
    rewrite (inv_ending _ Hi). unfold ending_size in *. lia.
  - apply (inv_exit _ Hi).
  - apply (inv_log _ Hi).
Qed.

Section Steps.
Context (resumeAtFrom : string -> option Z) (anchored : string -> string -> bool)
  (claudeUsageLimitRE : string -> option string) (extract : option (string -> option string))
  (harness : string) (holds interrupter : bool).

#[local] Notation judge := (judge resumeAtFrom anchored claudeUsageLimitRE extract harness).
#[local] Notation step := (step resumeAtFrom anchored claudeUsageLimitRE extract harness holds interrupter).
#[local] Notation reaches := (reaches resumeAtFrom anchored claudeUsageLimitRE extract harness holds interrupter).

Lemma inv_judge tid e e' c c' : inv c -> judge tid e e' c = Some c' -> inv c'.
Proof.
  intros Hi. unfold ChatTurn.judge. destruct (turns c !! tid) as [[t p]|] eqn:Ht; [|done]. destruct p; try done.
  intros [= <-]. destruct (inv_turns _ Hi tid _ Ht) as (H1 & H2 & H3 & H4).
  eapply inv_set_turn; try done. split_and!; [done|done| |done].
  split; [by apply ends_coherent|apply ends_state].
Qed.

(** Queueing a turn's event, with the phase that follows. *)
Lemma inv_emit_turn tid ev t t' c : inv c -> c.(turns) !! tid = Some t ->
  about tid ev = true -> (forall i, i <> tid -> about i ev = false) -> is_exit ev = false ->
  tid < c.(next) -> phase_ok c tid t' -> record_ok t' ->
  (c.(drained) = false -> events_ok false tid t' (events_of tid c ++ [ev])) ->
  (c.(drained) = true -> events_ok true tid t' (events_of tid c)) ->
  (t.(t_phase) = Flight <-> t'.(t_phase) = Flight) -> (t.(t_phase) = Recorded <-> t'.(t_phase) = Recorded) ->
  being_ended t' = being_ended t -> inv (emit ev (set_turn tid t' c)).
Proof.
  intros Hi Ht Ha Hna Hex Hn Hp Hr He1 He2 Hf Hrec Hb.
  unfold emit. change (drained (set_turn tid t' c)) with (drained c). destruct (drained c) eqn:Hd.
  { eapply inv_set_turn; try done. split_and!; try done.
    change (events_ok (drained c) tid t' (events_of tid c)). rewrite Hd. auto. }
  change (log (set_turn tid t' c)) with (log c).
  set (c' := set_log (log c ++ [ev]) (set_turn tid t' c)).
  assert (Hev : forall i, i <> tid -> events_of i c' = events_of i c).
  { intros i Hne. unfold events_of, c'. cbn. rewrite List.filter_app. cbn. by rewrite Hna, app_nil_r. }
  assert (Hevt : events_of tid c' = (events_of tid c ++ [ev])%list).
  { unfold events_of, c'. cbn. rewrite List.filter_app. cbn. by rewrite Ha. }
  assert (Hx : except (Some tid) c c').
  { constructor; try done; intros i Hne; [|apply Hev; congruence]. unfold c'. cbn. rewrite lookup_insert_ne; congruence. }
  assert (Ht' : c'.(turns) !! tid = Some t') by (unfold c'; cbn; by rewrite lookup_insert_eq).
  destruct (turns_at c c' tid t' Hi Hx Ht') as [H1 H2].
  { split_and!; try done. rewrite Hevt. change (events_ok (drained c) tid t' (events_of tid c ++ [ev])).
    rewrite Hd. auto. }
  constructor; try done.
  - intros i Hcur. destruct (inv_current _ Hi i Hcur) as (x & Hxi & Hph). destruct (decide (i = tid)) as [->|Hne].
    + exists t'. simplify_eq. split; [done|]. by apply Hf.
    + exists x. split; [|done]. unfold c'. cbn. by rewrite lookup_insert_ne.
  - intros i Hai. destruct (inv_announced _ Hi i Hai) as (x & Hxi & Hph). destruct (decide (i = tid)) as [->|Hne].
    + exists t'. simplify_eq. split; [done|]. by apply Hrec.
    + exists x. split; [|done]. unfold c'. cbn. by rewrite lookup_insert_ne.
  - apply (inv_claim _ Hi).
  - apply (inv_window _ Hi).
  - apply (inv_unwanted _ Hi).
  - pose proof (ending_size_insert c.(turns) tid t t' Ht) as Hs. rewrite Hb in Hs. change (ending c = ending_size (<[tid := t']> c.(turns))).
    rewrite (inv_ending _ Hi). unfold ending_size in *. lia.
  - apply (inv_exit _ Hi).
  - destruct (inv_log _ Hi) as [Hl|(_ & Hl & _)]; [left|congruence]. unfold no_exit, c' in *. cbn.
    apply Forall_app. split; [done|]. by constructor.
Qed.

Lemma inv_publish tid c c' : inv c -> publishTurn tid c = Some c' -> inv c'.
Proof.
  intros Hi. unfold publishTurn. destruct (turns c !! tid) as [[t p]|] eqn:Ht; [|done]. destruct p as [| | |o k| | |]; try done.
  intros [= <-]. destruct (inv_turns _ Hi tid _ Ht) as (H1 & H2 & H3 & H4).
  eapply inv_emit_turn; try done.
  - cbn. by rewrite bool_decide_eq_true_2.
  - intros i Hne. cbn. by rewrite bool_decide_eq_false_2.
  - intros Hd. rewrite Hd in H4. destruct H4 as [->|[? _]]; [by left|done].
  - intros Hd. right. split; [done|]. destruct H4 as [->|[_ ->]]; auto.
Qed.

(** The claimer is done with the turn. *)
Lemma resume_except tid t k o c : c.(turns) !! tid = Some t -> busy c o tid ->
  except (Some tid) c (resume o (set_turn tid (mkTrec t.(t_turn) (Ended k)) (set_ending (pred c.(ending)) c))).
Proof.
  intros Ht Hb. constructor.
  - intros i Hi. destruct o; cbn; (rewrite lookup_insert_ne; [done|congruence]).
  - by destruct o.
  - by destruct o.
  - intros i Hi (m & text & Hm). exists m, text. destruct o; try done. cbn in *. rewrite lookup_insert_ne; [done|congruence].
  - intros o' i Hi Hb'. destruct o, o'; cbn in *; try done; try congruence.
    rewrite lookup_insert_ne; [done|congruence].
  - intros i Hi. by destruct o.
  - by destruct o.
Qed.

Lemma inv_ending_done tid c c' : inv c -> ending_done tid c = Some c' -> inv c'.
Proof.
  intros Hi. unfold ending_done. destruct (turns c !! tid) as [[t p]|] eqn:Ht; [|done]. destruct p as [| | | |o k| |]; try done.
  intros [= <-]. destruct (inv_turns _ Hi tid _ Ht) as (H1 & H2 & H3 & H4).
  pose proof (resume_except tid _ k o c Ht H2) as Hx. cbn in Hx.
  set (c' := resume o _) in *.
  assert (Hc' : c'.(turns) = <[tid := mkTrec t (Ended k)]> c.(turns)) by by destruct o.
  assert (Hsame : c'.(currentTurn) = c.(currentTurn) /\ c'.(writeReserved) = c.(writeReserved) /\ c'.(exit) = c.(exit) /\
    c'.(sending) = c.(sending) /\ c'.(ending) = pred c.(ending) /\ c'.(next) = c.(next) /\ c'.(log) = c.(log) /\
    c'.(drained) = c.(drained)) by by destruct o.
  destruct Hsame as (E1 & E2 & E3 & E4 & E5 & E6 & E7 & E8).
  assert (Hsends : forall m x, c'.(sends) !! m = Some x -> c.(sends) !! m = Some x \/ (x = SReturning SendFails /\ c.(sends) !! m = Some (SEnding tid))).
  { intros m x. destruct o; cbn; auto. rewrite lookup_insert_Some. intros [[<- <-]|[_ ?]]; auto. }
  assert (Hback : forall m x, c.(sends) !! m = Some x -> x <> SEnding tid -> c'.(sends) !! m = Some x).
  { intros m x Hm Hne. destruct o; try done. cbn. rewrite lookup_insert_ne; [done|]. intros ->. cbn in H2. congruence. }
  assert (Hev : forall i, events_of i c' = events_of i c) by (intros i; unfold events_of; by rewrite E7).
  assert (Ht' : c'.(turns) !! tid = Some (mkTrec t (Ended k))) by (rewrite Hc'; by rewrite lookup_insert_eq).
  destruct (turns_at c c' tid _ Hi Hx Ht') as [G1 G2].
  { split_and!; [by rewrite E6|done|done|]. rewrite Hev, E8. exact H4. }
  assert (Hno : no_window c -> no_window c').
  { intros Hno m x [Hm|[-> _]]%Hsends; [by apply (Hno m)|done]. }
  constructor; try done.
  - intros i. rewrite E1. intros Hcur. destruct (inv_current _ Hi i Hcur) as (x & Hxi & Hp).
    exists x. split; [|done]. rewrite Hc', lookup_insert_ne; [done|]. intros ->. by simplify_eq.
  - intros i (m & text & [Hm|[? _]]%Hsends); [|done]. destruct (inv_announced _ Hi i) as (x & Hxi & Hp); [by exists m, text|].
    exists x. split; [|done]. rewrite Hc', lookup_insert_ne; [done|]. intros ->. by simplify_eq.
  - rewrite E2. assert (Hcl : forall m x, c'.(sends) !! m = Some x -> claim x = true -> exists y, c.(sends) !! m = Some y /\ claim y = true).
    { intros m x [Hm|[-> Hm]]%Hsends Hc; eauto. }
    intros m x Hm Hc. destruct (Hcl m x Hm Hc) as (y & Hy & Hcy). destruct (inv_claim _ Hi m y Hy Hcy) as [? Hs].
    split; [done|]. intros j z Hj Hcz. destruct (Hcl j z Hj Hcz) as (w & Hw & Hcw). by apply (Hs j w).
  - rewrite E4. destruct (inv_window _ Hi) as [[? ?]|[? (m & x & Hm & Hw)]]; [left; auto|right]. split; [done|].
    exists m, x. split; [|done]. apply Hback; [done|]. by intros ->.
  - intros m x [Hm|[-> _]]%Hsends Hw; [|done]. rewrite E1. by apply (inv_unwanted _ Hi m x).
  - rewrite E5, Hc', (inv_ending _ Hi). pose proof (ending_size_insert c.(turns) tid _ (mkTrec t (Ended k)) Ht) as Hs.
    unfold ending_size in Hs. cbn in Hs. lia.
  - pose proof (inv_exit _ Hi) as H. unfold exit_ok in *. rewrite E3, E1.
    destruct o; cbn in *; [by rewrite H2 in H|rewrite H2 in H; naive_solver| |]; destruct (loop c); naive_solver.
  - pose proof (inv_log _ Hi) as H. unfold log_ok in *. rewrite E7, E8. setoid_rewrite Hev.
    destruct H as [?|(Hl & ?)]; [by left|right]. split; [|done]. destruct o; cbn in *; congruence.
Qed.

(** ** Beginning a turn *)

Lemma next_free c : inv c -> c.(turns) !! c.(next) = None.
Proof. intros Hi. destruct (turns c !! next c) eqn:E; [|done]. destruct (inv_turns _ Hi _ _ E) as [? _]. lia. Qed.

(** A new turn's record and event. *)
Lemma inv_new_turn ev t pc pc' n c : inv c -> c.(sends) !! n = Some pc -> claim pc = true -> plain pc = true ->
  claim pc' = true -> window pc' = window pc ->
  (t.(t_phase) = Recorded /\ (exists text, pc' = SAnnounced text c.(next)) \/ t.(t_phase) = Refused /\ plain pc' = true) ->
  about c.(next) ev = true -> (forall i, i <> c.(next) -> about i ev = false) -> is_exit ev = false ->
  record_ok t -> events_ok false c.(next) t [ev] -> events_ok true c.(next) t [] ->
  inv (set_send n pc' (emit ev (set_next (S c.(next)) (set_turn c.(next) t c)))).
Proof.
  intros Hi Hn Hc Hp Hc' Hw Hph Ha Hna Hex Hr He1 He2.
  pose proof (next_free c Hi) as Hfree. set (tid := c.(next)) in *.
  set (c' := set_send n pc' _).
  assert (Hlog : c'.(log) = if drained c then c.(log) else (c.(log) ++ [ev])%list).
  { unfold c', emit. change (drained (set_next (S tid) (set_turn tid t c))) with (drained c). by destruct (drained c). }
  assert (Hsame : c'.(turns) = <[tid := t]> c.(turns) /\ c'.(currentTurn) = c.(currentTurn) /\ c'.(writeReserved) = c.(writeReserved) /\
    c'.(exit) = c.(exit) /\ c'.(sending) = c.(sending) /\ c'.(ending) = c.(ending) /\ c'.(next) = S tid /\ c'.(drained) = c.(drained) /\
    c'.(loop) = c.(loop) /\ c'.(watch) = c.(watch) /\ c'.(sends) = <[n := pc']> c.(sends)).
  { unfold c', emit. change (drained (set_next (S tid) (set_turn tid t c))) with (drained c).
    destruct (drained c) eqn:Hd; split_and!; try reflexivity; try (symmetry; exact Hd); exact Hd. }
  destruct Hsame as (E0 & E1 & E2 & E3 & E4 & E5 & E6 & E7 & E8 & E9 & E10). clearbody c'.
  assert (Hev : forall i, i <> tid -> events_of i c' = events_of i c).
  { intros i Hne. unfold events_of. rewrite Hlog. destruct (drained c); [done|].
    rewrite List.filter_app. cbn. by rewrite Hna, app_nil_r. }
  assert (Hfr : events_of tid c = []) by by apply (inv_fresh _ Hi).
  assert (Hevt : events_of tid c' = if drained c then [] else [ev]).
  { unfold events_of. rewrite Hlog. destruct (drained c); [done|]. rewrite List.filter_app. unfold events_of in Hfr. rewrite Hfr. cbn. by rewrite Ha. }
  assert (Hsend : forall m x, c'.(sends) !! m = Some x <-> (m = n /\ x = pc') \/ (m <> n /\ c.(sends) !! m = Some x)).
  { intros m x. rewrite E10, lookup_insert_Some. naive_solver. }
  assert (Hx : except (Some tid) c c').
  { constructor; rewrite ?E0, ?E1, ?E6, ?E7; try done.
    - intros i Hne. rewrite lookup_insert_ne; congruence.
    - lia.
    - intros i Hne (m & text & Hm). exists m, text. apply Hsend. right. split; [|done]. intros ->. rewrite Hn in Hm. by simplify_eq.
    - intros [| | |m] i Hne; cbn; rewrite ?E8, ?E9; try done. intros Hm. apply Hsend. right. split; [|done].
      intros ->. rewrite Hn in Hm. by simplify_eq.
    - intros i Hne. apply Hev. congruence. }
  assert (Ht' : c'.(turns) !! tid = Some t) by (rewrite E0; by rewrite lookup_insert_eq).
  destruct (turns_at c c' tid t Hi Hx Ht') as [G1 G2].
  { split_and!; [lia| |done|rewrite E7, Hevt; by destruct (drained c)].
    unfold phase_ok. destruct Hph as [[-> (text & ->)]|[-> _]]; [|done]. exists n, text. apply Hsend. auto. }
  assert (Hbe : being_ended t = false) by (unfold being_ended; by destruct Hph as [[-> _]|[-> _]]).
  constructor; try done.
  - intros i. rewrite E1. intros Hcur. destruct (inv_current _ Hi i Hcur) as (x & Hxi & Hpx).
    exists x. split; [|done]. rewrite E0, lookup_insert_ne; [done|]. intros <-. congruence.
  - intros i (m & text & [[-> Hm]|[_ Hm]]%Hsend).
    + destruct Hph as [[Hph (text' & ->)]|[_ Hpl]]; [|by rewrite <- Hm in Hpl]. injection Hm as -> ->. by exists t.
    + destruct (inv_announced _ Hi i) as (x & Hxi & Hpx); [by exists m, text|].
      exists x. split; [|done]. rewrite E0, lookup_insert_ne; [done|]. intros <-. congruence.
  - rewrite E2. assert (Hcl : forall m x, c'.(sends) !! m = Some x -> claim x = true -> m = n).
    { intros m x [[-> _]|[_ Hm]]%Hsend Hcx; [done|]. by apply (sole_claim c n pc m x). }
    intros m x Hm Hcx. split; [apply (inv_claim _ Hi n pc Hn Hc)|]. intros j y Hj Hcy.
    rewrite (Hcl j y Hj Hcy). symmetry. by apply (Hcl m x).
  - rewrite E4. destruct (inv_window _ Hi) as [[? Hno]|[? (m & x & Hm & Hwx)]]; [left|right]; (split; [done|]).
    + intros m x [[-> ->]|[_ Hm]]%Hsend; [rewrite Hw; by apply (Hno n)|by apply (Hno m)].
    + assert (m = n) as -> by (by apply (sole_claim c n pc m x Hi Hn Hc Hm), window_claim).
      exists n, pc'. split; [apply Hsend; auto|]. rewrite Hw. by simplify_eq.
  - intros m x [[-> ->]|[_ Hm]]%Hsend Hwx; rewrite E1; [rewrite Hw in Hwx; by apply (inv_unwanted _ Hi n pc)|by apply (inv_unwanted _ Hi m x)].
  - rewrite E5, E0, (inv_ending _ Hi). pose proof (ending_size_new c.(turns) tid t Hfree) as Hs. rewrite Hbe in Hs.
    unfold ending_size in Hs. lia.
  - pose proof (inv_exit _ Hi) as H. unfold exit_ok in *. rewrite E8, E3, E1.
    assert (Hno : no_window c -> no_window c').
    { intros Hno m x [[-> ->]|[_ Hm]]%Hsend; [rewrite Hw; by apply (Hno n)|by apply (Hno m)]. }
    destruct (loop c); naive_solver.
  - pose proof (inv_log _ Hi) as H. unfold log_ok in *. rewrite Hlog, E7, E8.
    destruct H as [H|(Hl & Hd & Hs & He)].
    + left. destruct (drained c); [done|]. apply Forall_app. split; [done|]. by constructor.
    + right. rewrite Hd in *. split_and!; try done. intros i. destruct (decide (i = tid)) as [->|Hne].
      * rewrite Hevt. by left.
      * rewrite Hev by done. apply Hs.
Qed.

Lemma inv_make_current n text tid c : inv c -> c.(sends) !! n = Some (SAnnounced text tid) -> inv (make_current n text tid c).
Proof.
  intros Hi Hn. destruct (inv_announced _ Hi tid) as (t & Ht & Hp); [by exists n, text|].
  assert (Hcur : c.(currentTurn) = None) by by apply (inv_unwanted _ Hi n _ Hn).
  destruct (inv_turns _ Hi tid t Ht) as (H1 & H2 & H3 & H4).
  unfold make_current. rewrite (at_phase_turns _ _ _ _ Ht). set (t' := mkTrec _ Flight).
  set (c' := set_send n _ _).
  assert (Hsend : forall m x, c'.(sends) !! m = Some x <-> (m = n /\ x = SCurrent tid) \/ (m <> n /\ c.(sends) !! m = Some x)).
  { intros m x. unfold c'. cbn. rewrite lookup_insert_Some. naive_solver. }
  assert (Hno : no_window c').
  { intros m x [[-> ->]|[Hne Hm]]%Hsend; [done|]. destruct (window x) eqn:E; [|done].
    exfalso. apply Hne. by apply (sole_claim c n _ m x Hi Hn eq_refl Hm), window_claim. }
  assert (Hx : except (Some tid) c c').
  { constructor; try done.
    - intros i Hne. unfold c'. cbn. rewrite lookup_insert_ne; congruence.
    - intros i _ Hc. congruence.
    - intros i Hne (m & text' & Hm). exists m, text'. apply Hsend. right. split; [|done]. intros ->. congruence.
    - intros [| | |m] i Hne; try done. cbn [busy]. intros Hm. apply Hsend. right. split; [|done]. intros ->. congruence. }
  assert (Ht' : c'.(turns) !! tid = Some t') by (unfold c'; cbn; by rewrite lookup_insert_eq).
  destruct (turns_at c c' tid t' Hi Hx Ht') as [G1 G2].
  { split_and!; [done|done| |]; [unfold record_ok in *; by rewrite Hp in H3|].
    unfold events_ok in *. by rewrite Hp in H4. }
  constructor; try done.
  - intros i [= <-]. by exists t'.
  - intros i (m & text' & [[_ ?]|[Hm Hs]]%Hsend); [done|].
    exfalso. apply Hm. by apply (sole_claim c n _ m _ Hi Hn eq_refl Hs).
  - intros m x Hm Hc. split; [apply (inv_claim _ Hi n _ Hn eq_refl)|]. 
    assert (Hcl : forall m x, c'.(sends) !! m = Some x -> claim x = true -> m = n).
    { intros j y [[-> _]|[_ Hj]]%Hsend Hy; [done|]. by apply (sole_claim c n _ j y Hi Hn). }
    intros j y Hj Hy. rewrite (Hcl j y Hj Hy). symmetry. by apply (Hcl m x).
  - left. split; [|done]. change (pred (sending c) = 0). destruct (inv_window _ Hi) as [[_ H]|[-> _]]; [|done].
    by specialize (H n _ Hn).
  - intros m x Hm Hw. by rewrite (Hno m x Hm) in Hw.
  - pose proof (ending_size_insert c.(turns) tid t t' Ht) as Hs. change (ending c = ending_size (<[tid := t']> c.(turns))).
    assert (Hb : being_ended t = false) by (unfold being_ended; by rewrite Hp).
    rewrite (inv_ending _ Hi). rewrite Hb in Hs. cbn in Hs. unfold ending_size in *. lia.
  - pose proof (inv_exit _ Hi) as H. unfold exit_ok in *. cbn. destruct (loop c); try done;
      destruct H as (_ & H & _); by specialize (H n _ Hn).
  - apply (inv_log _ Hi).
Qed.

(** ** Claiming a turn to end it *)

(** [o]'s thread turns to ending [tid]. *)
Definition engage (o : who) (tid : nat) (c : conv) : conv :=
  match o with
  | Loop => set_loop (LEnding tid) c
  | Exiting => set_loop (LExiting tid) c
  | Watcher => set_watch (WEnding tid) c
  | Sender n => set_send n (SEnding tid) c
  end.

(** Where [o] is when it claims. *)
Definition may_claim (o : who) (c : conv) : Prop :=
  match o with
  | Loop => c.(loop) = LIdle
  | Exiting => c.(loop) = LSends /\ c.(sending) = 0
  | Watcher => forall tid, c.(watch) <> WEnding tid
  | Sender n => exists tid, c.(sends) !! n = Some (SFailing tid)
  end.

Lemma inv_claimed o k tid c c1 : inv c -> may_claim o c -> claimTurnLocked o k c = Some (tid, c1) -> inv (engage o tid c1).
Proof.
  intros Hi Hm. unfold claimTurnLocked. destruct (currentTurn c) as [tid'|] eqn:Hcur; [|done]. intros [= -> <-].
  destruct (inv_current _ Hi tid Hcur) as (t & Ht & Hp). destruct (inv_turns _ Hi tid t Ht) as (H1 & H2 & H3 & H4).
  rewrite (at_phase_turns tid (Claimed o k) (set_currentTurn None (set_ending (S (ending c)) c)) t Ht).
  set (t' := mkTrec _ _). set (c' := engage o tid _).
  assert (Hsame : c'.(turns) = <[tid := t']> c.(turns) /\ c'.(currentTurn) = None /\ c'.(writeReserved) = c.(writeReserved) /\
    c'.(exit) = c.(exit) /\ c'.(sending) = c.(sending) /\ c'.(ending) = S c.(ending) /\ c'.(next) = c.(next) /\
    c'.(log) = c.(log) /\ c'.(drained) = c.(drained)) by by destruct o.
  destruct Hsame as (E0 & E1 & E2 & E3 & E4 & E5 & E6 & E7 & E8).
  assert (Hsends : forall m x, c'.(sends) !! m = Some x ->
    c.(sends) !! m = Some x \/ (exists i, x = SEnding tid /\ c.(sends) !! m = Some (SFailing i))).
  { intros m x. destruct o; cbn; auto. rewrite lookup_insert_Some. destruct Hm as [i Hm].
    intros [[<- <-]|[_ ?]]; [right|auto]. by exists i. }
  assert (Hback : forall m x, c.(sends) !! m = Some x -> (forall i, x <> SFailing i) -> c'.(sends) !! m = Some x).
  { intros m x Hx Hne. destruct o; try done. cbn. rewrite lookup_insert_ne; [done|]. intros ->.
    destruct Hm as [i Hm]. rewrite Hm in Hx. simplify_eq. by apply (Hne i). }
  assert (Hev : forall i, events_of i c' = events_of i c) by (intros i; unfold events_of; by rewrite E7).
  assert (Hx : except (Some tid) c c').
  { constructor; rewrite ?E0, ?E1, ?E6, ?E8; try done.
    - intros i Hne. rewrite lookup_insert_ne; congruence.
    - intros i Hne Hc. congruence.
    - intros i _ (m & text & Hs). exists m, text. by apply Hback.
    - intros o' i Hne Hb. destruct o, o'; cbn in *; try done; try congruence.
      + destruct Hm as [Hm _]. congruence.
      + destruct Hm as [Hm _]. congruence.
      + rewrite lookup_insert_ne; [done|]. intros ->. destruct Hm as [j Hm]. congruence. }
  assert (Ht' : c'.(turns) !! tid = Some t') by (rewrite E0; by rewrite lookup_insert_eq).
  destruct (turns_at c c' tid t' Hi Hx Ht') as [G1 G2].
  { split_and!; [by rewrite E6| | |].
    - destruct o; cbn; try done. by rewrite lookup_insert_eq.
    - unfold record_ok in *. by rewrite Hp in H3.
    - rewrite Hev, E8. unfold events_ok in *. by rewrite Hp in H4. }
  assert (Hno : no_window c -> no_window c').
  { intros Hno m x [Hs|(i & -> & _)]%Hsends; [by apply (Hno m)|done]. }
  assert (Hcl : forall m x, c'.(sends) !! m = Some x -> claim x = true -> exists y, c.(sends) !! m = Some y /\ claim y = true).
  { intros m x [Hs|(i & -> & Hs)]%Hsends Hc; eauto. }
  constructor; try done.
  - intros i. by rewrite E1.
  - intros i (m & text & [Hs|(j & ? & _)]%Hsends); [|done]. destruct (inv_announced _ Hi i) as (x & Hxi & Hpx); [by exists m, text|].
    exists x. split; [|done]. rewrite E0, lookup_insert_ne; [done|]. intros <-. simplify_eq. congruence.
  - rewrite E2. intros m x Hs Hc. destruct (Hcl m x Hs Hc) as (y & Hy & Hcy). destruct (inv_claim _ Hi m y Hy Hcy) as [? Hu].
    split; [done|]. intros j z Hj Hcz. destruct (Hcl j z Hj Hcz) as (w & Hw & Hcw). by apply (Hu j w).
  - rewrite E4. destruct (inv_window _ Hi) as [[? ?]|[? (m & x & Hs & Hw)]]; [left; auto|right]. split; [done|].
    exists m, x. split; [|done]. apply Hback; [done|]. by intros i ->.
  - rewrite E5, E0, (inv_ending _ Hi). pose proof (ending_size_insert c.(turns) tid t t' Ht) as Hs.
    assert (Hb : being_ended t = false) by (unfold being_ended; by rewrite Hp).
    rewrite Hb in Hs. cbn in Hs. unfold ending_size in Hs. lia.
  - pose proof (inv_exit _ Hi) as H. unfold exit_ok in *. rewrite E3, E1. destruct o; cbn in *.
    + by rewrite Hm in H.
    + destruct Hm as [Hm Hs]. rewrite Hm in H. split_and!; [done| |done]. apply Hno.
      destruct (inv_window _ Hi) as [[_ ?]|[? _]]; [done|lia].
    + destruct (loop c); naive_solver.
    + destruct (loop c); naive_solver.
  - pose proof (inv_log _ Hi) as H. unfold log_ok in *. rewrite E7, E8. setoid_rewrite Hev.
    destruct H as [?|(Hl & ?)]; [by left|right]. pose proof (inv_exit _ Hi) as He. unfold exit_ok in He. rewrite Hl in He.
    destruct He as (_ & _ & He). congruence.
Qed.

(** ** The exit *)

Lemma settled_turn c tid : inv c -> c.(currentTurn) = None -> no_window c -> c.(ending) = 0 -> c.(drained) = false ->
  settled tid (events_of tid c).
Proof.
  intros Hi Hcur Hno He Hd. destruct (turns c !! tid) as [t|] eqn:Ht; [|left; by apply (inv_fresh _ Hi)].
  destruct (inv_turns _ Hi tid t Ht) as (_ & H2 & _ & H4). rewrite Hd in H4.
  assert (Hb : being_ended t = false).
  { destruct (being_ended t) eqn:E; [|done]. exfalso. rewrite (inv_ending _ Hi) in He.
    apply map_size_empty_inv in He. eapply (map_empty_filter_1 _ _ He tid t Ht). exact E. }
  unfold phase_ok, events_ok, being_ended in *. destruct (t_phase t); try done.
  - destruct H2 as (n & text & Hn). by specialize (Hno n _ Hn).
  - congruence.
  - right. left. destruct H4 as [->|[? _]]; [eauto|done].
  - right. right. destruct H4 as [->|[? _]]; [eauto|done].
Qed.

Lemma inv_exit_last status c : inv c -> c.(loop) = LEnds -> c.(ending) = 0 -> inv (exit_last status c).
Proof.
  intros Hi Hl He. pose proof (inv_exit _ Hi) as Hex. unfold exit_ok in Hex. rewrite Hl in Hex. destruct Hex as (Hx1 & Hx2 & Hx3).
  assert (Hlog0 : no_exit (log c)) by (destruct (inv_log _ Hi) as [?|[? _]]; [done|congruence]).
  unfold exit_last, emit. destruct (drained c) eqn:Hd.
  - destruct Hi. constructor; try done.
    + intros tid t Ht. destruct (inv_turns0 tid t Ht) as (H1 & H2 & H3 & H4). split_and!; try done.
      * unfold phase_ok in *. destruct (t_phase t) as [| |[]|[]|[]| |]; cbn in *; try done; congruence.
      * by eapply events_ok_drained; [|exact H4].
    + by left.
  - assert (Hev : forall tid, events_of tid (set_loop LDone (set_drained true (set_log (log c ++ [EvExited status]) c))) = events_of tid c).
    { intros tid. unfold events_of. cbn. by rewrite List.filter_app, app_nil_r. }
    pose proof (fun tid => settled_turn c tid Hi Hx3 Hx2 He Hd) as Hset.
    destruct Hi. constructor; try done.
    + intros tid t Ht. destruct (inv_turns0 tid t Ht) as (H1 & H2 & H3 & H4). split_and!; try done.
      * unfold phase_ok in *. destruct (t_phase t) as [| |[]|[]|[]| |]; cbn in *; try done; congruence.
      * rewrite Hev. by eapply events_ok_drained; [|exact H4].
    + intros tid Ht. rewrite Hev. auto.
    + right. split_and!; try done; [intros tid; rewrite Hev; apply Hset|]. by exists (log c), status.
Qed.

Lemma inv_loop l c : inv c ->
  (forall tid, c.(loop) <> LEnding tid /\ c.(loop) <> LExiting tid) -> c.(loop) <> LDone ->
  exit_ok (set_loop l c) -> inv (set_loop l c).
Proof.
  intros Hi Hl Hd Hx. destruct Hi. constructor; try done.
  - intros tid t Ht. destruct (inv_turns0 tid t Ht) as (H1 & H2 & H3 & H4). split_and!; try done.
    unfold phase_ok in *. destruct (Hl tid). destruct (t_phase t) as [| |[]|[]|[]| |]; cbn in *; try done; congruence.
  - unfold log_ok in *. destruct inv_log0 as [?|[? _]]; [by left|done].
Qed.

Lemma inv_exit_begin status c : inv c -> c.(loop) = LIdle -> inv (exit_begin status c).
Proof.
  intros Hi Hl. unfold exit_begin.
  change (set_loop LSends (set_exit (Some status) c)) with (set_exit (Some status) (set_loop LSends c)).
  destruct Hi. constructor; try done.
  - intros tid t Ht. destruct (inv_turns0 tid t Ht) as (H1 & H2 & H3 & H4). split_and!; try done.
    unfold phase_ok in *. destruct (t_phase t) as [| |[]|[]|[]| |]; cbn in *; try done; congruence.
  - by eexists.
  - unfold log_ok in *. destruct inv_log0 as [?|[? _]]; [by left|congruence].
Qed.

Lemma inv_abandon c : inv c -> inv (set_drained true c).
Proof.
  intros []. constructor; try done.
  - intros tid t Ht. destruct (inv_turns0 tid t Ht) as (H1 & H2 & H3 & H4). split_and!; try done.
    by eapply events_ok_drained; [|exact H4].
  - unfold log_ok in *. destruct inv_log0 as [?|(? & ? & ?)]; [by left|by right].
Qed.

(** ** Every step keeps the invariant *)

Ltac core_step := (constructor; cbn; try done; try lia; try congruence).

Lemma send_step_inv n a c c' : inv c -> send_step interrupter n a c = Some c' -> inv c'.
Proof.
  intros Hi. unfold send_step. destruct a; try done; destruct (sends c !! n) as [pc|] eqn:Hn; try done; destruct pc; try done.
  - intros [= <-]. unfold waitReadyForSend. by destruct r; eapply inv_send.
  - unfold lock_composer, lock_submit. destruct (negb interrupter); [intros [= <-]; by eapply inv_send|].
    destruct ok; [|intros [= <-]; by eapply inv_send]. destruct (is_none _); [|done]. intros [= <-].
    eapply inv_send; [eapply inv_core; [exact Hi|core_step]|exact Hn|done..].
  - intros [= <-]. unfold clear_composer.
    destruct ok; (eapply inv_send; [eapply inv_core; [exact Hi|core_step]|exact Hn|done..]).
  - intros [= <-]. unfold begin_check. destruct (currentTurn c) eqn:Hc; [by eapply inv_send|].
    destruct (exit c) eqn:He; [by eapply inv_send|]. by eapply inv_open.
  - intros [= <-]. unfold wall_user.
    assert (Hi' : inv (set_rd (set_sent (sentScreenText (rd c)) None (rd c)) c)) by (eapply inv_core; [exact Hi|core_step]).
    destruct ok; [|eapply inv_send; [exact Hi'|exact Hn|done..]].
    eapply inv_send; [by apply inv_emit_user|rewrite sends_emit; exact Hn|done..].
  - intros [= <-]. unfold append_user. destruct ok.
    + eapply inv_send; [by apply inv_emit_user|rewrite sends_emit; exact Hn|done..].
    + by eapply inv_close.
  - intros [= <-]. unfold wall_assistant. destruct ok; [|by eapply inv_send].
    eapply inv_new_turn; [exact Hi|exact Hn|..]; try done.
    + right. done.
    + cbn. by rewrite bool_decide_eq_true_2.
    + intros i Hne. cbn. rewrite bool_decide_eq_false_2; [done|congruence].
    + by left.
    + by right.
  - intros [= <-]. unfold append_assistant. destruct ok; [|by eapply inv_close].
    eapply inv_new_turn; [exact Hi|exact Hn|..]; try done.
    + left. split; [done|by eexists].
    + cbn. by rewrite bool_decide_eq_true_2.
    + intros i Hne. cbn. rewrite bool_decide_eq_false_2; [done|congruence].
    + by left.
    + by right.
  - intros [= <-]. by apply inv_make_current.
  - intros [= <-]. eapply inv_send; [eapply inv_core; [exact Hi|core_step]|exact Hn|done..].
  - unfold lock_prompt, lock_submit. destruct ok; [|intros [= <-]; by eapply inv_send].
    destruct (is_none _); [|done]. intros [= <-]. eapply inv_send; [eapply inv_core; [exact Hi|core_step]|exact Hn|done..].
  - intros [= <-]. eapply inv_send; [eapply inv_core; [exact Hi|core_step]|exact Hn|done..].
  - intros [= <-]. unfold write_prompt.
    destruct ok; (eapply inv_send; [eapply inv_core; [exact Hi|core_step]|exact Hn|done..]).
  - intros [= <-]. unfold failSubmit. destruct (bool_decide_reflect (currentTurn c = Some tid)) as [Hcur|]; [|by eapply inv_send].
    destruct (claimTurnLocked _ _ _) as [[tid' c1]|] eqn:E; [|by eapply inv_send].
    assert (tid' = tid) as -> by (unfold claimTurnLocked in E; rewrite Hcur in E; by simplify_eq).
    eapply (inv_claimed (Sender n)); [exact Hi|by eexists|exact E].
  - intros [= <-]. by apply released_inv.
Qed.

Lemma claimed_current o k c : c.(currentTurn) = None <-> claimTurnLocked o k c = None.
Proof. unfold claimTurnLocked. by destruct (currentTurn c). Qed.

Lemma loop_claim_inv k c : inv c -> c.(loop) = LIdle -> inv (loop_claim k c).
Proof.
  intros Hi Hl. unfold loop_claim. destruct (claimTurnLocked Loop k c) as [[tid c1]|] eqn:E; [|done].
  by eapply (inv_claimed Loop).
Qed.

Lemma loop_step_inv a c c' : inv c -> loop_step harness holds a c = Some c' -> inv c'.
Proof.
  intros Hi. unfold loop_step. destruct a; try done; destruct (loop c) eqn:Hl; try done.
  - intros [= <-]. unfold handleTurnsEvent. destruct ev as [ev|ev|ev screen|]; [| |by apply loop_claim_inv|done].
    + destruct (_ && _); [eapply inv_core; [exact Hi|core_step]|by apply loop_claim_inv].
    + destruct holds; [|by apply loop_claim_inv]. destruct (currentTurn c) as [tid|] eqn:Hc; [|done].
      destruct (turns c !! tid) as [t|] eqn:Ht; [|done]. destruct (inv_turns _ Hi tid t Ht) as (H1 & H2 & H3 & H4).
      destruct (inv_current _ Hi tid Hc) as (t' & Ht' & Hp). simplify_eq.
      eapply inv_core; [eapply inv_set_turn; [exact Hi|exact Ht|..]|core_step]; [|by cbn..].
      split_and!; [done| | |]; unfold phase_ok, record_ok, events_ok in *; cbn; rewrite Hp in *; done.
  - intros [= <-]. by apply inv_exit_begin.
  - destruct (exit c) as [status|] eqn:Hex; [|done]. cbn. case_bool_decide as Hs; [|done]. intros [= <-].
    unfold exit_claim. destruct (claimTurnLocked _ _ _) as [[tid c1]|] eqn:E.
    + by eapply (inv_claimed Exiting).
    + apply claimed_current in E. apply inv_loop; [done|intros tid; by rewrite Hl|by rewrite Hl|].
      unfold exit_ok. cbn. split_and!; [by rewrite Hex| |done].
      destruct (inv_window _ Hi) as [[_ ?]|[? _]]; [done|lia].
  - destruct (exit c) as [status|] eqn:Hex; [|done]. cbn. case_bool_decide as Hs; [|done]. intros [= <-].
    by apply inv_exit_last.
Qed.

Lemma watch_core w c : inv c -> (forall tid, c.(watch) <> WEnding tid) -> inv (set_watch w c).
Proof. intros Hi Hw. eapply inv_core; [exact Hi|core_step]. Qed.

Lemma watch_step_inv a c c' : inv c -> watch_step a c = Some c' -> inv c'.
Proof.
  intros Hi. unfold watch_step. destruct a; try done; destruct (watch c) as [|tid r partial|tid|tid mk|tid mk sn|tid] eqn:Hw; try done;
    (assert (Hne : forall tid, c.(watch) <> WEnding tid) by (intros i; by rewrite Hw)); intros [= <-].
  - unfold observeInterrupt. repeat case_match; try done. by apply watch_core.
  - unfold finishInterrupted. destruct (bool_decide_reflect (currentTurn c = Some tid)) as [Hc|]; cbn [negb]; [|by apply watch_core].
    destruct (claimTurnLocked _ _ _) as [[tid' c1]|] eqn:E; [|by apply watch_core].
    assert (tid' = tid) as -> by (unfold claimTurnLocked in E; rewrite Hc in E; by simplify_eq).
    eapply inv_core; [eapply (inv_claimed Watcher); [exact Hi|exact Hne|exact E]|].
    cbn [engage]. repeat case_match; core_step.
  - unfold idle_look. case_match; [by apply watch_core|done].
  - unfold idle_marker. case_match; by apply watch_core.
  - unfold idle_check. repeat case_match; by apply watch_core.
  - unfold idle_commit. destruct (bool_decide_reflect (currentTurn c = Some tid)) as [Hc|]; cbn [negb]; [|by apply watch_core].
    destruct (claimTurnLocked _ _ _) as [[tid' c1]|] eqn:E; [|by apply watch_core].
    assert (tid' = tid) as -> by (unfold claimTurnLocked in E; rewrite Hc in E; by simplify_eq).
    eapply inv_core; [eapply (inv_claimed Watcher); [exact Hi|exact Hne|exact E]|core_step].
Qed.

Lemma claimInterrupt_core c : core_eq c (claimInterrupt c).2.
Proof. unfold claimInterrupt. repeat case_match; core_step. Qed.

Lemma core_refl c : core_eq c c.
Proof. core_step. Qed.

Lemma core_trans c1 c2 c3 : core_eq c1 c2 -> core_eq c2 c3 -> core_eq c1 c3.
Proof. intros [] []. constructor; try congruence; [lia|auto]. Qed.

Lemma int_step_core m a c c' : int_step m a c = Some c' -> core_eq c c'.
Proof.
  unfold int_step. destruct a; try done; destruct (ints c !! m) as [[]|]; try done.
  - unfold int_lock, lock_submit. destruct ok; [|intros [= <-]; core_step]. destruct (is_none _); [|done].
    intros [= <-]. core_step.
  - intros [= <-]. unfold int_reclaim. pose proof (claimInterrupt_core c) as H. destruct (claimInterrupt c) as [x c1].
    eapply core_trans; [exact H|]. destruct x; core_step.
  - unfold int_ended. intros (r & _ & [= <-])%bind_Some. core_step.
  - unfold int_write. repeat (case_match; try done); intros [= <-]; core_step.
  - intros [= <-]. core_step.
  - intros [= <-]. unfold finishInterruptOp. repeat case_match; core_step.
  - destruct ok; [|intros [= <-]; core_step]. unfold wait. case_match; [|done]. intros (r' & _ & [= <-])%bind_Some. core_step.
Qed.

Lemma Interrupt_core m c c' : Interrupt interrupter m c = Some c' -> core_eq c c'.
Proof.
  unfold Interrupt. destruct (negb _); [done|]. destruct (_ || _); [intros [= <-]; core_step|].
  pose proof (claimInterrupt_core c) as H. destruct (claimInterrupt c) as [x c1]. intros [= <-].
  eapply core_trans; [exact H|core_step].
Qed.

Lemma Send_inv n text held c c' : inv c -> Send n text held c = Some c' -> inv c'.
Proof.
  intros Hi. unfold Send. destruct (sends c !! n) eqn:Hn; [done|]. cbn [is_none negb].
  assert (Hno : inv (set_send n (SReturned SendFails) c)).
  { replace c with (set_writeReserved c.(writeReserved) c) by by destruct c. apply inv_call; auto. }
  destruct (_ || _); [intros [= <-]; exact Hno|]. unfold reserveHarnessWriteLocked.
  destruct (negb _ || _) eqn:Hr; [intros [= <-]; exact Hno|]. cbn. apply orb_false_iff in Hr as [_ Hr].
  destruct (is_none _); intros [= <-]; [|exact Hno]. apply inv_call; auto.
Qed.

Lemma turn_step_inv a c c' : inv c -> step a c = Some c' -> inv c'.
Proof.
  intros Hi Hs. destruct a; cbn [ChatTurn.step] in Hs;
    lazymatch type of Hs with
    | ChatTurn.send_step _ _ _ _ = _ => by eapply send_step_inv
    | ChatTurn.loop_step _ _ _ _ = _ => by eapply loop_step_inv
    | ChatTurn.watch_step _ _ = _ => by eapply watch_step_inv
    | ChatTurn.int_step _ _ _ = _ => eapply inv_core; [exact Hi|by eapply int_step_core]
    | ChatTurn.Interrupt _ _ _ = _ => eapply inv_core; [exact Hi|by eapply Interrupt_core]
    | ChatTurn.Send _ _ _ _ = _ => by eapply Send_inv
    | ChatTurn.judge _ _ _ _ _ _ _ _ _ = _ => by eapply inv_judge
    | ChatTurn.publishTurn _ _ = _ => by eapply inv_publish
    | ChatTurn.ending_done _ _ = _ => by eapply inv_ending_done
    | Some (set_drained _ _) = _ => injection Hs as <-; by apply inv_abandon
    | _ => injection Hs as <-; eapply inv_core; [exact Hi|core_step]
    end.
Qed.

Lemma opened_inv : inv opened.
Proof.
  constructor; try done.
  - intros tid (n & text & H). done.
  - left. split; [done|]. intros n pc H. done.
  - left. constructor.
Qed.

Lemma turns_inv c : reaches opened c -> inv c.
Proof. induction 1; [apply opened_inv|by eapply turn_step_inv]. Qed.

(** ** The order of events *)

End Steps.

(** ** A run *)

Lemma run_reaches resumeAtFrom anchored claudeUsageLimitRE extract harness holds interrupter xs c c0 c' :
  reaches resumeAtFrom anchored claudeUsageLimitRE extract harness holds interrupter c0 c ->
  run resumeAtFrom anchored claudeUsageLimitRE extract harness holds interrupter xs c = Some c' ->
  reaches resumeAtFrom anchored claudeUsageLimitRE extract harness holds interrupter c0 c'.
Proof.
  revert c. induction xs as [|x xs IH]; intros c Hc; cbn; [by intros [= <-]|].
  intros (c1 & H1 & H2)%bind_Some. eapply IH; [|exact H2]. by eapply reaches_step.
Qed.

(** A screen that matches nothing, and a transcript nobody can read. *)
Definition plain_run : list action -> conv -> option conv :=
  run (fun _ => None) (fun _ _ => false) (fun _ => None) None "claude-code" true true.
Definition plain_reaches : conv -> conv -> Prop :=
  reaches (fun _ => None) (fun _ _ => false) (fun _ => None) None "claude-code" true true.
Definition no_evidence : evidence := mkEvidence false "" None (Err NotExist) false (Err NotExist).

(** Send [n] of a conversation at rest begins turn [tid], up to its submit. *)
Definition sent (n tid : nat) (now : Z) : list action :=
  [ASend n "hi" true; AReady n IsReady; ALockComposer n true; AClearComposer n true; ABegin n; AUser n true;
   AAssistant n true now; ACurrent n].
Definition submitted (n tid : nat) (now : Z) : list action :=
  [ABeginSubmit n now; ALockPrompt n true; ACapture n "" false "" (Err NotExist); AWrite n true; ARelease n; ABusy (now + 1)].

(** A turn, stopped by an Interrupt; the harness exits. *)
Definition stopped_turn : list action :=
  (sent 0 0 10 ++ submitted 0 0 10 ++
   [AInterrupt 0; AIntLock 0 true; AIntWrite 0 true; AObserve (Some (false, "par")); AInterrupted 40; AJudge 0 no_evidence no_evidence;
    APublish 0; ADone 0; AIntEnded 0 true; AIntFinish 0; AExit "completed"; AExitClaim 50; AExitLast])%list.

Definition stopped : conv := default opened (plain_run stopped_turn opened).

Example stopped_log : List.map (fun ev => match ev with EvTerminal _ t => t.(State) | EvExited s => s | _ => "" end) stopped.(log)
  = [""; ""; TurnStateInterrupted; "completed"].
Proof. vm_compute. reflexivity. Qed.

Lemma plain_reached xs c : plain_run xs opened = Some c -> plain_reaches opened c.
Proof. apply run_reaches, reaches_refl. Qed.

Lemma stopped_reached : plain_reaches opened stopped.
Proof. apply (plain_reached stopped_turn). vm_compute. reflexivity. Qed.


(** ** Races *)

(** What a client sees of the events: the turn, its state and reason. *)
Definition seen (c : conv) : list (nat * string * string) :=
  omap (fun ev => match ev with
                  | EvPending i => Some (i, TurnStatePending, "")
                  | EvTerminal i t | EvRefused i t => Some (i, t.(State), t.(Reason))
                  | _ => None
                  end) c.(log).

Definition ends (tid : nat) : list action := [AJudge tid no_evidence no_evidence; APublish tid; ADone tid].

(** A turn held on a Blocked, which the idle watcher has claimed. *)
Definition held_turn : list action :=
  (sent 0 0 10 ++ submitted 0 0 10 ++
   [ATurnsEvent (Blocked (mkEnd 40 "usage limit" 0 0 None)); AIdleLook; AIdleMarker false;
    AIdleCheck true true "screen"; AIdleCommit false 50])%list.

(** Ended by the watcher alone, a held turn is errored with the reason it was
    held on; when a Send begins the next turn between the claim and the
    watcher's reading of that reason, the same turn is reported complete, after
    the next one's pending event. *)
Theorem begun_turn_clears_held :
  seen <$> plain_run (held_turn ++ ends 0) opened = Some [(0, TurnStatePending, ""); (0, TurnStateErrored, "usage limit")] /\
  seen <$> plain_run (held_turn ++ sent 1 1 60 ++ ends 0) opened =
    Some [(0, TurnStatePending, ""); (1, TurnStatePending, "");
          (0, TurnStateComplete, "claude-code: idle-completion fallback (end-of-turn marker not observed)")].
Proof. split; vm_compute; reflexivity. Qed.

(** A Send that meets the auth wall while the harness exits answers a turn no
    event is ever queued about: EventExited does not wait for it. *)
Theorem refused_turn_dropped :
  (fun c => (c.(sends) !! 0, seen c, List.map is_exit c.(log))) <$>
    plain_run [ASend 0 "hi" true; AReady 0 AuthWall; AExit "failed"; AExitClaim 20; AExitLast; AUser 0 true;
               AAssistant 0 true 30; ARelease 0] opened =
  Some (Some (SReturned (Sent 0)), [], [true]).
Proof. vm_compute. reflexivity. Qed.
