(* ===== verification/ChatInterrupt.v ===== *)
(** What Interrupt answers agrees with what became of its turn, over every
    interleaving of a conversation's threads. *)
From Stdlib Require Import ZArith Ascii String Lia.
From stdpp Require Import base tactics list strings option gmap.
From S2P Require Import Prelude GoStr HarnessName Verdict VerdictProps ChatTurn ChatTurnProps.

#[local] Open Scope string_scope.
#[local] Open Scope go_scope.
#[local] Open Scope nat_scope.

(** ** The invariant *)

(** The turn was in flight, and is being or has been ended so. *)
Definition known (c : conv) (tid : nat) : Prop :=
  exists t, c.(turns) !! tid = Some t /\ t.(t_phase) <> Recorded /\ t.(t_phase) <> Refused.
Definition fate_of (c : conv) (tid : nat) : option how := c.(turns) !! tid ≫= fate.

(** [m] runs the op, and will finish it. *)
Definition owns (c : conv) (m o : nat) : Prop :=
  c.(ints) !! m = Some (ILocking (Some o)) \/ c.(ints) !! m = Some (IRunning o) \/ exists r, c.(ints) !! m = Some (IFinishing o r).

Definition live (c : conv) (o : nat) (x : interruptOp) : Prop := c.(ops) !! o = Some x /\ x.(op_result) = None.

(** The answer [r] for a turn ended as [k] says. *)
Definition agrees (r : int_result) (k : how) : Prop :=
  match r with
  | IRes InterruptTooLate => interrupted_by k = None
  | IRes InterruptNoTurn => False
  | IRes r => interrupted_by k = Some r
  | IComposer => interrupted_by k = Some InterruptCancelled
  | IFails => True
  end.

Definition answered (c : conv) (tid : nat) (r : int_result) : Prop :=
  r = IFails \/ exists k, fate_of c tid = Some k /\ agrees r k.

Record jinv (c : conv) : Prop := mkJinv {
  j_fresh : forall o x, c.(ops) !! o = Some x -> o < c.(next);
  j_known : forall o x, c.(ops) !! o = Some x -> known c x.(op_turn);
  j_outcome : forall o x r, c.(ops) !! o = Some x -> x.(outcome) = Some r ->
    (r = InterruptStopped \/ r = InterruptCancelled) /\
    exists k, fate_of c x.(op_turn) = Some k /\ interrupted_by k = Some r;
  j_told : forall o x k, live c o x -> fate_of c x.(op_turn) = Some k -> interrupted_by k = x.(outcome);
  j_current : forall o x, live c o x -> c.(currentTurn) = Some x.(op_turn) -> c.(interrupt) = Some o;
  j_owned : forall m o, owns c m o -> exists x, live c o x;
  j_sole : forall m m' o, owns c m o -> owns c m' o -> m = m';
  j_result : forall o x r, c.(ops) !! o = Some x -> x.(op_result) = Some r -> answered c x.(op_turn) r;
  j_finishing : forall m o r x, c.(ints) !! m = Some (IFinishing o r) -> c.(ops) !! o = Some x -> answered c x.(op_turn) r;
  j_returned : forall m o r, c.(ints) !! m = Some (IReturned (Some o) r) ->
    exists x, c.(ops) !! o = Some x /\ answered c x.(op_turn) r;
  j_joined : forall m o, c.(ints) !! m = Some (IJoined o) -> is_Some (c.(ops) !! o) }.

(** ** Steps that touch no Interrupt *)

Record jframe (c c' : conv) : Prop := mkJframe {
  jf_ops : c'.(ops) = c.(ops); jf_ints : c'.(ints) = c.(ints); jf_interrupt : c'.(interrupt) = c.(interrupt);
  jf_next : c.(next) <= c'.(next);
  jf_known : forall tid, known c tid -> known c' tid;
  jf_fate : forall tid, known c tid -> fate_of c' tid = fate_of c tid;
  jf_current : forall tid, known c tid -> c'.(currentTurn) = Some tid -> c.(currentTurn) = Some tid }.

Lemma fate_known c tid k : fate_of c tid = Some k -> known c tid.
Proof.
  unfold fate_of, known. intros (t & Ht & Hf)%bind_Some. exists t. split; [done|]. unfold fate in Hf. by destruct (t_phase t).
Qed.

Lemma answered_frame c c' tid r : jframe c c' -> answered c tid r -> answered c' tid r.
Proof.
  intros Hf [?|(k & Hk & ?)]; [by left|right]. exists k. split; [|done]. rewrite (jf_fate _ _ Hf); [done|by eapply fate_known].
Qed.

Lemma jinv_frame c c' : jinv c -> jframe c c' -> jinv c'.
Proof.
  intros Hj Hf. assert (Hlive : forall o x, live c' o x <-> live c o x) by (intros; unfold live; by rewrite (jf_ops _ _ Hf)).
  assert (Howns : forall m o, owns c' m o <-> owns c m o) by (intros; unfold owns; by rewrite (jf_ints _ _ Hf)).
  constructor.
  - intros o x. rewrite (jf_ops _ _ Hf). intros H%(j_fresh _ Hj). pose proof (jf_next _ _ Hf). lia.
  - intros o x. rewrite (jf_ops _ _ Hf). intros H. by apply (jf_known _ _ Hf), (j_known _ Hj o x).
  - intros o x r. rewrite (jf_ops _ _ Hf). intros Hx Hr. destruct (j_outcome _ Hj o x r Hx Hr) as (H1 & k & Hk & H2).
    split; [done|]. exists k. split; [|done]. rewrite (jf_fate _ _ Hf); [done|by eapply fate_known].
  - intros o x k Hx%Hlive. rewrite (jf_fate _ _ Hf) by (eapply (j_known _ Hj); apply Hx). by apply (j_told _ Hj o x k).
  - intros o x Hx%Hlive Hc. rewrite (jf_interrupt _ _ Hf). apply (j_current _ Hj o x Hx).
    apply (jf_current _ _ Hf); [|done]. eapply (j_known _ Hj); apply Hx.
  - intros m o Ho%Howns. destruct (j_owned _ Hj m o Ho) as [x Hx]. exists x. by apply Hlive.
  - intros m m' o H1%Howns H2%Howns. by apply (j_sole _ Hj m m' o).
  - intros o x r. rewrite (jf_ops _ _ Hf). intros H1 H2. eapply answered_frame; [exact Hf|]. by apply (j_result _ Hj o).
  - intros m o r x. rewrite (jf_ops _ _ Hf), (jf_ints _ _ Hf). intros H1 H2. eapply answered_frame; [exact Hf|]. by apply (j_finishing _ Hj m o).
  - intros m o r. rewrite (jf_ops _ _ Hf), (jf_ints _ _ Hf). intros H. destruct (j_returned _ Hj m o r H) as (x & Hx & Ha).
    exists x. split; [done|]. by eapply answered_frame.
  - intros m o. rewrite (jf_ops _ _ Hf), (jf_ints _ _ Hf). apply (j_joined _ Hj).
Qed.

(** No turn, op or Interrupt is touched. *)
Lemma jframe_same c c' : c'.(ops) = c.(ops) -> c'.(ints) = c.(ints) -> c'.(interrupt) = c.(interrupt) -> c.(next) <= c'.(next) ->
  c'.(turns) = c.(turns) -> c'.(currentTurn) = c.(currentTurn) -> jframe c c'.
Proof. intros H1 H2 H3 H4 H5 H6. constructor; unfold known, fate_of; rewrite ?H5, ?H6; auto. Qed.

Lemma jframe_refl c : jframe c c.
Proof. by apply jframe_same. Qed.

Lemma jframe_trans c1 c2 c3 : jframe c1 c2 -> jframe c2 c3 -> jframe c1 c3.
Proof.
  intros H1 H2. constructor.
  - by rewrite (jf_ops _ _ H2), (jf_ops _ _ H1).
  - by rewrite (jf_ints _ _ H2), (jf_ints _ _ H1).
  - by rewrite (jf_interrupt _ _ H2), (jf_interrupt _ _ H1).
  - pose proof (jf_next _ _ H1). pose proof (jf_next _ _ H2). lia.
  - intros tid H. by apply (jf_known _ _ H2), (jf_known _ _ H1).
  - intros tid H. rewrite (jf_fate _ _ H2); [by apply (jf_fate _ _ H1)|by apply (jf_known _ _ H1)].
  - intros tid H Hc. apply (jf_current _ _ H1); [done|]. apply (jf_current _ _ H2); [by apply (jf_known _ _ H1)|done].
Qed.

(** One turn's record changes, its fate does not. *)
Lemma jframe_turn tid t t' c : c.(turns) !! tid = Some t -> fate t' = fate t ->
  (t.(t_phase) <> Recorded -> t.(t_phase) <> Refused -> t'.(t_phase) <> Recorded /\ t'.(t_phase) <> Refused) ->
  jframe c (set_turn tid t' c).
Proof.
  intros Ht Hf Hp. constructor; try done.
  - intros i (x & Hx & H1 & H2). unfold known. cbn. destruct (decide (i = tid)) as [->|Hne].
    + exists t'. rewrite lookup_insert_eq. simplify_eq. destruct (Hp H1 H2). auto.
    + exists x. by rewrite lookup_insert_ne.
  - intros i _. unfold fate_of. cbn. destruct (decide (i = tid)) as [->|Hne].
    + by rewrite lookup_insert_eq, Ht.
    + by rewrite lookup_insert_ne.
Qed.

(** A turn nobody knows yet. *)
Lemma jframe_new tid t c : c.(turns) !! tid = None -> jframe c (set_turn tid t c).
Proof.
  intros Ht. constructor; try done.
  - intros i (x & Hx & H). exists x. cbn. rewrite lookup_insert_ne; [done|]. intros <-. congruence.
  - intros i (x & Hx & H). unfold fate_of. cbn. rewrite lookup_insert_ne; [done|]. intros <-. congruence.
Qed.

Ltac same := (apply jframe_same; cbn; try done; try lia).

Lemma jframe_emit ev c : jframe c (emit ev c).
Proof. unfold emit. destruct (drained c); same. Qed.

(** ** A claim *)

(** The ops as a claim leaves them: those of the turn claimed may have learnt
    how the interrupt ended it, and the one that runs has. *)
Record told (c c' : conv) (tid : nat) (k : how) : Prop := mkTold {
  tl_back : forall o x', c'.(ops) !! o = Some x' -> exists x, c.(ops) !! o = Some x /\ x'.(op_turn) = x.(op_turn) /\
    x'.(op_result) = x.(op_result) /\
    (x'.(outcome) = x.(outcome) \/ x.(op_turn) = tid /\ x'.(outcome) = interrupted_by k);
  tl_live : forall o x', live c' o x' -> x'.(op_turn) = tid -> x'.(outcome) = interrupted_by k;
  tl_same : forall o x, c.(ops) !! o = Some x -> exists x', c'.(ops) !! o = Some x' /\ x'.(op_turn) = x.(op_turn) /\ x'.(op_result) = x.(op_result) }.

Lemma jinv_claimed c c' tid t o k : jinv c -> c.(turns) !! tid = Some t -> t.(t_phase) = Flight ->
  (forall r, interrupted_by k = Some r -> r = InterruptStopped \/ r = InterruptCancelled) ->
  c'.(turns) = <[tid := mkTrec t.(t_turn) (Claimed o k)]> c.(turns) -> c'.(currentTurn) = None ->
  c'.(ints) = c.(ints) -> c'.(next) = c.(next) -> told c c' tid k -> jinv c'.
Proof.
  intros Hj Ht Hp Hk Et Ec Ei En Htold.
  assert (Hkn : forall i, known c i -> known c' i).
  { intros i (x & Hx & H). unfold known. rewrite Et. destruct (decide (i = tid)) as [->|Hne].
    - eexists. rewrite lookup_insert_eq. split; [done|]. cbn. by simplify_eq.
    - exists x. by rewrite lookup_insert_ne. }
  assert (Hft : fate_of c' tid = Some k) by (unfold fate_of; by rewrite Et, lookup_insert_eq).
  assert (Hf0 : fate_of c tid = None) by (unfold fate_of; rewrite Ht; cbn; unfold fate; by rewrite Hp).
  assert (Hfo : forall i, i <> tid -> fate_of c' i = fate_of c i) by (intros i Hne; unfold fate_of; by rewrite Et, lookup_insert_ne).
  assert (Hfs : forall i k', fate_of c i = Some k' -> fate_of c' i = Some k').
  { intros i k' H. rewrite Hfo; [done|]. intros ->. congruence. }
  assert (Hans : forall i r, answered c i r -> answered c' i r) by (intros i r [?|(k' & ? & ?)]; [by left|right; eauto]).
  constructor.
  - intros i x (y & Hy & _)%(tl_back _ _ _ _ Htold). rewrite En. by apply (j_fresh _ Hj i y).
  - intros i x (y & Hy & -> & _)%(tl_back _ _ _ _ Htold). by apply Hkn, (j_known _ Hj i).
  - intros i x r (y & Hy & -> & _ & [Ho|[Hy' Ho]])%(tl_back _ _ _ _ Htold) Hr; rewrite Ho in Hr.
    + destruct (j_outcome _ Hj i y r Hy Hr) as (? & k' & ? & ?). eauto.
    + split; [by apply Hk|]. exists k. by rewrite Hy'.
  - intros i x k' Hl Hf'. destruct (decide (x.(op_turn) = tid)) as [E|Hne].
    + rewrite (tl_live _ _ _ _ Htold i x Hl E). rewrite E in Hf'. by simplify_eq.
    + destruct (tl_back _ _ _ _ Htold i x (proj1 Hl)) as (y & Hy & Hyt & Hyr & [Ho|[? _]]); [|congruence].
      rewrite Hfo in Hf' by done. rewrite Ho. apply (j_told _ Hj i y); [|congruence]. split; [done|]. rewrite <- Hyr. apply Hl.
  - intros i x _ H. congruence.
  - intros m i H. assert (Ho : owns c m i) by (unfold owns in *; by rewrite Ei in H).
    destruct (j_owned _ Hj m i Ho) as (x & Hx & Hr). destruct (tl_same _ _ _ _ Htold i x Hx) as (x' & Hx' & _ & Hr').
    exists x'. split; [done|]. congruence.
  - intros m m' i H H'. unfold owns in *. rewrite Ei in *. by apply (j_sole _ Hj m m' i).
  - intros i x r (y & Hy & -> & Hyr & _)%(tl_back _ _ _ _ Htold) Hr. apply Hans, (j_result _ Hj i y); congruence.
  - intros m i r x H. rewrite Ei in H. intros (y & Hy & -> & _)%(tl_back _ _ _ _ Htold). by apply Hans, (j_finishing _ Hj m i r y).
  - intros m i r H. rewrite Ei in H. destruct (j_returned _ Hj m i r H) as (x & Hx & Ha).
    destruct (tl_same _ _ _ _ Htold i x Hx) as (x' & Hx' & Ht' & _). exists x'. rewrite Ht'. auto.
  - intros m i H. rewrite Ei in H. destruct (j_joined _ Hj m i H) as [x Hx].
    destruct (tl_same _ _ _ _ Htold i x Hx) as (x' & ? & _). by eexists.
Qed.

(** A claim that is no interrupt tells nobody anything. *)
Lemma told_silent c c' tid t k : jinv c -> c.(turns) !! tid = Some t -> t.(t_phase) = Flight ->
  interrupted_by k = None -> c'.(ops) = c.(ops) -> told c c' tid k.
Proof.
  intros Hj Ht Hp Hk Eo. constructor; unfold live; rewrite Eo.
  - intros o x Hx. exists x. auto.
  - intros o x [Hx _] <-. rewrite Hk. destruct (outcome x) as [r|] eqn:Hr; [|done].
    destruct (j_outcome _ Hj o x r Hx Hr) as (_ & k' & Hf & _). unfold fate_of, fate in Hf. rewrite Ht in Hf. cbn in Hf. by rewrite Hp in Hf.
  - intros o x Hx. exists x. auto.
Qed.

Lemma jinv_claim o k tid c c1 : inv c -> jinv c -> claimTurnLocked o k c = Some (tid, c1) -> interrupted_by k = None -> jinv c1.
Proof.
  intros Hi Hj Hc Hk. unfold claimTurnLocked in Hc. destruct (currentTurn c) as [tid'|] eqn:Hcur; [|done]. injection Hc as -> <-.
  destruct (inv_current _ Hi tid Hcur) as (t & Ht & Hp).
  rewrite (at_phase_turns tid (Claimed o k) (set_currentTurn None (set_ending (S (ending c)) c)) t Ht).
  eapply jinv_claimed; try done; [intros r; congruence|by eapply told_silent].
Qed.

(** ** Steps of an Interrupt *)

Definition owning (pc : int_pc) : option nat :=
  match pc with ILocking o => o | IRunning o | IFinishing o _ => Some o | _ => None end.

Lemma owns_owning c m o : owns c m o <-> exists pc, c.(ints) !! m = Some pc /\ owning pc = Some o.
Proof.
  unfold owns. split.
  - intros [H|[H|[r H]]]; eauto.
  - intros (pc & H & Ho). destruct pc as [[]| | | | |]; cbn in Ho; simplify_eq; eauto.
Qed.

(** The thread moves and takes no op it did not have; what it is about to
    answer, or answers, agrees. *)
Lemma jinv_int m pc c : jinv c ->
  (forall o, owning pc = Some o -> owns c m o) ->
  (forall o r x, pc = IFinishing o r -> c.(ops) !! o = Some x -> answered c x.(op_turn) r) ->
  (forall o r, pc = IReturned (Some o) r -> exists x, c.(ops) !! o = Some x /\ answered c x.(op_turn) r) ->
  (forall o, pc = IJoined o -> is_Some (c.(ops) !! o)) -> jinv (set_int m pc c).
Proof.
  intros Hj Ho Hf Hr Hjn.
  assert (Hl : forall k x, (set_int m pc c).(ints) !! k = Some x -> (k = m /\ x = pc) \/ (k <> m /\ c.(ints) !! k = Some x)).
  { intros k x. cbn. rewrite lookup_insert_Some. naive_solver. }
  assert (Hown : forall k o, owns (set_int m pc c) k o -> owns c k o).
  { intros k o (x & [[-> ->]|[_ Hx]]%Hl & Hx')%owns_owning; [by apply Ho|]. apply owns_owning. eauto. }
  constructor; try apply Hj.
  - intros k o H%Hown. by apply (j_owned _ Hj k).
  - intros k k' o H%Hown H'%Hown. by apply (j_sole _ Hj k k' o).
  - intros k o r x [[-> E]|[_ Hx]]%Hl Hox; [by apply (Hf o r x)|by apply (j_finishing _ Hj k o r x)].
  - intros k o r [[-> E]|[_ Hx]]%Hl; [by apply Hr|by apply (j_returned _ Hj k o r)].
  - intros k o [[-> E]|[_ Hx]]%Hl; [by apply Hjn|by apply (j_joined _ Hj k o)].
Qed.

(** An op is changed in nothing but its keys being written. *)
Lemma jinv_written o x b c : jinv c -> c.(ops) !! o = Some x ->
  jinv (set_op o (mkOp x.(op_turn) b x.(outcome) x.(op_result)) c).
Proof.
  intros Hj Hx.
  assert (Hl : forall i y, (set_op o (mkOp x.(op_turn) b x.(outcome) x.(op_result)) c).(ops) !! i = Some y ->
    exists z, c.(ops) !! i = Some z /\ y.(op_turn) = z.(op_turn) /\ y.(outcome) = z.(outcome) /\ y.(op_result) = z.(op_result)).
  { intros i y. cbn. rewrite lookup_insert_Some. intros [[<- <-]|[_ ?]]; eauto. }
  assert (Hs : forall i z, c.(ops) !! i = Some z -> exists y, (set_op o (mkOp x.(op_turn) b x.(outcome) x.(op_result)) c).(ops) !! i = Some y /\
    y.(op_turn) = z.(op_turn) /\ y.(op_result) = z.(op_result)).
  { intros i z Hz. cbn. destruct (decide (i = o)) as [->|Hne].
    - rewrite lookup_insert_eq. simplify_eq. eauto.
    - rewrite lookup_insert_ne by done. eauto. }
  constructor.
  - intros i y (z & Hz & _)%Hl. by apply (j_fresh _ Hj i z).
  - intros i y (z & Hz & -> & _)%Hl. by apply (j_known _ Hj i).
  - intros i y r (z & Hz & -> & -> & _)%Hl. by apply (j_outcome _ Hj i).
  - intros i y k [(z & Hz & -> & -> & Hr)%Hl Hy]. apply (j_told _ Hj i z). split; congruence.
  - intros i y [(z & Hz & -> & _ & Hr)%Hl Hy]. apply (j_current _ Hj i z). split; congruence.
  - intros m i Ho. destruct (j_owned _ Hj m i Ho) as (z & Hz & Hr). destruct (Hs i z Hz) as (y & Hy & _ & Hry).
    exists y. split; congruence.
  - apply (j_sole _ Hj).
  - intros i y r (z & Hz & -> & _ & ->)%Hl. by apply (j_result _ Hj i).
  - intros m i r y Hi (z & Hz & -> & _)%Hl. by apply (j_finishing _ Hj m i r z).
  - intros m i r Hi. destruct (j_returned _ Hj m i r Hi) as (z & Hz & Ha). destruct (Hs i z Hz) as (y & Hy & Ht & _).
    exists y. by rewrite Ht.
  - intros m i Hi. destruct (j_joined _ Hj m i Hi) as [z Hz]. destruct (Hs i z Hz) as (y & Hy & _). by exists y.
Qed.

(** A new op, for the turn in flight, which has none under way. *)
Lemma jinv_register m pc tid c : jinv c -> c.(currentTurn) = Some tid -> known c tid -> fate_of c tid = None ->
  (forall o x, live c o x -> x.(op_turn) <> tid) -> (forall o, ~ owns c m o) ->
  pc = ILocking (Some c.(next)) \/ pc = IRunning c.(next) ->
  jinv (set_int m pc (set_next (S c.(next)) (set_interrupt (Some c.(next)) (set_op c.(next) (mkOp tid false None None) c)))).
Proof.
  intros Hj Hcur Hk Hf Hno Hm Hpc. set (o := c.(next)) in *. set (c' := set_int m pc _).
  assert (Hfree : c.(ops) !! o = None).
  { destruct (ops c !! o) eqn:E; [|done]. apply (j_fresh _ Hj) in E. unfold o in E. lia. }
  assert (Hl : forall i y, c'.(ops) !! i = Some y <-> (i = o /\ y = mkOp tid false None None) \/ (i <> o /\ c.(ops) !! i = Some y)).
  { intros i y. unfold c'. cbn. rewrite lookup_insert_Some. naive_solver. }
  assert (Hi : forall k x, c'.(ints) !! k = Some x <-> (k = m /\ x = pc) \/ (k <> m /\ c.(ints) !! k = Some x)).
  { intros k x. unfold c'. cbn. rewrite lookup_insert_Some. naive_solver. }
  assert (Hown : forall k i, owns c' k i <-> (k = m /\ i = o) \/ (k <> m /\ owns c k i)).
  { intros k i. rewrite !owns_owning. split.
    - intros (x & [[-> ->]|[Hne Hx]]%Hi & Hx'); [left|right; split; eauto]. split; [done|]. by destruct Hpc as [-> | ->]; cbn in Hx'; simplify_eq.
    - intros [[-> ->]|[Hne (x & Hx & Hx')]]; [exists pc|exists x]; rewrite Hi; [|auto]. split; [auto|]. by destruct Hpc as [-> | ->]. }
  assert (Hne : forall k i, owns c k i -> i <> o) by (intros k i (x & Hx & _)%(j_owned _ Hj) ->; congruence).
  constructor.
  - intros i y [[-> _]|[_ Hy]]%Hl; [|apply (j_fresh _ Hj) in Hy]; unfold c', o in *; cbn; lia.
  - intros i y [[-> ->]|[_ Hy]]%Hl; [done|by apply (j_known _ Hj i)].
  - intros i y r [[-> ->]|[_ Hy]]%Hl; [done|by apply (j_outcome _ Hj i)].
  - intros i y k [[[-> ->]|[_ Hy]]%Hl Hr] Hft; [change (fate_of c tid = Some k) in Hft; congruence|by apply (j_told _ Hj i y k)].
  - intros i y [[[-> ->]|[_ Hy]]%Hl Hr] Hc; [done|]. exfalso. change (currentTurn c = Some (op_turn y)) in Hc.
    apply (Hno i y); [done|congruence].
  - intros k i [[-> ->]|[_ Ho]]%Hown; [exists (mkOp tid false None None); split; [apply Hl; auto|done]|].
    destruct (j_owned _ Hj k i Ho) as (x & Hx & Hr). exists x. split; [|done]. apply Hl. right. split; [by eapply Hne|done].
  - intros k k' i [[-> ->]|[Hk1 H1]]%Hown [[-> H2]|[Hk2 H2]]%Hown; [done|by apply Hne in H2|subst; by apply Hne in H1|by apply (j_sole _ Hj k k' i)].
  - intros i y r [[-> ->]|[_ Hy]]%Hl Hr; [done|by apply (j_result _ Hj i)].
  - intros k i r y [[-> E]|[_ Hx]]%Hi [[-> ->]|[_ Hy]]%Hl; try (by destruct Hpc; congruence).
    + exfalso. apply (Hne k o); [|done]. apply owns_owning. eauto.
    + by apply (j_finishing _ Hj k i r y).
  - intros k i r [[-> E]|[_ Hx]]%Hi; [by destruct Hpc; congruence|]. destruct (j_returned _ Hj k i r Hx) as (y & Hy & Ha).
    exists y. split; [|done]. apply Hl. right. split; [|done]. intros ->. congruence.
  - intros k i [[-> E]|[_ Hx]]%Hi; [by destruct Hpc; congruence|]. destruct (j_joined _ Hj k i Hx) as [y Hy].
    exists y. apply Hl. right. split; [|done]. intros ->. congruence.
Qed.

(** finishInterruptOp. *)
Lemma jinv_finish m o r c : jinv c -> c.(ints) !! m = Some (IFinishing o r) -> jinv (finishInterruptOp m o r c).
Proof.
  intros Hj Hm. assert (Hown : owns c m o) by (right; right; eauto).
  destruct (j_owned _ Hj m o Hown) as (x & Hx & Hxr). pose proof (j_finishing _ Hj m o r x Hm Hx) as Hans.
  unfold finishInterruptOp.
  set (c1 := if bool_decide (interrupt c = Some o) then set_interrupt None c else c).
  assert (Hc1 : c1.(ops) = c.(ops) /\ c1.(ints) = c.(ints) /\ c1.(next) = c.(next) /\ c1.(turns) = c.(turns) /\ c1.(currentTurn) = c.(currentTurn) /\
    (forall i, i <> o -> c.(interrupt) = Some i -> c1.(interrupt) = Some i)).
  { unfold c1. case_bool_decide; split_and!; try done. intros i Hne H'. congruence. }
  destruct Hc1 as (E1 & E2 & E3 & E4 & E5 & E6). clearbody c1. rewrite E1, Hx.
  set (y := mkOp _ _ _ _). set (c' := set_int m _ _).
  assert (Hl : forall i z, c'.(ops) !! i = Some z <-> (i = o /\ z = y) \/ (i <> o /\ c.(ops) !! i = Some z)).
  { intros i z. unfold c'. cbn. rewrite E1, lookup_insert_Some. naive_solver. }
  assert (Hi : forall k pc, c'.(ints) !! k = Some pc <-> (k = m /\ pc = IReturned (Some o) r) \/ (k <> m /\ c.(ints) !! k = Some pc)).
  { intros k pc. unfold c'. cbn. rewrite E2, lookup_insert_Some. naive_solver. }
  assert (Hf : forall i, fate_of c' i = fate_of c i) by (intros i; unfold fate_of, c'; cbn; by rewrite E4).
  assert (Hans' : forall i q, answered c i q -> answered c' i q) by (intros i q [?|(k & ? & ?)]; [by left|right; exists k; by rewrite Hf]).
  assert (Ho : forall k i, owns c' k i -> k <> m /\ owns c k i).
  { intros k i (pc & [[-> ->]|[Hne Hpc]]%Hi & Hp)%owns_owning; [done|]. split; [done|]. apply owns_owning. eauto. }
  constructor.
  - intros i z [[-> ->]|[_ Hz]]%Hl; unfold c'; cbn; rewrite E3; [by apply (j_fresh _ Hj o x)|by apply (j_fresh _ Hj i z)].
  - intros i z Hz. enough (known c z.(op_turn)) as H by (unfold known, c' in *; cbn; by rewrite E4).
    apply Hl in Hz as [[-> ->]|[_ Hz]]; [by apply (j_known _ Hj o x)|by apply (j_known _ Hj i z)].
  - intros i z q [[-> ->]|[_ Hz]]%Hl Hq; rewrite Hf; [by apply (j_outcome _ Hj o x)|by apply (j_outcome _ Hj i z)].
  - intros i z k [[[-> ->]|[_ Hz]]%Hl Hr]; [done|]. rewrite Hf. by apply (j_told _ Hj i z).
  - intros i z [[[-> ->]|[Hne Hz]]%Hl Hr] Hc; [done|]. unfold c' in Hc |- *. cbn in *. rewrite E5 in Hc. apply E6; [done|].
    by apply (j_current _ Hj i z).
  - intros k i Hk. destruct (Ho k i Hk) as [Hne Hk']. destruct (j_owned _ Hj k i Hk') as (z & Hz & Hr).
    exists z. split; [|done]. apply Hl. right. split; [|done]. intros ->. apply Hne. by apply (j_sole _ Hj k m o).
  - intros k k' i [_ H1]%Ho [_ H2]%Ho. by apply (j_sole _ Hj k k' i).
  - intros i z q [[-> ->]|[_ Hz]]%Hl Hq; apply Hans'; [cbn in Hq; by simplify_eq|by apply (j_result _ Hj i z)].
  - intros k i q z [[-> ?]|[_ Hk]]%Hi [[-> ->]|[_ Hz]]%Hl; try done; apply Hans'; [by apply (j_finishing _ Hj k o q x)|by apply (j_finishing _ Hj k i q z)].
  - intros k i q [[-> [= -> ->]]|[_ Hk]]%Hi.
    + exists y. split; [apply Hl; auto|]. by apply Hans'.
    + destruct (j_returned _ Hj k i q Hk) as (z & Hz & Ha). destruct (decide (i = o)) as [->|Hne].
      * exists y. split; [apply Hl; auto|]. simplify_eq. by apply Hans'.
      * exists z. split; [apply Hl; auto|]. by apply Hans'.
  - intros k i [[-> ?]|[_ Hk]]%Hi; [done|]. destruct (j_joined _ Hj k i Hk) as [z Hz].
    destruct (decide (i = o)) as [->|Hne]; [exists y|exists z]; apply Hl; auto.
Qed.

(** ** Every step keeps it *)

Section Steps.
Context (resumeAtFrom : string -> option Z) (anchored : string -> string -> bool)
  (claudeUsageLimitRE : string -> option string) (extract : option (string -> option string)).
Context (harness : string) (holds interrupter : bool).

Notation step := (step resumeAtFrom anchored claudeUsageLimitRE extract harness holds interrupter).
Notation reaches := (reaches resumeAtFrom anchored claudeUsageLimitRE extract harness holds interrupter).

Lemma Send_frame n text held c c' : Send n text held c = Some c' -> jframe c c'.
Proof.
  unfold Send, reserveHarnessWriteLocked. intros H. repeat (case_match; simplify_eq; try done); same.
Qed.

Lemma wall_user_frame n text ok c : jframe c (wall_user n text ok c).
Proof.
  unfold wall_user. destruct ok; [|same]. eapply jframe_trans; [|eapply jframe_trans; [apply jframe_emit|same]]. same.
Qed.

Lemma new_turn_frame n pc ev t c : inv c ->
  jframe c (set_send n pc (emit ev (set_next (S c.(next)) (set_turn c.(next) t c)))).
Proof.
  intros Hi. eapply jframe_trans; [by apply jframe_new, next_free|].
  eapply jframe_trans; [|eapply jframe_trans; [apply jframe_emit|same]]. same.
Qed.

Lemma make_current_frame n text tid c : inv c -> c.(sends) !! n = Some (SAnnounced text tid) ->
  jframe c (make_current n text tid c).
Proof.
  intros Hi Hn. destruct (inv_announced _ Hi tid) as (t & Ht & Hp); [by exists n, text|].
  unfold make_current. rewrite (at_phase_turns tid Flight c t Ht).
  assert (Hne : forall i, known c i -> i <> tid) by (intros i (x & Hx & Hr & _) ->; congruence).
  constructor; try done.
  - intros i Hk. pose proof (Hne i Hk). destruct Hk as (x & Hx & Hr). exists x. cbn. by rewrite lookup_insert_ne.
  - intros i Hk. unfold fate_of. cbn. rewrite lookup_insert_ne; [done|]. by apply not_eq_sym, Hne.
  - intros i Hk. cbn. intros [= ->]. by destruct (Hne i Hk).
Qed.

Lemma failSubmit_jinv n tid err now c : inv c -> jinv c -> jinv (failSubmit n tid err now c).
Proof.
  intros Hi Hj. unfold failSubmit. case_match eqn:E; [|eapply jinv_frame; [exact Hj|same]].
  destruct p as [i c1]. case_bool_decide; [|done].
  eapply jinv_frame; [by eapply jinv_claim|same].
Qed.

Lemma send_step_jinv n a c c' : inv c -> jinv c -> send_step interrupter n a c = Some c' -> jinv c'.
Proof.
  intros Hi Hj. unfold send_step, lock_composer, lock_prompt, lock_submit.
  destruct a; try done; destruct (sends c !! n) as [pc|] eqn:Hn; try done; destruct pc; try done; intros H.
  all: try (injection H as <-; first [by apply failSubmit_jinv | eapply jinv_frame; [exact Hj|]]).
  - unfold waitReadyForSend. same.
  - eapply jinv_frame; [exact Hj|]. repeat (case_match; simplify_option_eq; try done); same.
  - unfold clear_composer. same.
  - unfold begin_check. case_match; same.
  - by apply wall_user_frame.
  - unfold append_user. destruct ok; [|same]. eapply jframe_trans; [apply jframe_emit|same].
  - unfold wall_assistant. destruct ok; [by apply new_turn_frame|same].
  - unfold append_assistant. destruct ok; [by apply new_turn_frame|same].
  - by apply make_current_frame.
  - unfold begin_submit. same.
  - eapply jinv_frame; [exact Hj|]. repeat (case_match; simplify_option_eq; try done); same.
  - unfold capture. same.
  - unfold write_prompt. same.
  - unfold releaseHarnessWrite. same.
Qed.

Lemma judge_frame tid e e' c c' :
  judge resumeAtFrom anchored claudeUsageLimitRE extract harness tid e e' c = Some c' -> jframe c c'.
Proof.
  unfold judge. destruct (turns c !! tid) as [[t p]|] eqn:Ht; [|done]. destruct p; try done. intros [= <-].
  by eapply jframe_turn.
Qed.

Lemma publish_frame tid c c' : publishTurn tid c = Some c' -> jframe c c'.
Proof.
  unfold publishTurn. destruct (turns c !! tid) as [[t p]|] eqn:Ht; [|done]. destruct p; try done. intros [= <-].
  eapply jframe_trans; [|apply jframe_emit]. by apply (jframe_turn tid _ (mkTrec t (Emitted o k)) c Ht).
Qed.

Lemma ending_done_frame tid c c' : ending_done tid c = Some c' -> jframe c c'.
Proof.
  unfold ending_done. destruct (turns c !! tid) as [[t p]|] eqn:Ht; [|done]. destruct p as [| | | |o k| |]; try done. intros [= <-].
  eapply (jframe_trans _ (set_turn tid (mkTrec t (Ended k)) c)); [by apply (jframe_turn tid _ (mkTrec t (Ended k)) c Ht)|].
  unfold resume. destruct o; same.
Qed.

Lemma loop_claim_jinv k c : inv c -> jinv c -> interrupted_by k = None -> jinv (loop_claim k c).
Proof.
  intros Hi Hj Hk. unfold loop_claim. destruct (claimTurnLocked Loop k c) as [[tid c1]|] eqn:E; [|done].
  eapply jinv_frame; [by eapply jinv_claim|same].
Qed.

Lemma loop_step_jinv a c c' : inv c -> jinv c -> loop_step harness holds a c = Some c' -> jinv c'.
Proof.
  intros Hi Hj. unfold loop_step. destruct a; try done; destruct (loop c) eqn:Hl; try done.
  - intros [= <-]. unfold handleTurnsEvent. destruct ev as [ev|ev|ev screen|]; [| |by apply loop_claim_jinv|done].
    + destruct (_ && _); [eapply jinv_frame; [exact Hj|same]|by apply loop_claim_jinv].
    + destruct holds; [|by apply loop_claim_jinv]. destruct (currentTurn c) as [tid|]; [|done].
      destruct (turns c !! tid) as [t|] eqn:Ht; [|done]. eapply jinv_frame; [exact Hj|].
      eapply (jframe_trans _ (set_turn tid (mkTrec (set_retry (ev_HTTPCode ev) (ev_RetryAfter ev) (t_turn t)) (t_phase t)) c)); [|same].
      by apply (jframe_turn tid t).
  - intros [= <-]. eapply jinv_frame; [exact Hj|same].
  - intros (status & _ & H)%bind_Some. case_bool_decide; [|done]. injection H as <-. unfold exit_claim.
    destruct (claimTurnLocked _ _ _) as [[tid c1]|] eqn:E; (eapply jinv_frame; [|same]); [by eapply jinv_claim|done].
  - intros (status & _ & H)%bind_Some. case_bool_decide; [|done]. injection H as <-. unfold exit_last.
    eapply jinv_frame; [exact Hj|]. eapply jframe_trans; [apply jframe_emit|same].
Qed.

(** The op of the turn the screen shows interrupted learns how. *)
Definition tell (tid : nat) (r : InterruptResult) (c : conv) : conv :=
  match c.(interrupt) with
  | Some o => match c.(ops) !! o with
              | Some x => if bool_decide (x.(op_turn) = tid)
                          then set_op o (mkOp x.(op_turn) x.(written) (Some r) x.(op_result)) c else c
              | None => c
              end
  | None => c
  end.

Lemma told_tell c c' tid k r : jinv c -> c.(currentTurn) = Some tid -> interrupted_by k = Some r ->
  c'.(ops) = (tell tid r c).(ops) -> told c c' tid k.
Proof.
  intros Hj Hc Hk Eo. unfold tell in Eo.
  assert (Hlive : forall i x, live c i x -> x.(op_turn) = tid -> c.(interrupt) = Some i).
  { intros i x Hl Ht. apply (j_current _ Hj i x Hl). congruence. }
  destruct (interrupt c) as [o|] eqn:Hi; [destruct (ops c !! o) as [x|] eqn:Hx; [case_bool_decide as Ht|]|].
  { assert (Hl : forall i y, c'.(ops) !! i = Some y <-> (i = o /\ y = mkOp x.(op_turn) x.(written) (Some r) x.(op_result)) \/ (i <> o /\ c.(ops) !! i = Some y)).
    { intros i y. rewrite Eo. cbn. rewrite lookup_insert_Some. naive_solver. }
    constructor.
    - intros i y [[-> ->]|[_ Hy]]%Hl; [exists x|exists y]; cbn; split_and!; auto.
    - intros i y [[[-> ->]|[Hne Hy]]%Hl Hr] Hyt; [by rewrite Hk|]. destruct Hne. assert (Some o = Some i) by (by apply (Hlive i y)). congruence.
    - intros i y Hy. destruct (decide (i = o)) as [->|Hne].
      + eexists. rewrite Hl. split; [by left|]. cbn. split; congruence.
      + exists y. rewrite Hl. auto. }
  all: constructor; unfold live; rewrite Eo;
    [intros i y Hy; by exists y; auto|intros i y Hy Hyt; exfalso; specialize (Hlive i y Hy Hyt); destruct Hy; congruence
    |intros i y Hy; by exists y].
Qed.

Lemma finishInterrupted_jinv tid b p now c : inv c -> jinv c -> jinv (finishInterrupted tid b p now c).
Proof.
  intros Hi Hj. unfold finishInterrupted. case_bool_decide as Hc; cbn [negb]; [|eapply jinv_frame; [exact Hj|same]].
  set (r := if b then _ else _). set (k := ByInterrupt _ _ _ _). unfold claimTurnLocked. rewrite Hc.
  destruct (inv_current _ Hi tid Hc) as (t & Ht & Hp).
  rewrite (at_phase_turns tid (Claimed Watcher k) (set_currentTurn None (set_ending (S (ending c)) c)) t Ht).
  cbv beta iota zeta.
  eapply (jinv_claimed c _ tid t Watcher k Hj Ht Hp).
  - intros r' [= <-]. unfold r. destruct b; auto.
  - cbn. by repeat case_match.
  - cbn. by repeat case_match.
  - cbn. by repeat case_match.
  - cbn. by repeat case_match.
  - eapply told_tell; [exact Hj|exact Hc|done|]. unfold tell. cbn. by repeat case_match.
Qed.

Lemma watch_step_jinv a c c' : inv c -> jinv c -> watch_step a c = Some c' -> jinv c'.
Proof.
  intros Hi Hj. unfold watch_step. destruct a; try done; destruct (watch c); try done; intros [= <-].
  - eapply jinv_frame; [exact Hj|]. unfold observeInterrupt. repeat case_match; same.
  - by apply finishInterrupted_jinv.
  - eapply jinv_frame; [exact Hj|]. unfold idle_look. repeat case_match; same.
  - eapply jinv_frame; [exact Hj|]. unfold idle_marker. repeat case_match; same.
  - eapply jinv_frame; [exact Hj|]. unfold idle_check. repeat case_match; same.
  - unfold idle_commit. case_bool_decide; cbn [negb]; [|eapply jinv_frame; [exact Hj|same]].
    destruct (claimTurnLocked _ _ _) as [[i c1]|] eqn:E; (eapply jinv_frame; [|same]); [by eapply jinv_claim|done].
Qed.

(** No thread [m] owned anything: it begins. *)
Lemma claimInterrupt_jinv m x c c1 : inv c -> jinv c -> (forall o, ~ owns c m o) -> claimInterrupt c = (x, c1) ->
  match x with
  | NoTurn => c1 = c
  | Joined o => c1 = c /\ is_Some (c.(ops) !! o)
  | Registered o => jinv (set_int m (ILocking (Some o)) c1) /\ jinv (set_int m (IRunning o) c1)
  end.
Proof.
  intros Hi Hj Hm. unfold claimInterrupt. destruct (currentTurn c) as [tid|] eqn:Hc; [|by intros [= <- <-]].
  destruct (inv_current _ Hi tid Hc) as (t & Ht & Hp).
  set (c2 := set_next _ _).
  assert (Hfresh : (forall o y, live c o y -> op_turn y <> tid) -> forall pc, pc = ILocking (Some c.(next)) \/ pc = IRunning c.(next) -> jinv (set_int m pc c2)).
  { intros Hno pc Hpc. apply jinv_register; try done.
    - exists t. split; [done|]. by rewrite Hp.
    - unfold fate_of. rewrite Ht. cbn. unfold fate. by rewrite Hp. }
  assert (Hone : forall o y, live c o y -> op_turn y = tid -> c.(interrupt) = Some o).
  { intros o y Hl Hy. apply (j_current _ Hj o y Hl). congruence. }
  destruct (interrupt c) as [o|] eqn:Ho; [destruct (ops c !! o) as [y|] eqn:Hy; [case_bool_decide as Hyt|]|];
    intros [= <- <-]; eauto.
  all: split; apply Hfresh; auto; intros i z Hl Hz; specialize (Hone i z Hl Hz); simplify_eq; destruct Hl; congruence.
Qed.

Lemma own_none m c : (forall pc, c.(ints) !! m = Some pc -> owning pc = None) -> forall o, ~ owns c m o.
Proof. intros H o (pc & Hpc & Ho)%owns_owning. rewrite (H pc Hpc) in Ho. done. Qed.

Lemma Interrupt_jinv m c c' : inv c -> jinv c -> Interrupt interrupter m c = Some c' -> jinv c'.
Proof.
  intros Hi Hj. unfold Interrupt. destruct (ints c !! m) eqn:Hm; [done|]. cbn [is_none negb].
  assert (Hown : forall o, ~ owns c m o) by (apply own_none; congruence).
  destruct (_ || _); [intros [= <-]; by apply jinv_int|].
  destruct (claimInterrupt c) as [x c1] eqn:E. pose proof (claimInterrupt_jinv m x c c1 Hi Hj Hown E) as H.
  intros [= <-]. destruct x as [o|o|]; [destruct H as [-> H]|apply H|subst]; apply jinv_int; try done.
  by intros o' [= <-].
Qed.

Lemma unlock_jinv c : jinv c -> jinv (set_submit None c).
Proof. intros Hj. eapply jinv_frame; [exact Hj|same]. Qed.

Lemma int_reclaim_jinv m c : inv c -> jinv c -> c.(ints) !! m = Some IClaiming -> jinv (int_reclaim m c).
Proof.
  intros Hi Hj Hm. assert (Hown : forall o, ~ owns c m o) by (apply own_none; intros pc; rewrite Hm; by intros [= <-]).
  unfold int_reclaim. destruct (claimInterrupt c) as [x c1] eqn:E.
  pose proof (claimInterrupt_jinv m x c c1 Hi Hj Hown E) as H.
  destruct x as [o|o|]; [destruct H as [-> H]|apply H|subst]; apply jinv_int; try done; try by apply unlock_jinv.
  by intros o' [= <-].
Qed.

(** The turn is in flight no more: what is answered is what became of it. *)
Lemma interruptEnded_answered m o r b x c : inv c -> jinv c -> c.(ints) !! m = Some (IRunning o) ->
  interruptEnded o c = Some r -> c.(ops) !! o = Some x ->
  answered c x.(op_turn) (if bool_decide (r = InterruptCancelled) && negb b then IComposer else IRes r).
Proof.
  intros Hi Hj Hm He Hx. unfold interruptEnded in He. rewrite Hx in He. case_bool_decide as Hc; [done|]. injection He as <-.
  destruct (j_known _ Hj o x Hx) as (t & Ht & Hp1 & Hp2). destruct (inv_turns _ Hi _ t Ht) as (_ & Hph & _ & _).
  assert (exists k, fate_of c x.(op_turn) = Some k) as [k Hk].
  { unfold fate_of. rewrite Ht. unfold fate, phase_ok in *. cbn. destruct (t_phase t); try done; eauto. }
  right. exists k. split; [done|].
  destruct (j_owned _ Hj m o) as (y & Hy & Hyr); [right; left; done|]. assert (y = x) as -> by congruence.
  pose proof (j_told _ Hj o x k (conj Hx Hyr) Hk) as Ho. destruct (outcome x) as [r|] eqn:Hr; cbn; [|done].
  destruct (j_outcome _ Hj o x r Hx Hr) as ([-> | ->] & _); cbn; [done|]. by destruct b.
Qed.

Lemma int_write_jinv m o b c c' : jinv c -> c.(ints) !! m = Some (IRunning o) -> int_write m o b c = Some c' -> jinv c'.
Proof.
  intros Hj Hm. unfold int_write. destruct (negb _); [done|]. destruct (ops c !! o) as [x|] eqn:Hx; [|done].
  destruct (written x); intros [= <-]; [done|].
  set (c1 := set_written_keys _ _).
  assert (Hj1 : jinv c1) by (eapply jinv_frame; [apply (jinv_written o x true c Hj Hx)|same]).
  assert (Hm1 : c1.(ints) !! m = Some (IRunning o)) by done. clearbody c1.
  destruct b; [done|]. apply jinv_int; try done; [by apply unlock_jinv| |].
  - intros o' [= <-]. right. left. done.
  - intros o' r y [= <- <-] _. by left.
Qed.

Lemma int_step_jinv m a c c' : inv c -> jinv c -> int_step m a c = Some c' -> jinv c'.
Proof.
  intros Hi Hj. unfold int_step. destruct a; try done; destruct (ints c !! m) as [pc|] eqn:Hm; try done; destruct pc as [o| |o|o r|o|o r]; try done.
  - unfold int_lock, lock_submit. destruct ok.
    + destruct (is_none _); [|done]. intros [= <-].
      assert (Hj' : jinv (set_submit (Some (HeldByInterrupt m)) c)) by (eapply jinv_frame; [exact Hj|same]).
      destruct o as [o|]; apply jinv_int; try done. intros o' [= <-]. by left.
    + intros [= <-]. destruct o as [o|]; apply jinv_int; try done.
      * intros o' [= <-]. by left.
      * intros o' r x [= <- <-] _. by left.
  - intros [= <-]. by apply int_reclaim_jinv.
  - unfold int_ended. intros (r & He & [= <-])%bind_Some. apply jinv_int; [by apply unlock_jinv|..]; try done.
    + intros o' [= <-]. right. left. done.
    + intros o' r' x [= <- <-] Hx. exact (interruptEnded_answered m o r cleared x c Hi Hj Hm He Hx).
  - by apply int_write_jinv.
  - intros [= <-]. apply jinv_int; [by apply unlock_jinv|..]; try done.
    + intros o' [= <-]. right. left. done.
    + intros o' r x [= <- <-] _. by left.
  - intros [= <-]. by apply jinv_finish.
  - destruct (j_joined _ Hj m o Hm) as [x Hx]. unfold wait. rewrite Hx. destruct ok.
    + intros (r & Hr & [= <-])%bind_Some. apply jinv_int; try done. intros o' r' [= <- <-]. exists x.
      split; [done|]. by apply (j_result _ Hj o).
    + intros [= <-]. apply jinv_int; try done. intros o' r' [= <- <-]. exists x. split; [done|by left].
Qed.

Lemma step_jinv a c c' : inv c -> jinv c -> step a c = Some c' -> jinv c'.
Proof.
  intros Hi Hj Hs. destruct a; cbn [ChatTurn.step] in Hs;
    lazymatch type of Hs with
    | ChatTurn.send_step _ _ _ _ = _ => by eapply send_step_jinv
    | ChatTurn.loop_step _ _ _ _ = _ => by eapply loop_step_jinv
    | ChatTurn.watch_step _ _ = _ => by eapply watch_step_jinv
    | ChatTurn.int_step _ _ _ = _ => by eapply int_step_jinv
    | ChatTurn.Interrupt _ _ _ = _ => by eapply Interrupt_jinv
    | ChatTurn.Send _ _ _ _ = _ => eapply jinv_frame; [exact Hj|by eapply Send_frame]
    | ChatTurn.judge _ _ _ _ _ _ _ _ _ = _ => eapply jinv_frame; [exact Hj|by eapply judge_frame]
    | ChatTurn.publishTurn _ _ = _ => eapply jinv_frame; [exact Hj|by eapply publish_frame]
    | ChatTurn.ending_done _ _ = _ => eapply jinv_frame; [exact Hj|by eapply ending_done_frame]
    | _ => injection Hs as <-; eapply jinv_frame; [exact Hj|same]
    end.
Qed.

Lemma jinv_opened : jinv opened.
Proof.
  constructor; try done; unfold owns, live; naive_solver.
Qed.

Lemma reaches_jinv c : reaches opened c -> jinv c.
Proof. induction 1; [apply jinv_opened|]. eapply step_jinv; eauto using turns_inv. Qed.

(** The reply an Interrupt gives, as a claim about the turn it was for. *)
Definition reply_true (r : int_result) (t : Turn) : Prop :=
  match r with
  | IRes InterruptTooLate => t.(State) <> TurnStateInterrupted
  | IRes InterruptNoTurn => False
  | IRes _ | IComposer => t.(State) = TurnStateInterrupted
  | IFails => True
  end.

(** C22: Over every interleaving an Interrupt answers the truth about the turn
    it was called for, and all the calls that share an op answer for the same
    turn: unless it failed, that turn was ended, and its one terminal event,
    already queued or still to be, says interrupted when Interrupt answered
    stopped or cancelled (or that the composer could not be emptied), and
    something else when it answered too late. *)
Theorem interrupt_agrees c m o r : reaches opened c -> c.(ints) !! m = Some (IReturned (Some o) r) -> r <> IFails ->
  exists x t k, c.(ops) !! o = Some x /\ c.(turns) !! x.(op_turn) = Some t /\ fate t = Some k /\ agrees r k /\
    forall t', EvTerminal x.(op_turn) t' ∈ c.(log) -> coherent t' /\ reply_true r t'.
Proof.
  intros Hr Hm Hne. pose proof (turns_inv _ _ _ _ _ _ _ _ Hr) as Hi. pose proof (reaches_jinv _ Hr) as Hj.
  destruct (j_returned _ Hj m o r Hm) as (x & Hx & [?|(k & Hk & Ha)]); [done|].
  unfold fate_of in Hk. apply bind_Some in Hk as (t & Ht & Hf). exists x, t, k. split_and!; try done.
  intros t' Hin. assert (He : EvTerminal x.(op_turn) t' ∈ events_of x.(op_turn) c).
  { apply list_elem_of_In, List.filter_In. split; [by apply list_elem_of_In|]. cbn. by apply bool_decide_eq_true_2. }
  destruct (inv_turns _ Hi _ t Ht) as (_ & _ & Hrec & Hev). unfold record_ok, events_ok, fate in *.
  assert (Hout : outcome_of k t.(t_turn) /\ t' = t.(t_turn)).
  { destruct (t_phase t); simplify_eq; cbn in *;
      (destruct Hev as [Hev|[_ Hev]]; [|try destruct Hev as [Hev|Hev]]; rewrite Hev in He; cbn in He; set_solver). }
  destruct Hout as [[Hc Hs] ->]. split; [done|]. destruct r as [[]| |]; cbn in *; try done.
  - apply Hs. by eexists.
  - apply Hs. by eexists.
  - rewrite Hs, Ha. by intros [? ?].
  - apply Hs. by eexists.
Qed.
End Steps.

(** The Interrupt of [stopped_turn], and a second one that joined it. *)
Definition joined_turn : list action :=
  (sent 0 0 10 ++ submitted 0 0 10 ++
   [AInterrupt 0; AInterrupt 1; AIntLock 0 true; AIntWrite 0 true; AObserve (Some (true, "")); AInterrupted 40;
    AIntEnded 0 true; AIntFinish 0; AIntWait 1 true; AJudge 0 no_evidence no_evidence; APublish 0; ADone 0])%list.
Definition joined : conv := default opened (plain_run joined_turn opened).

Theorem interrupt_agrees_witness :
  plain_reaches opened joined /\ joined.(ints) !! 1 = Some (IReturned (Some 1) (IRes InterruptCancelled)) /\
  exists x t k, joined.(ops) !! 1 = Some x /\ joined.(turns) !! x.(op_turn) = Some t /\ fate t = Some k /\
    agrees (IRes InterruptCancelled) k /\
    forall t', EvTerminal x.(op_turn) t' ∈ joined.(log) -> coherent t' /\ reply_true (IRes InterruptCancelled) t'.
Proof.
  assert (H : plain_reaches opened joined) by (apply (plain_reached joined_turn); vm_compute; reflexivity).
  assert (Hm : joined.(ints) !! 1 = Some (IReturned (Some 1) (IRes InterruptCancelled))) by (vm_compute; reflexivity).
  split; [exact H|]. split; [exact Hm|].
  refine (interrupt_agrees _ _ _ _ _ _ _ _ 1 1 _ H Hm _). discriminate.
Defined.
