(* ===== verification/Drive.v ===== *)
(** A driver of a terminal program: Go code that reads what it can see of the
    outside, one read at a time, writes keystrokes, and polls until something
    shows. What it will see is a tape of observations, one for each read, so
    that a theorem over every tape is a theorem over every behaviour of the
    harness, of the clock, of the caller's context, and of the other threads
    between any two reads. What it wrote is a log, each write with the place on
    the tape at which it was made. *)
From Stdlib Require Import ZArith String Lia.
From stdpp Require Import base tactics list option.
From S2P Require Import Prelude.

#[local] Open Scope go_scope.
#[local] Open Scope nat_scope.

Record dstate := mkD { at_ : nat; wrote : list (nat * string) }.

(** [None]: not within the fuel given to its polls. *)
Definition M (A : Type) : Type := dstate -> option (A * dstate).

Definition ret {A} (a : A) : M A := fun s => Some (a, s).
Definition bindM {A B} (m : M A) (f : A -> M B) : M B :=
  fun s => match m s with Some (a, s') => f a s' | None => None end.

Declare Scope drive_scope.
Delimit Scope drive_scope with drive.
Notation "x <-- m ;; k" := (bindM m (fun x => k)) (at level 100, m at next level, right associativity) : drive_scope.
Notation "' p <-- m ;; k" := (bindM m (fun x => let p := x in k))
  (at level 100, p pattern, m at next level, right associativity) : drive_scope.
#[local] Open Scope drive_scope.

Section Drive.
Context {F : Type} (tape : nat -> F).

(** One read of the outside. *)
Definition look : M F := fun s => Some (tape s.(at_), mkD (S s.(at_)) s.(wrote)).

(** One write; the observation says how it went. *)
Definition write (keys : string) : M F :=
  fun s => Some (tape s.(at_), mkD (S s.(at_)) (s.(wrote) ++ [(s.(at_), keys)])).

(** [for { body }]: the body goes on, with what it carries, or is done. *)
Fixpoint loop {St A} (fuel : nat) (body : St -> M (St + A)) (st : St) : M A :=
  match fuel with
  | 0 => fun _ => None
  | S fuel => x <-- body st ;; match x with inl st => loop fuel body st | inr a => ret a end
  end.

(** [for { body; select { ... } }], whose select only wakes it. *)
Definition poll {A} (fuel : nat) (body : M (option A)) : M A :=
  loop fuel (fun _ : unit => x <-- body ;; ret (match x with Some a => inr a | None => inl tt end)) tt.

(** ** What holds of a driver that has returned *)

Definition wp {A} (m : M A) (Q : A -> dstate -> Prop) (s : dstate) : Prop :=
  match m s with Some (a, s') => Q a s' | None => True end.

Lemma wp_mono {A} (m : M A) (P Q : A -> dstate -> Prop) s : (forall a s', P a s' -> Q a s') -> wp m P s -> wp m Q s.
Proof. unfold wp. intros H. destruct (m s) as [[a s']|]; auto. Qed.

Lemma wp_ret {A} (a : A) Q s : wp (ret a) Q s <-> Q a s.
Proof. done. Qed.

Lemma wp_bind {A B} (m : M A) (f : A -> M B) Q s : wp (bindM m f) Q s <-> wp m (fun a => wp (f a) Q) s.
Proof. unfold wp, bindM. by destruct (m s) as [[a s']|]. Qed.

Lemma wp_look Q s : wp look Q s <-> Q (tape s.(at_)) (mkD (S s.(at_)) s.(wrote)).
Proof. done. Qed.

Lemma wp_write keys Q s : wp (write keys) Q s <-> Q (tape s.(at_)) (mkD (S s.(at_)) (s.(wrote) ++ [(s.(at_), keys)])).
Proof. done. Qed.

Lemma wp_use {A} (m : M A) Q s a s' : wp m Q s -> m s = Some (a, s') -> Q a s'.
Proof. unfold wp. intros H E. by rewrite E in H. Qed.

(** A loop keeps what its body keeps. *)
Lemma wp_loop {St A} fuel (body : St -> M (St + A)) (I : St -> dstate -> Prop) (Q : A -> dstate -> Prop) st s :
  (forall st s, I st s -> wp (body st) (fun x s' => match x with inl st => I st s' | inr a => Q a s' end) s) ->
  I st s -> wp (loop fuel body st) Q s.
Proof.
  intros Hb. revert st s. induction fuel as [|n IH]; intros st s Hs; [done|]. cbn [loop]. apply wp_bind.
  eapply wp_mono; [|by apply Hb]. intros [st'|a] s' H; [by apply IH|done].
Qed.

Lemma wp_poll {A} fuel (body : M (option A)) (I : dstate -> Prop) (Q : A -> dstate -> Prop) s :
  (forall s, I s -> wp body (fun x s' => match x with Some a => Q a s' | None => I s' end) s) ->
  I s -> wp (poll fuel body) Q s.
Proof.
  intros Hb Hs. apply (wp_loop fuel _ (fun _ => I)); [|done]. intros _ s' Hs'. apply wp_bind.
  eapply wp_mono; [|by apply Hb]. by intros [a|] s''.
Qed.

(** ** That it returns *)

Definition twp {A} (m : M A) (Q : A -> dstate -> Prop) (s : dstate) : Prop :=
  match m s with Some (a, s') => Q a s' | None => False end.

Lemma twp_ret {A} (a : A) Q s : twp (ret a) Q s <-> Q a s.
Proof. done. Qed.

Lemma twp_bind {A B} (m : M A) (f : A -> M B) Q s : twp (bindM m f) Q s <-> twp m (fun a => twp (f a) Q) s.
Proof. unfold twp, bindM. by destruct (m s) as [[a s']|]. Qed.

Lemma twp_look Q s : twp look Q s <-> Q (tape s.(at_)) (mkD (S s.(at_)) s.(wrote)).
Proof. done. Qed.

Lemma twp_write keys Q s : twp (write keys) Q s <-> Q (tape s.(at_)) (mkD (S s.(at_)) (s.(wrote) ++ [(s.(at_), keys)])).
Proof. done. Qed.

Definition halts {A} (m : M A) : Prop := forall s, is_Some (m s).

Lemma halts_ret {A} (a : A) : halts (ret a).
Proof. intros s. by eexists. Qed.

Lemma halts_bind {A B} (m : M A) (f : A -> M B) : halts m -> (forall a, halts (f a)) -> halts (bindM m f).
Proof. intros Hm Hf s. unfold bindM. destruct (Hm s) as [[a s'] ->]. apply Hf. Qed.

Lemma halts_look : halts look.
Proof. intros s. by eexists. Qed.

Lemma halts_write keys : halts (write keys).
Proof. intros s. by eexists. Qed.

Lemma halts_if {A} (b : bool) (m n : M A) : halts m -> halts n -> halts (if b then m else n).
Proof. by destruct b. Qed.

(** The clock: it does not run back, and every [tick] reads it gains. *)
Context (now : F -> Z).

Record clocked (tick : nat) : Prop := mkClocked {
  clock_mono : forall p, (now (tape p) <= now (tape (S p)))%Z;
  clock_gains : forall p, (now (tape p) < now (tape (p + tick)))%Z }.

Lemma clock_le tick p q : clocked tick -> p <= q -> (now (tape p) <= now (tape q))%Z.
Proof.
  intros Hc Hpq. induction Hpq as [|q Hpq IH]; [lia|]. pose proof (clock_mono _ Hc q). lia.
Qed.

Lemma clock_after tick p k : clocked tick -> (now (tape p) + Z.of_nat k <= now (tape (p + k * tick)))%Z.
Proof.
  intros Hc. induction k as [|k IH]; [cbn; rewrite Nat.add_0_r; lia|].
  pose proof (clock_gains _ Hc (p + k * tick)). replace (p + S k * tick) with (p + k * tick + tick) by (cbn; lia). lia.
Qed.

(** How many polls a wait of [budget] takes at most. *)
Definition polls (tick : nat) (budget : Z) : nat := S (S (Z.to_nat budget)) * tick + 2.

(** A poll whose body, when it goes on, has read the clock at or before
    [expiry]. *)
Lemma poll_returns {A} fuel (body : M (option A)) expiry last s :
  (forall p, last <= p -> (expiry < now (tape p))%Z) ->
  (forall s, twp body (fun x s' => s.(at_) < s'.(at_) /\
     (x = None -> exists p, s.(at_) <= p /\ (now (tape p) <= expiry)%Z)) s) ->
  last - s.(at_) < fuel -> is_Some (poll fuel body s).
Proof.
  intros Hlast Hb. unfold poll. revert s. induction fuel as [|n IH]; intros s Hf; [lia|]. cbn [loop]. unfold bindM.
  specialize (Hb s) as H. unfold twp in H. destruct (body s) as [[x s']|]; [|done]. destruct H as [Hat Hx].
  destruct x as [a|]; [by eexists|]. cbn.
  destruct (Hx eq_refl) as (p & Hp & Hnow). apply IH.
  destruct (decide (last <= p)) as [Hl|Hl]; [specialize (Hlast p Hl); lia|]. lia.
Qed.

(** A wait that reads the clock once to set its expiry, then polls. *)
Lemma wait_halts {A} tick budget fuel (body : Z -> M (option A)) :
  clocked tick -> (0 <= budget)%Z -> polls tick budget <= fuel ->
  (forall e s, twp (body e) (fun x s' => s.(at_) < s'.(at_) /\
     (x = None -> exists p, s.(at_) <= p /\ (now (tape p) <= e)%Z)) s) ->
  halts (f <-- look ;; poll fuel (body (now f + budget)%Z)).
Proof.
  intros Hc Hb Hf Hbody s. unfold bindM, look.
  apply (poll_returns fuel _ (now (tape s.(at_)) + budget)%Z (s.(at_) + S (S (Z.to_nat budget)) * tick)).
  - intros p Hp. pose proof (clock_after tick s.(at_) (S (S (Z.to_nat budget))) Hc). pose proof (clock_le tick _ _ Hc Hp). lia.
  - apply Hbody.
  - cbn. unfold polls in Hf. lia.
Qed.
End Drive.

Create HintDb drive.
#[export] Hint Resolve halts_ret halts_look halts_write : drive.
#[export] Hint Extern 1 (halts (ret _)) => apply halts_ret : drive.

(** One step of a driver's proof. *)
Ltac dstep :=
  match goal with
  | |- wp (bindM _ _) _ _ => apply wp_bind
  | |- wp (ret _) _ _ => apply wp_ret
  | |- wp look _ _ => apply wp_look
  | |- wp (look _) _ _ => apply wp_look
  | |- wp (write _ _) _ _ => apply wp_write
  | |- wp (match ?x with _ => _ end) _ _ => destruct x eqn:?
  end.
Ltac dsteps := repeat dstep.

Ltac tstep :=
  match goal with
  | |- twp (bindM _ _) _ _ => apply twp_bind
  | |- twp (ret _) _ _ => apply twp_ret
  | |- twp (look _) _ _ => apply twp_look
  | |- twp (write _ _) _ _ => apply twp_write
  | |- twp (match ?x with _ => _ end) _ _ => destruct x eqn:?
  end.
Ltac tsteps := repeat tstep.
