(* ===== verification/Terminal.v ===== *)
(** What the chat core's drivers see of a harness's terminal and what they type
    into it: the dialog and posture data of src/pkg/turns/turns.go, an
    adapter's optional readers, one observation of everything a driver reads,
    the errors it answers, and the keys (src/internal/chatcore/ready.go and
    submit.go).

    Letters are folded in ASCII, as in GoStr; a byte slice of keys is a string,
    and an absent one is empty. *)
From Stdlib Require Import ZArith Ascii String Lia.
From stdpp Require Import base tactics list strings option gmap.
From S2P Require Import Prelude GoStr Bytes HarnessName Verdict.

#[local] Open Scope string_scope.
#[local] Open Scope go_scope.
#[local] Open Scope Z_scope.

(** ** Dialogs and postures (pkg/turns) *)

Record InputOption := mkOption {
  o_ID : string; o_Alias : string; o_Label : string; o_Description : string;
  Keys : string; Highlighted : bool; Checked : bool; Typed : string }.

Record InputRequest := mkRequest {
  r_ID : string; r_Kind : string; r_Prompt : string; r_Header : string; MultiSelect : bool; Options : list InputOption }.

Inductive DialogState := DialogNone | DialogPending | DialogUnparseable | DialogReadable.
#[export] Instance DialogState_eq_dec : EqDecision DialogState.
Proof. solve_decision. Defined.

Record PermissionPosture := mkPosture { Rung : string; Native : string; OnRing : bool }.
#[export] Instance PermissionPosture_eq_dec : EqDecision PermissionPosture.
Proof. solve_decision. Defined.

Definition zero_posture : PermissionPosture := mkPosture "" "" false.

Inductive EvidenceKind := EvidenceGone | EvidenceHighlighted | EvidenceUnhighlighted | EvidenceChecked | EvidenceTyped.
#[export] Instance EvidenceKind_eq_dec : EqDecision EvidenceKind.
Proof. solve_decision. Defined.

Record AnswerEvidence := mkAnswerEvidence { ev_Kind : EvidenceKind; ev_OptionID : string; ev_Text : string }.
Record AnswerStep := mkStep { After : Z; st_Keys : string; Until : AnswerEvidence }.

Record DialogReader := mkReader { ReadDialog : string -> option InputRequest; DialogAnchorPresent : string -> bool }.
Record Interrupter := mkInterrupter { ComposerText : string -> option string; ClearComposerSequence : string -> string }.

(** What an adapter's PlanAnswer answers. *)
Inductive plan := PlanFails (err : string) | NotPlanned | Planned (steps : list AnswerStep).

(** An adapter: each optional interface it may implement. *)
Record Adapter := mkAdapter {
  readiness : option (string -> bool);
  busyDetector : option (string -> bool);
  dialogDetector : option (string -> DialogState);
  dialogReader : option DialogReader;
  planner : option (InputRequest -> list string -> string -> plan);
  dismisser : option (InputRequest -> bool -> option string);
  modeDetector : option (string -> string * bool);
  postureDetector : option (string -> PermissionPosture * bool);
  interrupter : option Interrupter }.

(** ** What the client is told *)

Record ClientOption := mkClientOption { c_ID : string; c_Alias : string; c_Label : string; c_Description : string }.
Record ClientRequest := mkClientRequest {
  cr_ID : string; cr_Kind : string; cr_Prompt : string; cr_Header : string; cr_MultiSelect : bool;
  cr_Options : list ClientOption }.

Definition toClientInputRequest (req : InputRequest) : ClientRequest :=
  mkClientRequest req.(r_ID) req.(r_Kind) req.(r_Prompt) req.(r_Header) req.(MultiSelect)
    (map (fun o => mkClientOption o.(o_ID) o.(o_Alias) o.(o_Label) o.(o_Description)) req.(Options)).

Inductive ctxErr := Canceled | DeadlineExceeded.

(** The errors of the drivers, with what their texts are made of. *)
Inductive chat_error :=
| ErrClosed
| ErrNoControl
| ErrTurnInFlight
| ErrInputPending
| ErrAuthRequired
| ErrUnrecognizedDialog
| ErrHarnessBusy (e : ctxErr)
| ErrContext (e : ctxErr)
| ErrWrite
| ErrComposerNotCleared (holds : option string)
| ErrNoInputPending
| ErrStaleInputRequest
| ErrUnknownOption
| ErrNotMultiSelect
| ErrConflictingAnswer
| ErrPlan (text : string)
| InputUnresolvedError (Request : ClientRequest) (Observed : string) (Attempts : nat)
| ErrPermissionModeUnsupported
| ErrPermissionModeUnreachable
| ErrPermissionModeSwitchFailed (restored : bool)
| ErrPermissionModeIndeterminate
| PermissionModeBlockedError (Request : ClientRequest) (Observed : string)
| ErrCodexPlanRefusedBusy (e : option ctxErr)
| errPermissionModeBoundExhausted.

(** ** One observation *)

(** Which case of a select woke the driver. *)
Inductive wake := WakeDone | WakeClosed | WakeTimer (n : nat) | WakeInput | WakeScreen (open : bool).

Record frame := mkFrame {
  now : Z;
  screen : string;                     (* Snapshot().Text *)
  currentInput : option InputRequest;  (* guarded by mu *)
  currentInputAt : option Z;
  inputSurfaced : bool;
  inputUnresolved : option (ClientRequest * string * nat);
  inFlight : bool;                     (* a turn, or a write claim, is held *)
  held : bool;                         (* queue.Held() *)
  lastBusy : Z;
  ctx : option ctxErr;
  isClosed : bool;
  writeOK : bool;
  woke : wake }.

Definition inputAwaitingClient (f : frame) : bool := negb (is_none f.(currentInput)) && f.(inputSurfaced).

Definition PendingInput (f : frame) : option ClientRequest :=
  if f.(inputSurfaced) then toClientInputRequest <$> f.(currentInput) else None.

Definition inputBlocked (f : frame) : option chat_error :=
  match f.(inputUnresolved) with
  | Some (req, seen, n) => Some (InputUnresolvedError req seen n)
  | None => if inputAwaitingClient f then Some ErrInputPending else None
  end.

(** recordUnresolvedInput. *)
Definition recordUnresolvedInput (err : chat_error) (latched : option (ClientRequest * string * nat))
    : option (ClientRequest * string * nat) :=
  match err with InputUnresolvedError req seen n => Some (req, seen, n) | _ => latched end.

(** ** Keys (ready.go) *)

Definition esc : string := String (ascii_of_nat 27) EmptyString.
Definition newline : string := String nl EmptyString.
Definition enter : string := String cr EmptyString.

Definition submitKeyForHarness (harness screenText : string) : string :=
  if (harness =s? ClaudeCode) || (harness =s? Codex) then esc ++ "[13u" else newline.

Definition shiftTabCSI9_2u : string := esc ++ "[9;2u".

Definition shiftTabForHarness (harness screenText : string) : string :=
  if (Unalias harness =s? ClaudeCode) || (Unalias harness =s? Codex) then shiftTabCSI9_2u else "".

Definition pasteStartCSI200 : string := esc ++ "[200~".
Definition pasteEndCSI201 : string := esc ++ "[201~".

Definition pasteWrapForHarness (harness : string) : option (string * string) :=
  if (Unalias harness =s? ClaudeCode) || (Unalias harness =s? Codex) then Some (pasteStartCSI200, pasteEndCSI201) else None.

(** ** Pastes (submit.go) *)

Definition pasteThreshold : Z := 1024.

Definition shouldPaste (harness text : string) : option (string * string) :=
  if slen text <? pasteThreshold then None
  else if HasPrefix (TrimSpace text) "/" then None
  else pasteWrapForHarness harness.

(** [strings.ReplaceAll s old ""], for an [old] that is not empty: left to
    right, what follows a match is searched from its end. *)
Fixpoint remove_from (fuel : nat) (old s : string) : string :=
  match fuel, s with
  | S fuel, String c s' =>
    match CutPrefix s old with
    | Some rest => remove_from fuel old rest
    | None => String c (remove_from fuel old s')
    end
  | _, _ => s
  end.
Definition RemoveAll (old s : string) : string := remove_from (String.length s) old s.

Definition framePaste (prefix suffix text : string) : string :=
  prefix ++ RemoveAll pasteEndCSI201 (RemoveAll pasteStartCSI200 text) ++ suffix.

(** ** Options of a dialog (input.go) *)

Definition EqualFold (a b : string) : bool := ToLower a =s? ToLower b.

Definition option_named (s : string) (o : InputOption) : bool :=
  (o.(o_ID) =s? s) || EqualFold o.(o_Alias) s || EqualFold o.(o_Label) s.

Definition findOption (req : InputRequest) (s : string) : option InputOption :=
  if s =s? "" then None else List.find (option_named s) req.(Options).

Definition findOptionByAlias (req : InputRequest) (alias : string) : option InputOption :=
  List.find (fun o => o.(o_Alias) =s? alias) req.(Options).

(** Readings of the screen. *)
Definition requiresReadiness (a : Adapter) : bool := negb (is_none a.(readiness)).

Definition dialogStateOn (a : Adapter) (text : string) : DialogState :=
  match a.(dialogDetector) with Some d => d text | None => DialogNone end.
