(* ===== verification/Submit.v ===== *)
(** Typing a message into the harness's composer: the wait until it takes one,
    the text, the wait until the composer shows it, the submit key, and the
    emptying of a composer that holds something
    (src/internal/chatcore/ready.go, submit.go, interrupt.go).

    A select's case is taken when the observation it wakes on says so and the
    case is enabled: a timer that is armed and due, a context that has ended, a
    conversation that has closed. A case that is not enabled is a wake-up for
    nothing. *)
From Stdlib Require Import ZArith Ascii String Lia.
From stdpp Require Import base tactics list strings option gmap.
From S2P Require Import Prelude GoStr Bytes HarnessName Verdict Terminal Drive.

#[local] Open Scope string_scope.
#[local] Open Scope go_scope.
#[local] Open Scope Z_scope.
#[local] Open Scope drive_scope.

Definition Millisecond : Z := 1000000.
Definition Second : Z := 1000 * Millisecond.

Definition submitEchoGap : Z := 1500 * Millisecond.
Definition echoNeedleLen : Z := 24.
Definition idleCompletionGap : Z := 8 * Second.
Definition markerConfirmGap : Z := 2 * Second.
Definition authGateStabilizeGap : Z := 2 * Second.
Definition unrecognizedDialogStabilizeGap : Z := authGateStabilizeGap.
Definition composerClearRounds : nat := 4.
Definition composerRepaintWait : Z := Second.
Definition composerSettle : Z := 100 * Millisecond.

(** Options' overrides; zero for none. *)
Record gaps := mkGaps { idleGap : Z; markerGap : Z; permModeRenderTimeout : Z }.

Definition idleGapDur (g : gaps) : Z := if 0 <? g.(idleGap) then g.(idleGap) else idleCompletionGap.
Definition markerGapDur (g : gaps) : Z := if 0 <? g.(markerGap) then g.(markerGap) else markerConfirmGap.

Definition echoBoundDur (g : gaps) : Z := let half := idleGapDur g / 2 in if half <? submitEchoGap then half else submitEchoGap.

(** The text's first line, as much of it as is looked for. *)
Definition echoNeedle (text : string) (framed : bool) : string :=
  if framed then ""
  else
    let needle := match Cut text nl with Some (l, _) => l | None => text end in
    let needle := TrimSpace needle in
    if echoNeedleLen <? slen needle then Take echoNeedleLen needle else needle.

(** stabilizer: when it fires, while it is armed. *)
Definition stabilizer : Type := option Z.
Definition arm (gap t : Z) (s : stabilizer) : stabilizer := match s with Some z => Some z | None => Some (t + gap) end.
Definition due (t : Z) (s : stabilizer) : bool := match s with Some z => z <=? t | None => false end.

(** What waitReadyForSend carries from one wake-up to the next. *)
Record readyState := mkReady { auth : stabilizer; dialog : stabilizer; quiet : option Z; busy : bool }.

Section Submit.
Context (anchored : string -> string -> bool).
Context (adapter : Adapter) (harness : string) (g : gaps).
Context (tape : nat -> frame).

Notation look := (look tape).
Notation write := (write tape).

Definition requiresPromptReadiness : bool := requiresReadiness adapter.
Definition readyForInput (text : string) : bool := readyOn anchored adapter.(readiness) harness text.
Definition dialogState (text : string) : DialogState := dialogStateOn adapter text.

(** ** waitReadyForSend (ready.go) *)

(** observeBusy's reading; what it records is the next observations' lastBusy. *)
Definition observeBusy (text : string) : bool := match adapter.(busyDetector) with Some b => b text | None => false end.

Definition busyQuietRemaining (f : frame) : Z :=
  if f.(lastBusy) =? 0 then 0 else Z.max 0 (markerGapDur g - (f.(now) - f.(lastBusy))).

(** Ready, or met a wall, or not yet. *)
Inductive checked := CheckReady | CheckWall | CheckWait (st : readyState).

Definition check (st : readyState) : M checked :=
  f <-- look ;;
  let txt := f.(screen) in
  let b := observeBusy txt in
  if readyForInput txt && negb b then
    f' <-- look ;;
    let rem := busyQuietRemaining f' in
    if 0 <? rem then ret (CheckWait (mkReady st.(auth) st.(dialog) (Some (f'.(now) + rem)) true))
    else ret CheckReady
  else if onboardingWall anchored harness txt then ret CheckWall
  else
    ret (CheckWait (mkReady
      (if authRequired anchored harness txt then arm authGateStabilizeGap f.(now) st.(auth) else None)
      (if bool_decide (dialogState txt = DialogUnparseable) then arm unrecognizedDialogStabilizeGap f.(now) st.(dialog) else None)
      st.(quiet) b)).

Definition after_check (c : checked) : readyState + option chat_error :=
  match c with CheckReady => inr None | CheckWall => inr (Some ErrAuthRequired) | CheckWait st => inl st end.

(** The select, [f] the observation that woke it. *)
Definition ready_wake (st : readyState) (f : frame) : M (readyState + option chat_error) :=
  match f.(woke) with
  | WakeDone =>
    match f.(ctx) with
    | Some e => ret (inr (Some (if st.(busy) then ErrHarnessBusy e else ErrContext e)))
    | None => ret (inl st)
    end
  | WakeClosed => ret (if f.(isClosed) then inr (Some ErrClosed) else inl st)
  | WakeTimer 0 =>
    if due f.(now) st.(quiet) then
      c <-- check (mkReady st.(auth) st.(dialog) None st.(busy)) ;; ret (after_check c)
    else ret (inl st)
  | WakeTimer 1 =>
    if due f.(now) st.(auth) then
      f' <-- look ;;
      if negb (readyForInput f'.(screen)) && authRequired anchored harness f'.(screen) then ret (inr (Some ErrAuthRequired))
      else ret (inl (mkReady None st.(dialog) st.(quiet) st.(busy)))
    else ret (inl st)
  | WakeTimer _ =>
    if due f.(now) st.(dialog) then
      f' <-- look ;;
      if negb (readyForInput f'.(screen)) && bool_decide (dialogState f'.(screen) = DialogUnparseable)
      then ret (inr (Some ErrUnrecognizedDialog))
      else ret (inl (mkReady st.(auth) None st.(quiet) st.(busy)))
    else ret (inl st)
  | WakeScreen false => ret (inr (Some ErrClosed))
  | WakeInput | WakeScreen true =>
    f' <-- look ;;
    match inputBlocked f' with
    | Some e => ret (inr (Some e))
    | None => c <-- check st ;; ret (after_check c)
    end
  end.

Definition waitReadyForSend (fuel : nat) : M (option chat_error) :=
  f <-- look ;;
  match inputBlocked f with
  | Some e => ret (Some e)
  | None =>
    if negb requiresPromptReadiness then ret None
    else
      c <-- check (mkReady None None None false) ;;
      match after_check c with
      | inr r => ret r
      | inl st => loop fuel (fun st => f <-- look ;; ready_wake st f) st
      end
  end.

(** ** The text and its submit key (submit.go) *)

Definition awaitComposerEcho (fuel : nat) (text preWriteScreen : string) (framed : bool) : M (option chat_error) :=
  let needle := echoNeedle text framed in
  let bound := echoBoundDur g in
  f0 <-- look ;;
  loop fuel (fun halfDone =>
    cur <-- look ;;
    if negb (needle =s? "") && Contains cur.(screen) needle then ret (inr None)
    else if (halfDone || (needle =s? "")) && negb (cur.(screen) =s? preWriteScreen) then ret (inr None)
    else
      f <-- look ;;
      ret (match f.(woke) with
           | WakeDone => match f.(ctx) with Some e => inr (Some (ErrContext e)) | None => inl halfDone end
           | WakeClosed => if f.(isClosed) then inr None else inl halfDone
           | WakeTimer 0 => if f0.(now) + bound <=? f.(now) then inr None else inl halfDone
           | WakeTimer _ => if f0.(now) + bound / 2 <=? f.(now) then inl true else inl halfDone
           | _ => inl halfDone
           end)) false.

Definition write_err (f : frame) : option chat_error := if f.(writeOK) then None else Some ErrWrite.

Definition writeMessageAndSubmit (fuel : nat) (text preWriteScreen submitKey : string) : M (option chat_error) :=
  if negb requiresPromptReadiness then
    f <-- write (text ++ submitKey) ;; ret (write_err f)
  else
    let framing := shouldPaste harness text in
    f <-- write (match framing with Some (p, s) => framePaste p s text | None => text end) ;;
    match write_err f with
    | Some e => ret (Some e)
    | None =>
      err <-- awaitComposerEcho fuel text preWriteScreen (negb (is_none framing)) ;;
      match err with
      | Some e => ret (Some e)
      | None => f <-- write submitKey ;; ret (write_err f)
      end
    end.

(** ** Emptying the composer (interrupt.go) *)

(** awaitRepaint: the bound, and the settling once the screen has changed. *)
Definition awaitRepaint (fuel : nat) : M (option chat_error) :=
  f0 <-- look ;;
  loop fuel (fun settle : option Z =>
    f <-- look ;;
    ret (match f.(woke) with
         | WakeDone => match f.(ctx) with Some e => inr (Some (ErrContext e)) | None => inl settle end
         | WakeClosed => if f.(isClosed) then inr (Some ErrClosed) else inl settle
         | WakeTimer 0 => if f0.(now) + composerRepaintWait <=? f.(now) then inr None else inl settle
         | WakeTimer _ => if due f.(now) settle then inr None else inl settle
         | WakeScreen false => inr (Some ErrClosed)
         | WakeScreen true => inl (Some (f.(now) + composerSettle))
         | WakeInput => inl settle
         end)) None.

(** [rounds]: the rounds left; [first] the first of them. *)
Fixpoint clear_rounds (fuel : nat) (ir : Interrupter) (hint : string) (rounds : nat) (first : bool) : M (option chat_error) :=
  f <-- look ;;
  let text := ir.(ComposerText) f.(screen) in
  if bool_decide (text = Some "") then ret None
  else
    match rounds with
    | O => ret (Some (ErrComposerNotCleared (Some (oneLineCapped (default "" text) 80%nat))))
    | S rounds =>
      if is_none text && negb first then ret (Some (ErrComposerNotCleared None))
      else if is_none text && (hint =s? "") then ret None
      else
        f <-- write (ir.(ClearComposerSequence) (default hint text)) ;;
        match write_err f with
        | Some e => ret (Some e)
        | None =>
          err <-- awaitRepaint fuel ;;
          match err with Some e => ret (Some e) | None => clear_rounds fuel ir hint rounds false end
        end
    end.

Definition clearComposer (fuel : nat) (ir : Interrupter) (hint : string) : M (option chat_error) :=
  clear_rounds fuel ir hint composerClearRounds true.
End Submit.
