(* ===== verification/SubmitProps.v ===== *)
(** What the drivers that type a message promise: when a composer counts as
    ready, what is written and after which evidence, and what a composer is
    when it counts as empty. *)
From Stdlib Require Import ZArith Ascii String Lia.
From stdpp Require Import base tactics list strings option gmap.
From S2P Require Import Prelude GoStr Bytes HarnessName Verdict Terminal Drive Submit.

#[local] Open Scope string_scope.
#[local] Open Scope go_scope.
#[local] Open Scope Z_scope.
#[local] Open Scope drive_scope.

(** A wait has moved on the tape and written nothing. *)
Definition waited (s s' : dstate) : Prop := (s.(at_) < s'.(at_))%nat /\ s'.(wrote) = s.(wrote).

Lemma waited_look s : waited s (mkD (S s.(at_)) s.(wrote)).
Proof. split; cbn; [lia|done]. Qed.

Lemma waited_trans s1 s2 s3 : waited s1 s2 -> waited s2 s3 -> waited s1 s3.
Proof. intros [] []. split; [lia|congruence]. Qed.

Section Props.
Context (anchored : string -> string -> bool).
Context (adapter : Adapter) (harness : string) (g : gaps) (tape : nat -> frame) (fuel : nat).

Notation ready q := (readyForInput anchored adapter harness (tape q).(screen)).
Notation busy_at q := (observeBusy adapter (tape q).(screen)).
Notation banner q := (authRequired anchored harness (tape q).(screen)).
Notation wall q := (onboardingWall anchored harness (tape q).(screen)).
Notation check := (check anchored adapter harness g tape).
Notation ready_wake := (ready_wake anchored adapter harness g tape).
Notation waitReadyForSend := (waitReadyForSend anchored adapter harness g tape).

(** ** A ready composer *)

(** The screen takes a message, and the harness has been idle for the
    confirmation window. *)
Definition idle_ready (q : nat) : Prop :=
  ready q = true /\ busy_at q = false /\
  ((tape (S q)).(lastBusy) = 0 \/ markerGapDur g <= (tape (S q)).(now) - (tape (S q)).(lastBusy)).

(** A logged-out banner, on a screen that is not ready, that an earlier reading
    at least the dwell before also showed. *)
Definition dwelt (a q : nat) : Prop :=
  banner q = true /\ ready q = false /\
  exists q0 w, (a <= q0 < w)%nat /\ (w < q)%nat /\ banner q0 = true /\
    (tape q0).(now) + authGateStabilizeGap <= (tape w).(now).

Definition stalled (a q : nat) : Prop :=
  dialogState adapter (tape q).(screen) = DialogUnparseable /\ ready q = false /\
  exists q0 w, (a <= q0 < w)%nat /\ (w < q)%nat /\ dialogState adapter (tape q0).(screen) = DialogUnparseable /\
    (tape q0).(now) + unrecognizedDialogStabilizeGap <= (tape w).(now).

(** A timer armed on a reading of the call. *)
Definition armed (p : nat -> Prop) (gap : Z) (a b : nat) (s : stabilizer) : Prop :=
  forall t, s = Some t -> exists q0, (a <= q0 < b)%nat /\ p q0 /\ t = (tape q0).(now) + gap.

Definition timers (a : nat) (st : readyState) (s : dstate) : Prop :=
  armed (fun q => banner q = true) authGateStabilizeGap a s.(at_) st.(auth) /\
  armed (fun q => dialogState adapter (tape q).(screen) = DialogUnparseable) unrecognizedDialogStabilizeGap a s.(at_) st.(dialog).

Lemma armed_later p gap a b b' s : armed p gap a b s -> (b <= b')%nat -> armed p gap a b' s.
Proof. intros H Hb t Ht. destruct (H t Ht) as (q & ? & ?). exists q. split; [lia|done]. Qed.

Lemma armed_none p gap a b : armed p gap a b None.
Proof. by intros t. Qed.

Lemma armed_arm (p : nat -> Prop) gap a b b' q s : armed p gap a b s -> (b <= b')%nat -> (a <= q < b')%nat -> p q ->
  armed p gap a b' (arm gap (tape q).(now) s).
Proof.
  intros H Hb Hq Hp. destruct s as [z|]; [by eapply armed_later|]. intros t [= <-]. exists q. auto.
Qed.

(** What else ends the wait. *)
Definition meanwhile (e : chat_error) : Prop :=
  match e with
  | ErrClosed | ErrContext _ | ErrHarnessBusy _ | ErrInputPending | InputUnresolvedError _ _ _ => True
  | _ => False
  end.

(** What the call, begun at [a], ends with. *)
Definition ready_post (a : nat) (w : list (nat * string)) (r : option chat_error) (s' : dstate) : Prop :=
  s'.(wrote) = w /\ (a < s'.(at_))%nat /\
  match r with
  | None => requiresPromptReadiness adapter = false \/ exists q, (a <= q)%nat /\ S (S q) = s'.(at_) /\ idle_ready q
  | Some ErrAuthRequired => exists q, (a <= q < s'.(at_))%nat /\ (wall q = true \/ dwelt a q)
  | Some ErrUnrecognizedDialog => exists q, (a <= q < s'.(at_))%nat /\ stalled a q
  | Some e => meanwhile e
  end.

Definition goes_on (a : nat) (w : list (nat * string)) (x : readyState + option chat_error) (s' : dstate) : Prop :=
  match x with inl st => s'.(wrote) = w /\ (a < s'.(at_))%nat /\ timers a st s' | inr r => ready_post a w r s' end.

Lemma check_spec a st s : (a <= s.(at_))%nat -> timers a st s ->
  wp (check st) (fun c s' => goes_on a s.(wrote) (after_check c) s') s.
Proof.
  intros Ha [H1 H2]. unfold Submit.check. dsteps; cbn; unfold ready_post; cbn.
  - split; [done|split; [lia|]]. split; (eapply armed_later; [eassumption|cbn; lia]).
  - bprop. split; [done|split; [cbn; lia|right]]. exists s.(at_). split; [lia|split; [done|]].
    unfold idle_ready. split_and!; [done..|]. unfold busyQuietRemaining in Heqb0. cbn in Heqb0.
    destruct (lastBusy (tape (S (at_ s))) =? 0) eqn:E; bprop; [by left|right; lia].
  - split; [done|split; [cbn; lia|]]. exists s.(at_). split; [cbn; lia|by left].
  - split; [done|split; [lia|]]. split; cbn.
    + destruct (authRequired _ _ _) eqn:Hb; [|apply armed_none]. eapply armed_arm; [exact H1|lia|lia|done].
    + case_bool_decide; [|apply armed_none]. eapply armed_arm; [exact H2|lia|lia|done].
Qed.

Lemma timers_looks a st p w w' : timers a st (mkD p w) -> timers a st (mkD (S p) w').
Proof. intros [H1 H2]. split; (eapply armed_later; [eassumption|cbn; lia]). Qed.

(** The timer [s] was armed on what [p] says, and is due. *)
Lemma due_armed p gap a b s t : armed p gap a b s -> due t s = true -> exists q0, (a <= q0 < b)%nat /\ p q0 /\ (tape q0).(now) + gap <= t.
Proof.
  intros H Hd. destruct s as [z|]; [|done]. cbn in Hd. bprop. destruct (H z eq_refl) as (q & ? & ? & ->). eauto.
Qed.

Lemma blocked_post a w f e s' : inputBlocked f = Some e -> (a < s'.(at_))%nat -> s'.(wrote) = w -> ready_post a w (Some e) s'.
Proof. unfold inputBlocked, ready_post. intros He Ha Hw. split_and!; [done|done|]. by repeat case_match; simplify_eq. Qed.

Lemma ready_wake_spec a st s : (a < s.(at_))%nat -> timers a st (mkD (pred s.(at_)) s.(wrote)) ->
  wp (ready_wake st (tape (pred s.(at_)))) (fun x s' => goes_on a s.(wrote) x s') s.
Proof.
  intros Ha Ht. assert (Ht' : timers a st s) by (destruct s as [[|p] w]; [cbn in Ha; lia|by eapply timers_looks]).
  assert (Hsame : forall st', st' = st -> goes_on a s.(wrote) (inl st') s) by (intros st' ->; by split_and!).
  assert (Hchk : forall st' s1, timers a st' s1 -> (s.(at_) <= s1.(at_))%nat -> s1.(wrote) = s.(wrote) ->
    wp (c <-- check st' ;; ret (after_check c)) (fun x s' => goes_on a s.(wrote) x s') s1).
  { intros st' s1 Ht1 Hle Hw. dstep. eapply wp_mono; [|apply (check_spec a); [lia|done]]. intros c s2 H. dstep. by rewrite <- Hw. }
  unfold Submit.ready_wake. set (f := tape (pred s.(at_))). destruct (woke f) as [| |[|[|n]]| |b]; [..|destruct b].
  - dsteps; [|by apply Hsame]. cbn. unfold ready_post. cbn. split_and!; [done|lia|]. by destruct (busy st).
  - dsteps. destruct (isClosed f); [|by apply Hsame]. by split_and!.
  - dstep; [|dstep; by apply Hsame]. apply Hchk; [|done..]. exact Ht'.
  - destruct (due _ _) eqn:Hd; [|dstep; by apply Hsame]. dsteps; cbn; unfold ready_post; cbn.
    + split_and!; [done|lia|]. bprop. exists s.(at_). split; [lia|]. right. split_and!; [done|done|].
      destruct (due_armed _ _ _ _ _ _ (proj1 Ht) Hd) as (q0 & Hq & Hb & Hn). cbn in Hq. exists q0, (pred s.(at_)). split_and!; try lia; done.
    + split; [done|]. split; [lia|]. split; cbn; [apply armed_none|]. eapply armed_later; [apply Ht'|lia].
  - destruct (due _ _) eqn:Hd; [|dstep; by apply Hsame]. dsteps; cbn; unfold ready_post; cbn.
    + split_and!; [done|lia|]. bprop. exists s.(at_). split; [lia|]. split_and!; [done|done|].
      destruct (due_armed _ _ _ _ _ _ (proj2 Ht) Hd) as (q0 & Hq & Hb & Hn). cbn in Hq. exists q0, (pred s.(at_)). split_and!; try lia; done.
    + split; [done|]. split; [lia|]. split; cbn; [|apply armed_none]. eapply armed_later; [apply Ht'|lia].
  - dstep. dstep. destruct (inputBlocked _) as [e|] eqn:Hb; [|apply Hchk; [by destruct s; eapply timers_looks|cbn; lia|done]].
    dstep. cbn. by eapply blocked_post; [exact Hb|cbn; lia|].
  - dstep. dstep. destruct (inputBlocked _) as [e|] eqn:Hb; [|apply Hchk; [by destruct s; eapply timers_looks|cbn; lia|done]].
    dstep. cbn. by eapply blocked_post; [exact Hb|cbn; lia|].
  - dstep. by split_and!.
Qed.

Lemma ready_spec s : wp (waitReadyForSend fuel) (ready_post s.(at_) s.(wrote)) s.
Proof.
  unfold Submit.waitReadyForSend. dstep. dstep. destruct (inputBlocked _) as [e|] eqn:Hb.
  - dstep. by eapply blocked_post; [exact Hb|cbn; lia|].
  - destruct (requiresPromptReadiness adapter) eqn:Hr; cbn [negb].
    + dstep. eapply wp_mono; [|apply (check_spec s.(at_)); cbn; [lia|split; apply armed_none]].
      intros c s1 Hc. cbn in Hc. destruct (after_check c) as [st|r]; [|by dstep].
      apply (wp_loop fuel _ (fun st s' => goes_on s.(at_) s.(wrote) (inl st) s')); [|exact Hc].
      intros st' s2 (Hw & Ha & Ht). dstep. dstep. eapply wp_mono; [|apply (ready_wake_spec s.(at_) st' (mkD (S s2.(at_)) s2.(wrote)))]; cbn.
      * intros x s3 H. rewrite Hw in H. by destruct x.
      * lia.
      * by destruct s2.
    + dstep. unfold ready_post. cbn. split_and!; [done|lia|by left].
Qed.

(** ** A message and its submit key *)

(** What lets the submit key go: the composer shows the text; or it has
    changed, where the text itself is not to be looked for, or is no longer
    waited for; or the conversation is closing; or the wait is over. *)
Definition echoed (a : nat) (text pre : string) (framed : bool) (q : nat) : Prop :=
  let needle := echoNeedle text framed in
  needle <> "" /\ Contains (tape q).(screen) needle = true \/
  (tape q).(screen) <> pre /\ (needle = "" \/ exists w, (a <= w <= q)%nat /\ (tape a).(now) + echoBoundDur g / 2 <= (tape w).(now)) \/
  (tape q).(isClosed) = true \/ (tape a).(now) + echoBoundDur g <= (tape q).(now).

Lemma echo_spec text pre framed s :
  wp (awaitComposerEcho g tape fuel text pre framed) (fun err s' => waited s s' /\
    match err with None => echoed s.(at_) text pre framed (pred s'.(at_)) | Some e => exists c, e = ErrContext c end) s.
Proof.
  unfold awaitComposerEcho. dstep. dstep.
  apply (wp_loop fuel _ (fun (halfDone : bool) s' => waited s s' /\
    (halfDone = true -> exists w, (s.(at_) <= w < s'.(at_))%nat /\ (tape s.(at_)).(now) + echoBoundDur g / 2 <= (tape w).(now)))).
  2: { split; [apply waited_look|done]. }
  intros halfDone s1 [[Hat Hw] Hh]. unfold echoed.
  assert (Hon : forall p, (s1.(at_) <= p)%nat -> waited s (mkD (S p) s1.(wrote)) /\
    (halfDone = true -> exists w, (s.(at_) <= w < S p)%nat /\ (tape s.(at_)).(now) + echoBoundDur g / 2 <= (tape w).(now))).
  { intros p Hp. split; [split; cbn; [lia|done]|]. intros H. destruct (Hh H) as (w & ? & ?). exists w. split; [lia|done]. }
  dsteps; cbn.
  - bprop. split; [by apply (Hon s1.(at_))|]. by left.
  - bprop. split; [by apply (Hon s1.(at_))|]. right. left. split; [done|].
    destruct H as [H|H]; [right|left; by apply String.eqb_eq]. destruct (Hh H) as (w & ? & ?). exists w. split; [lia|done].
  - repeat case_match; bprop; simplify_eq; cbn; try (apply (Hon (S s1.(at_))); lia);
      try (split; [apply (Hon (S s1.(at_))); lia|]); eauto.
    intros _. exists (S s1.(at_)). split; [lia|done].
Qed.


(** ** An empty composer *)

Lemma repaint_spec s : wp (awaitRepaint tape fuel) (fun err s' => waited s s') s.
Proof.
  unfold awaitRepaint. dstep. dstep. apply (wp_loop fuel _ (fun _ s' => waited s s')); [|apply waited_look].
  intros st s1 H. dstep. dstep. dstep. assert (waited s (mkD (S s1.(at_)) s1.(wrote))) by (eapply waited_trans; [exact H|apply waited_look]).
  by repeat case_match.
Qed.

(** A round's keys, for what the composer was just read to hold. *)
Definition cleared (ir : Interrupter) (hint : string) (w : nat * string) : Prop :=
  exists q, w.1 = S q /\ ir.(ComposerText) (tape q).(screen) <> Some "" /\
    w.2 = ir.(ClearComposerSequence) (default hint (ir.(ComposerText) (tape q).(screen))).

Definition clear_post (ir : Interrupter) (hint : string) (n : nat) (first : bool) (s : dstate)
    (err : option chat_error) (s' : dstate) : Prop :=
  exists new, s'.(wrote) = (s.(wrote) ++ new)%list /\ (length new <= n)%nat /\ Forall (cleared ir hint) new /\
    (err = None -> ir.(ComposerText) (tape (pred s'.(at_))).(screen) = Some "" \/
       first = true /\ new = [] /\ hint = "" /\ ir.(ComposerText) (tape (pred s'.(at_))).(screen) = None).

Lemma clear_rounds_spec ir hint n : forall first s,
  wp (clear_rounds tape fuel ir hint n first) (clear_post ir hint n first s) s.
Proof.
  induction n as [|n IH]; intros first s; cbn [clear_rounds]; dstep; dstep; case_bool_decide as Ht;
    [dstep|dstep|dstep|].
  - exists []. cbn. rewrite app_nil_r. split_and!; auto.
  - exists []. cbn. rewrite app_nil_r. split_and!; auto. done.
  - exists []. cbn. rewrite app_nil_r. split_and!; auto with lia.
  - set (text := ir.(ComposerText) _). destruct (is_none text && negb first) eqn:H1.
    { dstep. exists []. cbn. rewrite app_nil_r. split_and!; auto with lia. done. }
    destruct (is_none text && (hint =s? "")) eqn:H2.
    { dstep. exists []. cbn. rewrite app_nil_r. bprop. split_and!; auto with lia. intros _. right.
      destruct H1 as [H1|H1]; [congruence|]. bprop. split_and!; auto. unfold text in H. by destruct (ComposerText ir _). }
    dstep. dstep.
    assert (Hc : cleared ir hint (S s.(at_), ir.(ClearComposerSequence) (default hint text))) by (exists s.(at_); auto).
    unfold write_err. cbn. destruct (writeOK _).
    + dstep. eapply wp_mono; [|apply repaint_spec]. intros [e|] s1 [_ Hw]; cbn in Hw.
      * dstep. eexists. rewrite Hw. split; [done|]. split_and!; [cbn; lia|by constructor|done].
      * eapply wp_mono; [|apply IH]. intros err s2 (new & E & L & F & Hn). eexists (_ :: new). rewrite E, Hw, <- app_assoc.
        split; [done|]. split_and!; [cbn; lia|by constructor|]. intros H. destruct (Hn H) as [?|(? & _)]; [by left|done].
    + dstep. eexists. split; [done|]. split_and!; [cbn; lia|by constructor|done].
Qed.
End Props.

(** ** When a message may be typed *)

Section Ready.
Context (anchored : string -> string -> bool) (adapter : Adapter) (harness : string) (g : gaps) (tape : nat -> frame) (fuel : nat).

(** The wait for a prompt types nothing. It lets a message through only at
    a screen that takes one, with the harness idle for the whole confirmation
    window; it calls the harness logged out only on a sign-in wall it saw, or
    on a banner two readings the dwell apart showed, the last on a screen that
    takes no message; and likewise a dialog it cannot read. *)
Theorem ready_means_idle r s s' :
  waitReadyForSend anchored adapter harness g tape fuel s = Some (r, s') ->
  s'.(wrote) = s.(wrote) /\
  match r with
  | None => requiresPromptReadiness adapter = false \/
      exists q, (s.(at_) <= q)%nat /\ S (S q) = s'.(at_) /\ idle_ready anchored adapter harness g tape q
  | Some ErrAuthRequired => exists q, (s.(at_) <= q < s'.(at_))%nat /\
      (onboardingWall anchored harness (tape q).(screen) = true \/ dwelt anchored adapter harness tape s.(at_) q)
  | Some ErrUnrecognizedDialog => exists q, (s.(at_) <= q < s'.(at_))%nat /\ stalled anchored adapter harness tape s.(at_) q
  | Some e => meanwhile e
  end.
Proof. intros H. destruct (wp_use _ _ _ _ _ (ready_spec anchored adapter harness g tape fuel s) H) as (? & _ & ?). by split. Qed.

(** A composer counts as emptied only when the screen last read shows it
    empty, or shows none and there was nothing to empty it of; at most four
    rounds of keys are typed, each for what the composer was just read to
    hold, and none into an empty one. *)
Theorem composer_emptied ir hint err s s' :
  clearComposer tape fuel ir hint s = Some (err, s') ->
  exists new, s'.(wrote) = (s.(wrote) ++ new)%list /\ (length new <= 4)%nat /\ Forall (cleared tape ir hint) new /\
    (err = None -> ir.(ComposerText) (tape (pred s'.(at_))).(screen) = Some "" \/
       new = [] /\ hint = "" /\ ir.(ComposerText) (tape (pred s'.(at_))).(screen) = None).
Proof.
  intros H. destruct (wp_use _ _ _ _ _ (clear_rounds_spec tape fuel ir hint composerClearRounds true s) H) as (new & E & L & F & Hn).
  exists new. split_and!; [done|exact L|done|]. intros He. destruct (Hn He) as [?|(_ & ?)]; auto.
Qed.
End Ready.

(** *** A harness whose screens are three words *)

Definition toy_anchored (id text : string) : bool := (id =s? "claude.loggedout.run_login") && (text =s? "login").
Definition toy_adapter : Adapter :=
  mkAdapter (Some (fun t => t =s? "ready")) (Some (fun t => t =s? "busy")) None None None None None None None.
Definition toy_gaps : gaps := mkGaps 0 0 0.
Definition shows (t : Z) (text : string) (busyAt : Z) (w : wake) : frame :=
  mkFrame t text None None false None false true busyAt None false true w.
Definition on_tape (l : list frame) (n : nat) : frame := nth n l (shows (100 * Second) "" 0 WakeInput).
Definition start : dstate := mkD 0 [].

(** Busy, then ready, then quiet for long enough. *)
Definition quiet_tape : nat -> frame := on_tape
  [shows 0 "busy" 0 WakeInput; shows 0 "busy" 0 WakeInput; shows Second "ready" 1 (WakeScreen true);
   shows Second "ready" 1 WakeInput; shows Second "ready" 1 WakeInput; shows Second "ready" 1 WakeInput;
   shows (3 * Second) "ready" 1 (WakeTimer 0); shows (3 * Second) "ready" 1 WakeInput; shows (3 * Second) "ready" 1 WakeInput].

Theorem ready_means_idle_witness :
  waitReadyForSend toy_anchored toy_adapter ClaudeCode toy_gaps quiet_tape 9 start = Some (None, mkD 9 []) /\
  (mkD 9 []).(wrote) = start.(wrote) /\
  (requiresPromptReadiness toy_adapter = false \/
   exists q, (start.(at_) <= q)%nat /\ S (S q) = (mkD 9 []).(at_) /\
     idle_ready toy_anchored toy_adapter ClaudeCode toy_gaps quiet_tape q).
Proof.
  assert (H : waitReadyForSend toy_anchored toy_adapter ClaudeCode toy_gaps quiet_tape 9 start = Some (None, mkD 9 []))
    by (vm_compute; reflexivity).
  split; [exact H|]. refine (ready_means_idle _ _ _ _ _ _ None _ _ H).
Defined.

Definition typed_tape : nat -> frame := on_tape
  [shows 0 "" 0 WakeInput; shows 0 "" 0 WakeInput; shows 1 "" 0 WakeInput; shows 1 "" 0 (WakeTimer 1); shows 2 "> hello" 0 WakeInput].


(** The banner's timer outlives a composer that is ready but was busy a moment
    ago: a banner seen for a tenth of a second counts as one that stayed. *)
Definition flicker_tape : nat -> frame := on_tape
  [shows 0 "login" 1 WakeInput; shows 0 "login" 1 WakeInput;
   shows (500 * Millisecond) "ready" 1 (WakeScreen true); shows (500 * Millisecond) "ready" 1 WakeInput;
   shows (500 * Millisecond) "ready" 1 WakeInput; shows (500 * Millisecond) "ready" 1 WakeInput;
   shows (1900 * Millisecond) "login" 1 (WakeScreen true); shows (1900 * Millisecond) "login" 1 WakeInput;
   shows (1900 * Millisecond) "login" 1 WakeInput; shows (2 * Second) "login" 1 (WakeTimer 1); shows (2 * Second) "login" 1 WakeInput].

Theorem dwell_outlives_ready_composer :
  waitReadyForSend toy_anchored toy_adapter ClaudeCode toy_gaps flicker_tape 9 start = Some (Some ErrAuthRequired, mkD 11 []) /\
  readyForInput toy_anchored toy_adapter ClaudeCode (flicker_tape 4).(screen) = true /\
  (flicker_tape 10).(now) - (flicker_tape 6).(now) = 100 * Millisecond.
Proof. split_and!; vm_compute; reflexivity. Qed.

(** ** Pastes *)

(** A terminal's reading of a paste: what lies between the markers, and what
    follows. *)
Fixpoint upto (m s : string) : option (string * string) :=
  match CutPrefix s m with
  | Some rest => Some ("", rest)
  | None => match s with
            | "" => None
            | String c s => match upto m s with Some (a, b) => Some (String c a, b) | None => None end
            end
  end.
Definition read_paste (s : string) : option (string * string) := CutPrefix s pasteStartCSI200 ≫= upto pasteEndCSI201.

Lemma overlap c w m : forall t r rest, no_byte c m -> m ++ r = t ++ String c (w ++ rest) -> String.prefix m t = true.
Proof.
  induction m as [|x m IH]; intros t r rest Hm H; [by destruct t|]. apply no_byte_cons in Hm as [Hx Hm].
  destruct t as [|y t]; cbn in H; injection H as -> H; [done|]. cbn. destruct (Ascii.ascii_dec y y); [|done]. by eapply IH.
Qed.

Lemma upto_marker c m rest : no_byte c m -> forall t, Contains t (String c m) = false ->
  upto (String c m) (t ++ String c m ++ rest) = Some (t, rest).
Proof.
  intros Hm. induction t as [|a t IH]; intros Ht.
  - assert (E : CutPrefix (String c (m ++ rest)) (String c m) = Some rest) by by apply CutPrefix_Some.
    change ("" ++ String c m ++ rest) with (String c (m ++ rest)). cbn [upto]. by rewrite E.
  - cbn [Contains] in Ht. apply orb_false_iff in Ht as [Hp Ht].
    change (String a t ++ String c m ++ rest) with (String a (t ++ String c m ++ rest)). cbn [upto].
    destruct (CutPrefix (String a (t ++ String c m ++ rest)) (String c m)) as [r|] eqn:E.
    + apply CutPrefix_Some in E. cbn [append] in E. injection E as -> E. exfalso.
      assert (Hx : HasPrefix (String c t) (String c m) = true); [|unfold HasPrefix in Hx; congruence].
      apply HasPrefix_spec. apply eq_sym, (overlap c m m t r rest Hm) in E.
      destruct (proj1 (HasPrefix_spec m t) E) as [x ->]. by exists x.
    + by rewrite IH.
Qed.

(** A framed prompt reaches the terminal whole, and nothing after it is
    taken for part of it, when no end marker is left in the text. *)
Theorem paste_read_back text rest :
  let clean := RemoveAll pasteEndCSI201 (RemoveAll pasteStartCSI200 text) in
  Contains clean pasteEndCSI201 = false ->
  read_paste (framePaste pasteStartCSI200 pasteEndCSI201 text ++ rest) = Some (clean, rest).
Proof.
  intros clean Hc. unfold read_paste, framePaste. fold clean. rewrite !append_assoc.
  replace (CutPrefix (pasteStartCSI200 ++ clean ++ pasteEndCSI201 ++ rest) pasteStartCSI200) with (Some (clean ++ pasteEndCSI201 ++ rest))
    by (symmetry; by apply CutPrefix_Some).
  cbn [mbind option_bind]. apply upto_marker; [|done]. repeat (apply no_byte_cons; split; [done|]). apply no_byte_nil.
Qed.

(** Markers that only appear once others are taken out survive: this prompt
    ends its own paste after one letter, and submits itself. *)
Theorem nested_marker_ends_paste :
  let text := "a" ++ esc ++ "[20" ++ pasteEndCSI201 ++ "1~" ++ esc ++ "[13urm" in
  read_paste (framePaste pasteStartCSI200 pasteEndCSI201 text) = Some ("a", esc ++ "[13urm" ++ pasteEndCSI201).
Proof. vm_compute. reflexivity. Qed.
