(* ===== verification/PermMode.v ===== *)
(** Switching the permission mode of a running harness
    (src/internal/chatcore/permmode.go): pressing Shift+Tab, or submitting
    /plan, until the screen shows the posture asked for, and cycling back to
    the starting rung when it never does.

    [codexPlanRefusalRE] is a parameter: the pattern's match on a screen. *)
From Stdlib Require Import ZArith Ascii String Lia.
From stdpp Require Import base tactics list strings option gmap.
From S2P Require Import Prelude GoStr Bytes HarnessName Launch Verdict Terminal Drive Submit.

#[local] Open Scope string_scope.
#[local] Open Scope go_scope.
#[local] Open Scope Z_scope.
#[local] Open Scope drive_scope.

Definition codexCollabPlan : string := "plan".
Definition codexCollabDefault : string := "default".
Definition permissionRungBypass : string := "bypass".
Definition defaultPermissionModeRenderTimeout : Z := 2 * Submit.Second.
Definition codexPlanRetryAttempts : nat := 5.

Definition permModeRenderBudget (g : gaps) : Z :=
  if 0 <? g.(permModeRenderTimeout) then g.(permModeRenderTimeout) else defaultPermissionModeRenderTimeout.

(** postureMatch. *)
Definition matchTarget (target : string) (p : PermissionPosture) : bool := (p.(Rung) =s? target) && p.(OnRing).
Definition matchRung (rung : string) (p : PermissionPosture) : bool := p.(Rung) =s? rung.

(** Posture equality, on all three fields. *)
Definition posture_eqb (p q : PermissionPosture) : bool := bool_decide (p = q).

Definition permissionModeCapabilities (harness : string) : option (list string) :=
  if Canonical harness =s? ClaudeCode then Some PermissionRungs
  else if Canonical harness =s? Codex then Some [codexCollabPlan; codexCollabDefault]
  else None.

Definition argsContainFlag (args flags : list string) : bool :=
  any (fun a => any (fun f => (a =s? f) || HasPrefix a (f ++ "=")) flags) args.

Definition cycleRing (harness : string) (args : list string) (mode : string) : nat * bool :=
  if harness =s? Codex then (2%nat, false)
  else
    let rung := EffectiveLaunchRung ClaudeCode args mode in
    if rung =s? permissionRungBypass then (5%nat, true)
    else if argsContainFlag args (BypassReachableFlags ClaudeCode) then (5%nat, true)
    else if rung =s? "" then (5%nat, true)
    else (4%nat, false).

Section PermMode.
Context (anchored : string -> string -> bool) (codexPlanRefusalRE : string -> bool).
Context (adapter : Adapter) (harness : string) (g : gaps).
(** Options.Args and Options.PermissionMode. *)
Context (args : list string) (launchMode : string).
Context (tape : nat -> frame) (fuel : nat).

Notation look := (look tape).
Notation write := (write tape).

Definition PermissionMode (f : frame) : string * bool :=
  match adapter.(modeDetector) with Some d => d f.(screen) | None => ("", false) end.

Definition permissionPosture (f : frame) : PermissionPosture * bool :=
  match adapter.(postureDetector) with
  | Some d => d f.(screen)
  | None => let '(rung, ok) := PermissionMode f in (mkPosture rung "" ok, ok)
  end.

(** ** The two waits *)

Definition press_gate (observed : string) (expiry : Z) : M (option (option chat_error)) :=
  f <-- look ;;
  match f.(currentInput) with
  | None => ret (Some None)
  | Some req =>
    let blocked := PermissionModeBlockedError (toClientInputRequest req) observed in
    if f.(inputSurfaced) then ret (Some (Some blocked))
    else
      f <-- look ;;
      match f.(ctx) with
      | Some e => ret (Some (Some (ErrContext e)))
      | None =>
        f <-- look ;;
        if f.(isClosed) then ret (Some (Some ErrClosed))
        else f <-- look ;; ret (if expiry <? f.(now) then Some (Some blocked) else None)
      end
  end.

Definition pressGate (observed : string) : M (option chat_error) :=
  f <-- look ;; poll fuel (press_gate observed (f.(now) + permModeRenderBudget g)).

Definition await_input (prev : PermissionPosture) : M (option (PermissionPosture * option chat_error)) :=
  f <-- look ;;
  if inputAwaitingClient f then
    f <-- look ;;
    match PendingInput f with
    | Some req =>
      f <-- look ;;
      let '(observed, ok) := permissionPosture f in
      let observed := if ok then observed else prev in
      ret (Some (observed, Some (PermissionModeBlockedError req observed.(Rung))))
    | None => ret None
    end
  else ret None.

(** The posture now, with the reason the drive ends. *)
Definition ending (err : option chat_error) : M (option (PermissionPosture * option chat_error)) :=
  f <-- look ;; ret (Some ((permissionPosture f).1, err)).

Definition await_posture (prev : PermissionPosture) (expiry : Z) : M (option (PermissionPosture * option chat_error)) :=
  x <-- await_input prev ;;
  match x with
  | Some r => ret (Some r)
  | None =>
    f <-- look ;;
    let '(observed, ok) := permissionPosture f in
    if ok && negb (posture_eqb observed prev) then ret (Some (observed, None))
    else
      f <-- look ;;
      match f.(ctx) with
      | Some e => ending (Some (ErrContext e))
      | None =>
        f <-- look ;;
        if f.(isClosed) then ending (Some ErrClosed)
        else f <-- look ;; if expiry <? f.(now) then ending None else ret None
      end
  end.

Definition awaitPostureChange (prev : PermissionPosture) : M (PermissionPosture * option chat_error) :=
  f <-- look ;; poll fuel (await_posture prev (f.(now) + permModeRenderBudget g)).

Definition keep (observed last : PermissionPosture) : PermissionPosture :=
  if observed.(Rung) =s? "" then last else observed.

(** ** The drives *)

Fixpoint presses (keys : string) (arrived : PermissionPosture -> bool) (bound : nat) (last : PermissionPosture)
    : M (string * option chat_error) :=
  if arrived last then ret (last.(Rung), None)
  else
    match bound with
    | O => ret (last.(Rung), Some errPermissionModeBoundExhausted)
    | S bound =>
      err <-- pressGate last.(Rung) ;;
      match err with
      | Some e => ret (last.(Rung), Some e)
      | None =>
        f <-- write keys ;;
        if negb f.(writeOK) then ret (last.(Rung), Some ErrWrite)
        else
          ' (observed, err) <-- awaitPostureChange last ;;
          let last := keep observed last in
          match err with
          | Some e => ret (last.(Rung), Some e)
          | None => presses keys arrived bound last
          end
      end
    end.

Definition cyclePermissionMode (arrived : PermissionPosture -> bool) (bound : nat) : M (string * option chat_error) :=
  f <-- look ;;
  let keys := shiftTabForHarness harness f.(screen) in
  if keys =s? "" then f <-- look ;; ret ((PermissionMode f).1, Some ErrPermissionModeUnsupported)
  else f <-- look ;; presses keys arrived bound (permissionPosture f).1.

(** ctxAborted: the context's error, once a refusal was seen, is told as busy. *)
Definition busy_if (refused : bool) (err : chat_error) : chat_error :=
  match err with ErrContext e => if refused then ErrCodexPlanRefusedBusy (Some e) else err | _ => err end.

Fixpoint plan_attempts (attempts : nat) (refused : bool) (last : PermissionPosture) : M (string * option chat_error) :=
  match attempts with
  | O => ret (last.(Rung), Some (if refused then ErrCodexPlanRefusedBusy None else errPermissionModeBoundExhausted))
  | S attempts =>
    err <-- pressGate last.(Rung) ;;
    match err with
    | Some e => ret (last.(Rung), Some (busy_if refused e))
    | None =>
      f <-- look ;;
      f <-- write ("/plan" ++ submitKeyForHarness harness f.(screen)) ;;
      if negb f.(writeOK) then ret (last.(Rung), Some ErrWrite)
      else
        ' (observed, err) <-- awaitPostureChange last ;;
        let last := keep observed last in
        match err with
        | Some e => ret (last.(Rung), Some (busy_if refused e))
        | None =>
          if last.(Rung) =s? codexCollabPlan then ret (last.(Rung), None)
          else f <-- look ;; plan_attempts attempts (refused || codexPlanRefusalRE f.(screen)) last
        end
    end
  end.

Definition codexEnterPlan : M (string * option chat_error) :=
  f <-- look ;; plan_attempts codexPlanRetryAttempts false (permissionPosture f).1.

Definition driveToPermissionMode (target : string) (bound : nat) : M (string * option chat_error) :=
  if (harness =s? Codex) && (target =s? codexCollabPlan) then codexEnterPlan
  else cyclePermissionMode (matchTarget target) bound.

Definition exhausted (err : option chat_error) : bool :=
  match err with Some errPermissionModeBoundExhausted => true | _ => false end.

(** From the starting posture on. *)
Definition switch (target : string) (bound : nat) (start : PermissionPosture) : M (string * option chat_error) :=
  if matchTarget target start then ret (start.(Rung), None)
  else
    ' (final, err) <-- driveToPermissionMode target bound ;;
    if negb (exhausted err) then ret (final, err)
    else
      ' (restored, rerr) <-- cyclePermissionMode (matchRung start.(Rung)) bound ;;
      match rerr with
      | None => ret (restored, Some (ErrPermissionModeSwitchFailed true))
      | Some e =>
        if negb (exhausted rerr) then ret (restored, Some e)
        else if MorePermissive restored start.(Rung) then ret (restored, Some ErrPermissionModeIndeterminate)
        else ret (restored, Some (ErrPermissionModeSwitchFailed false))
      end.

(** SetPermissionMode, of a conversation on a terminal. *)
Definition SetPermissionMode (target : string) : M (string * option chat_error) :=
  f <-- look ;;
  if f.(isClosed) then ret ("", Some ErrClosed)
  else
    match permissionModeCapabilities harness with
    | None => ret ("", Some ErrPermissionModeUnsupported)
    | Some targets =>
      if negb (any (String.eqb target) targets) then ret ("", Some ErrPermissionModeUnreachable)
      else
        f <-- look ;;
        if negb f.(held) then ret ("", Some ErrNoControl)
        else
          f <-- look ;;
          if f.(inFlight) then ret ("", Some ErrTurnInFlight)
          else
            let '(ringLen, bypassOnRing) := cycleRing harness args launchMode in
            if (target =s? permissionRungBypass) && negb bypassOnRing then ret ("", Some ErrPermissionModeUnreachable)
            else
              err <-- waitReadyForSend anchored adapter harness g tape fuel ;;
              match err with
              | Some e => f <-- look ;; ret ((PermissionMode f).1, Some e)
              | None => f <-- look ;; switch target (2 * ringLen)%nat (permissionPosture f).1
              end
    end.
End PermMode.
