(* ===== verification/PermModeProps.v ===== *)
(** What SetPermissionMode promises, whatever the harness paints, the clock
    reads and the caller's context does between any two of its reads. *)
From Stdlib Require Import ZArith Ascii String Lia.
From stdpp Require Import base tactics list strings option gmap.
From S2P Require Import Prelude GoStr Bytes HarnessName Launch Verdict Terminal Drive Submit SubmitProps PermMode.

#[local] Open Scope string_scope.
#[local] Open Scope go_scope.
#[local] Open Scope nat_scope.
#[local] Open Scope drive_scope.

Section Props.
Context (anchored : string -> string -> bool) (codexPlanRefusalRE : string -> bool).
Context (adapter : Adapter) (harness : string) (g : gaps) (args : list string) (launchMode : string).
Context (tape : nat -> frame) (fuel : nat).

Notation posture q := (permissionPosture adapter (tape q)).1.
Notation pressGate := (pressGate g tape fuel).
Notation awaitPostureChange := (awaitPostureChange adapter g tape fuel).
Notation presses := (presses adapter g tape fuel).
Notation cyclePermissionMode := (cyclePermissionMode adapter harness g tape fuel).
Notation plan_attempts := (plan_attempts codexPlanRefusalRE adapter harness g tape fuel).
Notation codexEnterPlan := (codexEnterPlan codexPlanRefusalRE adapter harness g tape fuel).
Notation switch := (switch codexPlanRefusalRE adapter harness g tape fuel).
Notation SetPermissionMode := (SetPermissionMode anchored codexPlanRefusalRE adapter harness g args launchMode tape fuel).

(** ** The waits *)

(** What ends a drive from outside. *)
Definition outside (e : chat_error) : Prop :=
  match e with PermissionModeBlockedError _ _ | ErrContext _ | ErrClosed => True | _ => False end.

(** A posture read in the call, which began at [a]. *)
Definition read_in (a : nat) (s : dstate) (p : PermissionPosture) : Prop :=
  exists q, a <= q < s.(at_) /\ p = posture q.

Lemma read_later a s s' p : read_in a s p -> s.(at_) <= s'.(at_) -> read_in a s' p.
Proof. intros (q & ? & ?) ?. exists q. split; [lia|done]. Qed.

Lemma gate_spec observed s :
  wp (pressGate observed) (fun err s' => waited s s' /\
    match err with None => s.(at_) < s'.(at_) /\ (tape (pred s'.(at_))).(currentInput) = None | Some e => outside e end) s.
Proof.
  unfold PermMode.pressGate. dsteps.
  apply (wp_poll fuel _ (waited s)); [|apply waited_look].
  intros s1 [Hat Hw]. unfold press_gate. dsteps; cbn; unfold waited; cbn; repeat case_match; simplify_eq; split_and?; (lia || done).
Qed.

Lemma await_spec a prev s : a <= s.(at_) -> read_in a s prev ->
  wp (awaitPostureChange prev) (fun r s' => waited s s' /\ read_in a s' r.1 /\
    match r.2 with None => True | Some e => outside e end) s.
Proof.
  intros Ha Hp. unfold PermMode.awaitPostureChange. dsteps.
  apply (wp_poll fuel _ (waited s)); [|apply waited_look].
  intros s1 [Hat Hw]. unfold await_posture, await_input, ending.
  assert (Hnew : forall q s', s1.(at_) <= q -> q < s'.(at_) -> read_in a s' (posture q)).
  { intros q s' H1 H2. exists q. split; [lia|done]. }
  assert (Hold : forall s', s1.(at_) <= s'.(at_) -> read_in a s' prev) by (intros s' H; apply (read_later a s); [done|lia]).
  dsteps; cbn in *; unfold waited; cbn; repeat case_match; simplify_eq;
    repeat match goal with H : permissionPosture adapter (tape ?q) = (?x, _) |- _ =>
      assert (x = posture q) by (by rewrite H); clear H end; subst;
    split_and?; cbn; try lia; try done; first [apply Hnew; cbn; lia|apply Hold; cbn; lia].
Qed.

(** ** What is typed *)

(** A keystroke of a drive: made within two reads of one that saw no dialog
    pending. *)
Definition typed (w : nat * string) : Prop :=
  (w.2 = shiftTabCSI9_2u \/ exists screen, w.2 = "/plan" ++ submitKeyForHarness harness screen) /\
  exists q, q < w.1 <= q + 2 /\ (tape q).(currentInput) = None.

(** At most [n] of them, made meanwhile. *)
Definition drove (n : nat) (s s' : dstate) : Prop :=
  s.(at_) <= s'.(at_) /\ exists new, s'.(wrote) = (s.(wrote) ++ new)%list /\ List.length new <= n /\
    Forall typed new /\ Forall (fun w => s.(at_) <= w.1) new.

Lemma drove_waited s s' : waited s s' -> drove 0 s s'.
Proof. intros [H1 H2]. split; [lia|]. exists []. rewrite app_nil_r. auto. Qed.

Lemma drove_refl s : drove 0 s s.
Proof. split; [lia|]. exists []. rewrite app_nil_r. auto. Qed.

Lemma drove_trans n m s1 s2 s3 : drove n s1 s2 -> drove m s2 s3 -> drove (n + m) s1 s3.
Proof.
  intros (H1 & l1 & E1 & L1 & T1 & A1) (H2 & l2 & E2 & L2 & T2 & A2). split; [lia|].
  exists (l1 ++ l2)%list. rewrite E2, E1, app_assoc, length_app. split_and!; [done|lia|by apply Forall_app|].
  apply Forall_app. split; [done|]. eapply Forall_impl; [exact A2|]. cbn. intros. lia.
Qed.

Lemma drove_le n m s s' : drove n s s' -> n <= m -> drove m s s'.
Proof. intros (H & l & ? & ? & ? & ?) ?. split; [done|]. exists l. split_and!; auto; lia. Qed.

Lemma drove_looks n p w s' : drove n (mkD (S p) w) s' -> drove n (mkD p w) s'.
Proof.
  apply (drove_trans 0 n _ (mkD (S p) w)). split; [cbn; lia|]. exists []. cbn. rewrite app_nil_r. auto.
Qed.

Lemma drove_looked n s s' : drove n s s' -> drove n s (mkD (S s'.(at_)) s'.(wrote)).
Proof. intros (H & l & ?). split; [cbn; lia|]. by exists l. Qed.

Lemma drove_write s keys q : q < s.(at_) <= q + 2 -> (tape q).(currentInput) = None ->
  (keys = shiftTabCSI9_2u \/ exists screen, keys = "/plan" ++ submitKeyForHarness harness screen) ->
  drove 1 s (mkD (S s.(at_)) (s.(wrote) ++ [(s.(at_), keys)])).
Proof.
  intros Hq Hn Hk. split; [cbn; lia|]. exists [(s.(at_), keys)]. split_and!; [done|cbn; lia| |by constructor].
  constructor; [|done]. split; [done|]. by exists q.
Qed.

(** ** The drives *)

(** A drive's error: from outside, or one of [others]. *)
Definition ended (others : dstate -> chat_error -> Prop) (s : dstate) (err : option chat_error) : Prop :=
  match err with None | Some errPermissionModeBoundExhausted => True | Some e => outside e \/ others s e end.

(** What a drive from [s] that began its call at [a] ends with. *)
Definition drive_post (a n : nat) (ok : PermissionPosture -> Prop) (others : dstate -> chat_error -> Prop) (s : dstate)
    (r : string * option chat_error) (s' : dstate) : Prop :=
  drove n s s' /\ (exists p, read_in a s' p /\ r.1 = p.(Rung) /\ (r.2 = None -> ok p)) /\
  ended others s' r.2.

Lemma drive_post_le a n m k ok ok' others others' s1 s2 r s3 :
  drove n s1 s2 -> drive_post a m ok others s2 r s3 -> n + m <= k -> (forall p, ok p -> ok' p) ->
  (forall e, others s3 e -> others' s3 e) -> drive_post a k ok' others' s1 r s3.
Proof.
  intros H1 (H2 & (p & Hp & Hr & Hok) & He) Hk Hok' Ho.
  split; [by eapply drove_le; [eapply drove_trans|]|]. split; [exists p; auto|].
  unfold ended in *. destruct (r.2) as [[]|]; try done; destruct He as [?|?]; auto.
Qed.

Lemma drive_stop a n ok others s s' p err : drove n s s' -> read_in a s' p -> (err = None -> ok p) ->
  ended others s' err -> drive_post a n ok others s (p.(Rung), err) s'.
Proof. intros Hd Hp Hok He. split; [done|]. split; [exists p; auto|done]. Qed.

Lemma keep_read a s observed last : read_in a s observed -> read_in a s last -> read_in a s (keep observed last).
Proof. intros. unfold keep. by destruct (_ =s? _). Qed.

(** The error is one from outside. *)
Ltac from_outside := match goal with H : outside ?e |- _ => destruct e; cbn in *; auto end.

(** After the gate, a keystroke and the wait for the screen to answer it. *)
Lemma stroke_spec a n keys last ok others (stop : string * option chat_error) f s s1 : a <= s.(at_) -> read_in a s last ->
  drove 0 s s1 -> (exists q, q < s1.(at_) <= q + 2 /\ (tape q).(currentInput) = None) ->
  (keys = shiftTabCSI9_2u \/ exists screen, keys = "/plan" ++ submitKeyForHarness harness screen) ->
  stop = (last.(Rung), Some ErrWrite) -> (forall s', others s' ErrWrite) ->
  (forall observed err s2, drove 1 s s2 -> read_in a s2 (keep observed last) ->
     match err with None => True | Some e => outside e end ->
     wp (f (observed, err)) (drive_post a (S n) ok others s) s2) ->
  wp (fr <-- write tape keys ;; if negb fr.(writeOK) then ret stop else x <-- awaitPostureChange last ;; f x)
    (drive_post a (S n) ok others s) s1.
Proof.
  intros Ha Hl Hd (q & Hq & Hn) Hk -> Ho Hf. pose proof (proj1 Hd) as Hat. dstep. dstep.
  assert (Hw : drove 1 s (mkD (S s1.(at_)) (s1.(wrote) ++ [(s1.(at_), keys)]))).
  { apply (drove_trans 0 1 s s1); [done|]. apply (drove_write s1 keys q); auto; lia. }
  destruct (writeOK _); cbn [negb].
  - dstep. eapply wp_mono; [|apply (await_spec a last)]; cbn; [|lia|apply (read_later a s); [done|cbn; lia]].
    intros [observed err] s2 ([H1 H2] & Hr & He). cbn in *. apply Hf; [|apply keep_read; [done|]|done].
    + apply (drove_trans 1 0 s _ s2 Hw). by apply drove_waited.
    + apply (read_later a s); [done|lia].
  - dstep. apply drive_stop; [by eapply drove_le; [exact Hw|lia]|apply (read_later a s); [done|cbn; lia]|done|right; apply Ho].
Qed.

Lemma presses_spec a arrived bound : forall last s, a <= s.(at_) -> read_in a s last ->
  wp (presses shiftTabCSI9_2u arrived bound last)
    (drive_post a bound (fun p => arrived p = true) (fun _ e => e = ErrWrite) s) s.
Proof.
  induction bound as [|bound IH]; intros last s Ha Hl; cbn [PermMode.presses]; destruct (arrived last) eqn:Harr.
  - dstep. by apply drive_stop; [apply drove_refl|..].
  - dstep. by apply drive_stop; [apply drove_refl|..].
  - dstep. by apply drive_stop; [eapply drove_le; [apply drove_refl|lia]|..].
  - dstep. eapply wp_mono; [|apply gate_spec]. intros [e|] s1 [Hw Hg].
    + dstep. pose proof (proj1 Hw). apply drive_stop; [eapply drove_le; [by apply drove_waited|lia]|apply (read_later a s); [done|lia]|done|].
      from_outside.
    + destruct Hg as [Hlt Hn]. apply (stroke_spec a bound _ last _ _ _ _ s); try done; [by apply drove_waited|exists (pred s1.(at_)); split; [lia|done]|by left|].
      intros observed err s2 Hd Hr He. destruct err as [e|].
      * dstep. apply drive_stop; [by eapply drove_le; [exact Hd|lia]|done|done|from_outside].
      * eapply wp_mono; [|apply IH]; [|destruct Hd as [? _]; lia|done].
        intros r s3 Hp. by eapply (drive_post_le a 1 bound).
Qed.

Lemma cycle_spec a arrived bound s : a <= s.(at_) -> Unalias harness = ClaudeCode \/ Unalias harness = Codex ->
  wp (cyclePermissionMode arrived bound) (drive_post a bound (fun p => arrived p = true) (fun _ e => e = ErrWrite) s) s.
Proof.
  intros Ha Hh. unfold PermMode.cyclePermissionMode. dstep. dstep.
  replace (shiftTabForHarness harness _) with shiftTabCSI9_2u by (unfold shiftTabForHarness; by destruct Hh as [-> | ->]).
  change (shiftTabCSI9_2u =s? "") with false. cbv beta iota. dstep. dstep. eapply wp_mono; [|apply (presses_spec a)]; cbn; [|lia|exists (S s.(at_)); cbn; split; [lia|done]].
  intros r s' (H & Hr & He). split; [|done]. by do 2 apply drove_looks in H; destruct s.
Qed.

(** A refusal was painted in the call. *)
Definition refusal_seen (a : nat) (s : dstate) : Prop :=
  exists q, a <= q < s.(at_) /\ codexPlanRefusalRE (tape q).(screen) = true.

Definition plan_error (a : nat) (s : dstate) (e : chat_error) : Prop :=
  match e with ErrWrite => True | ErrCodexPlanRefusedBusy _ => refusal_seen a s | _ => False end.

Lemma refusal_later a s s' : refusal_seen a s -> s.(at_) <= s'.(at_) -> refusal_seen a s'.
Proof. intros (q & ? & ?) ?. exists q. split; [lia|done]. Qed.

Lemma busy_if_post a s refused e : outside e -> (refused = true -> refusal_seen a s) ->
  ended (plan_error a) s (Some (busy_if refused e)).
Proof. intros He Hr. unfold ended. destruct e, refused; cbn in *; auto. Qed.

Lemma plan_spec a attempts : forall refused last s, a <= s.(at_) -> read_in a s last ->
  (refused = true -> refusal_seen a s) ->
  wp (plan_attempts attempts refused last)
    (drive_post a attempts (fun p => p.(Rung) = codexCollabPlan) (plan_error a) s) s.
Proof.
  induction attempts as [|n IH]; intros refused last s Ha Hl Hrf; cbn [PermMode.plan_attempts].
  - dstep. apply drive_stop; [apply drove_refl|done|by destruct refused|]. destruct refused; cbn; auto.
  - dstep. eapply wp_mono; [|apply gate_spec]. intros [e|] s1 [Hw Hg]; pose proof (proj1 Hw) as Hat.
    + dstep. apply drive_stop; [eapply drove_le; [by apply drove_waited|lia]|apply (read_later a s); [done|lia]|done|].
      apply busy_if_post; [done|]. intros H. apply (refusal_later a s); [auto|lia].
    + destruct Hg as [_ Hn]. dstep. dstep.
      apply (stroke_spec a n _ last _ _ _ _ s); try done.
      * by apply drove_looked, drove_waited.
      * exists (pred s1.(at_)). cbn. split; [lia|done].
      * right. by eexists.
      * intros observed err s2 Hd Hr He. pose proof (proj1 Hd) as Hat2. destruct err as [e|].
        -- dstep. apply drive_stop; [by eapply drove_le; [exact Hd|lia]|done|done|].
           apply busy_if_post; [done|]. intros H. apply (refusal_later a s); [auto|lia].
        -- destruct (Rung (keep observed last) =s? codexCollabPlan) eqn:Hplan.
           ++ dstep. apply drive_stop; [by eapply drove_le; [exact Hd|lia]|done| |done]. intros _. by bprop.
           ++ dstep. dstep. eapply wp_mono; [|apply IH]; cbn.
              ** intros r s3 Hp. eapply (drive_post_le a 1 n); [|exact Hp|lia|done|done].
                 by apply drove_looked.
              ** lia.
              ** apply (read_later a s2); [done|cbn; lia].
              ** intros [H|H]%orb_true_iff; [apply (refusal_later a s); [auto|cbn; lia]|].
                 exists s2.(at_). cbn. split; [lia|done].
Qed.

(** ** The whole call *)

Definition arrived_at (target : string) (p : PermissionPosture) : Prop :=
  p.(Rung) = target /\ (p.(OnRing) = true \/ harness = Codex /\ target = codexCollabPlan).

Lemma matchTarget_arrived target p : matchTarget target p = true -> arrived_at target p.
Proof. unfold matchTarget, arrived_at. intros H. bprop. auto. Qed.

Lemma drive_to_spec a target bound s : a <= s.(at_) -> Unalias harness = ClaudeCode \/ Unalias harness = Codex ->
  wp (driveToPermissionMode codexPlanRefusalRE adapter harness g tape fuel target bound)
    (drive_post a (Nat.max 5 bound) (arrived_at target) (plan_error a) s) s.
Proof.
  intros Ha Hh. unfold driveToPermissionMode. destruct (_ && _) eqn:Hc.
  - apply andb_true_iff in Hc as [Hc Ht]. apply String.eqb_eq in Hc, Ht. unfold PermMode.codexEnterPlan. dstep. dstep.
    eapply wp_mono; [|apply (plan_spec a)]; cbn; [|lia|exists s.(at_); cbn; split; [lia|done]|done].
    intros r s' Hp. eapply (drive_post_le a 0 5); [|exact Hp|lia| |done].
    + split; [cbn; lia|]. exists []. rewrite app_nil_r. auto.
    + intros p Hpl. split; [by rewrite Ht|auto].
  - eapply wp_mono; [|by apply (cycle_spec a)]. intros r s' Hp.
    eapply (drive_post_le a 0 bound); [apply drove_refl|exact Hp|lia|apply matchTarget_arrived|]. by intros e ->.
Qed.

(** What the answer says, when the call began at [a] and the drive at [q]. *)
Definition honest (a : nat) (target : string) (start : PermissionPosture) (r : string * option chat_error) (s' : dstate) : Prop :=
  match r.2 with
  | None => r.1 = target /\ exists p, read_in a s' p /\ arrived_at target p
  | Some (ErrPermissionModeSwitchFailed restored) =>
    MorePermissive r.1 start.(Rung) = false /\ (restored = true -> r.1 = start.(Rung))
  | Some ErrPermissionModeIndeterminate => MorePermissive r.1 start.(Rung) = true
  | Some (ErrCodexPlanRefusedBusy _) => refusal_seen a s'
  | Some e => outside e \/ e = ErrWrite
  end /\ exists p, read_in a s' p /\ r.1 = p.(Rung).

Lemma MorePermissive_irrefl r : MorePermissive r r = false.
Proof. unfold MorePermissive. destruct (_ || _); [done|]. by rewrite Z.ltb_irrefl. Qed.

Lemma switch_spec a target bound start s : a <= s.(at_) -> read_in a s start ->
  Unalias harness = ClaudeCode \/ Unalias harness = Codex ->
  wp (switch target bound start) (fun r s' => drove (Nat.max 5 bound + bound) s s' /\ honest a target start r s') s.
Proof.
  intros Ha Hs Hh. unfold PermMode.switch. destruct (matchTarget target start) eqn:Hm.
  - dstep. split; [eapply drove_le; [apply drove_refl|lia]|]. apply matchTarget_arrived in Hm. unfold honest. cbn.
    split; [|by exists start]. split; [apply Hm|by exists start].
  - dstep. eapply wp_mono; [|by apply (drive_to_spec a)]. intros [final err] s1 (Hd & (p & Hp & Hr & Hok) & He). cbn in *.
    pose proof (proj1 Hd) as Hat. destruct (exhausted err) eqn:Hex; cbn [negb].
    + dstep. eapply wp_mono; [|apply (cycle_spec a)]; [|lia|done].
      intros [restored rerr] s2 (Hd2 & (p2 & Hp2 & Hr2 & Hok2) & He2). cbn in *.
      assert (Hd' : drove (Nat.max 5 bound + bound) s s2) by by eapply drove_trans.
      destruct rerr as [e|]; [destruct (exhausted (Some e)) eqn:Hex2; cbn [negb]; [destruct (MorePermissive restored (Rung start)) eqn:Hmp|]|];
        dstep; (split; [exact Hd'|]); (split; [|by exists p2]); cbn.
      * done.
      * split; [done|done].
      * destruct e; try done; destruct He2 as [?|?]; auto; done.
      * specialize (Hok2 eq_refl). unfold matchRung in Hok2. bprop. split; [|congruence]. rewrite Hr2, Hok2. apply MorePermissive_irrefl.
    + dstep. split; [eapply drove_le; [exact Hd|lia]|]. split; [|by exists p]. destruct err as [e|]; cbn in *.
      * destruct e; try done; destruct He as [?|?]; auto; done.
      * specialize (Hok eq_refl). split; [rewrite Hr; apply Hok|by exists p].
Qed.

(** Everything about a call at once: the start, read at [q], and the drive. *)
Definition call_post (target : string) (s : dstate) (r : string * option chat_error) (s' : dstate) : Prop :=
  exists q, s.(at_) <= q /\ exists new, s'.(wrote) = (s.(wrote) ++ new)%list /\ List.length new <= 20 /\
    Forall typed new /\ Forall (fun w => q < w.1) new /\
    (honest q target (posture q) r s' \/
     new = [] /\ match r.2 with
                 | Some (ErrPermissionModeSwitchFailed _) | Some ErrPermissionModeIndeterminate
                 | Some (ErrCodexPlanRefusedBusy _) | None => False
                 | _ => True
                 end).

Lemma call_refused target s r s' : s'.(wrote) = s.(wrote) ->
  match r.2 with
  | Some (ErrPermissionModeSwitchFailed _) | Some ErrPermissionModeIndeterminate | Some (ErrCodexPlanRefusedBusy _) | None => False
  | _ => True
  end -> call_post target s r s'.
Proof.
  intros Hw Hr. exists s.(at_). split; [lia|]. exists []. rewrite Hw, app_nil_r. split_and!; auto. cbn. lia.
Qed.

Lemma ring_small : 2 * (cycleRing harness args launchMode).1 <= 10.
Proof. unfold cycleRing. repeat case_match; cbn; lia. Qed.

Lemma call_spec target s : Unalias harness = ClaudeCode \/ Unalias harness = Codex ->
  wp (SetPermissionMode target) (call_post target s) s.
Proof.
  intros Hh. unfold PermMode.SetPermissionMode. dstep. dstep. destruct (isClosed _); [by dstep; apply call_refused|].
  destruct (permissionModeCapabilities harness) as [targets|]; [|by dstep; apply call_refused].
  destruct (negb (any _ _)); [by dstep; apply call_refused|]. dstep. dstep.
  destruct (negb (held _)); [by dstep; apply call_refused|]. dstep. dstep.
  destruct (inFlight _); [by dstep; apply call_refused|].
  pose proof ring_small as Hring. destruct (cycleRing harness args launchMode) as [ringLen bypassOnRing].
  destruct (_ && _); [by dstep; apply call_refused|].
  dstep. eapply wp_mono; [|apply ready_spec]. cbn [at_ wrote]. intros err s1 (Hw & Hat & Hready). destruct err as [e|].
  - dstep. dstep. dstep. apply call_refused; [done|]. cbn in *. by destruct e.
  - dstep. dstep. eapply wp_mono; [|apply (switch_spec s1.(at_)); [cbn; lia|exists s1.(at_); cbn; split; [lia|done]|done]].
    intros r s2 [(H1 & new & E & L & T & A) Hh2]. exists s1.(at_). split; [lia|]. exists new. cbn in *.
    rewrite E, Hw. split_and!; [done|lia|done|done|by left].
Qed.

(** Whatever the harness does, a call types at most twenty keystrokes, each
    Shift+Tab or a submitted /plan, and each within two reads of one that saw
    no dialog pending. *)
Theorem mode_switch_gated target r s s' : Unalias harness = ClaudeCode \/ Unalias harness = Codex ->
  SetPermissionMode target s = Some (r, s') ->
  exists new, s'.(wrote) = (s.(wrote) ++ new)%list /\ List.length new <= 20 /\
    forall p keys, (p, keys) ∈ new ->
      (keys = shiftTabCSI9_2u \/ exists screen, keys = "/plan" ++ submitKeyForHarness harness screen) /\
      exists q, q < p <= q + 2 /\ (tape q).(currentInput) = None.
Proof.
  intros Hh H. destruct (wp_use _ _ _ _ _ (call_spec target s Hh) H) as (q & _ & new & E & L & T & _).
  exists new. split_and!; [done|done|]. intros p keys Hin. by apply (proj1 (list.Forall_forall _ _) T (p, keys)).
Qed.


(** ** That it returns *)

Section Clock.
Context (tick : nat) (Hclock : clocked tape now tick) (Hfuel : polls tick (permModeRenderBudget g) <= fuel).

Lemma budget_pos : (0 <= permModeRenderBudget g)%Z.
Proof. unfold permModeRenderBudget. destruct (0 <? _)%Z eqn:E; bprop; [lia|]. by vm_compute. Qed.

Lemma gate_halts observed : halts (pressGate observed).
Proof.
  apply (wait_halts tape now tick _ fuel _ Hclock budget_pos Hfuel). intros e s.
  unfold press_gate. tsteps; cbn in *; (split; [lia|]); try done. intros H. case_match; [done|]. bprop.
  eexists. split; [|eassumption]. lia.
Qed.

Lemma await_halts prev : halts (awaitPostureChange prev).
Proof.
  apply (wait_halts tape now tick _ fuel _ Hclock budget_pos Hfuel). intros e s.
  unfold await_posture, await_input, ending. tsteps; cbn in *; (split; [lia|]); try done; intros _; bprop;
    eexists; (split; [|eassumption]); lia.
Qed.

Lemma presses_halts keys arrived bound : forall last, halts (presses keys arrived bound last).
Proof.
  induction bound as [|bound IH]; intros last; cbn [PermMode.presses]; destruct (arrived last); auto with drive.
  apply halts_bind; [apply gate_halts|]. intros [e|]; [auto with drive|]. apply halts_bind; [auto with drive|].
  intros f. destruct (negb _); [auto with drive|]. apply halts_bind; [apply await_halts|]. intros [observed [e|]]; auto with drive.
Qed.

Lemma cycle_halts arrived bound : halts (cyclePermissionMode arrived bound).
Proof.
  apply halts_bind; [auto with drive|]. intros f. apply halts_if; (apply halts_bind; [auto with drive|]); [auto with drive|].
  intros f'. apply presses_halts.
Qed.

Lemma plan_halts attempts : forall refused last, halts (plan_attempts attempts refused last).
Proof.
  induction attempts as [|n IH]; intros refused last; cbn [PermMode.plan_attempts]; [auto with drive|].
  apply halts_bind; [apply gate_halts|]. intros [e|]; [auto with drive|]. apply halts_bind; [auto with drive|].
  intros f. apply halts_bind; [auto with drive|]. intros f'. destruct (negb _); [auto with drive|].
  apply halts_bind; [apply await_halts|]. intros [observed [e|]]; [auto with drive|].
  apply halts_if; [auto with drive|]. apply halts_bind; auto with drive.
Qed.

(** C26: Once the composer is ready, a call returns, however the harness behaves,
    as long as the clock goes on: what its polls need is bounded by the render
    budget and the clock's grain. *)
Theorem mode_switch_returns target : halts (waitReadyForSend anchored adapter harness g tape fuel) -> halts (SetPermissionMode target).
Proof.
  intros Hready. unfold PermMode.SetPermissionMode. apply halts_bind; [auto with drive|]. intros f.
  apply halts_if; [auto with drive|]. destruct (permissionModeCapabilities harness) as [targets|]; [|auto with drive].
  apply halts_if; [auto with drive|]. apply halts_bind; [auto with drive|]. intros f1. apply halts_if; [auto with drive|].
  apply halts_bind; [auto with drive|]. intros f2. apply halts_if; [auto with drive|].
  destruct (cycleRing harness args launchMode) as [ringLen bypassOnRing]. apply halts_if; [auto with drive|].
  apply halts_bind; [done|]. intros [e|]; apply halts_bind; auto with drive. intros f3.
  unfold PermMode.switch. apply halts_if; [auto with drive|]. apply halts_bind.
  - unfold driveToPermissionMode. apply halts_if; [|apply cycle_halts]. apply halts_bind; [auto with drive|]. intros f4. apply plan_halts.
  - intros [final err]. apply halts_if; [auto with drive|]. apply halts_bind; [apply cycle_halts|].
    intros [restored [e|]]; [|auto with drive]. apply halts_if; [auto with drive|]. apply halts_if; auto with drive.
Qed.
End Clock.
End Props.

(** *** Runs *)

(** A harness whose screen names its posture, and whose clock gains one each
    read; nothing on it for what is unreadable. *)
Definition posture_of (text : string) : PermissionPosture * bool :=
  if text =s? "" then (zero_posture, false) else (mkPosture text text true, true).
Definition posture_adapter : Adapter := mkAdapter None None None None None None None (Some posture_of) None.
Definition short_gaps : gaps := mkGaps 0 0 10.
Definition paints (f : nat -> string) (n : nat) : frame := shows (Z.of_nat n) (f n) 0 WakeInput.
Definition set_mode (f : nat -> string) (target : string) : M (string * option chat_error) :=
  SetPermissionMode (fun _ _ => false) (fun _ => false) posture_adapter ClaudeCode short_gaps [] "" (paints f) 100 target.

Definition to_plan (n : nat) : string := if n <? 12 then "manual" else "plan".

Theorem mode_switch_gated_witness : exists s',
  set_mode to_plan "plan" start = Some (("plan", None), s') /\ List.length s'.(wrote) = 1 /\
  exists new, s'.(wrote) = (start.(wrote) ++ new)%list /\ List.length new <= 20 /\
    forall p keys, (p, keys) ∈ new ->
      (keys = shiftTabCSI9_2u \/ exists screen, keys = "/plan" ++ submitKeyForHarness ClaudeCode screen) /\
      exists q, q < p <= q + 2 /\ (paints to_plan q).(currentInput) = None.
Proof.
  eexists. assert (H : set_mode to_plan "plan" start = Some (("plan", None), mkD 13 [(9, shiftTabCSI9_2u)])) by (vm_compute; reflexivity).
  split; [exact H|]. split; [reflexivity|]. refine (mode_switch_gated (fun _ _ => false) (fun _ => false)
    posture_adapter ClaudeCode short_gaps [] "" (paints to_plan) 100 "plan" _ start _ (or_introl _) H). reflexivity.
Defined.


Lemma paints_clocked f : clocked (paints f) now 1.
Proof. constructor; intros p; cbn; lia. Qed.

Theorem mode_switch_returns_witness : clocked (paints to_plan) now 1 /\ halts (set_mode to_plan "bypass").
Proof.
  split; [apply paints_clocked|].
  refine (mode_switch_returns _ _ _ _ _ _ _ _ 100 1 (paints_clocked _) _ "bypass" _); [vm_compute; lia|].
  intros s. by eexists.
Defined.

(** The call begins on an unreadable screen, walks a session that paints no
    "plan" up to bypass, and then reads an unreadable screen once more: that
    satisfies the restore, which is reported done. *)
Definition blinks (n : nat) : string := if n <? 6 then "" else if n <? 207 then "bypass" else "".

Theorem unreadable_start_restored : exists s',
  set_mode blinks "plan" start = Some (("", Some (ErrPermissionModeSwitchFailed true)), s') /\
  (permissionPosture posture_adapter (paints blinks 0)).1 = zero_posture /\
  (permissionPosture posture_adapter (paints blinks 206)).1 = mkPosture "bypass" "bypass" true.
Proof. eexists. split; [vm_compute; reflexivity|]. by split. Qed.
