(* ===== verification/Prompt.v ===== *)
(** Answering the dialogs a harness shows (src/internal/chatcore/input.go and
    answer_plan.go): which prompt is pending, how a policy or a client answers
    it, and the keys of an answer, each written after the screen has shown what
    the one before it did. *)
From Stdlib Require Import ZArith Ascii String Lia.
From stdpp Require Import base tactics list strings option gmap.
From S2P Require Import Prelude GoStr Bytes HarnessName Verdict Terminal Drive Submit PermMode.

#[local] Open Scope string_scope.
#[local] Open Scope go_scope.
#[local] Open Scope Z_scope.
#[local] Open Scope drive_scope.

Record InputAnswer := mkAnswer { a_OptionID : string; a_OptionIDs : list string; a_Text : string }.

(** ** Policies *)

Inductive DispositionKind := DispositionNone | DispositionAsk | DispositionAnswer | DispositionDeny | DispositionOther (s : string).
#[export] Instance DispositionKind_eq_dec : EqDecision DispositionKind.
Proof. solve_decision. Defined.

Record Disposition := mkDisposition { d_Kind : DispositionKind; d_OptionID : string; d_Text : string }.
Record InputPolicy := mkPolicy { Default : DispositionKind; ByKind : gmap string Disposition }.

Definition resolve (p : option InputPolicy) (kind : string) : option Disposition :=
  match p with
  | None => None
  | Some p =>
    let default := if bool_decide (p.(Default) = DispositionNone) then None else Some (mkDisposition p.(Default) "" "") in
    match p.(ByKind) !! kind with
    | Some d => if bool_decide (d.(d_Kind) = DispositionNone) then default else Some d
    | None => default
    end
  end.

Definition policyOption (p : option InputPolicy) (req : InputRequest) : option InputOption :=
  d ← resolve p req.(r_Kind);
  match d.(d_Kind) with
  | DispositionAnswer => findOption req d.(d_OptionID)
  | DispositionDeny => findOptionByAlias req "deny"
  | _ => None
  end.

(** ** An answer's options (answer_plan.go) *)

Fixpoint optionIDs (req : InputRequest) (names ids : list string) : result chat_error (list string) :=
  match names with
  | [] => Ok ids
  | n :: names =>
    match findOption req n with
    | None => Err ErrUnknownOption
    | Some o => optionIDs req names (if any (String.eqb o.(o_ID)) ids then ids else app ids [o.(o_ID)])
    end
  end.

Definition answerOptionIDs (req : InputRequest) (ans : InputAnswer) : result chat_error (list string) :=
  let names := if ans.(a_OptionID) =s? "" then ans.(a_OptionIDs) else [ans.(a_OptionID)] in
  if is_nil names && negb (ans.(a_Text) =s? "") then
    Ok (match findOptionByAlias req "other" with Some o => [o.(o_ID)] | None => [] end)
  else optionIDs req names [].

(** ** Keys and the dialog they are for (input.go) *)

Definition answerAttempts : nat := 3.

Definition last_byte (s : string) : option ascii := last (list_ascii_of_string s).

(** The keys that move the highlight, and the confirm key after them. *)
Definition splitNavKeys (keys : string) : option (string * string) :=
  if (slen keys <? 2) || negb (bool_decide (last_byte keys = Some cr)) then None
  else
    let nav := Take (slen keys - 1) keys in
    if ContainsByte nav (ascii_of_nat 27) then Some (nav, enter) else None.

Inductive dialogState := dialogGone | dialogUnreadable | dialogOnTarget | dialogOffTarget.
#[export] Instance dialogState_eq_dec : EqDecision dialogState.
Proof. solve_decision. Defined.

Definition dialogPainted (dr : DialogReader) (req : InputRequest) (text : string) : bool :=
  if negb (req.(r_Prompt) =s? "") then Contains text req.(r_Prompt) else dr.(DialogAnchorPresent) text.

Definition dialogStateOf (dr : DialogReader) (text : string) (req : InputRequest) (label : string) : dialogState :=
  let unread := if dialogPainted dr req text then dialogUnreadable else dialogGone in
  match dr.(ReadDialog) text with
  | Some live =>
    if live.(r_ID) =s? req.(r_ID) then
      match findOption live label with
      | Some opt => if opt.(Keys) =s? enter then dialogOnTarget else dialogOffTarget
      | None => dialogOffTarget
      end
    else unread
  | None => unread
  end.

Definition keysOnLiveScreen (dr : DialogReader) (text : string) (req : InputRequest) (label : string) : option string :=
  live ← dr.(ReadDialog) text;
  if negb (live.(r_ID) =s? req.(r_ID)) then None
  else opt ← findOption live label; if opt.(Keys) =s? "" then None else Some opt.(Keys).

Definition evidenceHolds (dr : DialogReader) (text : string) (req : InputRequest) (ev : AnswerEvidence) : bool :=
  let live := dr.(ReadDialog) text in
  if bool_decide (ev.(ev_Kind) = EvidenceGone) then
    match live with Some live => negb (live.(r_ID) =s? req.(r_ID)) | None => negb (dr.(DialogAnchorPresent) text) end
  else
    match live with
    | None => false
    | Some live =>
      (live.(r_ID) =s? req.(r_ID)) &&
      match List.find (fun o => o.(o_ID) =s? ev.(ev_OptionID)) live.(Options) with
      | None => false
      | Some o =>
        match ev.(ev_Kind) with
        | EvidenceHighlighted => o.(Highlighted)
        | EvidenceUnhighlighted => negb o.(Highlighted)
        | EvidenceChecked => o.(Checked)
        | EvidenceTyped => o.(Typed) =s? ev.(ev_Text)
        | EvidenceGone => false
        end
      end
    end.

Section Prompt.
Context (anchored : string -> string -> bool).
Context (adapter : Adapter) (harness : string) (g : gaps).
(** Whether the conversation has a screen to read. *)
Context (hasScreen : bool).
Context (tape : nat -> frame) (fuel : nat).

Notation look := (look tape).
Notation write := (write tape).

(** ** Waiting for the screen *)

Definition await_screen (shown : string -> bool) (expiry : Z) : M (option (bool * string * option chat_error)) :=
  f <-- look ;;
  let cur := f.(screen) in
  if shown cur then ret (Some (true, cur, None))
  else
    f <-- look ;;
    match f.(ctx) with
    | Some e => ret (Some (false, cur, Some (ErrContext e)))
    | None =>
      f <-- look ;;
      if f.(isClosed) then ret (Some (false, cur, Some ErrClosed))
      else f <-- look ;; ret (if expiry <? f.(now) then Some (false, cur, None) else None)
    end.

Definition awaitScreen (shown : string -> bool) : M (bool * string * option chat_error) :=
  f <-- look ;; poll fuel (await_screen shown (f.(now) + permModeRenderBudget g)).

Definition awaitDialog (dr : DialogReader) (req : InputRequest) (label : string) (ends : dialogState -> bool)
    : M (dialogState * string * option chat_error) :=
  x <-- awaitScreen (fun text => ends (dialogStateOf dr text req label)) ;;
  let '(_, cur, err) := x in ret (dialogStateOf dr cur req label, cur, err).

(** [time.NewTimer(d)], in a select with the context's end and the close: which
    one of those that are ready is the observation's choice. *)
Definition timer_case (t : Z) (f : frame) : option (option chat_error) :=
  let timer := if t <=? f.(now) then Some None else None in
  let ended := (fun e => Some (ErrContext e)) <$> f.(ctx) in
  let closing := if f.(isClosed) then Some (Some ErrClosed) else None in
  let first a b := match a with Some x => Some x | None => b end in
  match f.(woke) with
  | WakeDone => first ended (first timer closing)
  | WakeClosed => first closing (first timer ended)
  | _ => first timer (first ended closing)
  end.

Definition sleep (d : Z) : M (option chat_error) :=
  if d <=? 0 then ret None
  else f <-- look ;; poll fuel (f' <-- look ;; ret (timer_case (f.(now) + d) f')).

Definition answerBackoff (answered : nat) : M (option chat_error) :=
  sleep (Z.of_nat answered * permModeRenderBudget g / 4).

Definition unresolvedInput (req : InputRequest) (observed : string) (answered : nat) : option chat_error :=
  Some (InputUnresolvedError (toClientInputRequest req) observed answered).

(** ** One option's answer *)

(** The keys of one answer: [inl] when the answer is over, with its error. *)
Definition answer_nav (dr : DialogReader) (req : InputRequest) (label keys : string) (answered : nat)
    : M (option chat_error + bool * string) :=
  match splitNavKeys keys with
  | None => ret (inr (false, keys))
  | Some (nav, confirm) =>
    f <-- write nav ;;
    if negb f.(writeOK) then ret (inl (Some ErrWrite))
    else
      x <-- awaitDialog dr req label (fun st => bool_decide (st = dialogOnTarget) || bool_decide (st = dialogGone)) ;;
      let '(st, observed, err) := x in
      match err with
      | Some e => ret (inl (Some e))
      | None =>
        if bool_decide (st = dialogGone) then ret (inl None)
        else if negb (bool_decide (st = dialogOnTarget)) then ret (inl (unresolvedInput req observed answered))
        else ret (inr (true, confirm))
      end
  end.

(** The loop; [rounds] answers are left, [answered] were written. *)
Fixpoint answer_rounds (dr : DialogReader) (req : InputRequest) (label : string) (rounds answered : nat) (keys : string)
    : M (option chat_error) :=
  match rounds with
  | O => ret (unresolvedInput req "" answered)
  | S rounds =>
    x <-- answer_nav dr req label keys answered ;;
    match x with
    | inl err => ret err
    | inr (split, keys) =>
      f <-- write keys ;;
      if negb f.(writeOK) then ret (Some ErrWrite)
      else
        let answered := S answered in
        x <-- awaitDialog dr req label (fun st => bool_decide (st = dialogGone) || split && bool_decide (st = dialogOffTarget)) ;;
        let '(st, observed, err) := x in
        match err with
        | Some e => ret (Some e)
        | None =>
          if bool_decide (st = dialogGone) then ret None
          else if negb split || negb (bool_decide (st = dialogOffTarget)) || (rounds =? 0)%nat
          then ret (unresolvedInput req observed answered)
          else
            err <-- answerBackoff answered ;;
            match err with
            | Some e => ret (Some e)
            | None =>
              f <-- look ;;
              match keysOnLiveScreen dr f.(screen) req label with
              | Some next => answer_rounds dr req label rounds answered next
              | None =>
                if bool_decide (dialogStateOf dr f.(screen) req label = dialogGone) then ret None
                else ret (unresolvedInput req f.(screen) answered)
              end
            end
        end
    end
  end.

Definition write_once (keys : string) : M (option chat_error) := f <-- write keys ;; ret (write_err f).

Definition answerAndConfirm (req : InputRequest) (opt : InputOption) : M (option chat_error) :=
  match adapter.(dialogReader) with
  | Some dr => if hasScreen then answer_rounds dr req opt.(o_Label) answerAttempts 0 opt.(Keys) else write_once opt.(Keys)
  | None => write_once opt.(Keys)
  end.

(** ** A planned answer *)

Fixpoint write_steps (steps : list AnswerStep) : M (option chat_error) :=
  match steps with
  | [] => ret None
  | st :: steps => f <-- write st.(st_Keys) ;; if f.(writeOK) then write_steps steps else ret (Some ErrWrite)
  end.

(** When the request went up, as [f] has it; otherwise now. *)
Definition raised_at (req : InputRequest) (f : frame) : Z :=
  match f.(currentInput), f.(currentInputAt) with
  | Some r, Some t => if r.(r_ID) =s? req.(r_ID) then t else f.(now)
  | _, _ => f.(now)
  end.

Definition waitAfterRaised (req : InputRequest) (d : Z) : M (option chat_error) :=
  if d <=? 0 then ret None
  else f <-- look ;; f' <-- look ;; sleep (raised_at req f + d - f'.(now)).

Fixpoint plan_steps (dr : DialogReader) (req : InputRequest) (i : nat) (steps : list AnswerStep) : M (option chat_error) :=
  match steps with
  | [] => ret None
  | st :: steps =>
    err <-- waitAfterRaised req st.(After) ;;
    match err with
    | Some e => ret (Some e)
    | None =>
      x <-- awaitScreen (fun text => match dr.(ReadDialog) text with Some live => live.(r_ID) =s? req.(r_ID) | None => false end) ;;
      let '(on, seen, err) := x in
      match err with
      | Some e => ret (Some e)
      | None =>
        if negb on then ret (unresolvedInput req seen i)
        else
          f <-- write st.(st_Keys) ;;
          if negb f.(writeOK) then ret (Some ErrWrite)
          else
            x <-- awaitScreen (fun text => evidenceHolds dr text req st.(Until)) ;;
            let '(shown, seen, err) := x in
            match err with
            | Some e => ret (Some e)
            | None => if negb shown then ret (unresolvedInput req seen (S i)) else plan_steps dr req (S i) steps
            end
      end
    end
  end.

Definition runAnswerPlan (req : InputRequest) (steps : list AnswerStep) : M (option chat_error) :=
  match adapter.(dialogReader) with
  | Some dr => if hasScreen then plan_steps dr req 0 steps else write_steps steps
  | None => write_steps steps
  end.

(** ** Any answer *)

(** The options named, each once, in the order of the answer. *)
Fixpoint distinct_options (req : InputRequest) (ids seen : list string) : option (list InputOption) :=
  match ids with
  | [] => Some []
  | id :: ids =>
    opt ← findOption req id;
    if any (String.eqb opt.(o_ID)) seen then distinct_options req ids seen
    else cons opt <$> distinct_options req ids (opt.(o_ID) :: seen)
  end.

Definition concat_keys (l : list InputOption) : string := fold_right (fun o s => o.(Keys) ++ s) "" l.

Definition writeMultiSelect (req : InputRequest) (ids : list string) : M (option chat_error) :=
  match distinct_options req ids [] with
  | None => ret (Some ErrUnknownOption)
  | Some opts => f <-- look ;; write_once (concat_keys opts ++ submitKeyForHarness harness f.(screen))
  end.

(** What is left when the adapter plans nothing. *)
Definition write_unplanned (req : InputRequest) (ans : InputAnswer) : M (option chat_error) :=
  if negb (is_nil ans.(a_OptionIDs)) then writeMultiSelect req ans.(a_OptionIDs)
  else if is_nil req.(Options) then
    f <-- look ;;
    writeMessageAndSubmit adapter harness g tape fuel ans.(a_Text) f.(screen) (submitKeyForHarness harness f.(screen))
  else match findOption req ans.(a_OptionID) with
       | None => ret (Some ErrUnknownOption)
       | Some opt => answerAndConfirm req opt
       end.

Definition writeAnswer (req : InputRequest) (ans : InputAnswer) : M (option chat_error) :=
  let many := negb (is_nil ans.(a_OptionIDs)) in
  if many && negb (ans.(a_OptionID) =s? "") then ret (Some ErrConflictingAnswer)
  else if many && negb req.(MultiSelect) then ret (Some ErrNotMultiSelect)
  else match adapter.(planner) with
       | None => write_unplanned req ans
       | Some planAnswer =>
         match answerOptionIDs req ans with
         | Err e => ret (Some e)
         | Ok ids =>
           match planAnswer req ids ans.(a_Text) with
           | PlanFails e => ret (Some (ErrPlan e))
           | Planned steps => runAnswerPlan req steps
           | NotPlanned => write_unplanned req ans
           end
         end
       end.

(** Answer, of a conversation on a terminal. *)
Definition Answer (requestID : string) (ans : InputAnswer) : M (option chat_error) :=
  f <-- look ;;
  if f.(isClosed) then ret (Some ErrClosed)
  else
    f <-- look ;;
    if negb f.(held) then ret (Some ErrNoControl)
    else
      f <-- look ;;
      match f.(currentInput) with
      | None => ret (Some ErrNoInputPending)
      | Some req =>
        if negb (requestID =s? "") && negb (requestID =s? req.(r_ID)) then ret (Some ErrStaleInputRequest)
        else writeAnswer req ans
      end.

(** tryAutoDismiss: the keys that dismiss an interstitial. *)
Definition tryAutoDismiss (disabled updates : bool) (req : InputRequest) : M bool :=
  match adapter.(dismisser) with
  | Some dismissKeys =>
    if disabled then ret false
    else match dismissKeys req updates with Some keys => _ <-- write keys ;; ret true | None => ret false end
  | None => ret false
  end.

(** tryResolveInput: [handler] is Options.OnInputRequest. The error, if any, is
    what is latched. *)
Definition tryResolveInput (policy : option InputPolicy) (handler : option (ClientRequest -> option InputAnswer))
    (req : InputRequest) : M (bool * option chat_error) :=
  match policyOption policy req with
  | Some opt =>
    let text := match resolve policy req.(r_Kind) with Some d => d.(d_Text) | None => "" end in
    err <-- writeAnswer req (mkAnswer opt.(o_ID) [] text) ;; ret (is_none err, err)
  | None =>
    match handler with
    | Some h =>
      match h (toClientInputRequest req) with
      | Some ans => err <-- writeAnswer req ans ;; ret (is_none err, err)
      | None => ret (false, None)
      end
    | None => ret (false, None)
    end
  end.
End Prompt.

(** ** The pending prompt *)

Inductive inputEvent := EventInputRequest (r : ClientRequest) | EventInputResolved (r : ClientRequest).

Record inputState := mkInput {
  pending : option InputRequest; surfaced : bool; unresolved : option (ClientRequest * string * nat); announcements : list inputEvent }.

(** handleInputRequested, its two sections under the lock: the request is
    recorded; [answered] says whether it was dismissed or answered, and if not
    it is surfaced, with the stall its answer left. *)
Definition input_requested (req : InputRequest) (st : inputState) : inputState :=
  mkInput (Some req) false None st.(announcements).

Definition input_handled (req : InputRequest) (answered : bool) (err : option chat_error) (st : inputState) : inputState :=
  let stall := match err with Some e => recordUnresolvedInput e st.(unresolved) | None => st.(unresolved) end in
  if answered then mkInput st.(pending) st.(surfaced) stall st.(announcements)
  else mkInput st.(pending) true stall (app st.(announcements) [EventInputRequest (toClientInputRequest req)]).

Definition handleInputResolved (st : inputState) : inputState :=
  mkInput None false None
    (match st.(pending) with
     | None => st.(announcements)
     | Some had => app st.(announcements) [EventInputResolved (toClientInputRequest had)]
     end).
