(* ===== verification/PromptProps.v ===== *)
(** What answering a dialog promises: which keys go out after which evidence on
    the screen, how many answers at most, and that an answer returns. *)
From Stdlib Require Import ZArith Ascii String Lia.
From stdpp Require Import base tactics list strings option gmap.
From S2P Require Import Prelude GoStr Bytes HarnessName Verdict Terminal Drive Submit SubmitProps PermMode PermModeProps Prompt.

#[local] Open Scope string_scope.
#[local] Open Scope go_scope.
#[local] Open Scope nat_scope.
#[local] Open Scope drive_scope.

Section Props.
Context (anchored : string -> string -> bool).
Context (adapter : Adapter) (harness : string) (g : gaps) (hasScreen : bool).
Context (tape : nat -> frame) (fuel : nat).

Notation awaitScreen := (awaitScreen g tape fuel).
Notation awaitDialog := (awaitDialog g tape fuel).
Notation answer_rounds := (answer_rounds g tape fuel).
Notation answer_nav := (answer_nav g tape fuel).
Notation plan_steps := (plan_steps g tape fuel).
Notation answerAndConfirm := (answerAndConfirm adapter g hasScreen tape fuel).
Notation runAnswerPlan := (runAnswerPlan adapter g hasScreen tape fuel).

(** ** The waits *)

Lemma screen_spec shown s :
  wp (awaitScreen shown) (fun r s' => waited s s' /\ exists q, s.(at_) <= q < s'.(at_) /\ r.1.2 = (tape q).(screen) /\
    r.1.1 = shown (tape q).(screen) /\ (r.1.1 = true -> r.2 = None /\ S q = s'.(at_)) /\
    match r.2 with None | Some (ErrContext _) | Some ErrClosed => True | _ => False end) s.
Proof.
  unfold Prompt.awaitScreen. dsteps. apply (wp_poll fuel _ (waited s)); [|apply waited_look].
  intros s1 [Hat Hw]. unfold await_screen, waited. dsteps; cbn; repeat case_match; simplify_eq; cbn;
    try (split; [split; [lia|done]|]); try (split; [lia|done]); exists s1.(at_); split_and!; try lia; done.
Qed.

Lemma dialog_spec dr req label ends s :
  wp (awaitDialog dr req label ends) (fun r s' => waited s s' /\ exists q, s.(at_) <= q < s'.(at_) /\
    r.1.2 = (tape q).(screen) /\ r.1.1 = dialogStateOf dr (tape q).(screen) req label /\
    (ends r.1.1 = true -> r.2 = None /\ S q = s'.(at_)) /\
    match r.2 with None | Some (ErrContext _) | Some ErrClosed => True | _ => False end) s.
Proof.
  unfold Prompt.awaitDialog. dstep. eapply wp_mono; [|apply screen_spec].
  intros [[b cur] err] s' (Hw & q & Hq & Hc & Hb & He & Hx). cbn in Hc, Hb, He, Hx. cbv beta iota zeta. dstep. split; [done|]. exists q. cbn. subst cur b. auto.
Qed.

(** A timer of [d] has run out between [a] and [b]. *)
Definition elapsed (d : Z) (a b : nat) : Prop :=
  (d <= 0)%Z \/ exists u w, a <= u < w /\ w < b /\ ((tape u).(now) + d <= (tape w).(now))%Z.

Lemma sleep_spec d s : wp (sleep tape fuel d) (fun err s' => (waited s s' \/ s' = s) /\
  match err with None => elapsed d s.(at_) s'.(at_) | Some (ErrContext _) | Some ErrClosed => True | _ => False end) s.
Proof.
  unfold sleep. destruct (_ <=? _)%Z eqn:Hd; [bprop; dstep; split; [by right|by left]|].
  dstep. dstep. apply (wp_poll fuel _ (waited s)); [|apply waited_look].
  intros s1 [Hat Hw]. dstep. dstep. dstep. unfold waited, timer_case.
  set (f := tape (at_ s1)). set (s2 := mkD (S s1.(at_)) s1.(wrote)).
  assert (waited s s2) as Hs by (split; cbn; [lia|done]).
  assert ((now (tape (at_ s)) + d <=? now f)%Z = true -> elapsed d s.(at_) s2.(at_)) as He.
  { intros H. bprop. right. exists s.(at_), s1.(at_). cbn. split_and!; try lia. done. }
  destruct (woke f), (_ <=? now f)%Z, (ctx f), (isClosed f); cbn; auto.
Qed.

(** ** One option's answer *)

Section Option.
Context (dr : DialogReader) (req : InputRequest) (label : string).

Notation state_at q := (dialogStateOf dr (tape q).(screen) req label).

(** What an answer may write from [a] on, its keys being [keys]: the highlight
    is moved once; the confirm key follows the sight of it on the target; the
    dialog is answered again only once it is seen with the highlight off the
    target after that, with the keys it then wants. [n] counts the answers. *)
Inductive answering : nat -> string -> list (nat * string) -> nat -> Prop :=
| answering_none a keys : answering a keys [] 0
| answering_whole a keys p : splitNavKeys keys = None -> a <= p -> answering a keys [(p, keys)] 1
| answering_moved a keys p nav confirm : splitNavKeys keys = Some (nav, confirm) -> a <= p -> answering a keys [(p, nav)] 0
| answering_confirmed a keys p q nav confirm : splitNavKeys keys = Some (nav, confirm) -> a <= p < q ->
    state_at (pred q) = dialogOnTarget -> answering a keys [(p, nav); (q, confirm)] 1
| answering_again a keys p q r w nav confirm keys' log n : splitNavKeys keys = Some (nav, confirm) -> a <= p < q ->
    state_at (pred q) = dialogOnTarget -> q < r < w -> state_at r = dialogOffTarget ->
    keysOnLiveScreen dr (tape w).(screen) req label = Some keys' -> answering (S w) keys' log n ->
    answering a keys ((p, nav) :: (q, confirm) :: log) (S n).

Definition answer_post (a rounds answered : nat) (keys : string) (w : list (nat * string)) (err : option chat_error) (s' : dstate) : Prop :=
  a <= s'.(at_) /\ exists log n, s'.(wrote) = (w ++ log)%list /\ answering a keys log n /\ n <= rounds /\
    match err with
    | None => exists q, a <= q < s'.(at_) /\ state_at q = dialogGone
    | Some (InputUnresolvedError r _ k) => r = toClientInputRequest req /\ k = answered + n
    | Some (ErrContext _) | Some ErrClosed | Some ErrWrite => True
    | Some _ => False
    end.

(** The highlight moved, or there was nothing to move. *)
Definition nav_post (a answered : nat) (keys : string) (w : list (nat * string)) (x : option chat_error + bool * string) (s' : dstate) : Prop :=
  a <= s'.(at_) /\
  match x with
  | inl err => answer_post a 0 answered keys w err s'
  | inr (false, k) => k = keys /\ splitNavKeys keys = None /\ s'.(wrote) = w
  | inr (true, k) => exists p nav, splitNavKeys keys = Some (nav, k) /\ a <= p < s'.(at_) /\
      s'.(wrote) = (w ++ [(p, nav)])%list /\ state_at (pred s'.(at_)) = dialogOnTarget
  end.

Lemma nav_spec keys answered s : wp (answer_nav dr req label keys answered) (nav_post s.(at_) answered keys s.(wrote)) s.
Proof.
  unfold Prompt.answer_nav. destruct (splitNavKeys keys) as [[nav confirm]|] eqn:Hs; [|by dstep; split].
  dstep. dstep. assert (Hm : answering s.(at_) keys [(s.(at_), nav)] 0) by (by eapply answering_moved).
  assert (Hin : forall s' err, s.(at_) <= s'.(at_) -> s'.(wrote) = (s.(wrote) ++ [(s.(at_), nav)])%list ->
    match err with
    | None => exists q, s.(at_) <= q < s'.(at_) /\ state_at q = dialogGone
    | Some (InputUnresolvedError r _ k) => r = toClientInputRequest req /\ k = answered + 0
    | Some (ErrContext _) | Some ErrClosed | Some ErrWrite => True
    | Some _ => False
    end -> nav_post s.(at_) answered keys s.(wrote) (inl err) s').
  { intros s' err Hle Hw He. split; [done|]. split; [done|]. exists [(s.(at_), nav)], 0. auto. }
  destruct (negb _); [dstep; apply Hin; cbn; [lia|done|done]|].
  dstep. eapply wp_mono; [|apply dialog_spec]. intros [[st observed] err] s1 ([Hat Hw] & q & Hq & Hc & Hst & Hends & He).
  cbn in Hat, Hw, Hq, Hc, Hst, Hends, He. cbv beta iota zeta. destruct err as [e|]; [dstep; apply Hin; [lia|done|by destruct e]|].
  destruct (bool_decide (st = dialogGone)) eqn:Hg; bprop.
  { dstep. apply Hin; [lia|done|]. exists q. split; [lia|congruence]. }
  destruct (bool_decide (st = dialogOnTarget)) eqn:Ht; bprop; cbn [negb].
  - dstep. split; [lia|]. exists s.(at_), nav. split_and!; [done|lia|lia|done|].
    assert (E : S q = s1.(at_)) by (by apply Hends). rewrite <- E. cbn. congruence.
  - dstep. apply Hin; [lia|done|]. cbn. split; [done|lia].
Qed.

Lemma rounds_spec rounds : forall answered keys s,
  wp (answer_rounds dr req label rounds answered keys) (answer_post s.(at_) rounds answered keys s.(wrote)) s.
Proof.
  induction rounds as [|rounds IH]; intros answered keys s; cbn [Prompt.answer_rounds].
  { dstep. split; [lia|]. exists [], 0. rewrite app_nil_r. split_and!; [done|apply answering_none|lia|]. cbn. split; [done|lia]. }
  dstep. eapply wp_mono; [|apply nav_spec]. intros x s1 [Hat Hx]. destruct x as [err|[split k]].
  { dstep. destruct Hx as (_ & log & n & E & Ha & Hn & He). split; [done|]. exists log, n. split_and!; [done|done|lia|done]. }
  (* the answer is written at [q] *)
  set (q := s1.(at_)).
  assert (Hone : (exists log, s1.(wrote) ++ [(q, k)] = s.(wrote) ++ log /\ answering s.(at_) keys log 1 /\
    forall r w keys' l n, split = true -> q < r < w -> state_at r = dialogOffTarget ->
      keysOnLiveScreen dr (tape w).(screen) req label = Some keys' -> answering (S w) keys' l n ->
      answering s.(at_) keys (log ++ l) (S n))%list).
  { destruct split.
    - destruct Hx as (p & nav & Hs & Hp & Hw & Ht). exists [(p, nav); (q, k)]. rewrite Hw, <- app_assoc. split; [done|]. split.
      + by apply (answering_confirmed _ _ p q nav k).
      + intros r w keys' l n _ Hr Hoff Hl Hans. cbn. by eapply (answering_again _ _ p q r w nav k keys').
    - destruct Hx as (-> & Hs & Hw). exists [(q, keys)]. rewrite Hw. split; [done|]. split; [by apply answering_whole|done]. }
  destruct Hone as (log & Hw & Hans & Hagain). clear Hx.
  assert (Hin : forall s' err, q < s'.(at_) -> s'.(wrote) = (s1.(wrote) ++ [(q, k)])%list ->
    match err with
    | None => exists q, s.(at_) <= q < s'.(at_) /\ state_at q = dialogGone
    | Some (InputUnresolvedError r _ k) => r = toClientInputRequest req /\ k = answered + 1
    | Some (ErrContext _) | Some ErrClosed | Some ErrWrite => True
    | Some _ => False
    end -> answer_post s.(at_) (S rounds) answered keys s.(wrote) err s').
  { intros s' err Hle Hw' He. split; [lia|]. exists log, 1. split_and!; [congruence|done|lia|done]. }
  dstep. dstep. destruct (negb _); [dstep; apply Hin; cbn; [lia|done|done]|]. cbv zeta.
  dstep. eapply wp_mono; [|apply dialog_spec]. intros [[st observed] err] s2 ([Hat2 Hw2] & r & Hr & Hc & Hst & Hends & He).
  cbn in Hat2, Hw2, Hr, Hc, Hst, Hends, He. cbv beta iota zeta. destruct err as [e|]; [dstep; apply Hin; [lia|done|by destruct e]|].
  destruct (bool_decide (st = dialogGone)) eqn:Hg; bprop.
  { dstep. apply Hin; [lia|done|]. exists r. split; [lia|congruence]. }
  destruct (negb split || negb (bool_decide (st = dialogOffTarget)) || (rounds =? 0)) eqn:Hstop.
  { dstep. apply Hin; [lia|done|]. cbn. split; [done|lia]. }
  apply orb_false_iff in Hstop as [[Hs Ho]%orb_false_iff _]. bprop.
  dstep. eapply wp_mono; [|apply sleep_spec]. intros err s3 [Hs3 He3].
  assert (H3 : s2.(at_) <= s3.(at_) /\ s3.(wrote) = s2.(wrote)) by (destruct Hs3 as [[? ?]| ->]; split; [lia|done|lia|done]).
  destruct H3 as [H3 H3']. destruct err as [e|]; [dstep; apply Hin; [lia|by rewrite H3', Hw2|by destruct e]|].
  dstep. dstep. destruct (keysOnLiveScreen _ _ _ _) as [next|] eqn:Hl.
  - eapply wp_mono; [|apply IH]. intros err s4 (Hle & l & n & E & Ha & Hn & He4). cbn in Hle, E. split; [lia|].
    exists (log ++ l)%list, (S n). split_and!.
    + rewrite E, H3', Hw2. fold q. rewrite Hw. by rewrite app_assoc.
    + apply (Hagain r s3.(at_) next l n); [done|lia|congruence|exact Hl|exact Ha].
    + lia.
    + destruct err as [e|]; [destruct e; try done; destruct He4; split; [done|lia]|]. destruct He4 as (z & Hz & ?). exists z. cbn in Hz. split; [lia|done].
  - destruct (bool_decide (_ = dialogGone)) eqn:Hgone; dstep; bprop; (apply Hin; cbn; [lia|by rewrite H3', Hw2|]).
    + exists s3.(at_). split; [lia|done].
    + split; [done|lia].
Qed.
End Option.


(** ** A planned answer *)

Section Plan.
Context (dr : DialogReader) (req : InputRequest).
Context (Hmono : forall p, ((tape p).(now) <= (tape (S p)).(now))%Z).

(** The request's own dialog is on the screen at [q]. *)
Definition own_dialog (q : nat) : bool :=
  match dr.(ReadDialog) (tape q).(screen) with Some live => live.(r_ID) =s? req.(r_ID) | None => false end.

(** The request had been up for [d], counted from a read at or after [a],
    before [p]. *)
Definition aged (d : Z) (a p : nat) : Prop :=
  (d <= 0)%Z \/ exists u w, a <= u <= w /\ w < p /\ (raised_at req (tape u) + d <= (tape w).(now))%Z.

(** What a plan may write from [a] on: each step once it is due and its dialog
    was just seen, the next one after the evidence of it. [true] when all of
    them were carried out. *)
Inductive carried : nat -> list AnswerStep -> list (nat * string) -> bool -> Prop :=
| carried_all a : carried a [] [] true
| carried_unwritten a st steps : carried a (st :: steps) [] false
| carried_unseen a st steps p : a < p -> aged st.(After) a p -> own_dialog (pred p) = true ->
    carried a (st :: steps) [(p, st.(st_Keys))] false
| carried_step a st steps p q log done : a < p < q -> aged st.(After) a p -> own_dialog (pred p) = true ->
    evidenceHolds dr (tape q).(screen) req st.(Until) = true -> carried (S q) steps log done ->
    carried a (st :: steps) ((p, st.(st_Keys)) :: log) done.

Lemma clock_mono_le p q : p <= q -> ((tape p).(now) <= (tape q).(now))%Z.
Proof. intros H. induction H as [|q H IH]; [lia|]. pose proof (Hmono q). lia. Qed.

Lemma raised_spec d s : wp (waitAfterRaised tape fuel req d) (fun err s' => s.(at_) <= s'.(at_) /\ s'.(wrote) = s.(wrote) /\
  match err with None => aged d s.(at_) s'.(at_) | Some (ErrContext _) | Some ErrClosed => True | _ => False end) s.
Proof.
  unfold waitAfterRaised. destruct (d <=? 0)%Z eqn:Hd; [bprop; dstep; split_and!; [done|done|by left]|].
  dstep. dstep. dstep. dstep. set (a := s.(at_)). eapply wp_mono; [|apply sleep_spec]. intros err s' [Hs Hx].
  cbn [at_ wrote] in Hs, Hx. assert (S (S a) <= s'.(at_) /\ s'.(wrote) = s.(wrote)) as [H1 H2] by (destruct Hs as [[? ?]| ->]; cbn in *; split; auto; lia).
  split_and!; [lia|done|]. destruct err as [e|]; [done|]. destruct Hx as [Hx|(u & w & Hu & Hw & Hx)]; right.
  - exists a, (S a). split_and!; cbn in Hx; lia.
  - exists a, w. pose proof (clock_mono_le (S a) u ltac:(lia)). split_and!; cbn in Hx; lia.
Qed.

Definition plan_post (a i : nat) (steps : list AnswerStep) (w : list (nat * string)) (err : option chat_error) (s' : dstate) : Prop :=
  exists log all, s'.(wrote) = (w ++ log)%list /\ carried a steps log all /\
    match err with
    | None => all = true
    | Some (InputUnresolvedError r _ k) => all = false /\ r = toClientInputRequest req /\ k = i + List.length log
    | Some (ErrContext _) | Some ErrClosed | Some ErrWrite => all = false
    | Some _ => False
    end.

Lemma plan_steps_spec steps : forall i s, wp (plan_steps dr req i steps) (plan_post s.(at_) i steps s.(wrote)) s.
Proof.
  induction steps as [|st steps IH]; intros i s; cbn [Prompt.plan_steps].
  { dstep. exists [], true. rewrite app_nil_r. split_and!; [done|apply carried_all|done]. }
  assert (Hno : forall err s', s'.(wrote) = s.(wrote) -> match err with
    | Some (InputUnresolvedError r _ k) => r = toClientInputRequest req /\ k = i
    | Some (ErrContext _) | Some ErrClosed | Some ErrWrite => True | _ => False end ->
    plan_post s.(at_) i (st :: steps) s.(wrote) err s').
  { intros err s' Hw He. exists [], false. rewrite app_nil_r. split_and!; [done|constructor|].
    destruct err as [[]|]; try done. destruct He as [-> ->]. cbn. split_and!; [done..|lia]. }
  dstep. eapply wp_mono; [|apply raised_spec]. intros err s1 (Hat1 & Hw1 & Hx1).
  destruct err as [e|]; [dstep; apply Hno; [done|by destruct e]|].
  dstep. eapply wp_mono; [|apply screen_spec]. intros [[on seen] err] s2 ([Hat2 Hw2] & q & Hq & Hc & Hon & He & Hx2).
  cbn in Hat2, Hw2, Hq, Hc, Hon, He, Hx2. cbv beta iota zeta.
  destruct err as [e|]; [dstep; apply Hno; [congruence|by destruct e]|].
  destruct on; cbn [negb]; [|dstep; apply Hno; [congruence|done]].
  destruct (He eq_refl) as [_ Eq]. dstep. dstep. set (p := s2.(at_)).
  assert (Hp : s.(at_) < p) by (unfold p; lia).
  assert (Hag : aged st.(After) s.(at_) p).
  { destruct Hx1 as [?|(u & w & ? & ? & ?)]; [by left|right]. exists u, w. split_and!; auto; unfold p; lia. }
  assert (Hown : own_dialog (pred p) = true) by (unfold p, own_dialog; rewrite <- Eq; by symmetry).
  assert (Hun : forall err s', s'.(wrote) = (s2.(wrote) ++ [(p, st.(st_Keys))])%list -> match err with
    | Some (InputUnresolvedError r _ k) => r = toClientInputRequest req /\ k = S i
    | Some (ErrContext _) | Some ErrClosed | Some ErrWrite => True | _ => False end ->
    plan_post s.(at_) i (st :: steps) s.(wrote) err s').
  { intros err s' Hw Hr. exists [(p, st.(st_Keys))], false. split_and!; [congruence|by constructor|].
    destruct err as [[]|]; try done. destruct Hr as [-> ->]. cbn. split_and!; [done..|lia]. }
  destruct (negb _); [dstep; by apply Hun|].
  dstep. eapply wp_mono; [|apply screen_spec]. intros [[shown seen'] err] s3 ([Hat3 Hw3] & r & Hr & Hc3 & Hsh & He3 & Hx3).
  cbn in Hat3, Hw3, Hr, Hc3, Hsh, He3, Hx3. cbv beta iota zeta.
  destruct err as [e|]; [dstep; apply Hun; [done|by destruct e]|].
  destruct shown; cbn [negb]; [|dstep; by apply Hun].
  destruct (He3 eq_refl) as [_ Er]. eapply wp_mono; [|apply IH]. intros err s4 (log & all & E & Hc4 & Hx4).
  exists ((p, st.(st_Keys)) :: log), all. split_and!.
  - rewrite E, Hw3. fold p. rewrite Hw2, Hw1, <- app_assoc. done.
  - eapply (carried_step _ st steps p r log all); [unfold p; lia|done|done|by rewrite <- Hsh|]. by rewrite Er.
  - destruct err as [[]|]; try done. destruct Hx4 as (-> & -> & ->). cbn. split_and!; [done..|lia].
Qed.
End Plan.

(** A planned answer is carried out in its order: each step's keys go out
    once, not before the step is due and the request's own dialog was the last
    thing read, and never before the screen showed what the step before it did.
    It succeeds exactly when every step was carried out; giving up, it says how
    many it wrote. *)
Theorem plan_carried_out dr req steps err s s' :
  (forall p, ((tape p).(now) <= (tape (S p)).(now))%Z) ->
  adapter.(dialogReader) = Some dr -> hasScreen = true -> runAnswerPlan req steps s = Some (err, s') ->
  exists log all, s'.(wrote) = (s.(wrote) ++ log)%list /\ carried dr req s.(at_) steps log all /\
    (err = None <-> all = true) /\
    match err with
    | None | Some (ErrContext _) | Some ErrClosed | Some ErrWrite => True
    | Some (InputUnresolvedError r _ k) => r = toClientInputRequest req /\ k = List.length log
    | Some _ => False
    end.
Proof.
  intros Hm Hd Hs. unfold Prompt.runAnswerPlan. rewrite Hd, Hs. intros H.
  destruct (wp_use _ _ _ _ _ (plan_steps_spec dr req Hm steps 0 s) H) as (log & all & E & Hc & Hx).
  exists log, all. destruct err as [[]|]; cbn in *; try done; try (destruct Hx as (-> & ? & ?)); subst; split_and!; done.
Qed.

(** ** That an answer returns *)

Section Clock.
Context (tick : nat) (Hclock : clocked tape now tick) (Hfuel : polls tick (permModeRenderBudget g) <= fuel).

Lemma budget_nonneg : (0 <= permModeRenderBudget g)%Z.
Proof. unfold permModeRenderBudget. destruct (0 <? _)%Z eqn:E; bprop; [lia|]. by vm_compute. Qed.

Lemma screen_halts shown : halts (awaitScreen shown).
Proof.
  apply (wait_halts tape now tick _ fuel _ Hclock budget_nonneg Hfuel). intros e s.
  unfold await_screen. tsteps; cbn in *; (split; [lia|]); try done.
  intros H. case_match; [done|]. bprop. eexists. split; [|eassumption]. lia.
Qed.

Lemma dialog_halts dr req label ends : halts (awaitDialog dr req label ends).
Proof. apply halts_bind; [apply screen_halts|]. intros [[b cur] err]. auto with drive. Qed.

Lemma sleep_halts d : (d <= permModeRenderBudget g)%Z -> halts (sleep tape fuel d).
Proof.
  intros Hd. unfold sleep. destruct (d <=? 0)%Z eqn:E; [auto with drive|]. bprop.
  refine (wait_halts tape now tick d fuel (fun e => f' <-- look tape ;; ret (timer_case e f')) Hclock _ _ _); [lia| |].
  - unfold polls in *. assert (Z.to_nat d <= Z.to_nat (permModeRenderBudget g)) by lia. nia.
  - intros e s. tsteps. cbn. split; [lia|]. unfold timer_case. intros H. exists s.(at_). split; [done|].
    destruct (Z.leb_spec e (tape s.(at_)).(now)); [|lia]. exfalso. revert H.
    set (f := tape s.(at_)). by destruct (woke f), (ctx f), (isClosed f).
Qed.

Lemma nav_halts dr req label keys answered : halts (answer_nav dr req label keys answered).
Proof.
  unfold Prompt.answer_nav. destruct (splitNavKeys keys) as [[nav confirm]|]; [|auto with drive].
  apply halts_bind; [auto with drive|]. intros f. apply halts_if; [auto with drive|].
  apply halts_bind; [apply dialog_halts|]. intros [[st observed] [e|]]; [auto with drive|]. repeat apply halts_if; auto with drive.
Qed.

Lemma rounds_halts dr req label rounds : forall answered keys, answered + rounds <= 4 ->
  halts (answer_rounds dr req label rounds answered keys).
Proof.
  induction rounds as [|rounds IH]; intros answered keys Hn; cbn [Prompt.answer_rounds]; [auto with drive|].
  apply halts_bind; [apply nav_halts|]. intros [err|[split k]]; [auto with drive|].
  apply halts_bind; [auto with drive|]. intros f. apply halts_if; [auto with drive|]. cbv zeta.
  apply halts_bind; [apply dialog_halts|]. intros [[st observed] [e|]]; [auto with drive|].
  apply halts_if; [auto with drive|]. apply halts_if; [auto with drive|].
  apply halts_bind.
  { apply sleep_halts. pose proof budget_nonneg. apply Z.div_le_upper_bound; [lia|]. nia. }
  intros [e|]; [auto with drive|]. apply halts_bind; [auto with drive|]. intros f'.
  destruct (keysOnLiveScreen _ _ _ _); [apply IH; lia|]. apply halts_if; auto with drive.
Qed.

(** An answer returns, however the harness behaves, as long as the clock
    goes on: what its polls need is bounded by the render budget and the
    clock's grain. *)
Theorem answer_returns req opt : halts (answerAndConfirm req opt).
Proof.
  unfold Prompt.answerAndConfirm, write_once. destruct adapter.(dialogReader) as [dr|]; [apply halts_if|].
  - apply rounds_halts. unfold answerAttempts. lia.
  - apply halts_bind; auto with drive.
  - apply halts_bind; auto with drive.
Qed.
End Clock.
End Props.

(** ** Several options at once *)

Section Multi.
Context (harness : string) (tape : nat -> frame).

Lemma distinct_None req ids : forall seen, distinct_options req ids seen = None <-> exists id, id ∈ ids /\ findOption req id = None.
Proof.
  induction ids as [|id ids IH]; intros seen; cbn.
  - split; [done|]. intros (x & Hx & _). by apply list.not_elem_of_nil in Hx.
  - destruct (findOption req id) as [o|] eqn:Ho; cbn.
    + assert (Hx : (exists x, x ∈ ids /\ findOption req x = None) <-> exists x, x ∈ id :: ids /\ findOption req x = None).
      { split; intros (x & Hx & Hn); exists x; [set_solver|]. split; [|done].
        apply list.elem_of_cons in Hx as [->|?]; [congruence|done]. }
      rewrite <- Hx. destruct (any _ seen); [apply IH|]. rewrite fmap_None. apply IH.
    + split; [|done]. intros _. exists id. split; [set_solver|done].
Qed.

Lemma any_In seen x : any (String.eqb x) seen = true <-> x ∈ seen.
Proof. unfold any. rewrite existsb_exists. setoid_rewrite String.eqb_eq. setoid_rewrite <- list_elem_of_In. naive_solver. Qed.

Lemma distinct_Some req ids : forall seen opts, distinct_options req ids seen = Some opts ->
  NoDup (o_ID <$> opts) /\ (forall o, o ∈ opts -> o_ID o ∉ seen) /\
  (forall o, o ∈ opts -> exists id, id ∈ ids /\ findOption req id = Some o) /\
  (forall id o, id ∈ ids -> findOption req id = Some o -> o_ID o ∈ seen \/ o_ID o ∈ o_ID <$> opts).
Proof.
  induction ids as [|id ids IH]; intros seen opts H; cbn in H.
  { injection H as <-. cbn. split_and!; [constructor|set_solver..]. }
  destruct (findOption req id) as [o|] eqn:Ho; [|done]. cbn in H. destruct (any _ seen) eqn:Hs.
  - apply any_In in Hs. destruct (IH _ _ H) as (H1 & H2 & H3 & H4). split_and!; [done|done| |].
    + intros x Hx. destruct (H3 x Hx) as (i & ? & ?). exists i. split; [set_solver|done].
    + intros i x Hi Hx. apply list.elem_of_cons in Hi as [->|Hi]; [left; congruence|by eapply H4].
  - assert (Hn : o_ID o ∉ seen) by (rewrite <- any_In; congruence).
    apply fmap_Some in H as (rest & H & ->). destruct (IH _ _ H) as (H1 & H2 & H3 & H4). cbn. split_and!.
    + constructor; [|done]. intros (x & E & Hx)%list.list_elem_of_fmap. apply H2 in Hx. set_solver.
    + intros x [->|Hx]%list.elem_of_cons; [done|]. apply H2 in Hx. set_solver.
    + intros x [->|Hx]%list.elem_of_cons; [exists id; split; [set_solver|done]|].
      destruct (H3 x Hx) as (i & ? & ?). exists i. split; [set_solver|done].
    + intros i x Hi Hx. apply list.elem_of_cons in Hi as [->|Hi]; [right; simplify_eq; set_solver|].
      destruct (H4 i x Hi Hx); set_solver.
Qed.

(** A choice of several options is typed at once or not at all: an option
    the dialog does not have leaves it untouched; otherwise one write carries
    the keys of each option named, once each however often it was named, and
    the submit key. *)
Theorem choices_typed_once req ids s :
  match writeMultiSelect harness tape req ids s with
  | Some (err, s') =>
    (err = Some ErrUnknownOption /\ s'.(wrote) = s.(wrote) /\ exists id, id ∈ ids /\ findOption req id = None) \/
    (exists opts p, s'.(wrote) = (s.(wrote) ++ [(p, (concat_keys opts ++ submitKeyForHarness harness (tape (pred p)).(screen))%string)])%list /\
      NoDup (o_ID <$> opts) /\ (forall o, o ∈ opts -> exists id, id ∈ ids /\ findOption req id = Some o) /\
      (forall id, id ∈ ids -> exists o, findOption req id = Some o /\ o_ID o ∈ o_ID <$> opts) /\
      (err = None <-> (tape p).(writeOK) = true))
  | None => False
  end.
Proof.
  unfold writeMultiSelect. destruct (distinct_options req ids []) as [opts|] eqn:Hd.
  - right. exists opts, (S s.(at_)). destruct (distinct_Some _ _ _ _ Hd) as (H1 & _ & H3 & H4). split_and!; [done..| |].
    + intros id Hi. destruct (findOption req id) as [o|] eqn:Ho; [|by rewrite (proj2 (distinct_None req ids [])) in Hd; eauto].
      exists o. split; [done|]. destruct (H4 id o Hi Ho); [set_solver|done].
    + cbn. unfold write_err. by destruct (writeOK _).
  - left. apply distinct_None in Hd. by split.
Qed.
End Multi.

(** *** A dialog of two rows *)

(** Painted as the row its highlight is on. *)
Definition rows (l1 a1 l2 a2 text : string) : option InputRequest :=
  let keys (up : bool) := if up then esc ++ "[A" ++ enter else esc ++ "[B" ++ enter in
  let row id label alias (here up : bool) := mkOption id alias label "" (if here then enter else keys up) here false "" in
  if text =s? "1" then Some (mkRequest "r" "menu" "" "" true [row "o1" l1 a1 true true; row "o2" l2 a2 false false])
  else if text =s? "2" then Some (mkRequest "r" "menu" "" "" true [row "o1" l1 a1 false true; row "o2" l2 a2 true false])
  else None.
Definition rows_reader (l1 a1 l2 a2 : string) : DialogReader := mkReader (rows l1 a1 l2 a2) (fun t => negb (t =s? "")).
Definition rows_adapter (l1 a1 l2 a2 : string) : Adapter :=
  mkAdapter None None None (Some (rows_reader l1 a1 l2 a2)) None None None None None.
Definition raised (l1 a1 l2 a2 : string) : InputRequest := default (mkRequest "" "" "" "" false []) (rows l1 a1 l2 a2 "1").
Definition second (req : InputRequest) : InputOption := nth 1 req.(Options) (mkOption "" "" "" "" "" false false "").

Definition answer_second (l1 a1 l2 a2 : string) (f : nat -> string) : M (option chat_error) :=
  answerAndConfirm (rows_adapter l1 a1 l2 a2) short_gaps true (paints f) 200 (raised l1 a1 l2 a2) (second (raised l1 a1 l2 a2)).

(** The highlight moves back once before the second answer takes. *)
Definition bounces (n : nat) : string :=
  if n <? 5 then "1" else if n <? 7 then "2" else if n <? 17 then "1" else if n <? 24 then "2" else "".


Theorem answer_returns_witness :
  clocked (paints bounces) now 1 /\ polls 1 (permModeRenderBudget short_gaps) <= 200 /\ halts (answer_second "A" "" "B" "" bounces).
Proof.
  split; [apply paints_clocked|]. split; [vm_compute; lia|].
  refine (answer_returns (rows_adapter "A" "" "B" "") short_gaps true (paints bounces) 200 1 (paints_clocked _) _ _ _). vm_compute. lia.
Defined.

Definition two_steps : list AnswerStep :=
  [mkStep 3 "x" (mkAnswerEvidence EvidenceHighlighted "o2" ""); mkStep 0 "y" (mkAnswerEvidence EvidenceGone "" "")].

Theorem plan_carried_out_witness : exists log all, [(7, "x"); (20, "y")] = ([] ++ log)%list /\
  carried (paints bounces) (rows_reader "A" "" "B" "") (raised "A" "" "B" "") 0 two_steps log all /\
  (@None chat_error = None <-> all = true) /\ True.
Proof.
  refine (plan_carried_out (rows_adapter "A" "" "B" "") short_gaps true (paints bounces) 200 (rows_reader "A" "" "B" "")
    (raised "A" "" "B" "") two_steps None start (mkD 27 [(7, "x"); (20, "y")]) _ _ _ _); [|vm_compute; reflexivity..].
  intros p. cbn. lia.
Defined.

(** The row is looked for by its label, and the first row whose alias is that
    word is taken for it: the key that was to move the highlight down is lost,
    and the other row is confirmed. *)
Definition swallows (n : nat) : string := if n <? 5 then "1" else "".

Theorem label_confirms_another_row :
  answer_second "Continue" "proceed" "Proceed" "proceed" swallows start =
    Some (None, mkD 6 [(0, esc ++ "[B"); (3, enter)]%string) /\
  (forall n, n <= 3 -> (paints swallows n).(screen) = "1"%string) /\
  Highlighted (second (raised "Continue" "proceed" "Proceed" "proceed")) = false.
Proof.
  split; [vm_compute; reflexivity|]. split; [|done]. intros n Hn. cbn. unfold swallows. destruct (Nat.ltb_spec n 5); [done|lia].
Qed.
