(* ===== verification/Proc.v ===== *)
(** What the transports of a harness on pipes share: its output in lines of
    bounded length, its stderr's last line, and its exit as the Session's
    (src/pkg/adapter/internal/proc/proc.go), with the line reader of
    src/internal/chatcore/stream.go.

    Both readers stand on bufio.Reader.ReadSlice, whose buffer holds [size]
    bytes: it gives a line once its newline is in the buffer, a full buffer
    without one, or what is left at the end. *)
From Stdlib Require Import ZArith Ascii String Lia.
From stdpp Require Import base tactics list strings option.
From S2P Require Import Prelude GoStr Bytes Json Contract Observation.

#[local] Open Scope list_scope.
#[local] Open Scope go_scope.
#[local] Open Scope Z_scope.

(** ** Lines *)

Inductive slice := SliceLine | SliceFull | SliceEnd.
#[export] Instance slice_eq_dec : EqDecision slice.
Proof. solve_decision. Defined.

(** [r.ReadSlice('\n')] on what is left of the stream. *)
Definition ReadSlice (size : nat) (s : list ascii) : list ascii * list ascii * slice :=
  match IndexByte (take size s) nl with
  | Some i => (take (S i) s, drop (S i) s, SliceLine)
  | None => if (size <=? length s)%nat then (take size s, drop size s, SliceFull) else (s, [], SliceEnd)
  end.

(** [bytes.TrimRight(b, "\r\n")]. *)
Fixpoint trim_front (b : list ascii) : list ascii :=
  match b with
  | c :: b' => if Ascii.eqb c nl || Ascii.eqb c cr then trim_front b' else b
  | [] => []
  end.
Definition TrimRight (b : list ascii) : list ascii := rev (trim_front (rev b)).

(** The loop both readers share: bytes are kept while they are at most [keep].
    [None]: the line was too long and is dropped. *)
Fixpoint read_slices (fuel size keep : nat) (buf : option (list ascii)) (s : list ascii)
    : option (list ascii) * list ascii * bool :=
  let '(chunk, rest, how) := ReadSlice size s in
  let buf := match buf with
             | Some b => if (keep <? length b + length chunk)%nat then None else Some (b ++ chunk)
             | None => None
             end in
  match how with
  | SliceLine => (buf, rest, true)
  | SliceEnd => (buf, rest, false)
  | SliceFull => match fuel with O => (buf, rest, false) | S fuel => read_slices fuel size keep buf rest end
  end.

(** A line, what is left, and whether it ended with a newline rather than with
    the stream. *)
Definition ReadBoundedLine (size : nat) (s : list ascii) (max : nat) : option (list ascii) * list ascii * bool :=
  let '(buf, rest, whole) := read_slices (length s) size (max + 2) (Some []) s in
  let line := (fun b => if whole then TrimRight b else b) <$> buf in
  (match line with Some l => if (max <? length l)%nat then None else Some l | None => None end, rest, whole).

(** readBoundedLine of stream.go: the newline is counted. *)
Definition readBoundedLine (size : nat) (s : list ascii) (max : nat) : option (list ascii) * list ascii * bool :=
  let '(buf, rest, whole) := read_slices (length s) size max (Some []) s in
  ((fun b => if whole then TrimRight b else b) <$> buf, rest, whole).

(** ** stderr's last line *)

Definition DetailMax : Z := 512.

Definition LastLine (s : string) : string :=
  let l := TrimSpace (List.last (Split nl (TrimSpace s)) "") in
  if DetailMax <? slen l then Take DetailMax l else l.

(** ** The exit *)

(** [ps]: the exit code and the signal that ended it, of a process that was
    waited for. *)
Definition Exit (ps : option (Z * string)) (waitErr : option string) (stopping killed : bool) (stderr : string)
    : SessionExitedData :=
  let code := match ps with Some (c, _) => c | None => 0 end in
  let sig := match ps with Some (_, g) => g | None => ""%string end in
  let class :=
    if stopping && (sig =s? "killed") then ExitKilled
    else if stopping || (sig =s? "") && (code =? 0) then ExitClean
    else if negb (sig =s? "") || killed then ExitKilled
    else ExitCrashed in
  let detail := LastLine stderr in
  let detail :=
    match waitErr with
    | Some e => if (detail =s? "") && (sig =s? "") && negb (code =? 0) then e else detail
    | None => detail
    end in
  mkExited class (if (sig =s? "") && (0 <=? code) then Some code else None) sig detail.

(** ** What the readers read *)

Lemma ReadSlice_app size s chunk rest how : ReadSlice size s = (chunk, rest, how) -> s = chunk ++ rest.
Proof.
  unfold ReadSlice. destruct (IndexByte _ _); [|destruct (_ <=? _)%nat]; intros [= <- <- <-]; by rewrite ?take_drop, ?app_nil_r.
Qed.

Lemma ReadSlice_whole size line rest : (0 < size)%nat -> nl ∉ line -> (length line < size)%nat ->
  ReadSlice size (line ++ nl :: rest) = (line ++ [nl], rest, SliceLine).
Proof.
  intros Hs Hn Hl. unfold ReadSlice. rewrite take_app.
  replace (take size line) with line by (symmetry; apply take_ge; lia).
  destruct (size - length line)%nat as [|k] eqn:E; [lia|]. cbn [take]. rewrite IndexByte_app by done.
  change (nl :: rest) with ([nl] ++ rest). rewrite app_assoc.
  rewrite take_app_length', drop_app_length' by (rewrite length_app; cbn; lia). done.
Qed.

Lemma ReadSlice_part size s line rest : nl ∉ line -> (size <= length line)%nat -> s = line ++ rest ->
  ReadSlice size s = (take size line, drop size line ++ rest, SliceFull).
Proof.
  intros Hn Hl ->. unfold ReadSlice. rewrite take_app_le, drop_app_le by lia.
  replace (IndexByte (take size line) nl) with (@None nat).
  - replace (_ <=? _)%nat with true; [done|]. symmetry. apply Nat.leb_le. rewrite length_app. lia.
  - symmetry. apply IndexByte_None. intros Hi. apply Hn. rewrite <- (take_drop size line). apply elem_of_app. by left.
Qed.

Lemma ReadSlice_end size line : nl ∉ line -> (length line < size)%nat -> ReadSlice size line = (line, [], SliceEnd).
Proof.
  intros Hn Hl. unfold ReadSlice. rewrite take_ge by lia. rewrite (proj2 (IndexByte_None line nl)) by done.
  by replace (size <=? length line)%nat with false by (symmetry; apply Nat.leb_gt; lia).
Qed.

(** Bytes kept so far, [total] of them in the line to its end. *)
Definition kept (keep : nat) (l : list ascii) : option (list ascii) :=
  if (keep <? length l)%nat then None else Some l.

Lemma kept_app keep b c : (match kept keep b with
    Some b => if (keep <? length b + length c)%nat then None else Some (b ++ c) | None => None end) = kept keep (b ++ c).
Proof.
  unfold kept. rewrite length_app. destruct (Nat.ltb_spec keep (length b)); [|done].
  by destruct (Nat.ltb_spec keep (length b + length c)); [|lia].
Qed.

(** However small the buffer, the loop reads to the line's end. *)
Lemma read_slices_line size keep line rest : (0 < size)%nat -> nl ∉ line -> forall fuel b, (length line <= fuel)%nat ->
  read_slices fuel size keep (kept keep b) (line ++ nl :: rest) = (kept keep (b ++ line ++ [nl]), rest, true).
Proof.
  intros Hs. induction line as [line IH] using (induction_ltof1 _ (@length ascii)). unfold ltof in IH. intros Hn fuel b Hf.
  destruct (decide (length line < size)%nat) as [Hl|Hl].
  - destruct fuel; cbn [read_slices]; rewrite ReadSlice_whole by done; by rewrite kept_app.
  - destruct fuel as [|fuel]; [lia|]. cbn [read_slices].
    rewrite (ReadSlice_part size _ line (nl :: rest)) by (done || lia). rewrite kept_app.
    rewrite IH.
    + rewrite <- app_assoc. by rewrite (app_assoc (take size line)), take_drop.
    + rewrite length_drop. lia.
    + intros Hi. apply Hn. rewrite <- (take_drop size line). apply elem_of_app. by right.
    + rewrite length_drop. lia.
Qed.

Lemma read_slices_end size keep line : (0 < size)%nat -> nl ∉ line -> forall fuel b, (length line <= fuel)%nat ->
  read_slices fuel size keep (kept keep b) line = (kept keep (b ++ line), [], false).
Proof.
  intros Hs. induction line as [line IH] using (induction_ltof1 _ (@length ascii)). unfold ltof in IH. intros Hn fuel b Hf.
  destruct (decide (length line < size)%nat) as [Hl|Hl].
  - destruct fuel; cbn [read_slices]; rewrite ReadSlice_end by done; by rewrite kept_app.
  - destruct fuel as [|fuel]; [lia|]. cbn [read_slices].
    rewrite (ReadSlice_part size _ line []) by (rewrite ?app_nil_r; done || lia). rewrite kept_app, app_nil_r.
    rewrite IH.
    + by rewrite <- app_assoc, take_drop.
    + rewrite length_drop. lia.
    + intros Hi. apply Hn. rewrite <- (take_drop size line). apply elem_of_app. by right.
    + rewrite length_drop. lia.
Qed.

(** What a reader makes of a stream: each line, then what is left. *)
Fixpoint read_all (fuel : nat) (reader : list ascii -> option (list ascii) * list ascii * bool) (s : list ascii)
    : list (option (list ascii)) :=
  match fuel with
  | O => []
  | S fuel => let '(line, rest, more) := reader s in line :: (if more then read_all fuel reader rest else [])
  end.

(** A reader's account of a line ended by a newline, and of one ended by the
    stream. *)
Definition bounded (max : nat) (line : list ascii) : option (list ascii) := kept max (TrimRight (line ++ [nl])).
Definition ReadBoundedLine_line (max : nat) (line : list ascii) : option (list ascii) :=
  if (max + 2 <? length line + 1)%nat then None else kept max (TrimRight (line ++ [nl])).
Definition readBoundedLine_line (max : nat) (line : list ascii) : option (list ascii) :=
  if (max <? length line + 1)%nat then None else Some (TrimRight (line ++ [nl])).

Lemma read_all_lines reader f f_end :
  (forall line rest, nl ∉ line -> reader (line ++ nl :: rest) = (f line, rest, true)) ->
  (forall line, nl ∉ line -> reader line = (f_end line, [], false)) ->
  forall ls p fuel, Forall (fun l => nl ∉ l) ls -> nl ∉ p -> (length ls < fuel)%nat ->
  read_all fuel reader (unlines ls ++ p) = map f ls ++ [f_end p].
Proof.
  intros Hl He ls p. induction ls as [|l ls IH]; intros [|fuel] Hn Hp Hf; cbn in Hf; try lia; cbn [read_all].
  - cbn [unlines flat_map app]. by rewrite He.
  - apply Forall_cons_iff in Hn as [Hl0 Hn]. rewrite unlines_cons, <- app_assoc. cbn [app].
    rewrite Hl by done. rewrite IH by (done || lia). done.
Qed.

Lemma length_lines s : (length (lines s) <= length s)%nat.
Proof.
  rewrite (split_lines_join s) at 2. rewrite length_app. pose proof (lines_no_nl s) as H. clear H.
  generalize (lines s). intros ls. induction ls as [|l ls IH]; [cbn; lia|]. rewrite unlines_cons, length_app. cbn in *. lia.
Qed.

Lemma read_stream reader f f_end s fuel :
  (forall line rest, nl ∉ line -> reader (line ++ nl :: rest) = (f line, rest, true)) ->
  (forall line, nl ∉ line -> reader line = (f_end line, [], false)) -> (length s < fuel)%nat ->
  read_all fuel reader s = map f (lines s) ++ [f_end (partial s)].
Proof.
  intros Hl He Hf. rewrite (split_lines_join s) at 1. apply read_all_lines; [done|done|apply lines_no_nl|apply partial_no_nl|].
  pose proof (length_lines s). lia.
Qed.

Lemma ReadBoundedLine_whole size max line rest : (0 < size)%nat -> nl ∉ line ->
  ReadBoundedLine size (line ++ nl :: rest) max = (ReadBoundedLine_line max line, rest, true).
Proof.
  intros Hs Hn. unfold ReadBoundedLine, ReadBoundedLine_line. change (Some []) with (kept (max + 2) []).
  rewrite read_slices_line; [|done|done|rewrite length_app; lia]. cbn [app]. unfold kept at 1. rewrite length_app. cbn [length].
  by destruct (_ <? _)%nat.
Qed.

Lemma ReadBoundedLine_last size max line : (0 < size)%nat -> nl ∉ line ->
  ReadBoundedLine size line max = (kept max line, [], false).
Proof.
  intros Hs Hn. unfold ReadBoundedLine. change (Some []) with (kept (max + 2) []).
  rewrite read_slices_end by done. cbn [app]. unfold kept.
  destruct (Nat.ltb_spec (max + 2) (length line)) as [H|H]; [|done].
  assert ((max <? length line)%nat = true) as -> by (apply Nat.ltb_lt; lia). done.
Qed.

Lemma readBoundedLine_whole size max line rest : (0 < size)%nat -> nl ∉ line ->
  readBoundedLine size (line ++ nl :: rest) max = (readBoundedLine_line max line, rest, true).
Proof.
  intros Hs Hn. unfold readBoundedLine, readBoundedLine_line. change (Some []) with (kept max []).
  rewrite read_slices_line; [|done|done|rewrite length_app; lia]. cbn [app]. unfold kept at 1. rewrite length_app. cbn [length].
  by destruct (_ <? _)%nat.
Qed.

Lemma readBoundedLine_last size max line : (0 < size)%nat -> nl ∉ line ->
  readBoundedLine size line max = (kept max line, [], false).
Proof.
  intros Hs Hn. unfold readBoundedLine. change (Some []) with (kept max []).
  rewrite read_slices_end by done. cbn [app]. by destruct (kept max line).
Qed.

(** Whatever the size of its buffer, a transport's reader gives the stream's
    lines, one for one and in order: each one within the bound whole, each
    longer one as nothing, and no part of a line. *)
Theorem lines_read_whole size max s fuel : (0 < size)%nat -> (length s < fuel)%nat ->
  read_all fuel (fun s => ReadBoundedLine size s max) s =
    map (ReadBoundedLine_line max) (lines s) ++ [kept max (partial s)] /\
  read_all fuel (fun s => readBoundedLine size s max) s =
    map (readBoundedLine_line max) (lines s) ++ [kept max (partial s)].
Proof.
  intros Hs Hf. split; apply read_stream; intros; auto using ReadBoundedLine_whole, ReadBoundedLine_last, readBoundedLine_whole, readBoundedLine_last.
Qed.

(** A line that does not end in a carriage return is kept exactly when it is
    within the bound, and loses its ending only. *)
Lemma TrimRight_plain l c : c <> nl -> c <> cr -> TrimRight (l ++ [c] ++ [nl]) = l ++ [c].
Proof.
  intros H1 H2. unfold TrimRight. rewrite !rev_app_distr. cbn [rev app trim_front].
  rewrite (proj2 (Ascii.eqb_eq nl nl)) by done. cbn [orb trim_front].
  rewrite (proj2 (Ascii.eqb_neq c nl)), (proj2 (Ascii.eqb_neq c cr)) by done. cbn. by rewrite rev_involutive.
Qed.

Theorem line_within_bound max l c : c <> nl -> c <> cr ->
  ReadBoundedLine_line max (l ++ [c]) = (if (max <? length l + 1)%nat then None else Some (l ++ [c])) /\
  readBoundedLine_line max (l ++ [c]) = (if (max <? length l + 2)%nat then None else Some (l ++ [c])).
Proof.
  intros H1 H2. unfold ReadBoundedLine_line, readBoundedLine_line, kept. rewrite <- app_assoc, TrimRight_plain by done.
  rewrite !length_app. cbn [length]. split.
  - destruct (Nat.ltb_spec max (length l + 1)), (Nat.ltb_spec (max + 2) (length l + 1 + 1)); done || lia.
  - destruct (Nat.ltb_spec max (length l + 1 + 1)), (Nat.ltb_spec max (length l + 2)); done || lia.
Qed.

(** The exit is clean exactly when the process ended with code 0, or was
    stopped other than by SIGKILL; its detail is bounded. *)
Theorem exit_class ps waitErr stopping killed stderr :
  let e := Exit ps waitErr stopping killed stderr in
  let sig := match ps with Some (_, g) => g | None => ""%string end in
  let code := match ps with Some (c, _) => c | None => 0 end in
  (se_class e = ExitClean <-> if stopping then sig <> "killed"%string else sig = ""%string /\ code = 0) /\
  (se_class e = ExitCrashed <-> stopping = false /\ killed = false /\ sig = ""%string /\ code <> 0).
Proof.
  unfold Exit. cbn. destruct ps as [[c g]|]; cbn; destruct stopping, killed; cbn;
    repeat case_match; bprop; split; naive_solver lia.
Qed.
