(* ===== verification/Codex.v ===== *)
(** What the codex transport reads of codex's account of itself: errors, rate
    limits, retries and goals (src/pkg/adapter/codex/classify.go and
    native.go), and the small readings of transport.go.

    A float64 is a rational; a JSON value is decoded. The two regular
    expressions, the calendar of the Host's zone and the encoding of a usage
    report are parameters. *)
From Stdlib Require Import ZArith QArith Ascii String Lia.
From stdpp Require Import base tactics list strings option.
From S2P Require Import Prelude GoStr Bytes Json Contract Observation SessionState.

#[local] Open Scope string_scope.
#[local] Open Scope go_scope.
#[local] Open Scope Z_scope.

(** ** Errors *)

Definition upper_byte (c : ascii) : ascii :=
  if in_range 97 122 (code c) then ascii_of_N (Z.to_N (code c - 32)) else c.

Definition camel_part (p : string) : string := match p with "" => "" | String c s => String (upper_byte c) s end.

Definition camel (s : string) : string :=
  match Split "_" s with
  | [] => ""
  | p :: parts => fold_right append "" (p :: map camel_part parts)
  end.

(** codexErrorInfo as encoding/json reads it: a string, null, an object whose
    values hold a status each or none, or neither. *)
Inductive rawInfo := InfoString (s : string) | InfoNull | InfoObject (fields : list (string * option Z)) | InfoOther.

Record turnError := mkCodexError { Message : string; CodexErrorInfo : rawInfo }.

(** An object of several keys is read at the one its map gives first. *)
Definition errorInfo (raw : rawInfo) : string * Z :=
  match raw with
  | InfoString s => (camel s, 0)
  | InfoNull => (camel "", 0)
  | InfoObject ((k, st) :: _) => (camel k, default 0 st)
  | InfoObject [] | InfoOther => ("", 0)
  end.

Definition errorClass (name : string) : ErrorClass :=
  if name =s? "usageLimitExceeded" then ErrorUsageLimit
  else if name =s? "serverOverloaded" then ErrorOverloaded
  else if name =s? "unauthorized" then ErrorAuth
  else if (name =s? "sandboxError") || (name =s? "threadRollbackFailed") then ErrorInternal
  else if name =s? "" then ErrorInternal
  else ErrorAPI.

(** ** Rate limits *)

Record rateLimitWindow := mkWindow { UsedPercent : option Q; WindowDurationMins : option Z; ResetsAt : option Z }.
Record rateLimits := mkLimits { LimitID : string; Primary : option rateLimitWindow; Secondary : option rateLimitWindow }.

Definition full (w : option rateLimitWindow) : bool :=
  match w with
  | Some w => match w.(UsedPercent) with Some p => Qle_bool 100 p | None => false end
  | None => false
  end.

Definition resets (w : option rateLimitWindow) : option Time :=
  w ← w; at_ ← w.(ResetsAt); if at_ <=? 0 then None else Some (mkTime (at_ * 1000000000) 0).

(** The loop of resumeAt over the windows. *)
Definition later_reset (acc : option Time) (w : option rateLimitWindow) : option Time :=
  match resets w with
  | Some t => if full w && match acc with Some a => After t a | None => true end then Some t else acc
  | None => acc
  end.

Definition resumeAt (r : option rateLimits) : option Time :=
  r ← r; foldl later_reset None [r.(Primary); r.(Secondary)].

Record RateLimitWindow := mkUsage { Name : string; UsedPct : option Q; WindowResetsAt : option Time }.
Record RateLimitData := mkRateLimitData { Status : string; Windows : list RateLimitWindow }.

Definition window_data (name : string) (w : option rateLimitWindow) : list RateLimitWindow :=
  match w with Some w' => [mkUsage name w'.(UsedPercent) (resets w)] | None => [] end.

Definition data (r : rateLimits) : RateLimitData :=
  let windows := app (window_data "primary" r.(Primary)) (window_data "secondary" r.(Secondary)) in
  mkRateLimitData
    (if is_nil windows then "unknown" else if full r.(Primary) || full r.(Secondary) then "rejected" else "allowed")
    windows.

Definition merge (r : option rateLimits) (update : rateLimits) : rateLimits :=
  let out := default (mkLimits "" None None) r in
  mkLimits (if update.(LimitID) =s? "" then out.(LimitID) else update.(LimitID))
    (match update.(Primary) with Some w => Some w | None => out.(Primary) end)
    (match update.(Secondary) with Some w => Some w | None => out.(Secondary) end).

(** ** The thread's goal and name *)

Record goal := mkGoal { Objective : string; g_Status : string }.
#[export] Instance goal_eq_dec : EqDecision goal.
Proof. solve_decision. Defined.

Definition goalActive : string := "active".
Definition active (g : option goal) : bool := match g with Some g => g.(g_Status) =s? goalActive | None => false end.

Record nativeState := mkNative { Thread : string; n_Name : string; Goal : option goal; Home : string }.

Definition same (s o : nativeState) : bool := (s.(n_Name) =s? o.(n_Name)) && bool_decide (s.(Goal) = o.(Goal)).

(** What readNative found. *)
Inductive native_read := NativeMissing | NativeUnreadable | NativeSaved (s : nativeState).

Inductive load_refusal := LoadNoAccount | LoadUnreadable | LoadDiffers (saved got : nativeState).

Definition checkLoaded (saved : native_read) (home : string) (got : nativeState) : option load_refusal :=
  match saved with
  | NativeMissing => Some LoadNoAccount
  | NativeUnreadable => Some LoadUnreadable
  | NativeSaved s =>
    if s.(Home) =s? home then None else if negb (same s got) then Some (LoadDiffers s got) else None
  end.

(** indexedName: the entries of session_index.jsonl that decode. *)
Definition indexedName (entries : list (string * string)) (thread : string) : string :=
  foldl (fun name e => if e.1 =s? thread then e.2 else name) "" entries.

(** Whether syncNative writes the state, over the last it kept. *)
Definition sync_due (scratch : string) (kept : option nativeState) (st : nativeState) : bool :=
  negb ((st.(Thread) =s? "") || (scratch =s? "") || match kept with Some k => same k st | None => false end).

(** ** Small readings *)

Definition versionOfUserAgent (ua : string) : string :=
  let first := match Cut ua " " with Some (h, _) => h | None => ua end in
  match Cut first "/" with Some (_, v) => v | None => "" end.

Definition openReason (msg : string) : OpenFailure :=
  let msg := ToLower msg in
  if Contains msg "active writer" then OpenSessionInUse
  else if Contains msg "not found" || Contains msg "no rollout" then OpenSessionNotFound
  else OpenConfigInvalid.

Section Readings.
(** [tryAgain.FindStringSubmatch] and [reconnecting.FindStringSubmatch]: their
    groups. *)
Context (tryAgain : string -> option (string * string * string)) (reconnecting : string -> option (string * string)).
(** [now.In(time.Local)], [time.Date] of a time's day in its location, and
    [AddDate(0, 0, 1)]. *)
Context (local : Time -> Time) (date : Time -> Z -> Z -> Time) (next_day : Time -> Time).

Definition atoi (s : string) : Z := default 0 (Atoi s).

Definition tryAgainAt (msg : string) (now : Time) : option Time :=
  m ← tryAgain msg;
  let '(hh, mm, ap) := m in
  let h := atoi hh in let mins := atoi mm in
  if (h <? 1) || (12 <? h) || (59 <? mins) then None
  else
    let h := h mod 12 in
    let h := if ToLower ap =s? "p" then h + 12 else h in
    let at_ := date now h mins in
    Some (if After at_ now then at_ else next_day at_).

Definition failure (e : turnError) (limits : option rateLimits) (now : Time) : TurnError :=
  let '(name, status) := errorInfo e.(CodexErrorInfo) in
  let class := errorClass name in
  mkTurnError class status 0
    (if bool_decide (class = ErrorUsageLimit) then
       match resumeAt limits with Some at_ => Some at_ | None => UTC <$> tryAgainAt e.(Message) (local now) end
     else None).

Definition retry (e : turnError) : RetryingData :=
  let '(attempt, max) := match reconnecting e.(Message) with Some (a, b) => (atoi a, atoi b) | None => (0, 0) end in
  mkRetrying attempt max 0 (errorInfo e.(CodexErrorInfo)).2.
End Readings.
