(* ===== verification/CodexTurn.v ===== *)
(** The turns of a codex thread, as its transport keeps them
    (src/pkg/adapter/codex/transport.go): the input it submitted, the turn
    codex is on, the turns codex starts by itself, and what is sent again.

    The threads are Submit's callers, the reader of codex's lines, the timers
    that send a dropped input again, the goroutines that interrupt a turn, and
    wait. A step is one critical section or one write. Inputs and turns, which
    the code shares by pointer, live in heaps. [rmu], which serializes reports,
    is held across steps by a timer only. A message is what encoding/json makes
    of a line. *)
From Stdlib Require Import ZArith Ascii String Lia.
From stdpp Require Import base tactics list strings option gmap.
From S2P Require Import Prelude GoStr Bytes Json Contract Observation SessionState Proc Codex.

#[local] Open Scope string_scope.
#[local] Open Scope go_scope.
#[local] Open Scope Z_scope.

(** ** What codex says *)

Record turn_info := mkTurnInfo { ti_ID : string; ti_Status : string; ti_Error : option turnError }.
Record item := mkItem { it_Type : string; it_Text : string; it_ClientID : string }.

Record notification := mkNotification {
  n_TurnID : string; n_Turn : option turn_info; n_Item : option item; n_Error : option turnError; n_WillRetry : bool;
  n_RateLimits : option rateLimits; n_Goal : option goal; n_ThreadName : option string }.

(** A request of codex's own, a notification, or an answer: the turn its result
    names, or none when it is an error, with which codex refused the request. *)
Inductive message :=
| Request
| Notify (method : string) (n : notification)
| Answer (id : Z) (turn : option string).

(** What a caller hears of its request; [Gone] is errExited. *)
Inductive answer := Refused | Answered (turnID : string) | Gone.
#[export] Instance answer_eq_dec : EqDecision answer.
Proof. solve_decision. Defined.

(** ** What the transport keeps *)

Record inputState := mkInput {
  native : string; text : string; call : Z; answered : bool; turnID : string; bound : bool; interrupt : bool;
  resent : bool; again : option Z; held : bool }.

Record runState := mkRun { id : string; in_ : option nat; auto : bool; r_text : string; stopping : bool }.

(** What [mu] guards. *)
Record core := mkCore {
  ins : gmap nat inputState; runs : gmap nat runState; cur_in : option nat; cur_run : option nat;
  chain : bool; chainAt : Z; t_goal : option goal; t_name : string; limits : option rateLimits }.

Definition new_input (native text : string) : inputState := mkInput native text 0 false "" false false false None false.
Definition new_run (id : string) : runState := mkRun id None false "" false.

Definition upd_in (i : nat) (f : inputState -> inputState) (c : core) : core :=
  mkCore (alter f i c.(ins)) c.(runs) c.(cur_in) c.(cur_run) c.(chain) c.(chainAt) c.(t_goal) c.(t_name) c.(limits).
Definition upd_run (r : nat) (f : runState -> runState) (c : core) : core :=
  mkCore c.(ins) (alter f r c.(runs)) c.(cur_in) c.(cur_run) c.(chain) c.(chainAt) c.(t_goal) c.(t_name) c.(limits).
Definition set_in (o : option nat) (c : core) : core :=
  mkCore c.(ins) c.(runs) o c.(cur_run) c.(chain) c.(chainAt) c.(t_goal) c.(t_name) c.(limits).
Definition set_run (o : option nat) (c : core) : core :=
  mkCore c.(ins) c.(runs) c.(cur_in) o c.(chain) c.(chainAt) c.(t_goal) c.(t_name) c.(limits).
Definition set_chain (b : bool) (at_ : Z) (c : core) : core :=
  mkCore c.(ins) c.(runs) c.(cur_in) c.(cur_run) b at_ c.(t_goal) c.(t_name) c.(limits).
Definition set_goal (g : option goal) (c : core) : core :=
  mkCore c.(ins) c.(runs) c.(cur_in) c.(cur_run) c.(chain) c.(chainAt) g c.(t_name) c.(limits).
Definition set_name (n : string) (c : core) : core :=
  mkCore c.(ins) c.(runs) c.(cur_in) c.(cur_run) c.(chain) c.(chainAt) c.(t_goal) n c.(limits).
Definition set_limits (l : option rateLimits) (c : core) : core :=
  mkCore c.(ins) c.(runs) c.(cur_in) c.(cur_run) c.(chain) c.(chainAt) c.(t_goal) c.(t_name) l.
Definition add_in (i : nat) (x : inputState) (c : core) : core :=
  mkCore (<[i := x]> c.(ins)) c.(runs) c.(cur_in) c.(cur_run) c.(chain) c.(chainAt) c.(t_goal) c.(t_name) c.(limits).
Definition add_run (r : nat) (x : runState) (c : core) : core :=
  mkCore c.(ins) (<[r := x]> c.(runs)) c.(cur_in) c.(cur_run) c.(chain) c.(chainAt) c.(t_goal) c.(t_name) c.(limits).

Definition in_call (z : Z) (i : inputState) : inputState :=
  mkInput i.(native) i.(text) z i.(answered) i.(turnID) i.(bound) i.(interrupt) i.(resent) i.(again) i.(held).
Definition in_answered (b : bool) (t : string) (i : inputState) : inputState :=
  mkInput i.(native) i.(text) i.(call) b t i.(bound) i.(interrupt) i.(resent) i.(again) i.(held).
Definition in_bound (i : inputState) : inputState :=
  mkInput i.(native) i.(text) i.(call) i.(answered) i.(turnID) true i.(interrupt) i.(resent) i.(again) i.(held).
Definition in_interrupt (i : inputState) : inputState :=
  mkInput i.(native) i.(text) i.(call) i.(answered) i.(turnID) i.(bound) true i.(resent) i.(again) i.(held).
Definition in_resent (i : inputState) : inputState :=
  mkInput i.(native) i.(text) i.(call) false "" i.(bound) i.(interrupt) true i.(again) i.(held).
Definition in_again (o : option Z) (i : inputState) : inputState :=
  mkInput i.(native) i.(text) i.(call) i.(answered) i.(turnID) i.(bound) i.(interrupt) i.(resent) o i.(held).
Definition in_held (i : inputState) : inputState :=
  mkInput i.(native) i.(text) i.(call) i.(answered) i.(turnID) i.(bound) i.(interrupt) i.(resent) i.(again) true.
Definition run_in (i : nat) (r : runState) : runState := mkRun r.(id) (Some i) false r.(r_text) r.(stopping).
Definition run_auto (r : runState) : runState := mkRun r.(id) r.(in_) true r.(r_text) r.(stopping).
Definition run_text (t : string) (r : runState) : runState := mkRun r.(id) r.(in_) r.(auto) t r.(stopping).
Definition run_stopping (r : runState) : runState := mkRun r.(id) r.(in_) r.(auto) r.(r_text) true.

(** ** What it reports *)

Definition event (kind : EventKind) (native auto : string) (outcome : TurnOutcome) (text : string) (err : option TurnError)
    (retry : RetryingData) (rate : option string) (resume : option Time) (exit : SessionExitedData) : Event :=
  mkEvent kind native auto None outcome text err retry rate resume None "" "" exit [].
Definition no_retry : RetryingData := mkRetrying 0 0 0 0.
Definition no_exit : SessionExitedData := mkExited ExitClean None "" "".
Definition ev_start (n a : string) : Event := event Started n a TurnCompleted "" None no_retry None None no_exit.
Definition ev_end (n a : string) (o : TurnOutcome) (t : string) (e : option TurnError) : Event :=
  event Ended n a o t e no_retry None None no_exit.
Definition ev_retrying (n : string) (r : RetryingData) : Event := event Retrying n "" TurnCompleted "" None r None None no_exit.
Definition ev_limited (n : string) (rate : option string) (resume : option Time) : Event :=
  event RateLimited n "" TurnCompleted "" None no_retry rate resume no_exit.
Definition ev_exited (x : SessionExitedData) : Event := event Exited "" "" TurnCompleted "" None no_retry None None x.

Definition Second : Z := 1000000000.
Definition chainWait : Z := 3 * Second.
Definition resendWait : Z := Second.
Definition resendPatience : Z := 5 * Second.

Section Transport.
Context (tryAgain : string -> option (string * string * string)) (reconnecting : string -> option (string * string)).
Context (local : Time -> Time) (date : Time -> Z -> Z -> Time) (next_day : Time -> Time).
(** The encoding of a usage report. *)
Context (rate_json : RateLimitData -> option string).
(** [steer]: a test's. *)
Context (steer : bool).

Notation failure := (failure tryAgain local date next_day).

(** A handler's reports, and the turn whose interrupt fell due. *)
Definition outcome : Type := core * list Event * option nat.

Definition bindLocked (r i : nat) (c : core) (evs : list Event) : outcome :=
  match c.(ins) !! i, c.(runs) !! r with
  | Some x, Some y =>
    let c := upd_in i in_bound (upd_run r (run_in i) c) in
    let evs := app evs [ev_start x.(native) ""] in
    if x.(interrupt) && negb y.(stopping) then (upd_run r run_stopping c, evs, Some r) else (c, evs, None)
  | _, _ => (c, evs, None)
  end.

(** [pending]: codex's turn, of which it is not said whose it is. *)
Definition pending (y : runState) : bool := is_none y.(in_) && negb y.(auto).

Definition own_started (r : nat) (y : runState) (c : core) (evs : list Event) : core * list Event :=
  if pending y then (upd_run r run_auto c, app evs [ev_start "" y.(id)]) else (c, evs).

Definition onAnswer (reqID : Z) (a : option string) (c : core) : outcome :=
  match c.(cur_in) with
  | None => (c, [], None)
  | Some i =>
    match c.(ins) !! i with
    | None => (c, [], None)
    | Some x =>
      if negb (x.(call) =? reqID) then (c, [], None)
      else
        let c := upd_in i (in_call 0) c in
        let run := c.(cur_run) ≫= fun r => (fun y => (r, y)) <$> c.(runs) !! r in
        match a with
        | Some t =>
          let c := upd_in i (in_answered true t) c in
          match run with
          | Some (r, y) =>
            if pending y && (y.(id) =s? t) then bindLocked r i c []
            else let '(c, evs) := own_started r y c [] in (c, evs, None)
          | None => (c, [], None)
          end
        | None =>
          let c := set_in None c in
          let evs := if x.(resent) then [ev_end x.(native) "" TurnCancelled "" None] else [] in
          match run with
          | Some (r, y) => let '(c, evs) := own_started r y c evs in (c, evs, None)
          | None => (c, evs, None)
          end
        end
    end
  end.

Definition resendLocked (i : nat) (wait : Z) (c : core) : core := upd_in i (in_again (Some wait)) c.

(** The input and the turn [t.in] and [t.run] point to. *)
Definition the_in (c : core) : option (nat * inputState) := c.(cur_in) ≫= fun i => (fun x => (i, x)) <$> c.(ins) !! i.
Definition the_run (c : core) : option (nat * runState) := c.(cur_run) ≫= fun r => (fun y => (r, y)) <$> c.(runs) !! r.

(** turn/started. *)
Definition turn_started (now : Z) (n : notification) (c : core) : outcome :=
  match n.(n_Turn) with
  | None => (c, [], None)
  | Some t =>
    if (t.(ti_ID) =s? "") || match the_run c with Some (_, y) => y.(id) =s? t.(ti_ID) | None => false end then (c, [], None)
    else
      let r := fresh (dom c.(runs)) in
      let c := set_chain false c.(chainAt) (set_run (Some r) (add_run r (new_run t.(ti_ID)) c)) in
      match the_in c with
      | Some (i, x) =>
        if x.(answered) && (x.(turnID) =s? t.(ti_ID)) then bindLocked r i c []
        else if negb x.(answered) then (c, [], None)
        else (upd_run r run_auto c, [ev_start "" t.(ti_ID)], None)
      | None => (upd_run r run_auto c, [ev_start "" t.(ti_ID)], None)
      end
  end.

(** item/started and item/completed. *)
Definition item_seen (completed : bool) (n : notification) (c : core) : outcome :=
  match n.(n_Item), the_run c with
  | Some it, Some (r, y) =>
    if negb (n.(n_TurnID) =s? "") && negb (n.(n_TurnID) =s? y.(id)) then (c, [], None)
    else if it.(it_Type) =s? "userMessage" then
      match the_in c with
      | Some (i, x) =>
        if x.(bound) || negb (is_none y.(in_)) || negb (it.(it_ClientID) =s? x.(native)) then (c, [], None)
        else if y.(auto) then bindLocked r i (upd_run r (run_text "") c) [ev_end "" y.(id) TurnInterrupted "" None]
        else bindLocked r i c []
      | None => (c, [], None)
      end
    else if (it.(it_Type) =s? "agentMessage") && completed then (upd_run r (run_text it.(it_Text)) c, [], None)
    else (c, [], None)
  | _, _ => (c, [], None)
  end.

Definition turn_outcome (status : string) : TurnOutcome :=
  if status =s? "completed" then TurnCompleted else if status =s? "interrupted" then TurnInterrupted else TurnErrored.

(** turn/completed. *)
Definition turn_completed (now : Z) (n : notification) (c : core) : outcome :=
  match n.(n_Turn), the_run c with
  | Some t, Some (r, y) =>
    if negb (y.(id) =s? t.(ti_ID)) then (c, [], None)
    else
      let o := turn_outcome t.(ti_Status) in
      let text := if bool_decide (o = TurnCompleted) then y.(r_text) else "" in
      let err := if bool_decide (o = TurnErrored)
                 then Some (failure (default (mkCodexError "" InfoOther) t.(ti_Error)) c.(limits) (mkTime now 0)) else None in
      let c := set_chain (negb (bool_decide (o = TurnInterrupted)) && active c.(t_goal)) now (set_run None c) in
      match y.(in_) with
      | Some i =>
        let c' := if bool_decide (c.(cur_in) = Some i) then set_in None c else c in
        (c', [ev_end (default "" (native <$> c.(ins) !! i)) "" o text err], None)
      | None =>
        let e := ev_end "" y.(id) o text err in
        match the_in c with
        | Some (i, x) =>
          if negb (x.(answered) && negb x.(bound)) then (c, [e], None)
          else if negb (bool_decide (o = TurnInterrupted)) then (resendLocked i resendPatience (upd_in i in_held c), [e], None)
          else if x.(interrupt) then (set_in None c, [e; ev_end x.(native) "" TurnCancelled "" None], None)
          else (resendLocked i resendWait c, [e], None)
        | None => (c, [e], None)
        end
      end
  | _, _ => (c, [], None)
  end.

(** error, with willRetry. *)
Definition error_seen (n : notification) (c : core) : list Event :=
  match n.(n_Error), the_run c with
  | Some e, Some (_, y) =>
    match y.(in_) with
    | Some i =>
      if n.(n_WillRetry) && ((n.(n_TurnID) =s? "") || (n.(n_TurnID) =s? y.(id)))
      then [ev_retrying (default "" (native <$> c.(ins) !! i)) (retry reconnecting e)] else []
    | None => []
    end
  | _, _ => []
  end.

Definition limits_updated (n : notification) (c : core) : outcome :=
  match n.(n_RateLimits) with
  | None => (c, [], None)
  | Some u =>
    let l := merge c.(limits) u in
    let on := match the_run c with Some (_, y) => y.(in_) ≫= fun i => native <$> c.(ins) !! i | None => None end in
    (set_limits (Some l) c, [ev_limited (default "" on) (rate_json (data l)) (resumeAt (Some l))], None)
  end.

Definition goal_updated (now : Z) (n : notification) (c : core) : core :=
  match n.(n_Goal) with
  | None => c
  | Some g =>
    let c := set_goal (Some g) c in
    if negb (active (Some g)) then set_chain false c.(chainAt) c
    else if (n.(n_TurnID) =s? "") && is_none c.(cur_run) && negb c.(chain) then set_chain true now c else c
  end.

Definition onNotification (now : Z) (method : string) (n : notification) (c : core) : outcome :=
  if method =s? "turn/started" then turn_started now n c
  else if method =s? "item/started" then item_seen false n c
  else if method =s? "item/completed" then item_seen true n c
  else if method =s? "turn/completed" then turn_completed now n c
  else if method =s? "error" then (c, error_seen n c, None)
  else if method =s? "account/rateLimits/updated" then limits_updated n c
  else if method =s? "thread/goal/updated" then (goal_updated now n c, [], None)
  else if method =s? "thread/goal/cleared" then (set_chain false c.(chainAt) (set_goal None c), [], None)
  else if method =s? "thread/name/updated" then (match n.(n_ThreadName) with Some s => set_name s c | None => c end, [], None)
  else (c, [], None).

(** resend, up to its turn/start. *)
Inductive resend_result := ResendNothing (c : core) | ResendEnds (c : core) (e : Event) | ResendSends (c : core).

Definition resend (i : nat) (c : core) : resend_result :=
  match c.(ins) !! i with
  | None => ResendNothing c
  | Some x =>
    let c' := upd_in i (in_again None) c in
    if negb (bool_decide (c.(cur_in) = Some i)) || x.(bound) || is_none x.(again)
       || match the_run c with Some (_, y) => is_none y.(in_) | None => false end
    then ResendNothing c'
    else if x.(interrupt) then ResendEnds (set_in None c') (ev_end x.(native) "" TurnCancelled "" None)
    else if x.(held) then
      ResendEnds (set_in None c') (ev_end x.(native) "" TurnErrored "" (Some (mkTurnError ErrorInternal 0 0 None)))
    else ResendSends (upd_in i in_resent c')
  end.

(** One round of yield's loop, for an input of which [exited] is false: it
    goes on waiting, with the turn to interrupt, is refused as busy, or takes
    the transport. *)
Inductive yield_result := YieldWaits (c : core) (stop : option nat) | YieldBusy | YieldTakes (c : core).

Definition yield_own (run : option (nat * runState)) (c : core) : core * option nat :=
  match run with
  | Some (r, y) => if negb y.(stopping) then (upd_run r run_stopping c, Some r) else (c, None)
  | None => (c, None)
  end.

Definition yield (now : Z) (i : nat) (c : core) : yield_result :=
  let busy := match the_run c with Some (_, y) => negb (is_none y.(in_)) | None => false end in
  if busy then YieldBusy
  else
    let run := if steer then None else the_run c in
    let '(c, stop) := yield_own run c in
    let patience := if negb steer && is_none run && c.(chain) then chainWait - (now - c.(chainAt)) else 0 in
    if is_none run && (patience <=? 0) then YieldTakes (set_in (Some i) (set_chain false c.(chainAt) c))
    else YieldWaits c stop.

(** Interrupt and InterruptTurn. *)
Definition Interrupt (c : core) : core * option nat :=
  match the_in c with
  | Some (i, x) =>
    if x.(interrupt) then (c, None)
    else
      let c := upd_in i in_interrupt c in
      match the_run c with
      | Some (r, y) =>
        if negb y.(stopping) && (bool_decide (y.(in_) = Some i) || is_none y.(in_) && x.(answered) && negb x.(bound))
        then (upd_run r run_stopping c, Some r) else (c, None)
      | None => (c, None)
      end
  | None => (c, None)
  end.

Definition InterruptTurn (native : string) (c : core) : core * option nat :=
  match the_run c with
  | Some (r, y) =>
    if is_none y.(in_) && (y.(id) =s? native) && negb y.(stopping) then (upd_run r run_stopping c, Some r) else (c, None)
  | None => (c, None)
  end.

(** ** The threads *)

Inductive submit_result := SubmitOK | SubmitNotSubmitted | SubmitExited | SubmitBusy | SubmitUnknown.
#[export] Instance submit_result_eq_dec : EqDecision submit_result.
Proof. solve_decision. Defined.

(** Where a Submit is; a request's number once it has one. *)
Inductive submit_pc :=
| SubYield | SubSend | SubCall (n : Z) | SubWrite (n : Z) | SubWait (n : Z) | SubForget (r : submit_result) | SubDone (r : submit_result).

Inductive resend_pc := RsSend | RsCall (n : Z) | RsWrite (n : Z) | RsFail.

(** Where the interruption of a turn is. *)
Inductive interrupt_pc := IntNext | IntSend | IntWrite (n : Z) | IntWait (n : Z) | IntEnd.

(** Where wait is. *)
Inductive wait_pc := WaitProcess | WaitRead | WaitStdin | WaitCalls | WaitDone.
#[export] Instance wait_pc_eq_dec : EqDecision wait_pc.
Proof. solve_decision. Defined.

(** What codex was sent. *)
Inductive line :=
| TurnStart (n : Z) (native text : string)
| TurnInterrupt (n : Z) (turn : string)
| OtherRequest (n : Z)
| RefuseRequest.

Inductive act := Wrote (l : line) | Told (e : Event) | Read (m : message).

Record world := mkWorld {
  w_core : core; calls : gset Z; answers : gmap Z answer; nextID : Z; callEnd : bool; stdinClosed : bool;
  w_stopping : bool; w_killed : bool; waiting : wait_pc; subs : gmap nat submit_pc; intrs : gmap nat interrupt_pc;
  resender : option (nat * resend_pc); hist : list act }.

Definition set_core (c : core) (w : world) : world :=
  mkWorld c w.(calls) w.(answers) w.(nextID) w.(callEnd) w.(stdinClosed) w.(w_stopping) w.(w_killed) w.(waiting) w.(subs)
    w.(intrs) w.(resender) w.(hist).
Definition set_calls (l : gset Z) (w : world) : world :=
  mkWorld w.(w_core) l w.(answers) w.(nextID) w.(callEnd) w.(stdinClosed) w.(w_stopping) w.(w_killed) w.(waiting) w.(subs)
    w.(intrs) w.(resender) w.(hist).
Definition set_answers (l : gmap Z answer) (w : world) : world :=
  mkWorld w.(w_core) w.(calls) l w.(nextID) w.(callEnd) w.(stdinClosed) w.(w_stopping) w.(w_killed) w.(waiting) w.(subs)
    w.(intrs) w.(resender) w.(hist).
Definition set_nextID (n : Z) (w : world) : world :=
  mkWorld w.(w_core) w.(calls) w.(answers) n w.(callEnd) w.(stdinClosed) w.(w_stopping) w.(w_killed) w.(waiting) w.(subs)
    w.(intrs) w.(resender) w.(hist).
Definition set_callEnd (w : world) : world :=
  mkWorld w.(w_core) w.(calls) w.(answers) w.(nextID) true w.(stdinClosed) w.(w_stopping) w.(w_killed) w.(waiting) w.(subs)
    w.(intrs) w.(resender) w.(hist).
Definition close_stdin (w : world) : world :=
  mkWorld w.(w_core) w.(calls) w.(answers) w.(nextID) w.(callEnd) true w.(w_stopping) w.(w_killed) w.(waiting) w.(subs)
    w.(intrs) w.(resender) w.(hist).
Definition set_ending (stop kill : bool) (w : world) : world :=
  mkWorld w.(w_core) w.(calls) w.(answers) w.(nextID) w.(callEnd) w.(stdinClosed) stop kill w.(waiting) w.(subs)
    w.(intrs) w.(resender) w.(hist).
Definition set_waiting (p : wait_pc) (w : world) : world :=
  mkWorld w.(w_core) w.(calls) w.(answers) w.(nextID) w.(callEnd) w.(stdinClosed) w.(w_stopping) w.(w_killed) p w.(subs)
    w.(intrs) w.(resender) w.(hist).
Definition set_sub (i : nat) (p : submit_pc) (w : world) : world :=
  mkWorld w.(w_core) w.(calls) w.(answers) w.(nextID) w.(callEnd) w.(stdinClosed) w.(w_stopping) w.(w_killed) w.(waiting)
    (<[i := p]> w.(subs)) w.(intrs) w.(resender) w.(hist).
Definition set_intr (r : nat) (p : interrupt_pc) (w : world) : world :=
  mkWorld w.(w_core) w.(calls) w.(answers) w.(nextID) w.(callEnd) w.(stdinClosed) w.(w_stopping) w.(w_killed) w.(waiting)
    w.(subs) (<[r := p]> w.(intrs)) w.(resender) w.(hist).
Definition set_resender (o : option (nat * resend_pc)) (w : world) : world :=
  mkWorld w.(w_core) w.(calls) w.(answers) w.(nextID) w.(callEnd) w.(stdinClosed) w.(w_stopping) w.(w_killed) w.(waiting)
    w.(subs) w.(intrs) o w.(hist).
Definition log (l : list act) (w : world) : world :=
  mkWorld w.(w_core) w.(calls) w.(answers) w.(nextID) w.(callEnd) w.(stdinClosed) w.(w_stopping) w.(w_killed) w.(waiting)
    w.(subs) w.(intrs) w.(resender) (app w.(hist) l).

(** [go t.interrupt(r)], when one fell due. *)
Definition spawn (stop : option nat) (w : world) : world := match stop with Some r => set_intr r IntNext w | None => w end.

(** emit. *)
Definition emit (o : outcome) (w : world) : world :=
  let '(c, evs, stop) := o in spawn stop (log (map Told evs) (set_core c w)).

(** send's section: a number for a request, and a place for its answer. *)
Definition begin_call (w : world) : option (Z * world) :=
  if w.(callEnd) then None
  else let n := w.(nextID) + 1 in Some (n, set_calls ({[n]} ∪ w.(calls)) (set_nextID n w)).

Definition drop_call (n : Z) (w : world) : world := set_calls (w.(calls) ∖ {[n]}) w.

(** onMessage, of an answer. *)
Definition answer_in (reqID : Z) (a : option string) (w : world) : world :=
  let heard := match a with Some t => Answered t | None => Refused end in
  let w' := if bool_decide (reqID ∈ w.(calls)) then set_answers (<[reqID := heard]> w.(answers)) (drop_call reqID w) else w in
  emit (onAnswer reqID a w.(w_core)) w'.

(** Which thread moves. [WriteFails] is a pipe that refuses the write. *)
Inductive move :=
| MSubmit (native text : string)
| MYield (i : nat) (now : Z)
| MYieldEnds (i : nat)
| MSend (i : nat)
| MCall (i : nat)
| MWrite (i : nat) (fails : bool)
| MAnswered (i : nat)
| MWaitEnds (i : nat)
| MForget (i : nat)
| MRead (m : message) (now : Z)
| MResend (i : nat)
| MResendSend
| MResendCall
| MResendWrite (fails : bool)
| MResendFail
| MInterrupt
| MInterruptTurn (native : string)
| MIntNext (r : nat)
| MIntSend (r : nat)
| MIntWrite (r : nat) (fails : bool)
| MIntAnswered (r : nat)
| MIntEnds (r : nat)
| MOtherCall
| MState (name : string) (g : option goal)
| MCloseStdin
| MStop
| MKill
| MExit
| MWaitStdin
| MWaitCalls
| MWaitReport (ps : option (Z * string)) (err : option string) (stderr : string).

Definition step (m : move) (w : world) : option world :=
  let c := w.(w_core) in
  let free := is_none w.(resender) in
  match m with
  | MSubmit native text =>
    let i := fresh (dom c.(ins)) in Some (set_sub i SubYield (set_core (add_in i (new_input native text) c) w))
  | MYield i now =>
    match w.(subs) !! i with
    | Some SubYield =>
      if bool_decide (w.(waiting) = WaitDone) then Some (set_sub i (SubDone SubmitExited) w)
      else match yield now i c with
           | YieldBusy => Some (set_sub i (SubDone SubmitBusy) w)
           | YieldWaits c stop => Some (spawn stop (set_core c w))
           | YieldTakes c => Some (set_sub i SubSend (set_core c w))
           end
    | _ => None
    end
  | MYieldEnds i =>
    match w.(subs) !! i with Some SubYield => Some (set_sub i (SubDone SubmitNotSubmitted) w) | _ => None end
  | MSend i =>
    match w.(subs) !! i with
    | Some SubSend =>
      Some (match begin_call w with Some (n, w) => set_sub i (SubCall n) w | None => set_sub i (SubForget SubmitExited) w end)
    | _ => None
    end
  | MCall i =>
    match w.(subs) !! i with
    | Some (SubCall n) => Some (set_sub i (SubWrite n) (set_core (upd_in i (in_call n) c) w))
    | _ => None
    end
  | MWrite i fails =>
    match w.(subs) !! i, c.(ins) !! i with
    | Some (SubWrite n), Some x =>
      Some (if w.(stdinClosed) then set_sub i (SubForget SubmitExited) (drop_call n w)
            else if fails then set_sub i (SubDone SubmitUnknown) (drop_call n w)
            else set_sub i (SubWait n) (log [Wrote (TurnStart n x.(native) x.(text))] w))
    | _, _ => None
    end
  | MAnswered i =>
    match w.(subs) !! i with
    | Some (SubWait n) =>
      match w.(answers) !! n with
      | Some Refused => Some (set_sub i (SubForget SubmitNotSubmitted) w)
      | Some (Answered _) => Some (set_sub i (SubDone SubmitOK) w)
      | Some Gone => Some (set_sub i (SubDone SubmitUnknown) w)
      | None => None
      end
    | _ => None
    end
  | MWaitEnds i =>
    match w.(subs) !! i with
    | Some (SubWait n) => Some (set_sub i (SubDone SubmitUnknown) (drop_call n w))
    | _ => None
    end
  | MForget i =>
    match w.(subs) !! i with
    | Some (SubForget r) =>
      Some (set_sub i (SubDone r) (if bool_decide (c.(cur_in) = Some i) then set_core (set_in None c) w else w))
    | _ => None
    end
  | MRead m now =>
    if negb (bool_decide (w.(waiting) = WaitProcess) && free) then None
    else
      let w := log [Read m] w in
      Some (match m with
            | Request => if w.(stdinClosed) then w else log [Wrote RefuseRequest] w
            | Notify method n => emit (onNotification now method n c) w
            | Answer reqID a => answer_in reqID a w
            end)
  | MResend i =>
    if negb free || bool_decide (w.(waiting) = WaitDone) then None
    else Some (match resend i c with
               | ResendNothing c => set_core c w
               | ResendEnds c e => log [Told e] (set_core c w)
               | ResendSends c => set_resender (Some (i, RsSend)) (set_core c w)
               end)
  | MResendSend =>
    match w.(resender) with
    | Some (i, RsSend) =>
      Some (match begin_call w with
            | Some (n, w) => set_resender (Some (i, RsCall n)) w
            | None => set_resender (Some (i, RsFail)) w
            end)
    | _ => None
    end
  | MResendCall =>
    match w.(resender) with
    | Some (i, RsCall n) => Some (set_resender (Some (i, RsWrite n)) (set_core (upd_in i (in_call n) c) w))
    | _ => None
    end
  | MResendWrite fails =>
    match w.(resender) with
    | Some (i, RsWrite n) =>
      match c.(ins) !! i with
      | Some x =>
        Some (if w.(stdinClosed) || fails then set_resender (Some (i, RsFail)) (drop_call n w)
              else set_resender None (log [Wrote (TurnStart n x.(native) x.(text))] w))
      | None => None
      end
    | _ => None
    end
  | MResendFail =>
    match w.(resender) with
    | Some (i, RsFail) =>
      let c := if bool_decide (c.(cur_in) = Some i) then set_in None c else c in
      Some (set_resender None (log [Told (ev_end (default "" (native <$> c.(ins) !! i)) "" TurnCancelled "" None)] (set_core c w)))
    | _ => None
    end
  | MInterrupt => let '(c, stop) := Interrupt c in Some (spawn stop (set_core c w))
  | MInterruptTurn native => let '(c, stop) := InterruptTurn native c in Some (spawn stop (set_core c w))
  | MIntNext r =>
    match w.(intrs) !! r with
    | Some IntNext => Some (set_intr r (if bool_decide (c.(cur_run) = Some r) then IntSend else IntEnd) w)
    | _ => None
    end
  | MIntSend r =>
    match w.(intrs) !! r with
    | Some IntSend => Some (match begin_call w with Some (n, w) => set_intr r (IntWrite n) w | None => set_intr r IntEnd w end)
    | _ => None
    end
  | MIntWrite r fails =>
    match w.(intrs) !! r, c.(runs) !! r with
    | Some (IntWrite n), Some y =>
      Some (if w.(stdinClosed) || fails then set_intr r IntEnd (drop_call n w)
            else set_intr r (IntWait n) (log [Wrote (TurnInterrupt n y.(id))] w))
    | _, _ => None
    end
  | MIntAnswered r =>
    match w.(intrs) !! r with
    | Some (IntWait n) =>
      match w.(answers) !! n with
      | Some Refused => Some (set_intr r IntNext w)
      | Some _ => Some (set_intr r IntEnd w)
      | None => None
      end
    | _ => None
    end
  | MIntEnds r => match w.(intrs) !! r with Some _ => Some (set_intr r IntEnd w) | None => None end
  | MOtherCall =>
    match begin_call w with
    | Some (n, w) => Some (if w.(stdinClosed) then drop_call n w else log [Wrote (OtherRequest n)] w)
    | None => None
    end
  | MState name g => Some (set_core (set_name name (set_goal g c)) w)
  | MCloseStdin => Some (close_stdin w)
  | MStop => Some (set_ending true w.(w_killed) w)
  | MKill => Some (set_ending w.(w_stopping) true w)
  | MExit => if bool_decide (w.(waiting) = WaitProcess) then Some (set_waiting WaitRead w) else None
  | MWaitStdin => if bool_decide (w.(waiting) = WaitRead) then Some (set_waiting WaitStdin (close_stdin w)) else None
  | MWaitCalls =>
    if bool_decide (w.(waiting) = WaitStdin)
    then Some (set_waiting WaitCalls (set_calls ∅ (set_answers (set_to_map (fun n => (n, Gone)) w.(calls) ∪ w.(answers)) (set_callEnd w))))
    else None
  | MWaitReport ps err stderr =>
    if bool_decide (w.(waiting) = WaitCalls) && free
    then Some (set_waiting WaitDone (log [Told (ev_exited (Exit ps err w.(w_stopping) w.(w_killed) stderr))] w))
    else None
  end.
End Transport.
