(* ===== verification/CodexHandlers.v ===== *)
(** What the codex transport's handlers keep: the reports a transport may make,
    as a machine that accepts them ([accept]), the shape of the transport's
    state, and that each handler keeps the shape and reports what the machine
    accepts. *)
From Stdlib Require Import ZArith Ascii String Lia.
From stdpp Require Import base tactics list strings option gmap.
From S2P Require Import Prelude GoStr Bytes Json Contract Observation SessionState Proc Codex CodexTurn.

#[local] Open Scope string_scope.
#[local] Open Scope list_scope.

(** ** What a transport's reports must be *)

Inductive who := Own (id : string) | Input_ (native : string).

(** The turn that runs, the inputs whose turns began, and those whose turns
    ended. *)
Record spec := mkSpec { on : option who; begun : list string; over : list string; gone : bool }.
Definition spec0 : spec := mkSpec None [] [] false.

#[export] Instance who_eq_dec : EqDecision who.
Proof. solve_decision. Defined.

Definition not_run (o : TurnOutcome) : bool := bool_decide (o = TurnCancelled) || bool_decide (o = TurnErrored).

(** A report the contract allows: a turn starts when none runs, an input's
    once; it ends when it runs, or — an input's that never began, and one of
    codex's own whose start was never reported — while none does; nothing
    follows the exit. *)
Definition accept (a : spec) (e : Event) : option spec :=
  let n := e.(ev_native) in let own := e.(ev_auto) in
  if a.(gone) then None
  else
    match e.(ev_kind) with
    | Started =>
      if negb (bool_decide (a.(on) = None)) then None
      else if negb (String.eqb own "") then Some (mkSpec (Some (Own own)) a.(begun) a.(over) false)
      else if bool_decide (n ∈ a.(begun)) || bool_decide (n ∈ a.(over)) || String.eqb n "" then None
      else Some (mkSpec (Some (Input_ n)) (n :: a.(begun)) a.(over) false)
    | Ended =>
      if negb (String.eqb own "") then
        if bool_decide (a.(on) = Some (Own own)) || bool_decide (a.(on) = None) then Some (mkSpec None a.(begun) a.(over) false)
        else None
      else if bool_decide (n ∈ a.(over)) then None
      else if bool_decide (a.(on) = Some (Input_ n)) then Some (mkSpec None a.(begun) (n :: a.(over)) false)
      else if bool_decide (a.(on) = None) && negb (bool_decide (n ∈ a.(begun))) && not_run e.(ev_outcome)
      then Some (mkSpec None a.(begun) (n :: a.(over)) false) else None
    | Retrying => if bool_decide (a.(on) = Some (Input_ n)) then Some a else None
    | RateLimited => if String.eqb n "" || bool_decide (a.(on) = Some (Input_ n)) then Some a else None
    | Exited => Some (mkSpec a.(on) a.(begun) a.(over) true)
    | _ => None
    end.

Definition accepts (a : spec) (es : list Event) : option spec :=
  foldl (fun a e => a ≫= fun a => accept a e) (Some a) es.

Definition reports (h : list act) : list Event := omap (fun x => match x with Told e => Some e | _ => None end) h.

Lemma accepts_None es : foldl (fun a e => a ≫= fun a => accept a e) None es = None.
Proof. by induction es. Qed.

Lemma accepts_app a es es' : accepts a (es ++ es') = accepts a es ≫= fun a => accepts a es'.
Proof. unfold accepts. rewrite foldl_app. destruct (foldl _ _ es); [done|apply accepts_None]. Qed.

Lemma accepts_cons a e es : accepts a (e :: es) = accept a e ≫= fun a => accepts a es.
Proof. unfold accepts. cbn. destruct (accept a e); [done|apply accepts_None]. Qed.

(** ** The shape of the transport's state *)

Lemma the_in_Some c i x : the_in c = Some (i, x) <-> c.(cur_in) = Some i /\ c.(ins) !! i = Some x.
Proof. unfold the_in. destruct (cur_in c) as [j|]; cbn; [|naive_solver]. destruct (ins c !! j) eqn:E; cbn; naive_solver. Qed.

Lemma the_run_Some c r y : the_run c = Some (r, y) <-> c.(cur_run) = Some r /\ c.(runs) !! r = Some y.
Proof. unfold the_run. destruct (cur_run c) as [j|]; cbn; [|naive_solver]. destruct (runs c !! j) eqn:E; cbn; naive_solver. Qed.

(** The turn the host was told runs. *)
Definition current_view (vi : option (nat * inputState)) (vr : option (nat * runState)) : option who :=
  match vr with
  | None => None
  | Some (_, y) =>
    match y.(in_) with
    | Some _ => match vi with Some (_, x) => Some (Input_ x.(native)) | None => None end
    | None => if y.(auto) then Some (Own y.(id)) else None
    end
  end.
Definition current (c : core) : option who := current_view (the_in c) (the_run c).

(** The input in hand and the turn codex is on: a turn holds an input exactly
    when it is the input's, and a turn that began before turn/start was answered
    is not yet said to be codex's own. *)
Definition ok_view (vi : option (nat * inputState)) (vr : option (nat * runState)) : Prop :=
  (forall i x, vi = Some (i, x) -> x.(bound) = true -> exists r y, vr = Some (r, y) /\ y.(in_) = Some i) /\
  (forall r y, vr = Some (r, y) -> y.(id) <> "" /\
     match y.(in_) with
     | Some i => y.(auto) = false /\ exists x, vi = Some (i, x) /\ x.(bound) = true /\ (x.(interrupt) = true -> y.(stopping) = true)
     | None => forall i x, vi = Some (i, x) -> x.(answered) = false -> y.(auto) = false
     end).

(** [Q]: the inputs no other thread may still bring to an end. *)
Record shape (Q : nat -> Prop) (c : core) : Prop := mkShape {
  sh_in : forall i, c.(cur_in) = Some i -> is_Some (c.(ins) !! i) /\ Q i;
  sh_run : forall r, c.(cur_run) = Some r -> is_Some (c.(runs) !! r);
  sh_native : forall i j x z, c.(ins) !! i = Some x -> c.(ins) !! j = Some z -> x.(native) = z.(native) -> i = j;
  sh_named : forall i x, c.(ins) !! i = Some x -> x.(native) <> "";
  sh_view : ok_view (the_in c) (the_run c) }.

Record told (Q : nat -> Prop) (c : core) (a : spec) : Prop := mkTold {
  to_begun : forall n, n ∈ a.(begun) -> exists i x, c.(ins) !! i = Some x /\ x.(native) = n /\ x.(bound) = true;
  to_over : forall n, n ∈ a.(over) -> exists i x, c.(ins) !! i = Some x /\ x.(native) = n /\ c.(cur_in) <> Some i /\ Q i;
  to_here : a.(gone) = false }.

(** What a handler leaves alone: every input but the one in hand, their
    names, that an input is bound, and that none is taken in hand. *)
Record frame (c c' : core) : Prop := mkFrame {
  fr_native : forall j, native <$> c'.(ins) !! j = native <$> c.(ins) !! j;
  fr_other : forall j, c.(cur_in) <> Some j -> c'.(ins) !! j = c.(ins) !! j;
  fr_bound : forall j x, c.(ins) !! j = Some x -> x.(bound) = true -> exists x', c'.(ins) !! j = Some x' /\ x'.(bound) = true;
  fr_cur : c'.(cur_in) = c.(cur_in) \/ c'.(cur_in) = None }.

#[export] Instance frame_refl : Reflexive frame.
Proof. intros c. split; eauto. Qed.

#[export] Instance frame_trans : Transitive frame.
Proof.
  intros c1 c2 c3 [A B C D] [A' B' C' D']. split.
  - intros j. by rewrite A'.
  - intros j Hj. rewrite B', B; [done|done|]. destruct D as [->| ->]; [done|done].
  - intros j x Hx Hb. destruct (C j x Hx Hb) as (x' & Hx' & Hb'). by apply (C' j x').
  - destruct D' as [->| ->]; [done|by right].
Qed.

Lemma frame_ins c c' : c'.(ins) = c.(ins) -> c'.(cur_in) = c.(cur_in) \/ c'.(cur_in) = None -> frame c c'.
Proof. intros E H. split; try rewrite E; eauto. Qed.

Lemma frame_upd_in c i f : c.(cur_in) = Some i -> (forall x, native (f x) = native x) -> (forall x, bound x = true -> bound (f x) = true) ->
  frame c (upd_in i f c).
Proof.
  intros Hi Hn Hb. split; cbn; auto.
  - intros j. destruct (decide (i = j)) as [->|]; [rewrite lookup_alter_eq|by rewrite lookup_alter_ne].
    destruct (ins c !! j); cbn; [by rewrite Hn|done].
  - intros j Hj. rewrite lookup_alter_ne; [done|congruence].
  - intros j x Hx Hbx. destruct (decide (i = j)) as [->|]; [rewrite lookup_alter_eq, Hx; cbn; eauto|rewrite lookup_alter_ne by done; eauto].
Qed.

Lemma the_in_upd c i x f : the_in c = Some (i, x) -> the_in (upd_in i f c) = Some (i, f x).
Proof. rewrite !the_in_Some. cbn. intros [H1 H2]. rewrite lookup_alter_eq, H2. done. Qed.

Lemma the_run_upd c r y f : the_run c = Some (r, y) -> the_run (upd_run r f c) = Some (r, f y).
Proof. rewrite !the_run_Some. cbn. intros [H1 H2]. rewrite lookup_alter_eq, H2. done. Qed.

Lemma the_in_None Q c : shape Q c -> the_in c = None <-> c.(cur_in) = None.
Proof.
  intros Hs. unfold the_in. destruct (cur_in c) as [i|] eqn:E; [|done]. destruct (sh_in _ _ Hs i E) as [[x Hx] _]. cbn. rewrite Hx. done.
Qed.

Lemma the_run_None Q c : shape Q c -> the_run c = None <-> c.(cur_run) = None.
Proof.
  intros Hs. unfold the_run. destruct (cur_run c) as [i|] eqn:E; [|done]. destruct (sh_run _ _ Hs i E) as [x Hx]. cbn. rewrite Hx. done.
Qed.

(** A handler keeps the shape when the two views it leaves are well-formed. *)
Lemma shape_frame Q c c' : shape Q c -> frame c c' -> (forall r, c'.(cur_run) = Some r -> is_Some (c'.(runs) !! r)) ->
  ok_view (the_in c') (the_run c') -> shape Q c'.
Proof.
  intros [H1 H2 H3 H4 H5] [F1 F2 F3 F4] Hr Hv.
  assert (Hn : forall j x', c'.(ins) !! j = Some x' -> exists x, c.(ins) !! j = Some x /\ native x = native x').
  { intros j x' Hx'. specialize (F1 j). rewrite Hx' in F1. destruct (ins c !! j) as [x|]; [|done]. injection F1 as ->. eauto. }
  split; [..|done].
  - intros i Hi. destruct F4 as [F4|F4]; [|congruence]. rewrite F4 in Hi. destruct (H1 i Hi) as [[x Hx] HQ]. split; [|done].
    specialize (F1 i). rewrite Hx in F1. destruct (ins c' !! i); [by eexists|done].
  - done.
  - intros i j x z Hx Hz E. destruct (Hn i x Hx) as (x0 & ? & ?), (Hn j z Hz) as (z0 & ? & ?). eapply H3; eauto. congruence.
  - intros i x Hx. destruct (Hn i x Hx) as (x0 & Hx0 & <-). eauto.
Qed.

(** Reports are accounted for the same way after a handler that ends no input. *)
Lemma told_frame Q c c' a : told Q c a -> frame c c' -> told Q c' a.
Proof.
  intros [T2 T3 T4] [F1 F2 F3 F4]. split; [..|done].
  - intros n Hn. destruct (T2 n Hn) as (i & x & Hx & <- & Hb). destruct (F3 i x Hx Hb) as (x' & Hx' & Hb').
    exists i, x'. split; [done|]. split; [|done]. specialize (F1 i). rewrite Hx, Hx' in F1. cbn in F1. congruence.
  - intros n Hn. destruct (T3 n Hn) as (i & x & Hx & <- & Hi & HQ). exists i, x. rewrite F2 by done.
    split_and!; [done..| |done]. destruct F4 as [->| ->]; done.
Qed.

(** What a handler does: its reports are accepted, and the shape is kept. *)
Definition handled (Q : nat -> Prop) (c : core) (a : spec) (o : outcome) : Prop :=
  let '(c', evs, _) := o in
  exists a', accepts a evs = Some a' /\ shape Q c' /\ told Q c' a' /\ a'.(on) = current c' /\ frame c c'.

Lemma handled_quiet Q c c' a stop : shape Q c' -> told Q c a -> frame c c' -> a.(on) = current c' -> handled Q c a (c', [], stop).
Proof. intros Hs Ht Hf Ho. exists a. split_and!; [done|done|by eapply told_frame|done|done]. Qed.

Lemma not_begun Q c a i x : shape Q c -> told Q c a -> the_in c = Some (i, x) -> x.(bound) = false ->
  x.(native) ∉ a.(begun) /\ x.(native) ∉ a.(over).
Proof.
  intros Hs [T2 T3 T4] [Hi Hx]%the_in_Some Hb. split.
  - intros (j & z & Hz & E & Hbz)%T2. assert (j = i) as -> by (eapply (sh_native _ _ Hs); eauto). congruence.
  - intros (j & z & Hz & E & Hj & _)%T3. assert (j = i) as -> by (eapply (sh_native _ _ Hs); eauto). congruence.
Qed.

Lemma not_over Q c a i x : shape Q c -> told Q c a -> the_in c = Some (i, x) -> x.(native) ∉ a.(over).
Proof.
  intros Hs [T2 T3 T4] [Hi Hx]%the_in_Some. intros (j & z & Hz & E & Hj & _)%T3.
  assert (j = i) as -> by (eapply (sh_native _ _ Hs); eauto). congruence.
Qed.

(** An input's turn is reported started as a turn that is nobody's becomes it. *)
Lemma bind_handled Q c c0 a a0 r i x y evs0 : shape Q c -> frame c0 c -> c.(cur_in) = c0.(cur_in) ->
  the_in c = Some (i, x) -> the_run c = Some (r, y) ->
  x.(bound) = false -> y.(in_) = None -> accepts a0 evs0 = Some a -> a.(on) = None -> told Q c a ->
  handled Q c0 a0 (bindLocked r i c evs0).
Proof.
  intros Hs Hf0 Ecur Hi Hr Hb Hy Ha Ho Ht. unfold bindLocked.
  pose proof Hi as [Hi1 Hi2]%the_in_Some. pose proof Hr as [Hr1 Hr2]%the_run_Some. rewrite Hi2, Hr2.
  set (c1 := upd_in i in_bound (upd_run r (run_in i) c)).
  assert (H1i : the_in c1 = Some (i, in_bound x)) by by apply the_in_upd.
  assert (H1r : the_run c1 = Some (r, run_in i y)) by by apply the_run_upd.
  assert (Hf : frame c c1).
  { trans (upd_run r (run_in i) c); [apply frame_ins; auto|by apply frame_upd_in]. }
  destruct (not_begun _ _ _ _ _ Hs Ht Hi Hb) as [Hnb Hno]. pose proof (sh_named _ _ Hs i x Hi2) as Hne.
  pose proof (sh_view _ _ Hs) as [_ V]. destruct (V r y Hr) as [Hid _].
  set (a1 := mkSpec (Some (Input_ (native x))) (native x :: begun a) (over a) false).
  assert (Hacc : accepts a0 (evs0 ++ [ev_start (native x) ""]) = Some a1).
  { rewrite accepts_app, Ha. cbn [mbind option_bind]. unfold accepts. cbn. unfold accept. rewrite (to_here _ _ _ Ht). cbn. rewrite Ho. cbn.
    by rewrite !bool_decide_eq_false_2, (proj2 (String.eqb_neq _ _)) by done. }
  assert (Ht1 : forall c2, frame c1 c2 -> c2.(ins) = c1.(ins) -> c2.(cur_in) = c1.(cur_in) -> told Q c2 a1).
  { intros c2 F2 E2 E3. destruct (told_frame _ _ _ _ Ht Hf) as [T2 T3 T4]. split; cbn; [|rewrite E2, E3; apply T3|done].
    intros n [->|Hn]%elem_of_cons; [exists i, (in_bound x)|rewrite E2; by apply T2]. rewrite E2. by apply the_in_Some in H1i as [_ ->]. }
  destruct (interrupt x && negb (stopping y)) eqn:Hstop.
  - assert (H2i : the_in (upd_run r run_stopping c1) = Some (i, in_bound x)) by done.
    assert (H2r : the_run (upd_run r run_stopping c1) = Some (r, run_stopping (run_in i y))) by by apply the_run_upd.
    assert (Hf2 : frame c1 (upd_run r run_stopping c1)) by (apply frame_ins; auto).
    exists a1. split; [done|]. split_and!.
    + apply (shape_frame _ c); [done|by trans c1|intros z Hz; cbn in Hz; rewrite Hr1 in Hz; injection Hz as <-; cbn; rewrite !lookup_alter_eq, Hr2; by eexists|].
      rewrite H2i, H2r. split; [intros ? ? [= <- <-] _; eauto|]. intros ? ? [= <- <-]. cbn. split; [done|]. eauto.
    + by apply Ht1.
    + unfold current. by rewrite H2i, H2r.
    + trans c; [done|]. by trans c1.
  - exists a1. split; [done|]. split_and!.
    + apply (shape_frame _ c); [done|done|intros z Hz; cbn in Hz; rewrite Hr1 in Hz; injection Hz as <-; cbn; rewrite lookup_alter_eq, Hr2; by eexists|].
      rewrite H1i, H1r. split; [intros ? ? [= <- <-] _; eauto|]. intros ? ? [= <- <-]. cbn. split; [done|]. split; [done|].
        exists (in_bound x). split_and!; [done|done|]. cbn. intros Hint. rewrite Hint in Hstop. by destruct (stopping y).
    + by apply Ht1.
    + unfold current. by rewrite H1i, H1r.
    + by trans c.
Qed.

Lemma run_valid_upd Q c r f : shape Q c -> forall z, (upd_run r f c).(cur_run) = Some z -> is_Some ((upd_run r f c).(runs) !! z).
Proof.
  intros Hs z Hz. cbn in *. destruct (sh_run _ _ Hs z Hz) as [y Hy].
  destruct (decide (r = z)) as [->|]; [rewrite lookup_alter_eq, Hy|rewrite lookup_alter_ne by done]; eauto.
Qed.

(** A change to the current turn that says nothing of whose it is. *)
Lemma run_quiet Q c a r y f : shape Q c -> told Q c a -> a.(on) = current c -> the_run c = Some (r, y) ->
  (f y).(id) = y.(id) -> (f y).(in_) = y.(in_) -> (f y).(auto) = y.(auto) -> (y.(stopping) = true -> (f y).(stopping) = true) ->
  shape Q (upd_run r f c) /\ told Q (upd_run r f c) a /\ a.(on) = current (upd_run r f c) /\ frame c (upd_run r f c).
Proof.
  intros Hs Ht Ho Hr Hid Hin Hau Hst. assert (Hf : frame c (upd_run r f c)) by (apply frame_ins; auto).
  assert (Hr' := the_run_upd _ _ _ f Hr). change (the_in (upd_run r f c)) with (the_in c) in *.
  split_and!; [|by eapply told_frame| |done].
  - apply (shape_frame _ c); [done|done|by eapply run_valid_upd|]. change (the_in (upd_run r f c)) with (the_in c).
    rewrite Hr'. destruct (sh_view _ _ Hs) as [V1 V2]. destruct (V2 r y Hr) as [V2a V2b]. split.
    + intros i x Hi Hb. destruct (V1 i x Hi Hb) as (r' & y' & E & E'). rewrite Hr in E. injection E as <- <-. exists r, (f y). by rewrite Hin.
    + intros r' y' [= <- <-]. rewrite Hid, Hin, Hau. split; [done|]. destruct (in_ y); [|done].
      destruct V2b as (? & x & ? & ? & ?). eauto 10.
  - rewrite Ho. unfold current. change (the_in (upd_run r f c)) with (the_in c). rewrite Hr', Hr. cbn. by rewrite Hid, Hin, Hau.
Qed.

(** A change to the input in hand that says nothing of its turn. *)
Lemma in_quiet Q c a i x f : shape Q c -> told Q c a -> a.(on) = current c -> the_in c = Some (i, x) ->
  (forall x, (f x).(native) = x.(native)) -> (forall x, (f x).(bound) = x.(bound)) -> ((f x).(interrupt) = true -> x.(interrupt) = true) ->
  ((f x).(answered) = false -> x.(answered) = false \/ the_run c = None) ->
  shape Q (upd_in i f c) /\ told Q (upd_in i f c) a /\ a.(on) = current (upd_in i f c) /\ frame c (upd_in i f c).
Proof.
  intros Hs Ht Ho Hi Hn Hb Hint Han. pose proof Hi as [Hi1 Hi2]%the_in_Some.
  assert (Hf : frame c (upd_in i f c)) by (apply frame_upd_in; [done|done|intros z; by rewrite Hb]).
  assert (Hi' := the_in_upd _ _ _ f Hi). change (the_run (upd_in i f c)) with (the_run c) in *.
  split_and!; [|by eapply told_frame| |done].
  - apply (shape_frame _ c); [done|done|apply (sh_run _ _ Hs)|]. change (the_run (upd_in i f c)) with (the_run c).
    rewrite Hi'. destruct (sh_view _ _ Hs) as [V1 V2]. split.
    + intros i' x' [= <- <-]. rewrite Hb. by apply V1.
    + intros r y Hr. destruct (V2 r y Hr) as [V2a V2b]. split; [done|]. destruct (in_ y) as [j|].
      * destruct V2b as (? & z & E & ? & ?). rewrite Hi in E. injection E as -> ->. split; [done|]. exists (f z). rewrite Hb. auto.
      * intros i' x' [= <- <-] Hx. destruct (Han Hx) as [?|?]; [by apply (V2b i x)|congruence].
  - rewrite Ho. unfold current. change (the_run (upd_in i f c)) with (the_run c). rewrite Hi', Hi. cbn.
    destruct (the_run c) as [[r y]|]; [|done]. cbn. by rewrite Hn.
Qed.

(** ** The handlers *)

Section Handlers.
Context (tryAgain : string -> option (string * string * string)) (reconnecting : string -> option (string * string)).
Context (local : Time -> Time) (date : Time -> Z -> Z -> Time) (next_day : Time -> Time) (rate_json : RateLimitData -> option string).
Context (Q : nat -> Prop) (c : core) (a : spec) (Hs : shape Q c) (Ht : told Q c a) (Ho : a.(on) = current c).

Lemma view_in i x : the_in c = Some (i, x) -> x.(bound) = true -> exists r y, the_run c = Some (r, y) /\ y.(in_) = Some i.
Proof. apply (sh_view _ _ Hs). Qed.

Lemma unbound_run i x r y : the_in c = Some (i, x) -> the_run c = Some (r, y) -> y.(in_) = None -> x.(bound) = false.
Proof.
  intros Hi Hr Hy. destruct (bound x) eqn:Hb; [|done]. destruct (view_in i x Hi Hb) as (r' & y' & E & E').
  rewrite Hr in E. injection E as <- <-. congruence.
Qed.

Lemma quiet_here stop : handled Q c a (c, [], stop).
Proof. by apply handled_quiet. Qed.

Lemma accept_cancelled x i e : the_in c = Some (i, x) -> x.(bound) = false -> a.(on) = None -> not_run e.(ev_outcome) = true ->
  e.(ev_kind) = Ended -> e.(ev_native) = x.(native) -> e.(ev_auto) = "" ->
  accept a e = Some (mkSpec None a.(begun) (x.(native) :: a.(over)) false).
Proof.
  intros Hi Hb Hn Hr Hk He Ha. destruct (not_begun _ _ _ _ _ Hs Ht Hi Hb). unfold accept. rewrite (to_here _ _ _ Ht), Hk, He, Ha. cbn.
  by rewrite bool_decide_eq_false_2, Hn, bool_decide_eq_false_2, bool_decide_eq_true_2, bool_decide_eq_false_2, Hr by done.
Qed.

Lemma told_over i x a' : the_in c = Some (i, x) -> a'.(begun) = a.(begun) -> a'.(over) = x.(native) :: a.(over) -> a'.(gone) = false ->
  told Q (set_in None c) a'.
Proof.
  intros Hi E1 E2 E3. pose proof Hi as [Hi1 Hi2]%the_in_Some. destruct (sh_in _ _ Hs i Hi1) as [_ HQ]. split; [..|done].
  - rewrite E1. apply (to_begun _ _ _ Ht).
  - rewrite E2. intros n [->|Hn]%elem_of_cons; [by exists i, x|].
    destruct (to_over _ _ _ Ht n Hn) as (j & z & ? & ? & ? & ?). by exists j, z.
Qed.

Lemma frame_set_in : frame c (set_in None c).
Proof. apply frame_ins; auto. Qed.

Lemma own_started_handled r y evs a0 : the_run c = Some (r, y) -> accepts a0 evs = Some a -> pending y = true ->
  (forall i x, the_in c = Some (i, x) -> x.(answered) = true) ->
  let '(c', evs') := own_started r y c evs in exists a', accepts a0 evs' = Some a' /\ shape Q c' /\ told Q c' a' /\ a'.(on) = current c' /\ frame c c'.
Proof.
  intros Hr Ha Hp Hans. unfold own_started. rewrite Hp. unfold pending in Hp. destruct (in_ y) as [?|] eqn:Hy; [done|]. cbn in Hp. bprop.
  destruct (sh_view _ _ Hs) as [V1 V2]. destruct (V2 r y Hr) as [V2a _].
  assert (Hn : a.(on) = None) by (rewrite Ho; unfold current; rewrite Hr; cbn; by rewrite Hy, Hp).
  assert (Hr' := the_run_upd _ _ _ run_auto Hr). assert (Hf : frame c (upd_run r run_auto c)) by (apply frame_ins; auto).
  exists (mkSpec (Some (Own (id y))) a.(begun) a.(over) false). split_and!; [..|done].
  - rewrite accepts_app, Ha. cbn [mbind option_bind]. unfold accepts. cbn. unfold accept. rewrite (to_here _ _ _ Ht). cbn. rewrite Hn. cbn.
    by rewrite (proj2 (String.eqb_neq _ _)) by done.
  - apply (shape_frame _ c); [done|done|by eapply run_valid_upd|]. rewrite Hr'. change (the_in (upd_run r run_auto c)) with (the_in c). split.
    + intros i x Hi Hb. rewrite (unbound_run i x r y) in Hb by done. done.
    + intros r' y' [= <- <-]. cbn. rewrite Hy. split; [done|]. intros i x Hi Hx. rewrite (Hans i x Hi) in Hx. done.
  - destruct (told_frame _ _ _ _ Ht Hf) as [T2 T3 T4]. by split.
  - unfold current. rewrite Hr'. cbn. by rewrite Hy.
Qed.
End Handlers.

Section Handled.
Context (tryAgain : string -> option (string * string * string)) (reconnecting : string -> option (string * string)).
Context (local : Time -> Time) (date : Time -> Z -> Z -> Time) (next_day : Time -> Time) (rate_json : RateLimitData -> option string).
Context (Q : nat -> Prop).

Definition fine (c : core) (a : spec) : Prop := shape Q c /\ told Q c a /\ a.(on) = current c.

Lemma handled_after c c1 a o : frame c c1 -> handled Q c1 a o -> handled Q c a o.
Proof.
  intros Hf. destruct o as [[c' evs] stop]. intros (a' & H1 & H2 & H3 & H4 & H5). exists a'. split_and!; try done.
  by trans c1.
Qed.

Lemma onAnswer_handled c a n turn : fine c a ->
  (forall i x, the_in c = Some (i, x) -> x.(call) = n -> x.(answered) = false /\ (turn = None -> x.(bound) = false)) ->
  handled Q c a (onAnswer n turn c).
Proof.
  intros (Hs & Ht & Ho) Hcall. unfold onAnswer. destruct (cur_in c) as [i|] eqn:Hi1; [|by apply handled_quiet].
  destruct (ins c !! i) as [x|] eqn:Hi2; [|by apply handled_quiet].
  assert (Hi : the_in c = Some (i, x)) by by apply the_in_Some.
  destruct (Z.eqb_spec (call x) n) as [E|]; [cbn [negb]|by apply handled_quiet]. destruct (Hcall i x Hi E) as [Hans Hbd]. clear Hcall.
  change (cur_run (upd_in i (in_call 0) c)) with (cur_run c). change (runs (upd_in i (in_call 0) c)) with (runs c).
  change (cur_run c ≫= fun r => (fun y => (r, y)) <$> runs c !! r) with (the_run c).
  destruct (in_quiet Q c a i x (in_call 0) Hs Ht Ho Hi) as (Hs1 & Ht1 & Ho1 & Hf1); [done|done|done|by left|].
  set (c1 := upd_in i (in_call 0) c) in *. assert (Hi' : the_in c1 = Some (i, in_call 0 x)) by by apply the_in_upd.
  destruct turn as [t|].
  - destruct (in_quiet Q c1 a i _ (in_answered true t) Hs1 Ht1 Ho1 Hi') as (Hs2 & Ht2 & Ho2 & Hf2); [done..|].
    set (c2 := upd_in i (in_answered true t) c1) in *. assert (Hi2' : the_in c2 = Some (i, in_answered true t (in_call 0 x))) by by apply the_in_upd.
    assert (Hf : frame c c2) by by trans c1.
    destruct (the_run c) as [[r y]|] eqn:Hr; [|apply (handled_after _ c2); [done|by apply handled_quiet]].
    assert (Hr2 : the_run c2 = Some (r, y)) by done.
    destruct (pending y && (id y =s? t)%go) eqn:Hp.
    + bprop. assert (Hy : in_ y = None) by (unfold pending in H; by destruct (in_ y)).
      apply (bind_handled Q c2 c a a r i (in_answered true t (in_call 0 x)) y []); try done.
      * by apply (unbound_run Q c Hs i x r y).
      * rewrite Ho2. unfold current. rewrite Hr2. cbn. rewrite Hy. unfold pending in H. destruct (auto y); [|done]. by destruct (in_ y).
    + destruct (own_started r y c2 []) as [c3 evs] eqn:Eo. destruct (pending y) eqn:Hpy.
      * assert (H := own_started_handled Q c2 a Hs2 Ht2 Ho2 r y [] a Hr2 eq_refl Hpy).
        rewrite Eo in H. destruct H as (a' & ? & ? & ? & ? & ?); [intros j z E2; rewrite Hi2' in E2; by injection E2 as <- <-|].
        exists a'. split_and!; try done. by trans c2.
      * unfold own_started in Eo. rewrite Hpy in Eo. injection Eo as <- <-. apply (handled_after _ c2); [done|by apply handled_quiet].
  - specialize (Hbd eq_refl).
    assert (Hpend : forall r y, the_run c = Some (r, y) -> pending y = true).
    { intros r y Hr. destruct (sh_view _ _ Hs) as [V1 V2]. destruct (V2 r y Hr) as [_ V]. unfold pending. destruct (in_ y) as [j|].
      - destruct V as (_ & z & E' & Hb & _). rewrite Hi in E'. injection E' as -> ->. congruence.
      - by rewrite (V i x Hi Hans). }
    assert (Hon : a.(on) = None).
    { rewrite Ho. unfold current. destruct (the_run c) as [[r y]|] eqn:Hr; [|done]. specialize (Hpend r y eq_refl). unfold pending in Hpend.
      cbn. destruct (in_ y); [done|]. by destruct (auto y). }
    set (evs := if resent x then [ev_end (native x) "" TurnCancelled "" None] else []).
    set (c2 := set_in None c1).
    assert (Hx : exists a2, accepts a evs = Some a2 /\ told Q c2 a2 /\ a2.(on) = None).
    { unfold evs. destruct (resent x).
      - exists (mkSpec None a.(begun) (native x :: a.(over)) false). split_and!; [|by eapply (told_over Q c1 a Hs1 Ht1 i _)|done].
        unfold accepts. cbn. by apply (accept_cancelled Q c1 a Hs1 Ht1 (in_call 0 x) i).
      - exists a. split_and!; [done| |done]. eapply told_frame; [exact Ht1|apply frame_set_in]. }
    destruct Hx as (a2 & Ha2 & Ht2 & Hon2).
    assert (Hf2 : frame c c2) by (trans c1; [done|apply frame_set_in]).
    assert (Hs2 : shape Q c2).
    { apply (shape_frame _ c); [done|done|apply (sh_run _ _ Hs)|]. change (the_run c2) with (the_run c). split; [done|].
      intros r y Hr. destruct (sh_view _ _ Hs) as [V1 V2]. destruct (V2 r y Hr) as [Vid _]. split; [done|].
      specialize (Hpend r y Hr). unfold pending in Hpend. destruct (in_ y); [done|]. by intros. }
    assert (Ho2 : a2.(on) = current c2).
    { rewrite Hon2, <- Hon, Ho. unfold current. change (the_run c2) with (the_run c). destruct (the_run c) as [[r y]|] eqn:Hr; [|done].
      specialize (Hpend r y eq_refl). unfold pending in Hpend. cbn. destruct (in_ y); [done|]. done. }
    destruct (the_run c) as [[r y]|] eqn:Hr; [|by exists a2].
    destruct (own_started r y c2 evs) as [c3 evs3] eqn:Eo.
    assert (H := own_started_handled Q c2 a2 Hs2 Ht2 Ho2 r y evs a Hr Ha2 (Hpend r y eq_refl) ltac:(done)). rewrite Eo in H.
    destruct H as (a' & ? & ? & ? & ? & ?). exists a'. split_and!; try done.
    by trans c2.
Qed.
(** Only the chain, the goal, the name or the limits change. *)
Definition aside (c c' : core) : Prop :=
  c'.(ins) = c.(ins) /\ c'.(runs) = c.(runs) /\ c'.(cur_in) = c.(cur_in) /\ c'.(cur_run) = c.(cur_run).

Lemma aside_views c c' : aside c c' -> the_in c' = the_in c /\ the_run c' = the_run c.
Proof. intros (E1 & E2 & E3 & E4). unfold the_in, the_run. by rewrite E1, E2, E3, E4. Qed.

Lemma aside_fine c c' a : fine c a -> aside c c' -> fine c' a /\ frame c c'.
Proof.
  intros (Hs & Ht & Ho) H. pose proof (aside_views _ _ H) as [Vi Vr]. destruct H as (E1 & E2 & E3 & E4).
  assert (Hf : frame c c') by (apply frame_ins; auto). split; [|done]. split_and!.
  - apply (shape_frame _ c); [done|done|rewrite E4, E2; apply (sh_run _ _ Hs)|rewrite Vi, Vr; apply (sh_view _ _ Hs)].
  - by eapply told_frame.
  - unfold current. by rewrite Vi, Vr.
Qed.

Lemma handled_aside c c' a : fine c a -> aside c c' -> handled Q c a (c', [], None).
Proof. intros H Ha. destruct (aside_fine _ _ _ H Ha) as [(? & ? & ?) ?]. exists a. by split_and!. Qed.

(** A new turn, of which nothing is said yet. *)
Definition started (t : string) (c : core) : core :=
  let r := fresh (dom c.(runs)) in set_chain false c.(chainAt) (set_run (Some r) (add_run r (new_run t) c)).

Lemma started_fine c a t : fine c a -> the_run c = None -> t <> "" ->
  fine (started t c) a /\ frame c (started t c) /\ the_run (started t c) = Some (fresh (dom c.(runs)), new_run t) /\
  the_in (started t c) = the_in c.
Proof.
  intros (Hs & Ht & Ho) Hr Hne. set (c1 := started t c). assert (Hf : frame c c1) by (apply frame_ins; auto).
  assert (Hr1 : the_run c1 = Some (fresh (dom c.(runs)), new_run t)) by (apply the_run_Some; cbn; by rewrite lookup_insert_eq).
  assert (Hi1 : the_in c1 = the_in c) by done.
  assert (Hub : forall i x, the_in c = Some (i, x) -> bound x = false).
  { intros i x Hi. destruct (bound x) eqn:Hb; [|done]. destruct (view_in Q c Hs i x Hi Hb) as (r & y & E & _). congruence. }
  split; [|by split_and!]. split; [|split; [by eapply told_frame|]].
  - apply (shape_frame _ c); [done|done| |].
    + intros z Hz. cbn in *. injection Hz as <-. rewrite lookup_insert_eq. by eexists.
    + rewrite Hr1, Hi1. split; [intros i x Hi Hb; rewrite (Hub i x Hi) in Hb; done|]. intros r y [= <- <-]. cbn. by split.
  - rewrite Ho. unfold current. by rewrite Hr1, Hr.
Qed.

Lemma turn_started_handled now n c a : fine c a ->
  (forall t, n.(n_Turn) = Some t -> t.(ti_ID) <> "" -> the_run c = None \/ exists r y, the_run c = Some (r, y) /\ y.(id) = t.(ti_ID)) ->
  handled Q c a (turn_started now n c).
Proof.
  intros Hfine Hone. pose proof Hfine as (Hs & Ht & Ho). unfold turn_started. destruct (n_Turn n) as [t|]; [|by apply handled_quiet].
  destruct (_ || _) eqn:Hskip; [by apply handled_quiet|]. bprop.
  assert (Hr : the_run c = None).
  { destruct (Hone t eq_refl H) as [?|(r & y & E & E')]; [done|]. rewrite E in H0. bprop. congruence. }
  destruct (started_fine c a (ti_ID t) Hfine Hr H) as ((Hs1 & Ht1 & Ho1) & Hf1 & Hr1 & Hi1).
  change (set_chain _ _ _) with (started (ti_ID t) c). set (r := fresh (dom (runs c))) in *. set (c1 := started (ti_ID t) c) in *.
  assert (Hon : a.(on) = None) by (rewrite Ho1; unfold current; by rewrite Hr1).
  assert (Hauto : (forall i x, the_in c1 = Some (i, x) -> answered x = true) -> handled Q c a (upd_run r run_auto c1, [ev_start "" (ti_ID t)], None)).
  { intros Hall. assert (X := own_started_handled Q c1 a Hs1 Ht1 Ho1 r _ [] a Hr1 eq_refl eq_refl Hall).
    destruct X as (a' & ? & ? & ? & ? & ?). exists a'. split_and!; try done. by trans c1. }
  rewrite Hi1 in *. destruct (the_in c) as [[i x]|] eqn:Hi; [|apply Hauto; done].
  destruct (answered x && _) eqn:Hb.
  - bprop. apply (bind_handled Q c1 c a a r i x (new_run (ti_ID t)) []); try done.
    destruct (bound x) eqn:Hbx; [|done]. destruct (view_in Q c Hs i x Hi Hbx) as (r' & y & E & _). congruence.
  - destruct (answered x) eqn:Hans; cbn [negb]; [|apply (handled_after _ c1); [done|by apply handled_quiet]].
    apply Hauto. intros j z E. by injection E as <- <-.
Qed.

Lemma item_seen_handled completed n c a : fine c a -> handled Q c a (item_seen completed n c).
Proof.
  intros (Hs & Ht & Ho). unfold item_seen. destruct (n_Item n) as [it|]; [|by apply handled_quiet].
  destruct (the_run c) as [[r y]|] eqn:Hr; [|by apply handled_quiet]. destruct (negb _ && _); [by apply handled_quiet|].
  assert (Htext : forall t, handled Q c a (upd_run r (run_text t) c, [], None)).
  { intros t. destruct (run_quiet Q c a r y (run_text t) Hs Ht Ho Hr) as (? & ? & ? & ?); try done. exists a. by split_and!. }
  destruct (it_Type it =? "userMessage")%string; [|destruct (_ && _); [done|by apply handled_quiet]].
  destruct (the_in c) as [[i x]|] eqn:Hi; [|by apply handled_quiet]. destruct (_ || _) eqn:Hskip; [by apply handled_quiet|]. bprop.
  assert (Hy : in_ y = None) by (by destruct (in_ y)).
  destruct (sh_view _ _ Hs) as [_ V]. destruct (V r y Hr) as [Hid _].
  destruct (auto y) eqn:Hau.
  - destruct (run_quiet Q c a r y (run_text "") Hs Ht Ho Hr) as (Hs1 & Ht1 & Ho1 & Hf1); try done.
    apply (bind_handled Q (upd_run r (run_text "") c) c (mkSpec None a.(begun) a.(over) false) a r i x (run_text "" y)); try done.
    + by apply the_run_upd.
    + unfold accepts. cbn. unfold accept. rewrite (to_here _ _ _ Ht). cbn. rewrite (proj2 (String.eqb_neq _ _)) by done. cbn.
      rewrite bool_decide_eq_true_2; [done|]. rewrite Ho. unfold current. rewrite Hr. cbn. by rewrite Hy, Hau.
    + by destruct Ht1.
  - apply (bind_handled Q c c a a r i x y []); try done. rewrite Ho. unfold current. rewrite Hr. cbn. by rewrite Hy, Hau.
Qed.

Lemma aside_refl c : aside c c.
Proof. by split_and!. Qed.

Lemma error_seen_handled n c a : fine c a -> handled Q c a (c, error_seen reconnecting n c, None).
Proof.
  intros (Hs & Ht & Ho). exists a. split_and!; [|done|done|done|done]. unfold error_seen.
  destruct (n_Error n) as [e|]; [|done]. destruct (the_run c) as [[r y]|] eqn:Hr; [|done]. destruct (in_ y) as [i|] eqn:Hy; [|done].
  destruct (_ && _); [|done]. destruct (sh_view _ _ Hs) as [_ V]. destruct (V r y Hr) as [_ Hv]. rewrite Hy in Hv.
  destruct Hv as (_ & x & Hi & _). pose proof Hi as [_ ->]%the_in_Some. cbn. unfold accepts. cbn. unfold accept. rewrite (to_here _ _ _ Ht). cbn.
  rewrite bool_decide_eq_true_2; [done|]. rewrite Ho. unfold current. rewrite Hr, Hi. cbn. by rewrite Hy.
Qed.

Lemma limits_handled n c a : fine c a -> handled Q c a (limits_updated rate_json n c).
Proof.
  intros Hfine. pose proof Hfine as (Hs & Ht & Ho). unfold limits_updated. destruct (n_RateLimits n) as [u|]; [|by apply handled_quiet].
  destruct (aside_fine c (set_limits (Some (merge (limits c) u)) c) a Hfine (aside_refl c)) as [(? & ? & ?) ?].
  exists a. split_and!; [|done..]. unfold accepts. cbn. unfold accept. rewrite (to_here _ _ _ Ht). cbn.
  destruct (the_run c) as [[r y]|] eqn:Hr; [|done]. destruct (in_ y) as [i|] eqn:Hy; cbn; [|done].
  destruct (sh_view _ _ Hs) as [_ V]. destruct (V r y Hr) as [_ Hv]. rewrite Hy in Hv.
  destruct Hv as (_ & x & Hi & _). pose proof Hi as [_ ->]%the_in_Some. cbn. rewrite bool_decide_eq_true_2; [by rewrite orb_true_r|].
  rewrite Ho. unfold current. rewrite Hr, Hi. cbn. by rewrite Hy.
Qed.

Lemma goal_updated_aside now n c : aside c (goal_updated now n c).
Proof. unfold goal_updated. destruct (n_Goal n); [|apply aside_refl]. repeat case_match; by split_and!. Qed.
(** The turn codex was on has ended: no turn is left, and no input is bound. *)
Definition ended (b : bool) (now : Z) (c : core) : core := set_chain b now (set_run None c).

Lemma ended_own_fine c a b now r y : fine c a -> the_run c = Some (r, y) -> y.(in_) = None ->
  let a1 := mkSpec None a.(begun) a.(over) false in
  (forall o t e, accept a (ev_end "" y.(id) o t e) = Some a1) /\ fine (ended b now c) a1 /\ frame c (ended b now c) /\
  the_in (ended b now c) = the_in c /\ the_run (ended b now c) = None.
Proof.
  intros (Hs & Ht & Ho) Hr Hy a1. set (c1 := ended b now c). assert (Hf : frame c c1) by (apply frame_ins; auto).
  destruct (sh_view _ _ Hs) as [V1 V2]. destruct (V2 r y Hr) as [Hid V]. rewrite Hy in V.
  assert (Hub : forall i x, the_in c = Some (i, x) -> bound x = false) by (intros i x Hi; by eapply unbound_run).
  split; [|split; [split; [|split]|by split_and!]].
  - intros o t e. unfold accept. rewrite (to_here _ _ _ Ht). cbn. rewrite (proj2 (String.eqb_neq _ _)) by done. cbn.
    rewrite Ho. unfold current. rewrite Hr. cbn. rewrite Hy. destruct (auto y); [|by rewrite orb_true_r]. by rewrite bool_decide_eq_true_2.
  - apply (shape_frame _ c); [done|done|done|]. split; [|done]. intros i x Hi Hb. rewrite (Hub i x Hi) in Hb. done.
  - destruct (told_frame _ _ _ _ Ht Hf) as [T1 T2 T3]. by split.
  - done.
Qed.

Lemma ended_input_handled c a b now r y i x o t e : fine c a -> the_run c = Some (r, y) -> y.(in_) = Some i -> the_in c = Some (i, x) ->
  handled Q c a (set_in None (ended b now c), [ev_end x.(native) "" o t e], None).
Proof.
  intros (Hs & Ht & Ho) Hr Hy Hi. set (c1 := set_in None (ended b now c)).
  assert (Hf : frame c c1) by (apply frame_ins; auto). pose proof Hi as [Hi1 Hi2]%the_in_Some.
  assert (Hno := not_over Q c a i x Hs Ht Hi).
  exists (mkSpec None a.(begun) (x.(native) :: a.(over)) false). split_and!; [..|done|done].
  - unfold accepts. cbn. unfold accept. rewrite (to_here _ _ _ Ht). cbn. rewrite bool_decide_eq_false_2, bool_decide_eq_true_2; [done| |done].
    rewrite Ho. unfold current. rewrite Hr, Hi. cbn. by rewrite Hy.
  - apply (shape_frame _ c); [done|done|done|done].
  - eapply told_frame; [by eapply (told_over Q c a Hs Ht i x)|apply frame_ins; auto].
Qed.

Notation turn_completed := (turn_completed tryAgain local date next_day).

Lemma turn_completed_handled now n c a : fine c a -> handled Q c a (turn_completed now n c).
Proof.
  intros Hfine. pose proof Hfine as (Hs & Ht & Ho). unfold CodexTurn.turn_completed. destruct (n_Turn n) as [t|]; [|by apply handled_quiet].
  destruct (the_run c) as [[r y]|] eqn:Hr; [|by apply handled_quiet]. destruct (negb _); [by apply handled_quiet|].
  set (o := turn_outcome (ti_Status t)). set (tx := if bool_decide (o = TurnCompleted) then _ else _). set (er := if bool_decide (o = TurnErrored) then _ else _).
  set (b := negb _ && _). change (set_chain b now (set_run None c)) with (ended b now c).
  destruct (in_ y) as [i|] eqn:Hy.
  - destruct (sh_view _ _ Hs) as [_ V]. destruct (V r y Hr) as [_ Hv]. rewrite Hy in Hv. destruct Hv as (_ & x & Hi & _).
    pose proof Hi as [Hi1 Hi2]%the_in_Some. change (cur_in (ended b now c)) with (cur_in c). change (ins (ended b now c)) with (ins c).
    rewrite bool_decide_eq_true_2 by done. rewrite Hi2. cbn. by eapply ended_input_handled.
  - destruct (ended_own_fine c a b now r y Hfine Hr Hy) as (Hacc & (Hs1 & Ht1 & Ho1) & Hf1 & Hi1 & Hr1).
    set (a1 := mkSpec None (begun a) (over a) false) in *. set (c1 := ended b now c) in *. set (e := ev_end "" (id y) o tx er).
    assert (Hae : accepts a [e] = Some a1) by (unfold accepts; cbn; apply Hacc).
    assert (Hone : forall c2, fine c2 a1 -> frame c1 c2 -> handled Q c a (c2, [e], None)).
    { intros c2 (? & ? & ?) ?. exists a1. split_and!; try done. by trans c1. }
    destruct (the_in c1) as [[i x]|] eqn:Hi; [|by apply Hone]. destruct (negb (answered x && negb (bound x))) eqn:Hans; [by apply Hone|]. bprop.
    assert (Hagain : forall w c2, fine c2 a1 -> frame c1 c2 -> (exists x2, the_in c2 = Some (i, x2)) -> handled Q c a (resendLocked i w c2, [e], None)).
    { intros w c2 (? & ? & ?) ? [x2 ?]. destruct (in_quiet Q c2 a1 i x2 (in_again (Some w))) as (? & ? & ? & ?); try done; [by left|].
      apply Hone; [done|]. by trans c2. }
    destruct (negb (bool_decide (o = TurnInterrupted))).
    + destruct (in_quiet Q c1 a1 i x in_held) as (? & ? & ? & ?); try done; [by left|]. apply Hagain; [done|done|].
      exists (in_held x). by apply the_in_upd.
    + destruct (interrupt x); [|apply Hagain; [done|done|by exists x]].
      exists (mkSpec None (begun a1) (x.(native) :: over a1) false). split_and!.
      * rewrite accepts_cons. unfold e. rewrite Hacc. cbn [mbind option_bind]. by rewrite accepts_cons, (accept_cancelled Q c1 a1 Hs1 Ht1 x i) by done.
      * apply (shape_frame _ c1); [done|apply frame_set_in|done|done].
      * by eapply (told_over Q c1 a1 Hs1 Ht1 i x).
      * done.
      * trans c1; [done|apply frame_set_in].
Qed.

Notation onNotification := (onNotification tryAgain reconnecting local date next_day rate_json).

Lemma onNotification_handled now method n c a : fine c a ->
  (method = "turn/started" -> forall t, n.(n_Turn) = Some t -> t.(ti_ID) <> "" ->
     the_run c = None \/ exists r y, the_run c = Some (r, y) /\ y.(id) = t.(ti_ID)) ->
  handled Q c a (onNotification now method n c).
Proof.
  intros Hfine Hone. unfold CodexTurn.onNotification.
  destruct (String.eqb_spec method "turn/started"); [apply turn_started_handled; auto|].
  destruct (_ =? _)%string; [by apply item_seen_handled|]. destruct (_ =? _)%string; [by apply item_seen_handled|].
  destruct (_ =? _)%string; [by apply turn_completed_handled|]. destruct (_ =? _)%string; [by apply error_seen_handled|].
  destruct (_ =? _)%string; [by apply limits_handled|].
  repeat match goal with |- handled _ _ _ (if ?b then _ else _) => destruct b end; apply handled_aside; try done.
  - apply goal_updated_aside.
  - by destruct (n_ThreadName n).
Qed.

(** What resend may do, and what it then has made sure of. *)
Lemma resend_handled i c a : fine c a ->
  match resend i c with
  | ResendNothing c' => fine c' a /\ frame c c' \/ c.(cur_in) <> Some i /\ c' = upd_in i (in_again None) c
  | ResendEnds c' e => handled Q c a (c', [e], None)
  | ResendSends c' => fine c' a /\ frame c c' /\ the_run c' = None /\
      exists x, the_in c = Some (i, x) /\ x.(bound) = false /\ x.(held) = false /\ x.(again) <> None /\
        the_in c' = Some (i, in_resent (in_again None x))
  end.
Proof.
  intros Hfine. pose proof Hfine as (Hs & Ht & Ho). unfold resend. destruct (ins c !! i) as [x|] eqn:Hx; [|by left].
  destruct (decide (cur_in c = Some i)) as [Hi1|Hi1].
  2:{ rewrite (bool_decide_eq_false_2 _ Hi1). cbn. by right. }
  assert (Hi : the_in c = Some (i, x)) by by apply the_in_Some.
  destruct (in_quiet Q c a i x (in_again None) Hs Ht Ho Hi) as (Hs1 & Ht1 & Ho1 & Hf1); [done..|by left|].
  set (c1 := upd_in i (in_again None) c) in *. assert (Hi' : the_in c1 = Some (i, in_again None x)) by by apply the_in_upd.
  rewrite bool_decide_eq_true_2 by done. cbn [negb orb].
  destruct (bound x || is_none (again x) || _) eqn:Hskip; [by left|]. bprop.
  assert (Hr : the_run c1 = None).
  { change (the_run c1) with (the_run c). destruct (the_run c) as [[r y]|] eqn:Hr; [|done]. exfalso.
    destruct (in_ y) as [j|] eqn:Hy; [|done]. destruct (sh_view _ _ Hs) as [_ V]. destruct (V r y Hr) as [_ Hv]. rewrite Hy in Hv.
    destruct Hv as (_ & z & E & Hb & _). rewrite Hi in E. injection E as -> ->. congruence. }
  assert (Hon : a.(on) = None) by (rewrite Ho1; unfold current; by rewrite Hr).
  assert (Hend : forall o er, not_run o = true -> handled Q c a (set_in None c1, [ev_end (native x) "" o "" er], None)).
  { intros o er Hn. exists (mkSpec None (begun a) (x.(native) :: over a) false). split_and!.
    - unfold accepts. cbn. by apply (accept_cancelled Q c1 a Hs1 Ht1 (in_again None x) i).
    - apply (shape_frame _ c1); [done|apply frame_set_in| |].
      + apply (sh_run _ _ Hs1).
      + change (the_run (set_in None c1)) with (the_run c1). by rewrite Hr.
    - by eapply (told_over Q c1 a Hs1 Ht1 i (in_again None x)).
    - unfold current. change (the_run (set_in None c1)) with (the_run c1). by rewrite Hr.
    - trans c1; [done|apply frame_set_in]. }
  destruct (interrupt x); [by apply Hend|]. destruct (held x) eqn:Hh; [by apply Hend|].
  destruct (in_quiet Q c1 a i _ in_resent Hs1 Ht1 Ho1 Hi') as (? & ? & ? & ?); [done..|by right|].
  split_and!; [done|by trans c1|done|]. exists x. split_and!; [done|done|done|by destruct (again x)|]. by apply the_in_upd.
Qed.

(** An interrupt of what codex is on. *)
Lemma stopping_fine c a r y : fine c a -> the_run c = Some (r, y) -> fine (upd_run r run_stopping c) a /\ frame c (upd_run r run_stopping c).
Proof.
  intros (Hs & Ht & Ho) Hr. destruct (run_quiet Q c a r y run_stopping Hs Ht Ho Hr) as (? & ? & ? & ?); try done.
Qed.

Lemma Interrupt_fine c a : fine c a -> fine (Interrupt c).1 a /\ frame c (Interrupt c).1.
Proof.
  intros Hfine. pose proof Hfine as (Hs & Ht & Ho). unfold Interrupt. destruct (the_in c) as [[i x]|] eqn:Hi; [|done].
  destruct (interrupt x) eqn:Hint; [done|]. pose proof Hi as [Hi1 Hi2]%the_in_Some.
  set (c1 := upd_in i in_interrupt c). assert (Hi' : the_in c1 = Some (i, in_interrupt x)) by by apply the_in_upd.
  change (the_run c1) with (the_run c). destruct (the_run c) as [[r y]|] eqn:Hr.
  - set (c2 := if negb (stopping y) && bool_decide (in_ y = Some i) then upd_run r run_stopping c1 else c1).
    assert (H2 : fine c2 a /\ frame c c2 /\ exists y', the_run c2 = Some (r, y')).
    { assert (Hf1 : frame c c1) by by apply frame_upd_in. destruct (sh_view _ _ Hs) as [V1 V2]. destruct (V2 r y Hr) as [Hid V].
      assert (Hc : forall y', the_run c2 = Some (r, y') -> y'.(id) = y.(id) -> y'.(in_) = y.(in_) -> y'.(auto) = y.(auto) ->
        (in_ y = Some i -> stopping y' = true) -> the_in c2 = Some (i, in_interrupt x) -> frame c c2 -> fine c2 a).
      { intros y' E1 E2 E3 E4 E5 E6 Hf. split; [|split; [by eapply told_frame|]].
        - apply (shape_frame _ c); [done|done| |].
          + intros z Hz. apply the_run_Some in E1 as [E1 E1']. rewrite Hz in E1. injection E1 as ->. rewrite E1'. by eexists.
          + rewrite E1, E6. split.
            * intros ? ? [= <- <-] Hb. destruct (V1 i x Hi Hb) as (r0 & y0 & E & E'). rewrite Hr in E. injection E as <- <-. exists r, y'. by rewrite E3.
            * intros ? ? [= <- <-]. rewrite E2, E3, E4. split; [done|]. destruct (in_ y) as [j|] eqn:Hy.
              -- destruct V as (? & z & E & Hb & _). rewrite Hi in E. injection E as -> ->. split; [done|]. exists (in_interrupt z). auto.
              -- intros ? ? [= <- <-]. by apply (V i x).
        - rewrite Ho. unfold current. rewrite E1, E6, Hr, Hi. cbn. by rewrite E2, E3, E4. }
      unfold c2 in *. destruct (negb (stopping y) && bool_decide (in_ y = Some i)) eqn:Hst.
      - assert (Hf : frame c (upd_run r run_stopping c1)) by (trans c1; [done|apply frame_ins; auto]).
        assert (Hr' : the_run (upd_run r run_stopping c1) = Some (r, run_stopping y)) by by apply the_run_upd.
        split_and!; [|done|by eexists]. by apply (Hc (run_stopping y)).
      - split_and!; [|done|by exists y]. apply (Hc y); try done. intros E. rewrite (bool_decide_eq_true_2 _ E), andb_true_r in Hst. by destruct (stopping y). }
    destruct H2 as (Hf2 & Hfr & y2 & Hr2). unfold c2 in *. destruct (stopping y) eqn:Hst; cbn [negb andb] in *; [done|].
    destruct (bool_decide (in_ y = Some i)) eqn:Hb; cbn [orb]; [done|]. destruct (_ && _); [|done]. cbn [fst].
    destruct (stopping_fine c1 a r y2 Hf2 Hr2). split; [done|]. by trans c1.
  - cbn. assert (Hf1 : frame c c1) by by apply frame_upd_in. split; [|done]. split; [|split; [by eapply told_frame|]].
    + apply (shape_frame _ c); [done|done|apply (sh_run _ _ Hs)|]. change (the_run c1) with (the_run c). rewrite Hr, Hi'. split; [|done].
      intros ? ? [= <- <-] Hb. destruct (sh_view _ _ Hs) as [V1 _]. destruct (V1 i x Hi Hb) as (? & ? & ? & _). congruence.
    + rewrite Ho. unfold current. change (the_run c1) with (the_run c). by rewrite Hr.
Qed.

Lemma InterruptTurn_fine n c a : fine c a -> fine (InterruptTurn n c).1 a /\ frame c (InterruptTurn n c).1.
Proof.
  intros Hfine. unfold InterruptTurn. destruct (the_run c) as [[r y]|] eqn:Hr; [|done]. destruct (_ && _); [|done]. by apply (stopping_fine c a r y).
Qed.

Lemma yield_fine now i c a : fine c a ->
  match yield false now i c with
  | YieldWaits c' _ => fine c' a /\ frame c c'
  | YieldBusy => True
  | YieldTakes c' => the_run c = None /\ c' = set_in (Some i) (set_chain false c.(chainAt) c)
  end.
Proof.
  intros Hfine. unfold yield. destruct (match the_run c with Some (_, y) => _ | None => _ end) eqn:Hbusy; [done|]. cbn [negb andb].
  destruct (the_run c) as [[r y]|] eqn:Hr; cbn [is_none yield_own andb].
  - destruct (negb (stopping y)); [|done]. by apply (stopping_fine c a r y).
  - destruct (chain c); cbn [andb]; [destruct (_ <=? 0)%Z|]; done.
Qed.

(** ** The input in hand *)

Definition user_message (n : notification) (native : string) : Prop :=
  exists it, n.(n_Item) = Some it /\ it.(it_Type) = "userMessage" /\ it.(it_ClientID) = native.

(** codex's own turn was reported ended by an interrupt. *)
Definition is_drop (e : Event) : Prop := e.(ev_kind) = Ended /\ e.(ev_auto) <> "" /\ e.(ev_outcome) = TurnInterrupted.

(** What a notification does to the input in hand: it is bound to a turn, or is
    to be sent again, or to end. *)
Inductive in_after (n : notification) (x : inputState) (evs : list Event) : inputState -> Prop :=
| in_same : in_after n x evs x
| in_binds : x.(bound) = false -> x.(answered) = true \/ user_message n x.(native) -> in_after n x evs (in_bound x)
| in_waits w : x.(answered) = true -> in_after n x evs (in_again (Some w) (in_held x))
| in_drops w e : x.(answered) = true -> e ∈ evs -> is_drop e -> in_after n x evs (in_again (Some w) x).

(** Its name is reported only once it is bound, or answered. *)
Definition in_effect (n : notification) (x : inputState) (i : nat) (o : outcome) : Prop :=
  let '(c', evs, _) := o in
  exists x', c'.(ins) !! i = Some x' /\ in_after n x evs x' /\
    (forall e, e ∈ evs -> e.(ev_native) = "" \/ e.(ev_native) = x.(native) /\ (x.(answered) = true \/ x'.(bound) = true)).

Lemma in_effect_quiet n c i x c' stop : the_in c = Some (i, x) -> c'.(ins) = c.(ins) -> in_effect n x i (c', [], stop).
Proof. intros [_ H]%the_in_Some E. exists x. rewrite E. split_and!; [done|constructor|]. intros e He. by apply not_elem_of_nil in He. Qed.

Lemma in_effect_own n c i x c' e stop : the_in c = Some (i, x) -> c'.(ins) = c.(ins) -> e.(ev_native) = "" -> in_effect n x i (c', [e], stop).
Proof.
  intros [_ H]%the_in_Some E He. exists x. rewrite E. split_and!; [done|constructor|]. intros z Hz. apply list_elem_of_singleton in Hz as ->. by left.
Qed.

Lemma bind_effect n c r i x y evs : c.(ins) !! i = Some x -> c.(runs) !! r = Some y -> x.(bound) = false ->
  x.(answered) = true \/ user_message n x.(native) -> (forall e, e ∈ evs -> e.(ev_native) = "") -> in_effect n x i (bindLocked r i c evs).
Proof.
  intros Hi Hr Hb Hw He. unfold bindLocked. rewrite Hi, Hr.
  assert (H : forall c', c'.(ins) = alter in_bound i c.(ins) -> forall stop, in_effect n x i (c', evs ++ [ev_start (native x) ""], stop)).
  { intros c' E stop. exists (in_bound x). rewrite E, lookup_alter_eq, Hi. split_and!; [done|by constructor|].
    intros e [H|H]%elem_of_app; [left; auto|]. apply list_elem_of_singleton in H as ->. right. split; [done|by right]. }
  destruct (_ && _); by apply H.
Qed.

Lemma onNotification_effect now method n c a i x : fine c a -> the_in c = Some (i, x) -> in_effect n x i (onNotification now method n c).
Proof.
  intros (Hs & Ht & Ho) Hi. pose proof Hi as [Hi1 Hi2]%the_in_Some. unfold CodexTurn.onNotification.
  assert (Hq : forall c' stop, c'.(ins) = c.(ins) -> in_effect n x i (c', [], stop)) by (intros; by eapply in_effect_quiet).
  destruct (_ =? _)%string.
  { unfold turn_started. destruct (n_Turn n) as [t|]; [|by apply Hq]. destruct (_ || _); [by apply Hq|].
    change (set_chain _ _ _) with (started (ti_ID t) c). change (the_in (started (ti_ID t) c)) with (the_in c). rewrite Hi.
    destruct (answered x && _) eqn:Hb.
    - bprop. destruct (bound x) eqn:Hbx.
      + unfold bindLocked. change (ins (started (ti_ID t) c)) with (ins c). rewrite Hi2. cbn [runs started set_chain set_run add_run]. rewrite lookup_insert_eq.
        assert (H2 : forall c', c'.(ins) = alter in_bound i c.(ins) -> forall stop, in_effect n x i (c', [] ++ [ev_start (native x) ""], stop)).
        { intros c' E stop. exists x. rewrite E, lookup_alter_eq, Hi2. cbn. unfold in_bound. rewrite <- Hbx at 1. split_and!; [by destruct x|constructor|].
          intros e He. apply list_elem_of_singleton in He as ->. right. split; [done|by left]. }
        destruct (_ && _); by apply H2.
      + eapply bind_effect; [done|cbn; apply lookup_insert_eq|done|by left|]. intros e He. by apply not_elem_of_nil in He.
    - destruct (negb _); [by apply Hq|]. by eapply in_effect_own. }
  assert (Hitem : forall b, in_effect n x i (item_seen b n c)).
  { intros b. unfold item_seen. destruct (n_Item n) as [it|] eqn:Hit; [|by apply Hq]. destruct (the_run c) as [[r y]|] eqn:Hr; [|by apply Hq].
    pose proof Hr as [Hr1 Hr2]%the_run_Some. destruct (_ && _); [by apply Hq|]. destruct (String.eqb_spec (it_Type it) "userMessage") as [Ety|];
      [|destruct (_ && _); by apply Hq]. rewrite Hi. destruct (_ || _) eqn:Hskip; [by apply Hq|]. bprop.
    assert (Hum : user_message n (native x)) by (exists it; by split_and!).
    destruct (auto y).
    - eapply (bind_effect n (upd_run r (run_text "") c) r i x (run_text "" y)); [done|cbn; by rewrite lookup_alter_eq, Hr2|done|by right|].
      intros e He. by apply list_elem_of_singleton in He as ->.
    - eapply bind_effect; [done|done|done|by right|]. intros e He. by apply not_elem_of_nil in He. }
  destruct (_ =? _)%string; [apply Hitem|]. destruct (_ =? _)%string; [apply Hitem|]. destruct (_ =? _)%string.
  { unfold CodexTurn.turn_completed. destruct (n_Turn n) as [t|]; [|by apply Hq]. destruct (the_run c) as [[r y]|] eqn:Hr; [|by apply Hq].
    destruct (negb _); [by apply Hq|]. destruct (sh_view _ _ Hs) as [_ V]. destruct (V r y Hr) as [Hid V'].
    destruct (in_ y) as [j|] eqn:Hy.
    - destruct V' as (_ & z & E & Hb & _). rewrite Hi in E. injection E as <- <-. cbn [cur_in ins set_chain set_run]. rewrite Hi2. cbn.
      case_bool_decide; (exists x; split_and!; [done|constructor|]; intros e He; apply list_elem_of_singleton in He as ->; right; split; [done|by right]).
    - change (the_in (set_chain _ _ _)) with (the_in c). rewrite Hi.
      set (e0 := ev_end "" (id y) _ _ _). assert (He0 : forall c' stop, c'.(ins) = c.(ins) -> in_effect n x i (c', [e0], stop))
        by (intros; by eapply in_effect_own).
      destruct (negb (answered x && negb (bound x))) eqn:Hans; [by apply He0|]. bprop.
      destruct (negb (bool_decide _)) eqn:Hint.
      + eexists. cbn. rewrite !lookup_alter_eq, Hi2. split_and!; [done|by apply in_waits|].
        intros e He. apply list_elem_of_singleton in He as ->. by left.
      + destruct (interrupt x).
        * exists x. split_and!; [done|constructor|]. intros e [->|He]%elem_of_cons; [by left|]. apply list_elem_of_singleton in He as ->. right. auto.
        * eexists. cbn. rewrite lookup_alter_eq, Hi2. split_and!; [done|apply (in_drops _ _ _ _ e0)|]; [done|by apply list_elem_of_singleton| |].
          -- bprop. by split_and!.
          -- intros e He. apply list_elem_of_singleton in He as ->. by left. }
  destruct (_ =? _)%string.
  { unfold error_seen. destruct (n_Error n) as [er|]; [|by apply Hq]. destruct (the_run c) as [[r y]|] eqn:Hr; [|by apply Hq].
    destruct (in_ y) as [j|] eqn:Hy; [|by apply Hq]. destruct (_ && _); [|by apply Hq].
    destruct (sh_view _ _ Hs) as [_ V]. destruct (V r y Hr) as [_ Hv]. rewrite Hy in Hv. destruct Hv as (_ & z & E & Hb & _).
    rewrite Hi in E. injection E as <- <-. rewrite Hi2. exists x. split_and!; [done|constructor|].
    intros e He. apply list_elem_of_singleton in He as ->. right. split; [done|by right]. }
  destruct (_ =? _)%string.
  { unfold limits_updated. destruct (n_RateLimits n) as [u|]; [|by apply Hq]. exists x. split_and!; [done|constructor|].
    intros e He. apply list_elem_of_singleton in He as ->. destruct (the_run c) as [[r y]|] eqn:Hr; [|by left].
    destruct (in_ y) as [j|] eqn:Hy; cbn; [|by left].
    destruct (sh_view _ _ Hs) as [_ V]. destruct (V r y Hr) as [_ Hv]. rewrite Hy in Hv. destruct Hv as (_ & z & E & Hb & _).
    rewrite Hi in E. injection E as <- <-. rewrite Hi2. cbn. right. split; [done|by right]. }
  repeat match goal with |- in_effect _ _ _ (if ?b then _ else _) => destruct b end; apply Hq; try done.
  - by destruct (goal_updated_aside now n c) as (E & _).
  - by destruct (n_ThreadName n).
Qed.
End Handled.
