(* ===== verification/CodexWorld.v ===== *)
(** What a codex transport's threads keep: what a codex that keeps its protocol
    may say ([honest]), the transports that can be ([reachable]), and the
    invariant of their inputs, their requests and their turns. *)
From Stdlib Require Import ZArith Ascii String Lia.
From stdpp Require Import base tactics list strings option gmap.
From S2P Require Import Prelude GoStr Bytes Json Contract Observation SessionState Proc Codex CodexTurn CodexHandlers.

#[local] Open Scope string_scope.
#[local] Open Scope list_scope.

(** ** What was said *)

Definition line_id (l : line) : option Z :=
  match l with TurnStart n _ _ | TurnInterrupt n _ | OtherRequest n => Some n | RefuseRequest => None end.

Definition sent (h : list act) (nat : string) : Prop := exists n t, Wrote (TurnStart n nat t) ∈ h.
Definition asked (h : list act) (n : Z) : Prop := exists l, Wrote l ∈ h /\ line_id l = Some n.
Definition echoed (h : list act) (nat : string) : Prop := exists method n, Read (Notify method n) ∈ h /\ user_message n nat.
Definition named (h : list act) (nat : string) : Prop := exists e, Told e ∈ h /\ e.(ev_native) = nat.

(** Since it was last sent, a turn of codex's own was reported interrupted. *)
Definition dropped (h : list act) (nat : string) : Prop :=
  exists h1 h2, h = h1 ++ h2 /\ (forall n t, Wrote (TurnStart n nat t) ∉ h2) /\ exists e, Told e ∈ h2 /\ is_drop e.

(** The turn codex said it is on. *)
Definition turn_after (method : string) (n : notification) (o : option string) : option string :=
  if String.eqb method "turn/started" then
    match n.(n_Turn) with Some t => if String.eqb t.(ti_ID) "" then o else Some t.(ti_ID) | None => o end
  else if String.eqb method "turn/completed" then
    match n.(n_Turn), o with Some t, Some i => if String.eqb i t.(ti_ID) then None else o | _, _ => o end
  else o.
Definition open_turn (h : list act) : option string :=
  foldl (fun o x => match x with Read (Notify method n) => turn_after method n o | _ => o end) None h.

(** What codex does of its protocol: it is on one turn at a time, echoes a
    user's message only if it was sent it, answers only what it was asked, and
    begins nothing of a request it refuses. *)
Record honest (h : list act) (m : message) : Prop := mkHonest {
  ho_one : forall n t, m = Notify "turn/started" n -> n.(n_Turn) = Some t -> t.(ti_ID) <> "" ->
    open_turn h = None \/ open_turn h = Some t.(ti_ID);
  ho_own : forall method n nat, m = Notify method n -> user_message n nat -> nat <> "" -> sent h nat;
  ho_asked : forall k t, m = Answer k t -> asked h k;
  ho_refused : forall k nat t, m = Answer k None -> Wrote (TurnStart k nat t) ∈ h -> ~ echoed h nat }.

(** A transport that was just started: nothing was asked of codex yet. *)
Definition init : world :=
  mkWorld (mkCore ∅ ∅ None None false 0 None "" None) ∅ ∅ 0 false false false false WaitProcess ∅ ∅ None [].

(** The names of inputs are never used twice. *)
Definition admitted (w : world) (m : move) : Prop :=
  match m with
  | MSubmit nat _ => nat <> "" /\ forall i x, w.(w_core).(ins) !! i = Some x -> x.(native) <> nat
  | MRead m _ => honest w.(hist) m
  | _ => True
  end.

Section Reachable.
Context (tryAgain : string -> option (string * string * string)) (reconnecting : string -> option (string * string)).
Context (local : Time -> Time) (date : Time -> Z -> Z -> Time) (next_day : Time -> Time) (rate_json : RateLimitData -> option string).

(** The transports that can be, with a codex that keeps its protocol. *)
Inductive reachable : world -> Prop :=
| reach_init : reachable init
| reach_step w m w' : reachable w -> admitted w m ->
    step tryAgain reconnecting local date next_day rate_json false m w = Some w' -> reachable w'.
End Reachable.

Definition sends (nat : string) (x : act) : bool := match x with Wrote (TurnStart _ m _) => String.eqb m nat | _ => false end.

#[export] Instance sent_dec h nat : Decision (sent h nat).
Proof.
  destruct (existsb (sends nat) h) eqn:E; [left|right].
  - apply existsb_exists in E as (x & Hx & H). destruct x as [[n m t| | |]| |]; try done. cbn in H.
    apply String.eqb_eq in H as ->. exists n, t. by apply list_elem_of_In.
  - intros (n & t & H). apply list_elem_of_In in H. assert (X : existsb (sends nat) h = true) by (apply existsb_exists; exists (Wrote (TurnStart n nat t)); split; [done|]; cbn; apply String.eqb_refl).
    congruence.
Defined.

Lemma sent_app h l nat : sent (h ++ l) nat <-> sent h nat \/ sent l nat.
Proof. unfold sent. setoid_rewrite elem_of_app. naive_solver. Qed.
Lemma asked_app h l n : asked (h ++ l) n <-> asked h n \/ asked l n.
Proof. unfold asked. setoid_rewrite elem_of_app. naive_solver. Qed.
Lemma echoed_app h l nat : echoed (h ++ l) nat <-> echoed h nat \/ echoed l nat.
Proof. unfold echoed. setoid_rewrite elem_of_app. naive_solver. Qed.
Lemma named_app h l nat : named (h ++ l) nat <-> named h nat \/ named l nat.
Proof. unfold named. setoid_rewrite elem_of_app. naive_solver. Qed.
Lemma reports_app h l : reports (h ++ l) = reports h ++ reports l.
Proof. unfold reports. by rewrite omap_app. Qed.
Lemma reports_told es : reports (map Told es) = es.
Proof. induction es as [|e es IH]; [done|]. cbn. by f_equal. Qed.
Lemma open_turn_app h l : open_turn (h ++ l) =
  foldl (fun o x => match x with Read (Notify method n) => turn_after method n o | _ => o end) (open_turn h) l.
Proof. unfold open_turn. by rewrite foldl_app. Qed.
Lemma open_turn_told h es : open_turn (h ++ map Told es) = open_turn h.
Proof. rewrite open_turn_app. by induction es. Qed.

Lemma sent_told es nat : ~ sent (map Told es) nat.
Proof. intros (n & t & (e & [=] & _)%list_elem_of_fmap). Qed.
Lemma asked_told es n : ~ asked (map Told es) n.
Proof. intros (l & (e & [=] & _)%list_elem_of_fmap & _). Qed.
Lemma named_told es nat : named (map Told es) nat <-> exists e, e ∈ es /\ e.(ev_native) = nat.
Proof.
  split.
  - intros (e & (e' & [= ->] & He)%list_elem_of_fmap & E). eauto.
  - intros (e & He & E). exists e. split; [|done]. apply list_elem_of_fmap. eauto.
Qed.

Lemma dropped_app h l nat : dropped h nat -> ~ sent l nat -> dropped (h ++ l) nat.
Proof.
  intros (h1 & h2 & -> & Hn & e & He & Hd) Hl. exists h1, (h2 ++ l). split_and!; [by rewrite (assoc_L app)| |].
  - intros n t [H|H]%elem_of_app; [by eapply Hn|]. apply Hl. by exists n, t.
  - exists e. rewrite elem_of_app. auto.
Qed.

Lemma dropped_now h l e nat : Told e ∈ l -> is_drop e -> ~ sent l nat -> dropped (h ++ l) nat.
Proof. intros He Hd Hl. exists h, l. split_and!; [done| |by exists e]. intros n t H. apply Hl. by exists n, t. Qed.

(** ** What a handler does to codex's turn *)

Definition turn_id (c : core) : option string := (fun p => p.2.(id)) <$> the_run c.

(** A turn's interrupt is always somebody's errand. *)
Definition stops (c : core) (o : outcome) : Prop :=
  let '(c', _, stop) := o in
  forall r y', c'.(runs) !! r = Some y' -> y'.(stopping) = true -> stop = Some r \/ exists y, c.(runs) !! r = Some y /\ y.(stopping) = true.

Lemma stops_runs c c' evs stop : c'.(runs) = c.(runs) -> stops c (c', evs, stop).
Proof. intros E r y Hr Hy. rewrite E in Hr. eauto. Qed.

Lemma stops_alter c c' evs stop r f : c'.(runs) = alter f r c.(runs) -> (forall y, stopping (f y) = stopping y) -> stops c (c', evs, stop).
Proof.
  intros E Hf z y Hz Hy. rewrite E in Hz. right. destruct (decide (r = z)) as [->|].
  - rewrite lookup_alter_eq in Hz. destruct (runs c !! z) as [y0|]; [|done]. cbn in Hz. injection Hz as <-. rewrite Hf in Hy. eauto.
  - rewrite lookup_alter_ne in Hz by done. eauto.
Qed.

Lemma stops_stop c c' evs r f : c'.(runs) = alter f r c.(runs) -> stops c (c', evs, Some r).
Proof.
  intros E z y Hz Hy. rewrite E in Hz. destruct (decide (r = z)) as [->|]; [by left|]. rewrite lookup_alter_ne in Hz by done. eauto.
Qed.

Lemma stops_trans c c1 o : stops c (c1, [], None) -> stops c1 o -> stops c o.
Proof.
  destruct o as [[c' evs] stop]. intros H1 H2 r y Hr Hy. destruct (H2 r y Hr Hy) as [?|(y1 & Hr1 & Hy1)]; [by left|].
  destruct (H1 r y1 Hr1 Hy1) as [[=]|?]. by right.
Qed.

Lemma bind_stops r i c evs : stops c (bindLocked r i c evs).
Proof.
  unfold bindLocked. destruct (ins c !! i) as [x|]; [|by apply stops_runs]. destruct (runs c !! r) as [y|]; [|by apply stops_runs].
  destruct (_ && _).
  - apply (stops_stop _ _ _ _ (run_stopping ∘ run_in i)). cbn. by rewrite alter_alter_eq.
  - by apply (stops_alter _ _ _ _ r (run_in i)).
Qed.

Lemma own_stops r y c evs : stops c (let '(c', evs') := own_started r y c evs in (c', evs', None)).
Proof. unfold own_started. destruct (pending y); [by apply (stops_alter _ _ _ _ r run_auto)|by apply stops_runs]. Qed.

Lemma bind_turn r i c evs : turn_id (bindLocked r i c evs).1.1 = turn_id c.
Proof.
  unfold bindLocked. destruct (ins c !! i) as [x|]; [|done]. destruct (runs c !! r) as [y|] eqn:E; [|done].
  unfold turn_id, the_run. destruct (_ && _); cbn; (destruct (cur_run c) as [z|]; [cbn|done]);
    (destruct (decide (r = z)) as [->|]; [rewrite ?lookup_alter_eq, E; done|by rewrite ?lookup_alter_ne]).
Qed.

Lemma alter_turn r f c : (forall y, id (f y) = id y) -> turn_id (upd_run r f c) = turn_id c.
Proof.
  intros Hf. unfold turn_id, the_run. cbn. destruct (cur_run c) as [z|]; [cbn|done].
  destruct (decide (r = z)) as [->|]; [rewrite lookup_alter_eq|by rewrite lookup_alter_ne]. destruct (runs c !! z); [cbn; by rewrite Hf|done].
Qed.

Lemma turn_ext c c' : c'.(runs) = c.(runs) -> c'.(cur_run) = c.(cur_run) -> turn_id c' = turn_id c.
Proof. intros E1 E2. unfold turn_id, the_run. by rewrite E1, E2. Qed.

Lemma own_turn r y c evs : turn_id (own_started r y c evs).1 = turn_id c.
Proof. unfold own_started. destruct (pending y); [by apply alter_turn|done]. Qed.

Section Handlers.
Context (tryAgain : string -> option (string * string * string)) (reconnecting : string -> option (string * string)).
Context (local : Time -> Time) (date : Time -> Z -> Z -> Time) (next_day : Time -> Time) (rate_json : RateLimitData -> option string).
Notation onNotification := (onNotification tryAgain reconnecting local date next_day rate_json).

Lemma onAnswer_runs n turn c : stops c (onAnswer n turn c) /\ turn_id (onAnswer n turn c).1.1 = turn_id c.
Proof.
  unfold onAnswer. destruct (cur_in c) as [i|]; [|by split; [apply stops_runs|]]. destruct (ins c !! i) as [x|]; [|by split; [apply stops_runs|]].
  destruct (negb _); [by split; [apply stops_runs|]|].
  change (cur_run (upd_in i (in_call 0) c) ≫= fun r => (fun y => (r, y)) <$> runs (upd_in i (in_call 0) c) !! r) with (the_run c).
  assert (Hown : forall r y c1 evs, c1.(runs) = c.(runs) -> c1.(cur_run) = c.(cur_run) ->
    stops c (let '(c', evs') := own_started r y c1 evs in (c', evs', None)) /\
    turn_id (let '(c', evs') := own_started r y c1 evs in (c', evs', None : option nat)).1.1 = turn_id c).
  { intros r y c1 evs E1 E2. split; [eapply stops_trans; [by apply (stops_runs c c1 [] None)|apply own_stops]|].
    rewrite <- (turn_ext c c1) by done. rewrite <- (own_turn r y c1 evs). by destruct (own_started r y c1 evs). }
  destruct turn as [t|].
  - destruct (the_run c) as [[r y]|]; [|by split; [apply stops_runs|]]. destruct (_ && _); [|by apply Hown].
    split; [eapply stops_trans; [|apply bind_stops]; by apply stops_runs|]. by rewrite bind_turn.
  - destruct (the_run c) as [[r y]|]; [by apply Hown|]. split; [by apply stops_runs|done].
Qed.

Lemma onNotification_runs now method n c a Q : fine Q c a ->
  stops c (onNotification now method n c) /\ turn_id (onNotification now method n c).1.1 = turn_after method n (turn_id c).
Proof.
  intros (Hs & _ & _). unfold CodexTurn.onNotification, turn_after.
  destruct (method =? "turn/started")%string eqn:Em.
  { unfold turn_started. destruct (n_Turn n) as [t|]; [|by split; [apply stops_runs|]]. destruct (ti_ID t =? "")%string eqn:Et; cbn [orb].
    { by split; [apply stops_runs|]. }
    destruct (the_run c) as [[r y]|] eqn:Hr; [destruct (id y =? ti_ID t)%string eqn:Ey|].
    { split; [by apply stops_runs|]. cbn. unfold turn_id. rewrite Hr. cbn. bprop. by rewrite Ey. }
    all: change (set_chain _ _ _) with (started (ti_ID t) c);
      assert (H1 : turn_id (started (ti_ID t) c) = Some (ti_ID t)) by (unfold turn_id, the_run; cbn; by rewrite lookup_insert_eq);
      assert (H2 : stops c (started (ti_ID t) c, [], None)) by
        (intros z w Hz Hw; cbn in Hz; destruct (decide (fresh (dom (runs c)) = z)) as [<-|];
         [rewrite lookup_insert_eq in Hz; by injection Hz as <-|rewrite lookup_insert_ne in Hz by done; eauto]);
      destruct (the_in (started (ti_ID t) c)) as [[i x]|]; [destruct (_ && _); [|destruct (negb _)]|];
      (split; [eapply stops_trans; [exact H2|]; first [apply bind_stops|by apply stops_runs|by apply (stops_alter _ _ _ _ (fresh (dom (runs c))) run_auto)]|]);
      rewrite ?bind_turn; try exact H1; cbn [fst]; by rewrite alter_turn. }
  assert (Hitem : forall b, stops c (item_seen b n c) /\ turn_id (item_seen b n c).1.1 = turn_id c).
  { intros b. unfold item_seen. destruct (n_Item n) as [it|]; [|by split; [apply stops_runs|]].
    destruct (the_run c) as [[r y]|]; [|by split; [apply stops_runs|]]. destruct (_ && _); [by split; [apply stops_runs|]|].
    destruct (_ =? "userMessage")%string; [|destruct (_ && _); (split; [|try done; by apply alter_turn]); [by apply (stops_alter _ _ _ _ r (run_text (it_Text it)))|by apply stops_runs]].
    destruct (the_in c) as [[i x]|]; [|by split; [apply stops_runs|]]. destruct (_ || _); [by split; [apply stops_runs|]|].
    destruct (auto y); (split; [|rewrite bind_turn; try done; by apply alter_turn]); [|apply bind_stops].
    eapply stops_trans; [|apply bind_stops]. by apply (stops_alter _ _ _ _ r (run_text "")). }
  destruct (_ =? "item/started")%string eqn:E1; [bprop; subst; apply Hitem|]. destruct (_ =? "item/completed")%string eqn:E2; [bprop; subst; apply Hitem|].
  destruct (_ =? "turn/completed")%string eqn:E3.
  { unfold CodexTurn.turn_completed. destruct (n_Turn n) as [t|]; [|by split; [apply stops_runs|]].
    destruct (the_run c) as [[r y]|] eqn:Hr; [|assert (Hi : turn_id c = None) by (unfold turn_id; by rewrite Hr); rewrite Hi; by split; [apply stops_runs|]].
    assert (Hi : turn_id c = Some (id y)) by (unfold turn_id; by rewrite Hr). rewrite Hi.
    destruct (id y =? ti_ID t)%string; cbn [negb]; [|by split; [apply stops_runs|]]. cbn zeta.
    repeat match goal with |- _ /\ turn_id (match ?b with _ => _ end).1.1 = _ => destruct b as [[]|] | |- _ /\ turn_id (if ?b then _ else _).1.1 = _ => destruct b | |- _ /\ turn_id (match ?b with _ => _ end).1.1 = _ => destruct b | |- _ /\ turn_id (if ?b then _ else _, _, _).1.1 = _ => destruct b end;
      (split; [by apply stops_runs|done]). }
  destruct (method =? "error")%string; [by split; [apply stops_runs|]|]. destruct (method =? "account/rateLimits/updated")%string; [unfold limits_updated; destruct (n_RateLimits n); by split; [apply stops_runs|]|].
  assert (Ha : forall c', aside c c' -> stops c (c', [], None) /\ turn_id c' = turn_id c).
  { intros c' (E & E' & E'' & E'''). split; [by apply stops_runs|by apply turn_ext]. }
  repeat match goal with |- _ /\ turn_id (if ?b then _ else _).1.1 = _ => destruct b end; apply Ha; try done.
  - apply goal_updated_aside.
  - by destruct (n_ThreadName n).
Qed.
End Handlers.

(** What an answer does to the input in hand. *)
Definition answer_effect (n : Z) (turn : option string) (i : nat) (x : inputState) (o : outcome) : Prop :=
  let '(c', evs, _) := o in
  exists x', c'.(ins) !! i = Some x' /\
    match turn with
    | Some t => (x' = in_answered true t (in_call 0 x) \/ x' = in_bound (in_answered true t (in_call 0 x))) /\
        forall e, e ∈ evs -> e.(ev_native) = "" \/ e.(ev_native) = x.(native)
    | None => x' = in_call 0 x /\ c'.(cur_in) = None /\
        forall e, e ∈ evs -> e.(ev_native) = "" \/ e.(ev_native) = x.(native) /\ x.(resent) = true
    end.

Lemma own_ins r y c evs : (own_started r y c evs).1.(ins) = c.(ins) /\ (own_started r y c evs).1.(cur_in) = c.(cur_in) /\
  forall e, e ∈ (own_started r y c evs).2 -> e ∈ evs \/ e.(ev_native) = "".
Proof.
  unfold own_started. destruct (pending y); split_and!; try done; [|by left].
  intros e [H|H]%elem_of_app; [by left|]. apply list_elem_of_singleton in H as ->. by right.
Qed.

Lemma onAnswer_effect n turn c i x : the_in c = Some (i, x) -> x.(call) = n -> answer_effect n turn i x (onAnswer n turn c).
Proof.
  intros [Hi Hx]%the_in_Some Hn. unfold onAnswer. rewrite Hi, Hx, Hn, Z.eqb_refl. cbn [negb].
  change (cur_run (upd_in i (in_call 0) c) ≫= fun r => (fun y => (r, y)) <$> runs (upd_in i (in_call 0) c) !! r) with (the_run c).
  destruct turn as [t|].
  - set (c2 := upd_in i (in_answered true t) (upd_in i (in_call 0) c)).
    assert (Hx2 : ins c2 !! i = Some (in_answered true t (in_call 0 x))) by (cbn; by rewrite !lookup_alter_eq, Hx).
    destruct (the_run c) as [[r y]|] eqn:Hr.
    + destruct (_ && _).
      * unfold bindLocked. rewrite Hx2. apply the_run_Some in Hr as [_ Hr]. change (runs c2) with (runs c). rewrite Hr.
        destruct (_ && _); eexists; (split; [cbn [ins upd_in upd_run]; rewrite lookup_alter_eq, Hx2; done|]); (split; [by right|]);
          intros e He; apply list_elem_of_singleton in He as ->; by right.
      * destruct (own_started r y c2 []) as [c3 evs] eqn:Eo. destruct (own_ins r y c2 []) as (E1 & _ & E3). rewrite Eo in E1, E3. cbn [fst snd] in E1, E3.
        eexists. rewrite E1. split; [done|]. split; [by left|]. intros e [He|]%E3; [by apply not_elem_of_nil in He|by left].
    + eexists. split; [done|]. split; [by left|]. intros e He. by apply not_elem_of_nil in He.
  - set (c2 := set_in None (upd_in i (in_call 0) c)). set (evs0 := if resent x then _ else _).
    assert (Hx2 : ins c2 !! i = Some (in_call 0 x)) by (cbn; by rewrite lookup_alter_eq, Hx).
    assert (H0 : forall e, e ∈ evs0 -> e.(ev_native) = x.(native) /\ x.(resent) = true).
    { intros e He. unfold evs0 in He. destruct (resent x); [apply list_elem_of_singleton in He as ->|by apply not_elem_of_nil in He]. done. }
    destruct (the_run c) as [[r y]|] eqn:Hr; [|eexists; split_and!; [done..|]; intros e He; right; auto].
    destruct (own_started r y c2 evs0) as [c3 evs] eqn:Eo. destruct (own_ins r y c2 evs0) as (E1 & E2 & E3). rewrite Eo in E1, E2, E3. cbn [fst snd] in E1, E2, E3.
    eexists. rewrite E1, E2. split_and!; [done..|]. intros e [He|]%E3; [right; auto|by left].
Qed.

Lemma onAnswer_other n turn c : (forall i x, the_in c = Some (i, x) -> x.(call) <> n) -> onAnswer n turn c = (c, [], None).
Proof.
  intros H. unfold onAnswer. destruct (cur_in c) as [i|] eqn:Hi; [|done]. destruct (ins c !! i) as [x|] eqn:Hx; [|done].
  destruct (Z.eqb_spec (call x) n) as [E|]; [|done]. exfalso. eapply H; [by apply the_in_Some|done].
Qed.

(** Interrupts and the wait for the transport. *)
Lemma Interrupt_ins c : (Interrupt c).1.(cur_in) = c.(cur_in) /\ ((the_run c = None) -> the_run (Interrupt c).1 = None) /\
  ((Interrupt c).1.(ins) = c.(ins) \/ exists i, (Interrupt c).1.(ins) = alter in_interrupt i c.(ins)).
Proof.
  unfold Interrupt. destruct (the_in c) as [[i x]|]; [|auto]. destruct (interrupt x); [auto|].
  change (the_run (upd_in i in_interrupt c)) with (the_run c). destruct (the_run c) as [[r y]|] eqn:Hr; [destruct (_ && _)|];
    (split_and!; [done|done|right; by exists i]).
Qed.

Lemma run_stop_turn r c : turn_id (upd_run r run_stopping c) = turn_id c.
Proof. by apply alter_turn. Qed.

Lemma Interrupt_runs c : stops c ((Interrupt c).1, [], (Interrupt c).2) /\ turn_id (Interrupt c).1 = turn_id c.
Proof.
  unfold Interrupt. destruct (the_in c) as [[i x]|]; [|by split; [apply stops_runs|]]. destruct (interrupt x); [by split; [apply stops_runs|]|].
  change (the_run (upd_in i in_interrupt c)) with (the_run c). destruct (the_run c) as [[r y]|]; [destruct (_ && _)|]; cbn [fst snd];
    (split; [first [by apply stops_runs|by apply (stops_stop _ _ _ r run_stopping)]|]); try done. cbn [fst]. by rewrite run_stop_turn.
Qed.

Lemma InterruptTurn_runs n c : stops c ((InterruptTurn n c).1, [], (InterruptTurn n c).2) /\ turn_id (InterruptTurn n c).1 = turn_id c /\
  (InterruptTurn n c).1.(ins) = c.(ins) /\ (InterruptTurn n c).1.(cur_in) = c.(cur_in) /\ (the_run c = None -> the_run (InterruptTurn n c).1 = None).
Proof.
  unfold InterruptTurn. destruct (the_run c) as [[r y]|] eqn:Hrun; [|by split_and!; [apply stops_runs|..]].
  destruct (_ && _); cbn [fst snd]; split_and!; try done; [by apply (stops_stop _ _ _ r run_stopping)|by rewrite <- (run_stop_turn r c)|by apply stops_runs].
Qed.

Lemma yield_runs now i c : match yield false now i c with
  | YieldWaits c' stop => stops c (c', [], stop) /\ turn_id c' = turn_id c /\ c'.(ins) = c.(ins) /\ c'.(cur_in) = c.(cur_in) /\ (the_run c = None -> the_run c' = None)
  | YieldBusy => True
  | YieldTakes c' => the_run c = None /\ c'.(ins) = c.(ins) /\ c'.(runs) = c.(runs) /\ c'.(cur_run) = c.(cur_run) /\ c'.(cur_in) = Some i
  end.
Proof.
  unfold yield. destruct (match the_run c with Some (_, y) => _ | None => _ end); [done|].
  destruct (the_run c) as [[r y]|] eqn:Hrun; cbn [is_none yield_own andb].
  - destruct (negb (stopping y)); split_and!; try done; [by apply (stops_stop _ _ _ r run_stopping)|by rewrite run_stop_turn|by apply stops_runs].
  - destruct (chain c); cbn [negb andb]; [destruct (_ <=? 0)%Z|]; split_and!; try done; by apply stops_runs.
Qed.
