(* ===== verification/CodexInv.v ===== *)
(** The invariant of a codex transport's threads: what each keeps of its request
    numbers, of the input it submits, and of what it has reported. *)
From Stdlib Require Import ZArith Ascii String Lia.
From stdpp Require Import base tactics list strings option gmap.
From S2P Require Import Prelude GoStr Bytes Json Contract Observation SessionState Proc Codex CodexTurn CodexHandlers CodexWorld.

#[local] Open Scope string_scope.
#[local] Open Scope list_scope.
#[local] Open Scope Z_scope.

(** ** Request numbers *)

Inductive holder := HSub (i : nat) | HRes (i : nat) | HInt (r : nat).

(** Who has a number it has not written yet. *)
Definition pre (w : world) (t : holder) (n : Z) : Prop :=
  match t with
  | HSub i => w.(subs) !! i = Some (SubCall n) \/ w.(subs) !! i = Some (SubWrite n)
  | HRes i => w.(resender) = Some (i, RsCall n) \/ w.(resender) = Some (i, RsWrite n)
  | HInt r => w.(intrs) !! r = Some (IntWrite n)
  end.

Record ids_ok (w : world) : Prop := mkIds {
  id_pre : forall t n, pre w t n -> 0 < n <= w.(nextID) /\ ~ asked w.(hist) n;
  id_one : forall t t' n, pre w t n -> pre w t' n -> t = t';
  id_asked : forall n, asked w.(hist) n -> 0 < n <= w.(nextID);
  id_calls : forall n, n ∈ w.(calls) -> n <= w.(nextID);
  id_answers : forall n, w.(answers) !! n = Some Refused -> asked w.(hist) n;
  id_next : 0 <= w.(nextID) }.

Lemma ids_step w w' : ids_ok w -> w.(nextID) <= w'.(nextID) ->
  (forall t n, pre w' t n -> pre w t n \/ w.(nextID) < n <= w'.(nextID)) ->
  (forall t t' n, pre w' t n -> pre w' t' n -> w.(nextID) < n -> t = t') ->
  (forall n, asked w'.(hist) n -> asked w.(hist) n \/ (w.(nextID) < n <= w'.(nextID) /\ forall t, ~ pre w' t n) \/
     exists t, pre w t n /\ ~ pre w' t n) ->
  (forall n, n ∈ w'.(calls) -> n ∈ w.(calls) \/ n <= w'.(nextID)) ->
  (forall n, asked w.(hist) n -> asked w'.(hist) n) ->
  (forall n, w'.(answers) !! n = Some Refused -> w.(answers) !! n = Some Refused \/ asked w'.(hist) n) -> ids_ok w'.
Proof.
  intros [I1 I2 I3 I4 I5 I6] Hn Hp Hu Ha Hc Hm Hans. split.
  - intros t n Ht. destruct (Hp t n Ht) as [H|H].
    + destruct (I1 t n H) as [? Hna]. split; [lia|]. intros [?|[[? ?]|(t' & Ht' & Hn')]]%Ha; [done|lia|]. by rewrite (I2 t' t n) in Hn' by done.
    + split; [lia|]. intros [?%I3|[[_ Hn']|(t' & [? _]%I1 & _)]]%Ha; [lia|by eapply Hn'|lia].
  - intros t t' n Ht Ht'. destruct (Hp t n Ht) as [H|H]; [|eapply Hu; [done..|lia]].
    destruct (Hp t' n Ht') as [H'|H']; [by eapply I2|]. apply I1 in H as [? _]. lia.
  - intros n [?%I3|[[? _]|(t & [? _]%I1 & _)]]%Ha; lia.
  - intros n [?%I4|?]%Hc; lia.
  - intros n [?%I5|?]%Hans; auto.
  - lia.
Qed.

(** ** Inputs *)

(** It has not been written. *)
Definition early (p : submit_pc) : Prop :=
  match p with
  | SubYield | SubSend | SubCall _ | SubWrite _ | SubForget (SubmitExited | SubmitBusy) | SubDone (SubmitExited | SubmitBusy) => True
  | _ => False
  end.

(** Its caller is told it was not submitted. *)
Definition not_submitted (p : submit_pc) : Prop := p = SubForget SubmitNotSubmitted \/ p = SubDone SubmitNotSubmitted.

Definition unresent (w : world) (i : nat) : Prop := forall pc, w.(resender) <> Some (i, pc).

(** It is no turn's and never will be. *)
Definition never (w : world) (i : nat) (x : inputState) : Prop :=
  w.(w_core).(cur_in) <> Some i /\ x.(bound) = false /\ ~ named w.(hist) x.(native) /\ unresent w i.

(** What is to be said of a Submit that waits for its answer. *)
Definition waits (w : world) (i : nat) (x : inputState) (n : Z) : Prop :=
  asked w.(hist) n /\
  (n ∈ w.(calls) -> x.(call) = n /\ x.(resent) = false /\ unresent w i /\ (x.(bound) = true \/ ~ named w.(hist) x.(native))) /\
  (w.(answers) !! n = Some Refused -> never w i x).

Record input_ok (w : world) (i : nat) (x : inputState) (p : submit_pc) : Prop := mkInputOk {
  io_unsent : ~ sent w.(hist) x.(native) ->
    x.(bound) = false /\ x.(answered) = false /\ ~ named w.(hist) x.(native) /\ unresent w i /\ x.(resent) = false;
  io_early : early p -> ~ sent w.(hist) x.(native);
  io_write : forall n, p = SubWrite n -> x.(call) = n;
  io_wait : forall n, p = SubWait n -> waits w i x n;
  io_not : not_submitted p -> ~ sent w.(hist) x.(native) \/ never w i x;
  io_forget : forall r, p = SubForget r -> early p \/ not_submitted p;
  io_call : x.(call) <> 0 -> 0 < x.(call) <= w.(nextID) /\ x.(answered) = false /\
    (forall t, pre w t x.(call) -> t = HSub i \/ t = HRes i) /\
    (asked w.(hist) x.(call) -> exists t, Wrote (TurnStart x.(call) x.(native) t) ∈ w.(hist));
  io_again : x.(again) <> None -> x.(answered) = true /\ (x.(held) = false -> dropped w.(hist) x.(native));
  io_bound : x.(bound) = true -> x.(answered) = true \/ echoed w.(hist) x.(native) }.

(** What the other threads may do meanwhile. *)
Record apart (w w' : world) (i : nat) (nat_ : string) (n0 : Z) : Prop := mkApart {
  ap_calls : forall n, n ∈ w'.(calls) -> n ∈ w.(calls) \/ w.(nextID) < n;
  ap_answers : forall n, w.(subs) !! i = Some (SubWait n) -> w'.(answers) !! n = Some Refused -> w.(answers) !! n = Some Refused;
  ap_next : w.(nextID) <= w'.(nextID);
  ap_res : unresent w i -> unresent w' i;
  ap_hist : exists l, w'.(hist) = w.(hist) ++ l /\ ~ sent l nat_ /\ ~ named l nat_ /\
    (n0 <> 0 -> ~ asked l n0);
  ap_pre : n0 <> 0 -> forall t, pre w' t n0 -> pre w t n0;
  ap_in : w'.(w_core).(cur_in) = Some i -> w.(w_core).(cur_in) = Some i }.

Lemma never_apart w w' i x n0 : apart w w' i x.(native) n0 -> never w i x -> never w' i x.
Proof.
  intros [_ _ _ Hr (l & El & _ & Hl & _) _ Hi] (N1 & N2 & N3 & N4). split_and!; [auto|done| |auto].
  rewrite El, named_app. tauto.
Qed.

Lemma input_goes w w' i x p p' : ids_ok w -> input_ok w i x p -> apart w w' i x.(native) x.(call) ->
  (early p' -> early p) -> (forall n, p' = SubWrite n -> x.(call) = n) -> (forall n, p' = SubWait n -> waits w' i x n) ->
  (not_submitted p' -> early p \/ not_submitted p \/ never w i x) -> (forall r, p' = SubForget r -> early p' \/ not_submitted p') ->
  input_ok w' i x p'.
Proof.
  intros Hids [O1 O2 O3 O4 O5 Of O6 O7 O8] Hap He Hw Hwait Hnot Hfor. pose proof Hap as [Hc Ha Hn Hr (l & El & Hls & Hln & Hla) Hpre Hi].
  assert (Hs : sent (hist w') (native x) <-> sent (hist w) (native x)) by (rewrite El, sent_app; tauto).
  assert (Hnm : named (hist w') (native x) <-> named (hist w) (native x)) by (rewrite El, named_app; tauto).
  split; try done.
  - rewrite Hs, Hnm. intros H. destruct (O1 H) as (? & ? & ? & ? & ?). split_and!; auto.
  - rewrite Hs. auto.
  - rewrite Hs. intros [H|[H|H]]%Hnot; [left; auto|destruct (O5 H) as [?|?]; [by left|right; by eapply never_apart]|right; by eapply never_apart].
  - intros H. destruct (O6 H) as (C1 & C2 & C3 & C4). split_and!; [lia|lia|done| |].
    + intros t Ht. apply C3. by apply Hpre.
    + rewrite El, asked_app. intros [H'|H']; [|by apply Hla in H'].
      destruct (C4 H') as [t ?]. exists t. apply elem_of_app. by left.
  - intros H. destruct (O7 H) as [A1 A2]. split; [done|]. intros Hh. rewrite El. apply dropped_app; auto.
  - intros H. rewrite El, echoed_app. destruct (O8 H); auto.
Qed.

Lemma input_stays w w' i x p : ids_ok w -> w.(subs) !! i = Some p -> input_ok w i x p -> apart w w' i x.(native) x.(call) -> input_ok w' i x p.
Proof.
  intros Hids Hp O Hap. eapply input_goes; [done..|apply (io_write _ _ _ _ O)| |auto|apply (io_forget _ _ _ _ O)].
  pose proof Hap as [Hc Ha Hn Hr (l & El & Hls & Hln & Hla) Hpre Hi].
  intros n ->. destruct (io_wait _ _ _ _ O n eq_refl) as (W1 & W2 & W3). split_and!.
  - rewrite El, asked_app. by left.
  - rewrite El, named_app. intros [H|H]%Hc; [destruct (W2 H) as (? & ? & ? & ?); split_and!; auto; tauto|]. apply (id_asked _ Hids) in W1. lia.
  - intros H. eapply never_apart; [done|]. auto.
Qed.

(** ** The whole *)

Definition submitting (w : world) (i : nat) : Prop := exists p, w.(subs) !! i = Some p /\ p <> SubYield.

(** The input a timer is sending again. *)
Record resending (w : world) (i : nat) (x : inputState) : Prop := mkResending {
  rs_sent : sent w.(hist) x.(native);
  rs_idle : x.(bound) = false /\ x.(answered) = false /\ x.(again) = None;
  rs_dropped : dropped w.(hist) x.(native);
  rs_run : the_run w.(w_core) = None }.

(** Every time an input is sent again, codex had said since that it dropped
    it, and had reported neither the start nor the end of its turn. *)
Definition sends_ok (h : list act) : Prop :=
  forall h1 n nat t h2, h = h1 ++ Wrote (TurnStart n nat t) :: h2 -> sent h1 nat ->
    dropped h1 nat /\ forall a, accepts spec0 (reports h1) = Some a -> nat ∉ a.(begun) /\ nat ∉ a.(over).

Lemma sends_app h l : sends_ok h -> (forall nat, ~ sent l nat) -> sends_ok (h ++ l).
Proof.
  intros H Hl h1 n nat t h2 E Hs. destruct (decide (length h1 < length h)%nat) as [Hlt|Hlt].
  - apply (f_equal (take (length h))) in E. rewrite take_app_length, take_app in E.
    rewrite (take_ge h1) in E by lia. destruct (length h - length h1)%nat as [|k] eqn:Ek; [lia|]. cbn in E. by eapply H.
  - exfalso. apply (Hl nat). exists n, t. apply (f_equal (drop (length h))) in E. rewrite drop_app_length, drop_app in E.
    replace (length h - length h1)%nat with 0%nat in E by lia. cbn in E. rewrite E. apply elem_of_app. right. apply elem_of_cons. by left.
Qed.

Lemma sends_snoc h n nat t : sends_ok h ->
  (sent h nat -> dropped h nat /\ forall a, accepts spec0 (reports h) = Some a -> nat ∉ a.(begun) /\ nat ∉ a.(over)) ->
  sends_ok (h ++ [Wrote (TurnStart n nat t)]).
Proof.
  intros H Hn h1 n' nat' t' h2 E Hs. destruct h2 as [|z h2'] using rev_ind.
  - apply app_inj_tail in E as [<- [= <- <- <-]]. by apply Hn.
  - rewrite (app_comm_cons h2'), (assoc_L app) in E. apply app_inj_tail in E as [-> _]. by eapply H.
Qed.

Record inv (w : world) : Prop := mkInv {
  inv_ids : ids_ok w;
  inv_subs : forall i, is_Some (w.(subs) !! i) <-> is_Some (w.(w_core).(ins) !! i);
  inv_named : forall i x, w.(w_core).(ins) !! i = Some x -> x.(native) <> "";
  inv_names : forall i j x z, w.(w_core).(ins) !! i = Some x -> w.(w_core).(ins) !! j = Some z -> x.(native) = z.(native) -> i = j;
  inv_inputs : forall i x p, w.(w_core).(ins) !! i = Some x -> w.(subs) !! i = Some p -> input_ok w i x p;
  inv_res : forall i pc, w.(resender) = Some (i, pc) -> exists x, w.(w_core).(ins) !! i = Some x /\ resending w i x;
  inv_told : forall nat, sent w.(hist) nat \/ named w.(hist) nat -> nat = "" \/ exists i x, w.(w_core).(ins) !! i = Some x /\ x.(native) = nat;
  inv_spec : w.(waiting) <> WaitDone -> exists a, accepts spec0 (reports w.(hist)) = Some a /\ fine (submitting w) w.(w_core) a /\
    forall i pc x, w.(resender) = Some (i, pc) -> w.(w_core).(ins) !! i = Some x -> x.(native) ∉ a.(over);
  inv_done : w.(waiting) = WaitDone -> w.(resender) = None /\ is_Some (accepts spec0 (reports w.(hist)));
  inv_turn : turn_id w.(w_core) = open_turn w.(hist);
  inv_stop : forall r y, w.(w_core).(runs) !! r = Some y -> y.(stopping) = true -> is_Some (w.(intrs) !! r);
  inv_sends : sends_ok w.(hist) }.


Lemma fine_mono Q Q' c a : (forall i, Q i -> Q' i) -> fine Q c a -> fine Q' c a.
Proof.
  intros H ([H1 H2 H3 H4 H5] & [T1 T2 T3] & Ho). split; [|split; [|done]]; split; try done.
  - intros i Hi. destruct (H1 i Hi). auto.
  - intros n Hn. destruct (T2 n Hn) as (i & x & ? & ? & ? & ?). eauto 10.
Qed.

(** A move that writes nothing, reports nothing and leaves the inputs and the
    turns alone. *)
Record still (w w' : world) : Prop := mkStill {
  st_core : w'.(w_core) = w.(w_core);
  st_hist : w'.(hist) = w.(hist);
  st_waiting : w'.(waiting) = WaitDone <-> w.(waiting) = WaitDone;
  st_subs : forall i, is_Some (w'.(subs) !! i) <-> is_Some (w.(subs) !! i);
  st_submitting : forall i, submitting w i -> submitting w' i;
  st_res : forall i pc, w'.(resender) = Some (i, pc) -> exists pc', w.(resender) = Some (i, pc');
  st_intrs : forall r, is_Some (w.(intrs) !! r) -> is_Some (w'.(intrs) !! r);
  st_calls : forall n, n ∈ w'.(calls) -> n ∈ w.(calls) \/ w.(nextID) < n <= w'.(nextID);
  st_next : w.(nextID) <= w'.(nextID);
  st_answers : forall n, w'.(answers) !! n = Some Refused -> w.(answers) !! n = Some Refused;
  st_pre : forall t n, pre w' t n -> pre w t n \/ w.(nextID) < n <= w'.(nextID);
  st_fresh : forall t t' n, pre w' t n -> pre w' t' n -> w.(nextID) < n -> t = t' }.

Lemma still_apart w w' i x p : ids_ok w -> still w w' -> input_ok w i x p -> apart w w' i x.(native) x.(call).
Proof.
  intros Hids [E1 E2 E3 E4 E5 E6 E7 E8 E9 E10 E11 E12] O. split; auto.
  - intros n Hn. destruct (E8 n Hn); [by left|right; lia].
  - intros H pc Hpc. destruct (E6 i pc Hpc) as [pc' ?]. by eapply H.
  - exists []. rewrite app_nil_r. split_and!; [done|by intros (? & ? & ?%not_elem_of_nil)|by intros (? & ?%not_elem_of_nil & _)|].
    intros _ (? & ?%not_elem_of_nil & _). done.
  - intros Hc t Ht. destruct (E11 t _ Ht) as [?|?]; [done|]. destruct (io_call _ _ _ _ O Hc) as [? _]. lia.
  - by rewrite E1.
Qed.

Lemma inv_still w w' : inv w -> still w w' ->
  (forall i x p, w.(w_core).(ins) !! i = Some x -> w'.(subs) !! i = Some p -> w.(subs) !! i = Some p \/ input_ok w' i x p) -> inv w'.
Proof.
  intros [I1 I2 I3 I4 I5 I6 I7 I8 I9 I10 I11 I12] Hst Hin. pose proof Hst as [E1 E2 E3 E4 E5 E6 E7 E8 E9 E10 E11 E12].
  split; rewrite ?E1, ?E2; try done.
  - apply (ids_step w); auto.
    + rewrite E2. auto.
    + intros n Hn. destruct (E8 n Hn); [by left|right; lia].
    + by rewrite E2.
  - intros i. by rewrite E4.
  - intros i x p Hx Hp. destruct (Hin i x p Hx Hp) as [H|H]; [|done].
    eapply input_stays; [done..|by apply I5|]. eapply still_apart; eauto.
  - intros i pc Hpc. destruct (E6 i pc Hpc) as [pc' H]. destruct (I6 i pc' H) as (x & Hx & [R1 R2 R3 R4]). exists x. split; [done|].
    split; by rewrite ?E1, ?E2.
  - intros H. destruct I8 as (a & Ha & Hf & Hr); [by rewrite <- E3|]. exists a. split_and!; [done|by eapply fine_mono|].
    intros i pc x Hpc Hx. destruct (E6 i pc Hpc) as [pc' H']. by eapply Hr.
  - rewrite E3. intros H. destruct (I9 H) as [Hn ?]. split; [|done]. destruct (resender w') as [[i pc]|] eqn:Er; [|done].
    destruct (E6 i pc eq_refl) as [? ?]. congruence.
  - intros r y Hr Hy. apply E7. by eapply I11.
Qed.

Lemma pre_sub i p w t n : pre (set_sub i p w) t n -> (t = HSub i /\ (p = SubCall n \/ p = SubWrite n)) \/ pre w t n.
Proof.
  destruct t as [j|j|r]; cbn; [|by right..]. destruct (decide (i = j)) as [->|].
  - rewrite lookup_insert_eq. intros [[= ->]|[= ->]]; auto.
  - rewrite lookup_insert_ne by done. by right.
Qed.

Lemma pre_intr i p w t n : pre (set_intr i p w) t n -> (t = HInt i /\ p = IntWrite n) \/ pre w t n.
Proof.
  destruct t as [j|j|r]; cbn; [by right..|]. destruct (decide (i = r)) as [->|].
  - rewrite lookup_insert_eq. intros [= ->]; auto.
  - rewrite lookup_insert_ne by done. by right.
Qed.

Lemma begin_call_spec w n w' : begin_call w = Some (n, w') ->
  n = w.(nextID) + 1 /\ w' = set_calls ({[n]} ∪ w.(calls)) (set_nextID n w) /\ w.(callEnd) = false.
Proof. unfold begin_call. destruct (callEnd w); [done|]. by intros [= <- <-]. Qed.

Lemma inv_sub w w1 i p p' : inv w -> w1.(subs) = w.(subs) -> w.(subs) !! i = Some p -> still w (set_sub i p' w1) ->
  (early p' -> early p) -> (forall n x, p' = SubWrite n -> w.(w_core).(ins) !! i = Some x -> x.(call) = n) -> (forall n, p' <> SubWait n) ->
  (forall x, w.(w_core).(ins) !! i = Some x -> not_submitted p' -> early p \/ not_submitted p \/ never w i x) ->
  (forall r, p' = SubForget r -> early p' \/ not_submitted p') -> inv (set_sub i p' w1).
Proof.
  intros Hinv Hs Hp Hst He Hw Hwait Hnot Hfor. apply (inv_still w); [done|done|]. intros j x q Hx Hq. cbn in Hq.
  destruct (decide (i = j)) as [<-|]; [|left; by rewrite lookup_insert_ne, Hs in Hq by done].
  right. rewrite lookup_insert_eq in Hq. injection Hq as <-. pose proof (inv_inputs _ Hinv i x p Hx Hp) as O.
  eapply input_goes; [apply Hinv|exact O|eapply still_apart; [apply Hinv|done|exact O]|done|by eauto|by intros n ?%Hwait|by apply Hnot|done].
Qed.

Lemma sub_known w w1 i p p' : w1.(subs) = w.(subs) -> w.(subs) !! i = Some p ->
  forall j, is_Some ((set_sub i p' w1).(subs) !! j) <-> is_Some (w.(subs) !! j).
Proof.
  intros Hs Hp j. cbn. rewrite Hs. destruct (decide (i = j)) as [<-|]; [|by rewrite lookup_insert_ne]. rewrite lookup_insert_eq, Hp. split; by eexists.
Qed.

Lemma sub_submitting w w1 i p' : w1.(subs) = w.(subs) -> p' <> SubYield -> forall j, submitting w j -> submitting (set_sub i p' w1) j.
Proof.
  intros Hs Hne j (q & Hq & Hqe). unfold submitting. cbn. rewrite Hs. destruct (decide (i = j)) as [<-|].
  - exists p'. by rewrite lookup_insert_eq.
  - exists q. by rewrite lookup_insert_ne.
Qed.

(** A request is given up at most. *)
Definition same_but_calls (w w1 : world) : Prop := w1 = w \/ exists n, w1 = drop_call n w.

(** A Submit goes on, and its request is given up at most. *)
Lemma still_sub w w1 i p p' : ids_ok w -> same_but_calls w w1 -> w.(subs) !! i = Some p -> p' <> SubYield ->
  (forall n, p' <> SubCall n) -> (forall n, p' = SubWrite n -> p = SubCall n) -> still w (set_sub i p' w1).
Proof.
  intros Hids H Hp Hy Hc Hw. assert (Hs : subs w1 = subs w) by (destruct H as [->|[n ->]]; done).
  assert (Hpre : forall t n, pre (set_sub i p' w1) t n -> pre w t n).
  { intros t n [[-> [E|E]]|Ht]%pre_sub; [by apply Hc in E|left; by rewrite Hp, (Hw n E)|destruct H as [->|[m ->]]; destruct t; done]. }
  assert (Hfresh : forall t t' n, pre (set_sub i p' w1) t n -> pre (set_sub i p' w1) t' n -> nextID w < n -> t = t').
  { intros t t' n Ht _ Hn. apply Hpre, (id_pre _ Hids) in Ht as [? _]. lia. }
  pose proof (sub_known w w1 i p p' Hs Hp). pose proof (sub_submitting w w1 i p' Hs Hy).
  destruct H as [->|[n ->]]; split; cbn in *; eauto; try lia. intros m Hm. left. set_solver.
Qed.

(** A thread asks for a number. *)
Lemma call_subs w n w1 : begin_call w = Some (n, w1) -> w1.(subs) = w.(subs) /\ w1.(resender) = w.(resender) /\ w1.(intrs) = w.(intrs).
Proof. intros (-> & -> & _)%begin_call_spec. done. Qed.

Lemma still_call_sub w w1 i p n : ids_ok w -> begin_call w = Some (n, w1) -> w.(subs) !! i = Some p -> still w (set_sub i (SubCall n) w1).
Proof.
  intros Hids Hb Hp. destruct (call_subs _ _ _ Hb) as (Hs & _ & _).
  pose proof (sub_known w w1 i p (SubCall n) Hs Hp). pose proof (sub_submitting w w1 i (SubCall n) Hs ltac:(done)).
  apply begin_call_spec in Hb as (-> & -> & _).
  assert (Hpre : forall t m, pre (set_sub i (SubCall (nextID w + 1)) (set_calls ({[nextID w + 1]} ∪ calls w) (set_nextID (nextID w + 1) w))) t m ->
    pre w t m \/ t = HSub i /\ m = nextID w + 1).
  { intros t m [[-> [E|E]]|Ht]%pre_sub; [right; split; congruence|done|left; destruct t; done]. }
  split; try done; cbn [nextID calls answers set_sub set_calls set_nextID resender]; [eauto| |lia|..].
  - intros m [->%elem_of_singleton|?]%elem_of_union; [right; lia|by left].
  - intros t m [?|[-> ->]]%Hpre; [by left|right; lia].
  - intros t t' m [Ht|[-> _]]%Hpre [Ht'|[-> _]]%Hpre Hm; try done;
      match goal with H : pre w _ m |- _ => apply (id_pre _ Hids) in H as [? _]; lia end.
Qed.

(** An interruption, or a timer's Submit, goes on. *)
Lemma still_intr w w1 r p p' : ids_ok w -> same_but_calls w w1 -> w.(intrs) !! r = Some p -> (forall n, p' <> IntWrite n) -> still w (set_intr r p' w1).
Proof.
  intros Hids H Hp Hw.
  assert (Hpre : forall t n, pre (set_intr r p' w1) t n -> pre w t n).
  { intros t n [[-> E]|Ht]%pre_intr; [by apply Hw in E|destruct H as [->|[m ->]]; destruct t; done]. }
  assert (Hfresh : forall t t' n, pre (set_intr r p' w1) t n -> pre (set_intr r p' w1) t' n -> nextID w < n -> t = t').
  { intros t t' n Ht _ Hn. apply Hpre, (id_pre _ Hids) in Ht as [? _]. lia. }
  assert (Hi : forall z, is_Some (intrs w !! z) -> is_Some (<[r:=p']> (intrs w) !! z)).
  { intros z Hz. destruct (decide (r = z)) as [<-|]; [rewrite lookup_insert_eq; eauto|by rewrite lookup_insert_ne]. }
  destruct H as [->|[n ->]]; split; cbn in *; eauto; try lia. intros m Hm. left. set_solver.
Qed.

Lemma still_call_intr w w1 r p n : ids_ok w -> begin_call w = Some (n, w1) -> w.(intrs) !! r = Some p -> still w (set_intr r (IntWrite n) w1).
Proof.
  intros Hids (-> & -> & _)%begin_call_spec Hp. set (w1 := set_calls _ _).
  assert (Hpre : forall t m, pre (set_intr r (IntWrite (nextID w + 1)) w1) t m -> pre w t m \/ t = HInt r /\ m = nextID w + 1).
  { intros t m [[-> E]|Ht]%pre_intr; [right; split; congruence|left; destruct t; done]. }
  split; try done; cbn [nextID calls answers set_intr set_calls set_nextID intrs resender]; [eauto|..].
  - intros z Hz. destruct (decide (r = z)) as [<-|]; cbn; [rewrite lookup_insert_eq; eauto|by rewrite lookup_insert_ne].
  - intros m [->%elem_of_singleton|?]%elem_of_union; [right; cbn; lia|by left].
  - cbn. lia.
  - intros t m [?|[-> ->]]%Hpre; [by left|right; cbn; lia].
  - intros t t' m [Ht|[-> _]]%Hpre [Ht'|[-> _]]%Hpre Hm; try done;
      match goal with H : pre w _ m |- _ => apply (id_pre _ Hids) in H as [? _]; lia end.
Qed.

Lemma still_res w w1 o : ids_ok w -> same_but_calls w w1 -> (forall i pc, o = Some (i, pc) -> (exists pc', w.(resender) = Some (i, pc')) /\ pc = RsFail) ->
  still w (set_resender o w1).
Proof.
  intros Hids H Ho.
  assert (Hpre : forall t n, pre (set_resender o w1) t n -> pre w t n).
  { intros t n Ht. destruct t as [j|j|r]; [destruct H as [->|[m ->]]; done| |destruct H as [->|[m ->]]; done].
    cbn in Ht. destruct Ht as [Ht|Ht]; apply Ho in Ht as [_ ?]; done. }
  assert (Hfresh : forall t t' n, pre (set_resender o w1) t n -> pre (set_resender o w1) t' n -> nextID w < n -> t = t').
  { intros t t' n Ht _ Hn. apply Hpre, (id_pre _ Hids) in Ht as [? _]. lia. }
  assert (Hr : forall i pc, o = Some (i, pc) -> exists pc', resender w = Some (i, pc')) by (intros i pc E; by apply Ho in E as [? _]).
  destruct H as [->|[n ->]]; split; cbn in *; eauto; try lia. intros m Hm. left. set_solver.
Qed.

Lemma still_call_res w w1 i pc n : ids_ok w -> begin_call w = Some (n, w1) -> w.(resender) = Some (i, pc) ->
  still w (set_resender (Some (i, RsCall n)) w1).
Proof.
  intros Hids (-> & -> & _)%begin_call_spec Hp. set (w1 := set_calls _ _).
  assert (Hpre : forall t m, pre (set_resender (Some (i, RsCall (nextID w + 1))) w1) t m -> pre w t m \/ t = HRes i /\ m = nextID w + 1).
  { intros t m Ht. destruct t as [j|j|r]; [by left| |by left]. cbn in Ht. destruct Ht as [[= <- <-]|[=]]. by right. }
  split; try done; cbn [nextID calls answers set_resender set_calls set_nextID resender].
  - intros j pc' [= <- _]. eauto.
  - intros m [->%elem_of_singleton|?]%elem_of_union; [right; cbn; lia|by left].
  - cbn. lia.
  - intros t m [?|[-> ->]]%Hpre; [by left|right; cbn; lia].
  - intros t t' m [Ht|[-> _]]%Hpre [Ht'|[-> _]]%Hpre Hm; try done;
      match goal with H : pre w _ m |- _ => apply (id_pre _ Hids) in H as [? _]; lia end.
Qed.

(** Only the transport's ends change. *)
Lemma still_ends w w' : ids_ok w -> w'.(w_core) = w.(w_core) -> w'.(hist) = w.(hist) -> w'.(subs) = w.(subs) -> w'.(intrs) = w.(intrs) ->
  w'.(resender) = w.(resender) -> w'.(nextID) = w.(nextID) -> w'.(calls) ⊆ w.(calls) ->
  (forall n, w'.(answers) !! n = Some Refused -> w.(answers) !! n = Some Refused) -> (w'.(waiting) = WaitDone <-> w.(waiting) = WaitDone) -> still w w'.
Proof.
  intros Hids E1 E2 E3 E4 E5 E6 E7 E8 E9.
  assert (Hpre : forall t n, pre w' t n -> pre w t n) by (intros [] n; unfold pre; by rewrite ?E3, ?E4, ?E5).
  split; rewrite ?E3, ?E4, ?E5, ?E6; auto; try done.
  - intros i (p & H). exists p. by rewrite E3.
  - eauto.
  - intros t t' n Ht _ Hn. apply Hpre, (id_pre _ Hids) in Ht as [? _]. lia.
Qed.

(** ** Moves that report nothing *)

Lemma cinv_quiet w w' : inv w -> w'.(hist) = w.(hist) -> w'.(waiting) = w.(waiting) -> ids_ok w' ->
  (forall i, is_Some (w'.(subs) !! i) <-> is_Some (w.(subs) !! i)) ->
  (forall i, native <$> w'.(w_core).(ins) !! i = native <$> w.(w_core).(ins) !! i) ->
  (forall i x p, w'.(w_core).(ins) !! i = Some x -> w'.(subs) !! i = Some p -> input_ok w' i x p) ->
  (forall i pc, w'.(resender) = Some (i, pc) -> exists x, w'.(w_core).(ins) !! i = Some x /\ resending w' i x) ->
  (forall a, w.(waiting) <> WaitDone -> fine (submitting w) w.(w_core) a -> fine (submitting w') w'.(w_core) a /\
     forall i pc x, w'.(resender) = Some (i, pc) -> w.(w_core).(ins) !! i = Some x ->
       (exists pc', w.(resender) = Some (i, pc')) \/ w.(w_core).(cur_in) = Some i) ->
  (w.(waiting) = WaitDone -> w.(resender) = None -> w'.(resender) = None) ->
  turn_id w'.(w_core) = turn_id w.(w_core) ->
  (forall r y, w'.(w_core).(runs) !! r = Some y -> y.(stopping) = true -> is_Some (w'.(intrs) !! r)) -> inv w'.
Proof.
  intros [I1 I2 I3 I4 I5 I6 I7 I8 I9 I10 I11 I12] Eh Ew Hids Hsub Hnat Hin Hres Hfine Hdone Hturn Hstop.
  assert (Hn : forall i x', ins (w_core w') !! i = Some x' -> exists x, ins (w_core w) !! i = Some x /\ native x = native x').
  { intros i x' Hx. specialize (Hnat i). rewrite Hx in Hnat. destruct (ins (w_core w) !! i) as [x|]; [|done]. injection Hnat as ?. eauto. }
  split; rewrite ?Eh, ?Ew; try done.
  - intros i. rewrite Hsub, I2. specialize (Hnat i). destruct (ins (w_core w) !! i), (ins (w_core w') !! i); try done; split; intros []; done || by eexists.
  - intros i x' (x & Hx & <-)%Hn. eauto.
  - intros i j x' z' (x & Hx & <-)%Hn (z & Hz & <-)%Hn. eauto.
  - intros nat H. destruct (I7 nat H) as [?|(i & x & Hx & Ex)]; [by left|right]. specialize (Hnat i). rewrite Hx in Hnat.
    destruct (ins (w_core w') !! i) as [x'|] eqn:Hx'; [|done]. injection Hnat as ?. exists i, x'. split; [done|congruence].
  - intros H. destruct (I8 H) as (a & Ha & Hf & Hr). destruct (Hfine a H Hf) as [Hf' Hr']. exists a. split_and!; [done|done|].
    intros i pc x' Hpc Hx'. destruct (Hn i x' Hx') as (x & Hx & <-). destruct (Hr' i pc x Hpc Hx) as [[pc' ?]|Hi]; [by eapply Hr|].
    destruct Hf as (Hs & Ht & _). eapply not_over; [done..|]. by apply the_in_Some.
  - intros H. destruct (I9 H) as [? ?]. split; [auto|done].
  - by rewrite Hturn.
Qed.

Lemma apart_same w w' i nat_ n0 : w'.(hist) = w.(hist) -> w'.(calls) = w.(calls) -> w'.(answers) = w.(answers) -> w'.(nextID) = w.(nextID) ->
  (unresent w i -> unresent w' i) -> (n0 <> 0 -> forall t, pre w' t n0 -> pre w t n0) ->
  (w'.(w_core).(cur_in) = Some i -> w.(w_core).(cur_in) = Some i) -> apart w w' i nat_ n0.
Proof.
  intros E1 E2 E3 E4 H1 H2 H3. split; rewrite ?E2, ?E3, ?E4; auto; [lia|].
  exists []. rewrite app_nil_r. split_and!; [done|by intros (? & ? & ?%not_elem_of_nil)|by intros (? & ?%not_elem_of_nil & _)|].
  intros _ (? & ?%not_elem_of_nil & _). done.
Qed.

(** A thread that has its number keeps it as it writes it. *)
Lemma ids_same w w' : ids_ok w -> w'.(hist) = w.(hist) -> w'.(calls) = w.(calls) -> w'.(nextID) = w.(nextID) ->
  w'.(answers) = w.(answers) -> (forall t n, pre w' t n -> pre w t n) -> ids_ok w'.
Proof.
  intros [I1 I2 I3 I4 I5 I6] E1 E2 E3 E4 H. split; rewrite ?E1, ?E2, ?E3, ?E4; try done.
  - intros t n Ht. apply (I1 t n). auto.
  - intros t t' n Ht Ht'. eapply I2; eauto.
Qed.

(** Of an input, only what the rest does not look at changes. *)
Definition alike (x y : inputState) : Prop :=
  y.(native) = x.(native) /\ y.(call) = x.(call) /\ y.(answered) = x.(answered) /\ y.(bound) = x.(bound) /\ y.(resent) = x.(resent) /\
  y.(held) = x.(held) /\ (y.(again) = x.(again) \/ y.(again) = None).

Lemma alike_refl x : alike x x.
Proof. split_and!; auto. Qed.

Lemma never_alike w i x y : alike x y -> never w i x -> never w i y.
Proof. intros (E1 & E2 & E3 & E4 & _). unfold never. by rewrite E1, E4. Qed.

Lemma input_alike w i x y p : alike x y -> input_ok w i x p -> input_ok w i y p.
Proof.
  intros Hal [O1 O2 O3 O4 O5 Of O6 O7 O8]. pose proof Hal as (E1 & E2 & E3 & E4 & E5 & E6 & E7).
  split.
  - by rewrite E1, E3, E4, E5.
  - by rewrite E1.
  - by rewrite E2.
  - intros n Hn. destruct (O4 n Hn) as (W1 & W2 & W3). split_and!; [done|by rewrite E1, E2, E4, E5|]. intros H. eapply never_alike; eauto.
  - rewrite E1. intros H. destruct (O5 H); [by left|right]. by eapply never_alike.
  - done.
  - by rewrite E1, E2, E3.
  - rewrite E1, E3, E6. destruct E7 as [->| ->]; [done|]. done.
  - by rewrite E1, E3, E4.
Qed.

(** The submission's own turn, or the input, is only asked to stop, or waits no more. *)
Lemma cinv_core w c' (stop : option nat) : inv w ->
  (forall i x', c'.(ins) !! i = Some x' -> exists x, w.(w_core).(ins) !! i = Some x /\ alike x x') ->
  (forall i, native <$> c'.(ins) !! i = native <$> w.(w_core).(ins) !! i) ->
  (c'.(cur_in) = w.(w_core).(cur_in)) -> (the_run w.(w_core) = None -> the_run c' = None) -> turn_id c' = turn_id w.(w_core) ->
  stops w.(w_core) (c', [], stop) ->
  (forall a, fine (submitting w) w.(w_core) a -> fine (submitting w) c' a) -> inv (spawn stop (set_core c' w)).
Proof.
  intros Hinv Hin Hnat Hcur Hrun Hturn Hstops Hfine. set (w' := spawn stop (set_core c' w)).
  assert (E : forall f, (forall r p v, f (set_intr r p v) = f v) -> f w' = f (set_core c' w) :> gmap nat submit_pc) by (intros f Hf; unfold w'; destruct stop; cbn; [apply Hf|done]).
  assert (E1 : hist w' = hist w /\ waiting w' = waiting w /\ subs w' = subs w /\ resender w' = resender w /\ w_core w' = c' /\ calls w' = calls w /\
    answers w' = answers w /\ nextID w' = nextID w) by (unfold w'; by destruct stop). clear E.
  destruct E1 as (E1 & E2 & E3 & E4 & E5 & E6 & E7 & E8).
  assert (Hpre : forall t n, pre w' t n -> pre w t n).
  { intros t n. unfold w'. destruct stop as [r|]; [|by destruct t]. cbn [spawn]. intros [[_ [=]]|H]%pre_intr. by destruct t. }
  assert (Hsub : forall i, submitting w' i <-> submitting w i) by (intros i; unfold submitting; by rewrite E3).
  apply (cinv_quiet w); rewrite ?E3, ?E4, ?E5; try done.
  - by apply (ids_same w); [apply Hinv|..].
  - intros i x' p Hx Hp. destruct (Hin i x' Hx) as (x & Hx0 & Ha). eapply input_alike; [done|].
    eapply input_stays; [apply Hinv|done|by apply (inv_inputs _ Hinv)|]. apply apart_same; try done.
    + unfold unresent. by rewrite E4.
    + auto.
    + rewrite E5, Hcur. done.
  - intros i pc Hpc. destruct (inv_res _ Hinv i pc Hpc) as (x & Hx & [R1 (R2 & R2' & R2'') R3 R4]). specialize (Hnat i). rewrite Hx in Hnat.
    destruct (ins c' !! i) as [x'|] eqn:Hx'; [|done]. exists x'. split; [done|]. destruct (Hin i x' Hx') as (x0 & Hx0 & A1 & A2 & A3 & A4 & A5 & A6 & A7).
    rewrite Hx in Hx0. injection Hx0 as <-. split; rewrite ?E1, ?E5, ?A1; auto. rewrite A3, A4. split_and!; [done|done|]. destruct A7 as [->| ->]; done.
  - intros a _ Hf. split; [|eauto]. eapply fine_mono; [|by apply Hfine]. intros i. apply Hsub.
  - intros r y Hr Hy. unfold w'. destruct (Hstops r y Hr Hy) as [->|(y0 & Hr0 & Hy0)]; cbn [spawn set_intr intrs].
    + rewrite lookup_insert_eq. eauto.
    + pose proof (inv_stop _ Hinv r y0 Hr0 Hy0) as H. destruct stop as [z|]; cbn [spawn set_intr intrs]; [|done].
      destruct (decide (z = r)) as [<-|]; [rewrite lookup_insert_eq; eauto|by rewrite lookup_insert_ne].
Qed.

Lemma alter_alike i f (l : gmap nat inputState) : (forall x, alike x (f x)) ->
  forall j x', alter f i l !! j = Some x' -> exists x, l !! j = Some x /\ alike x x'.
Proof.
  intros Hf j x'. destruct (decide (i = j)) as [<-|]; [rewrite lookup_alter_eq|rewrite lookup_alter_ne by done].
  - destruct (l !! i) as [x|]; [|done]. intros [= <-]. eauto.
  - intros H. exists x'. split; [done|apply alike_refl].
Qed.

Lemma alter_native i f (l : gmap nat inputState) : (forall x, native (f x) = native x) -> forall j, native <$> alter f i l !! j = native <$> l !! j.
Proof.
  intros Hf j. destruct (decide (i = j)) as [<-|]; [rewrite lookup_alter_eq|by rewrite lookup_alter_ne].
  destruct (l !! i); [cbn; by rewrite Hf|done].
Qed.

Lemma inv_same_ins w c' stop : inv w -> c'.(ins) = w.(w_core).(ins) -> c'.(cur_in) = w.(w_core).(cur_in) ->
  (the_run w.(w_core) = None -> the_run c' = None) -> turn_id c' = turn_id w.(w_core) -> stops w.(w_core) (c', [], stop) ->
  (forall a, fine (submitting w) w.(w_core) a -> fine (submitting w) c' a) -> inv (spawn stop (set_core c' w)).
Proof.
  intros Hinv E. intros. apply cinv_core; try done; rewrite E; [|done]. intros i x' H'. exists x'. split; [done|apply alike_refl].
Qed.

Section Steps.
Context (tryAgain : string -> option (string * string * string)) (reconnecting : string -> option (string * string)).
Context (local : Time -> Time) (date : Time -> Z -> Z -> Time) (next_day : Time -> Time).
Context (rate_json : RateLimitData -> option string).
Notation step := (step tryAgain reconnecting local date next_day rate_json false).

Lemma interrupt_inv w : inv w -> inv (spawn (Interrupt w.(w_core)).2 (set_core (Interrupt w.(w_core)).1 w)).
Proof.
  intros Hinv. destruct (Interrupt_ins (w_core w)) as (E1 & E2 & E3). destruct (Interrupt_runs (w_core w)) as [H1 H2].
  assert (Hf : forall a, fine (submitting w) (w_core w) a -> fine (submitting w) (Interrupt (w_core w)).1 a) by (intros a Ha; by apply Interrupt_fine).
  destruct E3 as [E3|[i E3]]; [by apply inv_same_ins|]. apply cinv_core; try done; rewrite E3.
  - apply alter_alike. intros x. split_and!; auto.
  - by apply alter_native.
Qed.

Lemma interrupt_turn_inv n w : inv w -> inv (spawn (InterruptTurn n w.(w_core)).2 (set_core (InterruptTurn n w.(w_core)).1 w)).
Proof.
  intros Hinv. destruct (InterruptTurn_runs n (w_core w)) as (H1 & H2 & H3 & H4 & H5). apply inv_same_ins; try done.
  intros a Ha. by apply InterruptTurn_fine.
Qed.

Lemma aside_inv w c' : inv w -> aside w.(w_core) c' -> inv (set_core c' w).
Proof.
  intros Hinv Ha. apply (inv_same_ins w c' None); try done; try apply Ha.
  - intros H. by destruct (aside_views _ _ Ha) as [_ ->].
  - unfold turn_id. by destruct (aside_views _ _ Ha) as [_ ->].
  - apply stops_runs, Ha.
  - intros a Hf. by eapply aside_fine.
Qed.

Lemma yield_inv now i w : inv w -> w.(subs) !! i = Some SubYield -> forall w', step (MYield i now) w = Some w' -> inv w'.
Proof.
  intros Hinv Hp w'. cbn [CodexTurn.step]. rewrite Hp. case_bool_decide as Hw.
  { intros [= <-]. apply (inv_sub w w i SubYield); try done; [by apply (still_sub w w i SubYield); [apply Hinv|left|..]|].
    intros x _ [?|?]; done. }
  destruct (inv_spec _ Hinv Hw) as (a0 & Ha0 & Hf0 & Hr0).
  pose proof (yield_fine (submitting w) now i (w_core w)) as HF. pose proof (yield_runs now i (w_core w)) as HR.
  destruct (yield false now i (w_core w)) as [c' stop| |c'] eqn:Ey; intros [= <-].
  - destruct HR as (R1 & R2 & R3 & R4 & R5). apply inv_same_ins; try done. intros a Ha. by apply HF.
  - apply (inv_sub w w i SubYield); try done; [by apply (still_sub w w i SubYield); [apply Hinv|left|..]|]. intros x _ [?|?]; done.
  - destruct HR as (R0 & R1 & R2 & R3 & R4). set (w' := set_sub i SubSend (set_core c' w)).
    assert (Hrun : the_run c' = None) by (unfold the_run in *; by rewrite R3, R2).
    assert (Hpre : forall t n, pre w' t n -> pre w t n) by (intros t n [[_ [[=]|[=]]]|H]%pre_sub; by destruct t).
    assert (Hsm : forall j, submitting w j -> submitting w' j) by (by apply (sub_submitting w (set_core c' w))).
    assert (Hyet : forall x, ins (w_core w) !! i = Some x -> bound x = false /\ native x ∉ begun a0 /\ native x ∉ over a0).
    { intros x Hx. pose proof (inv_inputs _ Hinv i x _ Hx Hp) as O. destruct (io_unsent _ _ _ _ O (io_early _ _ _ _ O I)) as (Hb & _). split; [done|].
      destruct Hf0 as (Hs & [T2 T3 T4] & Ho). split.
      - intros (j & z & Hz & En & Hbz)%T2. rewrite (inv_names _ Hinv j i z x Hz Hx En) in Hz. congruence.
      - intros (j & z & Hz & En & _ & (p & Hpj & Hne))%T3. rewrite (inv_names _ Hinv j i z x Hz Hx En) in Hpj. congruence. }
    apply (cinv_quiet w); try done; cbn.
    + by apply (ids_same w); [apply Hinv|..].
    + apply (sub_known w (set_core c' w) i SubYield); done.
    + by rewrite R1.
    + rewrite R1. intros j x p Hx Hpj. destruct (decide (i = j)) as [<-|].
      * rewrite lookup_insert_eq in Hpj. injection Hpj as <-. pose proof (inv_inputs _ Hinv i x _ Hx Hp) as O.
        destruct O as [O1 O2 O3 O4 O5 Of O6 O7 O8]. specialize (O2 I). destruct (O1 O2) as (B1 & B2 & B3 & B4 & B5).
        split; try done; [by intros [?|?]|]. intros H. destruct (O6 H) as (C1 & C2 & C3 & C4). split_and!; [by apply C1|by apply C1|done|auto|done].
      * rewrite lookup_insert_ne in Hpj by done. eapply input_stays; [apply Hinv|exact Hpj|by apply (inv_inputs _ Hinv)|].
        apply apart_same; try done; [auto|]. cbn. rewrite R4. congruence.
    + intros j pc Hpc. destruct (inv_res _ Hinv j pc Hpc) as (x & Hx & [S1 S2 S3 S4]). exists x. rewrite R1. split; [done|]. by split.
    + intros a _ (Hs & Ht & Ho). split; [|intros j pc x Hpc _; left; by exists pc].
      assert (Hin : the_in c' = (fun x => (i, x)) <$> ins (w_core w) !! i) by (unfold the_in; rewrite R4, R1; done).
      assert (Hsubs := proj1 (inv_subs _ Hinv i) (mk_is_Some _ _ Hp)). destruct Hs as [S1 S2 S3 S4 S5]. destruct Ht as [T1 T2 T3].
      split; [|split].
      * split; rewrite ?R1; try done; [intros j Hj; rewrite R4 in Hj; injection Hj as <-; split; [done|]; exists SubSend; cbn; by rewrite lookup_insert_eq|
          intros r Hr; rewrite R2; rewrite R3 in Hr; by apply S2|].
        split; [|by rewrite Hrun]. intros j x Hj Hb. rewrite Hin in Hj. destruct Hsubs as [z Hz]. rewrite Hz in Hj. injection Hj as <- <-.
        destruct (Hyet z Hz) as [? _]. congruence.
      * split; rewrite ?R1; [done| |done]. intros n Hn. destruct (T2 n Hn) as (j & x & Hx & En & Hcj & HQ).
        exists j, x. split_and!; [done..| |by apply Hsm]. rewrite R4. intros [= ->]. destruct HQ as (q & Hq & Hne). congruence.
      * rewrite Ho. unfold current. by rewrite Hrun, R0.
    + unfold turn_id. by rewrite Hrun, R0.
    + intros r y Hr Hy. rewrite R2 in Hr. by eapply (inv_stop _ Hinv).
Qed.
End Steps.
