(* ===== verification/CodexSteps.v ===== *)
(** Each move of a codex transport's threads keeps the invariant. *)
From Stdlib Require Import ZArith Ascii String Lia.
From stdpp Require Import base tactics list strings option gmap.
From S2P Require Import Prelude GoStr Bytes Json Contract Observation SessionState Proc Codex CodexTurn CodexHandlers CodexWorld CodexInv.

#[local] Open Scope string_scope.
#[local] Open Scope list_scope.
#[local] Open Scope Z_scope.

(** ** An input that is not in hand *)

Lemma upd_in_fine Q c a i f : fine Q c a -> (forall x, native (f x) = native x) -> (forall x, bound (f x) = bound x) ->
  (forall x, interrupt (f x) = interrupt x) -> (forall x, answered (f x) = answered x) -> fine Q (upd_in i f c) a.
Proof.
  intros (Hs & Ht & Ho) Hn Hb Hint Han. destruct (decide (cur_in c = Some i)) as [Hi|Hi].
  - destruct (sh_in _ _ Hs i Hi) as [[x Hx] _]. destruct (in_quiet Q c a i x f Hs Ht Ho) as (? & ? & ? & _); try done.
    + by apply the_in_Some.
    + by rewrite Hint.
    + rewrite Han. by left.
  - assert (E : the_in (upd_in i f c) = the_in c).
    { unfold the_in. cbn. destruct (cur_in c) as [j|]; [cbn|done]. rewrite lookup_alter_ne; [done|congruence]. }
    assert (Hl : forall j x', alter f i (ins c) !! j = Some x' -> exists x, ins c !! j = Some x /\ native x = native x' /\ bound x = bound x').
    { intros j x'. destruct (decide (i = j)) as [<-|]; [rewrite lookup_alter_eq|rewrite lookup_alter_ne by done; eauto].
      destruct (ins c !! i) as [x|]; [|done]. intros [= <-]. exists x. by rewrite Hn, Hb. }
    assert (Hl' : forall j x, ins c !! j = Some x -> exists x', alter f i (ins c) !! j = Some x' /\ native x' = native x /\ bound x' = bound x).
    { intros j x Hj. destruct (decide (i = j)) as [<-|]; [rewrite lookup_alter_eq, Hj|rewrite lookup_alter_ne by done; eauto].
      exists (f x). by rewrite Hn, Hb. }
    destruct Hs as [S1 S2 S3 S4 S5], Ht as [T1 T2 T3]. split; [|split].
    + split; try done; cbn.
      * intros j Hj. destruct (S1 j Hj) as [[x Hx] ?]. split; [|done]. destruct (Hl' j x Hx) as (x' & ? & _). eauto.
      * intros j k x z (x0 & ? & <- & _)%Hl (z0 & ? & <- & _)%Hl. eauto.
      * intros j x (x0 & ? & <- & _)%Hl. eauto.
      * change (ok_view (the_in (upd_in i f c)) (the_run c)). by rewrite E.
    + split; [|..|done]; cbn.
      * intros n (j & x & Hx & <- & Hbx)%T1. destruct (Hl' j x Hx) as (x' & ? & ? & ?). exists j, x'. split_and!; congruence.
      * intros n (j & x & Hx & <- & ? & ?)%T2. destruct (Hl' j x Hx) as (x' & ? & ? & ?). exists j, x'. by split_and!.
    + rewrite Ho. unfold current. by rewrite E.
Qed.

Lemma set_in_fine Q c a i : fine Q c a -> cur_in c = Some i -> (forall x, ins c !! i = Some x -> bound x = false) -> fine Q (set_in None c) a.
Proof.
  intros (Hs & Ht & Ho) Hi Hb. assert (Hf : frame c (set_in None c)) by (apply frame_ins; auto).
  destruct (sh_in _ _ Hs i Hi) as [[x Hx] _]. assert (Hin : the_in c = Some (i, x)) by by apply the_in_Some.
  destruct (sh_view _ _ Hs) as [V1 V2].
  assert (Hy : forall r y, the_run c = Some (r, y) -> in_ y = None).
  { intros r y Hr. destruct (V2 r y Hr) as [_ V]. destruct (in_ y) as [j|]; [|done]. destruct V as (_ & z & E & Hz & _).
    rewrite Hin in E. injection E as -> ->. rewrite (Hb z Hx) in Hz. done. }
  split; [|split; [by eapply told_frame|]].
  - apply (shape_frame _ c); [done|done|apply (sh_run _ _ Hs)|]. change (the_run (set_in None c)) with (the_run c). split; [done|].
    intros r y Hr. destruct (V2 r y Hr) as [? _]. split; [done|]. by rewrite (Hy r y Hr).
  - rewrite Ho. unfold current. change (the_run (set_in None c)) with (the_run c). destruct (the_run c) as [[r y]|] eqn:Hr; [|done].
    cbn. by rewrite (Hy r y eq_refl).
Qed.

Section Steps.
Context (tryAgain : string -> option (string * string * string)) (reconnecting : string -> option (string * string)).
Context (local : Time -> Time) (date : Time -> Z -> Z -> Time) (next_day : Time -> Time).
Context (rate_json : RateLimitData -> option string).
Notation step := (step tryAgain reconnecting local date next_day rate_json false).

(** ** Submit *)

(** Of a thread that goes on without a request. *)
Lemma sub_on_inv w w1 i p p' : inv w -> same_but_calls w w1 -> w.(subs) !! i = Some p -> p' <> SubYield ->
  (forall n, p' <> SubCall n) -> (forall n, p' <> SubWrite n) -> (forall n, p' <> SubWait n) -> (early p' -> early p) ->
  (not_submitted p' -> early p \/ not_submitted p \/ exists n, p = SubWait n /\ w.(answers) !! n = Some Refused) ->
  (forall r, p' = SubForget r -> early p' \/ not_submitted p') -> inv (set_sub i p' w1).
Proof.
  intros Hinv H Hp Hy Hc Hw Hwait He Hnot Hfor. assert (Hs : subs w1 = subs w) by (destruct H as [->|[n ->]]; done).
  apply (inv_sub w w1 i p p'); try done.
  - apply still_sub with p; try done; [apply Hinv|]. intros n E. by apply Hw in E.
  - intros n x E. by apply Hw in E.
  - intros x Hx H'. destruct (Hnot H') as [?|[?|(n & -> & Ha)]]; [by left|by right; left|]. right; right.
    by destruct (io_wait _ _ _ _ (inv_inputs _ Hinv i x _ Hx Hp) n eq_refl) as (_ & _ & ?); auto.
Qed.

Lemma send_inv i w w' : inv w -> step (MSend i) w = Some w' -> inv w'.
Proof.
  intros Hinv. cbn [CodexTurn.step]. destruct (subs w !! i) as [p|] eqn:Hp; [|done]. destruct p; try done.
  destruct (begin_call w) as [[n w1]|] eqn:Eb; intros [= <-].
  - destruct (call_subs _ _ _ Eb) as (Hs & _ & _). apply (inv_sub w w1 i SubSend); try done; [|by intros x _ [?|?]].
    by apply (still_call_sub w w1 i SubSend n); [apply Hinv|..].
  - apply (sub_on_inv w w i SubSend); try done; [by left|by intros [?|?]|by left].
Qed.

Lemma call_inv i w w' : inv w -> step (MCall i) w = Some w' -> inv w'.
Proof.
  intros Hinv. cbn [CodexTurn.step]. destruct (subs w !! i) as [p|] eqn:Hp; [|done]. destruct p; try done. intros [= <-].
  set (w' := set_sub i (SubWrite n) (set_core (upd_in i (in_call n) (w_core w)) w)).
  assert (Hpre : forall t m, pre w' t m -> pre w t m).
  { intros t m [[-> [[=]|[= <-]]]|H]%pre_sub; [by left|by destruct t]. }
  assert (Hid := id_pre _ (inv_ids _ Hinv) (HSub i) n (or_introl Hp)). destruct Hid as [Hn Hna].
  apply (cinv_quiet w); try done; cbn.
  - by apply (ids_same w); [apply Hinv|..].
  - by apply (sub_known w (set_core (upd_in i (in_call n) (w_core w)) w) i (SubCall n)).
  - by apply alter_native.
  - intros j x p Hx Hpj. destruct (decide (i = j)) as [<-|].
    + rewrite lookup_alter_eq in Hx. rewrite lookup_insert_eq in Hpj. injection Hpj as <-.
      destruct (ins (w_core w) !! i) as [x0|] eqn:Hx0; [|done]. cbn in Hx. injection Hx as <-.
      destruct (inv_inputs _ Hinv i x0 _ Hx0 Hp) as [O1 O2 O3 O4 O5 Of O6 O7 O8]. specialize (O2 I). destruct (O1 O2) as (B1 & B2 & B3 & B4 & B5).
      split; try done; cbn; [by intros m [= ->]|by intros [?|?]|]. intros _. split_and!; [lia|lia|done| |done].
      intros t Ht%Hpre. left. apply (id_one _ (inv_ids _ Hinv) t (HSub i) n); [done|by left].
    + rewrite lookup_alter_ne in Hx by done. rewrite lookup_insert_ne in Hpj by done.
      eapply (input_stays w); [apply Hinv|exact Hpj|by apply (inv_inputs _ Hinv)|]. by apply apart_same; auto.
  - intros j pc Hpc. destruct (inv_res _ Hinv j pc Hpc) as (x & Hx & [S1 (S2 & S2' & S2'') S3 S4]).
    destruct (decide (i = j)) as [<-|].
    + exists (in_call n x). rewrite lookup_alter_eq, Hx. split; [done|]. by split.
    + exists x. rewrite lookup_alter_ne by done. split; [done|]. by split.
  - intros a _ Hf. split; [|intros j pc x Hpc _; left; by exists pc]. apply (fine_mono (submitting w)); [by apply (sub_submitting w (set_core (upd_in i (in_call n) (w_core w)) w))|].
    by apply upd_in_fine.
  - intros r y Hr Hy. by apply (inv_stop _ Hinv r y).
Qed.

Lemma yield_ends_inv i w w' : inv w -> step (MYieldEnds i) w = Some w' -> inv w'.
Proof.
  intros Hinv. cbn [CodexTurn.step]. destruct (subs w !! i) as [p|] eqn:Hp; [|done]. destruct p; try done. intros [= <-].
  apply (sub_on_inv w w i SubYield); try done; by left.
Qed.

Lemma answered_inv i w w' : inv w -> step (MAnswered i) w = Some w' -> inv w'.
Proof.
  intros Hinv. cbn [CodexTurn.step]. destruct (subs w !! i) as [p|] eqn:Hp; [|done]. destruct p as [| | | |n| |]; try done.
  destruct (answers w !! n) as [[]|] eqn:Ea; [..|done]; intros [= <-].
  - apply (sub_on_inv w w i (SubWait n)); try done; [by left|right; right; by exists n|right; by left].
  - apply (sub_on_inv w w i (SubWait n)); try done; [by left|by intros [?|?]].
  - apply (sub_on_inv w w i (SubWait n)); try done; [by left|by intros [?|?]].
Qed.

Lemma wait_ends_inv i w w' : inv w -> step (MWaitEnds i) w = Some w' -> inv w'.
Proof.
  intros Hinv. cbn [CodexTurn.step]. destruct (subs w !! i) as [p|] eqn:Hp; [|done]. destruct p as [| | | |n| |]; try done. intros [= <-].
  apply (sub_on_inv w (drop_call n w) i (SubWait n)); try done; [right; by exists n|by intros [?|?]].
Qed.

(** What a Submit that forgets its input has made sure of. *)
Lemma forget_unbound i w r x : inv w -> w.(subs) !! i = Some (SubForget r) -> w.(w_core).(ins) !! i = Some x -> x.(bound) = false.
Proof.
  intros Hinv Hp Hx. pose proof (inv_inputs _ Hinv i x _ Hx Hp) as O. destruct (io_forget _ _ _ _ O r eq_refl) as [H|H].
  - by apply (io_unsent _ _ _ _ O), (io_early _ _ _ _ O).
  - destruct (io_not _ _ _ _ O H) as [H'|(_ & ? & _)]; [by apply (io_unsent _ _ _ _ O)|done].
Qed.

Lemma forget_pc r : (early (SubDone r) -> early (SubForget r)) /\ (not_submitted (SubDone r) -> not_submitted (SubForget r)).
Proof. split; [by destruct r|]. intros [?|[= ->]]; [done|by left]. Qed.

Lemma forget_inv i w w' : inv w -> step (MForget i) w = Some w' -> inv w'.
Proof.
  intros Hinv. cbn [CodexTurn.step]. destruct (subs w !! i) as [p|] eqn:Hp; [|done]. destruct p as [| | | | |r|]; try done.
  destruct (forget_pc r) as [Hr1 Hr2]. case_bool_decide as Hc; intros [= <-].
  2: { apply (sub_on_inv w w i (SubForget r)); try done; [by left|]. intros H. right. left. auto. }
  assert (Hun : forall x, ins (w_core w) !! i = Some x -> bound x = false) by (intros x Hx; by eapply forget_unbound).
  set (w' := set_sub i (SubDone r) (set_core (set_in None (w_core w)) w)).
  assert (Hpre : forall t m, pre w' t m -> pre w t m) by (intros t m [[-> [[=]|[=]]]|H]%pre_sub; by destruct t).
  apply (cinv_quiet w); try done.
  - by apply (ids_same w); [apply Hinv|..].
  - by apply (sub_known w (set_core (set_in None (w_core w)) w) i (SubForget r)).
  - intros j x p Hx Hpj. cbn in Hx, Hpj.
    assert (Hap : apart w w' j (native x) (call x)) by (apply apart_same; try done; auto).
    destruct (decide (i = j)) as [<-|].
    + rewrite lookup_insert_eq in Hpj. injection Hpj as <-.
      eapply (input_goes w); [apply Hinv|by apply (inv_inputs _ Hinv)|done..|auto|done|done| |].
      * intros H. right. left. auto.
      * done.
    + rewrite lookup_insert_ne in Hpj by done. eapply (input_stays w); [apply Hinv|exact Hpj|by apply (inv_inputs _ Hinv)|done].
  - intros j pc Hpc. destruct (inv_res _ Hinv j pc Hpc) as (x & Hx & [S1 S2 S3 S4]). exists x. split; [done|]. by split.
  - intros a _ Hf. split; [|intros j pc x Hpc _; left; by exists pc].
    apply (fine_mono (submitting w)); [by apply (sub_submitting w (set_core (set_in None (w_core w)) w))|]. by eapply set_in_fine.
  - intros z y Hz Hy. by apply (inv_stop _ Hinv z y).
Qed.

(** ** What is written *)

Lemma inv_log w w' l : inv w -> w'.(w_core) = w.(w_core) -> w'.(hist) = w.(hist) ++ l -> w'.(waiting) = w.(waiting) -> ids_ok w' ->
  reports l = [] -> open_turn (w.(hist) ++ l) = open_turn w.(hist) ->
  (forall i, is_Some (w'.(subs) !! i) <-> is_Some (w.(subs) !! i)) -> (forall i, submitting w i -> submitting w' i) ->
  (forall i pc, w'.(resender) = Some (i, pc) -> exists pc', w.(resender) = Some (i, pc') /\
     forall x, w.(w_core).(ins) !! i = Some x -> ~ sent l x.(native)) ->
  (forall r, is_Some (w.(intrs) !! r) -> is_Some (w'.(intrs) !! r)) ->
  (forall nat, sent l nat -> exists i x, w.(w_core).(ins) !! i = Some x /\ x.(native) = nat) -> sends_ok (w.(hist) ++ l) ->
  (forall i x p, w.(w_core).(ins) !! i = Some x -> w'.(subs) !! i = Some p -> input_ok w' i x p) -> inv w'.
Proof.
  intros Hinv Ec Eh Ew Hids Hrep Hopen Hsub Hsm Hres Hint Hsent Hsends Hin.
  assert (Hnm : forall nat, ~ named l nat).
  { intros nat (e & He & _). assert (H : e ∈ reports l) by (apply list_elem_of_omap; by exists (Told e)). rewrite Hrep in H. by apply not_elem_of_nil in H. }
  split; rewrite ?Ec, ?Eh, ?Ew, ?reports_app, ?Hrep, ?app_nil_r; try done; try apply Hinv.
  - intros i. rewrite Hsub. apply Hinv.
  - intros i pc Hpc. destruct (Hres i pc Hpc) as (pc' & Hpc' & Hns). destruct (inv_res _ Hinv i pc' Hpc') as (x & Hx & [S1 S2 S3 S4]).
    exists x. split; [done|]. split; rewrite ?Ec, ?Eh; [apply sent_app; by left|done|apply dropped_app; auto|done].
  - intros nat [[H|H]%sent_app|[H|H]%named_app]; [apply (inv_told _ Hinv); auto|right; auto|apply (inv_told _ Hinv); auto|by apply Hnm in H].
  - intros H. destruct (inv_spec _ Hinv H) as (a & Ha & Hf & Hr). exists a. split_and!; [done|by eapply fine_mono|].
    intros i pc x Hpc Hx. destruct (Hres i pc Hpc) as (pc' & Hpc' & _). by eapply Hr.
  - intros H. destruct (inv_done _ Hinv H) as [? ?]. split; [|done]. destruct (resender w') as [[i pc]|] eqn:E; [|done].
    destruct (Hres i pc eq_refl) as (? & ? & _). congruence.
  - rewrite Hopen. apply Hinv.
  - intros r y Hr Hy. apply Hint. by eapply (inv_stop _ Hinv).
Qed.

Lemma write_sent n nat t nat' : sent [Wrote (TurnStart n nat t)] nat' <-> nat' = nat.
Proof.
  split; [intros (m & u & H%list_elem_of_singleton); congruence|intros ->; exists n, t; by apply list_elem_of_singleton].
Qed.

Lemma write_asked l n : asked [Wrote l] n <-> line_id l = Some n.
Proof. split; [intros (l' & [= ->]%list_elem_of_singleton & H); done|intros H; exists l; split; [by apply list_elem_of_singleton|done]]. Qed.

Lemma write_named l nat : ~ named [Wrote l] nat.
Proof. by intros (e & [=]%list_elem_of_singleton & _). Qed.

Lemma write_inv i fails w w' : inv w -> step (MWrite i fails) w = Some w' -> inv w'.
Proof.
  intros Hinv. cbn [CodexTurn.step]. destruct (subs w !! i) as [p|] eqn:Hp; [|done]. destruct p as [| | |n| | |]; try done.
  destruct (ins (w_core w) !! i) as [x|] eqn:Hx; [|done].
  destruct (stdinClosed w); [|destruct fails]; intros [= <-].
  { apply (sub_on_inv w (drop_call n w) i (SubWrite n)); try done; [right; by exists n|by intros [?|?]|by left]. }
  { apply (sub_on_inv w (drop_call n w) i (SubWrite n)); try done; [right; by exists n|by intros [?|?]]. }
  set (l := TurnStart n (native x) (text x)). set (w' := set_sub i (SubWait n) (log [Wrote l] w)).
  pose proof (inv_ids _ Hinv) as Hids. destruct (id_pre _ Hids (HSub i) n (or_intror Hp)) as [Hn Hna].
  pose proof (inv_inputs _ Hinv i x _ Hx Hp) as O. pose proof (io_early _ _ _ _ O I) as Huns. pose proof (io_write _ _ _ _ O n eq_refl) as Hcall.
  destruct (io_unsent _ _ _ _ O Huns) as (U1 & U2 & U3 & U4 & U5).
  assert (Hpre : forall t m, pre w' t m -> pre w t m) by (intros t m [[-> [[=]|[=]]]|H]%pre_sub; by destruct t).
  assert (Hgone : ~ pre w' (HSub i) n) by (intros [H|H]; cbn in H; rewrite lookup_insert_eq in H; done).
  assert (Hids' : ids_ok w').
  { apply (ids_step w); try done; cbn; [auto|..].
    - intros t t' m Ht%Hpre _ Hm. apply (id_pre _ Hids) in Ht as [? _]. lia.
    - intros m [H|H%write_asked]%asked_app; [by left|right; right]. injection H as <-. exists (HSub i). split; [by right|done].
    - auto.
    - intros m H. apply asked_app. by left.
    - auto. }
  apply (inv_log w w' [Wrote l]); try done.
  - by rewrite open_turn_app.
  - by apply (sub_known w (log [Wrote l] w) i (SubWrite n)).
  - by apply (sub_submitting w (log [Wrote l] w)).
  - intros j pc Hpc. exists pc. split; [done|]. intros z Hz Hs%write_sent. rewrite (inv_names _ Hinv j i z x Hz Hx Hs) in Hpc. by eapply U4.
  - intros nat ->%write_sent. by exists i, x.
  - apply sends_snoc; [apply Hinv|done].
  - intros j z p Hz Hpj. destruct (decide (i = j)) as [<-|].
    + cbn in Hpj. rewrite lookup_insert_eq in Hpj. injection Hpj as <-. rewrite Hx in Hz. injection Hz as <-.
      assert (Hs' : sent (hist w') (native x)) by (apply sent_app; right; by apply write_sent).
      split; try done; [|by intros [?|?]|..].
      * intros m [= <-]. split_and!; [apply asked_app; right; by apply write_asked| |].
        -- intros _. split_and!; [done..|right]. cbn. intros [?|?%write_named]%named_app; done.
        -- intros Hr. exfalso. apply Hna. by apply (id_answers _ Hids).
      * rewrite Hcall. intros _. split_and!; [lia|cbn; lia|done| |].
        -- intros t Ht%Hpre. left. apply (id_one _ Hids t (HSub i) n); [done|by right].
        -- intros _. exists (text x). apply elem_of_app. right. by apply list_elem_of_singleton.
      * intros H. destruct (io_again _ _ _ _ O H). congruence.
      * congruence.
    + cbn in Hpj. rewrite lookup_insert_ne in Hpj by done. eapply (input_stays w); [apply Hinv|exact Hpj|by apply (inv_inputs _ Hinv)|].
      split; try done; [by left| |auto].
      exists [Wrote l]. split_and!; [done|..].
      * intros Hs%write_sent. by rewrite (inv_names _ Hinv j i z x Hz Hx Hs) in *.
      * apply write_named.
      * intros Hc Hl%write_asked. assert (E : call z = n) by (cbn in Hl; congruence).
        destruct (io_call _ _ _ _ (inv_inputs _ Hinv j z _ Hz Hpj) Hc) as (_ & _ & H3 & _). rewrite E in H3.
        destruct (H3 (HSub i)) as [[=]|[=]]; [by right|done].
Qed.

(** A thread of no Submit writes its request: the inputs are as they were. *)
Lemma write_apart w w' l j z : w'.(w_core) = w.(w_core) -> w'.(hist) = w.(hist) ++ [Wrote l] -> w'.(calls) ⊆ w.(calls) \/ (forall n, n ∈ w'.(calls) -> n ∈ w.(calls) \/ w.(nextID) < n) ->
  w'.(answers) = w.(answers) -> w.(nextID) <= w'.(nextID) -> (forall pc, w'.(resender) = Some (j, pc) -> exists pc', w.(resender) = Some (j, pc')) ->
  (forall t, pre w' t (call z) -> pre w t (call z)) -> ~ sent [Wrote l] (native z) -> (call z <> 0 -> line_id l <> Some (call z)) ->
  apart w w' j (native z) (call z).
Proof.
  intros E1 E2 E3 E4 E5 E6 E7 E8 E9. split; try done.
  - intros n Hn. destruct E3 as [E3|E3]; [left; set_solver|by apply E3].
  - by rewrite E4.
  - intros H pc Hpc. destruct (E6 pc Hpc) as [pc' ?]. by eapply H.
  - exists [Wrote l]. split_and!; [done|done|apply write_named|]. intros Hc H%write_asked. by apply E9.
  - by rewrite E1.
Qed.

Lemma res_on_inv w w1 i pc : inv w -> same_but_calls w w1 -> w.(resender) = Some (i, pc) -> inv (set_resender (Some (i, RsFail)) w1).
Proof.
  intros Hinv H Hp. apply (inv_still w); [done| |].
  - apply still_res; [apply Hinv|done|]. intros j pc' [= <- <-]. eauto.
  - intros j x p Hx Hpj. left. by destruct H as [->|[n ->]].
Qed.

Lemma resend_send_inv w w' : inv w -> step MResendSend w = Some w' -> inv w'.
Proof.
  intros Hinv. cbn [CodexTurn.step]. destruct (resender w) as [[i pc]|] eqn:Hp; [|done]. destruct pc; try done.
  destruct (begin_call w) as [[n w1]|] eqn:Eb; intros [= <-].
  - apply (inv_still w); [done|by eapply still_call_res; [apply Hinv|..]|]. intros j x p Hx Hpj. left.
    apply call_subs in Eb as (Hs & _ & _). cbn in Hpj. by rewrite Hs in Hpj.
  - apply (res_on_inv w w i RsSend); [done|by left|done].
Qed.

Lemma resend_call_inv w w' : inv w -> step MResendCall w = Some w' -> inv w'.
Proof.
  intros Hinv. cbn [CodexTurn.step]. destruct (resender w) as [[i pc]|] eqn:Hp; [|done]. destruct pc as [|n| |]; try done. intros [= <-].
  set (w' := set_resender (Some (i, RsWrite n)) (set_core (upd_in i (in_call n) (w_core w)) w)).
  assert (Hpre : forall t m, pre w' t m -> pre w t m).
  { intros t m H. destruct t as [j|j|r]; [done| |done]. destruct H as [H|H]; cbn in H; [done|]. injection H as <- <-. by left. }
  destruct (id_pre _ (inv_ids _ Hinv) (HRes i) n (or_introl Hp)) as [Hn Hna].
  destruct (inv_res _ Hinv i _ Hp) as (x & Hx & [S1 (S2 & S3 & S4) S5 S6]).
  apply (cinv_quiet w); try done; cbn.
  - by apply (ids_same w); [apply Hinv|..].
  - by apply alter_native.
  - intros j z p Hz Hpj. pose proof (inv_ids _ Hinv) as Hids. destruct (decide (i = j)) as [<-|].
    + rewrite lookup_alter_eq, Hx in Hz. cbn in Hz. injection Hz as <-. pose proof (inv_inputs _ Hinv i x _ Hx Hpj) as [O1 O2 O3 O4 O5 Of O6 O7 O8].
      split; try done; cbn.
      * intros m ->. by destruct (O2 I).
      * intros m ->. destruct (O4 m eq_refl) as (W1 & W2 & W3). split_and!; [done|..].
        -- intros H. destruct (W2 H) as (_ & _ & H' & _). by destruct (H' (RsCall n)).
        -- intros H. destruct (W3 H) as (_ & _ & _ & H'). by destruct (H' (RsCall n)).
      * intros H. destruct (O5 H) as [?|(_ & _ & _ & H')]; [done|by destruct (H' (RsCall n))].
      * intros _. split_and!; [lia|lia|done| |done]. intros t Ht%Hpre. right. apply (id_one _ Hids t (HRes i) n); [done|by left].
    + rewrite lookup_alter_ne in Hz by done. eapply (input_stays w); [done|exact Hpj|by apply (inv_inputs _ Hinv)|].
      apply apart_same; try done; [|auto]. intros _ pc [= -> _]. done.
  - intros j pc [= <- _]. exists (in_call n x). rewrite lookup_alter_eq, Hx. split; [done|]. by split.
  - intros a _ Hf. split; [by apply upd_in_fine|]. intros j pc z [= <- _] _. left. by exists (RsCall n).
  - intros _ H. congruence.
  - intros r y Hr Hy. by apply (inv_stop _ Hinv r y).
Qed.

Lemma resend_write_inv fails w w' : inv w -> step (MResendWrite fails) w = Some w' -> inv w'.
Proof.
  intros Hinv. cbn [CodexTurn.step]. destruct (resender w) as [[i pc]|] eqn:Hp; [|done]. destruct pc as [| |n|]; try done.
  destruct (ins (w_core w) !! i) as [x|] eqn:Hx; [|done]. destruct (stdinClosed w || fails); intros [= <-].
  { apply (res_on_inv w (drop_call n w) i (RsWrite n)); [done|right; by exists n|done]. }
  set (l := TurnStart n (native x) (text x)). set (w' := set_resender None (log [Wrote l] w)).
  destruct (inv_res _ Hinv i _ Hp) as (x0 & Hx0 & [S1 (S2 & S3 & S4) S5 S6]). rewrite Hx in Hx0. injection Hx0 as <-.
  pose proof (inv_ids _ Hinv) as Hids. destruct (id_pre _ Hids (HRes i) n (or_intror Hp)) as [Hn Hna].
  assert (Hpre : forall t m, pre w' t m -> pre w t m).
  { intros t m H. destruct t as [j|j|r]; [done| |done]. by destruct H. }
  assert (Hids' : ids_ok w').
  { apply (ids_step w); try done; cbn; [auto|..].
    - intros t t' m Ht%Hpre _ Hm. apply (id_pre _ Hids) in Ht as [? _]. lia.
    - intros m [H|H%write_asked]%asked_app; [by left|right; right]. injection H as <-. exists (HRes i). split; [by right|by intros []].
    - auto.
    - intros m H. apply asked_app. by left.
    - auto. }
  assert (Hw : waiting w <> WaitDone) by (intros H; destruct (inv_done _ Hinv H); congruence).
  destruct (inv_spec _ Hinv Hw) as (a & Ha & (Hs & Ht & Ho) & Hr).
  assert (Hnb : native x ∉ begun a /\ native x ∉ over a).
  { split; [|by eapply Hr]. intros (j & z & Hz & En & Hb)%(to_begun _ _ _ Ht). rewrite (inv_names _ Hinv j i z x Hz Hx En) in Hz. congruence. }
  apply (inv_log w w' [Wrote l]); try done.
  - by rewrite open_turn_app.
  - intros nat ->%write_sent. by exists i, x.
  - apply sends_snoc; [apply Hinv|]. intros _. split; [done|]. intros a' Ha'. rewrite Ha in Ha'. injection Ha' as <-. done.
  - intros j z p Hz Hpj. destruct (decide (i = j)) as [<-|].
    + rewrite Hx in Hz. injection Hz as <-. pose proof (inv_inputs _ Hinv i x _ Hx Hpj) as [O1 O2 O3 O4 O5 Of O6 O7 O8].
      assert (Hs' : sent (hist w') (native x)) by (apply sent_app; by left).
      split; try done.
      * intros H. by destruct (O2 H).
      * intros m ->. destruct (O4 m eq_refl) as (W1 & W2 & W3). split_and!; [apply asked_app; by left|..].
        -- intros H. destruct (W2 H) as (_ & _ & H' & _). by destruct (H' (RsWrite n)).
        -- intros H. destruct (W3 H) as (_ & _ & _ & H'). by destruct (H' (RsWrite n)).
      * intros H. destruct (O5 H) as [?|(_ & _ & _ & H')]; [done|by destruct (H' (RsWrite n))].
      * intros H. destruct (O6 H) as (C1 & C2 & C3 & C4). split_and!; [lia|cbn; lia|done|auto|].
        intros [H'|H'%write_asked]%asked_app.
        -- destruct (C4 H') as [u ?]. exists u. apply elem_of_app. by left.
        -- exists (text x). apply elem_of_app. right. apply list_elem_of_singleton. unfold l. cbn in H'. congruence.
      * congruence.
    + eapply (input_stays w); [done|exact Hpj|by apply (inv_inputs _ Hinv)|].
      apply (write_apart w w' l); try done; [left; done|auto|..].
      * intros H%write_sent. by rewrite (inv_names _ Hinv j i z x Hz Hx H) in *.
      * intros Hc H. assert (E : call z = n) by (cbn in H; congruence).
        destruct (io_call _ _ _ _ (inv_inputs _ Hinv j z _ Hz Hpj) Hc) as (_ & _ & H3 & _). rewrite E in H3.
        destruct (H3 (HRes i)) as [[=]|[=]]; [by right|done].
Qed.
End Steps.
