(* ===== verification/CodexMoves.v ===== *)
(** Each move of a codex transport's threads keeps the invariant: what it reads,
    what it reports, and a new Submit. *)
From Stdlib Require Import ZArith Ascii String Lia.
From stdpp Require Import base tactics list strings option gmap.
From S2P Require Import Prelude GoStr Bytes Json Contract Observation SessionState Proc Codex CodexTurn CodexHandlers CodexWorld CodexInv CodexSteps.

#[local] Open Scope string_scope.
#[local] Open Scope list_scope.
#[local] Open Scope Z_scope.

(** ** What is reported *)

Lemma inv_report w w' l evs a a' : inv w -> w.(waiting) <> WaitDone -> w'.(waiting) = w.(waiting) ->
  w'.(hist) = w.(hist) ++ l ++ map Told evs -> reports l = [] -> (forall nat, ~ sent l nat) ->
  accepts spec0 (reports w.(hist)) = Some a -> accepts a evs = Some a' -> fine (submitting w) w'.(w_core) a' ->
  frame w.(w_core) w'.(w_core) -> w'.(subs) = w.(subs) -> w'.(resender) = None -> ids_ok w' ->
  turn_id w'.(w_core) = open_turn w'.(hist) ->
  (forall r y, w'.(w_core).(runs) !! r = Some y -> y.(stopping) = true -> is_Some (w'.(intrs) !! r)) ->
  (forall e, e ∈ evs -> e.(ev_native) = "" \/ exists i x, w.(w_core).(ins) !! i = Some x /\ x.(native) = e.(ev_native)) ->
  (forall i x p, w'.(w_core).(ins) !! i = Some x -> w.(subs) !! i = Some p -> input_ok w' i x p) -> inv w'.
Proof.
  intros Hinv Hw Ew Eh Hrep Hns Ha Ha' Hf Hfr Es Er Hids Ht Hst Hev Hin.
  assert (Hn : forall i x', ins (w_core w') !! i = Some x' -> exists x, ins (w_core w) !! i = Some x /\ native x = native x').
  { intros i x' Hx. pose proof (fr_native _ _ Hfr i) as H. rewrite Hx in H. destruct (ins (w_core w) !! i) as [x|]; [|done]. injection H as ?. eauto. }
  assert (Hn' : forall i x, ins (w_core w) !! i = Some x -> exists x', ins (w_core w') !! i = Some x' /\ native x' = native x).
  { intros i x Hx. pose proof (fr_native _ _ Hfr i) as H. rewrite Hx in H. destruct (ins (w_core w') !! i) as [x'|]; [|done]. injection H as ?. eauto. }
  assert (Hrs : reports (hist w') = reports (hist w) ++ evs) by (by rewrite Eh, !reports_app, Hrep, reports_told).
  split; rewrite ?Es, ?Er, ?Ew; try done.
  - intros i. rewrite (inv_subs _ Hinv). split; intros [x Hx]; [destruct (Hn' i x Hx) as (? & ? & _)|destruct (Hn i x Hx) as (? & ? & _)]; eauto.
  - intros i x' (x & Hx & <-)%Hn. by apply (inv_named _ Hinv i).
  - intros i j x' z' (x & Hx & <-)%Hn (z & Hz & <-)%Hn. by apply (inv_names _ Hinv).
  - intros nat H. assert (H' : (sent (hist w) nat \/ named (hist w) nat) \/ exists e, e ∈ evs /\ ev_native e = nat).
    { rewrite Eh in H. destruct H as [[H|[H|H]%sent_app]%sent_app|[H|[H|H]%named_app]%named_app]; auto.
      - by apply Hns in H. - by apply sent_told in H.
      - destruct H as (e & He & _). assert (X : e ∈ reports l) by (apply list_elem_of_omap; by exists (Told e)). rewrite Hrep in X. by apply not_elem_of_nil in X.
      - right. by apply named_told. }
    assert (H2 : nat = "" \/ exists i x, ins (w_core w) !! i = Some x /\ native x = nat).
    { destruct H' as [H'|(e & He & <-)]; [by apply (inv_told _ Hinv)|by apply Hev]. }
    destruct H2 as [?|(i & x & Hx & <-)]; [by left|right]. destruct (Hn' i x Hx) as (x' & Hx' & ?). by exists i, x'.
  - intros _. exists a'. split_and!; [by rewrite Hrs, accepts_app, Ha| |done]. apply (fine_mono (submitting w)); [|done].
    intros i (p & Hp). exists p. by rewrite Es.
  - rewrite Eh. apply sends_app; [apply Hinv|]. intros nat [H|H]%sent_app; [by eapply Hns|by eapply sent_told].
Qed.

(** An input that was written has no more to be said of its Submit than how it
    waits. *)
Lemma sent_ok w' i x p : sent w'.(hist) x.(native) -> ~ early p -> ~ not_submitted p -> (forall r, p <> SubForget r) ->
  (forall n, p = SubWait n -> waits w' i x n) ->
  (x.(call) <> 0 -> 0 < x.(call) <= w'.(nextID) /\ x.(answered) = false /\ (forall t, pre w' t x.(call) -> t = HSub i \/ t = HRes i) /\
    (asked w'.(hist) x.(call) -> exists t, Wrote (TurnStart x.(call) x.(native) t) ∈ w'.(hist))) ->
  (x.(again) <> None -> x.(answered) = true /\ (x.(held) = false -> dropped w'.(hist) x.(native))) ->
  (x.(bound) = true -> x.(answered) = true \/ echoed w'.(hist) x.(native)) -> input_ok w' i x p.
Proof.
  intros Hs He Hn Hf Hw Hc Ha Hb. split; try done.
  - intros n ->. by destruct (He I).
  - intros r ->. by destruct (Hf r).
Qed.

(** The input in hand, answered: its Submit is past its request. *)
Lemma answered_past w i x p : inv w -> w.(w_core).(ins) !! i = Some x -> w.(subs) !! i = Some p -> w.(w_core).(cur_in) = Some i ->
  x.(answered) = true -> sent w.(hist) x.(native) /\ ~ early p /\ ~ not_submitted p /\ (forall r, p <> SubForget r) /\ x.(call) = 0 /\
    forall n, p = SubWait n -> asked w.(hist) n /\ n ∉ w.(calls) /\ w.(answers) !! n <> Some Refused.
Proof.
  intros Hinv Hx Hp Hi Hans. pose proof (inv_inputs _ Hinv i x p Hx Hp) as [O1 O2 O3 O4 O5 Of O6 O7 O8].
  destruct (decide (call x = 0)) as [Hc|Hc]; [|by destruct (O6 Hc) as (_ & ? & _); congruence].
  assert (Hs : sent (hist w) (native x)).
  { destruct (decide (sent (hist w) (native x))) as [?|H]; [done|]. destruct (O1 H) as (_ & ? & _). congruence. }
  assert (He : ~ early p) by (intros H; by apply O2).
  assert (Hn : ~ not_submitted p) by (intros H; destruct (O5 H) as [?|[? _]]; done).
  split_and!; try done.
  - intros r E. by destruct (Of r E).
  - intros n E. destruct (O4 n E) as (W1 & W2 & W3). split_and!; [done|..].
    + intros H. destruct (W2 H) as (E' & _). rewrite Hc in E'. apply (id_asked _ (inv_ids _ Hinv)) in W1. lia.
    + intros H. by destruct (W3 H).
Qed.

Lemma waits_past w w' i x n l : asked w.(hist) n -> n ∉ w'.(calls) -> w'.(answers) !! n <> Some Refused -> w'.(hist) = w.(hist) ++ l -> waits w' i x n.
Proof. intros Ha Hc Hr E. split_and!; [rewrite E; apply asked_app; by left|done|done]. Qed.

(** An input nothing was said of. *)
Lemma report_apart w w' j z l evs : w'.(hist) = w.(hist) ++ l ++ map Told evs -> (forall nat, ~ sent l nat) -> reports l = [] ->
  (forall n, ~ asked l n) -> (forall e, e ∈ evs -> e.(ev_native) <> z.(native)) -> w'.(calls) ⊆ w.(calls) ->
  (forall n, w.(subs) !! j = Some (SubWait n) -> w'.(answers) !! n = Some Refused -> w.(answers) !! n = Some Refused) ->
  w'.(nextID) = w.(nextID) -> w'.(resender) = None -> (forall t n, pre w' t n -> pre w t n) ->
  (w'.(w_core).(cur_in) = Some j -> w.(w_core).(cur_in) = Some j) -> apart w w' j (native z) (call z).
Proof.
  intros E1 H1 H2 H3 H4 H5 H6 E2 E3 H7 H8. split; try done.
  - intros n Hn. left. set_solver.
  - lia.
  - intros _ pc. by rewrite E3.
  - exists (l ++ map Told evs). split_and!; [done|..].
    + intros [H|H]%sent_app; [by eapply H1|by eapply sent_told].
    + intros [(e & He & _)|(e & He & En)%named_told]%named_app; [|by eapply H4].
      assert (X : e ∈ reports l) by (apply list_elem_of_omap; by exists (Told e)). rewrite H2 in X. by apply not_elem_of_nil in X.
    + intros _ [H|H]%asked_app; [by eapply H3|by eapply asked_told].
  - auto.
Qed.

Lemma ids_report w w' l evs : ids_ok w -> w'.(hist) = w.(hist) ++ l ++ map Told evs -> (forall n, ~ asked l n) -> w'.(nextID) = w.(nextID) ->
  w'.(calls) ⊆ w.(calls) -> (forall n, w'.(answers) !! n = Some Refused -> w.(answers) !! n = Some Refused \/ asked w.(hist) n) ->
  (forall t n, pre w' t n -> pre w t n) -> ids_ok w'.
Proof.
  intros Hids Eh Hl En Hc Ha Hp.
  assert (Has : forall n, asked (hist w') n <-> asked (hist w) n).
  { intros n. rewrite Eh, !asked_app. pose proof (asked_told evs n). pose proof (Hl n). tauto. }
  destruct Hids as [I1 I2 I3 I4 I5 I6]. split; rewrite ?En; try done.
  - intros t n Ht. rewrite Has. apply (I1 t). auto.
  - intros t t' n Ht Ht'. apply (I2 t t' n); auto.
  - intros n. rewrite Has. apply I3.
  - intros n Hn. apply I4. set_solver.
  - intros n Hn. rewrite Has. destruct (Ha n Hn); auto.
Qed.

Section Steps.
Context (tryAgain : string -> option (string * string * string)) (reconnecting : string -> option (string * string)).
Context (local : Time -> Time) (date : Time -> Z -> Z -> Time) (next_day : Time -> Time).
Context (rate_json : RateLimitData -> option string).
Notation step := (step tryAgain reconnecting local date next_day rate_json false).
Notation onNotification := (onNotification tryAgain reconnecting local date next_day rate_json).

(** ** What a timer does *)

Lemma resend_again i c x : c.(ins) !! i = Some x ->
  match resend i c with
  | ResendNothing c' => c' = upd_in i (in_again None) c
  | ResendEnds c' e => c' = set_in None (upd_in i (in_again None) c) /\ c.(cur_in) = Some i /\ x.(again) <> None /\ x.(bound) = false /\
      e.(ev_native) = x.(native)
  | ResendSends c' => c' = upd_in i in_resent (upd_in i (in_again None) c) /\ c.(cur_in) = Some i
  end.
Proof.
  intros Hx. unfold resend. rewrite Hx. destruct (_ || _) eqn:E; [done|]. bprop. repeat split; try done.
  destruct (interrupt x); [|destruct (held x)]; (split_and!; try done; by destruct (again x)).
Qed.

Lemma resend_nothing_inv i w : inv w -> inv (set_core (upd_in i (in_again None) w.(w_core)) w).
Proof.
  intros Hinv. apply (cinv_core w _ None); try done.
  - apply alter_alike. intros x. split_and!; auto.
  - by apply alter_native.
  - by apply stops_runs.
  - intros a Hf. by apply upd_in_fine.
Qed.

Lemma resend_inv i w w' : inv w -> step (MResend i) w = Some w' -> inv w'.
Proof.
  intros Hinv. cbn [CodexTurn.step]. destruct (resender w) as [?|] eqn:Hres; [done|]. cbn [is_none negb orb].
  case_bool_decide as Hw; [done|]. destruct (inv_spec _ Hinv Hw) as (a & Ha & Hf & _).
  destruct (ins (w_core w) !! i) as [x|] eqn:Hx.
  2:{ unfold resend. rewrite Hx. intros [= <-]. by destruct w. }
  destruct (proj2 (inv_subs _ Hinv i) (mk_is_Some _ _ Hx)) as [p Hp].
  pose proof (resend_again i _ x Hx) as HA. pose proof (resend_handled (submitting w) i _ a Hf) as HH.
  pose proof (inv_inputs _ Hinv i x p Hx Hp) as O.
  destruct (resend i (w_core w)) as [c'|c' e|c'] eqn:Er; intros [= <-].
  - subst c'. by apply resend_nothing_inv.
  - destruct HA as (-> & Hi & Hag & Hb & He). destruct HH as (a' & Ha' & Hf1 & Hf2 & Hf3 & Hfr).
    destruct (io_again _ _ _ _ O Hag) as [Hans _]. destruct (answered_past w i x p Hinv Hx Hp Hi Hans) as (P1 & P2 & P3 & P4 & P5 & P6).
    set (w' := log [Told e] (set_core (set_in None (upd_in i (in_again None) (w_core w))) w)).
    assert (Eh : hist w' = hist w ++ [] ++ map Told [e]) by done.
    apply (inv_report w w' [] [e] a a'); try done.
    + by intros nat (? & ? & ?%not_elem_of_nil).
    + apply (ids_report w w' [] [e]); try done; [apply Hinv|by intros n (? & ?%not_elem_of_nil & _)|by left].
    + rewrite Eh. cbn. rewrite open_turn_app. cbn. rewrite <- (inv_turn _ Hinv). done.
    + intros r y Hr Hy. by apply (inv_stop _ Hinv r y).
    + intros e' ->%list_elem_of_singleton. right. by exists i, x.
    + intros j z q Hz Hq. cbn in Hz. destruct (decide (i = j)) as [<-|].
      * rewrite lookup_alter_eq, Hx in Hz. cbn in Hz. injection Hz as <-. rewrite Hp in Hq. injection Hq as <-.
        apply sent_ok; try done; cbn; [apply sent_app; by left| |by rewrite Hb].
        intros n E. destruct (P6 n E) as (? & ? & ?). by apply (waits_past w w' i _ n [Told e]).
      * rewrite lookup_alter_ne in Hz by done. eapply (input_stays w); [apply Hinv|exact Hq|by apply (inv_inputs _ Hinv)|].
        apply (report_apart w w' j z [] [e]); try done.
        -- by intros nat (? & ? & ?%not_elem_of_nil).
        -- by intros m (? & ?%not_elem_of_nil & _).
        -- intros e' ->%list_elem_of_singleton. rewrite He. intros E. by rewrite (inv_names _ Hinv i j x z) in *.
  - destruct HA as (Ec & Hi). destruct HH as (Hf' & Hfr & Hrun & x0 & Hin & Hb & Hh & Hag & Hin').
    apply the_in_Some in Hin as [_ Hx0]. rewrite Hx in Hx0. injection Hx0 as <-.
    destruct (io_again _ _ _ _ O Hag) as [Hans Hdr]. destruct (answered_past w i x p Hinv Hx Hp Hi Hans) as (P1 & P2 & P3 & P4 & P5 & P6).
    set (w' := set_resender (Some (i, RsSend)) (set_core c' w)).
    assert (Hrun0 : the_run (w_core w) = None) by (by rewrite Ec in Hrun).
    assert (Hpre : forall t n, pre w' t n -> pre w t n) by (intros t n H; destruct t as [j|j|r]; [done| |done]; by destruct H).
    apply the_in_Some in Hin' as [Hi' Hx'].
    apply (cinv_quiet w); try done.
    + by apply (ids_same w); [apply Hinv|..].
    + intros j. by rewrite (fr_native _ _ Hfr).
    + intros j z q Hz Hq. destruct (decide (i = j)) as [<-|].
      * cbn in Hz. rewrite Hx' in Hz. injection Hz as <-. cbn in Hq. rewrite Hp in Hq. injection Hq as <-.
        apply sent_ok; try done; cbn; [|by rewrite Hb].
        intros n E. destruct (P6 n E) as (? & ? & ?). apply (waits_past w w' i _ n []); try done. by rewrite app_nil_r.
      * cbn in Hz. rewrite (fr_other _ _ Hfr) in Hz by congruence. eapply (input_stays w); [apply Hinv|exact Hq|by apply (inv_inputs _ Hinv)|].
        apply apart_same; try done; [intros _ pc [= E _]; done|auto|]. intros H. cbn in H. rewrite Hi' in H. congruence.
    + intros j pc [= <- _]. eexists. split; [exact Hx'|]. split; try done. auto.
    + intros a0 _ Hf0. pose proof (resend_handled (submitting w) i _ a0 Hf0) as H. rewrite Er in H. split; [by apply H|].
      intros j pc z [= <- _] _. by right.
    + unfold turn_id. cbn. by rewrite Hrun, Hrun0.
    + intros r y Hr Hy. cbn in Hr. rewrite Ec in Hr. by apply (inv_stop _ Hinv r y).
Qed.

Lemma resend_fail_inv w w' : inv w -> step MResendFail w = Some w' -> inv w'.
Proof.
  intros Hinv. cbn [CodexTurn.step]. destruct (resender w) as [[i pc]|] eqn:Hp; [|done]. destruct pc; try done.
  destruct (inv_res _ Hinv i _ Hp) as (x & Hx & [S1 (S2 & S3 & S4) S5 S6]).
  assert (Hw : waiting w <> WaitDone) by (intros H; destruct (inv_done _ Hinv H); congruence).
  destruct (inv_spec _ Hinv Hw) as (a & Ha & Hf & Hr). pose proof (Hr i _ x Hp Hx) as Hno. pose proof Hf as (Hs & Ht & Ho).
  destruct (proj2 (inv_subs _ Hinv i) (mk_is_Some _ _ Hx)) as [p Hpi]. pose proof (inv_inputs _ Hinv i x p Hx Hpi) as O.
  set (c' := if bool_decide (cur_in (w_core w) = Some i) then set_in None (w_core w) else w_core w).
  assert (Ei : ins c' = ins (w_core w)) by (unfold c'; by case_bool_decide).
  rewrite Ei, Hx. intros [= <-]. cbn [fmap option_fmap option_map default].
  set (e := ev_end (native x) "" TurnCancelled "" None). set (w' := set_resender None (log [Told e] (set_core c' w))).
  set (a' := mkSpec None (begun a) (native x :: over a) false).
  assert (Hnb : native x ∉ begun a).
  { intros (j & z & Hz & En & Hb)%(to_begun _ _ _ Ht). rewrite (inv_names _ Hinv j i z x Hz Hx En) in Hz. congruence. }
  assert (Hon : on a = None) by (rewrite Ho; unfold current; by rewrite S6).
  assert (Hc : fine (submitting w) c' a /\ frame (w_core w) c' /\ the_run c' = None /\ cur_in c' <> Some i /\ runs c' = runs (w_core w) /\ turn_id c' = turn_id (w_core w)).
  { unfold c'. case_bool_decide as Hi; [|by split_and!]. split_and!; try done.
    - apply (set_in_fine _ _ _ i); [done|done|]. intros z Hz. congruence.
    - apply frame_ins; auto. }
  destruct Hc as (Hf' & Hfr & Hrun & Hcur & Hruns & Hturn). destruct Hf' as (Hs' & Ht' & Ho').
  assert (Hsub : submitting w i).
  { exists p. split; [done|]. intros ->. by destruct (io_early _ _ _ _ O I). }
  assert (Hpre : forall t n, pre w' t n -> pre w t n) by (intros t n H; destruct t as [j|j|r]; [done| |done]; by destruct H).
  apply (inv_report w w' [] [e] a a'); try done.
  - by intros nat (? & ? & ?%not_elem_of_nil).
  - unfold accepts. cbn. unfold accept. rewrite (to_here _ _ _ Ht). cbn. rewrite Hon. cbn.
    by rewrite !bool_decide_eq_false_2 by done.
  - split; [done|]. split.
    + destruct Ht' as [T1 T2 T3]. split; cbn; [done| |done]. intros n [->|Hn]%elem_of_cons; [|auto]. exists i, x. by rewrite Ei.
    + change (None = current c'). unfold current. by rewrite Hrun.
  - apply (ids_report w w' [] [e]); try done; [apply Hinv|by intros n (? & ?%not_elem_of_nil & _)|by left].
  - cbn. rewrite Hturn, open_turn_app. cbn. by rewrite <- (inv_turn _ Hinv).
  - intros r y Hy Hst. cbn in Hy. rewrite Hruns in Hy. by apply (inv_stop _ Hinv r y).
  - intros e' ->%list_elem_of_singleton. right. by exists i, x.
  - intros j z q Hz Hq. cbn in Hz. rewrite Ei in Hz. destruct (decide (i = j)) as [<-|].
    + rewrite Hx in Hz. injection Hz as <-. rewrite Hpi in Hq. injection Hq as <-. destruct O as [O1 O2 O3 O4 O5 Of O6 O7 O8].
      assert (He : ~ early p) by (intros H; by apply O2).
      assert (Hn : ~ not_submitted p) by (intros H; destruct (O5 H) as [?|(_ & _ & _ & H')]; [done|by destruct (H' RsFail)]).
      apply sent_ok; try done.
      * apply sent_app. by left.
      * intros r E. by destruct (Of r E).
      * intros n E. destruct (O4 n E) as (W1 & W2 & W3). apply (waits_past w w' i _ n [Told e]); try done.
        -- intros H. destruct (W2 H) as (_ & _ & H' & _). by destruct (H' RsFail).
        -- intros H. destruct (W3 H) as (_ & _ & _ & H'). by destruct (H' RsFail).
      * intros H. destruct (O6 H) as (C1 & C2 & C3 & C4). split_and!; [lia|cbn; lia|done|auto|].
        intros [H'|(l & [=]%list_elem_of_singleton & _)]%asked_app. destruct (C4 H') as [t ?]. exists t. apply elem_of_app. by left.
      * by rewrite S2.
    + eapply (input_stays w); [apply Hinv|exact Hq|by apply (inv_inputs _ Hinv)|].
      apply (report_apart w w' j z [] [e]); try done.
      * by intros nat (? & ? & ?%not_elem_of_nil).
      * by intros m (? & ?%not_elem_of_nil & _).
      * intros e' ->%list_elem_of_singleton E. cbn in E. by rewrite (inv_names _ Hinv i j x z) in *.
      * cbn. intros H. destruct (fr_cur _ _ Hfr) as [E|E]; congruence.
Qed.

(** ** Interruptions, other requests, and the transport's ends *)

Lemma intr_on_inv w w1 r p p' : inv w -> same_but_calls w w1 -> w.(intrs) !! r = Some p -> (forall n, p' <> IntWrite n) -> inv (set_intr r p' w1).
Proof.
  intros Hinv H Hp Hw. apply (inv_still w); [done|by eapply still_intr; [apply Hinv|..]|].
  intros j x q Hx Hq. left. by destruct H as [->|[n ->]].
Qed.

Lemma interrupt_moves_inv m w w' : inv w ->
  match m with MIntNext _ | MIntSend _ | MIntWrite _ _ | MIntAnswered _ | MIntEnds _ => True | _ => False end ->
  step m w = Some w' -> inv w'.
Proof.
  intros Hinv Hm. destruct m; try done; clear Hm; cbn [CodexTurn.step].
  - destruct (intrs w !! r) as [p|] eqn:Hp; [|done]. destruct p; try done. intros [= <-].
    apply (intr_on_inv w w r IntNext); [done|by left|done|]. intros n. by case_bool_decide.
  - destruct (intrs w !! r) as [p|] eqn:Hp; [|done]. destruct p; try done. destruct (begin_call w) as [[n w1]|] eqn:Eb; intros [= <-].
    + apply (inv_still w); [done|by eapply still_call_intr; [apply Hinv|..]|]. intros j x q Hx Hq. left.
      apply call_subs in Eb as (Hs & _ & _). cbn in Hq. by rewrite Hs in Hq.
    + by apply (intr_on_inv w w r IntSend); [|left|..].
  - destruct (intrs w !! r) as [p|] eqn:Hp; [|done]. destruct p as [| |n| |]; try done. destruct (runs (w_core w) !! r) as [y|] eqn:Hy; [|done].
    destruct (stdinClosed w || fails); intros [= <-].
    { by apply (intr_on_inv w (drop_call n w) r (IntWrite n)); [|right; exists n|..]. }
    set (l := TurnInterrupt n (id y)). set (w' := set_intr r (IntWait n) (log [Wrote l] w)). pose proof (inv_ids _ Hinv) as Hids.
    assert (Hpre : forall t m, pre w' t m -> pre w t m) by (intros t m [[_ [=]]|H]%pre_intr; by destruct t).
    assert (Hgone : ~ pre w' (HInt r) n) by (intros H; cbn in H; by rewrite lookup_insert_eq in H).
    apply (inv_log w w' [Wrote l]); try done.
    + apply (ids_step w); try done; cbn; [auto|..].
      * intros t t' m Ht%Hpre _ Hm. apply (id_pre _ Hids) in Ht as [? _]. lia.
      * intros m [H|H%write_asked]%asked_app; [by left|right; right]. injection H as <-. by exists (HInt r).
      * auto.
      * intros m H. apply asked_app. by left.
      * auto.
    + by rewrite open_turn_app.
    + intros i pc Hpc. exists pc. split; [done|]. intros x _ (? & ? & [=]%list_elem_of_singleton).
    + intros z Hz. cbn. destruct (decide (r = z)) as [<-|]; [rewrite lookup_insert_eq; eauto|by rewrite lookup_insert_ne].
    + by intros nat (? & ? & [=]%list_elem_of_singleton).
    + apply sends_app; [apply Hinv|]. by intros nat (? & ? & [=]%list_elem_of_singleton).
    + intros j z p Hz Hpj. eapply (input_stays w); [done|exact Hpj|by apply (inv_inputs _ Hinv)|]. apply (write_apart w w' l); try done; [by left|eauto|auto|..].
      * by intros (? & ? & [=]%list_elem_of_singleton).
      * intros Hc H. assert (E : call z = n) by (cbn in H; congruence).
        destruct (io_call _ _ _ _ (inv_inputs _ Hinv j z _ Hz Hpj) Hc) as (_ & _ & H3 & _). rewrite E in H3.
        by destruct (H3 (HInt r) Hp) as [[=]|[=]].
  - destruct (intrs w !! r) as [p|] eqn:Hp; [|done]. destruct p as [| | |n|]; try done.
    destruct (answers w !! n) as [[]|]; [..|done]; intros [= <-]; by apply (intr_on_inv w w r (IntWait n)); [|left|..].
  - destruct (intrs w !! r) as [p|] eqn:Hp; [|done]. intros [= <-]. by apply (intr_on_inv w w r p); [|left|..].
Qed.
End Steps.
