(* ===== verification/CodexReads.v ===== *)
(** Every move of a codex transport's threads keeps the invariant: what it
    reads, a new Submit, and the transport's ends; and the transports that can
    be ([reachable]) all have it. *)
From Stdlib Require Import ZArith Ascii String Lia.
From stdpp Require Import base tactics list strings option gmap.
From S2P Require Import Prelude GoStr Bytes Json Contract Observation SessionState Proc Codex CodexTurn CodexHandlers CodexWorld CodexInv.
From S2P Require Import CodexSteps CodexMoves.

#[local] Open Scope string_scope.
#[local] Open Scope list_scope.
#[local] Open Scope Z_scope.

Section Steps.
Context (tryAgain : string -> option (string * string * string)) (reconnecting : string -> option (string * string)).
Context (local : Time -> Time) (date : Time -> Z -> Z -> Time) (next_day : Time -> Time).
Context (rate_json : RateLimitData -> option string).
Notation step := (step tryAgain reconnecting local date next_day rate_json false).
Notation onNotification := (onNotification tryAgain reconnecting local date next_day rate_json).

Lemma other_call_inv w w' : inv w -> step MOtherCall w = Some w' -> inv w'.
Proof.
  intros Hinv. cbn [CodexTurn.step]. destruct (begin_call w) as [[n w1]|] eqn:Eb; [|done]. apply begin_call_spec in Eb as (-> & -> & _).
  pose proof (inv_ids _ Hinv) as Hids. set (n := nextID w + 1). set (w1 := set_calls ({[n]} ∪ calls w) (set_nextID n w)).
  assert (Hnew : forall w', (forall t m, pre w' t m -> pre w t m) -> forall t t' m, pre w' t m -> pre w' t' m -> nextID w < m -> t = t').
  { intros w0 Hpre t t' m Ht%Hpre _ Hm. apply (id_pre _ Hids) in Ht as [? _]. lia. }
  destruct (stdinClosed w1); intros [= <-].
  - apply (inv_still w); [done| |by left]. assert (Hpre : forall t m, pre (drop_call n w1) t m -> pre w t m) by by intros [].
    split; try done; [eauto|..].
    + intros m Hm. left. cbn in Hm. set_solver.
    + cbn. lia.
    + intros t m H. left. auto.
    + by apply Hnew.
  - set (w' := log [Wrote (OtherRequest n)] w1). assert (Hpre : forall t m, pre w' t m -> pre w t m) by by intros [].
    apply (inv_log w w' [Wrote (OtherRequest n)]); try done.
    + apply (ids_step w); try done; cbn; [lia|auto|by apply Hnew|..].
      * intros m [H|H%write_asked]%asked_app; [by left|right; left]. cbn in H. injection H as <-. split; [lia|].
        intros t Ht%Hpre. apply (id_pre _ Hids) in Ht as [? _]. lia.
      * intros m [->%elem_of_singleton|?]%elem_of_union; [right; lia|by left].
      * intros m H. apply asked_app. by left.
      * auto.
    + by rewrite open_turn_app.
    + intros i pc Hpc. exists pc. split; [done|]. intros x _ (? & ? & [=]%list_elem_of_singleton).
    + by intros nat (? & ? & [=]%list_elem_of_singleton).
    + apply sends_app; [apply Hinv|]. by intros nat (? & ? & [=]%list_elem_of_singleton).
    + intros j z p Hz Hpj. eapply (input_stays w); [done|exact Hpj|by apply (inv_inputs _ Hinv)|].
      apply (write_apart w w' (OtherRequest n)); try done; [|cbn; lia|eauto|auto|..].
      * right. intros m [->%elem_of_singleton|?]%elem_of_union; [right; cbn; lia|by left].
      * by intros (? & ? & [=]%list_elem_of_singleton).
      * intros Hc [= H]. destruct (io_call _ _ _ _ (inv_inputs _ Hinv j z _ Hz Hpj) Hc) as (? & _). lia.
Qed.

Lemma ends_inv m w w' : inv w ->
  match m with MCloseStdin | MStop | MKill | MExit | MWaitStdin | MWaitCalls => True | _ => False end -> step m w = Some w' -> inv w'.
Proof.
  intros Hinv Hm. pose proof (inv_ids _ Hinv) as Hids.
  assert (H : forall w', still w w' -> subs w' = subs w -> inv w').
  { intros w1 Hst Hs. apply (inv_still w); [done..|]. intros i x p Hx Hp. left. by rewrite <- Hs. }
  destruct m; try done; cbn [CodexTurn.step]; [intros [= <-]..| | |]; [by apply H; [apply still_ends|]..| | |].
  all: case_bool_decide as Hw; [|done]; intros [= <-]; apply H; [apply still_ends; try done; cbn; try (rewrite Hw; by split)|done].
  intros n. rewrite lookup_union_Some_raw. intros [Hn|[_ Hn]]; [|done].
  apply lookup_set_to_map in Hn as (? & _ & [=]). by intros ? ? _ _ E.
Qed.

(** Exited is the last report. *)
Lemma report_exit_inv ps err stderr w w' : inv w -> step (MWaitReport ps err stderr) w = Some w' -> inv w'.
Proof.
  intros Hinv. cbn [CodexTurn.step]. case_bool_decide as Hw; [|done]. destruct (resender w) eqn:Hr; [done|]. cbn [is_none andb]. intros [= <-].
  set (e := ev_exited _). set (w' := set_waiting WaitDone (log [Told e] w)).
  assert (Hw' : waiting w <> WaitDone) by congruence. destruct (inv_spec _ Hinv Hw') as (a & Ha & (_ & Ht & _) & _).
  assert (Hids : ids_ok w') by (apply (ids_report w w' [] [e]); try done; [apply Hinv|by intros n (? & ?%not_elem_of_nil & _)|by left]).
  split; try done; try apply Hinv.
  - intros i x p Hx Hp. eapply (input_stays w); [apply Hinv|exact Hp|by apply (inv_inputs _ Hinv)|].
    apply (report_apart w w' i x [] [e]); try done.
    + by intros nat (? & ? & ?%not_elem_of_nil).
    + by intros m (? & ?%not_elem_of_nil & _).
    + intros e' ->%list_elem_of_singleton E. by apply (inv_named _ Hinv i x Hx).
  - intros i pc H. cbn in H. congruence.
  - intros nat [[H|H]%sent_app|[H|H]%named_app].
    + apply (inv_told _ Hinv). by left.
    + by apply (sent_told [e]) in H.
    + apply (inv_told _ Hinv). by right.
    + apply (named_told [e]) in H as (e' & ->%list_elem_of_singleton & <-). by left.
  - intros _. split; [done|]. cbn [hist log set_waiting w']. rewrite reports_app, accepts_app, Ha. cbn. unfold accepts. cbn. unfold accept.
    rewrite (to_here _ _ _ Ht). cbn. by eexists.
  - cbn. rewrite open_turn_app. cbn. apply Hinv.
  - apply sends_app; [apply Hinv|]. apply (sent_told [e]).
Qed.

(** ** A new input *)

Lemma add_in_fine Q c a i x : fine Q c a -> c.(ins) !! i = None -> x.(native) <> "" ->
  (forall j z, c.(ins) !! j = Some z -> native z <> native x) -> fine Q (add_in i x c) a.
Proof.
  intros ([S1 S2 S3 S4 S5] & [T1 T2 T3] & Ho) Hi Hne Hx.
  assert (Hl : forall j z, ins c !! j = Some z -> <[i := x]> (ins c) !! j = Some z).
  { intros j z Hz. rewrite lookup_insert_ne; [done|]. intros ->. congruence. }
  assert (E : the_in (add_in i x c) = the_in c).
  { unfold the_in. cbn. destruct (cur_in c) as [j|] eqn:Ej; [cbn|done]. destruct (S1 j eq_refl) as [[z Hz] _]. by rewrite (Hl j z Hz), Hz. }
  assert (Hl' : forall j z, <[i := x]> (ins c) !! j = Some z -> j = i /\ z = x \/ ins c !! j = Some z).
  { intros j z. destruct (decide (i = j)) as [<-|]; [rewrite lookup_insert_eq; intros [= <-]; by left|rewrite lookup_insert_ne by done; by right]. }
  split; [|split].
  - split; try done; cbn.
    + intros j Hj. destruct (S1 j Hj) as [[z Hz] ?]. split; [|done]. rewrite (Hl j z Hz). eauto.
    + intros j k y z [[-> ->]|Hy]%Hl' [[-> ->]|Hz]%Hl' En; [done| | |by eapply S3].
      * by apply Hx in Hz.
      * symmetry in En. by apply Hx in Hy.
    + intros j z [[-> ->]|Hz]%Hl'; [done|eauto].
    + change (ok_view (the_in (add_in i x c)) (the_run c)). by rewrite E.
  - split; [..|done]; cbn.
    + intros n (j & z & Hz & ?)%T1. exists j, z. split; [by apply Hl|done].
    + intros n (j & z & Hz & ?)%T2. exists j, z. split; [by apply Hl|done].
  - rewrite Ho. unfold current. by rewrite E.
Qed.

Lemma submit_inv nat t w w' : inv w -> nat <> "" -> (forall i x, w.(w_core).(ins) !! i = Some x -> native x <> nat) ->
  step (MSubmit nat t) w = Some w' -> inv w'.
Proof.
  intros Hinv Hne Hnew. cbn [CodexTurn.step]. intros [= <-]. set (i := fresh (dom (ins (w_core w)))). set (x := new_input nat t).
  assert (Hi : ins (w_core w) !! i = None) by (apply not_elem_of_dom, is_fresh).
  assert (Hpi : subs w !! i = None).
  { destruct (subs w !! i) as [p|] eqn:E; [|done]. destruct (proj1 (inv_subs _ Hinv i) (mk_is_Some _ _ E)) as [? ?]. congruence. }
  set (w' := set_sub i SubYield (set_core (add_in i x (w_core w)) w)).
  assert (Hpre : forall t m, pre w' t m -> pre w t m) by (intros u m [[_ [[=]|[=]]]|H]%pre_sub; by destruct u).
  assert (Hold : forall j z, ins (w_core w') !! j = Some z -> j = i /\ z = x \/ j <> i /\ ins (w_core w) !! j = Some z).
  { intros j z. cbn. destruct (decide (i = j)) as [<-|]; [rewrite lookup_insert_eq; intros [= <-]; by left|rewrite lookup_insert_ne by done; by right]. }
  assert (Hkeep : forall j z, ins (w_core w) !! j = Some z -> ins (w_core w') !! j = Some z).
  { intros j z Hz. cbn. rewrite lookup_insert_ne; [done|]. intros ->. congruence. }
  assert (Hclean : ~ sent (hist w) nat /\ ~ named (hist w) nat).
  { split; intros H; destruct (inv_told _ Hinv nat) as [?|(j & z & Hz & E)]; auto; by eapply Hnew. }
  assert (Hres : forall j pc, resender w = Some (j, pc) -> j <> i).
  { intros j pc Hpc ->. destruct (inv_res _ Hinv _ _ Hpc) as (z & Hz & _). congruence. }
  split; try done; try apply Hinv.
  - by apply (ids_same w); [apply Hinv|..].
  - intros j. cbn. destruct (decide (i = j)) as [<-|]; [rewrite !lookup_insert_eq; split; by eexists|rewrite !lookup_insert_ne by done; apply Hinv].
  - intros j z [[-> ->]|[_ Hz]]%Hold; [done|by apply (inv_named _ Hinv j)].
  - intros j k y z [[-> ->]|[_ Hy]]%Hold [[-> ->]|[_ Hz]]%Hold E; [done| | |by eapply (inv_names _ Hinv)].
    + by apply Hnew in Hz.
    + by apply Hnew in Hy.
  - intros j z p [[-> ->]|[Hj Hz]]%Hold Hp; cbn in Hp.
    + rewrite lookup_insert_eq in Hp. injection Hp as <-. split; try done; [|intros _; apply Hclean|by intros [?|?]]. intros _. split_and!; try done; [apply Hclean|].
      intros pc Hpc. by apply (Hres i pc).
    + rewrite lookup_insert_ne in Hp by done. eapply (input_stays w); [apply Hinv|exact Hp|by apply (inv_inputs _ Hinv)|]. by apply apart_same; auto.
  - intros j pc Hpc. destruct (inv_res _ Hinv j pc Hpc) as (z & Hz & [S1 S2 S3 S4]). exists z. split; [by apply Hkeep|]. by split.
  - intros n H. destruct (inv_told _ Hinv n H) as [?|(j & z & Hz & E)]; [by left|right]. exists j, z. split; [by apply Hkeep|done].
  - intros H. destruct (inv_spec _ Hinv H) as (a & Ha & Hf & Hr). exists a. split_and!; [done|..].
    + apply (fine_mono (submitting w)).
      * intros j (p & Hp & ?). exists p. split; [|done]. cbn. rewrite lookup_insert_ne; [done|]. intros ->. congruence.
      * by apply add_in_fine.
    + intros j pc z Hpc [[-> ->]|[_ Hz]]%Hold; [by destruct (Hres i pc)|by eapply Hr].
Qed.

(** ** What is read *)

Lemma onNotification_idle now method n c a Q : fine Q c a -> the_in c = None ->
  forall e, e ∈ (onNotification now method n c).1.2 -> e.(ev_native) = "".
Proof.
  intros (Hs & _ & _) Hi. assert (Hy : forall r y, the_run c = Some (r, y) -> in_ y = None).
  { intros r y Hr. destruct (sh_view _ _ Hs) as [_ V]. destruct (V r y Hr) as [_ V']. destruct (in_ y) as [j|]; [|done].
    destruct V' as (_ & z & E & _). congruence. }
  assert (Hnil : forall e : Event, e ∈ [] -> ev_native e = "") by (intros e He; by apply not_elem_of_nil in He).
  assert (Hone : forall e0 : Event, ev_native e0 = "" -> forall e, e ∈ [e0] -> ev_native e = "") by (intros e0 H e He; by apply list_elem_of_singleton in He as ->).
  unfold CodexTurn.onNotification. destruct (method =? "turn/started")%string.
  { unfold turn_started. destruct (n_Turn n) as [t|]; [|done]. destruct (_ || _); [done|].
    change (the_in (set_chain _ _ _)) with (the_in c). rewrite Hi. by apply Hone. }
  assert (Hitem : forall b e, e ∈ (item_seen b n c).1.2 -> ev_native e = "").
  { intros b. unfold item_seen. destruct (n_Item n) as [it|]; [|done]. destruct (the_run c) as [[r y]|]; [|done]. rewrite Hi.
    destruct (_ && _); [done|]. destruct (it_Type it =? "userMessage")%string; [done|]. by destruct (_ && _). }
  destruct (method =? "item/started")%string; [apply Hitem|]. destruct (method =? "item/completed")%string; [apply Hitem|].
  destruct (method =? "turn/completed")%string.
  { unfold CodexTurn.turn_completed. destruct (n_Turn n) as [t|]; [|done]. destruct (the_run c) as [[r y]|] eqn:Hr; [|done].
    destruct (negb _); [done|]. rewrite (Hy r y eq_refl). change (the_in (set_chain _ _ _)) with (the_in c). rewrite Hi. by apply Hone. }
  destruct (method =? "error")%string.
  { unfold CodexTurn.error_seen. cbn [fst snd]. destruct (n_Error n) as [er|]; [|done]. destruct (the_run c) as [[r y]|] eqn:Hr; [|done]. by rewrite (Hy r y eq_refl). }
  destruct (method =? "account/rateLimits/updated")%string.
  { unfold limits_updated. destruct (n_RateLimits n) as [u|]; [|done]. destruct (the_run c) as [[r y]|] eqn:Hr; [rewrite (Hy r y eq_refl)|]; by apply Hone. }
  intros e. repeat match goal with |- e ∈ (if ?b then _ else _).1.2 -> _ => destruct b end; apply Hnil.
Qed.

Lemma emit_fields c evs stop w : let w' := emit (c, evs, stop) w in
  w'.(w_core) = c /\ w'.(hist) = w.(hist) ++ map Told evs /\ w'.(subs) = w.(subs) /\ w'.(resender) = w.(resender) /\ w'.(waiting) = w.(waiting) /\
  w'.(calls) = w.(calls) /\ w'.(answers) = w.(answers) /\ w'.(nextID) = w.(nextID) /\ (forall t n, pre w' t n -> pre w t n) /\
  (forall r, is_Some (w.(intrs) !! r) -> is_Some (w'.(intrs) !! r)) /\ (forall r, stop = Some r -> is_Some (w'.(intrs) !! r)).
Proof.
  unfold emit. destruct stop as [z|]; cbn [spawn]; split_and!; try done.
  - intros t n [[_ [=]]|H]%pre_intr. by destruct t.
  - intros r Hr. cbn. destruct (decide (z = r)) as [<-|]; [rewrite lookup_insert_eq; eauto|by rewrite lookup_insert_ne].
  - intros r [= <-]. cbn. rewrite lookup_insert_eq. eauto.
Qed.

Lemma read_nothing m : (forall nat, ~ sent [Read m] nat) /\ (forall n, ~ asked [Read m] n) /\ reports [Read m] = [].
Proof. split_and!; [by intros nat (? & ? & [=]%list_elem_of_singleton)|by intros n (? & [=]%list_elem_of_singleton & _)|done]. Qed.

(** A notification, of the input in hand. *)
Lemma notify_input w w' i x x' p method n evs : inv w -> w.(w_core).(ins) !! i = Some x -> w.(subs) !! i = Some p -> w.(w_core).(cur_in) = Some i ->
  honest w.(hist) (Notify method n) -> w'.(hist) = w.(hist) ++ [Read (Notify method n)] ++ map Told evs ->
  w'.(calls) = w.(calls) -> w'.(answers) = w.(answers) -> w'.(nextID) = w.(nextID) -> w'.(resender) = None ->
  (forall t m, pre w' t m -> pre w t m) -> (w'.(w_core).(cur_in) = Some i -> w.(w_core).(cur_in) = Some i) ->
  in_after n x evs x' -> (forall e, e ∈ evs -> e.(ev_native) = "" \/ e.(ev_native) = x.(native) /\ (x.(answered) = true \/ x'.(bound) = true)) ->
  input_ok w' i x' p.
Proof.
  intros Hinv Hx Hp Hi Hh Eh Ec Ea En Er Hpre Hcur Haf Hev. pose proof (inv_inputs _ Hinv i x p Hx Hp) as O.
  destruct (read_nothing (Notify method n)) as (N1 & N2 & N3). pose proof (inv_named _ Hinv i x Hx) as Hne.
  assert (Hs' : sent (hist w) (native x) -> sent (hist w') (native x)) by (intros H; rewrite Eh; apply sent_app; by left).
  assert (Hask : forall m, asked (hist w') m -> asked (hist w) m).
  { intros m. rewrite Eh. intros [?|[H|H]%asked_app]%asked_app; [done|by apply N2 in H|by apply asked_told in H]. }
  assert (Hun : unresent w' i) by (intros pc; by rewrite Er).
  assert (Hnosend : ~ sent ([Read (Notify method n)] ++ map Told evs) (native x)) by (intros [H|H]%sent_app; [by eapply N1|by eapply sent_told]).
  destruct (answered x) eqn:Hans.
  - destruct (answered_past w i x p Hinv Hx Hp Hi Hans) as (P1 & P2 & P3 & P4 & P5 & P6).
    assert (Hw : forall z m, p = SubWait m -> waits w' i z m).
    { intros z m E. destruct (P6 m E) as (? & ? & ?). eapply waits_past; [done|by rewrite Ec|by rewrite Ea|exact Eh]. }
    assert (Hag : again x <> None -> held x = false -> dropped (hist w') (native x)).
    { intros H1 H2. rewrite Eh. apply dropped_app; [|done]. by apply (io_again _ _ _ _ O). }
    destruct Haf as [|Hb Hu|wt Ha|wt e Ha He Hd]; apply sent_ok; cbn; auto; try done.
    intros _. split; [done|]. intros _. rewrite Eh. apply (dropped_now _ _ e); [|done|done].
    apply elem_of_app. right. apply list_elem_of_fmap. by exists e.
  - assert (Hnag : again x = None).
    { destruct (again x) eqn:E; [|done]. destruct (io_again _ _ _ _ O) as [H _]; [by rewrite E|congruence]. }
    assert (Hx' : x' = x \/ x' = in_bound x /\ user_message n (native x)).
    { destruct Haf as [|Hb [?|Hu]|wt Ha|wt e Ha He Hd]; [by left|congruence|by right|congruence|congruence]. }
    assert (Hecho : user_message n (native x) -> echoed (hist w') (native x)).
    { intros H. exists method, n. split; [|done]. rewrite Eh. apply elem_of_app. right. apply elem_of_app. left. by apply list_elem_of_singleton. }
    destruct (decide (sent (hist w) (native x))) as [Hse|Hse].
    + assert (He : ~ early p) by (intros H; by apply (io_early _ _ _ _ O)).
      assert (Hn : ~ not_submitted p) by (intros H; destruct (io_not _ _ _ _ O H) as [?|[? _]]; done).
      assert (Hc : call x <> 0 -> 0 < call x <= nextID w' /\ answered x = false /\ (forall t, pre w' t (call x) -> t = HSub i \/ t = HRes i) /\
        (asked (hist w') (call x) -> exists t, Wrote (TurnStart (call x) (native x) t) ∈ hist w')).
      { intros H. destruct (io_call _ _ _ _ O H) as (C1 & C2 & C3 & C4). rewrite En. split_and!; [lia|lia|done|auto|].
        intros H'. destruct (C4 (Hask _ H')) as [t ?]. exists t. rewrite Eh. apply elem_of_app. by left. }
      assert (Hw : forall m, p = SubWait m -> waits w' i x' m).
      { intros m E. destruct (io_wait _ _ _ _ O m E) as (W1 & W2 & W3). split_and!.
        - rewrite Eh. apply asked_app. by left.
        - rewrite Ec. intros H. destruct (W2 H) as (V1 & V2 & V3 & V4).
          assert (Hb : bound x' = true \/ ~ named (hist w') (native x)).
          { destruct (bound x') eqn:Eb; [by left|right]. rewrite Eh. intros [H'|[(e & [=]%list_elem_of_singleton & _)|(e & He' & Ee)%named_told]%named_app]%named_app.
            - destruct V4 as [V4|V4]; [|done]. destruct Hx' as [->|[-> _]]; cbn in Eb; congruence.
            - destruct (Hev e He') as [E'|[_ [?|?]]]; [congruence|done|done]. }
          destruct Hx' as [->|[-> _]]; by split_and!.
        - rewrite Ea. intros H. by destruct (W3 H) as [? _]. }
      assert (Hf : forall r, p <> SubForget r) by (intros r E; by destruct (io_forget _ _ _ _ O r E)).
      assert (Hb : bound x = true -> echoed (hist w') (native x)).
      { intros H. destruct (io_bound _ _ _ _ O H) as [?|?]; [congruence|]. rewrite Eh. apply echoed_app. by left. }
      destruct Hx' as [->|[-> Hu]]; apply sent_ok; cbn; auto; done.
    + assert (Hno : ~ user_message n (native x)) by (intros H; by apply Hse, (ho_own _ _ Hh method n)).
      destruct Hx' as [->|[-> Hu]]; [|done]. eapply (input_stays w); [apply Hinv|done|done|].
      apply (report_apart w w' i x [Read (Notify method n)] evs); try done.
      * intros e He E. destruct (io_unsent _ _ _ _ O Hse) as (? & _). destruct (Hev e He) as [?|[_ [?|?]]]; congruence.
      * by rewrite Ec.
      * by rewrite Ea.
Qed.

Lemma one_turn w method n a : inv w -> fine (submitting w) w.(w_core) a -> honest w.(hist) (Notify method n) ->
  method = "turn/started" -> forall t, n.(n_Turn) = Some t -> t.(ti_ID) <> "" ->
  the_run w.(w_core) = None \/ exists r y, the_run w.(w_core) = Some (r, y) /\ y.(id) = t.(ti_ID).
Proof.
  intros Hinv (Hs & _) Hh -> t Ht Hne. pose proof (inv_turn _ Hinv) as E. unfold turn_id in E.
  destruct (the_run (w_core w)) as [[r y]|]; [right; exists r, y; split; [done|]|by left]. cbn in E.
  destruct (ho_one _ _ Hh n t eq_refl Ht Hne) as [H|H]; rewrite H in E; congruence.
Qed.

(** What a handler that heard [m] leaves of the rest. *)
Lemma inv_heard w m a a' c' evs stop w1 : inv w -> w.(waiting) <> WaitDone -> w.(resender) = None ->
  w1.(hist) = w.(hist) ++ [Read m] -> w1.(subs) = w.(subs) -> w1.(resender) = None -> w1.(waiting) = w.(waiting) -> w1.(nextID) = w.(nextID) ->
  w1.(intrs) = w.(intrs) -> w1.(calls) ⊆ w.(calls) ->
  (forall n, w1.(answers) !! n = Some Refused -> w.(answers) !! n = Some Refused \/ asked w.(hist) n) ->
  accepts spec0 (reports w.(hist)) = Some a -> accepts a evs = Some a' -> fine (submitting w) c' a' -> frame w.(w_core) c' ->
  stops w.(w_core) (c', evs, stop) -> turn_id c' = open_turn (w.(hist) ++ [Read m]) ->
  (forall e, e ∈ evs -> e.(ev_native) = "" \/ exists i x, w.(w_core).(ins) !! i = Some x /\ x.(native) = e.(ev_native)) ->
  (forall i x p, c'.(ins) !! i = Some x -> w.(subs) !! i = Some p -> input_ok (emit (c', evs, stop) w1) i x p) -> inv (emit (c', evs, stop) w1).
Proof.
  intros Hinv Hw Hr E1 E2 E3 E4 E5 E6 E7 E8 Ha Ha' Hf Hfr Hst Ht Hev Hin.
  destruct (emit_fields c' evs stop w1) as (F1 & F2 & F3 & F4 & F5 & F6 & F7 & F8 & F9 & F10 & F11). set (w' := emit (c', evs, stop) w1) in *.
  destruct (read_nothing m) as (N1 & N2 & N3). assert (Eh : hist w' = hist w ++ [Read m] ++ map Told evs) by (rewrite F2, E1; by rewrite (assoc_L app)).
  assert (Hpre : forall t n, pre w' t n -> pre w t n).
  { intros t n H. apply F9 in H. destruct t; cbn in *; rewrite ?E2, ?E3, ?E6, ?Hr in *; done. }
  apply (inv_report w w' [Read m] evs a a'); try done.
  - by rewrite F5.
  - by rewrite F1.
  - by rewrite F1.
  - by rewrite F3.
  - by rewrite F4.
  - apply (ids_report w w' [Read m] evs); try done; [apply Hinv|by rewrite F8|by rewrite F6|by rewrite F7].
  - rewrite F1, Ht, Eh, (assoc_L app). symmetry. apply open_turn_told.
  - intros r y Hry Hy. rewrite F1 in Hry. destruct (Hst r y Hry Hy) as [->|(y0 & H1 & H2)]; [by apply F11|].
    apply F10. rewrite E6. by apply (inv_stop _ Hinv r y0).
  - rewrite F1. done.
Qed.

Lemma heard_pre w w1 c' evs stop : w1.(subs) = w.(subs) -> w1.(resender) = w.(resender) -> w1.(intrs) = w.(intrs) ->
  forall t n, pre (emit (c', evs, stop) w1) t n -> pre w t n.
Proof.
  intros E1 E2 E3 t n H. apply (proj1 (proj2 (proj2 (proj2 (proj2 (proj2 (proj2 (proj2 (proj2 (emit_fields c' evs stop w1)))))))))) in H.
  destruct t; cbn in *; by rewrite ?E1, ?E2, ?E3 in *.
Qed.

(** An input that is not in hand hears of nothing but an answer. *)
Lemma aside_input w w' m j z p evs : inv w -> w.(w_core).(ins) !! j = Some z -> w.(subs) !! j = Some p ->
  w'.(hist) = w.(hist) ++ [Read m] ++ map Told evs -> (forall e, e ∈ evs -> e.(ev_native) <> native z) ->
  w'.(calls) ⊆ w.(calls) -> (forall n, p = SubWait n -> w'.(answers) !! n = Some Refused -> w.(answers) !! n = Some Refused) ->
  w'.(nextID) = w.(nextID) -> w'.(resender) = None -> (forall t n, pre w' t n -> pre w t n) ->
  (w'.(w_core).(cur_in) = Some j -> w.(w_core).(cur_in) = Some j) -> input_ok w' j z p.
Proof.
  intros Hinv Hz Hp Eh Hev Ec Ha En Er Hpre Hcur. destruct (read_nothing m) as (N1 & N2 & N3).
  eapply (input_stays w); [apply Hinv|exact Hp|by apply (inv_inputs _ Hinv)|]. apply (report_apart w w' j z [Read m] evs); try done.
  intros n H. apply Ha. congruence.
Qed.

Lemma notify_inv method n now w : inv w -> w.(waiting) <> WaitDone -> w.(resender) = None -> honest w.(hist) (Notify method n) ->
  inv (emit (onNotification now method n w.(w_core)) (log [Read (Notify method n)] w)).
Proof.
  intros Hinv Hw Hr Hh. set (w1 := log [Read (Notify method n)] w). destruct (inv_spec _ Hinv Hw) as (a & Ha & Hf & _).
  pose proof (onNotification_handled tryAgain reconnecting local date next_day rate_json (submitting w) now method n (w_core w) a Hf
    (one_turn w method n a Hinv Hf Hh)) as HH.
  destruct (onNotification_runs tryAgain reconnecting local date next_day rate_json now method n (w_core w) a _ Hf) as [Hst Ht].
  pose proof (fun i x => onNotification_effect tryAgain reconnecting local date next_day rate_json (submitting w) now method n (w_core w) a i x Hf) as HE.
  pose proof (onNotification_idle now method n (w_core w) a _ Hf) as HI.
  destruct (onNotification now method n (w_core w)) as [[c' evs] stop] eqn:Eo. cbn [fst snd] in *.
  destruct HH as (a' & Ha' & Hs' & Ht' & Ho' & Hfr).
  assert (Hev : forall j z, ins (w_core w) !! j = Some z -> cur_in (w_core w) <> Some j -> forall e, e ∈ evs -> ev_native e <> native z).
  { intros j z Hz Hj e He E. pose proof (inv_named _ Hinv j z Hz) as Hne. destruct (the_in (w_core w)) as [[i x]|] eqn:Hi.
    - destruct (HE i x eq_refl) as (x' & _ & _ & Hn). apply the_in_Some in Hi as [Hi Hx]. destruct (Hn e He) as [?|[E' _]]; [congruence|].
      apply Hj. rewrite (inv_names _ Hinv j i z x Hz Hx); congruence.
    - rewrite (HI eq_refl e He) in E. congruence. }
  assert (Hturn : turn_id c' = open_turn (hist w ++ [Read (Notify method n)])).
  { rewrite Ht, open_turn_app. cbn. by rewrite (inv_turn _ Hinv). }
  apply (inv_heard w (Notify method n) a a'); try done; [by left| |].
  { intros e He. destruct (the_in (w_core w)) as [[i x]|] eqn:Hi; [|left; by apply HI].
    destruct (HE i x eq_refl) as (x' & _ & _ & Hn). apply the_in_Some in Hi as [Hi Hx]. destruct (Hn e He) as [?|[E' _]]; [by left|right; eauto]. }
  destruct (emit_fields c' evs stop w1) as (F1 & F2 & F3 & F4 & F5 & F6 & F7 & F8 & F9 & F10 & F11).
  assert (Eh : hist (emit (c', evs, stop) w1) = hist w ++ [Read (Notify method n)] ++ map Told evs) by (rewrite F2; cbn; by rewrite <- (assoc_L app)).
  assert (Hcur : forall j, cur_in c' = Some j -> cur_in (w_core w) = Some j) by (intros j H; destruct (fr_cur _ _ Hfr) as [E|E]; congruence).
  intros j z p Hz Hp. destruct (decide (cur_in (w_core w) = Some j)) as [Hj|Hj].
  - destruct (proj1 (inv_subs _ Hinv j) (mk_is_Some _ _ Hp)) as [x Hx].
    destruct (HE j x) as (x' & Hx' & Haf & Hn); [by apply the_in_Some|]. rewrite Hz in Hx'. injection Hx' as <-.
    apply (notify_input w _ j x z p method n evs); try done; first [by rewrite F4|by rewrite F6|by rewrite F7|by rewrite F8|by apply heard_pre|rewrite F1; auto].
  - rewrite (fr_other _ _ Hfr) in Hz by done.
    apply (aside_input w _ (Notify method n) j z p evs); try done; first [by eapply Hev|by rewrite F6|by rewrite F7|by rewrite F4|by rewrite F8|by apply heard_pre|rewrite F1; auto].
Qed.

(** What an answer leaves of the calls. *)
Record answered_calls (w w' : world) (k : Z) (turn : option string) : Prop := mkAnsweredCalls {
  ac_calls : w'.(calls) ⊆ w.(calls);
  ac_gone : k ∉ w'.(calls);
  ac_answers : forall n, w'.(answers) !! n = Some Refused -> w.(answers) !! n = Some Refused \/ n = k /\ k ∈ w.(calls) /\ turn = None;
  ac_next : w'.(nextID) = w.(nextID);
  ac_res : w'.(resender) = None;
  ac_pre : forall t n, pre w' t n -> pre w t n }.

(** A refused request's input was bound to no turn. *)
Lemma refused_unbound w j z p k : inv w -> w.(w_core).(ins) !! j = Some z -> w.(subs) !! j = Some p -> honest w.(hist) (Answer k None) ->
  call z = k -> z.(answered) = false /\ z.(bound) = false.
Proof.
  intros Hinv Hz Hp Hh E. pose proof (inv_inputs _ Hinv j z p Hz Hp) as O. pose proof (ho_asked _ _ Hh k None eq_refl) as Hk.
  pose proof (id_asked _ (inv_ids _ Hinv) k Hk). destruct (io_call _ _ _ _ O) as (C1 & C2 & C3 & C4); [lia|]. split; [done|].
  destruct (bound z) eqn:Hb; [|done]. destruct (io_bound _ _ _ _ O Hb) as [?|He]; [congruence|]. rewrite E in C4.
  destruct (C4 Hk) as [t Ht]. by destruct (ho_refused _ _ Hh k (native z) t eq_refl Ht).
Qed.

Lemma answer_aside w w' j z p k turn evs : inv w -> w.(w_core).(ins) !! j = Some z -> w.(subs) !! j = Some p -> honest w.(hist) (Answer k turn) ->
  w'.(hist) = w.(hist) ++ [Read (Answer k turn)] ++ map Told evs -> answered_calls w w' k turn ->
  (w'.(w_core).(cur_in) = Some j -> w.(w_core).(cur_in) = Some j) -> (forall e, e ∈ evs -> e.(ev_native) <> native z) ->
  (w.(w_core).(cur_in) = Some j -> call z <> k) -> input_ok w' j z p.
Proof.
  intros Hinv Hz Hp Hh Eh [A1 A2 A3 A4 A5 A6] Hcur Hev Hk. destruct (read_nothing (Answer k turn)) as (N1 & N2 & N3).
  pose proof (inv_inputs _ Hinv j z p Hz Hp) as O.
  assert (Hnm : ~ named (hist w) (native z) -> ~ named (hist w') (native z)).
  { intros H. rewrite Eh. intros [?|[(e & [=]%list_elem_of_singleton & _)|(e & He & E)%named_told]%named_app]%named_app; [done|by apply (Hev e)]. }
  assert (Hap : forall n, p = SubWait n -> w'.(answers) !! n = Some Refused -> w.(answers) !! n = Some Refused \/ never w' j z).
  { intros n E H. destruct (A3 n H) as [?|(-> & Hc & ->)]; [by left|right]. destruct (io_wait _ _ _ _ O k E) as (W1 & W2 & W3).
    destruct (W2 Hc) as (V1 & V2 & V3 & V4). destruct (refused_unbound w j z p k Hinv Hz Hp Hh V1) as [_ Hb].
    split_and!; [intros H'; by apply (Hk (Hcur H'))|done| |intros pc; by rewrite A5]. apply Hnm. destruct V4; congruence. }
  assert (Hcase : (exists n, p = SubWait n /\ w'.(answers) !! n = Some Refused /\ w.(answers) !! n <> Some Refused) \/
    forall n, p = SubWait n -> w'.(answers) !! n = Some Refused -> w.(answers) !! n = Some Refused).
  { destruct p as [| | | |n| |]; try (by right). destruct (decide (answers w' !! n = Some Refused)); [|right; intros m [= <-] ?; done].
    destruct (decide (answers w !! n = Some Refused)); [right; intros m [= <-] ?; done|left; by exists n]. }
  destruct Hcase as [(n & E & Hn & Hno)|Hn].
  - destruct (Hap n E Hn) as [?|Hnev]; [done|]. destruct (io_wait _ _ _ _ O n E) as (W1 & W2 & W3).
    destruct (A3 n Hn) as [?|(-> & Hc & ->)]; [done|]. destruct (W2 Hc) as (V1 & _).
    pose proof (id_asked _ (inv_ids _ Hinv) k W1).
    destruct (io_call _ _ _ _ O) as (C1 & C2 & C3 & C4); [lia|]. rewrite V1 in C4. destruct (C4 W1) as [t Ht].
    assert (Hs0 : sent (hist w) (native z)) by (by exists k, t).
    assert (Hs : sent (hist w') (native z)) by (rewrite Eh; apply sent_app; by left).
    assert (Hag : again z <> None -> False) by (intros Hag; destruct (io_again _ _ _ _ O Hag); congruence).
    destruct (io_call _ _ _ _ O) as (C1' & _ & C3' & C4'); [lia|].
    apply sent_ok; try done; [by intros ?%(io_early _ _ _ _ O)|by rewrite E; intros [?|?]|by rewrite E|..].
    + intros m Em. rewrite E in Em. injection Em as <-. split_and!; [rewrite Eh; apply asked_app; by left|done|done].
    + intros _. split_and!; [lia|lia|done|auto|]. intros _. exists t. rewrite V1, Eh. apply elem_of_app. by left.
    + intros Hb. destruct Hnev as (_ & ? & _). congruence.
  - eapply (input_stays w); [apply Hinv|exact Hp|done|]. apply (report_apart w w' j z [Read (Answer k turn)] evs); try done.
    intros n Hs H. rewrite Hp in Hs. injection Hs as ->. by apply Hn.
Qed.

Lemma answer_input w w' i x x' p k turn evs : inv w -> w.(w_core).(ins) !! i = Some x -> w.(subs) !! i = Some p ->
  w.(w_core).(cur_in) = Some i -> call x = k -> honest w.(hist) (Answer k turn) ->
  w'.(hist) = w.(hist) ++ [Read (Answer k turn)] ++ map Told evs -> answered_calls w w' k turn ->
  match turn with
  | Some t => x' = in_answered true t (in_call 0 x) \/ x' = in_bound (in_answered true t (in_call 0 x))
  | None => x' = in_call 0 x /\ w'.(w_core).(cur_in) = None /\
      forall e, e ∈ evs -> e.(ev_native) = "" \/ e.(ev_native) = x.(native) /\ x.(resent) = true
  end -> input_ok w' i x' p.
Proof.
  intros Hinv Hx Hp Hi Hk Hh Eh [A1 A2 A3 A4 A5 A6] Haf. pose proof (inv_inputs _ Hinv i x p Hx Hp) as O.
  pose proof (ho_asked _ _ Hh k turn eq_refl) as Hask. pose proof (id_asked _ (inv_ids _ Hinv) k Hask) as Hk0.
  destruct (io_call _ _ _ _ O) as (C1 & C2 & C3 & C4); [lia|]. rewrite Hk in C4. destruct (C4 Hask) as [t0 Ht0].
  assert (Hs : sent (hist w) (native x)) by (by exists k, t0).
  assert (Hs' : sent (hist w') (native x)) by (rewrite Eh; apply sent_app; by left).
  assert (He : ~ early p) by (intros H; by apply (io_early _ _ _ _ O)).
  assert (Hn : ~ not_submitted p) by (intros H; destruct (io_not _ _ _ _ O H) as [?|[? _]]; done).
  assert (Hf : forall r, p <> SubForget r) by (intros r E; by destruct (io_forget _ _ _ _ O r E)).
  assert (Hag : again x = None).
  { destruct (again x) eqn:E; [|done]. destruct (io_again _ _ _ _ O) as [H _]; [by rewrite E|congruence]. }
  assert (Hc : forall m, p = SubWait m -> asked (hist w') m /\ m ∉ calls w' /\
    (answers w' !! m = Some Refused -> m = k /\ k ∈ calls w /\ turn = None)).
  { intros m E. destruct (io_wait _ _ _ _ O m E) as (W1 & W2 & W3). split_and!.
    - rewrite Eh. apply asked_app. by left.
    - intros H. assert (m = k) as -> by (destruct (W2 (A1 _ H)); congruence). done.
    - intros H. destruct (A3 m H) as [H'|?]; [|done]. by destruct (W3 H') as [? _]. }
  destruct turn as [t|].
  - assert (Hw : forall z m, p = SubWait m -> waits w' i z m).
    { intros z m E. destruct (Hc m E) as (? & ? & H). split_and!; [done|done|]. intros H'. by destruct (H H') as (_ & _ & ?). }
    destruct Haf as [->| ->]; apply sent_ok; cbn; auto; done.
  - destruct Haf as (-> & Hcur & Hev). destruct (refused_unbound w i x p k Hinv Hx Hp Hh Hk) as [_ Hb].
    apply sent_ok; cbn; auto; try done; [|by rewrite Hb]. intros m E. destruct (Hc m E) as (? & ? & H). split_and!; [done|done|].
    intros H'. destruct (H H') as (-> & Hkc & _). destruct (io_wait _ _ _ _ O k E) as (_ & W2 & _). destruct (W2 Hkc) as (_ & V2 & _ & V4).
    split_and!; [by rewrite Hcur|done| |intros pc; by rewrite A5]. rewrite Eh.
    intros [Hm|[(e & [=]%list_elem_of_singleton & _)|(e & Hm & E1)%named_told]%named_app]%named_app.
    + destruct V4 as [?|V4]; [congruence|]. by apply V4.
    + destruct (Hev e Hm) as [E'|[_ ?]]; [|congruence]. apply (inv_named _ Hinv i x Hx). cbn in E1. congruence.
Qed.

Lemma answer_inv k turn w : inv w -> w.(waiting) <> WaitDone -> w.(resender) = None -> honest w.(hist) (Answer k turn) ->
  inv (answer_in k turn (log [Read (Answer k turn)] w)).
Proof.
  intros Hinv Hw Hr Hh. unfold answer_in. set (w0 := log [Read (Answer k turn)] w). set (heard := match turn with Some t => Answered t | None => Refused end).
  set (w1 := if bool_decide (k ∈ calls w0) then _ else w0). change (w_core w0) with (w_core w).
  assert (Hw1 : hist w1 = hist w ++ [Read (Answer k turn)] /\ subs w1 = subs w /\ resender w1 = resender w /\ waiting w1 = waiting w /\
    nextID w1 = nextID w /\ intrs w1 = intrs w /\ calls w1 ⊆ calls w /\ k ∉ calls w1 /\
    (forall n, answers w1 !! n = Some Refused -> answers w !! n = Some Refused \/ n = k /\ k ∈ calls w /\ turn = None)).
  { unfold w1. case_bool_decide as Hk; split_and!; try done; [cbn; set_solver|cbn; set_solver| |by left].
    intros n. cbn. destruct (decide (k = n)) as [<-|]; [rewrite lookup_insert_eq|rewrite lookup_insert_ne by done; by left].
    unfold heard. destruct turn; [done|]. by right. }
  destruct Hw1 as (E1 & E2 & E3 & E4 & E5 & E6 & E7 & E8 & E9).
  destruct (inv_spec _ Hinv Hw) as (a & Ha & Hf & _).
  assert (HH : handled (submitting w) (w_core w) a (onAnswer k turn (w_core w))).
  { apply onAnswer_handled; [done|]. intros i x [Hi Hx]%the_in_Some Hk. destruct (proj2 (inv_subs _ Hinv i) (mk_is_Some _ _ Hx)) as [p Hp].
    pose proof (id_asked _ (inv_ids _ Hinv) k (ho_asked _ _ Hh k turn eq_refl)).
    destruct (io_call _ _ _ _ (inv_inputs _ Hinv i x p Hx Hp)) as (_ & ? & _); [lia|]. split; [done|]. intros ->. by eapply refused_unbound. }
  destruct (onAnswer_runs k turn (w_core w)) as [Hst Ht].
  pose proof (fun i x => onAnswer_effect k turn (w_core w) i x) as HE. pose proof (onAnswer_other k turn (w_core w)) as HO.
  destruct (onAnswer k turn (w_core w)) as [[c' evs] stop] eqn:Eo. cbn [fst snd] in *.
  destruct HH as (a' & Ha' & Hs' & Ht' & Ho' & Hfr).
  assert (Hturn : turn_id c' = open_turn (hist w ++ [Read (Answer k turn)])) by (rewrite Ht, open_turn_app; cbn; apply Hinv).
  (* the input it is the answer of, if it is in hand *)
  assert (Hwho : (exists i x, the_in (w_core w) = Some (i, x) /\ call x = k) \/ c' = w_core w /\ evs = []).
  { assert (X : (forall i x, the_in (w_core w) = Some (i, x) -> call x <> k) -> c' = w_core w /\ evs = []) by (intros H; injection (HO H) as -> -> _; done).
    destruct (the_in (w_core w)) as [[i x]|] eqn:Hi; [|right; apply X; done].
    destruct (decide (call x = k)) as [Hk|Hk]; [left; eauto|right; apply X]. intros j z E. by injection E as <- <-. }
  assert (Hev : forall e, e ∈ evs -> ev_native e = "" \/ exists i x, the_in (w_core w) = Some (i, x) /\ call x = k /\ ev_native e = native x).
  { intros e He. destruct Hwho as [(i & x & Hi & Hk)|[_ ->]]; [|by apply not_elem_of_nil in He].
    destruct (HE i x Hi Hk) as (x' & _ & H). destruct turn as [t|].
    - destruct H as [_ H]. destruct (H e He); [by left|right; eauto].
    - destruct H as (_ & _ & H). destruct (H e He) as [?|[? _]]; [by left|right; eauto]. }
  apply (inv_heard w (Answer k turn) a a'); try done; [by rewrite E3| | |].
  { intros n Hn. destruct (E9 n Hn) as [?|(-> & _)]; [by left|right]. by apply (ho_asked _ _ Hh k turn). }
  { intros e He. destruct (Hev e He) as [?|(i & x & [_ Hx]%the_in_Some & _ & ?)]; [by left|right; eauto]. }
  destruct (emit_fields c' evs stop w1) as (F1 & F2 & F3 & F4 & F5 & F6 & F7 & F8 & F9 & F10 & F11). set (w' := emit (c', evs, stop) w1) in *.
  assert (Eh : hist w' = hist w ++ [Read (Answer k turn)] ++ map Told evs) by (rewrite F2, E1; by rewrite (assoc_L app)).
  assert (Hcur : forall j, cur_in c' = Some j -> cur_in (w_core w) = Some j) by (intros j H; destruct (fr_cur _ _ Hfr) as [E|E]; congruence).
  assert (Hac : answered_calls w w' k turn).
  { split; [by rewrite F6|by rewrite F6|by rewrite F7|by rewrite F8|by rewrite F4, E3|by apply heard_pre]. }
  intros j z p Hz Hp. destruct (decide (cur_in (w_core w) = Some j)) as [Hj|Hj].
  - destruct (proj1 (inv_subs _ Hinv j) (mk_is_Some _ _ Hp)) as [x Hx]. assert (Hi : the_in (w_core w) = Some (j, x)) by by apply the_in_Some.
    destruct (decide (call x = k)) as [Hk|Hk].
    + destruct (HE j x Hi Hk) as (x' & Hx' & Haf). rewrite Hz in Hx'. injection Hx' as <-.
      apply (answer_input w w' j x z p k turn evs); try done. destruct turn as [t|]; [by apply Haf|by rewrite F1].
    + destruct Hwho as [(i & x0 & E & ?)|[-> ->]]; [congruence|]. rewrite Hx in Hz. injection Hz as <-.
      apply (answer_aside w w' j x p k turn []); try done. intros e He. by apply not_elem_of_nil in He.
  - rewrite (fr_other _ _ Hfr) in Hz by done. apply (answer_aside w w' j z p k turn evs); try done; [rewrite F1; auto|].
    intros e He E. destruct (Hev e He) as [E'|(i & x & [Hi Hx]%the_in_Some & _ & E')].
    + apply (inv_named _ Hinv j z Hz). congruence.
    + apply Hj. rewrite (inv_names _ Hinv j i z x Hz Hx); congruence.
Qed.

Lemma read_inv m now w w' : inv w -> honest w.(hist) m -> step (MRead m now) w = Some w' -> inv w'.
Proof.
  intros Hinv Hh. cbn [CodexTurn.step]. case_bool_decide as Hw; [|done]. destruct (resender w) eqn:Hr; [done|]. cbn [is_none negb andb].
  assert (Hw' : waiting w <> WaitDone) by congruence.
  destruct m as [|method n|k turn]; [|intros [= <-]; by apply notify_inv|intros [= <-]; by apply answer_inv].
  destruct (inv_spec _ Hinv Hw') as (a & Ha & Hf & _). destruct (read_nothing Request) as (N1 & N2 & N3).
  assert (H : forall l, (l = [Read Request] \/ l = [Read Request; Wrote RefuseRequest]) -> inv (log l w)).
  { intros l Hl. set (w1 := log l w). assert (Eh : hist w1 = hist w ++ l ++ map Told []) by (cbn; by rewrite app_nil_r).
    assert (Hl1 : (forall nat, ~ sent l nat) /\ (forall n, ~ asked l n) /\ reports l = [] /\ open_turn (hist w ++ l) = open_turn (hist w)).
    { destruct Hl as [->| ->]; split_and!; try done; try (rewrite open_turn_app; done).
      - intros nat (? & ? & [[=]|[=]%list_elem_of_singleton]%elem_of_cons).
      - intros n (? & [[=]|[= ->]%list_elem_of_singleton]%elem_of_cons & ?). done. }
    destruct Hl1 as (L1 & L2 & L3 & L4). assert (Hpre : forall t n, pre w1 t n -> pre w t n) by by intros [].
    apply (inv_report w w1 l [] a a); try done.
    - apply (ids_report w w1 l []); try done; [apply Hinv|by left].
    - change (turn_id (w_core w) = open_turn (hist w ++ l)). rewrite L4. apply Hinv.
    - intros r y Hy Hs. by apply (inv_stop _ Hinv r y).
    - intros e He. by apply not_elem_of_nil in He.
    - intros i x p Hx Hp. eapply (input_stays w); [apply Hinv|exact Hp|by apply (inv_inputs _ Hinv)|].
      apply (report_apart w w1 i x l []); try done. intros e He. by apply not_elem_of_nil in He. }
  change (stdinClosed (log [Read Request] w)) with (stdinClosed w). destruct (stdinClosed w); intros [= <-]; [apply H; by left|].
  replace (log _ _) with (log [Read Request; Wrote RefuseRequest] w); [apply H; by right|]. unfold log. cbn. by rewrite <- (assoc_L app).
Qed.

(** ** Every move *)

Lemma codex_step_inv m w w' : inv w -> admitted w m -> step m w = Some w' -> inv w'.
Proof.
  intros Hinv Ha Hs. destruct m.
  - destruct Ha. by eapply submit_inv.
  - destruct (subs w !! i) as [[]|] eqn:Hp; [by eapply yield_inv|cbn [CodexTurn.step] in Hs; by rewrite Hp in Hs..].
  - by eapply yield_ends_inv.
  - by eapply send_inv.
  - by eapply call_inv.
  - by eapply write_inv.
  - by eapply answered_inv.
  - by eapply wait_ends_inv.
  - by eapply forget_inv.
  - by eapply read_inv.
  - by eapply resend_inv.
  - by eapply resend_send_inv.
  - by eapply resend_call_inv.
  - by eapply resend_write_inv.
  - by eapply resend_fail_inv.
  - cbn [CodexTurn.step] in Hs. pose proof (interrupt_inv w Hinv). destruct (Interrupt (w_core w)). by injection Hs as <-.
  - cbn [CodexTurn.step] in Hs. pose proof (interrupt_turn_inv native w Hinv). destruct (InterruptTurn native (w_core w)). by injection Hs as <-.
  - by eapply interrupt_moves_inv; [exact Hinv| |exact Hs].
  - by eapply interrupt_moves_inv; [exact Hinv| |exact Hs].
  - by eapply interrupt_moves_inv; [exact Hinv| |exact Hs].
  - by eapply interrupt_moves_inv; [exact Hinv| |exact Hs].
  - by eapply interrupt_moves_inv; [exact Hinv| |exact Hs].
  - by eapply other_call_inv.
  - injection Hs as <-. by apply aside_inv.
  - by eapply ends_inv; [exact Hinv| |exact Hs].
  - by eapply ends_inv; [exact Hinv| |exact Hs].
  - by eapply ends_inv; [exact Hinv| |exact Hs].
  - by eapply ends_inv; [exact Hinv| |exact Hs].
  - by eapply ends_inv; [exact Hinv| |exact Hs].
  - by eapply ends_inv; [exact Hinv| |exact Hs].
  - by eapply report_exit_inv.
Qed.

Lemma init_inv : inv init.
Proof.
  assert (Hno : forall t n, ~ pre init t n).
  { intros [i|i|r] n; cbn; rewrite ?lookup_empty; [by intros [?|?]|by intros [?|?]|done]. }
  assert (Hask : forall n, ~ asked (hist init) n) by (by intros n (l & ?%not_elem_of_nil & _)).
  split; try done.
  - split; try done; [intros t n H; by apply Hno in H|intros t t' n H; by apply Hno in H|intros n H; by apply Hask in H].
  - intros i. cbn. rewrite !lookup_empty. split; intros [? [=]].
  - intros nat [(? & ? & ?%not_elem_of_nil)|(? & ?%not_elem_of_nil & _)]; done.
  - intros _. exists spec0. split_and!; [done| |done].
    split; [split; try done; by split|split; [split; try done; by intros n ?%not_elem_of_nil|done]].
  - intros h1 n nat t h2 E. by destruct h1.
Qed.

Lemma reachable_inv w : reachable tryAgain reconnecting local date next_day rate_json w -> inv w.
Proof. induction 1 as [|w m w' _ IH Ha Hs]; [apply init_inv|by eapply codex_step_inv]. Qed.
End Steps.
