(* ===== verification/CodexProps.v ===== *)
(** What the codex transport promises its Session: its reports are a
    transport's, an input is sent twice only after codex dropped it, an input
    whose Submit failed is never heard of, and an interrupt reaches the input's
    turn; with the two runs in which an interrupt does not do what it says. *)
From Stdlib Require Import ZArith Ascii String Lia.
From stdpp Require Import base tactics list strings option gmap.
From S2P Require Import Prelude GoStr Bytes Json Contract Observation SessionState Proc Codex CodexTurn CodexHandlers CodexWorld CodexInv.
From S2P Require Import CodexSteps CodexMoves CodexReads.

#[local] Open Scope string_scope.
#[local] Open Scope list_scope.
#[local] Open Scope Z_scope.

(** ** Runs *)

Definition asks (k : Z) (x : act) : bool := match x with Wrote l => bool_decide (line_id l = Some k) | _ => false end.
Definition echoes (nat : string) (x : act) : bool :=
  match x with
  | Read (Notify _ n) => match n.(n_Item) with Some it => String.eqb it.(it_Type) "userMessage" && String.eqb it.(it_ClientID) nat | None => false end
  | _ => false
  end.

Definition honest_b (h : list act) (m : message) : bool :=
  match m with
  | Request => true
  | Notify method n =>
    (negb (String.eqb method "turn/started") ||
     match n.(n_Turn) with
     | Some t => String.eqb t.(ti_ID) "" || bool_decide (open_turn h = None) || bool_decide (open_turn h = Some t.(ti_ID))
     | None => true
     end) &&
    match n.(n_Item) with
    | Some it => negb (String.eqb it.(it_Type) "userMessage") || String.eqb it.(it_ClientID) "" || existsb (sends it.(it_ClientID)) h
    | None => true
    end
  | Answer k t =>
    existsb (asks k) h &&
    match t with
    | Some _ => true
    | None => forallb (fun x => match x with Wrote (TurnStart k' nat _) => negb (k' =? k) || negb (existsb (echoes nat) h) | _ => true end) h
    end
  end.

Lemma honest_b_honest h m : honest_b h m = true -> honest h m.
Proof.
  intros H. split.
  - intros n t -> Ht Hne. cbn in H. rewrite Ht in H. apply andb_true_iff in H as [H _].
    cbn [negb orb] in H. apply orb_true_iff in H as [[H%String.eqb_eq|H%bool_decide_eq_true]%orb_true_iff|H%bool_decide_eq_true]; [done|by left|by right].
  - intros method n nat -> (it & Hit & Hty & <-) Hne. cbn in H. rewrite Hit, Hty in H. apply andb_true_iff in H as [_ H]. cbn in H.
    rewrite (proj2 (String.eqb_neq _ _) Hne) in H. cbn in H. apply existsb_exists in H as (x & Hx & E).
    destruct x as [[k m t| | |]| |]; try done. cbn in E. apply String.eqb_eq in E as ->. exists k, t. by apply list_elem_of_In.
  - intros k t ->. cbn in H. apply andb_true_iff in H as [H _]. apply existsb_exists in H as (x & Hx & E). destruct x as [l| |]; try done.
    exists l. split; [by apply list_elem_of_In|]. cbn in E. by case_bool_decide.
  - intros k nat t -> Hw (method & n & Hr & it & Hit & Hty & Hid). cbn in H. apply andb_true_iff in H as [_ H].
    rewrite forallb_forall in H. specialize (H _ (proj1 (list_elem_of_In _ _) Hw)). cbn in H. rewrite Z.eqb_refl in H. cbn in H.
    apply negb_true_iff in H. apply list_elem_of_In in Hr. assert (X : existsb (echoes nat) h = true); [|congruence].
    apply existsb_exists. eexists. split; [exact Hr|]. cbn. by rewrite Hit, Hty, Hid, !String.eqb_refl.
Qed.

Definition admitted_b (w : world) (m : move) : bool :=
  match m with
  | MSubmit nat _ => negb (String.eqb nat "") && forallb (fun p => negb (String.eqb (p.2).(native) nat)) (map_to_list w.(w_core).(ins))
  | MRead m _ => honest_b w.(hist) m
  | _ => true
  end.

Lemma admitted_b_admitted w m : admitted_b w m = true -> admitted w m.
Proof.
  destruct m; try done; cbn.
  - intros [H1 H2]%andb_true_iff. split; [intros ->; done|]. intros i x Hx E. rewrite forallb_forall in H2.
    specialize (H2 (i, x) (proj1 (list_elem_of_In _ _) (proj2 (elem_of_map_to_list _ _ _) Hx))). cbn in H2. rewrite E, String.eqb_refl in H2. done.
  - apply honest_b_honest.
Qed.

Section Props.
Context (tryAgain : string -> option (string * string * string)) (reconnecting : string -> option (string * string)).
Context (local : Time -> Time) (date : Time -> Z -> Z -> Time) (next_day : Time -> Time) (rate_json : RateLimitData -> option string).
Notation step := (step tryAgain reconnecting local date next_day rate_json false).
Notation reachable := (reachable tryAgain reconnecting local date next_day rate_json).

Fixpoint exec (ms : list move) (w : world) : option world :=
  match ms with
  | [] => Some w
  | m :: ms => if admitted_b w m then step m w ≫= exec ms else None
  end.

Lemma exec_reachable ms w w' : reachable w -> exec ms w = Some w' -> reachable w'.
Proof.
  revert w. induction ms as [|m ms IH]; cbn; intros w Hw; [by intros [= <-]|]. destruct (admitted_b w m) eqn:Ha; [|done].
  destruct (step m w) as [w1|] eqn:Hs; [|done]. apply IH. eapply reach_step; [done|by apply admitted_b_admitted|done].
Qed.

(** ** Theorems *)

(** C5: whatever its threads do, and while codex keeps its protocol, what the
    codex transport reports is what the contract lets a transport report: one
    turn at a time, an input's turn begun and ended once at most, a turn ended
    only if it runs or nothing of it ever did, and nothing after the exit; and
    until then the turn it has told of is the one it is on. *)
Theorem transport_refines w : reachable w ->
  exists a, accepts spec0 (reports w.(hist)) = Some a /\ (w.(waiting) <> WaitDone -> a.(on) = current w.(w_core)).
Proof.
  intros H%reachable_inv. destruct (decide (waiting w = WaitDone)) as [E|E].
  - destruct (inv_done _ H E) as [_ [a Ha]]. by exists a.
  - destruct (inv_spec _ H E) as (a & Ha & (_ & _ & Ho) & _). by exists a.
Qed.

(** C10: an input the codex transport sends a second time was dropped by codex:
    since it was last sent, a turn of codex's own ended interrupted, and neither
    the start nor the end of a turn of the input's was ever reported — so codex
    never runs it twice. *)
Theorem resent_only_after_drop w h1 n nat t h2 : reachable w -> w.(hist) = h1 ++ Wrote (TurnStart n nat t) :: h2 -> sent h1 nat ->
  dropped h1 nat /\ forall a, accepts spec0 (reports h1) = Some a -> nat ∉ a.(begun) /\ nat ∉ a.(over).
Proof. intros H%reachable_inv. apply (inv_sends _ H). Qed.


(** C12: once an interrupt was asked of the input a turn of codex's belongs to,
    that turn is being stopped: a thread sends codex turn/interrupt for it, or
    has. *)
Theorem interrupt_reaches_turn w i x r y : reachable w -> the_in w.(w_core) = Some (i, x) -> x.(interrupt) = true ->
  the_run w.(w_core) = Some (r, y) -> y.(in_) = Some i -> w.(waiting) <> WaitDone -> is_Some (w.(intrs) !! r).
Proof.
  intros H%reachable_inv Hi Hint Hr Hy Hw. destruct (inv_spec _ H Hw) as (a & _ & (Hs & _) & _).
  destruct (sh_view _ _ Hs) as [_ V]. destruct (V r y Hr) as [_ V']. rewrite Hy in V'. destruct V' as (_ & z & E & _ & Hst).
  rewrite Hi in E. injection E as <-. apply the_run_Some in Hr as [_ Hr]. eapply (inv_stop _ H); [exact Hr|auto].
Qed.
End Props.

(** ** Runs *)

Definition no_turn : notification := mkNotification "" None None None false None None None.
Definition turn_note (id status : string) : notification := mkNotification "" (Some (mkTurnInfo id status None)) None None false None None None.
Definition user_note (turn native : string) : notification :=
  mkNotification turn None (Some (mkItem "userMessage" "" native)) None false None None None.

Section Runs.
Notation run_ := (exec (fun _ => None) (fun _ => None) (fun t => t) (fun t _ _ => t) (fun t => t) (fun _ => None)).
Notation reachable_ := (reachable (fun _ => None) (fun _ => None) (fun t => t) (fun t _ _ => t) (fun t => t) (fun _ => None)).

Definition submits (native : string) (k : nat) : list move := [MSubmit native "text"; MYield k 0; MSend k; MCall k; MWrite k false].

Definition after (ms : list move) : world := default init (run_ ms init).

Lemma after_reachable ms : is_Some (run_ ms init) -> reachable_ (after ms).
Proof. intros [w Hw]. unfold after. rewrite Hw. eapply exec_reachable; [apply reach_init|exact Hw]. Qed.

(** codex starts a turn of its own while the input's turn/start is unanswered. *)
Definition queued : list move :=
  submits "n1" 0 ++ [MRead (Notify "turn/started" (turn_note "own" "")) 1; MRead (Answer 1 (Some "t1")) 2].

(** It is interrupted, drops the input, and the input is sent again. *)
Definition again_ : list move :=
  queued ++ [MRead (Notify "turn/completed" (turn_note "own" "interrupted")) 3; MResend 0; MResendSend; MResendCall; MResendWrite false;
    MRead (Answer 2 (Some "t2")) 4; MRead (Notify "turn/started" (turn_note "t2" "")) 5;
    MRead (Notify "turn/completed" (turn_note "t2" "completed")) 6; MAnswered 0].

Definition refused : list move := submits "n1" 0 ++ [MRead (Answer 1 None) 2; MAnswered 0; MForget 0].
Definition stopped : list move :=
  submits "n1" 0 ++ [MRead (Notify "turn/started" (turn_note "t1" "")) 1; MRead (Answer 1 (Some "t1")) 2; MInterrupt].

Lemma transport_refines_witness : length (reports (after again_).(hist)) = 4%nat /\
  exists a, accepts spec0 (reports (after again_).(hist)) = Some a /\
    ((after again_).(waiting) <> WaitDone -> a.(on) = current (after again_).(w_core)).
Proof.
  split; [by vm_compute|].
  refine (transport_refines (fun _ => None) (fun _ => None) (fun t => t) (fun t _ _ => t) (fun t => t) (fun _ => None) (after again_) _).
  apply after_reachable. vm_compute. by eexists.
Defined.

Lemma resent_only_after_drop_witness : exists h1 h2,
  (after again_).(hist) = h1 ++ Wrote (TurnStart 2 "n1" "text") :: h2 /\ sent h1 "n1" /\
  (dropped h1 "n1" /\ forall a, accepts spec0 (reports h1) = Some a -> "n1" ∉ a.(begun) /\ "n1" ∉ a.(over)).
Proof.
  exists (take 6 (after again_).(hist)), (drop 7 (after again_).(hist)).
  assert (E : (after again_).(hist) = take 6 (after again_).(hist) ++ Wrote (TurnStart 2 "n1" "text") :: drop 7 (after again_).(hist)) by (vm_compute; reflexivity).
  assert (Hs : sent (take 6 (after again_).(hist)) "n1") by (exists 1, "text"; vm_compute; by apply list_elem_of_here).
  refine (conj E (conj Hs (resent_only_after_drop (fun _ => None) (fun _ => None) (fun t => t) (fun t _ _ => t) (fun t => t) (fun _ => None)
    (after again_) _ 2 "n1" "text" _ _ E Hs))).
  apply after_reachable. vm_compute. by eexists.
Defined.


Lemma interrupt_reaches_turn_witness : is_Some ((after stopped).(intrs) !! 0%nat).
Proof.
  destruct (the_in (w_core (after stopped))) as [[i x]|] eqn:Hi; [|vm_compute in Hi; discriminate].
  destruct (the_run (w_core (after stopped))) as [[r y]|] eqn:Hr; [|vm_compute in Hr; discriminate].
  assert (Hi' := Hi). assert (Hr' := Hr). vm_compute in Hi', Hr'. injection Hi' as <- <-. injection Hr' as <- <-.
  refine (interrupt_reaches_turn (fun _ => None) (fun _ => None) (fun t => t) (fun t _ _ => t) (fun t => t) (fun _ => None)
    (after stopped) 0 _ 0 _ _ Hi eq_refl Hr eq_refl _); [|vm_compute; discriminate].
  apply after_reachable. vm_compute. by eexists.
Defined.

(** ** Where an interrupt does not do what it says *)

(** An interrupt asked of the input before codex answered its turn/start, while
    codex is on a turn of its own, never stops that turn: not then, not once
    the answer says codex holds the input for it, and not when it is asked
    again. *)
Theorem interrupt_lost_before_answer : exists w i x r y, reachable_ w /\
  the_in w.(w_core) = Some (i, x) /\ x.(interrupt) = true /\ x.(answered) = true /\ x.(bound) = false /\
  the_run w.(w_core) = Some (r, y) /\ y.(auto) = true /\ y.(stopping) = false /\ w.(intrs) = ∅ /\ Interrupt w.(w_core) = (w.(w_core), None).
Proof.
  set (ms := submits "n1" 0 ++ [MRead (Notify "turn/started" (turn_note "own" "")) 1; MInterrupt; MRead (Answer 1 (Some "t1")) 2]).
  exists (after ms), 0%nat. eexists _, 0%nat, _. split; [apply after_reachable; vm_compute; by eexists|].
  split_and!; vm_compute; reflexivity.
Qed.

(** An input codex may hold still, interrupted after the turn of codex's own
    that held it ended, is reported cancelled, and codex runs it all the same:
    as a turn of its own. *)
Theorem cancelled_then_runs : exists w, reachable_ w /\
  map (fun e => (e.(ev_kind), e.(ev_native), e.(ev_auto), e.(ev_outcome))) (reports w.(hist)) =
    [(Started, "", "own", TurnCompleted); (Ended, "", "own", TurnCompleted); (Ended, "n1", "", TurnCancelled);
     (Started, "", "t1", TurnCompleted)] /\ echoed w.(hist) "n1" /\ exists x, w.(w_core).(ins) !! 0%nat = Some x /\ x.(held) = true.
Proof.
  set (ms := queued ++ [MRead (Notify "turn/completed" (turn_note "own" "completed")) 3; MInterrupt; MResend 0;
    MRead (Notify "turn/started" (turn_note "t1" "")) 5; MRead (Notify "item/started" (user_note "t1" "n1")) 6]).
  exists (after ms). split; [apply after_reachable; vm_compute; by eexists|]. split; [vm_compute; reflexivity|]. split.
  - exists "item/started", (user_note "t1" "n1"). split; [|by eexists]. apply list_elem_of_In. vm_compute. tauto.
  - eexists. split; vm_compute; reflexivity.
Qed.
End Runs.
