(* ===== verification/Claude.v ===== *)
(** What claude's stream-json output says, and what it is answered
    (src/pkg/adapter/claudecode): how a failed call and a usage report are
    classified (classify.go), a permission's prompt, the rules its answer keeps
    and its decision (permission.go), and the tasks claude runs in the
    background (shared.go).

    encoding/json's decoding is a parameter: of a rule list, of an object. A
    number is read as a float, the rational it stands for; its multiplication
    and its conversion to an integer are parameters. *)
From Stdlib Require Import ZArith QArith Ascii String Lia.
From stdpp Require Import base tactics list strings option gmap.
From S2P Require Import Prelude GoStr Bytes Json Contract Classifier Observation Requests Verdict CodexTurn Codex.

#[local] Open Scope string_scope.
#[local] Open Scope list_scope.
#[local] Open Scope go_scope.
#[local] Open Scope Z_scope.

(** ** Failed calls *)

Record failure := mkFailure { tag : string; status : Z; f_text : string; rejected : bool; resetsAt : option Time }.
Definition no_failure : failure := mkFailure "" 0 "" false None.

Definition usageWallText (text : string) : bool :=
  let t := ToLower text in Contains t "hit your" && negb (Contains t "not your usage limit").

Definition failureClass (f : failure) : ErrorClass :=
  if (f.(tag) =s? "authentication_failed") || (f.(tag) =s? "oauth_org_not_allowed") || (f.(tag) =s? "verification_required")
     || (f.(tag) =s? "cloud_credential_error") then ErrorAuth
  else if (f.(tag) =s? "billing_error") || (f.(tag) =s? "account_on_hold") then ErrorBilling
  else if f.(tag) =s? "rate_limit" then if f.(rejected) || usageWallText f.(f_text) then ErrorUsageLimit else ErrorAPI
  else if f.(tag) =s? "max_output_tokens" then ErrorMaxOutput
  else if f.(tag) =s? "overloaded" then ErrorOverloaded
  else if f.(status) =? 529 then ErrorOverloaded
  else if negb (f.(tag) =s? "") || negb (f.(status) =? 0) then ErrorAPI
  else ErrorInternal.

Section Readings.
(** [resettime.Parse]. *)
Context (reset_time : string -> Z -> option Time).
(** Of a float: [*u * 100], and the conversion to int64. *)
Context (times100 : Q -> Q) (int64_of : Q -> Z).
(** The rules and the object that decode, with their string fields' others. *)
Context (decode_rules : string -> option (list (gmap string json))) (decode_object : string -> gmap string json).

Definition turnError (f : failure) (now : Z) : TurnError :=
  let class := failureClass f in
  mkTurnError class f.(status) 0
    (if bool_decide (class = ErrorUsageLimit) then
       match reset_time f.(f_text) now with Some at_ => Some (UTC at_) | None => UTC <$> f.(resetsAt) end
     else None).

(** ** Usage reports *)

Record window_info := mkWindowInfo { w_Utilization : option Q; w_ResetsAt : option Q }.
(** [UnifiedWindows]: by name, each once. *)
Record rateLimitInfo := mkRateLimitInfo {
  rl_Status : string; rl_ResetsAt : option Q; RateLimitType : string; rl_Utilization : option Q;
  UnifiedWindows : list (string * window_info) }.

Definition rateLimitStatus (s : string) : string :=
  if s =s? "allowed" then "allowed" else if s =s? "allowed_warning" then "warning"
  else if s =s? "rejected" then "rejected" else "unknown".

Definition pct (u : option Q) : option Q := times100 <$> u.

Definition unixTime (v : option Q) : option Time :=
  v ≫= fun q => if Qle_bool q 0 then None else Some (mkTime (int64_of q * Second) 0).

(** [sort.Strings]. *)
Fixpoint insert_name (x : string * window_info) (l : list (string * window_info)) : list (string * window_info) :=
  match l with
  | [] => [x]
  | y :: l' => if String.ltb y.1 x.1 then y :: insert_name x l' else x :: l
  end.
Definition by_name (l : list (string * window_info)) : list (string * window_info) := foldr insert_name [] l.

Definition window_of (x : string * window_info) : option RateLimitWindow :=
  if is_none x.2.(w_Utilization) && is_none x.2.(w_ResetsAt) then None
  else Some (mkUsage x.1 (pct x.2.(w_Utilization)) (unixTime x.2.(w_ResetsAt))).

(** [info]: the report, when it decodes. *)
Definition rateLimit (info : option rateLimitInfo) : option (RateLimitData * option Time) :=
  info ≫= fun i =>
  if i.(rl_Status) =s? "" then None
  else
    let st := rateLimitStatus i.(rl_Status) in
    let windows := omap window_of (by_name i.(UnifiedWindows)) in
    let windows :=
      if is_nil windows && negb (i.(RateLimitType) =s? "") && (negb (is_none i.(rl_Utilization)) || negb (is_none i.(rl_ResetsAt)))
      then [mkUsage i.(RateLimitType) (pct i.(rl_Utilization)) (unixTime i.(rl_ResetsAt))] else windows in
    Some (mkRateLimitData st windows, if st =s? "rejected" then unixTime i.(rl_ResetsAt) else None).

(** ** Permissions *)

Definition PromptKindPermission : string := "permission".
Definition OptionYes : string := "yes".
Definition OptionAlways : string := "always".
Definition OptionNo : string := "no".
Definition DeniedMessage : string := "The user denied permission to use this tool.".
Definition maxPromptText : nat := 2048.

Record Permission := mkPermission { Tool : string; Input : string; Suggestions : string; NoAlways : bool }.

Definition str_is (o : option json) (s : string) : bool := match o with Some (JStr t) => t =s? s | _ => false end.

Definition kept_rule (s : gmap string json) : option (gmap string json) :=
  if negb (str_is (s !! "type") "addRules") || negb (str_is (s !! "behavior") "allow") then None
  else Some (<["destination" := JStr "session"]> s).

Definition sessionRules (p : Permission) : option (list (gmap string json)) :=
  all ← decode_rules p.(Suggestions);
  let keep := omap kept_rule all in
  if is_nil keep then None else Some keep.

Definition canAlways (p : Permission) : bool := negb p.(NoAlways) && negb (is_none (sessionRules p)).

(** clip: [cut] is at most [n - len("…")]. *)
Definition clip (s : string) (n : nat) : string :=
  if (String.length s <=? n)%nat then s
  else (TrimSpace (String.substring 0 (rune_cut s (n - String.length "…")) s) ++ "…")%string.

(** The first of the keys that is a string, not empty. *)
Fixpoint first_field (o : gmap string json) (keys : list string) : string :=
  match keys with
  | [] => ""
  | k :: keys => match o !! k with Some (JStr v) => if v =s? "" then first_field o keys else v | _ => first_field o keys end
  end.

Definition text (p : Permission) : string :=
  let what := first_field (decode_object p.(Input)) ["command"; "file_path"; "notebook_path"; "path"; "url"; "pattern"] in
  let what := if (what =s? "") && negb (p.(Input) =s? "") && negb (p.(Input) =s? "null") then p.(Input) else what in
  let t := (if what =s? "" then "Allow " ++ p.(Tool) ++ "?" else "Allow " ++ p.(Tool) ++ ": " ++ what ++ "?")%string in
  clip t maxPromptText.

Definition Prompt (p : Permission) (promptID : string) : PromptInfo :=
  let always := if canAlways p then [mkOption OptionAlways "Yes, and don't ask again"] else [] in
  mkPrompt promptID PromptKindPermission (text p) ([mkOption OptionYes "Yes"] ++ always ++ [mkOption OptionNo "No"]) false.

(** A decision: the fields of the object claude is answered. *)
Record decision := mkDecision {
  behavior : string; d_message : string; updatedInput : option string; updatedPermissions : option (list (gmap string json));
  decisionClassification : string }.

Definition Decision_ (p : Permission) (c : Choice) (classify : bool) : decision :=
  let yes := c.(ch_option) =s? OptionYes in let always := c.(ch_option) =s? OptionAlways in
  let class := if classify then if yes then "user_temporary" else if always then "user_permanent" else "user_reject" else "" in
  if yes || always then
    mkDecision "allow" "" (if negb (p.(Input) =s? "") && negb (p.(Input) =s? "null") then Some p.(Input) else None)
      (if always && canAlways p then sessionRules p else None) class
  else mkDecision "deny" DeniedMessage None None class.

Definition NoOneToAsk : decision :=
  mkDecision "deny" "No one can answer a permission request outside a turn the user started." None None "".
End Readings.

(** ** Background tasks *)

Definition maxTaskDescription : nat := 200.

Definition BackgroundTask_of (id typ description : string) : BackgroundTask :=
  let kind := if (typ =s? "local_bash") || (typ =s? "shell") then BackgroundCommand
              else if HasSuffix typ "_agent" || (typ =s? "subagent") then BackgroundSubagent else BackgroundOther in
  let description := if (maxTaskDescription <? String.length description)%nat
                     then String.substring 0 (rune_cut description maxTaskDescription) description else description in
  mkTask id kind description.

(** [tasks]: the list's entries as they decode. *)
Definition backgroundTasks (tasks : list (string * string * string)) : list BackgroundTask :=
  omap (fun x => let '(id, typ, description) := x in if id =s? "" then None else Some (BackgroundTask_of id typ description)) tasks.

Definition ownNative (task : string) : string := ("task-" ++ task)%string.
