(* ===== verification/ClaudeTurn.v ===== *)
(** The turns and the permissions of a claude process, as its stream-json
    transport keeps them (src/pkg/adapter/claudecode/transport.go, asks.go).

    The threads are the reader of claude's frames, Submit's callers, the callers
    that answer a permission, interrupt or stop, and wait. A step is one critical
    section, one report or one write; the reader holds no lock between them, so
    what it has still to do of a frame is a list ([rd]). [amu] is held across
    steps by an answer only. A frame is what encoding/json makes of a line. *)
From Stdlib Require Import ZArith QArith Ascii String Lia.
From stdpp Require Import base tactics list strings option gmap.
From S2P Require Import Prelude GoStr Bytes Json Contract Observation Requests SessionState Proc Codex CodexTurn Claude.

#[local] Open Scope string_scope.
#[local] Open Scope list_scope.
#[local] Open Scope go_scope.
#[local] Open Scope Z_scope.

(** ** What claude says *)

Inductive frame :=
| Lifecycle (uuid state : string)
| Init (capabilities : list string)
| TaskNotification (task : string)
| BackgroundChanged (tasks : list (string * string * string))
| ApiRetry (r : RetryingData)
| Assistant (parent : string) (error : string) (blocks : option (list (string * string)))
| RateLimitEvent (info : option rateLimitInfo)
| Result (origin : string) (reason : string) (is_error : bool) (result : string) (status : Z)
| ControlResponse (id : string)
| CanUseTool (id : string) (perm : Permission)
| OtherControl (id : string)
| CancelAsk (id : string)
| OtherFrame.

Definition is_system (f : frame) : bool :=
  match f with Init _ | TaskNotification _ | BackgroundChanged _ | ApiRetry _ => true | _ => false end.

Definition requiredCapabilities : list string := ["interrupt_receipt_v1"; "msg_lifecycle_v1"].

(** ** What the transport keeps *)

Record turnState := mkTurn { native : string; started : bool; fail : failure }.

Record ask := mkAsk { a_id : string; a_native : string; perm : Permission; raised : bool }.

(** What [mu] guards; [untasked] is untaskedTurns. *)
Record core := mkCore {
  receipts : gset string; turn : option turnState; own : option turnState; task : string; capsDone : bool; foreign : string;
  untasked : nat }.

Definition set_receipts (r : gset string) (c : core) : core := mkCore r c.(turn) c.(own) c.(task) c.(capsDone) c.(foreign) c.(untasked).
Definition set_turn (t : option turnState) (c : core) : core := mkCore c.(receipts) t c.(own) c.(task) c.(capsDone) c.(foreign) c.(untasked).
Definition set_own (t : option turnState) (c : core) : core := mkCore c.(receipts) c.(turn) t c.(task) c.(capsDone) c.(foreign) c.(untasked).
Definition set_task (s : string) (c : core) : core := mkCore c.(receipts) c.(turn) c.(own) s c.(capsDone) c.(foreign) c.(untasked).
Definition set_caps (c : core) : core := mkCore c.(receipts) c.(turn) c.(own) c.(task) true c.(foreign) c.(untasked).
Definition set_foreign (s : string) (c : core) : core := mkCore c.(receipts) c.(turn) c.(own) c.(task) c.(capsDone) s c.(untasked).
Definition set_untasked (n : nat) (c : core) : core := mkCore c.(receipts) c.(turn) c.(own) c.(task) c.(capsDone) c.(foreign) n.

Definition with_fail (f : failure) (t : turnState) : turnState := mkTurn t.(native) t.(started) f.

(** current's, and Stop's [busy]. *)
Definition busy (c : core) : bool := negb (is_none c.(turn)) || negb (is_none c.(own)).
(** Whether InterruptTurn sends an interrupt. *)
Definition InterruptTurn (n : string) (c : core) : bool := match c.(own) with Some ts => ts.(native) =s? n | None => false end.

(** ** What it reports *)

Definition ev_raised (n : string) (p : PromptInfo) : Event :=
  mkEvent PromptRaised n "" None TurnCompleted "" None no_retry None None (Some p) "" "" no_exit [].
Definition ev_resolved (n id by_ : string) : Event :=
  mkEvent PromptResolved n "" None TurnCompleted "" None no_retry None None None id by_ no_exit [].
Definition ev_background (l : list BackgroundTask) : Event :=
  mkEvent Background "" "" None TurnCompleted "" None no_retry None None None "" "" no_exit l.

(** What the reader has still to do of a frame. *)
Inductive todo :=
| ALifecycle (uuid state : string)
| ACaps (capabilities : list string)
| AMissing
| AOwn
| ANote (task : string)
| ARetry (r : RetryingData)
| AFail (tag text : string)
| ALimit (data : RateLimitData) (resume : option Time)
| AResult (origin reason : string) (is_error : bool) (result : string) (status now : Z)
| AControl (id : string)
| AAsk (id : string) (perm : Permission)
| AQueue (id native : string) (perm : Permission)
| ARespond (id : string)
| ARefuse (id : string)
| ACancel (id : string)
| ADrop (native : string)
| AForeign (id : string)
| ATell (e : Event)
| AStop.

Inductive cline := User (native text : string) | Response (id : string) (d : decision) | RefuseControl (id : string) | ControlRequest (id subtype : string).
(** What happened: a line written, an event reported, a frame read, and an
    answer of the Host's taken. *)
Inductive cact := Wrote (l : cline) | Told (e : Event) | Read (f : frame) | Answered (id : string) (c : Choice).

Section Transport.
Context (EqualFold : string -> string -> bool).
Context (reset_time : string -> Z -> option Time) (times100 : Q -> Q) (int64_of : Q -> Z).
Context (decode_rules : string -> option (list (gmap string json))) (decode_object : string -> gmap string json).
(** The encoding of a usage report. *)
Context (rate_json : RateLimitData -> option string).
(** The Session's id. *)
Context (id : string).

(** onFrame, up to its first critical section. [sid] is the frame's session_id. *)
Definition onFrame (sid : string) (f : frame) (now : Z) : list todo :=
  if is_system f && negb (sid =s? "") && negb (EqualFold sid id) then [AForeign sid]
  else
    match f with
    | Lifecycle uuid state => [ALifecycle uuid state]
    | Init caps => [ACaps caps; AOwn]
    | TaskNotification t => [ANote t]
    | BackgroundChanged tasks => [ATell (ev_background (backgroundTasks tasks))]
    | ApiRetry r => [ARetry r]
    | Assistant parent error blocks =>
      if negb (parent =s? "") then []
      else if error =s? "" then []
      else match blocks with
           | None => []
           | Some bs => [AFail error (Join "010" (omap (fun b => if b.1 =s? "text" then Some b.2 else None) bs))]
           end
    | RateLimitEvent info =>
      match rateLimit times100 int64_of info with Some (data, resume) => [ALimit data resume] | None => [] end
    | Result origin reason is_error result status => [AResult origin reason is_error result status now]
    | ControlResponse id => [AControl id]
    | CanUseTool id p => [AAsk id p]
    | OtherControl id => [ARefuse id]
    | CancelAsk id => [ACancel id]
    | OtherFrame => []
    end.

(** onLifecycle. *)
Definition onLifecycle (uuid state : string) (c : core) : core * list todo :=
  let mine := match c.(turn) with Some ts => ts.(native) =s? uuid | None => false end in
  let began := match c.(turn) with Some ts => ts.(started) | None => false end in
  if (state =s? "queued") || (state =s? "started") then
    let c := set_receipts (c.(receipts) ∖ {[uuid]}) c in
    match c.(turn) with
    | Some ts =>
      if (state =s? "started") && mine && negb began
      then (set_turn (Some (mkTurn ts.(native) true ts.(fail))) c, [ATell (ev_start uuid "")]) else (c, [])
    | None => (c, [])
    end
  else if (state =s? "cancelled") || (state =s? "discarded") || (state =s? "refused") then
    let c := set_receipts (c.(receipts) ∖ {[uuid]}) c in
    if mine && negb began
    then (set_turn None c, [ATell (ev_end uuid "" (if state =s? "cancelled" then TurnCancelled else TurnRefused) "" None)]) else (c, [])
  else (c, []).

Definition internal : option TurnError := Some (mkTurnError ErrorInternal 0 0 None).

(** onForeign, and the second section of onInit: the turn claude was on errs. *)
Definition err_turn (ts : option turnState) : list todo :=
  match ts with Some t => [ATell (ev_end t.(native) "" TurnErrored "" internal)] | None => [] end.

Definition onForeign (sid : string) (c : core) : core * list todo :=
  if c.(foreign) =s? "" then (set_turn None (set_foreign sid c), err_turn c.(turn) ++ [AStop]) else (c, []).

Definition missing (have : list string) : bool := negb (forallb (fun c => bool_decide (c ∈ have)) requiredCapabilities).

(** onInit. *)
Definition onInit (caps : list string) (c : core) : core * list todo :=
  (set_caps c, if c.(capsDone) then [] else if missing caps then [AMissing] else []).
Definition onMissing (c : core) : core * list todo := (set_turn None c, err_turn c.(turn) ++ [AStop]).

Definition ownStarted (c : core) : core * list todo :=
  if negb (is_none c.(turn)) || negb (is_none c.(own)) || (c.(task) =s? "") then (c, [])
  else
    let n := ownNative c.(task) in
    (set_task "" (set_own (Some (mkTurn n true no_failure)) c), [ATell (ev_start "" n)]).

Definition fail_current (f : failure -> failure) (c : core) : core :=
  match c.(turn) with
  | Some ts => set_turn (Some (with_fail (f ts.(fail)) ts)) c
  | None => match c.(own) with Some ts => set_own (Some (with_fail (f ts.(fail)) ts)) c | None => c end
  end.

(** onResult. *)
Definition result_event (ts : turnState) (own : bool) (reason : string) (is_error : bool) (result : string) (status now : Z) : Event :=
  let n := if own then "" else ts.(native) in let a := if own then ts.(native) else "" in
  if HasPrefix reason "aborted" then ev_end n a TurnInterrupted "" None
  else if is_error then
    let fl := ts.(fail) in
    let fl := mkFailure fl.(tag) status (if fl.(f_text) =s? "" then result else fl.(f_text)) fl.(rejected) fl.(resetsAt) in
    ev_end n a TurnErrored "" (Some (turnError reset_time fl now))
  else ev_end n a TurnCompleted result None.

Definition onResult (origin reason : string) (is_error : bool) (result : string) (status now : Z) (c : core) : core * list todo :=
  let own_ := (origin =s? "task-notification") || is_none c.(turn) && negb (is_none c.(own)) in
  let '(ts, c) := if own_ then (c.(own), set_own None c) else (c.(turn), set_turn None c) in
  match ts with
  | Some ts =>
    (c, ATell (result_event ts own_ reason is_error result status now) :: (if own_ then [] else [ADrop ts.(native)]))
  | None =>
    if own_ then
      let '(n, c) := if c.(task) =s? ""
                     then (ownNative ("result-" ++ Itoa (Z.of_nat (S c.(untasked))))%string, set_untasked (S c.(untasked)) c)
                     else (ownNative c.(task), c) in
      let ts := mkTurn n false no_failure in
      (set_task "" c, [ATell (ev_start "" n); ATell (result_event ts true reason is_error result status now)])
    else (c, [])
  end.

(** ** Permissions (asks.go) *)

(** raiseNextLocked. *)
Definition raiseNext (asks : list ask) : list ask * list Event :=
  match asks with
  | a :: rest =>
    if a.(raised) then (asks, [])
    else (mkAsk a.(a_id) a.(a_native) a.(perm) true :: rest,
          [ev_raised a.(a_native) (Prompt decode_rules decode_object a.(perm) a.(a_id))])
  | [] => ([], [])
  end.

(** takeLocked. *)
Fixpoint take_ask (id : string) (asks : list ask) : option (ask * list ask) :=
  match asks with
  | [] => None
  | a :: rest =>
    if a.(a_id) =s? id then Some (a, rest)
    else match take_ask id rest with Some (b, rest) => Some (b, a :: rest) | None => None end
  end.

Definition onCancelAsk (id : string) (asks : list ask) : list ask * list Event :=
  match take_ask id asks with
  | Some (a, asks) =>
    let '(asks, evs) := raiseNext asks in
    (asks, (if a.(raised) then [ev_resolved a.(a_native) a.(a_id) "harness"] else []) ++ evs)
  | None => (asks, [])
  end.

Definition dropAsks (native : string) (asks : list ask) : list ask * list Event :=
  raiseNext (List.filter (fun a => negb (native =s? "") && negb (a.(a_native) =s? native)) asks).

(** ** The threads *)

Inductive submit_pc := SubWrite (text : string) | SubForget | SubWait | SubDone (r : submit_result).

(** Where the holder of [amu] is: its response, then the next permission. *)
Inductive answer_pc := AnsRespond (a : ask) (c : Choice) | AnsRaise.

(** Where wait is. *)
Inductive wait_pc := WaitProcess | WaitRead | WaitStdin | WaitDrop | WaitReport | WaitClose | WaitDone.
#[export] Instance claude_wait_pc_eq_dec : EqDecision wait_pc.
Proof. solve_decision. Defined.

Record world := mkWorld {
  w_core : core; asks : list ask; control : gset string; ctlSeq : Z; stdinClosed : bool; w_stopping : bool; w_killed : bool; closing : nat;
  rd : list todo; waiting : wait_pc; amu : option answer_pc; subs : gmap string submit_pc; hist : list cact }.

Definition set_core (c : core) (w : world) : world :=
  mkWorld c w.(asks) w.(control) w.(ctlSeq) w.(stdinClosed) w.(w_stopping) w.(w_killed) w.(closing) w.(rd) w.(waiting) w.(amu) w.(subs) w.(hist).
Definition set_asks (l : list ask) (w : world) : world :=
  mkWorld w.(w_core) l w.(control) w.(ctlSeq) w.(stdinClosed) w.(w_stopping) w.(w_killed) w.(closing) w.(rd) w.(waiting) w.(amu) w.(subs) w.(hist).
Definition set_control (l : gset string) (n : Z) (w : world) : world :=
  mkWorld w.(w_core) w.(asks) l n w.(stdinClosed) w.(w_stopping) w.(w_killed) w.(closing) w.(rd) w.(waiting) w.(amu) w.(subs) w.(hist).
Definition close_stdin (w : world) : world :=
  mkWorld w.(w_core) w.(asks) w.(control) w.(ctlSeq) true w.(w_stopping) w.(w_killed) w.(closing) w.(rd) w.(waiting) w.(amu) w.(subs) w.(hist).
Definition set_ending (stop kill : bool) (n : nat) (w : world) : world :=
  mkWorld w.(w_core) w.(asks) w.(control) w.(ctlSeq) w.(stdinClosed) stop kill n w.(rd) w.(waiting) w.(amu) w.(subs) w.(hist).
Definition set_rd (l : list todo) (w : world) : world :=
  mkWorld w.(w_core) w.(asks) w.(control) w.(ctlSeq) w.(stdinClosed) w.(w_stopping) w.(w_killed) w.(closing) l w.(waiting) w.(amu) w.(subs) w.(hist).
Definition set_waiting (p : wait_pc) (w : world) : world :=
  mkWorld w.(w_core) w.(asks) w.(control) w.(ctlSeq) w.(stdinClosed) w.(w_stopping) w.(w_killed) w.(closing) w.(rd) p w.(amu) w.(subs) w.(hist).
Definition set_amu (p : option answer_pc) (w : world) : world :=
  mkWorld w.(w_core) w.(asks) w.(control) w.(ctlSeq) w.(stdinClosed) w.(w_stopping) w.(w_killed) w.(closing) w.(rd) w.(waiting) p w.(subs) w.(hist).
Definition set_sub (n : string) (p : submit_pc) (w : world) : world :=
  mkWorld w.(w_core) w.(asks) w.(control) w.(ctlSeq) w.(stdinClosed) w.(w_stopping) w.(w_killed) w.(closing) w.(rd) w.(waiting) w.(amu)
    (<[n := p]> w.(subs)) w.(hist).
Definition log (l : list cact) (w : world) : world :=
  mkWorld w.(w_core) w.(asks) w.(control) w.(ctlSeq) w.(stdinClosed) w.(w_stopping) w.(w_killed) w.(closing) w.(rd) w.(waiting) w.(amu) w.(subs)
    (app w.(hist) l).

Definition write (fails : bool) (l : cline) (w : world) : world := if w.(stdinClosed) || fails then w else log [Wrote l] w.

(** A critical section of [mu]'s, and what the reader does next. *)
Definition section (r : core * list todo) (rest : list todo) (w : world) : world := set_rd (app r.2 rest) (set_core r.1 w).
(** One of [amu]'s, which reports. *)
Definition asking (r : list ask * list Event) (w : world) : world := log (map Told r.2) (set_asks r.1 w).

(** The reader's next step; [fails]: the pipe refuses the write. *)
Definition perform (fails : bool) (a : todo) (rest : list todo) (w : world) : option world :=
  let c := w.(w_core) in
  let free := is_none w.(amu) in
  match a with
  | ALifecycle uuid state => Some (section (onLifecycle uuid state c) rest w)
  | ACaps caps => Some (section (onInit caps c) rest w)
  | AMissing => Some (section (onMissing c) rest w)
  | AOwn => Some (section (ownStarted c) rest w)
  | ANote t => Some (section (set_task t c, []) rest w)
  | ARetry r =>
    Some (section (c, match c.(turn) with
                      | Some ts => if ts.(native) =s? "" then [] else [ATell (ev_retrying ts.(native) r)]
                      | None => []
                      end) rest w)
  | AFail tag text => Some (section (fail_current (fun f => mkFailure tag f.(status) text f.(rejected) f.(resetsAt)) c, []) rest w)
  | ALimit data resume =>
    let on := match c.(turn) with Some ts => ts.(native) | None => "" end in
    let c := match c.(turn) with
             | Some ts => if data.(Status) =s? "rejected"
                          then set_turn (Some (with_fail (mkFailure ts.(fail).(tag) ts.(fail).(status) ts.(fail).(f_text) true resume) ts)) c else c
             | None => c
             end in
    Some (section (c, [ATell (ev_limited on (rate_json data) resume)]) rest w)
  | AResult origin reason is_error result status now => Some (section (onResult origin reason is_error result status now c) rest w)
  | AControl id => Some (set_rd rest (set_control (w.(control) ∖ {[id]}) w.(ctlSeq) w))
  | AAsk id p =>
    let n := match c.(turn) with Some ts => ts.(native) | None => "" end in
    Some (set_rd (if (n =s? "") || (id =s? "") then ARespond id :: rest else AQueue id n p :: rest) w)
  | AQueue id n p =>
    if free then Some (set_rd rest (asking (raiseNext (app w.(asks) [mkAsk id n p false])) w)) else None
  | ARespond id => Some (set_rd rest (write fails (Response id NoOneToAsk) w))
  | ARefuse id => Some (set_rd rest (write fails (RefuseControl id) w))
  | ACancel id => if free then Some (set_rd rest (asking (onCancelAsk id w.(asks)) w)) else None
  | ADrop n => if free then Some (set_rd rest (asking (dropAsks n w.(asks)) w)) else None
  | AForeign sid => Some (section (onForeign sid c) rest w)
  | ATell e => Some (set_rd rest (log [Told e] w))
  | AStop => Some (set_rd rest w)
  end.

(** Which thread moves. [MRequest] is Start's initialize or an interrupt;
    [MGiveUp], its context's end; [MStop] is Stop's start, [MStopStdin] its
    closing of an idle claude's stdin. *)
Inductive move :=
| MRead (sid : string) (f : frame) (now : Z)
| MPerform (fails : bool)
| MSubmit (native text : string)
| MWrite (native : string) (fails : bool)
| MForget (native : string)
| MReceipt (native : string)
| MWaitEnds (native : string)
| MAnswer (prompt : string) (c : Choice)
| MRespond (fails : bool)
| MRaise
| MRequest (subtype : string) (fails : bool)
| MGiveUp (id : string)
| MStop
| MStopStdin
| MKill
| MExit
| MReadEnd
| MWaitStdin
| MWaitDrop
| MWaitReport (ps : option (Z * string)) (err : option string) (stderr : string)
| MClose.

Definition control_id (n : Z) : string := ("req_" ++ Itoa n)%string.

Definition step (m : move) (w : world) : option world :=
  let c := w.(w_core) in
  match m with
  | MRead sid f now =>
    if is_nil w.(rd) && (bool_decide (w.(waiting) = WaitProcess) || bool_decide (w.(waiting) = WaitRead))
    then Some (set_rd (onFrame sid f now) (log [Read f] w)) else None
  | MPerform fails => match w.(rd) with a :: rest => perform fails a rest w | [] => None end
  | MSubmit n text =>
    if bool_decide (w.(waiting) = WaitDone) then Some (set_sub n (SubDone SubmitExited) w)
    else Some (set_sub n (SubWrite text) (set_core (set_turn (Some (mkTurn n false no_failure)) (set_receipts ({[n]} ∪ c.(receipts)) c)) w))
  | MWrite n fails =>
    match w.(subs) !! n with
    | Some (SubWrite text) =>
      Some (if w.(stdinClosed) then set_sub n SubForget w
            else if fails then set_sub n (SubDone SubmitUnknown) w
            else set_sub n SubWait (log [Wrote (User n text)] w))
    | _ => None
    end
  | MForget n =>
    match w.(subs) !! n with
    | Some SubForget =>
      let c := set_receipts (c.(receipts) ∖ {[n]}) c in
      let c := match c.(turn) with Some ts => if ts.(native) =s? n then set_turn None c else c | None => c end in
      Some (set_sub n (SubDone SubmitExited) (set_core c w))
    | _ => None
    end
  | MReceipt n =>
    match w.(subs) !! n with
    | Some SubWait => if bool_decide (n ∈ c.(receipts)) then None else Some (set_sub n (SubDone SubmitOK) w)
    | _ => None
    end
  | MWaitEnds n => match w.(subs) !! n with Some SubWait => Some (set_sub n (SubDone SubmitUnknown) w) | _ => None end
  | MAnswer prompt ch =>
    match w.(amu), w.(asks) with
    | None, a :: rest =>
      if (a.(a_id) =s? prompt) && a.(raised)
      then Some (set_amu (Some (AnsRespond a ch)) (log [Answered prompt ch; Told (ev_resolved a.(a_native) a.(a_id) "answer")] (set_asks rest w))) else None
    | _, _ => None
    end
  | MRespond fails =>
    match w.(amu) with
    | Some (AnsRespond a ch) => Some (set_amu (Some AnsRaise) (write fails (Response a.(a_id) (Decision_ decode_rules a.(perm) ch true)) w))
    | _ => None
    end
  | MRaise => match w.(amu) with Some AnsRaise => Some (set_amu None (asking (raiseNext w.(asks)) w)) | _ => None end
  | MRequest subtype fails =>
    let n := w.(ctlSeq) + 1 in
    Some (if w.(stdinClosed) || fails then set_control w.(control) n w
          else log [Wrote (ControlRequest (control_id n) subtype)] (set_control ({[control_id n]} ∪ w.(control)) n w))
  | MGiveUp id => Some (set_control (w.(control) ∖ {[id]}) w.(ctlSeq) w)
  | MStop => Some (set_ending true w.(w_killed) (if busy c then w.(closing) else S w.(closing)) w)
  | MStopStdin =>
    match w.(closing) with
    | S k => Some (close_stdin (set_ending w.(w_stopping) w.(w_killed) k w))
    | O => None
    end
  | MKill => Some (set_ending w.(w_stopping) true w.(closing) w)
  | MExit => if bool_decide (w.(waiting) = WaitProcess) then Some (set_waiting WaitRead w) else None
  | MReadEnd => if bool_decide (w.(waiting) = WaitRead) && is_nil w.(rd) then Some (set_waiting WaitStdin w) else None
  | MWaitStdin => if bool_decide (w.(waiting) = WaitStdin) then Some (set_waiting WaitDrop (set_control ∅ w.(ctlSeq) (close_stdin w))) else None
  | MWaitDrop =>
    if bool_decide (w.(waiting) = WaitDrop) && is_none w.(amu) then Some (set_waiting WaitReport (asking (dropAsks "" w.(asks)) w)) else None
  | MWaitReport ps err stderr =>
    if bool_decide (w.(waiting) = WaitReport)
    then Some (set_waiting WaitClose (log [Told (ev_exited (Exit ps err w.(w_stopping) w.(w_killed) stderr))] w)) else None
  | MClose => if bool_decide (w.(waiting) = WaitClose) then Some (set_waiting WaitDone w) else None
  end.
End Transport.
