(* ===== verification/ClaudeReports.v ===== *)
(** The turns claude's transport reports: the machine that accepts what the
    contract lets it report of two lanes, the inputs' turns and claude's own
    ([lane]), the transports that can be ([reachable]), and that each of the
    reader's critical sections keeps the shape the machine stands on. *)
From Stdlib Require Import ZArith QArith Ascii String Lia.
From stdpp Require Import base tactics list strings option gmap.
From S2P Require Import Prelude GoStr Bytes Json Contract Observation Requests SessionState Proc Codex CodexTurn Claude ClaudeTurn.

#[local] Open Scope string_scope.
#[local] Open Scope list_scope.

(** ** What may be reported of turns *)

(** The inputs whose turns began and ended, the turn of claude's own that runs,
    and whether claude exited. *)
Record lanes := mkLanes { begun : gset string; over : gset string; own_on : option string; gone : bool }.
Definition lanes0 : lanes := mkLanes ∅ ∅ None false.

Definition never_ran (o : TurnOutcome) : bool := bool_decide (o = TurnCancelled) || bool_decide (o = TurnRefused).

(** An input's turn begins once at most, before it ends; it ends once at most,
    cancelled or refused only if it never began, and is not spoken of after;
    claude's own turns begin and end one after the other; nothing follows the
    exit. *)
Definition lane (a : lanes) (e : Event) : option lanes :=
  let n := e.(ev_native) in let own := e.(ev_auto) in
  if a.(gone) then None
  else
    match e.(ev_kind) with
    | Started =>
      if negb (String.eqb own "") then
        if bool_decide (a.(own_on) = None) then Some (mkLanes a.(begun) a.(over) (Some own) false) else None
      else if bool_decide (n ∈ a.(begun)) || bool_decide (n ∈ a.(over)) || String.eqb n "" then None
      else Some (mkLanes ({[n]} ∪ a.(begun)) a.(over) a.(own_on) false)
    | Ended =>
      if negb (String.eqb own "") then
        if bool_decide (a.(own_on) = Some own) then Some (mkLanes a.(begun) a.(over) None false) else None
      else if bool_decide (n ∈ a.(over)) || String.eqb n "" || (never_ran e.(ev_outcome) && bool_decide (n ∈ a.(begun))) then None
      else Some (mkLanes a.(begun) ({[n]} ∪ a.(over)) a.(own_on) false)
    | Retrying | RateLimited => if bool_decide (n ∈ a.(over)) then None else Some a
    | PromptRaised | PromptResolved | Background => Some a
    | Exited => Some (mkLanes a.(begun) a.(over) a.(own_on) true)
    end.

Definition run_lanes (a : lanes) (es : list Event) : option lanes := foldl (fun a e => a ≫= fun a => lane a e) (Some a) es.

Definition told (h : list cact) : list Event := omap (fun x => match x with Told e => Some e | _ => None end) h.

(** A transport that was just started. *)
Definition init : world :=
  mkWorld (mkCore ∅ None None "" false "" 0) [] ∅ 0 false false false 0 [] WaitProcess None ∅ [].

(** The names of inputs are never used twice. *)
Definition admitted (w : world) (m : move) : Prop := match m with MSubmit n _ => n <> "" /\ w.(subs) !! n = None | _ => True end.

Lemma run_lanes_None es : foldl (fun a e => a ≫= fun a => lane a e) None es = None.
Proof. by induction es. Qed.
Lemma run_lanes_app a es es' : run_lanes a (es ++ es') = run_lanes a es ≫= fun a => run_lanes a es'.
Proof. unfold run_lanes. rewrite foldl_app. destruct (foldl _ _ es); [done|apply run_lanes_None]. Qed.
Lemma run_lanes_cons a e es : run_lanes a (e :: es) = lane a e ≫= fun a => run_lanes a es.
Proof. unfold run_lanes. cbn. destruct (lane a e); [done|apply run_lanes_None]. Qed.
Lemma told_app h l : told (h ++ l) = told h ++ told l.
Proof. unfold told. by rewrite omap_app. Qed.
Lemma told_told es : told (map Told es) = es.
Proof. induction es as [|e es IH]; [done|]. cbn. by f_equal. Qed.

(** ** What the reader has still to report *)

Definition tells (l : list todo) : list Event := omap (fun x => match x with ATell e => Some e | _ => None end) l.
(** It reports before it does anything else. *)
Fixpoint tells_first (l : list todo) : Prop :=
  match l with [] => True | ATell _ :: l => tells_first l | _ :: l => tells l = [] end.

Lemma tells_app l l' : tells (l ++ l') = tells l ++ tells l'.
Proof. unfold tells. by rewrite omap_app. Qed.
Lemma tells_first_none l : tells l = [] -> tells_first l.
Proof. destruct l as [|[] l]; cbn; by try discriminate. Qed.
Lemma tells_first_app l l' : tells_first l -> tells l' = [] -> tells_first (l ++ l').
Proof.
  intros H H'. induction l as [|x l IH]; [by apply tells_first_none|].
  destruct x; cbn in *; try (rewrite tells_app, H'; cbn; by rewrite app_nil_r); auto.
Qed.

(** ** The turns the transport is on *)

(** Of the inputs' names [Q]: the turn it is on was not said to end, and was
    said to begin when claude started it; its own turn is the one that runs. *)
Record lanes_ok (Q : string -> Prop) (c : core) (a : lanes) : Prop := mkLanesOk {
  lo_gone : a.(gone) = false;
  lo_turn : forall ts, c.(turn) = Some ts ->
    ts.(native) <> "" /\ ts.(native) ∉ a.(over) /\ Q ts.(native) /\ (ts.(native) ∈ a.(begun) <-> ts.(started) = true);
  lo_own : a.(own_on) = native <$> c.(own);
  lo_named : forall ts, c.(own) = Some ts -> ts.(native) <> "";
  lo_names : forall n, n ∈ a.(begun) \/ n ∈ a.(over) -> Q n }.

(** What a critical section leaves: what it has the reader report is allowed,
    and the turns are in shape after it. *)
Definition handled (Q : string -> Prop) (a : lanes) (r : core * list todo) : Prop :=
  tells_first r.2 /\ exists a', run_lanes a (tells r.2) = Some a' /\ lanes_ok Q r.1 a'.

Lemma lanes_ok_turn Q c c' a : lanes_ok Q c a -> c'.(turn) = None \/ c'.(turn) = c.(turn) -> c'.(own) = c.(own) -> lanes_ok Q c' a.
Proof.
  intros [H1 H2 H3 H4 H5] Ht Ho. split; [done| |by rewrite Ho|by rewrite Ho|done].
  intros ts Hts. destruct Ht as [E|E]; rewrite E in Hts; [done|auto].
Qed.

Lemma lanes_ok_fail Q c a f : lanes_ok Q c a -> lanes_ok Q (fail_current f c) a.
Proof.
  intros H. unfold fail_current. destruct H as [H1 H2 H3 H4 H5].
  destruct (turn c) as [ts|] eqn:Et; [|destruct (own c) as [ts|] eqn:Eo]; (split; [done| | | |done]); cbn; rewrite ?Et, ?Eo in *; try done.
  - intros x [= <-]. by apply (H2 ts).
  - intros x [= <-]. by apply (H4 ts).
Qed.

Lemma ownNative_ne t : ownNative t <> "".
Proof. done. Qed.

Lemma handled_none Q c' a l : lanes_ok Q c' a -> tells l = [] -> handled Q a (c', l).
Proof. intros H Hl. split; [by apply tells_first_none|]. exists a. cbn [fst snd]. by rewrite Hl. Qed.

(** ** Reports of a turn *)

Lemma lane_begin a n : a.(gone) = false -> n <> "" -> n ∉ a.(begun) -> n ∉ a.(over) ->
  lane a (ev_start n "") = Some (mkLanes ({[n]} ∪ a.(begun)) a.(over) a.(own_on) false).
Proof.
  intros Hg Hn H1 H2. unfold lane. rewrite Hg. cbn. rewrite (bool_decide_eq_false_2 (n ∈ begun a)), (bool_decide_eq_false_2 (n ∈ over a)) by done.
  by rewrite (proj2 (String.eqb_neq _ _) Hn).
Qed.

Lemma lane_end a n o t err : a.(gone) = false -> n <> "" -> n ∉ a.(over) -> (never_ran o = true -> n ∉ a.(begun)) ->
  lane a (ev_end n "" o t err) = Some (mkLanes a.(begun) ({[n]} ∪ a.(over)) a.(own_on) false).
Proof.
  intros Hg Hn H1 H2. unfold lane. rewrite Hg. cbn. rewrite (bool_decide_eq_false_2 (n ∈ over a)) by done.
  rewrite (proj2 (String.eqb_neq _ _) Hn). cbn. destruct (never_ran o); [|done]. cbn. by rewrite bool_decide_eq_false_2 by auto.
Qed.

Lemma lane_own_begin a n : a.(gone) = false -> n <> "" -> a.(own_on) = None ->
  lane a (ev_start "" n) = Some (mkLanes a.(begun) a.(over) (Some n) false).
Proof. intros Hg Hn H. unfold lane. rewrite Hg. cbn. rewrite (proj2 (String.eqb_neq _ _) Hn). cbn. by rewrite bool_decide_eq_true_2. Qed.

Lemma lane_own_end a n o t err : a.(gone) = false -> n <> "" -> a.(own_on) = Some n ->
  lane a (ev_end "" n o t err) = Some (mkLanes a.(begun) a.(over) None false).
Proof. intros Hg Hn H. unfold lane. rewrite Hg. cbn. rewrite (proj2 (String.eqb_neq _ _) Hn). cbn. by rewrite bool_decide_eq_true_2. Qed.

(** The turn of the input it is on ends. *)
Lemma handled_end Q c c' a ts o t err l : lanes_ok Q c a -> c.(turn) = Some ts -> (never_ran o = true -> ts.(started) = false) ->
  c'.(turn) = None -> c'.(own) = c.(own) -> tells l = [] -> handled Q a (c', ATell (ev_end ts.(native) "" o t err) :: l).
Proof.
  intros [H1 H2 H3 H4 H5] Ht Ho Ht' Ho' Hl. destruct (H2 ts Ht) as (Hn & Hov & HQ & Hb). split; [by apply (tells_first_none l)|].
  cbn [snd]. change (tells (ATell (ev_end (native ts) "" o t err) :: l)) with (ev_end (native ts) "" o t err :: tells l).
  rewrite Hl, run_lanes_cons, lane_end; [|done..|]; [|intros E B%Hb; by rewrite Ho in B]. cbn. eexists. split; [done|].
  split; cbn; rewrite ?Ht', ?Ho'; try done. intros n [?|[->%elem_of_singleton|?]%elem_of_union]; auto.
Qed.

Lemma onLifecycle_ok Q uuid state c a : lanes_ok Q c a -> handled Q a (onLifecycle uuid state c).
Proof.
  intros H. assert (E : forall c', c'.(turn) = c.(turn) -> c'.(own) = c.(own) -> handled Q a (c', [])).
  { intros c' Et Eo. apply handled_none; [|done]. eapply lanes_ok_turn; [exact H|by right|done]. }
  unfold onLifecycle. destruct (_ || _)%bool.
  - cbn [turn set_receipts]. destruct (turn c) as [ts|] eqn:Ht; [|by apply E]. destruct (_ && _)%bool eqn:B; [|by apply E].
    destruct H as [H1 H2 H3 H4 H5]. destruct (H2 ts Ht) as (Hn & Hov & HQ & Hb).
    apply andb_true_iff in B as [[_ Hm%String.eqb_eq]%andb_true_iff Hs%negb_true_iff]. subst uuid.
    split; [done|]. change (tells _) with [ev_start (native ts) ""]. rewrite run_lanes_cons.
    rewrite lane_begin; [|done|done|intros B%Hb; congruence|done]. cbn. eexists. split; [done|]. split; cbn; try done.
    + intros x [= <-]. cbn. split_and!; [done..|]. split; [done|]. intros _. set_solver.
    + intros n [[->%elem_of_singleton|?]%elem_of_union|?]; auto.
  - destruct (_ || _)%bool; [|by apply E]. destruct (turn c) as [ts|] eqn:Ht; [|by apply E].
    destruct (_ && _)%bool eqn:B; [|by apply E]. apply andb_true_iff in B as [Hm%String.eqb_eq Hs%negb_true_iff]. subst uuid.
    by eapply handled_end.
Qed.

Lemma err_turn_ok Q c c' a l : lanes_ok Q c a -> c'.(turn) = None -> c'.(own) = c.(own) -> tells l = [] ->
  handled Q a (c', err_turn c.(turn) ++ l).
Proof.
  intros H Ht Ho Hl. unfold err_turn. destruct (turn c) as [ts|] eqn:E; cbn [app]; [by eapply handled_end|].
  apply handled_none; [|done]. eapply lanes_ok_turn; [exact H|by left|done].
Qed.

Lemma onForeign_ok Q sid c a : lanes_ok Q c a -> handled Q a (onForeign sid c).
Proof. intros H. unfold onForeign. destruct (_ =? _)%string; [by eapply err_turn_ok|by apply handled_none]. Qed.

Lemma onMissing_ok Q c a : lanes_ok Q c a -> handled Q a (onMissing c).
Proof. intros H. by eapply err_turn_ok. Qed.

Lemma onInit_ok Q caps c a : lanes_ok Q c a -> handled Q a (onInit caps c).
Proof.
  intros H. apply handled_none; [eapply lanes_ok_turn; [exact H|by right|done]|]. by destruct (capsDone c), (missing caps).
Qed.

Lemma ownStarted_ok Q c a : lanes_ok Q c a -> handled Q a (ownStarted c).
Proof.
  intros H. unfold ownStarted. destruct (_ || _)%bool eqn:B; [by apply handled_none|]. destruct H as [H1 H2 H3 H4 H5].
  apply orb_false_iff in B as [[_ Ho]%orb_false_iff _]. destruct (own c); [done|]. split; [done|].
  change (tells _) with [ev_start "" (ownNative (task c))]. rewrite run_lanes_cons, lane_own_begin by done. cbn. eexists. split; [done|].
  split; cbn; try done. by intros ts [= <-].
Qed.

Section Result.
Context (reset_time : string -> Z -> option Time).

Lemma result_event_own ts reason is_error result status now : exists o t err,
  result_event reset_time ts true reason is_error result status now = ev_end "" ts.(native) o t err.
Proof. unfold result_event. destruct (HasPrefix _ _); [|destruct is_error]; eauto. Qed.

(** A result ends no turn cancelled or refused. *)
Lemma result_event_input ts reason is_error result status now : exists o t err,
  result_event reset_time ts false reason is_error result status now = ev_end ts.(native) "" o t err /\ never_ran o = false.
Proof. unfold result_event. destruct (HasPrefix _ _); [|destruct is_error]; eauto 6. Qed.

Lemma onResult_ok Q origin reason is_error result status now c a : lanes_ok Q c a ->
  handled Q a (onResult reset_time origin reason is_error result status now c).
Proof.
  intros H. unfold onResult. destruct (_ || _)%bool eqn:B.
  - destruct H as [H1 H2 H3 H4 H5]. destruct (own c) as [ts|] eqn:Eo; cbn [fmap option_fmap option_map] in H3.
    + destruct (result_event_own ts reason is_error result status now) as (o & t & err & ->). split; [done|].
      change (tells _) with [ev_end "" (native ts) o t err]. rewrite run_lanes_cons, lane_own_end by (done || by apply H4). cbn. eexists.
      split; [done|]. split; cbn; try done.
    + assert (E : exists n c', (if (task (set_own None c) =? "")%string
                     then (ownNative ("result-" ++ Itoa (Z.of_nat (S (untasked (set_own None c)))))%string, set_untasked (S (untasked (set_own None c))) (set_own None c))
                     else (ownNative (task (set_own None c)), set_own None c)) = (n, c') /\ n <> "" /\ c'.(turn) = c.(turn) /\ c'.(own) = None).
      { destruct (String.eqb (task (set_own None c)) ""); (eexists _, _; split; [reflexivity|done]). }
      destruct E as (n & c' & -> & Hn & Et & Eo'). cbn [turn set_own].
      destruct (result_event_own (mkTurn n false no_failure) reason is_error result status now) as (o & t & err & ->). cbn [native].
      split; [done|]. change (tells _) with [ev_start "" n; ev_end "" n o t err].
      rewrite run_lanes_cons, lane_own_begin by done. cbn [mbind option_bind]. rewrite run_lanes_cons, lane_own_end by done. cbn. eexists. split; [done|].
      split; cbn; rewrite ?Et, ?Eo'; done.
  - cbn zeta iota. destruct (turn c) as [ts|] eqn:Et.
    + destruct (result_event_input ts reason is_error result status now) as (o & t & err & -> & Ho).
      eapply handled_end; [exact H|exact Et|congruence|done..].
    + apply handled_none; [|done]. eapply lanes_ok_turn; [exact H|by left|done].
Qed.
End Result.

(** ** The transports that can be *)

Section World.
Context (EqualFold : string -> string -> bool).
Context (reset_time : string -> Z -> option Time) (times100 : Q -> Q) (int64_of : Q -> Z).
Context (decode_rules : string -> option (list (gmap string json))) (decode_object : string -> gmap string json).
Context (rate_json : RateLimitData -> option string) (id : string).
Notation step := (step EqualFold reset_time times100 int64_of decode_rules decode_object rate_json id).
Notation perform := (perform reset_time decode_rules decode_object rate_json).

Inductive reachable : world -> Prop :=
| reach_init : reachable init
| reach_step w m w' : reachable w -> admitted w m -> step m w = Some w' -> reachable w'.

(** Where wait is past the reader, past the permissions, past the exit. *)
Definition read_out (p : wait_pc) : bool := match p with WaitProcess | WaitRead => false | _ => true end.
Definition dropped (p : wait_pc) : bool := match p with WaitReport | WaitClose | WaitDone => true | _ => false end.
Definition exited (p : wait_pc) : bool := match p with WaitClose | WaitDone => true | _ => false end.

Record lanes_inv (w : world) : Prop := mkLanesInv {
  li_first : tells_first w.(rd);
  li_read : read_out w.(waiting) = true -> w.(rd) = [];
  li_dropped : dropped w.(waiting) = true -> w.(asks) = [] /\ w.(amu) = None;
  li_gone : exited w.(waiting) = true -> is_Some (run_lanes lanes0 (told w.(hist)));
  li_lanes : exited w.(waiting) = false -> exists a a', run_lanes lanes0 (told w.(hist)) = Some a /\
    run_lanes a (tells w.(rd)) = Some a' /\ lanes_ok (fun n => is_Some (w.(subs) !! n)) w.(w_core) a' }.

Lemma dropAsks_all l : dropAsks decode_rules decode_object "" l = ([], []).
Proof. unfold dropAsks. assert (E : List.filter (fun a => negb ("" =? "")%string && negb (a_native a =? "")%string) l = []) by (by induction l). by rewrite E. Qed.

(** A step that leaves the turns, and of reports adds the permissions' only. *)
Definition prompt_event (e : Event) : Prop := e.(ev_kind) = PromptRaised \/ e.(ev_kind) = PromptResolved.

Lemma prompts_lanes a es : a.(gone) = false -> Forall prompt_event es -> run_lanes a es = Some a.
Proof.
  intros Hg. induction 1 as [|e es He _ IH]; [done|]. rewrite run_lanes_cons. unfold lane at 1. rewrite Hg. destruct He as [E|E]; rewrite E; exact IH.
Qed.

Lemma lanes_gone a e a' : lane a e = Some a' -> a.(gone) = false.
Proof. unfold lane. by destruct (gone a). Qed.

Lemma lanes_alive a es a' : run_lanes a es = Some a' -> a'.(gone) = false -> a.(gone) = false.
Proof.
  destruct es as [|e es]; [by intros [= ->]|]. rewrite run_lanes_cons. destruct (lane a e) eqn:E; [|done]. intros _ _. by eapply lanes_gone.
Qed.

Lemma lanes_ok_names (P Q : string -> Prop) c a : (forall n, P n -> Q n) -> lanes_ok P c a -> lanes_ok Q c a.
Proof. intros HPQ [H1 H2 H3 H4 H5]. split; try done; [|auto]. intros ts Hts. destruct (H2 ts Hts) as (?&?&?&?). auto. Qed.

(** What a step does that is none of the reader's, nor wait's. *)
Lemma aside_ok w w' es : lanes_inv w -> w'.(rd) = w.(rd) -> w'.(waiting) = w.(waiting) ->
  w'.(w_core).(turn) = w.(w_core).(turn) \/ w'.(w_core).(turn) = None -> w'.(w_core).(own) = w.(w_core).(own) ->
  told w'.(hist) = told w.(hist) ++ es -> (es = [] \/ dropped w.(waiting) = false /\ Forall prompt_event es) ->
  (forall n, is_Some (w.(subs) !! n) -> is_Some (w'.(subs) !! n)) ->
  (dropped w.(waiting) = true -> w'.(asks) = [] /\ w'.(amu) = None) -> lanes_inv w'.
Proof.
  intros [I1 I2 I3 I4 I5] Er Ew Et Eo Eh He Hs Hd. split; rewrite ?Er, ?Ew; try done.
  - intros Hx. destruct He as [->|[Hdr _]]; [rewrite Eh, app_nil_r; auto|]. by destruct (waiting w).
  - intros Hx. destruct (I5 Hx) as (a & a' & Ha & Ha' & Hok).
    assert (Hes : Forall prompt_event es) by (destruct He as [->|[_ ?]]; [by constructor|done]).
    exists a, a'. rewrite Eh, run_lanes_app, Ha. cbn. split_and!; [|done|].
    + apply prompts_lanes; [|done]. eapply lanes_alive; [done|apply Hok].
    + eapply lanes_ok_names; [exact Hs|]. eapply lanes_ok_turn; [exact Hok|tauto|done].
Qed.

(** What raising, withdrawing and dropping permissions reports. *)
Lemma raiseNext_events l : Forall prompt_event (raiseNext decode_rules decode_object l).2.
Proof. unfold raiseNext. destruct l as [|a l]; [by constructor|]. destruct (raised a); repeat constructor. Qed.
Lemma onCancelAsk_events i l : Forall prompt_event (onCancelAsk decode_rules decode_object i l).2.
Proof.
  unfold onCancelAsk. destruct (take_ask i l) as [[a l']|]; [|by constructor]. pose proof (raiseNext_events l') as H.
  destruct (raiseNext _ _ l') as [l'' es]. apply Forall_app. split; [|done]. destruct (raised a); [|done]. constructor; [by right|done].
Qed.
Lemma dropAsks_events n l : Forall prompt_event (dropAsks decode_rules decode_object n l).2.
Proof. apply raiseNext_events. Qed.

(** ** The reader's steps *)

Lemma reading w x rest : lanes_inv w -> w.(rd) = x :: rest -> read_out w.(waiting) = false.
Proof. intros I Hr. destruct (read_out (waiting w)) eqn:E; [|done]. apply (li_read _ I) in E. congruence. Qed.

Lemma reading_inv w w' : read_out w.(waiting) = false -> w'.(waiting) = w.(waiting) -> tells_first w'.(rd) ->
  (exists a a', run_lanes lanes0 (told w'.(hist)) = Some a /\ run_lanes a (tells w'.(rd)) = Some a' /\
     lanes_ok (fun n => is_Some (w'.(subs) !! n)) w'.(w_core) a') -> lanes_inv w'.
Proof. intros Hw E Hf H. split; rewrite ?E; try done; by destruct (waiting w). Qed.

Lemma section_ok w x rest r : lanes_inv w -> w.(rd) = x :: rest -> tells w.(rd) = [] ->
  (forall a, lanes_ok (fun n => is_Some (w.(subs) !! n)) w.(w_core) a -> handled (fun n => is_Some (w.(subs) !! n)) a r) ->
  lanes_inv (section r rest w).
Proof.
  intros I Hr Ht H. pose proof (reading _ _ _ I Hr) as Hw. destruct (li_lanes _ I) as (a & a' & Ha & Ha' & Hok); [by destruct (waiting w)|].
  rewrite Ht in Ha'. injection Ha' as ->. destruct (H _ Hok) as (Hf & b & Hb & Hok').
  assert (Hrest : tells rest = []).
  { rewrite Hr in Ht. change (x :: rest) with ([x] ++ rest) in Ht. rewrite tells_app in Ht. by apply app_eq_nil in Ht as [_ ?]. }
  apply (reading_inv w); [done|done|by apply tells_first_app|]. exists a', b. cbn. rewrite tells_app, Hrest, app_nil_r. auto.
Qed.

Lemma aside_read w x rest w' es : lanes_inv w -> w.(rd) = x :: rest -> tells w.(rd) = [] -> tells w'.(rd) = [] ->
  w'.(waiting) = w.(waiting) -> w'.(w_core) = w.(w_core) -> w'.(subs) = w.(subs) ->
  told w'.(hist) = told w.(hist) ++ es -> Forall prompt_event es -> lanes_inv w'.
Proof.
  intros I Hr Ht Ht' Ew Ec Es Eh He. pose proof (reading _ _ _ I Hr) as Hw.
  destruct (li_lanes _ I) as (a & a' & Ha & Ha' & Hok); [by destruct (waiting w)|]. rewrite Ht in Ha'. injection Ha' as ->.
  apply (reading_inv w); [done|done|by apply tells_first_none|]. exists a', a'. rewrite Ht', Ec, Es, Eh, run_lanes_app, Ha. cbn.
  split_and!; [|done|done]. apply prompts_lanes; [apply Hok|done].
Qed.

Lemma tell_ok w e rest : lanes_inv w -> w.(rd) = ATell e :: rest -> lanes_inv (set_rd rest (log [Told e] w)).
Proof.
  intros I Hr. pose proof (reading _ _ _ I Hr) as Hw. destruct (li_lanes _ I) as (a & a' & Ha & Ha' & Hok); [by destruct (waiting w)|].
  pose proof (li_first _ I) as Hf. rewrite Hr in Hf, Ha'. change (tells (ATell e :: rest)) with (e :: tells rest) in Ha'.
  rewrite run_lanes_cons in Ha'. destruct (lane a e) as [b|] eqn:Hb; [|done].
  apply (reading_inv w); [done|done|done|]. exists b, a'.
  cbn [hist set_rd log rd subs w_core]. rewrite told_app. change (told [Told e]) with [e]. rewrite run_lanes_app, Ha. cbn [mbind option_bind].
  rewrite run_lanes_cons, Hb. auto.
Qed.

(** A report that speaks of the turn it is on leaves the lanes as they are. *)
Lemma speak_ok Q c c' a k : lanes_ok Q c a -> lanes_ok Q c' a ->
  (k = [] \/ exists e, k = [ATell e] /\ (e.(ev_kind) = Background \/
     (e.(ev_kind) = Retrying \/ e.(ev_kind) = RateLimited) /\
     e.(ev_native) = match c.(turn) with Some ts => ts.(native) | None => "" end)) ->
  ~ Q "" -> handled Q a (c', k).
Proof.
  intros H H' Hk HQ. destruct Hk as [->|(e & -> & He)]; [by apply handled_none|]. split; [done|]. exists a. split; [|done].
  change (tells _) with [e]. rewrite run_lanes_cons. unfold lane. rewrite (lo_gone _ _ _ H).
  destruct He as [-> |[Hk Hn]]; [done|]. assert (Ho : ev_native e ∉ over a).
  { rewrite Hn. destruct (turn c) as [ts|] eqn:Et; [by apply (lo_turn _ _ _ H)|]. intros Hx. apply HQ, (lo_names _ _ _ H). by right. }
  destruct Hk as [-> | ->]; by rewrite bool_decide_eq_false_2.
Qed.

Lemma write_told fails l w : told (write fails l w).(hist) = told w.(hist).
Proof. unfold write. destruct (_ || _)%bool; [done|]. cbn. by rewrite told_app, app_nil_r. Qed.
Lemma write_same fails l w : (write fails l w).(w_core) = w.(w_core) /\ (write fails l w).(waiting) = w.(waiting) /\
  (write fails l w).(subs) = w.(subs) /\ (write fails l w).(rd) = w.(rd) /\ (write fails l w).(asks) = w.(asks) /\ (write fails l w).(amu) = w.(amu).
Proof. unfold write. by destruct (_ || _)%bool. Qed.

Lemma rejected_ok Q c a resume status_ : lanes_ok Q c a ->
  lanes_ok Q (match c.(turn) with
              | Some ts => if String.eqb status_ "rejected"
                           then set_turn (Some (with_fail (mkFailure ts.(fail).(tag) ts.(fail).(status) ts.(fail).(f_text) true resume) ts)) c else c
              | None => c
              end) a.
Proof.
  intros [H1 H2 H3 H4 H5]. destruct (turn c) as [ts|] eqn:Et; [|by split; rewrite ?Et]. destruct (_ =? _)%string; [|by split; rewrite ?Et].
  split; cbn; try done. intros x [= <-]. by apply (H2 ts).
Qed.

Lemma perform_ok fails w x rest w' : lanes_inv w -> w.(subs) !! "" = None -> w.(rd) = x :: rest ->
  perform fails x rest w = Some w' -> lanes_inv w'.
Proof.
  intros I Hs Hr Hp.
  assert (HQ : forall P : Prop, (exists e, x = ATell e) \/ (tells w.(rd) = [] /\ tells rest = [])).
  { intros _. pose proof (li_first _ I) as Hf. rewrite Hr in Hf |- *. destruct x; cbn in *; eauto. }
  destruct (HQ True) as [[e ->]|[Ht Hrest]]; [injection Hp as <-; by apply tell_ok|]. clear HQ.
  assert (HQ : ~ is_Some (subs w !! "")) by (rewrite Hs; by intros [? [=]]).
  destruct x; cbn [ClaudeTurn.perform] in Hp; cbn zeta in Hp; try match type of Hp with (if is_none ?o then _ else _) = _ => destruct (is_none o); [|done] end;
    injection Hp as <-.
  1-9, 17: eapply section_ok; [done..|]; intros a H.
  - by apply onLifecycle_ok.
  - by apply onInit_ok.
  - by apply onMissing_ok.
  - by apply ownStarted_ok.
  - apply handled_none; [|done]. eapply lanes_ok_turn; [exact H|by right|done].
  - eapply speak_ok; [exact H|exact H| |exact HQ]. destruct (turn (w_core w)) as [ts|] eqn:Et; [|by left].
    destruct (_ =? _)%string; [by left|]. right. eexists. split; [reflexivity|]. right. by split; [left|].
  - apply handled_none; [|done]. by apply lanes_ok_fail.
  - eapply speak_ok; [exact H| |right; eexists; split; [reflexivity|]|exact HQ]; [|right; split; [by right|done]].
    by apply rejected_ok.
  - by apply onResult_ok.
  - by apply onForeign_ok.
  - eapply (aside_read w _ rest _ []); try done. cbn. by rewrite app_nil_r.
  - eapply (aside_read w _ rest _ []); try done; cbn; [by destruct (_ || _)%bool|by rewrite app_nil_r].
  - eapply (aside_read w _ rest _ (raiseNext decode_rules decode_object (asks w ++ [_])).2); try done; [|apply raiseNext_events].
    cbn. by rewrite told_app, told_told.
  - eapply (aside_read w _ rest _ []); try done; cbn; try apply write_same. by rewrite write_told, app_nil_r.
  - eapply (aside_read w _ rest _ []); try done; cbn; try apply write_same. by rewrite write_told, app_nil_r.
  - eapply (aside_read w _ rest _ (onCancelAsk decode_rules decode_object _ (asks w)).2); try done; [|apply onCancelAsk_events].
    cbn. by rewrite told_app, told_told.
  - eapply (aside_read w _ rest _ (dropAsks decode_rules decode_object _ (asks w)).2); try done; [|apply dropAsks_events].
    cbn. by rewrite told_app, told_told.
  - by rewrite Hr in Ht.
  - eapply (aside_read w _ rest _ []); try done. cbn. by rewrite app_nil_r.
Qed.

(** ** The other threads' *)

Lemma onFrame_ok w sid f now : lanes_inv w -> w.(rd) = [] -> read_out w.(waiting) = false ->
  lanes_inv (set_rd (onFrame EqualFold times100 int64_of id sid f now) (log [Read f] w)).
Proof.
  intros I Hr Hw. destruct (li_lanes _ I) as (a & a' & Ha & Ha' & Hok); [by destruct (waiting w)|]. rewrite Hr in Ha'. injection Ha' as ->.
  assert (H : tells_first (onFrame EqualFold times100 int64_of id sid f now) /\
    run_lanes a' (tells (onFrame EqualFold times100 int64_of id sid f now)) = Some a').
  { assert (E : forall l, tells l = [] -> tells_first l /\ run_lanes a' (tells l) = Some a') by (intros l El; rewrite El; split; [by apply tells_first_none|done]).
    unfold onFrame. destruct (_ && _)%bool; [by apply E|]. destruct f; try (by apply E).
    - split; [done|]. change (tells _) with [ev_background (backgroundTasks tasks)]. rewrite run_lanes_cons. unfold lane.
      by rewrite (lo_gone _ _ _ Hok).
    - destruct (negb _); [by apply E|]. destruct (_ =? _)%string; [by apply E|]. destruct blocks; by apply E.
    - destruct (rateLimit _ _ _) as [[]|]; by apply E. }
  apply (reading_inv w); [done|done|apply H|]. exists a', a'. cbn [hist set_rd log rd subs w_core].
  rewrite told_app, app_nil_r, Ha. split_and!; [done|apply H|done].
Qed.

Lemma submit_ok w n text : lanes_inv w -> n <> "" -> w.(subs) !! n = None ->
  lanes_inv (set_sub n (SubWrite text) (set_core (set_turn (Some (mkTurn n false no_failure)) (set_receipts ({[n]} ∪ w.(w_core).(receipts)) w.(w_core))) w)).
Proof.
  intros [I1 I2 I3 I4 I5] Hn Hs. split; cbn [rd waiting asks amu hist set_sub set_core subs w_core]; try done.
  intros Hx. destruct (I5 Hx) as (a & a' & Ha & Ha' & [H1 H2 H3 H4 H5]). exists a, a'. split_and!; [done|done|].
  assert (Hno : n ∉ begun a' /\ n ∉ over a') by (split; intros Hin; [assert (is_Some (subs w !! n)) as [? E] by (apply H5; by left)|
    assert (is_Some (subs w !! n)) as [? E] by (apply H5; by right)]; congruence).
  split; cbn; try done.
  - intros ts [= <-]. cbn. destruct Hno. split_and!; [done|done|by rewrite lookup_insert_eq|by split].
  - intros m Hm. destruct (decide (n = m)) as [->|]; [by rewrite lookup_insert_eq|]. rewrite lookup_insert_ne by done. auto.
Qed.

Lemma set_sub_ok (w : world) n p m : is_Some (w.(subs) !! m) -> is_Some (<[n := p]> w.(subs) !! m).
Proof. intros H. destruct (decide (n = m)) as [->|]; [by rewrite lookup_insert_eq|by rewrite lookup_insert_ne]. Qed.

Lemma wait_ok w w' es : lanes_inv w -> w'.(rd) = w.(rd) -> w'.(w_core) = w.(w_core) -> w'.(subs) = w.(subs) ->
  told w'.(hist) = told w.(hist) ++ es -> Forall prompt_event es -> exited w.(waiting) = false -> exited w'.(waiting) = false ->
  (read_out w'.(waiting) = true -> w.(rd) = []) -> (dropped w'.(waiting) = true -> w'.(asks) = [] /\ w'.(amu) = None) -> lanes_inv w'.
Proof.
  intros [I1 I2 I3 I4 I5] Er Ec Es Eh He Hx Hx' Hr Hd. split; rewrite ?Er, ?Ec, ?Es; try done; [congruence|]. intros _.
  destruct (I5 Hx) as (a & a' & Ha & Ha' & Hok). exists a, a'. rewrite Eh, run_lanes_app, Ha. cbn. split_and!; [|done|done].
  apply prompts_lanes; [|done]. eapply lanes_alive; [done|apply Hok].
Qed.

Lemma step_ok m w w' : lanes_inv w -> w.(subs) !! "" = None -> admitted w m -> step m w = Some w' -> lanes_inv w'.
Proof.
  intros I Hs Ha Hp. assert (Hd := li_dropped _ I).
  destruct m; cbn [ClaudeTurn.step] in Hp; cbn zeta in Hp.
  - destruct (_ && _)%bool eqn:B in Hp; [|done]. injection Hp as <-. apply andb_true_iff in B as [Hr Hw].
    apply onFrame_ok; [done|by destruct (rd w)|]. destruct (waiting w); done.
  - destruct (rd w) as [|x rest] eqn:Hr; [done|]. by eapply perform_ok.
  - destruct (bool_decide _); injection Hp as <-; [|destruct Ha; by apply submit_ok].
    eapply (aside_ok w _ []); try done; cbn; [by left|by rewrite app_nil_r|by left|intros; by apply set_sub_ok].
  - destruct (subs w !! native) as [[]|]; try done. injection Hp as <-.
    destruct (stdinClosed w); [|destruct fails]; (eapply (aside_ok w _ []); try done; cbn; [by left|by rewrite ?told_app, !app_nil_r|by left|intros; by apply set_sub_ok]).
  - destruct (subs w !! native) as [[]|]; try done. injection Hp as <-.
    eapply (aside_ok w _ []); try done; cbn; [|..|by rewrite app_nil_r|by left|intros; by apply set_sub_ok];
      (destruct (turn (w_core w)) as [ts|] eqn:Et; [destruct (_ =? _)%string|]); cbn; auto.
  - destruct (subs w !! native) as [[]|]; try done. destruct (bool_decide _); [done|]. injection Hp as <-.
    eapply (aside_ok w _ []); try done; cbn; [by left|by rewrite app_nil_r|by left|intros; by apply set_sub_ok].
  - destruct (subs w !! native) as [[]|]; try done. injection Hp as <-.
    eapply (aside_ok w _ []); try done; cbn; [by left|by rewrite app_nil_r|by left|intros; by apply set_sub_ok].
  - destruct (amu w) eqn:Em; [done|]. destruct (asks w) as [|x rest] eqn:Eas; [done|]. destruct (_ && _)%bool; [|done]. injection Hp as <-.
    assert (Hdr : dropped (waiting w) = false) by (destruct (dropped (waiting w)); [|done]; by destruct Hd).
    eapply (aside_ok w _ [ev_resolved _ _ "answer"]); try done; cbn; [by left|by rewrite told_app| |by rewrite Hdr].
    right. split; [done|]. constructor; [by right|done].
  - destruct (amu w) as [[x c|]|] eqn:Em; try done. injection Hp as <-.
    assert (Hdr : dropped (waiting w) = false) by (destruct (dropped (waiting w)); [|done]; by destruct Hd as [_ ?]).
    destruct (write_same fails (Response (a_id x) (Decision_ decode_rules (perm x) c true)) w) as (E1 & E2 & E3 & E4 & E5 & E6).
    eapply (aside_ok w _ []); cbn; rewrite ?E1, ?E2, ?E3, ?E4, ?E5; try done; [by left|by rewrite write_told, app_nil_r|by left|by rewrite Hdr].
  - destruct (amu w) as [[]|] eqn:Em; try done. injection Hp as <-.
    assert (Hdr : dropped (waiting w) = false) by (destruct (dropped (waiting w)); [|done]; by destruct Hd as [_ ?]).
    eapply (aside_ok w _ (raiseNext decode_rules decode_object (asks w)).2); try done; cbn; [by left|by rewrite told_app, told_told| |by rewrite Hdr].
    right. split; [done|apply raiseNext_events].
  - injection Hp as <-. destruct (_ || _)%bool; (eapply (aside_ok w _ []); try done; cbn; [by left|by rewrite ?told_app, !app_nil_r|by left]).
  - injection Hp as <-. eapply (aside_ok w _ []); try done; cbn; [by left|by rewrite app_nil_r|by left].
  - injection Hp as <-. eapply (aside_ok w _ []); try done; cbn; [by left|by rewrite app_nil_r|by left].
  - destruct (closing w); [done|]. injection Hp as <-. eapply (aside_ok w _ []); try done; cbn; [by left|by rewrite app_nil_r|by left].
  - injection Hp as <-. eapply (aside_ok w _ []); try done; cbn; [by left|by rewrite app_nil_r|by left].
  - case_bool_decide as E; [|done]. injection Hp as <-. eapply (wait_ok w _ []); try done; cbn; [by rewrite app_nil_r|by rewrite E].
  - destruct (_ && _)%bool eqn:B; [|done]. injection Hp as <-. apply andb_true_iff in B as [E%bool_decide_eq_true Hr].
    eapply (wait_ok w _ []); try done; cbn; [by rewrite app_nil_r|by rewrite E|by destruct (rd w)].
  - case_bool_decide as E; [|done]. injection Hp as <-. eapply (wait_ok w _ []); try done; cbn; [by rewrite app_nil_r|by rewrite E|].
    intros _. apply (li_read _ I). by rewrite E.
  - destruct (_ && _)%bool eqn:B; [|done]. injection Hp as <-. apply andb_true_iff in B as [E%bool_decide_eq_true Hr].
    eapply (wait_ok w _ (dropAsks decode_rules decode_object "" (asks w)).2); try done; cbn;
      [by rewrite told_app, told_told|apply dropAsks_events|by rewrite E| |].
    + intros _. apply (li_read _ I). by rewrite E.
    + intros _. split; [by rewrite dropAsks_all|by destruct (amu w)].
  - case_bool_decide as E; [|done]. injection Hp as <-. destruct I as [I1 I2 I3 I4 I5]. destruct I5 as (a & a' & Hl & Hl' & Hok); [by rewrite E|].
    rewrite I2 in Hl' by (by rewrite E). injection Hl' as ->.
    split; cbn [rd waiting asks amu hist log set_waiting]; [done|intros _; apply I2; by rewrite E|intros _; apply I3; by rewrite E| |done]. intros _.
    rewrite told_app, run_lanes_app, Hl. change (told [Told ?e]) with [e]. cbn [mbind option_bind]. rewrite run_lanes_cons. unfold lane.
    rewrite (lo_gone _ _ _ Hok). by eexists.
  - case_bool_decide as E; [|done]. injection Hp as <-. destruct I as [I1 I2 I3 I4 I5].
    split; cbn; [done|intros _; apply I2; by rewrite E|intros _; apply I3; by rewrite E| |done]. intros _. apply I4. by rewrite E.
Qed.

(** ** The transports that can be *)

Lemma fresh_name w w' m : admitted w m -> step m w = Some w' -> w.(subs) !! "" = None -> w'.(subs) !! "" = None.
Proof.
  intros Ha Hp Hs.
  assert (Hset : forall n p, n <> "" -> <[n := p]> (subs w) !! "" = None) by (intros n p Hn; by rewrite lookup_insert_ne).
  assert (Hne : forall n p, subs w !! n = Some p -> n <> "") by (intros n p Hn ->; congruence).
  destruct m; cbn [ClaudeTurn.step] in Hp; cbn zeta in Hp;
    repeat match type of Hp with
    | (if ?b then _ else _) = Some _ => destruct b
    | match subs w !! ?n with _ => _ end = Some _ => destruct (subs w !! n) as [[]|] eqn:?
    | match ?o with _ => _ end = Some _ => destruct o
    end; try done; try (injection Hp as <-); try done; try (cbn; eapply Hset; naive_solver).
  - revert Hp. destruct t; cbn [ClaudeTurn.perform]; cbn zeta; try destruct (is_none (amu w)); intros [= <-]; try done;
      cbn; by rewrite (proj1 (proj2 (proj2 (write_same _ _ _)))).
  - destruct (stdinClosed w); [|destruct fails]; cbn; eapply Hset; naive_solver.
  - cbn. by rewrite (proj1 (proj2 (proj2 (write_same _ _ _)))).
  - by destruct (_ || _)%bool.
Qed.

Lemma reachable_lanes w : reachable w -> lanes_inv w /\ w.(subs) !! "" = None.
Proof.
  induction 1 as [|w m w' _ [I Hs] Ha Hp].
  - split; [|done]. split; try done. intros _. exists lanes0, lanes0. split_and!; [done|done|]. split; try done. intros n [Hn|Hn]; set_solver.
  - split; [by eapply step_ok|by eapply fresh_name].
Qed.
End World.
