(* ===== verification/ClaudeAsks.v ===== *)
(** The permissions claude's transport raises and answers: the machine that
    accepts the prompts the contract lets it report ([show]), and what each
    permission that waits, each response that was written and each that is still
    to be written stands on. *)
From Stdlib Require Import ZArith QArith Ascii String Lia.
From stdpp Require Import base tactics list strings option gmap.
From S2P Require Import Prelude GoStr Bytes Json Contract Observation Requests SessionState Proc Codex CodexTurn Claude ClaudeTurn ClaudeReports.

#[local] Open Scope string_scope.
#[local] Open Scope list_scope.

(** ** What may be reported of prompts *)

(** The inputs whose turns ended, and the prompt that was raised: its input and
    its name. *)
Record shown := mkShown { ended : gset string; open : option (string * string) }.
Definition shown0 : shown := mkShown ∅ None.

(** None is open, or its turn ended and it with it. *)
Definition free (p : shown) : bool := match p.(open) with None => true | Some (n, _) => bool_decide (n ∈ p.(ended)) end.

(** A prompt is raised while none is open; what is resolved is the one that is. *)
Definition show (p : shown) (e : Event) : option shown :=
  match e.(ev_kind) with
  | Ended => Some (if String.eqb e.(ev_auto) "" then mkShown ({[e.(ev_native)]} ∪ p.(ended)) p.(open) else p)
  | PromptRaised =>
    match e.(ev_prompt) with
    | Some i => if free p then Some (mkShown p.(ended) (Some (e.(ev_native), i.(pi_id)))) else None
    | None => None
    end
  | PromptResolved => if bool_decide (p.(open) = Some (e.(ev_native), e.(ev_prompt_id))) then Some (mkShown p.(ended) None) else None
  | _ => Some p
  end.

Definition run_shown (p : shown) (es : list Event) : option shown := foldl (fun p e => p ≫= fun p => show p e) (Some p) es.

Lemma run_shown_None es : foldl (fun p e => p ≫= fun p => show p e) None es = None.
Proof. by induction es. Qed.
Lemma run_shown_app p es es' : run_shown p (es ++ es') = run_shown p es ≫= fun p => run_shown p es'.
Proof. unfold run_shown. rewrite foldl_app. destruct (foldl _ _ es); [done|apply run_shown_None]. Qed.
Lemma run_shown_cons p e es : run_shown p (e :: es) = show p e ≫= fun p => run_shown p es.
Proof. unfold run_shown. cbn. destruct (show p e); [done|apply run_shown_None]. Qed.

(** ** What a critical section leaves the reader to do *)

(** Reports that are of no prompt, and the permissions of the input's turn it
    ended to drop. *)
Definition left_over (c : core) (l : list todo) : Prop :=
  forall x, x ∈ l -> match x with
  | ATell e => ~ prompt_event e
  | ADrop n => exists ts o t err, c.(turn) = Some ts /\ n = ts.(native) /\ ATell (ev_end n "" o t err) ∈ l
  | AMissing | AStop => True
  | _ => False
  end.

Lemma left_over_nil c : left_over c [].
Proof. by intros x ?%elem_of_nil. Qed.
Lemma left_over_stop c ts : left_over c (err_turn ts ++ [AStop]).
Proof.
  intros x Hx. apply elem_of_app in Hx as [Hx|Hx]; [|by apply list_elem_of_singleton in Hx as ->].
  unfold err_turn in Hx. destruct ts; [|by apply elem_of_nil in Hx]. apply list_elem_of_singleton in Hx as ->. by intros [[=]|[=]].
Qed.
Lemma left_over_tells c es : Forall (fun e => ~ prompt_event e) es -> left_over c (map ATell es).
Proof. intros H x (e & -> & He)%list_elem_of_fmap. by rewrite Forall_forall in H; apply H. Qed.

Create HintDb claude.
#[export] Hint Resolve left_over_nil left_over_stop : claude.

Lemma onLifecycle_left uuid state c : left_over c (onLifecycle uuid state c).2.
Proof.
  unfold onLifecycle. repeat match goal with |- left_over _ (if ?b then _ else _).2 => destruct b | |- left_over _ (match ?b with _ => _ end).2 => destruct b end; cbn [snd];
    auto with claude; apply (left_over_tells _ [_]); constructor; try done; by intros [[=]|[=]].
Qed.
Lemma onForeign_left sid c : left_over c (onForeign sid c).2.
Proof. unfold onForeign. destruct (_ =? _)%string; cbn [snd]; auto with claude. Qed.
Lemma onMissing_left c : left_over c (onMissing c).2.
Proof. apply left_over_stop. Qed.
Lemma onInit_left caps c : left_over c (onInit caps c).2.
Proof. unfold onInit. cbn [snd]. destruct (capsDone c); [auto with claude|]. destruct (missing caps); [|auto with claude]. by intros x ->%list_elem_of_singleton. Qed.
Lemma ownStarted_left c : left_over c (ownStarted c).2.
Proof.
  unfold ownStarted. destruct (_ || _)%bool; cbn [snd]; [auto with claude|]. apply (left_over_tells _ [_]). constructor; [|done]. by intros [[=]|[=]].
Qed.
Lemma onResult_left rt origin reason is_error result status now c : left_over c (onResult rt origin reason is_error result status now c).2.
Proof.
  unfold onResult. set (o := (_ || _)%bool). clearbody o. destruct o.
  - destruct (own c) as [ts|]; [|destruct (if String.eqb _ _ then _ else _) as [n c'] eqn:E]; cbn [snd].
    + destruct (result_event_own rt ts reason is_error result status now) as (o & t & err & ->). apply (left_over_tells _ [_]). constructor; [|done]. by intros [[=]|[=]].
    + destruct (result_event_own rt (mkTurn n false no_failure) reason is_error result status now) as (o & t & err & ->).
      apply (left_over_tells _ [_; _]). repeat constructor; by intros [[=]|[=]].
  - destruct (turn c) as [ts|] eqn:Et; cbn [snd]; [|auto with claude].
    destruct (result_event_input rt ts reason is_error result status now) as (o & t & err & -> & _).
    intros x [->|[->|[]%elem_of_nil]%elem_of_cons]%elem_of_cons; [by intros [[=]|[=]]|]. eexists ts, o, t, err. split_and!; [done|done|by left].
Qed.

(** ** The prompt that is open *)

Definition raised_head (l : list ask) : Prop := match l with a :: _ => a.(raised) = true | [] => True end.

(** Only the first permission is raised, and the prompt that is open is it. *)
Definition heads (alive : bool) (p : shown) (l : list ask) : Prop :=
  match l with
  | a :: rest => Forall (fun b => b.(raised) = false) rest /\ (if a.(raised) then p.(open) = Some (a.(a_native), a.(a_id)) else free p = true)
  | [] => alive = true -> free p = true
  end.

(** More turns ended. *)
Definition later (p p' : shown) : Prop := p'.(open) = p.(open) /\ p.(ended) ⊆ p'.(ended).

Lemma later_free p p' : later p p' -> free p = true -> free p' = true.
Proof. intros [E H]. unfold free. rewrite E. destruct (open p) as [[n i]|]; [|done]. rewrite !bool_decide_eq_true. set_solver. Qed.
Lemma later_heads b p p' l : later p p' -> heads b p l -> heads b p' l.
Proof.
  intros H. destruct l as [|a l]; cbn; [intros Hf Hb; eapply later_free; eauto|]. intros [? Hr]. split; [done|].
  destruct (raised a); [by rewrite (proj1 H)|by eapply later_free].
Qed.

Lemma show_quiet p e : ~ prompt_event e -> exists p', show p e = Some p' /\ later p p'.
Proof.
  intros H. unfold show, prompt_event in *. destruct (ev_kind e); try (eexists; split; [done|split; [done|done]]); try (exfalso; tauto).
  destruct (_ =? _)%string; eexists; (split; [done|]); split; try done. cbn. set_solver.
Qed.

Section Raise.
Context (decode_rules : string -> option (list (gmap string json))) (decode_object : string -> gmap string json).
Notation raiseNext := (raiseNext decode_rules decode_object).
Notation onCancelAsk := (onCancelAsk decode_rules decode_object).
Notation dropAsks := (dropAsks decode_rules decode_object).

Lemma raise_shown p l : heads true p l ->
  exists p', run_shown p (raiseNext l).2 = Some p' /\ p'.(ended) = p.(ended) /\ heads true p' (raiseNext l).1 /\ raised_head (raiseNext l).1.
Proof.
  destruct l as [|a l]; cbn; [intros H; by exists p|]. intros [Hl Ha]. destruct (raised a) eqn:Er; cbn; [exists p; by rewrite Er|].
  unfold run_shown. cbn. unfold show. cbn. rewrite Ha. by eexists.
Qed.

Lemma take_ask_cases i l a l' : take_ask i l = Some (a, l') ->
  a.(a_id) = i /\ (l = a :: l' \/ exists h t t', l = h :: t /\ l' = h :: t' /\ a ∈ t /\ t' ⊆ t).
Proof.
  revert a l'. induction l as [|b l IH]; [done|]. intros a l'. cbn. destruct (String.eqb (a_id b) i) eqn:E.
  - intros [= -> ->]. apply String.eqb_eq in E. auto.
  - destruct (take_ask i l) as [[c t]|]; [|done]. intros [= -> <-]. destruct (IH _ _ eq_refl) as [Hi H]. split; [done|]. right.
    exists b, l, t. split_and!; [done|done|..]; destruct H as [-> |(h & s & s' & -> & -> & ? & ?)]; [by left|by right|set_solver|set_solver].
Qed.

Lemma cancel_shown i p l : heads true p l -> raised_head l ->
  exists p', run_shown p (onCancelAsk i l).2 = Some p' /\ p'.(ended) = p.(ended) /\ heads true p' (onCancelAsk i l).1 /\ raised_head (onCancelAsk i l).1.
Proof.
  intros H Hh. unfold ClaudeTurn.onCancelAsk. destruct (take_ask i l) as [[a l']|] eqn:E; [|by exists p].
  destruct (take_ask_cases _ _ _ _ E) as [_ [->|(h & t & t' & -> & -> & Ha & Ht)]].
  - cbn in Hh. cbn in H. rewrite Hh in H |- *. destruct H as [Hl Ho].
    assert (H' : heads true (mkShown (ended p) None) l') by (destruct l' as [|b l']; [done|]; apply Forall_cons in Hl as [Hb Hl]; cbn; by rewrite Hb).
    destruct (raise_shown _ _ H') as (p' & Hp' & Hrest). destruct (raiseNext l') as [l'' es]. exists p'. split; [|done].
    cbn [app snd]. rewrite run_shown_cons. unfold show at 1. cbn. rewrite bool_decide_eq_true_2 by done. exact Hp'.
  - cbn in Hh. cbn in H. rewrite Hh in H. destruct H as [Hl Ho]. rewrite Forall_forall in Hl. rewrite (Hl a Ha). cbn. rewrite Hh. cbn.
    exists p. rewrite Hh. split_and!; try done. apply Forall_forall. intros b Hb. by apply Hl, Ht.
Qed.

Lemma drop_shown n p l : n <> "" -> n ∈ p.(ended) -> heads true p l -> raised_head l ->
  exists p', run_shown p (dropAsks n l).2 = Some p' /\ p'.(ended) = p.(ended) /\ heads true p' (dropAsks n l).1 /\ raised_head (dropAsks n l).1.
Proof.
  intros Hn He H Hh. unfold ClaudeTurn.dropAsks. set (f := fun a : ask => (negb (n =? "")%string && negb (a_native a =? n)%string)%bool). apply raise_shown. destruct l as [|h t]; [done|]. cbn in H, Hh |- *.
  rewrite Hh in H. destruct H as [Hl Ho].
  assert (Hf : Forall (fun b => raised b = false) (List.filter f t)).
  { rewrite Forall_forall in Hl |- *. intros b Hb%list_elem_of_In. apply filter_In in Hb as [Hb _]. by apply Hl, list_elem_of_In. }
  destruct (f h) eqn:Ef; [cbn; by rewrite Hh|].
  assert (Hfree : free p = true).
  { unfold free. rewrite Ho. apply bool_decide_eq_true. unfold f in Ef. rewrite (proj2 (String.eqb_neq _ _) Hn) in Ef. cbn in Ef.
    apply negb_false_iff, String.eqb_eq in Ef. by rewrite Ef. }
  destruct (List.filter f t) as [|b s]; [by intros _|]. apply Forall_cons in Hf as [Hb Hs]. cbn. by rewrite Hb.
Qed.
End Raise.

(** ** Of a transport *)

Section World.
Context (EqualFold : string -> string -> bool).
Context (reset_time : string -> Z -> option Time) (times100 : Q -> Q) (int64_of : Q -> Z).
Context (decode_rules : string -> option (list (gmap string json))) (decode_object : string -> gmap string json).
Context (rate_json : RateLimitData -> option string) (id : string).
Notation step := (step EqualFold reset_time times100 int64_of decode_rules decode_object rate_json id).
Notation perform := (perform reset_time decode_rules decode_object rate_json).
Notation reachable := (reachable EqualFold reset_time times100 int64_of decode_rules decode_object rate_json id).

(** The permissions of a turn that ended are dropped once its end was told. *)
Definition drops (p : shown) (l : list todo) : Prop :=
  forall n, ADrop n ∈ l -> n <> "" /\ (n ∈ p.(ended) \/ exists o t err, ATell (ev_end n "" o t err) ∈ l).
Definition no_prompts (l : list todo) : Prop := forall e, ATell e ∈ l -> ~ prompt_event e.

Record shown_inv (w : world) : Prop := mkShownInv {
  si_shown : exists p, run_shown shown0 (told w.(hist)) = Some p /\ heads (negb (dropped w.(waiting))) p w.(asks) /\ drops p w.(rd);
  si_head : w.(amu) = None -> raised_head w.(asks);
  si_tells : no_prompts w.(rd) }.

(** The permissions, the reader and the reports are as they were. *)
Lemma shown_same w w' : shown_inv w -> w'.(asks) = w.(asks) -> w'.(amu) = w.(amu) -> w'.(rd) = w.(rd) ->
  dropped w'.(waiting) = dropped w.(waiting) -> told w'.(hist) = told w.(hist) -> shown_inv w'.
Proof. intros [I1 I2 I3] Ea Em Er Ew Eh. split; by rewrite ?Ea, ?Em, ?Er, ?Ew, ?Eh. Qed.

(** The reader takes its next step; it does not report. *)
Lemma shown_read w w' x rest l : shown_inv w -> w.(rd) = x :: rest -> (forall e, x <> ATell e) -> w'.(rd) = l ++ rest ->
  (forall n, ADrop n ∈ l -> n <> "" /\ exists o t err, ATell (ev_end n "" o t err) ∈ l) -> no_prompts l ->
  w'.(asks) = w.(asks) -> w'.(amu) = w.(amu) -> w'.(waiting) = w.(waiting) -> told w'.(hist) = told w.(hist) -> shown_inv w'.
Proof.
  intros [(p & Hp & Hh & Hd) I2 I3] Hr Hx Er Hl Hn Ea Em Ew Eh. split; rewrite ?Ea, ?Em, ?Er, ?Ew, ?Eh; try done.
  - exists p. split_and!; [done|done|]. intros n [Hin|Hin]%elem_of_app.
    + destruct (Hl n Hin) as (? & o & t & err & ?). split; [done|]. right. exists o, t, err. set_solver.
    + destruct (Hd n) as [? [?|(o & t & err & He)]]; [rewrite Hr; by right|auto|]. split; [done|]. right. exists o, t, err.
      rewrite Hr in He. apply elem_of_cons in He as [He|He]; [by destruct (Hx (ev_end n "" o t err))|]. apply elem_of_app. by right.
  - intros e [He|He]%elem_of_app; [by apply Hn|]. apply I3. rewrite Hr. by right.
Qed.

(** The reader acts on the permissions. *)
Lemma shown_asks w x rest r : shown_inv w -> w.(rd) = x :: rest -> (forall e, x <> ATell e) -> dropped w.(waiting) = false -> w.(amu) = None ->
  (forall p, run_shown shown0 (told w.(hist)) = Some p -> drops p w.(rd) -> heads true p w.(asks) -> raised_head w.(asks) ->
    exists p', run_shown p r.2 = Some p' /\ p'.(ended) = p.(ended) /\ heads true p' r.1 /\ raised_head r.1) ->
  shown_inv (set_rd rest (asking r w)).
Proof.
  intros [(p & Hp & Hh & Hd) I2 I3] Hr Hx Hw Hm H. rewrite Hw in Hh. destruct (H p Hp Hd Hh (I2 Hm)) as (p' & Hp' & He & Hh' & Hr').
  split; cbn [rd waiting asks amu hist log set_rd set_asks asking]; [|done|].
  - exists p'. rewrite told_app, told_told, run_shown_app, Hp, Hw. split_and!; [exact Hp'|done|]. intros n Hn. rewrite He.
    destruct (Hd n) as [? [?|(o & t & err & Hin)]]; [rewrite Hr; by right|auto|]. split; [done|]. right. exists o, t, err.
    rewrite Hr in Hin. apply elem_of_cons in Hin as [Hin|Hin]; [by destruct (Hx (ev_end n "" o t err))|done].
  - intros e Hin. apply I3. rewrite Hr. by right.
Qed.

Lemma shown_tell w e rest : shown_inv w -> w.(rd) = ATell e :: rest -> shown_inv (set_rd rest (log [Told e] w)).
Proof.
  intros [(p & Hp & Hh & Hd) I2 I3] Hr. destruct (show_quiet p e) as (p' & He & Hl); [apply I3; rewrite Hr; by left|].
  split; cbn [rd waiting asks amu hist log set_rd]; [|done|intros e' ?; apply I3; rewrite Hr; by right].
  exists p'. rewrite told_app. change (told [Told e]) with [e]. rewrite run_shown_app, Hp. cbn [mbind option_bind]. rewrite run_shown_cons, He.
  split_and!; [done|by eapply later_heads|]. intros n Hn. destruct (Hd n) as [? Ho]; [rewrite Hr; by right|]. split; [done|].
  destruct Hl as [_ Hl]. destruct Ho as [?|(o & t & err & Hin)]; [left; set_solver|]. rewrite Hr in Hin.
  apply elem_of_cons in Hin as [[= <-]|Hin]; [|eauto 6]. left. unfold show in He. cbn in He. injection He as <-. cbn. set_solver.
Qed.

Lemma shown_section w x rest r : shown_inv w -> w.(rd) = x :: rest -> (forall e, x <> ATell e) -> left_over w.(w_core) r.2 ->
  (forall ts, w.(w_core).(turn) = Some ts -> ts.(native) <> "") -> shown_inv (section r rest w).
Proof.
  intros I Hr Hx Hl Hn. eapply (shown_read w _ x rest r.2); try done.
  - intros n Hin. destruct (Hl _ Hin) as (ts & o & t & err & Ht & -> & He). split; [by apply Hn|eauto].
  - intros e He. apply (Hl _ He).
Qed.

Lemma turn_named w ts : lanes_inv w -> exited w.(waiting) = false -> w.(w_core).(turn) = Some ts -> ts.(native) <> "".
Proof. intros I Hx Ht. destruct (li_lanes _ I Hx) as (a & a' & _ & _ & Hok). by apply (lo_turn _ _ _ Hok). Qed.

Lemma perform_shown fails w x rest w' : lanes_inv w -> shown_inv w -> w.(rd) = x :: rest -> perform fails x rest w = Some w' -> shown_inv w'.
Proof.
  intros L I Hr Hp. pose proof (reading _ _ _ L Hr) as Hw. assert (Hdr : dropped (waiting w) = false) by (by destruct (waiting w)).
  assert (Hn := fun ts => turn_named w ts L). assert (Hx : exited (waiting w) = false) by (by destruct (waiting w)).
  assert (Hnil : forall n, ADrop n ∈ [] -> n <> "" /\ exists o t err, ATell (ev_end n "" o t err) ∈ ([] : list todo)) by (by intros n ?%elem_of_nil).
  assert (Hno : no_prompts []) by (by intros e ?%elem_of_nil).
  destruct x; cbn [ClaudeTurn.perform] in Hp; cbn zeta in Hp;
    try match type of Hp with (if is_none ?o then _ else _) = _ => destruct o as [|] eqn:Hm; [done|]; cbn [is_none] in Hp end; injection Hp as <-.
  1-9, 17: eapply shown_section; [done|done|done| |by auto].
  - apply onLifecycle_left.
  - apply onInit_left.
  - apply onMissing_left.
  - apply ownStarted_left.
  - apply left_over_nil.
  - cbn. destruct (turn (w_core w)); [|apply left_over_nil]. destruct (_ =? _)%string; [apply left_over_nil|].
    apply (left_over_tells _ [_]). constructor; [by intros [[=]|[=]]|done].
  - apply left_over_nil.
  - apply (left_over_tells _ [_]). constructor; [by intros [[=]|[=]]|done].
  - apply onResult_left.
  - apply onForeign_left.
  - by eapply (shown_read w _ _ rest []).
  - match goal with |- context [if ?b then _ else _] => destruct b end;
      (eapply (shown_read w _ _ rest [_]); try done; by intros ? ?%list_elem_of_singleton).
  - eapply shown_asks; [done..|]. intros p _ _ H Hh. apply raise_shown. destruct (asks w) as [|a l]; [cbn; auto|].
    cbn in *. rewrite Hh in *. destruct H as [H1 H2]. split; [|done]. apply Forall_app. split; [done|by constructor].
  - eapply (shown_read w _ _ rest []); try done; cbn; try apply write_same. by rewrite write_told.
  - eapply (shown_read w _ _ rest []); try done; cbn; try apply write_same. by rewrite write_told.
  - eapply shown_asks; [done..|]. intros p _ _ H Hh. by apply cancel_shown.
  - eapply shown_asks; [done..|]. intros p Hp Hd H Hh. destruct (Hd native) as [? Ho]; [rewrite Hr; by left|].
    apply drop_shown; try done. destruct Ho as [?|(o & t & err & Hin)]; [done|]. exfalso.
    pose proof (li_first _ L) as Hf. rewrite Hr in Hf, Hin. cbn in Hf. apply elem_of_cons in Hin as [[=]|Hin].
    assert (Ht : ev_end native "" o t err ∈ tells rest) by (apply list_elem_of_omap; eauto). rewrite Hf in Ht. by apply elem_of_nil in Ht.
  - by apply shown_tell.
  - by eapply (shown_read w _ _ rest []).
Qed.

Lemma onFrame_quiet sid f now : no_prompts (onFrame EqualFold times100 int64_of id sid f now) /\
  forall n, ADrop n ∉ onFrame EqualFold times100 int64_of id sid f now.
Proof.
  assert (E : forall x, (forall e, x <> ATell e) -> (forall n, x <> ADrop n) -> no_prompts [x] /\ forall n, ADrop n ∉ [x]).
  { intros x Hx Hx'. split; [intros e Hin|intros n Hin]; apply list_elem_of_singleton in Hin; congruence. }
  assert (E0 : no_prompts [] /\ forall n, ADrop n ∉ ([] : list todo)) by (split; [intros e Hin|intros n Hin]; by apply elem_of_nil in Hin).
  unfold onFrame. destruct (_ && _)%bool; [by apply E|]. destruct f; try (by apply E); try done.
  - split; [intros e Hin|intros n Hin]; set_solver.
  - split; [|intros n Hin; by apply list_elem_of_singleton in Hin]. intros e Hin. apply list_elem_of_singleton in Hin as [= ->]. by intros [[=]|[=]].
  - destruct (negb _); [done|]. destruct (_ =? _)%string; [done|]. destruct blocks; [by apply E|done].
  - destruct (rateLimit _ _ _) as [[]|]; [by apply E|done].
Qed.

Lemma step_shown m w w' : lanes_inv w -> shown_inv w -> step m w = Some w' -> shown_inv w'.
Proof.
  intros L I Hp. assert (Hd := li_dropped _ L).
  destruct m; cbn [ClaudeTurn.step] in Hp; cbn zeta in Hp.
  - destruct (_ && _)%bool eqn:B in Hp; [|done]. injection Hp as <-. apply andb_true_iff in B as [Hr _].
    destruct (onFrame_quiet sid f now) as [Hq Hno]. destruct I as [(p & Hp & Hh & _) I2 I3]. split; cbn [rd waiting asks amu hist log set_rd]; [|done|done].
    exists p. rewrite told_app, app_nil_r. split_and!; [done|done|]. intros n Hin. by destruct (Hno n).
  - destruct (rd w) as [|x rest] eqn:Hr; [done|]. by eapply perform_shown.
  - destruct (bool_decide _); injection Hp as <-; by apply (shown_same w).
  - destruct (subs w !! native) as [[]|]; try done. injection Hp as <-.
    destruct (stdinClosed w); [|destruct fails]; apply (shown_same w); try done. cbn. by rewrite told_app, app_nil_r.
  - destruct (subs w !! native) as [[]|]; try done. injection Hp as <-. by apply (shown_same w).
  - destruct (subs w !! native) as [[]|]; try done. destruct (bool_decide _); [done|]. injection Hp as <-. by apply (shown_same w).
  - destruct (subs w !! native) as [[]|]; try done. injection Hp as <-. by apply (shown_same w).
  - destruct (amu w) eqn:Em; [done|]. destruct (asks w) as [|x rest] eqn:Eas; [done|]. destruct (_ && _)%bool eqn:B; [|done]. injection Hp as <-.
    apply andb_true_iff in B as [_ B]. destruct I as [(p & Hp & Hh & Hdr) I2 I3]. rewrite Eas in Hh. cbn in Hh. rewrite B in Hh. destruct Hh as [Hl Ho].
    split; cbn [rd waiting asks amu hist log set_rd set_asks set_amu]; [|done|done]. exists (mkShown (ended p) None).
    rewrite told_app. change (told [_; _]) with [ev_resolved (a_native x) (a_id x) "answer"]. rewrite run_shown_app, Hp.
    split_and!; [|destruct rest as [|b rest]; [done|]; apply Forall_cons in Hl as [Hb Hl]; cbn; by rewrite Hb|done].
    cbn [mbind option_bind]. rewrite run_shown_cons. unfold show. cbn. by rewrite bool_decide_eq_true_2.
  - destruct (amu w) as [[x c|]|] eqn:Em; try done. injection Hp as <-.
    destruct (write_same fails (Response (a_id x) (Decision_ decode_rules (perm x) c true)) w) as (E1 & E2 & E3 & E4 & E5 & E6).
    destruct I as [I1 I2 I3]. split; cbn; rewrite ?E2, ?E4, ?E5, ?write_told; done.
  - destruct (amu w) as [[]|] eqn:Em; try done. injection Hp as <-.
    assert (Hdr : dropped (waiting w) = false) by (destruct (dropped (waiting w)); [|done]; by destruct Hd as [_ ?]).
    destruct I as [(p & Hp & Hh & Hdrop) I2 I3]. rewrite Hdr in Hh.
    destruct (raise_shown decode_rules decode_object p (asks w) Hh) as (p' & Hp' & He & Hh' & Hr').
    split; cbn [rd waiting asks amu hist log set_rd set_asks set_amu asking]; [|done|done].
    exists p'. rewrite told_app, told_told, run_shown_app, Hp, Hdr. split_and!; [exact Hp'|done|]. intros n Hin. rewrite He. by apply Hdrop.
  - injection Hp as <-. destruct (_ || _)%bool; apply (shown_same w); try done. cbn. by rewrite told_app, app_nil_r.
  - injection Hp as <-. by apply (shown_same w).
  - injection Hp as <-. by apply (shown_same w).
  - destruct (closing w); [done|]. injection Hp as <-. by apply (shown_same w).
  - injection Hp as <-. by apply (shown_same w).
  - case_bool_decide as E; [|done]. injection Hp as <-. apply (shown_same w); try done. by rewrite E.
  - destruct (_ && _)%bool eqn:B; [|done]. injection Hp as <-. apply andb_true_iff in B as [E%bool_decide_eq_true Hr].
    apply (shown_same w); try done. by rewrite E.
  - case_bool_decide as E; [|done]. injection Hp as <-. apply (shown_same w); try done. by rewrite E.
  - destruct (_ && _)%bool eqn:B; [|done]. injection Hp as <-. apply andb_true_iff in B as [E%bool_decide_eq_true Hr].
    destruct I as [(p & Hp & Hh & Hdrop) I2 I3]. rewrite dropAsks_all. split; cbn [rd waiting asks amu hist log set_rd set_asks set_amu set_waiting asking fst snd]; try done.
    exists p. rewrite told_app, told_told, app_nil_r. split_and!; done.
  - case_bool_decide as E; [|done]. injection Hp as <-. destruct I as [(p & Hp & Hh & Hdrop) I2 I3].
    split; cbn [rd waiting asks amu hist log set_waiting]; [|done|done]. destruct Hd as [Ha _]; [by rewrite E|]. exists p.
    rewrite told_app, run_shown_app, Hp, Ha. split_and!; [done|done|done].
  - case_bool_decide as E; [|done]. injection Hp as <-. apply (shown_same w); try done. by rewrite E.
Qed.

Lemma reachable_shown w : reachable w -> shown_inv w.
Proof.
  induction 1 as [|w m w' Hw I Ha Hp].
  - split; [|done|]; cbn; [exists shown0; split_and!; [done|done|]; by intros n ?%elem_of_nil|by intros e ?%elem_of_nil].
  - apply reachable_lanes in Hw as [L _]. by eapply step_shown.
Qed.
End World.
