(* ===== verification/ClaudeGrants.v ===== *)
(** What each answer to a permission of claude's stands on: a request claude
    made, a prompt the Host was shown, a choice of the Host's; that no
    request is answered twice. *)
From Stdlib Require Import ZArith QArith Ascii String Lia.
From stdpp Require Import base tactics list strings option gmap.
From S2P Require Import Prelude GoStr Bytes Json Contract Observation Requests SessionState Proc Codex CodexTurn Claude ClaudeTurn ClaudeReports ClaudeAsks.

#[local] Open Scope string_scope.
#[local] Open Scope list_scope.
#[local] Open Scope nat_scope.

(** ** Counting *)

Definition count {A} (f : A -> bool) (l : list A) : nat := length (List.filter f l).

Lemma count_cat {A} (f : A -> bool) l l' : count f (l ++ l') = count f l + count f l'.
Proof. unfold count. by rewrite List.filter_app, length_app. Qed.
Lemma count_cons {A} (f : A -> bool) x l : count f (x :: l) = (if f x then 1 else 0) + count f l.
Proof. unfold count. cbn. by destruct (f x). Qed.
Lemma count_none {A} (f : A -> bool) l : (forall x, x ∈ l -> f x = false) -> count f l = 0.
Proof.
  induction l as [|x l IH]; [done|]. intros H. rewrite count_cons, H, IH by set_solver. done.
Qed.
Lemma count_filter {A} (f g : A -> bool) l : count f (List.filter g l) <= count f l.
Proof. induction l as [|x l IH]; [done|]. cbn [List.filter]. destruct (g x); rewrite ?count_cons; destruct (f x); lia. Qed.

Definition is_request (i : string) (x : cact) : bool := match x with Read (CanUseTool j _) => String.eqb j i | _ => false end.
Definition is_response (i : string) (x : cact) : bool := match x with Wrote (Response j _) => String.eqb j i | _ => false end.
Definition todo_of (i : string) (x : todo) : bool := match x with AAsk j _ | AQueue j _ _ | ARespond j => String.eqb j i | _ => false end.
Definition ask_of (i : string) (a : ask) : bool := String.eqb a.(a_id) i.
Definition answer_of (i : string) (o : option answer_pc) : nat := match o with Some (AnsRespond a _) => if ask_of i a then 1 else 0 | _ => 0 end.

(** The answers of a request still to come. *)
Definition pend (i : string) (w : world) : nat := count (ask_of i) w.(asks) + count (todo_of i) w.(rd) + answer_of i w.(amu).

Section Grants.
Context (decode_rules : string -> option (list (gmap string json))) (decode_object : string -> gmap string json).
Notation raiseNext := (raiseNext decode_rules decode_object).
Notation onCancelAsk := (onCancelAsk decode_rules decode_object).
Notation dropAsks := (dropAsks decode_rules decode_object).

Definition asked_for (h : list cact) (i : string) (p : Permission) : Prop := Read (CanUseTool i p) ∈ h.
Definition shown_as (h : list cact) (n i : string) (p : Permission) : Prop := Told (ev_raised n (Prompt decode_rules decode_object p i)) ∈ h.

(** A response says what the Host's answer to a prompt it was shown of the
    request says, or denies it unasked. *)
Definition justified (h : list cact) (i : string) (d : decision) : Prop :=
  d = NoOneToAsk \/ exists n p c, asked_for h i p /\ shown_as h n i p /\ Answered i c ∈ h /\ d = Decision_ decode_rules p c true.

(** ** What the permissions that wait stand on *)

(** A permission is one of the list's, or one of its that was just raised. *)
Definition from (l : list ask) (evs : list Event) (a : ask) : Prop :=
  a ∈ l \/ exists b, b ∈ l /\ a.(a_id) = b.(a_id) /\ a.(perm) = b.(perm) /\
    ev_raised a.(a_native) (Prompt decode_rules decode_object a.(perm) a.(a_id)) ∈ evs.

Lemma from_sub l l' evs evs' a : from l evs a -> l ⊆ l' -> evs ⊆ evs' -> from l' evs' a.
Proof. intros [?|(b & ? & ? & ? & ?)] Hl He; [left; set_solver|right; exists b; set_solver]. Qed.

Lemma raise_from l : (forall a, a ∈ (raiseNext l).1 -> from l (raiseNext l).2 a) /\ forall i, count (ask_of i) (raiseNext l).1 = count (ask_of i) l.
Proof.
  destruct l as [|b l]; [split; [by intros a ?%elem_of_nil|done]|].
  unfold ClaudeTurn.raiseNext. destruct (raised b); cbn [fst snd]; [split; [by left|done]|]. split.
  - intros a [->|Ha]%elem_of_cons; [|left; by right]. right. exists b. cbn. split_and!; [by left|done|done|by left].
  - intros i. by rewrite !count_cons.
Qed.

Lemma take_ask_count j l a l' i : take_ask j l = Some (a, l') -> count (ask_of i) l' <= count (ask_of i) l /\ l' ⊆ l.
Proof.
  revert a l'. induction l as [|b l IH]; [done|]. intros a l'. cbn [take_ask]. destruct (String.eqb (a_id b) j).
  - intros [= -> ->]. rewrite count_cons. split; [lia|set_solver].
  - destruct (take_ask j l) as [[c t]|]; [|done]. intros [= -> <-]. destruct (IH _ _ eq_refl). rewrite !count_cons. split; [lia|set_solver].
Qed.

Lemma cancel_from j l : (forall a, a ∈ (onCancelAsk j l).1 -> from l (onCancelAsk j l).2 a) /\ forall i, count (ask_of i) (onCancelAsk j l).1 <= count (ask_of i) l.
Proof.
  unfold ClaudeTurn.onCancelAsk. destruct (take_ask j l) as [[b l']|] eqn:E; [|split; [by left|done]].
  destruct (raise_from l') as [H1 H2]. assert (Hi := fun i => take_ask_count _ _ _ _ i E). destruct (Hi "") as [_ Hsub].
  destruct (raiseNext l') as [l'' es]. cbn [fst snd] in *. split.
  - intros a Ha. eapply from_sub; [by apply H1|done|set_solver].
  - intros i. rewrite H2. apply Hi.
Qed.

Lemma drop_from n l : (forall a, a ∈ (dropAsks n l).1 -> from l (dropAsks n l).2 a) /\ forall i, count (ask_of i) (dropAsks n l).1 <= count (ask_of i) l.
Proof.
  unfold ClaudeTurn.dropAsks. set (l' := List.filter _ l). destruct (raise_from l') as [H1 H2]. split.
  - intros a Ha. eapply from_sub; [by apply H1| |done]. intros b Hb%list_elem_of_In. apply filter_In in Hb as [Hb _]. by apply list_elem_of_In.
  - intros i. rewrite H2. apply count_filter.
Qed.

(** ** The invariant *)

Record grants_inv (w : world) : Prop := mkGrants {
  gi_asks : forall a, a ∈ w.(asks) -> asked_for w.(hist) a.(a_id) a.(perm) /\
    (a.(raised) = true -> shown_as w.(hist) a.(a_native) a.(a_id) a.(perm));
  gi_rd : forall i p, AAsk i p ∈ w.(rd) \/ (exists n, AQueue i n p ∈ w.(rd)) -> asked_for w.(hist) i p;
  gi_amu : forall a c, w.(amu) = Some (AnsRespond a c) -> asked_for w.(hist) a.(a_id) a.(perm) /\
    shown_as w.(hist) a.(a_native) a.(a_id) a.(perm) /\ Answered a.(a_id) c ∈ w.(hist);
  gi_resp : forall h1 i d h2, w.(hist) = h1 ++ Wrote (Response i d) :: h2 -> justified h1 i d;
  gi_count : forall i, count (is_response i) w.(hist) + pend i w <= count (is_request i) w.(hist) }.

Lemma snoc_response h l h1 i d h2 : h ++ l = h1 ++ Wrote (Response i d) :: h2 ->
  (exists h2', h = h1 ++ Wrote (Response i d) :: h2') \/ exists l1 l2, l = l1 ++ Wrote (Response i d) :: l2 /\ h1 = h ++ l1.
Proof.
  intros E. apply app_eq_inv in E as [(k & -> & E)|(k & -> & E)]; [|right; eauto].
  destruct k as [|x k]; [right; exists [], h2; by rewrite !app_nil_r|]. injection E as <- ->. left. eauto.
Qed.

Lemma justified_mono h l i d : justified h i d -> justified (h ++ l) i d.
Proof. intros [?|(n & p & c & ? & ? & ? & ?)]; [by left|]. right. exists n, p, c. unfold asked_for, shown_as in *. rewrite !elem_of_app. auto. Qed.

(** What a step that logs [l] must keep. *)
Lemma grants_step w w' l : grants_inv w -> w'.(hist) = w.(hist) ++ l ->
  (forall a, a ∈ w'.(asks) -> from w.(asks) (told l) a \/ asked_for (w.(hist) ++ l) a.(a_id) a.(perm) /\
     (a.(raised) = true -> ev_raised a.(a_native) (Prompt decode_rules decode_object a.(perm) a.(a_id)) ∈ told l)) ->
  (forall i p, AAsk i p ∈ w'.(rd) \/ (exists n, AQueue i n p ∈ w'.(rd)) ->
     AAsk i p ∈ w.(rd) \/ (exists n, AQueue i n p ∈ w.(rd)) \/ Read (CanUseTool i p) ∈ l) ->
  (forall a c, w'.(amu) = Some (AnsRespond a c) -> w.(amu) = Some (AnsRespond a c) \/
     a ∈ w.(asks) /\ a.(raised) = true /\ Answered a.(a_id) c ∈ l) ->
  (forall i d, Wrote (Response i d) ∈ l -> justified w.(hist) i d) ->
  (forall i, count (is_response i) l + pend i w' <= count (is_request i) l + pend i w) -> grants_inv w'.
Proof.
  intros [I1 I2 I3 I4 I5] Eh Ha Hr Hm Hs Hc.
  assert (Hask : forall i p, asked_for (hist w) i p -> asked_for (hist w ++ l) i p) by (intros; unfold asked_for in *; rewrite elem_of_app; auto).
  assert (Hshow : forall n i p, shown_as (hist w) n i p -> shown_as (hist w ++ l) n i p) by (intros; unfold shown_as in *; rewrite elem_of_app; auto).
  split; rewrite ?Eh.
  - assert (Htold : forall e, e ∈ told l -> Told e ∈ hist w ++ l).
    { intros e He. apply elem_of_app. right. apply list_elem_of_omap in He as ([| e'| |] & Hx & [=]). by subst. }
    intros a Hin. destruct (Ha a Hin) as [[Ha'|(b & Hb & Ei & Ep & He)]|[Hq Hf]]; [destruct (I1 a Ha'); auto| |].
    + rewrite Ei, Ep in *. split; [by apply Hask, I1|]. intros _. by apply Htold.
    + split; [done|]. intros Ht. by apply Htold, Hf.
  - intros i p [?|[[n ?]|?]]%Hr; [apply Hask, I2; auto|apply Hask, I2; eauto|]. unfold asked_for. rewrite elem_of_app. auto.
  - intros a c [H|(Hin & Hra & Han)]%Hm.
    + destruct (I3 _ _ H) as (?&?&?). split_and!; [auto|auto|]. rewrite elem_of_app. auto.
    + destruct (I1 _ Hin) as [? Hsh]. split_and!; [auto|auto|]. rewrite elem_of_app. auto.
  - intros h1 i d h2 [(h2' & E)|(l1 & l2 & E & ->)]%snoc_response; [by eapply I4|]. apply justified_mono, Hs. rewrite E. set_solver.
  - intros i. specialize (I5 i). specialize (Hc i). rewrite !count_cat. lia.
Qed.

(** A step that leaves the permissions, and of requests and responses says
    nothing. *)
Definition aside (x : cact) : Prop := match x with Wrote (Response _ _) | Read (CanUseTool _ _) | Answered _ _ => False | _ => True end.
Definition other (x : todo) : Prop := match x with AAsk _ _ | AQueue _ _ _ | ARespond _ => False | _ => True end.

Lemma aside_count l : Forall aside l -> forall i, count (is_response i) l = 0 /\ count (is_request i) l = 0.
Proof.
  rewrite Forall_forall. intros H i. split; apply count_none; intros x Hx; specialize (H x Hx); destruct x as [[]| |[]|]; done.
Qed.

Lemma other_count l i : (forall x, x ∈ l -> other x) -> count (todo_of i) l = 0.
Proof. intros H. apply count_none. intros x Hx. specialize (H x Hx). by destruct x. Qed.

Lemma grants_same w w' l : grants_inv w -> w'.(hist) = w.(hist) ++ l -> Forall aside l -> w'.(asks) = w.(asks) -> w'.(rd) = w.(rd) ->
  w'.(amu) = w.(amu) \/ (exists a c, w.(amu) = Some (AnsRespond a c)) /\ w'.(amu) = Some AnsRaise -> grants_inv w'.
Proof.
  intros I Eh Hl Ea Er Em. eapply (grants_step w w' l); try done; rewrite ?Ea, ?Er.
  - intros a Ha. left. by left.
  - intros i p [?|?]; auto.
  - intros a c H. destruct Em as [E|[_ E]]; [rewrite <- E; auto|congruence].
  - intros i d Hin. rewrite Forall_forall in Hl. by apply Hl in Hin.
  - intros i. destruct (aside_count l Hl i) as [-> ->]. unfold pend. rewrite Ea, Er. destruct Em as [E|[_ E]]; rewrite E; cbn; lia.
Qed.

(** The reader takes its next step, not of a permission. *)
Lemma grants_read w w' x rest k l : grants_inv w -> w.(rd) = x :: rest -> w'.(rd) = k ++ rest -> (forall x, x ∈ k -> other x) ->
  w'.(hist) = w.(hist) ++ l -> Forall aside l -> w'.(asks) = w.(asks) -> w'.(amu) = w.(amu) -> grants_inv w'.
Proof.
  intros I Hr Er Hk Eh Hl Ea Em. eapply (grants_step w w' l); try done; rewrite ?Ea, ?Er, ?Em.
  - intros a Ha. left. by left.
  - rewrite Hr. intros i p [H|[n H]]; apply elem_of_app in H as [H|H]; try (by apply Hk in H); [left|right; left; exists n]; by right.
  - auto.
  - intros i d Hin. rewrite Forall_forall in Hl. by apply Hl in Hin.
  - intros i. destruct (aside_count l Hl i) as [-> ->]. unfold pend. rewrite Ea, Er, Em, Hr, count_cat, count_cons, other_count by done. lia.
Qed.

Lemma told_aside es : Forall aside (map Told es).
Proof. apply Forall_forall. by intros x (e & -> & _)%list_elem_of_fmap. Qed.

(** It acts on the permissions. *)
Lemma grants_asks w x rest r new : grants_inv w -> w.(rd) = x :: rest ->
  (forall a, a ∈ r.1 -> from w.(asks) r.2 a \/ asked_for w.(hist) a.(a_id) a.(perm) /\
     (a.(raised) = true -> ev_raised a.(a_native) (Prompt decode_rules decode_object a.(perm) a.(a_id)) ∈ r.2)) ->
  (forall i, count (ask_of i) r.1 <= count (ask_of i) w.(asks) + new i) -> (forall i, new i <= if todo_of i x then 1 else 0) ->
  grants_inv (set_rd rest (asking r w)).
Proof.
  intros I Hr Ha Hc Hn. eapply (grants_step w _ (map Told r.2)); try done; cbn [asks rd amu set_rd asking set_asks log].
  - intros a Hin. rewrite told_told. destruct (Ha a Hin) as [?|[? ?]]; [by left|]. right. split; [|done]. unfold asked_for in *. rewrite elem_of_app. auto.
  - rewrite Hr. intros i p [H|[n H]]; [left|right; left; exists n]; by right.
  - auto.
  - intros i d (e & [=] & _)%list_elem_of_fmap.
  - intros i. destruct (aside_count _ (told_aside r.2) i) as [-> ->]. unfold pend. cbn [asks rd amu set_rd asking set_asks log].
    rewrite Hr, count_cons. specialize (Hc i). specialize (Hn i). lia.
Qed.

(** A response is written, unless the pipe is closed or refuses it. *)
Lemma grants_respond fails w w' i d : grants_inv w -> justified w.(hist) i d ->
  w'.(hist) = (write fails (Response i d) w).(hist) -> w'.(asks) = w.(asks) -> (forall x, x ∈ w'.(rd) -> x ∈ w.(rd)) ->
  (forall a c, w'.(amu) = Some (AnsRespond a c) -> w.(amu) = Some (AnsRespond a c)) ->
  (forall j, pend j w' + (if String.eqb i j then 1 else 0) <= pend j w) -> grants_inv w'.
Proof.
  intros I Hj Eh Ea Hr Hm Hc. assert (E : exists l, w'.(hist) = w.(hist) ++ l /\ (l = [] \/ l = [Wrote (Response i d)])).
  { rewrite Eh. unfold write. destruct (_ || _)%bool; [exists []; rewrite app_nil_r; auto|eexists; eauto]. }
  destruct E as (l & El & Hl). eapply (grants_step w w' l); try done.
  - rewrite Ea. intros a Ha. left. by left.
  - intros j p [?%Hr|[n ?%Hr]]; eauto.
  - eauto.
  - intros j e Hin. destruct Hl as [->| ->]; [by apply elem_of_nil in Hin|]. by apply list_elem_of_singleton in Hin as [= -> ->].
  - intros j. specialize (Hc j). destruct Hl as [->| ->]; rewrite ?count_cons; cbn [is_response is_request count List.filter length]; lia.
Qed.
End Grants.

Section World.
Context (EqualFold : string -> string -> bool).
Context (reset_time : string -> Z -> option Time) (times100 : Q -> Q) (int64_of : Q -> Z).
Context (decode_rules : string -> option (list (gmap string json))) (decode_object : string -> gmap string json).
Context (rate_json : RateLimitData -> option string) (id : string).
Notation step := (step EqualFold reset_time times100 int64_of decode_rules decode_object rate_json id).
Notation perform := (perform reset_time decode_rules decode_object rate_json).
Notation reachable := (reachable EqualFold reset_time times100 int64_of decode_rules decode_object rate_json id).
Notation grants_inv := (grants_inv decode_rules decode_object).
Notation grants_read := (grants_read decode_rules decode_object).
Notation grants_asks := (grants_asks decode_rules decode_object).
Notation grants_same := (grants_same decode_rules decode_object).

Lemma left_other c l x : left_over c l -> x ∈ l -> other x.
Proof. intros H Hx. specialize (H x Hx). by destruct x. Qed.

Lemma grants_section w x rest r : grants_inv w -> w.(rd) = x :: rest -> left_over w.(w_core) r.2 -> grants_inv (section r rest w).
Proof.
  intros I Hr Hl. eapply (grants_read w _ x rest r.2 []); try done; [intros y; by apply left_other with (w_core w)|]. cbn. by rewrite app_nil_r.
Qed.

Lemma perform_grants fails w x rest w' : grants_inv w -> w.(rd) = x :: rest -> perform fails x rest w = Some w' -> grants_inv w'.
Proof.
  intros I Hr Hp. assert (Hno : forall y : todo, y ∈ [] -> other y) by (by intros y ?%elem_of_nil).
  assert (Hrd : forall y, y ∈ rest -> y ∈ rd w) by (intros y Hy; rewrite Hr; by right).
  destruct x; cbn [ClaudeTurn.perform] in Hp; cbn zeta in Hp;
    try match type of Hp with (if is_none ?o then _ else _) = _ => destruct o as [|] eqn:Hm; [done|]; cbn [is_none] in Hp end; injection Hp as <-.
  1-9, 17: eapply grants_section; [done|done|].
  - apply onLifecycle_left.
  - apply onInit_left.
  - apply onMissing_left.
  - apply ownStarted_left.
  - apply left_over_nil.
  - cbn. destruct (turn (w_core w)); [|apply left_over_nil]. destruct (_ =? _)%string; [apply left_over_nil|].
    apply (left_over_tells _ [_]). constructor; [by intros [[=]|[=]]|done].
  - apply left_over_nil.
  - apply (left_over_tells _ [_]). constructor; [by intros [[=]|[=]]|done].
  - apply onResult_left.
  - apply onForeign_left.
  - eapply (grants_read w _ _ rest [] []); try done. cbn. by rewrite app_nil_r.
  - match type of Hr with rd w = AAsk ?i ?p :: _ => set (j := i) in *; set (q := p) in *; assert (Hq : asked_for (hist w) j q) by (apply (gi_rd _ _ _ I); left; rewrite Hr; by left) end.
    match goal with |- context [if ?b then _ else _] => destruct b end;
      (eapply (grants_step _ _ w _ []); try done; cbn [asks rd amu hist set_rd];
       [by rewrite app_nil_r|by left; left| |by left|by intros i d ?%elem_of_nil|
        intros i; unfold pend; cbn [asks rd amu hist set_rd]; rewrite Hr, !count_cons; done]).
    + intros i p [H|[n H]]; apply elem_of_cons in H as [[=]|H]; [left|right; left; exists n]; rewrite Hr; by right.
    + intros i p [H|[n H]]; apply elem_of_cons in H as [[=]|H]; [left|left|right; left; exists n]; rewrite Hr; try by right. subst. by left.
  - match type of Hr with rd w = AQueue ?i ?n ?p :: _ => set (j := i) in *; set (m := n) in *; set (q := p) in *;
      assert (Hq : asked_for (hist w) j q) by (apply (gi_rd _ _ _ I); right; exists n; rewrite Hr; by left) end.
    destruct (raise_from decode_rules decode_object (asks w ++ [mkAsk j m q false])) as [Hf Hc].
    eapply (grants_asks w _ rest _ (fun i => if String.eqb j i then 1 else 0)); try done.
    + intros a Ha. destruct (Hf a Ha) as [[?| ->%list_elem_of_singleton]%elem_of_app|(b & Hb & Ei & Ep & He)];
        [| |apply elem_of_app in Hb as [Hb|Hb]; [|apply list_elem_of_singleton in Hb; subst b]].
      * left. by left.
      * right. by split.
      * left. right. eauto.
      * right. cbn in Ei, Ep. rewrite Ei, Ep in *. by split.
    + intros i. rewrite Hc, count_cat, count_cons. change (ask_of i (mkAsk j m q false)) with (String.eqb j i). change (count (ask_of i) []) with 0. lia.
  - eapply (grants_respond decode_rules decode_object fails w); try done; [by left|..]; cbn [asks rd amu hist set_rd].
    + apply write_same.
    + intros a c. by rewrite (proj2 (proj2 (proj2 (proj2 (proj2 (write_same _ _ _)))))).
    + intros i. unfold pend. cbn [asks rd amu hist set_rd]. rewrite Hr, count_cons. destruct (write_same fails (Response id0 NoOneToAsk) w) as (_&_&_&_&->& ->).
      cbn [todo_of]. lia.
  - eapply (grants_read w _ _ rest [] (if stdinClosed w || fails then [] else [Wrote (RefuseControl _)])); try done; cbn [asks rd amu hist set_rd]; try apply write_same.
    + unfold write. destruct (_ || _)%bool; [by rewrite app_nil_r|done].
    + destruct (_ || _)%bool; by repeat constructor.
  - match type of Hr with rd w = ACancel ?i :: _ => destruct (cancel_from decode_rules decode_object i (asks w)) as [Hf Hc] end.
    eapply (grants_asks w _ rest _ (fun _ => 0)); try done; [by left; apply Hf|intros i; rewrite Nat.add_0_r; apply Hc].
  - match type of Hr with rd w = ADrop ?i :: _ => destruct (drop_from decode_rules decode_object i (asks w)) as [Hf Hc] end.
    eapply (grants_asks w _ rest _ (fun _ => 0)); try done; [by left; apply Hf|intros i; rewrite Nat.add_0_r; apply Hc].
  - eapply (grants_read w _ _ rest [] [Told _]); try done. by repeat constructor.
  - eapply (grants_read w _ _ rest [] []); try done. cbn. by rewrite app_nil_r.
Qed.

(** A permission the reader begins is of the request it read. *)
Lemma onFrame_ask sid f now :
  (forall i p, AAsk i p ∈ onFrame EqualFold times100 int64_of id sid f now -> f = CanUseTool i p) /\
  (forall i n p, AQueue i n p ∉ onFrame EqualFold times100 int64_of id sid f now) /\
  (forall i, count (todo_of i) (onFrame EqualFold times100 int64_of id sid f now) <= count (is_request i) [Read f]).
Proof.
  assert (E : forall l, (forall x, x ∈ l -> other x) -> (forall i p, AAsk i p ∈ l -> f = CanUseTool i p) /\ (forall i n p, AQueue i n p ∉ l) /\
    (forall i, count (todo_of i) l <= count (is_request i) [Read f])).
  { intros l Hl. split_and!; [by intros i p ?%Hl|by intros i n p ?%Hl|]. intros i. rewrite other_count by done. lia. }
  assert (E0 : forall x : todo, x ∈ [] -> other x) by (by intros x ?%elem_of_nil).
  assert (E1 : forall y : todo, other y -> forall x, x ∈ [y] -> other x) by (by intros y Hy x ->%list_elem_of_singleton).
  unfold onFrame. destruct (_ && _)%bool; [by apply E, E1|]. destruct f; try (by apply E, E0); try (by apply E, E1).
  - apply E. intros x Hx. apply elem_of_cons in Hx as [->|Hx]; [done|]. by apply list_elem_of_singleton in Hx as ->.
  - destruct (negb _); [by apply E|]. destruct (_ =? _)%string; [by apply E|]. destruct blocks; [by apply E, E1|by apply E].
  - destruct (rateLimit _ _ _) as [[]|]; [by apply E, E1|by apply E].
  - split_and!; [by intros i p [= -> ->]%list_elem_of_singleton|by intros i n p ?%list_elem_of_singleton|]. intros i. rewrite !count_cons. done.
Qed.

Lemma step_grants m w w' : lanes_inv w -> grants_inv w -> step m w = Some w' -> grants_inv w'.
Proof.
  intros L I Hp. destruct m; cbn [ClaudeTurn.step] in Hp; cbn zeta in Hp.
  - destruct (_ && _)%bool eqn:B in Hp; [|done]. injection Hp as <-. apply andb_true_iff in B as [Hr _].
    assert (Hnil : rd w = []) by (by destruct (rd w)). destruct (onFrame_ask sid f now) as (H1 & H2 & H3).
    eapply (grants_step _ _ w _ [Read f]); try done; cbn [asks rd amu hist set_rd log].
    + intros a Ha. left. by left.
    + intros i p [H|[n H]]; [|by apply H2 in H]. right. right. apply H1 in H as ->. by left.
    + auto.
    + by intros i d ?%list_elem_of_singleton.
    + intros i. unfold pend. cbn [asks rd amu hist set_rd log]. specialize (H3 i). rewrite Hnil. change (count (is_response i) [Read f]) with 0. lia.
  - destruct (rd w) as [|x rest] eqn:Hr; [done|]. by eapply perform_grants.
  - destruct (bool_decide _); injection Hp as <-; (eapply (grants_same w _ []); try done; [cbn; by rewrite app_nil_r|by left]).
  - destruct (subs w !! native) as [[]|]; try done. injection Hp as <-.
    destruct (stdinClosed w); [|destruct fails];
      [eapply (grants_same w _ [])|eapply (grants_same w _ [])|eapply (grants_same w _ [Wrote (User _ _)])]; try done; cbn; rewrite ?app_nil_r; auto; by repeat constructor.
  - destruct (subs w !! native) as [[]|]; try done. injection Hp as <-. eapply (grants_same w _ []); try done; [cbn; by rewrite app_nil_r|by left].
  - destruct (subs w !! native) as [[]|]; try done. destruct (bool_decide _); [done|]. injection Hp as <-.
    eapply (grants_same w _ []); try done; [cbn; by rewrite app_nil_r|by left].
  - destruct (subs w !! native) as [[]|]; try done. injection Hp as <-. eapply (grants_same w _ []); try done; [cbn; by rewrite app_nil_r|by left].
  - destruct (amu w) eqn:Em; [done|]. destruct (asks w) as [|x rest] eqn:Eas; [done|]. destruct (_ && _)%bool eqn:B; [|done]. injection Hp as <-.
    apply andb_true_iff in B as [Hi%String.eqb_eq B]. subst prompt.
    eapply (grants_step _ _ w _ [Answered _ _; Told _]); try done; cbn [asks rd amu hist set_rd set_asks set_amu log].
    + intros a Ha. left. left. rewrite Eas. by right.
    + intros i p [?|?]; auto.
    + intros a c' [= <- <-]. right. rewrite Eas. split_and!; [by left|done|by left].
    + intros i d Hin. apply elem_of_cons in Hin as [[=]|Hin]. by apply list_elem_of_singleton in Hin.
    + intros i. unfold pend. cbn [asks rd amu hist set_rd set_asks set_amu log]. rewrite Em, Eas, !count_cons.
      cbn [is_response is_request answer_of]. change (count (is_response i) []) with 0. lia.
  - destruct (amu w) as [[x c|]|] eqn:Em; try done. injection Hp as <-. destruct (gi_amu _ _ _ I _ _ Em) as (Hq & Hs & Hc).
    destruct (write_same fails (Response (a_id x) (Decision_ decode_rules (perm x) c true)) w) as (_&_&_&E4&E5&_).
    eapply (grants_respond _ _ fails w); try done; cbn [asks rd amu hist set_rd set_asks set_amu log]; try done.
    + right. exists (a_native x), (perm x), c. done.
    + by rewrite E4.
    + intros i. unfold pend. cbn [asks rd amu hist set_rd set_asks set_amu log]. rewrite E4, E5, Em. cbn [answer_of]. change (String.eqb (a_id x) i) with (ask_of i x). lia.
  - destruct (amu w) as [[]|] eqn:Em; try done. injection Hp as <-. destruct (raise_from decode_rules decode_object (asks w)) as [Hf Hc].
    eapply (grants_step _ _ w _ (map Told _)); try done; cbn [asks rd amu hist set_rd set_asks set_amu log asking]; try done.
    + intros a Ha. rewrite told_told. left. by apply Hf.
    + intros i p [?|?]; auto.
    + intros i d (e & [=] & _)%list_elem_of_fmap.
    + intros i. destruct (aside_count _ (told_aside (raiseNext decode_rules decode_object (asks w)).2) i) as [-> ->].
      unfold pend. cbn [asks rd amu hist set_rd set_asks set_amu log asking]. rewrite Hc, Em. done.
  - injection Hp as <-. destruct (_ || _)%bool; [eapply (grants_same w _ [])|eapply (grants_same w _ [Wrote (ControlRequest _ _)])]; try done; cbn; rewrite ?app_nil_r; auto; by repeat constructor.
  - injection Hp as <-. eapply (grants_same w _ []); try done; [cbn; by rewrite app_nil_r|by left].
  - injection Hp as <-. eapply (grants_same w _ []); try done; [cbn; by rewrite app_nil_r|by left].
  - destruct (closing w); [done|]. injection Hp as <-. eapply (grants_same w _ []); try done; [cbn; by rewrite app_nil_r|by left].
  - injection Hp as <-. eapply (grants_same w _ []); try done; [cbn; by rewrite app_nil_r|by left].
  - destruct (bool_decide _); [|done]. injection Hp as <-. eapply (grants_same w _ []); try done; [cbn; by rewrite app_nil_r|by left].
  - destruct (_ && _)%bool; [|done]. injection Hp as <-. eapply (grants_same w _ []); try done; [cbn; by rewrite app_nil_r|by left].
  - destruct (bool_decide _); [|done]. injection Hp as <-. eapply (grants_same w _ []); try done; [cbn; by rewrite app_nil_r|by left].
  - destruct (_ && _)%bool; [|done]. injection Hp as <-. rewrite dropAsks_all.
    eapply (grants_step _ _ w _ []); try done; cbn [asks rd amu hist set_rd set_asks set_amu log asking set_waiting fst snd map].
    + by intros a ?%elem_of_nil.
    + intros i p [?|?]; auto.
    + auto.
    + by intros i d ?%elem_of_nil.
    + intros i. unfold pend. cbn [asks rd amu hist set_rd set_asks set_amu log asking set_waiting fst snd]. change (count (ask_of i) []) with 0. change (count (is_response i) []) with 0. lia.
  - destruct (bool_decide _); [|done]. injection Hp as <-. eapply (grants_same w _ [Told _]); try done; [by repeat constructor|by left].
  - destruct (bool_decide _); [|done]. injection Hp as <-. eapply (grants_same w _ []); try done; [cbn; by rewrite app_nil_r|by left].
Qed.

Lemma reachable_grants w : reachable w -> grants_inv w.
Proof.
  induction 1 as [|w m w' Hw I Ha Hp].
  - split; cbn; try done; [by intros a ?%elem_of_nil|intros i p [H|[n H]]; by apply elem_of_nil in H|by intros [] ?].
  - apply reachable_lanes in Hw as [L _]. by eapply step_grants.
Qed.
End World.
