(* ===== verification/ClaudeSubmits.v ===== *)
(** What the result of a Submit to claude's transport stands on: a receipt of
    claude's, or a message that never left. *)
From Stdlib Require Import ZArith QArith Ascii String Lia.
From stdpp Require Import base tactics list strings option gmap.
From S2P Require Import Prelude GoStr Bytes Json Contract Observation Requests SessionState Proc Codex CodexTurn Claude ClaudeTurn ClaudeReports ClaudeAsks.

#[local] Open Scope string_scope.
#[local] Open Scope list_scope.

(** ** What a Submit's result stands on *)

Definition acknowledged (s : string) : Prop := s ∈ ["queued"; "started"; "cancelled"; "discarded"; "refused"].
(** claude said it has the message; the message was written. *)
Definition acked (h : list cact) (n : string) : Prop := exists s, Read (Lifecycle n s) ∈ h /\ acknowledged s.
Definition sent (h : list cact) (n : string) : Prop := exists t, Wrote (User n t) ∈ h.

Definition sub_ok (r : gset string) (h : list cact) (n : string) (p : submit_pc) : Prop :=
  match p with
  | SubWrite _ => (n ∈ r \/ acked h n) /\ ~ sent h n
  | SubWait => (n ∈ r \/ acked h n) /\ sent h n
  | SubForget | SubDone SubmitExited => ~ sent h n
  | SubDone SubmitOK => acked h n /\ sent h n
  | SubDone _ => True
  end.

Record receipts_inv (w : world) : Prop := mkReceipts {
  ri_rd : forall u s, ALifecycle u s ∈ w.(rd) -> Read (Lifecycle u s) ∈ w.(hist);
  ri_sub : forall n p, w.(subs) !! n = Some p -> sub_ok w.(w_core).(receipts) w.(hist) n p;
  ri_new : forall n, w.(subs) !! n = None -> ~ sent w.(hist) n }.

Lemma acked_app h l n : acked h n -> acked (h ++ l) n.
Proof. intros (s & ? & ?). exists s. rewrite elem_of_app. auto. Qed.
Lemma sent_cat h l n : sent (h ++ l) n <-> sent h n \/ sent l n.
Proof. unfold sent. setoid_rewrite elem_of_app. naive_solver. Qed.

Lemma receipts_step w w' l : receipts_inv w -> w'.(hist) = w.(hist) ++ l ->
  (forall u s, ALifecycle u s ∈ w'.(rd) -> ALifecycle u s ∈ w.(rd) \/ Read (Lifecycle u s) ∈ l) ->
  (forall n, n ∈ w.(w_core).(receipts) -> n ∈ w'.(w_core).(receipts) \/ acked w.(hist) n \/ w.(subs) !! n = Some SubForget) ->
  (forall n, sent l n -> (exists t, w.(subs) !! n = Some (SubWrite t)) /\ w'.(subs) !! n = Some SubWait) ->
  (forall n p, w'.(subs) !! n = Some p -> w.(subs) !! n = Some p \/ sub_ok w'.(w_core).(receipts) w'.(hist) n p) ->
  (forall n, w'.(subs) !! n = None -> w.(subs) !! n = None) -> receipts_inv w'.
Proof.
  intros [I1 I2 I3] Eh Hr Hc Hs Hp Hn. split; rewrite ?Eh in *.
  - intros u s [?|?]%Hr; apply elem_of_app; auto.
  - intros n p H. destruct (Hp n p H) as [H'|?]; [|done]. pose proof (I2 n p H') as Hok.
    assert (Hun : (p <> SubWait) -> ~ sent (hist w) n -> ~ sent (hist w ++ l) n).
    { intros Hpw Hu [?|[_ E]%Hs]%sent_cat; [done|]. rewrite E in H. by injection H as <-. }
    assert (Hrec : p <> SubForget -> n ∈ receipts (w_core w) \/ acked (hist w) n -> n ∈ receipts (w_core w') \/ acked (hist w ++ l) n).
    { intros Hpf [[?|[?|E]]%Hc|?]; [by left|right; by apply acked_app|congruence|right; by apply acked_app]. }
    destruct p as [t| | |[]]; cbn in *; try done; try tauto.
    + destruct Hok. split; auto.
    + by apply Hun.
    + destruct Hok. split; [by apply Hrec|]. apply sent_cat. by left.
    + destruct Hok. split; [by apply acked_app|]. apply sent_cat. by left.
    + by apply Hun.
  - intros n H [?|[(t & E) _]%Hs]%sent_cat; [by apply (I3 n (Hn n H))|]. by rewrite (Hn n H) in E.
Qed.

(** A step that leaves the submissions and their receipts. *)
Lemma receipts_same w w' l : receipts_inv w -> w'.(hist) = w.(hist) ++ l -> (forall n t, Wrote (User n t) ∉ l) ->
  (forall u s, ALifecycle u s ∈ w'.(rd) -> ALifecycle u s ∈ w.(rd) \/ Read (Lifecycle u s) ∈ l) ->
  (forall n, n ∈ w.(w_core).(receipts) -> n ∈ w'.(w_core).(receipts) \/ acked w.(hist) n) -> w'.(subs) = w.(subs) -> receipts_inv w'.
Proof.
  intros I Eh Hl Hr Hc Es. eapply (receipts_step w w' l); try done; rewrite ?Es; try done; [naive_solver| |auto].
  intros n (t & Ht). by apply Hl in Ht.
Qed.

(** The critical sections but one leave the receipts. *)
Lemma onLifecycle_receipts u s c n : n ∈ c.(receipts) -> n ∈ (onLifecycle u s c).1.(receipts) \/ n = u.
Proof.
  intros Hn. destruct (decide (n = u)); [by right|left]. unfold onLifecycle.
  repeat match goal with |- n ∈ receipts (if ?b then _ else _).1 => destruct b | |- n ∈ receipts (match ?b with _ => _ end).1 => destruct b end;
    cbn; set_solver.
Qed.
Lemma onLifecycle_other u s c : ~ acknowledged s -> (onLifecycle u s c).1 = c.
Proof.
  intros H. unfold onLifecycle, acknowledged in *.
  repeat match goal with |- context [(s =? ?x)%string] => destruct (String.eqb_spec s x) as [->|_]; [exfalso; set_solver|] end. done.
Qed.
Lemma onForeign_receipts sid c : (onForeign sid c).1.(receipts) = c.(receipts).
Proof. unfold onForeign. by destruct (_ =? _)%string. Qed.
Lemma ownStarted_receipts c : (ownStarted c).1.(receipts) = c.(receipts).
Proof. unfold ownStarted. by destruct (_ || _)%bool. Qed.
Lemma fail_receipts f c : (fail_current f c).(receipts) = c.(receipts).
Proof. unfold fail_current. destruct (turn c); [done|]. by destruct (own c). Qed.
Lemma onResult_receipts rt origin reason is_error result status now c : (onResult rt origin reason is_error result status now c).1.(receipts) = c.(receipts).
Proof.
  unfold onResult. set (o := (_ || _)%bool). clearbody o. destruct o; [destruct (own c)|destruct (turn c)]; try done.
  by destruct (String.eqb _ _).
Qed.

Section World.
Context (EqualFold : string -> string -> bool).
Context (reset_time : string -> Z -> option Time) (times100 : Q -> Q) (int64_of : Q -> Z).
Context (decode_rules : string -> option (list (gmap string json))) (decode_object : string -> gmap string json).
Context (rate_json : RateLimitData -> option string) (id : string).
Notation step := (step EqualFold reset_time times100 int64_of decode_rules decode_object rate_json id).
Notation perform := (perform reset_time decode_rules decode_object rate_json).
Notation reachable := (reachable EqualFold reset_time times100 int64_of decode_rules decode_object rate_json id).

Lemma no_user es n t : Wrote (User n t) ∉ map Told es.
Proof. by intros (e & [=] & _)%list_elem_of_fmap. Qed.

Lemma receipts_section w x rest r : receipts_inv w -> w.(rd) = x :: rest -> left_over w.(w_core) r.2 ->
  (forall n, n ∈ w.(w_core).(receipts) -> n ∈ r.1.(receipts) \/ acked w.(hist) n) -> receipts_inv (section r rest w).
Proof.
  intros I Hr Hl Hc. eapply (receipts_same w _ []); try done; [cbn; by rewrite app_nil_r|by intros n t ?%elem_of_nil|].
  cbn. intros u s [H|H]%elem_of_app; [by apply Hl in H|]. left. rewrite Hr. by right.
Qed.

Lemma perform_receipts fails w x rest w' : receipts_inv w -> w.(rd) = x :: rest -> perform fails x rest w = Some w' -> receipts_inv w'.
Proof.
  intros I Hr Hp. assert (Hrest : forall u s, ALifecycle u s ∈ rest -> ALifecycle u s ∈ rd w) by (intros u s H; rewrite Hr; by right).
  assert (Hnil : forall n t, Wrote (User n t) ∉ []) by (by intros n t ?%elem_of_nil).
  assert (Hw : forall l rest', (forall u s, ALifecycle u s ∈ rest' -> ALifecycle u s ∈ rd w) -> (forall n t, l <> User n t) ->
    receipts_inv (set_rd rest' (write fails l w))).
  { intros l rest' Hrest' Hl. eapply (receipts_same w _ (if (stdinClosed w || fails)%bool then [] else [Wrote l])); try done; cbn; unfold write; destruct (_ || _)%bool; cbn;
      try done; [by rewrite app_nil_r|intros n t [= E]%list_elem_of_singleton; by apply (Hl n t)|auto|auto|auto|auto]. }
  assert (Ha : forall r, receipts_inv (set_rd rest (asking r w))).
  { intros r. eapply (receipts_same w _ (map Told r.2)); try done; [intros; apply no_user|cbn; auto|cbn; auto]. }
  assert (Hq : forall rest' w', (forall u s, ALifecycle u s ∈ rest' -> ALifecycle u s ∈ rd w) -> hist w' = hist w -> subs w' = subs w -> w_core w' = w_core w ->
    receipts_inv (set_rd rest' w')).
  { intros rest' w0 Hrest' Eh Es Ec. eapply (receipts_same w _ []); try done; cbn; [by rewrite Eh, app_nil_r|auto|rewrite Ec; auto]. }
  destruct x; cbn [ClaudeTurn.perform] in Hp; cbn zeta in Hp;
    try match type of Hp with (if is_none ?o then _ else _) = _ => destruct (is_none o); [|done] end; injection Hp as <-;
    try (by apply Ha); try (by apply Hw); try (by apply Hq).
  - eapply receipts_section; [done|done|apply onLifecycle_left|]. intros n Hn. destruct (decide (state ∈ ["queued"; "started"; "cancelled"; "discarded"; "refused"])) as [Hs|Hs].
    + destruct (onLifecycle_receipts uuid state (w_core w) n Hn) as [?| ->]; [by left|]. right. exists state. split; [|done]. apply I. rewrite Hr. by left.
    + rewrite onLifecycle_other by done. by left.
  - eapply receipts_section; [done|done|apply onInit_left|auto].
  - eapply receipts_section; [done|done|apply onMissing_left|auto].
  - eapply receipts_section; [done|done|apply ownStarted_left|rewrite ownStarted_receipts; auto].
  - eapply receipts_section; [done|done|apply left_over_nil|auto].
  - eapply receipts_section; [done|done| |auto]. cbn. destruct (turn (w_core w)); [|apply left_over_nil]. destruct (_ =? _)%string; [apply left_over_nil|].
    apply (left_over_tells _ [_]). constructor; [by intros [[=]|[=]]|done].
  - eapply receipts_section; [done|done|apply left_over_nil|]. cbn. rewrite fail_receipts. auto.
  - eapply receipts_section; [done|done| |].
    + apply (left_over_tells _ [_]). constructor; [by intros [[=]|[=]]|done].
    + cbn. destruct (turn (w_core w)); [|auto]. destruct (_ =? _)%string; auto.
  - eapply receipts_section; [done|done|apply onResult_left|rewrite onResult_receipts; auto].
  - apply Hq; try done. intros u s. match goal with |- context [if ?b then _ else _] => destruct b end; (intros [[=]|H]%elem_of_cons; auto).
  - eapply receipts_section; [done|done|apply onForeign_left|rewrite onForeign_receipts; auto].
  - eapply (receipts_same w _ [Told _]); try done; [by intros n t [=]%list_elem_of_singleton|cbn; auto|cbn; auto].
Qed.

Lemma onFrame_lifecycle sid f now u s : ALifecycle u s ∈ onFrame EqualFold times100 int64_of id sid f now -> f = Lifecycle u s.
Proof.
  unfold onFrame. destruct (_ && _)%bool; [by intros ?%list_elem_of_singleton|].
  destruct f; try (by intros [= -> ->]%list_elem_of_singleton); try (by intros ?%elem_of_nil).
  - by intros [[=]|[=]%list_elem_of_singleton]%elem_of_cons.
  - destruct (negb _); [by intros ?%elem_of_nil|]. destruct (_ =? _)%string; [by intros ?%elem_of_nil|]. destruct blocks; [by intros ?%list_elem_of_singleton|by intros ?%elem_of_nil].
  - destruct (rateLimit _ _ _) as [[]|]; [by intros ?%list_elem_of_singleton|by intros ?%elem_of_nil].
Qed.

(** A Submit moves. *)
Lemma receipts_move w w' n p l : receipts_inv w -> w'.(hist) = w.(hist) ++ l -> w'.(rd) = w.(rd) -> w'.(subs) = <[n := p]> w.(subs) ->
  (forall m, m ∈ w.(w_core).(receipts) -> m ∈ w'.(w_core).(receipts) \/ acked w.(hist) m \/ w.(subs) !! m = Some SubForget) ->
  (forall m, sent l m -> m = n /\ p = SubWait /\ exists t, w.(subs) !! n = Some (SubWrite t)) ->
  sub_ok w'.(w_core).(receipts) w'.(hist) n p -> receipts_inv w'.
Proof.
  intros I Eh Er Es Hc Hs Hp. eapply (receipts_step w w' l); try done; rewrite ?Er, ?Es; [auto| | |].
  - intros m (-> & -> & t & Ht)%Hs. rewrite lookup_insert_eq. eauto.
  - intros m q. destruct (decide (n = m)) as [->|]; [rewrite lookup_insert_eq; by intros [= <-]; right|rewrite lookup_insert_ne by done; by left].
  - intros m. destruct (decide (n = m)) as [->|]; [by rewrite lookup_insert_eq|by rewrite lookup_insert_ne].
Qed.

Lemma step_receipts m w w' : receipts_inv w -> admitted w m -> step m w = Some w' -> receipts_inv w'.
Proof.
  intros I Hadm Hp. assert (Hnil : forall n t, Wrote (User n t) ∉ []) by (by intros n t ?%elem_of_nil).
  assert (Hsent : forall n : string, ~ sent [] n) by (by intros n [t ?%elem_of_nil]).
  assert (Hq : forall w0 l, hist w0 = hist w ++ l -> (forall n t, Wrote (User n t) ∉ l) -> rd w0 = rd w -> subs w0 = subs w -> w_core w0 = w_core w -> receipts_inv w0).
  { intros w0 l Eh Hl Er Es Ec. eapply (receipts_same w w0 l); try done; [rewrite Er; auto|rewrite Ec; auto]. }
  assert (Hsame : forall w0, hist w0 = hist w -> rd w0 = rd w -> subs w0 = subs w -> w_core w0 = w_core w -> receipts_inv w0).
  { intros w0 Eh Er Es Ec. eapply (Hq w0 []); try done. by rewrite app_nil_r. }
  assert (Happ : hist w = hist w ++ []) by (by rewrite app_nil_r).
  destruct m; cbn [ClaudeTurn.step] in Hp; cbn zeta in Hp.
  - destruct (_ && _)%bool eqn:B in Hp; [|done]. injection Hp as <-. eapply (receipts_same w _ [Read f]); try done; [by intros n t ?%list_elem_of_singleton| |auto].
    intros u s ->%onFrame_lifecycle. right. by left.
  - destruct (rd w) as [|x rest] eqn:Hr; [done|]. by eapply perform_receipts.
  - destruct Hadm as [Hn Hnew]. pose proof (ri_new _ I _ Hnew) as Hu. case_bool_decide; injection Hp as <-.
    + eapply (receipts_move w _ native (SubDone SubmitExited) []); try done; [auto|by intros ? ?%Hsent].
    + eapply (receipts_move w _ native (SubWrite text) []); try done; cbn.
      * intros m Hm. left. set_solver.
      * by intros ? ?%Hsent.
      * split; [left; set_solver|done].
  - destruct (subs w !! native) as [[t| | |]|] eqn:Hs; try done. injection Hp as <-. pose proof (ri_sub _ I _ _ Hs) as [Ho Hu].
    destruct (stdinClosed w); [|destruct fails].
    + eapply (receipts_move w _ native SubForget []); try done; [auto|by intros ? ?%Hsent].
    + eapply (receipts_move w _ native (SubDone SubmitUnknown) []); try done; [auto|by intros ? ?%Hsent].
    + eapply (receipts_move w _ native SubWait [Wrote (User native t)]); try done; [auto| |].
      * intros m [t' [= -> ->]%list_elem_of_singleton]. eauto.
      * cbn. split; [destruct Ho; [by left|right; by apply acked_app]|]. exists t. apply elem_of_app. right. by left.
  - destruct (subs w !! native) as [[]|] eqn:Hs; try done. injection Hp as <-. pose proof (ri_sub _ I _ _ Hs) as Hu.
    eapply (receipts_move w _ native (SubDone SubmitExited) []); try done; [|by intros ? ?%Hsent].
    intros m Hm. destruct (decide (m = native)) as [->|]; [by right; right|]. left. cbn. destruct (turn (w_core w)); [destruct (_ =? _)%string|]; cbn; set_solver.
  - destruct (subs w !! native) as [[]|] eqn:Hs; try done. case_bool_decide as Hr; [done|]. injection Hp as <-. destruct (ri_sub _ I _ _ Hs) as [Ho Hw].
    eapply (receipts_move w _ native (SubDone SubmitOK) []); try done; [auto|by intros ? ?%Hsent|]. split; [by destruct Ho|done].
  - destruct (subs w !! native) as [[]|] eqn:Hs; try done. injection Hp as <-.
    eapply (receipts_move w _ native (SubDone SubmitUnknown) []); try done; [auto|by intros ? ?%Hsent].
  - destruct (amu w); [done|]. destruct (asks w); [done|]. destruct (_ && _)%bool; [|done]. injection Hp as <-.
    eapply (Hq _ [Answered _ _; Told _]); try done. by intros n t [[=]|[=]%list_elem_of_singleton]%elem_of_cons.
  - destruct (amu w) as [[x c|]|]; try done. injection Hp as <-. unfold write. destruct (_ || _)%bool; [by apply Hsame|].
    eapply (Hq _ [Wrote (Response _ _)]); try done. by intros n t [=]%list_elem_of_singleton.
  - destruct (amu w) as [[]|]; try done. injection Hp as <-. eapply (Hq _ (map Told _)); try done. intros. apply no_user.
  - injection Hp as <-. destruct (_ || _)%bool; [by apply Hsame|]. eapply (Hq _ [Wrote (ControlRequest _ _)]); try done. by intros n t [=]%list_elem_of_singleton.
  - injection Hp as <-. by apply Hsame.
  - injection Hp as <-. by apply Hsame.
  - destruct (closing w); [done|]. injection Hp as <-. by apply Hsame.
  - injection Hp as <-. by apply Hsame.
  - destruct (bool_decide _); [|done]. injection Hp as <-. by apply Hsame.
  - destruct (_ && _)%bool; [|done]. injection Hp as <-. by apply Hsame.
  - destruct (bool_decide _); [|done]. injection Hp as <-. by apply Hsame.
  - destruct (_ && _)%bool; [|done]. injection Hp as <-. eapply (Hq _ (map Told _)); try done. intros. apply no_user.
  - destruct (bool_decide _); [|done]. injection Hp as <-. eapply (Hq _ [Told _]); try done. by intros n t [=]%list_elem_of_singleton.
  - destruct (bool_decide _); [|done]. injection Hp as <-. by apply Hsame.
Qed.

Lemma reachable_receipts w : reachable w -> receipts_inv w.
Proof.
  induction 1 as [|w m w' Hw I Ha Hp]; [|by eapply step_receipts].
  split; cbn; [by intros u s ?%elem_of_nil|done|by intros n _ [t ?%elem_of_nil]].
Qed.
End World.
