(* ===== verification/ClaudeProps.v ===== *)
(** What claude's stream-json transport promises its Session: its reports of
    turns and of prompts are a transport's, a tool runs with permission only
    when the Host gave it, each request is answered once, and what a Submit
    answers is what became of the message. *)
From Stdlib Require Import ZArith QArith Ascii String Lia.
From stdpp Require Import base tactics list strings option gmap.
From S2P Require Import Prelude GoStr Bytes Json Contract Observation Requests SessionState Proc Codex CodexTurn Claude ClaudeTurn.
From S2P Require Import Verdict VerdictProps ClaudeReports ClaudeAsks ClaudeGrants ClaudeSubmits.

#[local] Open Scope string_scope.
#[local] Open Scope list_scope.
#[local] Open Scope nat_scope.

(** ** Answers *)

(** What a rule the Host has claude keep is: one of its suggestions that allows,
    for the session it runs. *)
Definition session_rule (r : gmap string json) : Prop :=
  r !! "type" = Some (JStr "addRules") /\ r !! "behavior" = Some (JStr "allow") /\ r !! "destination" = Some (JStr "session").

Lemma str_is_true o s : str_is o s = true -> o = Some (JStr s).
Proof. destruct o as [[]|]; cbn; try done. by intros ->%String.eqb_eq. Qed.

Lemma kept_rule_session r r' : kept_rule r = Some r' -> session_rule r'.
Proof.
  unfold kept_rule. destruct (_ || _)%bool eqn:B; [done|]. intros [= <-].
  apply orb_false_iff in B as [Ht%negb_false_iff%str_is_true Hb%negb_false_iff%str_is_true].
  split_and!; [by rewrite lookup_insert_ne|by rewrite lookup_insert_ne|by rewrite lookup_insert_eq].
Qed.

Lemma sessionRules_session dr p rules : sessionRules dr p = Some rules -> Forall session_rule rules.
Proof.
  unfold sessionRules. destruct (dr (Suggestions p)) as [all|]; [|done]. cbn. destruct (is_nil _); [done|]. intros [= <-].
  apply Forall_forall. intros r (s & _ & H)%list_elem_of_omap. by eapply kept_rule_session.
Qed.

(** Only yes and always allow, and only always has claude keep a rule: one of
    those it may. *)
Lemma Decision_allows dr p c k : (Decision_ dr p c k).(behavior) = "allow" -> ch_option c = OptionYes \/ ch_option c = OptionAlways.
Proof.
  unfold Decision_. destruct (_ || _)%bool eqn:B; [|done]. intros _. apply orb_true_iff in B as [B|B]; apply String.eqb_eq in B; auto.
Qed.

Lemma Decision_keeps dr p c k rules : (Decision_ dr p c k).(updatedPermissions) = Some rules ->
  ch_option c = OptionAlways /\ p.(NoAlways) = false /\ sessionRules dr p = Some rules /\ Forall session_rule rules.
Proof.
  unfold Decision_. destruct (_ || _)%bool; [|done]. cbn [updatedPermissions]. destruct (_ && _)%bool eqn:B; [|done]. intros H.
  apply andb_true_iff in B as [Hc Hk]. apply String.eqb_eq in Hc. unfold canAlways in Hk. apply andb_true_iff in Hk as [Hn _].
  apply negb_true_iff in Hn. split_and!; [done|done|done|by eapply sessionRules_session].
Qed.

(** A permission's prompt is at most 2 KiB. *)
Theorem prompt_text_bounded dobj p : String.length (text dobj p) <= maxPromptText.
Proof.
  unfold text. set (t := if (_ =? _)%string then _ else _). clearbody t. unfold clip.
  destruct (Nat.leb_spec (String.length t) maxPromptText) as [H|H]; [done|].
  set (n := maxPromptText - String.length "…"). assert (Hcut : rune_cut t n <= n).
  { clearbody n. clear. induction n as [|m IH]; cbn; [lia|]. destruct (String.get _ _); [|lia]. destruct (RuneStart _); lia. }
  set (cut := String.substring 0 (rune_cut t n) t). pose proof (TrimSpace_len cut) as Hl.
  assert (Hs : String.length cut <= n).
  { unfold cut. pose proof (f_equal length (substring_bytes (rune_cut t n) t)) as Hs. unfold bytes in Hs.
    rewrite length_take, !length_map, !length_list_ascii in Hs. lia. }
  pose proof (slen_app (TrimSpace cut) "…") as Ha. unfold slen in Ha. change (String.length "…") with 3 in *.
  assert (n = 2045) by reflexivity. change maxPromptText with 2048. lia.
Qed.

Section Props.
Context (EqualFold : string -> string -> bool).
Context (reset_time : string -> Z -> option Time) (times100 : Q -> Q) (int64_of : Q -> Z).
Context (decode_rules : string -> option (list (gmap string json))) (decode_object : string -> gmap string json).
Context (rate_json : RateLimitData -> option string) (id : string).
Notation step := (step EqualFold reset_time times100 int64_of decode_rules decode_object rate_json id).
Notation reachable := (reachable EqualFold reset_time times100 int64_of decode_rules decode_object rate_json id).

(** ** Theorems *)

(** C13: whatever its threads do and whatever claude says, claude's transport
    reports what the contract lets it of turns: an input's begins once at most
    and ends once at most, cancelled or refused only if it never began, and is
    not spoken of after; claude's own turns begin and end one after the other;
    nothing follows the exit. Until then, and with no frame in hand, the turns
    it is on are the ones that run. *)
Theorem claude_turns_refine w : reachable w ->
  exists a, run_lanes lanes0 (told w.(hist)) = Some a /\
    (exited w.(waiting) = false -> w.(rd) = [] -> a.(own_on) = native <$> w.(w_core).(own) /\
       forall ts, w.(w_core).(turn) = Some ts -> ts.(native) ∉ a.(over) /\ (ts.(native) ∈ a.(begun) <-> ts.(started) = true)).
Proof.
  intros [I _]%reachable_lanes. destruct (exited (waiting w)) eqn:Hx.
  - destruct (li_gone _ I Hx) as [a Ha]. by exists a.
  - destruct (li_lanes _ I Hx) as (a & a' & Ha & Ha' & Hok). exists a. split; [done|]. intros _ Hr. rewrite Hr in Ha'. injection Ha' as ->.
    split; [apply (lo_own _ _ _ Hok)|]. intros ts Hts. destruct (lo_turn _ _ _ Hok ts Hts) as (_ & ? & _ & ?). done.
Qed.

(** C15: the prompts claude's transport reports are a Session's, one at a time: a
    permission is raised while none is open or the open one's turn ended, and
    what is resolved is the one that is open. While no answer is in hand, the
    first of the permissions claude waits on is raised and is the one open: none
    waits unseen. *)
Theorem claude_prompts_refine w : reachable w ->
  exists p, run_shown shown0 (told w.(hist)) = Some p /\
    (w.(amu) = None -> forall a rest, w.(asks) = a :: rest -> a.(raised) = true /\ p.(open) = Some (a.(a_native), a.(a_id))).
Proof.
  intros I%reachable_shown. destruct (si_shown _ I) as (p & Hp & Hh & _). exists p. split; [done|]. intros Hm a rest Ha.
  pose proof (si_head _ I Hm) as Hr. rewrite Ha in Hr, Hh. cbn in Hr, Hh. rewrite Hr in Hh. by destruct Hh.
Qed.

(** C14: claude is told a tool is permitted only if it asked, the Host was shown
    the prompt of what it asked, and the Host answered that prompt yes or
    always; and it is told to keep rules only on always, and of the rules it
    suggested only those that allow, for its session alone. *)
Theorem permission_only_by_host w h1 i d h2 : reachable w -> w.(hist) = h1 ++ Wrote (Response i d) :: h2 -> d.(behavior) = "allow" ->
  exists n p c, Read (CanUseTool i p) ∈ h1 /\ Told (ev_raised n (Prompt decode_rules decode_object p i)) ∈ h1 /\ Answered i c ∈ h1 /\
    (ch_option c = OptionYes \/ ch_option c = OptionAlways) /\
    forall rules, d.(updatedPermissions) = Some rules ->
      ch_option c = OptionAlways /\ p.(NoAlways) = false /\ sessionRules decode_rules p = Some rules /\ Forall session_rule rules.
Proof.
  intros I%reachable_grants E Hd. destruct (gi_resp _ _ _ I _ _ _ _ E) as [->|(n & p & c & Hq & Hs & Hc & ->)]; [done|].
  exists n, p, c. split_and!; [done|done|done|by eapply Decision_allows|]. intros rules. apply Decision_keeps.
Qed.

(** C16: no request of claude's for a permission is answered twice, whoever
    answers, withdraws or drops it. *)
Theorem permission_answered_once w i : reachable w -> count (is_response i) w.(hist) <= count (is_request i) w.(hist).
Proof. intros I%reachable_grants. pose proof (gi_count _ _ _ I i). lia. Qed.

(** C17: what Submit answers is what became of the message: it succeeds only if
    the message was written and claude said it has it, and says the message was
    not submitted only if it never was written, then or later. *)
Theorem submit_answer_true w n r : reachable w -> w.(subs) !! n = Some (SubDone r) ->
  (r = SubmitOK -> sent w.(hist) n /\ acked w.(hist) n) /\ (r = SubmitExited -> ~ sent w.(hist) n).
Proof. intros I%reachable_receipts Hs. pose proof (ri_sub _ I _ _ Hs) as H. split; intros ->; cbn in H; [by destruct H|done]. Qed.
End Props.

(** ** Runs *)

Definition rule : gmap string json := {["type" := JStr "addRules"; "behavior" := JStr "allow"; "destination" := JStr "userSettings"]}.
Definition rules_of (s : string) : option (list (gmap string json)) := if String.eqb s "rules" then Some [rule] else None.

Section Runs.
Notation step_ := (step String.eqb (fun _ _ => None) (fun u => u) (fun _ => 0%Z) rules_of (fun _ => ∅) (fun _ => None) "s").
Notation reachable_ := (reachable String.eqb (fun _ _ => None) (fun u => u) (fun _ => 0%Z) rules_of (fun _ => ∅) (fun _ => None) "s").

Definition admitted_b (w : world) (m : move) : bool :=
  match m with MSubmit n _ => negb (String.eqb n "") && bool_decide (w.(subs) !! n = None) | _ => true end.

Fixpoint exec (ms : list move) (w : world) : option world :=
  match ms with [] => Some w | m :: ms => if admitted_b w m then step_ m w ≫= exec ms else None end.

Definition after (ms : list move) : world := default init (exec ms init).

Lemma exec_keeps ms w w' : reachable_ w -> exec ms w = Some w' -> reachable_ w'.
Proof.
  revert w. induction ms as [|m ms IH]; cbn; intros w Hw; [by intros [= <-]|]. destruct (admitted_b w m) eqn:Ha; [|done].
  destruct (step_ m w) as [w1|] eqn:Hs; [|done]. apply IH. eapply reach_step; [done| |done].
  destruct m; try done. cbn in Ha |- *. apply andb_true_iff in Ha as [Hn Hs']. apply bool_decide_eq_true in Hs'. split; [|done]. intros ->. done.
Qed.

Lemma ran_reachable ms : is_Some (exec ms init) -> reachable_ (after ms).
Proof. intros [w Hw]. unfold after. rewrite Hw. eapply exec_keeps; [apply reach_init|exact Hw]. Qed.

Definition perm_of (tool : string) : Permission := mkPermission tool "null" "rules" false.

(** An input's turn in which claude asks for two permissions: the first is
    answered always, the second withdrawn. *)
Definition submitted : list move := [MSubmit "n1" "text"; MWrite "n1" false; MRead "" (Lifecycle "n1" "queued") 1; MPerform false; MReceipt "n1"].
Definition asked_ : list move :=
  submitted ++ [MRead "" (Lifecycle "n1" "started") 2; MPerform false; MPerform false;
    MRead "" (CanUseTool "r1" (perm_of "Bash")) 3; MPerform false; MPerform false;
    MRead "" (CanUseTool "r2" (perm_of "Edit")) 3; MPerform false; MPerform false].
Definition answered_ : list move := asked_ ++ [MAnswer "r1" (mkChoice OptionAlways [] ""); MRespond false; MRaise].
Definition ended_ : list move :=
  answered_ ++ [MRead "" (CancelAsk "r2") 4; MPerform false; MRead "" (TaskNotification "b1") 4; MPerform false;
    MRead "" (Result "" "" false "done" 0) 5; MPerform false; MPerform false; MPerform false;
    MRead "s" (Init requiredCapabilities) 6; MPerform false; MPerform false; MPerform false].

(** A turn whose input's message was never written. *)
Definition errored : list move :=
  [MSubmit "n1" "text"; MRead "other" (Init requiredCapabilities) 1; MPerform false; MPerform false; MPerform false;
   MStop; MStopStdin; MWrite "n1" false; MForget "n1"].

Ltac ran := apply ran_reachable; vm_compute; eexists; reflexivity.

Lemma claude_turns_refine_witness : length (told (after ended_).(hist)) = 7 /\ exited (after ended_).(waiting) = false /\ (after ended_).(rd) = [] /\
  exists a, run_lanes lanes0 (told (after ended_).(hist)) = Some a /\
    (exited (after ended_).(waiting) = false -> (after ended_).(rd) = [] -> a.(own_on) = native <$> (after ended_).(w_core).(own) /\
       forall ts, (after ended_).(w_core).(turn) = Some ts -> ts.(native) ∉ a.(over) /\ (ts.(native) ∈ a.(begun) <-> ts.(started) = true)).
Proof.
  split; [by vm_compute|]. split; [by vm_compute|]. split; [by vm_compute|].
  refine (claude_turns_refine String.eqb (fun _ _ => None) (fun u => u) (fun _ => 0%Z) rules_of (fun _ => ∅) (fun _ => None) "s" (after ended_) _). ran.
Defined.

Lemma claude_prompts_refine_witness : length (after asked_).(asks) = 2 /\ (after asked_).(amu) = None /\
  exists p, run_shown shown0 (told (after asked_).(hist)) = Some p /\
    ((after asked_).(amu) = None -> forall a rest, (after asked_).(asks) = a :: rest -> a.(raised) = true /\ p.(open) = Some (a.(a_native), a.(a_id))).
Proof.
  split; [by vm_compute|]. split; [by vm_compute|].
  refine (claude_prompts_refine String.eqb (fun _ _ => None) (fun u => u) (fun _ => 0%Z) rules_of (fun _ => ∅) (fun _ => None) "s" (after asked_) _). ran.
Defined.

Definition kept : decision := Decision_ rules_of (perm_of "Bash") (mkChoice OptionAlways [] "") true.

Lemma permission_only_by_host_witness : kept.(updatedPermissions) = Some [<["destination" := JStr "session"]> rule] /\ exists h1 h2,
  (after answered_).(hist) = h1 ++ Wrote (Response "r1" kept) :: h2 /\
  exists n p c, Read (CanUseTool "r1" p) ∈ h1 /\ Told (ev_raised n (Prompt rules_of (fun _ => ∅) p "r1")) ∈ h1 /\ Answered "r1" c ∈ h1 /\
    (ch_option c = OptionYes \/ ch_option c = OptionAlways) /\
    forall rules, kept.(updatedPermissions) = Some rules ->
      ch_option c = OptionAlways /\ p.(NoAlways) = false /\ sessionRules rules_of p = Some rules /\ Forall session_rule rules.
Proof.
  split; [by vm_compute|].
  exists (take 9 (after answered_).(hist)), (drop 10 (after answered_).(hist)).
  assert (E : (after answered_).(hist) = take 9 (after answered_).(hist) ++ Wrote (Response "r1" kept) :: drop 10 (after answered_).(hist)) by (vm_compute; reflexivity).
  refine (conj E (permission_only_by_host String.eqb (fun _ _ => None) (fun u => u) (fun _ => 0%Z) rules_of (fun _ => ∅) (fun _ => None) "s"
    (after answered_) _ "r1" kept _ _ E _)); [ran|vm_compute; reflexivity].
Defined.

Lemma permission_answered_once_witness : count (is_request "r1") (after answered_).(hist) = 1 /\
  count (is_response "r1") (after answered_).(hist) <= count (is_request "r1") (after answered_).(hist).
Proof.
  split; [by vm_compute|].
  refine (permission_answered_once String.eqb (fun _ _ => None) (fun u => u) (fun _ => 0%Z) rules_of (fun _ => ∅) (fun _ => None) "s"
    (after answered_) "r1" _). ran.
Defined.

Lemma submit_answer_true_witness : sent (after submitted).(hist) "n1" /\ acked (after submitted).(hist) "n1" /\ ~ sent (after errored).(hist) "n1".
Proof.
  split_and!;
    [refine (proj1 (proj1 (submit_answer_true String.eqb (fun _ _ => None) (fun u => u) (fun _ => 0%Z) rules_of (fun _ => ∅) (fun _ => None) "s" (after submitted) "n1" SubmitOK _ _) eq_refl))
    |refine (proj2 (proj1 (submit_answer_true String.eqb (fun _ _ => None) (fun u => u) (fun _ => 0%Z) rules_of (fun _ => ∅) (fun _ => None) "s" (after submitted) "n1" SubmitOK _ _) eq_refl))
    |refine (proj2 (submit_answer_true String.eqb (fun _ _ => None) (fun u => u) (fun _ => 0%Z) rules_of (fun _ => ∅) (fun _ => None) "s" (after errored) "n1" SubmitExited _ _) eq_refl)];
    try ran; vm_compute; reflexivity.
Defined.

(** A turn may be reported ended errored of an input whose Submit then says it
    was not submitted: claude was found to run another session, and was
    stopped, while the message was still to be written. *)
Theorem errored_not_submitted : exists w, reachable_ w /\
  map (fun e => (e.(ev_kind), e.(ev_native), e.(ev_outcome))) (told w.(hist)) = [(Ended, "n1", TurnErrored)] /\
  w.(subs) !! "n1" = Some (SubDone SubmitExited) /\ ~ sent w.(hist) "n1".
Proof.
  exists (after errored). split; [ran|]. split; [vm_compute; reflexivity|]. split; [vm_compute; reflexivity|]. apply submit_answer_true_witness.
Qed.
End Runs.
