(* ===== verification/Registry.v ===== *)
(** The registries a runtime finds its harnesses in: the contract's
    (src/pkg/contract/registry.go) and the chat core's
    (src/internal/chatcore/registry.go), whose adapterNamed reads and shares in
    two critical sections.

    A name's adapter is a parameter; the chat core's factories make a new one at
    each call, told apart here by a number. *)
From Stdlib Require Import ZArith Ascii String Lia Sorting.Sorted.
From stdpp Require Import base tactics list strings option gmap sorting.
From S2P Require Import Prelude GoStr Contract.

#[local] Open Scope string_scope.
#[local] Open Scope list_scope.

(** [sort.Strings] of a map's keys. *)
Definition sorted_keys {V} (m : gmap string V) : list string := merge_sort String.le (map_to_list m).*1.

(** ** The contract's *)

Section Contract.
Context {Adapter : Type}.

(** [None]: it panics. A nil adapter is [None]. *)
Definition Register (name : string) (a : option Adapter) (registry : gmap string Adapter) : option (gmap string Adapter) :=
  match a with
  | None => None
  | Some a =>
    if String.eqb name "" then None
    else match registry !! name with Some _ => None | None => Some (<[name := a]> registry) end
  end.

Definition Lookup (name : string) (registry : gmap string Adapter) : option Adapter := registry !! name.
Definition Names (registry : gmap string Adapter) : list string := sorted_keys registry.
End Contract.

Definition ErrAdapterMissing : Error := mkError CodeOpenFailed (Some OpenAdapterMissing) None "" 0.

(** ** The chat core's *)

Section Chat.
(** What a harness registers; nil is [None] where one is asked for. *)
Context {Factory : Type}.

(** An adapter: what made it, and which of those made it is. *)
Record made := mkMade { by_ : Factory; serial : nat }.

Record registry := mkRegistry { factories : gmap string (option Factory); shared : gmap string made; next : nat }.

Definition RegisterAdapter (name : string) (f : option Factory) (r : registry) : registry :=
  mkRegistry (<[name := f]> r.(factories)) (delete name r.(shared)) r.(next).

(** [newAdapter()]. *)
Definition newAdapter (f : Factory) (r : registry) : made * registry :=
  (mkMade f r.(next), mkRegistry r.(factories) r.(shared) (S r.(next))).

Definition factory (name : string) (r : registry) : option Factory := default None (r.(factories) !! name).

(** [None]: ErrUnknownHarness. *)
Definition resolveAdapter (name : string) (r : registry) : option made * registry :=
  match factory name r with None => (None, r) | Some f => let '(a, r) := newAdapter f r in (Some a, r) end.

(** adapterNamed: what it read under the lock, and then what it shares. *)
Inductive named_pc := Share (name : string) (f : Factory) | Returned (name : string) (a : option made).

Definition named_read (name : string) (r : registry) : named_pc :=
  match r.(shared) !! name, factory name r with
  | Some a, _ => Returned name (Some a)
  | None, None => Returned name None
  | None, Some f => Share name f
  end.

Definition named_share (name : string) (f : Factory) (r : registry) : made * registry :=
  match r.(shared) !! name with
  | Some a => (a, r)
  | None => let '(a, r) := newAdapter f r in (a, mkRegistry r.(factories) (<[name := a]> r.(shared)) r.(next))
  end.

Definition registeredNames (r : registry) : list string := sorted_keys r.(factories).

(** The callers, in any order. *)
Record world := mkWorld { reg : registry; calls : gmap nat named_pc }.
Definition init : world := mkWorld (mkRegistry ∅ ∅ 0) ∅.

Inductive move := MRegister (name : string) (f : option Factory) | MNamed (i : nat) (name : string) | MShare (i : nat).

Definition step (m : move) (w : world) : option world :=
  match m with
  | MRegister name f => Some (mkWorld (RegisterAdapter name f w.(reg)) w.(calls))
  | MNamed i name =>
    match w.(calls) !! i with None => Some (mkWorld w.(reg) (<[i := named_read name w.(reg)]> w.(calls))) | Some _ => None end
  | MShare i =>
    match w.(calls) !! i with
    | Some (Share name f) => let '(a, r) := named_share name f w.(reg) in Some (mkWorld r (<[i := Returned name (Some a)]> w.(calls)))
    | _ => None
    end
  end.

Fixpoint run (ms : list move) (w : world) : option world :=
  match ms with [] => Some w | m :: ms => step m w ≫= run ms end.
End Chat.
Arguments made : clear implicits.
Arguments registry : clear implicits.
Arguments named_pc : clear implicits.
Arguments world : clear implicits.
Arguments move : clear implicits.

(** ** Theorems *)

Lemma sorted_keys_spec {V} (m : gmap string V) :
  Sorted String.le (sorted_keys m) /\ NoDup (sorted_keys m) /\ forall k, k ∈ sorted_keys m <-> is_Some (m !! k).
Proof.
  unfold sorted_keys. split_and!.
  - apply Sorted_merge_sort. apply _.
  - rewrite merge_sort_Permutation. apply NoDup_fst_map_to_list.
  - intros k. rewrite merge_sort_Permutation. rewrite list_elem_of_fmap. split.
    + intros ([k' v] & -> & Hv%elem_of_map_to_list). by eexists.
    + intros [v Hv]. exists (k, v). split; [done|]. by apply elem_of_map_to_list.
Qed.

Section ContractProps.
Context {Adapter : Type}.
Implicit Types (r : gmap string Adapter) (a : Adapter).

(** A harness that was registered is found under its name, and named, and what
    was registered before is as it was: whatever is registered after. *)
Lemma Register_registers name a r r' : Register name (Some a) r = Some r' ->
  Lookup name r' = Some a /\ name ∈ Names r' /\ r ⊆ r' /\ forall b, Register name b r' = None.
Proof.
  unfold Register. destruct (String.eqb name "") eqn:En; [done|]. destruct (r !! name) eqn:Er; [done|]. intros [= <-]. split_and!.
  - by apply lookup_insert_eq.
  - apply sorted_keys_spec. by rewrite lookup_insert_eq.
  - by apply insert_subseteq.
  - intros [b|]; [|done]. by rewrite lookup_insert_eq.
Qed.

Lemma Register_panics name b r : Register name b r = None <-> name = "" \/ b = None \/ is_Some (Lookup name r).
Proof.
  unfold Register, Lookup. destruct b as [b|]; [|naive_solver]. destruct (String.eqb_spec name "") as [->|Hn]; [naive_solver|].
  destruct (r !! name); split; try done; [naive_solver|]. intros [?|[?|[? ?]]]; done.
Qed.
End ContractProps.

Section ChatProps.
Context {Factory : Type}.
Implicit Types (w : world Factory) (m : move Factory).

Definition registers (name : string) (m : move Factory) : Prop := match m with MRegister n _ => n = name | _ => False end.

(** Every adapter shared or returned was made before the next will be. *)
Lemma shared_stays m w w' name a : step m w = Some w' -> ~ registers name m -> w.(reg).(shared) !! name = Some a -> w'.(reg).(shared) !! name = Some a.
Proof.
  destruct m as [n f|i n|i]; cbn.
  - intros [= <-] Hn Ha. cbn. by rewrite lookup_delete_ne.
  - destruct (calls w !! i); [done|]. by intros [= <-].
  - destruct (calls w !! i) as [[n f|]|]; try done. unfold named_share. destruct (shared (reg w) !! n) eqn:En; intros [= <-]; [done|].
    intros _ Ha. cbn. destruct (decide (n = name)) as [->|]; [congruence|by rewrite lookup_insert_ne].
Qed.

Lemma returned_stays ms w w' i name b : run ms w = Some w' -> w.(calls) !! i = Some (Returned name b) -> w'.(calls) !! i = Some (Returned name b).
Proof.
  revert w. induction ms as [|m ms IH]; intros w Hr Hw; cbn in Hr; [by injection Hr as <-|]. destruct (step m w) as [w1|] eqn:Hs; [|done].
  apply (IH w1 Hr). destruct m as [n f|j n|j]; cbn in Hs; [by injection Hs as <-| |].
  - destruct (calls w !! j) eqn:Ej; [done|]. injection Hs as <-. cbn. rewrite lookup_insert_ne; [done|congruence].
  - destruct (calls w !! j) as [[n f|]|] eqn:Ej; try done. destruct (named_share n f (reg w)). injection Hs as <-. cbn.
    rewrite lookup_insert_ne; [done|congruence].
Qed.

(** Who returns while an adapter is shared returns it. *)
Lemma returns_shared m w w' i name a b : step m w = Some w' -> w.(reg).(shared) !! name = Some a ->
  w'.(calls) !! i = Some (Returned name b) -> w.(calls) !! i = Some (Returned name b) \/ b = Some a.
Proof.
  intros Hs Ha Hb. destruct m as [n f|j n|j]; cbn in Hs; [injection Hs as <-; by left| |].
  - destruct (calls w !! j) eqn:Ej; [done|]. injection Hs as <-. cbn in Hb. destruct (decide (j = i)) as [->|]; [|rewrite lookup_insert_ne in Hb by done; by left].
    rewrite lookup_insert_eq in Hb. injection Hb as Hb. right. unfold named_read in Hb. destruct (shared (reg w) !! n) eqn:En; [|destruct (factory n (reg w))]; congruence.
  - destruct (calls w !! j) as [[n f|]|] eqn:Ej; try done. destruct (named_share n f (reg w)) as [c r] eqn:Ec. injection Hs as <-. cbn in Hb.
    destruct (decide (j = i)) as [->|]; [|rewrite lookup_insert_ne in Hb by done; by left].
    rewrite lookup_insert_eq in Hb. injection Hb as -> <-. right. unfold named_share in Ec. rewrite Ha in Ec. by injection Ec as <-.
Qed.

(** Until a name is registered again, every caller of adapterNamed gets one and
    the same adapter, however they interleave: once it is shared, whoever
    returns later returns it. *)
Theorem adapter_shared ms w w' name a i b : run ms w = Some w' -> Forall (fun m => ~ registers name m) ms ->
  w.(reg).(shared) !! name = Some a -> (forall b', w.(calls) !! i <> Some (Returned name b')) ->
  w'.(calls) !! i = Some (Returned name b) -> b = Some a.
Proof.
  revert w. induction ms as [|m ms IH]; intros w; cbn; [intros [= ->] _ _ Hi Hb; by destruct (Hi b)|].
  destruct (step m w) as [w1|] eqn:Hs; [|done]. cbn. intros Hr [Hm Hms]%Forall_cons Ha Hi Hb.
  pose proof (shared_stays _ _ _ _ _ Hs Hm Ha) as Ha1. destruct (calls w1 !! i) as [[n f|n b']|] eqn:Ei.
  - eapply IH; try done. intros b'. congruence.
  - destruct (decide (n = name)) as [->|]; [|eapply IH; try done; intros b''; congruence].
    pose proof (returned_stays _ _ _ _ _ _ Hr Ei) as E. rewrite Hb in E. injection E as <-.
    destruct (returns_shared _ _ _ _ _ _ _ Hs Ha Ei) as [E|E]; [by destruct (Hi b)|done].
  - eapply IH; try done. intros b'. congruence.
Qed.
End ChatProps.

(** A caller whose name is registered again between its two critical sections
    shares an adapter of the factory that was replaced: from then on adapterNamed
    answers with it, while a conversation gets one of the factory that is
    registered. *)
Theorem replaced_factory_shared : exists w : world nat,
  run [MRegister "claude-code" (Some 1%nat); MNamed 0 "claude-code"; MRegister "claude-code" (Some 2%nat); MShare 0; MNamed 1 "claude-code"] init = Some w /\
  w.(calls) !! 1%nat = Some (Returned "claude-code" (Some (mkMade 1%nat 0))) /\
  (resolveAdapter "claude-code" w.(reg)).1 = Some (mkMade 2%nat 1).
Proof. eexists. split_and!; vm_compute; reflexivity. Qed.

Example adapter_shared_witness :
  let ms := [MRegister "claude-code" (Some 1%nat); MNamed 0 "claude-code"; MNamed 2 "claude-code"; MShare 0] in
  match run ms (init : world nat) with
  | Some w => match run [MShare 2] w with
              | Some w' => w'.(calls) !! 2%nat = Some (Returned "claude-code" (Some (mkMade 1%nat 0)))
              | None => False
              end
  | None => False
  end.
Proof. vm_compute. reflexivity. Qed.
