(* ===== verification/Headers.v ===== *)
(** The shell text a profile writes for a harness's headers
    (src/pkg/adapter/headers.go), and that what it quotes is one word, read back
    as it was. *)
From Stdlib Require Import ZArith Ascii String Lia.
From stdpp Require Import base tactics list strings option gmap sorting.
From S2P Require Import Prelude GoStr Registry.

#[local] Open Scope string_scope.
#[local] Open Scope list_scope.

(** ** The text *)

Definition quote_mark : ascii := "039".
Definition dquote : string := String "034" "".
Definition tab : string := String "009" "".
Definition newline : string := String "010" "".
Definition line (l : list string) : string := (String.concat "" l ++ newline)%string.

(** [strings.ReplaceAll(s, "'", `'\''`)]. *)
Fixpoint replace_quotes (s : string) : string :=
  match s with
  | EmptyString => ""
  | String c s => if Ascii.eqb c quote_mark then ("'\''" ++ replace_quotes s)%string else String c (replace_quotes s)
  end.

Definition ShellQuote (s : string) : string := ("'" ++ replace_quotes s ++ "'")%string.

Definition var (i : nat) : string := ("v" ++ Itoa (Z.of_nat i))%string.
Definition ctl_set : string := "'\t -~\200-\377'".

(** One header's lines that read its value. *)
Definition header_read (files : gmap string string) (i : nat) (k : string) : string :=
  let f := ShellQuote (default "" (files !! k)) in
  let unreadable := ShellQuote ("cannot read the file of header " ++ k) in
  String.concat "" [
    line ["[ -r "; f; " ] || die "; unreadable];
    line [var i; "=$(tr -d '\r\n' <"; f; ") || die "; unreadable];
    line ["[ -z "; dquote; "$(ctl "; dquote; "$"; var i; dquote; ")"; dquote; " ] || die ";
      ShellQuote ("the file of header " ++ k ++ " holds a control character")];
    line [var i; "=$(esc "; dquote; "$"; var i; dquote; ")"]].

(** And the line that prints it. *)
Definition header_print (i : nat) (k : string) : string :=
  line ["printf '"; (if (i =? 0)%nat then "" else ","); dquote; "%s"; dquote; ":"; dquote; "%s"; dquote; "' "; ShellQuote k; " "; dquote; "$"; var i; dquote].

Definition preamble (name : string) : string :=
  String.concat "" [
    line ["#!/bin/sh"];
    line ["# The headers of MCP server "; name; ", read from their files each time the"];
    line ["# harness connects: no value is in its configuration or environment."];
    line ["set -eu"]; line ["LC_ALL=C"]; line ["export LC_ALL"];
    line ["die() { echo "; dquote; "$1"; dquote; " >&2; exit 1; }"];
    line ["ctl() { printf '%s' "; dquote; "$1"; dquote; " | tr -d "; ctl_set; "; }"];
    line ["esc() { printf '%s' "; dquote; "$1"; dquote; " | sed -e 's/\\/\\\\/g' -e 's/"; dquote; "/\\"; dquote; "/g' -e 's/"; tab; "/\\t/g'; }"]].

Definition HeadersScript (name : string) (files : gmap string string) : string :=
  let names := sorted_keys files in
  String.concat "" ([preamble name] ++ imap (header_read files) names ++ [line ["printf '{'"]] ++ imap header_print names ++ [line ["printf '}\n'"]]).

Definition HeaderCommand (file : string) : string :=
  String.concat "" ["export LC_ALL=C; v=$(tr -d '\r\n' <"; ShellQuote file; ") && [ -z "; dquote; "$(printf '%s' "; dquote; "$v"; dquote; " | tr -d "; ctl_set; ")"; dquote;
    " ] && printf '%s' "; dquote; "$v"; dquote].

(** ** How a shell reads a word *)

(** What ends a word, and what means something else than itself outside quotes. *)
Definition ends_word (c : ascii) : bool := existsb (Ascii.eqb c) (list_ascii_of_string (" ;&|<>()" ++ tab ++ newline)).
Definition special (c : ascii) : bool := existsb (Ascii.eqb c) (list_ascii_of_string ("$`*?[#~=%!{}" ++ dquote)).

(** POSIX's single quotes and backslash: the word, and what is left. [None]: the
    text ends in quotes or after a backslash, or holds what is expanded. *)
Fixpoint read_word (quoted escaped : bool) (s : string) : option (string * string) :=
  match s with
  | EmptyString => if quoted || escaped then None else Some ("", "")
  | String c s' =>
    if quoted then if Ascii.eqb c quote_mark then read_word false false s' else prod_map (String c) Datatypes.id <$> read_word true false s'
    else if escaped then prod_map (String c) Datatypes.id <$> read_word false false s'
    else if Ascii.eqb c quote_mark then read_word true false s'
    else if Ascii.eqb c "\" then read_word false true s'
    else if ends_word c then Some ("", s)
    else if special c then None
    else prod_map (String c) Datatypes.id <$> read_word false false s'
  end.

(** A word ends here. *)
Definition boundary (s : string) : Prop := match s with EmptyString => True | String c _ => ends_word c = true end.

Lemma read_word_boundary rest : boundary rest -> read_word false false rest = Some ("", rest).
Proof.
  destruct rest as [|c rest]; [done|]. intros H. cbn in H |- *. destruct (Ascii.eqb_spec c quote_mark) as [->|_]; [done|].
  destruct (Ascii.eqb_spec c "\") as [->|_]; [done|]. by rewrite H.
Qed.

Lemma read_quoted s rest : boundary rest -> read_word true false (replace_quotes s ++ "'" ++ rest)%string = Some (s, rest).
Proof.
  intros Hr. induction s as [|c s IH]; cbn [replace_quotes].
  - change ("" ++ "'" ++ rest)%string with (String "'" rest). cbn [read_word]. change (Ascii.eqb "'" quote_mark) with true. by apply read_word_boundary.
  - destruct (Ascii.eqb_spec c quote_mark) as [->|Hc].
    + change (("'\''" ++ replace_quotes s) ++ "'" ++ rest)%string
        with (String "'" (String "\" (String "'" (String "'" (replace_quotes s ++ "'" ++ rest)))))%string.
      cbn [read_word]. change (Ascii.eqb "'" quote_mark) with true. change (Ascii.eqb "\" quote_mark) with false. change (Ascii.eqb "\" "\") with true.
      cbn iota. by rewrite IH.
    + change (String c (replace_quotes s) ++ "'" ++ rest)%string with (String c (replace_quotes s ++ "'" ++ rest))%string.
      cbn [read_word]. rewrite (proj2 (Ascii.eqb_neq _ _) Hc). by rewrite IH.
Qed.

(** What ShellQuote gives is one word to a shell, and the word is what was
    quoted: whatever bytes it holds, and whatever follows that ends a word. *)
Theorem ShellQuote_one_word s rest : boundary rest -> read_word false false (ShellQuote s ++ rest)%string = Some (s, rest).
Proof.
  intros H. unfold ShellQuote. change (("'" ++ replace_quotes s ++ "'") ++ rest)%string with (String "'" ((replace_quotes s ++ "'") ++ rest))%string.
  cbn [read_word]. change (Ascii.eqb "'" quote_mark) with true. cbn iota. rewrite append_assoc. by apply read_quoted.
Qed.

Lemma ShellQuote_one_word_witness : read_word false false (ShellQuote "it's $HOME; rm" ++ ") && x") = Some ("it's $HOME; rm", ") && x").
Proof. refine (ShellQuote_one_word "it's $HOME; rm" ") && x" _). vm_compute. reflexivity. Defined.

(** The file a header's command reads is the one it was made for. *)
Theorem HeaderCommand_reads file : exists before after, HeaderCommand file = (before ++ ShellQuote file ++ after)%string /\ 
  read_word false false (ShellQuote file ++ after)%string = Some (file, after).
Proof.
  eexists "export LC_ALL=C; v=$(tr -d '\r\n' <", _. split; [unfold HeaderCommand; cbn [String.concat]; reflexivity|]. by apply ShellQuote_one_word.
Qed.
