(* ===== verification/ChatStream.v ===== *)
(** A conversation on the stream-json transport
    (src/internal/chatcore/stream.go, with beginTurn and failSubmit of send.go
    and exitWith of events.go): the Send, the reader of claude's frames,
    streamWait, and the Interrupts and Answers, each a thread whose critical
    sections, events and writes are steps, in any order.

    A Send that cannot reserve the conversation answers at once and changes
    nothing, so there is one at most. Turns, stream turns, interrupt ops and
    permissions are pointers: each has a heap. What the reader has still to do of
    a frame is a list ([rd]). The delivery queue is the list of what was queued,
    until it stops taking events. What the Host's policy and callback answer to a
    permission is an argument of its frame. *)
From Stdlib Require Import ZArith Ascii String Lia.
From stdpp Require Import base tactics list strings option gmap.
From S2P Require Import Prelude GoStr Verdict.

#[local] Open Scope string_scope.
#[local] Open Scope list_scope.
#[local] Open Scope go_scope.
#[local] Open Scope nat_scope.

(** ** What the conversation keeps *)

(** [s_tid] is the turn it was made for, which the code reads as the current
    turn's id. *)
Record streamTurn := mkStream { s_tid : nat; uuid : string; received : bool; s_text : string; output : bool; apiError : string; s_op : option nat }.

Definition with_received (s : streamTurn) : streamTurn := mkStream s.(s_tid) s.(uuid) true s.(s_text) s.(output) s.(apiError) s.(s_op).
Definition with_output (text : string) (s : streamTurn) : streamTurn :=
  mkStream s.(s_tid) s.(uuid) s.(received) (s.(s_text) ++ text)%string true s.(apiError) s.(s_op).
Definition with_error (e : string) (s : streamTurn) : streamTurn := mkStream s.(s_tid) s.(uuid) s.(received) s.(s_text) s.(output) e s.(s_op).
Definition with_op (o : nat) (s : streamTurn) : streamTurn := mkStream s.(s_tid) s.(uuid) s.(received) s.(s_text) s.(output) s.(apiError) (Some o).

(** What Interrupt answers; [IFails] with an error. *)
Inductive int_result := IRes (r : InterruptResult) | IFails.

(** [o_tid] is interruptedBy when the op was made. *)
Record op := mkOp { o_tid : nat; o_result : option int_result }.

(** Where a turn is. *)
Inductive tphase := Recorded | Flight | Claimed (t : Turn) | Told (t : Turn).

Inductive event :=
| EvUser (text : string) | EvPending (tid : nat) | EvTerminal (tid : nat) (t : Turn)
| EvInput (id : string) | EvResolved (id : string) | EvRate (report : string) | EvExited (status : string).

Record permission := mkPerm { p_id : string; p_input : string }.

(** ** Threads *)

Inductive decision := Allow (input : string) | Deny.
Inductive line := User (uuid text : string) | Response (id : string) (d : decision) | Refuse (id : string) | Control (m : nat).

(** What the reader has still to do of a frame. *)
Inductive todo :=
| ALifecycle (uuid state : string)
| AInit (mode : string) (capabilities : list string) (version : string)
| AMissing (missing version : string)
| ARetry (text : string)
| ADelta (text : string)
| AAssistant (error : string) (tool : bool)
| AResult (reason : string) (is_error : bool) (result : string) (status now : Z)
| AControl (m : nat) (ok : bool)
| ASurface (p : permission)
| AWrite (l : line)
| AReceived (st : nat)
| AFinish (o : nat) (r : int_result)
| APublish (tid : nat)
| ADone
| AEmit (e : event)
| AStop.

Inductive send_result := Sent (tid : nat) | SendFails.
Inductive send_pc :=
| SIdle
| SReserved (text : string)
| SBegun (text : string)
| SUser (text : string)
| SAnnounced (text : string) (tid : nat)
| SCurrent (text : string) (tid : nat)
| SWrite (text : string) (tid st : nat)
| SWait (tid st : nat)
| SDrop (tid st : nat) (err : string)
| SFail (tid : nat) (err : string)
| SEnding (tid : nat)
| SEnded
| SReturning (r : send_result).

(** [IPanics]: it reads the id of a turn that is not there. *)
Inductive int_pc := IControl (o : nat) | IAsked (o : nat) | IWait (o : nat) | IReturned (o : option nat) (r : int_result) | IPanics.

Inductive answer_pc := NWrite (k : nat) (option_ : string) | NClear (k : nat) | NEmit (id : string) | NReturned (ok : bool).

Inductive wait_pc :=
| WProcess | WRead | WStdin | WClear
| WSettle (o : option nat) (id : option string)
| WResolve (id : option string)
| WExit | WSends | WPublish (tid : nat) | WEnded | WEnds | WDone.

Record conv := mkConv {
  currentTurn : option nat; writeReserved : bool; exit : option string; sending : nat; ending : nat;
  turns : gmap nat tphase; next : nat; interruptedBy : option nat;
  s_turn : option nat; streams : gmap nat streamTurn; ops : gmap nat op; capsChecked : bool; mode : string; retrying : string;
  perm : option nat; perms : gmap nat permission; control : gset nat; got : gmap nat bool; stdinClosed : bool;
  rd : list todo; waiting : wait_pc; snd_ : send_pc; ints : gmap nat int_pc; answers : gmap nat answer_pc;
  drained : bool; log : list event; lines : list line }.

Definition set_currentTurn (x : option nat) (c : conv) : conv :=
  mkConv x c.(writeReserved) c.(exit) c.(sending) c.(ending) c.(turns) c.(next) c.(interruptedBy) c.(s_turn) c.(streams) c.(ops) c.(capsChecked)
    c.(mode) c.(retrying) c.(perm) c.(perms) c.(control) c.(got) c.(stdinClosed) c.(rd) c.(waiting) c.(snd_) c.(ints) c.(answers) c.(drained) c.(log) c.(lines).
Definition set_writeReserved (x : bool) (c : conv) : conv :=
  mkConv c.(currentTurn) x c.(exit) c.(sending) c.(ending) c.(turns) c.(next) c.(interruptedBy) c.(s_turn) c.(streams) c.(ops) c.(capsChecked)
    c.(mode) c.(retrying) c.(perm) c.(perms) c.(control) c.(got) c.(stdinClosed) c.(rd) c.(waiting) c.(snd_) c.(ints) c.(answers) c.(drained) c.(log)
    c.(lines).
Definition set_exit (x : option string) (c : conv) : conv :=
  mkConv c.(currentTurn) c.(writeReserved) x c.(sending) c.(ending) c.(turns) c.(next) c.(interruptedBy) c.(s_turn) c.(streams) c.(ops)
    c.(capsChecked) c.(mode) c.(retrying) c.(perm) c.(perms) c.(control) c.(got) c.(stdinClosed) c.(rd) c.(waiting) c.(snd_) c.(ints) c.(answers)
    c.(drained) c.(log) c.(lines).
Definition set_sending (x : nat) (c : conv) : conv :=
  mkConv c.(currentTurn) c.(writeReserved) c.(exit) x c.(ending) c.(turns) c.(next) c.(interruptedBy) c.(s_turn) c.(streams) c.(ops) c.(capsChecked)
    c.(mode) c.(retrying) c.(perm) c.(perms) c.(control) c.(got) c.(stdinClosed) c.(rd) c.(waiting) c.(snd_) c.(ints) c.(answers) c.(drained) c.(log)
    c.(lines).
Definition set_ending (x : nat) (c : conv) : conv :=
  mkConv c.(currentTurn) c.(writeReserved) c.(exit) c.(sending) x c.(turns) c.(next) c.(interruptedBy) c.(s_turn) c.(streams) c.(ops) c.(capsChecked)
    c.(mode) c.(retrying) c.(perm) c.(perms) c.(control) c.(got) c.(stdinClosed) c.(rd) c.(waiting) c.(snd_) c.(ints) c.(answers) c.(drained) c.(log)
    c.(lines).
Definition set_turns (x : gmap nat tphase) (c : conv) : conv :=
  mkConv c.(currentTurn) c.(writeReserved) c.(exit) c.(sending) c.(ending) x c.(next) c.(interruptedBy) c.(s_turn) c.(streams) c.(ops) c.(capsChecked)
    c.(mode) c.(retrying) c.(perm) c.(perms) c.(control) c.(got) c.(stdinClosed) c.(rd) c.(waiting) c.(snd_) c.(ints) c.(answers) c.(drained) c.(log)
    c.(lines).
Definition set_next (x : nat) (c : conv) : conv :=
  mkConv c.(currentTurn) c.(writeReserved) c.(exit) c.(sending) c.(ending) c.(turns) x c.(interruptedBy) c.(s_turn) c.(streams) c.(ops)
    c.(capsChecked) c.(mode) c.(retrying) c.(perm) c.(perms) c.(control) c.(got) c.(stdinClosed) c.(rd) c.(waiting) c.(snd_) c.(ints) c.(answers)
    c.(drained) c.(log) c.(lines).
Definition set_interruptedBy (x : option nat) (c : conv) : conv :=
  mkConv c.(currentTurn) c.(writeReserved) c.(exit) c.(sending) c.(ending) c.(turns) c.(next) x c.(s_turn) c.(streams) c.(ops) c.(capsChecked)
    c.(mode) c.(retrying) c.(perm) c.(perms) c.(control) c.(got) c.(stdinClosed) c.(rd) c.(waiting) c.(snd_) c.(ints) c.(answers) c.(drained) c.(log)
    c.(lines).
Definition set_s_turn (x : option nat) (c : conv) : conv :=
  mkConv c.(currentTurn) c.(writeReserved) c.(exit) c.(sending) c.(ending) c.(turns) c.(next) c.(interruptedBy) x c.(streams) c.(ops) c.(capsChecked)
    c.(mode) c.(retrying) c.(perm) c.(perms) c.(control) c.(got) c.(stdinClosed) c.(rd) c.(waiting) c.(snd_) c.(ints) c.(answers) c.(drained) c.(log)
    c.(lines).
Definition set_streams (x : gmap nat streamTurn) (c : conv) : conv :=
  mkConv c.(currentTurn) c.(writeReserved) c.(exit) c.(sending) c.(ending) c.(turns) c.(next) c.(interruptedBy) c.(s_turn) x c.(ops) c.(capsChecked)
    c.(mode) c.(retrying) c.(perm) c.(perms) c.(control) c.(got) c.(stdinClosed) c.(rd) c.(waiting) c.(snd_) c.(ints) c.(answers) c.(drained) c.(log)
    c.(lines).
Definition set_ops (x : gmap nat op) (c : conv) : conv :=
  mkConv c.(currentTurn) c.(writeReserved) c.(exit) c.(sending) c.(ending) c.(turns) c.(next) c.(interruptedBy) c.(s_turn) c.(streams) x
    c.(capsChecked) c.(mode) c.(retrying) c.(perm) c.(perms) c.(control) c.(got) c.(stdinClosed) c.(rd) c.(waiting) c.(snd_) c.(ints) c.(answers)
    c.(drained) c.(log) c.(lines).
Definition set_capsChecked (x : bool) (c : conv) : conv :=
  mkConv c.(currentTurn) c.(writeReserved) c.(exit) c.(sending) c.(ending) c.(turns) c.(next) c.(interruptedBy) c.(s_turn) c.(streams) c.(ops) x
    c.(mode) c.(retrying) c.(perm) c.(perms) c.(control) c.(got) c.(stdinClosed) c.(rd) c.(waiting) c.(snd_) c.(ints) c.(answers) c.(drained) c.(log)
    c.(lines).
Definition set_mode (x : string) (c : conv) : conv :=
  mkConv c.(currentTurn) c.(writeReserved) c.(exit) c.(sending) c.(ending) c.(turns) c.(next) c.(interruptedBy) c.(s_turn) c.(streams) c.(ops)
    c.(capsChecked) x c.(retrying) c.(perm) c.(perms) c.(control) c.(got) c.(stdinClosed) c.(rd) c.(waiting) c.(snd_) c.(ints) c.(answers) c.(drained)
    c.(log) c.(lines).
Definition set_retrying (x : string) (c : conv) : conv :=
  mkConv c.(currentTurn) c.(writeReserved) c.(exit) c.(sending) c.(ending) c.(turns) c.(next) c.(interruptedBy) c.(s_turn) c.(streams) c.(ops)
    c.(capsChecked) c.(mode) x c.(perm) c.(perms) c.(control) c.(got) c.(stdinClosed) c.(rd) c.(waiting) c.(snd_) c.(ints) c.(answers) c.(drained)
    c.(log) c.(lines).
Definition set_perm (x : option nat) (c : conv) : conv :=
  mkConv c.(currentTurn) c.(writeReserved) c.(exit) c.(sending) c.(ending) c.(turns) c.(next) c.(interruptedBy) c.(s_turn) c.(streams) c.(ops)
    c.(capsChecked) c.(mode) c.(retrying) x c.(perms) c.(control) c.(got) c.(stdinClosed) c.(rd) c.(waiting) c.(snd_) c.(ints) c.(answers) c.(drained)
    c.(log) c.(lines).
Definition set_perms (x : gmap nat permission) (c : conv) : conv :=
  mkConv c.(currentTurn) c.(writeReserved) c.(exit) c.(sending) c.(ending) c.(turns) c.(next) c.(interruptedBy) c.(s_turn) c.(streams) c.(ops)
    c.(capsChecked) c.(mode) c.(retrying) c.(perm) x c.(control) c.(got) c.(stdinClosed) c.(rd) c.(waiting) c.(snd_) c.(ints) c.(answers) c.(drained)
    c.(log) c.(lines).
Definition set_stdinClosed (x : bool) (c : conv) : conv :=
  mkConv c.(currentTurn) c.(writeReserved) c.(exit) c.(sending) c.(ending) c.(turns) c.(next) c.(interruptedBy) c.(s_turn) c.(streams) c.(ops)
    c.(capsChecked) c.(mode) c.(retrying) c.(perm) c.(perms) c.(control) c.(got) x c.(rd) c.(waiting) c.(snd_) c.(ints) c.(answers) c.(drained)
    c.(log) c.(lines).
Definition set_rd (x : list todo) (c : conv) : conv :=
  mkConv c.(currentTurn) c.(writeReserved) c.(exit) c.(sending) c.(ending) c.(turns) c.(next) c.(interruptedBy) c.(s_turn) c.(streams) c.(ops)
    c.(capsChecked) c.(mode) c.(retrying) c.(perm) c.(perms) c.(control) c.(got) c.(stdinClosed) x c.(waiting) c.(snd_) c.(ints) c.(answers)
    c.(drained) c.(log) c.(lines).
Definition set_waiting (x : wait_pc) (c : conv) : conv :=
  mkConv c.(currentTurn) c.(writeReserved) c.(exit) c.(sending) c.(ending) c.(turns) c.(next) c.(interruptedBy) c.(s_turn) c.(streams) c.(ops)
    c.(capsChecked) c.(mode) c.(retrying) c.(perm) c.(perms) c.(control) c.(got) c.(stdinClosed) c.(rd) x c.(snd_) c.(ints) c.(answers) c.(drained)
    c.(log) c.(lines).
Definition set_snd (x : send_pc) (c : conv) : conv :=
  mkConv c.(currentTurn) c.(writeReserved) c.(exit) c.(sending) c.(ending) c.(turns) c.(next) c.(interruptedBy) c.(s_turn) c.(streams) c.(ops)
    c.(capsChecked) c.(mode) c.(retrying) c.(perm) c.(perms) c.(control) c.(got) c.(stdinClosed) c.(rd) c.(waiting) x c.(ints) c.(answers) c.(drained)
    c.(log) c.(lines).
Definition set_ints (x : gmap nat int_pc) (c : conv) : conv :=
  mkConv c.(currentTurn) c.(writeReserved) c.(exit) c.(sending) c.(ending) c.(turns) c.(next) c.(interruptedBy) c.(s_turn) c.(streams) c.(ops)
    c.(capsChecked) c.(mode) c.(retrying) c.(perm) c.(perms) c.(control) c.(got) c.(stdinClosed) c.(rd) c.(waiting) c.(snd_) x c.(answers) c.(drained)
    c.(log) c.(lines).
Definition set_answers (x : gmap nat answer_pc) (c : conv) : conv :=
  mkConv c.(currentTurn) c.(writeReserved) c.(exit) c.(sending) c.(ending) c.(turns) c.(next) c.(interruptedBy) c.(s_turn) c.(streams) c.(ops)
    c.(capsChecked) c.(mode) c.(retrying) c.(perm) c.(perms) c.(control) c.(got) c.(stdinClosed) c.(rd) c.(waiting) c.(snd_) c.(ints) x c.(drained)
    c.(log) c.(lines).
Definition set_drained (x : bool) (c : conv) : conv :=
  mkConv c.(currentTurn) c.(writeReserved) c.(exit) c.(sending) c.(ending) c.(turns) c.(next) c.(interruptedBy) c.(s_turn) c.(streams) c.(ops)
    c.(capsChecked) c.(mode) c.(retrying) c.(perm) c.(perms) c.(control) c.(got) c.(stdinClosed) c.(rd) c.(waiting) c.(snd_) c.(ints) c.(answers) x
    c.(log) c.(lines).
Definition set_log (x : list event) (c : conv) : conv :=
  mkConv c.(currentTurn) c.(writeReserved) c.(exit) c.(sending) c.(ending) c.(turns) c.(next) c.(interruptedBy) c.(s_turn) c.(streams) c.(ops)
    c.(capsChecked) c.(mode) c.(retrying) c.(perm) c.(perms) c.(control) c.(got) c.(stdinClosed) c.(rd) c.(waiting) c.(snd_) c.(ints) c.(answers)
    c.(drained) x c.(lines).
Definition set_lines (x : list line) (c : conv) : conv :=
  mkConv c.(currentTurn) c.(writeReserved) c.(exit) c.(sending) c.(ending) c.(turns) c.(next) c.(interruptedBy) c.(s_turn) c.(streams) c.(ops)
    c.(capsChecked) c.(mode) c.(retrying) c.(perm) c.(perms) c.(control) c.(got) c.(stdinClosed) c.(rd) c.(waiting) c.(snd_) c.(ints) c.(answers)
    c.(drained) c.(log) x.
Definition set_control (x : gset nat) (y : gmap nat bool) (c : conv) : conv :=
  mkConv c.(currentTurn) c.(writeReserved) c.(exit) c.(sending) c.(ending) c.(turns) c.(next) c.(interruptedBy) c.(s_turn) c.(streams) c.(ops)
    c.(capsChecked) c.(mode) c.(retrying) c.(perm) c.(perms) x y c.(stdinClosed) c.(rd) c.(waiting) c.(snd_) c.(ints) c.(answers) c.(drained) c.(log)
    c.(lines).

Definition opened : conv :=
  mkConv None false None 0 0 ∅ 0 None None ∅ ∅ false "" "" None ∅ ∅ ∅ false [] WProcess SIdle ∅ ∅ false [] [].

Definition emit (e : event) (c : conv) : conv := if c.(drained) then c else set_log (c.(log) ++ [e]) c.
Definition set_phase (tid : nat) (p : tphase) (c : conv) : conv := set_turns (<[tid := p]> c.(turns)) c.
Definition upd_stream (st : nat) (f : streamTurn -> streamTurn) (c : conv) : conv := set_streams (alter f st c.(streams)) c.
Definition set_int (m : nat) (p : int_pc) (c : conv) : conv := set_ints (<[m := p]> c.(ints)) c.
Definition set_answer (k : nat) (p : answer_pc) (c : conv) : conv := set_answers (<[k := p]> c.(answers)) c.

(** op.finish: the first result stays. *)
Definition finish (o : nat) (r : int_result) (c : conv) : conv :=
  set_ops (alter (fun x => mkOp x.(o_tid) (match x.(o_result) with Some r' => Some r' | None => Some r end)) o c.(ops)) c.

(** streamWrite; [fails]: the pipe refuses the write. *)
Definition streamWrite (fails : bool) (l : line) (c : conv) : conv :=
  if c.(stdinClosed) || fails then c else set_lines (c.(lines) ++ [l]) c.

(** claimTurnLocked; the claimer makes [t] of the turn. *)
Definition claim (t : Turn) (c : conv) : option (nat * conv) :=
  match c.(currentTurn) with
  | None => None
  | Some tid => Some (tid, set_phase tid (Claimed t) (set_currentTurn None (set_ending (S c.(ending)) c)))
  end.

(** publishTurn, and ending.Done. *)
Definition publish (tid : nat) (c : conv) : conv :=
  match c.(turns) !! tid with
  | Some (Claimed t) => emit (EvTerminal tid t) (set_phase tid (Told t) c)
  | _ => c
  end.
Definition done_ (c : conv) : conv := set_ending (pred c.(ending)) c.

Section ChatStream.
Context (resumeAtFrom : string -> option Z) (harness : string).

Definition pending : Turn := mkTurn "" "" RoleAssistant TurnStatePending "" "" 0 0 "" 0 0 None.
Definition ended (state reason : string) (now : Z) : Turn := set_Reason reason (set_CompletedAt now (set_State state pending)).

(** ** Frames (onStreamFrame) *)

Inductive frame :=
| FLifecycle (uuid state : string)
| FInit (mode : string) (capabilities : list string) (version : string)
| FRetry (text : string)
| FDelta (parent text : string)
| FTool (parent : string)
| FAssistant (parent error : string) (tool : bool)
| FResult (reason : string) (is_error : bool) (result : string) (status : Z)
| FControlResponse (m : nat) (ok : bool)
| FCanUseTool (p : permission) (decided : option string)
| FOtherRequest (id : string)
| FRateLimit (report : string)
| FOther.

(** answerStreamPermission's response. *)
Definition response (p : permission) (option_ : string) : option line :=
  if option_ =s? "allow" then Some (Response p.(p_id) (Allow (if p.(p_input) =s? "" then "{}" else p.(p_input))))
  else if option_ =s? "deny" then Some (Response p.(p_id) Deny)
  else None.

Definition onStreamFrame (f : frame) (now : Z) : list todo :=
  match f with
  | FLifecycle uuid state => [ALifecycle uuid state]
  | FInit mode caps version => [AInit mode caps version]
  | FRetry text => [ARetry text]
  | FDelta parent text => if parent =s? "" then [ADelta text] else []
  | FTool parent => if parent =s? "" then [ADelta ""] else []
  | FAssistant parent error tool => if parent =s? "" then [AAssistant error tool] else []
  | FResult reason is_error result status => [AResult reason is_error result status now]
  | FControlResponse m ok => [AControl m ok]
  | FCanUseTool p (Some o) => match response p o with Some l => [AWrite l] | None => [] end
  | FCanUseTool p None => [ASurface p; AEmit (EvInput p.(p_id))]
  | FOtherRequest id => [AWrite (Refuse id)]
  | FRateLimit report => [AEmit (EvRate report)]
  | FOther => []
  end.

Definition streamRequiredCapabilities : list string := ["interrupt_receipt_v1"; "msg_lifecycle_v1"].
Definition lacks (have : list string) : list string := List.filter (fun c => negb (bool_decide (c ∈ have))) streamRequiredCapabilities.

(** onStreamInit, its first section. *)
Definition onStreamInit (m : string) (have : list string) (version : string) (c : conv) : conv * list todo :=
  let c' := set_capsChecked true (if m =s? "" then c else set_mode m c) in
  (c', if c.(capsChecked) then [] else match lacks have with [] => [] | l => [AMissing (String.concat ", " l) version] end).

(** The stream turn of the turn in flight is taken from the conversation. *)
Definition stream_of (c : conv) : option (nat * streamTurn) := st ← c.(s_turn); s ← c.(streams) !! st; Some (st, s).
Definition settle_op (s : option (nat * streamTurn)) (r : int_result) : list todo :=
  match s with Some (_, s) => match s.(s_op) with Some o => [AFinish o r] | None => [] end | None => [] end.
Definition receive (s : option (nat * streamTurn)) : list todo := match s with Some (st, _) => [AReceived st] | None => [] end.

(** and its second. *)
Definition onMissing (missing version : string) (now : Z) (c : conv) : conv * list todo :=
  let s := stream_of c in
  let t := ended TurnStateErrored
    (harness ++ ": claude " ++ version ++ " does not support the stream-json transport: it lacks " ++ missing)%string now in
  let '(c', l) := match claim t c with Some (tid, c') => (c', [APublish tid; ADone]) | None => (c, []) end in
  (set_s_turn None c', receive s ++ settle_op s IFails ++ l ++ [AStop]).

Definition onStreamLifecycle (u state : string) (now : Z) (c : conv) : conv * list todo :=
  match stream_of c with
  | None => (c, [])
  | Some (st, s) =>
    if negb (s.(uuid) =s? u) then (c, [])
    else if (state =s? "queued") || (state =s? "started") then (c, [AReceived st])
    else if state =s? "completed" then (c, [])
    else
      let cancelled := state =s? "cancelled" in
      let t := if cancelled
               then ended TurnStateInterrupted (interruptReason harness InterruptCancelled (negb (is_none s.(s_op)))) now
               else ended TurnStateErrored (harness ++ ": claude " ++ state ++ " the message")%string now in
      match claim t c with
      | Some (tid, c') =>
        (set_s_turn None c', AReceived st :: APublish tid :: ADone ::
           settle_op (Some (st, s)) (IRes (if cancelled then InterruptCancelled else InterruptTooLate)))
      | None => (set_s_turn None c, [AReceived st])
      end
  end.

Definition streamErrorText (reason result : string) : string :=
  if negb (result =s? "") then result else ("turn failed (" ++ reason ++ ")")%string.

(** What a result makes of the turn, and of an interrupt of it. *)
Definition result_turn (s : option streamTurn) (reason : string) (is_error : bool) (result : string) (status now : Z) : InterruptResult * Turn :=
  if HasPrefix reason "aborted" then
    let outcome := if match s with Some s => s.(output) | None => false end then InterruptStopped else InterruptCancelled in
    let t := ended TurnStateInterrupted
      (interruptReason harness outcome (match s with Some s => negb (is_none s.(s_op)) | None => false end)) now in
    (outcome, if bool_decide (outcome = InterruptStopped) then set_Text (match s with Some s => s.(s_text) | None => "" end) t else t)
  else if is_error then
    let t := set_retry status 0 (ended TurnStateErrored "" now) in
    let tag := match s with Some s => s.(apiError) | None => "" end in
    (InterruptTooLate,
     match apiErrorClasses !! tag with
     | Some v =>
       let v := mkVerdict v.(v_reason) v.(v_code) tag result in
       let t := set_Code v.(v_code) (set_Reason (turnReason harness v) t) in
       if v.(v_code) =s? CodeUsageLimited then set_ResumeAt (resumeAtFrom result) t else t
     | None => set_Reason (harness ++ ": " ++ oneLineCapped (streamErrorText reason result) apiErrorDetailCap)%string t
     end)
  else (InterruptTooLate, set_Text result (ended TurnStateComplete "" now)).

Definition onStreamResult (reason : string) (is_error : bool) (result : string) (status now : Z) (c : conv) : conv * list todo :=
  let s := stream_of c in
  let '(outcome, t) := result_turn (snd <$> s) reason is_error result status now in
  match claim t c with
  | Some (tid, c') =>
    (set_retrying "" (set_s_turn None c'), receive s ++ [APublish tid; ADone] ++ settle_op s (IRes outcome))
  | None => (set_retrying "" (set_s_turn None c), [])
  end.

(** The reader's next step. *)
Definition section (r : conv * list todo) (rest : list todo) : conv := set_rd (r.2 ++ rest) r.1.

Definition perform (fails : bool) (now : Z) (a : todo) (rest : list todo) (c : conv) : conv :=
  match a with
  | ALifecycle uuid state => section (onStreamLifecycle uuid state now c) rest
  | AInit m have version => section (onStreamInit m have version c) rest
  | AMissing missing version => section (onMissing missing version now c) rest
  | ARetry text => set_rd rest (set_retrying text c)
  | ADelta text =>
    set_rd rest (match c.(s_turn) with Some st => set_retrying "" (upd_stream st (with_output text) c) | None => c end)
  | AAssistant error tool =>
    set_rd rest (match c.(s_turn) with
                 | Some st => upd_stream st (fun s => let s := if error =s? "" then s else with_error error s in if tool then with_output "" s else s) c
                 | None => c
                 end)
  | AResult reason is_error result status at_ => section (onStreamResult reason is_error result status at_ c) rest
  | AControl m ok =>
    set_rd rest (if bool_decide (m ∈ c.(control)) then set_control (c.(control) ∖ {[m]}) (<[m := ok]> c.(got)) c else c)
  | ASurface p => let k := c.(next) in set_rd rest (set_next (S k) (set_perm (Some k) (set_perms (<[k := p]> c.(perms)) c)))
  | AWrite l => set_rd rest (streamWrite fails l c)
  | AReceived st => set_rd rest (upd_stream st with_received c)
  | AFinish o r => set_rd rest (finish o r c)
  | APublish tid => set_rd rest (publish tid c)
  | ADone => set_rd rest (done_ c)
  | AEmit e => set_rd rest (emit e c)
  | AStop => set_rd rest c
  end.

(** ** Send *)

(** Send, up to its reservation; [held] is queue.Held(), [closed] the
    conversation's. [None]: it answers with an error. *)
Definition Send (text : string) (held closed : bool) (c : conv) : option conv :=
  if closed || negb held || negb (is_none c.(currentTurn)) || c.(writeReserved) || negb (is_none c.(exit)) then None
  else Some (set_snd (SReserved text) (set_writeReserved true c)).

(** beginTurn. *)
Definition begin_check (text : string) (c : conv) : conv :=
  if negb (is_none c.(currentTurn)) || negb (is_none c.(exit)) then set_snd (SReturning SendFails) c
  else set_snd (SBegun text) (set_sending (S c.(sending)) c).
Definition sending_done (c : conv) : conv := set_sending (pred c.(sending)) c.
Definition append_user (text : string) (ok : bool) (c : conv) : conv :=
  if ok then set_snd (SUser text) (emit (EvUser text) c) else set_snd (SReturning SendFails) (sending_done c).
Definition append_assistant (text : string) (ok : bool) (c : conv) : conv :=
  if ok then
    let tid := c.(next) in
    set_snd (SAnnounced text tid) (emit (EvPending tid) (set_next (S tid) (set_phase tid Recorded c)))
  else set_snd (SReturning SendFails) (sending_done c).
Definition make_current (text : string) (tid : nat) (c : conv) : conv :=
  set_snd (SCurrent text tid) (sending_done (set_currentTurn (Some tid) (set_phase tid Flight c))).

(** streamSend after beginTurn. *)
Definition stream_begin (text u : string) (tid : nat) (c : conv) : conv :=
  if bool_decide (c.(currentTurn) = Some tid) then
    let st := c.(next) in
    set_snd (SWrite text tid st) (set_next (S st) (set_s_turn (Some st) (set_streams (<[st := mkStream tid u false "" false "" None]> c.(streams)) c)))
  else set_snd (SReturning (Sent tid)) c.
Definition stream_write (text : string) (tid st : nat) (fails : bool) (c : conv) : conv :=
  if c.(stdinClosed) || fails then set_snd (SDrop tid st "write") c
  else match c.(streams) !! st with
       | Some s => set_snd (SWait tid st) (streamWrite false (User s.(uuid) text) c)
       | None => c
       end.
Definition dropStreamTurn (tid st : nat) (err : string) (c : conv) : conv :=
  set_snd (SFail tid err) (if bool_decide (c.(s_turn) = Some st) then set_s_turn None c else c).
Definition failSubmit (tid : nat) (err : string) (now : Z) (c : conv) : conv :=
  match (if bool_decide (c.(currentTurn) = Some tid) then claim (ended TurnStateErrored ("submit: " ++ err)%string now) c else None) with
  | Some (_, c) => set_snd (SEnding tid) c
  | None => set_snd (SReturning SendFails) c
  end.

(** ** Interrupt and Answer *)

Definition streamInterrupt (m : nat) (c : conv) : conv :=
  match c.(s_turn) with
  | None => set_int m (IReturned None (IRes InterruptNoTurn)) c
  | Some st =>
    match (fun s => s.(s_op)) <$> c.(streams) !! st with
    | Some (Some o) => set_int m (IWait o) c
    | Some None =>
      match c.(currentTurn) with
      | Some tid =>
        let o := c.(next) in
        set_int m (IControl o) (set_next (S o) (set_interruptedBy (Some tid)
          (set_ops (<[o := mkOp tid None]> c.(ops)) (upd_stream st (with_op o) c))))
      | None => set_int m IPanics c
      end
    | None => c
    end
  end.

Definition streamAnswer (n : nat) (id option_ : string) (several : bool) (c : conv) : conv :=
  match c.(perm) with
  | None => set_answer n (NReturned false) c
  | Some k =>
    match c.(perms) !! k with
    | Some p => if negb (p.(p_id) =s? id) || several then set_answer n (NReturned false) c else set_answer n (NWrite k option_) c
    | None => c
    end
  end.

Definition answer_write (n k : nat) (option_ : string) (fails : bool) (c : conv) : conv :=
  match c.(perms) !! k with
  | Some p =>
    match response p option_ with
    | Some l => if c.(stdinClosed) || fails then set_answer n (NReturned false) c else set_answer n (NClear k) (streamWrite false l c)
    | None => set_answer n (NReturned false) c
    end
  | None => c
  end.
Definition answer_clear (n k : nat) (c : conv) : conv :=
  let id := match c.(perms) !! k with Some p => p.(p_id) | None => "" end in
  set_answer n (NEmit id) (if bool_decide (c.(perm) = Some k) then set_perm None c else c).

(** ** streamWait and exitWith *)

Definition wait_clear (c : conv) : conv :=
  let o := match stream_of c with Some (_, s) => s.(s_op) | None => None end in
  let id := k ← c.(perm); p ← c.(perms) !! k; Some p.(p_id) in
  set_waiting (WSettle o id) (set_perm None (set_s_turn None c)).

Definition exit_claim (status : string) (now : Z) (c : conv) : conv :=
  match claim (ended TurnStateErrored (harness ++ ": harness exited (" ++ status ++ ")")%string now) c with
  | Some (tid, c) => set_waiting (WPublish tid) c
  | None => set_waiting WEnds c
  end.

(** ** Steps *)

(** Which thread moves. [MGiveUp] is a context's end; [MDone], the conversation's. *)
Inductive move :=
| MRead (f : frame) (now : Z)
| MPerform (fails : bool) (now : Z)
| MExit
| MReadEnd
| MStdin
| MClear
| MSettle
| MResolve
| MExitSet (status : string)
| MSends (now : Z)
| MExitPublish
| MExitEnded
| MExitLast
| MStop
| MAbandon
| MSend (text : string) (held closed : bool)
| MBegin
| MUser (ok : bool)
| MAssistant (ok : bool)
| MCurrent
| MStream (uuid : string)
| MWrite (fails : bool)
| MReceived
| MDone
| MGiveUp (err : string)
| MDrop
| MFail (now : Z)
| MPublish
| MEnded
| MRelease
| MInterrupt (m : nat)
| MControl (m : nat) (fails : bool)
| MControlled (m : nat)
| MControlEnds (m : nat)
| MAnswered (m : nat)
| MIntGiveUp (m : nat)
| MAnswer (n : nat) (id option_ : string) (several : bool)
| MAnswerWrite (n : nat) (fails : bool)
| MAnswerClear (n : nat)
| MAnswerEmit (n : nat).

Definition wait_step (m : move) (c : conv) : option conv :=
  match m, c.(waiting) with
  | MExit, WProcess => Some (set_waiting WRead c)
  | MReadEnd, WRead => if is_nil c.(rd) then Some (set_waiting WStdin c) else None
  | MStdin, WStdin => Some (set_waiting WClear (set_control ∅ (gset_to_gmap false c.(control) ∪ c.(got)) (set_stdinClosed true c)))
  | MClear, WClear => Some (wait_clear c)
  | MSettle, WSettle o id => Some (set_waiting (WResolve id) (match o with Some o => finish o IFails c | None => c end))
  | MResolve, WResolve id => Some (set_waiting WExit (match id with Some id => emit (EvResolved id) c | None => c end))
  | MExitSet status, WExit => Some (set_waiting WSends (set_exit (Some status) c))
  | MSends now, WSends => status ← c.(exit); if bool_decide (c.(sending) = 0) then Some (exit_claim status now c) else None
  | MExitPublish, WPublish tid => Some (set_waiting WEnded (publish tid c))
  | MExitEnded, WEnded => Some (set_waiting WEnds (done_ c))
  | MExitLast, WEnds =>
    status ← c.(exit); if bool_decide (c.(ending) = 0) then Some (set_waiting WDone (set_drained true (emit (EvExited status) c))) else None
  | _, _ => None
  end.

Definition send_step (m : move) (c : conv) : option conv :=
  match m, c.(snd_) with
  | MSend text held closed, SIdle => Send text held closed c
  | MBegin, SReserved text => Some (begin_check text c)
  | MUser ok, SBegun text => Some (append_user text ok c)
  | MAssistant ok, SUser text => Some (append_assistant text ok c)
  | MCurrent, SAnnounced text tid => Some (make_current text tid c)
  | MStream u, SCurrent text tid => Some (stream_begin text u tid c)
  | MWrite fails, SWrite text tid st => Some (stream_write text tid st fails c)
  | MReceived, SWait tid st =>
    match c.(streams) !! st with Some s => if s.(received) then Some (set_snd (SReturning (Sent tid)) c) else None | None => None end
  | MDone, SWait tid st => if is_none c.(exit) then None else Some (set_snd (SReturning (Sent tid)) c)
  | MGiveUp err, SWait tid st => Some (set_snd (SDrop tid st err) c)
  | MDrop, SDrop tid st err => Some (dropStreamTurn tid st err c)
  | MFail now, SFail tid err => Some (failSubmit tid err now c)
  | MPublish, SEnding tid => Some (set_snd SEnded (publish tid c))
  | MEnded, SEnded => Some (set_snd (SReturning SendFails) (done_ c))
  | MRelease, SReturning _ => Some (set_snd SIdle (set_writeReserved false c))
  | _, _ => None
  end.

Definition int_step (m : move) (c : conv) : option conv :=
  match m with
  | MInterrupt m => match c.(ints) !! m with None => Some (streamInterrupt m c) | Some _ => None end
  | MControl m fails =>
    match c.(ints) !! m with
    | Some (IControl o) =>
      Some (if c.(stdinClosed) || fails then set_int m (IWait o) (finish o IFails c)
            else set_int m (IAsked o) (streamWrite false (Control m) (set_control ({[m]} ∪ c.(control)) c.(got) c)))
    | _ => None
    end
  | MControlled m =>
    match c.(ints) !! m with
    | Some (IAsked o) => ok ← c.(got) !! m; Some (set_int m (IWait o) (if (ok : bool) then c else finish o IFails c))
    | _ => None
    end
  | MControlEnds m =>
    match c.(ints) !! m with
    | Some (IAsked o) => Some (set_int m (IWait o) (finish o IFails (set_control (c.(control) ∖ {[m]}) c.(got) c)))
    | _ => None
    end
  | MAnswered m =>
    match c.(ints) !! m with
    | Some (IWait o) => x ← c.(ops) !! o; r ← x.(o_result); Some (set_int m (IReturned (Some o) r) c)
    | _ => None
    end
  | MIntGiveUp m => match c.(ints) !! m with Some (IWait o) => Some (set_int m (IReturned (Some o) IFails) c) | _ => None end
  | _ => None
  end.

Definition answer_step (m : move) (c : conv) : option conv :=
  match m with
  | MAnswer n id o several => match c.(answers) !! n with None => Some (streamAnswer n id o several c) | Some _ => None end
  | MAnswerWrite n fails => match c.(answers) !! n with Some (NWrite k o) => Some (answer_write n k o fails c) | _ => None end
  | MAnswerClear n => match c.(answers) !! n with Some (NClear k) => Some (answer_clear n k c) | _ => None end
  | MAnswerEmit n => match c.(answers) !! n with Some (NEmit id) => Some (set_answer n (NReturned true) (emit (EvResolved id) c)) | _ => None end
  | _ => None
  end.

Definition step (m : move) (c : conv) : option conv :=
  match m with
  | MRead f now => if is_nil c.(rd) && match c.(waiting) with WProcess | WRead => true | _ => false end
                   then Some (set_rd (onStreamFrame f now) c) else None
  | MPerform fails now => match c.(rd) with a :: rest => Some (perform fails now a rest c) | [] => None end
  | MStop => Some (set_stdinClosed true c)
  | MAbandon => Some (set_drained true c)
  | MExit | MReadEnd | MStdin | MClear | MSettle | MResolve | MExitSet _ | MSends _ | MExitPublish | MExitEnded | MExitLast => wait_step m c
  | MSend _ _ _ | MBegin | MUser _ | MAssistant _ | MCurrent | MStream _ | MWrite _ | MReceived | MDone | MGiveUp _ | MDrop | MFail _ | MPublish
  | MEnded | MRelease => send_step m c
  | MInterrupt _ | MControl _ _ | MControlled _ | MControlEnds _ | MAnswered _ | MIntGiveUp _ => int_step m c
  | MAnswer _ _ _ _ | MAnswerWrite _ _ | MAnswerClear _ | MAnswerEmit _ => answer_step m c
  end.

Fixpoint run (ms : list move) (c : conv) : option conv := match ms with [] => Some c | m :: ms => step m c ≫= run ms end.

Inductive reaches : conv -> Prop :=
| reaches_opened : reaches opened
| reaches_step c m c' : reaches c -> step m c = Some c' -> reaches c'.
End ChatStream.
