(* ===== verification/ChatStreamTurns.v ===== *)
(** The turns of a streamed conversation: who ends each, what is queued of it,
    and the invariant of them that every move keeps. *)
From Stdlib Require Import ZArith Ascii String Lia.
From stdpp Require Import base tactics list strings option gmap.
From S2P Require Import Prelude GoStr Verdict ChatStream.

#[local] Open Scope string_scope.
#[local] Open Scope list_scope.
#[local] Open Scope nat_scope.

(** ** Events *)

Definition event_tid (e : event) : option nat := match e with EvPending tid | EvTerminal tid _ => Some tid | _ => None end.
Definition events_of (tid : nat) (l : list event) : list event := List.filter (fun e => bool_decide (event_tid e = Some tid)) l.
Definition no_exit (l : list event) : Prop := forall s, EvExited s ∉ l.

Definition terminal (t : Turn) : Prop := t.(State) = TurnStateComplete \/ t.(State) = TurnStateErrored \/ t.(State) = TurnStateInterrupted.

(** A turn's events; and those of a turn that is over, or never was. *)
Definition well (tid : nat) (l : list event) : Prop := l = [] \/ l = [EvPending tid] \/ exists t, l = [EvPending tid; EvTerminal tid t] /\ terminal t.
Definition settled (tid : nat) (l : list event) : Prop := l = [] \/ exists t, l = [EvPending tid; EvTerminal tid t] /\ terminal t.

Lemma events_app tid l l' : events_of tid (l ++ l') = events_of tid l ++ events_of tid l'.
Proof. apply List.filter_app. Qed.
Lemma events_none tid e : event_tid e <> Some tid -> events_of tid [e] = [].
Proof. intros H. unfold events_of. cbn. by rewrite bool_decide_eq_false_2. Qed.
Lemma events_own tid e : event_tid e = Some tid -> events_of tid [e] = [e].
Proof. intros H. unfold events_of. cbn. by rewrite bool_decide_eq_true_2. Qed.
Lemma no_exit_app l e : no_exit l -> (forall s, e <> EvExited s) -> no_exit (l ++ [e]).
Proof. intros H He s [?|?%list_elem_of_singleton]%elem_of_app; [by eapply H|by eapply He]. Qed.

(** ** Who ends a turn *)

Definition todo_claim (a : todo) : option nat := match a with APublish tid => Some tid | _ => None end.
Definition rd_claims (l : list todo) : list nat := omap todo_claim l.
Definition rd_dones (l : list todo) : nat := length (omap (fun a => match a with ADone => Some () | _ => None end) l).
Definition snd_claims (p : send_pc) : list nat := match p with SEnding tid => [tid] | _ => [] end.
Definition snd_dones (p : send_pc) : nat := match p with SEnding _ | SEnded => 1 | _ => 0 end.
Definition snd_sending (p : send_pc) : nat := match p with SBegun _ | SUser _ | SAnnounced _ _ => 1 | _ => 0 end.
Definition snd_announced (p : send_pc) : option nat := match p with SAnnounced _ tid => Some tid | _ => None end.
Definition wait_claims (p : wait_pc) : list nat := match p with WPublish tid => [tid] | _ => [] end.
Definition wait_dones (p : wait_pc) : nat := match p with WPublish _ | WEnded => 1 | _ => 0 end.

(** Where streamWait is past the reader, has set the exit, has ended the turn
    in flight. *)
Definition read_out (p : wait_pc) : bool := match p with WProcess | WRead => false | _ => true end.
Definition exiting (p : wait_pc) : bool := match p with WSends | WPublish _ | WEnded | WEnds | WDone => true | _ => false end.
Definition late (p : wait_pc) : bool := match p with WPublish _ | WEnded | WEnds | WDone => true | _ => false end.

Definition claims (c : conv) : list nat := rd_claims c.(rd) ++ snd_claims c.(snd_) ++ wait_claims c.(waiting).
Definition dones (c : conv) : nat := rd_dones c.(rd) + snd_dones c.(snd_) + wait_dones c.(waiting).

Definition phase_events (tid : nat) (p : option tphase) : list event :=
  match p with None => [] | Some (Told t) => [EvPending tid; EvTerminal tid t] | Some _ => [EvPending tid] end.

Record tinv (c : conv) : Prop := mkTinv {
  t_next : forall tid, is_Some (c.(turns) !! tid) -> tid < c.(next);
  t_cur : forall tid, c.(currentTurn) = Some tid <-> c.(turns) !! tid = Some Flight;
  t_rec : forall tid, c.(turns) !! tid = Some Recorded <-> snd_announced c.(snd_) = Some tid;
  t_claim : forall tid, (exists t, c.(turns) !! tid = Some (Claimed t)) <-> tid ∈ claims c;
  t_nodup : NoDup (claims c);
  t_state : forall tid t, c.(turns) !! tid = Some (Claimed t) \/ c.(turns) !! tid = Some (Told t) -> terminal t;
  t_ending : c.(ending) = dones c;
  t_sending : c.(sending) = snd_sending c.(snd_);
  t_fresh : c.(sending) <> 0 -> c.(currentTurn) = None;
  t_read : read_out c.(waiting) = true -> c.(rd) = [];
  t_exit : exiting c.(waiting) = true -> c.(exit) <> None;
  t_late : late c.(waiting) = true -> c.(currentTurn) = None /\ c.(sending) = 0;
  t_log : c.(drained) = false -> no_exit c.(log) /\ forall tid, events_of tid c.(log) = phase_events tid (c.(turns) !! tid);
  t_well : forall tid, well tid (events_of tid c.(log));
  t_final : no_exit c.(log) \/ c.(drained) = true /\ exists l s, c.(log) = l ++ [EvExited s] /\ no_exit l /\ forall tid, settled tid (events_of tid l);
  t_term : forall tid t, EvTerminal tid t ∈ c.(log) -> c.(turns) !! tid = Some (Told t) }.

Lemma opened_tinv : tinv opened.
Proof.
  split; cbn; try done; try (intros; set_solver).
  - intros tid [? [=]].
  - constructor.
  - intros _. split; [by intros s ?%elem_of_nil|done].
  - intros tid. by left.
  - left. by intros s ?%elem_of_nil.
Qed.

(** Nothing of a turn changes: only the threads move. *)
Lemma tinv_same c c' : tinv c -> c'.(turns) = c.(turns) -> c.(next) <= c'.(next) -> c'.(currentTurn) = c.(currentTurn) ->
  snd_announced c'.(snd_) = snd_announced c.(snd_) -> claims c' = claims c -> c'.(ending) = dones c' ->
  c'.(sending) = snd_sending c'.(snd_) -> (read_out c'.(waiting) = true -> c'.(rd) = []) ->
  (c'.(sending) <> 0 -> c.(currentTurn) = None) ->
  (exiting c'.(waiting) = true -> c'.(exit) <> None) -> (late c'.(waiting) = true -> c.(currentTurn) = None /\ c'.(sending) = 0) ->
  c'.(log) = c.(log) -> (c.(drained) = true -> c'.(drained) = true) -> tinv c'.
Proof.
  intros [I1 I2 I3 I4 I5 I6 I7 I8 If I9 I10 I11 I12 I13 I14 I15] Et En Ec Ea Ecl Ed Es Hr Hf Hx Hl El Hd.
  split; rewrite ?Et, ?Ec, ?Ea, ?Ecl, ?El; try done.
  - intros tid H. specialize (I1 tid H). lia.
  - intros E. apply I12. destruct (drained c); [|done]. by rewrite Hd in E.
  - destruct I14 as [?|[H1 H2]]; [by left|right]. auto.
Qed.

(** An event that is not a turn's. *)
Definition plain (e : event) : Prop := match e with EvPending _ | EvTerminal _ _ | EvExited _ => False | _ => True end.

Lemma emit_turns e c : (emit e c).(turns) = c.(turns) /\ (emit e c).(next) = c.(next) /\ (emit e c).(currentTurn) = c.(currentTurn) /\
  (emit e c).(snd_) = c.(snd_) /\ (emit e c).(rd) = c.(rd) /\ (emit e c).(waiting) = c.(waiting) /\ (emit e c).(ending) = c.(ending) /\
  (emit e c).(sending) = c.(sending) /\ (emit e c).(exit) = c.(exit) /\ (emit e c).(drained) = c.(drained).
Proof. unfold emit. destruct (drained c) eqn:E; cbn; by rewrite ?E. Qed.

Lemma emit_log e c : (emit e c).(log) = if drained c then log c else log c ++ [e].
Proof. unfold emit. by destruct (drained c). Qed.

Lemma emit_tinv e c : plain e -> tinv c -> tinv (emit e c).
Proof.
  intros He I. unfold emit. destruct (drained c) eqn:Ed; [done|]. destruct I as [I1 I2 I3 I4 I5 I6 I7 I8 If I9 I10 I11 I12 I13 I14 I15].
  assert (Hn : forall tid, event_tid e <> Some tid) by (by destruct e). assert (Hx : forall s, e <> EvExited s) by (by destruct e).
  destruct (I12 Ed) as [Hne Hev]. split; cbn [turns next currentTurn snd_ rd waiting ending sending exit drained log set_log]; try done.
  - intros _. split; [by apply no_exit_app|]. intros tid. by rewrite events_app, events_none, app_nil_r.
  - intros tid. by rewrite events_app, events_none, app_nil_r.
  - left. by apply no_exit_app.
  - intros tid t [?|E%list_elem_of_singleton]%elem_of_app; [by apply I15|]. subst e. done.
Qed.

(** ** A turn is claimed, told, and done with *)

Lemma claim_tinv t c tid c' : tinv c -> terminal t -> claim t c = Some (tid, c') ->
  c.(currentTurn) = Some tid /\ c.(turns) !! tid = Some Flight /\ late c.(waiting) = false.
Proof.
  intros I Ht H. unfold claim in H. destruct (currentTurn c) as [x|] eqn:E; [|done]. injection H as -> <-.
  split_and!; [done|by apply (t_cur _ I)|]. destruct (late (waiting c)) eqn:El; [|done]. destruct (t_late _ I El). congruence.
Qed.

(** Its claimer holds it: [c2] is [c] claimed, and its thread moved on. *)
Lemma claimed_tinv t c tid c' c2 : tinv c -> terminal t -> claim t c = Some (tid, c') ->
  c2.(turns) = c'.(turns) -> c'.(next) <= c2.(next) -> c2.(currentTurn) = None -> c2.(ending) = c'.(ending) -> c2.(sending) = c.(sending) ->
  snd_announced c2.(snd_) = snd_announced c.(snd_) -> snd_sending c2.(snd_) = snd_sending c.(snd_) ->
  claims c2 ≡ₚ tid :: claims c -> dones c2 = S (dones c) ->
  (read_out c2.(waiting) = true -> c2.(rd) = []) -> (exiting c2.(waiting) = true -> c2.(exit) <> None) ->
  (late c2.(waiting) = true -> c.(sending) = 0) -> c2.(log) = c.(log) -> (c.(drained) = true -> c2.(drained) = true) -> tinv c2.
Proof.
  intros I Ht H. destruct (claim_tinv _ _ _ _ I Ht H) as (Ec & Ef & Hl). unfold claim in H. rewrite Ec in H. injection H as <-.
  destruct I as [I1 I2 I3 I4 I5 I6 I7 I8 If I9 I10 I11 I12 I13 I14 I15].
  cbn [turns next ending set_phase set_turns set_currentTurn set_ending]. intros Et En Ecu Ee Es Ea Ess Ecl Ed Hr Hx Hla El Edr.
  assert (Hlk : forall x p, c2.(turns) !! x = Some p <-> (x = tid /\ p = Claimed t) \/ (x <> tid /\ c.(turns) !! x = Some p)).
  { intros x p. rewrite Et. destruct (decide (tid = x)) as [->|Hn]; [rewrite lookup_insert_eq|rewrite lookup_insert_ne by done]; naive_solver. }
  assert (Hnc : tid ∉ claims c) by (intros [t' Ht']%I4; congruence).
  split; rewrite ?Ecu, ?Ee, ?Es, ?Ea, ?Ess, ?El; try done.
  - intros x [p [[-> _]|[_ Hp]]%Hlk]; (eapply Nat.lt_le_trans; [|exact En]); apply I1; eauto.
  - intros x. split; [done|]. intros [[_ [=]]|[Hn Hp]]%Hlk. apply I2 in Hp. congruence.
  - intros x. rewrite <- I3, Hlk. split; [by intros [[_ [=]]|[_ ?]]|]. intros Hp. right. split; [|done]. intros ->. congruence.
  - intros x. rewrite Ecl, elem_of_cons, <- I4. split.
    + intros [t' [[-> _]|[_ Hp]]%Hlk]; [by left|right; eauto].
    + intros [->|[t' Ht']]; [exists t; apply Hlk; by left|]. exists t'. apply Hlk. right. split; [|done]. intros ->. congruence.
  - rewrite Ecl. by constructor.
  - intros x t' [[[-> [= ->]]|[_ Hp]]%Hlk|[[_ [=]]|[_ Hp]]%Hlk]; eauto.
  - by rewrite Ed, I7.
  - intros Hla2. auto.
  - intros Hd2. assert (Hd : drained c = false) by (destruct (drained c); [by rewrite Edr in Hd2|done]). destruct (I12 Hd) as [Hne Hev]. split; [done|]. intros x. rewrite Hev, Et.
    destruct (decide (tid = x)) as [<-|Hn]; [by rewrite lookup_insert_eq, Ef|by rewrite lookup_insert_ne].
  - destruct I14 as [?|[H1 H2]]; [by left|right]. auto.
  - intros x t' Hin. apply I15 in Hin. apply Hlk. right. split; [|done]. intros ->. congruence.
Qed.

(** It is told: [c2] is [c] with the event queued, and its claimer moved on. *)
Lemma told_tinv tid c c2 : tinv c -> claims c ≡ₚ tid :: claims c2 -> c2.(turns) = (publish tid c).(turns) -> c2.(next) = c.(next) ->
  c2.(currentTurn) = c.(currentTurn) -> c2.(ending) = c.(ending) -> c2.(sending) = c.(sending) -> snd_announced c2.(snd_) = snd_announced c.(snd_) ->
  snd_sending c2.(snd_) = snd_sending c.(snd_) -> dones c2 = dones c -> (read_out c2.(waiting) = true -> c2.(rd) = []) ->
  (exiting c2.(waiting) = true -> c2.(exit) <> None) -> (late c2.(waiting) = true -> late c.(waiting) = true) ->
  c2.(log) = (publish tid c).(log) -> c2.(drained) = c.(drained) -> tinv c2.
Proof.
  intros I Ecl. assert (Hin : tid ∈ claims c) by (rewrite Ecl; by left). apply (t_claim _ I) in Hin as [t Ht].
  destruct I as [I1 I2 I3 I4 I5 I6 I7 I8 If I9 I10 I11 I12 I13 I14 I15]. unfold publish. rewrite Ht.
  rewrite (proj1 (emit_turns _ _)). cbn [turns set_phase set_turns]. intros Et En Ecu Ee Es Ea Ess Ed Hr Hx Hla El Edr.
  assert (Hlk : forall x p, c2.(turns) !! x = Some p <-> (x = tid /\ p = Told t) \/ (x <> tid /\ c.(turns) !! x = Some p)).
  { intros x p. rewrite Et. destruct (decide (tid = x)) as [->|Hn]; [rewrite lookup_insert_eq|rewrite lookup_insert_ne by done]; naive_solver. }
  rewrite Ecl in I5. apply NoDup_cons in I5 as [Hnc Hnd]. assert (Hter : terminal t) by (eapply I6; by left).
  assert (El' : c2.(log) = if drained c then log c else log c ++ [EvTerminal tid t]) by (rewrite El; exact (emit_log (EvTerminal tid t) (set_phase tid (Told t) c))).
  split; rewrite ?En, ?Ecu, ?Ee, ?Es, ?Ea, ?Ess, ?Ed, ?Edr; try done.
  - intros x [p [[-> _]|[_ Hp]]%Hlk]; apply I1; eauto.
  - intros x. rewrite I2, Hlk. split; [|by intros [[_ [=]]|[_ ?]]]. intros Hp. right. split; [|done]. intros ->. congruence.
  - intros x. rewrite <- I3, Hlk. split; [by intros [[_ [=]]|[_ ?]]|]. intros Hp. right. split; [|done]. intros ->. congruence.
  - intros x. split.
    + intros [t' [[_ [=]]|[Hn Hp]]%Hlk]. assert (H : x ∈ claims c) by (apply I4; eauto). rewrite Ecl in H. apply elem_of_cons in H as [?|?]; done.
    + intros Hin. assert (H : x ∈ claims c) by (rewrite Ecl; by right). apply I4 in H as [t' Ht']. exists t'. apply Hlk. right. split; [|done]. by intros ->.
  - intros x t' [[[_ [=]]|[_ Hp]]%Hlk|[[-> [= ->]]|[_ Hp]]%Hlk]; eauto.
  - intros Hl. apply I11. auto.
  - intros Hd. rewrite El', Hd. destruct (I12 Hd) as [Hne Hev]. split; [by apply no_exit_app|]. intros x. rewrite events_app, Hev, Et.
    destruct (decide (tid = x)) as [<-|Hn]; [rewrite lookup_insert_eq, Ht, events_own by done; done|].
    rewrite lookup_insert_ne, events_none, app_nil_r; [done|cbn; congruence|done].
  - intros x. rewrite El'. destruct (drained c) eqn:Hd; [done|]. destruct (I12 eq_refl) as [Hne Hev]. rewrite events_app, Hev.
    destruct (decide (tid = x)) as [<-|Hn].
    + rewrite Ht, events_own by done. right. right. by exists t.
    + rewrite events_none, app_nil_r by (cbn; congruence). rewrite <- Hev. done.
  - rewrite El'. destruct (drained c) eqn:Hd; [done|]. left. apply no_exit_app; [by apply I12|done].
  - intros x t' Hin. apply Hlk. rewrite El' in Hin. destruct (drained c); [|apply elem_of_app in Hin as [Hin|Hin]; [|apply list_elem_of_singleton in Hin as [= -> ->]; by left]].
    all: apply I15 in Hin; right; split; [intros ->; congruence|done].
Qed.

(** A turn is announced, and becomes the one in flight. *)
Lemma announced_tinv text c : tinv c -> snd_ c = SUser text -> tinv (append_assistant text true c).
Proof.
  intros I Hs. unfold append_assistant. set (tid := next c). set (c1 := set_next (S tid) (set_phase tid Recorded c)).
  assert (Hnew : turns c !! tid = None).
  { destruct (turns c !! tid) eqn:E; [|done]. assert (H : tid < next c) by (apply (t_next _ I); by eexists). unfold tid in H. lia. }
  destruct I as [I1 I2 I3 I4 I5 I6 I7 I8 If I9 I10 I11 I12 I13 I14 I15].
  assert (El := emit_log (EvPending tid) c1). destruct (emit_turns (EvPending tid) c1) as (E1 & E2 & E3 & E4 & E5 & E6 & E7 & E8 & E9 & E10).
  assert (Hlk : forall x p, turns c1 !! x = Some p <-> (x = tid /\ p = Recorded) \/ (x <> tid /\ c.(turns) !! x = Some p)).
  { intros x p. unfold c1. cbn. destruct (decide (tid = x)) as [->|Hn]; [rewrite lookup_insert_eq|rewrite lookup_insert_ne by done]; naive_solver. }
  set (c2 := set_snd _ _). change (log (emit (EvPending tid) c1)) with (log c2) in El. change (drained c1) with (drained c) in El.
  change (log c1) with (log c) in El.
  assert (Hcl : claims c2 = claims c) by (unfold claims, c2; cbn; rewrite E5, E6; cbn; by rewrite Hs).
  assert (Hdo : dones c2 = dones c) by (unfold dones, c2; cbn; rewrite E5, E6; cbn; by rewrite Hs).
  change (turns c2 = turns c1) in E1. change (next c2 = S tid) in E2. change (currentTurn c2 = currentTurn c) in E3.
  change (rd c2 = rd c) in E5. change (waiting c2 = waiting c) in E6. change (ending c2 = ending c) in E7. change (sending c2 = sending c) in E8.
  change (exit c2 = exit c) in E9. change (drained c2 = drained c) in E10. assert (Es : snd_ c2 = SAnnounced text tid) by done.
  rewrite Hs in I3, I8. cbn in I3, I8. clearbody c2.
  split; rewrite ?Hcl, ?Hdo, ?El, ?E1, ?E2, ?E3, ?E5, ?E6, ?E7, ?E8, ?E9, ?E10, ?Es; try done.
  - intros x [p [[-> _]|[_ Hp]]%Hlk]; cbn; [lia|]. assert (x < next c) by (apply I1; eauto). unfold tid. lia.
  - intros x. rewrite Hlk, I2. split; [intros Hp; right; split; [congruence|done]|by intros [[_ [=]]|[_ ?]]].
  - intros x. rewrite Hlk, I3. cbn. split; [intros [[-> _]|[_ [=]]]; done|intros [= ->]; by left].
  - intros x. rewrite <- I4. split; intros [t' Ht']; exists t'; [apply Hlk in Ht' as [[_ [=]]|[_ ?]]; done|]. apply Hlk. right. split; [congruence|done].
  - intros x t' [[[_ [=]]|[_ ?]]%Hlk|[[_ [=]]|[_ ?]]%Hlk]; eauto.
  - intros Hd. rewrite Hd. destruct (I12 Hd) as [Hne Hev]. split; [by apply no_exit_app|]. intros x. rewrite events_app, Hev.
    destruct (decide (x = tid)) as [->|Hn].
    + rewrite Hnew, events_own by done. rewrite (proj2 (Hlk tid Recorded)) by (by left). done.
    + rewrite events_none, app_nil_r by (cbn; congruence). unfold c1. cbn. by rewrite lookup_insert_ne.
  - intros x. destruct (drained c) eqn:Hd; [done|]. destruct (I12 eq_refl) as [Hne Hev]. rewrite events_app. destruct (decide (x = tid)) as [->|Hn].
    + rewrite Hev, Hnew, events_own by done. right. by left.
    + by rewrite events_none, app_nil_r by (cbn; congruence).
  - destruct (drained c) eqn:Hd; [done|]. left. apply no_exit_app; [by apply I12|done].
  - intros x t' Hin. apply Hlk. right. destruct (drained c); [|apply elem_of_app in Hin as [Hin|Hin]; [|by apply list_elem_of_singleton in Hin]].
    all: apply I15 in Hin; split; [intros ->; congruence|done].
Qed.

Lemma current_tinv text tid c : tinv c -> snd_ c = SAnnounced text tid -> tinv (make_current text tid c).
Proof.
  intros I Hs. destruct I as [I1 I2 I3 I4 I5 I6 I7 I8 If I9 I10 I11 I12 I13 I14 I15]. rewrite Hs in I3, I8. cbn in I3, I8.
  assert (Hrec : turns c !! tid = Some Recorded) by (by apply I3). assert (Hcur : currentTurn c = None) by (apply If; lia).
  unfold make_current. set (c2 := set_snd _ _).
  assert (Hlk : forall x p, turns c2 !! x = Some p <-> (x = tid /\ p = Flight) \/ (x <> tid /\ c.(turns) !! x = Some p)).
  { intros x p. unfold c2. cbn. destruct (decide (tid = x)) as [->|Hn]; [rewrite lookup_insert_eq|rewrite lookup_insert_ne by done]; naive_solver. }
  assert (Hcl : claims c2 = claims c) by (unfold claims, c2; cbn; by rewrite Hs). assert (Hdo : dones c2 = dones c) by (unfold dones, c2; cbn; by rewrite Hs).
  assert (Hnew : sending c2 = 0) by (unfold c2; cbn; by rewrite I8).
  split; rewrite ?Hcl, ?Hdo, ?Hnew; try done; try (intros; by auto).
  - intros x [p [[-> _]|[_ Hp]]%Hlk]; apply I1; eauto.
  - intros x. rewrite Hlk. unfold c2. cbn. split; [intros [= ->]; by left|]. intros [[-> _]|[_ Hp]]; [done|]. apply I2 in Hp. congruence.
  - intros x. rewrite Hlk, I3. unfold c2. cbn. split; [intros [[_ [=]]|[Hn [= ->]]]; done|done].
  - intros x. rewrite <- I4. split; intros [t' Ht']; exists t'; [apply Hlk in Ht' as [[_ [=]]|[_ ?]]; done|]. apply Hlk. right. split; [congruence|done].
  - intros x t' [[[_ [=]]|[_ ?]]%Hlk|[[_ [=]]|[_ ?]]%Hlk]; eauto.
  - intros Hl. destruct (I11 Hl) as [_ H0]. rewrite I8 in H0. done.
  - intros Hd. destruct (I12 Hd) as [Hne Hev]. split; [done|]. intros x. change (log c2) with (log c). rewrite Hev. unfold c2. cbn.
    destruct (decide (tid = x)) as [<-|Hn]; [by rewrite lookup_insert_eq, Hrec|by rewrite lookup_insert_ne].
  - intros x t' Hin. apply I15 in Hin. apply Hlk. right. split; [|done]. intros ->. congruence.
Qed.

(** ** Every move keeps the turns *)

#[local] Ltac kept I := solve [done | exact (t_ending _ I) | exact (t_sending _ I) | exact (t_read _ I) | exact (t_fresh _ I) | exact (t_exit _ I)
  | exact (t_late _ I) | auto].

(** Nothing a turn's invariant reads changes. *)
Definition quiet (c c' : conv) : Prop :=
  c'.(turns) = c.(turns) /\ c.(next) <= c'.(next) /\ c'.(currentTurn) = c.(currentTurn) /\ c'.(snd_) = c.(snd_) /\ c'.(rd) = c.(rd) /\
  c'.(waiting) = c.(waiting) /\ c'.(ending) = c.(ending) /\ c'.(sending) = c.(sending) /\ c'.(exit) = c.(exit) /\ c'.(log) = c.(log) /\
  (c.(drained) = true -> c'.(drained) = true).

Lemma quiet_tinv c c' : quiet c c' -> tinv c -> tinv c'.
Proof.
  intros (Et & En & Ec & Es & Er & Ew & Ee & Ese & Ex & El & Ed) I.
  apply (tinv_same c); unfold claims, dones; rewrite ?Et, ?Ec, ?Es, ?Er, ?Ew, ?Ee, ?Ese, ?Ex; kept I.
Qed.

Ltac quietly := unfold quiet; cbn; split_and!; solve [done | lia].

Lemma quiet_finish o r c : quiet c (finish o r c).
Proof. quietly. Qed.
Lemma quiet_stream st f c : quiet c (upd_stream st f c).
Proof. quietly. Qed.
Lemma quiet_write fails l c : quiet c (streamWrite fails l c).
Proof. unfold streamWrite. case_match; quietly. Qed.
Lemma quiet_set_int m p c : quiet c (set_int m p c).
Proof. quietly. Qed.
Lemma quiet_set_answer n p c : quiet c (set_answer n p c).
Proof. quietly. Qed.
Lemma quiet_control x y c : quiet c (set_control x y c).
Proof. quietly. Qed.
Lemma quiet_interrupt m c : quiet c (streamInterrupt m c).
Proof. unfold streamInterrupt. repeat case_match; quietly. Qed.
Lemma quiet_answer n id o several c : quiet c (streamAnswer n id o several c).
Proof. unfold streamAnswer. repeat case_match; quietly. Qed.
Lemma quiet_answer_write n k o fails c : quiet c (answer_write n k o fails c).
Proof. unfold answer_write, streamWrite. repeat case_match; quietly. Qed.
Lemma quiet_answer_clear n k c : quiet c (answer_clear n k c).
Proof. unfold answer_clear. repeat case_match; quietly. Qed.

Lemma rd_claims_app l l' : rd_claims (l ++ l') = rd_claims l ++ rd_claims l'.
Proof. apply omap_app. Qed.
Lemma rd_dones_app l l' : rd_dones (l ++ l') = rd_dones l + rd_dones l'.
Proof. unfold rd_dones. by rewrite omap_app, length_app. Qed.

(** The reader goes on: from [a] to [l], which ends no turn. *)
Lemma reader_tinv a l rest c : tinv c -> rd c = a :: rest -> rd_claims l = rd_claims [a] -> rd_dones l = rd_dones [a] -> tinv (set_rd (l ++ rest) c).
Proof.
  intros I E Hc Hd. pose proof (t_ending _ I) as He. unfold dones in He. rewrite E in He.
  apply (tinv_same c); unfold claims, dones; cbn; rewrite ?E; try kept I.
  - unfold rd_claims in *. rewrite omap_app, Hc. cbn. by destruct (todo_claim a).
  - rewrite He. unfold rd_dones in *. rewrite omap_app, length_app, Hd. cbn. by destruct a.
  - intros Hr. apply (t_read _ I) in Hr. congruence.
Qed.

(** What the reader has to queue is no turn's event. *)
Definition rd_ok (l : list todo) : Prop := Forall (fun a => match a with AEmit e => plain e | _ => True end) l.

Lemma frame_ok f now : rd_ok (onStreamFrame f now).
Proof. unfold rd_ok. destruct f; cbn; repeat case_match; repeat constructor. Qed.

Lemma settle_ok s r : rd_ok (settle_op s r).
Proof. unfold settle_op, rd_ok. repeat case_match; repeat constructor. Qed.

Lemma receive_ok s : rd_ok (receive s).
Proof. unfold receive, rd_ok. repeat case_match; repeat constructor. Qed.

Lemma settle_claims s r : rd_claims (settle_op s r) = [] /\ rd_dones (settle_op s r) = 0.
Proof. unfold settle_op. by repeat case_match. Qed.

Lemma receive_claims s : rd_claims (receive s) = [] /\ rd_dones (receive s) = 0.
Proof. unfold receive. by repeat case_match. Qed.

Section Steps.
Context (resumeAtFrom : string -> option Z) (harness : string).

Notation onStreamLifecycle := (onStreamLifecycle harness).
Notation onStreamResult := (onStreamResult resumeAtFrom harness).
Notation onMissing := (onMissing harness).
Notation perform := (perform resumeAtFrom harness).
Notation step := (step resumeAtFrom harness).
Notation reaches := (reaches resumeAtFrom harness).

Lemma result_terminal s reason is_error result status now : terminal (result_turn resumeAtFrom harness s reason is_error result status now).2.
Proof. unfold result_turn, terminal. repeat case_match; cbn; auto. Qed.

(** A section of the reader: what it leaves, if it claims nothing; if it claims [tid]. *)
Definition calm (r : conv * list todo) (c : conv) : Prop := quiet c r.1 /\ rd_claims r.2 = [] /\ rd_dones r.2 = 0.
Definition claiming (r : conv * list todo) (c : conv) : Prop :=
  exists t tid c', terminal t /\ claim t c = Some (tid, c') /\ quiet c' r.1 /\ rd_claims r.2 = [tid] /\ rd_dones r.2 = 1.

Lemma section_tinv r a rest c : tinv c -> rd c = a :: rest -> rd_claims [a] = [] -> rd_dones [a] = 0 -> calm r c \/ claiming r c -> tinv (section r rest).
Proof.
  intros I E Ha Hb [(Hq & Hc & Hd)|(t & tid & c' & Ht & Hcl & (Et & En & Ec & Es & Er & Ew & Ee & Ese & Ex & El & Ed) & Hc & Hd)]; unfold section.
  - destruct Hq as (Et & En & Ec & Es & Er & Ew & Ee & Ese & Ex & El & Ed).
    apply (quiet_tinv (set_rd (r.2 ++ rest) c)); [unfold quiet; cbn; by split_and!|]. apply (reader_tinv a); [done|done|congruence|congruence].
  - destruct (claim_tinv _ _ _ _ I Ht Hcl) as (Hcur & _ & Hl). pose proof Hcl as H. unfold claim in H. rewrite Hcur in H. injection H as <-.
    cbn in Et, En, Ec, Es, Er, Ew, Ee, Ese, Ex, El, Ed.
    assert (Hr : read_out (waiting c) = false) by (destruct (read_out (waiting c)) eqn:Hr; [apply (t_read _ I) in Hr; congruence|done]).
    assert (Hx : exiting (waiting c) = false) by (by destruct (waiting c)).
    eapply (claimed_tinv t c tid _ _ I Ht Hcl); cbn; rewrite ?Et, ?Ec, ?Es, ?Er, ?Ew, ?Ee, ?Ese, ?Ex, ?El; cbn; try done; unfold claims, dones; cbn.
    all: rewrite ?E, ?Ew, ?Es, ?Hr, ?Hx, ?Hl; try done.
    + fold (rd_claims (r.2 ++ rest)). change (a :: rest) with ([a] ++ rest). by rewrite !rd_claims_app, Hc, Ha.
    + fold (rd_dones (r.2 ++ rest)). change (a :: rest) with ([a] ++ rest). by rewrite !rd_dones_app, Hd, Hb.
Qed.

Lemma calm_same c c' l : quiet c c' -> rd_claims l = [] -> rd_dones l = 0 -> calm (c', l) c.
Proof. by intros; split. Qed.

Lemma lifecycle_section u state now c : let r := onStreamLifecycle u state now c in calm r c \/ claiming r c.
Proof.
  unfold ChatStream.onStreamLifecycle. destruct (stream_of c) as [[st s]|]; cbn; [|left; apply calm_same; [quietly|done..]].
  destruct (negb _); [left; apply calm_same; [quietly|done..]|]. destruct ((state =s? "queued") || (state =s? "started")); [left; apply calm_same; [quietly|done..]|].
  destruct (state =s? "completed"); [left; apply calm_same; [quietly|done..]|].
  destruct (claim _ c) as [[tid c']|] eqn:E; [right|left; apply calm_same; [quietly|done..]].
  destruct (settle_claims (Some (st, s)) (IRes (if state =s? "cancelled" then InterruptCancelled else InterruptTooLate))) as [Hc Hd].
  do 3 eexists. split_and!; [|exact E|quietly|..]; [unfold terminal; case_match; cbn; auto|cbn [snd]..].
  - by rewrite <- Hc.
  - by rewrite <- Hd.
Qed.

Lemma result_section reason is_error result status now c : let r := onStreamResult reason is_error result status now c in calm r c \/ claiming r c.
Proof.
  unfold ChatStream.onStreamResult. pose proof (result_terminal (snd <$> stream_of c) reason is_error result status now) as Ht.
  destruct (result_turn _ _ _ _ _ _ _ _) as [outcome t]. cbn in Ht. cbn. destruct (claim t c) as [[tid c']|] eqn:E; [|left; apply calm_same; [quietly|done..]].
  right. destruct (settle_claims (stream_of c) (IRes outcome)) as [Hc Hd], (receive_claims (stream_of c)) as [Hc' Hd'].
  exists t, tid, c'. split_and!; [done|done|quietly|..]; cbn [snd]; match goal with | |- context [APublish tid :: ADone :: ?l] => change (APublish tid :: ADone :: l) with ([APublish tid; ADone] ++ l) end.
  - by rewrite !rd_claims_app, Hc', Hc.
  - by rewrite !rd_dones_app, Hd', Hd.
Qed.

Lemma missing_section missing version now c : let r := onMissing missing version now c in calm r c \/ claiming r c.
Proof.
  unfold ChatStream.onMissing. destruct (settle_claims (stream_of c) IFails) as [Hc Hd], (receive_claims (stream_of c)) as [Hc' Hd'].
  destruct (claim _ c) as [[tid c']|] eqn:E; cbn; [right|left; apply calm_same; [quietly|..]].
  - do 3 eexists. split_and!; [|exact E|quietly|..]; [unfold terminal; cbn; auto|cbn [snd]..].
    + by rewrite !rd_claims_app, Hc', Hc.
    + by rewrite !rd_dones_app, Hd', Hd.
  - by rewrite !rd_claims_app, Hc', Hc.
  - by rewrite !rd_dones_app, Hd', Hd.
Qed.

(** *** The reader *)

(** An event is in no turn, so it is queued at any of the reader's lines. *)
Lemma rest_tinv a rest c c' : tinv c -> rd c = a :: rest -> todo_claim a = None -> a <> ADone -> quiet c c' -> tinv (set_rd rest c').
Proof.
  intros I E Ha Hb (Et & En & Ec & Es & Er & Ew & Ee & Ese & Ex & El & Ed). apply (quiet_tinv (set_rd rest c)); [unfold quiet; cbn; by split_and!|].
  apply (reader_tinv a [] rest); [done|done|cbn; by rewrite Ha|by destruct a].
Qed.

Lemma publish_same tid c : let c' := publish tid c in c'.(next) = c.(next) /\ c'.(currentTurn) = c.(currentTurn) /\ c'.(snd_) = c.(snd_) /\
  c'.(rd) = c.(rd) /\ c'.(waiting) = c.(waiting) /\ c'.(ending) = c.(ending) /\ c'.(sending) = c.(sending) /\ c'.(exit) = c.(exit) /\
  c'.(drained) = c.(drained).
Proof. cbv zeta. unfold publish, emit. by repeat case_match. Qed.

Lemma publish_tinv tid rest c : tinv c -> rd c = APublish tid :: rest -> tinv (set_rd rest (publish tid c)).
Proof.
  intros I E. destruct (publish_same tid c) as (E2 & E3 & E4 & E5 & E6 & E7 & E8 & E9 & E10).
  assert (Hr : read_out (waiting c) = false) by (destruct (read_out (waiting c)) eqn:Hr; [apply (t_read _ I) in Hr; congruence|done]).
  apply (told_tinv tid c); try done; unfold claims, dones; cbn; rewrite ?E2, ?E3, ?E4, ?E5, ?E6, ?E7, ?E8, ?E9, ?E10, ?E, ?Hr; try kept I.
Qed.

Lemma perform_tinv fails now a rest c : tinv c -> rd_ok (rd c) -> rd c = a :: rest -> tinv (perform fails now a rest c).
Proof.
  intros I Hok E. assert (Hs : forall r, rd_claims [a] = [] -> rd_dones [a] = 0 -> calm r c \/ claiming r c -> tinv (section r rest)) by (intros; by eapply section_tinv).
  destruct a; cbn [perform].
  - by apply Hs, lifecycle_section.
  - apply Hs; [done..|]. left. unfold onStreamInit. split; [case_match; quietly|]. cbn [snd]. destruct (capsChecked c); [done|]. by destruct (lacks capabilities).
  - by apply Hs, missing_section.
  - eapply rest_tinv; [done|done|done|done|quietly].
  - eapply rest_tinv; [done|done|done|done|]. case_match; quietly.
  - eapply rest_tinv; [done|done|done|done|]. case_match; quietly.
  - by apply Hs, result_section.
  - eapply rest_tinv; [done|done|done|done|]. case_match; quietly.
  - eapply rest_tinv; [done|done|done|done|quietly].
  - eapply rest_tinv; [done|done|done|done|apply quiet_write].
  - eapply rest_tinv; [done|done|done|done|apply quiet_stream].
  - eapply rest_tinv; [done|done|done|done|apply quiet_finish].
  - by apply publish_tinv.
  - pose proof (t_ending _ I) as He. unfold dones in He. rewrite E in He. cbn in He. apply (tinv_same c); unfold claims, dones; cbn; rewrite ?E; try kept I.
    + by rewrite He.
    + intros Hr. apply (t_read _ I) in Hr. congruence.
  - rewrite E in Hok. apply Forall_cons in Hok as [He _]. pose proof (emit_turns e c) as (E1 & E2 & E3 & E4 & E5 & E6 & E7 & E8 & E9 & E10).
    eapply rest_tinv; [apply emit_tinv; [exact He|exact I]|by rewrite E5|done|done|quietly].
  - eapply rest_tinv; [done|done|done|done|quietly].
Qed.

(** *** The other threads *)

Lemma exit_claim_tinv status now c : tinv c -> waiting c = WSends -> sending c = 0 -> tinv (exit_claim harness status now c).
Proof.
  intros I Hw Hs. unfold exit_claim. set (t := ended _ _ _). assert (Ht : terminal t) by (unfold terminal; cbn; auto).
  pose proof (t_exit _ I) as Hx. pose proof (t_read _ I) as Hr. rewrite Hw in Hx, Hr.
  destruct (claim t c) as [[tid c']|] eqn:E.
  - destruct (claim_tinv _ _ _ _ I Ht E) as (Hc & _ & _). pose proof E as E'. unfold claim in E'. rewrite Hc in E'. injection E' as <-.
    apply (claimed_tinv t c tid _ _ I Ht E); try done; unfold claims, dones; cbn; rewrite ?Hw; cbn; try kept I.
    by rewrite !app_nil_r, (assoc app), Permutation_app_comm.
  - assert (Hc : currentTurn c = None) by (unfold claim in E; by destruct (currentTurn c)).
    apply (tinv_same c); try done; unfold claims, dones; cbn; rewrite ?Hw; cbn; try kept I.
    pose proof (t_ending _ I) as He. unfold dones in He. by rewrite Hw in He.
Qed.

(** The last event: nothing is in flight, and nobody has a turn to end. *)
Lemma last_tinv status c : tinv c -> waiting c = WEnds -> ending c = 0 -> exit c <> None -> tinv (set_waiting WDone (set_drained true (emit (EvExited status) c))).
Proof.
  intros I Hw He Hx. pose proof (t_late _ I) as Hl. pose proof (t_read _ I) as Hr. rewrite Hw in Hl, Hr. destruct (Hl eq_refl) as [Hc Hs].
  specialize (Hr eq_refl). destruct I as [I1 I2 I3 I4 I5 I6 I7 I8 If I9 I10 I11 I12 I13 I14 I15].
  pose proof I7 as Hd. unfold dones in Hd. rewrite He, Hr, Hw in Hd. cbn in Hd.
  assert (Hcl : claims c = []) by (unfold claims; rewrite Hr, Hw; cbn; rewrite app_nil_r; by destruct (snd_ c)).
  assert (Hset : drained c = false -> forall tid, settled tid (events_of tid (log c))).
  { intros Hdr tid. rewrite (proj2 (I12 Hdr) tid). destruct (turns c !! tid) as [[| |t|t]|] eqn:E; [| | | |by left].
    - apply I3 in E. rewrite I8 in Hs. by destruct (snd_ c).
    - apply I2 in E. congruence.
    - exfalso. assert (H : tid ∈ claims c) by (apply I4; eauto). rewrite Hcl in H. by apply elem_of_nil in H.
    - right. exists t. split; [done|]. eapply I6. by right. }
  set (c2 := set_waiting _ _).
  assert (El : log c2 = if drained c then log c else log c ++ [EvExited status]) by (unfold c2; cbn; apply emit_log).
  destruct (emit_turns (EvExited status) c) as (E1 & E2 & E3 & E4 & E5 & E6 & E7 & E8 & E9 & E10).
  assert (Ew : waiting c2 = WDone) by done. change (turns c2 = turns c) in E1. change (next c2 = next c) in E2. change (currentTurn c2 = currentTurn c) in E3.
  change (snd_ c2 = snd_ c) in E4. change (rd c2 = rd c) in E5. change (ending c2 = ending c) in E7. change (sending c2 = sending c) in E8.
  change (exit c2 = exit c) in E9. assert (E11 : drained c2 = true) by done. clearbody c2.
  assert (Hcl2 : claims c2 = claims c) by (unfold claims; by rewrite E4, E5, Ew, Hw).
  assert (Hdo2 : dones c2 = dones c) by (unfold dones; by rewrite E4, E5, Ew, Hw).
  split; rewrite ?Hcl2, ?Hdo2, ?E1, ?E2, ?E3, ?E4, ?E5, ?E7, ?E8, ?E9, ?E11, ?El; try done.
  - intros tid. destruct (drained c); [done|]. by rewrite events_app, events_none, app_nil_r.
  - destruct (drained c) eqn:Hdr; [done|]. right. split; [done|]. exists (log c), status. split_and!; [done|by apply I12|by apply Hset].
  - intros tid t Hin. apply I15. destruct (drained c); [done|]. apply elem_of_app in Hin as [?|Hin]; [done|by apply list_elem_of_singleton in Hin].
Qed.

Lemma exiting_late p : late p = true -> exiting p = true.
Proof. by destruct p. Qed.

(** A thread moves, and no turn does. *)
#[local] Ltac moved c I Hw :=
  apply (tinv_same c); try done; unfold claims, dones; cbn; rewrite ?Hw; cbn; try kept I;
  try (pose proof (t_ending _ I) as He; unfold dones, rd_dones in He; rewrite Hw in He; cbn in He; lia);
  try (pose proof (t_sending _ I) as He; rewrite Hw in He; cbn in He; rewrite He; cbn; done);
  try (pose proof (t_read _ I) as He; rewrite Hw in He; cbn in He; auto; fail);
  try (pose proof (t_exit _ I) as He; rewrite Hw in He; cbn in He; auto; fail);
  try (pose proof (t_late _ I) as He; rewrite Hw in He; cbn in He; auto; fail);
  try (pose proof (t_fresh _ I) as He; auto; fail).

Lemma wait_tinv m c c' : tinv c -> wait_step harness m c = Some c' -> tinv c'.
Proof.
  intros I H. destruct m, (waiting c) as [| | | |o i|i| | |tid| | |] eqn:Hw; try discriminate; cbn [wait_step] in H; rewrite Hw in H; try discriminate.
  - simplify_eq. moved c I Hw.
  - destruct (rd c) eqn:Hr; [|discriminate]. injection H as <-. moved c I Hw.
  - simplify_eq. moved c I Hw.
  - simplify_eq. moved c I Hw.
  - injection H as <-. destruct o as [o|]; [|moved c I Hw]. moved c I Hw.
  - injection H as <-. destruct i as [id|]; [|moved c I Hw].
    pose proof (emit_turns (EvResolved id) c) as (E1 & E2 & E3 & E4 & E5 & E6 & E7 & E8 & E9 & E10).
    assert (I' : tinv (emit (EvResolved id) c)) by (by apply emit_tinv). rewrite <- E6 in Hw. moved (emit (EvResolved id) c) I' Hw.
  - simplify_eq. moved c I Hw.
  - destruct (exit c) as [status|] eqn:E; [|discriminate]. cbn in H. case_bool_decide; [|discriminate]. injection H as <-. by apply exit_claim_tinv.
  - injection H as <-. destruct (publish_same tid c) as (E2 & E3 & E4 & E5 & E6 & E7 & E8 & E9 & E10).
    pose proof (t_read _ I) as Hr. pose proof (t_exit _ I) as Hx. rewrite Hw in Hr, Hx.
    apply (told_tinv tid c); try done; unfold claims, dones; cbn; rewrite ?E2, ?E3, ?E4, ?E5, ?E6, ?E7, ?E8, ?E9, ?E10, ?Hw; try kept I; try auto.
    rewrite (assoc app). by rewrite Permutation_app_comm, app_nil_r.
  - simplify_eq. moved c I Hw.
  - destruct (exit c) as [status|] eqn:E; [|discriminate]. cbn in H. case_bool_decide; [|discriminate]. injection H as <-. apply last_tinv; [done..|by rewrite E].
Qed.

Lemma late_sending c : tinv c -> sending c <> 0 -> late (waiting c) = false.
Proof. intros I H. destruct (late (waiting c)) eqn:E; [|done]. by destruct (t_late _ I E). Qed.

Lemma fail_tinv tid err now c : tinv c -> snd_ c = SFail tid err -> tinv (failSubmit tid err now c).
Proof.
  intros I Hs. unfold failSubmit. set (t := ended _ _ _). assert (Ht : terminal t) by (unfold terminal; cbn; auto).
  assert (Hno : tinv (set_snd (SReturning SendFails) c)) by (moved c I Hs).
  case_bool_decide as Hc; [|exact Hno]. destruct (claim t c) as [[x c']|] eqn:E; [|exact Hno]. clear Hno.
  destruct (claim_tinv _ _ _ _ I Ht E) as (Hc' & _ & Hl). pose proof E as E'. unfold claim in E'. rewrite Hc' in E'. injection E' as <-.
  assert (x = tid) as -> by congruence. pose proof (t_sending _ I) as Hse. rewrite Hs in Hse.
  apply (claimed_tinv t c tid _ _ I Ht E); try done; unfold claims, dones; cbn; rewrite ?Hs; cbn; try kept I; try lia.
  - by rewrite <- Permutation_middle.
  - unfold rd_dones. lia.
Qed.

Lemma send_tinv m c c' : tinv c -> send_step m c = Some c' -> tinv c'.
Proof.
  intros I H. destruct m, (snd_ c) as [|tx|tx|tx|tx td|tx td|tx td st|td st|td st er|td er|td| |r] eqn:Hs; try discriminate; cbn [send_step] in H; rewrite ?Hs in H; try discriminate.
  - unfold Send in H. case_match; [discriminate|]. injection H as <-. moved c I Hs.
  - injection H as <-. unfold begin_check. destruct (is_none (currentTurn c)) eqn:Hc, (is_none (exit c)) eqn:Hx; cbn; try (moved c I Hs; fail).
    destruct (currentTurn c) eqn:Hcu; [discriminate|]. moved c I Hs. intros Hl. apply exiting_late in Hl. apply (t_exit _ I) in Hl.
    by destruct (exit c).
  - injection H as <-. pose proof (t_sending _ I) as Hn. rewrite Hs in Hn. cbn in Hn. destruct ok; cbn; [|moved c I Hs; intros Hl; destruct (t_late _ I Hl); congruence].
    pose proof (emit_turns (EvUser tx) c) as (E1 & E2 & E3 & E4 & E5 & E6 & E7 & E8 & E9 & E10).
    assert (I' : tinv (emit (EvUser tx) c)) by (by apply emit_tinv). rewrite <- E4 in Hs. moved (emit (EvUser tx) c) I' Hs.
  - injection H as <-. destruct ok; [by apply announced_tinv|]. pose proof (t_sending _ I) as Hn. rewrite Hs in Hn. cbn in Hn. cbn. moved c I Hs. intros Hl. destruct (t_late _ I Hl). congruence.
  - injection H as <-. by apply current_tinv.
  - injection H as <-. unfold stream_begin. case_bool_decide; moved c I Hs.
  - injection H as <-. unfold stream_write, streamWrite. repeat case_match; try done; moved c I Hs.
  - repeat case_match; try discriminate. injection H as <-. moved c I Hs.
  - case_match; try discriminate. injection H as <-. moved c I Hs.
  - injection H as <-. moved c I Hs.
  - injection H as <-. unfold dropStreamTurn. case_bool_decide; moved c I Hs.
  - injection H as <-. by apply fail_tinv.
  - injection H as <-. destruct (publish_same td c) as (E2 & E3 & E4 & E5 & E6 & E7 & E8 & E9 & E10).
    apply (told_tinv td c); try done; unfold claims, dones; cbn; rewrite ?E2, ?E3, ?E4, ?E5, ?E6, ?E7, ?E8, ?E9, ?E10, ?Hs; try kept I; try auto.
    cbn. by rewrite <- Permutation_middle.
  - injection H as <-. moved c I Hs.
  - injection H as <-. moved c I Hs.
Qed.

Lemma int_tinv m c c' : tinv c -> int_step m c = Some c' -> tinv c'.
Proof.
  intros I H. assert (Hq : quiet c c'); [|by eapply quiet_tinv]. destruct m; try discriminate; cbn in H.
  - case_match; [discriminate|]. injection H as <-. apply quiet_interrupt.
  - repeat case_match; try discriminate; injection H as <-; [quietly|]. unfold streamWrite. case_match; quietly.
  - repeat case_match; try discriminate. destruct (got c !! m) as [[]|]; try discriminate; cbn in H; injection H as <-; quietly.
  - repeat case_match; try discriminate. injection H as <-. quietly.
  - repeat case_match; try discriminate. destruct (ops c !! o) as [x|]; [|discriminate]. cbn in H. destruct (o_result x); [|discriminate]. cbn in H. injection H as <-. quietly.
  - repeat case_match; try discriminate. injection H as <-. quietly.
Qed.

Lemma answer_tinv m c c' : tinv c -> answer_step m c = Some c' -> tinv c'.
Proof.
  intros I H. destruct m; try discriminate; cbn in H; repeat case_match; try discriminate; injection H as <-.
  - eapply quiet_tinv; [apply quiet_answer|done].
  - eapply quiet_tinv; [apply quiet_answer_write|done].
  - eapply quiet_tinv; [apply quiet_answer_clear|done].
  - eapply quiet_tinv; [apply quiet_set_answer|]. by apply emit_tinv.
Qed.

(** *** All of them *)

Lemma frame_section_ok f (r : conv * list todo) a rest : rd_ok (a :: rest) -> rd_ok r.2 -> rd (section r rest) = f -> rd_ok f.
Proof. intros H Hr <-. apply Forall_cons in H as [_ H]. unfold section. cbn. apply Forall_app. by split. Qed.

Lemma frame_perform_ok fails now a rest c : rd_ok (a :: rest) -> rd_ok (rd (perform fails now a rest c)).
Proof.
  intros H. pose proof H as H'. apply Forall_cons in H' as [_ Ht]. destruct a; cbn [ChatStream.perform]; try exact Ht; (eapply frame_section_ok; [exact H| |reflexivity]).
  - unfold ChatStream.onStreamLifecycle. repeat case_match; unfold rd_ok, settle_op; repeat case_match; repeat constructor.
  - unfold onStreamInit. cbn [snd]. repeat case_match; repeat constructor.
  - unfold ChatStream.onMissing, rd_ok, settle_op, receive. destruct (claim _ c) as [[tid c']|]; repeat case_match; cbn; repeat constructor.
  - unfold ChatStream.onStreamResult, rd_ok, settle_op, receive. destruct (result_turn _ _ _ _ _ _ _ _) as [outcome t].
    destruct (claim _ c) as [[tid c']|]; repeat case_match; cbn; repeat constructor.
Qed.

Lemma others_rd m c c' : wait_step harness m c = Some c' \/ send_step m c = Some c' \/ int_step m c = Some c' \/ answer_step m c = Some c' -> rd c' = rd c.
Proof.
  intros [H|[H|[H|H]]]; destruct m; try discriminate; cbn in H; unfold mbind, option_bind in H; repeat case_match; simplify_eq; try done; cbn;
    unfold exit_claim, publish, emit, claim, Send, begin_check, append_user, append_assistant, stream_begin, stream_write, streamWrite, dropStreamTurn,
      failSubmit, claim, streamInterrupt, streamAnswer, answer_write, answer_clear, streamWrite in *; repeat case_match; simplify_eq; try done; unfold emit; cbn; by case_match.
Qed.

Lemma frame_step_ok m c c' : rd_ok (rd c) -> step m c = Some c' -> rd_ok (rd c').
Proof.
  intros H Hs. destruct m; cbn [ChatStream.step] in Hs.
  1: { case_match; [|discriminate]. injection Hs as <-. cbn. apply frame_ok. }
  1: { destruct (rd c) as [|a rest] eqn:E; [discriminate|]. injection Hs as <-. by apply frame_perform_ok. }
  all: try (injection Hs as <-; exact H).
  all: rewrite (others_rd _ _ _ ltac:(eauto)); exact H.
Qed.

Lemma frame_claims f now : rd_claims (onStreamFrame f now) = [] /\ rd_dones (onStreamFrame f now) = 0.
Proof. destruct f; cbn; repeat case_match; done. Qed.

Lemma step_tinv m c c' : tinv c -> rd_ok (rd c) -> step m c = Some c' -> tinv c'.
Proof.
  intros I Hok Hs. destruct m; cbn [ChatStream.step] in Hs; try (eapply wait_tinv; done); try (eapply send_tinv; done); try (eapply int_tinv; done);
    try (eapply answer_tinv; done).
  - destruct (is_nil (rd c)) eqn:Hn; [|discriminate]. assert (Hr : rd c = []) by (by destruct (rd c)). cbn in Hs.
    assert (Hw : read_out (waiting c) = false) by (by destruct (waiting c)). case_match; [|discriminate]. injection Hs as <-.
    destruct (frame_claims f now) as [Hc Hd]. pose proof (t_ending _ I) as He. unfold dones in He. rewrite Hr in He.
    apply (tinv_same c); try done; unfold claims, dones; cbn [rd snd_ waiting set_rd]; rewrite ?Hc, ?Hd, ?Hr; try kept I. by rewrite Hw.
  - destruct (rd c) as [|a rest] eqn:E; [discriminate|]. injection Hs as <-. apply perform_tinv; [done|by rewrite E|done].
  - injection Hs as <-. eapply quiet_tinv; [quietly|done].
  - injection Hs as <-. eapply quiet_tinv; [quietly|done].
Qed.

Theorem reaches_tinv c : reaches c -> tinv c.
Proof.
  intros H. enough (tinv c /\ rd_ok (rd c)) by tauto. induction H as [|c m c' _ [I Hok] Hs]; [split; [apply opened_tinv|by apply Forall_nil]|].
  split; [by eapply step_tinv|by eapply frame_step_ok].
Qed.
End Steps.
