(* ===== verification/ChatStreamOps.v ===== *)
(** The Interrupts of a streamed conversation: what an interrupt op promises of
    its turn, and the invariant of them that every move keeps. *)
From Stdlib Require Import ZArith Ascii String Lia.
From stdpp Require Import base tactics list strings option gmap.
From S2P Require Import Prelude GoStr Verdict ChatStream ChatStreamTurns.

#[local] Open Scope string_scope.
#[local] Open Scope list_scope.
#[local] Open Scope nat_scope.

Section Ops.
Context (resumeAtFrom : string -> option Z) (harness : string).

Notation onStreamLifecycle := (onStreamLifecycle harness).
Notation onStreamResult := (onStreamResult resumeAtFrom harness).
Notation onMissing := (onMissing harness).
Notation perform := (perform resumeAtFrom harness).
Notation step := (step resumeAtFrom harness).
Notation reaches := (reaches resumeAtFrom harness).

(** What an Interrupt's answer says of the turn it was made for. *)
Definition agrees (r : InterruptResult) (t : Turn) : Prop :=
  match r with
  | InterruptStopped | InterruptCancelled => t.(State) = TurnStateInterrupted /\ t.(Reason) = interruptReason harness r true
  | InterruptTooLate => t.(State) <> TurnStateInterrupted
  | InterruptNoTurn => False
  end.

(** A turn ended so. *)
Definition ended_as (ts : gmap nat tphase) (tid : nat) (P : Turn -> Prop) : Prop :=
  exists t, (ts !! tid = Some (Claimed t) \/ ts !! tid = Some (Told t)) /\ P t.

Definition true_of (c : conv) (o : nat) (r : int_result) : Prop :=
  match r with IRes r => exists x, c.(ops) !! o = Some x /\ ended_as c.(turns) x.(o_tid) (agrees r) | IFails => True end.

(** The stream turn a Send drives. *)
Definition snd_stream (s : option nat) (p : send_pc) : Prop :=
  match p with SWrite _ _ st | SWait _ st | SDrop _ st _ => s = None \/ s = Some st | SFail _ _ => s = None | _ => True end.

Record oinv (c : conv) : Prop := mkOinv {
  o_stream : forall st, c.(s_turn) = Some st -> exists s, c.(streams) !! st = Some s /\
    (c.(currentTurn) = Some s.(s_tid) \/ c.(currentTurn) = None /\ late c.(waiting) = true);
  o_snd : snd_stream c.(s_turn) c.(snd_);
  o_of : forall st s o, c.(streams) !! st = Some s -> s.(s_op) = Some o -> exists x, c.(ops) !! o = Some x /\ x.(o_tid) = s.(s_tid);
  o_fresh : forall o, is_Some (c.(ops) !! o) -> o < c.(next);
  o_done : forall o x r, c.(ops) !! o = Some x -> x.(ChatStream.o_result) = Some r -> true_of c o r;
  o_rd : forall o r, AFinish o r ∈ c.(rd) -> true_of c o r;
  o_ints : forall m o r, c.(ints) !! m = Some (IReturned (Some o) (IRes r)) -> true_of c o (IRes r);
  o_none : forall m r, c.(ints) !! m = Some (IReturned None r) -> r = IRes InterruptNoTurn }.

Definition over (c : conv) (tid : nat) (t : Turn) : Prop := c.(turns) !! tid = Some (Claimed t) \/ c.(turns) !! tid = Some (Told t).
Definition sid (s : streamTurn) : nat * option nat := (s.(s_tid), s.(s_op)).

(** A move that makes no stream turn and no op: what it keeps of them. *)
Record keeps (c c' : conv) : Prop := mkKeeps {
  k_over : forall tid t, over c tid t -> over c' tid t;
  k_turn : forall st, c'.(s_turn) = Some st -> c.(s_turn) = Some st;
  k_cur : is_Some c'.(s_turn) -> c'.(currentTurn) = c.(currentTurn) \/ c'.(currentTurn) = None /\ late c'.(waiting) = true;
  k_late : late c.(waiting) = true -> late c'.(waiting) = true;
  k_snd : snd_stream c'.(s_turn) c'.(snd_);
  k_streams : forall st, sid <$> c'.(streams) !! st = sid <$> c.(streams) !! st;
  k_ops : forall o, o_tid <$> c'.(ops) !! o = o_tid <$> c.(ops) !! o;
  k_next : c.(next) <= c'.(next);
  k_done : forall o x r, c'.(ops) !! o = Some x -> x.(ChatStream.o_result) = Some r ->
    (exists y, c.(ops) !! o = Some y /\ y.(ChatStream.o_result) = Some r) \/ true_of c o r;
  k_rd : forall o r, AFinish o r ∈ c'.(rd) -> AFinish o r ∈ c.(rd) \/ true_of c' o r;
  k_ints : forall m o r, c'.(ints) !! m = Some (IReturned (Some o) (IRes r)) -> c.(ints) !! m = Some (IReturned (Some o) (IRes r)) \/ true_of c o (IRes r);
  k_none : forall m r, c'.(ints) !! m = Some (IReturned None r) -> c.(ints) !! m = Some (IReturned None r) }.

Lemma fmap_Some_same {A B} (f : A -> B) (x y : option A) a : f <$> x = f <$> y -> y = Some a -> exists a', x = Some a' /\ f a' = f a.
Proof. intros H ->. destruct x as [a'|]; [|done]. injection H as H. eauto. Qed.

Lemma true_keeps c c' o r : (forall o, o_tid <$> c'.(ops) !! o = o_tid <$> c.(ops) !! o) -> (forall tid t, over c tid t -> over c' tid t) ->
  true_of c o r -> true_of c' o r.
Proof.
  intros Hops Hov. destruct r as [r|]; [|done]. intros (x & Hx & t & Ht & Ha). destruct (fmap_Some_same _ _ _ _ (Hops o) Hx) as (x' & Hx' & Hid). exists x'. split; [done|]. exists t. rewrite Hid. split; [by apply Hov|done].
Qed.

Lemma keeps_oinv c c' : keeps c c' -> oinv c -> oinv c'.
Proof.
  intros [K1 K2 K3 K4 K5 K6 K7 K8 K9 K10 K11 K12] [O1 O2 O3 O4 O5 O6 O7 O8].
  assert (Ht : forall o r, true_of c o r -> true_of c' o r) by (intros; by apply (true_keeps c)).
  split; [|done|..].
  - intros st Hst. destruct (O1 _ (K2 _ Hst)) as (s & Hs & Hc). destruct (fmap_Some_same _ _ _ _ (K6 st) Hs) as (s' & Hs' & [= Hid _]). exists s'. split; [done|]. rewrite Hid. destruct K3 as [E|E]; [by rewrite Hst| |by right]. rewrite E. naive_solver.
  - intros st s' o Hs Ho. destruct (fmap_Some_same _ _ _ _ (eq_sym (K6 st)) Hs) as (s & Es & [= Hid Hop]).
    destruct (O3 _ _ o Es ltac:(congruence)) as (x & Hx & Hxt). destruct (fmap_Some_same _ _ _ _ (K7 o) Hx) as (x' & Hx' & E). exists x'. split; [done|]. congruence.
  - intros o [x Hx]. destruct (fmap_Some_same _ _ _ _ (eq_sym (K7 o)) Hx) as (y & Hy & _). eapply Nat.lt_le_trans; [apply O4; by exists y|done].
  - intros o x r Hx Hr. destruct (K9 _ _ _ Hx Hr) as [(y & Hy & Hyr)|Hy]; [|by apply Ht]. apply Ht. by eapply O5.
  - intros o r Hin. destruct (K10 _ _ Hin); [|done]. apply Ht. auto.
  - intros m o r Hin. destruct (K11 _ _ _ Hin); [|by apply Ht]. apply Ht. by eapply O7.
  - intros m r Hin. eapply O8, K12, Hin.
Qed.


Lemma snd_stream_none p : snd_stream None p.
Proof. destruct p; cbn; auto. Qed.

Lemma sid_alter f st (m : gmap nat streamTurn) st' : (forall s, sid (f s) = sid s) -> sid <$> alter f st m !! st' = sid <$> m !! st'.
Proof.
  intros H. destruct (decide (st = st')) as [->|Hn]; [rewrite lookup_alter_eq|by rewrite lookup_alter_ne]. destruct (m !! st') as [s|]; [|done].
  cbn. by rewrite H.
Qed.

Lemma finish_ops o r c o' : o_tid <$> (finish o r c).(ops) !! o' = o_tid <$> c.(ops) !! o'.
Proof. unfold finish. cbn. destruct (decide (o = o')) as [->|Hn]; [rewrite lookup_alter_eq|by rewrite lookup_alter_ne]. by destruct (ops c !! o'). Qed.

(** An op's result is one it had, or the one it is given. *)
Lemma finish_result o r c o' x r' : (finish o r c).(ops) !! o' = Some x -> x.(ChatStream.o_result) = Some r' ->
  (exists y, c.(ops) !! o' = Some y /\ y.(ChatStream.o_result) = Some r') \/ o' = o /\ r' = r.
Proof.
  unfold finish. cbn. destruct (decide (o = o')) as [->|Hn]; [rewrite lookup_alter_eq|rewrite lookup_alter_ne by done; eauto].
  destruct (ops c !! o') as [y|]; [|done]. cbn. intros [= <-]. cbn. destruct (ChatStream.o_result y) eqn:E; intros [= ->]; [left; eauto|by right].
Qed.

Lemma claim_over t c tid c' : tinv c -> claim t c = Some (tid, c') -> over c' tid t /\ forall x u, over c x u -> over c' x u.
Proof.
  intros I H. unfold claim in H. destruct (currentTurn c) as [y|] eqn:E; [|done]. injection H as -> <-. apply (t_cur _ I) in E. unfold over. cbn.
  split; [left; apply lookup_insert_eq|]. intros x u Hu. destruct (decide (tid = x)) as [<-|Hn]; [naive_solver|by rewrite lookup_insert_ne].
Qed.

Lemma publish_over tid c x u : over c x u -> over (publish tid c) x u.
Proof.
  unfold publish, over. destruct (turns c !! tid) as [[| |t|]|] eqn:E; try done. rewrite (proj1 (emit_turns _ _)). cbn. intros Hu.
  destruct (decide (tid = x)) as [<-|Hn]; [rewrite lookup_insert_eq; right; naive_solver|by rewrite lookup_insert_ne].
Qed.

Lemma claim_fields t c tid c' : claim t c = Some (tid, c') -> c'.(ops) = c.(ops) /\ c'.(streams) = c.(streams) /\ c'.(next) = c.(next) /\ c'.(snd_) = c.(snd_) /\
  c'.(waiting) = c.(waiting) /\ c'.(ints) = c.(ints) /\ c'.(rd) = c.(rd) /\ c'.(s_turn) = c.(s_turn).
Proof. intros H. unfold claim in H. destruct (currentTurn c); [|done]. by injection H as -> <-. Qed.

Lemma settle_in s r o r' : AFinish o r' ∈ settle_op s r -> r' = r /\ exists st x, s = Some (st, x) /\ x.(s_op) = Some o.
Proof. unfold settle_op. repeat case_match; intros Hin; try by apply elem_of_nil in Hin. apply list_elem_of_singleton in Hin as [= -> ->]. eauto. Qed.

(** The interrupt of the turn a section claims says how it ended. *)
Lemma settle_true r t c tid c' : tinv c -> oinv c -> claim t c = Some (tid, c') ->
  (forall st s o, stream_of c = Some (st, s) -> s.(s_op) = Some o -> agrees r t) ->
  forall o r', AFinish o r' ∈ settle_op (stream_of c) (IRes r) -> true_of c' o r'.
Proof.
  intros I O Hc Ha o r' Hin. apply settle_in in Hin as [-> (st & s & Hs & Ho)]. specialize (Ha _ _ _ Hs Ho).
  assert (H : s_turn c = Some st /\ streams c !! st = Some s).
  { unfold stream_of in Hs. destruct (s_turn c) as [st'|]; [|done]. cbn in Hs. destruct (streams c !! st') as [s'|] eqn:E; [|done]. cbn in Hs. by simplify_eq. }
  destruct H as [Hst Hss]. destruct (o_stream _ O _ Hst) as (s' & Hs' & Hcur). assert (s' = s) as -> by congruence.
  destruct (o_of _ O _ _ _ Hss Ho) as (x & Hx & Hxt). destruct (claim_over _ _ _ _ I Hc) as [Hov _].
  destruct (claim_fields _ _ _ _ Hc) as (Eo & _). exists x. rewrite Eo. split; [done|]. exists t. rewrite Hxt.
  assert (s_tid s = tid) as ->; [|by split]. unfold claim in Hc. destruct Hcur as [E|[E _]]; rewrite E in Hc; [congruence|done].
Qed.

Lemma receive_no o r s : AFinish o r ∉ receive s.
Proof. unfold receive. destruct s as [[st s]|]; [|by intros ?%elem_of_nil]. by intros ?%list_elem_of_singleton. Qed.

(** A section that claims a turn and takes the stream turn. *)
Definition taken (r : conv * list todo) (c : conv) : Prop :=
  (forall tid t, over c tid t -> over r.1 tid t) /\ r.1.(s_turn) = None /\ r.1.(waiting) = c.(waiting) /\ r.1.(snd_) = c.(snd_) /\
  r.1.(streams) = c.(streams) /\ r.1.(ops) = c.(ops) /\ r.1.(next) = c.(next) /\ r.1.(ints) = c.(ints) /\
  (forall o x, AFinish o x ∈ r.2 -> true_of r.1 o x).

Lemma taken_keeps r c a rest : rd c = a :: rest -> taken r c -> keeps c (section r rest).
Proof.
  intros E (H1 & H2 & H3 & H4 & H5 & H6 & H7 & H8 & H9). unfold section. split; cbn; rewrite ?H2, ?H3, ?H4, ?H5, ?H6, ?H7, ?H8; try done; try (intros; by eauto).
  - apply snd_stream_none.
  - rewrite E. intros o x [Hin|Hin]%elem_of_app; [right; by apply H9|left; by right].
Qed.

Lemma claim_taken t c tid c' l (f : conv -> conv) : tinv c -> claim t c = Some (tid, c') ->
  (forall c, (f c).(turns) = c.(turns) /\ (f c).(s_turn) = None /\ (f c).(waiting) = c.(waiting) /\ (f c).(snd_) = c.(snd_) /\
    (f c).(streams) = c.(streams) /\ (f c).(ops) = c.(ops) /\ (f c).(next) = c.(next) /\ (f c).(ints) = c.(ints)) ->
  (forall o x, AFinish o x ∈ l -> true_of c' o x) -> taken (f c', l) c.
Proof.
  intros I H Hf Hl. destruct (claim_fields _ _ _ _ H) as (E1 & E2 & E3 & E4 & E5 & E6 & E7 & E8). destruct (Hf c') as (F1 & F2 & F3 & F4 & F5 & F6 & F7 & F8).
  destruct (claim_over _ _ _ _ I H) as [_ Hov]. unfold taken. cbn. rewrite F3, F4, F5, F6, F7, F8. split_and!; try congruence.
  - intros x u Hu. unfold over. rewrite F1. by apply Hov.
  - intros o x Hin. specialize (Hl o x Hin). destruct x as [r|]; [|done]. cbn. rewrite F6. unfold ended_as. rewrite F1. exact Hl.
Qed.

#[local] Ltac fields := intros; cbn; split_and!; reflexivity.

(** A section that claims nothing leaves the rest of the frame. *)
Lemma idle_keeps c l a rest : oinv c -> rd c = a :: rest -> (forall o r, AFinish o r ∉ l) -> keeps c (section (c, l) rest).
Proof.
  intros O E Hl. unfold section. split; cbn; try done; try (intros; by eauto); try exact (o_snd _ O).
  rewrite E. intros o r [Hin|Hin]%elem_of_app; [by apply Hl in Hin|left; by right].
Qed.

(** One that takes the stream turn, and no turn with it. *)
Lemma cleared_keeps c f l a rest : rd c = a :: rest -> (forall o r, AFinish o (IRes r) ∉ l) ->
  (forall c, (f c).(turns) = c.(turns) /\ (f c).(s_turn) = None /\ (f c).(waiting) = c.(waiting) /\ (f c).(snd_) = c.(snd_) /\
    (f c).(streams) = c.(streams) /\ (f c).(ops) = c.(ops) /\ (f c).(next) = c.(next) /\ (f c).(ints) = c.(ints)) -> keeps c (section (f c, l) rest).
Proof.
  intros E Hl Hf. destruct (Hf c) as (F1 & F2 & F3 & F4 & F5 & F6 & F7 & F8). eapply taken_keeps; [exact E|]. unfold taken. cbn. split_and!; try done.
  - unfold over. by rewrite F1.
  - intros o [r|]; [|done]. by intros ?%Hl.
Qed.

Lemma lifecycle_keeps u state now c a rest : tinv c -> oinv c -> rd c = a :: rest -> keeps c (section (onStreamLifecycle u state now c) rest).
Proof.
  intros I O E. unfold ChatStream.onStreamLifecycle. destruct (stream_of c) as [[st s]|] eqn:Es; [|eapply idle_keeps; [done..|by intros ?? ?%elem_of_nil]].
  destruct (negb _); [eapply idle_keeps; [done..|by intros ?? ?%elem_of_nil]|].
  destruct ((state =s? "queued") || (state =s? "started")); [eapply idle_keeps; [done..|by intros ?? ?%list_elem_of_singleton]|].
  destruct (state =s? "completed"); [eapply idle_keeps; [done..|by intros ?? ?%elem_of_nil]|].
  destruct (claim _ c) as [[tid c']|] eqn:Ec.
  - eapply taken_keeps; [exact E|]. eapply (claim_taken _ _ _ _ _ _ I Ec); [fields|]. intros o x Hin.
    do 3 (apply elem_of_cons in Hin as [Hin|Hin]; [discriminate|]). rewrite <- Es in Hin. eapply (settle_true _ _ _ _ _ I O Ec); [|exact Hin].
    intros st' s' o' Hs' Ho'. assert (s' = s) as -> by congruence. rewrite Ho'. by destruct (state =s? "cancelled").
  - apply (cleared_keeps c (set_s_turn None) _ a); [done| |fields]. by intros ?? ?%list_elem_of_singleton.
Qed.

Lemma result_agrees st s o c reason is_error result status now : stream_of c = Some (st, s) -> s.(s_op) = Some o ->
  let r := result_turn resumeAtFrom harness (snd <$> stream_of c) reason is_error result status now in agrees r.1 r.2.
Proof.
  intros -> Ho. cbv zeta. unfold result_turn. cbn [fmap option_fmap option_map snd]. rewrite Ho. destruct (HasPrefix reason "aborted").
  - cbn [fst snd]. destruct (ChatStream.output s); cbn; by split.
  - destruct is_error; [|by cbn]. cbn [fst snd]. unfold agrees. repeat case_match; by cbn.
Qed.

Lemma result_keeps reason is_error result status now c a rest : tinv c -> oinv c -> rd c = a :: rest ->
  keeps c (section (onStreamResult reason is_error result status now c) rest).
Proof.
  intros I O E. unfold ChatStream.onStreamResult. pose proof (fun st s o H => result_agrees st s o c reason is_error result status now H) as Ha.
  destruct (result_turn _ _ _ _ _ _ _ _) as [outcome t]. cbn in Ha. destruct (claim t c) as [[tid c']|] eqn:Ec.
  - eapply taken_keeps; [exact E|]. apply (claim_taken _ _ _ _ _ (fun c => set_retrying "" (set_s_turn None c)) I Ec); [fields|]. intros o x Hin.
    apply elem_of_app in Hin as [Hin|Hin]; [by apply receive_no in Hin|]. do 2 (apply elem_of_cons in Hin as [Hin|Hin]; [discriminate|]).
    by eapply (settle_true _ _ _ _ _ I O Ec).
  - apply (cleared_keeps c (fun c => set_retrying "" (set_s_turn None c)) _ a); [done| |fields]. by intros ?? ?%elem_of_nil.
Qed.

Lemma missing_keeps missing version now c a rest : tinv c -> oinv c -> rd c = a :: rest -> keeps c (section (onMissing missing version now c) rest).
Proof.
  intros I O E. unfold ChatStream.onMissing. assert (Hno : forall o r l, AFinish o (IRes r) ∉ l -> AFinish o (IRes r) ∉ receive (stream_of c) ++ settle_op (stream_of c) IFails ++ l).
  { intros o r l Hl [Hin|[Hin|Hin]%elem_of_app]%elem_of_app; [by apply receive_no in Hin|by apply settle_in in Hin as [? _]|done]. }
  destruct (claim _ c) as [[tid c']|] eqn:Ec.
  - eapply taken_keeps; [exact E|]. apply (claim_taken _ _ _ _ _ (set_s_turn None) I Ec); [fields|]. intros o [r|] Hin; [|done]. exfalso.
    revert Hin. apply Hno. intros Hin. by do 3 (apply elem_of_cons in Hin as [Hin|Hin]; [discriminate|]); apply elem_of_nil in Hin.
  - apply (cleared_keeps c (set_s_turn None) _ a); [done| |fields]. intros o r. apply Hno. by intros ?%list_elem_of_singleton.
Qed.

(** More of the frame, and nothing of a turn. *)
Lemma more_keeps l a rest c c' : oinv c -> rd c = a :: rest -> (forall o r, AFinish o r ∉ l) -> quiet c c' -> c'.(s_turn) = c.(s_turn) ->
  c'.(ints) = c.(ints) ->
  (forall st, sid <$> c'.(streams) !! st = sid <$> c.(streams) !! st) -> (forall o, o_tid <$> c'.(ops) !! o = o_tid <$> c.(ops) !! o) ->
  (forall o x r, c'.(ops) !! o = Some x -> x.(ChatStream.o_result) = Some r ->
    (exists y, c.(ops) !! o = Some y /\ y.(ChatStream.o_result) = Some r) \/ true_of c o r) -> keeps c (set_rd (l ++ rest) c').
Proof.
  intros O E Hl (Et & En & Ec & Es & Er & Ew & _) Est Ei Hst Hop Hd. split; unfold over; cbn; rewrite ?Et, ?Est, ?Ec, ?Ew, ?Es, ?Ei; try done; try (by eauto).
  - exact (o_snd _ O).
  - intros o r [Hin|Hin]%elem_of_app; [by apply Hl in Hin|]. left. rewrite E. by right.
Qed.

Lemma rest_keeps a rest c c' : oinv c -> rd c = a :: rest -> quiet c c' -> c'.(s_turn) = c.(s_turn) -> c'.(ints) = c.(ints) ->
  (forall st, sid <$> c'.(streams) !! st = sid <$> c.(streams) !! st) -> c'.(ops) = c.(ops) -> keeps c (set_rd rest c').
Proof.
  intros O E Hq Hst Hi Hs Ho. apply (more_keeps [] a); try done; rewrite ?Ho; [by intros ?? ?%elem_of_nil|done|by eauto].
Qed.

Lemma init_no m have version c o r : AFinish o r ∉ (onStreamInit m have version c).2.
Proof.
  unfold onStreamInit. cbn [snd]. destruct (capsChecked c); [by intros ?%elem_of_nil|].
  destruct (lacks have); [by intros ?%elem_of_nil|by intros ?%list_elem_of_singleton].
Qed.

Lemma perform_keeps fails now a rest c : tinv c -> oinv c -> rd c = a :: rest -> keeps c (perform fails now a rest c).
Proof.
  intros I O E. destruct a as [| | | | | | | | | |st|o r|tid| |e|]; cbn [ChatStream.perform].
  - by eapply lifecycle_keeps.
  - unfold section. apply (more_keeps _ _ _ _ _ O E); [apply init_no|..]; cbn; try (by case_match). case_match; by eauto.
  - by eapply missing_keeps.
  - apply (rest_keeps _ _ _ _ O E); [quietly|done..].
  - apply (rest_keeps _ _ _ _ O E); case_match; try done; try quietly. intros st. cbn. by apply sid_alter.
  - apply (rest_keeps _ _ _ _ O E); case_match; try done; try quietly. intros st. cbn. apply sid_alter. intros s. by repeat case_match.
  - by eapply result_keeps.
  - apply (rest_keeps _ _ _ _ O E); case_match; try done; quietly.
  - apply (rest_keeps _ _ _ _ O E); [quietly|done..].
  - apply (rest_keeps _ _ _ _ O E); [apply quiet_write|..]; unfold streamWrite; by case_match.
  - apply (rest_keeps _ _ _ _ O E); [apply quiet_stream|done|done| |done]. intros st'. cbn. by apply sid_alter.
  - apply (more_keeps [] _ _ _ _ O E); [by intros ?? ?%elem_of_nil|apply quiet_finish|done|done|done|intros o'; apply finish_ops|].
    intros o' x r' Hx Hr. destruct (finish_result _ _ _ _ _ _ Hx Hr) as [?|[-> ->]]; [by left|right]. apply (o_rd _ O). rewrite E. by left.
  - destruct (publish_same tid c) as (E2 & E3 & E4 & E5 & E6 & E7 & E8 & E9 & E10).
    assert (Hp : s_turn (publish tid c) = s_turn c /\ ints (publish tid c) = ints c /\ streams (publish tid c) = streams c /\ ops (publish tid c) = ops c)
      by (unfold publish, emit; by repeat case_match). destruct Hp as (P1 & P2 & P3 & P4).
    split; cbn; rewrite ?P1, ?P2, ?P3, ?P4, ?E2, ?E3, ?E4, ?E6; try done; try (by eauto).
    + intros x u. apply publish_over.
    + exact (o_snd _ O).
    + intros o r Hin. left. rewrite E. by right.
  - split; cbn; try done; try (by eauto); [exact (o_snd _ O)|]. intros o r Hin. left. rewrite E. by right.
  - split; unfold over, emit; case_match; cbn; try done; try (by eauto); try exact (o_snd _ O); intros o r Hin; left; rewrite E; by right.
  - apply (rest_keeps _ _ _ _ O E); [quietly|done..].
Qed.

(** *** The other threads *)

#[local] Ltac keep O := split; unfold over; cbn; try done; try (by eauto); try exact (o_snd _ O); try lia.

Lemma publish_fields tid c : s_turn (publish tid c) = s_turn c /\ ints (publish tid c) = ints c /\ streams (publish tid c) = streams c /\ ops (publish tid c) = ops c.
Proof. unfold publish, emit; by repeat case_match. Qed.

Lemma stream_emit_fields e c : s_turn (emit e c) = s_turn c /\ ints (emit e c) = ints c /\ streams (emit e c) = streams c /\ ops (emit e c) = ops c.
Proof. unfold emit. by case_match. Qed.

(** A claim that leaves the stream turn where it is. *)
Lemma claim_keeps t c tid c' c2 : tinv c -> oinv c -> claim t c = Some (tid, c') -> c2.(turns) = c'.(turns) -> c2.(s_turn) = c.(s_turn) ->
  (is_Some c.(s_turn) -> c2.(currentTurn) = None /\ late c2.(waiting) = true) -> (late c.(waiting) = true -> late c2.(waiting) = true) ->
  snd_stream c.(s_turn) c2.(snd_) -> c2.(streams) = c.(streams) -> c2.(ops) = c.(ops) -> c2.(next) = c.(next) -> c2.(rd) = c.(rd) -> c2.(ints) = c.(ints) -> keeps c c2.
Proof.
  intros I O H Et Es Hc Hl Hs Est Eo En Er Ei. destruct (claim_over _ _ _ _ I H) as [_ Hov].
  split; rewrite ?Es, ?Est, ?Eo, ?En, ?Er, ?Ei; try done; try (by eauto). intros x u Hu. unfold over. rewrite Et. by apply Hov.
Qed.

Lemma wait_keeps m c c' : tinv c -> oinv c -> wait_step harness m c = Some c' -> keeps c c'.
Proof.
  intros I O H. destruct m, (waiting c) as [| | | |o i|i| | |tid| | |] eqn:Hw; try discriminate; cbn [wait_step] in H; rewrite Hw in H; try discriminate.
  - injection H as <-. keep O. by rewrite Hw.
  - destruct (rd c) eqn:Hr; [|discriminate]. injection H as <-. keep O. by rewrite Hw.
  - injection H as <-. keep O. by rewrite Hw.
  - injection H as <-. keep O; [by rewrite Hw|apply snd_stream_none].
  - injection H as <-. destruct o as [o|]; [|keep O; by rewrite Hw]. keep O; [by rewrite Hw|intros o'; apply finish_ops|].
    intros o' x r Hx Hr. destruct (finish_result _ _ _ _ _ _ Hx Hr) as [?|[-> ->]]; [by left|by right].
  - injection H as <-. destruct i as [i|]; [|keep O; by rewrite Hw]. unfold emit. case_match; keep O; by rewrite Hw.
  - injection H as <-. keep O. by rewrite Hw.
  - destruct (exit c) as [status|] eqn:E; [|discriminate]. cbn in H. case_bool_decide; [|discriminate]. injection H as <-. unfold exit_claim.
    set (t := ended _ _ _). destruct (claim t c) as [[tid c']|] eqn:Ec; [|keep O]. destruct (claim_fields _ _ _ _ Ec) as (E1 & E2 & E3 & E4 & E5 & E6 & E7 & E8).
    apply (claim_keeps t c tid c'); cbn; rewrite ?E4; try done; [|exact (o_snd _ O)]. intros _. split; [|done]. unfold claim in Ec.
    destruct (currentTurn c); [|done]. by injection Ec as _ <-.
  - injection H as <-. destruct (publish_same tid c) as (E2 & E3 & E4 & E5 & E6 & E7 & E8 & E9 & E10). destruct (publish_fields tid c) as (P1 & P2 & P3 & P4).
    split; cbn; rewrite ?P1, ?P2, ?P3, ?P4, ?E2, ?E3, ?E4, ?E5, ?E6; try done; try (by eauto); [apply publish_over|exact (o_snd _ O)].
  - injection H as <-. keep O.
  - destruct (exit c) as [status|] eqn:E; [|discriminate]. cbn in H. case_bool_decide; [|discriminate]. injection H as <-. unfold emit. case_match; keep O.
Qed.

Lemma send_keeps m c c' : tinv c -> oinv c -> send_step m c = Some c' -> (forall u, m <> MStream u) -> keeps c c'.
Proof.
  intros I O H Hm. pose proof (o_snd _ O) as Ho.
  destruct m, (snd_ c) as [|tx|tx|tx|tx td|tx td|tx td st|td st|td st er|td er|td| |r] eqn:Hs; try discriminate; cbn [send_step] in H; rewrite ?Hs in H; try discriminate.
  - unfold Send in H. case_match; [discriminate|]. injection H as <-. keep O.
  - injection H as <-. unfold begin_check. case_match; keep O.
  - injection H as <-. destruct ok; unfold append_user, emit; repeat case_match; keep O.
  - injection H as <-. destruct ok; [|keep O]. unfold append_assistant, emit.
    assert (Hn : forall tid t, over c tid t -> tid <> next c).
    { intros tid t Hu ->. assert (Hl : next c < next c); [|lia]. apply (t_next _ I). destruct Hu as [->| ->]; by eexists. }
    case_match; keep O; intros tid t Hu; specialize (Hn _ _ Hu); rewrite lookup_insert_ne by done; exact Hu.
  - injection H as <-. assert (Hrec : turns c !! td = Some Recorded) by (apply (t_rec _ I); by rewrite Hs).
    pose proof (t_sending _ I) as Hn. rewrite Hs in Hn. cbn in Hn. pose proof (t_fresh _ I ltac:(lia)) as Hc.
    keep O.
    + intros tid t Hu. destruct (decide (td = tid)) as [<-|Hne]; [naive_solver|by rewrite lookup_insert_ne].
    + intros [st Hst]. destruct (o_stream _ O _ Hst) as (s & _ & [E|[_ E]]); [congruence|]. apply (t_late _ I) in E as [_ E]. lia.
  - by edestruct Hm.
  - injection H as <-. unfold stream_write, streamWrite. repeat case_match; try done; keep O.
  - repeat case_match; try discriminate. injection H as <-. keep O.
  - case_match; try discriminate. injection H as <-. keep O.
  - injection H as <-. keep O.
  - injection H as <-. unfold dropStreamTurn. case_bool_decide as Hst; keep O. cbn in Ho. by destruct Ho.
  - injection H as <-. unfold failSubmit. set (t := ended _ _ _). destruct (if bool_decide _ then _ else _) as [[tid c']|] eqn:Ec; [|keep O].
    case_bool_decide; [|discriminate]. destruct (claim_fields _ _ _ _ Ec) as (E1 & E2 & E3 & E4 & E5 & E6 & E7 & E8).
    apply (claim_keeps t c tid c'); cbn; rewrite ?E5; try done. cbn in Ho. rewrite Ho. by intros [? [=]].
  - injection H as <-. destruct (publish_same td c) as (E2 & E3 & E4 & E5 & E6 & E7 & E8 & E9 & E10). destruct (publish_fields td c) as (P1 & P2 & P3 & P4).
    split; cbn; rewrite ?P1, ?P2, ?P3, ?P4, ?E2, ?E3, ?E4, ?E5, ?E6; try done; try (by eauto). apply publish_over.
  - injection H as <-. keep O.
  - injection H as <-. keep O.
Qed.

(** A thread of an Interrupt goes on: what it returns is its op's. *)
Lemma int_keeps m c c' : oinv c -> int_step m c = Some c' -> (forall m', m <> MInterrupt m') -> keeps c c'.
Proof.
  intros O H Hm.
  assert (Hk : forall m p d, quiet c d -> d.(s_turn) = c.(s_turn) -> d.(streams) = c.(streams) -> d.(ints) = c.(ints) ->
    (forall o, o_tid <$> d.(ops) !! o = o_tid <$> c.(ops) !! o) ->
    (forall o x r, d.(ops) !! o = Some x -> x.(ChatStream.o_result) = Some r -> (exists y, c.(ops) !! o = Some y /\ y.(ChatStream.o_result) = Some r) \/ true_of c o r) ->
    (forall o r, p = IReturned (Some o) (IRes r) -> true_of c o (IRes r)) -> (forall r, p <> IReturned None r) -> keeps c (set_int m p d)).
  { intros x p d (Et & En & Ec & Es & Er & Ew & _) Est Ess Ei Ho Hd Hp Hn. split; unfold over; cbn; rewrite ?Et, ?Est, ?Ec, ?Es, ?Er, ?Ew, ?Ei, ?Ess; try done; try (by eauto).
    - exact (o_snd _ O).
    - intros y o r Hy. destruct (decide (x = y)) as [->|Hne]; [rewrite lookup_insert_eq in Hy; injection Hy as ->; right; by apply Hp|].
      rewrite lookup_insert_ne in Hy by done. by left.
    - intros y r Hy. destruct (decide (x = y)) as [->|Hne]; [rewrite lookup_insert_eq in Hy; injection Hy as ->; by edestruct Hn|].
      by rewrite lookup_insert_ne in Hy. }
  assert (Hf : forall o o' x r', (finish o IFails c).(ops) !! o' = Some x -> x.(ChatStream.o_result) = Some r' ->
    (exists y, c.(ops) !! o' = Some y /\ y.(ChatStream.o_result) = Some r') \/ true_of c o' r').
  { intros o o' x r' Hx Hr. destruct (finish_result _ _ _ _ _ _ Hx Hr) as [?|[-> ->]]; [by left|by right]. }
  destruct m; try discriminate; cbn in H.
  - by edestruct Hm.
  - destruct (ints c !! m) as [[o| | | |]|]; try discriminate. case_match; injection H as <-.
    + apply Hk; try done; try quietly; [intros o'; apply finish_ops|apply Hf].
    + unfold streamWrite. case_match; apply Hk; try done; try quietly; by eauto.
  - destruct (ints c !! m) as [[|o| | |]|]; try discriminate. destruct (got c !! m) as [[]|]; try discriminate; cbn in H; injection H as <-; apply Hk; try done; try quietly; try (by eauto).
    intros o'. exact (finish_ops o IFails c o').
  - destruct (ints c !! m) as [[|o| | |]|]; try discriminate. injection H as <-. apply Hk; try done; try quietly; try (by eauto).
    + intros o'. exact (finish_ops o IFails c o').
    + exact (Hf o).
  - destruct (ints c !! m) as [[| |o| |]|]; try discriminate. destruct (ops c !! o) as [x|] eqn:Ex; [|discriminate]. cbn in H.
    destruct (ChatStream.o_result x) as [r|] eqn:Er; [|discriminate]. cbn in H. injection H as <-. apply Hk; try done; try quietly; try (by eauto).
    intros o' r' [= <- ->]. by eapply (o_done _ O).
  - destruct (ints c !! m) as [[| |o| |]|]; try discriminate. injection H as <-. apply Hk; try done; try quietly; try (by eauto).
Qed.

Lemma answer_keeps m c c' : oinv c -> answer_step m c = Some c' -> keeps c c'.
Proof.
  intros O H. destruct m; try discriminate; cbn in H; repeat case_match; try discriminate; injection H as <-.
  - unfold streamAnswer. repeat case_match; keep O.
  - unfold answer_write, streamWrite. repeat case_match; keep O.
  - unfold answer_clear. repeat case_match; keep O.
  - unfold emit. repeat case_match; keep O.
Qed.

(** *** A new stream turn, a new op *)

Lemma stream_oinv text u tid c : oinv c -> snd_ c = SCurrent text tid -> oinv (stream_begin text u tid c).
Proof.
  intros O Hs. unfold stream_begin. case_bool_decide as Hc; [|apply (keeps_oinv c); [keep O|done]].
  destruct O as [O1 O2 O3 O4 O5 O6 O7 O8]. split; cbn; try done; try (by right).
  - intros st [= <-]. eexists. rewrite lookup_insert_eq. split; [done|]. by left.
  - intros st s o Hst Ho. destruct (decide (next c = st)) as [<-|Hn]; [rewrite lookup_insert_eq in Hst; injection Hst as <-; discriminate|].
    rewrite lookup_insert_ne in Hst by done. by eapply O3.
  - intros o Ho. apply O4 in Ho. lia.
Qed.

Lemma interrupt_oinv m c : oinv c -> ints c !! m = None -> oinv (streamInterrupt m c).
Proof.
  intros O Hm. unfold streamInterrupt.
  assert (Hk : forall p, (forall o r, p <> IReturned (Some o) r) -> (forall r, p = IReturned None r -> r = IRes InterruptNoTurn) -> oinv (set_int m p c)).
  { intros p Hp Hn. destruct O as [O1 O2 O3 O4 O5 O6 O7 O8]. split; cbn; try done.
    - intros y o r Hy. destruct (decide (m = y)) as [->|Hne]; [rewrite lookup_insert_eq in Hy; injection Hy as ->; by edestruct Hp|].
      rewrite lookup_insert_ne in Hy by done. by eapply O7.
    - intros y r Hy. destruct (decide (m = y)) as [->|Hne]; [rewrite lookup_insert_eq in Hy; injection Hy as ->; by apply Hn|].
      rewrite lookup_insert_ne in Hy by done. by eapply O8. }
  destruct (s_turn c) as [st|] eqn:Est; [|apply Hk; [done|by intros r [= <-]]].
  destruct (o_stream _ O _ Est) as (s & Hs & Hcur). rewrite Hs. cbn. destruct (s_op s) as [o|] eqn:Eo; [by apply Hk|].
  destruct (currentTurn c) as [tid|] eqn:Ec; [|by apply Hk]. assert (tid = s_tid s) as -> by (destruct Hcur as [?|[? _]]; congruence). clear Hk.
  assert (Hfr : ops c !! next c = None).
  { destruct (ops c !! next c) eqn:E; [|done]. assert (H : next c < next c); [|lia]. apply (o_fresh _ O). by eexists. }
  destruct O as [O1 O2 O3 O4 O5 O6 O7 O8].
  set (c2 := set_int _ _ _).
  assert (Ht : forall o r, true_of c o r -> true_of c2 o r).
  { intros o r Ho. destruct r as [r|]; [|done]. destruct Ho as (x & Hx & Ho). exists x. split; [|done]. unfold c2. cbn. rewrite lookup_insert_ne by congruence. done. }
  split; cbn; try done.
  - rewrite Est. intros st' [= <-]. exists (with_op (next c) s). rewrite lookup_alter_eq, Hs. split; [done|]. by rewrite Ec in *; left.
  - intros st' s' o Hst Ho. destruct (decide (st = st')) as [<-|Hn].
    + rewrite lookup_alter_eq, Hs in Hst. injection Hst as <-. injection Ho as <-. eexists. rewrite lookup_insert_eq. by split.
    + rewrite lookup_alter_ne in Hst by done. destruct (O3 _ _ _ Hst Ho) as (x & Hx & Hxt). exists x. split; [|done]. rewrite lookup_insert_ne; [done|congruence].
  - intros o Ho. destruct (decide (next c = o)) as [<-|Hn]; [lia|]. rewrite lookup_insert_ne in Ho by done. apply O4 in Ho. lia.
  - intros o x r Hx Hr. apply Ht. destruct (decide (next c = o)) as [<-|Hn]; [rewrite lookup_insert_eq in Hx; by simplify_eq|].
    rewrite lookup_insert_ne in Hx by done. by eapply O5.
  - intros o r Hin. apply Ht. by apply O6.
  - intros y o r Hy. destruct (decide (m = y)) as [->|Hne]; [by rewrite lookup_insert_eq in Hy|]. rewrite lookup_insert_ne in Hy by done. apply (Ht o (IRes r)). by eapply O7.
  - intros y r Hy. destruct (decide (m = y)) as [->|Hne]; [by rewrite lookup_insert_eq in Hy|]. rewrite lookup_insert_ne in Hy by done. by eapply O8.
Qed.

Lemma step_oinv m c c' : tinv c -> oinv c -> step m c = Some c' -> oinv c'.
Proof.
  intros I O H. destruct m; cbn [ChatStream.step] in H; try (eapply keeps_oinv; [by eapply wait_keeps|done]); try (eapply keeps_oinv; [by eapply send_keeps|done]);
    try (eapply keeps_oinv; [by eapply int_keeps|done]); try (eapply keeps_oinv; [by eapply answer_keeps|done]).
  - case_match; [|discriminate]. injection H as <-. apply (keeps_oinv c); [|done]. keep O. intros o r Hin. exfalso.
    destruct f; cbn in Hin; repeat case_match; repeat (apply elem_of_cons in Hin as [Hin|Hin]; [done|]); by apply elem_of_nil in Hin.
  - destruct (rd c) as [|a rest] eqn:E; [discriminate|]. injection H as <-. apply (keeps_oinv c); [by apply perform_keeps|done].
  - injection H as <-. apply (keeps_oinv c); [keep O|done].
  - injection H as <-. apply (keeps_oinv c); [keep O|done].
  - cbn in H. destruct (snd_ c) eqn:Hs; try discriminate. injection H as <-. by apply stream_oinv.
  - cbn in H. destruct (ints c !! m) eqn:Hm; [discriminate|]. injection H as <-. by apply interrupt_oinv.
Qed.

Lemma opened_oinv : oinv opened.
Proof. split; cbn; try done; intros; try set_solver. by destruct H. Qed.

Theorem reaches_oinv c : reaches c -> oinv c.
Proof.
  intros H. induction H as [|c m c' Hr IH Hs]; [apply opened_oinv|]. eapply step_oinv; [by eapply reaches_tinv|done|done].
Qed.
End Ops.
