(* ===== verification/ChatStreamProps.v ===== *)
(** What a streamed conversation promises: its turns end once, its exit is
    always reported and is its last event, and an Interrupt's answer is how its
    turn ended; and three ways it fails. *)
From Stdlib Require Import ZArith Ascii String Lia.
From stdpp Require Import base tactics list strings option gmap.
From S2P Require Import Prelude GoStr Verdict ChatStream ChatStreamTurns ChatStreamOps.

#[local] Open Scope string_scope.
#[local] Open Scope list_scope.
#[local] Open Scope nat_scope.

Section Props.
Context (resumeAtFrom : string -> option Z) (harness : string).

Notation step := (step resumeAtFrom harness).
Notation run := (run resumeAtFrom harness).
Notation reaches := (reaches resumeAtFrom harness).

Lemma stream_run_reaches ms c c' : reaches c -> run ms c = Some c' -> reaches c'.
Proof.
  revert c. induction ms as [|m ms IH]; intros c Hc H; cbn in H; [by injection H as <-|].
  destruct (step m c) as [d|] eqn:E; [|discriminate]. cbn in H. eapply IH; [by eapply reaches_step|done].
Qed.

Lemma stream_run_app ms ms' c c' : run ms c = Some c' -> run (ms ++ ms') c = run ms' c'.
Proof.
  revert c. induction ms as [|m ms IH]; intros c H; cbn in H |- *; [by injection H as <-|].
  destruct (step m c) as [d|] eqn:E; [|discriminate]. cbn in H |- *. by apply IH.
Qed.

(** ** Turns *)

(** C18: stream_turns_end_once. *)
Theorem stream_turns_end_once c : reaches c ->
  (forall tid, well tid (events_of tid c.(log))) /\
  (forall tid t, EvTerminal tid t ∈ c.(log) -> c.(turns) !! tid = Some (Told t) /\ terminal t) /\
  (forall s, EvExited s ∈ c.(log) -> exists l, c.(log) = l ++ [EvExited s] /\ no_exit l /\ forall tid, settled tid (events_of tid l)).
Proof.
  intros H. apply reaches_tinv in H as I. split_and!; [apply I|..].
  - intros tid t Hin. apply (t_term _ I) in Hin. split; [done|]. eapply (t_state _ I). by right.
  - intros s Hin. destruct (t_final _ I) as [Hn|(_ & l & s' & El & Hn & Hset)]; [by apply Hn in Hin|].
    rewrite El in Hin. apply elem_of_app in Hin as [Hin|Hin]; [by apply Hn in Hin|]. apply list_elem_of_singleton in Hin as [= ->]. by exists l.
Qed.

(** ** Interrupts *)

(** C19: stream_interrupt_agrees. *)
Theorem stream_interrupt_agrees c m o r : reaches c -> c.(ints) !! m = Some (IReturned o (IRes r)) ->
  match o with
  | None => r = InterruptNoTurn
  | Some o => exists x, c.(ops) !! o = Some x /\ ended_as c.(turns) x.(o_tid) (agrees harness r)
  end.
Proof.
  intros Hr Hm. apply reaches_oinv in Hr as O. destruct o as [o|]; [exact (o_ints _ _ O _ _ _ Hm)|].
  by injection (o_none _ _ O _ _ Hm).
Qed.

(** ** The exit is always reported *)

Definition weight (a : todo) : nat := match a with ALifecycle _ _ | AMissing _ _ | AResult _ _ _ _ _ => 8 | AInit _ _ _ => 9 | _ => 1 end.
Definition weighs (l : list todo) : nat := sum_list_with weight l.

Lemma weighs_app l l' : weighs (l ++ l') = weighs l + weighs l'.
Proof. apply sum_list_with_app. Qed.

Lemma weighs_receive s : weighs (receive s) <= 1.
Proof. unfold receive. repeat case_match; cbn; lia. Qed.
Lemma weighs_settle s r : weighs (settle_op s r) <= 1.
Proof. unfold settle_op. repeat case_match; cbn; lia. Qed.

(** What a section leaves is lighter than what it was. *)
Lemma section_weighs r a rest : weighs r.2 < weight a -> weighs (rd (section r rest)) < weighs (a :: rest).
Proof. intros H. unfold section. cbn [rd set_rd]. rewrite weighs_app. cbn. fold (weighs rest). lia. Qed.

Lemma lifecycle_weighs u state now c : weighs (onStreamLifecycle harness u state now c).2 < 8.
Proof.
  unfold onStreamLifecycle. repeat (case_match; try (cbn; lia)). all: cbn [snd]; match goal with |- context [settle_op ?s ?r] => pose proof (weighs_settle s r) end.
  all: repeat change (weighs (?a :: ?l)) with (weight a + weighs l); cbn [weight]; lia.
Qed.

Lemma result_weighs reason is_error result status now c : weighs (onStreamResult resumeAtFrom harness reason is_error result status now c).2 < 8.
Proof.
  unfold onStreamResult. destruct (result_turn _ _ _ _ _ _ _ _) as [outcome t]. destruct (claim t c) as [[tid c']|]; [|cbn; lia].
  cbn [snd]. rewrite !weighs_app. pose proof (weighs_receive (stream_of c)). pose proof (weighs_settle (stream_of c) (IRes outcome)).
  change (weighs [APublish tid; ADone]) with 2. lia.
Qed.

Lemma missing_weighs missing version now c : weighs (onMissing harness missing version now c).2 < 8.
Proof.
  unfold onMissing. pose proof (weighs_receive (stream_of c)). pose proof (weighs_settle (stream_of c) IFails).
  destruct (claim _ c) as [[tid c']|]; cbn [snd]; rewrite !weighs_app; [change (weighs [APublish tid; ADone]) with 2|change (weighs []) with 0];
    change (weighs [AStop]) with 1; lia.
Qed.

Lemma init_weighs m have version c : weighs (onStreamInit m have version c).2 < 9.
Proof. unfold onStreamInit. cbn [snd]. destruct (capsChecked c); [cbn; lia|]. destruct (lacks have); cbn; lia. Qed.

Lemma perform_weighs fails now a rest c : weighs (rd (perform resumeAtFrom harness fails now a rest c)) < weighs (a :: rest).
Proof.
  destruct a; cbn [perform]; try (cbn; fold (weighs rest); lia); apply section_weighs;
    [apply lifecycle_weighs|apply init_weighs|apply missing_weighs|apply result_weighs].
Qed.

(** The reader's lines leave the other threads where they are. *)
Definition others (c c' : conv) : Prop := c'.(waiting) = c.(waiting) /\ c'.(snd_) = c.(snd_) /\ c'.(drained) = c.(drained).

Lemma claim_others t c tid c' : claim t c = Some (tid, c') -> others c c'.
Proof. unfold claim. destruct (currentTurn c); [|done]. by intros [= _ <-]. Qed.

Lemma lifecycle_others u state now c : others c (onStreamLifecycle harness u state now c).1.
Proof.
  unfold onStreamLifecycle. destruct (stream_of c) as [[st s]|]; [|done]. repeat (case_match; [done|]).
  destruct (claim _ c) as [[tid c']|] eqn:E; [|done]. by apply claim_others in E.
Qed.
Lemma result_others reason is_error result status now c : others c (onStreamResult resumeAtFrom harness reason is_error result status now c).1.
Proof.
  unfold onStreamResult. destruct (result_turn _ _ _ _ _ _ _ _) as [outcome t]. destruct (claim t c) as [[tid c']|] eqn:E; [|done]. by apply claim_others in E.
Qed.
Lemma missing_others missing version now c : others c (onMissing harness missing version now c).1.
Proof. unfold onMissing. destruct (claim _ c) as [[tid c']|] eqn:E; [|done]. by apply claim_others in E. Qed.

Lemma perform_others fails now a rest c : others c (perform resumeAtFrom harness fails now a rest c).
Proof.
  destruct a; cbn [perform]; try done; [apply lifecycle_others| |apply missing_others| | |apply result_others| | | |];
    unfold section, onStreamInit, publish, emit, streamWrite; cbn; by repeat case_match.
Qed.

Lemma reader_ends c : exists ms c', run ms c = Some c' /\ rd c' = [] /\ others c c'.
Proof.
  remember (weighs (rd c)) as n eqn:En. revert c En. induction (lt_wf n) as [n _ IH]. intros c ->. destruct (rd c) as [|a rest] eqn:E.
  - exists [], c. by split_and!.
  - pose proof (perform_weighs false 0%Z a rest c) as Hw. pose proof (perform_others false 0%Z a rest c) as (Ho1 & Ho2 & Ho3).
    destruct (IH _ Hw _ eq_refl) as (ms & c' & Hr & Hn & H1 & H2 & H3). exists (MPerform false 0%Z :: ms), c'. split_and!; [|done|].
    + cbn. by rewrite E.
    + unfold others. by rewrite H1, H2, H3.
Qed.

Definition can (c : conv) (P : conv -> Prop) : Prop := exists ms c', run ms c = Some c' /\ P c'.

Lemma can_now c (P : conv -> Prop) : P c -> can c P.
Proof. intros H. by exists [], c. Qed.
Lemma can_step m c c' P : step m c = Some c' -> can c' P -> can c P.
Proof. intros Hs (ms & d & Hr & HP). exists (m :: ms), d. split; [|done]. cbn. by rewrite Hs. Qed.
Lemma can_more c P Q : reaches c -> can c P -> (forall d, reaches d -> P d -> can d Q) -> can c Q.
Proof.
  intros Hc (ms & d & Hr & HP) H. destruct (H d) as (ms' & e & Hr' & HQ); [by eapply stream_run_reaches|done|]. exists (ms ++ ms'), e. split; [|done].
  by rewrite (stream_run_app _ _ _ _ Hr).
Qed.

(** The conversation is over: EvExited was the last it queued, and every turn was told. *)
Definition finished (c : conv) : Prop :=
  c.(waiting) = WDone /\ (exists l s, c.(log) = l ++ [EvExited s]) /\ forall tid p, c.(turns) !! tid = Some p -> exists t, p = Told t.

Definition live (p : wait_pc) (c : conv) : Prop := c.(waiting) = p /\ c.(drained) = false.

Lemma last_finishes c : reaches c -> live WEnds c -> ending c = 0 -> can c finished.
Proof.
  intros Hc [Hw Hd] He. apply reaches_tinv in Hc as I. pose proof (t_exit _ I) as Hx. rewrite Hw in Hx. destruct (exit c) as [status|] eqn:Ex; [|by edestruct Hx].
  assert (Hs : step MExitLast c = Some (set_waiting WDone (set_drained true (emit (EvExited status) c)))) by (cbn; by rewrite Hw, Ex, He).
  eapply can_step; [exact Hs|]. apply can_now. assert (I' : tinv (set_waiting WDone (set_drained true (emit (EvExited status) c)))).
  { eapply reaches_tinv, reaches_step; [exact Hc|exact Hs]. }
  split; [done|]. split; [exists (log c), status; cbn; by rewrite emit_log, Hd|].
  pose proof (t_late _ I) as Hl. pose proof (t_read _ I) as Hr. rewrite Hw in Hl, Hr. destruct (Hl eq_refl) as [Hcu Hse]. specialize (Hr eq_refl).
  pose proof (t_ending _ I) as Hdo. unfold dones in Hdo. rewrite He, Hr, Hw in Hdo. cbn in Hdo.
  intros tid p Hp. cbn in Hp. rewrite (proj1 (emit_turns _ _)) in Hp. destruct p as [| |t|t]; [exfalso..|by exists t].
  - apply (t_rec _ I) in Hp. rewrite (t_sending _ I) in Hse. by destruct (snd_ c).
  - apply (t_cur _ I) in Hp. congruence.
  - assert (Hin : tid ∈ claims c) by (apply (t_claim _ I); eauto). unfold claims in Hin. rewrite Hr, Hw in Hin. cbn in Hin. rewrite app_nil_r in Hin.
    destruct (snd_ c); cbn in *; try lia; by apply elem_of_nil in Hin.
Qed.

Lemma ends_finishes c : reaches c -> live WEnds c -> can c finished.
Proof.
  intros Hc [Hw Hd]. assert (Hin : forall d, reaches d -> live WEnds d -> snd_dones (snd_ d) = 0 -> can d finished).
  { intros d Hr [Hw' Hd'] H0. apply last_finishes; [done..|]. apply reaches_tinv in Hr as I. rewrite (t_ending _ I). unfold dones.
    rewrite (t_read _ I), Hw', H0 by (by rewrite Hw'). done. }
  destruct (decide (snd_dones (snd_ c) = 0)) as [H0|H0]; [by apply Hin|].
  assert (Hend : forall d, reaches d -> live WEnds d -> snd_ d = SEnded -> can d finished).
  { intros d Hr [Hw' Hd'] Hs. assert (Hst : step MEnded d = Some (set_snd (SReturning SendFails) (done_ d))) by (cbn; by rewrite Hs).
    eapply can_step; [exact Hst|]. apply Hin; [by eapply reaches_step|done|done]. }
  destruct (snd_ c) as [| | | | | | | | | |tid| |] eqn:Hs; try done; [|by apply Hend].
  assert (Hst : step MPublish c = Some (set_snd SEnded (publish tid c))) by (cbn; by rewrite Hs).
  eapply can_step; [exact Hst|]. apply Hend; [by eapply reaches_step| |done]. destruct (publish_same tid c) as (E2 & E3 & E4 & E5 & E6 & E7 & E8 & E9 & E10).
  split; cbn; congruence.
Qed.

Lemma ended_finishes c : reaches c -> live WEnded c -> can c finished.
Proof.
  intros Hc [Hw Hd]. assert (Hs : step MExitEnded c = Some (set_waiting WEnds (done_ c))) by (cbn; by rewrite Hw).
  eapply can_step; [exact Hs|]. apply ends_finishes; [by eapply reaches_step|by split].
Qed.

Lemma publish_finishes tid c : reaches c -> live (WPublish tid) c -> can c finished.
Proof.
  intros Hc [Hw Hd]. assert (Hs : step MExitPublish c = Some (set_waiting WEnded (publish tid c))) by (cbn; by rewrite Hw).
  eapply can_step; [exact Hs|]. apply ended_finishes; [by eapply reaches_step|]. destruct (publish_same tid c) as (E2 & E3 & E4 & E5 & E6 & E7 & E8 & E9 & E10).
  split; [done|]. cbn. congruence.
Qed.

Lemma claims_finishes c : reaches c -> live WSends c -> sending c = 0 -> can c finished.
Proof.
  intros Hc [Hw Hd] Hse. apply reaches_tinv in Hc as I. pose proof (t_exit _ I) as Hx. rewrite Hw in Hx. destruct (exit c) as [status|] eqn:Ex; [|by edestruct Hx].
  assert (Hs : step (MSends 0%Z) c = Some (exit_claim harness status 0%Z c)) by (cbn; by rewrite Hw, Ex, Hse).
  eapply can_step; [exact Hs|]. assert (Hr : reaches (exit_claim harness status 0%Z c)) by (by eapply reaches_step). revert Hr. unfold exit_claim.
  destruct (claim _ c) as [[tid c']|] eqn:E; intros Hr; [|by apply ends_finishes]. apply claim_others in E as (_ & _ & Ed).
  eapply publish_finishes; [done|]. split; [done|]. cbn. congruence.
Qed.

(** A Send that was recording its turn goes on, or gives up. *)
Lemma recording_ends c p : reaches c -> live p c -> can c (fun d => live p d /\ sending d = 0).
Proof.
  intros Hc [Hw Hd]. apply reaches_tinv in Hc as I. pose proof (t_sending _ I) as Hs. destruct (snd_ c) as [|tx|tx|tx|tx tid|tx tid|tx tid st|tid st|tid st er|tid er|tid| |r] eqn:E;
    cbn in Hs; try (apply can_now; by split).
  - eapply (can_step (MUser false)); [cbn; by rewrite E|]. apply can_now. cbn. rewrite Hs. by split_and!.
  - eapply (can_step (MAssistant false)); [cbn; by rewrite E|]. apply can_now. cbn. rewrite Hs. by split_and!.
  - eapply (can_step MCurrent); [cbn; by rewrite E|]. apply can_now. cbn. rewrite Hs. by split_and!.
Qed.

Lemma sends_finishes c : reaches c -> live WSends c -> can c finished.
Proof.
  intros Hc Hl. eapply can_more; [exact Hc|by apply (recording_ends _ WSends)|]. intros d Hr [Hl' H0]. by apply claims_finishes.
Qed.

Lemma exits_finishes c : reaches c -> live WExit c -> can c finished.
Proof.
  intros Hc [Hw Hd]. assert (Hs : step (MExitSet "") c = Some (set_waiting WSends (set_exit (Some "") c))) by (cbn; by rewrite Hw).
  eapply can_step; [exact Hs|]. apply sends_finishes; [by eapply reaches_step|by split].
Qed.

Lemma resolve_finishes i c : reaches c -> live (WResolve i) c -> can c finished.
Proof.
  intros Hc [Hw Hd]. assert (Hs : step MResolve c = Some (set_waiting WExit (match i with Some id => emit (EvResolved id) c | None => c end))) by (cbn; by rewrite Hw).
  eapply can_step; [exact Hs|]. apply exits_finishes; [by eapply reaches_step|]. split; [done|]. destruct i as [id|]; [|done]. cbn. unfold emit. by case_match.
Qed.

Lemma settle_finishes o i c : reaches c -> live (WSettle o i) c -> can c finished.
Proof.
  intros Hc [Hw Hd]. assert (Hs : step MSettle c = Some (set_waiting (WResolve i) (match o with Some o => finish o IFails c | None => c end))) by (cbn; by rewrite Hw).
  eapply can_step; [exact Hs|]. apply (resolve_finishes i); [by eapply reaches_step|]. split; [done|]. by destruct o.
Qed.

Lemma clear_finishes c : reaches c -> live WClear c -> can c finished.
Proof.
  intros Hc [Hw Hd]. assert (Hs : step MClear c = Some (wait_clear c)) by (cbn; by rewrite Hw).
  eapply can_step; [exact Hs|]. eapply settle_finishes; [by eapply reaches_step|]. by split.
Qed.

Lemma stdin_finishes c : reaches c -> live WStdin c -> can c finished.
Proof.
  intros Hc [Hw Hd]. assert (Hs : exists d, step MStdin c = Some d /\ live WClear d) by (cbn; rewrite Hw; by eexists).
  destruct Hs as (d & Hs & Hl). eapply can_step; [exact Hs|]. apply clear_finishes; [by eapply reaches_step|done].
Qed.

Lemma read_finishes c : reaches c -> live WRead c -> can c finished.
Proof.
  intros Hc [Hw Hd]. eapply (can_more c (fun d => live WRead d /\ rd d = [])); [exact Hc| |].
  - destruct (reader_ends c) as (ms & d & Hr & Hn & E1 & E2 & E3). exists ms, d. split; [done|]. split; [|done]. split; congruence.
  - intros d Hrd [[Hw' Hd'] Hn]. assert (Hs : step MReadEnd d = Some (set_waiting WStdin d)) by (cbn; by rewrite Hw', Hn).
    eapply can_step; [exact Hs|]. apply stdin_finishes; [by eapply reaches_step|by split].
Qed.

End Props.

(** ** Witnesses, and the ways it fails *)

#[local] Notation run_ := (run (fun _ => None) "claude-code").
#[local] Notation step_ := (step (fun _ => None) "claude-code").

(** A Send up to its write; and up to its return. *)
Definition sent (text u : string) : list move := [MSend text true false; MBegin; MUser true; MAssistant true; MCurrent; MStream u; MWrite false].
Definition received_ (u : string) : list move := [MRead (FLifecycle u "queued") 0; MPerform false 0; MPerform false 0; MReceived; MRelease].

(** A turn streams, is interrupted, and is stopped. *)
Definition interrupted_run : list move :=
  sent "fix it" "u1" ++ received_ "u1" ++ [MRead (FDelta "" "on it") 0; MPerform false 0; MInterrupt 0; MControl 0 false; MRead (FControlResponse 0 true) 0;
    MPerform false 0; MControlled 0; MRead (FResult "aborted_streaming" false "" 0) 7] ++ List.repeat (MPerform false 7) 5 ++ [MAnswered 0].

Definition after (ms : list move) : conv := match run_ ms opened with Some c => c | None => opened end.

Lemma after_reaches ms : is_Some (run_ ms opened) -> reaches (fun _ => None) "claude-code" (after ms).
Proof. intros [c H]. unfold after. rewrite H. eapply stream_run_reaches; [apply reaches_opened|exact H]. Qed.

(** The process ends, with no turn in flight or with one. *)
Definition exited (in_flight : bool) : list move :=
  [MExit; MReadEnd; MStdin; MClear; MSettle; MResolve; MExitSet "failed"; MSends 9] ++ (if in_flight then [MExitPublish; MExitEnded] else []) ++ [MExitLast].

(** C1 witness: a turn that ended before the exit, and the exit last. *)
Lemma stream_turns_end_once_witness : let c := after (interrupted_run ++ exited false) in
  c.(log) = [EvUser "fix it"; EvPending 0; EvTerminal 0 (set_Text "on it" (ended TurnStateInterrupted "claude-code: interrupted: the harness stopped the turn" 7)); EvExited "failed"] /\
  exists l, c.(log) = l ++ [EvExited "failed"] /\ no_exit l /\ forall tid, settled tid (events_of tid l).
Proof.
  cbv zeta. assert (El : (after (interrupted_run ++ exited false)).(log) =
    [EvUser "fix it"; EvPending 0; EvTerminal 0 (set_Text "on it" (ended TurnStateInterrupted "claude-code: interrupted: the harness stopped the turn" 7)); EvExited "failed"])
    by (vm_compute; reflexivity).
  split; [exact El|]. eapply (stream_turns_end_once (fun _ => None) "claude-code"); [apply after_reaches; vm_compute; by eexists|].
  rewrite El. do 3 right. by left.
Defined.

(** C2 witness. *)
Lemma stream_interrupt_agrees_witness : exists x, (after interrupted_run).(ops) !! 2 = Some x /\ ended_as (after interrupted_run).(turns) x.(o_tid) (agrees "claude-code" InterruptStopped).
Proof.
  apply (stream_interrupt_agrees (fun _ => None) "claude-code" (after interrupted_run) 0 (Some 2) InterruptStopped);
    [apply after_reaches; vm_compute; by eexists|vm_compute; reflexivity].
Defined.


(** *** A result of a message whose Send gave up ends the next turn *)

Definition gives_up : list move := [MGiveUp "context canceled"; MDrop; MFail 3; MPublish; MEnded; MRelease].
Definition stale_run : list move :=
  sent "first" "u1" ++ gives_up ++ sent "second" "u2" ++ [MRead (FResult "completed" false "answer to first" 0) 5] ++ List.repeat (MPerform false 5) 4.

(** The result frame names no message, and nothing tells the reader that the
    one it is for was given up: the turn of the second ends complete with the
    answer to the first, which claude has just started on the second. *)
Theorem stale_result_ends_next_turn : let c := after stale_run in
  c.(log) = [EvUser "first"; EvPending 0; EvTerminal 0 (ended TurnStateErrored "submit: context canceled" 3);
             EvUser "second"; EvPending 2; EvTerminal 2 (set_Text "answer to first" (ended TurnStateComplete "" 5))] /\
  c.(lines) = [User "u1" "first"; User "u2" "second"] /\ c.(currentTurn) = None.
Proof. vm_compute. by split_and!. Qed.

(** *** An Interrupt in the window where the exit has claimed the turn *)

(** streamWait takes the stream turn, then the Send that was recording the turn
    makes one, then exitWith claims the turn: an Interrupt finds the stream
    turn and reads the id of a turn that is not there. *)
Theorem late_interrupt_panics : let c := after ([MSend "hi" true false; MBegin; MUser true; MAssistant true; MCurrent; MExit; MReadEnd; MStdin; MClear; MStream "u1";
    MSettle; MResolve; MExitSet "failed"; MSends 9; MInterrupt 0]) in
  c.(ints) !! 0 = Some IPanics /\ c.(currentTurn) = None /\ c.(s_turn) = Some 1.
Proof. vm_compute. by split_and!. Qed.

(** *** An Interrupt of a message whose Send gave up *)

(** Nobody holds the op [o] any more, and none will. *)
Record lost (m o : nat) (c : conv) : Prop := mkLost {
  l_int : c.(ints) !! m = Some (IWait o);
  l_op : exists tid, c.(ops) !! o = Some (mkOp tid None);
  l_done : c.(waiting) = WDone;
  l_rd : c.(rd) = [];
  l_exit : c.(exit) <> None;
  l_turn : c.(s_turn) = None;
  l_snd : c.(snd_) = SIdle \/ exists text, c.(snd_) = SReserved text \/ exists r, c.(snd_) = SReturning r;
  l_alone : forall k, c.(ints) !! k <> Some (IControl o) /\ c.(ints) !! k <> Some (IAsked o) }.

Section Lost.
Context (resumeAtFrom : string -> option Z) (harness : string).

(** Another Interrupt's thread goes to [p]. *)
Lemma lost_int m o c k p d : lost m o c -> k <> m -> p <> IControl o -> p <> IAsked o -> d.(ints) = c.(ints) -> d.(ops) !! o = c.(ops) !! o ->
  d.(waiting) = c.(waiting) -> d.(rd) = c.(rd) -> d.(exit) = c.(exit) -> d.(s_turn) = c.(s_turn) -> d.(snd_) = c.(snd_) -> lost m o (set_int k p d).
Proof.
  intros [L1 L2 L3 L4 L5 L6 L7 L8] Hk Hp Hq Ei Eo Ew Er Ex Es En. split; cbn; rewrite ?Ei, ?Eo, ?Ew, ?Er, ?Ex, ?Es, ?En; try done.
  - by rewrite lookup_insert_ne.
  - intros y. destruct (decide (k = y)) as [->|Hn]; [rewrite lookup_insert_eq|by rewrite lookup_insert_ne]. split; congruence.
Qed.

Lemma int_lost mv m o c c' : lost m o c -> int_step mv c = Some c' -> mv <> MIntGiveUp m -> lost m o c'.
Proof.
  intros L H Hm. destruct (l_op _ _ _ L) as [tid L2]. pose proof (l_int _ _ _ L) as L1.
  assert (Hk : forall k p d, k <> m -> p <> IControl o -> p <> IAsked o -> d.(ints) = c.(ints) -> d.(ops) !! o = c.(ops) !! o ->
    d.(waiting) = c.(waiting) -> d.(rd) = c.(rd) -> d.(exit) = c.(exit) -> d.(s_turn) = c.(s_turn) -> d.(snd_) = c.(snd_) -> lost m o (set_int k p d))
    by (intros; by apply (lost_int m o c)).
  assert (Hf : forall o', o' <> o -> (finish o' IFails c).(ops) !! o = c.(ops) !! o) by (intros; unfold finish; cbn; by rewrite lookup_alter_ne).
  destruct mv as [| | | | | | | | | | | | | | | | | | | | | | | | | | | | | |k|k f|k|k|k|k| | | |]; try discriminate; cbn in H;
    destruct (ints c !! k) as [[o'|o'|o'| |]|] eqn:E; try discriminate; try (assert (Ho : o' <> o) by (intros ->; destruct (l_alone _ _ _ L k); congruence));
    try (assert (Hne : k <> m) by congruence).
  - injection H as <-. unfold streamInterrupt. rewrite (l_turn _ _ _ L). by apply Hk.
  - injection H as <-. case_match; [apply Hk; try done; try (by apply Hf)|]. unfold streamWrite. case_match; apply Hk; try done; congruence.
  - destruct (got c !! k) as [[]|]; try discriminate; cbn in H; injection H as <-; apply Hk; try done; try (by apply Hf).
  - injection H as <-. apply Hk; try done; try (by apply Hf).
  - destruct (ops c !! o') as [x|] eqn:Ex; [|discriminate]. cbn in H. destruct (ChatStream.o_result x) eqn:Er; [|discriminate]. cbn in H. injection H as <-.
    apply Hk; try done. intros ->. assert (o' = o) as -> by congruence. rewrite L2 in Ex. by injection Ex as <-.
  - injection H as <-. by apply Hk.
Qed.

Lemma answer_lost mv m o c c' : lost m o c -> answer_step mv c = Some c' -> lost m o c'.
Proof.
  intros [L1 L2 L3 L4 L5 L6 L7 L8] H.
  destruct mv; try discriminate; cbn in H; repeat case_match; try discriminate; injection H as <-;
    unfold streamAnswer, answer_write, answer_clear, streamWrite, emit; repeat case_match; by split.
Qed.

(** Only the Interrupt itself can go on, when its context ends. *)
Lemma step_lost mv m o c c' : lost m o c -> step resumeAtFrom harness mv c = Some c' -> mv <> MIntGiveUp m -> lost m o c'.
Proof.
  intros L H Hm. destruct mv; cbn [step] in H; try (by eapply int_lost); try (by eapply answer_lost);
    pose proof L as [L1 L2 L3 L4 L5 L6 L7 L8]; cbn in H; rewrite ?L3, ?L4 in H; try discriminate.
  all: try (injection H as <-; by split).
  all: destruct L7 as [L7|[? [L7|[? L7]]]]; rewrite L7 in H; try discriminate.
  - unfold Send in H. destruct (exit c); [|by edestruct L5]. by rewrite !orb_true_r in H.
  - injection H as <-. unfold begin_check. assert (is_none (exit c) = false) as -> by (by destruct (exit c)). rewrite orb_true_r. split; cbn; try done.
    right. exists ""; right. by eexists.
  - injection H as <-. split; cbn; eauto.
Qed.

Lemma run_lost ms m o c c' : lost m o c -> run resumeAtFrom harness ms c = Some c' -> MIntGiveUp m ∉ ms -> lost m o c'.
Proof.
  revert c. induction ms as [|mv ms IH]; intros c L H Hn; cbn in H; [by injection H as <-|].
  destruct (step _ _ mv c) as [d|] eqn:E; [|discriminate]. cbn in H. apply not_elem_of_cons in Hn as [Hn1 Hn2].
  eapply IH; [eapply step_lost; [exact L|exact E|congruence]|done|done].
Qed.
End Lost.

Definition lost_run : list move :=
  sent "hi" "u1" ++ [MInterrupt 0; MControl 0 false; MRead (FControlResponse 0 true) 0; MPerform false 0; MControlled 0] ++ gives_up ++
  [MRead (FResult "aborted_streaming" false "" 0) 7; MPerform false 7] ++ exited false.

(** The Send's message is interrupted, claude confirms, and the Send's context
    ends: dropStreamTurn takes the stream turn with its op, which neither the
    result nor the exit settles. Long after the exit was reported, the Interrupt
    waits. *)
Theorem dropped_interrupt_waits : let c := after lost_run in
  c.(log) = [EvUser "hi"; EvPending 0; EvTerminal 0 (ended TurnStateErrored "submit: context canceled" 3); EvExited "failed"] /\
  forall resumeAtFrom harness ms c', run resumeAtFrom harness ms c = Some c' -> MIntGiveUp 0 ∉ ms -> c'.(ints) !! 0 = Some (IWait 2).
Proof.
  cbv zeta. split; [vm_compute; reflexivity|]. intros resumeAtFrom harness ms c' H Hn.
  eapply l_int, run_lost; [|exact H|exact Hn]. split; try (vm_compute; reflexivity).
  - exists 0. vm_compute. reflexivity.
  - vm_compute. discriminate.
  - left. vm_compute. reflexivity.
  - intros k. assert (E : ints (after lost_run) = {[0 := IWait 2]}) by (vm_compute; reflexivity). rewrite E.
    destruct (decide (0 = k)) as [<-|Hk]; [by rewrite lookup_singleton_eq|by rewrite lookup_singleton_ne].
Qed.
